(* ===== verification/_CoqProject ===== *)
-Q . S2P
Prelude.v
OrdMap.v
Numeric.v
Identity.v
Descriptor.v
DedupKey.v
Continuity.v
Observation.v
Book.v
BookProps.v
Digest.v
Pool.v
Channel.v
Observer.v
ObserverProps.v
Lexical.v
LexicalProps.v
SocketIo.v
Session.v
WireProps.v
Limitless.v
Pacing.v
Connection.v
ConnectionProps.v
Supervisor.v
SupervisorSim.v
SupervisorProps.v
ShmCodec.v
ShmCell.v
ShmLayout.v
ShmWriter.v
ShmWriterProps.v
QueueAge.v
ShardMarket.v
Shard.v
ShardFloor.v
ShardInv.v
ShardSim.v
ShardEnds.v
ShardProps.v
ShardDemand.v
Daemon.v
DaemonProps.v
Router.v
RouterLaws.v
RouterInv.v
RouterProps.v
RouterExact.v
RouterShards.v
DaemonRun.v
Client.v
ClientProps.v
Control.v
ControlLeases.v
ControlProps.v
ControlFraming.v
ControlRun.v
ShmRun.v
ShmInv.v
ShmReader.v
ShmReaderProps.v
ShmReads.v
ShmAnswers.v
ShmContract.v
ShmRest.v
