(* ===== verification/Prelude.v ===== *)
(** * pm-ws: a verification library for the market-data core

    [pm-ws] subscribes to a prediction-market venue over WebSocket, keeps one authoritative
    order book per market, and hands every book to in-process and cross-process consumers with
    an account of what each of them may have missed. This library models the parts of the
    program that decide whether a consumer's book is right, and proves that it is.

    ** How the program's parts interact

    A frame arrives on a connection. [wire/session.rs] and [wire/socketio.rs] open the session
    and take the frame apart; [wire/lexical.rs] parses its payload keeping number lexemes.
    The lexemes become exact decimals ([numeric.rs]); identities, provenance and levels are
    checked by their constructors ([identity.rs], [descriptor.rs], [observation.rs]) into a
    [Candidate]. Where several sockets carry one market, [pool.rs] lets the first arrival of
    each venue key through and withdraws its licence on the first contradiction, comparing
    contents by the projections of [dedup.rs]. The survivor is applied to the [OrderBook] of
    [book.rs], whose stream continuity is the state machine of [state.rs]; the resulting
    state and deliveries are published by the writer of [observer.rs] and followed by its
    consumers. [shm/] publishes the same books to other processes through a memory-mapped
    segment ([shm/layout.rs]) whose words are encoded by [shm/codec.rs].

    The daemon runs this many times over. [daemon.rs] validates a configuration and deals its
    markets out over shards; each shard ([limitless/shard.rs]) keeps its markets on a few
    connections. The router of [bin/pmwsd.rs] keeps which shard has which market and why it
    is wanted (an operator's pin, a session's lease), sends the shards their commands, and is
    driven by the control loop, which serves the sessions of the control socket
    ([control.rs]) in turn. [bin/pmwsctl.rs] is the operator's client.

    ** The files

    - [Prelude]: [Result], [?] and byte strings; machine-integer helpers; lemmas and tactics
      the components share ([bool_facts], [res_inv] and the hint database).
    - [OrdMap]: [Ord] as the interface [KeyOrder]; [BTreeMap], [sort] and [dedup].
    - [Numeric] ([numeric.rs]): [ExactDecimal], its grammar, parsing, order and arithmetic.
      A [u16], [u32], [i128] or [u128] is a [Z] with its range checks written where the code
      has them (checked arithmetic, [TryFrom]) and wrap-around where it wraps.
    - [Identity], [Descriptor], [Observation] ([identity.rs], [descriptor.rs],
      [observation.rs]): data with the constructors that are the only way to make it.
    - [DedupKey], [Digest] ([dedup.rs]): venue keys and their classification; the FNV-1a
      fingerprint and the content projection.
    - [Continuity] ([state.rs]): authority, epochs, cursors, source topology.
    - [Book], [BookProps] ([book.rs]): each fallible method of [OrderBook] is a [prog], a
      function from a book to a result and the book left behind, so that the state a refused
      call leaves is part of the model; then the theorems.
    - [Pool] ([pool.rs]): the evidence ledger and the gate, with its invariant.
    - [Channel]: the interfaces of tokio's [broadcast] and [watch] channels as classes, one
      with the operations and one with the documented laws, and concrete channels [ring] and
      [slot] that satisfy them.
    - [Observer], [ObserverProps] ([observer.rs]): writer and consumer over the interfaces;
      then the transition system of a writer and a consumer and what holds on all its runs.
    - [Lexical], [LexicalProps] ([wire/lexical.rs]): the scanner; then the JSON grammar as a
      relation and the equivalence of the two.
    - [SocketIo], [Session], [WireProps] ([wire/socketio.rs], [wire/session.rs]).
    - [Limitless] ([limitless.rs]): the venue's events out of decoded frames, what exactly is
      accepted, and the candidate a book update becomes.
    - [Pacing] ([limitless/supervisor.rs], the helpers): the ledger of connection attempts,
      the command pacers of the endpoints, the backoff. Instants and durations are integers in
      nanoseconds.
    - [Connection] ([limitless/connection.rs]): one connection's task, from the dial to the
      exit: the notices it queues and the two it must not lose ([NoticeSink]), the commands it
      writes, its read loop. [ConnectionProps]: what is told of it, and what it wrote.
    - [Supervisor] ([limitless/supervisor.rs], the state machine): a handler is a function
      from the supervisor to the supervisor; what it asks of its environment (the clock, which
      tasks have ended, the process-wide ledger and pacers, whether a channel takes a message,
      what has been queued meanwhile) is answered by [env], one answer per question, and what
      it does to tasks is logged ([Effect]). [turn] is one turn of the loop. The segment is
      the interface [SegmentSink]. [SupervisorSim]: the [Desk] (the writer, whether a base was
      accepted, who holds which generation) with its few steps, and that every handler
      performs a sequence of them; [Quiet] and [Preserves] are instances per handler that the
      tactic [walk] finds. [SupervisorProps]: the theorems.
    - [QueueAge] ([limitless/shard.rs], the histogram of an interval). [ShardMarket]: one
      market of a shard (its entry, what a frame, a loss, a promotion does to it) and the
      interface [ShardSink] of the segment. [Shard]: the task that keeps many markets on a few
      shared connections, built as [Supervisor] is ([ShardEnv] answers, [turn] steps).
      [ShardFloor]: the markets, their counts and the lists of agreement alone, with the few
      steps that change them; [ShardInv] the invariant of those steps; [ShardSim] that every
      handler is a sequence of them; [ShardEnds] what the end of a connection leaves live;
      [ShardProps] the theorems. [ShardDemand]: what the commands of its handle do to the
      markets it wants.
    - [Daemon], [DaemonProps] ([daemon.rs]): the document, its validation and the plan; what
      is accepted, and what the plan of it is.
    - [Router] ([bin/pmwsd.rs], the router; the types of [control.rs]): each method a state
      and panic program over the table and the shards, which are the interface [Fleet].
      [RouterLaws]: what the router relies on of a shard's handle ([FleetLaws]) and what a
      batch sent to several shards leaves. [RouterInv]: what each method answers and leaves.
      [RouterProps]: the demand, what is never withdrawn, a batch refused half way.
      [RouterExact]: the table against the shards over runs. [RouterShards]: modelled shards
      as a [Fleet] that keeps the laws. [DaemonRun]: configuration, shards and router
      together, and concrete runs.
    - [Control] ([bin/pmwsd.rs], sessions and loop): framing, rotation, attachments, releases,
      deadlines and the events of the loop. [ControlLeases], [ControlProps]: leases and
      rotation over runs of the loop; [ControlFraming]: what is framed of what was received;
      [ControlRun]: concrete runs.
    - [Client], [ClientProps] ([bin/pmwsctl.rs]): the pages of a status walk.
    - [ShmCodec] ([shm/codec.rs]): the fixed-width words of the segment, both ways.
    - [ShmLayout] ([shm/layout.rs]): where everything lies in a segment, and what attaching
      validates.
    - [ShmCell] ([shm/cell.rs]): bounded records and the memory of the cells. A region's
      memory is the sequence of the stores made to it; a load returns a choice among the
      stores its view still allows, fences and acquire loads raise the view
      ([may_read], [open_read], [close_read]); a copy under a counter is a tree of loads.
    - [ShmWriter] ([shm/writer.rs]): [create], [install] and the publications, each a state
      and error program over [SegmentWriter], which owns the memory. [ShmWriterProps] shows
      which cells one publication leaves; [ShmRun] and [ShmInv] give the runs of a writer
      ([writer_trace]: a log of publications) and their invariant.
    - [ShmReader] ([shm/reader.rs]): handles, snapshots, cursors, the event stream and the
      dirty index, each a program that takes the history it runs against, the choices of its
      loads and its view ([rprog]). [ShmReaderProps]: what was staged decodes to what was
      published. [ShmReads]: the calculus [ensures] of what every choice leads to, and
      [ensures_run], which also carries the loads that were taken. [ShmAnswers]: what each
      operation may answer against a run of the writer. [ShmContract]: the theorems about
      writer and readers. [ShmRest]: what a reader of the latest stores gets, and with which
      loads ([reaches_by]).

    ** What the theorems show

    - Consumers ([ObserverProps]): on every interleaving a consumer is handed a gapless run of
      the writer's deliveries or is told of the loss; a drained consumer that replayed its
      deliveries rests at the writer's depth; every answer of a receive is exact.
    - The book ([BookProps]): exactly when a snapshot or delta is accepted and what it does;
      that its mutations replay it; that refused calls change nothing; that stream positions
      are never reused; that the complement view exists and is an involution.
    - The pool ([Pool]): published keys strictly increase; while the venue keeps its word the
      pool is a race and never degrades; the tripwire fires exactly on a contradiction; a
      degraded gate stays silent.
    - Text ([LexicalProps], [WireProps], [Numeric]): the JSON parser accepts exactly its
      grammar and always answers; packets round trip; a decimal lexeme denotes exactly the
      value parsed, and the order of decimals is that of the rationals.
    - Venue events ([Limitless]): a frame decodes to exactly the book or resolution its
      payload reports, and a decoded book is one the order book accepts.
    - Pacing ([Pacing]): attempts stay within the budget of any day-long window, commands to
      one endpoint keep their distance, a backoff stays within its bounds.
    - The supervisor ([SupervisorProps]): on every run, whatever the environment answers, the
      published book is sound and live only on an accepted base, no generation sits in two
      slots, and one that lost its slot never gets it back; a hot standby changes nothing a
      consumer sees; the end of the primary takes the book down or hands it to a standby that
      agreed with it; an overdue connection's queue is discarded. A supervisor moves its book
      only as the writer of the consumer system does, so the theorems on consumers hold of
      it. One theorem is about a flaw: pings counted for the wrong connection.
    - A connection ([ConnectionProps]): a loss or a re-issued subscription is told before
      whatever followed it, or the generation ends as one whose notices were lost; the
      commands written are whole, paced and number the subscriptions.
    - The shards ([ShardProps], [QueueAge]): on every run each book is its market's own, sound
      and live only on an accepted base; what the shard counts is what it holds; the coverage
      it reports of a standby is what the shadows give; after a connection ended only books
      that something vouches for are live. A percentile bounds the sample it names. What a
      shard wants moves by its commands alone ([ShardDemand]).
    - The configuration ([DaemonProps]): exactly which documents are accepted; the plan
      partitions the markets and carries every setting; every planned shard can be built.
    - The router ([RouterProps], [RouterExact]): demand moves exactly as requests and answers
      say; what is wanted is never withdrawn; with one shard, or shards that refuse nothing,
      the table, the counts and what the shards want agree in every state of a run. Where a
      shard refuses its part of a batch they do not, and never come to: a theorem about that
      flaw. [DaemonRun] composes it with accepted configurations and modelled shards.
    - Control sessions ([ControlProps], [ControlFraming]): whoever holds a lease was answered
      the attachment; a session with work is reached after a bounded number of others; lines
      within the cap are framed as they were sent, and one past it ends the session, the
      second flaw.
    - The client ([ClientProps]): a status walk misses no market that stays, within 8192 rows
      and while no two shards report one market; beyond that it stops without saying so.
    - Shared memory at rest ([ShmCodec], [ShmLayout]): encodings round trip and refuse what
      they did not write; the sections of a segment are aligned, disjoint and within it;
      validation accepts what was formatted and its answer depends on the header alone.
    - Shared memory in motion ([ShmCell], [ShmContract], [ShmRest]): against every run of the
      writer and every choice of every load, a snapshot is one publication, whole, and never
      older than one seen before, and a fault of a read names what the writer had done or the
      reader had not seen; an event is delivered at its cursor, once, or its loss is
      told; the writer accepts exactly what fits and a refusal stores nothing; what was
      published last is what an undisturbed reader gets, at its first attempt.

    ** Fuel and bounds

    Every loop that is not structural takes fuel and answers [None] when it is spent; the
    callers supply enough, and that it is enough is proved. [parse_lexical] supplies twice the
    payload's length and two ([LexicalProps.parse_lexical_total]: each step of the mutual
    recursion consumes a byte or enters a value at most once per byte). [try_recv] supplies
    one step more than the ring retains, as each step takes one element off it
    ([ObserverProps.receive_exact]). [to_decimal] supplies as many steps as the number has
    bits. A read under a counter makes the 64 attempts of the code ([MAX_READ_ATTEMPTS]), a
    bound of the program and not of the model. Slice lengths and offsets are unbounded
    integers: a slice never exceeds [isize::MAX] bytes. The 64-bit counters of a segment are
    kept at their width; a theorem about runs assumes they are not spent ([2 ^ 63]
    publications), and the refusals of a spent counter are in the definitions. Session
    numbers of the control loop are 64 bits wide; its theorems are about runs of fewer than
    [2 ^ 64 - 1] turns.

    ** What is not modelled

    The tokio channels (interfaces with laws, above), the JSON library that renders the
    subscription (a parameter), serde's derived implementations (generated code), clocks and
    sockets. Of [shm/]: creating, mapping and passing files, the futex of the doorbell and
    [wait_for_publication] are operating-system calls; what they answer to the modelled
    operations (the clock, whether a doorbell page can be made, whether a wake was taken) is
    an argument of those operations. A cell of the memory is its address: a load sees the
    stores made at its own address, so what a load that loses its race would see of a store
    at another width is not modelled; such a copy is discarded by the recheck of its counter.
    Of the parts under [src/src]: the FFI surface ([ffi/]), [main.rs] and [lib.rs] are not
    modelled; nor is the WebSocket transport under a connection ([limitless/connection.rs]:
    its messages are answers of the environment). Of the daemon: its start and stop (arguments,
    signals, locks, files, the directory of segments), the metrics endpoint and its rendering,
    the credentials and descriptors a socket passes, and JSON and TOML, whose results are
    arguments. Of the client: its sockets, its other commands and what it prints. Of the
    shards: [ShardSegment] (the interface [ShardSink] instead), the stopper end of their
    channels and [Display]. Of the supervisor and the shards: the sleeping between turns (any
    wake whose source exists may be next, which covers every timing), capture files, and the
    statistics its end copies out of the gate.

    ** What would come next

    The segment as the sink of a shard ([ShardSegment]) and of a supervisor, which would join
    the theorems on shared memory to those on the shards; and the rendering of the metrics. *)

From Stdlib Require Export ZArith Lia Sorted.
From Stdlib Require String Ascii.
Export Stdlib.Strings.String.StringSyntax.
Delimit Scope string_scope with string.
From stdpp Require Export base decidable option numbers list.

Global Open Scope Z_scope.

(** ** Fallible code

    [Result<T, E>] of the source. *)
Inductive result (A E : Type) : Type :=
| Ok (a : A)
| Err (e : E).
Arguments Ok {A E} a.
Arguments Err {A E} e.

#[export] Instance result_eq_dec {A E} `{EqDecision A, EqDecision E} :
  EqDecision (result A E).
Proof. solve_decision. Defined.

Declare Scope rust_scope.
Delimit Scope rust_scope with rust.

(** [x <-? e ;; k] is [let x = e?; k]. *)
Notation "x <-? e ;; k" :=
  (match e with Ok x => k | Err err => Err err end)
  (at level 100, e at next level, right associativity) : rust_scope.
(** [both x y <-? e ;; k] is [let (x, y) = e?; k]. *)
Notation "'both' x y <-? e ;; k" :=
  (match e with Ok (x, y) => k | Err err => Err err end)
  (at level 100, x name, y name, e at next level, right associativity) : rust_scope.
(** [refuse b with err ;; k] is [if b { return Err(err) }; k]. *)
Notation "'refuse' b 'with' err ;; k" :=
  (if b then Err err else k)
  (at level 100, b at next level, err at next level, right associativity) : rust_scope.

Open Scope rust_scope.

(** [Option::ok_or] and [Result::map_err]. *)
Definition ok_or {A E} (o : option A) (e : E) : result A E :=
  match o with Some a => Ok a | None => Err e end.

Definition map_err {A E F} (f : E -> F) (r : result A E) : result A F :=
  match r with Ok a => Ok a | Err e => Err (f e) end.

Definition res_map {A B E} (f : A -> B) (r : result A E) : result B E :=
  match r with Ok a => Ok (f a) | Err e => Err e end.

Definition ok {A E} (r : result A E) : option A :=
  match r with Ok a => Some a | Err _ => None end.

Definition is_ok {A E} (r : result A E) : bool :=
  match r with Ok _ => true | Err _ => false end.

Lemma ok_or_Ok {A E} (o : option A) (e : E) a : ok_or o e = Ok a <-> o = Some a.
Proof. destruct o; simpl; split; congruence. Qed.

Lemma map_err_Ok {A E F} (f : E -> F) (r : result A E) a :
  map_err f r = Ok a <-> r = Ok a.
Proof. destruct r; simpl; split; congruence. Qed.

(** ** Stateful fallible code

    A method on [&mut self] that returns [Result<A, E>]: the state survives an error, so
    what a failed call leaves behind is visible. *)
Definition prog (S E A : Type) : Type := S -> result A E * S.

Definition ret {S E A} (a : A) : prog S E A := fun s => (Ok a, s).
Definition throw {S E A} (e : E) : prog S E A := fun s => (Err e, s).
Definition lift {S E A} (r : result A E) : prog S E A := fun s => (r, s).
Definition gets {S E A} (f : S -> A) : prog S E A := fun s => (Ok (f s), s).
Definition modify {S E} (f : S -> S) : prog S E () := fun s => (Ok (), f s).
Definition bind {S E A B} (m : prog S E A) (k : A -> prog S E B) : prog S E B := fun s =>
  match m s with
  | (Ok a, s') => k a s'
  | (Err e, s') => (Err e, s')
  end.

(** [x <-! m ;; k] runs [m], returning its error as [?] does. *)
Notation "x <-! m ;; k" := (bind m (fun x => k))
  (at level 100, m at next level, right associativity) : rust_scope.
Notation "m ;;! k" := (bind m (fun _ => k))
  (at level 100, right associativity) : rust_scope.
(** [deny b err ;;! k] is [if b { return Err(err) }; k]. *)
Definition deny {S E} (b : bool) (e : E) : prog S E () := if b then throw e else ret ().

(** A computation that reads the state and changes nothing. *)
Definition pure_prog {S E A} (m : prog S E A) : Prop := forall s, (m s).2 = s.
(** A computation that changes nothing when it fails. *)
Definition atomic {S E A} (m : prog S E A) : Prop := forall s e s', m s = (Err e, s') -> s' = s.

Lemma pure_lift {S E A} (r : result A E) : pure_prog (S := S) (lift r).
Proof. by intros s. Qed.
Lemma pure_gets {S E A} (f : S -> A) : pure_prog (E := E) (gets f).
Proof. by intros s. Qed.
Lemma pure_deny {S E} b (e : E) : pure_prog (S := S) (deny b e).
Proof. intros s. by destruct b. Qed.
Lemma atomic_pure {S E A} (m : prog S E A) : pure_prog m -> atomic m.
Proof. intros Hp s e s' H. by rewrite <- (Hp s), H. Qed.

(** Reads first, then an atomic rest: the shape of a staged update. *)
Lemma atomic_bind {S E A B} (m : prog S E A) (k : A -> prog S E B) :
  pure_prog m -> (forall a, atomic (k a)) -> atomic (bind m k).
Proof.
  intros Hm Hk s e s'. unfold bind. specialize (Hm s). destruct (m s) as [[a|e'] s1]; simpl in *.
  - subst s1. apply Hk.
  - by intros [= _ <-].
Qed.

(** What cannot fail is atomic. *)
Definition infallible {S E A} (m : prog S E A) : Prop := forall s, is_ok (m s).1 = true.
Lemma infallible_ret {S E A} (a : A) : infallible (S := S) (E := E) (ret a).
Proof. done. Qed.
Lemma infallible_modify {S E A} f (k : prog S E A) : infallible k -> infallible (modify f ;;! k).
Proof. intros H s. apply H. Qed.
Lemma infallible_atomic {S E A} (m : prog S E A) : infallible m -> atomic m.
Proof. intros H s e s' E1. specialize (H s). by rewrite E1 in H. Qed.

Lemma bind_Ok {S E A B} (m : prog S E A) (k : A -> prog S E B) s b s' :
  bind m k s = (Ok b, s') <-> exists a s1, m s = (Ok a, s1) /\ k a s1 = (Ok b, s').
Proof.
  unfold bind. destruct (m s) as [[a|e] s1]; split.
  - eauto.
  - intros (a' & s2 & [= -> ->] & H). done.
  - done.
  - intros (a' & s2 & H & _). done.
Qed.

Lemma lift_Ok {S E A} (r : result A E) (s s' : S) a :
  lift r s = (Ok a, s') <-> r = Ok a /\ s' = s.
Proof. unfold lift. split; [by intros [= -> ->] | by intros [-> ->]]. Qed.

Lemma deny_Ok {S E} b (e : E) (s s' : S) u : deny b e s = (Ok u, s') <-> b = false /\ s' = s.
Proof.
  unfold deny. destruct b; unfold throw, ret; split; try done.
  - by intros [? _].
  - by intros [= _ ->].
  - intros [_ ->]. by destruct u.
Qed.

(** Run a [prog] hypothesis to its next choice. *)
Tactic Notation "prog_step" hyp(H) "as" ident(x) ident(Hs) :=
  apply bind_Ok in H;
  destruct H as (x & ? & Hs & H);
  match type of Hs with
  | lift _ _ = _ => apply lift_Ok in Hs as [Hs ->]
  | deny _ _ _ = _ => apply deny_Ok in Hs as [Hs ->]
  | gets _ _ = _ => injection Hs as <- <-
  | modify _ _ = _ => injection Hs as <- <-
  end.

(** ** Stateful code with assertions

    As [prog], for code whose [assert!]s and [expect]s are to be proved never to fail: a
    panic is [None]. *)
Definition cprog (S E A : Type) : Type := S -> option (result A E * S).

Definition cret {S E A} (a : A) : cprog S E A := fun s => Some (Ok a, s).
Definition cthrow {S E A} (e : E) : cprog S E A := fun s => Some (Err e, s).
Definition clift {S E A} (r : result A E) : cprog S E A := fun s => Some (r, s).
(** [None] is a failed assertion. *)
Definition expect {S E A} (o : option A) : cprog S E A := fun s => a ← o; Some (Ok a, s).
Definition cgets {S E A} (f : S -> A) : cprog S E A := fun s => Some (Ok (f s), s).
Definition cmodify {S E} (f : S -> S) : cprog S E () := fun s => Some (Ok (), f s).
Definition cdeny {S E} (b : bool) (e : E) : cprog S E () := if b then cthrow e else cret ().
Definition cbind {S E A B} (m : cprog S E A) (k : A -> cprog S E B) : cprog S E B := fun s =>
  '(r, s') ← m s;
  match r with Ok a => k a s' | Err e => Some (Err e, s') end.

Notation "x <-* m ;; k" := (cbind m (fun x => k))
  (at level 100, m at next level, right associativity) : rust_scope.
Notation "m ;;* k" := (cbind m (fun _ => k))
  (at level 100, right associativity) : rust_scope.

Lemma cbind_Ok {S E A B} (m : cprog S E A) (k : A -> cprog S E B) s a s' :
  m s = Some (Ok a, s') -> cbind m k s = k a s'.
Proof. intros H. unfold cbind. by rewrite H. Qed.
Lemma cbind_Err {S E A B} (m : cprog S E A) (k : A -> cprog S E B) s e s' :
  m s = Some (Err e, s') -> cbind m k s = Some (Err e, s').
Proof. intros H. unfold cbind. by rewrite H. Qed.

(** ** Machine integers

    A [w]-bit unsigned integer is a [Z] in [0 .. 2^w - 1]; a [w]-bit signed one a [Z] in
    [-2^(w-1) .. 2^(w-1) - 1]. The checked, saturating and wrapping operations are
    written with those bounds. *)
Definition U16_MAX : Z := 65535.
Definition U32_MAX : Z := 4294967295.
Definition U64_MAX : Z := 18446744073709551615.
Definition U128_MAX : Z := 340282366920938463463374607431768211455.
Definition I128_MAX : Z := 170141183460469231731687303715884105727.
Definition I128_MIN : Z := -170141183460469231731687303715884105728.
Definition I32_MAX : Z := 2147483647.
Definition I32_MIN : Z := -2147483648.
(** [usize] on the 64-bit targets the program builds for. *)
Definition USIZE_MAX : Z := U64_MAX.

Definition in_range (lo hi x : Z) : bool := (lo <=? x) && (x <=? hi).

Definition checked (lo hi x : Z) : option Z :=
  if in_range lo hi x then Some x else None.

Definition checked_add_u64 (x y : Z) : option Z := checked 0 U64_MAX (x + y).
Definition checked_add_usize (x y : Z) : option Z := checked 0 USIZE_MAX (x + y).
Definition saturating_add_u64 (x y : Z) : Z := Z.min U64_MAX (x + y).
Definition saturating_sub_u64 (x y : Z) : Z := Z.max 0 (x - y).
Definition saturating_add_usize (x y : Z) : Z := Z.min USIZE_MAX (x + y).
Definition saturating_sub_usize (x y : Z) : Z := Z.max 0 (x - y).
(** [as u32] and [as u64]. *)
Definition as_u32 (x : Z) : Z := x mod 2 ^ 32.
Definition as_u64 (x : Z) : Z := x mod 2 ^ 64.
Definition wrapping_add_u64 (x y : Z) : Z := (x + y) mod 2 ^ 64.
Definition wrapping_add_u32 (x y : Z) : Z := (x + y) mod 2 ^ 32.
Definition wrapping_mul_u64 (x y : Z) : Z := (x * y) mod 2 ^ 64.
Definition checked_add_i128 (x y : Z) : option Z := checked I128_MIN I128_MAX (x + y).
Definition checked_mul_i128 (x y : Z) : option Z := checked I128_MIN I128_MAX (x * y).
Definition checked_neg_i128 (x : Z) : option Z := checked I128_MIN I128_MAX (- x).
Definition checked_pow_i128 (x : Z) (n : Z) : option Z := checked I128_MIN I128_MAX (x ^ n).
Definition checked_mul_u128 (x y : Z) : option Z := checked 0 U128_MAX (x * y).
Definition checked_pow_u128 (x : Z) (n : Z) : option Z := checked 0 U128_MAX (x ^ n).

(** ** Bytes and text

    A [&[u8]] and a Rust [String]/[&str] (its UTF-8 bytes) are lists of bytes [0..255];
    [.len()] is the number of bytes. *)
Abbreviation bytes := (list Z).

(** A source literal, as bytes: [lit "slug"] is [b"slug"]. *)
Definition lit (s : String.string) : bytes :=
  map (fun c => Z.of_N (Ascii.N_of_ascii c)) (String.list_ascii_of_string s).
Arguments lit s%_string.

Definition len {A} (l : list A) : Z := Z.of_nat (length l).

Definition is_ascii_digit (b : Z) : bool := in_range 48 57 b.
Definition all_digits (l : bytes) : bool := forallb is_ascii_digit l.

(** The value of a run of ASCII decimal digits, most significant first. *)
Fixpoint digits_val (acc : Z) (l : bytes) : Z :=
  match l with
  | [] => acc
  | d :: rest => digits_val (10 * acc + (d - 48)) rest
  end.

(** [str::parse] for an unsigned integer type of largest value [max]: an optional [+],
    then at least one digit and nothing else, the value in range. *)
Definition parse_unsigned (max : Z) (s : bytes) : option Z :=
  let digits := match s with 43 :: rest => rest | _ => s end in
  if bool_decide (digits = []) || negb (all_digits digits) then None
  else checked 0 max (digits_val 0 digits).

(** [str::parse] for a signed integer type of range [min..max]. *)
Definition parse_signed (min max : Z) (s : bytes) : option Z :=
  let '(sign, digits) :=
    match s with 43 :: rest => (1, rest) | 45 :: rest => (-1, rest) | _ => (1, s) end in
  if bool_decide (digits = []) || negb (all_digits digits) then None
  else checked min max (sign * digits_val 0 digits).

(** [u128::to_string]: the shortest decimal spelling. The fuel is the number of binary
    digits, which is never less than the number of decimal ones. *)
Fixpoint decimal_digits (fuel : nat) (n : Z) : bytes :=
  match fuel with
  | O => []
  | S fuel' => if n <? 10 then [48 + n]
               else decimal_digits fuel' (n / 10) ++ [48 + n mod 10]
  end.
Definition to_decimal (n : Z) : bytes := decimal_digits (S (Z.to_nat (Z.log2 n))) n.

(** [core::str::from_utf8(..).is_ok()]. *)
Definition utf8_cont (b : Z) : bool := in_range 128 191 b.
Fixpoint utf8_valid (l : bytes) : bool :=
  match l with
  | [] => true
  | b0 :: t0 =>
      if in_range 0 127 b0 then utf8_valid t0
      else if in_range 194 223 b0 then
        match t0 with b1 :: t1 => utf8_cont b1 && utf8_valid t1 | [] => false end
      else if in_range 224 239 b0 then
        match t0 with
        | b1 :: b2 :: t2 =>
            in_range (if b0 =? 224 then 160 else 128) (if b0 =? 237 then 159 else 191) b1
            && utf8_cont b2 && utf8_valid t2
        | _ => false
        end
      else if in_range 240 244 b0 then
        match t0 with
        | b1 :: b2 :: b3 :: t3 =>
            in_range (if b0 =? 240 then 144 else 128) (if b0 =? 244 then 143 else 191) b1
            && utf8_cont b2 && utf8_cont b3 && utf8_valid t3
        | _ => false
        end
      else false
  end.

(** [to_le_bytes] of a value of [n] bytes, and [from_le_bytes] of an array. *)
Fixpoint to_le_bytes (n : nat) (v : Z) : bytes :=
  match n with O => [] | S n' => v mod 256 :: to_le_bytes n' (v / 256) end.
Fixpoint from_le_bytes (l : bytes) : Z :=
  match l with [] => 0 | b :: l' => b + 256 * from_le_bytes l' end.

(** Every element is a byte. *)
Definition are_bytes (l : bytes) : bool := forallb (in_range 0 255) l.

(** [slice.get(first..last)]. *)
Definition get_range {A} (first last : Z) (l : list A) : option (list A) :=
  if (first <=? last) && (last <=? len l)
  then Some (take (Z.to_nat (last - first)) (drop (Z.to_nat first) l)) else None.

(** ** Tactics *)

(** Turn the boolean tests of the source's guards into arithmetic. *)
Ltac bool_facts :=
  unfold in_range, is_ascii_digit, utf8_cont in *;
  repeat match goal with
    | H : _ && _ = true |- _ => apply andb_true_iff in H as [? ?]
    | H : _ && _ = false |- _ => apply andb_false_iff in H
    | H : _ || _ = true |- _ => apply orb_true_iff in H
    | H : _ || _ = false |- _ => apply orb_false_iff in H as [? ?]
    | H : negb _ = true |- _ => apply negb_true_iff in H
    | H : negb _ = false |- _ => apply negb_false_iff in H
    | H : (_ <=? _) = true |- _ => apply Z.leb_le in H
    | H : (_ <=? _) = false |- _ => apply Z.leb_gt in H
    | H : (_ <? _) = true |- _ => apply Z.ltb_lt in H
    | H : (_ <? _) = false |- _ => apply Z.ltb_ge in H
    | H : (_ =? _) = true |- _ => apply Z.eqb_eq in H
    | H : (_ =? _) = false |- _ => apply Z.eqb_neq in H
    | H : bool_decide _ = true |- _ => apply bool_decide_eq_true in H
    | H : bool_decide _ = false |- _ => apply bool_decide_eq_false in H
    end.

(** Split every [match] and [if] of the hypotheses and the goal, keeping the equations,
    and close the branches the constructors contradict. *)
Ltac split_code := repeat (case_match; simplify_eq/=).

(** The shape of a staged update: reads and refusals, then writes that cannot fail. *)
Ltac solve_atomic :=
  repeat first
    [ apply atomic_bind; [solve [auto with pmws] | intros ?]
    | case_match
    | solve [apply atomic_pure; intros ?; reflexivity]
    | solve [apply infallible_atomic; auto with pmws] ].

Ltac bounds := unfold USIZE_MAX, U16_MAX, U32_MAX, U64_MAX, U128_MAX, I128_MAX, I128_MIN,
  I32_MAX, I32_MIN in *.

(** ** Lemmas on the shared vocabulary *)

Lemma in_range_spec lo hi x : in_range lo hi x = true <-> lo <= x <= hi.
Proof. unfold in_range. rewrite andb_true_iff, !Z.leb_le. tauto. Qed.

Lemma checked_Some lo hi x y : checked lo hi x = Some y <-> x = y /\ lo <= x <= hi.
Proof.
  unfold checked. destruct (in_range lo hi x) eqn:E.
  - apply in_range_spec in E. split; [intros [= <-]; auto | intros [-> _]; auto].
  - split; [discriminate | intros [-> H]]. apply in_range_spec in H. congruence.
Qed.

Lemma checked_None lo hi x : checked lo hi x = None <-> x < lo \/ hi < x.
Proof.
  unfold checked. destruct (in_range lo hi x) eqn:E.
  - apply in_range_spec in E. split; [discriminate | lia].
  - split; [intros _ | auto]. unfold in_range in E.
    apply andb_false_iff in E as [E | E]; apply Z.leb_gt in E; lia.
Qed.

Lemma checked_in lo hi x : lo <= x <= hi -> checked lo hi x = Some x.
Proof. intros. apply checked_Some. auto. Qed.

Lemma checked_add_u64_Some x y z :
  checked_add_u64 x y = Some z <-> x + y = z /\ 0 <= x + y <= U64_MAX.
Proof. apply checked_Some. Qed.

Lemma len_nonneg {A} (l : list A) : 0 <= len l.
Proof. unfold len. lia. Qed.
Lemma len_app {A} (l k : list A) : len (l ++ k) = len l + len k.
Proof. unfold len. rewrite length_app. lia. Qed.
Lemma len_cons {A} (a : A) l : len (a :: l) = 1 + len l.
Proof. unfold len. simpl. lia. Qed.
Lemma len_nil {A} : len (@nil A) = 0.
Proof. reflexivity. Qed.

Lemma len_zero {A} (l : list A) : len l = 0 -> l = [].
Proof. destruct l; [done|]. rewrite len_cons. pose proof (len_nonneg l). lia. Qed.
Lemma app_inj_len {A} (a b a' b' : list A) : a ++ b = a' ++ b' -> len a = len a' ->
  a = a' /\ b = b'.
Proof. intros E Hl. apply app_inj_1; [unfold len in *; lia|done]. Qed.

Create HintDb pmws.
Create Rewrite HintDb pmws.
#[export] Hint Resolve len_nonneg pure_lift pure_gets pure_deny infallible_ret
  infallible_modify : pmws.
#[export] Hint Rewrite @len_app @len_cons @len_nil : pmws.

(** *** Decimal digits *)

Lemma digits_val_app acc l k : digits_val acc (l ++ k) = digits_val (digits_val acc l) k.
Proof. revert acc. induction l as [|d l IH]; intros acc; simpl; auto. Qed.

Lemma digits_val_acc acc l : digits_val acc l = acc * 10 ^ len l + digits_val 0 l.
Proof.
  revert acc. induction l as [|d l IH]; intros acc.
  - unfold len. simpl. lia.
  - cbn [digits_val]. pose proof (IH (10 * acc + (d - 48))). pose proof (IH (10 * 0 + (d - 48))).
    pose proof (len_nonneg l). rewrite len_cons, Z.pow_add_r by lia. lia.
Qed.

Lemma all_digits_app l k : all_digits (l ++ k) = all_digits l && all_digits k.
Proof. apply forallb_app. Qed.

Lemma digits_val_bound l : all_digits l = true -> 0 <= digits_val 0 l < 10 ^ len l.
Proof.
  induction l as [|d l IH]; intros H; [simpl; unfold len; simpl; lia|].
  simpl in H. apply andb_true_iff in H as [Hd Hl]. apply in_range_spec in Hd.
  pose proof (len_nonneg l). specialize (IH Hl).
  cbn [digits_val]. rewrite (digits_val_acc (10 * 0 + (d - 48))), len_cons, Z.pow_add_r by lia.
  nia.
Qed.

Lemma decimal_digits_val fuel n :
  0 <= n < 2 ^ Z.of_nat fuel -> (0 < fuel)%nat -> digits_val 0 (decimal_digits fuel n) = n.
Proof.
  revert n. induction fuel as [|fuel IH]; intros n Hn Hf; [lia|].
  simpl. destruct (Z.ltb_spec n 10); [simpl; lia|].
  rewrite Nat2Z.inj_succ, Z.pow_succ_r in Hn by lia.
  pose proof (Z_div_mod_eq_full n 10). pose proof (Z.mod_pos_bound n 10 ltac:(lia)).
  destruct fuel as [|fuel]; [simpl in Hn; lia|].
  rewrite digits_val_app, IH by lia. cbn [digits_val]. lia.
Qed.

Lemma decimal_digits_digits fuel n : 0 <= n -> all_digits (decimal_digits fuel n) = true.
Proof.
  revert n. induction fuel as [|fuel IH]; intros n Hn; [reflexivity|]. simpl.
  pose proof (Z.mod_pos_bound n 10 ltac:(lia)).
  destruct (Z.ltb_spec n 10).
  - simpl. rewrite andb_true_r. apply in_range_spec. lia.
  - rewrite all_digits_app, IH by (apply Z.div_pos; lia). simpl. rewrite andb_true_r.
    apply in_range_spec. lia.
Qed.

Lemma decimal_digits_len fuel n k :
  0 <= n < 2 ^ Z.of_nat fuel -> 1 <= k ->
  (len (decimal_digits fuel n) <= k <-> n < 10 ^ k).
Proof.
  revert n k. induction fuel as [|fuel IH]; intros n k Hn Hk.
  - simpl in *. split; intros; [|simpl; unfold len; simpl; lia].
    assert (0 < 10 ^ k) by (apply Z.pow_pos_nonneg; lia). lia.
  - simpl. destruct (Z.ltb_spec n 10).
    { rewrite len_cons, len_nil. split; intros; [|lia].
      assert (10 ^ 1 <= 10 ^ k) by (apply Z.pow_le_mono_r; lia). lia. }
    rewrite Nat2Z.inj_succ, Z.pow_succ_r in Hn by lia.
    pose proof (Z_div_mod_eq_full n 10). pose proof (Z.mod_pos_bound n 10 ltac:(lia)).
    rewrite len_app, len_cons, len_nil.
    destruct (Z.eq_dec k 1) as [->|Hk1].
    { split; [|lia]. intros Hl. destruct fuel as [|fuel]; [simpl in Hn; lia|].
      pose proof (len_nonneg (decimal_digits (S fuel) (n / 10))).
      assert (Hz : len (decimal_digits (S fuel) (n / 10)) = 0) by lia.
      exfalso. revert Hz. simpl. destruct (n / 10 <? 10);
        rewrite ?len_app, ?len_cons, ?len_nil; pose proof (@len_nonneg Z); intros Hz.
      - lia.
      - specialize (H3 (decimal_digits fuel (n / 10 / 10))). lia. }
    rewrite (Z.add_comm _ (1 + 0)). specialize (IH (n / 10) (k - 1) ltac:(lia) ltac:(lia)).
    replace (10 ^ k) with (10 * 10 ^ (k - 1)) by
      (rewrite <- Z.pow_succ_r by lia; f_equal; lia).
    split; intros Hl.
    + assert (n / 10 < 10 ^ (k - 1)) by (apply IH; lia). lia.
    + assert (len (decimal_digits fuel (n / 10)) <= k - 1) by (apply IH; lia). lia.
Qed.

Lemma log2_fuel n : 0 <= n -> n < 2 ^ Z.of_nat (S (Z.to_nat (Z.log2 n))).
Proof.
  intros Hn. pose proof (Z.log2_nonneg n).
  destruct (Z.eq_dec n 0) as [->|]; [simpl; lia|].
  rewrite Nat2Z.inj_succ, Z2Nat.id by lia. apply Z.log2_spec. lia.
Qed.

Lemma to_decimal_val n : 0 <= n -> digits_val 0 (to_decimal n) = n.
Proof. intros. apply decimal_digits_val; [split; [lia|apply log2_fuel; lia]|lia]. Qed.

Lemma to_decimal_digits n : 0 <= n -> all_digits (to_decimal n) = true.
Proof. apply decimal_digits_digits. Qed.

Lemma to_decimal_len n k : 0 <= n -> 1 <= k -> (len (to_decimal n) <= k <-> n < 10 ^ k).
Proof. intros. apply decimal_digits_len; [split; [lia|apply log2_fuel; lia]|lia]. Qed.

Lemma to_decimal_cons n : exists d l, to_decimal n = d :: l.
Proof.
  unfold to_decimal. simpl. destruct (n <? 10); eauto.
  destruct (decimal_digits _ (n / 10)); simpl; eauto.
Qed.

#[export] Hint Resolve to_decimal_digits : pmws.

(** *** Little-endian bytes *)

Lemma len_to_le_bytes n v : len (to_le_bytes n v) = Z.of_nat n.
Proof. revert v. induction n as [|n IH]; intros v; [done|]. cbn [to_le_bytes]. rewrite len_cons, IH. lia. Qed.

Lemma from_to_le_bytes n v : 0 <= v < 256 ^ Z.of_nat n -> from_le_bytes (to_le_bytes n v) = v.
Proof.
  revert v. induction n as [|n IH]; intros v Hv; [simpl in *; lia|].
  rewrite Nat2Z.inj_succ, Z.pow_succ_r in Hv by lia. cbn [to_le_bytes from_le_bytes].
  rewrite IH by (split; [apply Z.div_pos; lia|apply Z.div_lt_upper_bound; lia]).
  pose proof (Z_div_mod_eq_full v 256). lia.
Qed.

Lemma from_le_bytes_range l : are_bytes l = true -> 0 <= from_le_bytes l < 256 ^ len l.
Proof.
  induction l as [|b l IH]; intros H; [unfold len; simpl; lia|].
  simpl in H. apply andb_true_iff in H as [Hb Hl]. apply in_range_spec in Hb.
  specialize (IH Hl). pose proof (len_nonneg l). cbn [from_le_bytes].
  rewrite len_cons, Z.pow_add_r by lia. lia.
Qed.

Lemma to_from_le_bytes l : are_bytes l = true -> to_le_bytes (length l) (from_le_bytes l) = l.
Proof.
  induction l as [|b l IH]; intros H; [done|].
  simpl in H. apply andb_true_iff in H as [Hb Hl]. apply in_range_spec in Hb.
  cbn [length to_le_bytes from_le_bytes]. rewrite (Z.mul_comm 256), Z.mod_add by lia.
  rewrite Z.div_add, Z.mod_small, Z.div_small, Z.add_0_l, IH by (lia || done). done.
Qed.

Lemma are_bytes_app l k : are_bytes (l ++ k) = are_bytes l && are_bytes k.
Proof. apply forallb_app. Qed.

Lemma are_bytes_le n v : are_bytes (to_le_bytes n v) = true.
Proof.
  revert v. induction n as [|n IH]; intros v; [done|]. cbn [to_le_bytes are_bytes forallb].
  apply andb_true_iff. split; [|apply IH]. apply in_range_spec.
  pose proof (Z.mod_pos_bound v 256). lia.
Qed.

(** *** Ranges of a slice *)

Lemma get_range_Some {A} i j (l r : list A) : 0 <= i ->
  get_range i j l = Some r <->
  exists a b, l = a ++ r ++ b /\ len a = i /\ len r = j - i.
Proof.
  intros Hi. unfold get_range. split.
  - destruct (_ && _) eqn:E; [|done]. bool_facts. intros [= <-].
    exists (take (Z.to_nat i) l), (drop (Z.to_nat (j - i)) (drop (Z.to_nat i) l)).
    rewrite !take_drop. unfold len in *. rewrite !length_take, length_drop. split_and!; [done|lia..].
  - intros (a & b & -> & Ha & Hr). pose proof (len_nonneg r). pose proof (len_nonneg b).
    assert ((i <=? j) && (j <=? len (a ++ r ++ b)) = true) as ->.
    { rewrite !len_app. apply andb_true_iff. split; apply Z.leb_le; lia. }
    f_equal. unfold len in *. replace (Z.to_nat i) with (length a) by lia.
    rewrite drop_app_length. replace (Z.to_nat (j - i)) with (length r) by lia.
    by rewrite take_app_length.
Qed.
