(* ===== verification/OrdMap.v ===== *)
(** * Ordered keys, sorting and [BTreeMap]

    The source keeps every keyed collection whose iteration order matters in a
    [std::collections::BTreeMap] or [BTreeSet]: the level map of a book, the socket and
    standby tables of a topology. This file is that standard-library contract: a key type's
    [Ord] as a comparison function with the laws of [KeyOrder], a map as an association list
    in strictly ascending key order with the operations the source calls, and the slice
    operations [sort] and [dedup]. Clients prove their theorems against the [KeyOrder]
    interface; each key type discharges it once. *)

From S2P Require Import Prelude.

(** ** Comparison functions *)

(** [Ordering::then]: the second comparison decides ties of the first. *)
Definition then_cmp (c d : comparison) : comparison :=
  match c with Eq => d | _ => c end.

Definition cmp_pair {A B} (ca : A -> A -> comparison) (cb : B -> B -> comparison)
    (x y : A * B) : comparison :=
  then_cmp (ca x.1 y.1) (cb x.2 y.2).

(** The lexicographic order of slices and strings. *)
Fixpoint cmp_list {A} (ca : A -> A -> comparison) (l k : list A) : comparison :=
  match l, k with
  | [], [] => Eq
  | [], _ :: _ => Lt
  | _ :: _, [] => Gt
  | x :: l', y :: k' => then_cmp (ca x y) (cmp_list ca l' k')
  end.

(** What a key type promises to the collections it keys: on the values its constructors
    produce ([wf]), [cmp] is a strict total order whose ties are equalities. *)
Class KeyOrder {K} (cmp : K -> K -> comparison) (wf : K -> Prop) : Prop := {
  cmp_refl : forall x, wf x -> cmp x x = Eq;
  cmp_eq : forall x y, wf x -> wf y -> cmp x y = Eq -> x = y;
  cmp_flip : forall x y, wf x -> wf y -> cmp y x = CompOpp (cmp x y);
  cmp_trans : forall x y z, wf x -> wf y -> wf z ->
    cmp x y = Lt -> cmp y z = Lt -> cmp x z = Lt
}.

#[export] Instance key_order_Z : KeyOrder Z.compare (fun _ => True).
Proof.
  split; intros.
  - apply Z.compare_refl.
  - by apply Z.compare_eq.
  - symmetry. rewrite Z.compare_antisym. by destruct (Z.compare y x).
  - rewrite Z.compare_lt_iff in *. lia.
Qed.

Lemma then_cmp_Eq c d : then_cmp c d = Eq <-> c = Eq /\ d = Eq.
Proof. destruct c; simpl; intuition congruence. Qed.
Lemma then_cmp_Lt c d : then_cmp c d = Lt <-> c = Lt \/ (c = Eq /\ d = Lt).
Proof. destruct c; simpl; intuition congruence. Qed.

#[export] Instance key_order_pair {A B} ca cb (wa : A -> Prop) (wb : B -> Prop)
  `{!KeyOrder ca wa, !KeyOrder cb wb} :
  KeyOrder (cmp_pair ca cb) (fun p => wa p.1 /\ wb p.2).
Proof.
  split; unfold cmp_pair.
  - intros [x y] [Hx Hy]. simpl in *. by rewrite (cmp_refl (cmp := ca)), (cmp_refl (cmp := cb)).
  - intros [x y] [x' y'] [? ?] [? ?] [E1 E2]%then_cmp_Eq. simpl in *.
    f_equal; [by apply (cmp_eq (cmp := ca)) | by apply (cmp_eq (cmp := cb))].
  - intros [x y] [x' y'] [? ?] [? ?]. simpl in *.
    rewrite (cmp_flip (cmp := ca) x x'), (cmp_flip (cmp := cb) y y') by done. by destruct (ca x x').
  - intros [x y] [x' y'] [x'' y''] [? ?] [? ?] [? ?]. simpl in *.
    rewrite !then_cmp_Lt. intros [E1|[E1 F1]] [E2|[E2 F2]].
    + left. by apply (cmp_trans (cmp := ca) x x' x'').
    + left. apply (cmp_eq (cmp := ca)) in E2 as ->; auto.
    + left. apply (cmp_eq (cmp := ca)) in E1 as ->; auto.
    + right. apply (cmp_eq (cmp := ca)) in E1 as ->; auto. split; auto. by apply (cmp_trans (cmp := cb) y y' y'').
Qed.

#[export] Instance key_order_list {A} ca (wa : A -> Prop) `{!KeyOrder ca wa} :
  KeyOrder (cmp_list ca) (Forall wa).
Proof.
  split.
  - induction 1; simpl; [done|]. by rewrite (cmp_refl (cmp := ca)).
  - intros l k Hl. revert k. induction Hl; intros [|y k] Hk E; simplify_eq/=; try done.
    apply Forall_cons_1 in Hk as [? ?]. apply then_cmp_Eq in E as [E1 E2].
    f_equal; [by apply (cmp_eq (cmp := ca)) | auto].
  - intros l k Hl. revert k. induction Hl as [|x l Hx Hl IH]; intros [|y k] Hk; simpl; try done.
    apply Forall_cons_1 in Hk as [? ?]. rewrite (cmp_flip (cmp := ca) x y), IH by done.
    by destruct (ca x y).
  - intros l k m Hl Hk0 Hm0. revert k m Hk0 Hm0. induction Hl as [|x l Hx Hl IH];
      intros [|y k] [|z m] Hk Hm E F; simplify_eq/=; try done.
    apply Forall_cons_1 in Hk as [? ?]. apply Forall_cons_1 in Hm as [? ?].
    apply then_cmp_Lt. apply then_cmp_Lt in E, F.
    destruct E as [E|[E E']], F as [F|[F F']].
    + left. by apply (cmp_trans (cmp := ca) x y z).
    + left. apply (cmp_eq (cmp := ca)) in F as ->; auto.
    + left. apply (cmp_eq (cmp := ca)) in E as ->; auto.
    + right. apply (cmp_eq (cmp := ca)) in E as ->; auto. split; auto. by apply (IH k m).
Qed.

(** Two orders that agree pointwise on the same values share their laws. *)
Lemma key_order_restrict {K} cmp (wf wf' : K -> Prop) :
  KeyOrder cmp wf -> (forall x, wf' x -> wf x) -> KeyOrder cmp wf'.
Proof. intros O H. split; intros; eauto using cmp_refl, cmp_eq, cmp_flip, cmp_trans. Qed.

(** ** Sorting and deduplication *)
Section sorting.
Context {A : Type} (cmp : A -> A -> comparison).

(** [slice::sort_by] (stable; on keys whose ties are equalities [sort_unstable] gives
    the same list). *)
Fixpoint sort_insert (x : A) (l : list A) : list A :=
  match l with
  | [] => [x]
  | y :: l' => match cmp x y with Gt => y :: sort_insert x l' | _ => x :: l end
  end.
Definition sort_by (l : list A) : list A := foldr sort_insert [] l.

(** [Vec::dedup]: drop each element equal to the one before it. *)
Fixpoint dedup `{EqDecision A} (l : list A) : list A :=
  match l with
  | [] => []
  | x :: l' => match l' with
               | y :: _ => if decide (x = y) then dedup l' else x :: dedup l'
               | [] => [x]
               end
  end.

Definition key_lt (x y : A) : Prop := cmp x y = Lt.
Definition key_le (x y : A) : Prop := cmp x y <> Gt.
End sorting.

Section sorting_lemmas.
Context {A : Type} (cmp : A -> A -> comparison) (wf : A -> Prop) `{!KeyOrder cmp wf}.

Lemma cmp_Gt x y : wf x -> wf y -> cmp x y = Gt <-> cmp y x = Lt.
Proof. intros. rewrite (cmp_flip (cmp := cmp) x y) by done. by destruct (cmp x y). Qed.

Lemma key_le_trans x y z : wf x -> wf y -> wf z ->
  key_le cmp x y -> key_le cmp y z -> key_le cmp x z.
Proof.
  unfold key_le. intros ? ? ? H1 H2.
  destruct (cmp x y) eqn:E1; [|destruct (cmp y z) eqn:E2|done].
  - by apply cmp_eq in E1 as ->.
  - apply cmp_eq in E2 as <-; auto. by rewrite E1.
  - by rewrite (cmp_trans x y z).
  - done.
Qed.

Lemma sort_insert_perm x l : sort_insert cmp x l ≡ₚ x :: l.
Proof.
  induction l as [|y l IH]; simpl; [done|].
  destruct (cmp x y); [done|done|]. rewrite IH. apply Permutation_swap.
Qed.

Lemma sort_by_perm l : sort_by cmp l ≡ₚ l.
Proof. induction l; simpl; [done|]. by rewrite sort_insert_perm, IHl. Qed.

Lemma sort_insert_sorted x l :
  wf x -> Forall wf l -> StronglySorted (key_le cmp) l ->
  StronglySorted (key_le cmp) (sort_insert cmp x l).
Proof.
  intros Hx. induction l as [|y l IH]; intros Hl Hs; simpl; [by repeat constructor|].
  apply Forall_cons_1 in Hl as [Hy Hl]. apply StronglySorted_inv in Hs as [Hs Hall].
  assert (Hle : cmp x y <> Gt -> StronglySorted (key_le cmp) (x :: y :: l)).
  { intros Hxy. constructor; [by constructor|]. constructor; [done|].
    rewrite Forall_forall in Hall, Hl |- *. intros z Hz.
    apply key_le_trans with y; auto. }
  destruct (cmp x y) eqn:E; [by apply Hle | by apply Hle |].
  constructor; [by apply IH|]. rewrite sort_insert_perm. constructor; [|done].
  unfold key_le. apply cmp_Gt in E; auto. by rewrite E.
Qed.

Lemma sort_by_sorted l : Forall wf l -> StronglySorted (key_le cmp) (sort_by cmp l).
Proof.
  induction l as [|x l IH]; intros Hl; simpl; [constructor|].
  apply Forall_cons_1 in Hl as [Hx Hl]. apply sort_insert_sorted; auto.
  by rewrite sort_by_perm.
Qed.

Lemma dedup_elem `{EqDecision A} (x : A) (l : list A) : x ∈ dedup l <-> x ∈ l.
Proof.
  induction l as [|y l IH]; simpl; [done|].
  destruct l as [|z l]; [done|]. case_decide as E.
  - subst. rewrite IH, !elem_of_cons. tauto.
  - rewrite !elem_of_cons, IH, elem_of_cons. done.
Qed.

Lemma dedup_sorted `{EqDecision A} (l : list A) :
  Forall wf l -> StronglySorted (key_le cmp) l -> StronglySorted (key_lt cmp) (dedup l).
Proof.
  induction l as [|x l IH]; intros Hl Hs; simpl; [constructor|].
  apply Forall_cons_1 in Hl as [Hx Hl]. apply StronglySorted_inv in Hs as [Hs Hall].
  destruct l as [|y l]; [repeat constructor|]. case_decide as E; [by apply IH|].
  constructor; [by apply IH|]. apply Forall_forall. intros z Hz.
  rewrite dedup_elem in Hz. apply Forall_cons_1 in Hall as [Hxy Hall].
  apply Forall_cons_1 in Hl as [Hy Hl]. unfold key_lt.
  assert (Hlt : cmp x y = Lt).
  { unfold key_le in Hxy. destruct (cmp x y) eqn:F; [|done|done].
    by apply cmp_eq in F. }
  apply elem_of_cons in Hz as [->|Hz]; [done|].
  apply StronglySorted_inv in Hs as [_ Hyl]. rewrite Forall_forall in Hyl, Hl.
  specialize (Hyl _ Hz). specialize (Hl _ Hz). unfold key_le in Hyl.
  destruct (cmp y z) eqn:F; [|by apply (cmp_trans (cmp := cmp) x y z); auto|done].
  apply (cmp_eq (cmp := cmp)) in F; auto. by subst.
Qed.
End sorting_lemmas.

(** Sorting by a key is sorting the keys. *)
Lemma sort_by_fmap {A B} (f : A -> B) (cmp : B -> B -> comparison) (l : list A) :
  f <$> sort_by (fun x y => cmp (f x) (f y)) l = sort_by cmp (f <$> l).
Proof.
  assert (Hins : forall x k, f <$> sort_insert (fun x y => cmp (f x) (f y)) x k
                             = sort_insert cmp (f x) (f <$> k)).
  { intros x. induction k as [|y k IH]; [done|]. cbn.
    destruct (cmp (f x) (f y)); cbn; [done|done|]. by f_equal. }
  induction l as [|x l IH]; [done|].
  transitivity (f <$> sort_insert (fun x y => cmp (f x) (f y)) x
                  (sort_by (fun x y => cmp (f x) (f y)) l)); [done|]. by rewrite Hins, IH.
Qed.

Lemma dedup_NoDup {A} `{EqDecision A} (l : list A) : NoDup l -> dedup l = l.
Proof.
  induction 1 as [|x l Hx Hl IH]; simpl; [done|]. rewrite IH. destruct l as [|y l]; [done|].
  rewrite decide_False; [done|]. intros ->. apply Hx. left.
Qed.

Lemma StronglySorted_fmap_inv {A B} (f : A -> B) (R : B -> B -> Prop) (l : list A) :
  StronglySorted R (f <$> l) -> StronglySorted (fun x y => R (f x) (f y)) l.
Proof.
  induction l as [|x l IH]; intros H; [constructor|]. cbn in H.
  apply StronglySorted_inv in H as [Hs Hall]. constructor; [auto|]. exact (proj1 (Forall_fmap f (R (f x)) l) Hall).
Qed.

(** Strictly sorted lists with the same elements are the same list. *)
Lemma strictly_sorted_perm {A} (R : A -> A -> Prop) (l k : list A) :
  (forall x y, x ∈ l -> y ∈ l -> R x y -> R y x -> False) ->
  StronglySorted R l -> StronglySorted R k -> l ≡ₚ k -> l = k.
Proof.
  intros Hasym Hl. revert Hasym k. induction Hl as [|x l Hl IH Hx]; intros Hasym k Hk Hp.
  - by apply Permutation_nil_l in Hp.
  - destruct Hk as [|y k Hk Hy]; [by apply Permutation_nil_r in Hp|].
    rewrite Forall_forall in Hx. rewrite Forall_forall in Hy.
    assert (Hyin : y ∈ x :: l) by (rewrite Hp; left).
    assert (Hxin : x ∈ y :: k) by (rewrite <- Hp; left).
    assert (x = y) as ->.
    { apply elem_of_cons in Hxin as [->|Hxin]; [done|].
      apply elem_of_cons in Hyin as [->|Hyin]; [done|].
      exfalso. apply (Hasym x y); [left|by right|auto|auto]. }
    f_equal. apply IH; [|done|by apply Permutation_cons_inv in Hp].
    intros a b Ha Hb. apply Hasym; by right.
Qed.

(** ** [BTreeMap]

    Values of [map K V] list the entries in ascending key order, which is what [iter],
    [keys] and the derived [PartialEq] see. *)
Section btree_map.
Context {K V : Type} (cmp : K -> K -> comparison).

(** [BTreeMap::get]. *)
Fixpoint map_get (k : K) (m : list (K * V)) : option V :=
  match m with
  | [] => None
  | (k', v') :: m' =>
      match cmp k k' with Lt => None | Eq => Some v' | Gt => map_get k m' end
  end.

(** [BTreeMap::insert]; an equal key keeps its place and takes the new value. *)
Fixpoint map_insert (k : K) (v : V) (m : list (K * V)) : list (K * V) :=
  match m with
  | [] => [(k, v)]
  | (k', v') :: m' =>
      match cmp k k' with
      | Lt => (k, v) :: m
      | Eq => (k', v) :: m'
      | Gt => (k', v') :: map_insert k v m'
      end
  end.

(** [BTreeMap::remove]. *)
Fixpoint map_remove (k : K) (m : list (K * V)) : list (K * V) :=
  match m with
  | [] => []
  | (k', v') :: m' =>
      match cmp k k' with
      | Lt => m
      | Eq => m'
      | Gt => (k', v') :: map_remove k m'
      end
  end.

(** [BTreeMap::contains_key]. *)
Definition map_contains (k : K) (m : list (K * V)) : bool :=
  match map_get k m with Some _ => true | None => false end.

Definition entry_lt (x y : K * V) : Prop := cmp x.1 y.1 = Lt.
End btree_map.

Section btree_lemmas.
Context {K V : Type} (cmp : K -> K -> comparison) (wf : K -> Prop) `{!KeyOrder cmp wf}.
Implicit Types (m : list (K * V)) (k j : K) (v : V).

(** The representation invariant: keys well formed and strictly ascending. *)
Record map_ok (m : list (K * V)) : Prop := {
  map_ok_sorted : StronglySorted (entry_lt cmp) m;
  map_ok_keys : Forall (fun e => wf e.1) m
}.

Lemma map_ok_nil : map_ok [].
Proof. split; constructor. Qed.

Lemma map_ok_cons k v m :
  map_ok ((k, v) :: m) <->
  wf k /\ map_ok m /\ Forall (fun e => cmp k e.1 = Lt) m.
Proof.
  split.
  - intros [Hs Hk]. apply StronglySorted_inv in Hs as [Hs Hall].
    apply Forall_cons_1 in Hk as [? ?]. split_and!; [done|by split|done].
  - intros (Hk & [Hs Hks] & Hall). split; by constructor.
Qed.

(** Below every key of a sorted tail there is no entry. *)
Lemma map_get_below k m :
  Forall (fun e => cmp k e.1 = Lt) m -> map_get cmp k m = None.
Proof. destruct 1 as [|[k' v'] m E _]; simpl in *; [done|]. by rewrite E. Qed.

Lemma below_trans k k' m : wf k -> wf k' -> cmp k k' = Lt ->
  Forall (fun e => wf e.1) m ->
  Forall (fun e => cmp k' e.1 = Lt) m -> Forall (fun e => cmp k e.1 = Lt) m.
Proof.
  intros Hk Hk' E Hwf Hm. rewrite Forall_forall in Hwf. rewrite Forall_forall in Hm.
  apply Forall_forall. intros e He. apply (cmp_trans (cmp := cmp) k k' e.1); auto.
Qed.

Lemma map_insert_keys (P : K -> Prop) k v m :
  P k -> Forall (fun e => P e.1) m -> Forall (fun e => P e.1) (map_insert cmp k v m).
Proof.
  intros Hk. induction 1 as [|[k' v'] m ? ? IH]; simpl in *; [by repeat constructor|].
  destruct (cmp k k'); by repeat constructor.
Qed.

Lemma map_insert_ok k v m : wf k -> map_ok m -> map_ok (map_insert cmp k v m).
Proof.
  intros Hk. induction m as [|[k' v'] m IH]; intros Hm; simpl.
  - apply map_ok_cons. split_and!; [done|apply map_ok_nil|constructor].
  - pose proof Hm as (Hk' & Hok & Hall)%map_ok_cons. destruct (cmp k k') eqn:E.
    + apply map_ok_cons. done.
    + apply map_ok_cons. split_and!; [done|done|]. constructor; [done|].
      eapply below_trans; eauto. apply Hok.
    + apply map_ok_cons. split_and!; [done|auto|]. apply cmp_Gt with (wf := wf) in E; auto.
      by apply (map_insert_keys (fun x => cmp k' x = Lt)).
Qed.

Lemma map_remove_sub k m e : e ∈ map_remove cmp k m -> e ∈ m.
Proof.
  induction m as [|[k' v'] m IH]; simpl; [done|].
  destruct (cmp k k'); rewrite ?elem_of_cons; intuition.
Qed.

Lemma map_remove_ok k m : map_ok m -> map_ok (map_remove cmp k m).
Proof.
  induction m as [|[k' v'] m IH]; intros Hm; simpl; [done|].
  pose proof Hm as (Hk' & Hok & Hall)%map_ok_cons. destruct (cmp k k'); [done|done|].
  apply map_ok_cons. split_and!; [done|auto|]. rewrite Forall_forall in Hall.
  apply Forall_forall. intros e He. eapply Hall, map_remove_sub, He.
Qed.

Lemma map_get_insert j k v m : wf j -> wf k -> map_ok m ->
  map_get cmp j (map_insert cmp k v m) =
  match cmp j k with Eq => Some v | _ => map_get cmp j m end.
Proof.
  intros Hj Hk. induction m as [|[k' v'] m IH]; intros Hm; simpl.
  - by destruct (cmp j k).
  - pose proof Hm as (Hk' & Hok & Hall)%map_ok_cons.
    destruct (cmp k k') eqn:E; simpl.
    + apply (cmp_eq (cmp := cmp)) in E as ->; auto. by destruct (cmp j k').
    + destruct (cmp j k) eqn:F; [done| |done].
      by rewrite (cmp_trans (cmp := cmp) j k k').
    + apply cmp_Gt with (wf := wf) in E; auto. rewrite IH by done.
      destruct (cmp j k') eqn:F; [| |done].
      * apply (cmp_eq (cmp := cmp)) in F as ->; auto. by rewrite E.
      * by rewrite (cmp_trans (cmp := cmp) j k' k).
Qed.

Lemma map_get_remove j k m : wf j -> wf k -> map_ok m ->
  map_get cmp j (map_remove cmp k m) =
  match cmp j k with Eq => None | _ => map_get cmp j m end.
Proof.
  intros Hj Hk. induction m as [|[k' v'] m IH]; intros Hm; simpl.
  - by destruct (cmp j k).
  - pose proof Hm as (Hk' & Hok & Hall)%map_ok_cons.
    destruct (cmp k k') eqn:E; simpl.
    + apply (cmp_eq (cmp := cmp)) in E as ->; auto.
      destruct (cmp j k') eqn:F; [|apply map_get_below|done].
      * apply (cmp_eq (cmp := cmp)) in F as ->; auto. by apply map_get_below.
      * eapply below_trans; [| |exact F| |]; eauto. apply Hok.
    + destruct (cmp j k) eqn:F; [|done|done].
      apply (cmp_eq (cmp := cmp)) in F as ->; auto. by rewrite E.
    + apply cmp_Gt with (wf := wf) in E; auto. rewrite IH by done.
      destruct (cmp j k') eqn:F; [| |done].
      * apply (cmp_eq (cmp := cmp)) in F as ->; auto. by rewrite E.
      * by rewrite (cmp_trans (cmp := cmp) j k' k).
Qed.

Lemma map_get_elem k v m : wf k -> map_ok m -> map_get cmp k m = Some v <-> (k, v) ∈ m.
Proof.
  intros Hk. induction m as [|[k' v'] m IH]; intros Hm; simpl.
  - split; [done|]. by intros ?%not_elem_of_nil.
  - pose proof Hm as (Hk' & Hok & Hall)%map_ok_cons. rewrite elem_of_cons.
    destruct (cmp k k') eqn:E.
    + apply (cmp_eq (cmp := cmp)) in E as ->; auto. split.
      * intros [= ->]. by left.
      * intros [[= ->]|He]; [done|]. rewrite Forall_forall in Hall.
        specialize (Hall _ He). simpl in Hall. by rewrite (cmp_refl (cmp := cmp)) in Hall.
    + split; [done|]. intros [[= -> ->]|He].
      * by rewrite (cmp_refl (cmp := cmp)) in E.
      * apply IH in He; auto. rewrite map_get_below in He; [done|].
        eapply below_trans; [| |exact E| |]; eauto. apply Hok.
    + rewrite IH by done. split; [by right|]. intros [[= -> ->]|He]; [|done].
      by rewrite (cmp_refl (cmp := cmp)) in E.
Qed.

(** Two maps with the same lookups are the same list of entries. *)
Lemma map_ext (m1 m2 : list (K * V)) : map_ok m1 -> map_ok m2 ->
  (forall k, wf k -> map_get cmp k m1 = map_get cmp k m2) -> m1 = m2.
Proof.
  revert m2. induction m1 as [|[k1 v1] m1 IH]; intros [|[k2 v2] m2] H1 H2 Hget.
  - done.
  - apply map_ok_cons in H2 as (? & ? & ?). specialize (Hget k2). simpl in Hget.
    rewrite (cmp_refl (cmp := cmp)) in Hget by done. by specialize (Hget ltac:(done)).
  - apply map_ok_cons in H1 as (? & ? & ?). specialize (Hget k1). simpl in Hget.
    rewrite (cmp_refl (cmp := cmp)) in Hget by done. by specialize (Hget ltac:(done)).
  - pose proof H1 as (Hk1 & Hm1 & Ha1)%map_ok_cons.
    pose proof H2 as (Hk2 & Hm2 & Ha2)%map_ok_cons.
    assert (E1 : map_get cmp k1 ((k1, v1) :: m1) = Some v1)
      by (simpl; by rewrite (cmp_refl (cmp := cmp))).
    assert (E2 : map_get cmp k2 ((k2, v2) :: m2) = Some v2)
      by (simpl; by rewrite (cmp_refl (cmp := cmp))).
    rewrite Hget in E1 by done. rewrite <- Hget in E2 by done. simpl in E1, E2.
    destruct (cmp k1 k2) eqn:F; [|done|].
    + apply (cmp_eq (cmp := cmp)) in F as ->; auto. simplify_eq. f_equal.
      apply IH; auto. intros k Hk. specialize (Hget k Hk). simpl in Hget.
      destruct (cmp k k2) eqn:G; [| |done].
      * apply (cmp_eq (cmp := cmp)) in G as ->; auto. by rewrite !map_get_below.
      * rewrite !map_get_below; [done| |];
          (eapply below_trans; [| |exact G| |]; eauto; [apply Hm1 || apply Hm2]).
    + apply cmp_Gt with (wf := wf) in F; auto. by rewrite F in E2.
Qed.

Lemma map_get_Some_wf k v m : (k, v) ∈ m -> map_ok m -> wf k.
Proof. intros He [_ Hk]. rewrite Forall_forall in Hk. by apply (Hk (k, v)). Qed.

Lemma map_keys_sorted m : map_ok m -> StronglySorted (key_lt cmp) (m.*1).
Proof.
  intros [Hs _]. induction Hs as [|e m Hs IH Hall]; simpl; constructor; [done|].
  apply Forall_fmap. done.
Qed.

(** A fresh key adds one entry; a held one keeps the number of entries. *)
Lemma map_insert_fresh k v m : map_get cmp k m = None -> map_insert cmp k v m ≡ₚ (k, v) :: m.
Proof.
  induction m as [|[k' v'] m IH]; simpl; [done|].
  destruct (cmp k k'); [done|done|]. intros H. rewrite IH by done. apply Permutation_swap.
Qed.

Lemma map_insert_held k v m v0 : map_get cmp k m = Some v0 ->
  length (map_insert cmp k v m) = length m.
Proof.
  induction m as [|[k' v'] m IH]; simpl; [done|].
  destruct (cmp k k'); simpl; [done|done|]. intros H. by rewrite IH.
Qed.

Lemma map_get_elem_fst k m : wf k -> map_ok m -> map_get cmp k m = None <-> k ∉ m.*1.
Proof.
  intros Hk Hm. split.
  - intros Hn ([k' v] & -> & Hin)%list_elem_of_fmap. simpl in *.
    apply map_get_elem in Hin; [congruence|done|done].
  - intros Hn. destruct (map_get cmp k m) as [v|] eqn:E; [|done]. exfalso. apply Hn.
    apply map_get_elem in E; [|done|done]. apply list_elem_of_fmap. by exists (k, v).
Qed.
End btree_lemmas.

Arguments map_ok {K V} cmp wf m.
#[export] Hint Resolve map_ok_nil map_insert_ok map_remove_ok : pmws.
