(* ===== verification/Numeric.v ===== *)
(** * Exact decimals ([src/src/numeric.rs])

    Prices, quantities and depths are exact scaled integers: an [i128] coefficient and a
    [u16] decimal scale, kept in the one normalized form of each value. This file models the
    grammar-limited parser, normalization, the canonical spelling, the allocation-free
    order, checked addition and complement, and the three newtypes, and proves that the
    order is the order of the rational values, that the spelling round trips, and that
    every accepted lexeme denotes the value it spells. *)

From S2P Require Import Prelude OrdMap.

(** ** Data *)

Inductive DecimalError : Set :=
| Empty
| InvalidLexeme
| ExponentForbidden
| ScaleOverflow
| PrecisionExceeded
| CoefficientOverflow
| NegativeForbidden
| ArithmeticOverflow
| RepresentationLimit
| LexemeTooLong
| ExponentTooLarge.

#[export] Instance DecimalError_eq_dec : EqDecision DecimalError.
Proof. solve_decision. Defined.

Record DecimalGrammar : Set := {
  max_scale : Z;                (* u16 *)
  max_digits : Z;               (* u16 *)
  allow_exponent : bool;
  allow_negative : bool;
  max_lexeme_bytes : Z;         (* usize *)
  max_exponent_digits : Z;      (* u8 *)
  max_exponent_magnitude : Z    (* u32 *)
}.

Definition grammar_new (max_scale max_digits : Z) (allow_exponent allow_negative : bool) :
    result DecimalGrammar DecimalError :=
  refuse (max_digits =? 0) || (39 <? max_digits) with RepresentationLimit ;;
  Ok {| max_scale := max_scale; max_digits := max_digits;
        allow_exponent := allow_exponent; allow_negative := allow_negative;
        max_lexeme_bytes := 128; max_exponent_digits := 5;
        max_exponent_magnitude := 99999 |}.

Definition with_limits (self : DecimalGrammar)
    (max_lexeme_bytes max_exponent_digits max_exponent_magnitude : Z) :
    result DecimalGrammar DecimalError :=
  refuse (max_lexeme_bytes =? 0) || (max_exponent_digits =? 0)
         || (max_exponent_magnitude =? 0) with RepresentationLimit ;;
  Ok {| max_scale := self.(max_scale); max_digits := self.(max_digits);
        allow_exponent := self.(allow_exponent); allow_negative := self.(allow_negative);
        max_lexeme_bytes := max_lexeme_bytes; max_exponent_digits := max_exponent_digits;
        max_exponent_magnitude := max_exponent_magnitude |}.

(** [grammar.allow_negative = negative], as the newtypes set it. *)
Definition set_allow_negative (negative : bool) (g : DecimalGrammar) : DecimalGrammar :=
  {| max_scale := g.(max_scale); max_digits := g.(max_digits);
     allow_exponent := g.(allow_exponent); allow_negative := negative;
     max_lexeme_bytes := g.(max_lexeme_bytes);
     max_exponent_digits := g.(max_exponent_digits);
     max_exponent_magnitude := g.(max_exponent_magnitude) |}.

Record ExactDecimal : Set := { coefficient : Z; scale : Z }.

#[export] Instance ExactDecimal_eq_dec : EqDecision ExactDecimal.
Proof. solve_decision. Defined.

(** ** The order ([Ord for ExactDecimal]) *)

Definition compare_scaled_magnitudes (left left_scale right right_scale : Z) : comparison :=
  if (left_scale =? right_scale) || (left =? 0) || (right =? 0) then left ?= right
  else
    let factor := checked_pow_u128 10 (Z.abs (left_scale - right_scale)) in
    if left_scale <? right_scale then
      match factor ≫= checked_mul_u128 left with
      | Some scaled => scaled ?= right
      | None => Gt
      end
    else
      match factor ≫= checked_mul_u128 right with
      | Some scaled => left ?= scaled
      | None => Lt
      end.

Definition decimal_cmp (self other : ExactDecimal) : comparison :=
  match Z.sgn self.(coefficient) ?= Z.sgn other.(coefficient) with
  | Eq =>
      if self.(coefficient) =? 0 then Eq
      else
        let magnitude :=
          compare_scaled_magnitudes (Z.abs self.(coefficient)) self.(scale)
            (Z.abs other.(coefficient)) other.(scale) in
        if self.(coefficient) <? 0 then CompOpp magnitude else magnitude
  | sign => sign
  end.

(** ** Normalization *)

(** [while scale > 0 && coefficient % 10 == 0 { coefficient /= 10; scale -= 1 }]: each
    turn takes one from [scale], so [scale] turns are enough. *)
Fixpoint strip_zeros (fuel : nat) (coefficient scale : Z) : Z * Z :=
  match fuel with
  | O => (coefficient, scale)
  | S fuel' =>
      if (0 <? scale) && (Z.rem coefficient 10 =? 0)
      then strip_zeros fuel' (Z.quot coefficient 10) (scale - 1)
      else (coefficient, scale)
  end.

Definition normalize (coefficient scale : Z) (g : DecimalGrammar) :
    result ExactDecimal DecimalError :=
  refuse (coefficient <? 0) && negb g.(allow_negative) with NegativeForbidden ;;
  refuse (g.(max_scale) <? scale) with PrecisionExceeded ;;
  let '(coefficient, scale) := strip_zeros (Z.to_nat scale) coefficient scale in
  refuse (g.(max_digits) <? len (to_decimal (Z.abs coefficient))) with PrecisionExceeded ;;
  Ok {| coefficient := coefficient; scale := scale |}.

(** ** Parsing ([ExactDecimal::parse]) *)

Definition is_e (b : Z) : bool := (b =? 101) || (b =? 69).

(** [str::find] of a byte class: the index of its first occurrence. *)
Fixpoint find_byte (p : Z -> bool) (l : bytes) : option nat :=
  match l with
  | [] => None
  | b :: l' => if p b then Some O else S <$> find_byte p l'
  end.

(** The sign: [strip_prefix('-')], a leading [+] refused. *)
Definition parse_sign (lexeme : bytes) : result (bool * bytes) DecimalError :=
  match lexeme with
  | 45 :: rest => Ok (true, rest)
  | 43 :: _ => Err InvalidLexeme
  | _ => Ok (false, lexeme)
  end.

(** The exponent: the mantissa text and the [i32] exponent. *)
Definition parse_exponent (unsigned : bytes) (g : DecimalGrammar) :
    result (bytes * Z) DecimalError :=
  match find_byte is_e unsigned with
  | Some index =>
      let raw := drop (S index) unsigned in
      refuse negb g.(allow_exponent) || existsb is_e raw with ExponentForbidden ;;
      let digits := match raw with
                    | b :: rest => if (b =? 43) || (b =? 45) then rest else raw
                    | [] => raw
                    end in
      refuse bool_decide (digits = []) || (g.(max_exponent_digits) <? len digits)
             || negb (all_digits digits) with InvalidLexeme ;;
      exponent <-? ok_or (parse_signed I32_MIN I32_MAX raw) InvalidLexeme ;;
      refuse (g.(max_exponent_magnitude) <? Z.abs exponent) with ExponentTooLarge ;;
      Ok (take index unsigned, exponent)
  | None => Ok (unsigned, 0)
  end.

(** [mantissa.split_once('.').unwrap_or((mantissa, ""))]. *)
Definition split_point (mantissa : bytes) : bytes * bytes :=
  match find_byte (Z.eqb 46) mantissa with
  | Some index => (take index mantissa, drop (S index) mantissa)
  | None => (mantissa, [])
  end.

Definition starts_with (b : Z) (l : bytes) : bool :=
  match l with b' :: _ => b =? b' | [] => false end.

Definition mantissa_invalid (mantissa whole fraction : bytes) : bool :=
  bool_decide (whole = []) || negb (all_digits whole) || negb (all_digits fraction)
  || (existsb (Z.eqb 46) mantissa && bool_decide (fraction = []))
  || ((1 <? len whole) && starts_with 48 whole).

Definition decimal_parse (lexeme : bytes) (g : DecimalGrammar) :
    result ExactDecimal DecimalError :=
  refuse bool_decide (lexeme = []) with Empty ;;
  refuse (g.(max_lexeme_bytes) <? len lexeme) with LexemeTooLong ;;
  sign <-? parse_sign lexeme ;;
  let '(negative, unsigned) := sign in
  refuse negative && negb g.(allow_negative) with NegativeForbidden ;;
  split <-? parse_exponent unsigned g ;;
  let '(mantissa, exponent) := split in
  let '(whole, fraction) := split_point mantissa in
  refuse mantissa_invalid mantissa whole fraction with InvalidLexeme ;;
  let digits := whole ++ fraction in
  refuse (g.(max_digits) <? len digits) with PrecisionExceeded ;;
  coefficient <-? ok_or (parse_signed I128_MIN I128_MAX digits) CoefficientOverflow ;;
  if coefficient =? 0 then normalize 0 0 g
  else
    scale0 <-? ok_or (checked 0 I32_MAX (len fraction)) ScaleOverflow ;;
    scale <-? ok_or (checked I32_MIN I32_MAX (scale0 - exponent)) ScaleOverflow ;;
    coefficient <-?
      (if scale <? 0 then
         ok_or (checked_pow_i128 10 (Z.abs scale) ≫= checked_mul_i128 coefficient)
           CoefficientOverflow
       else Ok coefficient) ;;
    coefficient <-?
      (if negative then ok_or (checked_neg_i128 coefficient) CoefficientOverflow
       else Ok coefficient) ;;
    scale <-? ok_or (checked 0 U16_MAX (Z.max scale 0)) ScaleOverflow ;;
    normalize coefficient scale g.

(** ** Fixed-width parts, canonical spelling, arithmetic *)

(** [magnitude as i128]: two's complement. *)
Definition as_i128 (magnitude : Z) : Z :=
  if I128_MAX <? magnitude then magnitude - 2 ^ 128 else magnitude.

Definition from_parts (coefficient_low coefficient_high scale : Z) (g : DecimalGrammar) :
    result ExactDecimal DecimalError :=
  let magnitude := Z.lor (Z.shiftl coefficient_high 64) coefficient_low in
  normalize (as_i128 magnitude) scale g.

Definition canonical (self : ExactDecimal) : bytes :=
  let sign := if self.(coefficient) <? 0 then [45] else [] in
  let digits := to_decimal (Z.abs self.(coefficient)) in
  if self.(scale) =? 0 then sign ++ digits
  else if len digits <=? self.(scale) then
    sign ++ [48; 46] ++ repeat 48 (Z.to_nat (self.(scale) - len digits)) ++ digits
  else
    let split := Z.to_nat (len digits - self.(scale)) in
    sign ++ take split digits ++ [46] ++ drop split digits.

Definition checked_add_with (self other : ExactDecimal) (g : DecimalGrammar) :
    result ExactDecimal DecimalError :=
  let scale' := Z.max self.(scale) other.(scale) in
  left <-? ok_or (checked_pow_i128 10 (scale' - self.(scale))
                  ≫= checked_mul_i128 self.(coefficient)) ArithmeticOverflow ;;
  right <-? ok_or (checked_pow_i128 10 (scale' - other.(scale))
                   ≫= checked_mul_i128 other.(coefficient)) ArithmeticOverflow ;;
  sum <-? ok_or (checked_add_i128 left right) ArithmeticOverflow ;;
  normalize sum scale' g.

(** The widest grammar the representation admits: [DecimalGrammar::new(u16::MAX, 39, ..)],
    whose [expect] never fires. *)
Definition widest_grammar (exponent negative : bool) : DecimalGrammar :=
  {| max_scale := U16_MAX; max_digits := 39; allow_exponent := exponent;
     allow_negative := negative; max_lexeme_bytes := 128; max_exponent_digits := 5;
     max_exponent_magnitude := 99999 |}.

Definition checked_add (self other : ExactDecimal) : result ExactDecimal DecimalError :=
  checked_add_with self other (widest_grammar true true).

Definition decimal_complement (self unit : ExactDecimal) (g : DecimalGrammar) :
    result ExactDecimal DecimalError :=
  negated <-? ok_or (checked_neg_i128 self.(coefficient)) ArithmeticOverflow ;;
  checked_add_with unit {| coefficient := negated; scale := self.(scale) |} g.

(** ** The newtypes ([decimal_newtype!(Price | Quantity | Depth, false)]) *)

Record Price : Set := { price_value : ExactDecimal }.
Record Quantity : Set := { quantity_value : ExactDecimal }.

#[export] Instance Price_eq_dec : EqDecision Price.
Proof. solve_decision. Defined.
#[export] Instance Quantity_eq_dec : EqDecision Quantity.
Proof. solve_decision. Defined.

Definition newtype_parse (value : bytes) (g : DecimalGrammar) :
    result ExactDecimal DecimalError :=
  decimal_parse value (set_allow_negative false g).
Definition newtype_from_parts (low high scale : Z) (g : DecimalGrammar) :
    result ExactDecimal DecimalError :=
  from_parts low high scale (set_allow_negative false g).

Definition price_parse (value : bytes) (g : DecimalGrammar) : result Price DecimalError :=
  res_map Build_Price (newtype_parse value g).
Definition quantity_parse (value : bytes) (g : DecimalGrammar) :
    result Quantity DecimalError :=
  res_map Build_Quantity (newtype_parse value g).
Definition price_from_parts (low high scale : Z) (g : DecimalGrammar) :
    result Price DecimalError :=
  res_map Build_Price (newtype_from_parts low high scale g).
Definition quantity_from_parts (low high scale : Z) (g : DecimalGrammar) :
    result Quantity DecimalError :=
  res_map Build_Quantity (newtype_from_parts low high scale g).

(** The derived [Ord] of the newtypes. *)
Definition price_cmp (x y : Price) : comparison := decimal_cmp x.(price_value) y.(price_value).

Example parse_equal_spellings :
  decimal_parse (lit "0.5") (widest_grammar true true) = Ok {| coefficient := 5; scale := 1 |} /\
  decimal_parse (lit "0.50") (widest_grammar true true) = Ok {| coefficient := 5; scale := 1 |} /\
  decimal_parse (lit "5e-1") (widest_grammar true true) = Ok {| coefficient := 5; scale := 1 |}.
Proof. vm_compute. auto. Qed.

Example canonical_example : canonical {| coefficient := -5; scale := 3 |} = lit "-0.005".
Proof. reflexivity. Qed.

(** ** Well-formedness: the normalized form *)

(** In machine range, with no trailing zero to strip. *)
Record decimal_wf (d : ExactDecimal) : Prop := {
  wf_coefficient : I128_MIN <= d.(coefficient) <= I128_MAX;
  wf_scale : 0 <= d.(scale) <= U16_MAX;
  wf_normal : d.(scale) = 0 \/ d.(coefficient) mod 10 <> 0
}.

(** What a [Price], [Quantity] or [Depth] holds: a normalized non-negative decimal. *)
Definition amount_wf (d : ExactDecimal) : Prop := decimal_wf d /\ 0 <= d.(coefficient).
Definition price_wf (p : Price) : Prop := amount_wf p.(price_value).
Definition quantity_wf (q : Quantity) : Prop := amount_wf q.(quantity_value).

(** The value [coefficient / 10^scale] of a decimal equals [m / 10^k], cross-multiplied. *)
Definition same_value (d : ExactDecimal) (m k : Z) : Prop :=
  d.(coefficient) * 10 ^ k = m * 10 ^ d.(scale).

(** ** Arithmetic helpers *)

Lemma pow10_pos n : 0 <= n -> 0 < 10 ^ n.
Proof. intros. apply Z.pow_pos_nonneg; lia. Qed.

Lemma pow10_split n m : 0 <= n <= m -> 10 ^ m = 10 ^ (m - n) * 10 ^ n.
Proof. intros. rewrite <- Z.pow_add_r by lia. f_equal. lia. Qed.

Lemma pow10_mod n : 0 < n -> 10 ^ n mod 10 = 0.
Proof.
  intros. rewrite (pow10_split 1 n) by lia. change (10 ^ 1) with 10. apply Z.mod_mul. lia.
Qed.

Lemma pow10_mono n m : 0 <= n <= m -> 10 ^ n <= 10 ^ m.
Proof. intros. apply Z.pow_le_mono_r; lia. Qed.

(** Cross-multiplied comparison is transitive. *)
Lemma cross_lt_trans a b c x y z : 0 < x -> 0 < y -> 0 < z ->
  a * y < b * x -> b * z < c * y -> a * z < c * x.
Proof.
  intros Hx Hy Hz H1 H2.
  assert (a * y * z < b * x * z) by (apply Z.mul_lt_mono_pos_r; lia).
  assert (b * z * x < c * y * x) by (apply Z.mul_lt_mono_pos_r; lia).
  apply (Z.mul_lt_mono_pos_r y); lia.
Qed.

Lemma compare_mul_r p a b : 0 < p -> (a * p ?= b * p) = (a ?= b).
Proof.
  intros. destruct (Z.compare_spec a b); subst; [apply Z.compare_refl | |].
  - apply Z.compare_lt_iff, Z.mul_lt_mono_pos_r; lia.
  - apply Z.compare_gt_iff, Z.mul_lt_mono_pos_r; lia.
Qed.

(** ** The order is the order of the values *)

Section magnitudes.
Variables (l ls r rs : Z).
Hypotheses (Hl : 0 <= l <= U128_MAX) (Hr : 0 <= r <= U128_MAX)
           (Hls : 0 <= ls) (Hrs : 0 <= rs).

(** Aligning the coarser magnitude: an overflow of [u128] is itself decisive. *)
Lemma align_compare (a n b : Z) : 1 <= a -> 0 <= n -> 0 <= b <= U128_MAX ->
  match checked_pow_u128 10 n ≫= checked_mul_u128 a with
  | Some scaled => scaled ?= b
  | None => Gt
  end = (a * 10 ^ n ?= b).
Proof.
  intros Ha Hn Hb. unfold checked_pow_u128, checked_mul_u128. pose proof (pow10_pos n Hn).
  destruct (checked 0 U128_MAX (10 ^ n)) as [f|] eqn:E; simpl.
  - apply checked_Some in E as [<- _].
    destruct (checked 0 U128_MAX (a * 10 ^ n)) as [s|] eqn:F.
    + apply checked_Some in F as [<- _]. done.
    + apply checked_None in F. symmetry. apply Z.compare_gt_iff. nia.
  - apply checked_None in E. symmetry. apply Z.compare_gt_iff. nia.
Qed.

Lemma compare_scaled_magnitudes_spec :
  compare_scaled_magnitudes l ls r rs = (l * 10 ^ rs ?= r * 10 ^ ls).
Proof.
  unfold compare_scaled_magnitudes.
  pose proof (pow10_pos ls Hls) as Pl. pose proof (pow10_pos rs Hrs) as Pr.
  destruct (Z.eqb_spec ls rs) as [->|Hne]; cbn [orb]; [by rewrite compare_mul_r|].
  destruct (Z.eqb_spec l 0) as [->|Hl0]; cbn [orb].
  { rewrite <- (compare_mul_r (10 ^ ls) 0 r) by done. f_equal; lia. }
  destruct (Z.eqb_spec r 0) as [->|Hr0]; cbn [orb].
  { rewrite <- (compare_mul_r (10 ^ rs) l 0) by done. f_equal; lia. }
  destruct (Z.ltb_spec ls rs).
  - rewrite align_compare by lia. rewrite (pow10_split ls rs) by lia.
    rewrite Z.mul_assoc, compare_mul_r by done.
    by replace (Z.abs (ls - rs)) with (rs - ls) by lia.
  - transitivity (CompOpp (r * 10 ^ Z.abs (ls - rs) ?= l)).
    + rewrite <- align_compare by lia.
      destruct (_ ≫= _) as [s|]; [apply Z.compare_antisym | done].
    + rewrite <- Z.compare_antisym, (pow10_split rs ls), Z.mul_assoc, compare_mul_r by lia.
      by replace (Z.abs (ls - rs)) with (ls - rs) by lia.
Qed.
End magnitudes.

Lemma abs_range c : I128_MIN <= c <= I128_MAX -> 0 <= Z.abs c <= U128_MAX.
Proof. bounds. lia. Qed.

Lemma cross_sign a b p q : 0 < p -> 0 < q -> Z.sgn a <> Z.sgn b ->
  (Z.sgn a ?= Z.sgn b) = (a * p ?= b * q).
Proof.
  intros Hp Hq Hs. assert (Ha : Z.sgn (a * p) = Z.sgn a) by (rewrite Z.sgn_mul, (Z.sgn_pos p); lia).
  assert (Hb : Z.sgn (b * q) = Z.sgn b) by (rewrite Z.sgn_mul, (Z.sgn_pos q); lia).
  destruct (Z.compare_spec (Z.sgn a) (Z.sgn b)); [done| |]; symmetry;
    rewrite ?Z.compare_lt_iff, ?Z.compare_gt_iff; lia.
Qed.

Lemma decimal_cmp_value x y : decimal_wf x -> decimal_wf y ->
  decimal_cmp x y = (x.(coefficient) * 10 ^ y.(scale) ?= y.(coefficient) * 10 ^ x.(scale)).
Proof.
  intros [Hx Hxs _] [Hy Hys _]. unfold decimal_cmp.
  destruct x as [a s], y as [b t]; simpl in *.
  pose proof (pow10_pos s ltac:(lia)). pose proof (pow10_pos t ltac:(lia)).
  destruct (Z.eq_dec (Z.sgn a) (Z.sgn b)) as [E|E].
  - rewrite E, Z.compare_refl. destruct (Z.eqb_spec a 0) as [->|Ha].
    { assert (b = 0) as -> by (destruct b; done). done. }
    rewrite compare_scaled_magnitudes_spec by (try apply abs_range; lia).
    destruct (Z.ltb_spec a 0).
    + assert (b < 0) by (destruct a, b; done).
      rewrite <- Z.compare_antisym, !Z.abs_neq by lia.
      rewrite !Z.mul_opp_l, Z.compare_opp. done.
    + assert (0 <= b) by (destruct a, b; done). by rewrite !Z.abs_eq by lia.
  - rewrite (cross_sign a b (10 ^ t) (10 ^ s)) by done.
    destruct (a * 10 ^ t ?= b * 10 ^ s) eqn:F; [|done|done].
    rewrite <- (cross_sign a b) in F by done. by apply Z.compare_eq in F.
Qed.

(** Normalized decimals of one value are one decimal. *)
Lemma normal_unique x y : decimal_wf x -> decimal_wf y ->
  x.(coefficient) * 10 ^ y.(scale) = y.(coefficient) * 10 ^ x.(scale) -> x = y.
Proof.
  assert (Hone : forall a s b t, 0 <= s < t -> b mod 10 <> 0 ->
            a * 10 ^ t = b * 10 ^ s -> False).
  { intros a s b t Hst Hb E. rewrite (pow10_split s t), Z.mul_assoc in E by lia.
    apply Z.mul_reg_r in E; [|pose proof (pow10_pos s); lia]. subst b.
    rewrite <- Z.mul_mod_idemp_r, pow10_mod, Z.mul_0_r in Hb by lia. done. }
  intros [_ Hxs Hxn] [_ Hys Hyn] E. destruct x as [a s], y as [b t]; simpl in *.
  destruct (Z.lt_trichotomy s t) as [Hlt|[->|Hlt]].
  - exfalso. apply (Hone a s b t); [lia| |done]. destruct Hyn; [lia|done].
  - apply Z.mul_reg_r in E; [by subst|]. pose proof (pow10_pos t). lia.
  - exfalso. apply (Hone b t a s); [lia| |done]. destruct Hxn; [lia|done].
Qed.

#[export] Instance key_order_decimal : KeyOrder decimal_cmp decimal_wf.
Proof.
  split.
  - intros x Hx. rewrite decimal_cmp_value by done. apply Z.compare_refl.
  - intros x y Hx Hy. rewrite decimal_cmp_value by done. intros E%Z.compare_eq.
    by apply normal_unique.
  - intros x y Hx Hy. rewrite !decimal_cmp_value by done. apply Z.compare_antisym.
  - intros x y z Hx Hy Hz. rewrite !decimal_cmp_value, !Z.compare_lt_iff by done.
    destruct Hx, Hy, Hz. apply cross_lt_trans; apply pow10_pos; lia.
Qed.

#[export] Instance key_order_price : KeyOrder price_cmp price_wf.
Proof.
  pose proof (key_order_restrict decimal_cmp decimal_wf amount_wf _ (fun x H => proj1 H)) as O.
  split; unfold price_cmp, price_wf.
  - intros x Hx. by apply (cmp_refl (KeyOrder := O)).
  - intros [x] [y] Hx Hy E. f_equal. by apply (cmp_eq (KeyOrder := O)).
  - intros x y Hx Hy. by apply (cmp_flip (KeyOrder := O)).
  - intros x y z Hx Hy Hz. by apply (cmp_trans (KeyOrder := O)).
Qed.

(** ** Normalization *)

Lemma strip_zeros_spec fuel c s c' s' :
  0 <= s <= Z.of_nat fuel -> strip_zeros fuel c s = (c', s') ->
  c = c' * 10 ^ (s - s') /\ 0 <= s' <= s /\ (s' = 0 \/ c' mod 10 <> 0).
Proof.
  revert c s. induction fuel as [|fuel IH]; intros c s Hs; simpl.
  { intros [= <- <-]. assert (s = 0) as -> by lia. rewrite Z.sub_diag, Z.pow_0_r. lia. }
  destruct (Z.ltb_spec 0 s); simpl; [|intros [= <- <-]; rewrite Z.sub_diag, Z.pow_0_r; lia].
  destruct (Z.eqb_spec (Z.rem c 10) 0) as [E|E].
  - intros (Hc & Hs' & Hn)%IH; [|lia]. split_and!; [|lia|lia|done].
    pose proof (Z.quot_rem' c 10) as Q. rewrite E, Z.add_0_r in Q. rewrite Q, Hc.
    replace (s - s') with (Z.succ (s - 1 - s')) by lia. rewrite Z.pow_succ_r by lia. lia.
  - intros [= <- <-]. rewrite Z.sub_diag, Z.pow_0_r. split_and!; try lia. right.
    intros F. apply E. apply Z.rem_divide; [lia|]. apply Z.mod_divide; [lia|done].
Qed.

Lemma strip_zeros_abs c c' n : 0 <= n -> c = c' * 10 ^ n ->
  Z.abs c' <= Z.abs c /\ (0 <= c <-> 0 <= c').
Proof. intros Hn ->. pose proof (pow10_pos n Hn). rewrite Z.abs_mul. nia. Qed.

(** A normalized decimal that satisfies the grammar is a fixed point. *)
Lemma strip_zeros_normal fuel c s : s = 0 \/ c mod 10 <> 0 ->
  strip_zeros fuel c s = (c, s).
Proof.
  intros Hn. destruct fuel; simpl; [done|]. destruct (Z.ltb_spec 0 s); simpl; [|done].
  destruct (Z.eqb_spec (Z.rem c 10) 0) as [E|E]; [|done].
  apply Z.rem_divide, Z.mod_divide in E; lia.
Qed.

Section normalize.
Variables (c s : Z) (g : DecimalGrammar).
Hypotheses (Hc : I128_MIN <= c <= I128_MAX) (Hs : 0 <= s <= U16_MAX).

Lemma normalize_Ok d : normalize c s g = Ok d ->
  decimal_wf d /\ c = d.(coefficient) * 10 ^ (s - d.(scale)) /\
  d.(scale) <= s <= g.(max_scale) /\ (g.(allow_negative) = false -> 0 <= c) /\
  len (to_decimal (Z.abs d.(coefficient))) <= g.(max_digits).
Proof.
  unfold normalize. destruct (_ && _) eqn:En; [done|].
  destruct (Z.ltb_spec g.(max_scale) s); [done|].
  destruct (strip_zeros _ c s) as [c' s'] eqn:E.
  apply strip_zeros_spec in E as (Ec & Es & Hn); [|lia].
  destruct (Z.ltb_spec g.(max_digits) (len (to_decimal (Z.abs c')))); [done|].
  intros [= <-]; simpl. destruct (strip_zeros_abs c c' (s - s')) as [Ha Hp]; [lia|done|].
  split_and!; auto; try lia.
  - split; simpl; [bounds; lia|lia|done].
  - intros Hg. rewrite Hg, andb_true_r in En. apply Z.ltb_ge in En. lia.
Qed.

(** The refusals, exactly. *)
Lemma normalize_Err e : normalize c s g = Err e ->
  (e = NegativeForbidden /\ c < 0 /\ g.(allow_negative) = false) \/
  (e = PrecisionExceeded /\ (c < 0 -> g.(allow_negative) = true) /\
   (g.(max_scale) < s \/
    exists c' s', strip_zeros (Z.to_nat s) c s = (c', s') /\
      g.(max_digits) < len (to_decimal (Z.abs c')))).
Proof.
  unfold normalize. destruct (_ && _) eqn:En.
  { intros [= <-]. left. bool_facts. auto. }
  assert (Hneg : c < 0 -> g.(allow_negative) = true).
  { intros Hlt. apply Z.ltb_lt in Hlt. rewrite Hlt in En. by apply negb_false_iff in En. }
  intros E. right. destruct (Z.ltb_spec g.(max_scale) s).
  { injection E as <-. auto. }
  destruct (strip_zeros _ c s) as [c' s'] eqn:F.
  destruct (Z.ltb_spec g.(max_digits) (len (to_decimal (Z.abs c')))); [|done].
  injection E as <-. split_and!; auto. right. exists c', s'. auto.
Qed.
End normalize.

Lemma normalize_normal d g : decimal_wf d ->
  (g.(allow_negative) = true \/ 0 <= d.(coefficient)) -> d.(scale) <= g.(max_scale) ->
  len (to_decimal (Z.abs d.(coefficient))) <= g.(max_digits) ->
  normalize d.(coefficient) d.(scale) g = Ok d.
Proof.
  intros [_ _ Hn] Hneg Hs Hd. unfold normalize.
  assert ((d.(coefficient) <? 0) && negb g.(allow_negative) = false) as ->.
  { destruct Hneg as [->|H]; [apply andb_false_r|]. by apply Z.ltb_ge in H as ->. }
  apply Z.ltb_ge in Hs as ->. rewrite strip_zeros_normal by done.
  apply Z.ltb_ge in Hd as ->. by destruct d.
Qed.

(** ** Complement *)

Definition unit_price : ExactDecimal := {| coefficient := 1; scale := 0 |}.

Lemma checked_pow10_i128 n : 0 <= n ->
  checked_pow_i128 10 n = if n <=? 38 then Some (10 ^ n) else None.
Proof.
  intros Hn. unfold checked_pow_i128. pose proof (pow10_pos n Hn).
  destruct (Z.leb_spec n 38).
  - apply checked_in. pose proof (pow10_mono n 38 ltac:(lia)) as H1. vm_compute (10 ^ 38) in H1.
    bounds. lia.
  - apply checked_None. pose proof (pow10_mono 39 n ltac:(lia)) as H1.
    vm_compute (10 ^ 39) in H1. bounds. lia.
Qed.

(** [1 - price] under the normalized grammar: exact when it is representable, and the two
    ways it is not. *)
Lemma complement_cases p : amount_wf p ->
  match decimal_complement p unit_price (widest_grammar false false) with
  | Ok d => amount_wf d /\ p.(scale) <= 38 /\ d.(scale) <= p.(scale) /\
            d.(coefficient) * 10 ^ (p.(scale) - d.(scale)) = 10 ^ p.(scale) - p.(coefficient)
  | Err e => e = ArithmeticOverflow /\ 38 < p.(scale) \/
             e = NegativeForbidden /\ p.(scale) <= 38 /\ 10 ^ p.(scale) < p.(coefficient)
  end.
Proof.
  intros [[Hc Hs Hn] Hpos]. destruct p as [c s]; simpl in *.
  unfold decimal_complement, checked_add_with; simpl.
  unfold checked_neg_i128. rewrite checked_in by (bounds; lia). simpl.
  rewrite Z.max_r, Z.sub_0_r, Z.sub_diag by lia.
  rewrite !checked_pow10_i128 by lia.
  destruct (Z.leb_spec s 38) as [H38|H38]; simpl; [|by left]. rewrite Z.pow_0_r.
  pose proof (pow10_pos s ltac:(lia)). pose proof (pow10_mono s 38 ltac:(lia)) as H1.
  vm_compute (10 ^ 38) in H1.
  unfold checked_mul_i128, checked_add_i128. rewrite !checked_in by (bounds; lia). simpl.
  rewrite checked_in by (bounds; lia). simpl.
  destruct (normalize _ s _) as [d|e] eqn:E.
  - apply normalize_Ok in E as (Hwf & Ed & Hsd & Hneg & _); [|bounds; lia|lia].
    specialize (Hneg eq_refl). pose proof (pow10_pos (s - d.(scale)) ltac:(lia)).
    split_and!; [split; [done|nia]|lia|lia|rewrite <- Ed; ring].
  - right. apply normalize_Err in E as [(-> & Hlt & _)|(-> & Hnn & Hx)].
    { split_and!; auto; lia. }
    exfalso. destruct (Z.lt_decidable (10 ^ s - c) 0) as [Hd|Hd].
    { specialize (Hnn ltac:(lia)). done. }
    destruct Hx as [Hx|(c' & s' & F & Hd')]; [simpl in Hx; lia|]. simpl in Hd'.
    apply strip_zeros_spec in F as (Ec & Es & _); [|lia].
    destruct (strip_zeros_abs _ c' (s - s') ltac:(lia) Ec) as [Ha _].
    apply Z.lt_nge in Hd'. apply Hd'. apply to_decimal_len; [lia|lia|].
    assert (10 ^ 38 < 10 ^ 39) by (vm_compute; done). lia.
Qed.

(** Complementing is symmetric: what it gives back complements to where it started. *)
Lemma complement_symmetric p q : amount_wf p ->
  decimal_complement p unit_price (widest_grammar false false) = Ok q ->
  decimal_complement q unit_price (widest_grammar false false) = Ok p.
Proof.
  intros Hp E. pose proof (complement_cases p Hp) as H. rewrite E in H.
  destruct H as (Hq & H38 & Hs & Ev). pose proof (complement_cases q Hq) as H.
  destruct Hp as [Hpw Hp0], Hq as [Hqw Hq0]. destruct (Hqw) as [_ ? _].
  pose proof (pow10_pos (p.(scale) - q.(scale)) ltac:(lia)).
  pose proof (pow10_split q.(scale) p.(scale) ltac:(lia)) as Hsplit.
  destruct (decimal_complement q _ _) as [r|e].
  - destruct H as ([Hr _] & _ & Hrs & Er). f_equal.
    pose proof (pow10_split r.(scale) q.(scale) ltac:(destruct Hr; lia)) as Hsplit'.
    apply normal_unique; [done|done|]. rewrite Hsplit, Hsplit' in *. nia.
  - exfalso. destruct H as [[_ ?]|(_ & _ & H)]; [lia|]. nia.
Qed.

(** ** Parsing accepts spellings of the value it returns *)

Definition sign_text (negative : bool) : bytes := if negative then [45] else [].

(** [lexeme] is an optional minus, an integer part without a redundant leading zero, an
    optional point with at least one digit after it, and an optional exponent. *)
Definition spells (lexeme : bytes) (negative : bool) (whole fraction : bytes)
    (exponent : Z) : Prop :=
  exists point marker,
    lexeme = sign_text negative ++ whole ++ point ++ marker /\
    whole <> [] /\ all_digits whole = true /\ all_digits fraction = true /\
    (len whole = 1 \/ starts_with 48 whole = false) /\
    (point = [] /\ fraction = [] \/ point = 46 :: fraction /\ fraction <> []) /\
    (marker = [] /\ exponent = 0 \/
     exists e raw, is_e e = true /\ marker = e :: raw /\
       parse_signed I32_MIN I32_MAX raw = Some exponent).

(** [d] is the rational [m / 10^k], where [k] may be negative. *)
Definition denotes (d : ExactDecimal) (m k : Z) : Prop :=
  d.(coefficient) * 10 ^ Z.max k 0 = m * 10 ^ Z.max (- k) 0 * 10 ^ d.(scale).

Definition signed (negative : bool) (m : Z) : Z := if negative then - m else m.

Lemma find_byte_Some p l i : find_byte p l = Some i ->
  exists b, p b = true /\ l = take i l ++ b :: drop (S i) l.
Proof.
  revert i. induction l as [|b l IH]; intros i; simpl; [done|].
  destruct (p b) eqn:E; [intros [= <-]; by exists b|].
  destruct (find_byte p l) as [j|]; [|done]. intros [= <-].
  destruct (IH j eq_refl) as (b' & ? & Hl). exists b'. split; [done|]. simpl. by rewrite <- Hl.
Qed.

Lemma find_byte_app p l k : forallb (fun b => negb (p b)) l = true ->
  find_byte p (l ++ k) = (fun i => (length l + i)%nat) <$> find_byte p k.
Proof.
  induction l as [|b l IH]; simpl; [by destruct (find_byte p k)|].
  intros [Hb Hl]%andb_true_iff. apply negb_true_iff in Hb as ->. rewrite IH by done.
  by destruct (find_byte p k).
Qed.

Lemma find_byte_None p l : forallb (fun b => negb (p b)) l = true -> find_byte p l = None.
Proof. intros H. pose proof (find_byte_app p l [] H) as E. by rewrite app_nil_r in E. Qed.

Lemma digits_not p l : (forall b, is_ascii_digit b = true -> p b = false) ->
  all_digits l = true -> forallb (fun b => negb (p b)) l = true.
Proof.
  unfold all_digits. intros Hp. rewrite !forallb_forall. intros H b Hb.
  by rewrite Hp by auto.
Qed.

Lemma digit_not_e b : is_ascii_digit b = true -> is_e b = false.
Proof. intros H. apply in_range_spec in H. unfold is_e. lia. Qed.
Lemma digit_not_point b : is_ascii_digit b = true -> (46 =? b) = false.
Proof. intros H. apply in_range_spec in H. lia. Qed.

Lemma parse_sign_Ok lexeme negative unsigned :
  parse_sign lexeme = Ok (negative, unsigned) -> lexeme = sign_text negative ++ unsigned.
Proof.
  unfold parse_sign. intros H. repeat case_match; simplify_eq/=; done.
Qed.

Lemma parse_exponent_Ok unsigned g mantissa exponent :
  parse_exponent unsigned g = Ok (mantissa, exponent) ->
  exists marker, unsigned = mantissa ++ marker /\
    (marker = [] /\ exponent = 0 \/
     exists e raw, is_e e = true /\ marker = e :: raw /\
       parse_signed I32_MIN I32_MAX raw = Some exponent).
Proof.
  unfold parse_exponent. destruct (find_byte is_e unsigned) as [i|] eqn:F.
  - destruct (_ || _); [done|]. destruct (_ || _); [done|].
    destruct (parse_signed _ _ _) as [x|] eqn:P; simpl; [|done].
    destruct (_ <? _); [done|]. intros [= <- <-].
    apply find_byte_Some in F as (b & Hb & Hl). exists (b :: drop (S i) unsigned). eauto 7.
  - intros [= <- <-]. exists []. rewrite app_nil_r. auto.
Qed.

Lemma split_point_spec mantissa whole fraction :
  split_point mantissa = (whole, fraction) -> mantissa_invalid mantissa whole fraction = false ->
  exists point, mantissa = whole ++ point /\
    whole <> [] /\ all_digits whole = true /\ all_digits fraction = true /\
    (len whole = 1 \/ starts_with 48 whole = false) /\
    (point = [] /\ fraction = [] \/ point = 46 :: fraction /\ fraction <> []).
Proof.
  unfold split_point, mantissa_invalid. intros E H. bool_facts.
  assert (Hlead : len whole = 1 \/ starts_with 48 whole = false).
  { destruct H0 as [Hl|]; bool_facts; [|auto]. left.
    destruct whole; [done|]. rewrite len_cons in *. pose proof (len_nonneg whole). lia. }
  destruct (find_byte _ mantissa) as [i|] eqn:F; simplify_eq.
  - apply find_byte_Some in F as (b & Hb & Hl). apply Z.eqb_eq in Hb as <-.
    exists (46 :: drop (S i) mantissa). split_and!; auto. right. split; [done|].
    destruct H1 as [H1|H1]; [|by apply bool_decide_eq_false in H1].
    exfalso. rewrite Hl, existsb_app in H1. simpl in H1. by rewrite orb_true_r in H1.
  - exists []. rewrite app_nil_r. split_and!; auto.
Qed.

(** [i128] scaling of the parsed digits by the exponent. *)
Definition parse_scaled (coefficient scale : Z) (negative : bool) (g : DecimalGrammar) :
    result ExactDecimal DecimalError :=
  coefficient <-?
    (if scale <? 0 then
       ok_or (checked_pow_i128 10 (Z.abs scale) ≫= checked_mul_i128 coefficient)
         CoefficientOverflow
     else Ok coefficient) ;;
  coefficient <-?
    (if negative then ok_or (checked_neg_i128 coefficient) CoefficientOverflow
     else Ok coefficient) ;;
  scale <-? ok_or (checked 0 U16_MAX (Z.max scale 0)) ScaleOverflow ;;
  normalize coefficient scale g.

(** What an accepted lexeme yields: normalized, inside the grammar. *)
Definition within_grammar (d : ExactDecimal) (g : DecimalGrammar) : Prop :=
  decimal_wf d /\ (0 <= g.(max_scale) -> d.(scale) <= g.(max_scale)) /\
  (g.(allow_negative) = false -> 0 <= d.(coefficient)) /\
  len (to_decimal (Z.abs d.(coefficient))) <= g.(max_digits).

Lemma checked_pow_i128_Some n f : checked_pow_i128 10 n = Some f -> f = 10 ^ n.
Proof. unfold checked_pow_i128. by intros [<- _]%checked_Some. Qed.
Lemma checked_mul_i128_Some a b f : checked_mul_i128 a b = Some f ->
  f = a * b /\ I128_MIN <= f <= I128_MAX.
Proof. unfold checked_mul_i128. by intros [<- ?]%checked_Some. Qed.

Lemma normalize_within c s g d : I128_MIN <= c <= I128_MAX -> 0 <= s <= U16_MAX ->
  normalize c s g = Ok d -> within_grammar d g /\ same_value d c s.
Proof.
  intros Hc Hs E. apply normalize_Ok in E as (Hwf & Ec & Hsc & Hn & Hd); [|done|done].
  pose proof (pow10_pos (s - d.(scale)) ltac:(lia)). destruct (Hwf) as [_ Hd0 _].
  split; [split_and!; auto; try lia; intros Hg; specialize (Hn Hg); nia|].
  unfold same_value. rewrite (pow10_split d.(scale) s) by lia. rewrite Ec. ring.
Qed.

Lemma parse_scaled_Ok c k negative g d : 0 <= c <= I128_MAX ->
  parse_scaled c k negative g = Ok d ->
  within_grammar d g /\ denotes d (signed negative c) k.
Proof.
  intros Hc. unfold parse_scaled, denotes.
  destruct (if k <? 0 then _ else _) as [m|] eqn:Em; [|done].
  assert (Hm : m = c * 10 ^ Z.max (- k) 0 /\ 0 <= m <= I128_MAX).
  { destruct (Z.ltb_spec k 0); [|injection Em as <-; rewrite Z.max_r, Z.pow_0_r; lia].
    destruct (checked_pow_i128 _ _) as [f|] eqn:Ef; [|done]. simpl in Em.
    apply ok_or_Ok, checked_mul_i128_Some in Em as [-> ?].
    apply checked_pow_i128_Some in Ef as ->. rewrite Z.max_l, Z.abs_neq in * by lia.
    pose proof (pow10_pos (- k) ltac:(lia)). split; [done|nia]. }
  destruct Hm as [Hm Hr].
  destruct (if negative then _ else _) as [x|] eqn:Ex; [|done].
  assert (Hx : x = signed negative m).
  { destruct negative; [|by injection Ex]. apply ok_or_Ok, checked_Some in Ex. simpl. lia. }
  destruct (checked 0 U16_MAX _) as [s|] eqn:Es; simpl; [|done].
  apply checked_Some in Es as [<- ?]. intros E.
  apply normalize_within in E as [Hw Hv]; [|subst x; unfold signed; bounds; destruct negative; lia|done].
  split; [done|]. unfold same_value in Hv. rewrite Hv, Hx, Hm. unfold signed.
  destruct negative; ring.
Qed.

(** [decimal_parse] past the mantissa, in terms of its pieces. *)
Lemma decimal_parse_Ok lexeme g d : decimal_parse lexeme g = Ok d ->
  exists negative whole fraction exponent,
    spells lexeme negative whole fraction exponent /\
    len (whole ++ fraction) <= g.(max_digits) /\
    (negative = true -> g.(allow_negative) = true) /\
    let c := digits_val 0 (whole ++ fraction) in
    0 <= c <= I128_MAX /\
    if c =? 0 then normalize 0 0 g = Ok d
    else parse_scaled c (len fraction - exponent) negative g = Ok d.
Proof.
  unfold decimal_parse.
  destruct (bool_decide _); [done|]. destruct (_ <? len lexeme); [done|].
  destruct (parse_sign lexeme) as [[negative unsigned]|] eqn:Es; [|done].
  destruct (negative && _) eqn:En; [done|].
  destruct (parse_exponent unsigned g) as [[mantissa exponent]|] eqn:Ee; [|done].
  destruct (split_point mantissa) as [whole fraction] eqn:Ep.
  destruct (mantissa_invalid _ _ _) eqn:Em; [done|].
  destruct (Z.ltb_spec g.(max_digits) (len (whole ++ fraction))); [done|].
  destruct (parse_signed _ _ (whole ++ fraction)) as [c|] eqn:Ec; simpl; [|done].
  intros E. exists negative, whole, fraction, exponent.
  apply parse_sign_Ok in Es. apply parse_exponent_Ok in Ee as (marker & Hu & Hmark).
  pose proof (split_point_spec _ _ _ Ep Em) as (point & Hmant & Hne & Hw & Hf & Hlead & Hpt).
  assert (Hdig : all_digits (whole ++ fraction) = true)
    by (by rewrite all_digits_app, Hw, Hf).
  assert (Hc : digits_val 0 (whole ++ fraction) = c /\ 0 <= c <= I128_MAX).
  { pose proof (digits_val_bound _ Hdig). unfold parse_signed in Ec.
    destruct whole as [|b whole]; [done|]. simpl app in *.
    assert (is_ascii_digit b = true) as Hb by (by apply andb_true_iff in Hw as [? _]).
    apply in_range_spec in Hb.
    destruct (decide (b = 43)); [lia|]. destruct (decide (b = 45)); [lia|].
    assert (E' : checked I128_MIN I128_MAX (digits_val 0 (b :: whole ++ fraction)) = Some c).
    { repeat case_match; simplify_eq; try lia; by rewrite Z.mul_1_l in Ec. }
    apply checked_Some in E'. bounds. lia. }
  destruct Hc as [Hc Hr]. rewrite Hc. split_and!; auto; try lia.
  - exists point, marker. split_and!; auto. subst. by rewrite <- !app_assoc.
  - intros ->. by destruct g.(allow_negative).
  - destruct (c =? 0); [done|]. unfold parse_scaled.
    destruct (checked 0 I32_MAX _) as [s0|] eqn:E0; simpl in E; [|done].
    apply checked_Some in E0 as [<- _].
    destruct (checked I32_MIN I32_MAX _) as [s1|] eqn:E1; simpl in E; [|done].
    by apply checked_Some in E1 as [<- _].
Qed.

Lemma parse_denotes lexeme g d : decimal_parse lexeme g = Ok d ->
  within_grammar d g /\
  exists negative whole fraction exponent,
    spells lexeme negative whole fraction exponent /\
    len (whole ++ fraction) <= g.(max_digits) /\
    (negative = true -> g.(allow_negative) = true) /\
    denotes d (signed negative (digits_val 0 (whole ++ fraction))) (len fraction - exponent).
Proof.
  intros E. apply decimal_parse_Ok in E as (neg & w & f & x & Hs & Hl & Hn & Hc & E).
  destruct (Z.eqb_spec (digits_val 0 (w ++ f)) 0) as [H0|H0].
  - apply normalize_within in E as [Hw Hv]; [|bounds; lia|bounds; lia].
    split; [done|]. exists neg, w, f, x. split_and!; auto. rewrite H0. unfold denotes.
    unfold same_value in Hv. rewrite Z.pow_0_r in Hv. unfold signed.
    destruct neg; replace d.(coefficient) with 0 by lia; lia.
  - apply parse_scaled_Ok in E as [Hw Hv]; [|done]. split; [done|]. exists neg, w, f, x. auto.
Qed.

(** ** The canonical spelling *)

Lemma parse_signed_digits max b l : 0 <= max -> all_digits (b :: l) = true ->
  parse_signed I128_MIN max (b :: l) = checked I128_MIN max (digits_val 0 (b :: l)).
Proof.
  intros Hm Hd. pose proof Hd as Hb. apply andb_true_iff in Hb as [Hb _].
  apply in_range_spec in Hb. unfold parse_signed.
  assert (E : bool_decide (b :: l = []) || negb (all_digits (b :: l)) = false).
  { by rewrite Hd, bool_decide_false. }
  repeat case_match; simplify_eq; try lia; try congruence; by rewrite Z.mul_1_l.
Qed.

(** A plain spelling (no exponent) inside the limits parses to its digits, normalized. *)
Section plain.
Variables (negative : bool) (whole fraction : bytes) (g : DecimalGrammar).
Let point := match fraction with [] => [] | _ => 46 :: fraction end.
Let lexeme := sign_text negative ++ whole ++ point.
Let D := digits_val 0 (whole ++ fraction).
Hypotheses (Hwhole : whole <> []) (Hw : all_digits whole = true)
  (Hf : all_digits fraction = true)
  (Hlead : len whole = 1 \/ starts_with 48 whole = false)
  (Hneg : negative = true -> g.(allow_negative) = true)
  (Hlen : len lexeme <= g.(max_lexeme_bytes))
  (Hdigits : len (whole ++ fraction) <= g.(max_digits))
  (HD : D <= I128_MAX) (Hscale : len fraction <= U16_MAX).

Lemma plain_split : split_point (whole ++ point) = (whole, fraction).
Proof.
  unfold split_point. rewrite find_byte_app by (by apply digits_not; [apply digit_not_point|]).
  subst point. destruct fraction as [|b f]; simpl.
  - by rewrite app_nil_r.
  - rewrite Nat.add_0_r, take_app_length. f_equal.
    rewrite drop_app_ge by lia. by replace (S _ - _)%nat with 1%nat by lia.
Qed.

Lemma plain_valid : mantissa_invalid (whole ++ point) whole fraction = false.
Proof.
  unfold mantissa_invalid. rewrite Hw, Hf, bool_decide_false, existsb_app by done.
  assert (existsb (Z.eqb 46) whole = false) as ->.
  { apply not_true_iff_false. intros (b & Hb & E)%existsb_exists.
    unfold all_digits in Hw. rewrite forallb_forall in Hw.
    rewrite digit_not_point in E by auto. done. }
  assert ((1 <? len whole) && starts_with 48 whole = false) as ->.
  { destruct Hlead as [E|E]; rewrite E; [done|apply andb_false_r]. }
  subst point. by destruct fraction.
Qed.

Lemma plain_no_e : find_byte is_e (whole ++ point) = None.
Proof.
  rewrite find_byte_app by (by apply digits_not; [apply digit_not_e|]).
  rewrite find_byte_None; [done|]. subst point.
  clear - Hf. destruct fraction as [|b f]; [done|]. change (forallb (fun b => negb (is_e b)) (b :: f) = true).
  apply digits_not; [apply digit_not_e|done].
Qed.

Lemma decimal_parse_plain :
  decimal_parse lexeme g =
  if D =? 0 then normalize 0 0 g else normalize (signed negative D) (len fraction) g.
Proof.
  assert (HD0 : 0 <= D).
  { apply digits_val_bound. by rewrite all_digits_app, Hw, Hf. }
  unfold decimal_parse. rewrite bool_decide_false.
  2: { subst lexeme. destruct whole, negative; done. }
  assert ((g.(max_lexeme_bytes) <? len lexeme) = false) as -> by lia.
  assert (parse_sign lexeme = Ok (negative, whole ++ point)) as ->.
  { subst lexeme. destruct negative; [done|]. destruct whole as [|b w]; [done|].
    apply andb_true_iff in Hw as [Hb _]. apply in_range_spec in Hb. simpl.
    repeat case_match; simplify_eq; try lia; done. }
  assert (negative && negb g.(allow_negative) = false) as ->.
  { destruct negative; [by rewrite Hneg|done]. }
  unfold parse_exponent. rewrite plain_no_e, plain_split, plain_valid.
  assert ((g.(max_digits) <? len (whole ++ fraction)) = false) as -> by lia.
  assert (parse_signed I128_MIN I128_MAX (whole ++ fraction) = Some D) as ->.
  { destruct whole as [|b w] eqn:E; [done|]. simpl app.
    assert (all_digits (b :: w ++ fraction) = true) as Hd
      by (rewrite <- E in *; change (b :: w ++ fraction) with ((b :: w) ++ fraction);
          by rewrite all_digits_app, <- E, Hw, Hf).
    rewrite parse_signed_digits by (bounds; done || lia).
    apply checked_in. subst D. simpl app in *. bounds. lia. }
  simpl. destruct (D =? 0); [done|]. pose proof (len_nonneg fraction).
  rewrite checked_in by (bounds; lia). simpl.
  rewrite Z.sub_0_r, checked_in by (bounds; lia). simpl.
  assert ((len fraction <? 0) = false) as -> by lia. rewrite Z.max_l by lia.
  unfold checked_neg_i128. rewrite !checked_in by (bounds; lia).
  by destruct negative.
Qed.
End plain.

Lemma to_decimal_lead n : 0 <= n -> len (to_decimal n) = 1 \/ starts_with 48 (to_decimal n) = false.
Proof.
  intros Hn. destruct (to_decimal_cons n) as (d & l & E).
  pose proof (to_decimal_val n Hn) as Hv. pose proof (to_decimal_digits n Hn) as Hd.
  rewrite E in *. destruct (Z.eqb_spec 48 d) as [<-|]; [|right; by apply Z.eqb_neq].
  left. destruct l as [|d' l]; [done|]. exfalso.
  assert (Hd' : all_digits (d' :: l) = true) by (by apply andb_true_iff in Hd as [_ Hd]).
  pose proof (digits_val_bound _ Hd') as Hb.
  change (digits_val 0 (d' :: l) = n) in Hv. rewrite Hv in Hb.
  pose proof (len_nonneg l).
  assert (1 <= len (d' :: l)) by (rewrite len_cons; lia).
  assert (Hl : len (to_decimal n) <= len (d' :: l)) by (apply to_decimal_len; lia).
  rewrite E, len_cons in Hl. lia.
Qed.

Lemma digits_val_zeros n l : digits_val 0 (repeat 48 n ++ l) = digits_val 0 l.
Proof. induction n; simpl; done. Qed.
Lemma all_digits_zeros n : all_digits (repeat 48 n) = true.
Proof. induction n; simpl; done. Qed.
Lemma len_repeat {A} (a : A) n : len (repeat a n) = Z.of_nat n.
Proof. unfold len. by rewrite repeat_length. Qed.
Lemma len_take {A} n (l : list A) : 0 <= n <= len l -> len (take (Z.to_nat n) l) = n.
Proof. unfold len. intros. rewrite length_take. lia. Qed.
Lemma len_drop {A} n (l : list A) : 0 <= n <= len l -> len (drop (Z.to_nat n) l) = len l - n.
Proof. unfold len. intros. rewrite length_drop. lia. Qed.

(** The canonical spelling is a plain one. *)
Lemma canonical_shape d : decimal_wf d -> exists whole fraction,
  canonical d = sign_text (d.(coefficient) <? 0) ++ whole
                ++ match fraction with [] => [] | _ => 46 :: fraction end /\
  whole <> [] /\ all_digits whole = true /\ all_digits fraction = true /\
  (len whole = 1 \/ starts_with 48 whole = false) /\
  digits_val 0 (whole ++ fraction) = Z.abs d.(coefficient) /\
  len fraction = d.(scale) /\
  len (whole ++ fraction) = Z.max (len (to_decimal (Z.abs d.(coefficient)))) (d.(scale) + 1).
Proof.
  intros [_ Hs _]. destruct d as [c s]; simpl in *. unfold canonical, sign_text; simpl.
  set (ds := to_decimal (Z.abs c)). pose proof (to_decimal_digits (Z.abs c) ltac:(lia)) as Hd.
  pose proof (to_decimal_val (Z.abs c) ltac:(lia)) as Hv.
  pose proof (to_decimal_lead (Z.abs c) ltac:(lia)) as Hl.
  fold ds in Hd, Hv, Hl.
  assert (Hne : ds <> []) by (destruct (to_decimal_cons (Z.abs c)) as (? & ? & E); unfold ds; rewrite E; done).
  assert (1 <= len ds) by (destruct ds; [done|rewrite len_cons; pose proof (len_nonneg ds); lia]).
  destruct (Z.eqb_spec s 0) as [->|].
  { exists ds, []. rewrite !app_nil_r. split_and!; auto. rewrite Z.max_l; lia. }
  destruct (Z.leb_spec (len ds) s).
  - set (z := repeat 48 (Z.to_nat (s - len ds))). exists [48], (z ++ ds).
    split_and!; auto.
    + destruct (z ++ ds) eqn:E; [apply app_nil in E as [_ ?]; done|done].
    + unfold z. by rewrite all_digits_app, Hd, andb_true_r, all_digits_zeros.
    + simpl. change (48 :: z ++ ds) with (repeat 48 1 ++ z ++ ds).
      unfold z. by rewrite digits_val_zeros.
    + unfold z. rewrite len_app, len_repeat. lia.
    + unfold z. simpl. rewrite len_cons, len_app, len_repeat. lia.
  - pose proof (take_drop (Z.to_nat (len ds - s)) ds) as Htd.
    rewrite <- Htd, all_digits_app in Hd. apply andb_true_iff in Hd as [Hd1 Hd2].
    pose proof (len_take (len ds - s) ds ltac:(lia)). pose proof (len_drop (len ds - s) ds ltac:(lia)).
    exists (take (Z.to_nat (len ds - s)) ds), (drop (Z.to_nat (len ds - s)) ds).
    set (w := take _ ds) in *. set (f := drop _ ds) in *.
    rewrite Htd. split_and!; auto.
    + destruct f; [rewrite len_nil in *; lia|]. done.
    + intros ->. rewrite len_nil in *. lia.
    + destruct Hl as [Hl|Hl]; [lia|]. right. rewrite <- Htd in Hl.
      destruct w; [rewrite len_nil in *; lia|]. done.
    + lia.
    + lia.
Qed.

Lemma parse_canonical d g : decimal_wf d -> I128_MIN < d.(coefficient) ->
  d.(scale) <= g.(max_scale) -> 0 <= g.(max_scale) ->
  (d.(coefficient) < 0 -> g.(allow_negative) = true) ->
  Z.max (len (to_decimal (Z.abs d.(coefficient)))) (d.(scale) + 1) <= g.(max_digits) ->
  len (canonical d) <= g.(max_lexeme_bytes) ->
  decimal_parse (canonical d) g = Ok d.
Proof.
  intros Hwf Hmin Hs Hs0 Hneg Hd Hl.
  destruct (canonical_shape d Hwf) as (w & f & E & Hne & Hw & Hf & Hlead & Hv & Hlf & Hlw).
  rewrite E in *. pose proof Hwf as [Hc Hsc Hn].
  rewrite decimal_parse_plain; auto; try (rewrite ?Hv, ?Hlf, ?Hlw; bounds; lia).
  - rewrite Hv, Hlf. destruct (Z.eqb_spec (Z.abs d.(coefficient)) 0) as [H0|H0].
    + assert (Hc0 : d.(coefficient) = 0) by lia.
      assert (d.(scale) = 0) by (destruct Hn as [|Hn]; [done|by rewrite Hc0 in Hn]).
      rewrite H0 in *.
      assert (d = {| coefficient := 0; scale := 0 |}) as -> by (clear - Hc0 H; destruct d; simpl in *; congruence).
      apply (normalize_normal {| coefficient := 0; scale := 0 |});
        [done|right; done|done|]. change (len (to_decimal 0) <= g.(max_digits)). lia.
    + assert (signed (d.(coefficient) <? 0) (Z.abs d.(coefficient)) = d.(coefficient)) as ->.
      { unfold signed. destruct (Z.ltb_spec d.(coefficient) 0); lia. }
      apply normalize_normal; auto; [|lia].
      destruct (Z.lt_decidable d.(coefficient) 0); [auto|right; lia].
  - intros H. apply Hneg. lia.
Qed.

(** ** Checked addition *)

(** The sum over the common scale, normalized; every failure is an overflow of [i128] on
    the way or a refusal of the grammar. *)
Lemma checked_add_with_Ok x y g d : decimal_wf x -> decimal_wf y ->
  checked_add_with x y g = Ok d ->
  let s := Z.max x.(scale) y.(scale) in
  within_grammar d g /\
  same_value d (x.(coefficient) * 10 ^ (s - x.(scale)) + y.(coefficient) * 10 ^ (s - y.(scale))) s.
Proof.
  intros [_ Hx _] [_ Hy _] E. unfold checked_add_with in E.
  set (s := Z.max x.(scale) y.(scale)) in *.
  assert (Hal : forall c n v, checked_pow_i128 10 n ≫= checked_mul_i128 c = Some v ->
            v = c * 10 ^ n).
  { intros c n v Hv. destruct (checked_pow_i128 10 n) as [f|] eqn:Ef; [|done]. simpl in Hv.
    apply checked_pow_i128_Some in Ef as ->. by apply checked_mul_i128_Some in Hv as [-> _]. }
  destruct (_ ≫= checked_mul_i128 x.(coefficient)) as [l|] eqn:El; simpl in E; [|done].
  destruct (_ ≫= checked_mul_i128 y.(coefficient)) as [r|] eqn:Er; simpl in E; [|done].
  apply Hal in El as ->. apply Hal in Er as ->.
  destruct (checked_add_i128 _ _) as [sum|] eqn:Es; simpl in E; [|done].
  apply checked_Some in Es as [<- ?]. apply normalize_within in E; [done|lia|subst s; lia].
Qed.

(** ** Properties *)

(** C33: the order of decimals is the order of the rational numbers they stand for, for
    every pair of normalized decimals — including the pairs whose aligned magnitudes
    overflow [u128] — and two of them compare equal exactly when they are the same
    decimal. *)
Theorem decimal_cmp_is_value_order x y : decimal_wf x -> decimal_wf y ->
  decimal_cmp x y = (x.(coefficient) * 10 ^ y.(scale) ?= y.(coefficient) * 10 ^ x.(scale)) /\
  (decimal_cmp x y = Eq <-> x = y).
Proof.
  intros Hx Hy. split; [by apply decimal_cmp_value|]. split.
  - by apply (cmp_eq (cmp := decimal_cmp)).
  - intros <-. by apply (cmp_refl (cmp := decimal_cmp)).
Qed.

Lemma decimal_cmp_is_value_order_witness :
  let x := {| coefficient := I128_MAX; scale := 0 |} in
  let y := {| coefficient := 3; scale := 65535 |} in
  decimal_cmp x y = (x.(coefficient) * 10 ^ y.(scale) ?= y.(coefficient) * 10 ^ x.(scale)) /\
  (decimal_cmp x y = Eq <-> x = y).
Proof.
  intros x y. apply (decimal_cmp_is_value_order x y);
    (split; [subst x y; simpl; bounds; lia | subst x y; simpl; bounds; lia|]).
  - left. reflexivity.
  - right. subst y. simpl. discriminate.
Defined.

(** An accepted lexeme is an optional minus, an integer part without a redundant zero,
    an optional point followed by digits and an optional exponent; the decimal returned is
    normalized, inside the grammar's limits, and is exactly the number the lexeme spells. *)
Theorem parse_sound lexeme g d : decimal_parse lexeme g = Ok d ->
  within_grammar d g /\
  exists negative whole fraction exponent,
    spells lexeme negative whole fraction exponent /\
    len (whole ++ fraction) <= g.(max_digits) /\
    (negative = true -> g.(allow_negative) = true) /\
    denotes d (signed negative (digits_val 0 (whole ++ fraction))) (len fraction - exponent).
Proof. apply parse_denotes. Qed.

Lemma parse_sound_witness :
  let lexeme := lit "-12.50e-3" in
  let d := {| coefficient := -125; scale := 4 |} in
  let g := widest_grammar true true in
  within_grammar d g /\
  exists negative whole fraction exponent,
    spells lexeme negative whole fraction exponent /\
    len (whole ++ fraction) <= g.(max_digits) /\
    (negative = true -> g.(allow_negative) = true) /\
    denotes d (signed negative (digits_val 0 (whole ++ fraction))) (len fraction - exponent).
Proof. intros lexeme d g. apply (parse_sound lexeme g d). vm_compute. reflexivity. Defined.

(** C36: writing a normalized decimal in its canonical spelling and parsing it back gives the
    same decimal, whenever its coefficient is not [i128::MIN] and the grammar admits the
    spelling's length, digits, scale and sign. *)
Theorem canonical_roundtrip d g : decimal_wf d -> I128_MIN < d.(coefficient) ->
  0 <= d.(scale) <= g.(max_scale) ->
  (d.(coefficient) < 0 -> g.(allow_negative) = true) ->
  Z.max (len (to_decimal (Z.abs d.(coefficient)))) (d.(scale) + 1) <= g.(max_digits) ->
  len (canonical d) <= g.(max_lexeme_bytes) ->
  decimal_parse (canonical d) g = Ok d.
Proof. intros. apply parse_canonical; auto; lia. Qed.

Lemma canonical_roundtrip_witness :
  decimal_parse (canonical {| coefficient := -125; scale := 4 |}) (widest_grammar false true)
  = Ok {| coefficient := -125; scale := 4 |}.
Proof.
  apply (canonical_roundtrip {| coefficient := -125; scale := 4 |} (widest_grammar false true)).
  - split; simpl; [bounds; lia|bounds; lia|right; discriminate].
  - simpl; bounds; lia.
  - simpl; bounds; lia.
  - reflexivity.
  - vm_compute. discriminate.
  - vm_compute. discriminate.
Defined.

(** Adding two decimals gives exactly their sum, normalized and inside the grammar;
    nothing is rounded. *)
Theorem checked_add_exact x y g d : decimal_wf x -> decimal_wf y ->
  checked_add_with x y g = Ok d ->
  within_grammar d g /\
  let s := Z.max x.(scale) y.(scale) in
  same_value d (x.(coefficient) * 10 ^ (s - x.(scale)) + y.(coefficient) * 10 ^ (s - y.(scale))) s.
Proof. intros Hx Hy E. by apply checked_add_with_Ok. Qed.

Lemma checked_add_exact_witness :
  let x := {| coefficient := 25; scale := 2 |} in
  let y := {| coefficient := 75; scale := 2 |} in
  let d := {| coefficient := 1; scale := 0 |} in
  within_grammar d (widest_grammar true true) /\
  let s := Z.max x.(scale) y.(scale) in
  same_value d (x.(coefficient) * 10 ^ (s - x.(scale)) + y.(coefficient) * 10 ^ (s - y.(scale))) s.
Proof.
  intros x y d. apply (checked_add_exact x y (widest_grammar true true) d).
  - split; simpl; [bounds; lia|bounds; lia|right; discriminate].
  - split; simpl; [bounds; lia|bounds; lia|right; discriminate].
  - vm_compute. reflexivity.
Defined.

(** The complement [1 - p] of a price is exact and symmetric: it succeeds exactly when
    [p <= 1] and the scale of [p] fits [i128], the result is a price that sums with [p] to
    one, and complementing it again gives back [p]. *)
Theorem complement_exact_and_symmetric p : amount_wf p ->
  let complement q := decimal_complement q unit_price (widest_grammar false false) in
  (is_ok (complement p) = true <-> p.(scale) <= 38 /\ p.(coefficient) <= 10 ^ p.(scale)) /\
  forall q, complement p = Ok q ->
    amount_wf q /\ complement q = Ok p /\
    same_value q (10 ^ p.(scale) - p.(coefficient)) p.(scale).
Proof.
  intros Hp complement. pose proof (complement_cases p Hp) as H. fold (complement p) in H.
  split.
  - destruct (complement p) as [q|e]; simpl.
    + destruct H as ([Hq ?] & ? & ? & E). destruct Hq.
      pose proof (pow10_pos (p.(scale) - q.(scale)) ltac:(lia)). split; [|done].
      intros _. split; [done|]. nia.
    + split; [done|]. lia.
  - intros q E. rewrite E in H. destruct H as (Hq & _ & Hs & Ev). split_and!; [done| |].
    + by apply complement_symmetric.
    + destruct Hq as [[] _]. unfold same_value. rewrite <- Ev.
      rewrite (pow10_split q.(scale) p.(scale)) by lia. ring.
Qed.

Lemma complement_exact_and_symmetric_witness :
  let p := {| coefficient := 37; scale := 2 |} in
  let complement q := decimal_complement q unit_price (widest_grammar false false) in
  (is_ok (complement p) = true <-> p.(scale) <= 38 /\ p.(coefficient) <= 10 ^ p.(scale)) /\
  forall q, complement p = Ok q ->
    amount_wf q /\ complement q = Ok p /\
    same_value q (10 ^ p.(scale) - p.(coefficient)) p.(scale).
Proof.
  intros p. apply (complement_exact_and_symmetric p). split; [|simpl; lia].
  split; simpl; [bounds; lia|bounds; lia|right; discriminate].
Defined.

(** The one normalized decimal whose canonical spelling no grammar reads back: the
    magnitude of [i128::MIN] is parsed before the sign is applied. Only [from_parts] under a
    grammar that allows negatives builds it. *)
Lemma canonical_min_not_parsed :
  from_parts 0 (2 ^ 63) 0 (widest_grammar false true)
    = Ok {| coefficient := I128_MIN; scale := 0 |} /\
  decimal_parse (canonical {| coefficient := I128_MIN; scale := 0 |})
    (widest_grammar false true) = Err CoefficientOverflow.
Proof. split; vm_compute; reflexivity. Qed.
