(* ===== verification/Identity.v ===== *)
(** * Venue-native identity ([src/src/identity.rs])

    Venue, native market key and native outcome: bounded non-empty text, and an outcome whose
    value is an index exactly when its kind says so. Every constructor of the source is here;
    the derived equality is Leibniz equality. *)

From S2P Require Import Prelude.

(** ** Data *)

Definition MAX_VENUE_BYTES : Z := 128.
Definition MAX_KIND_BYTES : Z := 128.
Definition MAX_NATIVE_BYTES : Z := 1024.

Inductive IdentityError : Set :=
| InvalidVenue
| InvalidNativeKey
| InvalidOutcome
| InvalidIdentifierKind.

#[export] Instance IdentityError_eq_dec : EqDecision IdentityError.
Proof. solve_decision. Defined.

Record Venue : Set := { venue_text : bytes }.
Record NativeIdentifierKind : Set := { kind_text : bytes }.
Record NativeMarketKey : Set := { key_kind : NativeIdentifierKind; key_value : bytes }.
Record MarketRef : Set := { market_venue : Venue; market_key : NativeMarketKey }.

Inductive NativeOutcomeKind : Set := Token | SideKind | Index | VenueDefined.
Inductive NativeOutcomeValue : Set := Text (value : bytes) | IndexValue (value : Z).
Record NativeOutcome : Set := {
  outcome_kind : NativeOutcomeKind;
  outcome_value : NativeOutcomeValue
}.

Record OutcomeRef : Set := { outcome_market : MarketRef; outcome_native : NativeOutcome }.

Inductive LiquidityIdentity : Set :=
| LiquidityMarket (market : MarketRef)
| LiquidityOutcome (outcome : OutcomeRef).

#[export] Instance Venue_eq_dec : EqDecision Venue.
Proof. solve_decision. Defined.
#[export] Instance NativeIdentifierKind_eq_dec : EqDecision NativeIdentifierKind.
Proof. solve_decision. Defined.
#[export] Instance NativeMarketKey_eq_dec : EqDecision NativeMarketKey.
Proof. solve_decision. Defined.
#[export] Instance MarketRef_eq_dec : EqDecision MarketRef.
Proof. solve_decision. Defined.
#[export] Instance NativeOutcomeKind_eq_dec : EqDecision NativeOutcomeKind.
Proof. solve_decision. Defined.
#[export] Instance NativeOutcomeValue_eq_dec : EqDecision NativeOutcomeValue.
Proof. solve_decision. Defined.
#[export] Instance NativeOutcome_eq_dec : EqDecision NativeOutcome.
Proof. solve_decision. Defined.

(** ** Constructors *)

Definition checked_text {E} (value : bytes) (limit : Z) (error : E) : result bytes E :=
  if bool_decide (value = []) || (limit <? len value) then Err error else Ok value.

Definition venue_new (value : bytes) : result Venue IdentityError :=
  value <-? checked_text value MAX_VENUE_BYTES InvalidVenue ;;
  Ok {| venue_text := value |}.

Definition kind_new (value : bytes) (max_bytes : Z) :
    result NativeIdentifierKind IdentityError :=
  refuse (max_bytes =? 0) || (MAX_KIND_BYTES <? max_bytes) with InvalidIdentifierKind ;;
  value <-? checked_text value max_bytes InvalidIdentifierKind ;;
  Ok {| kind_text := value |}.

Definition slug : NativeIdentifierKind := {| kind_text := lit "slug" |}.

Definition market_key_new (kind : NativeIdentifierKind) (value : bytes) :
    result NativeMarketKey IdentityError :=
  value <-? checked_text value MAX_NATIVE_BYTES InvalidNativeKey ;;
  Ok {| key_kind := kind; key_value := value |}.

Definition market_ref_new (venue : Venue) (key : NativeMarketKey) : MarketRef :=
  {| market_venue := venue; market_key := key |}.

Definition outcome_text (kind : NativeOutcomeKind) (value : bytes) :
    result NativeOutcome IdentityError :=
  value <-? checked_text value MAX_NATIVE_BYTES InvalidOutcome ;;
  Ok {| outcome_kind := kind; outcome_value := Text value |}.

Definition outcome_token (value : bytes) : result NativeOutcome IdentityError :=
  outcome_text Token value.
Definition outcome_side (value : bytes) : result NativeOutcome IdentityError :=
  outcome_text SideKind value.
Definition outcome_venue_defined (value : bytes) : result NativeOutcome IdentityError :=
  outcome_text VenueDefined value.
Definition outcome_index (value : Z) : NativeOutcome :=
  {| outcome_kind := Index; outcome_value := IndexValue value |}.

Definition text_value (self : NativeOutcome) : option bytes :=
  match self.(outcome_value) with Text value => Some value | IndexValue _ => None end.
Definition index_value (self : NativeOutcome) : option Z :=
  match self.(outcome_value) with IndexValue value => Some value | Text _ => None end.

(** ** Deserialization of an outcome

    [visit_map] folds over the fields of the object: each known field at most once, no other
    field, both present; then the kind decides which value it admits. A field arrives with
    its value already read as the type the visitor asks for. *)
Inductive OutcomeField : Set :=
| FieldKind (kind : NativeOutcomeKind)
| FieldValue (value : NativeOutcomeValue)
| FieldUnknown (name : bytes).

Inductive OutcomeDeError : Set :=
| DuplicateField (name : bytes)
| UnknownField (name : bytes)
| MissingField (name : bytes)
| IndexRequiresIndex
| TextRequiresString
| InvalidText (error : IdentityError).

Fixpoint visit_fields (fields : list OutcomeField) (kind : option NativeOutcomeKind)
    (value : option NativeOutcomeValue) :
    result (option NativeOutcomeKind * option NativeOutcomeValue) OutcomeDeError :=
  match fields with
  | [] => Ok (kind, value)
  | FieldKind k :: rest =>
      refuse bool_decide (is_Some kind) with DuplicateField (lit "kind") ;;
      visit_fields rest (Some k) value
  | FieldValue v :: rest =>
      refuse bool_decide (is_Some value) with DuplicateField (lit "value") ;;
      visit_fields rest kind (Some v)
  | FieldUnknown name :: _ => Err (UnknownField name)
  end.

Definition outcome_deserialize (fields : list OutcomeField) :
    result NativeOutcome OutcomeDeError :=
  read <-? visit_fields fields None None ;;
  let '(kind, value) := read in
  kind <-? ok_or kind (MissingField (lit "kind")) ;;
  value <-? ok_or value (MissingField (lit "value")) ;;
  match kind, value with
  | Index, IndexValue value => Ok (outcome_index value)
  | Index, Text _ => Err IndexRequiresIndex
  | kind, Text value => map_err InvalidText (outcome_text kind value)
  | _, IndexValue _ => Err TextRequiresString
  end.

(** [Serialize]: the two fields in declaration order. *)
Definition outcome_serialize (self : NativeOutcome) : list OutcomeField :=
  [FieldKind self.(outcome_kind); FieldValue self.(outcome_value)].

(** ** Well-formedness *)

Definition text_wf (limit : Z) (value : bytes) : Prop := value <> [] /\ len value <= limit.

Definition venue_wf (v : Venue) : Prop := text_wf MAX_VENUE_BYTES v.(venue_text).
Definition kind_wf (k : NativeIdentifierKind) : Prop := text_wf MAX_KIND_BYTES k.(kind_text).
Definition key_wf (k : NativeMarketKey) : Prop :=
  kind_wf k.(key_kind) /\ text_wf MAX_NATIVE_BYTES k.(key_value).
Definition market_wf (m : MarketRef) : Prop := venue_wf m.(market_venue) /\ key_wf m.(market_key).

(** The value is an index exactly when the kind is [Index]. *)
Definition outcome_wf (o : NativeOutcome) : Prop :=
  match o.(outcome_kind), o.(outcome_value) with
  | Index, IndexValue i => 0 <= i <= U16_MAX
  | Index, Text _ => False
  | _, Text t => text_wf MAX_NATIVE_BYTES t
  | _, IndexValue _ => False
  end.

Lemma checked_text_Ok {E} value limit (error : E) v :
  checked_text value limit error = Ok v <-> v = value /\ text_wf limit value.
Proof.
  unfold checked_text, text_wf. destruct (_ || _) eqn:H.
  - split; [done|]. intros (-> & Hne & Hl). bool_facts. destruct H as [H|H]; bool_facts; [done|lia].
  - bool_facts. split; [intros [= <-]; auto | by intros (-> & _)].
Qed.

Lemma venue_new_Ok value v : venue_new value = Ok v <->
  v = {| venue_text := value |} /\ text_wf MAX_VENUE_BYTES value.
Proof.
  unfold venue_new. destruct (checked_text _ _ _) as [t|e] eqn:E.
  - apply checked_text_Ok in E as [-> ?]. split; [intros [= <-]; auto | by intros [-> _]].
  - split; [done|]. intros [_ Hw]. assert (checked_text value MAX_VENUE_BYTES InvalidVenue = Ok value)
      by (by apply checked_text_Ok). congruence.
Qed.

Lemma kind_new_wf value max k : kind_new value max = Ok k -> kind_wf k.
Proof.
  unfold kind_new. destruct (_ || _) eqn:H; [done|]. bool_facts.
  destruct (checked_text _ _ _) as [t|e] eqn:E; [|done]. intros [= <-].
  apply checked_text_Ok in E as [-> [? ?]]. split; simpl; [done|lia].
Qed.

Lemma market_key_new_wf kind value k : kind_wf kind ->
  market_key_new kind value = Ok k -> key_wf k.
Proof.
  unfold market_key_new. intros Hk. destruct (checked_text _ _ _) as [t|e] eqn:E; [|done].
  intros [= <-]. apply checked_text_Ok in E as [-> ?]. by split.
Qed.

Lemma outcome_text_Ok kind value o : outcome_text kind value = Ok o <->
  o = {| outcome_kind := kind; outcome_value := Text value |} /\ text_wf MAX_NATIVE_BYTES value.
Proof.
  unfold outcome_text. destruct (checked_text _ _ _) as [t|e] eqn:E.
  - apply checked_text_Ok in E as [-> ?]. split; [intros [= <-]; auto | by intros [-> _]].
  - split; [done|]. intros [_ Hw].
    assert (checked_text value MAX_NATIVE_BYTES InvalidOutcome = Ok value)
      by (by apply checked_text_Ok). congruence.
Qed.

(** An outcome read back from its own two fields, in either order, is the same outcome. *)
Lemma outcome_deserialize_serialize o : outcome_wf o ->
  outcome_deserialize (outcome_serialize o) = Ok o /\
  outcome_deserialize (reverse (outcome_serialize o)) = Ok o.
Proof.
  destruct o as [k [t|i]]; unfold outcome_wf; simpl; intros Hwf;
    unfold outcome_deserialize; simpl; destruct k; try done; simpl;
    rewrite (proj2 (outcome_text_Ok _ t _) (conj eq_refl Hwf)); done.
Qed.

(** Whatever the object, what deserialization accepts is well formed, provided an index
    fits [u16] as the visitor's [u16::try_from] ensures. *)
Lemma outcome_deserialize_wf fields o :
  (forall i, FieldValue (IndexValue i) ∈ fields -> 0 <= i <= U16_MAX) ->
  outcome_deserialize fields = Ok o -> outcome_wf o.
Proof.
  intros Hidx. unfold outcome_deserialize.
  assert (Hinv : forall fs k v k' v',
            visit_fields fs k v = Ok (k', v') ->
            (forall i, v = Some (IndexValue i) -> 0 <= i <= U16_MAX) ->
            (forall i, FieldValue (IndexValue i) ∈ fs -> 0 <= i <= U16_MAX) ->
            forall i, v' = Some (IndexValue i) -> 0 <= i <= U16_MAX).
  { clear. induction fs as [|[k0|v0|n] fs IH]; simpl; intros k v k' v'; [|case_match|case_match|]; try done.
    - by intros [= <- <-].
    - intros E Hv Hf. eapply IH; [done|done|]. intros i Hi. apply Hf. by right.
    - intros E Hv Hf. eapply IH; [done| |].
      + intros i [= ->]. apply Hf. by left.
      + intros i Hi. apply Hf. by right. }
  destruct (visit_fields fields None None) as [[k v]|] eqn:E; [|done].
  pose proof (Hinv _ _ _ _ _ E ltac:(done) Hidx) as Hi.
  destruct k as [k|]; simpl; [|done]. destruct v as [v|]; simpl; [|done].
  destruct k, v as [t|i]; simpl; try done; try (intros [= <-]; simpl; by apply Hi);
    intros Ho%map_err_Ok%outcome_text_Ok; destruct Ho as [-> Ho]; exact Ho.
Qed.

(** An outcome's value is an index exactly when its kind is [Index]: every outcome the
    deserializer accepts from a JSON object satisfies this, whatever the order or number of the
    object's fields, and every well-formed outcome comes back from its own serialized fields in
    either order. *)
Theorem outcome_deserialize_sound :
  (forall fields o,
     (forall i, FieldValue (IndexValue i) ∈ fields -> 0 <= i <= U16_MAX) ->
     outcome_deserialize fields = Ok o -> outcome_wf o) /\
  (forall o, outcome_wf o ->
     outcome_deserialize (outcome_serialize o) = Ok o /\
     outcome_deserialize (reverse (outcome_serialize o)) = Ok o).
Proof. split; [apply outcome_deserialize_wf | apply outcome_deserialize_serialize]. Qed.

Lemma outcome_deserialize_sound_witness :
  outcome_wf (outcome_index 3) /\
  outcome_deserialize (reverse (outcome_serialize (outcome_index 3))) = Ok (outcome_index 3).
Proof.
  split.
  - apply (proj1 outcome_deserialize_sound (outcome_serialize (outcome_index 3))).
    + intros i Hi. apply elem_of_cons in Hi as [Hi|Hi]; [discriminate|].
      apply list_elem_of_singleton in Hi. injection Hi as ->. bounds. lia.
    + reflexivity.
  - apply (proj2 outcome_deserialize_sound). unfold outcome_wf; simpl. bounds. lia.
Defined.
