(* ===== verification/Descriptor.v ===== *)
(** * Provenance ([src/src/descriptor.rs])

    The evidence every observation carries: bounded venue text, the connection it arrived
    on, receive and commit positions and times, and the pairing of representation with
    origin that [Provenance::new] enforces. *)

From S2P Require Import Prelude OrdMap Identity.

Definition MAX_SOURCE_EVIDENCE : Z := 64.

Inductive DescriptorError : Set := InvalidSourceEvidence | EvidenceCapacityExceeded.

#[export] Instance DescriptorError_eq_dec : EqDecision DescriptorError.
Proof. solve_decision. Defined.

(** ** Bounded text *)

Definition bounded_text (limit : Z) (value : bytes) : result bytes DescriptorError :=
  checked_text value limit InvalidSourceEvidence.

Record SourceDigest : Set := { digest_text : bytes }.
Definition source_digest_new (value : bytes) : result SourceDigest DescriptorError :=
  res_map Build_SourceDigest (bounded_text 512 value).

Inductive Representation : Set := VenueNative | Normalized.
Inductive Derivation : Set := SnapshotDiff.
Inductive Origin : Set :=
| SourceReported
| NormalizedFromSource
| LocallyDerived (derivation : Derivation).

Record ConnectionIdentity : Set := { conn_value : bytes; conn_generation : Z }.
Definition connection_identity_new (value : bytes) (generation : Z) :
    result ConnectionIdentity DescriptorError :=
  value <-? bounded_text 256 value ;;
  Ok {| conn_value := value; conn_generation := generation |}.

Record SourceTimestamp : Set := { timestamp_lexeme : bytes }.
Definition source_timestamp_new (value : bytes) : result SourceTimestamp DescriptorError :=
  res_map Build_SourceTimestamp (bounded_text 256 value).

Record LocalMonotonicTimestamp : Set := { local_time : Z }.

Record SourceFieldPath : Set := { field_path : bytes }.
Definition source_field_path_new (value : bytes) : result SourceFieldPath DescriptorError :=
  res_map Build_SourceFieldPath (bounded_text 256 value).

Record OriginalDecimalLexeme : Set := { decimal_lexeme : bytes }.
Definition original_decimal_lexeme_new (value : bytes) :
    result OriginalDecimalLexeme DescriptorError :=
  res_map Build_OriginalDecimalLexeme (bounded_text 256 value).

Record SourceEvidenceValue : Set := { evidence_text : bytes }.
Definition source_evidence_value_new (value : bytes) :
    result SourceEvidenceValue DescriptorError :=
  res_map Build_SourceEvidenceValue (bounded_text 1024 value).

Inductive SourceEvidence : Set :=
| Sequence (value : SourceEvidenceValue)
| Version (value : SourceEvidenceValue)
| Checksum (value : SourceEvidenceValue)
| Hash (value : SourceEvidenceValue)
| EventId (value : SourceEvidenceValue)
| NumericLexeme (field : SourceFieldPath) (lexeme : OriginalDecimalLexeme).

Definition evidence_sequence (value : bytes) : result SourceEvidence DescriptorError :=
  res_map Sequence (source_evidence_value_new value).

Definition source_evidence_value (value : SourceEvidence) : bytes :=
  match value with
  | Sequence v | Version v | Checksum v | Hash v | EventId v => v.(evidence_text)
  | NumericLexeme _ lexeme => lexeme.(decimal_lexeme)
  end.

(** ** Bounded evidence *)

Record SourceEvidenceCapacity : Set := { evidence_capacity_value : Z }.
Definition evidence_capacity_new (value : Z) : result SourceEvidenceCapacity DescriptorError :=
  if MAX_SOURCE_EVIDENCE <? value then Err EvidenceCapacityExceeded
  else Ok {| evidence_capacity_value := value |}.

Record BoundedSourceEvidence : Set := {
  evidence_values : list SourceEvidence;
  evidence_capacity : SourceEvidenceCapacity
}.

(** The collecting loop of the bounded constructors: an element beyond the capacity is an
    error, never a truncation. *)
Fixpoint collect_bounded {A E} (capacity : Z) (error : E) (collected values : list A) :
    result (list A) E :=
  match values with
  | [] => Ok collected
  | value :: rest =>
      refuse (len collected =? capacity) with error ;;
      collect_bounded capacity error (collected ++ [value]) rest
  end.

Definition bounded_evidence_new (values : list SourceEvidence)
    (capacity : SourceEvidenceCapacity) : result BoundedSourceEvidence DescriptorError :=
  collected <-? collect_bounded capacity.(evidence_capacity_value) EvidenceCapacityExceeded
                  [] values ;;
  Ok {| evidence_values := collected; evidence_capacity := capacity |}.

(** ** Provenance *)

Inductive ReplicaRole : Set := PublishingPrimaryRole | HotStandbyRole | RecoveryRole.

Record Provenance : Set := {
  market : MarketRef;
  outcome : option NativeOutcome;
  native_family : bytes;
  source_timestamp : option SourceTimestamp;
  source_evidence : BoundedSourceEvidence;
  daemon_generation : Z;
  connection : ConnectionIdentity;
  subscription_generation : Z;
  receive_position : Z;
  commit_position : Z;
  local_receive_time : LocalMonotonicTimestamp;
  local_commit_time : LocalMonotonicTimestamp;
  replica : ReplicaRole;
  representation : Representation;
  origin : Origin;
  local_revision : Z;
  continuity_epoch : Z
}.

(** [ProvenanceInput] has the same public fields; [Provenance::new] moves each across. *)
Record ProvenanceInput : Set := {
  in_market : MarketRef;
  in_outcome : option NativeOutcome;
  in_native_family : bytes;
  in_source_timestamp : option SourceTimestamp;
  in_source_evidence : BoundedSourceEvidence;
  in_daemon_generation : Z;
  in_connection : ConnectionIdentity;
  in_subscription_generation : Z;
  in_receive_position : Z;
  in_commit_position : Z;
  in_local_receive_time : LocalMonotonicTimestamp;
  in_local_commit_time : LocalMonotonicTimestamp;
  in_replica : ReplicaRole;
  in_representation : Representation;
  in_origin : Origin;
  in_local_revision : Z;
  in_continuity_epoch : Z
}.

Definition labelling_allowed (r : Representation) (o : Origin) : bool :=
  match r, o with
  | VenueNative, SourceReported => true
  | Normalized, NormalizedFromSource => true
  | Normalized, LocallyDerived _ => true
  | _, _ => false
  end.

Definition provenance_new (input : ProvenanceInput) : result Provenance DescriptorError :=
  refuse bool_decide (input.(in_native_family) = [])
         || (256 <? len input.(in_native_family))
         || existsb (fun value => bool_decide (source_evidence_value value = [])
                                  || (1024 <? len (source_evidence_value value)))
              input.(in_source_evidence).(evidence_values)
         || (input.(in_commit_position) <? input.(in_receive_position))
         || (input.(in_local_commit_time).(local_time)
             <? input.(in_local_receive_time).(local_time))
         || negb (labelling_allowed input.(in_representation) input.(in_origin))
    with InvalidSourceEvidence ;;
  Ok {| market := input.(in_market);
        outcome := input.(in_outcome);
        native_family := input.(in_native_family);
        source_timestamp := input.(in_source_timestamp);
        source_evidence := input.(in_source_evidence);
        daemon_generation := input.(in_daemon_generation);
        connection := input.(in_connection);
        subscription_generation := input.(in_subscription_generation);
        receive_position := input.(in_receive_position);
        commit_position := input.(in_commit_position);
        local_receive_time := input.(in_local_receive_time);
        local_commit_time := input.(in_local_commit_time);
        replica := input.(in_replica);
        representation := input.(in_representation);
        origin := input.(in_origin);
        local_revision := input.(in_local_revision);
        continuity_epoch := input.(in_continuity_epoch) |}.

#[export] Instance Representation_eq_dec : EqDecision Representation.
Proof. solve_decision. Defined.
#[export] Instance Derivation_eq_dec : EqDecision Derivation.
Proof. solve_decision. Defined.
#[export] Instance ReplicaRole_eq_dec : EqDecision ReplicaRole.
Proof. solve_decision. Defined.
#[export] Instance LocalMonotonicTimestamp_eq_dec : EqDecision LocalMonotonicTimestamp.
Proof. solve_decision. Defined.
#[export] Instance SourceFieldPath_eq_dec : EqDecision SourceFieldPath.
Proof. solve_decision. Defined.
#[export] Instance OriginalDecimalLexeme_eq_dec : EqDecision OriginalDecimalLexeme.
Proof. solve_decision. Defined.
#[export] Instance SourceEvidenceValue_eq_dec : EqDecision SourceEvidenceValue.
Proof. solve_decision. Defined.
#[export] Instance SourceEvidenceCapacity_eq_dec : EqDecision SourceEvidenceCapacity.
Proof. solve_decision. Defined.
#[export] Instance Origin_eq_dec : EqDecision Origin.
Proof. solve_decision. Defined.
#[export] Instance ConnectionIdentity_eq_dec : EqDecision ConnectionIdentity.
Proof. solve_decision. Defined.
#[export] Instance SourceTimestamp_eq_dec : EqDecision SourceTimestamp.
Proof. solve_decision. Defined.
#[export] Instance SourceEvidence_eq_dec : EqDecision SourceEvidence.
Proof. solve_decision. Defined.
#[export] Instance BoundedSourceEvidence_eq_dec : EqDecision BoundedSourceEvidence.
Proof. solve_decision. Defined.
#[export] Instance Provenance_eq_dec : EqDecision Provenance.
Proof. solve_decision. Defined.

(** The derived [Ord] of [ConnectionIdentity]: value, then generation. *)
Definition connection_cmp (x y : ConnectionIdentity) : comparison :=
  then_cmp (cmp_list Z.compare x.(conn_value) y.(conn_value))
           (x.(conn_generation) ?= y.(conn_generation)).

#[export] Instance key_order_connection : KeyOrder connection_cmp (fun _ => True).
Proof.
  pose proof (key_order_pair (cmp_list Z.compare) Z.compare
                (Forall (fun _ => True)) (fun _ => True)) as O.
  set (pair := fun c : ConnectionIdentity => (c.(conn_value), c.(conn_generation))).
  assert (Hwf : forall c, Forall (fun _ : Z => True) (pair c).1 /\ True)
    by (intros c; split; [by apply Forall_true|done]).
  assert (Heq : forall x y, connection_cmp x y
                            = cmp_pair (cmp_list Z.compare) Z.compare (pair x) (pair y)) by done.
  split; intros; rewrite ?Heq in *.
  - by apply (cmp_refl (KeyOrder := O)).
  - apply (cmp_eq (KeyOrder := O)) in H1; [|done|done]. destruct x, y. by simplify_eq/=.
  - by apply (cmp_flip (KeyOrder := O)).
  - by eapply (cmp_trans (KeyOrder := O)).
Qed.

(** ** Lemmas *)

Lemma collect_bounded_Ok {A E} capacity (error : E) (values collected l : list A) :
  len collected <= capacity ->
  collect_bounded capacity error collected values = Ok l <->
  l = collected ++ values /\ len l <= capacity.
Proof.
  revert collected. induction values as [|v values IH]; intros collected Hc; simpl.
  - rewrite app_nil_r. split; [intros [= <-]; auto | by intros [-> _]].
  - destruct (Z.eqb_spec (len collected) capacity) as [E1|E1].
    + split; [done|]. intros [-> Hl]. rewrite len_app, len_cons in Hl.
      pose proof (len_nonneg values). lia.
    + rewrite IH by (rewrite len_app, len_cons, len_nil; lia). by rewrite <- app_assoc.
Qed.

(** What [Provenance::new] guarantees of every provenance. *)
Record provenance_wf (p : Provenance) : Prop := {
  wf_family : text_wf 256 p.(native_family);
  wf_evidence : Forall (fun v => text_wf 1024 (source_evidence_value v))
                  p.(source_evidence).(evidence_values);
  wf_evidence_count : len p.(source_evidence).(evidence_values) <= MAX_SOURCE_EVIDENCE;
  wf_positions : p.(receive_position) <= p.(commit_position);
  wf_times : p.(local_receive_time).(local_time) <= p.(local_commit_time).(local_time);
  wf_labelling : labelling_allowed p.(representation) p.(origin) = true
}.

(** The guard of [provenance_new], as a proposition. *)
Definition input_valid (i : ProvenanceInput) : Prop :=
  text_wf 256 i.(in_native_family) /\
  Forall (fun v => text_wf 1024 (source_evidence_value v))
    i.(in_source_evidence).(evidence_values) /\
  i.(in_receive_position) <= i.(in_commit_position) /\
  i.(in_local_receive_time).(local_time) <= i.(in_local_commit_time).(local_time) /\
  labelling_allowed i.(in_representation) i.(in_origin) = true.

Lemma text_guard limit (v : bytes) :
  bool_decide (v = []) || (limit <? len v) = false <-> text_wf limit v.
Proof.
  unfold text_wf. rewrite orb_false_iff, Z.ltb_ge, bool_decide_eq_false. done.
Qed.

Lemma provenance_new_valid i : is_ok (provenance_new i) = true <-> input_valid i.
Proof.
  unfold provenance_new, input_valid. destruct (_ || negb _) eqn:G; simpl.
  - split; [done|]. intros (Hf & He & Hp & Ht & Hl).
    apply text_guard in Hf. rewrite Hf in G. simpl in G. bool_facts.
    repeat (destruct G as [G|G]; bool_facts; try lia; try congruence).
    apply existsb_exists in G as (v & Hv & G). rewrite Forall_forall in He.
    specialize (He v (proj2 (list_elem_of_In _ _) Hv)). apply text_guard in He. congruence.
  - split; [intros _|done]. rewrite !orb_false_iff in G.
    destruct G as (((((Hf1 & Hf2) & He) & Hp) & Ht) & Hl). split_and!.
    + apply text_guard. by rewrite Hf1, Hf2.
    + apply Forall_forall. intros v Hv. apply text_guard.
      apply not_true_iff_false. intros Hx. apply not_true_iff_false in He. apply He.
      apply existsb_exists. exists v. split; [by apply list_elem_of_In|done].
    + by apply Z.ltb_ge in Hp.
    + by apply Z.ltb_ge in Ht.
    + by apply negb_false_iff in Hl.
Qed.

Definition provenance_of (i : ProvenanceInput) : Provenance :=
  {| market := i.(in_market); outcome := i.(in_outcome);
     native_family := i.(in_native_family); source_timestamp := i.(in_source_timestamp);
     source_evidence := i.(in_source_evidence); daemon_generation := i.(in_daemon_generation);
     connection := i.(in_connection);
     subscription_generation := i.(in_subscription_generation);
     receive_position := i.(in_receive_position); commit_position := i.(in_commit_position);
     local_receive_time := i.(in_local_receive_time);
     local_commit_time := i.(in_local_commit_time); replica := i.(in_replica);
     representation := i.(in_representation); origin := i.(in_origin);
     local_revision := i.(in_local_revision); continuity_epoch := i.(in_continuity_epoch) |}.

Lemma provenance_new_valid_Ok i : input_valid i -> provenance_new i = Ok (provenance_of i).
Proof.
  intros H. apply provenance_new_valid in H. unfold provenance_new in *.
  by destruct (_ || negb _).
Qed.

Lemma provenance_new_wf i p : provenance_new i = Ok p ->
  len i.(in_source_evidence).(evidence_values) <= MAX_SOURCE_EVIDENCE ->
  provenance_wf p /\ p = provenance_of i.
Proof.
  intros E Hn. assert (Hv : input_valid i) by (apply provenance_new_valid; by rewrite E).
  rewrite (provenance_new_valid_Ok i Hv) in E. injection E as <-.
  destruct Hv as (? & ? & ? & ? & ?). split; [split|]; done.
Qed.

Lemma evidence_capacity_new_Ok n c : evidence_capacity_new n = Ok c <->
  c = {| evidence_capacity_value := n |} /\ n <= MAX_SOURCE_EVIDENCE.
Proof.
  unfold evidence_capacity_new. destruct (Z.ltb_spec MAX_SOURCE_EVIDENCE n).
  - split; [done|lia].
  - split; [intros [= <-]; auto | by intros [-> _]].
Qed.

Lemma bounded_evidence_new_Ok values c e : 0 <= c.(evidence_capacity_value) ->
  bounded_evidence_new values c = Ok e <->
  e = {| evidence_values := values; evidence_capacity := c |} /\
  len values <= c.(evidence_capacity_value).
Proof.
  intros Hc. unfold bounded_evidence_new.
  destruct (collect_bounded _ _ _ _) as [l|err] eqn:E.
  - apply collect_bounded_Ok in E as [-> Hl]; [|rewrite len_nil; lia].
    split; [intros [= <-]; auto | by intros [-> _]].
  - split; [done|]. intros [_ Hl].
    assert (collect_bounded c.(evidence_capacity_value) EvidenceCapacityExceeded [] values
            = Ok values) by (apply collect_bounded_Ok; [rewrite len_nil; lia|done]).
    congruence.
Qed.

(** [Provenance::new] accepts exactly the inputs whose family and evidence text are
    bounded and non-empty, whose commit does not precede its receive in position or local time,
    and whose representation and origin are one of the three admitted pairs; it then moves every
    field across unchanged. *)
Theorem provenance_new_spec i :
  (is_ok (provenance_new i) = true <-> input_valid i) /\
  (input_valid i -> provenance_new i = Ok (provenance_of i)).
Proof. split; [apply provenance_new_valid | apply provenance_new_valid_Ok]. Qed.

Definition sample_input : ProvenanceInput :=
  {| in_market := {| market_venue := {| venue_text := lit "limitless" |};
                     market_key := {| key_kind := slug; key_value := lit "btc" |} |};
     in_outcome := None; in_native_family := lit "orderbookUpdate";
     in_source_timestamp := None;
     in_source_evidence := {| evidence_values := [];
                              evidence_capacity := {| evidence_capacity_value := 0 |} |};
     in_daemon_generation := 1;
     in_connection := {| conn_value := lit "c0"; conn_generation := 1 |};
     in_subscription_generation := 1; in_receive_position := 4; in_commit_position := 5;
     in_local_receive_time := {| local_time := 10 |};
     in_local_commit_time := {| local_time := 11 |}; in_replica := PublishingPrimaryRole;
     in_representation := VenueNative; in_origin := SourceReported;
     in_local_revision := 0; in_continuity_epoch := 0 |}.

Lemma provenance_new_spec_witness :
  provenance_new sample_input = Ok (provenance_of sample_input).
Proof.
  apply (proj2 (provenance_new_spec sample_input)). unfold input_valid, text_wf.
  split_and!; try discriminate; try reflexivity; try (simpl; lia). constructor.
Defined.
