(* ===== verification/DedupKey.v ===== *)
(** * Venue keys and what they are evidence of ([src/src/dedup.rs], keys)

    A frame key, the exact parsing of an integer key, a venue's declaration of what its key
    means, and the classification of one key against the one before it. *)

From S2P Require Import Prelude.

Definition MAX_DEDUP_LEXEME_BYTES : Z := 128.

Record DedupLexeme : Set := { lexeme_text : bytes }.

Inductive DedupKey : Set :=
| Integer (value : Z)
| Lexeme (value : DedupLexeme).

Inductive DedupKeyError : Set :=
| KeyEmpty | KeyTooLong | NotAnExactInteger | KeyOutOfRange | UnsupportedCharacter.

#[export] Instance DedupLexeme_eq_dec : EqDecision DedupLexeme.
Proof. solve_decision. Defined.
#[export] Instance DedupKey_eq_dec : EqDecision DedupKey.
Proof. solve_decision. Defined.

Definition dedup_lexeme_new (value : bytes) : result DedupLexeme DedupKeyError :=
  refuse bool_decide (value = []) with KeyEmpty ;;
  refuse (MAX_DEDUP_LEXEME_BYTES <? len value) with KeyTooLong ;;
  refuse existsb (fun byte => negb (in_range 33 126 byte)) value with UnsupportedCharacter ;;
  Ok {| lexeme_text := value |}.

Definition parse_exact_integer (lexeme : bytes) : result DedupKey DedupKeyError :=
  refuse bool_decide (lexeme = []) with KeyEmpty ;;
  refuse negb (all_digits lexeme) with NotAnExactInteger ;;
  res_map Integer (ok_or (parse_unsigned U64_MAX lexeme) KeyOutOfRange).

Definition dedup_key_lexeme (value : bytes) : result DedupKey DedupKeyError :=
  res_map Lexeme (dedup_lexeme_new value).

Definition as_integer (self : DedupKey) : option Z :=
  match self with Integer value => Some value | Lexeme _ => None end.
Definition as_lexeme (self : DedupKey) : option bytes :=
  match self with Integer _ => None | Lexeme value => Some value.(lexeme_text) end.

(** [Display]: the digits of an integer key, the lexeme of a lexeme key. *)
Definition key_display (self : DedupKey) : bytes :=
  match self with
  | Integer value => to_decimal value
  | Lexeme value => value.(lexeme_text)
  end.

Inductive DedupKeySemantics : Set := DedupOnly | SessionMonotone | OrderingProven.

#[export] Instance DedupKeySemantics_eq_dec : EqDecision DedupKeySemantics.
Proof. solve_decision. Defined.

Definition orders_within_session (self : DedupKeySemantics) : bool :=
  match self with SessionMonotone | OrderingProven => true | DedupOnly => false end.
Definition orders_across_connections (self : DedupKeySemantics) : bool :=
  match self with OrderingProven => true | _ => false end.
Definition admits_pooled_publish (self : DedupKeySemantics) : bool :=
  orders_within_session self.

Record DedupKeyDeclaration : Set := {
  decl_venue : bytes; decl_family : bytes; decl_field : bytes; semantics : DedupKeySemantics
}.

Inductive KeyRelation : Set := First | Duplicate | Advance | Inversion | Unordered.

#[export] Instance KeyRelation_eq_dec : EqDecision KeyRelation.
Proof. solve_decision. Defined.

Definition classify_key (semantics : DedupKeySemantics) (last : option DedupKey)
    (next : DedupKey) : KeyRelation :=
  match last with
  | None => First
  | Some last =>
      if bool_decide (last = next) then Duplicate
      else
        match as_integer last, as_integer next with
        | Some last, Some next =>
            if orders_within_session semantics
            then if last <? next then Advance else Inversion
            else Unordered
        | _, _ => Unordered
        end
  end.

(** ** Properties *)

(** A key the constructors build. *)
Definition key_wf (k : DedupKey) : Prop :=
  match k with
  | Integer value => 0 <= value <= U64_MAX
  | Lexeme value => value.(lexeme_text) <> [] /\ len value.(lexeme_text) <= MAX_DEDUP_LEXEME_BYTES
                    /\ Forall (fun b => 33 <= b <= 126) value.(lexeme_text)
  end.

Lemma parse_unsigned_digits max l : l <> [] -> all_digits l = true ->
  parse_unsigned max l = checked 0 max (digits_val 0 l).
Proof.
  intros Hne Hd. destruct l as [|b l]; [done|].
  pose proof Hd as Hb. apply andb_true_iff in Hb as [Hb _]. apply in_range_spec in Hb.
  unfold parse_unsigned.
  assert (E : (match b :: l with 43 :: rest => rest | _ => b :: l end) = b :: l).
  { repeat case_match; simplify_eq; try done; lia. }
  rewrite E, Hd, bool_decide_false by done. done.
Qed.

Lemma parse_exact_integer_Ok lexeme k : parse_exact_integer lexeme = Ok k <->
  lexeme <> [] /\ all_digits lexeme = true /\ digits_val 0 lexeme <= U64_MAX /\
  k = Integer (digits_val 0 lexeme).
Proof.
  unfold parse_exact_integer. destruct (bool_decide (lexeme = [])) eqn:E.
  { bool_facts. split; [done|]. by intros (? & _). }
  bool_facts. destruct (all_digits lexeme) eqn:Ed; simpl.
  2: { split; [done|]. by intros (_ & ? & _). }
  rewrite parse_unsigned_digits by done. pose proof (digits_val_bound lexeme Ed).
  destruct (checked 0 U64_MAX _) as [v|] eqn:Ec; simpl.
  - apply checked_Some in Ec as [<- ?]. split; [|by intros (_ & _ & _ & ->)].
    intros [= <-]. split_and!; auto; lia.
  - apply checked_None in Ec. split; [done|]. lia.
Qed.

Lemma dedup_lexeme_new_Ok v l : dedup_lexeme_new v = Ok l <->
  key_wf (Lexeme {| lexeme_text := v |}) /\ l = {| lexeme_text := v |}.
Proof.
  unfold dedup_lexeme_new, key_wf; simpl. destruct (bool_decide (v = [])) eqn:E; bool_facts.
  { split; [done|]. by intros [[? _] _]. }
  destruct (Z.ltb_spec MAX_DEDUP_LEXEME_BYTES (len v)). { split; [done|lia]. }
  destruct (existsb _ v) eqn:F.
  - split; [done|]. intros [(_ & _ & Hf) _]. apply existsb_exists in F as (b & Hb & F).
    rewrite Forall_forall in Hf. specialize (Hf b (proj2 (list_elem_of_In _ _) Hb)).
    apply negb_true_iff, not_true_iff_false in F. destruct F. by apply in_range_spec.
  - split; [|by intros [_ ->]]. intros [= <-]. split_and!; try done.
    apply Forall_forall. intros b Hb. apply in_range_spec. apply negb_false_iff.
    apply not_true_iff_false. intros F'. apply not_true_iff_false in F. apply F.
    apply existsb_exists. exists b. split; [by apply list_elem_of_In|done].
Qed.

(** Reading an integer key is exact: the parser accepts exactly the non-empty runs of
    decimal digits whose value fits [u64], returns that value (so leading zeros do not make a
    second key), and an integer key's printed form reads back to the same key. *)
Theorem integer_key_exact :
  (forall lexeme k, parse_exact_integer lexeme = Ok k <->
     lexeme <> [] /\ all_digits lexeme = true /\ digits_val 0 lexeme <= U64_MAX /\
     k = Integer (digits_val 0 lexeme)) /\
  (forall n, 0 <= n <= U64_MAX -> parse_exact_integer (key_display (Integer n)) = Ok (Integer n)).
Proof.
  split; [apply parse_exact_integer_Ok|]. intros n Hn. apply parse_exact_integer_Ok. simpl.
  rewrite to_decimal_val, to_decimal_digits by lia. split_and!; try done; [|lia].
  destruct (to_decimal_cons n) as (? & ? & E). by rewrite E.
Qed.

Lemma integer_key_exact_witness :
  parse_exact_integer (key_display (Integer U64_MAX)) = Ok (Integer U64_MAX) /\
  parse_exact_integer (lit "007") = Ok (Integer 7).
Proof.
  split.
  - apply (proj2 integer_key_exact). bounds. lia.
  - apply (proj1 integer_key_exact). vm_compute. repeat split; discriminate.
Defined.

(** [classify_key] on every case of the declaration and the two keys. *)
Lemma classify_key_order s last next : orders_within_session s = true ->
  classify_key s (Some (Integer last)) (Integer next) =
  match last ?= next with Eq => Duplicate | Lt => Advance | Gt => Inversion end.
Proof.
  intros Hs. unfold classify_key; simpl. rewrite Hs.
  destruct (Z.compare_spec last next) as [->|H|H].
  - by rewrite bool_decide_true.
  - rewrite bool_decide_false by (intros [= ->]; lia). by apply Z.ltb_lt in H as ->.
  - rewrite bool_decide_false by (intros [= ->]; lia).
    by assert ((last <? next) = false) as -> by lia.
Qed.

(** Classification reports order only where the declaration grants it: equal keys are
    duplicates under every declaration; two integer keys are an advance or an inversion exactly
    as they compare when the declaration orders a session; any other pair of distinct keys is
    unordered; and a first key is evidence of nothing. *)
Theorem classify_key_spec s next :
  classify_key s None next = First /\
  (forall last, classify_key s (Some last) next = Duplicate <-> last = next) /\
  (forall last, classify_key s (Some last) next = Advance <->
     orders_within_session s = true /\
     exists m n, last = Integer m /\ next = Integer n /\ m < n) /\
  (forall last, classify_key s (Some last) next = Inversion <->
     orders_within_session s = true /\
     exists m n, last = Integer m /\ next = Integer n /\ n < m) /\
  (forall last, classify_key s (Some last) next <> First).
Proof.
  split; [done|].
  assert (H : forall last, classify_key s (Some last) next =
            match last, next with
            | Integer m, Integer n =>
                match m ?= n with
                | Eq => Duplicate
                | Lt => if orders_within_session s then Advance else Unordered
                | Gt => if orders_within_session s then Inversion else Unordered
                end
            | _, _ => if bool_decide (last = next) then Duplicate else Unordered
            end).
  { intros [m|m]; destruct next as [n|n]; try (unfold classify_key; simpl; done).
    destruct (orders_within_session s) eqn:E; [by rewrite classify_key_order|].
    unfold classify_key; simpl. rewrite E. destruct (Z.compare_spec m n) as [->|?|?].
    - by rewrite bool_decide_true.
    - rewrite bool_decide_false by (intros [= ->]; lia). done.
    - rewrite bool_decide_false by (intros [= ->]; lia). done. }
  split_and!; intros last; rewrite H; clear H; destruct last as [m|m], next as [n|n];
    try destruct (Z.compare_spec m n); subst; try case_bool_decide;
    destruct (orders_within_session s); try split; try intros Hx; try done;
    try destruct Hx as (? & m' & n' & ? & ? & ?); simplify_eq; try done; try lia; eauto 8.
Qed.
