(* ===== verification/Continuity.v ===== *)
(** * Authority, continuity and source topology ([src/src/state.rs])

    The mutation stream's continuity (an epoch and the next position, or the reason it was
    lost), the cursor of one delivery, the state of one consumer, and the topology of the
    sources behind a market: one publishing primary with standbys, a socket pool, or a
    recovery. *)

From S2P Require Import Prelude OrdMap Descriptor DedupKey.

(** ** Authority and continuity *)

Inductive AuthorityReason : Set :=
| AGap | ADisconnect | ASubscriptionLost | ALocalLoss | AOrderingUnknown | AOverload
| AReplicaDivergence | ARecoveryBaseUnavailable.

Inductive AuthorityState : Set :=
| Unsubscribed | Subscribing | Synchronizing | Live | Recovering
| Stale (reason : AuthorityReason).

Inductive ContinuityReason : Set :=
| Overrun | Gap | LocalLoss | Reconnect | RecoveryBase | SyncDivergence.

Inductive MutationContinuity : Set :=
| Intact (epoch next_position : Z)
| Lost (epoch : Z) (reason : ContinuityReason).

Inductive ReplicaError : Set :=
| StandbyCapacityZero | StandbyCapacityExceeded | PrimaryUsedAsStandby | DuplicateStandby
| PoolCapacityZero | PoolCapacityExceeded | DuplicatePoolSocket | EpochOverflow
| InvalidTransition.

#[export] Instance AuthorityReason_eq_dec : EqDecision AuthorityReason.
Proof. solve_decision. Defined.
#[export] Instance AuthorityState_eq_dec : EqDecision AuthorityState.
Proof. solve_decision. Defined.
#[export] Instance ContinuityReason_eq_dec : EqDecision ContinuityReason.
Proof. solve_decision. Defined.
#[export] Instance MutationContinuity_eq_dec : EqDecision MutationContinuity.
Proof. solve_decision. Defined.
#[export] Instance ReplicaError_eq_dec : EqDecision ReplicaError.
Proof. solve_decision. Defined.

Definition epoch_of (self : MutationContinuity) : Z :=
  match self with Intact epoch _ | Lost epoch _ => epoch end.

Definition is_intact (self : MutationContinuity) : bool :=
  match self with Intact _ _ => true | Lost _ _ => false end.

Definition lost (self : MutationContinuity) (reason : ContinuityReason) : MutationContinuity :=
  match self with
  | Intact epoch _ => Lost epoch reason
  | Lost _ _ => self
  end.

Definition recovered (self : MutationContinuity) (first_position : Z) :
    result MutationContinuity ReplicaError :=
  refuse is_intact self with InvalidTransition ;;
  epoch <-? ok_or (checked_add_u64 (epoch_of self) 1) EpochOverflow ;;
  Ok (Intact epoch first_position).

Definition advanced (self : MutationContinuity) (emitted : Z) :
    result MutationContinuity ReplicaError :=
  match self with
  | Intact epoch next_position =>
      next_position <-? ok_or (checked_add_u64 next_position emitted) EpochOverflow ;;
      Ok (Intact epoch next_position)
  | Lost _ _ => Err InvalidTransition
  end.

(** ** Cursors and consumers *)

Record MutationCursor : Set := { cursor_epoch : Z; cursor_position : Z }.

#[export] Instance MutationCursor_eq_dec : EqDecision MutationCursor.
Proof. solve_decision. Defined.

Inductive ConsumerState : Set :=
| Detached
| Attached (cursor : MutationCursor) (continuous : bool)
| Overran (cursor : MutationCursor)
| Rebased (cursor : MutationCursor)
| Incompatible
| Coalesced (cursor : MutationCursor).

#[export] Instance ConsumerState_eq_dec : EqDecision ConsumerState.
Proof. solve_decision. Defined.

(** ** Source topology

    [PublishingPrimary], [HotStandby], [RecoveryReplica] and [PoolSocket] are newtypes of
    [ConnectionIdentity] that derive its order. *)
Record PublishingPrimary : Set := { primary_connection : ConnectionIdentity }.
Record HotStandby : Set := { standby_connection : ConnectionIdentity }.
Record RecoveryReplica : Set := { recovery_connection : ConnectionIdentity }.
Record PoolSocket : Set := { socket_connection : ConnectionIdentity }.

Inductive DivergenceReason : Set := ContentMismatch | ContinuityMismatch.
Inductive ReplicaFailureReason : Set := FDisconnect | FProtocol | FOverload.
Inductive StandbyState : Set :=
| Agreeing
| Divergent (reason : DivergenceReason)
| StandbyFailed (reason : ReplicaFailureReason).
Inductive PoolSocketState : Set :=
| Covering
| Establishing
| SocketFailed (reason : ReplicaFailureReason).
Inductive PoolDegradeReason : Set :=
| ConnectionInversion | ReconnectRewind | EqualKeyContentMismatch | KeyUnavailable.

#[export] Instance PoolDegradeReason_eq_dec : EqDecision PoolDegradeReason.
Proof. solve_decision. Defined.

#[export] Instance HotStandby_eq_dec : EqDecision HotStandby.
Proof. solve_decision. Defined.
#[export] Instance PoolSocket_eq_dec : EqDecision PoolSocket.
Proof. solve_decision. Defined.

Definition standby_cmp (x y : HotStandby) : comparison :=
  connection_cmp x.(standby_connection) y.(standby_connection).
Definition socket_cmp (x y : PoolSocket) : comparison :=
  connection_cmp x.(socket_connection) y.(socket_connection).

#[export] Instance key_order_standby : KeyOrder standby_cmp (fun _ => True).
Proof.
  split; unfold standby_cmp; intros.
  - by apply (cmp_refl (cmp := connection_cmp)).
  - destruct x, y. f_equal. by apply (cmp_eq (cmp := connection_cmp)).
  - by apply (cmp_flip (cmp := connection_cmp)).
  - by eapply (cmp_trans (cmp := connection_cmp)).
Qed.
#[export] Instance key_order_socket : KeyOrder socket_cmp (fun _ => True).
Proof.
  split; unfold socket_cmp; intros.
  - by apply (cmp_refl (cmp := connection_cmp)).
  - destruct x, y. f_equal. by apply (cmp_eq (cmp := connection_cmp)).
  - by apply (cmp_flip (cmp := connection_cmp)).
  - by eapply (cmp_trans (cmp := connection_cmp)).
Qed.

Inductive SourceState : Set :=
| NoSource
| Publishing (primary : PublishingPrimary) (standbys : list (HotStandby * StandbyState))
    (standby_capacity : Z)
| Pooled (sockets : list (PoolSocket * PoolSocketState)) (socket_capacity : Z)
    (last_published_key : option DedupKey) (degraded : option PoolDegradeReason)
| RecoveringSource (recovery : RecoveryReplica).

Definition no_source : SourceState := NoSource.
Definition recovering (recovery : RecoveryReplica) : SourceState := RecoveringSource recovery.
Definition source_primary (primary : PublishingPrimary) : SourceState := Publishing primary [] 0.

Fixpoint insert_standbys (primary : PublishingPrimary) (capacity : Z)
    (values : list (HotStandby * StandbyState)) (standbys : list HotStandby) :
    result (list (HotStandby * StandbyState)) ReplicaError :=
  match standbys with
  | [] => Ok values
  | standby :: rest =>
      refuse bool_decide (primary.(primary_connection) = standby.(standby_connection))
        with PrimaryUsedAsStandby ;;
      refuse map_contains standby_cmp standby values with DuplicateStandby ;;
      refuse (len values =? capacity) with StandbyCapacityExceeded ;;
      insert_standbys primary capacity (map_insert standby_cmp standby Agreeing values) rest
  end.

Definition with_hot_standbys (primary : PublishingPrimary) (standbys : list HotStandby)
    (capacity : Z) : result SourceState ReplicaError :=
  refuse (capacity =? 0) with StandbyCapacityZero ;;
  values <-? insert_standbys primary capacity [] standbys ;;
  Ok (Publishing primary values capacity).

Fixpoint insert_sockets (capacity : Z) (values : list (PoolSocket * PoolSocketState))
    (sockets : list (PoolSocket * PoolSocketState)) :
    result (list (PoolSocket * PoolSocketState)) ReplicaError :=
  match sockets with
  | [] => Ok values
  | (socket, state) :: rest =>
      refuse map_contains socket_cmp socket values with DuplicatePoolSocket ;;
      refuse (len values =? capacity) with PoolCapacityExceeded ;;
      insert_sockets capacity (map_insert socket_cmp socket state values) rest
  end.

Definition pooled (sockets : list (PoolSocket * PoolSocketState)) (capacity : Z)
    (last_published_key : option DedupKey) (degraded : option PoolDegradeReason) :
    result SourceState ReplicaError :=
  refuse (capacity =? 0) with PoolCapacityZero ;;
  values <-? insert_sockets capacity [] sockets ;;
  Ok (Pooled values capacity last_published_key degraded).

Definition pool_sockets (self : SourceState) : list (PoolSocket * PoolSocketState) :=
  match self with Pooled sockets _ _ _ => sockets | _ => [] end.

Definition is_covering (s : PoolSocketState) : bool :=
  match s with Covering => true | _ => false end.

Definition pool_covering (self : SourceState) : Z :=
  len (List.filter (fun e => is_covering e.2) (pool_sockets self)).

Definition pool_capacity (self : SourceState) : Z :=
  match self with Pooled _ capacity _ _ => capacity | _ => 0 end.
Definition source_last_published_key (self : SourceState) : option DedupKey :=
  match self with Pooled _ _ key _ => key | _ => None end.
Definition pool_degraded (self : SourceState) : option PoolDegradeReason :=
  match self with Pooled _ _ _ degraded => degraded | _ => None end.

(** [get_mut(standby)] then assignment; whether the standby was there. *)
Definition report_standby (self : SourceState) (standby : HotStandby) (state : StandbyState) :
    bool * SourceState :=
  match self with
  | Publishing primary standbys capacity =>
      match map_get standby_cmp standby standbys with
      | Some _ =>
          (true, Publishing primary (map_insert standby_cmp standby state standbys) capacity)
      | None => (false, self)
      end
  | _ => (false, self)
  end.

Definition standby_capacity (self : SourceState) : Z :=
  match self with Publishing _ _ capacity => capacity | _ => 0 end.
Definition publishing_primary (self : SourceState) : option PublishingPrimary :=
  match self with Publishing primary _ _ => Some primary | _ => None end.
Definition source_standbys (self : SourceState) : list (HotStandby * StandbyState) :=
  match self with Publishing _ standbys _ => standbys | _ => [] end.
Definition recovery_of (self : SourceState) : option RecoveryReplica :=
  match self with RecoveringSource recovery => Some recovery | _ => None end.

(** ** Continuity *)

Lemma advanced_Ok c n c' : advanced c n = Ok c' <->
  exists epoch position, c = Intact epoch position /\ c' = Intact epoch (position + n) /\
    0 <= position + n <= U64_MAX.
Proof.
  destruct c as [epoch position|epoch reason]; simpl; [|by split; [|intros (? & ? & ? & _)]].
  destruct (checked_add_u64 position n) as [p|] eqn:E; simpl.
  - apply checked_add_u64_Some in E as [<- ?]. split; [intros [= <-]; eauto|].
    by intros (? & ? & [= <- <-] & -> & _).
  - apply checked_None in E. split; [done|]. intros (? & ? & [= <- <-] & _ & ?). lia.
Qed.

Lemma recovered_Ok c first c' : 0 <= epoch_of c -> recovered c first = Ok c' <->
  is_intact c = false /\ c' = Intact (epoch_of c + 1) first /\ epoch_of c < U64_MAX.
Proof.
  intros He. unfold recovered. destruct (is_intact c) eqn:Ei; [by split; [|intros [? _]]|].
  destruct (checked_add_u64 (epoch_of c) 1) as [e|] eqn:E; simpl.
  - apply checked_add_u64_Some in E as [<- ?]. split; [intros [= <-]|intros (_ & -> & _)];
      [split_and!; auto; lia|done].
  - apply checked_None in E. split; [done|]. intros (_ & _ & ?). bounds. lia.
Qed.

(** ** Topology *)

(** What the constructors guarantee: an ordered map within its capacity, and a primary that
    is not one of its own standbys. *)
Definition source_wf (s : SourceState) : Prop :=
  match s with
  | NoSource | RecoveringSource _ => True
  | Publishing primary standbys capacity =>
      map_ok standby_cmp (fun _ => True) standbys /\ len standbys <= capacity /\
      Forall (fun e => e.1.(standby_connection) <> primary.(primary_connection)) standbys
  | Pooled sockets capacity _ _ =>
      map_ok socket_cmp (fun _ => True) sockets /\ len sockets <= capacity /\ 0 < capacity
  end.

Lemma map_contains_false {K V} cmp (k : K) (m : list (K * V)) :
  map_contains cmp k m = false <-> map_get cmp k m = None.
Proof. unfold map_contains. by destruct (map_get cmp k m). Qed.

(** The loop of [with_hot_standbys]: every offered standby ends up in the map, agreeing. *)
Lemma insert_standbys_Ok primary capacity standbys values l :
  map_ok standby_cmp (fun _ => True) values -> len values <= capacity ->
  insert_standbys primary capacity values standbys = Ok l ->
  map_ok standby_cmp (fun _ => True) l /\ len l <= capacity /\
  l ≡ₚ ((fun s => (s, Agreeing)) <$> standbys) ++ values /\
  Forall (fun s => s.(standby_connection) <> primary.(primary_connection)) standbys.
Proof.
  revert values. induction standbys as [|s rest IH]; intros values Hok Hlen; simpl.
  - intros [= <-]. by split_and!.
  - destruct (bool_decide _) eqn:Hp; [done|]. destruct (map_contains _ _ _) eqn:Hc; [done|].
    destruct (Z.eqb_spec (len values) capacity) as [|Hne]; [done|]. intros E.
    apply map_contains_false in Hc. bool_facts.
    pose proof (map_insert_fresh standby_cmp s Agreeing values Hc) as Hperm.
    apply IH in E as (? & ? & Hl & ?).
    + split_and!; [done|done| |by constructor]. rewrite Hl, Hperm. by rewrite <- Permutation_middle.
    + by apply map_insert_ok; [apply _|..].
    + unfold len in *. rewrite Hperm. simpl. lia.
Qed.

Lemma insert_sockets_Ok capacity sockets values l :
  map_ok socket_cmp (fun _ => True) values -> len values <= capacity ->
  insert_sockets capacity values sockets = Ok l ->
  map_ok socket_cmp (fun _ => True) l /\ len l <= capacity /\ l ≡ₚ sockets ++ values.
Proof.
  revert values. induction sockets as [|[s st] rest IH]; intros values Hok Hlen; simpl.
  - intros [= <-]. by split_and!.
  - destruct (map_contains _ _ _) eqn:Hc; [done|].
    destruct (Z.eqb_spec (len values) capacity) as [|Hne]; [done|]. intros E.
    apply map_contains_false in Hc.
    pose proof (map_insert_fresh socket_cmp s st values Hc) as Hperm.
    apply IH in E as (? & ? & Hl).
    + split_and!; [done|done|]. rewrite Hl, Hperm. by rewrite <- Permutation_middle.
    + by apply map_insert_ok; [apply _|..].
    + unfold len in *. rewrite Hperm. simpl. lia.
Qed.

Lemma with_hot_standbys_wf primary standbys capacity s :
  0 <= capacity -> with_hot_standbys primary standbys capacity = Ok s ->
  source_wf s /\ publishing_primary s = Some primary /\ standby_capacity s = capacity /\
  source_standbys s ≡ₚ (fun s => (s, Agreeing)) <$> standbys.
Proof.
  intros Hc. unfold with_hot_standbys. destruct (capacity =? 0); [done|].
  destruct (insert_standbys _ _ _ _) as [l|] eqn:E; [|done]. intros [= <-].
  apply insert_standbys_Ok in E as (? & ? & Hl & Hp); [|apply map_ok_nil|rewrite len_nil; lia].
  rewrite app_nil_r in Hl. simpl. split_and!; auto. rewrite Hl.
  apply Forall_fmap. eapply Forall_impl; [exact Hp|]. by intros x Hx.
Qed.

Lemma pooled_wf sockets capacity key degraded s :
  0 <= capacity -> pooled sockets capacity key degraded = Ok s ->
  source_wf s /\ pool_capacity s = capacity /\ pool_sockets s ≡ₚ sockets /\
  source_last_published_key s = key /\ pool_degraded s = degraded.
Proof.
  intros Hc. unfold pooled. destruct (Z.eqb_spec capacity 0); [done|].
  destruct (insert_sockets _ _ _) as [l|] eqn:E; [|done]. intros [= <-].
  apply insert_sockets_Ok in E as (? & ? & Hl); [|apply map_ok_nil|rewrite len_nil; lia].
  rewrite app_nil_r in Hl. simpl. split_and!; auto. lia.
Qed.

Lemma pool_covering_le s : source_wf s -> 0 <= pool_covering s <= pool_capacity s.
Proof.
  intros Hwf. unfold pool_covering, pool_sockets. split; [apply len_nonneg|].
  destruct s as [|p b c|l c k d|r]; simpl; try (rewrite ?len_nil; lia).
  destruct Hwf as (_ & Hl & _). etrans; [|exact Hl]. unfold len.
  apply inj_le. apply List.filter_length_le.
Qed.

(** A report replaces the state of a standby the topology has and touches nothing else. *)
Lemma report_standby_wf s standby state :
  source_wf s -> source_wf (report_standby s standby state).2.
Proof.
  destruct s as [|p l c|l c k d|r]; simpl; try done. intros (Hok & Hlen & Hp).
  destruct (map_get standby_cmp standby l) as [st0|] eqn:E; simpl; [|done].
  split_and!; [by apply map_insert_ok; [apply _|..]| |].
  - unfold len. rewrite (map_insert_held standby_cmp standby state l st0 E). done.
  - apply (map_insert_keys standby_cmp
             (fun s => s.(standby_connection) <> p.(primary_connection))); [|done].
    apply (map_get_elem standby_cmp (fun _ => True)) in E; [|done|done].
    rewrite Forall_forall in Hp. by apply (Hp _ E).
Qed.

(** The topology constructors keep their promises: an accepted standby or socket set is an
    ordered map of exactly the connections offered, each once, within the capacity, with the
    primary not among its standbys; a standby report keeps all of that and changes only the
    standby it names; and the coverage a consumer reads never exceeds the pool's capacity. *)
Theorem source_topology_sound :
  (forall primary standbys capacity s, 0 <= capacity ->
     with_hot_standbys primary standbys capacity = Ok s ->
     source_wf s /\ publishing_primary s = Some primary /\ standby_capacity s = capacity /\
     source_standbys s ≡ₚ (fun s => (s, Agreeing)) <$> standbys) /\
  (forall sockets capacity key degraded s, 0 <= capacity ->
     pooled sockets capacity key degraded = Ok s ->
     source_wf s /\ pool_capacity s = capacity /\ pool_sockets s ≡ₚ sockets /\
     source_last_published_key s = key /\ pool_degraded s = degraded) /\
  (forall s standby state, source_wf s ->
     source_wf (report_standby s standby state).2 /\
     forall other, map_get standby_cmp other (source_standbys (report_standby s standby state).2) =
       if (report_standby s standby state).1 && bool_decide (other = standby) then Some state
       else map_get standby_cmp other (source_standbys s)) /\
  (forall s, source_wf s -> 0 <= pool_covering s <= pool_capacity s).
Proof.
  split; [apply with_hot_standbys_wf|]. split; [apply pooled_wf|].
  split; [|apply pool_covering_le]. intros s standby state Hwf.
  split; [by apply report_standby_wf|]. intros other.
  destruct s as [|p l c|l c k d|r]; simpl; try done.
  destruct (map_get standby_cmp standby l) as [st0|] eqn:E; simpl; [|done].
  rewrite (map_get_insert standby_cmp (fun _ => True)) by (try done; apply Hwf).
  destruct (standby_cmp other standby) eqn:Ec; case_bool_decide as Hd; try done.
  - destruct Hd. by apply (cmp_eq (cmp := standby_cmp)) in Ec.
  - subst. by rewrite (cmp_refl (cmp := standby_cmp)) in Ec.
  - subst. by rewrite (cmp_refl (cmp := standby_cmp)) in Ec.
Qed.

Definition connection_named (c : bytes) : ConnectionIdentity :=
  {| conn_value := c; conn_generation := 1 |}.

Lemma source_topology_sound_witness :
  let a := {| socket_connection := connection_named (lit "a") |} in
  let b := {| socket_connection := connection_named (lit "b") |} in
  let s := Pooled [(a, Covering); (b, Establishing)] 2 None None in
  source_wf s /\ pool_sockets s ≡ₚ [(b, Establishing); (a, Covering)].
Proof.
  intros a b s. destruct source_topology_sound as (_ & H & _).
  destruct (H [(b, Establishing); (a, Covering)] 2 None None s) as (Hwf & _ & Hp & _);
    [lia|reflexivity|]. split; [exact Hwf|exact Hp].
Defined.
