(* ===== verification/Observation.v ===== *)
(** * Observations ([src/src/observation.rs])

    Levels, the candidates a venue's frames become, the mutation records a book emits, and
    market resolutions, each with the labelling its constructor demands. *)

From S2P Require Import Prelude OrdMap Numeric Identity Descriptor.

(** ** Data *)

Inductive Side : Set := Bid | Ask.

#[export] Instance Side_eq_dec : EqDecision Side.
Proof. solve_decision. Defined.

Record Level : Set := { side : Side; price : Price; quantity : Quantity }.

#[export] Instance Level_eq_dec : EqDecision Level.
Proof. solve_decision. Defined.

Inductive ObservationError : Set :=
| CapacityZero | CapacityExceeded | InvalidOrigin | EmptyMutation
| MismatchedMutationCoordinate | EmptyLabel | LabelTooLong.

#[export] Instance ObservationError_eq_dec : EqDecision ObservationError.
Proof. solve_decision. Defined.

(** The derived orders of [Side] (bids first) and of the coordinate [(Side, Price)]. *)
Definition side_cmp (x y : Side) : comparison :=
  match x, y with Bid, Bid | Ask, Ask => Eq | Bid, Ask => Lt | Ask, Bid => Gt end.

#[export] Instance key_order_side : KeyOrder side_cmp (fun _ => True).
Proof. split; intros; repeat match goal with s : Side |- _ => destruct s end; done. Qed.

Definition coordinate_cmp : Side * Price -> Side * Price -> comparison :=
  cmp_pair side_cmp price_cmp.

Definition coordinate_wf (c : Side * Price) : Prop := True /\ price_wf c.2.

#[export] Instance key_order_coordinate : KeyOrder coordinate_cmp coordinate_wf.
Proof. exact (key_order_pair side_cmp price_cmp (fun _ => True) price_wf). Qed.

(** ** Labels and bounded levels *)

Record NativeLabel : Set := { label_text : bytes }.
Definition native_label_new (value : bytes) : result NativeLabel ObservationError :=
  if bool_decide (value = []) then Err EmptyLabel
  else if 1024 <? len value then Err LabelTooLong
  else Ok {| label_text := value |}.

Record NativeDeliveryPath : Set := { path_text : bytes }.
Definition native_delivery_path_new (value : bytes) :
    result NativeDeliveryPath ObservationError :=
  if bool_decide (value = []) then Err EmptyLabel
  else if 256 <? len value then Err LabelTooLong
  else Ok {| path_text := value |}.

Record LevelCapacity : Set := { level_capacity_value : Z }.
Definition level_capacity_new (value : Z) : result LevelCapacity ObservationError :=
  if value =? 0 then Err CapacityZero else Ok {| level_capacity_value := value |}.

Record BoundedLevels : Set := { levels : list Level; levels_capacity : LevelCapacity }.
Definition bounded_levels_new (ls : list Level) (capacity : LevelCapacity) :
    result BoundedLevels ObservationError :=
  collected <-? collect_bounded capacity.(level_capacity_value) CapacityExceeded [] ls ;;
  Ok {| levels := collected; levels_capacity := capacity |}.

(** ** Candidates *)

Inductive CandidateOperation : Set :=
| Snapshot (levels : BoundedLevels)
| SourceDelta (levels : BoundedLevels).

Record Candidate : Set := { candidate_provenance : Provenance; operation : CandidateOperation }.

Definition is_locally_derived (o : Origin) : bool :=
  match o with LocallyDerived _ => true | _ => false end.

Definition candidate_snapshot (provenance : Provenance) (levels : BoundedLevels) :
    result Candidate ObservationError :=
  refuse is_locally_derived provenance.(origin) with InvalidOrigin ;;
  Ok {| candidate_provenance := provenance; operation := Snapshot levels |}.

Definition candidate_source_delta (provenance : Provenance) (levels : BoundedLevels) :
    result Candidate ObservationError :=
  refuse negb (match provenance.(representation), provenance.(origin) with
               | VenueNative, SourceReported => true
               | _, _ => false
               end) with InvalidOrigin ;;
  Ok {| candidate_provenance := provenance; operation := SourceDelta levels |}.

(** ** Mutations *)

Record BookMutation : Set := {
  mutation_provenance : Provenance;
  old : option Level;
  new : option Level
}.

#[export] Instance BookMutation_eq_dec : EqDecision BookMutation.
Proof. solve_decision. Defined.

Definition coordinate_change (provenance : Provenance) (old new : option Level) :
    result BookMutation ObservationError :=
  match old, new with
  | None, None => Err EmptyMutation
  | _, _ =>
      refuse match old, new with
             | Some o, Some n => negb (bool_decide (o.(side) = n.(side)))
                                 || negb (bool_decide (o.(price) = n.(price)))
             | _, _ => false
             end with MismatchedMutationCoordinate ;;
      Ok {| mutation_provenance := provenance; old := old; new := new |}
  end.

Definition snapshot_diff (provenance : Provenance) (old new : option Level) :
    result BookMutation ObservationError :=
  refuse negb (bool_decide (provenance.(origin) = LocallyDerived SnapshotDiff))
         || negb (bool_decide (provenance.(representation) = Normalized)) with InvalidOrigin ;;
  coordinate_change provenance old new.

Definition source_reported (provenance : Provenance) (old new : option Level) :
    result BookMutation ObservationError :=
  refuse negb (bool_decide (provenance.(origin) = SourceReported)) with InvalidOrigin ;;
  coordinate_change provenance old new.

(** ** Resolutions *)

Inductive DeliveryPath : Set :=
| MarketFeed | LifecycleFeed | ResolutionFeed | OtherNativePath (path : NativeDeliveryPath).

Record ResolutionObservation : Set := {
  resolution_provenance : Provenance;
  winner : NativeOutcome;
  native_label : NativeLabel;
  delivery_path : DeliveryPath
}.

Definition resolution_observation_new (provenance : Provenance) (winner : NativeOutcome)
    (native_label : NativeLabel) (delivery_path : DeliveryPath) :
    result ResolutionObservation ObservationError :=
  refuse is_locally_derived provenance.(origin) with InvalidOrigin ;;
  Ok {| resolution_provenance := provenance; winner := winner;
        native_label := native_label; delivery_path := delivery_path |}.

Record MarketResolution : Set := {
  observation : ResolutionObservation;
  winning_index : Z;
  resolution_date : SourceTimestamp
}.

(** ** Well-formedness *)

Definition level_wf (l : Level) : Prop := price_wf l.(price) /\ quantity_wf l.(quantity).

Definition operation_levels (o : CandidateOperation) : list Level :=
  match o with Snapshot l | SourceDelta l => l.(levels) end.

(** What a candidate built through its constructors satisfies. *)
Record candidate_wf (c : Candidate) : Prop := {
  wf_candidate_provenance : provenance_wf c.(candidate_provenance);
  wf_candidate_levels : Forall level_wf (operation_levels c.(operation));
  wf_candidate_label :
    match c.(operation) with
    | Snapshot _ => is_locally_derived c.(candidate_provenance).(origin) = false
    | SourceDelta _ => c.(candidate_provenance).(representation) = VenueNative /\
                       c.(candidate_provenance).(origin) = SourceReported
    end
}.

Definition coordinate (l : Level) : Side * Price := (l.(side), l.(price)).

(** A mutation names one coordinate and at least one side of the change. *)
Definition mutation_wf (m : BookMutation) : Prop :=
  match m.(old), m.(new) with
  | None, None => False
  | Some o, Some n => coordinate o = coordinate n
  | _, _ => True
  end.

Lemma coordinate_change_Ok p old new m : coordinate_change p old new = Ok m <->
  m = {| mutation_provenance := p; old := old; new := new |} /\ mutation_wf m.
Proof.
  unfold coordinate_change, mutation_wf, coordinate.
  destruct old as [o|], new as [n|]; simpl.
  - destruct (_ || _) eqn:E; bool_facts.
    + split; [done|]. intros [-> H]; simpl in *. destruct E as [E|E]; bool_facts; congruence.
    + split; [intros [= <-]; simpl; split; [done|congruence] | by intros [-> _]].
  - split; [by intros [= <-] | by intros [-> _]].
  - split; [by intros [= <-] | by intros [-> _]].
  - split; [done|]. by intros [-> ?].
Qed.

Lemma snapshot_diff_Ok p old new m : snapshot_diff p old new = Ok m <->
  m = {| mutation_provenance := p; old := old; new := new |} /\ mutation_wf m /\
  p.(origin) = LocallyDerived SnapshotDiff /\ p.(representation) = Normalized.
Proof.
  unfold snapshot_diff. destruct (_ || _) eqn:E; bool_facts.
  - split; [done|]. intros (_ & _ & ? & ?). destruct E as [E|E]; bool_facts; congruence.
  - rewrite coordinate_change_Ok. tauto.
Qed.

Lemma source_reported_Ok p old new m : source_reported p old new = Ok m <->
  m = {| mutation_provenance := p; old := old; new := new |} /\ mutation_wf m /\
  p.(origin) = SourceReported.
Proof.
  unfold source_reported. destruct (negb _) eqn:E; bool_facts.
  - split; [done|]. intros (_ & _ & ?). congruence.
  - rewrite coordinate_change_Ok. tauto.
Qed.
