(* ===== verification/Book.v ===== *)
(** * The authoritative order book ([src/src/book.rs])

    One writer, one level map in canonical coordinates; snapshots, source deltas and loss
    reports change it. The file models every operation of [OrderBook] and [PublishedBook];
    a fallible method is a [prog], so that what a refused call leaves behind is a theorem
    and not a convention. *)

From S2P Require Import Prelude OrdMap Numeric Identity Descriptor Continuity Observation.

(** ** Data *)

Definition DERIVED_FAMILY : bytes := lit "derived.snapshot-diff".

(** [BTreeMap<(Side, Price), Quantity>]. *)
Abbreviation PhysicalLevels := (list ((Side * Price) * Quantity)).

Inductive BookError : Set :=
| MarketMismatch
| UnsupportedCandidateOperation
| DuplicateLevelCoordinate
| EmptyDelta
| NoEstablishedBase
| ContinuityLost
| CapacityOutOfRange
| CounterOverflow
| ContinuityError (error : ReplicaError)
| ProvenanceError (error : DescriptorError)
| MutationError (error : ObservationError)
| NonComplementablePrice (error : DecimalError)
| ComplementError (error : DecimalError).

Record MutationRecord : Set := { cursor : MutationCursor; mutation : BookMutation }.

Record SyncDivergenceReport : Set := { deltas_invalidated : Z }.

Record BookCommit : Set := {
  commit_revision : Z;
  commit_epoch : Z;
  recovery_base : bool;
  divergence : option SyncDivergenceReport;
  mutations : list MutationRecord
}.

Record OrderBook : Set := {
  book_market : MarketRef;
  book_levels : PhysicalLevels;
  authority : AuthorityState;
  continuity : MutationContinuity;
  revision : Z;
  book_provenance : option Provenance;
  delta_rail : bool;
  deltas_since_snapshot : Z;
  sync_divergences : Z
}.

(** ** Complementary prices *)

(** [DecimalGrammar::new(u16::MAX, 39, false, false)]; [normalized_grammar_valid] is its
    [expect]. *)
Definition normalized_grammar : DecimalGrammar := widest_grammar false false.

Lemma normalized_grammar_valid : grammar_new U16_MAX 39 false false = Ok normalized_grammar.
Proof. reflexivity. Qed.

(** [unit_literal_parses] is the [expect] on the literal. *)
Definition complement_price (price : Price) : result Price DecimalError :=
  let grammar := normalized_grammar in
  unit <-? decimal_parse (lit "1") grammar ;;
  value <-? decimal_complement price.(price_value) unit grammar ;;
  price_parse (canonical value) grammar.

Lemma unit_literal_parses : decimal_parse (lit "1") normalized_grammar = Ok unit_price.
Proof. reflexivity. Qed.

(** ** Rebased provenance *)

Inductive Rebase : Set := LatestState | SourceReportedDiff | DerivedDiff.

Definition rebase_provenance (source : Provenance) (revision epoch : Z) (kind : Rebase) :
    result Provenance DescriptorError :=
  let '(family, timestamp, evidence, repr, org) :=
    match kind with
    | LatestState | SourceReportedDiff =>
        (source.(native_family), source.(source_timestamp),
         source.(source_evidence).(evidence_values), source.(representation), source.(origin))
    | DerivedDiff => (DERIVED_FAMILY, None, [], Normalized, LocallyDerived SnapshotDiff)
    end in
  capacity <-? evidence_capacity_new (len evidence) ;;
  bounded <-? bounded_evidence_new evidence capacity ;;
  provenance_new
    {| in_market := source.(market); in_outcome := source.(outcome);
       in_native_family := family; in_source_timestamp := timestamp;
       in_source_evidence := bounded;
       in_daemon_generation := source.(daemon_generation);
       in_connection := source.(connection);
       in_subscription_generation := source.(subscription_generation);
       in_receive_position := source.(receive_position);
       in_commit_position := source.(commit_position);
       in_local_receive_time := source.(local_receive_time);
       in_local_commit_time := source.(local_commit_time);
       in_replica := source.(replica); in_representation := repr; in_origin := org;
       in_local_revision := revision; in_continuity_epoch := epoch |}.

(** ** Level maps *)

Definition level_at (c : Side * Price) (q : Quantity) : Level :=
  {| side := c.1; price := c.2; quantity := q |}.

Definition is_resting (q : Quantity) : bool :=
  negb (q.(quantity_value).(coefficient) =? 0).

Definition resting (ls : PhysicalLevels) : PhysicalLevels :=
  List.filter (fun e => is_resting e.2) ls.

Definition economically_equal (left right : PhysicalLevels) : bool :=
  bool_decide (resting left = resting right).

(** The numbering of the [n]th mutation after [first_position]. *)
Definition next_cursor_position (first_position : Z) (ms : list MutationRecord) :
    result Z BookError :=
  count <-? ok_or (checked 0 U64_MAX (len ms)) CounterOverflow ;;
  ok_or (checked_add_u64 first_position count) CounterOverflow.

(** The loop of [derive_mutations], over the coordinates of both maps. *)
Fixpoint derive_loop (previous next : PhysicalLevels) (source : Provenance)
    (revision epoch first_position : Z) (ms : list MutationRecord)
    (coordinates : list (Side * Price)) : result (list MutationRecord) BookError :=
  match coordinates with
  | [] => Ok ms
  | c :: rest =>
      let before := map_get coordinate_cmp c previous in
      let after := map_get coordinate_cmp c next in
      if bool_decide (before = after)
      then derive_loop previous next source revision epoch first_position ms rest
      else
        position <-? next_cursor_position first_position ms ;;
        provenance <-? map_err ProvenanceError
                         (rebase_provenance source revision epoch DerivedDiff) ;;
        mutation <-? map_err MutationError
                       (snapshot_diff provenance (level_at c <$> before) (level_at c <$> after)) ;;
        derive_loop previous next source revision epoch first_position
          (ms ++ [{| cursor := {| cursor_epoch := epoch; cursor_position := position |};
                     mutation := mutation |}]) rest
  end.

Definition derive_mutations (previous next : PhysicalLevels) (source : Provenance)
    (revision epoch first_position : Z) : result (list MutationRecord) BookError :=
  derive_loop previous next source revision epoch first_position []
    (dedup (sort_by coordinate_cmp (previous.*1 ++ next.*1))).

(** ** Operations *)

Definition book_new (market : MarketRef) : OrderBook :=
  {| book_market := market; book_levels := []; authority := Synchronizing;
     continuity := Intact 0 0; revision := 0; book_provenance := None;
     delta_rail := false; deltas_since_snapshot := 0; sync_divergences := 0 |}.

Definition book_op (A : Type) : Type := prog OrderBook BookError A.

(** The snapshot's level map: every price complementable, no coordinate twice. *)
Fixpoint snapshot_levels (next : PhysicalLevels) (ls : list Level) :
    result PhysicalLevels BookError :=
  match ls with
  | [] => Ok next
  | level :: rest =>
      _ <-? map_err NonComplementablePrice (complement_price level.(price)) ;;
      let held := map_contains coordinate_cmp (coordinate level) next in
      let next := map_insert coordinate_cmp (coordinate level) level.(quantity) next in
      refuse held with DuplicateLevelCoordinate ;;
      snapshot_levels next rest
  end.

Definition set_continuity (c : MutationContinuity) (b : OrderBook) : OrderBook :=
  {| book_market := b.(book_market); book_levels := b.(book_levels);
     authority := b.(authority); continuity := c; revision := b.(revision);
     book_provenance := b.(book_provenance); delta_rail := b.(delta_rail);
     deltas_since_snapshot := b.(deltas_since_snapshot);
     sync_divergences := b.(sync_divergences) |}.

Definition apply_snapshot (candidate : Candidate) : book_op BookCommit :=
  let source := candidate.(candidate_provenance) in
  self <-! gets id ;;
  deny (negb (bool_decide (source.(market) = self.(book_market)))) MarketMismatch ;;!
  match candidate.(operation) with
  | SourceDelta _ => throw UnsupportedCandidateOperation
  | Snapshot ls =>
      next <-! lift (snapshot_levels [] ls.(levels)) ;;
      revision' <-! lift (ok_or (checked_add_u64 self.(revision) 1) CounterOverflow) ;;
      let diverged :=
        if self.(delta_rail) && is_intact self.(continuity)
           && negb (economically_equal self.(book_levels) next)
        then Some {| deltas_invalidated := self.(deltas_since_snapshot) |} else None in
      sync_divergences' <-!
        lift (match diverged with
              | Some _ => ok_or (checked_add_u64 self.(sync_divergences) 1) CounterOverflow
              | None => Ok self.(sync_divergences)
              end) ;;
      let broken := match diverged with
                    | Some _ => lost self.(continuity) SyncDivergence
                    | None => self.(continuity)
                    end in
      let recovery := negb (is_intact broken) in
      continuity' <-!
        lift (if recovery then map_err ContinuityError (recovered broken 0) else Ok broken) ;;
      match continuity' with
      | Lost _ _ => throw (ContinuityError InvalidTransition)
      | Intact epoch next_position =>
          ms <-!
            lift (if recovery || bool_decide (self.(book_provenance) = None)
                     || self.(delta_rail)
                  then Ok []
                  else derive_mutations self.(book_levels) next source revision' epoch
                         next_position) ;;
          emitted <-! lift (ok_or (checked 0 U64_MAX (len ms)) CounterOverflow) ;;
          provenance <-! lift (map_err ProvenanceError
                                 (rebase_provenance source revision' epoch LatestState)) ;;
          advanced' <-! lift (map_err ContinuityError (advanced continuity' emitted)) ;;
          modify (set_continuity advanced') ;;!
          modify (fun b =>
            {| book_market := b.(book_market); book_levels := next; authority := Live;
               continuity := b.(continuity); revision := revision';
               book_provenance := Some provenance; delta_rail := b.(delta_rail);
               deltas_since_snapshot := 0; sync_divergences := sync_divergences' |}) ;;!
          ret {| commit_revision := revision'; commit_epoch := epoch;
                 recovery_base := recovery; divergence := diverged; mutations := ms |}
      end
  end.

(** The staged coordinates of a delta: the whole list is validated before any level is
    touched; a zero quantity stages a removal. *)
Fixpoint stage_delta (seen : list ((Side * Price) * ())) (ls : list Level) :
    result (list ((Side * Price) * option Quantity)) BookError :=
  match ls with
  | [] => Ok []
  | level :: rest =>
      _ <-? map_err NonComplementablePrice (complement_price level.(price)) ;;
      refuse map_contains coordinate_cmp (coordinate level) seen with DuplicateLevelCoordinate ;;
      let resting := if level.(quantity).(quantity_value).(coefficient) =? 0 then None
                     else Some level.(quantity) in
      staged <-? stage_delta (map_insert coordinate_cmp (coordinate level) () seen) rest ;;
      Ok ((coordinate level, resting) :: staged)
  end.

(** One source-reported mutation per staged coordinate whose value changes, in the venue's
    order. *)
Fixpoint report_loop (held_levels : PhysicalLevels) (source : Provenance)
    (revision epoch first_position : Z) (ms : list MutationRecord)
    (staged : list ((Side * Price) * option Quantity)) :
    result (list MutationRecord) BookError :=
  match staged with
  | [] => Ok ms
  | (c, resting) :: rest =>
      let held := map_get coordinate_cmp c held_levels in
      if bool_decide (held = resting)
      then report_loop held_levels source revision epoch first_position ms rest
      else
        position <-? next_cursor_position first_position ms ;;
        provenance <-? map_err ProvenanceError
                         (rebase_provenance source revision epoch SourceReportedDiff) ;;
        mutation <-? map_err MutationError
                       (source_reported provenance (level_at c <$> held) (level_at c <$> resting)) ;;
        report_loop held_levels source revision epoch first_position
          (ms ++ [{| cursor := {| cursor_epoch := epoch; cursor_position := position |};
                     mutation := mutation |}]) rest
  end.

(** Setting or removing one coordinate. *)
Definition write_level (ls : PhysicalLevels) (entry : (Side * Price) * option Quantity) :
    PhysicalLevels :=
  match entry.2 with
  | Some quantity => map_insert coordinate_cmp entry.1 quantity ls
  | None => map_remove coordinate_cmp entry.1 ls
  end.

Definition write_levels (ls : PhysicalLevels)
    (staged : list ((Side * Price) * option Quantity)) : PhysicalLevels :=
  fold_left write_level staged ls.

Definition apply_source_delta (candidate : Candidate) : book_op BookCommit :=
  let source := candidate.(candidate_provenance) in
  self <-! gets id ;;
  deny (negb (bool_decide (source.(market) = self.(book_market)))) MarketMismatch ;;!
  match candidate.(operation) with
  | Snapshot _ => throw UnsupportedCandidateOperation
  | SourceDelta ls =>
      deny (bool_decide (ls.(levels) = [])) EmptyDelta ;;!
      deny (bool_decide (self.(book_provenance) = None)) NoEstablishedBase ;;!
      match self.(continuity) with
      | Lost _ _ => throw ContinuityLost
      | Intact epoch next_position =>
          staged <-! lift (stage_delta [] ls.(levels)) ;;
          revision' <-! lift (ok_or (checked_add_u64 self.(revision) 1) CounterOverflow) ;;
          ms <-! lift (report_loop self.(book_levels) source revision' epoch next_position
                         [] staged) ;;
          emitted <-! lift (ok_or (checked 0 U64_MAX (len ms)) CounterOverflow) ;;
          deltas <-! lift (ok_or (checked_add_u64 self.(deltas_since_snapshot) 1)
                             CounterOverflow) ;;
          provenance <-! lift (map_err ProvenanceError
                                 (rebase_provenance source revision' epoch LatestState)) ;;
          continuity' <-! lift (map_err ContinuityError
                                  (advanced self.(continuity) emitted)) ;;
          modify (fun b =>
            {| book_market := b.(book_market);
               book_levels := write_levels b.(book_levels) staged; authority := Live;
               continuity := continuity'; revision := revision';
               book_provenance := Some provenance; delta_rail := true;
               deltas_since_snapshot := deltas;
               sync_divergences := b.(sync_divergences) |}) ;;!
          ret {| commit_revision := revision'; commit_epoch := epoch; recovery_base := false;
                 divergence := None; mutations := ms |}
      end
  end.

Definition set_authority (a : AuthorityState) (c : MutationContinuity) (r : Z)
    (b : OrderBook) : OrderBook :=
  {| book_market := b.(book_market); book_levels := b.(book_levels); authority := a;
     continuity := c; revision := r; book_provenance := b.(book_provenance);
     delta_rail := b.(delta_rail); deltas_since_snapshot := b.(deltas_since_snapshot);
     sync_divergences := b.(sync_divergences) |}.

Definition unsubscribe : book_op bool :=
  self <-! gets id ;;
  if bool_decide (self.(authority) = Unsubscribed) then ret false
  else
    revision' <-! lift (ok_or (checked_add_u64 self.(revision) 1) CounterOverflow) ;;
    modify (fun b => set_authority Unsubscribed b.(continuity) revision' b) ;;!
    ret true.

Definition report_continuity_loss (reason : ContinuityReason) (why : AuthorityReason) :
    book_op bool :=
  self <-! gets id ;;
  let next_continuity := lost self.(continuity) reason in
  let next_authority := Stale why in
  if bool_decide (next_continuity = self.(continuity))
     && bool_decide (next_authority = self.(authority))
  then ret false
  else
    revision' <-! lift (ok_or (checked_add_u64 self.(revision) 1) CounterOverflow) ;;
    modify (set_authority next_authority next_continuity revision') ;;!
    ret true.

Definition note_stream_event : book_op MutationCursor :=
  self <-! gets id ;;
  match self.(continuity) with
  | Lost _ _ => throw ContinuityLost
  | Intact epoch next_position =>
      continuity' <-! lift (map_err ContinuityError (advanced self.(continuity) 1)) ;;
      modify (set_continuity continuity') ;;!
      ret {| cursor_epoch := epoch; cursor_position := next_position |}
  end.

(** ** Publication *)

Record PublishedBook : Set := {
  published_market : MarketRef;
  published_levels : list Level;
  published_authority : AuthorityState;
  published_continuity : MutationContinuity;
  published_revision : Z;
  published_provenance : option Provenance;
  published_sync_divergences : Z
}.

Definition publish (self : OrderBook) : PublishedBook :=
  {| published_market := self.(book_market);
     published_levels := (fun e => level_at e.1 e.2) <$> self.(book_levels);
     published_authority := self.(authority);
     published_continuity := self.(continuity);
     published_revision := self.(revision);
     published_provenance := self.(book_provenance);
     published_sync_divergences := self.(sync_divergences) |}.

Definition liquidity_identity (self : PublishedBook) : LiquidityIdentity :=
  LiquidityMarket self.(published_market).

Definition opposite (s : Side) : Side := match s with Bid => Ask | Ask => Bid end.

Fixpoint complement_levels (ls : list Level) : result (list Level) BookError :=
  match ls with
  | [] => Ok []
  | level :: rest =>
      p <-? map_err ComplementError (complement_price level.(price)) ;;
      complement <-? complement_levels rest ;;
      Ok ({| side := opposite level.(side); price := p; quantity := level.(quantity) |}
            :: complement)
  end.

Definition level_cmp (left right : Level) : comparison :=
  coordinate_cmp (coordinate left) (coordinate right).

Definition derived_complement_levels (self : PublishedBook) : result (list Level) BookError :=
  complement <-? complement_levels self.(published_levels) ;;
  Ok (sort_by level_cmp complement).

(** ** Complementary prices: lemmas *)

(** Reading back the canonical spelling of a complement changes nothing, so complementing a
    price is complementing its decimal. *)
Lemma complement_price_eq p : price_wf p ->
  complement_price p = res_map Build_Price
    (decimal_complement p.(price_value) unit_price normalized_grammar).
Proof.
  intros Hp. unfold complement_price. rewrite unit_literal_parses.
  pose proof (complement_cases _ Hp) as H. fold normalized_grammar in H.
  destruct (decimal_complement _ _ _) as [d|e]; [|done]. simpl.
  destruct H as ([Hd Hd0] & H38 & Hs & Ed), Hp as [[_ Hps _] Hp0].
  pose proof (pow10_pos (p.(price_value).(scale) - d.(scale)) ltac:(lia)).
  pose proof (pow10_mono p.(price_value).(scale) 38 ltac:(lia)) as H1.
  assert (10 ^ 38 < 10 ^ 39) by (vm_compute; done).
  assert (Hc : d.(coefficient) <= 10 ^ 38) by nia.
  assert (Hdig : len (to_decimal (Z.abs d.(coefficient))) <= 39) by (apply to_decimal_len; lia).
  destruct (Hd) as [Hdr Hds _].
  assert (Hm1 : I128_MIN < d.(coefficient)) by (bounds; lia).
  assert (Hm2 : d.(scale) <= U16_MAX) by lia.
  assert (Hm3 : 0 <= U16_MAX) by (bounds; lia).
  assert (Hm4 : d.(coefficient) < 0 -> false = true) by lia.
  assert (Hm5 : Z.max (len (to_decimal (Z.abs d.(coefficient)))) (d.(scale) + 1) <= 39) by lia.
  assert (Hm6 : len (canonical d) <= 128); [|unfold price_parse, newtype_parse;
    change (set_allow_negative false normalized_grammar) with normalized_grammar;
    by rewrite (parse_canonical d normalized_grammar)].
  destruct (canonical_shape d Hd) as (w & f & Ecan & _ & _ & _ & _ & _ & Hlf & Hlw).
  rewrite len_app in Hlw. assert (Hneg : (d.(coefficient) <? 0) = false) by lia.
  rewrite Ecan, Hneg. cbn [sign_text]. rewrite !len_app, len_nil. pose proof (len_nonneg w).
  destruct f as [|b f]; simpl in *; rewrite ?len_cons, ?len_nil in *; change (len (@nil Z)) with 0; lia.
Qed.

Lemma complement_price_sound p q : price_wf p -> complement_price p = Ok q ->
  price_wf q /\ complement_price q = Ok p.
Proof.
  intros Hp E. pose proof E as E1. rewrite complement_price_eq in E by done.
  pose proof (complement_cases _ Hp) as H. fold normalized_grammar in H.
  destruct (decimal_complement _ _ _) as [d|e] eqn:Ed; simpl in E; [|done].
  injection E as <-. destruct H as [Hd _]. split; [exact Hd|].
  rewrite complement_price_eq by exact Hd. simpl.
  assert (Es : decimal_complement d unit_price normalized_grammar = Ok p.(price_value))
    by (by apply complement_symmetric).
  rewrite Es. by destruct p.
Qed.

(** ** Rebasing *)

Definition rebased (source : Provenance) (revision epoch : Z) (kind : Rebase) : Provenance :=
  {| market := source.(market); outcome := source.(outcome);
     native_family := match kind with DerivedDiff => DERIVED_FAMILY
                                 | _ => source.(native_family) end;
     source_timestamp := match kind with DerivedDiff => None
                                    | _ => source.(source_timestamp) end;
     source_evidence :=
       let values := match kind with DerivedDiff => []
                                | _ => source.(source_evidence).(evidence_values) end in
       {| evidence_values := values;
          evidence_capacity := {| evidence_capacity_value := len values |} |};
     daemon_generation := source.(daemon_generation);
     connection := source.(connection);
     subscription_generation := source.(subscription_generation);
     receive_position := source.(receive_position);
     commit_position := source.(commit_position);
     local_receive_time := source.(local_receive_time);
     local_commit_time := source.(local_commit_time); replica := source.(replica);
     representation := match kind with DerivedDiff => Normalized
                                  | _ => source.(representation) end;
     origin := match kind with DerivedDiff => LocallyDerived SnapshotDiff
                          | _ => source.(origin) end;
     local_revision := revision; continuity_epoch := epoch |}.

Lemma rebase_provenance_eq source revision epoch kind : provenance_wf source ->
  rebase_provenance source revision epoch kind = Ok (rebased source revision epoch kind) /\
  provenance_wf (rebased source revision epoch kind).
Proof.
  intros [Hf He Hn Hp Ht Hl].
  assert (Hfam : text_wf 256 DERIVED_FAMILY) by (split; [done|vm_compute; discriminate]).
  set (values := match kind with DerivedDiff => []
                            | _ => source.(source_evidence).(evidence_values) end).
  assert (Hvals : Forall (fun v => text_wf 1024 (source_evidence_value v)) values /\
                  len values <= MAX_SOURCE_EVIDENCE).
  { subst values. destruct kind; split; try done; constructor. }
  destruct Hvals as [Hv Hvn].
  assert (E : rebase_provenance source revision epoch kind
              = Ok (rebased source revision epoch kind)).
  { unfold rebase_provenance.
    assert (Hcap : evidence_capacity_new (len values)
                   = Ok {| evidence_capacity_value := len values |})
      by (by apply evidence_capacity_new_Ok).
    assert (Hb : bounded_evidence_new values {| evidence_capacity_value := len values |}
      = Ok {| evidence_values := values;
              evidence_capacity := {| evidence_capacity_value := len values |} |}).
    { apply bounded_evidence_new_Ok; simpl; [apply len_nonneg|split; [done|lia]]. }
    destruct kind; subst values; cbn beta iota zeta in *; rewrite Hcap; rewrite Hb;
      (rewrite provenance_new_valid_Ok; [done | unfold input_valid; simpl; by split_and!]). }
  split; [done|]. subst values. split; simpl; try done; by destruct kind.
Qed.

(** ** Changes and their records *)

(** One coordinate with its value before and after. *)
Abbreviation change := ((Side * Price) * option Quantity * option Quantity)%type.

Definition changed (l : list change) : list change :=
  List.filter (fun e => negb (bool_decide (e.1.2 = e.2))) l.

(** The mutations of a list of changes under one provenance, numbered from [position]. *)
Fixpoint record_changes (p : Provenance) (epoch position : Z) (l : list change) :
    list MutationRecord :=
  match l with
  | [] => []
  | (c, before, after) :: rest =>
      {| cursor := {| cursor_epoch := epoch; cursor_position := position |};
         mutation := {| mutation_provenance := p; old := level_at c <$> before;
                        new := level_at c <$> after |} |}
      :: record_changes p epoch (position + 1) rest
  end.

Lemma record_changes_len p e n l : len (record_changes p e n l) = len l.
Proof.
  revert n. induction l as [|[[c b] a] l IH]; intros n; simpl; [done|].
  by rewrite !len_cons, IH.
Qed.

Lemma next_cursor_position_spec first ms : 0 <= first ->
  next_cursor_position first ms =
  if first + len ms <=? U64_MAX then Ok (first + len ms) else Err CounterOverflow.
Proof.
  intros Hf. unfold next_cursor_position. pose proof (len_nonneg ms).
  destruct (Z.leb_spec (first + len ms) U64_MAX).
  - rewrite checked_in by lia. simpl. unfold checked_add_u64. by rewrite checked_in by lia.
  - destruct (checked 0 U64_MAX (len ms)) as [n|] eqn:E; simpl; [|done].
    apply checked_Some in E as [<- _]. unfold checked_add_u64.
    destruct (checked 0 U64_MAX (first + len ms)) as [m|] eqn:E2; [|done].
    apply checked_Some in E2. lia.
Qed.

(** What one allocating loop returns: all the records when the last position is allocatable,
    otherwise an overflow. *)
Definition numbered (p : Provenance) (epoch first : Z) (ms : list MutationRecord)
    (l : list change) : result (list MutationRecord) BookError :=
  if bool_decide (l = []) || (first + len ms + len l - 1 <=? U64_MAX)
  then Ok (ms ++ record_changes p epoch (first + len ms) l)
  else Err CounterOverflow.

(** One turn of either loop. *)
Lemma numbered_cons p epoch first ms c b a l : 0 <= first ->
  numbered p epoch first ms ((c, b, a) :: l) =
  match next_cursor_position first ms with
  | Ok position =>
      numbered p epoch first
        (ms ++ [{| cursor := {| cursor_epoch := epoch; cursor_position := position |};
                   mutation := {| mutation_provenance := p; old := level_at c <$> b;
                                  new := level_at c <$> a |} |}]) l
  | Err e => Err e
  end.
Proof.
  intros Hf. rewrite next_cursor_position_spec by done. unfold numbered.
  rewrite bool_decide_false, len_cons by done. cbn [orb]. pose proof (len_nonneg l).
  destruct (Z.leb_spec (first + len ms) U64_MAX).
  - rewrite len_app, len_cons, len_nil. destruct l as [|x l].
    + rewrite bool_decide_true by done. cbn [orb]. rewrite len_nil.
      assert ((first + len ms + (1 + 0) - 1 <=? U64_MAX) = true) as -> by lia.
      simpl. by rewrite app_nil_r.
    + rewrite bool_decide_false by done. cbn [orb].
      replace (first + (len ms + (1 + 0)) + len (x :: l) - 1)
        with (first + len ms + (1 + len (x :: l)) - 1) by lia.
      destruct (_ <=? _); [|done]. f_equal. cbn [record_changes]. rewrite <- app_assoc.
      simpl. by replace (first + (len ms + (1 + 0))) with (first + len ms + 1) by lia.
  - by assert ((first + len ms + (1 + len l) - 1 <=? U64_MAX) = false) as -> by lia.
Qed.

Lemma change_mutation_wf p c (b a : option Quantity) : b <> a ->
  mutation_wf {| mutation_provenance := p; old := level_at c <$> b; new := level_at c <$> a |}.
Proof. destruct b, a; done. Qed.

Lemma derive_loop_numbered previous next source r e first ms coords :
  provenance_wf source -> 0 <= first ->
  derive_loop previous next source r e first ms coords =
  numbered (rebased source r e DerivedDiff) e first ms
    (changed ((fun c => (c, map_get coordinate_cmp c previous, map_get coordinate_cmp c next))
                <$> coords)).
Proof.
  intros Hs Hf. revert ms. induction coords as [|c rest IH]; intros ms.
  - unfold numbered. simpl. by rewrite app_nil_r.
  - cbn [derive_loop fmap list_fmap changed List.filter fst snd].
    destruct (bool_decide _) eqn:E; cbn [negb]; [apply IH|]. bool_facts.
    rewrite numbered_cons by done. destruct (next_cursor_position first ms) as [n|]; [|done].
    destruct (rebase_provenance_eq source r e DerivedDiff Hs) as [-> _]. cbn [map_err].
    rewrite (proj2 (snapshot_diff_Ok (rebased source r e DerivedDiff) _ _ _)
               (conj eq_refl (conj (change_mutation_wf _ c _ _ E) (conj eq_refl eq_refl)))).
    cbn [map_err]. apply IH.
Qed.

Lemma report_loop_numbered held source r e first ms staged :
  provenance_wf source -> source.(origin) = SourceReported -> 0 <= first ->
  report_loop held source r e first ms staged =
  numbered (rebased source r e SourceReportedDiff) e first ms
    (changed ((fun s => (s.1, map_get coordinate_cmp s.1 held, s.2)) <$> staged)).
Proof.
  intros Hs Ho Hf. revert ms. induction staged as [|[c rest'] rest IH]; intros ms.
  - unfold numbered. simpl. by rewrite app_nil_r.
  - cbn [report_loop fmap list_fmap changed List.filter fst snd].
    destruct (bool_decide _) eqn:E; cbn [negb]; [apply IH|]. bool_facts.
    rewrite numbered_cons by done. destruct (next_cursor_position first ms) as [n|]; [|done].
    destruct (rebase_provenance_eq source r e SourceReportedDiff Hs) as [-> _]. cbn [map_err].
    rewrite (proj2 (source_reported_Ok (rebased source r e SourceReportedDiff) _ _ _)
               (conj eq_refl (conj (change_mutation_wf _ c _ _ E) Ho))).
    cbn [map_err]. apply IH.
Qed.

(** ** Writing levels *)

Abbreviation levels_ok := (map_ok coordinate_cmp coordinate_wf).

Lemma write_level_ok ls e : coordinate_wf e.1 -> levels_ok ls -> levels_ok (write_level ls e).
Proof.
  intros He Hls. unfold write_level. destruct e.2.
  - by apply map_insert_ok; [apply _|..].
  - by apply (map_remove_ok coordinate_cmp coordinate_wf).
Qed.

Lemma write_level_get ls c v d : coordinate_wf c -> coordinate_wf d -> levels_ok ls ->
  map_get coordinate_cmp d (write_level ls (c, v)) =
  if bool_decide (d = c) then v else map_get coordinate_cmp d ls.
Proof.
  intros Hc Hd Hls. unfold write_level; simpl.
  assert (Hcmp : forall w : option Quantity,
            match coordinate_cmp d c with Eq => w | _ => map_get coordinate_cmp d ls end
            = if bool_decide (d = c) then w else map_get coordinate_cmp d ls).
  { intros w. case_bool_decide as E.
    - subst. by rewrite (cmp_refl (cmp := coordinate_cmp) (wf := coordinate_wf)).
    - destruct (coordinate_cmp d c) eqn:F; [|done|done]. destruct E.
      by apply (cmp_eq (cmp := coordinate_cmp) (wf := coordinate_wf)). }
  rewrite <- Hcmp. destruct v as [q|].
  - by apply (map_get_insert coordinate_cmp coordinate_wf).
  - by apply (map_get_remove coordinate_cmp coordinate_wf).
Qed.

Lemma write_levels_ok ls staged : Forall (fun e => coordinate_wf e.1) staged ->
  levels_ok ls -> levels_ok (write_levels ls staged).
Proof.
  revert ls. induction staged as [|e staged IH]; intros ls Hst Hls; [done|].
  apply Forall_cons_1 in Hst as [He Hst]. apply IH; [done|]. by apply write_level_ok.
Qed.

(** Writing distinct coordinates sets each to its value and leaves the others alone. *)
Lemma write_levels_get ls staged d : Forall (fun e => coordinate_wf e.1) staged ->
  NoDup staged.*1 -> coordinate_wf d -> levels_ok ls ->
  (forall v, (d, v) ∈ staged -> map_get coordinate_cmp d (write_levels ls staged) = v) /\
  (d ∉ staged.*1 -> map_get coordinate_cmp d (write_levels ls staged)
                    = map_get coordinate_cmp d ls).
Proof.
  revert ls. induction staged as [|[c w] staged IH]; intros ls Hst Hnd Hd Hls; simpl in *.
  { split; [by intros v ?%not_elem_of_nil|done]. }
  apply Forall_cons_1 in Hst as [Hc Hst]. apply NoDup_cons in Hnd as [Hc' Hnd]. simpl in Hc.
  destruct (IH (write_level ls (c, w)) Hst Hnd Hd (write_level_ok _ (c, w) Hc Hls)) as [H1 H2].
  split.
  - intros v [[= -> ->]|Hv]%elem_of_cons; [|by apply H1].
    change (map_get coordinate_cmp c (write_levels (write_level ls (c, w)) staged) = w).
    rewrite H2 by done. rewrite write_level_get by done. by rewrite bool_decide_true.
  - rewrite not_elem_of_cons. intros [Hne Hin].
    change (map_get coordinate_cmp d (write_levels (write_level ls (c, w)) staged)
            = map_get coordinate_cmp d ls).
    rewrite H2 by done. rewrite write_level_get by done. by rewrite bool_decide_false.
Qed.

(** Consuming a mutation: what a reader of the stream does to its own copy. *)
Definition apply_mutation (ls : PhysicalLevels) (m : MutationRecord) : PhysicalLevels :=
  match m.(mutation).(new), m.(mutation).(old) with
  | Some l, _ => map_insert coordinate_cmp (coordinate l) l.(quantity) ls
  | None, Some l => map_remove coordinate_cmp (coordinate l) ls
  | None, None => ls
  end.

Definition replay (ls : PhysicalLevels) (ms : list MutationRecord) : PhysicalLevels :=
  fold_left apply_mutation ms ls.

Lemma replay_records p e n l ls : Forall (fun c => c.1.2 <> c.2) l ->
  replay ls (record_changes p e n l) = write_levels ls ((fun c => (c.1.1, c.2)) <$> l).
Proof.
  revert n ls. induction l as [|[[c b] a] l IH]; intros n ls Hl; [done|].
  apply Forall_cons_1 in Hl as [Hc Hl].
  set (m := {| cursor := {| cursor_epoch := e; cursor_position := n |};
               mutation := {| mutation_provenance := p; old := level_at c <$> b;
                              new := level_at c <$> a |} |}).
  change (replay (apply_mutation ls m) (record_changes p e (n + 1) l)
          = write_levels (write_level ls (c, a)) ((fun c => (c.1.1, c.2)) <$> l)).
  rewrite IH by done. f_equal. destruct c. destruct a, b; done.
Qed.

Lemma changed_Forall l : Forall (fun c => c.1.2 <> c.2) (changed l).
Proof.
  apply Forall_forall. intros [[c b] a] H. apply list_elem_of_In in H.
  apply filter_In in H as [_ H]. by apply negb_true_iff, bool_decide_eq_false in H.
Qed.

(** Replaying the records of the changes among [l] writes every value of [l]. *)
Lemma replay_changed p e n ls (l : list change) :
  levels_ok ls -> Forall (fun c => coordinate_wf c.1.1) l -> NoDup ((fun c => c.1.1) <$> l) ->
  (forall c b a, (c, b, a) ∈ l -> map_get coordinate_cmp c ls = b) ->
  replay ls (record_changes p e n (changed l))
    = write_levels ls ((fun c => (c.1.1, c.2)) <$> l).
Proof.
  intros Hls Hwf Hnd Hb. rewrite replay_records by apply changed_Forall.
  revert ls Hls Hb. induction l as [|[[c b] a] l IH]; intros ls Hls Hb; [done|].
  apply Forall_cons_1 in Hwf as [Hc Hwf]. apply NoDup_cons in Hnd as [Hnotin Hnd].
  simpl in Hc, Hnotin. cbn [changed List.filter fst snd].
  assert (Hbc : map_get coordinate_cmp c ls = b) by (eapply Hb; left).
  assert (Hnext : forall c' b' a', (c', b', a') ∈ l ->
            map_get coordinate_cmp c' (write_level ls (c, a)) = b').
  { intros c' b' a' Hin. assert (c' ∈ (fun c => c.1.1) <$> l)
      by (apply list_elem_of_fmap; by exists (c', b', a')).
    rewrite Forall_forall in Hwf. pose proof (Hwf _ Hin) as Hc'. simpl in Hc'.
    rewrite write_level_get, bool_decide_false by (done || (intros ->; done)).
    eapply Hb. by right. }
  case_bool_decide as E; cbn [negb].
  - subst a. transitivity (write_levels (write_level ls (c, b))
                             ((fun c => (c.1.1, c.2)) <$> l)); [|done].
    assert (write_level ls (c, b) = ls) as ->.
    { apply (map_ext coordinate_cmp coordinate_wf); [by apply write_level_ok|done|].
      intros d Hd. rewrite write_level_get by done. case_bool_decide; [by subst|done]. }
    apply IH; [done|done|done|]. intros c' b' a' Hin. eapply Hb. by right.
  - cbn. apply IH; [done|done| |done]. by apply write_level_ok.
Qed.

(** ** Staging *)

Definition entry (l : Level) : (Side * Price) * Quantity := (coordinate l, l.(quantity)).
Definition complementable (l : Level) : Prop := is_ok (complement_price l.(price)) = true.

Lemma level_coordinate_wf l : level_wf l -> coordinate_wf (coordinate l).
Proof. intros [Hp _]. by split. Qed.

Lemma entry_keys ls : (entry <$> ls).*1 = coordinate <$> ls.
Proof. rewrite <- list_fmap_compose. by apply list_fmap_ext. Qed.

Lemma snapshot_levels_Ok ls next m : Forall level_wf ls -> levels_ok next ->
  snapshot_levels next ls = Ok m ->
  levels_ok m /\ m ≡ₚ (entry <$> ls) ++ next /\ Forall complementable ls.
Proof.
  revert next. induction ls as [|l rest IH]; intros next Hwf Hok; simpl.
  - intros [= <-]. split_and!; [done|done|constructor].
  - apply Forall_cons_1 in Hwf as [Hl Hwf].
    destruct (complement_price l.(price)) as [q|] eqn:Ec; simpl; [|done].
    destruct (map_contains _ _ _) eqn:Hc; [done|]. intros E.
    apply map_contains_false in Hc.
    pose proof (map_insert_fresh coordinate_cmp (coordinate l) l.(quantity) next Hc) as Hp.
    apply IH in E as (Hm & Hperm & Hcomp); [|done|].
    + split_and!; [done| |].
      * rewrite Hperm, Hp. by rewrite <- Permutation_middle.
      * constructor; [|done]. unfold complementable. by rewrite Ec.
    + apply map_insert_ok; [apply _| |done]. by apply level_coordinate_wf.
Qed.

(** A snapshot whose prices complement and whose coordinates are distinct is admitted. *)
Lemma snapshot_levels_accepts ls next : Forall level_wf ls -> levels_ok next ->
  Forall complementable ls -> NoDup (coordinate <$> ls) ->
  (forall l, l ∈ ls -> coordinate l ∉ next.*1) ->
  is_ok (snapshot_levels next ls) = true.
Proof.
  revert next. induction ls as [|l rest IH]; intros next Hwf Hok Hcomp Hnd Hfresh; simpl; [done|].
  apply Forall_cons_1 in Hwf as [Hl Hwf]. apply Forall_cons_1 in Hcomp as [Hc Hcomp].
  apply NoDup_cons in Hnd as [Hnin Hnd]. unfold complementable in Hc.
  destruct (complement_price l.(price)) as [q|]; simpl; [|done].
  pose proof (level_coordinate_wf l Hl) as Hcw.
  assert (Hget : map_get coordinate_cmp (coordinate l) next = None).
  { apply (map_get_elem_fst coordinate_cmp coordinate_wf); [done|done|]. apply Hfresh. left. }
  assert (map_contains coordinate_cmp (coordinate l) next = false) as ->
    by (by apply map_contains_false).
  apply IH; [done|by apply map_insert_ok; [apply _|..]|done|done|].
  intros l' Hl'. rewrite (map_insert_fresh coordinate_cmp _ _ _ Hget). simpl.
  apply not_elem_of_cons. split.
  - intros E. apply Hnin. apply list_elem_of_fmap. by exists l'.
  - apply Hfresh. by right.
Qed.

(** The value a delta level stages: a zero quantity removes. *)
Definition staged_value (l : Level) : option Quantity :=
  if l.(quantity).(quantity_value).(coefficient) =? 0 then None else Some l.(quantity).

Lemma stage_delta_Ok ls seen staged : Forall level_wf ls ->
  map_ok coordinate_cmp coordinate_wf seen -> stage_delta seen ls = Ok staged ->
  staged = (fun l => (coordinate l, staged_value l)) <$> ls /\
  Forall complementable ls /\ NoDup (coordinate <$> ls) /\
  (forall l, l ∈ ls -> coordinate l ∉ seen.*1).
Proof.
  revert seen staged. induction ls as [|l rest IH]; intros seen staged Hwf Hok; simpl.
  { intros [= <-]. split_and!; try constructor. by intros l ?%not_elem_of_nil. }
  apply Forall_cons_1 in Hwf as [Hl Hwf]. pose proof (level_coordinate_wf l Hl) as Hcw.
  destruct (complement_price l.(price)) as [q|] eqn:Ec; simpl; [|done].
  destruct (map_contains _ _ _) eqn:Hc; [done|]. apply map_contains_false in Hc.
  destruct (stage_delta _ rest) as [st|] eqn:E; [|done]. intros [= <-].
  apply IH in E as (-> & Hcomp & Hnd & Hfresh); [|done|by apply map_insert_ok; [apply _|..]].
  assert (Hin : forall l', l' ∈ rest -> coordinate l' ∉ coordinate l :: seen.*1).
  { intros l' Hl'. specialize (Hfresh l' Hl').
    by rewrite (map_insert_fresh coordinate_cmp _ _ _ Hc) in Hfresh. }
  clear Hfresh. rename Hin into Hfresh.
  apply (map_get_elem_fst coordinate_cmp coordinate_wf) in Hc; [|done|done].
  split_and!.
  - done.
  - constructor; [|done]. unfold complementable. by rewrite Ec.
  - constructor; [|done]. intros (l' & E & Hl')%list_elem_of_fmap.
    destruct (Hfresh l' Hl'). rewrite <- E. left.
  - intros l' [->|Hl']%elem_of_cons; [done|]. intros Hin'. apply (Hfresh l' Hl'). by right.
Qed.

Lemma stage_delta_accepts ls seen : Forall level_wf ls ->
  map_ok coordinate_cmp coordinate_wf seen -> Forall complementable ls ->
  NoDup (coordinate <$> ls) -> (forall l, l ∈ ls -> coordinate l ∉ seen.*1) ->
  is_ok (stage_delta seen ls) = true.
Proof.
  revert seen. induction ls as [|l rest IH]; intros seen Hwf Hok Hcomp Hnd Hfresh; simpl; [done|].
  apply Forall_cons_1 in Hwf as [Hl Hwf]. apply Forall_cons_1 in Hcomp as [Hc Hcomp].
  apply NoDup_cons in Hnd as [Hnin Hnd]. unfold complementable in Hc.
  destruct (complement_price l.(price)) as [q|]; simpl; [|done].
  pose proof (level_coordinate_wf l Hl) as Hcw.
  assert (Hget : map_get coordinate_cmp (coordinate l) seen = None).
  { apply (map_get_elem_fst coordinate_cmp coordinate_wf); [done|done|]. apply Hfresh. left. }
  assert (map_contains coordinate_cmp (coordinate l) seen = false) as ->
    by (by apply map_contains_false).
  specialize (IH (map_insert coordinate_cmp (coordinate l) () seen) Hwf).
  destruct (stage_delta _ rest); [done|]. apply IH; [by apply map_insert_ok; [apply _|..]|done|done|].
  intros l' Hl'. rewrite (map_insert_fresh coordinate_cmp _ _ _ Hget). simpl.
  apply not_elem_of_cons. split.
  - intros E. apply Hnin. apply list_elem_of_fmap. by exists l'.
  - apply Hfresh. by right.
Qed.

(** ** Economic equality *)

(** The depth at a coordinate: its quantity, when it is not zero. *)
Definition depth (ls : PhysicalLevels) (c : Side * Price) : option Quantity :=
  match map_get coordinate_cmp c ls with
  | Some q => if is_resting q then Some q else None
  | None => None
  end.

Lemma resting_ok ls : levels_ok ls -> levels_ok (resting ls).
Proof.
  induction ls as [|[c q] ls IH]; intros Hok; simpl; [done|].
  pose proof Hok as (Hc & Hrest & Hall)%map_ok_cons. destruct (is_resting q); [|auto].
  apply map_ok_cons. split_and!; [done|auto|]. rewrite Forall_forall in Hall.
  apply Forall_forall. intros e He. apply Hall. apply list_elem_of_In.
  apply list_elem_of_In in He. unfold resting in He. by apply filter_In in He as [? _].
Qed.

Lemma resting_get ls c : levels_ok ls -> coordinate_wf c ->
  map_get coordinate_cmp c (resting ls) = depth ls c.
Proof.
  intros Hok Hc. apply option_eq. intros q.
  rewrite (map_get_elem coordinate_cmp coordinate_wf) by (done || by apply resting_ok).
  unfold resting. rewrite list_elem_of_In, filter_In, <- list_elem_of_In.
  rewrite <- (map_get_elem coordinate_cmp coordinate_wf) by done. unfold depth. simpl.
  destruct (map_get coordinate_cmp c ls) as [q'|]; [|by split; [intros [? _]|]].
  destruct (is_resting q') eqn:E; split.
  - by intros [? _].
  - intros [= <-]. by split.
  - intros [[= ->] ?]. congruence.
  - done.
Qed.

(** Two maps are economically equal exactly when they hold the same depth everywhere. *)
Lemma economically_equal_spec left right : levels_ok left -> levels_ok right ->
  economically_equal left right = true <->
  forall c, coordinate_wf c -> depth left c = depth right c.
Proof.
  intros Hl Hr. unfold economically_equal. rewrite bool_decide_eq_true. split.
  - intros E c Hc. rewrite <- !resting_get by done. by rewrite E.
  - intros H. apply (map_ext coordinate_cmp coordinate_wf); [by apply resting_ok..|].
    intros c Hc. rewrite !resting_get by done. auto.
Qed.

(** ** The invariant *)

Definition continuity_wf (c : MutationContinuity) : Prop :=
  0 <= epoch_of c <= U64_MAX /\
  match c with Intact _ position => 0 <= position <= U64_MAX | Lost _ _ => True end.

Definition entry_wf (e : (Side * Price) * Quantity) : Prop :=
  quantity_wf e.2 /\ is_ok (complement_price e.1.2) = true.

(** What every reachable book satisfies: an ordered map of complementable levels, counters in
    range, provenance of this market once a base exists, nothing before it, and as many epochs
    as divergences at least. *)
Record book_wf (b : OrderBook) : Prop := {
  wf_levels : levels_ok b.(book_levels);
  wf_entries : Forall entry_wf b.(book_levels);
  wf_revision : 0 <= b.(revision) <= U64_MAX;
  wf_continuity : continuity_wf b.(continuity);
  wf_provenance :
    match b.(book_provenance) with
    | None => b.(book_levels) = [] /\ b.(delta_rail) = false
    | Some p => provenance_wf p /\ p.(market) = b.(book_market) /\
                1 <= p.(local_revision) <= b.(revision) /\
                p.(continuity_epoch) <= epoch_of b.(continuity)
    end;
  wf_counters : 0 <= b.(deltas_since_snapshot) <= U64_MAX /\ 0 <= b.(sync_divergences);
  wf_rail : b.(delta_rail) = false ->
            b.(deltas_since_snapshot) = 0 /\ b.(sync_divergences) = 0;
  wf_divergences : b.(sync_divergences) <= epoch_of b.(continuity)
}.

(** ** What an accepted snapshot did *)

Definition diverges (b : OrderBook) (next : PhysicalLevels) : bool :=
  b.(delta_rail) && is_intact b.(continuity) && negb (economically_equal b.(book_levels) next).

Definition recovers (b : OrderBook) (next : PhysicalLevels) : bool :=
  negb (is_intact b.(continuity)) || diverges b next.

(** Every coordinate of either map with its two values, in coordinate order. *)
Definition all_changes (previous next : PhysicalLevels) : list change :=
  (fun c => (c, map_get coordinate_cmp c previous, map_get coordinate_cmp c next))
    <$> dedup (sort_by coordinate_cmp (previous.*1 ++ next.*1)).

Definition snapshot_mutations (b : OrderBook) (source : Provenance) (next : PhysicalLevels)
    (epoch position : Z) : list MutationRecord :=
  if recovers b next || bool_decide (b.(book_provenance) = None) || b.(delta_rail) then []
  else record_changes (rebased source (b.(revision) + 1) epoch DerivedDiff) epoch position
         (changed (all_changes b.(book_levels) next)).

(** The book after an accepted snapshot. *)
Definition after_snapshot (b : OrderBook) (source : Provenance) (next : PhysicalLevels)
    (epoch position : Z) : OrderBook :=
  {| book_market := b.(book_market); book_levels := next; authority := Live;
     continuity := Intact epoch (position + len (snapshot_mutations b source next epoch position));
     revision := b.(revision) + 1;
     book_provenance := Some (rebased source (b.(revision) + 1) epoch LatestState);
     delta_rail := b.(delta_rail); deltas_since_snapshot := 0;
     sync_divergences := if diverges b next then b.(sync_divergences) + 1
                         else b.(sync_divergences) |}.

Definition snapshot_commit (b : OrderBook) (source : Provenance) (next : PhysicalLevels)
    (epoch position : Z) : BookCommit :=
  {| commit_revision := b.(revision) + 1; commit_epoch := epoch;
     recovery_base := recovers b next;
     divergence := if diverges b next
                   then Some {| deltas_invalidated := b.(deltas_since_snapshot) |} else None;
     mutations := snapshot_mutations b source next epoch position |}.

(** Where the stream stands after the base decision: its own epoch and position, or the next
    epoch from zero. *)
Definition stream_base (b : OrderBook) (next : PhysicalLevels) (epoch position : Z) : Prop :=
  if recovers b next
  then epoch = epoch_of b.(continuity) + 1 /\ position = 0 /\
       epoch_of b.(continuity) < U64_MAX
  else b.(continuity) = Intact epoch position.

Lemma lost_epoch c r : epoch_of (lost c r) = epoch_of c.
Proof. by destruct c. Qed.
Lemma lost_not_intact c r : is_intact (lost c r) = false.
Proof. by destruct c. Qed.

(** The continuity a snapshot commits under. *)
Lemma snapshot_continuity_Ok b next c :
  continuity_wf b.(continuity) ->
  let broken := match (if diverges b next then Some tt else None) with
                | Some _ => lost b.(continuity) SyncDivergence
                | None => b.(continuity)
                end in
  (if negb (is_intact broken) then map_err ContinuityError (recovered broken 0) else Ok broken)
    = Ok c <->
  exists epoch position, c = Intact epoch position /\ stream_base b next epoch position.
Proof.
  intros [He _]. unfold stream_base, recovers, diverges.
  destruct b.(continuity) as [epoch position|epoch reason] eqn:Ec; simpl in *;
    rewrite ?andb_true_r, ?andb_false_r, ?orb_false_r; simpl.
  - destruct (_ && _); simpl.
    + rewrite map_err_Ok, recovered_Ok by (simpl; lia). simpl. split.
      * intros (_ & -> & ?). eauto 8.
      * intros (? & ? & -> & -> & -> & ?). auto.
    + split; [intros [= <-]; eauto | by intros (? & ? & -> & [= <- <-])].
  - rewrite map_err_Ok, recovered_Ok by (simpl; lia). simpl. split.
    + intros (_ & -> & ?). eauto 8.
    + intros (? & ? & -> & -> & -> & ?). auto.
Qed.

Lemma stream_base_range b next epoch position : book_wf b -> stream_base b next epoch position ->
  0 <= epoch <= U64_MAX /\ 0 <= position <= U64_MAX /\ epoch_of b.(continuity) <= epoch /\
  (diverges b next = true -> epoch = epoch_of b.(continuity) + 1).
Proof.
  intros Hb. unfold stream_base, recovers. destruct (wf_continuity b Hb) as [He Hp].
  destruct (_ || _) eqn:E.
  - intros (-> & -> & ?). split_and!; lia.
  - intros H. apply orb_false_iff in E as [_ E]. rewrite H in He, Hp. rewrite H, E.
    simpl in *. split_and!; lia || done.
Qed.

Lemma snapshot_recovers b next :
  negb (is_intact match (if diverges b next
                         then Some {| deltas_invalidated := b.(deltas_since_snapshot) |}
                         else None) with
                  | Some _ => lost b.(continuity) SyncDivergence
                  | None => b.(continuity)
                  end) = recovers b next.
Proof.
  unfold recovers. destruct (diverges b next).
  - by rewrite lost_not_intact, orb_true_r.
  - by rewrite orb_false_r.
Qed.

Lemma numbered_Ok p e first ms l r : 0 <= first -> numbered p e first ms l = Ok r ->
  r = ms ++ record_changes p e (first + len ms) l.
Proof. intros Hf. unfold numbered. destruct (_ || _); [by intros [= <-]|done]. Qed.

Lemma derive_mutations_eq previous next source r e first :
  provenance_wf source -> 0 <= first ->
  derive_mutations previous next source r e first =
  numbered (rebased source r e DerivedDiff) e first [] (changed (all_changes previous next)).
Proof. intros. unfold derive_mutations. by rewrite derive_loop_numbered. Qed.

Lemma apply_snapshot_Ok b c commit b' : book_wf b -> candidate_wf c ->
  apply_snapshot c b = (Ok commit, b') ->
  let source := c.(candidate_provenance) in
  exists ls next epoch position,
    c.(operation) = Snapshot ls /\ source.(market) = b.(book_market) /\
    snapshot_levels [] ls.(levels) = Ok next /\ stream_base b next epoch position /\
    position + len (snapshot_mutations b source next epoch position) <= U64_MAX /\
    b.(revision) < U64_MAX /\
    commit = snapshot_commit b source next epoch position /\
    b' = after_snapshot b source next epoch position.
Proof.
  intros Hb Hc H source. unfold apply_snapshot in H. fold source in H.
  prog_step H as self Hs. prog_step H as u Hmkt. bool_facts. simpl in Hmkt.
  destruct c.(operation) as [ls|ls] eqn:Eop; [|done].
  prog_step H as next Hnext. prog_step H as revision' Hrev.
  apply ok_or_Ok, checked_add_u64_Some in Hrev as [<- Hr].
  fold (diverges b next) in H.
  prog_step H as sd Hsd. prog_step H as cont' Hcont'.
  assert (Hcont : exists epoch position, cont' = Intact epoch position /\
                    stream_base b next epoch position).
  { apply snapshot_continuity_Ok; [apply wf_continuity, Hb|]. by destruct (diverges b next). }
  destruct Hcont as (epoch & position & -> & Hbase).
  pose proof (stream_base_range b next epoch position Hb Hbase) as (_ & Hpos & _ & _).
  rewrite snapshot_recovers in H. cbn beta iota in H.
  prog_step H as ms Hms. prog_step H as emitted Hem.
  apply ok_or_Ok, checked_Some in Hem as [<- Hlen].
  prog_step H as prov Hprov. apply map_err_Ok in Hprov.
  destruct (rebase_provenance_eq source (b.(revision) + 1) epoch LatestState
              (wf_candidate_provenance c Hc)) as [Hreb _].
  rewrite Hreb in Hprov. injection Hprov as <-.
  prog_step H as adv Hadv. prog_step H as u1 Hu1. prog_step H as u2 Hu2. injection H as <- <-.
  assert (ms = snapshot_mutations b source next epoch position) as ->.
  { unfold snapshot_mutations. destruct (_ || b.(delta_rail)) eqn:Ed; [by injection Hms|].
    rewrite derive_mutations_eq in Hms; [|apply (wf_candidate_provenance c Hc)|lia].
    apply numbered_Ok in Hms; [|lia]. by rewrite len_nil, Z.add_0_r in Hms. }
  apply map_err_Ok, advanced_Ok in Hadv as (? & ? & [= <- <-] & -> & Hp).
  exists ls, next, epoch, position. split_and!; try done; try lia.
  - unfold after_snapshot. f_equal.
    destruct (diverges b next); [|by injection Hsd]. by apply ok_or_Ok, checked_add_u64_Some in Hsd as [<- _].
Qed.

Lemma numbered_accepts p e first l : 0 <= first ->
  first + len l <= U64_MAX -> numbered p e first [] l = Ok (record_changes p e first l).
Proof.
  intros Hf Hl. unfold numbered. rewrite len_nil, Z.add_0_r.
  assert ((first + len l - 1 <=? U64_MAX) = true) as -> by lia. by rewrite orb_true_r.
Qed.

Lemma checked_ok_or {E} lo hi x (e : E) : lo <= x <= hi -> ok_or (checked lo hi x) e = Ok x.
Proof. intros. by rewrite checked_in. Qed.

(** The converse: these conditions are enough. *)
Lemma apply_snapshot_accepts b c ls next epoch position : book_wf b -> candidate_wf c ->
  let source := c.(candidate_provenance) in
  c.(operation) = Snapshot ls -> source.(market) = b.(book_market) ->
  snapshot_levels [] ls.(levels) = Ok next -> stream_base b next epoch position ->
  position + len (snapshot_mutations b source next epoch position) <= U64_MAX ->
  b.(revision) < U64_MAX ->
  apply_snapshot c b = (Ok (snapshot_commit b source next epoch position),
                        after_snapshot b source next epoch position).
Proof.
  intros Hb Hc source Eop Hm Hnext Hbase Hms Hr.
  destruct (stream_base_range b next epoch position Hb Hbase) as (_ & Hpos & He & Hd).
  pose proof (wf_revision b Hb). destruct (wf_counters b Hb) as [_ Hsd].
  pose proof (wf_divergences b Hb). destruct (wf_continuity b Hb) as [Hce _].
  unfold apply_snapshot, bind, gets, lift. cbn beta iota. fold source.
  rewrite bool_decide_true by done. cbn [deny negb ret id]. rewrite Eop, Hnext.
  unfold checked_add_u64 at 1. rewrite checked_ok_or by lia. fold (diverges b next).
  assert (Hsync : match (if diverges b next
                         then Some {| deltas_invalidated := b.(deltas_since_snapshot) |} else None) with
                  | Some _ => ok_or (checked_add_u64 b.(sync_divergences) 1) CounterOverflow
                  | None => Ok b.(sync_divergences)
                  end = Ok (if diverges b next then b.(sync_divergences) + 1
                            else b.(sync_divergences))).
  { destruct (diverges b next) eqn:Ed; [|done]. apply checked_ok_or.
    assert (epoch_of b.(continuity) < U64_MAX); [|lia].
    unfold stream_base, recovers in Hbase. rewrite Ed, orb_true_r in Hbase. tauto. }
  rewrite Hsync, snapshot_recovers. cbn beta iota.
  assert (Hcont : (if recovers b next
     then map_err ContinuityError
            (recovered match (if diverges b next
                         then Some {| deltas_invalidated := b.(deltas_since_snapshot) |} else None) with
                       | Some _ => lost b.(continuity) SyncDivergence
                       | None => b.(continuity) end 0)
     else Ok match (if diverges b next
                         then Some {| deltas_invalidated := b.(deltas_since_snapshot) |} else None) with
                       | Some _ => lost b.(continuity) SyncDivergence
                       | None => b.(continuity) end) = Ok (Intact epoch position)).
  { rewrite <- snapshot_recovers.
    pose proof (proj2 (snapshot_continuity_Ok b next (Intact epoch position) (wf_continuity b Hb))
      (ex_intro _ epoch (ex_intro _ position (conj eq_refl Hbase)))) as Hx.
    by destruct (diverges b next). }
  rewrite Hcont. cbn beta iota.
  assert (Hmuts : (if recovers b next || bool_decide (b.(book_provenance) = None) || b.(delta_rail)
                   then Ok []
                   else derive_mutations b.(book_levels) next source (b.(revision) + 1) epoch position)
                  = Ok (snapshot_mutations b source next epoch position)).
  { unfold snapshot_mutations in *. destruct (_ || b.(delta_rail)); [done|].
    rewrite derive_mutations_eq; [|apply (wf_candidate_provenance c Hc)|lia].
    apply numbered_accepts; [lia|]. by rewrite record_changes_len in Hms. }
  rewrite Hmuts. cbn beta iota.
  pose proof (len_nonneg (snapshot_mutations b source next epoch position)).
  rewrite checked_ok_or by lia.
  destruct (rebase_provenance_eq source (b.(revision) + 1) epoch LatestState
              (wf_candidate_provenance c Hc)) as [-> _]. cbn [map_err].
  rewrite (proj2 (advanced_Ok (Intact epoch position) _ _))
    by (exists epoch, position; split_and!; done || lia).
  cbn. unfold after_snapshot, set_continuity, snapshot_commit. done.
Qed.

(** ** What an accepted delta did *)

Definition staged_of (ls : list Level) : list ((Side * Price) * option Quantity) :=
  (fun l => (coordinate l, staged_value l)) <$> ls.

Definition delta_changes (held : PhysicalLevels) (ls : list Level) : list change :=
  (fun l => (coordinate l, map_get coordinate_cmp (coordinate l) held, staged_value l)) <$> ls.

Definition delta_mutations (b : OrderBook) (source : Provenance) (ls : list Level)
    (epoch position : Z) : list MutationRecord :=
  record_changes (rebased source (b.(revision) + 1) epoch SourceReportedDiff) epoch position
    (changed (delta_changes b.(book_levels) ls)).

Definition after_delta (b : OrderBook) (source : Provenance) (ls : list Level)
    (epoch position : Z) : OrderBook :=
  {| book_market := b.(book_market);
     book_levels := write_levels b.(book_levels) (staged_of ls); authority := Live;
     continuity := Intact epoch (position + len (delta_mutations b source ls epoch position));
     revision := b.(revision) + 1;
     book_provenance := Some (rebased source (b.(revision) + 1) epoch LatestState);
     delta_rail := true; deltas_since_snapshot := b.(deltas_since_snapshot) + 1;
     sync_divergences := b.(sync_divergences) |}.

Definition delta_commit (b : OrderBook) (source : Provenance) (ls : list Level)
    (epoch position : Z) : BookCommit :=
  {| commit_revision := b.(revision) + 1; commit_epoch := epoch; recovery_base := false;
     divergence := None; mutations := delta_mutations b source ls epoch position |}.

Lemma delta_changes_staged held ls :
  delta_changes held ls =
  (fun s => (s.1, map_get coordinate_cmp s.1 held, s.2)) <$> staged_of ls.
Proof. unfold delta_changes, staged_of. by rewrite <- list_fmap_compose. Qed.

Lemma apply_source_delta_Ok b c commit b' : book_wf b -> candidate_wf c ->
  apply_source_delta c b = (Ok commit, b') ->
  let source := c.(candidate_provenance) in
  exists ls epoch position,
    c.(operation) = SourceDelta ls /\ source.(market) = b.(book_market) /\
    ls.(levels) <> [] /\ b.(book_provenance) <> None /\
    Forall complementable ls.(levels) /\ NoDup (coordinate <$> ls.(levels)) /\
    b.(continuity) = Intact epoch position /\
    position + len (delta_mutations b source ls.(levels) epoch position) <= U64_MAX /\
    b.(revision) < U64_MAX /\ b.(deltas_since_snapshot) < U64_MAX /\
    commit = delta_commit b source ls.(levels) epoch position /\
    b' = after_delta b source ls.(levels) epoch position.
Proof.
  intros Hb Hc H source. unfold apply_source_delta in H. fold source in H.
  prog_step H as self Hs. prog_step H as u Hmkt. bool_facts. simpl in Hmkt.
  destruct c.(operation) as [ls|ls] eqn:Eop; [done|].
  pose proof (wf_candidate_levels c Hc) as Hlwf. rewrite Eop in Hlwf. simpl in Hlwf.
  pose proof (wf_candidate_label c Hc) as Hlab. rewrite Eop in Hlab. destruct Hlab as [_ Hlab].
  destruct (wf_continuity b Hb) as [_ Hpos].
  prog_step H as u0 Hne. prog_step H as u1 Hbase. bool_facts. simpl in Hbase, H.
  destruct b.(continuity) as [epoch position|] eqn:Ec; [|done].
  prog_step H as staged Hst. prog_step H as revision' Hrev.
  apply ok_or_Ok, checked_add_u64_Some in Hrev as [<- Hr].
  apply stage_delta_Ok in Hst as (-> & Hcomp & Hnd & _); [|done|apply map_ok_nil].
  fold (staged_of ls.(levels)) in H.
  prog_step H as ms Hms. prog_step H as emitted Hem.
  apply ok_or_Ok, checked_Some in Hem as [<- Hlen].
  prog_step H as deltas Hdel. apply ok_or_Ok, checked_add_u64_Some in Hdel as [<- Hd].
  prog_step H as prov Hprov. apply map_err_Ok in Hprov.
  destruct (rebase_provenance_eq source (b.(revision) + 1) epoch LatestState
              (wf_candidate_provenance c Hc)) as [Hreb _].
  rewrite Hreb in Hprov. injection Hprov as <-.
  prog_step H as adv Hadv. prog_step H as u2 Hu2. injection H as <- <-.
  fold (staged_of ls.(levels)) in Hms.
  rewrite report_loop_numbered in Hms; [|apply (wf_candidate_provenance c Hc)|done|lia].
  rewrite <- delta_changes_staged in Hms. apply numbered_Ok in Hms; [|lia].
  rewrite len_nil, Z.add_0_r in Hms. simpl in Hms. subst ms.
  apply map_err_Ok, advanced_Ok in Hadv as (? & ? & [= <- <-] & -> & Hp).
  exists ls, epoch, position. split_and!; try done; unfold delta_mutations; lia.
Qed.

Lemma apply_source_delta_accepts b c ls epoch position : book_wf b -> candidate_wf c ->
  let source := c.(candidate_provenance) in
  c.(operation) = SourceDelta ls -> source.(market) = b.(book_market) ->
  ls.(levels) <> [] -> b.(book_provenance) <> None ->
  Forall complementable ls.(levels) -> NoDup (coordinate <$> ls.(levels)) ->
  b.(continuity) = Intact epoch position ->
  position + len (delta_mutations b source ls.(levels) epoch position) <= U64_MAX ->
  b.(revision) < U64_MAX -> b.(deltas_since_snapshot) < U64_MAX ->
  apply_source_delta c b = (Ok (delta_commit b source ls.(levels) epoch position),
                            after_delta b source ls.(levels) epoch position).
Proof.
  intros Hb Hc source Eop Hm Hne Hbase Hcomp Hnd Ec Hms Hr Hd.
  pose proof (wf_revision b Hb). destruct (wf_counters b Hb) as [Hd0 _].
  destruct (wf_continuity b Hb) as [_ Hpos]. rewrite Ec in Hpos.
  pose proof (wf_candidate_levels c Hc) as Hlwf. rewrite Eop in Hlwf. simpl in Hlwf.
  pose proof (wf_candidate_label c Hc) as Hlab. rewrite Eop in Hlab. destruct Hlab as [_ Hlab].
  unfold apply_source_delta, bind, gets, lift. cbn beta iota. fold source.
  rewrite bool_decide_true by done. cbn [deny negb ret id]. rewrite Eop.
  rewrite (bool_decide_false (ls.(levels) = [])) by done. cbn [deny ret].
  rewrite (bool_decide_false (b.(book_provenance) = None)) by done. cbn [deny ret].
  rewrite Ec.
  destruct (stage_delta [] ls.(levels)) as [staged|] eqn:Est.
  2: { pose proof (stage_delta_accepts ls.(levels) [] Hlwf (map_ok_nil _ _) Hcomp Hnd) as Hx.
       rewrite Est in Hx. exfalso. cut (false = true); [done|]. apply Hx.
       intros l _. apply not_elem_of_nil. }
  apply stage_delta_Ok in Est as (-> & _); [|done|apply map_ok_nil].
  fold (staged_of ls.(levels)). unfold checked_add_u64 at 1. rewrite checked_ok_or by lia.
  rewrite report_loop_numbered; [|apply (wf_candidate_provenance c Hc)|done|lia].
  rewrite <- delta_changes_staged. unfold delta_mutations in *. rewrite record_changes_len in Hms.
  rewrite numbered_accepts by lia. fold (delta_mutations b source ls.(levels) epoch position).
  pose proof (len_nonneg (changed (delta_changes b.(book_levels) ls.(levels)))).
  assert (Hlen : len (delta_mutations b source ls.(levels) epoch position)
                 = len (changed (delta_changes b.(book_levels) ls.(levels))))
    by apply record_changes_len.
  rewrite checked_ok_or by lia. unfold checked_add_u64 at 1. rewrite checked_ok_or by lia.
  destruct (rebase_provenance_eq source (b.(revision) + 1) epoch LatestState
              (wf_candidate_provenance c Hc)) as [-> _]. cbn [map_err].
  rewrite (proj2 (advanced_Ok (Intact epoch position) _ _))
    by (exists epoch, position; split_and!; done || lia).
  done.
Qed.

(** ** Failure changes nothing *)

Lemma apply_snapshot_atomic c : atomic (apply_snapshot c).
Proof. unfold apply_snapshot. solve_atomic. Qed.
Lemma apply_source_delta_atomic c : atomic (apply_source_delta c).
Proof. unfold apply_source_delta. solve_atomic. Qed.
Lemma unsubscribe_atomic : atomic unsubscribe.
Proof. unfold unsubscribe. solve_atomic. Qed.
Lemma report_continuity_loss_atomic r w : atomic (report_continuity_loss r w).
Proof. unfold report_continuity_loss. solve_atomic. Qed.
Lemma note_stream_event_atomic : atomic note_stream_event.
Proof. unfold note_stream_event. solve_atomic. Qed.

(** ** The remaining operations *)

Lemma unsubscribe_Ok b changed b' : book_wf b -> unsubscribe b = (Ok changed, b') ->
  if changed
  then b.(authority) <> Unsubscribed /\ b.(revision) < U64_MAX /\
       b' = set_authority Unsubscribed b.(continuity) (b.(revision) + 1) b
  else b.(authority) = Unsubscribed /\ b' = b.
Proof.
  intros Hb H. unfold unsubscribe in H. prog_step H as self Hs. simpl in H.
  case_bool_decide as E; [by injection H as <- <-|].
  prog_step H as r Hr. apply ok_or_Ok, checked_add_u64_Some in Hr as [<- Hr].
  prog_step H as u Hu. injection H as <- <-. split_and!; [done|lia|done].
Qed.

Lemma report_continuity_loss_Ok b r w changed b' : book_wf b ->
  report_continuity_loss r w b = (Ok changed, b') ->
  if changed
  then b.(revision) < U64_MAX /\
       b' = set_authority (Stale w) (lost b.(continuity) r) (b.(revision) + 1) b
  else lost b.(continuity) r = b.(continuity) /\ b.(authority) = Stale w /\ b' = b.
Proof.
  intros Hb H. unfold report_continuity_loss in H. prog_step H as self Hs.
  destruct (_ && _) eqn:E; simpl in E; bool_facts.
  - injection H as <- <-. auto.
  - prog_step H as r' Hr. apply ok_or_Ok, checked_add_u64_Some in Hr as [<- Hr].
    prog_step H as u Hu. injection H as <- <-. split; [lia|done].
Qed.

Lemma note_stream_event_Ok b cur b' : book_wf b -> note_stream_event b = (Ok cur, b') ->
  exists epoch position, b.(continuity) = Intact epoch position /\ position < U64_MAX /\
    cur = {| cursor_epoch := epoch; cursor_position := position |} /\
    b' = set_continuity (Intact epoch (position + 1)) b.
Proof.
  intros Hb H. unfold note_stream_event in H. prog_step H as self Hs. simpl in H.
  destruct b.(continuity) as [epoch position|] eqn:Ec; [|done].
  prog_step H as c' Hc. apply map_err_Ok, advanced_Ok in Hc as (? & ? & [= <- <-] & -> & Hp).
  prog_step H as u Hu. injection H as <- <-. exists epoch, position. split_and!; done || lia.
Qed.

(** ** Levels of an accepted candidate *)

Lemma snapshot_entries ls next : Forall level_wf ls -> snapshot_levels [] ls = Ok next ->
  levels_ok next /\ next ≡ₚ entry <$> ls /\ Forall entry_wf next.
Proof.
  intros Hwf E. apply snapshot_levels_Ok in E as (Hok & Hp & Hcomp); [|done|apply map_ok_nil].
  rewrite app_nil_r in Hp. split_and!; [done|done|]. rewrite Hp. apply Forall_fmap.
  rewrite Forall_forall in Hwf. rewrite Forall_forall in Hcomp.
  apply Forall_forall. intros l Hl. split; [apply Hwf, Hl|apply Hcomp, Hl].
Qed.

Lemma staged_keys ls : (staged_of ls).*1 = coordinate <$> ls.
Proof. unfold staged_of. rewrite <- list_fmap_compose. by apply list_fmap_ext. Qed.

Lemma staged_wf ls : Forall level_wf ls ->
  Forall (fun e => coordinate_wf e.1) (staged_of ls).
Proof.
  intros H. apply Forall_fmap. eapply Forall_impl; [exact H|].
  intros l Hl. by apply level_coordinate_wf.
Qed.

(** The level map after a delta, coordinate by coordinate. *)
Lemma delta_levels b ls : levels_ok b.(book_levels) -> Forall level_wf ls ->
  NoDup (coordinate <$> ls) ->
  let after := write_levels b.(book_levels) (staged_of ls) in
  levels_ok after /\
  (forall l, l ∈ ls -> map_get coordinate_cmp (coordinate l) after = staged_value l) /\
  (forall c, coordinate_wf c -> c ∉ coordinate <$> ls ->
     map_get coordinate_cmp c after = map_get coordinate_cmp c b.(book_levels)).
Proof.
  intros Hok Hwf Hnd after. pose proof (staged_wf ls Hwf) as Hst.
  split; [by apply write_levels_ok|]. split.
  - intros l Hl. rewrite Forall_forall in Hwf.
    apply (write_levels_get b.(book_levels) (staged_of ls) (coordinate l)); auto.
    + by rewrite staged_keys.
    + apply level_coordinate_wf, Hwf, Hl.
    + apply list_elem_of_fmap. by exists l.
  - intros c Hc Hnin. apply (write_levels_get b.(book_levels) (staged_of ls) c); auto.
    + by rewrite staged_keys.
    + by rewrite staged_keys.
Qed.

Lemma delta_entries b ls : book_wf b -> Forall level_wf ls -> Forall complementable ls ->
  NoDup (coordinate <$> ls) ->
  Forall entry_wf (write_levels b.(book_levels) (staged_of ls)).
Proof.
  intros Hb Hwf Hcomp Hnd.
  destruct (delta_levels b ls (wf_levels b Hb) Hwf Hnd) as (Hok & Hin & Hout).
  apply Forall_forall. intros [c q] He.
  pose proof (map_get_Some_wf coordinate_cmp coordinate_wf c q _ He Hok) as Hc.
  apply (map_get_elem coordinate_cmp coordinate_wf) in He; [|done|done].
  destruct (decide (c ∈ coordinate <$> ls)) as [Hd|Hd].
  - apply list_elem_of_fmap in Hd as (l & -> & Hl). rewrite Hin in He by done.
    rewrite Forall_forall in Hwf. rewrite Forall_forall in Hcomp.
    unfold staged_value in He. destruct (_ =? 0); [done|]. injection He as <-.
    split; [apply Hwf, Hl|apply Hcomp, Hl].
  - rewrite Hout in He by done. apply (map_get_elem coordinate_cmp coordinate_wf) in He;
      [|done|apply wf_levels, Hb].
    pose proof (wf_entries b Hb) as Hent. rewrite Forall_forall in Hent. by apply Hent.
Qed.

(** ** Preservation *)

Lemma book_new_wf m : book_wf (book_new m).
Proof. split; simpl; try (bounds; lia); try done; constructor; simpl; try constructor; bounds; lia. Qed.

Lemma rebased_wf source r e kind : provenance_wf source -> provenance_wf (rebased source r e kind).
Proof. intros H. by apply rebase_provenance_eq. Qed.

Lemma after_snapshot_wf b c ls next epoch position : book_wf b -> candidate_wf c ->
  let source := c.(candidate_provenance) in
  c.(operation) = Snapshot ls -> source.(market) = b.(book_market) ->
  snapshot_levels [] ls.(levels) = Ok next -> stream_base b next epoch position ->
  position + len (snapshot_mutations b source next epoch position) <= U64_MAX ->
  b.(revision) < U64_MAX -> book_wf (after_snapshot b source next epoch position).
Proof.
  intros Hb Hc source Eop Hm Hnext Hbase Hms Hr.
  pose proof (wf_candidate_levels c Hc) as Hlwf. rewrite Eop in Hlwf. simpl in Hlwf.
  destruct (snapshot_entries ls.(levels) next Hlwf Hnext) as (Hok & _ & Hent).
  destruct (stream_base_range b next epoch position Hb Hbase) as (He & Hpos & Hle & Hdiv).
  pose proof (wf_revision b Hb). destruct (wf_counters b Hb).
  pose proof (wf_divergences b Hb). pose proof (wf_rail b Hb) as Hrail.
  pose proof (len_nonneg (snapshot_mutations b source next epoch position)).
  split; simpl; try done; try lia.
  - split; simpl; lia.
  - split_and!; [apply rebased_wf, (wf_candidate_provenance c Hc)|done|lia|lia|lia].
  - split; [bounds; lia|destruct (diverges b next); lia].
  - intros Hd. split; [done|]. unfold diverges. rewrite Hd. simpl. by apply Hrail.
  - destruct (diverges b next); [specialize (Hdiv eq_refl)|]; lia.
Qed.

Lemma after_delta_wf b c ls epoch position : book_wf b -> candidate_wf c ->
  let source := c.(candidate_provenance) in
  c.(operation) = SourceDelta ls -> source.(market) = b.(book_market) ->
  b.(book_provenance) <> None ->
  Forall complementable ls.(levels) -> NoDup (coordinate <$> ls.(levels)) ->
  b.(continuity) = Intact epoch position ->
  position + len (delta_mutations b source ls.(levels) epoch position) <= U64_MAX ->
  b.(revision) < U64_MAX -> b.(deltas_since_snapshot) < U64_MAX ->
  book_wf (after_delta b source ls.(levels) epoch position).
Proof.
  intros Hb Hc source Eop Hm Hbase Hcomp Hnd Ec Hms Hr Hd.
  pose proof (wf_candidate_levels c Hc) as Hlwf. rewrite Eop in Hlwf. simpl in Hlwf.
  destruct (wf_continuity b Hb) as [He Hp]. rewrite Ec in He, Hp. simpl in He.
  pose proof (wf_divergences b Hb) as Hdv. rewrite Ec in Hdv. simpl in Hdv.
  pose proof (wf_revision b Hb). destruct (wf_counters b Hb).
  pose proof (len_nonneg (delta_mutations b source ls.(levels) epoch position)).
  split; simpl; try done; try lia.
  - by apply (delta_levels b ls.(levels) (wf_levels b Hb)).
  - by apply delta_entries.
  - split; simpl; lia.
  - split_and!; [apply rebased_wf, (wf_candidate_provenance c Hc)|done|lia|lia|lia].
Qed.

(** ** Steps of a book

    Every call of a mutating method, refused or not, with the stream positions it handed
    out. *)
Definition commit_cursors (r : result BookCommit BookError) : list MutationCursor :=
  match r with Ok commit => cursor <$> commit.(mutations) | Err _ => [] end.
Definition event_cursors (r : result MutationCursor BookError) : list MutationCursor :=
  match r with Ok c => [c] | Err _ => [] end.

Inductive book_step : OrderBook -> list MutationCursor -> OrderBook -> Prop :=
| step_snapshot c b r b' : candidate_wf c -> apply_snapshot c b = (r, b') ->
    book_step b (commit_cursors r) b'
| step_delta c b r b' : candidate_wf c -> apply_source_delta c b = (r, b') ->
    book_step b (commit_cursors r) b'
| step_unsubscribe b r b' : unsubscribe b = (r, b') -> book_step b [] b'
| step_loss reason why b r b' : report_continuity_loss reason why b = (r, b') ->
    book_step b [] b'
| step_event b r b' : note_stream_event b = (r, b') -> book_step b (event_cursors r) b'.

Inductive book_run : OrderBook -> list MutationCursor -> OrderBook -> Prop :=
| run_nil b : book_run b [] b
| run_cons b cs b' cs' b'' : book_step b cs b' -> book_run b' cs' b'' ->
    book_run b (cs ++ cs') b''.

Lemma set_authority_wf a c b : book_wf b -> continuity_wf c ->
  epoch_of c = epoch_of b.(continuity) -> b.(revision) < U64_MAX ->
  book_wf (set_authority a c (b.(revision) + 1) b).
Proof.
  intros [Hl He Hr Hc Hp Hn Hrail Hd] Hc' Hep Hlt. split; simpl; try done; try lia.
  destruct b.(book_provenance) as [p|]; [|done]. rewrite Hep.
  destruct Hp as (? & ? & ? & ?). split_and!; auto; lia.
Qed.

Lemma lost_wf c r : continuity_wf c -> continuity_wf (lost c r).
Proof. destruct c; intros [? ?]; by split. Qed.

Lemma book_step_wf b cs b' : book_wf b -> book_step b cs b' -> book_wf b'.
Proof.
  intros Hb Hstep. destruct Hstep as [c b r b' Hc H|c b r b' Hc H|b r b' H|reason why b r b' H|b r b' H];
    destruct r as [a|e].
  - apply apply_snapshot_Ok in H as (ls & next & ep & po & H1 & H2 & H3 & H4 & H5 & H6 & _ & ->); [|done..].
    by eapply after_snapshot_wf.
  - by apply apply_snapshot_atomic in H as ->.
  - apply apply_source_delta_Ok in H
      as (ls & ep & po & H1 & H2 & H3 & H4 & H5 & H6 & H7 & H8 & H9 & H10 & _ & ->); [|done..].
    by eapply after_delta_wf.
  - by apply apply_source_delta_atomic in H as ->.
  - apply unsubscribe_Ok in H; [|done]. destruct a; [|by destruct H as [_ ->]].
    destruct H as (_ & ? & ->). apply set_authority_wf; auto. apply Hb.
  - by apply unsubscribe_atomic in H as ->.
  - apply report_continuity_loss_Ok in H; [|done]. destruct a; [|by destruct H as (_ & _ & ->)].
    destruct H as (? & ->). apply set_authority_wf; auto; [|by rewrite lost_epoch].
    apply lost_wf, Hb.
  - by apply report_continuity_loss_atomic in H as ->.
  - apply note_stream_event_Ok in H as (ep & po & Ec & Hlt & _ & ->); [|done].
    destruct (wf_continuity b Hb) as [He Hp]. rewrite Ec in He, Hp.
    destruct Hb as [Hl Hen Hr Hc Hpv Hn Hrail Hd]. rewrite Ec in *. split; simpl; try done.
    split; simpl in *; lia.
  - by apply note_stream_event_atomic in H as ->.
Qed.

Lemma book_run_wf b cs b' : book_wf b -> book_run b cs b' -> book_wf b'.
Proof. intros Hb H. induction H; eauto using book_step_wf. Qed.

(** ** Stream positions *)

(** Cursors in delivery order: epoch, then position. *)
Definition cursor_lt (x y : MutationCursor) : Prop :=
  x.(cursor_epoch) < y.(cursor_epoch) \/
  x.(cursor_epoch) = y.(cursor_epoch) /\ x.(cursor_position) < y.(cursor_position).
Definition cursor_le (x y : MutationCursor) : Prop := cursor_lt x y \/ x = y.

(** The first position the stream can still hand out: its next one, or the start of the next
    epoch once it is lost. *)
Definition stream_next (c : MutationContinuity) : MutationCursor :=
  match c with
  | Intact epoch position => {| cursor_epoch := epoch; cursor_position := position |}
  | Lost epoch _ => {| cursor_epoch := epoch + 1; cursor_position := 0 |}
  end.

Lemma cursor_le_lt_trans x y z : cursor_le x y -> cursor_lt y z -> cursor_lt x z.
Proof. unfold cursor_le, cursor_lt. intros [H|<-]; lia. Qed.
Lemma cursor_lt_le_trans x y z : cursor_lt x y -> cursor_le y z -> cursor_lt x z.
Proof. unfold cursor_le, cursor_lt. intros H [H'|<-]; lia. Qed.
Lemma cursor_le_trans x y z : cursor_le x y -> cursor_le y z -> cursor_le x z.
Proof. intros [H|<-] H'; [left; by eapply cursor_lt_le_trans|done]. Qed.

(** The positions handed out lie between where the stream stood and where it stands, in
    strictly increasing order. *)
Definition cursors_between (lo : MutationCursor) (cs : list MutationCursor)
    (hi : MutationCursor) : Prop :=
  StronglySorted cursor_lt cs /\ Forall (cursor_le lo) cs /\
  Forall (fun c => cursor_lt c hi) cs /\ cursor_le lo hi.

Lemma record_changes_between p e n l :
  cursors_between {| cursor_epoch := e; cursor_position := n |}
    (cursor <$> record_changes p e n l)
    {| cursor_epoch := e; cursor_position := n + len l |}.
Proof.
  revert n. induction l as [|[[c b] a] l IH]; intros n; simpl.
  - rewrite len_nil, Z.add_0_r. split_and!; [constructor|constructor|constructor|by right].
  - destruct (IH (n + 1)) as (Hs & Hlo & Hhi & Hle).
    assert (H1 : cursor_lt {| cursor_epoch := e; cursor_position := n |}
                           {| cursor_epoch := e; cursor_position := n + 1 |})
      by (right; simpl; lia).
    assert (Hn : n + 1 + len l = n + len ((c, b, a) :: l)) by (rewrite len_cons; lia).
    rewrite Hn in *. split_and!.
    + constructor; [done|]. eapply Forall_impl; [exact Hlo|].
      intros x Hx. eapply cursor_lt_le_trans; [exact H1|exact Hx].
    + constructor; [by right|]. eapply Forall_impl; [exact Hlo|].
      intros x Hx. left. eapply cursor_lt_le_trans; [exact H1|exact Hx].
    + constructor; [|exact Hhi]. eapply cursor_lt_le_trans; [exact H1|exact Hle].
    + left. eapply cursor_lt_le_trans; [exact H1|exact Hle].
Qed.

Lemma cursors_between_nil lo hi : cursor_le lo hi -> cursors_between lo [] hi.
Proof. intros H. split_and!; [constructor|constructor|constructor|exact H]. Qed.

Lemma cursors_between_weaken lo lo' cs hi : cursor_le lo lo' ->
  cursors_between lo' cs hi -> cursors_between lo cs hi.
Proof.
  intros H (Hs & Hlo & Hhi & Hle). split_and!; [done| |done|by eapply cursor_le_trans].
  eapply Forall_impl; [exact Hlo|]. intros x Hx. by eapply cursor_le_trans.
Qed.

Lemma cursors_between_app lo cs mid cs' hi :
  cursors_between lo cs mid -> cursors_between mid cs' hi -> cursors_between lo (cs ++ cs') hi.
Proof.
  intros (Hs & Hlo & Hhi & Hle) (Hs' & Hlo' & Hhi' & Hle'). split_and!.
  - clear Hlo. induction Hs as [|x cs Hs IH Hx]; simpl; [done|].
    apply Forall_cons_1 in Hhi as [Hxm Hhi]. constructor; [auto|].
    apply Forall_app. split; [done|]. eapply Forall_impl; [exact Hlo'|].
    intros y Hy. by eapply cursor_lt_le_trans.
  - apply Forall_app. split; [done|]. eapply Forall_impl; [exact Hlo'|].
    intros y Hy. by eapply cursor_le_trans.
  - apply Forall_app. split; [|done]. eapply Forall_impl; [exact Hhi|].
    intros y Hy. eapply cursor_lt_le_trans; [exact Hy|exact Hle'].
  - by eapply cursor_le_trans.
Qed.

Lemma snapshot_mutations_between b source next epoch position :
  cursors_between {| cursor_epoch := epoch; cursor_position := position |}
    (cursor <$> snapshot_mutations b source next epoch position)
    {| cursor_epoch := epoch;
       cursor_position := position + len (snapshot_mutations b source next epoch position) |}.
Proof.
  unfold snapshot_mutations. destruct (_ || _).
  - rewrite len_nil, Z.add_0_r. apply cursors_between_nil. by right.
  - rewrite record_changes_len. apply record_changes_between.
Qed.

Lemma stream_base_le b next epoch position : stream_base b next epoch position ->
  cursor_le (stream_next b.(continuity)) {| cursor_epoch := epoch; cursor_position := position |}.
Proof.
  unfold stream_base. destruct (recovers b next); [|intros ->; by right].
  intros (-> & -> & _). destruct b.(continuity); simpl; [left; left; simpl; lia|by right].
Qed.

Lemma lost_stream_next c r : cursor_le (stream_next c) (stream_next (lost c r)).
Proof. destruct c; simpl; [left; left; simpl; lia|by right]. Qed.

Lemma book_step_cursors b cs b' : book_wf b -> book_step b cs b' ->
  cursors_between (stream_next b.(continuity)) cs (stream_next b'.(continuity)).
Proof.
  intros Hb Hstep. assert (Hid : cursor_le (stream_next b.(continuity)) (stream_next b.(continuity)))
    by (by right).
  destruct Hstep as [c b r b' Hc H|c b r b' Hc H|b r b' H|reason why b r b' H|b r b' H];
    destruct r as [a|e]; simpl.
  - apply apply_snapshot_Ok in H as (ls & next & ep & po & _ & _ & _ & Hbase & _ & _ & -> & ->); [|done..].
    eapply cursors_between_weaken; [exact (stream_base_le _ _ _ _ Hbase)|apply snapshot_mutations_between].
  - apply apply_snapshot_atomic in H as ->. by apply cursors_between_nil.
  - apply apply_source_delta_Ok in H
      as (ls & ep & po & _ & _ & _ & _ & _ & _ & -> & _ & _ & _ & -> & ->); [|done..].
    simpl. unfold delta_mutations. rewrite record_changes_len. apply record_changes_between.
  - apply apply_source_delta_atomic in H as ->. by apply cursors_between_nil.
  - apply unsubscribe_Ok in H; [|done]. destruct a; destruct H as [_ H].
    + destruct H as [_ ->]. by apply cursors_between_nil.
    + subst b'. by apply cursors_between_nil.
  - apply unsubscribe_atomic in H as ->. by apply cursors_between_nil.
  - apply report_continuity_loss_Ok in H; [|done]. apply cursors_between_nil. destruct a.
    + destruct H as (_ & ->). apply lost_stream_next.
    + by destruct H as (_ & _ & ->).
  - apply report_continuity_loss_atomic in H as ->. by apply cursors_between_nil.
  - apply note_stream_event_Ok in H as (ep & po & -> & _ & -> & ->); [|done]. simpl.
    split_and!.
    + by repeat constructor.
    + constructor; [by right|constructor].
    + constructor; [right; simpl; lia|constructor].
    + left. right. simpl. lia.
  - apply note_stream_event_atomic in H as ->. by apply cursors_between_nil.
Qed.

Lemma book_run_cursors b cs b' : book_wf b -> book_run b cs b' ->
  cursors_between (stream_next b.(continuity)) cs (stream_next b'.(continuity)).
Proof.
  intros Hb H. induction H as [b|b cs b' cs' b'' Hs Hr IH].
  - apply cursors_between_nil. by right.
  - eapply cursors_between_app; [by apply book_step_cursors|].
    apply IH. by eapply book_step_wf.
Qed.
