(* ===== verification/BookProps.v ===== *)
(** * What the order book promises

    The theorems on [Book]: exactly when a snapshot or a delta is accepted and what it does,
    that the mutation stream replays the book, that a failed call changes nothing, that
    stream positions are never handed out twice, and that the complement view of a reachable
    book always exists and complements back. *)

From S2P Require Import Prelude OrdMap Numeric Identity Descriptor Continuity Observation Book.

(** ** The complement view *)

(** [l'] is [l] seen from the opposite outcome. The relation is symmetric. *)
Definition complements (l l' : Level) : Prop :=
  level_wf l /\ level_wf l' /\ l'.(side) = opposite l.(side) /\
  complement_price l.(price) = Ok l'.(price) /\ complement_price l'.(price) = Ok l.(price) /\
  l'.(quantity) = l.(quantity).

Lemma complements_sym l l' : complements l l' -> complements l' l.
Proof. intros (? & ? & E & ? & ? & ?). split_and!; auto. rewrite E. by destruct l.(side). Qed.

Lemma complements_functional l l1 l2 : complements l l1 -> complements l l2 -> l1 = l2.
Proof.
  intros (_ & _ & S1 & P1 & _ & Q1) (_ & _ & S2 & P2 & _ & Q2). destruct l1, l2; simpl in *.
  congruence.
Qed.

Lemma complements_coordinate l l' k k' : complements l l' -> complements k k' ->
  coordinate l' = coordinate k' -> coordinate l = coordinate k.
Proof.
  intros (_ & _ & S1 & _ & P1 & _) (_ & _ & S2 & _ & P2 & _). unfold coordinate.
  intros [= Es Ep]. rewrite Ep, P2 in P1. injection P1 as ->.
  f_equal. rewrite S1, S2 in Es. by destruct l.(side), k.(side).
Qed.

Lemma complement_levels_Ok ls : Forall level_wf ls -> Forall complementable ls ->
  exists comp, complement_levels ls = Ok comp /\ Forall2 complements ls comp.
Proof.
  induction ls as [|l ls IH]; intros Hwf Hc; simpl; [by exists []|].
  apply Forall_cons_1 in Hwf as [Hl Hwf]. apply Forall_cons_1 in Hc as [Hcl Hc].
  unfold complementable in Hcl. destruct (complement_price l.(price)) as [p|] eqn:E; [|done].
  destruct (IH Hwf Hc) as (comp & -> & H2). simpl. eexists. split; [done|].
  constructor; [|done]. destruct Hl as [Hp Hq].
  destruct (complement_price_sound _ _ Hp E) as [Hp' E']. by split_and!.
Qed.

Lemma Forall2_pick (ls comp : list Level) k : Forall2 complements ls comp -> k ∈ comp ->
  exists l, l ∈ ls /\ complements l k.
Proof.
  induction 1 as [|l l' ls comp Hl H2 IH]; [by intros ?%not_elem_of_nil|].
  intros [->|Hk]%elem_of_cons; [exists l; split; [left|done]|].
  destruct (IH Hk) as (k0 & ? & ?). exists k0. split; [by right|done].
Qed.

Lemma complements_NoDup ls comp : Forall2 complements ls comp ->
  NoDup (coordinate <$> ls) -> NoDup (coordinate <$> comp).
Proof.
  induction 1 as [|l l' ls comp Hl H2 IH]; [done|]. cbn. intros [Hnin Hnd]%NoDup_cons.
  constructor; [|auto]. intros (k' & E & Hk')%list_elem_of_fmap. apply Hnin.
  destruct (Forall2_pick _ _ _ H2 Hk') as (k & Hk & Hck). apply list_elem_of_fmap.
  exists k. split; [|done]. by eapply complements_coordinate.
Qed.

(** Strictly ascending coordinates. *)
Definition level_lt (l k : Level) : Prop := coordinate_cmp (coordinate l) (coordinate k) = Lt.

Lemma level_lt_asym ls : Forall level_wf ls ->
  forall l k, l ∈ ls -> k ∈ ls -> level_lt l k -> level_lt k l -> False.
Proof.
  intros Hwf l k Hl Hk H1 H2. rewrite Forall_forall in Hwf. unfold level_lt in *.
  rewrite (cmp_flip (cmp := coordinate_cmp) (wf := coordinate_wf)) in H2
    by (apply level_coordinate_wf; auto).
  by rewrite H1 in H2.
Qed.

Lemma sort_levels_sorted ls : Forall level_wf ls -> NoDup (coordinate <$> ls) ->
  StronglySorted level_lt (sort_by level_cmp ls).
Proof.
  intros Hwf Hnd. apply (StronglySorted_fmap_inv coordinate (key_lt coordinate_cmp)).
  change level_cmp with (fun x y => coordinate_cmp (coordinate x) (coordinate y)).
  rewrite sort_by_fmap, <- (dedup_NoDup (sort_by coordinate_cmp (coordinate <$> ls))).
  2: { by rewrite (sort_by_perm coordinate_cmp). }
  assert (Hc : Forall coordinate_wf (coordinate <$> ls)).
  { apply Forall_fmap. eapply Forall_impl; [exact Hwf|]. apply level_coordinate_wf. }
  apply (dedup_sorted coordinate_cmp coordinate_wf).
  - by rewrite (sort_by_perm coordinate_cmp).
  - by apply (sort_by_sorted coordinate_cmp coordinate_wf).
Qed.

Lemma published_levels_wf b : book_wf b ->
  let ls := published_levels (publish b) in
  Forall level_wf ls /\ Forall complementable ls /\ StronglySorted level_lt ls /\
  NoDup (coordinate <$> ls).
Proof.
  intros Hb ls. pose proof (wf_levels b Hb) as Hok. pose proof (wf_entries b Hb) as Hent.
  destruct (Hok) as [Hs Hk]. unfold ls, publish; simpl.
  assert (Hco : coordinate <$> ((fun e => level_at e.1 e.2) <$> b.(book_levels))
                = b.(book_levels).*1).
  { rewrite <- list_fmap_compose. apply list_fmap_ext. by intros _ [[s p] q] _. }
  assert (Hsorted : StronglySorted level_lt
                      ((fun e => level_at e.1 e.2) <$> b.(book_levels))).
  { apply (StronglySorted_fmap_inv coordinate (key_lt coordinate_cmp)). rewrite Hco.
    by apply (map_keys_sorted coordinate_cmp coordinate_wf). }
  rewrite Forall_forall in Hk. rewrite Forall_forall in Hent. split_and!.
  - apply Forall_fmap, Forall_forall. intros e He. split; simpl; [apply (Hk e He)|apply (Hent e He)].
  - apply Forall_fmap, Forall_forall. intros e He. apply (Hent e He).
  - done.
  - assert (Hwf : Forall level_wf ((fun e => level_at e.1 e.2) <$> b.(book_levels))).
    { apply Forall_fmap, Forall_forall. intros e He.
      split; simpl; [apply (Hk e He)|apply (Hent e He)]. }
    clear -Hsorted Hwf. induction Hsorted as [|l ls Hs IH Hall]; [constructor|].
    apply Forall_cons_1 in Hwf as [Hl Hwf]. cbn. constructor; [|auto].
    intros (k & E & Hk)%list_elem_of_fmap. rewrite Forall_forall in Hall.
    specialize (Hall k Hk). unfold level_lt in Hall. rewrite <- E in Hall.
    by rewrite (cmp_refl (cmp := coordinate_cmp) (wf := coordinate_wf)) in Hall
      by (by apply level_coordinate_wf).
Qed.

Definition with_levels (p : PublishedBook) (ls : list Level) : PublishedBook :=
  {| published_market := p.(published_market); published_levels := ls;
     published_authority := p.(published_authority);
     published_continuity := p.(published_continuity);
     published_revision := p.(published_revision);
     published_provenance := p.(published_provenance);
     published_sync_divergences := p.(published_sync_divergences) |}.

(** A reader of any reachable book can always read its opposite view — the [Complement]
    error is unreachable — and that view carries the same quantities at distinct coordinates in
    ascending order, and the opposite of the opposite view is the canonical view, level for
    level. *)
Theorem complement_view_involutive m cs b : book_run (book_new m) cs b ->
  exists comp, derived_complement_levels (publish b) = Ok comp /\
    StronglySorted level_lt comp /\
    quantity <$> comp ≡ₚ quantity <$> published_levels (publish b) /\
    derived_complement_levels (with_levels (publish b) comp)
      = Ok (published_levels (publish b)).
Proof.
  intros Hrun. pose proof (book_run_wf _ _ _ (book_new_wf m) Hrun) as Hb.
  destruct (published_levels_wf b Hb) as (Hwf & Hc & Hs & Hnd).
  set (ls := published_levels (publish b)) in *.
  destruct (complement_levels_Ok ls Hwf Hc) as (comp & E & H2).
  pose proof (sort_by_perm level_cmp comp) as Hperm.
  assert (Hwf' : Forall level_wf comp)
    by (clear -H2; induction H2 as [|? ? ? ? (? & ? & _)]; by constructor).
  pose proof (complements_NoDup ls comp H2 Hnd) as Hnd'.
  exists (sort_by level_cmp comp).
  assert (Hcomp' : Forall2 complements comp ls).
  { clear -H2. induction H2; constructor; [by apply complements_sym|done]. }
  destruct (Permutation_Forall2 (symmetry Hperm) Hcomp') as (ls1 & Hp1 & Hf1).
  assert (Hwfs : Forall level_wf (sort_by level_cmp comp)) by (by rewrite Hperm).
  split_and!.
  - unfold derived_complement_levels. fold ls. by rewrite E.
  - by apply sort_levels_sorted.
  - rewrite Hperm. clear -H2. induction H2 as [|? ? ? ? (_ & _ & _ & _ & _ & Hq)]; [done|].
    cbn. rewrite Hq. by constructor.
  - assert (Hcc : Forall complementable (sort_by level_cmp comp)).
    { rewrite Hperm. clear -H2. induction H2 as [|? ? ? ? (_ & _ & _ & _ & Hq & _)]; constructor;
        [|done]. unfold complementable. by rewrite Hq. }
    destruct (complement_levels_Ok _ Hwfs Hcc) as (ls2 & E2 & Hf2).
    assert (ls2 = ls1) as ->.
    { clear -Hf1 Hf2. revert ls1 Hf1. induction Hf2 as [|x y l k Hxy Hlk IH]; intros ls1 Hf1;
        inversion Hf1; subst; [done|]. f_equal; [by eapply complements_functional|auto]. }
    unfold derived_complement_levels, with_levels; simpl. rewrite E2. f_equal.
    apply (strictly_sorted_perm level_lt).
    + apply level_lt_asym. by rewrite (sort_by_perm level_cmp ls1), <- Hp1.
    + apply sort_levels_sorted; rewrite <- Hp1; done.
    + done.
    + by rewrite (sort_by_perm level_cmp ls1), <- Hp1.
Qed.

(** ** Snapshots *)

Lemma keys_NoDup (l : list (Side * Price)) : Forall coordinate_wf l ->
  StronglySorted (key_lt coordinate_cmp) l -> NoDup l.
Proof.
  intros Hwf Hs. induction Hs as [|c l Hs IH Hall]; [constructor|].
  apply Forall_cons_1 in Hwf as [Hc Hwf]. constructor; [|auto]. intros Hin.
  rewrite Forall_forall in Hall. specialize (Hall c Hin). unfold key_lt in Hall.
  by rewrite (cmp_refl (cmp := coordinate_cmp) (wf := coordinate_wf)) in Hall by done.
Qed.

Lemma map_ok_NoDup (m : PhysicalLevels) : levels_ok m -> NoDup m.*1.
Proof.
  intros Hok. apply keys_NoDup.
  - apply Forall_fmap. apply Hok.
  - by apply (map_keys_sorted coordinate_cmp coordinate_wf).
Qed.

Lemma levels_ok_perm (m1 m2 : PhysicalLevels) :
  levels_ok m1 -> levels_ok m2 -> m1 ≡ₚ m2 -> m1 = m2.
Proof.
  intros H1 H2 Hp. apply (map_ext coordinate_cmp coordinate_wf); [done|done|].
  intros c Hc. apply option_eq. intros q.
  rewrite !(map_get_elem coordinate_cmp coordinate_wf) by done. by rewrite Hp.
Qed.

Lemma snapshot_levels_iff ls next : Forall level_wf ls ->
  snapshot_levels [] ls = Ok next <->
  NoDup (coordinate <$> ls) /\ Forall complementable ls /\
  levels_ok next /\ next ≡ₚ entry <$> ls.
Proof.
  intros Hwf. split.
  - intros E. apply snapshot_levels_Ok in E as (Hok & Hp & Hc); [|done|apply map_ok_nil].
    rewrite app_nil_r in Hp. split_and!; [|done|done|done].
    rewrite <- entry_keys, <- Hp. by apply map_ok_NoDup.
  - intros (Hnd & Hc & Hok & Hp).
    pose proof (snapshot_levels_accepts ls [] Hwf (map_ok_nil _ _) Hc Hnd) as Hx.
    destruct (snapshot_levels [] ls) as [m|] eqn:E.
    + f_equal. apply snapshot_levels_Ok in E as (Hm & Hpm & _); [|done|apply map_ok_nil].
      rewrite app_nil_r in Hpm. apply levels_ok_perm; [done|done|]. by rewrite Hpm, Hp.
    + exfalso. cut (false = true); [done|]. apply Hx. intros l _. apply not_elem_of_nil.
Qed.

(** A snapshot is accepted exactly when it is a snapshot of this book's market whose
    coordinates are distinct and whose prices complement, and no counter would wrap; the book
    then holds exactly the snapshot's levels, is live, one revision later, carries the
    candidate's provenance rebased onto that revision and epoch, and has no deltas since. *)
Theorem apply_snapshot_exact b c commit b' : book_wf b -> candidate_wf c ->
  let source := c.(candidate_provenance) in
  apply_snapshot c b = (Ok commit, b') <->
  exists ls next epoch position,
    c.(operation) = Snapshot ls /\ source.(market) = b.(book_market) /\
    (NoDup (coordinate <$> ls.(levels)) /\ Forall complementable ls.(levels) /\
     levels_ok next /\ next ≡ₚ entry <$> ls.(levels)) /\
    stream_base b next epoch position /\
    position + len (snapshot_mutations b source next epoch position) <= U64_MAX /\
    b.(revision) < U64_MAX /\
    commit = snapshot_commit b source next epoch position /\
    b' = after_snapshot b source next epoch position.
Proof.
  intros Hb Hc source. split.
  - intros H. apply apply_snapshot_Ok in H
      as (ls & next & e & p & Eop & Hm & Hn & Hbase & Hl & Hr & -> & ->); [|done..].
    pose proof (wf_candidate_levels c Hc) as Hlwf. rewrite Eop in Hlwf.
    apply snapshot_levels_iff in Hn; [|done]. destruct Hn as (? & ? & ? & ?). exists ls, next, e, p. by split_and!.
  - intros (ls & next & e & p & Eop & Hm & Hn & Hbase & Hl & Hr & -> & ->).
    pose proof (wf_candidate_levels c Hc) as Hlwf. rewrite Eop in Hlwf.
    apply apply_snapshot_accepts with (ls := ls); try done. by apply snapshot_levels_iff.
Qed.

(** ** The mutation stream replays the book *)

(** The mutation at one coordinate between two level maps. *)
Definition mutation_between (previous next : PhysicalLevels) (p : Provenance)
    (c : Side * Price) (m : MutationRecord) : Prop :=
  m.(mutation).(old) = level_at c <$> map_get coordinate_cmp c previous /\
  m.(mutation).(new) = level_at c <$> map_get coordinate_cmp c next /\
  map_get coordinate_cmp c previous <> map_get coordinate_cmp c next /\
  m.(mutation).(mutation_provenance) = p.

(** The [i]th record sits at position [first + i] of [epoch]. *)
Definition numbered_from (epoch first : Z) (ms : list MutationRecord) : Prop :=
  forall i m, ms !! i = Some m ->
    m.(cursor) = {| cursor_epoch := epoch; cursor_position := first + Z.of_nat i |}.

Lemma record_changes_numbered p e n l : numbered_from e n (record_changes p e n l).
Proof.
  revert n. induction l as [|[[c b] a] l IH]; intros n i m; [done|].
  destruct i as [|i]; cbn.
  - intros [= <-]. cbn. by rewrite Z.add_0_r.
  - intros E. rewrite (IH _ _ _ E). f_equal. lia.
Qed.

Lemma record_changes_between_maps prev next p e n (coords : list (Side * Price)) after :
  (forall c, c ∈ coords -> after c = map_get coordinate_cmp c next) ->
  let l := changed ((fun c => (c, map_get coordinate_cmp c prev, after c)) <$> coords) in
  exists cs, cs `sublist_of` coords /\
    Forall2 (mutation_between prev next p) cs (record_changes p e n l).
Proof.
  revert n. induction coords as [|c coords IH]; intros n Haft l; [exists []; by split; constructor|].
  destruct (IH (n + 1)) as (cs & Hsub & H2); [intros; apply Haft; by right|].
  destruct (IH n) as (cs0 & Hsub0 & H20); [intros; apply Haft; by right|].
  subst l. cbn [fmap list_fmap changed List.filter fst snd]. case_bool_decide as E; cbn [negb].
  - exists cs0. split; [by constructor|done].
  - exists (c :: cs). split; [by constructor|]. cbn [record_changes]. constructor; [|done].
    rewrite (Haft c) in * by left. by split_and!.
Qed.

Lemma all_coordinates_wf (previous next : PhysicalLevels) : levels_ok previous -> levels_ok next ->
  Forall coordinate_wf (previous.*1 ++ next.*1).
Proof. intros Hp Hn. apply Forall_app. split; apply Forall_fmap; [apply Hp|apply Hn]. Qed.

(** The coordinates the diff walks: strictly ascending, exactly those of either map. *)
Lemma diff_coordinates (previous next : PhysicalLevels) : levels_ok previous -> levels_ok next ->
  let cs := dedup (sort_by coordinate_cmp (previous.*1 ++ next.*1)) in
  StronglySorted (key_lt coordinate_cmp) cs /\ Forall coordinate_wf cs /\ NoDup cs /\
  forall c, c ∈ cs <-> c ∈ previous.*1 \/ c ∈ next.*1.
Proof.
  intros Hp Hn cs. pose proof (all_coordinates_wf previous next Hp Hn) as Hwf.
  assert (Hwf' : Forall coordinate_wf (sort_by coordinate_cmp (previous.*1 ++ next.*1)))
    by (by rewrite (sort_by_perm coordinate_cmp)).
  assert (Hin : forall c, c ∈ cs <-> c ∈ previous.*1 \/ c ∈ next.*1).
  { intros c. unfold cs. rewrite (dedup_elem c). rewrite (sort_by_perm coordinate_cmp).
    apply elem_of_app. }
  assert (Hs : StronglySorted (key_lt coordinate_cmp) cs).
  { apply (dedup_sorted coordinate_cmp coordinate_wf); [done|].
    by apply (sort_by_sorted coordinate_cmp coordinate_wf). }
  assert (Hcwf : Forall coordinate_wf cs).
  { apply Forall_forall. intros c Hc. apply Hin in Hc. rewrite Forall_forall in Hwf.
    apply Hwf, elem_of_app, Hc. }
  split_and!; [done|done|by apply keys_NoDup|done].
Qed.

Lemma replay_derived previous next p e n : levels_ok previous -> levels_ok next ->
  replay previous (record_changes p e n (changed (all_changes previous next))) = next.
Proof.
  intros Hp Hn. destruct (diff_coordinates previous next Hp Hn) as (_ & Hwf & Hnd & Hin).
  unfold all_changes. set (cs := dedup _) in *.
  set (f := fun c => (c, map_get coordinate_cmp c previous, map_get coordinate_cmp c next)).
  assert (Hkeys : (fun c : change => c.1.1) <$> (f <$> cs) = cs).
  { rewrite <- list_fmap_compose. rewrite <- (list_fmap_id cs) at 2. by apply list_fmap_ext. }
  rewrite replay_changed; [|done| |by rewrite Hkeys|].
  2: { apply Forall_fmap. eapply Forall_impl; [exact Hwf|]. done. }
  2: { intros c b a (c' & [= -> -> ->] & _)%list_elem_of_fmap. done. }
  set (st := (fun c : change => (c.1.1, c.2)) <$> (f <$> cs)).
  assert (Hst : st.*1 = cs).
  { unfold st. rewrite <- !list_fmap_compose. rewrite <- (list_fmap_id cs) at 2.
    by apply list_fmap_ext. }
  assert (Hstwf : Forall (fun e => coordinate_wf e.1) st).
  { unfold st. apply Forall_fmap, Forall_fmap. eapply Forall_impl; [exact Hwf|]. done. }
  apply (map_ext coordinate_cmp coordinate_wf); [by apply write_levels_ok|done|].
  intros d Hd. destruct (write_levels_get previous st d) as [H1 H2]; try done.
  { by rewrite Hst. }
  destruct (decide (d ∈ cs)) as [Hdc|Hdc].
  - apply H1. unfold st. rewrite <- list_fmap_compose. apply list_elem_of_fmap. by exists d.
  - rewrite H2 by (by rewrite Hst). rewrite Hin in Hdc.
    apply Decidable.not_or in Hdc as [Hd1 Hd2].
    apply (map_get_elem_fst coordinate_cmp coordinate_wf) in Hd1; [|done|done].
    apply (map_get_elem_fst coordinate_cmp coordinate_wf) in Hd2; [|done|done]. congruence.
Qed.

Lemma sublist_sorted {A} (R : A -> A -> Prop) l k : l `sublist_of` k ->
  StronglySorted R k -> StronglySorted R l.
Proof.
  induction 1 as [|x l k Hs IH|x l k Hs IH]; intros H; [constructor| |].
  - apply StronglySorted_inv in H as [H Hall]. constructor; [auto|].
    rewrite Forall_forall in Hall. apply Forall_forall. intros y Hy. apply Hall.
    by eapply elem_of_sublist.
  - apply StronglySorted_inv in H as [H _]. auto.
Qed.

(** C30: when one venue snapshot follows another on a snapshot-built book, the derived
    mutations are exactly the difference: replaying them over the previous levels gives the new
    levels; there is one per coordinate whose quantity differs, in ascending coordinate order,
    carrying the value before and the value after; they occupy consecutive positions from the
    stream's next one and the stream moves past them; and each is labelled as this daemon's own
    difference at the new revision. *)
Theorem derived_mutations_replay b c commit b' : book_wf b -> candidate_wf c ->
  apply_snapshot c b = (Ok commit, b') ->
  commit.(recovery_base) = false -> b.(delta_rail) = false -> b.(book_provenance) <> None ->
  exists epoch position,
    b.(continuity) = Intact epoch position /\
    b'.(continuity) = Intact epoch (position + len commit.(mutations)) /\
    replay b.(book_levels) commit.(mutations) = b'.(book_levels) /\
    numbered_from epoch position commit.(mutations) /\
    exists cs, StronglySorted (key_lt coordinate_cmp) cs /\
      Forall2 (mutation_between b.(book_levels) b'.(book_levels)
                 (rebased c.(candidate_provenance) b'.(revision) epoch DerivedDiff))
        cs commit.(mutations).
Proof.
  intros Hb Hc H Hrec Hrail Hprov.
  apply apply_snapshot_Ok in H as (ls & next & e & p & Eop & Hm & Hn & Hbase & Hl & Hr & -> & ->);
    [|done..].
  cbn [recovery_base snapshot_commit] in Hrec. unfold stream_base in Hbase. rewrite Hrec in Hbase.
  pose proof (wf_candidate_levels c Hc) as Hlwf. rewrite Eop in Hlwf.
  destruct (snapshot_entries _ _ Hlwf Hn) as (Hok & _ & _). pose proof (wf_levels b Hb) as Hbok.
  exists e, p. cbn [mutations snapshot_commit book_levels after_snapshot continuity revision].
  unfold snapshot_mutations in *. rewrite Hrec, Hrail, bool_decide_false in * by done.
  cbn [orb] in *. split_and!; [done|done|by apply replay_derived|apply record_changes_numbered|].
  destruct (diff_coordinates b.(book_levels) next Hbok Hok) as (Hs & _).
  destruct (record_changes_between_maps b.(book_levels) next
              (rebased c.(candidate_provenance) (b.(revision) + 1) e DerivedDiff) e p
              (dedup (sort_by coordinate_cmp (b.(book_levels).*1 ++ next.*1)))
              (fun c => map_get coordinate_cmp c next) ltac:(done)) as (cs & Hsub & H2).
  exists cs. split; [by eapply sublist_sorted|done].
Qed.

(** ** Deltas *)

(** A source delta is accepted exactly when it is a non-empty delta of this book's market,
    with distinct complementable coordinates, on an established base whose stream is intact and
    whose counters have room; it then sets each coordinate it names to the reported quantity,
    removes the ones reported as zero, and leaves every other coordinate as it was. *)
Theorem apply_source_delta_exact b c : book_wf b -> candidate_wf c ->
  let source := c.(candidate_provenance) in
  (forall commit b', apply_source_delta c b = (Ok commit, b') <->
   exists ls epoch position,
    c.(operation) = SourceDelta ls /\ source.(market) = b.(book_market) /\
    ls.(levels) <> [] /\ b.(book_provenance) <> None /\
    Forall complementable ls.(levels) /\ NoDup (coordinate <$> ls.(levels)) /\
    b.(continuity) = Intact epoch position /\
    position + len (delta_mutations b source ls.(levels) epoch position) <= U64_MAX /\
    b.(revision) < U64_MAX /\ b.(deltas_since_snapshot) < U64_MAX /\
    commit = delta_commit b source ls.(levels) epoch position /\
    b' = after_delta b source ls.(levels) epoch position) /\
  (forall commit b' ls, apply_source_delta c b = (Ok commit, b') ->
     c.(operation) = SourceDelta ls ->
     (forall l, l ∈ ls.(levels) ->
        map_get coordinate_cmp (coordinate l) b'.(book_levels) = staged_value l) /\
     (forall d, coordinate_wf d -> d ∉ coordinate <$> ls.(levels) ->
        map_get coordinate_cmp d b'.(book_levels) = map_get coordinate_cmp d b.(book_levels))).
Proof.
  intros Hb Hc source. split.
  - intros commit b'. split; [by apply apply_source_delta_Ok|].
    intros (ls & e & p & H1 & H2 & H3 & H4 & H5 & H6 & H7 & H8 & H9 & H10 & -> & ->).
    by apply apply_source_delta_accepts.
  - intros commit b' ls0 H E0. apply apply_source_delta_Ok in H
      as (ls & e & p & Eop & _ & _ & _ & Hcomp & Hnd & _ & _ & _ & _ & _ & ->); [|done..].
    rewrite E0 in Eop. injection Eop as ->.
    pose proof (wf_candidate_levels c Hc) as Hlwf. rewrite E0 in Hlwf.
    destruct (delta_levels b ls.(levels) (wf_levels b Hb) Hlwf Hnd) as (_ & Hin & Hout).
    split; [exact Hin|exact Hout].
Qed.

Lemma delta_changes_wf held ls : Forall level_wf ls ->
  Forall (fun c => coordinate_wf c.1.1) (delta_changes held ls).
Proof.
  intros Hwf. unfold delta_changes. apply Forall_fmap. eapply Forall_impl; [exact Hwf|].
  intros l Hlw. by apply level_coordinate_wf.
Qed.

Lemma replay_delta b source ls e p : book_wf b -> Forall level_wf ls ->
  NoDup (coordinate <$> ls) ->
  replay b.(book_levels) (delta_mutations b source ls e p)
    = write_levels b.(book_levels) (staged_of ls).
Proof.
  intros Hb Hwf Hnd. unfold delta_mutations. rewrite replay_changed.
  - unfold write_levels. f_equal. unfold delta_changes, staged_of. by rewrite <- list_fmap_compose.
  - apply Hb.
  - by apply delta_changes_wf.
  - unfold delta_changes. rewrite <- list_fmap_compose. exact Hnd.
  - intros c0 b0 a0 (l & [= -> -> ->] & _)%list_elem_of_fmap. done.
Qed.

(** The mutations of an accepted delta replay it: applied to the levels before, they give
    the levels after; there is one per named coordinate whose value changed, in the venue's own
    order, carrying the value the book held and the value the venue reported, under the
    candidate's own source-reported labelling; they occupy consecutive positions from the
    stream's next one, and the book is on a delta rail from then on. *)
Theorem delta_mutations_replay b c commit b' ls : book_wf b -> candidate_wf c ->
  apply_source_delta c b = (Ok commit, b') -> c.(operation) = SourceDelta ls ->
  exists epoch position,
    b.(continuity) = Intact epoch position /\
    b'.(continuity) = Intact epoch (position + len commit.(mutations)) /\
    replay b.(book_levels) commit.(mutations) = b'.(book_levels) /\
    numbered_from epoch position commit.(mutations) /\
    (exists cs, cs `sublist_of` (coordinate <$> ls.(levels)) /\
      Forall2 (mutation_between b.(book_levels) b'.(book_levels)
                 (rebased c.(candidate_provenance) b'.(revision) epoch SourceReportedDiff))
        cs commit.(mutations)) /\
    Forall (fun m => m.(mutation).(mutation_provenance).(origin) = SourceReported)
      commit.(mutations) /\
    b'.(delta_rail) = true.
Proof.
  intros Hb Hc H E0. pose proof H as H'.
  apply apply_source_delta_Ok in H
    as (ls' & e & p & Eop & Hm & Hne & Hbase & Hcomp & Hnd & Ec & Hl & Hr & Hd & -> & ->); [|done..].
  rewrite E0 in Eop. injection Eop as <-.
  pose proof (wf_candidate_levels c Hc) as Hlwf. rewrite E0 in Hlwf. simpl in Hlwf.
  pose proof (wf_candidate_label c Hc) as Hlab. rewrite E0 in Hlab. destruct Hlab as [_ Hlab].
  destruct (delta_levels b ls.(levels) (wf_levels b Hb) Hlwf Hnd) as (Hok & Hin & Hout).
  exists e, p. cbn [mutations delta_commit book_levels after_delta continuity revision delta_rail].
  assert (Hchg : delta_changes b.(book_levels) ls.(levels) =
    (fun c => (c, map_get coordinate_cmp c b.(book_levels),
       map_get coordinate_cmp c (write_levels b.(book_levels) (staged_of ls.(levels)))))
      <$> (coordinate <$> ls.(levels))).
  { unfold delta_changes. rewrite <- list_fmap_compose. apply list_fmap_ext.
    intros i l Hil. cbn. rewrite (Hin l); [done|]. by eapply list_elem_of_lookup_2. }
  assert (H2 : exists cs, cs `sublist_of` (coordinate <$> ls.(levels)) /\
      Forall2 (mutation_between b.(book_levels) (write_levels b.(book_levels) (staged_of ls.(levels)))
                 (rebased c.(candidate_provenance) (b.(revision) + 1) e SourceReportedDiff))
        cs (delta_mutations b c.(candidate_provenance) ls.(levels) e p)).
  { unfold delta_mutations. rewrite Hchg. by apply record_changes_between_maps. }
  split_and!; [done|done| |apply record_changes_numbered|exact H2| |done].
  - by apply replay_delta.
  - destruct H2 as (cs & _ & H2). clear -H2 Hlab.
    induction H2 as [|? ? ? ? (_ & _ & _ & Hp)]; constructor; [|done]. by rewrite Hp.
Qed.

(** ** Checkpoints *)

(** Maps that do not rest at one depth everywhere differ at some coordinate. *)
Lemma depth_differs left right : levels_ok left -> levels_ok right ->
  ~ (forall c, coordinate_wf c -> depth left c = depth right c) ->
  exists d, coordinate_wf d /\ depth left d <> depth right d.
Proof.
  intros Hl Hr Hne.
  destruct (decide (Forall (fun c => depth left c = depth right c) (left.*1 ++ right.*1)))
    as [Hall|Hex].
  - exfalso. apply Hne. intros c Hc. rewrite Forall_forall in Hall.
    destruct (decide (c ∈ left.*1 ++ right.*1)) as [Hin|Hnin]; [auto|].
    rewrite not_elem_of_app in Hnin. destruct Hnin as [H1 H2].
    apply (map_get_elem_fst coordinate_cmp coordinate_wf) in H1; [|done|done].
    apply (map_get_elem_fst coordinate_cmp coordinate_wf) in H2; [|done|done].
    unfold depth. by rewrite H1, H2.
  - apply not_Forall_Exists, Exists_exists in Hex as (d & Hin & Hd); [|intros; apply _].
    exists d. split; [|done]. pose proof (all_coordinates_wf left right Hl Hr) as Hwf.
    rewrite Forall_forall in Hwf. by apply Hwf.
Qed.

(** On a delta rail a snapshot is a checkpoint and never a diff source: it derives no
    mutation whichever way it compares. It is reported as a divergence exactly when the stream
    was intact and some coordinate rests at a different depth, zero quantities not counting as
    depth; a divergence commits as a recovery base one epoch later and is the only thing that
    raises the divergence count, and an agreeing checkpoint leaves the stream as it was. *)
Theorem delta_rail_checkpoint b c commit b' : book_wf b -> candidate_wf c ->
  apply_snapshot c b = (Ok commit, b') -> b.(delta_rail) = true ->
  commit.(mutations) = [] /\ b'.(delta_rail) = true /\ b'.(deltas_since_snapshot) = 0 /\
  (commit.(divergence) <> None <->
     is_intact b.(continuity) = true /\
     exists d, coordinate_wf d /\ depth b.(book_levels) d <> depth b'.(book_levels) d) /\
  (commit.(divergence) <> None ->
     commit.(divergence) = Some {| deltas_invalidated := b.(deltas_since_snapshot) |} /\
     commit.(recovery_base) = true /\
     b'.(continuity) = Intact (epoch_of b.(continuity) + 1) 0 /\
     b'.(sync_divergences) = b.(sync_divergences) + 1) /\
  (commit.(divergence) = None ->
     b'.(sync_divergences) = b.(sync_divergences) /\
     (is_intact b.(continuity) = true -> b'.(continuity) = b.(continuity))).
Proof.
  intros Hb Hc H Hrail.
  apply apply_snapshot_Ok in H as (ls & next & e & p & Eop & Hm & Hn & Hbase & Hl & Hr & -> & ->);
    [|done..].
  pose proof (wf_candidate_levels c Hc) as Hlwf. rewrite Eop in Hlwf.
  destruct (snapshot_entries _ _ Hlwf Hn) as (Hok & _ & _). pose proof (wf_levels b Hb) as Hbok.
  assert (Hms : snapshot_mutations b c.(candidate_provenance) next e p = []).
  { unfold snapshot_mutations. by rewrite Hrail, !orb_true_r. }
  cbn [mutations divergence recovery_base snapshot_commit book_levels after_snapshot continuity
       delta_rail deltas_since_snapshot sync_divergences]. rewrite Hms.
  change (len (@nil MutationRecord)) with 0. rewrite Z.add_0_r.
  unfold stream_base in Hbase.
  assert (Hdiv : diverges b next = true <-> is_intact b.(continuity) = true /\
            exists d, coordinate_wf d /\ depth b.(book_levels) d <> depth next d).
  { unfold diverges. rewrite Hrail. cbn [andb]. rewrite andb_true_iff, negb_true_iff.
    rewrite <- not_true_iff_false, (economically_equal_spec _ _ Hbok Hok).
    split; intros [Hi H]; (split; [exact Hi|]).
    - by apply depth_differs.
    - intros Hall. destruct H as (d & Hd & Hne). by apply Hne, Hall. }
  split_and!; [done|done|done| | |].
  - destruct (diverges b next); [split; [intros _; by apply Hdiv|done]|].
    split; [done|]. intros Hx. apply Hdiv in Hx. done.
  - unfold recovers in *. destruct (diverges b next); [|done]. intros _.
    rewrite orb_true_r in Hbase. destruct Hbase as (-> & -> & _). by rewrite orb_true_r.
  - unfold recovers in *. destruct (diverges b next); [done|]. intros _. split; [done|].
    intros Hi. rewrite Hi in Hbase. by simpl in Hbase.
Qed.

(** ** Failure, reachability, revisions *)

(** A refused call leaves the book exactly as it was: levels, revision, continuity,
    authority, provenance and both counters, for each of the five mutating operations. *)
Theorem refused_calls_change_nothing :
  (forall c, atomic (apply_snapshot c)) /\ (forall c, atomic (apply_source_delta c)) /\
  atomic unsubscribe /\ (forall r w, atomic (report_continuity_loss r w)) /\
  atomic note_stream_event.
Proof.
  split_and!; [apply apply_snapshot_atomic|apply apply_source_delta_atomic|
    apply unsubscribe_atomic|apply report_continuity_loss_atomic|apply note_stream_event_atomic].
Qed.

Lemma refused_calls_change_nothing_witness :
  let m := {| market_venue := {| venue_text := lit "v" |};
              market_key := {| key_kind := slug; key_value := lit "k" |} |} in
  let b := set_continuity (Lost 0 Gap) (book_new m) in
  note_stream_event b = (Err ContinuityLost, b) /\ (note_stream_event b).2 = b.
Proof.
  intros m b. split; [reflexivity|].
  destruct refused_calls_change_nothing as (_ & _ & _ & _ & H).
  apply (H b ContinuityLost). reflexivity.
Defined.

(** Along any run of a book from its creation — snapshots, deltas, loss reports,
    unsubscriptions and stream events, accepted or refused, in any order — the book's invariant
    holds and no stream position is ever handed out twice: the positions of all mutations and
    events, in delivery order, strictly increase by epoch and then position, and all lie before
    the stream's next one. *)
Theorem stream_positions_never_reused m cs b : book_run (book_new m) cs b ->
  book_wf b /\ StronglySorted cursor_lt cs /\
  Forall (fun c => cursor_lt c (stream_next b.(continuity))) cs.
Proof.
  intros H. pose proof (book_new_wf m) as Hnew. split; [by eapply book_run_wf|].
  destruct (book_run_cursors _ _ _ Hnew H) as (Hs & _ & Hhi & _). by split.
Qed.

Lemma stream_positions_never_reused_witness :
  let m := {| market_venue := {| venue_text := lit "v" |};
              market_key := {| key_kind := slug; key_value := lit "k" |} |} in
  let b := set_continuity (Intact 0 2) (book_new m) in
  book_wf b /\
  StronglySorted cursor_lt [{| cursor_epoch := 0; cursor_position := 0 |};
                            {| cursor_epoch := 0; cursor_position := 1 |}].
Proof.
  intros m b.
  destruct (stream_positions_never_reused m
    ([{| cursor_epoch := 0; cursor_position := 0 |}] ++
     [{| cursor_epoch := 0; cursor_position := 1 |}] ++ []) b) as (Hb & Hs & _).
  - eapply run_cons; [|eapply run_cons; [|apply run_nil]].
    + apply (step_event (book_new m) (Ok {| cursor_epoch := 0; cursor_position := 0 |})
               (set_continuity (Intact 0 1) (book_new m))). vm_compute. reflexivity.
    + apply (step_event (set_continuity (Intact 0 1) (book_new m))
               (Ok {| cursor_epoch := 0; cursor_position := 1 |}) b). vm_compute. reflexivity.
  - split; [exact Hb|exact Hs].
Defined.

(** The revision is the book's publication clock: no step moves it back or by more than
    one, and a step that does not move it changes nothing a reader sees but, at most, the
    stream's next position. *)
Theorem revision_marks_every_change b cs b' : book_wf b -> book_step b cs b' ->
  b.(revision) <= b'.(revision) <= b.(revision) + 1 /\
  (b'.(revision) = b.(revision) ->
   exists c, b' = set_continuity c b /\
     (c = b.(continuity) \/
      exists epoch position, b.(continuity) = Intact epoch position /\
        c = Intact epoch (position + 1))).
Proof.
  intros Hb Hstep.
  assert (Hid : exists c, b = set_continuity c b /\ (c = b.(continuity) \/
      exists epoch position, b.(continuity) = Intact epoch position /\
        c = Intact epoch (position + 1))).
  { exists b.(continuity). split; [by destruct b|by left]. }
  destruct Hstep as [c b r b' Hc H|c b r b' Hc H|b r b' H|reason why b r b' H|b r b' H];
    destruct r as [a|e].
  - apply apply_snapshot_Ok in H as (ls & next & ep & po & _ & _ & _ & _ & _ & _ & _ & ->); [|done..].
    simpl. split; [lia|lia].
  - apply apply_snapshot_atomic in H as ->. split; [lia|done].
  - apply apply_source_delta_Ok in H
      as (ls & ep & po & _ & _ & _ & _ & _ & _ & _ & _ & _ & _ & _ & ->); [|done..].
    simpl. split; [lia|lia].
  - apply apply_source_delta_atomic in H as ->. split; [lia|done].
  - apply unsubscribe_Ok in H; [|done]. destruct a.
    + destruct H as (_ & _ & ->). simpl. split; [lia|lia].
    + destruct H as (_ & ->). split; [lia|done].
  - apply unsubscribe_atomic in H as ->. split; [lia|done].
  - apply report_continuity_loss_Ok in H; [|done]. destruct a.
    + destruct H as (_ & ->). simpl. split; [lia|lia].
    + destruct H as (_ & _ & ->). split; [lia|done].
  - apply report_continuity_loss_atomic in H as ->. split; [lia|done].
  - apply note_stream_event_Ok in H as (ep & po & Ec & _ & _ & ->); [|done]. simpl.
    split; [lia|]. intros _. exists (Intact ep (po + 1)). split; [done|]. right. eauto.
  - apply note_stream_event_atomic in H as ->. split; [lia|done].
Qed.

(** ** A concrete market *)

Definition sample_market : MarketRef :=
  {| market_venue := {| venue_text := lit "limitless" |};
     market_key := {| key_kind := slug; key_value := lit "btc" |} |}.

Definition sample_level (s : Side) (cents units : Z) : Level :=
  {| side := s; price := {| price_value := {| coefficient := cents; scale := 2 |} |};
     quantity := {| quantity_value := {| coefficient := units; scale := 0 |} |} |}.

Definition sample_bounded (ls : list Level) : BoundedLevels :=
  {| levels := ls; levels_capacity := {| level_capacity_value := 16 |} |}.

Definition sample_candidate (op : CandidateOperation) : Candidate :=
  {| candidate_provenance := provenance_of sample_input; operation := op |}.

Definition first_book : list Level := [sample_level Ask 41 7; sample_level Bid 39 5].
Definition second_book : list Level := [sample_level Bid 39 6; sample_level Ask 43 2].

Lemma sample_level_wf s cents units : in_range 1 9 (cents mod 10) = true ->
  in_range 1 99 cents = true -> in_range 0 9 units = true ->
  level_wf (sample_level s cents units).
Proof.
  rewrite !in_range_spec. intros Hm Hc Hu.
  split; split; simpl; try lia; split; simpl; bounds; lia.
Qed.

Lemma sample_candidate_wf op : Forall level_wf (operation_levels op) ->
  candidate_wf (sample_candidate op).
Proof.
  intros Hl. split; [|done|by destruct op].
  split; simpl; try lia; try constructor; done || (vm_compute; discriminate).
Qed.

Lemma first_wf : Forall level_wf first_book.
Proof. repeat (constructor; [by apply sample_level_wf|]); constructor. Qed.
Lemma second_wf : Forall level_wf second_book.
Proof. repeat (constructor; [by apply sample_level_wf|]); constructor. Qed.

(** The book after the first snapshot, and after a delta that removes the ask. *)
Definition based_book : OrderBook :=
  (apply_snapshot (sample_candidate (Snapshot (sample_bounded first_book)))
     (book_new sample_market)).2.
Definition removal : list Level := [sample_level Ask 41 0; sample_level Bid 39 5].
Definition railed_book : OrderBook :=
  (apply_source_delta (sample_candidate (SourceDelta (sample_bounded removal))) based_book).2.

Lemma removal_wf : Forall level_wf removal.
Proof. repeat (constructor; [by apply sample_level_wf|]); constructor. Qed.

Lemma based_run : book_run (book_new sample_market) [] based_book.
Proof.
  set (c := sample_candidate (Snapshot (sample_bounded first_book))).
  change [] with (commit_cursors (apply_snapshot c (book_new sample_market)).1 ++ []).
  eapply run_cons; [|apply run_nil]. eapply step_snapshot; [|apply surjective_pairing].
  apply sample_candidate_wf, first_wf.
Qed.
Lemma based_wf : book_wf based_book.
Proof. eapply book_run_wf; [apply book_new_wf|apply based_run]. Qed.

Lemma railed_wf : book_wf railed_book.
Proof.
  eapply book_step_wf; [apply based_wf|].
  eapply (step_delta (sample_candidate (SourceDelta (sample_bounded removal))));
    [|apply surjective_pairing].
  apply sample_candidate_wf, removal_wf.
Qed.

(** ** Witnesses *)

(** The commit of a call known to succeed. *)
Definition commit_of (r : result BookCommit BookError * OrderBook) : BookCommit :=
  match r.1 with
  | Ok commit => commit
  | Err _ => {| commit_revision := 0; commit_epoch := 0; recovery_base := false;
                divergence := None; mutations := [] |}
  end.

Ltac give_run run :=
  exists (commit_of run), run.2; split; [vm_compute; reflexivity|].

Lemma apply_snapshot_exact_witness :
  exists commit b', apply_snapshot (sample_candidate (Snapshot (sample_bounded first_book)))
                      (book_new sample_market) = (Ok commit, b') /\
  exists ls next epoch position,
    Snapshot (sample_bounded first_book) = Snapshot ls /\
    levels_ok next /\ next ≡ₚ entry <$> ls.(levels) /\
    b' = after_snapshot (book_new sample_market) (provenance_of sample_input) next epoch position.
Proof.
  give_run (apply_snapshot (sample_candidate (Snapshot (sample_bounded first_book))) (book_new sample_market)).
  destruct (proj1 (apply_snapshot_exact (book_new sample_market)
    (sample_candidate (Snapshot (sample_bounded first_book))) _ _
    (book_new_wf sample_market) (sample_candidate_wf (Snapshot (sample_bounded first_book)) first_wf))
    ltac:(vm_compute; reflexivity))
    as (ls & next & e & p & H1 & _ & (_ & _ & H2 & H3) & _ & _ & _ & _ & H4).
  exists ls, next, e, p. split; [exact H1|]. split; [exact H2|]. split; [exact H3|exact H4].
Defined.

Lemma derived_mutations_replay_witness :
  exists commit b', apply_snapshot (sample_candidate (Snapshot (sample_bounded second_book)))
                      based_book = (Ok commit, b') /\
    len commit.(mutations) = 3 /\
    replay based_book.(book_levels) commit.(mutations) = b'.(book_levels).
Proof.
  give_run (apply_snapshot (sample_candidate (Snapshot (sample_bounded second_book))) based_book). split; [vm_compute; reflexivity|].
  destruct (derived_mutations_replay based_book
    (sample_candidate (Snapshot (sample_bounded second_book))) _ _ based_wf
    (sample_candidate_wf (Snapshot (sample_bounded second_book)) second_wf)
    ltac:(vm_compute; reflexivity) eq_refl eq_refl ltac:(vm_compute; discriminate))
    as (_ & _ & _ & _ & H & _).
  exact H.
Defined.

Lemma apply_source_delta_exact_witness :
  exists commit b', apply_source_delta (sample_candidate (SourceDelta (sample_bounded removal)))
                      based_book = (Ok commit, b') /\
    map_get coordinate_cmp (coordinate (sample_level Ask 41 0)) b'.(book_levels) = None.
Proof.
  give_run (apply_source_delta (sample_candidate (SourceDelta (sample_bounded removal))) based_book).
  destruct (proj2 (apply_source_delta_exact based_book
    (sample_candidate (SourceDelta (sample_bounded removal))) based_wf
    (sample_candidate_wf (SourceDelta (sample_bounded removal)) removal_wf))
    _ _ (sample_bounded removal) ltac:(vm_compute; reflexivity) eq_refl) as [H _].
  apply (H (sample_level Ask 41 0)). left.
Defined.

Lemma delta_mutations_replay_witness :
  exists commit b', apply_source_delta (sample_candidate (SourceDelta (sample_bounded removal)))
                      based_book = (Ok commit, b') /\
    len commit.(mutations) = 1 /\
    replay based_book.(book_levels) commit.(mutations) = b'.(book_levels).
Proof.
  give_run (apply_source_delta (sample_candidate (SourceDelta (sample_bounded removal))) based_book). split; [vm_compute; reflexivity|].
  destruct (delta_mutations_replay based_book
    (sample_candidate (SourceDelta (sample_bounded removal))) _ _ (sample_bounded removal)
    based_wf (sample_candidate_wf (SourceDelta (sample_bounded removal)) removal_wf)
    ltac:(vm_compute; reflexivity) eq_refl) as (_ & _ & _ & _ & H & _).
  exact H.
Defined.

Lemma delta_rail_checkpoint_witness :
  exists commit b', apply_snapshot (sample_candidate (Snapshot (sample_bounded second_book)))
                      railed_book = (Ok commit, b') /\
    commit.(mutations) = [] /\ commit.(divergence) = Some {| deltas_invalidated := 1 |} /\
    b'.(continuity) = Intact 1 0.
Proof.
  give_run (apply_snapshot (sample_candidate (Snapshot (sample_bounded second_book))) railed_book).
  destruct (delta_rail_checkpoint railed_book
    (sample_candidate (Snapshot (sample_bounded second_book))) _ _ railed_wf
    (sample_candidate_wf (Snapshot (sample_bounded second_book)) second_wf)
    ltac:(vm_compute; reflexivity) ltac:(vm_compute; reflexivity))
    as (H1 & _ & _ & _ & H2 & _).
  split; [exact H1|]. split; [vm_compute; reflexivity|].
  apply H2. vm_compute. discriminate.
Defined.

Lemma revision_marks_every_change_witness :
  (book_new sample_market).(revision) <= based_book.(revision)
    <= (book_new sample_market).(revision) + 1.
Proof.
  apply (revision_marks_every_change (book_new sample_market)
    (commit_cursors (apply_snapshot (sample_candidate (Snapshot (sample_bounded first_book)))
                       (book_new sample_market)).1) based_book (book_new_wf sample_market)).
  eapply step_snapshot; [|apply surjective_pairing].
  exact (sample_candidate_wf (Snapshot (sample_bounded first_book)) first_wf).
Defined.

Lemma complement_view_involutive_witness :
  exists comp, derived_complement_levels (publish based_book) = Ok comp /\
    comp = [sample_level Bid 59 7; sample_level Ask 61 5] /\
    derived_complement_levels (with_levels (publish based_book) comp)
      = Ok (published_levels (publish based_book)).
Proof.
  destruct (complement_view_involutive sample_market [] based_book based_run)
    as (comp & E & _ & _ & H).
  exists comp. split; [exact E|]. split; [|exact H].
  assert (E' : derived_complement_levels (publish based_book)
               = Ok [sample_level Bid 59 7; sample_level Ask 61 5]) by (vm_compute; reflexivity).
  rewrite E' in E. injection E as <-. reflexivity.
Defined.
