(* ===== verification/Digest.v ===== *)
(** * Content fingerprints and projections ([src/src/dedup.rs], content)

    The FNV-1a fingerprint of a published book, and the exact byte projection of one
    candidate that the pool compares. The projection is shown to determine the content it
    was made from, as long as the market's own text is free of the two separator bytes. *)

From S2P Require Import Prelude OrdMap Numeric Identity Descriptor Continuity Observation Book.

Definition FNV_OFFSET_BASIS : Z := 14695981039346656037.   (* 0xcbf29ce484222325 *)
Definition FNV_PRIME : Z := 1099511628211.                 (* 0x00000100000001b3 *)
Definition FIELD_SEPARATOR : Z := 31.                      (* 0x1f *)
Definition RECORD_SEPARATOR : Z := 30.                     (* 0x1e *)

Record ContentDigest : Set := { digest_value : Z }.

#[export] Instance ContentDigest_eq_dec : EqDecision ContentDigest.
Proof. solve_decision. Defined.

Definition absorb (state : Z) (bs : bytes) : Z :=
  fold_left (fun state byte => wrapping_mul_u64 (Z.lxor state byte) FNV_PRIME) bs state.

Definition side_byte (s : Side) : Z := match s with Bid => 66 | Ask => 65 end.

Definition absorb_level (state : Z) (level : Level) : Z :=
  let state := absorb state [side_byte level.(side); FIELD_SEPARATOR] in
  let state := absorb state (canonical level.(price).(price_value)) in
  let state := absorb state [FIELD_SEPARATOR] in
  let state := absorb state (canonical level.(quantity).(quantity_value)) in
  absorb state [RECORD_SEPARATOR].

Definition content_digest (book : PublishedBook) : ContentDigest :=
  let market := book.(published_market) in
  let state := absorb FNV_OFFSET_BASIS market.(market_venue).(venue_text) in
  let state := absorb state [FIELD_SEPARATOR] in
  let state := absorb state market.(market_key).(key_kind).(kind_text) in
  let state := absorb state [FIELD_SEPARATOR] in
  let state := absorb state market.(market_key).(key_value) in
  let state := absorb state [RECORD_SEPARATOR] in
  {| digest_value := fold_left absorb_level book.(published_levels) state |}.

(** [{:016x}]: sixteen lowercase hex digits. *)
Definition hex_digit (n : Z) : Z := if n <? 10 then 48 + n else 87 + n.
Definition digest_display (self : ContentDigest) : bytes :=
  map (fun i => hex_digit (Z.land (Z.shiftr self.(digest_value) (4 * (15 - Z.of_nat i))) 15))
    (seq 0 16).

Record CandidateProjection : Set := { projection_bytes : bytes }.

#[export] Instance CandidateProjection_eq_dec : EqDecision CandidateProjection.
Proof. solve_decision. Defined.

Definition projection_len (self : CandidateProjection) : Z := len self.(projection_bytes).
Definition projection_digest (self : CandidateProjection) : ContentDigest :=
  {| digest_value := absorb FNV_OFFSET_BASIS self.(projection_bytes) |}.

Definition project_level (level : Level) : bytes :=
  [side_byte level.(side); FIELD_SEPARATOR]
  ++ canonical level.(price).(price_value) ++ [FIELD_SEPARATOR]
  ++ canonical level.(quantity).(quantity_value) ++ [RECORD_SEPARATOR].

Definition operation_tag (op : CandidateOperation) : Z :=
  match op with Snapshot _ => 83 | SourceDelta _ => 68 end.

Definition candidate_projection (candidate : Candidate) : CandidateProjection :=
  let market := candidate.(candidate_provenance).(market) in
  {| projection_bytes :=
       market.(market_venue).(venue_text) ++ [FIELD_SEPARATOR]
       ++ market.(market_key).(key_kind).(kind_text) ++ [FIELD_SEPARATOR]
       ++ market.(market_key).(key_value) ++ [RECORD_SEPARATOR]
       ++ [operation_tag candidate.(operation); RECORD_SEPARATOR]
       ++ concat (project_level <$> operation_levels candidate.(operation)) |}.

Definition candidate_digest (candidate : Candidate) : ContentDigest :=
  projection_digest (candidate_projection candidate).

(** The digest of a projection, against an independent evaluation of FNV-1a. *)
Example fnv_empty : absorb FNV_OFFSET_BASIS [] = 14695981039346656037.
Proof. reflexivity. Qed.
Example fnv_a : absorb FNV_OFFSET_BASIS (lit "a") = 12638187200555641996.
Proof. reflexivity. Qed.

(** ** Splitting at a separator *)

Definition free_of (sep : Z) (l : bytes) : Prop := sep ∉ l.

Lemma split_at_separator sep a b a' b' : free_of sep a -> free_of sep a' ->
  a ++ sep :: b = a' ++ sep :: b' -> a = a' /\ b = b'.
Proof.
  unfold free_of. revert a'. induction a as [|x a IH]; intros [|x' a'] Ha Ha' E; simpl in E.
  - by injection E.
  - injection E as -> _. destruct Ha'. left.
  - injection E as <- _. destruct Ha. left.
  - injection E as <- E. rewrite not_elem_of_cons in Ha. rewrite not_elem_of_cons in Ha'.
    destruct Ha as [_ Ha], Ha' as [_ Ha'].
    destruct (IH a' Ha Ha' E) as [-> ->]. done.
Qed.

(** ** Canonical spellings of amounts determine them *)

Lemma all_digits_free sep l : is_ascii_digit sep = false -> all_digits l = true -> free_of sep l.
Proof.
  unfold all_digits, free_of. rewrite forallb_forall. intros Hs H Hin.
  apply list_elem_of_In in Hin. specialize (H _ Hin). congruence.
Qed.

Lemma canonical_amount_shape d : amount_wf d -> exists whole fraction,
  canonical d = whole ++ match fraction with [] => [] | _ => 46 :: fraction end /\
  all_digits whole = true /\ all_digits fraction = true /\
  digits_val 0 (whole ++ fraction) = d.(coefficient) /\ len fraction = d.(scale).
Proof.
  intros [Hwf Hpos].
  destruct (canonical_shape d Hwf) as (w & f & E & _ & Hw & Hf & _ & Hv & Hs & _).
  exists w, f. assert ((d.(coefficient) <? 0) = false) as Hn by lia.
  rewrite Hn in E. split_and!; [done|done|done|lia|done].
Qed.

Lemma canonical_free sep d : amount_wf d -> is_ascii_digit sep = false -> sep <> 46 ->
  free_of sep (canonical d).
Proof.
  intros Hd Hs H46. destruct (canonical_amount_shape d Hd) as (w & f & -> & Hw & Hf & _).
  unfold free_of. rewrite not_elem_of_app. split; [by apply all_digits_free|].
  destruct f as [|b f]; [apply not_elem_of_nil|]. rewrite not_elem_of_cons.
  split; [done|by apply all_digits_free].
Qed.

Lemma canonical_injective d e : amount_wf d -> amount_wf e -> canonical d = canonical e -> d = e.
Proof.
  intros Hd He E. destruct (canonical_amount_shape d Hd) as (w & f & Ed & Hw & Hf & Hv & Hs).
  destruct (canonical_amount_shape e He) as (w' & f' & Ee & Hw' & Hf' & Hv' & Hs').
  rewrite Ed, Ee in E.
  assert (w = w' /\ f = f') as [-> ->].
  { pose proof (all_digits_free 46 w eq_refl Hw). pose proof (all_digits_free 46 w' eq_refl Hw').
    destruct f as [|b f], f' as [|b' f']; rewrite ?app_nil_r in E.
    - done.
    - subst w. destruct H. apply elem_of_app. right. left.
    - subst w'. destruct H0. apply elem_of_app. right. left.
    - apply split_at_separator in E; [|done|done]. done. }
  destruct d, e; simpl in *; congruence.
Qed.

(** ** The projection determines the content *)

Lemma project_level_split l k rest rest' : level_wf l -> level_wf k ->
  project_level l ++ rest = project_level k ++ rest' -> l = k /\ rest = rest'.
Proof.
  intros [[Hlp1 Hlp2] Hlq] [Hkp Hkq] E. unfold project_level in E. rewrite <- !app_assoc in E.
  simpl in E. injection E as Es E.
  apply split_at_separator in E as [Ep E]; try (apply canonical_free; done).
  simpl in E.
  apply split_at_separator in E as [Eq E]; try (apply canonical_free; done).
  apply canonical_injective in Ep; [|done|done]. apply canonical_injective in Eq; [|done|done].
  split; [|done]. destruct l as [s [p] [q]], k as [s' [p'] [q']]; simpl in *. subst.
  f_equal. by destruct s, s'.
Qed.

Lemma project_levels_injective ls ks : Forall level_wf ls -> Forall level_wf ks ->
  concat (project_level <$> ls) = concat (project_level <$> ks) -> ls = ks.
Proof.
  revert ks. induction ls as [|l ls IH]; intros [|k ks] Hl Hk E; [done|done|done|].
  apply Forall_cons_1 in Hl as [Hl Hls]. apply Forall_cons_1 in Hk as [Hk Hks].
  cbn in E. apply project_level_split in E as [-> E]; [|done|done]. f_equal. auto.
Qed.

(** The market text carries neither separator. *)
Definition separable (m : MarketRef) : Prop :=
  free_of FIELD_SEPARATOR m.(market_venue).(venue_text) /\
  free_of FIELD_SEPARATOR m.(market_key).(key_kind).(kind_text) /\
  free_of RECORD_SEPARATOR m.(market_key).(key_value).

(** What two arrivals must agree on to have reported the same content. *)
Definition same_content (c d : Candidate) : Prop :=
  c.(candidate_provenance).(market) = d.(candidate_provenance).(market) /\
  operation_tag c.(operation) = operation_tag d.(operation) /\
  operation_levels c.(operation) = operation_levels d.(operation).

(** For markets whose text is free of the separator bytes, two candidates project to the
    same bytes exactly when they report the same content — the same market, the same operation
    and the same levels in the same order — however they were stamped. *)
Theorem projection_is_content c d : candidate_wf c -> candidate_wf d ->
  separable c.(candidate_provenance).(market) -> separable d.(candidate_provenance).(market) ->
  candidate_projection c = candidate_projection d <-> same_content c d.
Proof.
  intros Hc Hd (Hcv & Hck & Hcx) (Hdv & Hdk & Hdx). split.
  - unfold candidate_projection. intros [= E]. simpl in E.
    apply split_at_separator in E as [Ev E]; [|done|done].
    apply split_at_separator in E as [Ek E]; [|done|done].
    apply split_at_separator in E as [Ex E]; [|done|done].
    injection E as Et E. apply project_levels_injective in E;
      [|apply (wf_candidate_levels c Hc)|apply (wf_candidate_levels d Hd)].
    split_and!; [|done|done].
    destruct c.(candidate_provenance).(market) as [[v] [[k] x]],
             d.(candidate_provenance).(market) as [[v'] [[k'] x']]; simpl in *. congruence.
  - intros (Em & Et & El). unfold candidate_projection. by rewrite Em, Et, El.
Qed.

(** Without that condition the projection is ambiguous: two candidates of different
    markets, with well-formed identities, can project to the same bytes. *)
Theorem projection_ambiguous_with_separators : exists c d,
  candidate_wf c /\ candidate_wf d /\
  market_wf c.(candidate_provenance).(market) /\ market_wf d.(candidate_provenance).(market) /\
  c.(candidate_provenance).(market) <> d.(candidate_provenance).(market) /\
  candidate_projection c = candidate_projection d.
Proof.
  set (prov := fun m => provenance_of
    {| in_market := m; in_outcome := None; in_native_family := lit "f";
       in_source_timestamp := None;
       in_source_evidence := {| evidence_values := [];
                                evidence_capacity := {| evidence_capacity_value := 0 |} |};
       in_daemon_generation := 0;
       in_connection := {| conn_value := lit "c"; conn_generation := 0 |};
       in_subscription_generation := 0; in_receive_position := 0; in_commit_position := 0;
       in_local_receive_time := {| local_time := 0 |};
       in_local_commit_time := {| local_time := 0 |}; in_replica := PublishingPrimaryRole;
       in_representation := VenueNative; in_origin := SourceReported;
       in_local_revision := 0; in_continuity_epoch := 0 |}).
  set (cand := fun m => {| candidate_provenance := prov m;
         operation := Snapshot {| levels := []; levels_capacity := {| level_capacity_value := 1 |} |} |}).
  set (mk := fun v k => {| market_venue := {| venue_text := v |};
         market_key := {| key_kind := {| kind_text := k |}; key_value := [97] |} |}).
  assert (Hwf : forall m, candidate_wf (cand m)).
  { intros m. split; [|constructor|done].
    split; simpl; try lia; try constructor; done || (vm_compute; discriminate). }
  exists (cand (mk [97; 31; 98] [99])), (cand (mk [97] [98; 31; 99])).
  split_and!.
  - apply Hwf.
  - apply Hwf.
  - repeat split; done.
  - repeat split; done.
  - discriminate.
  - reflexivity.
Qed.

Lemma projection_is_content_witness :
  let levels price := {| levels := [{| side := Bid;
        price := {| price_value := {| coefficient := price; scale := 1 |} |};
        quantity := {| quantity_value := {| coefficient := 3; scale := 0 |} |} |}];
      levels_capacity := {| level_capacity_value := 4 |} |} in
  let c := {| candidate_provenance := provenance_of sample_input;
              operation := Snapshot (levels 5) |} in
  let d := {| candidate_provenance := provenance_of sample_input;
              operation := Snapshot (levels 6) |} in
  (candidate_projection c = candidate_projection d <-> same_content c d) /\ ~ same_content c d.
Proof.
  intros levels c d. split.
  - assert (Hs : separable (provenance_of sample_input).(market)).
    { split; [|split]; unfold free_of; refine (bool_decide_unpack _ _); vm_compute; exact I. }
    assert (Hp : provenance_wf (provenance_of sample_input)).
    { split; simpl; try lia; try constructor; done || (vm_compute; discriminate). }
    apply (projection_is_content c d); [| |exact Hs|exact Hs].
    + split; [exact Hp| |reflexivity]. constructor; [|constructor].
      split; split; simpl; try lia; split; simpl; bounds;
        first [lia | left; reflexivity | right; discriminate].
    + split; [exact Hp| |reflexivity]. constructor; [|constructor].
      split; split; simpl; try lia; split; simpl; bounds;
        first [lia | left; reflexivity | right; discriminate].
  - intros (_ & _ & H). discriminate.
Defined.
