(* ===== verification/Pool.v ===== *)
(** * The pooled publish gate ([src/src/pool.rs])

    Several connections deliver one stream; the gate admits the first arrival of each newer
    key, drops duplicates and stale arrivals, and withdraws its own licence on the first
    contradiction. The bounded evidence ledger, every operation of [PoolGate] and their
    invariants are here. A [usize] socket index is a [nat]. *)

From S2P Require Import Prelude DedupKey Continuity Digest.

(** ** Data *)

Definition MIN_POOL_SOCKETS : nat := 2.
Definition MAX_POOL_SOCKETS : nat := 4.
Definition MAX_EVIDENCE_ENTRIES : Z := 64.
Definition MAX_EVIDENCE_BYTES : Z := 1048576.             (* 1 << 20 *)
Definition MAX_EVIDENCE_PROJECTION_BYTES : Z := 262144.   (* 256 * 1024 *)

Record EvidenceLedger : Set := {
  entries : list (DedupKey * CandidateProjection);
  ledger_bytes : Z
}.

Inductive PoolError : Set :=
| KeyOrdersNothing (semantics : DedupKeySemantics)
| SocketCountOutOfRange.

Record PoolViolation : Set := {
  reason : PoolDegradeReason;
  violation_socket : nat;
  observed_key : option DedupKey;
  previous_key : option DedupKey;
  published_key : option DedupKey;
  observed_digest : ContentDigest;
  previous_digest : option ContentDigest
}.

Inductive PoolVerdict : Set :=
| VPublish | VDuplicate | VStale | VDegrade (violation : PoolViolation) | VDisarmed.

Record SocketRecord : Set := {
  last_key : option DedupKey;
  replaced : bool;
  socket_published : Z
}.

Record PoolGate : Set := {
  declaration : DedupKeyDeclaration;
  sockets : list SocketRecord;
  last_published : option DedupKey;
  last_publisher : option nat;
  evidence : EvidenceLedger;
  degraded : option PoolDegradeReason;
  published : Z;
  duplicate_drops : Z;
  stale_drops : Z
}.

(** ** The evidence ledger *)

Definition ledger_new : EvidenceLedger := {| entries := []; ledger_bytes := 0 |}.

(** [entries.iter().find(|(recorded, _)| recorded == key)]. *)
Fixpoint find_evidence (key : DedupKey) (es : list (DedupKey * CandidateProjection)) :
    option CandidateProjection :=
  match es with
  | [] => None
  | (recorded, projection) :: rest =>
      if bool_decide (recorded = key) then Some projection else find_evidence key rest
  end.

Definition evidence_for (self : EvidenceLedger) (key : DedupKey) : option CandidateProjection :=
  find_evidence key self.(entries).

(** The eviction loop: each turn pops the oldest entry. *)
Fixpoint evict (es : list (DedupKey * CandidateProjection)) (bs : Z) : EvidenceLedger :=
  if (MAX_EVIDENCE_ENTRIES <? len es) || ((MAX_EVIDENCE_BYTES <? bs) && (1 <? len es))
  then match es with
       | [] => {| entries := []; ledger_bytes := bs |}
       | (_, projection) :: rest => evict rest (saturating_sub_usize bs (projection_len projection))
       end
  else {| entries := es; ledger_bytes := bs |}.

Definition ledger_record (self : EvidenceLedger) (key : DedupKey)
    (projection : CandidateProjection) : EvidenceLedger :=
  evict (self.(entries) ++ [(key, projection)])
    (saturating_add_usize self.(ledger_bytes) (projection_len projection)).

(** ** The gate *)

Definition socket_default : SocketRecord :=
  {| last_key := None; replaced := false; socket_published := 0 |}.

Definition gate_new (declaration : DedupKeyDeclaration) (count : nat) :
    result PoolGate PoolError :=
  refuse negb (admits_pooled_publish declaration.(semantics))
    with KeyOrdersNothing declaration.(semantics) ;;
  refuse negb ((MIN_POOL_SOCKETS <=? count)%nat && (count <=? MAX_POOL_SOCKETS)%nat)
    with SocketCountOutOfRange ;;
  Ok {| declaration := declaration; sockets := repeat socket_default count;
        last_published := None; last_publisher := None; evidence := ledger_new;
        degraded := None; published := 0; duplicate_drops := 0; stale_drops := 0 |}.

(** Field updates. *)
Definition set_degraded (d : option PoolDegradeReason) (g : PoolGate) : PoolGate :=
  {| declaration := g.(declaration); sockets := g.(sockets);
     last_published := g.(last_published); last_publisher := g.(last_publisher);
     evidence := g.(evidence); degraded := d; published := g.(published);
     duplicate_drops := g.(duplicate_drops); stale_drops := g.(stale_drops) |}.
Definition set_evidence (e : EvidenceLedger) (g : PoolGate) : PoolGate :=
  {| declaration := g.(declaration); sockets := g.(sockets);
     last_published := g.(last_published); last_publisher := g.(last_publisher);
     evidence := e; degraded := g.(degraded); published := g.(published);
     duplicate_drops := g.(duplicate_drops); stale_drops := g.(stale_drops) |}.
Definition set_sockets (s : list SocketRecord) (g : PoolGate) : PoolGate :=
  {| declaration := g.(declaration); sockets := s;
     last_published := g.(last_published); last_publisher := g.(last_publisher);
     evidence := g.(evidence); degraded := g.(degraded); published := g.(published);
     duplicate_drops := g.(duplicate_drops); stale_drops := g.(stale_drops) |}.
Definition set_drops (d s : Z) (g : PoolGate) : PoolGate :=
  {| declaration := g.(declaration); sockets := g.(sockets);
     last_published := g.(last_published); last_publisher := g.(last_publisher);
     evidence := g.(evidence); degraded := g.(degraded); published := g.(published);
     duplicate_drops := d; stale_drops := s |}.
Definition set_published (key : option DedupKey) (publisher : option nat) (n : Z)
    (g : PoolGate) : PoolGate :=
  {| declaration := g.(declaration); sockets := g.(sockets); last_published := key;
     last_publisher := publisher; evidence := g.(evidence); degraded := g.(degraded);
     published := n; duplicate_drops := g.(duplicate_drops);
     stale_drops := g.(stale_drops) |}.

Definition with_last_key (k : option DedupKey) (r : SocketRecord) : SocketRecord :=
  {| last_key := k; replaced := r.(replaced); socket_published := r.(socket_published) |}.
Definition with_replaced (b : bool) (r : SocketRecord) : SocketRecord :=
  {| last_key := r.(last_key); replaced := b; socket_published := r.(socket_published) |}.
Definition with_published (n : Z) (r : SocketRecord) : SocketRecord :=
  {| last_key := r.(last_key); replaced := r.(replaced); socket_published := n |}.

Definition withdraw (self : PoolGate) (reason : PoolDegradeReason) (socket : nat)
    (observed_key previous_key : option DedupKey) (observed_digest : ContentDigest)
    (previous_digest : option ContentDigest) : PoolVerdict * PoolGate :=
  (VDegrade {| reason := reason; violation_socket := socket; observed_key := observed_key;
               previous_key := previous_key; published_key := self.(last_published);
               observed_digest := observed_digest; previous_digest := previous_digest |},
   set_degraded (Some reason) self).

Definition is_inversion (r : KeyRelation) : bool :=
  match r with Inversion => true | _ => false end.
Definition is_newer (r : KeyRelation) : bool :=
  match r with First | Advance => true | _ => false end.

(** What a socket's own history says against an arrival: the withdrawal, if any. *)
Definition history_violation (semantics : DedupKeySemantics) (floor : option DedupKey)
    (record : SocketRecord) (key : DedupKey) :
    option (PoolDegradeReason * option DedupKey) :=
  match record.(last_key) with
  | Some last =>
      if is_inversion (classify_key semantics (Some last) key)
      then Some (ConnectionInversion, Some last) else None
  | None =>
      if record.(replaced) then
        match floor with
        | Some f => if is_inversion (classify_key semantics (Some f) key)
                    then Some (ReconnectRewind, floor) else None
        | None => None
        end
      else None
  end.

Definition gate_admit (self : PoolGate) (socket : nat) (key : option DedupKey)
    (projection : CandidateProjection) : PoolVerdict * PoolGate :=
  match self.(degraded), self.(sockets) !! socket with
  | Some _, _ | None, None => (VDisarmed, self)
  | None, Some record =>
      let semantics := self.(declaration).(semantics) in
      let digest := projection_digest projection in
      match key with
      | None => withdraw self KeyUnavailable socket None None digest None
      | Some key =>
          if bool_decide (as_integer key = None)
             || (MAX_EVIDENCE_PROJECTION_BYTES <? projection_len projection)
          then withdraw self KeyUnavailable socket (Some key) None digest None
          else
            match (match evidence_for self.(evidence) key with
                   | Some recorded => if bool_decide (recorded = projection) then Ok true
                                      else Err (projection_digest recorded)
                   | None => Ok false
                   end) with
            | Err previous => withdraw self EqualKeyContentMismatch socket (Some key) (Some key)
                                digest (Some previous)
            | Ok recorded =>
                match history_violation semantics self.(last_published) record key with
                | Some (reason, previous) =>
                    withdraw self reason socket (Some key) previous digest None
                | None =>
                    let self :=
                      if recorded then self
                      else set_evidence (ledger_record self.(evidence) key projection) self in
                    let self :=
                      if is_newer (classify_key semantics record.(last_key) key)
                      then set_sockets
                             (<[socket := with_last_key (Some key) record]> self.(sockets)) self
                      else self in
                    match classify_key semantics self.(last_published) key with
                    | First | Advance => (VPublish, self)
                    | Duplicate =>
                        (VDuplicate, set_drops (saturating_add_u64 self.(duplicate_drops) 1)
                                       self.(stale_drops) self)
                    | Inversion =>
                        (VStale, set_drops self.(duplicate_drops)
                                   (saturating_add_u64 self.(stale_drops) 1) self)
                    | Unordered => (VDisarmed, self)
                    end
                end
            end
      end
  end.

Definition evidence_matches (self : PoolGate) (key : DedupKey)
    (projection : CandidateProjection) : bool :=
  match evidence_for self.(evidence) key with
  | Some recorded => bool_decide (recorded = projection)
  | None => false
  end.

(** One more publication credited to a socket, when it is one of the pool's. *)
Definition credit_socket (socket : nat) (rs : list SocketRecord) : list SocketRecord :=
  alter (fun r => with_published (saturating_add_u64 r.(socket_published) 1) r) socket rs.

Definition committed (self : PoolGate) (socket : nat) (key : DedupKey) : PoolGate :=
  let self := set_published (Some key) (Some socket)
                (saturating_add_u64 self.(published) 1) self in
  set_sockets (credit_socket socket self.(sockets)) self.

Definition gate_recovered (self : PoolGate) (socket : nat) : PoolGate :=
  let self := set_drops (saturating_sub_u64 self.(duplicate_drops) 1) self.(stale_drops) self in
  let self := set_published self.(last_published) self.(last_publisher)
                (saturating_add_u64 self.(published) 1) self in
  set_sockets (credit_socket socket self.(sockets)) self.

Definition reassign_socket (self : PoolGate) (from to : nat) : PoolGate :=
  match self.(sockets) !! from, self.(sockets) !! to with
  | Some f, Some t =>
      if (from =? to)%nat then self
      else
        let rs := <[from := with_last_key None f]> self.(sockets) in
        let rs := <[to := with_replaced f.(replaced) (with_last_key f.(last_key) t)]> rs in
        let rs := <[from := with_replaced true (with_last_key None f)]> rs in
        let self := set_sockets rs self in
        if bool_decide (self.(last_publisher) = Some from)
        then set_published self.(last_published) (Some to) self.(published) self
        else self
  | _, _ => self
  end.

Definition exchange_sockets (self : PoolGate) (a b : nat) : PoolGate :=
  match self.(sockets) !! a, self.(sockets) !! b with
  | Some ra, Some rb =>
      if (a =? b)%nat then self
      else
        let rs := <[b := ra]> (<[a := rb]> self.(sockets)) in
        let rs := <[a := with_published ra.(socket_published) rb]> rs in
        let rs := <[b := with_published rb.(socket_published) ra]> rs in
        let self := set_sockets rs self in
        let publisher :=
          match self.(last_publisher) with
          | Some socket => if (socket =? a)%nat then Some b
                           else if (socket =? b)%nat then Some a else Some socket
          | None => None
          end in
        set_published self.(last_published) publisher self.(published) self
  | _, _ => self
  end.

Definition reset_socket (self : PoolGate) (socket : nat) : PoolGate :=
  set_sockets (alter (with_last_key None) socket self.(sockets)) self.

Definition retire_socket (self : PoolGate) (socket : nat) : PoolGate :=
  set_sockets (alter (fun r => with_replaced true (with_last_key None r)) socket
                 self.(sockets)) self.

Definition degrade (self : PoolGate) (reason : PoolDegradeReason) : bool * PoolGate :=
  match self.(degraded) with
  | Some _ => (false, self)
  | None => (true, set_degraded (Some reason) self)
  end.

Definition is_armed (self : PoolGate) : bool :=
  match self.(degraded) with None => true | Some _ => false end.

Definition published_by_socket (self : PoolGate) : list Z :=
  socket_published <$> self.(sockets).
Definition evidence_entries (self : PoolGate) : Z := len self.(evidence).(entries).
Definition evidence_bytes (self : PoolGate) : Z := self.(evidence).(ledger_bytes).

(** ** The ledger's bounds *)

Definition total_bytes (es : list (DedupKey * CandidateProjection)) : Z :=
  foldr (fun e acc => projection_len e.2 + acc) 0 es.

(** Entries within the count, bytes exactly their sum, every projection within its own limit
    (so the sum is within the byte limit too), and no key recorded twice. *)
Record ledger_wf (l : EvidenceLedger) : Prop := {
  wf_count : len l.(entries) <= MAX_EVIDENCE_ENTRIES;
  wf_bytes : l.(ledger_bytes) = total_bytes l.(entries);
  wf_total : l.(ledger_bytes) <= MAX_EVIDENCE_BYTES;
  wf_each : Forall (fun e => projection_len e.2 <= MAX_EVIDENCE_PROJECTION_BYTES) l.(entries);
  wf_keys : NoDup l.(entries).*1
}.

Lemma projection_len_nonneg p : 0 <= projection_len p.
Proof. apply len_nonneg. Qed.

Lemma total_bytes_nonneg es : 0 <= total_bytes es.
Proof.
  induction es as [|e es IH]; simpl; [lia|]. pose proof (projection_len_nonneg e.2). lia.
Qed.

Lemma total_bytes_app es k p : total_bytes (es ++ [(k, p)]) = total_bytes es + projection_len p.
Proof. induction es as [|e es IH]; simpl; lia. Qed.

Lemma evict_cons e es bs :
  evict (e :: es) bs =
  if (MAX_EVIDENCE_ENTRIES <? len (e :: es)) || ((MAX_EVIDENCE_BYTES <? bs) && (1 <? len (e :: es)))
  then evict es (saturating_sub_usize bs (projection_len e.2))
  else {| entries := e :: es; ledger_bytes := bs |}.
Proof. destruct e. reflexivity. Qed.

(** Eviction drops a prefix, never the newest entry, and stops within both bounds. *)
Lemma evict_spec es k p bs :
  projection_len p <= MAX_EVIDENCE_BYTES -> bs = total_bytes (es ++ [(k, p)]) ->
  exists kept, kept `suffix_of` es /\
    evict (es ++ [(k, p)]) bs =
      {| entries := kept ++ [(k, p)]; ledger_bytes := total_bytes (kept ++ [(k, p)]) |} /\
    len (kept ++ [(k, p)]) <= MAX_EVIDENCE_ENTRIES /\
    total_bytes (kept ++ [(k, p)]) <= MAX_EVIDENCE_BYTES /\
    forall e, (e :: kept) `suffix_of` es ->
      MAX_EVIDENCE_ENTRIES < len (e :: kept ++ [(k, p)]) \/
      MAX_EVIDENCE_BYTES < total_bytes (e :: kept ++ [(k, p)]).
Proof.
  intros Hp. revert bs. induction es as [|e es IH]; intros bs ->.
  - exists []. simpl app. rewrite evict_cons. simpl total_bytes.
    rewrite Z.add_0_r. rewrite len_cons, len_nil. unfold MAX_EVIDENCE_ENTRIES.
    assert ((1 <? 1 + 0) = false) as -> by lia. rewrite andb_false_r.
    split_and!; [done|done|lia|lia|]. by intros e0 ?%suffix_nil_inv.
  - simpl app. rewrite evict_cons. rewrite len_cons.
    pose proof (len_nonneg (es ++ [(k, p)])) as Hlen.
    destruct (_ || _) eqn:G.
    + simpl total_bytes. unfold saturating_sub_usize.
      pose proof (total_bytes_nonneg (es ++ [(k, p)])).
      destruct (IH (total_bytes (es ++ [(k, p)])) eq_refl) as (kept & Hs & E & H1 & H2 & H3).
      exists kept. split; [by apply suffix_cons_r|].
      replace (Z.max 0 (projection_len e.2 + total_bytes (es ++ [(k, p)]) - projection_len e.2))
        with (total_bytes (es ++ [(k, p)])) by lia. split_and!; try done.
      intros e0 Hs0. apply suffix_cons_inv in Hs0 as [[= -> ->]|Hs0]; [|auto].
      rewrite len_cons. bool_facts. destruct G as [G|G]; bool_facts; auto.
    + exists (e :: es). bool_facts. split; [done|]. split; [done|]. simpl app. rewrite len_cons.
      split; [lia|]. rewrite len_app, len_cons, len_nil in *. pose proof (len_nonneg es).
      split; [destruct H0 as [H0|H0]; bool_facts; lia|].
      intros e0 [pre Hs0]. exfalso. apply (f_equal length) in Hs0.
      rewrite length_app in Hs0. simpl in Hs0. lia.
Qed.

Lemma find_evidence_elem k es p : find_evidence k es = Some p -> (k, p) ∈ es.
Proof.
  induction es as [|[k' p'] es IH]; simpl; [done|]. case_bool_decide as E.
  - intros [= ->]. subst. left.
  - intros H. right. auto.
Qed.

Lemma find_evidence_None k es : find_evidence k es = None <-> k ∉ es.*1.
Proof.
  induction es as [|[k' p'] es IH]; simpl; [split; [intros _; apply not_elem_of_nil|done]|].
  rewrite not_elem_of_cons. case_bool_decide as E; [split; [done|by intros [? _]]|].
  rewrite IH. split; [auto|tauto].
Qed.

Lemma find_evidence_last k es p : k ∉ es.*1 -> find_evidence k (es ++ [(k, p)]) = Some p.
Proof.
  induction es as [|[k' p'] es IH]; simpl; [by rewrite bool_decide_true|].
  rewrite not_elem_of_cons. intros [Hne Hn]. rewrite bool_decide_false by congruence. auto.
Qed.

(** Recording a fresh key keeps the invariant and leaves that key answered exactly. *)
Lemma ledger_record_spec l k p : ledger_wf l -> evidence_for l k = None ->
  projection_len p <= MAX_EVIDENCE_PROJECTION_BYTES ->
  ledger_wf (ledger_record l k p) /\ evidence_for (ledger_record l k p) k = Some p /\
  exists kept, kept `suffix_of` l.(entries) /\
    (ledger_record l k p).(entries) = kept ++ [(k, p)] /\
    forall e, (e :: kept) `suffix_of` l.(entries) ->
      MAX_EVIDENCE_ENTRIES < len (e :: kept ++ [(k, p)]) \/
      MAX_EVIDENCE_BYTES < total_bytes (e :: kept ++ [(k, p)]).
Proof.
  intros [Hc Hb Ht He Hk] Hnone Hp. apply find_evidence_None in Hnone.
  unfold ledger_record, saturating_add_usize.
  pose proof (projection_len_nonneg p). pose proof (total_bytes_nonneg l.(entries)).
  assert (Hbs : Z.min USIZE_MAX (l.(ledger_bytes) + projection_len p)
                = total_bytes (l.(entries) ++ [(k, p)])).
  { rewrite total_bytes_app, Hb. unfold MAX_EVIDENCE_BYTES, MAX_EVIDENCE_PROJECTION_BYTES in *.
    bounds. lia. }
  destruct (evict_spec l.(entries) k p _ ltac:(unfold MAX_EVIDENCE_BYTES,
    MAX_EVIDENCE_PROJECTION_BYTES in *; lia) Hbs) as (kept & Hs & -> & H1 & H2 & H3).
  assert (Hkn : (k ∉ kept.*1) /\ NoDup (kept.*1) /\
                Forall (fun e => projection_len e.2 <= MAX_EVIDENCE_PROJECTION_BYTES) kept).
  { destruct Hs as [pre E]. rewrite E in *. rewrite fmap_app in *.
    rewrite not_elem_of_app in Hnone. apply NoDup_app in Hk as (_ & _ & ?).
    apply Forall_app in He as [_ ?]. tauto. }
  destruct Hkn as (Hkn & Hnd & Hall). split_and!.
  - split; simpl; try done.
    + apply Forall_app. split; [done|]. by constructor.
    + rewrite fmap_app. apply NoDup_app. split_and!; [done| |by apply NoDup_singleton].
      intros x Hx Hx'. apply list_elem_of_singleton in Hx' as ->. done.
  - unfold evidence_for. simpl. by apply find_evidence_last.
  - exists kept. done.
Qed.

(** ** The gate's invariant *)

Definition integer_key (k : DedupKey) : Prop := exists n, k = Integer n.
Definition integer_option (k : option DedupKey) : Prop :=
  match k with None => True | Some k => integer_key k end.

Record gate_wf (g : PoolGate) : Prop := {
  wf_semantics : orders_within_session g.(declaration).(semantics) = true;
  wf_sockets : (MIN_POOL_SOCKETS <= length g.(sockets) <= MAX_POOL_SOCKETS)%nat;
  wf_socket_keys : Forall (fun r => integer_option r.(last_key)) g.(sockets);
  wf_published : integer_option g.(last_published);
  wf_ledger : ledger_wf g.(evidence);
  wf_counts : 0 <= g.(published) <= U64_MAX /\ 0 <= g.(duplicate_drops) <= U64_MAX /\
              0 <= g.(stale_drops) <= U64_MAX
}.

Lemma ledger_new_wf : ledger_wf ledger_new.
Proof. split; simpl; try constructor; vm_compute; discriminate. Qed.

Lemma gate_new_wf d n g : gate_new d n = Ok g -> gate_wf g /\ g.(degraded) = None /\
  g.(last_published) = None /\ g.(sockets) = repeat socket_default n /\ g.(evidence) = ledger_new.
Proof.
  unfold gate_new. destruct (negb (admits_pooled_publish _)) eqn:E1; [done|].
  destruct (negb (_ && _)) eqn:E2; [done|]. intros [= <-]. bool_facts.
  split; [|done]. split; simpl; try done.
  - rewrite repeat_length. apply Nat.leb_le in H. apply Nat.leb_le in H0. done.
  - apply Forall_forall. intros r Hr. apply list_elem_of_In, repeat_spec in Hr as ->. done.
  - apply ledger_new_wf.
Qed.

Lemma set_degraded_wf d g : gate_wf g -> gate_wf (set_degraded d g).
Proof. intros []. by split. Qed.

Lemma set_sockets_wf rs g : gate_wf g -> length rs = length g.(sockets) ->
  Forall (fun r => integer_option r.(last_key)) rs -> gate_wf (set_sockets rs g).
Proof. intros [] Hl Hf. split; simpl; try done. by rewrite Hl. Qed.

Lemma set_evidence_wf e g : gate_wf g -> ledger_wf e -> gate_wf (set_evidence e g).
Proof. intros [] He. by split. Qed.

Lemma set_drops_wf d s g : gate_wf g -> 0 <= d <= U64_MAX -> 0 <= s <= U64_MAX ->
  gate_wf (set_drops d s g).
Proof. intros [] Hd Hs. split; simpl; try done. tauto. Qed.

Lemma set_published_wf k p n g : gate_wf g -> integer_option k -> 0 <= n <= U64_MAX ->
  gate_wf (set_published k p n g).
Proof. intros [] Hk Hn. split; simpl; try done. tauto. Qed.

Lemma saturating_add_range x : 0 <= x <= U64_MAX -> 0 <= saturating_add_u64 x 1 <= U64_MAX.
Proof. unfold saturating_add_u64. bounds. lia. Qed.

Lemma Forall_alter_keys f i (rs : list SocketRecord) :
  (forall r, integer_option r.(last_key) -> integer_option (f r).(last_key)) ->
  Forall (fun r => integer_option r.(last_key)) rs ->
  Forall (fun r => integer_option r.(last_key)) (alter f i rs).
Proof. intros Hf Hrs. apply Forall_alter; [done|]. intros x Hx. apply Hf. Qed.

(** ** What one arrival does *)

(** The gate after an arrival passed every check: its content on record, and its key the
    socket's last when it is newer. *)
Definition observed (g : PoolGate) (socket : nat) (record : SocketRecord) (key : DedupKey)
    (projection : CandidateProjection) : PoolGate :=
  let g1 := match evidence_for g.(evidence) key with
            | Some _ => g
            | None => set_evidence (ledger_record g.(evidence) key projection) g
            end in
  if is_newer (classify_key g.(declaration).(semantics) record.(last_key) key)
  then set_sockets (<[socket := with_last_key (Some key) record]> g.(sockets)) g1
  else g1.

(** The verdict of a passed arrival against the last published key. *)
Definition judge (g : PoolGate) (key : DedupKey) : PoolVerdict * PoolGate :=
  match classify_key g.(declaration).(semantics) g.(last_published) key with
  | First | Advance => (VPublish, g)
  | Duplicate =>
      (VDuplicate, set_drops (saturating_add_u64 g.(duplicate_drops) 1) g.(stale_drops) g)
  | Inversion =>
      (VStale, set_drops g.(duplicate_drops) (saturating_add_u64 g.(stale_drops) 1) g)
  | Unordered => (VDisarmed, g)
  end.

Lemma observed_fields g s r k p :
  (observed g s r k p).(declaration) = g.(declaration) /\
  (observed g s r k p).(last_published) = g.(last_published) /\
  (observed g s r k p).(degraded) = g.(degraded) /\
  (observed g s r k p).(published) = g.(published) /\
  (observed g s r k p).(duplicate_drops) = g.(duplicate_drops) /\
  (observed g s r k p).(stale_drops) = g.(stale_drops).
Proof. unfold observed. destruct (evidence_for _ _), (is_newer _); done. Qed.

Lemma admit_passes g s r k p : g.(degraded) = None -> g.(sockets) !! s = Some r ->
  as_integer k <> None -> projection_len p <= MAX_EVIDENCE_PROJECTION_BYTES ->
  (forall q, evidence_for g.(evidence) k = Some q -> q = p) ->
  history_violation g.(declaration).(semantics) g.(last_published) r k = None ->
  gate_admit g s (Some k) p = judge (observed g s r k p) k.
Proof.
  intros Hd Hr Hk Hp He Hh. unfold gate_admit. rewrite Hd, Hr, bool_decide_false by done.
  assert ((MAX_EVIDENCE_PROJECTION_BYTES <? projection_len p) = false) as -> by lia.
  cbn [orb]. unfold judge. destruct (observed_fields g s r k p) as (-> & -> & _ & _ & -> & ->).
  unfold observed. destruct (evidence_for g.(evidence) k) as [q|] eqn:E.
  - rewrite (He q) by done. rewrite bool_decide_true by done. rewrite Hh.
    destruct (is_newer _); done.
  - rewrite Hh. destruct (is_newer _); done.
Qed.

Ltac give_violation :=
  unfold withdraw; match goal with |- exists v, (VDegrade ?x, _) = _ => exists x; reflexivity end.

(** Every other arrival at an armed gate withdraws the licence and changes nothing else. *)
Lemma admit_withdraws g s r k p : g.(degraded) = None -> g.(sockets) !! s = Some r ->
  (as_integer k = None \/ MAX_EVIDENCE_PROJECTION_BYTES < projection_len p \/
   (exists q, evidence_for g.(evidence) k = Some q /\ q <> p) \/
   history_violation g.(declaration).(semantics) g.(last_published) r k <> None) ->
  exists v, gate_admit g s (Some k) p = (VDegrade v, set_degraded (Some v.(reason)) g).
Proof.
  intros Hd Hr Hv. unfold gate_admit. rewrite Hd, Hr.
  destruct (bool_decide (as_integer k = None) || _) eqn:G; [give_violation|].
  bool_facts. destruct (evidence_for g.(evidence) k) as [q|] eqn:E.
  - case_bool_decide as Eq; [|give_violation].
    destruct (history_violation _ _ _ _) as [[rs pk]|] eqn:Eh; [give_violation|].
    destruct Hv as [?|[?|[(q' & [= <-] & ?)|?]]]; done || lia.
  - destruct (history_violation _ _ _ _) as [[rs pk]|] eqn:Eh; [give_violation|].
    destruct Hv as [?|[?|[(q' & ? & ?)|?]]]; done || lia.
Qed.

(** Either of the two, whatever the arrival. *)
Lemma admit_dichotomy g s r k p : g.(degraded) = None -> g.(sockets) !! s = Some r ->
  (exists v, gate_admit g s (Some k) p = (VDegrade v, set_degraded (Some v.(reason)) g)) \/
  (as_integer k <> None /\ projection_len p <= MAX_EVIDENCE_PROJECTION_BYTES /\
   (forall q, evidence_for g.(evidence) k = Some q -> q = p) /\
   history_violation g.(declaration).(semantics) g.(last_published) r k = None /\
   gate_admit g s (Some k) p = judge (observed g s r k p) k).
Proof.
  intros Hd Hr.
  destruct (decide (as_integer k = None)); [left; eapply admit_withdraws; eauto|].
  destruct (decide (MAX_EVIDENCE_PROJECTION_BYTES < projection_len p));
    [left; eapply admit_withdraws; eauto|].
  destruct (history_violation g.(declaration).(semantics) g.(last_published) r k) eqn:Eh;
    [left; eapply admit_withdraws; eauto; right; right; right; by rewrite Eh|].
  destruct (evidence_for g.(evidence) k) as [q|] eqn:E.
  - destruct (decide (q = p)) as [->|Hne].
    + right. assert (H : forall q, Some p = Some q -> q = p) by (by intros q [= ->]).
      split_and!; auto; [lia|]. apply admit_passes; auto; [lia|]. by rewrite E.
    + left. eapply admit_withdraws; eauto. right. right. left. eauto.
  - right. split_and!; auto; [lia|done|]. apply admit_passes; auto; [lia|]. by rewrite E.
Qed.

Lemma observed_wf g s r k p : gate_wf g -> g.(sockets) !! s = Some r -> integer_key k ->
  projection_len p <= MAX_EVIDENCE_PROJECTION_BYTES -> gate_wf (observed g s r k p).
Proof.
  intros Hg Hr Hk Hp. unfold observed.
  assert (Hg1 : gate_wf (match evidence_for g.(evidence) k with
                         | Some _ => g
                         | None => set_evidence (ledger_record g.(evidence) k p) g
                         end)).
  { destruct (evidence_for g.(evidence) k) eqn:E; [done|]. apply set_evidence_wf; [done|].
    apply ledger_record_spec; [apply Hg|done|done]. }
  destruct (is_newer _); [|done]. apply set_sockets_wf; [done| |].
  - rewrite length_insert. by destruct (evidence_for g.(evidence) k).
  - apply Forall_insert; [apply Hg|done].
Qed.

Lemma judge_wf g k : gate_wf g -> gate_wf (judge g k).2.
Proof.
  intros Hg. destruct (wf_counts g Hg) as (_ & Hd & Hs).
  unfold judge. destruct (classify_key _ _ _); simpl; try done;
    apply set_drops_wf; auto using saturating_add_range.
Qed.

Lemma judge_degraded g k : (judge g k).2.(degraded) = g.(degraded).
Proof. unfold judge. by destruct (classify_key _ _ _). Qed.

Lemma admit_wf g s k p : gate_wf g -> gate_wf (gate_admit g s k p).2.
Proof.
  intros Hg. destruct g.(degraded) as [d|] eqn:Hd; [by unfold gate_admit; rewrite Hd|].
  destruct (g.(sockets) !! s) as [r|] eqn:Hr; [|by unfold gate_admit; rewrite Hd, Hr].
  destruct k as [k|].
  2: { unfold gate_admit. rewrite Hd, Hr. by apply set_degraded_wf. }
  destruct (admit_dichotomy g s r k p Hd Hr) as [(v & ->)|(Hk & Hp & _ & _ & ->)].
  - by apply set_degraded_wf.
  - apply judge_wf, observed_wf; try done. destruct k as [n|]; [by exists n|done].
Qed.

(** The judgement of a passed integer key, as numbers. *)
Definition int_key (k : option DedupKey) : option Z := k ≫= as_integer.

Lemma judge_integer g n : gate_wf g ->
  judge g (Integer n) =
  match int_key g.(last_published) with
  | None => (VPublish, g)
  | Some m =>
      match m ?= n with
      | Lt => (VPublish, g)
      | Eq => (VDuplicate, set_drops (saturating_add_u64 g.(duplicate_drops) 1) g.(stale_drops) g)
      | Gt => (VStale, set_drops g.(duplicate_drops) (saturating_add_u64 g.(stale_drops) 1) g)
      end
  end.
Proof.
  intros Hg. unfold judge. pose proof (wf_published g Hg) as Hp.
  destruct g.(last_published) as [k|]; [|done]. destruct Hp as [m ->].
  change (int_key (Some (Integer m))) with (Some m). cbn iota beta.
  rewrite classify_key_order by apply Hg. by destruct (m ?= n).
Qed.

(** ** The other operations keep the invariant *)

Lemma credit_socket_wf g s : gate_wf g -> gate_wf (set_sockets (credit_socket s g.(sockets)) g).
Proof.
  intros Hg. unfold credit_socket. apply set_sockets_wf; [done|by rewrite length_alter|].
  apply Forall_alter_keys; [done|apply Hg].
Qed.

Lemma committed_wf g s n : gate_wf g -> gate_wf (committed g s (Integer n)).
Proof.
  intros Hg. apply credit_socket_wf, set_published_wf; [done|by exists n|].
  apply saturating_add_range, Hg.
Qed.

Lemma gate_recovered_wf g s : gate_wf g -> gate_wf (gate_recovered g s).
Proof.
  intros Hg. destruct (wf_counts g Hg) as (Hp & Hd & Hs).
  apply credit_socket_wf, set_published_wf; [|apply Hg|by apply saturating_add_range].
  apply set_drops_wf; [done| |done]. unfold saturating_sub_u64. lia.
Qed.

Lemma sockets_insert_wf g i r : gate_wf g -> integer_option r.(last_key) ->
  gate_wf (set_sockets (<[i := r]> g.(sockets)) g).
Proof.
  intros Hg Hr. apply set_sockets_wf; [done|by rewrite length_insert|].
  apply Forall_insert; [apply Hg|done].
Qed.

Lemma socket_key g i r : gate_wf g -> g.(sockets) !! i = Some r -> integer_option r.(last_key).
Proof. intros Hg Hr. pose proof (wf_socket_keys g Hg) as H. by eapply Forall_lookup_1 in H. Qed.

Lemma reassign_socket_wf g a b : gate_wf g -> gate_wf (reassign_socket g a b).
Proof.
  intros Hg. unfold reassign_socket.
  destruct (g.(sockets) !! a) as [f|] eqn:Ea; [|done].
  destruct (g.(sockets) !! b) as [t|] eqn:Eb; [|done]. destruct (a =? b)%nat; [done|].
  pose proof (socket_key g a f Hg Ea) as Hf.
  assert (H : gate_wf (set_sockets (<[a := with_replaced true (with_last_key None f)]>
    (<[b := with_replaced f.(replaced) (with_last_key f.(last_key) t)]>
      (<[a := with_last_key None f]> g.(sockets)))) g)).
  { apply set_sockets_wf; [done|by rewrite !length_insert|].
    apply Forall_insert; [|done]. apply Forall_insert; [|done]. by apply Forall_insert; [apply Hg|]. }
  case_bool_decide; [|done]. apply set_published_wf; [done|apply Hg|apply Hg].
Qed.

Lemma exchange_sockets_wf g a b : gate_wf g -> gate_wf (exchange_sockets g a b).
Proof.
  intros Hg. unfold exchange_sockets.
  destruct (g.(sockets) !! a) as [ra|] eqn:Ea; [|done].
  destruct (g.(sockets) !! b) as [rb|] eqn:Eb; [|done]. destruct (a =? b)%nat; [done|].
  pose proof (socket_key g a ra Hg Ea) as Hra. pose proof (socket_key g b rb Hg Eb) as Hrb.
  apply set_published_wf; [|apply Hg|apply Hg].
  apply set_sockets_wf; [done|by rewrite !length_insert|].
  repeat (apply Forall_insert; [|done]). apply Hg.
Qed.

Lemma alter_socket_wf g f s : gate_wf g ->
  (forall r, integer_option r.(last_key) -> integer_option (f r).(last_key)) ->
  gate_wf (set_sockets (alter f s g.(sockets)) g).
Proof.
  intros Hg Hf. apply set_sockets_wf; [done|by rewrite length_alter|].
  apply Forall_alter_keys; [done|apply Hg].
Qed.

Lemma degrade_wf g r : gate_wf g -> gate_wf (degrade g r).2.
Proof. intros Hg. unfold degrade. destruct g.(degraded); [done|]. by apply set_degraded_wf. Qed.

(** ** Steps of a gate

    A [Publish] verdict is followed by [committed] when the application succeeded; every other
    call stands alone. A step carries the keys it published. *)
Inductive gate_step : PoolGate -> list Z -> PoolGate -> Prop :=
| gs_published g s n p g1 : gate_admit g s (Some (Integer n)) p = (VPublish, g1) ->
    gate_step g [n] (committed g1 s (Integer n))
| gs_admitted g s k p v g1 : gate_admit g s k p = (v, g1) -> gate_step g [] g1
| gs_recovered g s : gate_step g [] (gate_recovered g s)
| gs_reassigned g a b : gate_step g [] (reassign_socket g a b)
| gs_exchanged g a b : gate_step g [] (exchange_sockets g a b)
| gs_reset g s : gate_step g [] (reset_socket g s)
| gs_retired g s : gate_step g [] (retire_socket g s)
| gs_degraded g r : gate_step g [] (degrade g r).2.

Inductive gate_run : PoolGate -> list Z -> PoolGate -> Prop :=
| gate_run_nil g : gate_run g [] g
| gate_run_cons g ns g' ns' g'' : gate_step g ns g' -> gate_run g' ns' g'' ->
    gate_run g (ns ++ ns') g''.

Lemma gate_step_wf g ns g' : gate_wf g -> gate_step g ns g' -> gate_wf g'.
Proof.
  intros Hg Hs; destruct Hs; auto using gate_recovered_wf, reassign_socket_wf, exchange_sockets_wf, degrade_wf.
  - apply committed_wf. pose proof (admit_wf g s (Some (Integer n)) p Hg) as Hw. by rewrite H in Hw.
  - pose proof (admit_wf g s k p Hg) as Hw. by rewrite H in Hw.
  - by apply alter_socket_wf.
  - by apply alter_socket_wf.
Qed.

Lemma admit_last_published g s k p : (gate_admit g s k p).2.(last_published) = g.(last_published).
Proof.
  destruct g.(degraded) as [d|] eqn:Hd; [by unfold gate_admit; rewrite Hd|].
  destruct (g.(sockets) !! s) as [r|] eqn:Hr; [|by unfold gate_admit; rewrite Hd, Hr].
  destruct k as [k|]; [|by unfold gate_admit; rewrite Hd, Hr].
  destruct (admit_dichotomy g s r k p Hd Hr) as [(v & ->)|(_ & _ & _ & _ & ->)]; [done|].
  destruct (observed_fields g s r k p) as (_ & E & _). rewrite <- E. unfold judge.
  by destruct (classify_key _ _ _).
Qed.

(** A published key is newer than the last one. *)
Lemma publish_newer g s n p g1 : gate_wf g -> gate_admit g s (Some (Integer n)) p = (VPublish, g1) ->
  match int_key g.(last_published) with None => True | Some m => m < n end.
Proof.
  intros Hg H. destruct g.(degraded) as [d|] eqn:Hd; [unfold gate_admit in H; by rewrite Hd in H|].
  destruct (g.(sockets) !! s) as [r|] eqn:Hr; [|unfold gate_admit in H; by rewrite Hd, Hr in H].
  destruct (admit_dichotomy g s r (Integer n) p Hd Hr) as [(v & E)|(_ & Hp & _ & _ & E)]; rewrite E in H; [discriminate H|].
  rewrite judge_integer in H by (apply observed_wf; try done; by exists n).
  destruct (observed_fields g s r (Integer n) p) as (_ & El & _). rewrite El in H.
  destruct (int_key g.(last_published)) as [m|]; [|done].
  by destruct (Z.compare_spec m n).
Qed.

(** Keys in publication order. *)
Definition published_after (lo : option Z) (ns : list Z) (hi : option Z) : Prop :=
  StronglySorted Z.lt ns /\
  (match lo with None => True | Some m => Forall (Z.lt m) ns end) /\
  hi = match last ns with Some n => Some n | None => lo end.

Lemma published_after_nil lo : published_after lo [] lo.
Proof. split_and!; [constructor|by destruct lo|done]. Qed.

Lemma gate_step_last g ns g' : gate_wf g -> gate_step g ns g' ->
  published_after (int_key g.(last_published)) ns (int_key g'.(last_published)).
Proof.
  intros Hg Hstep. destruct Hstep.
  - apply publish_newer in H; [|done]. split_and!; [by repeat constructor| |done].
    destruct (int_key g.(last_published)); [by repeat constructor|done].
  - pose proof (admit_last_published g s k p) as E. rewrite H in E. simpl in E. rewrite E.
    apply published_after_nil.
  - apply published_after_nil.
  - assert ((reassign_socket g a b).(last_published) = g.(last_published)) as ->.
    { unfold reassign_socket. repeat case_match; done. }
    apply published_after_nil.
  - assert ((exchange_sockets g a b).(last_published) = g.(last_published)) as ->.
    { unfold exchange_sockets. repeat case_match; done. }
    apply published_after_nil.
  - apply published_after_nil.
  - apply published_after_nil.
  - assert ((degrade g r).2.(last_published) = g.(last_published)) as ->.
    { unfold degrade. by destruct g.(degraded). }
    apply published_after_nil.
Qed.

Lemma published_after_app lo ns mid ns' hi :
  published_after lo ns mid -> published_after mid ns' hi -> published_after lo (ns ++ ns') hi.
Proof.
  intros (Hs & Hlo & ->) (Hs' & Hlo' & ->).
  assert (Hlast : last (ns ++ ns') = match last ns' with Some n => Some n | None => last ns end)
    by apply last_app.
  assert (Hmid : forall x, x ∈ ns -> exists m, last ns = Some m /\ x <= m).
  { clear -Hs. induction Hs as [|y l Hs IH Hall]; intros x Hx; [by apply not_elem_of_nil in Hx|].
    rewrite last_cons. apply elem_of_cons in Hx as [->|Hx].
    - destruct (last l) as [m|] eqn:E; [|exists y; split; [done|lia]].
      exists m. split; [done|]. apply last_Some_elem_of in E. rewrite Forall_forall in Hall.
      specialize (Hall m E). lia.
    - destruct (IH x Hx) as (m & -> & ?). by exists m. }
  split_and!.
  - clear Hlast Hlo. revert Hlo'. destruct (last ns) as [m|] eqn:E; intros Hlo'.
    + clear -Hs Hs' Hlo' Hmid E. assert (Hle : forall x, x ∈ ns -> x <= m).
      { intros x Hx. destruct (Hmid x Hx) as (m' & E' & ?). congruence. }
      clear Hmid E. induction Hs as [|y l Hs IH Hall]; simpl; [done|].
      constructor; [apply IH; intros; apply Hle; by right|].
      apply Forall_app. split; [done|]. eapply Forall_impl; [exact Hlo'|].
      intros z Hz. assert (y <= m) by (apply Hle; left). lia.
    + apply last_None in E as ->. done.
  - destruct lo as [m0|]; [|done]. apply Forall_app. split; [done|].
    destruct (last ns) as [m|] eqn:E; [|done].
    eapply Forall_impl; [exact Hlo'|]. intros z Hz. apply last_Some_elem_of in E.
    rewrite Forall_forall in Hlo. specialize (Hlo m E). lia.
  - rewrite Hlast. destruct (last ns'), (last ns); done.
Qed.

Lemma gate_run_props g ns g' : gate_wf g -> gate_run g ns g' ->
  gate_wf g' /\ published_after (int_key g.(last_published)) ns (int_key g'.(last_published)).
Proof.
  intros Hg H. induction H as [g|g ns g' ns' g'' Hs Hr IH].
  - split; [done|apply published_after_nil].
  - destruct (IH (gate_step_wf _ _ _ Hg Hs)) as [Hw Ha]. split; [done|].
    eapply published_after_app; [by apply gate_step_last|done].
Qed.

(** Along any run of a gate — arrivals from any sockets with any keys and contents,
    sockets reset, retired, reassigned and exchanged, in any order — the published keys strictly
    increase, so nothing rolls the published book back; and the gate's invariant holds
    throughout: the evidence window stays within 64 entries and 1 MiB with its bytes accounted
    exactly, and every counter stays in range. *)
Theorem published_keys_strictly_increase d count g0 ns g :
  gate_new d count = Ok g0 -> gate_run g0 ns g ->
  StronglySorted Z.lt ns /\
  int_key g.(last_published) = last ns /\
  evidence_entries g <= MAX_EVIDENCE_ENTRIES /\
  evidence_bytes g = total_bytes g.(evidence).(entries) /\
  evidence_bytes g <= MAX_EVIDENCE_BYTES /\ gate_wf g.
Proof.
  intros Hnew Hrun. destruct (gate_new_wf d count g0 Hnew) as (Hg & _ & Hl & _ & _).
  destruct (gate_run_props g0 ns g Hg Hrun) as (Hw & Hs & _ & Hlast).
  destruct (wf_ledger g Hw) as [H1 H2 H3 _ _].
  split_and!; try done. rewrite Hlast, Hl. by destruct (last ns).
Qed.

(** ** First arrival wins *)

Section race.
(** The venue's frames: one content per key, each within the evidence limit. *)
Context (content : Z -> CandidateProjection)
  (content_small : forall n, projection_len (content n) <= MAX_EVIDENCE_PROJECTION_BYTES).

(** The calling protocol: present an arrival, and commit it when it was admitted to publish. *)
Fixpoint deliver (g : PoolGate) (arrivals : list (nat * Z)) : list PoolVerdict * PoolGate :=
  match arrivals with
  | [] => ([], g)
  | (s, n) :: rest =>
      let '(v, g1) := gate_admit g s (Some (Integer n)) (content n) in
      let g2 := match v with VPublish => committed g1 s (Integer n) | _ => g1 end in
      let '(vs, g3) := deliver g2 rest in
      (v :: vs, g3)
  end.

(** The race, without a gate: an arrival publishes exactly when it beats every earlier one. *)
Fixpoint race (best : option Z) (arrivals : list (nat * Z)) : list PoolVerdict :=
  match arrivals with
  | [] => []
  | (_, n) :: rest =>
      match best with
      | None => VPublish :: race (Some n) rest
      | Some m => match m ?= n with
                  | Lt => VPublish :: race (Some n) rest
                  | Eq => VDuplicate :: race best rest
                  | Gt => VStale :: race best rest
                  end
      end
  end.

(** Each socket is one of the pool's and delivers its own keys in order. *)
Fixpoint in_session_order (lasts : list (option Z)) (arrivals : list (nat * Z)) : Prop :=
  match arrivals with
  | [] => True
  | (s, n) :: rest =>
      match lasts !! s with
      | Some (Some m) => m <= n
      | Some None => True
      | None => False
      end /\ in_session_order (<[s := Some n]> lasts) rest
  end.

Definition session_record (last : option Z) (r : SocketRecord) : Prop :=
  r.(last_key) = Integer <$> last /\ r.(replaced) = false.

Record race_state (g : PoolGate) (best : option Z) (lasts : list (option Z)) : Prop := {
  race_wf : gate_wf g;
  race_armed : g.(degraded) = None;
  race_best : g.(last_published) = Integer <$> best;
  race_sockets : Forall2 session_record lasts g.(sockets);
  race_content : Forall (fun e => exists n, e = (Integer n, content n)) g.(evidence).(entries)
}.

Lemma race_history best r n m sem : session_record m r ->
  (forall k, m = Some k -> k <= n) -> orders_within_session sem = true ->
  history_violation sem (Integer <$> best) r (Integer n) = None.
Proof.
  intros [Hk Hr] Hle Hs. unfold history_violation. rewrite Hk, Hr.
  destruct m as [k|]; [|done]. specialize (Hle k eq_refl).
  change (Integer <$> Some k) with (Some (Integer k)). cbn iota.
  rewrite classify_key_order by done. destruct (Z.compare_spec k n); done || lia.
Qed.

Lemma observed_race g best lasts s r m n : race_state g best lasts ->
  g.(sockets) !! s = Some r -> lasts !! s = Some m -> (forall k, m = Some k -> k <= n) ->
  race_state (observed g s r (Integer n) (content n)) best (<[s := Some n]> lasts).
Proof.
  intros [Hw Ha Hb Hs Hc] Hr Hm Hle.
  pose proof (Forall2_lookup_lr _ _ _ _ _ _ Hs Hm Hr) as [Hk Hrep].
  destruct (observed_fields g s r (Integer n) (content n)) as (_ & El & Ed & _).
  split.
  - apply observed_wf; try done. by exists n.
  - by rewrite Ed.
  - by rewrite El.
  - unfold observed. rewrite Hk.
    assert (Hsame : m = Some n -> session_record (Some n) r) by (by intros ->).
    destruct (is_newer _) eqn:En.
    + destruct (evidence_for _ _); simpl; apply Forall2_insert; done.
    + assert (m = Some n) as ->.
      { destruct m as [k|]; [|done]. specialize (Hle k eq_refl).
        change (Integer <$> Some k) with (Some (Integer k)) in En.
        rewrite classify_key_order in En by apply Hw.
        destruct (Z.compare_spec k n); subst; done || lia. }
      rewrite list_insert_id by done. by destruct (evidence_for _ _).
  - assert (He : forall g', g'.(evidence) = g.(evidence) ->
             Forall (fun e => exists n, e = (Integer n, content n)) g'.(evidence).(entries))
      by (by intros g' ->).
    assert (Hrec : evidence_for g.(evidence) (Integer n) = None ->
      Forall (fun e => exists n, e = (Integer n, content n))
        (ledger_record g.(evidence) (Integer n) (content n)).(entries)).
    { intros E. destruct (ledger_record_spec g.(evidence) (Integer n) (content n)
        (wf_ledger g Hw) E (content_small n)) as (_ & _ & kept & [pre Hpre] & -> & _).
      rewrite Hpre in Hc. apply Forall_app in Hc as [_ Hc]. apply Forall_app. split; [done|].
      constructor; [by exists n|constructor]. }
    unfold observed. destruct (evidence_for g.(evidence) (Integer n)) eqn:E;
      destruct (is_newer _); simpl; auto.
Qed.

Lemma committed_race g best lasts s n : race_state g best lasts ->
  race_state (committed g s (Integer n)) (Some n) lasts.
Proof.
  intros [Hw Ha Hb Hs Hc]. split; try done; [by apply committed_wf|].
  simpl. unfold credit_socket. apply Forall2_alter_r; [done|]. intros x y _ _ Hxy. exact Hxy.
Qed.

Lemma deliver_race g best lasts arrivals : race_state g best lasts ->
  in_session_order lasts arrivals ->
  (deliver g arrivals).1 = race best arrivals /\ (deliver g arrivals).2.(degraded) = None.
Proof.
  revert g best lasts. induction arrivals as [|[s n] rest IH]; intros g best lasts Hst Hord.
  { split; [done|apply Hst]. }
  destruct Hord as [Hm Hord]. destruct (lasts !! s) as [m|] eqn:El; [|done].
  destruct (Forall2_lookup_l _ _ _ _ _ (race_sockets _ _ _ Hst) El) as (r & Hr & Hrec).
  assert (Hle : forall k, m = Some k -> k <= n) by (by intros k ->).
  pose proof (observed_race g best lasts s r m n Hst Hr El Hle) as Hobs.
  assert (Ead : gate_admit g s (Some (Integer n)) (content n)
                = judge (observed g s r (Integer n) (content n)) (Integer n)).
  { destruct Hst as [Hw Ha Hb Hs Hc]. apply admit_passes; auto.
    - intros q Hq. apply find_evidence_elem in Hq. rewrite Forall_forall in Hc.
      destruct (Hc _ Hq) as (n' & [= -> ->]). done.
    - rewrite Hb. eapply race_history; eauto. apply Hw. }
  cbn [deliver race]. rewrite Ead, judge_integer by apply Hobs.
  rewrite (race_best _ _ _ Hobs).
  set (o := observed g s r (Integer n) (content n)) in *.
  assert (Hpub : (deliver (committed o s (Integer n)) rest).1 = race (Some n) rest /\
                 (deliver (committed o s (Integer n)) rest).2.(degraded) = None)
    by (eapply IH; [eapply committed_race; exact Hobs|done]).
  destruct best as [b|]; simpl.
  - destruct (b ?= n).
    + match goal with |- context [deliver ?g' rest] => specialize (IH g' (Some b) (<[s:=Some n]> lasts)) end.
      destruct (deliver (set_drops _ _ o) rest) as [vs g3]. simpl in *.
      destruct IH as [-> ->]; [|done|done]. destruct Hobs as [Hw Ha Hb Hs Hc]. split; try done.
      apply set_drops_wf; [done| |apply Hw]. apply saturating_add_range, Hw.
    + destruct (deliver (committed o s (Integer n)) rest) as [vs g3]. simpl in *.
      by destruct Hpub as [-> ->].
    + match goal with |- context [deliver ?g' rest] => specialize (IH g' (Some b) (<[s:=Some n]> lasts)) end.
      destruct (deliver (set_drops _ _ o) rest) as [vs g3]. simpl in *.
      destruct IH as [-> ->]; [|done|done]. destruct Hobs as [Hw Ha Hb Hs Hc]. split; try done.
      apply set_drops_wf; [done|apply Hw|]. apply saturating_add_range, Hw.
  - destruct (deliver (committed o s (Integer n)) rest) as [vs g3]. simpl in *.
    by destruct Hpub as [-> ->].
Qed.

Lemma gate_new_race d count g : gate_new d count = Ok g ->
  race_state g None (repeat None count).
Proof.
  intros H. apply gate_new_wf in H as (Hw & Hd & Hl & Hs & He). split; try done.
  - rewrite Hs. clear. induction count; simpl; constructor; done.
  - rewrite He. constructor.
Qed.

(** C31: while the venue keeps its word — one content per key, each connection's own keys in
    order — a pool of several sockets never degrades and is exactly a race: whatever the
    interleaving of the sockets, an arrival publishes precisely when its key beats every key
    that arrived before it, repeats the best key as a duplicate, and is stale otherwise. *)
Theorem pool_is_a_race d count g arrivals : gate_new d count = Ok g ->
  in_session_order (repeat None count) arrivals ->
  (deliver g arrivals).1 = race None arrivals /\ (deliver g arrivals).2.(degraded) = None.
Proof. intros Hg Hord. eapply deliver_race; [by eapply gate_new_race|done]. Qed.
End race.

(** ** The tripwire *)

(** The clause of the licence an arrival with key [n] and content [p] on socket record [r]
    contradicts at gate [g]; [None] when there is none. *)
Definition contradiction (g : PoolGate) (r : SocketRecord) (n : Z) (p : CandidateProjection) :
    option PoolDegradeReason :=
  if MAX_EVIDENCE_PROJECTION_BYTES <? projection_len p then Some KeyUnavailable
  else
    match evidence_for g.(evidence) (Integer n) with
    | Some q => if bool_decide (q = p) then None else Some EqualKeyContentMismatch
    | None => None
    end
    ∪ match int_key r.(last_key) with
      | Some m => if n <? m then Some ConnectionInversion else None
      | None =>
          match r.(replaced), int_key g.(last_published) with
          | true, Some m => if n <? m then Some ReconnectRewind else None
          | _, _ => None
          end
      end.

Lemma history_violation_integer g r n : gate_wf g -> integer_option r.(last_key) ->
  fst <$> history_violation g.(declaration).(semantics) g.(last_published) r (Integer n) =
  match int_key r.(last_key) with
  | Some m => if n <? m then Some ConnectionInversion else None
  | None =>
      match r.(replaced), int_key g.(last_published) with
      | true, Some m => if n <? m then Some ReconnectRewind else None
      | _, _ => None
      end
  end.
Proof.
  intros Hg Hr. pose proof (wf_published g Hg) as Hp. pose proof (wf_semantics g Hg) as Hs.
  assert (Hinv : forall m, is_inversion (classify_key g.(declaration).(semantics)
                            (Some (Integer m)) (Integer n)) = (n <? m)).
  { intros m. rewrite classify_key_order by done.
    destruct (Z.compare_spec m n); simpl; symmetry; [apply Z.ltb_ge|apply Z.ltb_ge|apply Z.ltb_lt]; lia. }
  unfold history_violation. destruct r.(last_key) as [k|].
  - destruct Hr as [m ->]. rewrite Hinv. change (int_key (Some (Integer m))) with (Some m).
    cbn iota. by destruct (n <? m).
  - change (int_key None) with (@None Z). cbn iota. destruct r.(replaced); [|done].
    destruct g.(last_published) as [k|]; [|done]. destruct Hp as [m ->]. rewrite Hinv.
    change (int_key (Some (Integer m))) with (Some m). cbn iota. by destruct (n <? m).
Qed.

Lemma admit_evidence g s r n p : gate_wf g -> g.(sockets) !! s = Some r ->
  projection_len p <= MAX_EVIDENCE_PROJECTION_BYTES ->
  (forall q, evidence_for g.(evidence) (Integer n) = Some q -> q = p) ->
  evidence_for (judge (observed g s r (Integer n) p) (Integer n)).2.(evidence) (Integer n) = Some p.
Proof.
  intros Hg Hr Hp Hq.
  assert (H : evidence_for (observed g s r (Integer n) p).(evidence) (Integer n) = Some p).
  { unfold observed. destruct (evidence_for g.(evidence) (Integer n)) as [q|] eqn:E.
    - rewrite <- (Hq q eq_refl). by destruct (is_newer _).
    - destruct (ledger_record_spec _ _ p (wf_ledger g Hg) E Hp) as (_ & Hl & _).
      destruct (is_newer _); exact Hl. }
  unfold judge. destruct (classify_key _ _ _); exact H.
Qed.

Lemma admit_mismatch g s r n p q : g.(degraded) = None -> g.(sockets) !! s = Some r ->
  projection_len p <= MAX_EVIDENCE_PROJECTION_BYTES ->
  evidence_for g.(evidence) (Integer n) = Some q -> q <> p ->
  exists v, v.(reason) = EqualKeyContentMismatch /\
    gate_admit g s (Some (Integer n)) p = (VDegrade v, set_degraded (Some EqualKeyContentMismatch) g).
Proof.
  intros Hd Hr Hp E Hne. unfold gate_admit. rewrite Hd, Hr, bool_decide_false by done.
  assert ((MAX_EVIDENCE_PROJECTION_BYTES <? projection_len p) = false) as -> by lia.
  cbn [orb]. rewrite E, bool_decide_false by done. eexists. by split; [|reflexivity].
Qed.

Lemma admit_history g s r n p c pk : g.(degraded) = None -> g.(sockets) !! s = Some r ->
  projection_len p <= MAX_EVIDENCE_PROJECTION_BYTES ->
  (forall q, evidence_for g.(evidence) (Integer n) = Some q -> q = p) ->
  history_violation g.(declaration).(semantics) g.(last_published) r (Integer n) = Some (c, pk) ->
  exists v, v.(reason) = c /\
    gate_admit g s (Some (Integer n)) p = (VDegrade v, set_degraded (Some c) g).
Proof.
  intros Hd Hr Hp He Eh. unfold gate_admit. rewrite Hd, Hr, bool_decide_false by done.
  assert ((MAX_EVIDENCE_PROJECTION_BYTES <? projection_len p) = false) as -> by lia.
  cbn [orb]. destruct (evidence_for g.(evidence) (Integer n)) as [q|] eqn:E.
  - rewrite (He q) by done. rewrite bool_decide_true by done. rewrite Eh. eexists. by split; [|reflexivity].
  - rewrite Eh. eexists. by split; [|reflexivity].
Qed.

(** An arrival no clause refuses is judged by its key, and its content is on record. *)
Lemma admit_content g s r n p : gate_wf g -> g.(degraded) = None -> g.(sockets) !! s = Some r ->
  projection_len p <= MAX_EVIDENCE_PROJECTION_BYTES ->
  (forall q, evidence_for g.(evidence) (Integer n) = Some q -> q = p) ->
  history_violation g.(declaration).(semantics) g.(last_published) r (Integer n) = None ->
  (gate_admit g s (Some (Integer n)) p).1 =
    match int_key g.(last_published) with
    | None => VPublish
    | Some m => match m ?= n with Lt => VPublish | Eq => VDuplicate | Gt => VStale end
    end /\
  evidence_for (gate_admit g s (Some (Integer n)) p).2.(evidence) (Integer n) = Some p.
Proof.
  intros Hg Hd Hr Hp Hq Eh.
  rewrite (admit_passes g s r (Integer n) p Hd Hr ltac:(done) Hp Hq Eh).
  split; [|by apply admit_evidence].
  rewrite judge_integer by (apply observed_wf; try done; by exists n).
  destruct (observed_fields g s r (Integer n) p) as (_ & -> & _).
  destruct (int_key g.(last_published)) as [m|]; [|done]. by destruct (m ?= n).
Qed.

(** An armed gate withdraws its licence on an integer-keyed arrival exactly when the
    arrival contradicts a clause of it — content it cannot hold as evidence, a key already seen
    with different content, a key below the socket's own last one, or a replacement connection
    starting below the last published key — naming that clause and changing nothing else; every
    other arrival is judged by its key alone, and its content is on record afterwards. *)
Theorem tripwire_exact g s r n p : gate_wf g -> g.(degraded) = None ->
  g.(sockets) !! s = Some r ->
  match contradiction g r n p with
  | Some c => exists v, v.(reason) = c /\
      gate_admit g s (Some (Integer n)) p = (VDegrade v, set_degraded (Some c) g)
  | None =>
      (gate_admit g s (Some (Integer n)) p).1 =
        match int_key g.(last_published) with
        | None => VPublish
        | Some m => match m ?= n with Lt => VPublish | Eq => VDuplicate | Gt => VStale end
        end /\
      evidence_for (gate_admit g s (Some (Integer n)) p).2.(evidence) (Integer n) = Some p
  end.
Proof.
  intros Hg Hd Hr. pose proof (socket_key g s r Hg Hr) as Hk.
  pose proof (history_violation_integer g r n Hg Hk) as Hh.
  unfold contradiction. rewrite <- Hh.
  destruct (Z.ltb_spec MAX_EVIDENCE_PROJECTION_BYTES (projection_len p)) as [Hlen|Hlen].
  { unfold gate_admit. rewrite Hd, Hr. apply Z.ltb_lt in Hlen. rewrite Hlen, orb_true_r.
    eexists. split; [|reflexivity]. done. }
  destruct (evidence_for g.(evidence) (Integer n)) as [q|] eqn:E;
    [case_bool_decide as Eq|]; cbn [union option_union_with].
  - destruct (history_violation _ _ r _) as [[c pk]|] eqn:Eh; cbn.
    + eapply admit_history; eauto. rewrite E. by intros q' [= <-].
    + apply (admit_content g s r); try done. rewrite E. by intros q' [= <-].
  - assert (H : forall o : option PoolDegradeReason,
              Some EqualKeyContentMismatch ∪ o = Some EqualKeyContentMismatch) by (by intros []).
    rewrite H. by eapply admit_mismatch.
  - destruct (history_violation _ _ r _) as [[c pk]|] eqn:Eh; cbn.
    + eapply admit_history; eauto. by rewrite E.
    + apply (admit_content g s r); try done. by rewrite E.
Qed.

Lemma degraded_step g ns g' c : gate_step g ns g' -> g.(degraded) = Some c ->
  ns = [] /\ g'.(degraded) = Some c.
Proof.
  intros Hs Hd. destruct Hs; try done.
  - unfold gate_admit in H. by rewrite Hd in H.
  - unfold gate_admit in H. rewrite Hd in H. by injection H as <- <-.
  - split; [done|]. unfold reassign_socket. repeat case_match; done.
  - split; [done|]. unfold exchange_sockets. repeat case_match; done.
  - split; [done|]. unfold degrade. by rewrite Hd.
Qed.

(** A withdrawn licence is final for the process: whatever happens to a degraded gate —
    arrivals, reassignments, replacements, further degrade calls — it publishes nothing more,
    keeps its first reason, and answers every arrival as disarmed without recording it. *)
Theorem degraded_is_final g ns g' c : gate_run g ns g' -> g.(degraded) = Some c ->
  ns = [] /\ g'.(degraded) = Some c /\
  (forall s k p, gate_admit g' s k p = (VDisarmed, g')) /\ (forall r, degrade g' r = (false, g')).
Proof.
  intros Hrun. induction Hrun as [g|g ns g1 ns' g2 Hs Hr IH]; intros Hd.
  - split_and!; [done|done| |].
    + intros s k p. unfold gate_admit. by rewrite Hd.
    + intros r. unfold degrade. by rewrite Hd.
  - destruct (degraded_step _ _ _ _ Hs Hd) as [-> Hd1]. destruct (IH Hd1) as (-> & H). done.
Qed.

(** The evidence window is as long as its bounds allow: recording a fresh key keeps the
    newest entries, including the one recorded, and drops an older one only when keeping it
    would exceed 64 entries or 1 MiB; what it keeps is within both bounds, accounted exactly and
    free of duplicate keys. *)
Theorem evidence_window_maximal l k p : ledger_wf l -> evidence_for l k = None ->
  projection_len p <= MAX_EVIDENCE_PROJECTION_BYTES ->
  ledger_wf (ledger_record l k p) /\ evidence_for (ledger_record l k p) k = Some p /\
  exists kept, kept `suffix_of` l.(entries) /\
    (ledger_record l k p).(entries) = kept ++ [(k, p)] /\
    forall e, (e :: kept) `suffix_of` l.(entries) ->
      MAX_EVIDENCE_ENTRIES < len (e :: kept ++ [(k, p)]) \/
      MAX_EVIDENCE_BYTES < total_bytes (e :: kept ++ [(k, p)]).
Proof. apply ledger_record_spec. Qed.

(** Exchanging two sockets twice is the identity on every gate, and one exchange moves the
    key histories with the connections while each socket's publication count stays with its
    slot. *)
Theorem exchange_involutive g a b :
  exchange_sockets (exchange_sockets g a b) a b = g /\
  published_by_socket (exchange_sockets g a b) = published_by_socket g.
Proof.
  unfold exchange_sockets at 2 3, published_by_socket.
  destruct (g.(sockets) !! a) as [ra|] eqn:Ea.
  2: { unfold exchange_sockets. by rewrite Ea. }
  destruct (g.(sockets) !! b) as [rb|] eqn:Eb.
  2: { unfold exchange_sockets. by rewrite Ea, Eb. }
  destruct (Nat.eqb_spec a b) as [->|Hne].
  { unfold exchange_sockets. by rewrite Ea, Nat.eqb_refl. }
  pose proof (lookup_lt_Some _ _ _ Ea) as La. pose proof (lookup_lt_Some _ _ _ Eb) as Lb.
  set (rs := <[b:=with_published rb.(socket_published) ra]>
               (<[a:=with_published ra.(socket_published) rb]>
                 (<[b:=ra]> (<[a:=rb]> g.(sockets))))).
  assert (Hrs : rs = <[b:=with_published rb.(socket_published) ra]>
                       (<[a:=with_published ra.(socket_published) rb]> g.(sockets))).
  { unfold rs. apply list_eq. intros i.
    destruct (decide (i = b)) as [->|Hb].
    - rewrite !list_lookup_insert_eq by (rewrite ?length_insert; lia). done.
    - rewrite !(list_lookup_insert_ne _ b i) by done. destruct (decide (i = a)) as [->|Ha].
      + rewrite !list_lookup_insert_eq by (rewrite ?length_insert; lia). done.
      + rewrite !(list_lookup_insert_ne _ a i) by done.
        by rewrite (list_lookup_insert_ne _ b i), (list_lookup_insert_ne _ a i). }
  assert (Hra : rs !! a = Some (with_published ra.(socket_published) rb)).
  { rewrite Hrs, list_lookup_insert_ne, list_lookup_insert_eq by done. done. }
  assert (Hrb : rs !! b = Some (with_published rb.(socket_published) ra)).
  { rewrite Hrs, list_lookup_insert_eq by (rewrite length_insert; lia). done. }
  split.
  - unfold exchange_sockets; simpl. fold rs. rewrite Hra, Hrb.
    apply Nat.eqb_neq in Hne as Hne'. rewrite Hne'.
    destruct g as [decl socks lp pub ev deg n dd sd]; simpl in *.
    unfold set_published, set_sockets; simpl. f_equal.
    + apply list_eq. intros i. destruct (decide (i = b)) as [->|Hb].
      * rewrite list_lookup_insert_eq by (unfold rs; rewrite !length_insert; lia).
        rewrite Eb. by destruct rb.
      * rewrite list_lookup_insert_ne by done. destruct (decide (i = a)) as [->|Ha].
        -- rewrite list_lookup_insert_eq by (unfold rs; rewrite !length_insert; lia).
           rewrite Ea. by destruct ra.
        -- rewrite !list_lookup_insert_ne by done. unfold rs.
           by rewrite !list_lookup_insert_ne by done.
    + destruct pub as [s|]; [|done].
      destruct (Nat.eqb_spec s a) as [->|]; [by rewrite Nat.eqb_sym, Hne', Nat.eqb_refl|].
      destruct (Nat.eqb_spec s b) as [->|]; [by rewrite Nat.eqb_refl|].
      by destruct (Nat.eqb_spec s a), (Nat.eqb_spec s b).
  - simpl. fold rs. rewrite Hrs, !list_fmap_insert. simpl.
    rewrite (list_insert_id (_ <$> _) a); [rewrite list_insert_id; [done|]|];
      rewrite list_lookup_fmap; [by rewrite Eb|by rewrite Ea].
Qed.

(** ** Witnesses *)

Definition sample_declaration : DedupKeyDeclaration :=
  {| decl_venue := lit "example"; decl_family := lit "book"; decl_field := lit "seq";
     semantics := OrderingProven |}.
Definition sample_gate : PoolGate :=
  match gate_new sample_declaration 2 with Ok g => g | Err _ => set_degraded None
    {| declaration := sample_declaration; sockets := []; last_published := None;
       last_publisher := None; evidence := ledger_new; degraded := None; published := 0;
       duplicate_drops := 0; stale_drops := 0 |} end.
Definition sample_content (n : Z) : CandidateProjection := {| projection_bytes := [n mod 256] |}.

Lemma sample_gate_new : gate_new sample_declaration 2 = Ok sample_gate.
Proof. reflexivity. Qed.

(** Key 5 on socket 0, key 7 on socket 1, then key 5 again on socket 1, which is below the last
    key that socket reported: the run publishes 5 and 7 and ends degraded. *)
Lemma published_keys_strictly_increase_witness :
  exists g, gate_run sample_gate [5; 7] g /\ StronglySorted Z.lt [5; 7] /\
    int_key g.(last_published) = last [5; 7] /\ evidence_entries g <= MAX_EVIDENCE_ENTRIES /\
    g.(degraded) = Some ConnectionInversion.
Proof.
  set (g1 := committed (gate_admit sample_gate 0 (Some (Integer 5)) (sample_content 5)).2 0 (Integer 5)).
  set (g2 := committed (gate_admit g1 1 (Some (Integer 7)) (sample_content 7)).2 1 (Integer 7)).
  set (g3 := (gate_admit g2 1 (Some (Integer 5)) (sample_content 5)).2).
  assert (Hrun : gate_run sample_gate [5; 7] g3).
  { apply (gate_run_cons sample_gate [5] g1 [7] g3);
      [by apply (gs_published sample_gate 0 5 (sample_content 5))|].
    apply (gate_run_cons g1 [7] g2 [] g3);
      [by apply (gs_published g1 1 7 (sample_content 7))|].
    apply (gate_run_cons g2 [] g3 [] g3); [|apply gate_run_nil].
    apply (gs_admitted g2 1 (Some (Integer 5)) (sample_content 5)
             (gate_admit g2 1 (Some (Integer 5)) (sample_content 5)).1 g3).
    unfold g3. by destruct (gate_admit g2 1 _ _). }
  destruct (published_keys_strictly_increase _ _ _ _ _ sample_gate_new Hrun) as (Hs & Hl & He & _).
  exists g3. split_and!; [exact Hrun|exact Hs|exact Hl|exact He|vm_compute; reflexivity].
Defined.

Lemma pool_is_a_race_witness :
  (deliver sample_content sample_gate [(0%nat, 5); (1%nat, 5); (1%nat, 8); (0%nat, 7); (0%nat, 9)]).1
  = [VPublish; VDuplicate; VPublish; VStale; VPublish].
Proof.
  assert (Hc : forall n, projection_len (sample_content n) <= MAX_EVIDENCE_PROJECTION_BYTES)
    by (intros n; change (projection_len (sample_content n)) with 1; done).
  destruct (pool_is_a_race sample_content Hc sample_declaration 2 sample_gate
    [(0%nat, 5); (1%nat, 5); (1%nat, 8); (0%nat, 7); (0%nat, 9)]) as [-> _];
    [reflexivity| |reflexivity].
  simpl. split_and!; try done; lia.
Defined.

(** The same key with other content. *)
Lemma tripwire_exact_witness :
  let g := committed (gate_admit sample_gate 0 (Some (Integer 5)) (sample_content 5)).2 0 (Integer 5) in
  exists v, v.(reason) = EqualKeyContentMismatch /\
    gate_admit g 1 (Some (Integer 5)) (sample_content 6)
      = (VDegrade v, set_degraded (Some EqualKeyContentMismatch) g).
Proof.
  intros g.
  assert (Hg : gate_wf g).
  { apply committed_wf, admit_wf. by destruct (gate_new_wf _ _ _ sample_gate_new). }
  pose proof (tripwire_exact g 1 socket_default 5 (sample_content 6) Hg eq_refl eq_refl) as H.
  vm_compute (contradiction _ _ _ _) in H. exact H.
Defined.

Lemma degraded_is_final_witness :
  let g := (degrade sample_gate ReconnectRewind).2 in
  let g' := reset_socket (reassign_socket g 0 1) 1 in
  [] = ([] : list Z) /\ g'.(degraded) = Some ReconnectRewind /\
  gate_admit g' 0 (Some (Integer 9)) (sample_content 9) = (VDisarmed, g').
Proof.
  intros g g'.
  assert (Hrun : gate_run g [] g').
  { apply (gate_run_cons g [] (reassign_socket g 0 1) [] g'); [apply gs_reassigned|].
    apply (gate_run_cons _ [] g' [] g'); [apply gs_reset|apply gate_run_nil]. }
  destruct (degraded_is_final g [] g' ReconnectRewind Hrun eq_refl) as (H1 & H2 & H3 & _).
  split_and!; [exact H1|exact H2|apply H3].
Defined.

Lemma evidence_window_maximal_witness :
  let l := ledger_record ledger_new (Integer 4) (sample_content 4) in
  evidence_for (ledger_record l (Integer 5) (sample_content 5)) (Integer 5) = Some (sample_content 5).
Proof.
  intros l.
  assert (Hs : forall n, projection_len (sample_content n) <= MAX_EVIDENCE_PROJECTION_BYTES)
    by (intros n; change (projection_len (sample_content n)) with 1; done).
  assert (H0 : ledger_wf ledger_new)
    by (exact (wf_ledger _ (proj1 (gate_new_wf _ _ _ sample_gate_new)))).
  assert (Hl : ledger_wf l)
    by (apply (ledger_record_spec ledger_new (Integer 4) (sample_content 4)); [exact H0|done|apply Hs]).
  by destruct (evidence_window_maximal l (Integer 5) (sample_content 5) Hl eq_refl (Hs 5))
    as (_ & H & _).
Defined.
