(* ===== verification/Channel.v ===== *)
(** * The channels between the writer and its consumers

    The consumer surface of [src/src/observer.rs] is built on two channels of the tokio
    library, which the repository only calls. They are interfaces here: a class per channel
    with its operations, and a class with the documented behaviour the observer relies on.
    The observer's theorems are proved against the interfaces; [ring] and [slot] are concrete
    channels that satisfy them. *)

From S2P Require Import Prelude.

(** ** The bounded drop-oldest ring: [tokio::sync::broadcast] *)

Inductive TryRecvError : Set := Empty | Closed | Lagged (missed : Z).

Class Broadcast (D : Type) : Type := {
  channel : Type;
  receiver : Type;
  channel_new : nat -> channel;
  send : channel -> D -> channel;
  (** Dropping the only sender. *)
  drop_sender : channel -> channel;
  (** [Sender::subscribe] and [Receiver::resubscribe]: a receiver of what is sent next. *)
  ring_subscribe : channel -> receiver;
  ring_try_recv : channel -> receiver -> result D TryRecvError * receiver
}.

(** What the library documents of it: a receiver holds a position in the sequence of all values
    sent, takes them in order and one at a time, and is moved forward, with the number of
    values it missed, only when more than the capacity is waiting; it then finds at least one
    value. *)
Class BroadcastLaws {D} (B : Broadcast D) : Type := {
  sent : channel -> list D;
  sender_gone : channel -> bool;
  capacity : channel -> nat;
  at_position : receiver -> nat;
  sent_new n : sent (channel_new n) = [];
  sent_send c d : sent (send c d) = sent c ++ [d];
  sent_drop c : sent (drop_sender c) = sent c;
  gone_new n : sender_gone (channel_new n) = false;
  gone_send c d : sender_gone (send c d) = sender_gone c;
  gone_drop c : sender_gone (drop_sender c) = true;
  capacity_new n : (n <= capacity (channel_new n))%nat;
  capacity_send c d : capacity (send c d) = capacity c;
  capacity_drop c : capacity (drop_sender c) = capacity c;
  subscribe_tail c : at_position (ring_subscribe c) = length (sent c);
  try_recv_law c r : (at_position r <= length (sent c))%nat ->
    match ring_try_recv c r with
    | (Ok d, r') => sent c !! at_position r = Some d /\ at_position r' = S (at_position r)
    | (Err Empty, r') =>
        at_position r = length (sent c) /\ sender_gone c = false /\ r' = r
    | (Err Closed, r') =>
        at_position r = length (sent c) /\ sender_gone c = true /\ r' = r
    | (Err (Lagged missed), r') =>
        (at_position r < at_position r' < length (sent c))%nat /\
        missed = Z.of_nat (at_position r' - at_position r) /\
        (at_position r + capacity c < length (sent c))%nat
    end
}.

(** ** The latest-value slot: [tokio::sync::watch] *)

Class Watch (A : Type) : Type := {
  slot_channel : Type;
  slot_receiver : Type;
  slot_new : A -> slot_channel;
  send_replace : slot_channel -> A -> slot_channel;
  slot_drop_sender : slot_channel -> slot_channel;
  slot_borrow : slot_channel -> A;
  (** [Sender::subscribe]: the current value counts as seen. *)
  slot_subscribe : slot_channel -> slot_receiver;
  (** One poll of [Receiver::changed]; [None] is pending. *)
  changed : slot_channel -> slot_receiver -> option (result () ()) * slot_receiver;
  borrow_and_update : slot_channel -> slot_receiver -> A * slot_receiver
}.

(** The documented behaviour: one current value, and per receiver whether it has been seen. *)
Class WatchLaws {A} (W : Watch A) : Type := {
  unseen : slot_channel -> slot_receiver -> bool;
  (** The receiver is one of this channel's. *)
  attached : slot_channel -> slot_receiver -> Prop;
  slot_sender_gone : slot_channel -> bool;
  borrow_new a : slot_borrow (slot_new a) = a;
  borrow_send w a : slot_borrow (send_replace w a) = a;
  borrow_drop w : slot_borrow (slot_drop_sender w) = slot_borrow w;
  slot_gone_new a : slot_sender_gone (slot_new a) = false;
  slot_gone_send w a : slot_sender_gone (send_replace w a) = slot_sender_gone w;
  slot_gone_drop w : slot_sender_gone (slot_drop_sender w) = true;
  attached_subscribe w : attached w (slot_subscribe w);
  attached_send w a r : attached w r -> attached (send_replace w a) r;
  attached_drop w r : attached w r -> attached (slot_drop_sender w) r;
  unseen_subscribe w : unseen w (slot_subscribe w) = false;
  unseen_send w a r : attached w r -> unseen (send_replace w a) r = true;
  unseen_drop w r : unseen (slot_drop_sender w) r = unseen w r;
  changed_law w r :
    match changed w r with
    | (Some (Ok _), r') =>
        unseen w r = true /\ unseen w r' = false /\ (attached w r -> attached w r')
    | (Some (Err _), r') => unseen w r = false /\ slot_sender_gone w = true /\ r' = r
    | (None, r') => unseen w r = false /\ slot_sender_gone w = false /\ r' = r
    end;
  update_law w r : exists r', borrow_and_update w r = (slot_borrow w, r') /\ unseen w r' = false /\ attached w r'
}.

(** ** Concrete channels

    The ring keeps every value sent, whether the sender is gone, and one less than its bound; a
    receiver is its position. The slot numbers its values; a receiver is the number it has
    seen. *)

Record ring_channel (D : Type) : Type := {
  ring_sent : list D; ring_gone : bool; ring_room : nat
}.
Arguments ring_sent {D}. Arguments ring_gone {D}. Arguments ring_room {D}.

Definition ring_recv {D} (c : ring_channel D) (position : nat) :
    result D TryRecvError * nat :=
  let oldest := (length c.(ring_sent) - S c.(ring_room))%nat in
  if (position <? oldest)%nat then (Err (Lagged (Z.of_nat (oldest - position))), oldest)
  else
    match c.(ring_sent) !! position with
    | Some d => (Ok d, S position)
    | None => (Err (if c.(ring_gone) then Closed else Empty), position)
    end.

#[export] Instance ring {D} : Broadcast D := {|
  channel := ring_channel D;
  receiver := nat;
  channel_new n := {| ring_sent := []; ring_gone := false; ring_room := n |};
  send c d := {| ring_sent := c.(ring_sent) ++ [d]; ring_gone := c.(ring_gone);
                 ring_room := c.(ring_room) |};
  drop_sender c := {| ring_sent := c.(ring_sent); ring_gone := true;
                      ring_room := c.(ring_room) |};
  ring_subscribe c := length c.(ring_sent);
  ring_try_recv := ring_recv
|}.

#[export, refine] Instance ring_laws {D} : BroadcastLaws (D := D) ring := {|
  sent c := c.(ring_sent);
  sender_gone c := c.(ring_gone);
  capacity c := S c.(ring_room);
  at_position r := r
|}.
Proof.
  all: try done.
  - intros n. simpl. lia.
  - intros c r Hr. simpl in *. unfold ring_recv.
    destruct (Nat.ltb_spec r (length c.(ring_sent) - S c.(ring_room))); [split_and!; lia|].
    destruct (c.(ring_sent) !! r) as [d|] eqn:E; [done|].
    apply lookup_ge_None in E. destruct c.(ring_gone); split_and!; done || lia.
Defined.

Record slot_cell (A : Type) : Type := {
  slot_value : A; slot_version : nat; slot_gone : bool
}.
Arguments slot_value {A}. Arguments slot_version {A}. Arguments slot_gone {A}.

#[export] Instance slot {A} : Watch A := {|
  slot_channel := slot_cell A;
  slot_receiver := nat;
  slot_new a := {| slot_value := a; slot_version := 0; slot_gone := false |};
  send_replace w a := {| slot_value := a; slot_version := S w.(slot_version);
                         slot_gone := w.(slot_gone) |};
  slot_drop_sender w := {| slot_value := w.(slot_value); slot_version := w.(slot_version);
                           slot_gone := true |};
  slot_borrow w := w.(slot_value);
  slot_subscribe w := w.(slot_version);
  changed w r :=
    if (r =? w.(slot_version))%nat
    then (if w.(slot_gone) then Some (Err tt) else None, r)
    else (Some (Ok tt), w.(slot_version));
  borrow_and_update w r := (w.(slot_value), w.(slot_version))
|}.

#[export, refine] Instance slot_laws {A} : WatchLaws (A := A) slot := {|
  unseen w r := negb (r =? w.(slot_version))%nat;
  attached w r := (r <= w.(slot_version))%nat;
  slot_sender_gone w := w.(slot_gone)
|}.
Proof.
  all: try done.
  - intros w a r Hr. simpl in *. lia.
  - intros w. simpl. by rewrite Nat.eqb_refl.
  - intros w a r Hr. simpl in *. destruct (Nat.eqb_spec r (S w.(slot_version))); [lia|done].
  - intros w r. simpl. destruct (Nat.eqb_spec r w.(slot_version)) as [->|].
    + destruct w.(slot_gone); split_and!; try done; by rewrite Nat.eqb_refl.
    + rewrite Nat.eqb_refl. split_and!; try done; intros; lia.
  - intros w r. exists w.(slot_version). simpl. by rewrite Nat.eqb_refl.
Defined.
