(* ===== verification/Observer.v ===== *)
(** * One book's writer and its consumers ([src/src/observer.rs])

    The writer publishes state by pointer swap and sends deliveries on a bounded ring; a
    consumer attaches at a revision and follows the ring, judging every overrun and every
    epoch change. The channels are the interfaces of [Channel]; an [async] method is modelled
    by its poll, [None] meaning pending. *)

From S2P Require Import Prelude Continuity Observation Book Channel.

(** ** Data *)

Definition MAX_OBSERVER_CAPACITY : Z := Z.shiftl 1 20.

Record ObserverCapacity : Set := { observer_capacity_value : Z }.

Definition observer_capacity_new (value : Z) : result ObserverCapacity BookError :=
  refuse (value =? 0) || (MAX_OBSERVER_CAPACITY <? value) with CapacityOutOfRange ;;
  Ok {| observer_capacity_value := value |}.

Inductive OverrunVerdict : Set := Harmless | LostHistory.

Record PendingOverrun : Set := { missed : Z }.

Definition pending_default : PendingOverrun := {| missed := 0 |}.
Definition accumulated (self : PendingOverrun) (more : Z) : PendingOverrun :=
  {| missed := saturating_add_u64 self.(missed) more |}.

Definition classify_overrun (boundary : MutationCursor) (resumed : option MutationCursor) :
    OverrunVerdict :=
  match resumed with
  | Some cursor =>
      if (cursor.(cursor_epoch) =? boundary.(cursor_epoch))
         && (cursor.(cursor_position) <=? boundary.(cursor_position))
      then Harmless else LostHistory
  | None => LostHistory
  end.

Record MutationDelivery : Set := {
  md_revision : Z; md_cursor : MutationCursor; md_mutation : BookMutation
}.

Record ResolutionDelivery : Set := {
  rd_revision : Z; rd_cursor : MutationCursor; rd_resolution : MarketResolution
}.

Inductive StreamDelivery : Set :=
| Mutation (delivery : MutationDelivery)
| Resolution (delivery : ResolutionDelivery).

Definition delivery_cursor (self : StreamDelivery) : MutationCursor :=
  match self with
  | Mutation delivery => delivery.(md_cursor)
  | Resolution delivery => delivery.(rd_cursor)
  end.

Definition delivery_revision (self : StreamDelivery) : Z :=
  match self with
  | Mutation delivery => delivery.(md_revision)
  | Resolution delivery => delivery.(rd_revision)
  end.

Inductive ObserverEvent : Set :=
| PublishedEvent (book : PublishedBook)
| MutationEvent (delivery : MutationDelivery)
| ResolutionEvent (delivery : ResolutionDelivery).

Definition event_of (delivery : StreamDelivery) : ObserverEvent :=
  match delivery with
  | Mutation delivery => MutationEvent delivery
  | Resolution delivery => ResolutionEvent delivery
  end.

Inductive ObserverRecvError : Set :=
| HistoryLost (reason : ContinuityReason) (missed : Z)
| WriterClosed.

(** [WriterGone] is the unit error of [state_changed]. *)
Inductive WriterGone : Set := writer_gone.

Definition continuity_lost (missed : Z) : ObserverRecvError := HistoryLost Overrun missed.
Definition rebased_stream (missed : Z) : ObserverRecvError := HistoryLost RecoveryBase missed.

Definition attachment_cursor (published : PublishedBook) : MutationCursor :=
  match published.(published_continuity) with
  | Intact epoch next_position => {| cursor_epoch := epoch; cursor_position := next_position |}
  | Lost epoch _ => {| cursor_epoch := epoch; cursor_position := 0 |}
  end.

Section observer.
Context `{RB : Broadcast StreamDelivery} `{WP : Watch PublishedBook}.

(** ** The writer *)

Record BookWriter : Type := {
  writer_book : OrderBook;
  state_sender : slot_channel;
  delivery_sender : channel
}.

Definition writer_new (book : OrderBook) (capacity : ObserverCapacity) : BookWriter :=
  {| writer_book := book;
     state_sender := slot_new (publish book);
     delivery_sender := channel_new (Z.to_nat capacity.(observer_capacity_value)) |}.

Definition writer_published (self : BookWriter) : PublishedBook :=
  slot_borrow self.(state_sender).

(** The book moved to [b], and that state is now published. *)
Definition publish_state (b : OrderBook) (self : BookWriter) : BookWriter :=
  {| writer_book := b; state_sender := send_replace self.(state_sender) (publish b);
     delivery_sender := self.(delivery_sender) |}.

Definition send_delivery (self : BookWriter) (delivery : StreamDelivery) : BookWriter :=
  {| writer_book := self.(writer_book); state_sender := self.(state_sender);
     delivery_sender := send self.(delivery_sender) delivery |}.

(** The deliveries of one commit, in the order they are sent. *)
Definition commit_deliveries (commit : BookCommit) : list StreamDelivery :=
  (fun record : MutationRecord =>
     Mutation {| md_revision := commit.(commit_revision); md_cursor := record.(cursor);
                 md_mutation := record.(mutation) |}) <$> commit.(mutations).

Definition publish_then_send (b : OrderBook) (commit : BookCommit) (self : BookWriter) :
    BookWriter :=
  fold_left send_delivery (commit_deliveries commit) (publish_state b self).

(** A call on the book that did not succeed leaves what it left of the book. *)
Definition with_book (b : OrderBook) (self : BookWriter) : BookWriter :=
  {| writer_book := b; state_sender := self.(state_sender);
     delivery_sender := self.(delivery_sender) |}.

Definition writer_apply_snapshot (candidate : Candidate) (self : BookWriter) :
    result BookCommit BookError * BookWriter :=
  match apply_snapshot candidate self.(writer_book) with
  | (Ok commit, b) => (Ok commit, publish_then_send b commit self)
  | (Err e, b) => (Err e, with_book b self)
  end.

Definition writer_apply_source_delta (candidate : Candidate) (self : BookWriter) :
    result BookCommit BookError * BookWriter :=
  match apply_source_delta candidate self.(writer_book) with
  | (Ok commit, b) => (Ok commit, publish_then_send b commit self)
  | (Err e, b) => (Err e, with_book b self)
  end.

Definition writer_publish_resolution (resolution : MarketResolution) (self : BookWriter) :
    result ResolutionDelivery BookError * BookWriter :=
  match note_stream_event self.(writer_book) with
  | (Ok cursor, b) =>
      let delivery := {| rd_revision := b.(revision); rd_cursor := cursor;
                         rd_resolution := resolution |} in
      (Ok delivery, send_delivery (publish_state b self) (Resolution delivery))
  | (Err e, b) => (Err e, with_book b self)
  end.

Definition publish_if_changed (r : result bool BookError * OrderBook) (self : BookWriter) :
    result bool BookError * BookWriter :=
  match r with
  | (Ok true, b) => (Ok true, publish_state b self)
  | (Ok false, b) => (Ok false, with_book b self)
  | (Err e, b) => (Err e, with_book b self)
  end.

Definition writer_unsubscribe (self : BookWriter) : result bool BookError * BookWriter :=
  publish_if_changed (unsubscribe self.(writer_book)) self.

Definition writer_report_continuity_loss (reason : ContinuityReason) (why : AuthorityReason)
    (self : BookWriter) : result bool BookError * BookWriter :=
  publish_if_changed (report_continuity_loss reason why self.(writer_book)) self.

(** ** The consumer *)

Record BookObserver : Type := {
  obs_state : slot_receiver;
  obs_deliveries : receiver;
  resume_after : Z;
  boundary : MutationCursor;
  obs_cursor : MutationCursor;
  continuous : bool;
  pending : option PendingOverrun;
  obs_lost : option ObserverRecvError;
  state_open : bool;
  obs_closed : bool
}.

Definition attach (self : BookWriter) : BookObserver :=
  let deliveries := ring_subscribe self.(delivery_sender) in
  let state := slot_subscribe self.(state_sender) in
  let published := slot_borrow self.(state_sender) in
  let boundary := attachment_cursor published in
  {| obs_state := state; obs_deliveries := deliveries;
     resume_after := published.(published_revision); boundary := boundary;
     obs_cursor := boundary; continuous := true; pending := None; obs_lost := None;
     state_open := true; obs_closed := false |}.

(** Assignments to the fields the receive paths write. *)
Definition set_deliveries (r : receiver) (o : BookObserver) : BookObserver :=
  {| obs_state := o.(obs_state); obs_deliveries := r; resume_after := o.(resume_after);
     boundary := o.(boundary); obs_cursor := o.(obs_cursor); continuous := o.(continuous);
     pending := o.(pending); obs_lost := o.(obs_lost); state_open := o.(state_open);
     obs_closed := o.(obs_closed) |}.
Definition set_pending (p : option PendingOverrun) (o : BookObserver) : BookObserver :=
  {| obs_state := o.(obs_state); obs_deliveries := o.(obs_deliveries);
     resume_after := o.(resume_after); boundary := o.(boundary);
     obs_cursor := o.(obs_cursor); continuous := o.(continuous); pending := p;
     obs_lost := o.(obs_lost); state_open := o.(state_open); obs_closed := o.(obs_closed) |}.
Definition set_cursor (c : MutationCursor) (o : BookObserver) : BookObserver :=
  {| obs_state := o.(obs_state); obs_deliveries := o.(obs_deliveries);
     resume_after := o.(resume_after); boundary := o.(boundary); obs_cursor := c;
     continuous := o.(continuous); pending := o.(pending); obs_lost := o.(obs_lost);
     state_open := o.(state_open); obs_closed := o.(obs_closed) |}.
Definition set_lost (e : ObserverRecvError) (o : BookObserver) : BookObserver :=
  {| obs_state := o.(obs_state); obs_deliveries := o.(obs_deliveries);
     resume_after := o.(resume_after); boundary := o.(boundary);
     obs_cursor := o.(obs_cursor); continuous := false; pending := o.(pending);
     obs_lost := Some e; state_open := o.(state_open); obs_closed := o.(obs_closed) |}.
Definition set_closed (o : BookObserver) : BookObserver :=
  {| obs_state := o.(obs_state); obs_deliveries := o.(obs_deliveries);
     resume_after := o.(resume_after); boundary := o.(boundary);
     obs_cursor := o.(obs_cursor); continuous := o.(continuous); pending := o.(pending);
     obs_lost := o.(obs_lost); state_open := o.(state_open); obs_closed := true |}.
Definition set_state (r : slot_receiver) (open : bool) (o : BookObserver) : BookObserver :=
  {| obs_state := r; obs_deliveries := o.(obs_deliveries);
     resume_after := o.(resume_after); boundary := o.(boundary);
     obs_cursor := o.(obs_cursor); continuous := o.(continuous); pending := o.(pending);
     obs_lost := o.(obs_lost); state_open := open; obs_closed := o.(obs_closed) |}.

Definition latest (state : slot_channel) (self : BookObserver) : PublishedBook :=
  slot_borrow state.

(** One poll of [state_changed]. *)
Definition state_changed (state : slot_channel) (self : BookObserver) :
    option (result PublishedBook WriterGone) * BookObserver :=
  match changed state self.(obs_state) with
  | (None, r) => (None, set_state r self.(state_open) self)
  | (Some (Err _), r) => (Some (Err writer_gone), set_state r false self)
  | (Some (Ok _), r) =>
      let '(published, r) := borrow_and_update state r in
      (Some (Ok published), set_state r self.(state_open) self)
  end.

(** [reattach] subscribes to the ring before it reads the state; the writer may act between
    the two halves. *)
Definition reattach_read (state : slot_channel) (deliveries : receiver) (self : BookObserver) :
    PublishedBook * BookObserver :=
  let '(published, r) := borrow_and_update state self.(obs_state) in
  (published,
   {| obs_state := r; obs_deliveries := deliveries;
      resume_after := published.(published_revision);
      boundary := attachment_cursor published; obs_cursor := attachment_cursor published;
      continuous := true; pending := None; obs_lost := None;
      state_open := self.(state_open); obs_closed := self.(obs_closed) |}).

Definition reattach (state : slot_channel) (ring : channel) (self : BookObserver) :
    PublishedBook * BookObserver :=
  let deliveries := ring_subscribe ring in
  reattach_read state deliveries self.

Definition redundant (self : BookObserver) (delivery : StreamDelivery) : bool :=
  match delivery with
  | Mutation delivery => delivery.(md_revision) <=? self.(resume_after)
  | Resolution delivery =>
      let cursor := delivery.(rd_cursor) in
      (cursor.(cursor_epoch) <? self.(boundary).(cursor_epoch))
      || ((cursor.(cursor_epoch) =? self.(boundary).(cursor_epoch))
          && (cursor.(cursor_position) <? self.(boundary).(cursor_position)))
  end.

Definition fail (error : ObserverRecvError) (self : BookObserver) :
    ObserverRecvError * BookObserver :=
  (error, set_lost error self).

Definition resolve (resumed : option MutationCursor) (self : BookObserver) :
    option ObserverRecvError * BookObserver :=
  match self.(pending) with
  | None => (None, self)
  | Some span =>
      let self := set_pending None self in
      match classify_overrun self.(boundary) resumed with
      | Harmless => (None, self)
      | LostHistory =>
          let '(error, self) := fail (continuity_lost span.(missed)) self in
          (Some error, self)
      end
  end.

Definition observer_closed (self : BookObserver) : ObserverRecvError * BookObserver :=
  match resolve None self with
  | (Some error, self) => (error, self)
  | (None, self) => (WriterClosed, set_closed self)
  end.

Definition overran (missed : Z) (self : BookObserver) : BookObserver :=
  set_pending (Some (accumulated (default pending_default self.(pending)) missed)) self.

Definition observer_admit (delivery : StreamDelivery) (self : BookObserver) :
    result (option StreamDelivery) ObserverRecvError * BookObserver :=
  if redundant self delivery then (Ok None, set_pending None self)
  else
    if negb ((delivery_cursor delivery).(cursor_epoch) =? self.(boundary).(cursor_epoch))
    then
      let count := match self.(pending) with Some span => span.(missed) | None => 0 end in
      let '(error, self) := fail (rebased_stream count) (set_pending None self) in
      (Err error, self)
    else
      match resolve (Some (delivery_cursor delivery)) self with
      | (Some error, self) => (Err error, self)
      | (None, self) => (Ok (Some delivery), set_cursor (delivery_cursor delivery) self)
      end.

(** The loop of [try_recv]; [None] when the fuel is spent. *)
Fixpoint receive_loop (fuel : nat) (ring : channel) (self : BookObserver) :
    option (result (option StreamDelivery) ObserverRecvError * BookObserver) :=
  match fuel with
  | O => None
  | S fuel =>
      let '(received, r) := ring_try_recv ring self.(obs_deliveries) in
      let self := set_deliveries r self in
      match received with
      | Ok delivery =>
          match observer_admit delivery self with
          | (Ok None, self) => receive_loop fuel ring self
          | other => Some other
          end
      | Err Empty => Some (Ok None, self)
      | Err Closed => let '(error, self) := observer_closed self in Some (Err error, self)
      | Err (Lagged missed) => receive_loop fuel ring (overran missed self)
      end
  end.

Definition try_recv (fuel : nat) (ring : channel) (self : BookObserver) :
    option (result (option StreamDelivery) ObserverRecvError * BookObserver) :=
  match self.(obs_lost) with
  | Some error => Some (Err error, self)
  | None => receive_loop fuel ring self
  end.

(** One poll of [recv]: the ring's own [recv] is pending exactly where its [try_recv] finds
    nothing, so the poll is [try_recv] with that answer read as pending. *)
Definition recv (fuel : nat) (ring : channel) (self : BookObserver) :
    option (option (result StreamDelivery ObserverRecvError) * BookObserver) :=
  match try_recv fuel ring self with
  | None => None
  | Some (Ok None, self) => Some (None, self)
  | Some (Ok (Some delivery), self) => Some (Some (Ok delivery), self)
  | Some (Err error, self) => Some (Some (Err error), self)
  end.

(** One poll of [next_event]: deliveries first, then the state notification. *)
Fixpoint event_loop (fuel : nat) (state : slot_channel) (ring : channel)
    (self : BookObserver) :
    option (option (result ObserverEvent ObserverRecvError) * BookObserver) :=
  match fuel with
  | O => None
  | S fuel =>
      if negb self.(state_open) then
        match recv fuel ring self with
        | None => None
        | Some (None, self) => Some (None, self)
        | Some (Some (Ok delivery), self) => Some (Some (Ok (event_of delivery)), self)
        | Some (Some (Err error), self) => Some (Some (Err error), self)
        end
      else
        let '(received, r) := ring_try_recv ring self.(obs_deliveries) in
        let self := set_deliveries r self in
        match received with
        | Ok delivery =>
            match observer_admit delivery self with
            | (Ok None, self) => event_loop fuel state ring self
            | (Ok (Some delivery), self) => Some (Some (Ok (event_of delivery)), self)
            | (Err error, self) => Some (Some (Err error), self)
            end
        | Err Closed => let '(error, self) := observer_closed self in Some (Some (Err error), self)
        | Err (Lagged missed) => event_loop fuel state ring (overran missed self)
        | Err Empty =>
            match changed state self.(obs_state) with
            | (None, s) => Some (None, set_state s self.(state_open) self)
            | (Some (Ok _), s) =>
                let '(published, s) := borrow_and_update state s in
                Some (Some (Ok (PublishedEvent published)), set_state s self.(state_open) self)
            | (Some (Err _), s) => event_loop fuel state ring (set_state s false self)
            end
        end
  end.

Definition next_event (fuel : nat) (state : slot_channel) (ring : channel)
    (self : BookObserver) :
    option (option (result ObserverEvent ObserverRecvError) * BookObserver) :=
  match self.(obs_lost) with
  | Some error => Some (Some (Err error), self)
  | None => event_loop fuel state ring self
  end.

Definition consumer_state (self : BookObserver) : ConsumerState :=
  if self.(obs_closed) then Detached
  else
    match self.(obs_lost) with
    | Some (HistoryLost RecoveryBase _) => Rebased self.(obs_cursor)
    | Some _ => Overran self.(obs_cursor)
    | None => Attached self.(obs_cursor) self.(continuous)
    end.
End observer.
