(* ===== verification/ObserverProps.v ===== *)
(** * What a consumer can rely on

    The writer and one consumer as a transition system: the writer publishes a state and then
    sends its deliveries one at a time, and the consumer receives, or reattaches, between any
    two of these steps. Along every run the consumer is handed exactly the writer's own
    deliveries since the state it attached at, without gap or repetition, until it is told of
    a loss; and replaying what it was handed keeps it at the writer's book. *)

From S2P Require Import Prelude OrdMap Numeric Identity Descriptor Continuity Observation.
From S2P Require Import Book BookProps Channel Observer.

(** ** Moves of the book, with the deliveries each puts on the ring *)

Inductive book_move : OrderBook -> list StreamDelivery -> OrderBook -> Prop :=
| move_snapshot c commit b b' : candidate_wf c -> apply_snapshot c b = (Ok commit, b') ->
    book_move b (commit_deliveries commit) b'
| move_delta c commit b b' : candidate_wf c -> apply_source_delta c b = (Ok commit, b') ->
    book_move b (commit_deliveries commit) b'
| move_resolution m cursor b b' : note_stream_event b = (Ok cursor, b') ->
    book_move b [Resolution {| rd_revision := b'.(revision); rd_cursor := cursor;
                               rd_resolution := m |}] b'
| move_unsubscribe b b' : unsubscribe b = (Ok true, b') -> book_move b [] b'
| move_loss reason why b b' : report_continuity_loss reason why b = (Ok true, b') ->
    book_move b [] b'.

(** The deliveries sent between two states of the book. *)
Inductive since : OrderBook -> list StreamDelivery -> OrderBook -> Prop :=
| since_refl b : since b [] b
| since_move b F b' ds b'' : since b F b' -> book_move b' ds b'' -> since b (F ++ ds) b''.

Lemma book_move_step b ds b' : book_move b ds b' -> book_step b (delivery_cursor <$> ds) b'.
Proof.
  intros []; simpl.
  - replace (delivery_cursor <$> _) with (commit_cursors (Ok commit)); [by eapply step_snapshot|].
    simpl. unfold commit_deliveries. by rewrite <- list_fmap_compose.
  - replace (delivery_cursor <$> _) with (commit_cursors (Ok commit)); [by eapply step_delta|].
    simpl. unfold commit_deliveries. by rewrite <- list_fmap_compose.
  - by apply (step_event _ (Ok cursor)).
  - by eapply step_unsubscribe.
  - by eapply step_loss.
Qed.

(** The mutations a consumer applies. *)
Definition delivered_mutation (d : StreamDelivery) : option MutationRecord :=
  match d with
  | Mutation m => Some {| cursor := m.(md_cursor); mutation := m.(md_mutation) |}
  | Resolution _ => None
  end.
Definition delivered_mutations (ds : list StreamDelivery) : list MutationRecord :=
  omap delivered_mutation ds.

Lemma delivered_commit commit :
  delivered_mutations (commit_deliveries commit) = commit.(mutations).
Proof.
  unfold delivered_mutations, commit_deliveries. induction commit.(mutations) as [|[c m] ms IH];
    [done|]. simpl. by f_equal.
Qed.

(** ** Depth is what a replay preserves *)

(** Two ordered maps resting at the same depth everywhere. *)
Definition same_depth (l k : PhysicalLevels) : Prop :=
  levels_ok l /\ levels_ok k /\ forall c, coordinate_wf c -> depth l c = depth k c.

Definition record_wf (m : MutationRecord) : Prop :=
  forall l, m.(mutation).(old) = Some l \/ m.(mutation).(new) = Some l ->
    coordinate_wf (coordinate l).

Lemma coordinate_level_at c q : coordinate (level_at c q) = c.
Proof. by destruct c. Qed.

Lemma record_changes_wf p e n l : Forall (fun c : change => coordinate_wf c.1.1) l ->
  Forall record_wf (record_changes p e n l).
Proof.
  revert n. induction l as [|[[c b] a] l IH]; intros n Hl; [constructor|].
  apply Forall_cons_1 in Hl as [Hc Hl]. constructor; [|by apply IH].
  intros lv; simpl. destruct b, a; simpl; intros [[= <-]|[= <-]] || intros [?|[= <-]] ||
    intros [[= <-]|?] || intros [?|?]; try done; by rewrite coordinate_level_at.
Qed.

Lemma depth_insert ls c q d : coordinate_wf c -> coordinate_wf d -> levels_ok ls ->
  depth (map_insert coordinate_cmp c q ls) d =
  if bool_decide (d = c) then (if is_resting q then Some q else None) else depth ls d.
Proof.
  intros Hc Hd Hok. change (map_insert coordinate_cmp c q ls) with (write_level ls (c, Some q)).
  unfold depth. rewrite write_level_get by done. by case_bool_decide.
Qed.

Lemma depth_remove ls c d : coordinate_wf c -> coordinate_wf d -> levels_ok ls ->
  depth (map_remove coordinate_cmp c ls) d = if bool_decide (d = c) then None else depth ls d.
Proof.
  intros Hc Hd Hok. change (map_remove coordinate_cmp c ls) with (write_level ls (c, None)).
  unfold depth. rewrite write_level_get by done. by case_bool_decide.
Qed.

Lemma apply_mutation_depth l k m : record_wf m -> same_depth l k ->
  same_depth (apply_mutation l m) (apply_mutation k m).
Proof.
  intros Hm (Hl & Hk & Hd). unfold apply_mutation, record_wf in *.
  destruct m.(mutation).(new) as [n|]; [|destruct m.(mutation).(old) as [o|]; [|done]].
  - assert (Hc : coordinate_wf (coordinate n)) by (by apply Hm; right).
    split_and!; [by apply map_insert_ok; [apply _|..]..|].
    intros c Hcw. rewrite !depth_insert by done. case_bool_decide; [done|by apply Hd].
  - assert (Hc : coordinate_wf (coordinate o)) by (by apply Hm; left).
    split_and!; [by apply (map_remove_ok coordinate_cmp coordinate_wf)..|].
    intros c Hcw. rewrite !depth_remove by done. case_bool_decide; [done|by apply Hd].
Qed.

Lemma replay_depth l k ms : Forall record_wf ms -> same_depth l k ->
  same_depth (replay l ms) (replay k ms).
Proof.
  intros Hms. revert l k. induction Hms as [|m ms Hm Hms IH]; intros l k H; [done|].
  apply IH. by apply apply_mutation_depth.
Qed.

(** ** One move *)

(** Deliveries numbered from a position of an epoch. *)
Definition numbered_deliveries (e p : Z) (ds : list StreamDelivery) : Prop :=
  forall j d, ds !! j = Some d ->
    delivery_cursor d = {| cursor_epoch := e; cursor_position := p + Z.of_nat j |}.

Lemma commit_deliveries_len commit : len (commit_deliveries commit) = len commit.(mutations).
Proof. unfold len, commit_deliveries. by rewrite length_fmap. Qed.

Lemma commit_deliveries_numbered e p commit : numbered_from e p commit.(mutations) ->
  numbered_deliveries e p (commit_deliveries commit).
Proof.
  intros H j d Hj. unfold commit_deliveries in Hj. apply list_lookup_fmap_Some in Hj as (m & -> & Hm).
  simpl. by apply H.
Qed.

Lemma delta_mutations_wf b source ls e p : Forall level_wf ls ->
  Forall record_wf (delta_mutations b source ls e p).
Proof.
  intros Hwf. apply record_changes_wf. apply Forall_forall. intros c Hc.
  apply list_elem_of_In in Hc. unfold changed in Hc. apply filter_In in Hc as [Hc _].
  pose proof (delta_changes_wf b.(book_levels) ls Hwf) as H. rewrite Forall_forall in H.
  by apply H, list_elem_of_In.
Qed.

Lemma snapshot_mutations_wf b source next e p : levels_ok b.(book_levels) -> levels_ok next ->
  Forall record_wf (snapshot_mutations b source next e p).
Proof.
  intros Hb Hn. unfold snapshot_mutations. destruct (_ || _); [constructor|].
  apply record_changes_wf. apply Forall_forall. intros c Hc. apply list_elem_of_In in Hc.
  unfold changed in Hc. apply filter_In in Hc as [Hc _]. apply list_elem_of_In in Hc.
  unfold all_changes in Hc. apply list_elem_of_fmap in Hc as (k & -> & Hk).
  destruct (diff_coordinates b.(book_levels) next Hb Hn) as (_ & H & _).
  rewrite Forall_forall in H. by apply H.
Qed.

(** What one move sends, where the stream stands before and after, and what it does to depth. *)
Record move_facts (b : OrderBook) (ds : list StreamDelivery) (b' : OrderBook) : Prop := {
  mf_wf : book_wf b';
  mf_epoch : epoch_of b.(continuity) <= epoch_of b'.(continuity);
  mf_stream :
    (exists e q, b.(continuity) = Intact e q /\ b'.(continuity) = Intact e (q + len ds) /\
       numbered_deliveries e q ds) \/
    (ds = [] /\ (is_intact b'.(continuity) = true ->
                 epoch_of b.(continuity) < epoch_of b'.(continuity)));
  mf_revision : b.(revision) <= b'.(revision);
  mf_revisions : Forall (fun d => delivery_revision d = b'.(revision)) ds;
  mf_mutations : delivered_mutations ds <> [] -> b.(revision) < b'.(revision);
  mf_records : Forall record_wf (delivered_mutations ds);
  mf_base : b.(book_provenance) <> None -> b'.(book_provenance) <> None;
  mf_depth : epoch_of b'.(continuity) = epoch_of b.(continuity) -> b.(book_provenance) <> None ->
    same_depth (replay b.(book_levels) (delivered_mutations ds)) b'.(book_levels)
}.

Lemma same_depth_refl l : levels_ok l -> same_depth l l.
Proof. unfold same_depth. auto. Qed.

Lemma snapshot_move_facts c commit b b' : book_wf b -> candidate_wf c ->
  apply_snapshot c b = (Ok commit, b') -> move_facts b (commit_deliveries commit) b'.
Proof.
  intros Hb Hc H.
  assert (Hwf : book_wf b') by (eapply book_step_wf; [exact Hb|by eapply step_snapshot]).
  apply apply_snapshot_Ok in H as (ls & next & e & p & Eop & Hm & Hn & Hbase & Hl & Hr & -> & ->);
    [|done..].
  pose proof (wf_candidate_levels c Hc) as Hlwf. rewrite Eop in Hlwf.
  destruct (snapshot_entries _ _ Hlwf Hn) as (Hok & _ & _). pose proof (wf_levels b Hb) as Hbok.
  set (source := c.(candidate_provenance)) in *.
  assert (Hstream : if recovers b next
                    then snapshot_mutations b source next e p = [] /\ e = epoch_of b.(continuity) + 1
                    else b.(continuity) = Intact e p).
  { unfold stream_base, snapshot_mutations in *. destruct (recovers b next); [|done].
    by destruct Hbase as (? & _). }
  split; try done; simpl.
  - destruct (recovers b next); [lia|]. rewrite Hstream. simpl. lia.
  - destruct (recovers b next) eqn:Erec.
    + right. destruct Hstream as [Hms ->]. split; [unfold commit_deliveries; simpl; by rewrite Hms|lia].
    + left. exists e, p. rewrite Hstream, commit_deliveries_len. split_and!; [done|done|].
      apply commit_deliveries_numbered. simpl. unfold snapshot_mutations.
      destruct (_ || _); [by intros [|i]|]. apply record_changes_numbered.
  - lia.
  - unfold commit_deliveries. by apply Forall_fmap, Forall_true.
  - intros _. lia.
  - rewrite delivered_commit. by apply snapshot_mutations_wf.
  - intros Hep Hprov. rewrite delivered_commit. simpl. destruct (recovers b next) eqn:Erec;
      [destruct Hstream; lia|]. unfold snapshot_mutations. rewrite Erec, bool_decide_false by done.
    cbn [orb]. destruct b.(delta_rail) eqn:Erail; [|rewrite replay_derived by done;
      by apply same_depth_refl].
    split_and!; [done|done|]. apply economically_equal_spec; [done|done|].
    unfold recovers, diverges in Erec. rewrite Erail, Hstream in Erec. simpl in Erec.
    by destruct (economically_equal _ _).
Qed.

Lemma delta_move_facts c commit b b' : book_wf b -> candidate_wf c ->
  apply_source_delta c b = (Ok commit, b') -> move_facts b (commit_deliveries commit) b'.
Proof.
  intros Hb Hc H.
  assert (Hwf : book_wf b') by (eapply book_step_wf; [exact Hb|by eapply step_delta]).
  apply apply_source_delta_Ok in H
    as (ls & e & p & Eop & Hm & Hne & Hbase & Hcomp & Hnd & Ec & Hl & Hr & Hd & -> & ->); [|done..].
  pose proof (wf_candidate_levels c Hc) as Hlwf. rewrite Eop in Hlwf. simpl in Hlwf.
  split; try done; simpl.
  - rewrite Ec. simpl. lia.
  - left. exists e, p. rewrite commit_deliveries_len. split_and!; [done|done|].
    apply commit_deliveries_numbered, record_changes_numbered.
  - lia.
  - unfold commit_deliveries. by apply Forall_fmap, Forall_true.
  - intros _. lia.
  - rewrite delivered_commit. by apply delta_mutations_wf.
  - intros _ _. rewrite delivered_commit. simpl. rewrite replay_delta by done.
    apply same_depth_refl, (delta_levels b ls.(levels)); [apply Hb|done|done].
Qed.

Lemma book_move_facts b ds b' : book_wf b -> book_move b ds b' -> move_facts b ds b'.
Proof.
  intros Hb Hmove.
  assert (Hwf : book_wf b') by (eapply book_step_wf; [exact Hb|by apply book_move_step]).
  destruct Hmove as [c commit b b' Hc H|c commit b b' Hc H|m cur b b' H|b b' H|reason why b b' H].
  - by eapply snapshot_move_facts.
  - by eapply delta_move_facts.
  - apply note_stream_event_Ok in H as (e & q & Ec & Hq & -> & ->); [|done].
    split; try done; simpl; rewrite ?Ec; simpl; try lia.
    + left. exists e, q. split_and!; [done|by rewrite len_cons, len_nil, Z.add_0_r|].
      intros [|j] d; [|done]. intros [= <-]. simpl. by rewrite Z.add_0_r.
    + by repeat constructor.
    + intros _ _. apply same_depth_refl, Hb.
  - apply unsubscribe_Ok in H as (_ & Hr & ->); [|done].
    split; try done; simpl; try lia; try (by constructor); try (by destruct 1).
    + destruct b.(continuity) as [e q|e r] eqn:Ec; [left|by right].
      exists e, q. rewrite len_nil, Z.add_0_r. split_and!; [done|done|by intros [|j]].
    + intros _ _. apply same_depth_refl, Hb.
  - apply report_continuity_loss_Ok in H as (Hr & ->); [|done].
    split; try done; simpl; try lia; try (by constructor); try (by destruct 1); rewrite ?lost_epoch; try lia.
    + right. rewrite lost_not_intact. by split.
    + intros _ _. apply same_depth_refl, Hb.
Qed.

(** ** Many moves *)

(** What has been sent since a base whose stream stood at position [p] of epoch [e]. *)
Record since_facts (b : OrderBook) (e p : Z) (F : list StreamDelivery) (b' : OrderBook) : Prop := {
  sf_wf : book_wf b';
  sf_epoch : e <= epoch_of b'.(continuity);
  sf_positions : forall j d, F !! j = Some d ->
    e <= (delivery_cursor d).(cursor_epoch) <= epoch_of b'.(continuity) /\
    ((delivery_cursor d).(cursor_epoch) = e ->
     (delivery_cursor d).(cursor_position) = p + Z.of_nat j);
  sf_next : forall q, b'.(continuity) = Intact e q -> q = p + len F;
  sf_revision : b.(revision) <= b'.(revision);
  sf_fresh : Forall (fun d => match d with
                              | Mutation m => b.(revision) < m.(md_revision)
                              | Resolution _ => True
                              end) F;
  sf_records : Forall record_wf (delivered_mutations F);
  sf_base : b.(book_provenance) <> None -> b'.(book_provenance) <> None;
  sf_depth : epoch_of b'.(continuity) = e -> b.(book_provenance) <> None ->
    same_depth (replay b.(book_levels) (delivered_mutations F)) b'.(book_levels)
}.

Lemma lookup_app_cases (F ds : list StreamDelivery) j d :
  (F ++ ds) !! j = Some d ->
  F !! j = Some d \/ exists i, ds !! i = Some d /\ (j = length F + i)%nat.
Proof.
  intros H. apply lookup_app_Some in H as [H|[Hj H]]; [by left|right].
  exists (j - length F)%nat. split; [done|lia].
Qed.

Lemma replay_app l ms ms' : replay l (ms ++ ms') = replay (replay l ms) ms'.
Proof. apply fold_left_app. Qed.

Lemma delivered_app ds ds' :
  delivered_mutations (ds ++ ds') = delivered_mutations ds ++ delivered_mutations ds'.
Proof. apply omap_app. Qed.

Lemma same_depth_trans l k m : same_depth l k -> same_depth k m -> same_depth l m.
Proof.
  intros (Hl & Hk & H) (_ & Hm & H'). split_and!; try done. intros c Hc.
  by rewrite H, H'.
Qed.

Lemma fresh_mutations b b' ds : move_facts b ds b' ->
  Forall (fun d => match d with
                   | Mutation m => b.(revision) < m.(md_revision)
                   | Resolution _ => True
                   end) ds.
Proof.
  intros Hm. pose proof (mf_revisions _ _ _ Hm) as Hr. pose proof (mf_mutations _ _ _ Hm) as Hlt.
  rewrite Forall_forall in Hr. apply Forall_forall. intros [m|] Hd; [|done].
  specialize (Hr _ Hd). simpl in Hr. rewrite Hr. apply Hlt. intros E.
  apply list_elem_of_lookup_1 in Hd as [i Hi]. clear Hr Hlt Hm.
  revert i Hi. induction ds as [|[]]; intros [|i] Hi; simpl in *; try done; eauto.
Qed.

Lemma since_facts_nil b e p : book_wf b -> b.(continuity) = Intact e p ->
  since_facts b e p [] b.
Proof.
  intros Hb Ec. split; try done; try lia; try (by constructor).
  - rewrite Ec. simpl. lia.
  - intros q. rewrite Ec. intros [= <-]. rewrite len_nil. lia.
  - intros _ _. apply same_depth_refl, Hb.
Qed.

Lemma since_facts_snoc b e p F b' ds b'' : since_facts b e p F b' -> move_facts b' ds b'' ->
  since_facts b e p (F ++ ds) b''.
Proof.
  intros Hs Hm. pose proof (mf_epoch _ _ _ Hm) as Hep. pose proof (sf_epoch _ _ _ _ _ Hs) as He.
  assert (Hpos : forall i d, ds !! i = Some d ->
            e <= (delivery_cursor d).(cursor_epoch) <= epoch_of b''.(continuity) /\
            ((delivery_cursor d).(cursor_epoch) = e ->
             (delivery_cursor d).(cursor_position) = p + Z.of_nat (length F + i))).
  { intros i d Hi. destruct (mf_stream _ _ _ Hm) as [(e' & q & E & E' & Hn)|[-> _]]; [|done].
    rewrite (Hn _ _ Hi). rewrite E, E' in *. simpl in *. split; [lia|]. intros ->.
    rewrite (sf_next _ _ _ _ _ Hs q E). unfold len. lia. }
  split.
  - apply Hm.
  - lia.
  - intros j d Hj. apply lookup_app_cases in Hj as [Hj|(i & Hi & ->)]; [|by apply Hpos].
    destruct (sf_positions _ _ _ _ _ Hs _ _ Hj) as [? ?]. split; [lia|done].
  - intros q E. rewrite len_app. destruct (mf_stream _ _ _ Hm) as [(e' & q' & E1 & E2 & _)|[-> Hlt]].
    + rewrite E in E2. injection E2 as -> ->. rewrite (sf_next _ _ _ _ _ Hs _ E1). lia.
    + rewrite E in Hlt. simpl in Hlt. specialize (Hlt eq_refl). lia.
  - pose proof (sf_revision _ _ _ _ _ Hs). pose proof (mf_revision _ _ _ Hm). lia.
  - apply Forall_app. split; [apply Hs|]. eapply Forall_impl; [by eapply fresh_mutations|].
    pose proof (sf_revision _ _ _ _ _ Hs). intros [m|]; [simpl; lia|done].
  - rewrite delivered_app. apply Forall_app. split; [apply Hs|apply Hm].
  - intros H. by apply Hm, Hs.
  - intros E Hb. rewrite delivered_app, replay_app. eapply same_depth_trans.
    + apply replay_depth; [apply Hm|]. apply (sf_depth _ _ _ _ _ Hs); [lia|done].
    + apply (mf_depth _ _ _ Hm); [lia|]. by apply (sf_base _ _ _ _ _ Hs).
Qed.

Lemma since_since_facts b e p F b' : book_wf b -> b.(continuity) = Intact e p ->
  since b F b' -> since_facts b e p F b'.
Proof.
  intros Hb Ec H. induction H as [b|b F b' ds b'' H IH Hm].
  - by apply since_facts_nil.
  - specialize (IH Hb Ec). eapply since_facts_snoc; [exact IH|].
    apply book_move_facts; [apply IH|done].
Qed.

(** Everything sent so far lies before where the stream stands. *)
Definition behind (b : OrderBook) (d : StreamDelivery) : Prop :=
  delivery_revision d <= b.(revision) /\
  cursor_lt (delivery_cursor d) (stream_next b.(continuity)).

Lemma behind_move b ds b' hs : book_wf b -> book_move b ds b' ->
  Forall (behind b) hs -> Forall (behind b') (hs ++ ds).
Proof.
  intros Hb Hm Hh. pose proof (book_move_facts _ _ _ Hb Hm) as Hf.
  pose proof (book_step_cursors _ _ _ Hb (book_move_step _ _ _ Hm)) as (_ & _ & Hhi & Hle).
  apply Forall_app. split.
  - eapply Forall_impl; [exact Hh|]. intros d [Hr Hc]. split.
    + pose proof (mf_revision _ _ _ Hf). lia.
    + eapply cursor_lt_le_trans; [exact Hc|exact Hle].
  - apply Forall_forall. intros d Hd. pose proof (mf_revisions _ _ _ Hf) as Hr.
    rewrite Forall_forall in Hr. rewrite Forall_forall in Hhi. split; [by rewrite (Hr _ Hd)|].
    apply Hhi. apply list_elem_of_fmap. by exists d.
Qed.

(** ** Receiving *)

Section consumer.
Context `{RB : Broadcast StreamDelivery} `{RL : !BroadcastLaws RB}.
Context `{WP : Watch PublishedBook} `{WL : !WatchLaws WP}.

Abbreviation position o := (at_position o.(obs_deliveries)).

(** A consumer following the ring from a base at revision [R] and position [p] of epoch [e]:
    of everything sent or about to be, [h ++ out], the first [k] deliveries are contained in
    the base and the later ones are not. *)
Record following (R e p : Z) (all : list StreamDelivery) (k : nat) (o : BookObserver) : Prop := {
  fo_resume : o.(resume_after) = R;
  fo_boundary : o.(boundary) = {| cursor_epoch := e; cursor_position := p |};
  fo_base : (k <= length all)%nat;
  fo_old : forall i d, all !! i = Some d -> (i < k)%nat -> redundant o d = true;
  fo_new : forall j d, drop k all !! j = Some d ->
    redundant o d = false /\
    ((delivery_cursor d).(cursor_epoch) = e ->
     (delivery_cursor d).(cursor_position) = p + Z.of_nat j) /\
    e <= (delivery_cursor d).(cursor_epoch)
}.

(** How far it has come: [log] is what it was handed, and between there and its position lies
    only what a pending overrun skipped. *)
Definition progress (sent_len : nat) (all : list StreamDelivery) (k : nat) (o : BookObserver)
    (log : list StreamDelivery) : Prop :=
  exists upto, (upto <= position o <= sent_len)%nat /\
    log = take (upto - k) (drop k all) /\
    match o.(pending) with
    | None => upto = position o
    | Some _ => (upto < position o < sent_len)%nat
    end.

(** What each answer of a receive says. *)
Definition receive_outcome (c : channel) (all : list StreamDelivery) (e : Z) (k : nat)
    (log : list StreamDelivery)
    (r : result (option StreamDelivery) ObserverRecvError) (o : BookObserver) : Prop :=
  match r with
  | Ok (Some d) =>
      drop k all !! length log = Some d /\ (delivery_cursor d).(cursor_epoch) = e /\
      o.(obs_lost) = None /\ progress (length (sent c)) all k o (log ++ [d])
  | Ok None | Err WriterClosed =>
      log = take (length (sent c) - k) (drop k all) /\ o.(obs_lost) = None /\
      progress (length (sent c)) all k o log /\
      sender_gone c = negb (is_ok r)
  | Err (HistoryLost Overrun n) =>
      o.(obs_lost) = Some (HistoryLost Overrun n) /\
      exists skipped d, skipped <> [] /\ (delivery_cursor d).(cursor_epoch) = e /\
        (log ++ skipped ++ [d]) `prefix_of` drop k all
  | Err (HistoryLost RecoveryBase n) =>
      o.(obs_lost) = Some (HistoryLost RecoveryBase n) /\
      exists d, d ∈ drop k all /\ e < (delivery_cursor d).(cursor_epoch)
  | Err (HistoryLost _ _) => False
  end.

Lemma following_stable R e p all k o o' : following R e p all k o ->
  o'.(resume_after) = o.(resume_after) -> o'.(boundary) = o.(boundary) ->
  following R e p all k o'.
Proof.
  intros [H1 H2 H3 H4 H5] Hr Hb.
  assert (Hred : forall d, redundant o' d = redundant o d)
    by (intros d; unfold redundant; by rewrite Hr, Hb).
  split; [congruence|congruence|done| |].
  - intros i d. rewrite Hred. apply H4.
  - intros j d Hj. rewrite Hred. by apply H5.
Qed.

Lemma take_snoc_lookup {A} (l : list A) n x : l !! n = Some x -> take n l ++ [x] = take (S n) l.
Proof. intros H. by rewrite (take_S_r _ _ _ H). Qed.

Lemma log_length (all : list StreamDelivery) k upto : (upto <= length all)%nat ->
  length (take (upto - k) (drop k all)) = (upto - k)%nat.
Proof. intros H. rewrite length_take, length_drop. lia. Qed.

(** A delivery taken from the ring, through the observer's one ordered decision. *)
Lemma admit_outcome R e p (c : channel) all k o log d r o' :
  following R e p all k o -> o.(obs_lost) = None ->
  (length (sent c) <= length all)%nat -> (position o < length (sent c))%nat ->
  all !! position o = Some d -> progress (length (sent c)) all k o log ->
  forall r', observer_admit d (set_deliveries r' o) = (r, o') ->
  at_position r' = S (position o) ->
  following R e p all k o' /\ o'.(obs_deliveries) = r' /\
  match r with
  | Ok None => o'.(obs_lost) = None /\ progress (length (sent c)) all k o' log
  | _ => receive_outcome c all e k log r o'
  end.
Proof.
  intros Hf Hl Hlen Hpos Hd (upto & Hup & Hlog & Hpend) r' Hadm Hr'.
  assert (Hst : forall o'', o''.(resume_after) = o.(resume_after) ->
            o''.(boundary) = o.(boundary) -> following R e p all k o'')
    by (intros; by eapply following_stable).
  destruct (le_lt_dec k (position o)) as [Hk|Hk].
  2: { (* contained in the base *)
    assert (Hred : redundant (set_deliveries r' o) d = true) by (exact (fo_old _ _ _ _ _ _ Hf _ _ Hd Hk)).
    unfold observer_admit in Hadm. rewrite Hred in Hadm. injection Hadm as <- <-.
    split_and!; [by apply Hst|done|done|]. exists (S (position o)). simpl. rewrite Hr'.
    split_and!; [lia|lia| |done]. rewrite Hlog. f_equal. lia. }
  assert (Hj : drop k all !! (position o - k)%nat = Some d)
    by (rewrite lookup_drop; rewrite <- Hd; f_equal; lia).
  destruct (fo_new _ _ _ _ _ _ Hf _ _ Hj) as (Hnred & Hnum & He).
  unfold observer_admit in Hadm.
  assert (Hred : redundant (set_deliveries r' o) d = false) by exact Hnred.
  rewrite Hred in Hadm. cbn [boundary set_deliveries] in Hadm.
  rewrite (fo_boundary _ _ _ _ _ _ Hf) in Hadm. cbn [cursor_epoch] in Hadm.
  destruct (Z.eqb_spec (delivery_cursor d).(cursor_epoch) e) as [Ee|Ene]; cbn [negb] in Hadm.
  2: { (* another epoch *)
    injection Hadm as <- <-. split_and!; [by apply Hst|done|]. simpl. split; [done|].
    exists d. split; [by eapply list_elem_of_lookup_2|lia]. }
  specialize (Hnum Ee). unfold resolve in Hadm. cbn [pending set_deliveries] in Hadm.
  destruct o.(pending) as [span|] eqn:Ep.
  - cbn [boundary set_pending set_deliveries] in Hadm.
    rewrite (fo_boundary _ _ _ _ _ _ Hf) in Hadm. unfold classify_overrun in Hadm.
    cbn [cursor_epoch cursor_position] in Hadm. rewrite Ee, Z.eqb_refl, Hnum in Hadm.
    cbn [andb] in Hadm. destruct (Z.leb_spec (p + Z.of_nat (position o - k)) p) as [Hle|Hgt].
    + (* the span lies before the base *)
      injection Hadm as <- <-. split_and!; [by apply Hst|done|]. simpl.
      assert (Hlog0 : log = []) by (rewrite Hlog; replace (upto - k)%nat with 0%nat by lia; done).
      rewrite Hlog0. split_and!; [simpl; rewrite <- Hj; f_equal; lia|done|done|].
      exists (S (position o)). simpl. rewrite Hr'. split_and!; [lia|lia| |done].
      replace (S (position o) - k)%nat with 1%nat by lia.
      rewrite <- (take_snoc_lookup _ 0 d); [done|]. rewrite <- Hj. f_equal. lia.
    + injection Hadm as <- <-. split_and!; [by apply Hst|done|]. simpl. split; [done|].
      exists (drop (upto - k) (take (position o - k) (drop k all))), d. split_and!; [|done|].
      * intros E. apply (f_equal length) in E. rewrite length_drop, log_length in E by lia.
        simpl in E. lia.
      * rewrite app_assoc, Hlog.
        replace (take (upto - k) (drop k all))
          with (take (upto - k) (take (position o - k) (drop k all)))
          by (rewrite take_take; f_equal; lia).
        rewrite take_drop, (take_snoc_lookup _ _ _ Hj). apply prefix_take.
  - injection Hadm as <- <-. split_and!; [by apply Hst|done|]. subst upto. simpl.
    assert (Hlen' : length log = (position o - k)%nat) by (rewrite Hlog; apply log_length; lia).
    rewrite Hlen'. split_and!; [done|done|done|]. exists (S (position o)). simpl. rewrite Hr', Ep.
    split_and!; [lia|lia| |done]. rewrite Hlog, (take_snoc_lookup _ _ _ Hj). f_equal. lia.
Qed.

Lemma set_deliveries_same o : set_deliveries o.(obs_deliveries) o = o.
Proof. by destruct o. Qed.

Lemma receive_loop_outcome R e p (c : channel) all k fuel o log r o' :
  following R e p all k o -> o.(obs_lost) = None ->
  (length (sent c) <= length all)%nat -> sent c `prefix_of` all ->
  progress (length (sent c)) all k o log -> receive_loop fuel c o = Some (r, o') ->
  following R e p all k o' /\ receive_outcome c all e k log r o' /\
  (position o <= position o' <= length (sent c))%nat.
Proof.
  intros Hf Hl Hlen Hpre. revert o Hf Hl. induction fuel as [|fuel IH]; intros o Hf Hl Hpr H; [done|].
  pose proof Hpr as (upto & Hup & Hlog & Hpend). cbn [receive_loop] in H.
  pose proof (try_recv_law c o.(obs_deliveries) ltac:(lia)) as Hlaw.
  destruct (ring_try_recv c o.(obs_deliveries)) as [[d|[| |missed]] r'].
  - destruct Hlaw as [Hd Hr'].
    assert (Hlt : (position o < length (sent c))%nat) by (by apply lookup_lt_Some in Hd).
    destruct (observer_admit d (set_deliveries r' o)) as [r1 o1] eqn:Hadm.
    destruct (admit_outcome R e p c all k o log d r1 o1 Hf Hl Hlen Hlt
                (prefix_lookup_Some _ _ _ _ Hd Hpre) Hpr r' Hadm Hr') as (Hf1 & Hrec & Hout).
    assert (Hpos1 : (position o <= position o1 <= length (sent c))%nat) by (rewrite Hrec; lia).
    destruct r1 as [[d1|]|err].
    + injection H as <- <-. done.
    + destruct Hout as [Hl1 Hpr1]. destruct (IH o1 Hf1 Hl1 Hpr1 H) as (? & ? & ?).
      split_and!; try done; lia.
    + injection H as <- <-. done.
  - destruct Hlaw as (Heq & Hgone & ->). rewrite set_deliveries_same in H. injection H as <- <-.
    split_and!; try done; [|lia]. simpl. split_and!; try done.
    destruct o.(pending); [lia|]. by rewrite Hlog, Hpend, Heq.
  - destruct Hlaw as (Heq & Hgone & ->). rewrite set_deliveries_same in H.
    unfold observer_closed, resolve in H. destruct o.(pending) eqn:Ep; [lia|].
    injection H as <- <-. split_and!; [by eapply following_stable| |simpl; lia|simpl; lia].
    simpl. split_and!; try done.
    by rewrite Hlog, Hpend, Heq.
  - destruct Hlaw as (Hmv & -> & _).
    destruct (IH (overran (Z.of_nat (at_position r' - position o)) (set_deliveries r' o)))
      as (? & ? & ?); [by eapply following_stable|done| |done|split_and!; try done; simpl in *; lia].
    exists upto. simpl. split_and!; [lia|lia|done|lia|lia].
Qed.

Lemma admit_position d o : (observer_admit d o).2.(obs_deliveries) = o.(obs_deliveries).
Proof.
  unfold observer_admit, resolve. repeat (case_match; simplify_eq/=); done.
Qed.

(** A receive always answers: every turn of its loop moves the receiver forward. *)
Lemma receive_loop_total (c : channel) fuel o :
  (position o <= length (sent c))%nat -> (length (sent c) - position o < fuel)%nat ->
  exists r o', receive_loop fuel c o = Some (r, o').
Proof.
  revert o. induction fuel as [|fuel IH]; intros o Hpos Hfuel; [lia|]. cbn [receive_loop].
  pose proof (try_recv_law c o.(obs_deliveries) Hpos) as Hlaw.
  destruct (ring_try_recv c o.(obs_deliveries)) as [[d|[| |missed]] r'].
  - destruct Hlaw as [Hd Hr']. apply lookup_lt_Some in Hd.
    pose proof (admit_position d (set_deliveries r' o)) as Hp.
    destruct (observer_admit d (set_deliveries r' o)) as [[[d1|]|err] o1]; [by do 2 eexists| |by do 2 eexists].
    simpl in Hp. apply IH; rewrite Hp; lia.
  - by do 2 eexists.
  - destruct (observer_closed _) as [err o1]. by do 2 eexists.
  - destruct Hlaw as (Hmv & _). apply IH; simpl; lia.
Qed.

(** ** The writer's operations are moves, published and then sent *)

Lemma fold_send_book ds w : (fold_left send_delivery ds w).(writer_book) = w.(writer_book) /\
  (fold_left send_delivery ds w).(state_sender) = w.(state_sender) /\
  sent (fold_left send_delivery ds w).(delivery_sender) = sent w.(delivery_sender) ++ ds.
Proof.
  revert w. induction ds as [|d ds IH]; intros w; simpl; [by rewrite app_nil_r|].
  destruct (IH (send_delivery w d)) as (-> & -> & ->). simpl.
  by rewrite sent_send, <- app_assoc.
Qed.

Definition performs (w w' : BookWriter) : Prop :=
  w' = w \/ exists ds b', book_move w.(writer_book) ds b' /\
    w' = fold_left send_delivery ds (publish_state b' w).

Lemma with_book_same w : with_book w.(writer_book) w = w.
Proof. by destruct w. Qed.

(** Every operation of the writer, accepted or refused, either changes nothing — book,
    published state and ring alike — or makes one move of the book, publishes exactly the state
    that move left, and then sends exactly that move's deliveries in commit order; a refused
    call never reaches a consumer. *)
Theorem writer_publishes_then_sends (w : BookWriter) :
  (forall c, candidate_wf c -> performs w (writer_apply_snapshot c w).2 /\
     (is_ok (writer_apply_snapshot c w).1 = false -> (writer_apply_snapshot c w).2 = w)) /\
  (forall c, candidate_wf c -> performs w (writer_apply_source_delta c w).2 /\
     (is_ok (writer_apply_source_delta c w).1 = false -> (writer_apply_source_delta c w).2 = w)) /\
  (forall m, performs w (writer_publish_resolution m w).2 /\
     (is_ok (writer_publish_resolution m w).1 = false -> (writer_publish_resolution m w).2 = w)) /\
  (book_wf w.(writer_book) -> performs w (writer_unsubscribe w).2 /\
     forall reason why, performs w (writer_report_continuity_loss reason why w).2).
Proof.
  unfold performs, writer_apply_snapshot, writer_apply_source_delta, writer_publish_resolution,
    writer_unsubscribe, writer_report_continuity_loss, publish_if_changed, publish_then_send.
  split_and!.
  - intros c Hc. destruct (apply_snapshot c _) as [[commit|err] b'] eqn:E; simpl.
    + split; [right|done]. do 2 eexists. split; [by eapply move_snapshot|done].
    + apply apply_snapshot_atomic in E as ->. rewrite with_book_same. auto.
  - intros c Hc. destruct (apply_source_delta c _) as [[commit|err] b'] eqn:E; simpl.
    + split; [right|done]. do 2 eexists. split; [by eapply move_delta|done].
    + apply apply_source_delta_atomic in E as ->. rewrite with_book_same. auto.
  - intros m. destruct (note_stream_event _) as [[cursor|err] b'] eqn:E; simpl.
    + split; [right|done]. do 2 eexists. split; [by eapply move_resolution|done].
    + apply note_stream_event_atomic in E as ->. rewrite with_book_same. auto.
  - intros Hb. split.
    + destruct (unsubscribe _) as [[[|]|err] b'] eqn:E; simpl.
      * right. exists [], b'. split; [by eapply move_unsubscribe|done].
      * apply unsubscribe_Ok in E as [_ ->]; [|done]. rewrite with_book_same. auto.
      * apply unsubscribe_atomic in E as ->. rewrite with_book_same. auto.
    + intros reason why. destruct (report_continuity_loss _ _ _) as [[[|]|err] b'] eqn:E; simpl.
      * right. exists [], b'. split; [by eapply move_loss|done].
      * apply report_continuity_loss_Ok in E as (_ & _ & ->); [|done]. rewrite with_book_same. auto.
      * apply report_continuity_loss_atomic in E as ->. rewrite with_book_same. auto.
Qed.

Lemma performs_wf w w' : performs w w' -> book_wf w.(writer_book) -> book_wf w'.(writer_book).
Proof.
  intros [->|(ds & b' & Hm & ->)]; [done|]. intros Hb. rewrite (proj1 (fold_send_book ds _)). simpl.
  by eapply book_step_wf; [|apply book_move_step].
Qed.

Lemma performs_published w w' : performs w w' ->
  writer_published w = publish w.(writer_book) -> writer_published w' = publish w'.(writer_book).
Proof.
  intros [->|(ds & b' & Hm & ->)]; [done|]. intros _.
  destruct (fold_send_book ds (publish_state b' w)) as (-> & E & _). unfold writer_published.
  rewrite E. apply borrow_send.
Qed.

Lemma loss_keeps_live c a w :
  (writer_report_continuity_loss c a w).2.(writer_book).(authority) = Live ->
  w.(writer_book).(authority) = Live.
Proof.
  unfold writer_report_continuity_loss, publish_if_changed, report_continuity_loss, bind, gets, id,
    ret, lift, modify. simpl.
  destruct (bool_decide _ && bool_decide _); simpl; [done|].
  by destruct (checked_add_u64 _ _).
Qed.

Lemma resolution_keeps_live m w :
  (writer_publish_resolution m w).2.(writer_book).(authority) = Live ->
  w.(writer_book).(authority) = Live.
Proof.
  unfold writer_publish_resolution. destruct (note_stream_event _) as [[c|e] b] eqn:E; simpl.
  - intros <-. unfold note_stream_event, bind, gets, id, ret, lift, modify, throw in E. simpl in E.
    repeat case_match; simplify_eq/=; done.
  - by apply note_stream_event_atomic in E as ->.
Qed.

(** ** A writer and a consumer, interleaved *)

(** The deliveries still to be sent of the last move, the receiver a reattach in progress has
    subscribed, and, for the statements, the book the consumer's base is the publication of
    and what it was handed since. *)
Record system : Type := {
  sys_writer : BookWriter;
  outbox : list StreamDelivery;
  sys_observer : BookObserver;
  half : option receiver;
  base : OrderBook;
  log : list StreamDelivery
}.

Definition with_writer (w : BookWriter) (out : list StreamDelivery) (s : system) : system :=
  {| sys_writer := w; outbox := out; sys_observer := s.(sys_observer); half := s.(half);
     base := s.(base); log := s.(log) |}.
Definition with_observer (o : BookObserver) (l : list StreamDelivery) (s : system) : system :=
  {| sys_writer := s.(sys_writer); outbox := s.(outbox); sys_observer := o; half := s.(half);
     base := s.(base); log := l |}.
Definition drop_writer (w : BookWriter) : BookWriter :=
  {| writer_book := w.(writer_book); state_sender := slot_drop_sender w.(state_sender);
     delivery_sender := drop_sender w.(delivery_sender) |}.
Definition handed (r : result (option StreamDelivery) ObserverRecvError) :
    list StreamDelivery :=
  match r with Ok (Some d) => [d] | _ => [] end.

Inductive sys_step : system -> system -> Prop :=
| sys_publish s ds b' : s.(outbox) = [] ->
    sender_gone s.(sys_writer).(delivery_sender) = false ->
    book_move s.(sys_writer).(writer_book) ds b' ->
    sys_step s (with_writer (publish_state b' s.(sys_writer)) ds s)
| sys_send s d rest : s.(outbox) = d :: rest ->
    sys_step s (with_writer (send_delivery s.(sys_writer) d) rest s)
| sys_drop s : s.(outbox) = [] -> sys_step s (with_writer (drop_writer s.(sys_writer)) [] s)
| sys_receive s fuel r o : s.(half) = None ->
    try_recv fuel s.(sys_writer).(delivery_sender) s.(sys_observer) = Some (r, o) ->
    sys_step s (with_observer o (s.(log) ++ handed r) s)
| sys_resubscribe s : s.(half) = None ->
    sys_step s {| sys_writer := s.(sys_writer); outbox := s.(outbox);
                  sys_observer := s.(sys_observer);
                  half := Some (ring_subscribe s.(sys_writer).(delivery_sender));
                  base := s.(base); log := s.(log) |}
| sys_read s r published o : s.(half) = Some r ->
    reattach_read s.(sys_writer).(state_sender) r s.(sys_observer) = (published, o) ->
    sys_step s {| sys_writer := s.(sys_writer); outbox := s.(outbox); sys_observer := o;
                  half := None; base := s.(sys_writer).(writer_book); log := [] |}.

(** A consumer attached to a new writer. *)
Definition attached_to (b : OrderBook) (capacity : ObserverCapacity) : system :=
  let w := writer_new b capacity in
  {| sys_writer := w; outbox := []; sys_observer := attach w; half := None; base := b;
     log := [] |}.

Inductive sys_run : system -> system -> Prop :=
| sys_run_refl s : sys_run s s
| sys_run_step s s' s'' : sys_run s s' -> sys_step s' s'' -> sys_run s s''.

Definition all_sent (s : system) : list StreamDelivery :=
  sent s.(sys_writer).(delivery_sender) ++ s.(outbox).

Record sys_inv (s : system) : Prop := {
  si_book : book_wf s.(sys_writer).(writer_book);
  si_state : slot_borrow s.(sys_writer).(state_sender) = publish s.(sys_writer).(writer_book);
  si_behind : Forall (behind s.(sys_writer).(writer_book)) (all_sent s);
  si_half : forall r, s.(half) = Some r ->
    (at_position r <= length (sent s.(sys_writer).(delivery_sender)))%nat;
  si_base : book_wf s.(base);
  si_resume : s.(sys_observer).(resume_after) = s.(base).(revision);
  si_boundary : s.(sys_observer).(boundary) = attachment_cursor (publish s.(base));
  si_follow : exists k, (k <= length (all_sent s))%nat /\
    since s.(base) (drop k (all_sent s)) s.(sys_writer).(writer_book) /\
    Forall (behind s.(base)) (take k (all_sent s)) /\
    forall e p, s.(base).(continuity) = Intact e p ->
      (exists n, s.(log) = take n (drop k (all_sent s))) /\
      Forall (fun d => (delivery_cursor d).(cursor_epoch) = e) s.(log) /\
      (s.(sys_observer).(obs_lost) = None ->
       progress (length (sent s.(sys_writer).(delivery_sender))) (all_sent s) k
         s.(sys_observer) s.(log))
}.

(** A consumer whose fields are those of an attachment to [b] follows from [b]. *)
Lemma follow_base b e p all k (o : BookObserver) b' : book_wf b -> b.(continuity) = Intact e p ->
  (k <= length all)%nat -> since b (drop k all) b' -> Forall (behind b) (take k all) ->
  o.(resume_after) = b.(revision) -> o.(boundary) = attachment_cursor (publish b) ->
  following b.(revision) e p all k o.
Proof.
  intros Hb Ec Hk Hs Hbeh Hr Hbd. pose proof (since_since_facts b e p _ b' Hb Ec Hs) as Hf.
  unfold attachment_cursor in Hbd. simpl in Hbd. rewrite Ec in Hbd. split; try done.
  - intros i d Hd Hi. rewrite Forall_lookup in Hbeh.
    destruct (Hbeh i d) as [Hrev Hcur]; [by rewrite lookup_take_lt|]. rewrite Ec in Hcur.
    unfold redundant. rewrite Hr, Hbd. destruct d as [m|m]; simpl in *; [lia|].
    unfold cursor_lt in Hcur. simpl in Hcur.
    destruct (Z.ltb_spec m.(rd_cursor).(cursor_epoch) e), (Z.eqb_spec m.(rd_cursor).(cursor_epoch) e),
      (Z.ltb_spec m.(rd_cursor).(cursor_position) p); simpl; lia || done.
  - intros j d Hj. destruct (sf_positions _ _ _ _ _ Hf j d Hj) as [He Hp].
    split_and!; [|done|lia]. pose proof (sf_fresh _ _ _ _ _ Hf) as Hfr.
    rewrite Forall_lookup in Hfr. specialize (Hfr _ _ Hj).
    unfold redundant. rewrite Hr, Hbd. destruct d as [m|m]; simpl in *; [lia|].
    destruct (Z.ltb_spec m.(rd_cursor).(cursor_epoch) e); [lia|].
    destruct (Z.eqb_spec m.(rd_cursor).(cursor_epoch) e) as [Ee|]; [|done].
    rewrite (Hp Ee). destruct (Z.ltb_spec (p + Z.of_nat j) p); simpl; lia || done.
Qed.

Lemma progress_grow n n' all more k (o : BookObserver) l : (n <= n')%nat -> (n <= length all)%nat ->
  progress n all k o l -> progress n' (all ++ more) k o l.
Proof.
  intros Hn Hall (upto & Hup & -> & Hp). exists upto. split_and!; [lia|lia| |].
  - destruct (le_lt_dec k (length all)).
    + rewrite drop_app_le by lia. rewrite take_app_le; [done|rewrite length_drop; lia].
    + by replace (upto - k)%nat with 0%nat by lia.
  - destruct (pending o); lia.
Qed.

Lemma log_grow (l all more : list StreamDelivery) k : (k <= length all)%nat ->
  (exists n, l = take n (drop k all)) -> exists n, l = take n (drop k (all ++ more)).
Proof.
  intros Hk [n ->]. rewrite drop_app_le by done.
  destruct (le_lt_dec n (length (drop k all))) as [Hn|Hn].
  - exists n. by rewrite take_app_le.
  - exists (length (drop k all)). by rewrite take_app_length, take_ge by lia.
Qed.

Lemma attached_inv b capacity : book_wf b -> sys_inv (attached_to b capacity).
Proof.
  intros Hb. split; simpl; try done.
  - apply borrow_new.
  - unfold all_sent. simpl. rewrite sent_new. constructor.
  - by rewrite borrow_new.
  - by rewrite borrow_new.
  - exists 0%nat. unfold all_sent. simpl. rewrite sent_new. split_and!; [lia|constructor|constructor|].
    intros e p _. split_and!; [by exists 0%nat|constructor|]. intros _. exists 0%nat. simpl.
    rewrite subscribe_tail, sent_new. simpl. split_and!; done || lia.
Qed.

Lemma admit_fields d o : (observer_admit d o).2.(resume_after) = o.(resume_after) /\
  (observer_admit d o).2.(boundary) = o.(boundary).
Proof. unfold observer_admit, resolve. repeat (case_match; simplify_eq/=); done. Qed.

Lemma receive_loop_fields fuel c o r o' : receive_loop fuel c o = Some (r, o') ->
  o'.(resume_after) = o.(resume_after) /\ o'.(boundary) = o.(boundary).
Proof.
  revert o. induction fuel as [|fuel IH]; intros o H; [done|]. cbn [receive_loop] in H.
  destruct (ring_try_recv c o.(obs_deliveries)) as [[d|[| |missed]] r'].
  - pose proof (admit_fields d (set_deliveries r' o)) as [Hr Hb].
    destruct (observer_admit d (set_deliveries r' o)) as [[[d1|]|err] o1]; simpl in Hr, Hb.
    + by injection H as <- <-.
    + apply IH in H as [-> ->]. done.
    + by injection H as <- <-.
  - by injection H as <- <-.
  - unfold observer_closed, resolve in H. repeat (case_match; simplify_eq/=); done.
  - apply IH in H as [-> ->]. done.
Qed.

(** What one receive does to a followed consumer, lost or not. *)
Lemma try_recv_outcome R e p (c : channel) all k fuel o l r o' :
  following R e p all k o -> sent c `prefix_of` all ->
  (o.(obs_lost) = None -> progress (length (sent c)) all k o l) ->
  try_recv fuel c o = Some (r, o') ->
  match o.(obs_lost) with
  | Some err => r = Err err /\ o' = o
  | None => receive_outcome c all e k l r o'
  end.
Proof.
  intros Hf Hpre Hpr H. unfold try_recv in H. destruct o.(obs_lost) as [err|] eqn:Hl.
  - by injection H as <- <-.
  - pose proof (prefix_length _ _ Hpre) as Hlen.
    by destruct (receive_loop_outcome R e p c all k fuel o l r o' Hf Hl Hlen Hpre (Hpr eq_refl) H)
      as (_ & ? & _).
Qed.

Lemma outcome_log c all e k l r (o : BookObserver) : receive_outcome c all e k l r o ->
  (exists n, l = take n (drop k all)) ->
  Forall (fun d => (delivery_cursor d).(cursor_epoch) = e) l ->
  (exists n, l ++ handed r = take n (drop k all)) /\
  Forall (fun d => (delivery_cursor d).(cursor_epoch) = e) (l ++ handed r) /\
  (o.(obs_lost) = None -> progress (length (sent c)) all k o (l ++ handed r)).
Proof.
  intros Ho Hn He. destruct r as [[d|]|[reason n|]]; simpl in *; rewrite ?app_nil_r.
  - destruct Ho as (Hd & Hep & _ & Hpr). split_and!.
    + destruct Hpr as (upto & _ & -> & _). by eexists.
    + apply Forall_app. split; [done|by constructor].
    + done.
  - destruct Ho as (_ & _ & Hpr & _). done.
  - destruct reason; try done; destruct Ho as [-> _]; done.
  - destruct Ho as (_ & _ & Hpr & _). done.
Qed.

Lemma sys_step_inv s s' : sys_inv s -> sys_step s s' -> sys_inv s'.
Proof.
  intros [Hb Hst Hbeh Hhalf Hbase Hres Hbd (k & Hk & Hsince & Hold & Hobs)] Hstep.
  destruct Hstep as [s ds b' Hout Hopen Hmove|s d rest Hout|s Hout|s fuel r o Hh H|s Hh|
    s r published o Hh H].
  - unfold all_sent in *. rewrite Hout, app_nil_r in *.
    split; unfold all_sent; simpl; try done.
    + by destruct (book_move_facts _ _ _ Hb Hmove).
    + apply borrow_send.
    + by apply (behind_move _ _ _ _ Hb Hmove).
    + exists k. rewrite drop_app_le, take_app_le by done. split_and!; try done.
      * rewrite length_app. lia.
      * by eapply since_move.
      * intros e p Ec. destruct (Hobs e p Ec) as (Hn & He & Hpr). split_and!; [|done|].
        -- rewrite <- drop_app_le by done. by apply log_grow.
        -- intros Hl. eapply progress_grow; [| |by apply Hpr]; done.
  - assert (Hall : all_sent (with_writer (send_delivery s.(sys_writer) d) rest s) = all_sent s).
    { unfold all_sent. simpl. by rewrite sent_send, Hout, <- app_assoc. }
    split; rewrite ?Hall; simpl; try done.
    + intros r Hr. rewrite sent_send, length_app. specialize (Hhalf r Hr). lia.
    + exists k. rewrite ?Hall. split_and!; try done. intros e p Ec.
      destruct (Hobs e p Ec) as (Hn & He & Hpr). split_and!; try done. intros Hl.
      rewrite <- (app_nil_r (all_sent s)).
      eapply progress_grow; [| |by apply Hpr]; rewrite ?sent_send; unfold all_sent;
        rewrite ?length_app; lia.
  - assert (Hall : all_sent (with_writer (drop_writer s.(sys_writer)) [] s) = all_sent s).
    { unfold all_sent. simpl. by rewrite sent_drop, Hout. }
    split; rewrite ?Hall; simpl; rewrite ?borrow_drop, ?sent_drop; try done.
    by exists k.
  - assert (Hall : all_sent (with_observer o (s.(log) ++ handed r) s) = all_sent s) by done.
    assert (Hfields : o.(resume_after) = s.(sys_observer).(resume_after) /\
                      o.(boundary) = s.(sys_observer).(boundary)).
    { unfold try_recv in H. destruct (obs_lost _); [by injection H as <- <-|].
      by eapply receive_loop_fields. }
    destruct Hfields as [Hf1 Hf2].
    split; rewrite ?Hall; simpl; try done; [by rewrite Hf1|by rewrite Hf2|].
    exists k. rewrite ?Hall. split_and!; try done. intros e p Ec.
    destruct (Hobs e p Ec) as (Hn & He & Hpr).
    pose proof (follow_base _ e p _ k _ _ Hbase Ec Hk Hsince Hold Hres Hbd) as Hf.
    pose proof (try_recv_outcome _ e p _ _ k _ _ _ _ _ Hf (prefix_app_r _ _ _ (reflexivity _)) Hpr H)
      as Ho.
    destruct (obs_lost s.(sys_observer)) as [err|] eqn:Hl.
    + destruct Ho as [-> ->]. simpl. rewrite app_nil_r. split_and!; try done. by rewrite Hl.
    + by eapply outcome_log.
  - split; simpl; try done.
    + intros r [= <-]. by rewrite subscribe_tail.
    + by exists k.
  - unfold reattach_read in H. destruct (update_law s.(sys_writer).(state_sender)
      s.(sys_observer).(obs_state)) as (r' & Hu & _). rewrite Hu, Hst in H. injection H as <- <-.
    split; simpl; try done.
    exists (length (all_sent s)). split_and!; [done| | |].
    + unfold all_sent at 2. simpl. rewrite drop_ge by done. constructor.
    + rewrite take_ge by done. done.
    + intros e p Ec. split_and!; [by exists 0%nat|constructor|]. intros _.
      exists (at_position r). simpl. specialize (Hhalf r Hh). split_and!; [lia|lia| |done].
      rewrite drop_ge by done. by rewrite take_nil.
Qed.

Lemma sys_run_inv s s' : sys_inv s -> sys_run s s' -> sys_inv s'.
Proof. intros Hs H. induction H; eauto using sys_step_inv. Qed.

(** ** The theorems *)

(** The invariant at a base whose stream is intact. *)
Lemma run_follow b capacity s e p : book_wf b -> sys_run (attached_to b capacity) s ->
  s.(base).(continuity) = Intact e p ->
  let c := s.(sys_writer).(delivery_sender) in
  exists k, since s.(base) (drop k (all_sent s)) s.(sys_writer).(writer_book) /\
    book_wf s.(base) /\
    following s.(base).(revision) e p (all_sent s) k s.(sys_observer) /\
    sent c `prefix_of` all_sent s /\
    (exists n, s.(log) = take n (drop k (all_sent s))) /\
    Forall (fun d => (delivery_cursor d).(cursor_epoch) = e) s.(log) /\
    (s.(sys_observer).(obs_lost) = None ->
     progress (length (sent c)) (all_sent s) k s.(sys_observer) s.(log)).
Proof.
  intros Hb Hrun Ec c.
  destruct (sys_run_inv _ _ (attached_inv b capacity Hb) Hrun)
    as [Hw Hst Hbeh Hhalf Hbase Hres Hbd (k & Hk & Hsince & Hold & Hobs)].
  destruct (Hobs e p Ec) as (Hn & He & Hpr). exists k.
  split_and!; try done; [by eapply follow_base|by apply prefix_app_r].
Qed.

Lemma log_numbered R e p all k o l : following R e p all k o ->
  (exists n, l = take n (drop k all)) ->
  Forall (fun d => (delivery_cursor d).(cursor_epoch) = e) l -> numbered_deliveries e p l.
Proof.
  intros Hf [n Hl] He j d Hj. rewrite Forall_lookup in He. specialize (He _ _ Hj). simpl in He.
  rewrite Hl in Hj. apply lookup_take_Some in Hj as [Hj _].
  destruct (fo_new _ _ _ _ _ _ Hf _ _ Hj) as (_ & Hp & _). specialize (Hp He).
  destruct (delivery_cursor d); simpl in *; by subst.
Qed.

Lemma take_prefix (l all : list StreamDelivery) :
  (exists n, l = take n all) -> l `prefix_of` all.
Proof. intros [n ->]. apply prefix_take. Qed.

(** C3: whatever the interleaving of the writer — publishing a state, then sending its
    deliveries one at a time — with the receives and reattachments of a consumer, and whatever
    the ring drops, the deliveries the consumer was handed since its last attachment to an
    intact stream are a prefix of everything the writer sent since the state it attached at:
    none missing, none repeated, in commit order, at consecutive positions from the boundary
    of that state. *)
Theorem consumer_sees_no_gap b capacity s e p : book_wf b ->
  sys_run (attached_to b capacity) s -> s.(base).(continuity) = Intact e p ->
  exists F, since s.(base) F s.(sys_writer).(writer_book) /\ s.(log) `prefix_of` F /\
    numbered_deliveries e p s.(log).
Proof.
  intros Hb Hrun Ec. destruct (run_follow b capacity s e p Hb Hrun Ec)
    as (k & Hs & _ & Hf & _ & Hn & He & _).
  exists (drop k (all_sent s)). split_and!; [done|by apply take_prefix|by eapply log_numbered].
Qed.

(** C29: a receive on an unbroken attachment always answers, and every answer is exact: a
    delivery is the very next one the writer sent; "nothing new" and "closed" mean that
    everything sent has been handed over, while the writer lives and after it is gone; an
    overrun loss is reported only when the ring really dropped deliveries the attached state
    does not contain; a rebase only when the stream really moved to a later epoch. *)
Theorem receive_exact b capacity s e p : book_wf b ->
  sys_run (attached_to b capacity) s -> s.(base).(continuity) = Intact e p ->
  s.(sys_observer).(obs_lost) = None ->
  let c := s.(sys_writer).(delivery_sender) in
  (forall fuel, (length (sent c) < fuel)%nat ->
     exists r o, try_recv fuel c s.(sys_observer) = Some (r, o)) /\
  forall fuel r o, try_recv fuel c s.(sys_observer) = Some (r, o) ->
  exists F, since s.(base) F s.(sys_writer).(writer_book) /\ s.(log) `prefix_of` F /\
    match r with
    | Ok (Some d) =>
        s.(log) ++ [d] `prefix_of` F /\
        delivery_cursor d = {| cursor_epoch := e; cursor_position := p + len s.(log) |}
    | Ok None => sender_gone c = false /\ (s.(outbox) = [] -> s.(log) = F)
    | Err WriterClosed => sender_gone c = true /\ (s.(outbox) = [] -> s.(log) = F)
    | Err (HistoryLost Overrun _) =>
        exists skipped d, skipped <> [] /\ s.(log) ++ skipped ++ [d] `prefix_of` F /\
          (delivery_cursor d).(cursor_epoch) = e
    | Err (HistoryLost RecoveryBase _) =>
        exists d, d ∈ F /\ e < (delivery_cursor d).(cursor_epoch)
    | Err (HistoryLost _ _) => False
    end.
Proof.
  intros Hb Hrun Ec Hl c. destruct (run_follow b capacity s e p Hb Hrun Ec)
    as (k & Hs & Hbase & Hf & Hpre & Hn & He & Hpr). specialize (Hpr Hl). fold c in Hpre, Hpr.
  pose proof Hpr as (upto & Hup & _). split.
  { intros fuel Hfuel. unfold try_recv. rewrite Hl. apply receive_loop_total; lia. }
  intros fuel r o H.
  pose proof (try_recv_outcome _ e p c _ k _ _ _ _ _ Hf Hpre (fun _ => Hpr) H) as Ho.
  rewrite Hl in Ho. exists (drop k (all_sent s)).
  split; [done|split; [by apply take_prefix|]].
  assert (Hall : s.(outbox) = [] -> s.(log) = take (length (sent c) - k) (drop k (all_sent s)) ->
            s.(log) = drop k (all_sent s)).
  { intros Hout ->. apply take_ge. rewrite length_drop. unfold all_sent. fold c.
    rewrite Hout, app_nil_r. lia. }
  destruct r as [[d|]|[reason n|]]; simpl in Ho.
  - destruct Ho as (Hd & Hep & _ & Hpr'). destruct Hpr' as (upto' & _ & Hlog & _).
    split; [rewrite Hlog; apply prefix_take|].
    destruct (fo_new _ _ _ _ _ _ Hf _ _ Hd) as (_ & Hp & _). specialize (Hp Hep).
    unfold len. destruct (delivery_cursor d); simpl in *; by subst.
  - destruct Ho as (Hlog & _ & _ & Hgone). auto.
  - destruct reason; try done.
    + destruct Ho as (_ & skipped & d & ? & ? & ?). by exists skipped, d.
    + by destruct Ho as (_ & ?).
  - destruct Ho as (Hlog & _ & _ & Hgone). auto.
Qed.

(** C4: a consumer that attached at an established base, whose attachment is unbroken, and
    that applied what it was handed holds the writer's book: once a receive finds nothing
    new, with no delivery of the writer pending and the writer still in the epoch of that
    base, replaying its deliveries over the
    levels it attached at rests at exactly the writer's depth at every coordinate. *)
Theorem drained_consumer_is_replica b capacity s e p fuel o : book_wf b ->
  sys_run (attached_to b capacity) s -> s.(base).(continuity) = Intact e p ->
  s.(base).(book_provenance) <> None -> s.(sys_observer).(obs_lost) = None ->
  try_recv fuel s.(sys_writer).(delivery_sender) s.(sys_observer) = Some (Ok None, o) ->
  s.(outbox) = [] -> epoch_of s.(sys_writer).(writer_book).(continuity) = e ->
  forall c, coordinate_wf c ->
    depth (replay s.(base).(book_levels) (delivered_mutations s.(log))) c
    = depth s.(sys_writer).(writer_book).(book_levels) c.
Proof.
  intros Hb Hrun Ec Hprov Hl H Hout Hep. destruct (run_follow b capacity s e p Hb Hrun Ec)
    as (k & Hs & Hbase & Hf & Hpre & _ & _ & Hpr). specialize (Hpr Hl).
  pose proof (try_recv_outcome _ e p _ _ k _ _ _ _ _ Hf Hpre (fun _ => Hpr) H) as Ho.
  rewrite Hl in Ho. destruct Ho as (Hlog & _).
  rewrite take_ge in Hlog.
  2: { rewrite length_drop. unfold all_sent. rewrite Hout, app_nil_r. lia. }
  pose proof (since_since_facts _ e p _ _ Hbase Ec Hs) as Hsf. rewrite <- Hlog in Hsf.
  by destruct (sf_depth _ _ _ _ _ Hsf Hep Hprov) as (_ & _ & ?).
Qed.

(** ** The other receive paths *)

(** Equal up to the state receiver. *)
Definition same_attachment (o o' : BookObserver) : Prop :=
  o = set_state o.(obs_state) o.(state_open) o'.

Lemma same_attachment_refl o : same_attachment o o.
Proof. by destruct o. Qed.

(** What an event says of the receive it stands for. *)
Definition event_answer (st : slot_channel) (r : option (result ObserverEvent ObserverRecvError))
    (a : result (option StreamDelivery) ObserverRecvError) : Prop :=
  match a with
  | Ok (Some d) => r = Some (Ok (event_of d))
  | Ok None => r = None \/ r = Some (Ok (PublishedEvent (slot_borrow st)))
  | Err err => r = Some (Err err)
  end.

Lemma admit_lost d o o' : observer_admit d o = (Ok None, o') -> o'.(obs_lost) = o.(obs_lost).
Proof. unfold observer_admit, resolve. intros H. repeat (case_match; simplify_eq/=); done. Qed.

(** The state channel closing when the ring holds nothing new. *)
Lemma event_loop_closed fuel st c o s r o1 :
  o.(obs_lost) = None -> ring_try_recv c o.(obs_deliveries) = (Err Empty, o.(obs_deliveries)) ->
  event_loop fuel st c (set_state s false o) = Some (r, o1) ->
  r = None /\ o1 = set_state s false o.
Proof.
  intros Hl Et H. destruct fuel as [|fuel]; [done|].
  cbn [event_loop state_open set_state negb] in H. unfold recv, try_recv in H.
  cbn [obs_lost set_state] in H. rewrite Hl in H. destruct fuel as [|fuel]; [done|].
  cbn [receive_loop obs_deliveries set_state] in H. rewrite Et in H. by injection H as <- <-.
Qed.

Lemma event_loop_receive fuel st c o r o1 :
  (position o <= length (sent c))%nat -> o.(obs_lost) = None ->
  event_loop fuel st c o = Some (r, o1) ->
  exists fuel' a o2, same_attachment o1 o2 /\ receive_loop fuel' c o = Some (a, o2) /\
    event_answer st r a.
Proof.
  revert o. induction fuel as [|fuel IH]; intros o Hpos Hl H; [done|]. cbn [event_loop] in H.
  destruct o.(state_open) eqn:Eo; cbn [negb] in H.
  2: { unfold recv, try_recv in H. rewrite Hl in H.
       destruct (receive_loop fuel c o) as [[[[d|]|err] o2]|] eqn:E; [..|done];
         injection H as <- <-; exists fuel; do 2 eexists; split_and!;
         try exact E; try apply same_attachment_refl; simpl; auto. }
  pose proof (try_recv_law c o.(obs_deliveries) Hpos) as Hlaw.
  destruct (ring_try_recv c o.(obs_deliveries)) as [[d|[| |missed]] r'] eqn:Et.
  - destruct Hlaw as [Hd Hr'].
    assert (Hlt : (position o < length (sent c))%nat) by (by apply lookup_lt_Some in Hd).
    pose proof (admit_position d (set_deliveries r' o)) as Hp.
    destruct (observer_admit d (set_deliveries r' o)) as [[[d1|]|err] o'] eqn:Ea; simpl in Hp.
    + injection H as <- <-. exists 1%nat, (Ok (Some d1)), o'. cbn [receive_loop]. rewrite Et, Ea.
      split_and!; [apply same_attachment_refl|done|done].
    + destruct (IH o') as (fuel' & a & o2 & ? & ? & ?); [rewrite Hp; lia| |done|].
      { by apply admit_lost in Ea as ->. }
      exists (S fuel'), a, o2. cbn [receive_loop]. rewrite Et, Ea. done.
    + injection H as <- <-. exists 1%nat, (Err err), o'. cbn [receive_loop]. rewrite Et, Ea.
      split_and!; [apply same_attachment_refl|done|done].
  - destruct Hlaw as (_ & _ & ->). rewrite set_deliveries_same in H.
    assert (Hrec : receive_loop 1 c o = Some (Ok None, o))
      by (cbn [receive_loop]; by rewrite Et, set_deliveries_same).
    exists 1%nat, (Ok None), o. split_and!; [|done|].
    + destruct (changed st o.(obs_state)) as [[[u|u]|] s']; [| |by injection H as <- <-].
      * destruct (update_law st s') as (r'' & Hu & _). rewrite Hu in H. by injection H as <- <-.
      * apply event_loop_closed in H as [-> ->]; done.
    + destruct (changed st o.(obs_state)) as [[[u|u]|] s']; [| |injection H as <- <-; by left].
      * destruct (update_law st s') as (r'' & Hu & _). rewrite Hu in H. injection H as <- <-.
        by right.
      * apply event_loop_closed in H as [-> ->]; [by left|done|done].
  - destruct (observer_closed (set_deliveries r' o)) as [err o'] eqn:Ec. injection H as <- <-.
    exists 1%nat, (Err err), o'. cbn [receive_loop]. rewrite Et, Ec.
    split_and!; [apply same_attachment_refl|done|done].
  - destruct Hlaw as (Hmv & _).
    destruct (IH (overran missed (set_deliveries r' o))) as (fuel' & a & o2 & ? & ? & ?);
      [simpl; lia|done|done|].
    exists (S fuel'), a, o2. cbn [receive_loop]. rewrite Et. done.
Qed.

(** The three receive paths give one history: a poll of [recv] is [try_recv] with nothing
    new read as pending, and whatever [next_event] answers — a delivery, a loss, the writer
    gone — is what [try_recv] answers on the same attachment, a state notification coming
    only when no delivery is waiting and carrying the newest published book. *)
Theorem receive_paths_agree st c (o : BookObserver) : (position o <= length (sent c))%nat ->
  (forall fuel r o1, recv fuel c o = Some (r, o1) ->
     exists a, try_recv fuel c o = Some (a, o1) /\
       a = match r with
           | None => Ok None
           | Some (Ok d) => Ok (Some d)
           | Some (Err err) => Err err
           end) /\
  (forall fuel r o1, next_event fuel st c o = Some (r, o1) ->
     exists fuel' a o2, same_attachment o1 o2 /\ try_recv fuel' c o = Some (a, o2) /\
       event_answer st r a).
Proof.
  intros Hpos. split.
  - intros fuel r o1 H. unfold recv in H.
    destruct (try_recv fuel c o) as [[[[d|]|err] o2]|]; [..|done]; injection H as <- <-;
      by eexists.
  - intros fuel r o1 H. unfold next_event in H. unfold try_recv.
    destruct o.(obs_lost) as [err|] eqn:Hl.
    + injection H as <- <-. exists fuel, (Err err), o. split_and!; try done.
      apply same_attachment_refl.
    + by eapply event_loop_receive.
Qed.

(** The latest-state surface coalesces and never loses the last word: after a publication
    a consumer's [state_changed] answers at once with the newest book, however many were
    published; when everything has been seen it is pending while the writer lives, and fails
    only once the writer is gone. *)
Theorem state_changed_coalesces (w : slot_channel) (o : BookObserver) b P :
  attached w o.(obs_state) ->
  (let w' := send_replace (send_replace w b) P in
   exists o', state_changed w' o = (Some (Ok P), o') /\ unseen w' o'.(obs_state) = false /\
     latest w' o' = P) /\
  (unseen w o.(obs_state) = false ->
   (state_changed w o).1 = if slot_sender_gone w then Some (Err writer_gone) else None) /\
  (unseen w o.(obs_state) = true ->
   exists o', state_changed w o = (Some (Ok (slot_borrow w)), o')).
Proof.
  intros Ha. unfold state_changed, latest. split; [|split].
  - set (w' := send_replace (send_replace w b) P). assert (Hu : unseen w' o.(obs_state) = true)
      by (apply unseen_send, attached_send, Ha).
    pose proof (changed_law w' o.(obs_state)) as H.
    destruct (changed w' o.(obs_state)) as [[[u|u]|] r]; [|by destruct H; congruence..].
    destruct (update_law w' r) as (r' & E & Hr' & _). rewrite E. eexists.
    unfold w'. rewrite borrow_send. by split_and!.
  - intros Hu. pose proof (changed_law w o.(obs_state)) as H.
    destruct (changed w o.(obs_state)) as [[[u|u]|] r]; [by destruct H; congruence| |];
      by destruct H as (_ & -> & _).
  - intros Hu. pose proof (changed_law w o.(obs_state)) as H.
    destruct (changed w o.(obs_state)) as [[[u|u]|] r]; [|by destruct H; congruence..].
    destruct (update_law w r) as (r' & E & _). rewrite E. by eexists.
Qed.
End consumer.

(** ** Witnesses

    A consumer attached to an established book: a second snapshot derives three mutations,
    sent and received in turn; and, on a ring of two, all sent before the consumer looks. *)

Section runs.
Context `{RB : Broadcast StreamDelivery} `{RL : !BroadcastLaws RB} `{WP : Watch PublishedBook}.

Definition send_one (s : system) : system :=
  match s.(outbox) with
  | [] => s
  | d :: rest => with_writer (send_delivery s.(sys_writer) d) rest s
  end.

Definition receive_one (s : system) : system :=
  match try_recv 8 s.(sys_writer).(delivery_sender) s.(sys_observer) with
  | Some (r, o) => with_observer o (s.(log) ++ handed r) s
  | None => s
  end.

Lemma send_one_run s s' : sys_run s s' -> sys_run s (send_one s').
Proof.
  intros H. unfold send_one. destruct s'.(outbox) as [|d rest] eqn:E; [done|].
  eapply sys_run_step; [exact H|by apply sys_send].
Qed.

Lemma receive_one_run s s' : s'.(half) = None -> sys_run s s' -> sys_run s (receive_one s').
Proof.
  intros Hh H. unfold receive_one. destruct (try_recv _ _ _) as [[r o]|] eqn:E; [|done].
  eapply sys_run_step; [exact H|by eapply sys_receive].
Qed.
End runs.

Definition second_commit : result BookCommit BookError * OrderBook :=
  apply_snapshot (sample_candidate (Snapshot (sample_bounded second_book))) based_book.

Definition sample_start (capacity : Z) : system (RB := ring) (WP := slot) :=
  attached_to based_book {| observer_capacity_value := capacity |}.

Definition sample_published (capacity : Z) : system (RB := ring) (WP := slot) :=
  let s := sample_start capacity in
  with_writer (publish_state second_commit.2 s.(sys_writer))
    (commit_deliveries (commit_of second_commit)) s.

Lemma sample_published_run capacity : sys_run (sample_start capacity) (sample_published capacity).
Proof.
  eapply sys_run_step; [apply sys_run_refl|]. 
  apply (sys_publish (sample_start capacity) (commit_deliveries (commit_of second_commit))
           second_commit.2); [reflexivity|reflexivity|].
  apply (move_snapshot (sample_candidate (Snapshot (sample_bounded second_book)))).
  - apply sample_candidate_wf, second_wf.
  - vm_compute. reflexivity.
Qed.

(** Every delivery received as it is sent. *)
Definition sample_drained : system (RB := ring) (WP := slot) :=
  receive_one (receive_one (send_one (receive_one (send_one (send_one (sample_published 8)))))).

Lemma sample_drained_run : sys_run (sample_start 8) sample_drained.
Proof.
  unfold sample_drained.
  apply receive_one_run; [vm_compute; reflexivity|].
  apply receive_one_run; [vm_compute; reflexivity|]. apply send_one_run.
  apply receive_one_run; [vm_compute; reflexivity|]. apply send_one_run, send_one_run.
  apply sample_published_run.
Qed.

(** Everything sent on a ring of two before the consumer looks. *)
Definition sample_overrun : system (RB := ring) (WP := slot) :=
  send_one (send_one (send_one (sample_published 1))).

Lemma sample_overrun_run : sys_run (sample_start 1) sample_overrun.
Proof. apply send_one_run, send_one_run, send_one_run, sample_published_run. Qed.

Lemma consumer_sees_no_gap_witness :
  len sample_drained.(log) = 3 /\ numbered_deliveries 0 0 sample_drained.(log).
Proof.
  split; [vm_compute; reflexivity|].
  destruct (consumer_sees_no_gap based_book {| observer_capacity_value := 8 |} sample_drained 0 0
    based_wf sample_drained_run ltac:(vm_compute; reflexivity)) as (_ & _ & _ & H).
  exact H.
Defined.

Lemma receive_exact_witness :
  fst <$> try_recv 8 sample_overrun.(sys_writer).(delivery_sender) sample_overrun.(sys_observer)
    = Some (Err (HistoryLost Overrun 1)) /\
  exists F skipped d, since based_book F second_commit.2 /\ skipped <> [] /\
    skipped ++ [d] `prefix_of` F.
Proof.
  split; [vm_compute; reflexivity|].
  destruct (receive_exact based_book {| observer_capacity_value := 1 |} sample_overrun 0 0
    based_wf sample_overrun_run ltac:(vm_compute; reflexivity) ltac:(vm_compute; reflexivity))
    as [_ H].
  destruct (try_recv 8 sample_overrun.(sys_writer).(delivery_sender) sample_overrun.(sys_observer))
    as [[r o]|] eqn:E; [|vm_compute in E; discriminate].
  assert (Hr : r = Err (HistoryLost Overrun 1)).
  { enough (Hx : Some r = Some (Err (HistoryLost Overrun 1))) by (by injection Hx).
    change (Some r) with (fst <$> Some (r, o)). rewrite <- E. vm_compute. reflexivity. }
  destruct (H 8%nat r o E) as (F & Hs & _ & Hans). subst r.
  destruct Hans as (skipped & d & H1 & H2 & _). exists F, skipped, d.
  split; [exact Hs|]. split; [exact H1|exact H2].
Defined.

Lemma drained_consumer_is_replica_witness :
  depth (replay based_book.(book_levels) (delivered_mutations sample_drained.(log)))
    (coordinate (sample_level Bid 39 6)) = depth second_commit.2.(book_levels)
    (coordinate (sample_level Bid 39 6)) /\
  is_Some (depth second_commit.2.(book_levels) (coordinate (sample_level Bid 39 6))).
Proof.
  assert (E : exists o, try_recv 8 sample_drained.(sys_writer).(delivery_sender)
                sample_drained.(sys_observer) = Some (Ok None, o)).
  { destruct (try_recv 8 _ _) as [[r o]|] eqn:E; [|vm_compute in E; discriminate].
    exists o. enough (Some r = Some (Ok None)) as [= ->] by done.
    change (Some r) with (fst <$> Some (r, o)). rewrite <- E. vm_compute. reflexivity. }
  destruct E as [o E].
  split; [|vm_compute; eexists; reflexivity].
  apply (drained_consumer_is_replica based_book {| observer_capacity_value := 8 |} sample_drained
    0 0 8 o based_wf sample_drained_run ltac:(vm_compute; reflexivity)
    ltac:(vm_compute; discriminate) ltac:(vm_compute; reflexivity) E ltac:(vm_compute; reflexivity)
    ltac:(vm_compute; reflexivity)).
  apply level_coordinate_wf. by apply sample_level_wf.
Defined.

Lemma receive_paths_agree_witness :
  exists fuel' a o2,
    try_recv fuel' sample_drained.(sys_writer).(delivery_sender) sample_drained.(sys_observer)
      = Some (a, o2) /\ a = Ok None.
Proof.
  destruct (receive_paths_agree sample_drained.(sys_writer).(state_sender)
    sample_drained.(sys_writer).(delivery_sender) sample_drained.(sys_observer)
    ltac:(apply Nat.leb_le; vm_compute; reflexivity)) as [H _].
  destruct (recv 8 sample_drained.(sys_writer).(delivery_sender) sample_drained.(sys_observer))
    as [[r o1]|] eqn:E; [|vm_compute in E; discriminate].
  destruct (H 8%nat r o1 E) as (a & Ha & Hr). exists 8%nat, a, o1. split; [exact Ha|].
  enough (Hx : r = None) by (by rewrite Hx in Hr).
  enough (Hx : Some r = Some None) by (by injection Hx).
  change (Some r) with (fst <$> Some (r, o1)). rewrite <- E. vm_compute. reflexivity.
Defined.

Lemma state_changed_coalesces_witness :
  let w := slot_new (Watch := slot) (publish based_book) in
  exists o', state_changed (send_replace (send_replace w (publish based_book))
                              (publish second_commit.2))
               (sample_start 8).(sys_observer) = (Some (Ok (publish second_commit.2)), o').
Proof.
  intros w.
  destruct (state_changed_coalesces w (sample_start 8).(sys_observer) (publish based_book)
    (publish second_commit.2) (attached_subscribe w)) as [(o' & H & _) _].
  exists o'. exact H.
Defined.

(** ** The first base

    The first snapshot of a book is published as state under the epoch the book was created
    with, so the fence that fails an attachment on a later epoch does not see it. *)

Definition third_book : list Level := [sample_level Ask 41 8; sample_level Bid 39 5].

Definition third_commit : result BookCommit BookError * OrderBook :=
  apply_snapshot (sample_candidate (Snapshot (sample_bounded third_book))) based_book.

Lemma third_wf : Forall level_wf third_book.
Proof. repeat (constructor; [by apply sample_level_wf|]); constructor. Qed.

Definition early_start : system (RB := ring) (WP := slot) :=
  attached_to (book_new sample_market) {| observer_capacity_value := 8 |}.
Definition early_based : system (RB := ring) (WP := slot) :=
  with_writer (publish_state based_book early_start.(sys_writer)) [] early_start.
Definition early_changed : system (RB := ring) (WP := slot) :=
  with_writer (publish_state third_commit.2 early_based.(sys_writer))
    (commit_deliveries (commit_of third_commit)) early_based.
Definition early_drained : system (RB := ring) (WP := slot) :=
  receive_one (receive_one (send_one early_changed)).

Lemma early_run : sys_run early_start early_drained.
Proof.
  unfold early_drained. apply receive_one_run; [vm_compute; reflexivity|].
  apply receive_one_run; [vm_compute; reflexivity|]. apply send_one_run.
  eapply sys_run_step; [eapply sys_run_step; [apply sys_run_refl|]|].
  - apply (sys_publish early_start [] based_book); [reflexivity|reflexivity|].
    change [] with (commit_deliveries (commit_of (apply_snapshot
      (sample_candidate (Snapshot (sample_bounded first_book))) (book_new sample_market)))).
    apply (move_snapshot (sample_candidate (Snapshot (sample_bounded first_book)))).
    + apply sample_candidate_wf, first_wf.
    + vm_compute. reflexivity.
  - apply (sys_publish early_based (commit_deliveries (commit_of third_commit)) third_commit.2);
      [reflexivity|reflexivity|].
    apply (move_snapshot (sample_candidate (Snapshot (sample_bounded third_book)))).
    + apply sample_candidate_wf, third_wf.
    + vm_compute. reflexivity.
Qed.

(** The condition that the base be established is needed: a consumer attached before the
    book's first snapshot is handed the later mutations as continuous, in its own epoch and
    without any loss, although the first base itself was published as state only; having
    drained the ring it still lacks a level the writer's book rests at. *)
Theorem first_base_is_silent : exists (s : system (RB := ring) (WP := slot)) c,
  sys_run (attached_to (book_new sample_market) {| observer_capacity_value := 8 |}) s /\
  len s.(log) = 1 /\ s.(outbox) = [] /\ s.(sys_observer).(obs_lost) = None /\
  s.(sys_observer).(continuous) = true /\
  epoch_of s.(sys_writer).(writer_book).(continuity) = 0 /\ coordinate_wf c /\
  depth (replay s.(base).(book_levels) (delivered_mutations s.(log))) c = None /\
  depth s.(sys_writer).(writer_book).(book_levels) c <> None.
Proof.
  exists early_drained, (coordinate (sample_level Bid 39 5)).
  split; [exact early_run|]. repeat (split; [vm_compute; reflexivity|]).
  split; [apply level_coordinate_wf; by apply sample_level_wf|].
  split; [vm_compute; reflexivity|vm_compute; discriminate].
Qed.
