(* ===== verification/Lexical.v ===== *)
(** * Lexical JSON ([src/src/wire/lexical.rs])

    The scanner of venue payloads: numbers keep their lexeme, objects keep their order, and
    every limit is enforced while scanning. A [Scanner] is what is left of the input and the
    offset reached; a method that fails drops it. Loops run on fuel, [None] when it is spent;
    [parse_lexical] supplies enough (see [LexicalProps]). *)

From S2P Require Import Prelude Numeric.

(** ** Data *)

Record LexicalLimits : Set := {
  max_bytes : Z; max_depth : Z; max_array_elements : Z; max_object_entries : Z;
  max_string_bytes : Z; max_number_bytes : Z
}.

Definition venue_payload : LexicalLimits :=
  {| max_bytes := 262144; max_depth := 16; max_array_elements := 4096;
     max_object_entries := 256; max_string_bytes := 4096; max_number_bytes := 128 |}.

Definition with_max_bytes (n : Z) (self : LexicalLimits) : LexicalLimits :=
  {| max_bytes := n; max_depth := self.(max_depth);
     max_array_elements := self.(max_array_elements);
     max_object_entries := self.(max_object_entries);
     max_string_bytes := self.(max_string_bytes);
     max_number_bytes := self.(max_number_bytes) |}.

(** A [NumberLexeme] is its text. *)
Inductive LexicalValue : Set :=
| Null
| Bool (b : bool)
| Number (lexeme : bytes)
| Text (text : bytes)
| Array (values : list LexicalValue)
| Object (entries : list (bytes * LexicalValue)).

Inductive LexicalKind : Set := KNull | KBool | KNumber | KText | KArray | KObject.

Definition lexical_kind (self : LexicalValue) : LexicalKind :=
  match self with
  | Null => KNull | Bool _ => KBool | Number _ => KNumber | Text _ => KText
  | Array _ => KArray | Object _ => KObject
  end.

Definition find_field (name : bytes) (entries : list (bytes * LexicalValue)) :
    option LexicalValue :=
  snd <$> List.find (fun e => bool_decide (e.1 = name)) entries.

Definition field (name : bytes) (self : LexicalValue) : option LexicalValue :=
  match self with Object entries => find_field name entries | _ => None end.

(** [str::split]: the segments between the separators. *)
Fixpoint split_byte (sep : Z) (s : bytes) : list bytes :=
  match s with
  | [] => [[]]
  | b :: rest =>
      if b =? sep then [] :: split_byte sep rest
      else match split_byte sep rest with
           | first :: others => (b :: first) :: others
           | [] => [[b]]
           end
  end.

Fixpoint walk (segments : list bytes) (current : LexicalValue) : option LexicalValue :=
  match segments with
  | [] => Some current
  | segment :: rest =>
      if bool_decide (segment = []) then None
      else match field segment current with
           | Some next => walk rest next
           | None => None
           end
  end.

Definition path (dotted : bytes) (self : LexicalValue) : option LexicalValue :=
  walk (split_byte 46 dotted) self.

Definition as_text (self : LexicalValue) : option bytes :=
  match self with Text value => Some value | _ => None end.
Definition as_number (self : LexicalValue) : option bytes :=
  match self with Number value => Some value | _ => None end.
Definition as_array (self : LexicalValue) : option (list LexicalValue) :=
  match self with Array values => Some values | _ => None end.

Inductive LexicalError : Set :=
| InputTooLarge (bytes limit : Z)
| EmptyInput
| UnexpectedEnd (offset : Z)
| UnexpectedByte (offset : Z)
| TrailingBytes (offset : Z)
| DepthExceeded (offset limit : Z)
| ArrayCapacityExceeded (offset limit : Z)
| ObjectCapacityExceeded (offset limit : Z)
| DuplicateField (offset : Z)
| StringTooLong (offset limit : Z)
| NumberTooLong (offset limit : Z)
| InvalidNumber (offset : Z)
| InvalidString (offset : Z)
| InvalidEscape (offset : Z)
| NotUtf8 (offset : Z).

#[export] Instance LexicalError_eq_dec : EqDecision LexicalError.
Proof. solve_decision. Defined.

(** ** The scanner *)

Record Scanner : Set := { remaining : bytes; offset : Z }.

Definition scan (A : Type) : Type := result (A * Scanner) LexicalError.

Definition peek (self : Scanner) : option Z := head self.(remaining).

(** [self.offset += n]. *)
Definition advance (n : nat) (self : Scanner) : Scanner :=
  {| remaining := drop n self.(remaining); offset := self.(offset) + Z.of_nat n |}.

Definition is_whitespace (b : Z) : bool := (b =? 32) || (b =? 9) || (b =? 10) || (b =? 13).

(** How many of the leading bytes a loop [while matches!(self.peek(), ..)] passes. *)
Fixpoint count_while (p : Z -> bool) (l : bytes) : nat :=
  match l with
  | b :: rest => if p b then S (count_while p rest) else O
  | [] => O
  end.

Definition skip_whitespace (self : Scanner) : Scanner :=
  advance (count_while is_whitespace self.(remaining)) self.

Definition expect (byte : Z) (self : Scanner) : result Scanner LexicalError :=
  match peek self with
  | Some found => if found =? byte then Ok (advance 1 self)
                  else Err (UnexpectedByte self.(offset))
  | None => Err (UnexpectedEnd self.(offset))
  end.

Definition literal (word : bytes) (self : Scanner) : result Scanner LexicalError :=
  if bool_decide (take (length word) self.(remaining) = word)
  then Ok (advance (length word) self)
  else Err (UnexpectedByte self.(offset)).

(** ** Strings *)

Definition utf8_width (byte : Z) : nat :=
  if in_range 0 127 byte then 1
  else if in_range 194 223 byte then 2
  else if in_range 224 239 byte then 3
  else if in_range 240 244 byte then 4
  else 0.

(** [String::push]: the UTF-8 form of a scalar value. *)
Definition utf8_encode (c : Z) : bytes :=
  if c <? 128 then [c]
  else if c <? 2048 then [192 + c / 64; 128 + c mod 64]
  else if c <? 65536 then [224 + c / 4096; 128 + (c / 64) mod 64; 128 + c mod 64]
  else [240 + c / 262144; 128 + (c / 4096) mod 64; 128 + (c / 64) mod 64; 128 + c mod 64].

(** [char::from_u32]. *)
Definition char_from_u32 (c : Z) : option Z :=
  if in_range 0 55295 c || in_range 57344 1114111 c then Some c else None.

Definition hex_digit_value (byte : Z) : option Z :=
  if in_range 48 57 byte then Some (byte - 48)
  else if in_range 97 102 byte then Some (byte - 97 + 10)
  else if in_range 65 70 byte then Some (byte - 65 + 10)
  else None.

(** The loop over the four bytes; 4 hexadecimal digits fit [u16]. *)
Fixpoint hex_value (value : Z) (digits : bytes) : option Z :=
  match digits with
  | [] => Some value
  | byte :: rest =>
      match hex_digit_value byte with
      | Some digit => hex_value (value * 16 + digit) rest
      | None => None
      end
  end.

Definition hex4 (self : Scanner) : scan Z :=
  let offset := self.(offset) in
  refuse (len self.(remaining) <? 4) with UnexpectedEnd offset ;;
  match hex_value 0 (take 4 self.(remaining)) with
  | Some value => Ok (value, advance 4 self)
  | None => Err (InvalidEscape offset)
  end.

Definition is_high_surrogate (u : Z) : bool := in_range 55296 56319 u.
Definition is_low_surrogate (u : Z) : bool := in_range 56320 57343 u.

(** The two-character escapes. *)
Definition simple_escape (byte : Z) : option Z :=
  if byte =? 34 then Some 34 else if byte =? 92 then Some 92 else if byte =? 47 then Some 47
  else if byte =? 98 then Some 8 else if byte =? 102 then Some 12
  else if byte =? 110 then Some 10 else if byte =? 114 then Some 13
  else if byte =? 116 then Some 9 else None.

(** After [\u]: one code unit, or the two of a surrogate pair. [offset] is where the escape
    began. *)
Definition unicode_escape (offset : Z) (self : Scanner) : scan Z :=
  both first self <-? hex4 self ;;
  refuse is_low_surrogate first with InvalidEscape offset ;;
  if is_high_surrogate first then
    refuse negb (bool_decide (peek self = Some 92)) with InvalidEscape offset ;;
    let self := advance 1 self in
    refuse negb (bool_decide (peek self = Some 117)) with InvalidEscape offset ;;
    let self := advance 1 self in
    both second self <-? hex4 self ;;
    refuse negb (is_low_surrogate second) with InvalidEscape offset ;;
    let combined := 65536 + Z.shiftl (first - 55296) 10 + (second - 56320) in
    c <-? ok_or (char_from_u32 combined) (InvalidEscape offset) ;;
    Ok (c, self)
  else
    c <-? ok_or (char_from_u32 first) (InvalidEscape offset) ;;
    Ok (c, self).

Definition escape (self : Scanner) : scan Z :=
  let offset := self.(offset) in
  match peek self with
  | None => Err (UnexpectedEnd offset)
  | Some byte =>
      let self := advance 1 self in
      if byte =? 117 then unicode_escape offset self
      else c <-? ok_or (simple_escape byte) (InvalidEscape offset) ;;
           Ok (c, self)
  end.

Section scanner.
Variable limits : LexicalLimits.

(** The loop of [text], from the first byte after the opening quote. *)
Fixpoint text_loop (fuel : nat) (start : Z) (output : bytes) (self : Scanner) :
    option (scan bytes) :=
  match fuel with
  | O => None
  | S fuel =>
      if limits.(max_string_bytes) <? len output
      then Some (Err (StringTooLong start limits.(max_string_bytes)))
      else
        match peek self with
        | None => Some (Err (UnexpectedEnd self.(offset)))
        | Some byte =>
            if byte =? 34 then Some (Ok (output, advance 1 self))
            else if byte =? 92 then
              match escape (advance 1 self) with
              | Ok (c, self) => text_loop fuel start (output ++ utf8_encode c) self
              | Err e => Some (Err e)
              end
            else if in_range 0 31 byte then Some (Err (InvalidString self.(offset)))
            else
              let width := utf8_width byte in
              if (width =? 0)%nat || (len self.(remaining) <? Z.of_nat width)
              then Some (Err (NotUtf8 self.(offset)))
              else if utf8_valid (take width self.(remaining))
              then text_loop fuel start (output ++ take width self.(remaining))
                     (advance width self)
              else Some (Err (NotUtf8 self.(offset)))
        end
  end.

Definition text (self : Scanner) : option (scan bytes) :=
  let start := self.(offset) in
  match expect 34 self with
  | Err e => Some (Err e)
  | Ok self => text_loop (S (length self.(remaining))) start [] self
  end.

(** ** Numbers *)

Definition skip_digits (self : Scanner) : Scanner :=
  advance (count_while is_ascii_digit self.(remaining)) self.

Definition at_digit (self : Scanner) : bool :=
  match peek self with Some byte => is_ascii_digit byte | None => false end.

Definition skip_minus (self : Scanner) : Scanner :=
  if bool_decide (peek self = Some 45) then advance 1 self else self.

Definition integer_digits (start : Z) (self : Scanner) : result Scanner LexicalError :=
  match peek self with
  | Some 48 => Ok (advance 1 self)
  | Some byte => if is_ascii_digit byte then Ok (skip_digits self) else Err (InvalidNumber start)
  | None => Err (InvalidNumber start)
  end.

Definition fraction_digits (start : Z) (self : Scanner) : result Scanner LexicalError :=
  if bool_decide (peek self = Some 46) then
    let self := advance 1 self in
    refuse negb (at_digit self) with InvalidNumber start ;;
    Ok (skip_digits self)
  else Ok self.

Definition skip_sign (self : Scanner) : Scanner :=
  if bool_decide (peek self = Some 43) || bool_decide (peek self = Some 45)
  then advance 1 self else self.

Definition exponent_digits (start : Z) (self : Scanner) : result Scanner LexicalError :=
  if bool_decide (peek self = Some 101) || bool_decide (peek self = Some 69) then
    let self := skip_sign (advance 1 self) in
    refuse negb (at_digit self) with InvalidNumber start ;;
    Ok (skip_digits self)
  else Ok self.

Definition number (self : Scanner) : scan bytes :=
  let input := self.(remaining) in
  let start := self.(offset) in
  self <-? integer_digits start (skip_minus self) ;;
  self <-? fraction_digits start self ;;
  self <-? exponent_digits start self ;;
  let lexeme := take (Z.to_nat (self.(offset) - start)) input in
  refuse (limits.(max_number_bytes) <? len lexeme)
    with NumberTooLong start limits.(max_number_bytes) ;;
  refuse negb (utf8_valid lexeme) with InvalidNumber start ;;
  Ok (lexeme, self).

(** ** Values *)

Definition next_depth (depth : Z) : Z := (depth + 1) mod 65536.

Definition lift_word (v : LexicalValue) (r : result Scanner LexicalError) :
    option (scan LexicalValue) :=
  Some (self <-? r ;; Ok (v, self)).

Fixpoint value (fuel : nat) (depth : Z) (self : Scanner) : option (scan LexicalValue) :=
  match fuel with
  | O => None
  | S fuel =>
      if limits.(max_depth) <? depth
      then Some (Err (DepthExceeded self.(offset) limits.(max_depth)))
      else
        match peek self with
        | None => Some (Err (UnexpectedEnd self.(offset)))
        | Some byte =>
            if byte =? 110 then lift_word Null (literal (lit "null") self)
            else if byte =? 116 then lift_word (Bool true) (literal (lit "true") self)
            else if byte =? 102 then lift_word (Bool false) (literal (lit "false") self)
            else if byte =? 34 then
              match text self with
              | None => None
              | Some (Err e) => Some (Err e)
              | Some (Ok (s, self)) => Some (Ok (Text s, self))
              end
            else if byte =? 91 then
              let start := self.(offset) in
              match expect 91 self with
              | Err e => Some (Err e)
              | Ok self =>
                  let self := skip_whitespace self in
                  if bool_decide (peek self = Some 93)
                  then Some (Ok (Array [], advance 1 self))
                  else array_loop fuel depth start [] self
              end
            else if byte =? 123 then
              let start := self.(offset) in
              match expect 123 self with
              | Err e => Some (Err e)
              | Ok self =>
                  let self := skip_whitespace self in
                  if bool_decide (peek self = Some 125)
                  then Some (Ok (Object [], advance 1 self))
                  else object_loop fuel depth start [] self
              end
            else if (byte =? 45) || is_ascii_digit byte then
              Some (both lexeme self <-? number self ;; Ok (Number lexeme, self))
            else Some (Err (UnexpectedByte self.(offset)))
        end
  end
with array_loop (fuel : nat) (depth start : Z) (values : list LexicalValue) (self : Scanner) :
    option (scan LexicalValue) :=
  match fuel with
  | O => None
  | S fuel =>
      let self := skip_whitespace self in
      if len values =? limits.(max_array_elements)
      then Some (Err (ArrayCapacityExceeded start limits.(max_array_elements)))
      else
        match value fuel (next_depth depth) self with
        | None => None
        | Some (Err e) => Some (Err e)
        | Some (Ok (v, self)) =>
            let values := values ++ [v] in
            let self := skip_whitespace self in
            match peek self with
            | Some byte =>
                if byte =? 44 then array_loop fuel depth start values (advance 1 self)
                else if byte =? 93 then Some (Ok (Array values, advance 1 self))
                else Some (Err (UnexpectedByte self.(offset)))
            | None => Some (Err (UnexpectedEnd self.(offset)))
            end
        end
  end
with object_loop (fuel : nat) (depth start : Z) (entries : list (bytes * LexicalValue))
    (self : Scanner) : option (scan LexicalValue) :=
  match fuel with
  | O => None
  | S fuel =>
      let self := skip_whitespace self in
      if len entries =? limits.(max_object_entries)
      then Some (Err (ObjectCapacityExceeded start limits.(max_object_entries)))
      else
        let key_offset := self.(offset) in
        match text self with
        | None => None
        | Some (Err e) => Some (Err e)
        | Some (Ok (key, self)) =>
            if existsb (fun e => bool_decide (e.1 = key)) entries
            then Some (Err (DuplicateField key_offset))
            else
              match expect 58 (skip_whitespace self) with
              | Err e => Some (Err e)
              | Ok self =>
                  match value fuel (next_depth depth) (skip_whitespace self) with
                  | None => None
                  | Some (Err e) => Some (Err e)
                  | Some (Ok (v, self)) =>
                      let entries := entries ++ [(key, v)] in
                      let self := skip_whitespace self in
                      match peek self with
                      | Some byte =>
                          if byte =? 44 then object_loop fuel depth start entries (advance 1 self)
                          else if byte =? 125 then Some (Ok (Object entries, advance 1 self))
                          else Some (Err (UnexpectedByte self.(offset)))
                      | None => Some (Err (UnexpectedEnd self.(offset)))
                      end
                  end
              end
        end
  end.
End scanner.

Definition parse_fuel (input : bytes) : nat := 2 * length input + 2.

Definition parse_lexical (input : bytes) (limits : LexicalLimits) :
    option (result LexicalValue LexicalError) :=
  if bool_decide (input = []) then Some (Err EmptyInput)
  else if limits.(max_bytes) <? len input
  then Some (Err (InputTooLarge (len input) limits.(max_bytes)))
  else
    let scanner := skip_whitespace {| remaining := input; offset := 0 |} in
    match value limits (parse_fuel input) 0 scanner with
    | None => None
    | Some (Err e) => Some (Err e)
    | Some (Ok (v, scanner)) =>
        let scanner := skip_whitespace scanner in
        if negb (scanner.(offset) =? len input)
        then Some (Err (TrailingBytes scanner.(offset)))
        else Some (Ok v)
    end.

Example parse_example :
  parse_lexical (lit "{" ++ [34; 97; 34] ++ lit " : [1.50e-2, true]} ") venue_payload
    = Some (Ok (Object [(lit "a", Array [Number (lit "1.50e-2"); Bool true])])).
Proof. vm_compute. reflexivity. Qed.
