(* ===== verification/LexicalProps.v ===== *)
(** * The lexical parser is exact

    The JSON grammar with the limits of a payload, as a relation between a value and the bytes
    that spell it; the parser answers on every input, and accepts exactly the spellings. *)

From S2P Require Import Prelude Numeric Lexical.

(** ** Scanners *)

Abbreviation at_ r o := {| remaining := r; offset := o |}.

(** [s'] is [s] with the bytes [b] consumed. *)
Definition eats (s : Scanner) (b : bytes) (s' : Scanner) : Prop :=
  s.(remaining) = b ++ s'.(remaining) /\ s'.(offset) = s.(offset) + len b.

Lemma eats_nil s : eats s [] s.
Proof. split; [done|rewrite len_nil; lia]. Qed.

Lemma eats_trans s b s1 b' s2 : eats s b s1 -> eats s1 b' s2 -> eats s (b ++ b') s2.
Proof.
  intros [H1 H2] [H3 H4]. split; [by rewrite H1, H3, app_assoc|]. rewrite len_app. lia.
Qed.

Lemma eats_at s b s' : eats s b s' <->
  s = at_ (b ++ s'.(remaining)) s.(offset) /\ s' = at_ s'.(remaining) (s.(offset) + len b).
Proof.
  unfold eats. destruct s as [r o], s' as [r' o']; simpl. split.
  - by intros [-> ->].
  - by intros [[= ->] [= ->]].
Qed.

Lemma advance_app b r o : advance (length b) (at_ (b ++ r) o) = at_ r (o + len b).
Proof. unfold advance; simpl. by rewrite drop_app_length. Qed.

Lemma advance_one x r o : advance 1 (at_ (x :: r) o) = at_ r (o + 1).
Proof. done. Qed.

Lemma advance_eats n s : (n <= length s.(remaining))%nat ->
  eats s (take n s.(remaining)) (advance n s).
Proof.
  intros H. split; simpl; [by rewrite take_drop|]. unfold len. rewrite length_take. lia.
Qed.

Lemma peek_eats s x : peek s = Some x -> eats s [x] (advance 1 s).
Proof.
  unfold peek. destruct s as [[|y r] o]; simpl; [done|]. intros [= ->]. split; [done|].
  simpl. rewrite len_cons, len_nil. lia.
Qed.

Lemma expect_Ok b s s' : expect b s = Ok s' -> eats s [b] s'.
Proof.
  unfold expect. destruct (peek s) as [x|] eqn:E; [|done]. destruct (Z.eqb_spec x b) as [->|]; [|done].
  intros [= <-]. by apply peek_eats.
Qed.

Lemma expect_at b r o : expect b (at_ (b :: r) o) = Ok (at_ r (o + 1)).
Proof. unfold expect. simpl. by rewrite Z.eqb_refl. Qed.

Lemma count_while_all p l r : forallb p l = true ->
  match r with [] => True | x :: _ => p x = false end -> count_while p (l ++ r) = length l.
Proof.
  intros Hl Hr. induction l as [|x l IH]; simpl in *.
  - destruct r; simpl; [done|]. by rewrite Hr.
  - apply andb_true_iff in Hl as [-> Hl]. by rewrite IH.
Qed.

Lemma count_while_spec p l : (count_while p l <= length l)%nat /\
  forallb p (take (count_while p l) l) = true /\
  match drop (count_while p l) l with [] => True | x :: _ => p x = false end.
Proof.
  induction l as [|x l (H1 & H2 & H3)]; simpl; [by split_and!|].
  destruct (p x) eqn:E; simpl; [|split_and!; [lia|done|done]].
  rewrite E. split_and!; [lia|done|done].
Qed.

(** ** Blanks *)

Definition blank (b : bytes) : Prop := forallb is_whitespace b = true.

Definition not_blank_head (r : bytes) : Prop :=
  match r with [] => True | x :: _ => is_whitespace x = false end.

Lemma skip_at w r o : blank w -> not_blank_head r ->
  skip_whitespace (at_ (w ++ r) o) = at_ r (o + len w).
Proof. intros Hw Hr. unfold skip_whitespace; simpl. rewrite count_while_all by done. apply advance_app. Qed.

Lemma skip_eats s : exists w, blank w /\ eats s w (skip_whitespace s) /\
  not_blank_head (skip_whitespace s).(remaining).
Proof.
  unfold skip_whitespace. destruct (count_while_spec is_whitespace s.(remaining)) as (H1 & H2 & H3).
  eexists. split; [exact H2|]. split; [by apply advance_eats|exact H3].
Qed.

Lemma skip_idempotent s : skip_whitespace (skip_whitespace s) = skip_whitespace s.
Proof.
  destruct (skip_eats s) as (w & _ & _ & Hn). destruct (skip_whitespace s) as [r o] eqn:E.
  simpl in Hn. pose proof (skip_at [] r o eq_refl Hn) as H. simpl in H.
  rewrite len_nil, Z.add_0_r in H. exact H.
Qed.

(** ** Numbers *)

Definition digit_run (d : bytes) : Prop := d <> [] /\ all_digits d = true.
Definition int_part (i : bytes) : Prop := i = [48] \/ (digit_run i /\ head i <> Some 48).
Definition frac_part (f : bytes) : Prop := f = [] \/ exists d, digit_run d /\ f = 46 :: d.
Definition exp_part (e : bytes) : Prop :=
  e = [] \/ exists x s d, (x = 101 \/ x = 69) /\ (s = [] \/ s = [43] \/ s = [45]) /\
    digit_run d /\ e = x :: s ++ d.

(** The number grammar of JSON. *)
Definition number_lexeme (l : bytes) : Prop :=
  exists sign i f e, (sign = [] \/ sign = [45]) /\ int_part i /\ frac_part f /\ exp_part e /\
    l = sign ++ i ++ f ++ e.

(** What may follow a number that ends where it does. *)
Definition number_stop (r : bytes) : Prop :=
  match r with
  | [] => True
  | x :: _ => is_ascii_digit x = false /\ x <> 46 /\ x <> 101 /\ x <> 69
  end.

Definition digit_stop (r : bytes) : Prop :=
  match r with [] => True | x :: _ => is_ascii_digit x = false end.

Lemma skip_digits_at d r o : all_digits d = true -> digit_stop r ->
  skip_digits (at_ (d ++ r) o) = at_ r (o + len d).
Proof. intros Hd Hr. unfold skip_digits; simpl. rewrite count_while_all by done. apply advance_app. Qed.

Lemma skip_digits_eats s : at_digit s = true ->
  exists d, digit_run d /\ eats s d (skip_digits s) /\ digit_stop (skip_digits s).(remaining).
Proof.
  intros Hs. unfold skip_digits.
  destruct (count_while_spec is_ascii_digit s.(remaining)) as (H1 & H2 & H3).
  eexists. split; [split; [|exact H2]|split; [by apply advance_eats|exact H3]].
  unfold at_digit, peek in Hs. destruct s as [[|x r] o]; simpl in *; [done|]. by rewrite Hs.
Qed.

Lemma digits_utf8 d : all_digits d = true -> forallb (in_range 0 127) d = true.
Proof.
  unfold all_digits. induction d as [|x d IH]; simpl; [done|].
  intros [Hx Hd]%andb_true_iff. rewrite IH by done. unfold is_ascii_digit in Hx.
  apply in_range_spec in Hx. rewrite andb_true_r. apply in_range_spec. lia.
Qed.

Lemma ascii_utf8 l : forallb (in_range 0 127) l = true -> utf8_valid l = true.
Proof.
  induction l as [|x l IH]; [done|]. simpl. intros [Hx Hl]%andb_true_iff. rewrite Hx. auto.
Qed.

Lemma number_lexeme_utf8 l : number_lexeme l -> utf8_valid l = true.
Proof.
  intros (sign & i & f & e & Hs & Hi & Hf & He & ->). apply ascii_utf8. rewrite !forallb_app.
  apply andb_true_iff; split; [by destruct Hs as [->| ->]|].
  apply andb_true_iff; split.
  { destruct Hi as [->|[[_ Hi] _]]; [done|by apply digits_utf8]. }
  apply andb_true_iff; split.
  - destruct Hf as [->|(d & [_ Hd] & ->)]; [done|]. simpl. by apply digits_utf8.
  - destruct He as [->|(x & s & d & Hx & Hs' & [_ Hd] & ->)]; [done|]. simpl.
    rewrite forallb_app, (digits_utf8 d Hd), andb_true_r.
    by destruct Hx as [->| ->], Hs' as [->|[->| ->]].
Qed.

Lemma skip_minus_eats s : exists b, (b = [] \/ b = [45]) /\ eats s b (skip_minus s).
Proof.
  unfold skip_minus. case_bool_decide as E.
  - exists [45]. split; [by right|by apply peek_eats].
  - exists []. split; [by left|apply eats_nil].
Qed.

Lemma skip_sign_eats s : exists b, (b = [] \/ b = [43] \/ b = [45]) /\ eats s b (skip_sign s).
Proof.
  unfold skip_sign. case_bool_decide as E; [|case_bool_decide as E']; simpl.
  - exists [43]. split; [auto|by apply peek_eats].
  - exists [45]. split; [auto|by apply peek_eats].
  - exists []. split; [auto|apply eats_nil].
Qed.

Lemma integer_digits_Ok start s s' : integer_digits start s = Ok s' ->
  exists b, int_part b /\ eats s b s'.
Proof.
  unfold integer_digits. intros H. destruct (peek s) as [x|] eqn:E; [|done].
  destruct (decide (x = 48)) as [->|Hne].
  - injection H as <-. exists [48]. split; [by left|by apply peek_eats].
  - assert (H' : (if is_ascii_digit x then Ok (skip_digits s) else Err (InvalidNumber start)) = Ok s').
    { destruct x as [|[| |]|]; try exact H. repeat (destruct p; try exact H). by destruct Hne. }
    destruct (is_ascii_digit x) eqn:Ed; [|done]. injection H' as <-.
    destruct (skip_digits_eats s) as (d & Hd & He & _); [unfold at_digit; by rewrite E|].
    exists d. split; [|done]. right. split; [done|]. destruct He as [He _].
    unfold peek in E. rewrite He in E. destruct d as [|y d]; [by destruct Hd|]. simpl in *. congruence.
Qed.

Lemma fraction_digits_Ok start s s' : fraction_digits start s = Ok s' ->
  exists b, frac_part b /\ eats s b s'.
Proof.
  unfold fraction_digits. case_bool_decide as E.
  - destruct (at_digit (advance 1 s)) eqn:Ed; [|done]. intros [= <-].
    destruct (skip_digits_eats _ Ed) as (d & Hd & He & _). exists (46 :: d).
    split; [right; by exists d|]. by apply (eats_trans s [46] (advance 1 s) d), He; apply peek_eats.
  - intros [= <-]. exists []. split; [by left|apply eats_nil].
Qed.

Lemma exponent_digits_Ok start s s' : exponent_digits start s = Ok s' ->
  exists b, exp_part b /\ eats s b s'.
Proof.
  unfold exponent_digits. destruct (_ || _) eqn:E; [|intros [= <-]; exists []; split;
    [by left|apply eats_nil]].
  destruct (at_digit (skip_sign (advance 1 s))) eqn:Ed; [|done]. intros [= <-].
  destruct (skip_digits_eats _ Ed) as (d & Hd & He & _).
  destruct (skip_sign_eats (advance 1 s)) as (g & Hg & Hge).
  assert (Hx : exists x, (x = 101 \/ x = 69) /\ peek s = Some x).
  { apply orb_true_iff in E as [E|E]; apply bool_decide_eq_true in E; eauto. }
  destruct Hx as (x & Hx & Hp). exists (x :: g ++ d). split; [right; exists x, g, d; auto|].
  apply (eats_trans s [x] (advance 1 s) (g ++ d)); [by apply peek_eats|].
  by eapply eats_trans.
Qed.

Lemma number_Ok limits s l s' : number limits s = Ok (l, s') ->
  number_lexeme l /\ eats s l s' /\ len l <= limits.(max_number_bytes).
Proof.
  unfold number. intros H.
  destruct (skip_minus_eats s) as (g & Hg & Hge).
  destruct (integer_digits _ _) as [s1|] eqn:E1; [|done].
  apply integer_digits_Ok in E1 as (i & Hi & Hie).
  destruct (fraction_digits _ _) as [s2|] eqn:E2; [|done].
  apply fraction_digits_Ok in E2 as (f & Hf & Hfe).
  destruct (exponent_digits _ _) as [s3|] eqn:E3; [|done].
  apply exponent_digits_Ok in E3 as (e & He & Hee).
  assert (Heat : eats s (g ++ i ++ f ++ e) s3)
    by (eapply eats_trans; [done|]; eapply eats_trans; [done|]; by eapply eats_trans).
  assert (Hlex : take (Z.to_nat (s3.(offset) - s.(offset))) s.(remaining) = g ++ i ++ f ++ e).
  { destruct Heat as [-> ->]. unfold len.
    replace (Z.to_nat _) with (length (g ++ i ++ f ++ e)) by lia. apply take_app_length. }
  rewrite Hlex in H. destruct (_ <? _) eqn:El; [|]; [done|]. destruct (negb _); [done|].
  injection H as <- <-. split_and!; [|exact Heat|lia].
  by exists g, i, f, e.
Qed.

Lemma digit_head d r : digit_run d -> exists x y, d ++ r = x :: y /\ is_ascii_digit x = true.
Proof.
  intros [Hne Hd]. destruct d as [|x d]; [done|]. simpl in Hd.
  apply andb_true_iff in Hd as [Hx _]. by exists x, (d ++ r).
Qed.

Lemma digit_range x : is_ascii_digit x = true -> 48 <= x <= 57.
Proof. apply in_range_spec. Qed.

Lemma at_digit_run d r o : digit_run d -> at_digit (at_ (d ++ r) o) = true.
Proof. intros Hd. destruct (digit_head d r Hd) as (x & y & E & Hx). unfold at_digit, peek. simpl. by rewrite E. Qed.

Lemma exponent_digits_at start e r o : exp_part e -> number_stop r ->
  exponent_digits start (at_ (e ++ r) o) = Ok (at_ r (o + len e)).
Proof.
  intros [->|(x & g & d & Hx & Hg & Hd & ->)] Hr.
  - unfold exponent_digits. rewrite len_nil, Z.add_0_r. simpl.
    destruct r as [|x r]; [done|]. destruct Hr as (_ & _ & H1 & H2). simpl.
    rewrite !bool_decide_false by (unfold peek; simpl; congruence). done.
  - unfold exponent_digits. assert (Hp : bool_decide (peek (at_ ((x :: g ++ d) ++ r) o) = Some 101)
      || bool_decide (peek (at_ ((x :: g ++ d) ++ r) o) = Some 69) = true)
      by (by destruct Hx as [->| ->]).
    rewrite Hp. clear Hp. rewrite <- app_comm_cons, advance_one, <- app_assoc.
    assert (Hs : skip_sign (at_ (g ++ d ++ r) (o + 1)) = at_ (d ++ r) (o + 1 + len g)).
    { destruct Hg as [->|[->| ->]]; [|done..]. rewrite len_nil, Z.add_0_r. unfold skip_sign. simpl.
      destruct (digit_head d r Hd) as (y & z & -> & Hy). apply digit_range in Hy. simpl.
      rewrite !bool_decide_false by (intros [= ->]; lia). done. }
    rewrite Hs, at_digit_run by done. cbn [negb].
    rewrite skip_digits_at; [|apply Hd|destruct r; [done|apply Hr]].
    do 2 f_equal. rewrite len_cons, len_app. lia.
Qed.

(** What follows an integer part: a fraction or an exponent, or what stops a number. *)
Lemma part_stop f e r : frac_part f -> exp_part e -> number_stop r ->
  digit_stop (f ++ e ++ r) /\ (f = [] -> head (e ++ r) <> Some 46).
Proof.
  intros Hf He Hr.
  assert (H : digit_stop (e ++ r) /\ head (e ++ r) <> Some 46).
  { destruct He as [->|(x & s & d & Hx & _ & _ & ->)].
    - destruct r as [|x r]; [done|]. destruct Hr as (? & ? & _). simpl. split; congruence.
    - destruct Hx as [->| ->]; done. }
  destruct Hf as [->|(d & _ & ->)]; [|done]. by destruct H.
Qed.

Lemma fraction_digits_at start f e r o : frac_part f -> exp_part e -> number_stop r ->
  fraction_digits start (at_ (f ++ e ++ r) o) = Ok (at_ (e ++ r) (o + len f)).
Proof.
  intros Hf He Hr. destruct (part_stop f e r Hf He Hr) as [Hd Hp].
  destruct (part_stop [] e r (or_introl eq_refl) He Hr) as [Hd' _].
  destruct Hf as [->|(d & Hdr & ->)]; unfold fraction_digits.
  - rewrite bool_decide_false by (by apply Hp). by rewrite len_nil, Z.add_0_r.
  - rewrite bool_decide_true by done. rewrite <- app_comm_cons, advance_one, at_digit_run by done.
    cbn [negb]. rewrite skip_digits_at; [|apply Hdr|done]. do 2 f_equal. rewrite len_cons. lia.
Qed.

Lemma integer_digits_at start i r o : int_part i -> digit_stop r ->
  integer_digits start (at_ (i ++ r) o) = Ok (at_ r (o + len i)).
Proof.
  intros [->|[Hd Hh]] Hr; [done|]. unfold integer_digits, peek. simpl.
  destruct (digit_head i r Hd) as (x & y & E & Hx). rewrite E. simpl.
  assert (Hx0 : x <> 48) by (destruct i; [by destruct Hd|]; simpl in *; congruence).
  assert (H : forall A (a b : A), match x with 48 => a | _ => b end = b).
  { intros A a b. destruct x as [|p|]; try done. repeat (destruct p; try done). }
  rewrite H, Hx, <- E. by rewrite skip_digits_at by (done || apply Hd).
Qed.

Lemma number_at limits l r o : number_lexeme l -> number_stop r ->
  len l <= limits.(max_number_bytes) ->
  number limits (at_ (l ++ r) o) = Ok (l, at_ r (o + len l)).
Proof.
  intros Hl Hr Hlen. pose proof (number_lexeme_utf8 l Hl) as Hu.
  destruct Hl as (g & i & f & e & Hg & Hi & Hf & He & El).
  assert (Hm : skip_minus (at_ (l ++ r) o) = at_ (i ++ f ++ e ++ r) (o + len g)).
  { rewrite El, <- !app_assoc. destruct Hg as [->| ->]; [|done]. unfold skip_minus.
    rewrite len_nil, Z.add_0_r. simpl. rewrite bool_decide_false; [done|].
    unfold peek. simpl. destruct Hi as [->|[Hd _]]; [done|].
    destruct (digit_head i (f ++ e ++ r) Hd) as (x & y & -> & Hx). apply digit_range in Hx.
    simpl. intros [= ->]. lia. }
  unfold number. cbn [remaining offset]. rewrite Hm.
  rewrite integer_digits_at by (done || by apply part_stop).
  rewrite fraction_digits_at, exponent_digits_at by done. cbn [offset].
  assert (Ho : o + len g + len i + len f + len e = o + len l) by (rewrite El, !len_app; lia).
  rewrite Ho. replace (Z.to_nat (o + len l - o)) with (length l) by (unfold len; lia).
  rewrite take_app_length, Hu. cbn [negb]. by assert ((limits.(max_number_bytes) <? len l) = false) as -> by lia.
Qed.

(** ** Strings *)

(** A character spelled as itself: one UTF-8 sequence, neither quote, backslash nor control. *)
Definition raw_char (c : bytes) : Prop :=
  exists x rest, c = x :: rest /\ x <> 34 /\ x <> 92 /\ in_range 0 31 x = false /\
    length c = utf8_width x /\ utf8_valid c = true.

(** What follows a backslash, and the character it stands for. *)
Inductive escape_spell (c : Z) : bytes -> Prop :=
| es_simple x : simple_escape x = Some c -> escape_spell c [x]
| es_unit h : length h = 4%nat -> hex_value 0 h = Some c ->
    is_low_surrogate c = false -> is_high_surrogate c = false -> char_from_u32 c = Some c ->
    escape_spell c (117 :: h)
| es_pair h hi h' lo : length h = 4%nat -> hex_value 0 h = Some hi ->
    is_high_surrogate hi = true -> length h' = 4%nat -> hex_value 0 h' = Some lo ->
    is_low_surrogate lo = true ->
    char_from_u32 (65536 + Z.shiftl (hi - 55296) 10 + (lo - 56320)) = Some c ->
    escape_spell c (117 :: h ++ 92 :: 117 :: h').

(** The bytes between the quotes and the text they spell. *)
Inductive text_body : bytes -> bytes -> Prop :=
| tb_nil : text_body [] []
| tb_raw c out b : raw_char c -> text_body out b -> text_body (c ++ out) (c ++ b)
| tb_escape c e out b : escape_spell c e -> text_body out b ->
    text_body (utf8_encode c ++ out) (92 :: e ++ b).

Lemma hex4_Ok s u s' : hex4 s = Ok (u, s') ->
  exists h, length h = 4%nat /\ hex_value 0 h = Some u /\ eats s h s'.
Proof.
  unfold hex4. destruct (Z.ltb_spec (len s.(remaining)) 4) as [|Hl]; [done|].
  destruct (hex_value 0 _) as [v|] eqn:E; [|done]. intros [= -> <-].
  unfold len in Hl. eexists. split; [|split; [exact E|by apply advance_eats; lia]].
  rewrite length_take. lia.
Qed.

Lemma hex4_at h u r o : length h = 4%nat -> hex_value 0 h = Some u ->
  hex4 (at_ (h ++ r) o) = Ok (u, at_ r (o + 4)).
Proof.
  intros Hh Hu. unfold hex4. cbn [remaining offset].
  assert (Hlt : (len (h ++ r) <? 4) = false). { rewrite len_app. unfold len. rewrite Hh. apply Z.ltb_ge. lia. } rewrite Hlt.
  rewrite <- Hh at 1. rewrite take_app_length, Hu. rewrite <- Hh.
  rewrite advance_app. unfold len. by rewrite Hh.
Qed.

Lemma char_from_u32_id u c : char_from_u32 u = Some c -> c = u.
Proof. unfold char_from_u32. destruct (_ || _); [by intros [= <-]|done]. Qed.

Lemma simple_escape_u c : simple_escape 117 = Some c -> False.
Proof. done. Qed.

Lemma escape_Ok s c s' : escape s = Ok (c, s') ->
  exists e, escape_spell c e /\ eats s e s'.
Proof.
  unfold escape. destruct (peek s) as [x|] eqn:E; [|done].
  destruct (Z.eqb_spec x 117) as [->|].
  - unfold unicode_escape. intros H.
    destruct (hex4 _) as [[hi s1]|] eqn:E1; [|done]. apply hex4_Ok in E1 as (h & Hh & Hv & He1).
    destruct (is_low_surrogate hi) eqn:El; [done|].
    destruct (is_high_surrogate hi) eqn:Eh.
    + destruct (bool_decide (peek s1 = Some 92)) eqn:E2; [|done]. bool_facts. cbn [negb] in H.
      destruct (bool_decide (peek (advance 1 s1) = Some 117)) eqn:E3; [|done]. bool_facts.
      cbn [negb] in H. destruct (hex4 (advance 1 (advance 1 s1))) as [[lo s2]|] eqn:E4; [|done].
      apply hex4_Ok in E4 as (h' & Hh' & Hv' & He4).
      destruct (is_low_surrogate lo) eqn:El2; [|done]. cbn [negb] in H.
      destruct (char_from_u32 _) as [c'|] eqn:Ec; [|done]. injection H as -> <-.
      exists (117 :: h ++ 92 :: 117 :: h'). split; [by apply (es_pair _ h hi h' lo)|].
      apply (eats_trans s [117] (advance 1 s)); [by apply peek_eats|].
      apply (eats_trans _ h s1); [done|].
      apply (eats_trans s1 [92] (advance 1 s1)); [by apply peek_eats|].
      apply (eats_trans _ [117] (advance 1 (advance 1 s1))); [by apply peek_eats|done].
    + destruct (char_from_u32 hi) as [c'|] eqn:Ec; [|done]. injection H as -> <-.
      pose proof (char_from_u32_id _ _ Ec) as ->. exists (117 :: h).
      split; [by apply es_unit|].
      by apply (eats_trans s [117] (advance 1 s)); [apply peek_eats|].
  - intros H. destruct (simple_escape x) as [c'|] eqn:Es; [|done]. injection H as -> <-.
    exists [x]. split; [by apply es_simple|by apply peek_eats].
Qed.

Lemma escape_at c e r o : escape_spell c e -> escape (at_ (e ++ r) o) = Ok (c, at_ r (o + len e)).
Proof.
  intros He. destruct He as [x Hx|h Hh Hv Hlo Hhi Hc|h hi h' lo Hh Hv Hhi Hh' Hv' Hlo Hc]; unfold escape, peek; simpl.
  - destruct (Z.eqb_spec x 117) as [->|]; [done|]. rewrite Hx. simpl. by rewrite advance_one.
  - unfold unicode_escape. rewrite advance_one, (hex4_at h c) by done. rewrite Hlo, Hhi, Hc. simpl.
    do 3 f_equal. unfold len. simpl. lia.
  - unfold unicode_escape. rewrite advance_one, <- app_assoc, (hex4_at h hi) by done.
    assert (is_low_surrogate hi = false) as ->
      by (unfold is_low_surrogate, is_high_surrogate in *; bool_facts; apply andb_false_iff; lia).
    rewrite Hhi. change ((92 :: 117 :: h') ++ r) with (92 :: 117 :: (h' ++ r)).
    rewrite bool_decide_true by done. cbn [negb]. rewrite advance_one.
    rewrite bool_decide_true by done. cbn [negb]. rewrite advance_one, (hex4_at h' lo) by done.
    rewrite Hlo. cbn [negb]. rewrite Hc. simpl. do 3 f_equal. unfold len. simpl.
    rewrite length_app. simpl. lia.
Qed.

Lemma text_loop_Ok limits fuel start out s r s' :
  text_loop limits fuel start out s = Some (Ok (r, s')) ->
  exists more b, r = out ++ more /\ text_body more b /\ eats s (b ++ [34]) s' /\
    len r <= limits.(max_string_bytes).
Proof.
  revert out s. induction fuel as [|fuel IH]; intros out s H; [done|]. cbn [text_loop] in H.
  destruct (Z.ltb_spec limits.(max_string_bytes) (len out)) as [|Hlen]; [done|].
  destruct (peek s) as [x|] eqn:E; [|done]. pose proof (peek_eats _ _ E) as Hx.
  destruct (Z.eqb_spec x 34) as [->|Hq].
  { injection H as <- <-. exists [], []. rewrite app_nil_r. split_and!; [done|constructor|done|done]. }
  destruct (Z.eqb_spec x 92) as [->|Hb].
  { destruct (escape _) as [[c s1]|] eqn:Ee; [|done]. apply escape_Ok in Ee as (e & He & Hes).
    apply IH in H as (more & b & -> & Hm & Hs & Hl).
    exists (utf8_encode c ++ more), (92 :: e ++ b). split_and!;
      [by rewrite app_assoc|by apply tb_escape| |done].
    replace ((92 :: e ++ b) ++ [34]) with ([92] ++ e ++ (b ++ [34])) by (simpl; by rewrite app_assoc).
    eapply eats_trans; [exact Hx|]. by eapply eats_trans. }
  destruct (in_range 0 31 x) eqn:Hc; [done|].
  destruct (_ || _) eqn:Hw; [done|]. apply orb_false_iff in Hw as [H0 H1].
  apply Nat.eqb_neq in H0. apply Z.ltb_ge in H1.
  destruct (utf8_valid _) eqn:Hv; [|done].
  assert (Hn : (utf8_width x <= length s.(remaining))%nat) by (unfold len in H1; lia).
  apply IH in H as (more & b & -> & Hm & Hs & Hl).
  exists (take (utf8_width x) s.(remaining) ++ more), (take (utf8_width x) s.(remaining) ++ b).
  split_and!; [by rewrite app_assoc| | |done].
  - apply tb_raw; [|done]. destruct Hx as [Hx _]. simpl in Hx.
    exists x, (take (pred (utf8_width x)) (drop 1 s.(remaining))).
    split_and!; try done; [|by rewrite length_take; lia].
    destruct (utf8_width x) as [|w]; [done|]. rewrite Hx at 1. simpl. f_equal.
  - rewrite <- app_assoc. eapply eats_trans; [by apply advance_eats|done].
Qed.

Lemma escape_spell_cons c e : escape_spell c e -> exists x y, e = x :: y.
Proof. intros []; eauto. Qed.

Lemma text_loop_at limits more b : text_body more b ->
  forall fuel start out r o, len (out ++ more) <= limits.(max_string_bytes) ->
  (length b < fuel)%nat ->
  text_loop limits fuel start out (at_ (b ++ 34 :: r) o)
    = Some (Ok (out ++ more, at_ r (o + len b + 1))).
Proof.
  induction 1 as [|c more b (x & rest & -> & Hq & Hb & Hctl & Hw & Hu) Hm IH|c e more b He Hm IH];
    intros fuel start out r o Hl Hf; (destruct fuel as [|fuel]; [lia|]); cbn [text_loop].
  - rewrite app_nil_r in *. assert ((limits.(max_string_bytes) <? len out) = false) as -> by lia.
    simpl. rewrite advance_one, len_nil, Z.add_0_r. done.
  - assert (Hlo : (limits.(max_string_bytes) <? len out) = false)
      by (rewrite !len_app in Hl; pose proof (len_nonneg (x :: rest)); pose proof (len_nonneg more); lia).
    rewrite Hlo. rewrite <- app_assoc. set (c := x :: rest) in *.
    assert (Hp : peek (at_ (c ++ b ++ 34 :: r) o) = Some x) by done. rewrite Hp.
    destruct (Z.eqb_spec x 34); [done|]. destruct (Z.eqb_spec x 92); [done|]. rewrite Hctl.
    cbn [remaining]. rewrite <- Hw, take_app_length, Hu.
    assert (Hc : ((length c =? 0)%nat || (len (c ++ b ++ 34 :: r) <? Z.of_nat (length c))) = false).
    { apply orb_false_iff. split; [done|]. apply Z.ltb_ge. rewrite len_app.
      pose proof (len_nonneg (b ++ 34 :: r)). unfold len at 1. lia. }
    rewrite Hc, advance_app, IH.
    + rewrite !len_app, <- app_assoc. do 4 f_equal. lia.
    + by rewrite <- app_assoc.
    + rewrite length_app in Hf. unfold c in Hf. simpl in Hf. lia.
  - assert (Hlo : (limits.(max_string_bytes) <? len out) = false)
      by (rewrite !len_app in Hl; pose proof (len_nonneg (utf8_encode c)); pose proof (len_nonneg more); lia).
    rewrite Hlo. cbn [app peek remaining head]. cbn [Z.eqb Pos.eqb]. rewrite advance_one, <- app_assoc.
    rewrite (escape_at c e) by done. rewrite IH.
    + rewrite len_cons, len_app, <- app_assoc. do 4 f_equal. lia.
    + by rewrite <- app_assoc.
    + simpl in Hf. rewrite length_app in Hf. lia.
Qed.

(** A string in its quotes. *)
Definition quoted (s b : bytes) : Prop := exists body, text_body s body /\ b = 34 :: body ++ [34].

Lemma text_Ok limits s r s' : text limits s = Some (Ok (r, s')) ->
  exists b, quoted r b /\ eats s b s' /\ len r <= limits.(max_string_bytes).
Proof.
  unfold text. destruct (expect 34 s) as [s1|] eqn:E; [|done]. apply expect_Ok in E. intros H.
  apply text_loop_Ok in H as (more & b & -> & Hm & He & Hl). exists (34 :: b ++ [34]).
  split_and!; [by exists b|by apply (eats_trans s [34] s1)|done].
Qed.

Lemma text_at limits s b r o : quoted s b -> len s <= limits.(max_string_bytes) ->
  text limits (at_ (b ++ r) o) = Some (Ok (s, at_ r (o + len b))).
Proof.
  intros (body & Hb & ->) Hl. unfold text. rewrite <- app_comm_cons, expect_at, <- app_assoc.
  cbn [app remaining]. rewrite (text_loop_at limits s body Hb); [|done|rewrite length_app; lia].
  simpl. do 4 f_equal. rewrite len_cons, len_app, len_cons, len_nil. lia.
Qed.

Lemma text_loop_total limits fuel start out s : (length s.(remaining) < fuel)%nat ->
  exists r, text_loop limits fuel start out s = Some r /\
    match r with
    | Ok (_, s') => (length s'.(remaining) < length s.(remaining))%nat
    | Err _ => True
    end.
Proof.
  revert out s. induction fuel as [|fuel IH]; intros out s Hf; [lia|]. cbn [text_loop].
  destruct (_ <? _); [by eexists|]. destruct (peek s) as [x|] eqn:E; [|by eexists].
  pose proof (peek_eats _ _ E) as [Hx _]. apply (f_equal length) in Hx. simpl in Hx.
  destruct (_ =? _); [eexists; split; [done|simpl; lia]|]. destruct (_ =? _).
  { destruct (escape _) as [[c s1]|] eqn:Ee; [|by eexists].
    apply escape_Ok in Ee as (e & _ & [He _]). apply (f_equal length) in He. rewrite length_app in He.
    destruct (IH (out ++ utf8_encode c) s1) as (r & -> & Hr); [simpl in He; lia|].
    exists r. split; [done|]. destruct r as [[? ?]|]; [simpl in *; lia|done]. }
  destruct (in_range _ _ _); [by eexists|]. destruct (_ || _) eqn:Hw; [by eexists|].
  apply orb_false_iff in Hw as [Hw _]. apply Nat.eqb_neq in Hw.
  destruct (utf8_valid _); [|by eexists].
  destruct (IH (out ++ take (utf8_width x) s.(remaining)) (advance (utf8_width x) s))
    as (r & -> & Hr); [simpl; rewrite length_drop; lia|].
  exists r. split; [done|]. destruct r as [[? ?]|]; [|done]. simpl in *. rewrite length_drop in Hr. lia.
Qed.

Lemma text_total limits s : exists r, text limits s = Some r /\
  match r with
  | Ok (_, s') => (length s'.(remaining) < length s.(remaining))%nat
  | Err _ => True
  end.
Proof.
  unfold text. destruct (expect 34 s) as [s1|] eqn:E; [|by eexists].
  apply expect_Ok in E as [E _]. apply (f_equal length) in E. simpl in E.
  destruct (text_loop_total limits (S (length s1.(remaining))) s.(offset) [] s1) as (r & -> & Hr);
    [lia|]. exists r. split; [done|]. destruct r as [[? ?]|]; [lia|done].
Qed.

(** ** Values *)

(** The limits are machine-width naturals. *)
Record limits_wf (limits : LexicalLimits) : Prop := {
  lw_bytes : 0 <= limits.(max_bytes) <= USIZE_MAX;
  lw_depth : 0 <= limits.(max_depth) <= U16_MAX;
  lw_array : 0 <= limits.(max_array_elements) <= USIZE_MAX;
  lw_object : 0 <= limits.(max_object_entries) <= USIZE_MAX;
  lw_string : 0 <= limits.(max_string_bytes) <= USIZE_MAX;
  lw_number : 0 <= limits.(max_number_bytes) <= USIZE_MAX
}.

Section grammar.
Context (limits : LexicalLimits) (Hlimits : limits_wf limits).

(** The spellings of a value at a nesting depth, with the limits on the way. *)
Inductive spells : Z -> LexicalValue -> bytes -> Prop :=
| sp_null d : d <= limits.(max_depth) -> spells d Null (lit "null")
| sp_true d : d <= limits.(max_depth) -> spells d (Bool true) (lit "true")
| sp_false d : d <= limits.(max_depth) -> spells d (Bool false) (lit "false")
| sp_number d l : d <= limits.(max_depth) -> number_lexeme l ->
    len l <= limits.(max_number_bytes) -> spells d (Number l) l
| sp_text d s b : d <= limits.(max_depth) -> quoted s b ->
    len s <= limits.(max_string_bytes) -> spells d (Text s) b
| sp_empty_array d w : d <= limits.(max_depth) -> blank w -> spells d (Array []) (91 :: w ++ [93])
| sp_array d vs b : d <= limits.(max_depth) -> len vs <= limits.(max_array_elements) ->
    elements d vs b -> spells d (Array vs) (91 :: b ++ [93])
| sp_empty_object d w : d <= limits.(max_depth) -> blank w -> spells d (Object []) (123 :: w ++ [125])
| sp_object d es b : d <= limits.(max_depth) -> len es <= limits.(max_object_entries) ->
    NoDup es.*1 -> members d es b -> spells d (Object es) (123 :: b ++ [125])
(** The elements of an array at depth [d], each one deeper. *)
with elements : Z -> list LexicalValue -> bytes -> Prop :=
| el_last d v w b w' : blank w -> blank w' -> spells (next_depth d) v b ->
    elements d [v] (w ++ b ++ w')
| el_more d v vs w b w' rest : blank w -> blank w' -> spells (next_depth d) v b ->
    elements d vs rest -> elements d (v :: vs) (w ++ b ++ w' ++ 44 :: rest)
with members : Z -> list (bytes * LexicalValue) -> bytes -> Prop :=
| me_last d k v w kb w1 w2 b w' : blank w -> blank w1 -> blank w2 -> blank w' -> quoted k kb ->
    len k <= limits.(max_string_bytes) -> spells (next_depth d) v b ->
    members d [(k, v)] (w ++ kb ++ w1 ++ 58 :: w2 ++ b ++ w')
| me_more d k v es w kb w1 w2 b w' rest : blank w -> blank w1 -> blank w2 -> blank w' ->
    quoted k kb -> len k <= limits.(max_string_bytes) -> spells (next_depth d) v b ->
    members d es rest ->
    members d ((k, v) :: es) (w ++ kb ++ w1 ++ 58 :: w2 ++ b ++ w' ++ 44 :: rest).

Scheme spells_mut := Minimality for spells Sort Prop
with elements_mut := Minimality for elements Sort Prop
with members_mut := Minimality for members Sort Prop.
Combined Scheme grammar_ind from spells_mut, elements_mut, members_mut.

Lemma literal_Ok w s s' : literal w s = Ok s' -> eats s w s'.
Proof.
  unfold literal. case_bool_decide as E; [|done]. intros [= <-]. rewrite <- E at 1.
  apply advance_eats. apply (f_equal length) in E. rewrite length_take in E. lia.
Qed.

Lemma lift_word_Ok v r v' s' : lift_word v r = Some (Ok (v', s')) -> v' = v /\ r = Ok s'.
Proof. unfold lift_word. destruct r; [|done]. by intros [= <- <-]. Qed.

(** What each scanner's acceptance means. *)
Definition sound_value (fuel : nat) : Prop := forall d s v s',
  value limits fuel d s = Some (Ok (v, s')) -> exists b, spells d v b /\ eats s b s'.
Definition sound_array (fuel : nat) : Prop := forall d start acc s v s',
  array_loop limits fuel d start acc s = Some (Ok (v, s')) ->
  exists vs b, v = Array (acc ++ vs) /\ elements d vs b /\ eats s (b ++ [93]) s' /\
    (len acc <= limits.(max_array_elements) -> len (acc ++ vs) <= limits.(max_array_elements)).
Definition sound_object (fuel : nat) : Prop := forall d start acc s v s',
  object_loop limits fuel d start acc s = Some (Ok (v, s')) ->
  exists es b, v = Object (acc ++ es) /\ members d es b /\ eats s (b ++ [125]) s' /\
    (len acc <= limits.(max_object_entries) -> len (acc ++ es) <= limits.(max_object_entries)) /\
    (NoDup acc.*1 -> NoDup (acc ++ es).*1).

Lemma elements_blank d vs b w : blank w -> elements d vs b -> elements d vs (w ++ b).
Proof.
  intros Hw H. assert (Hb : forall w', blank w' -> blank (w ++ w'))
    by (intros w' Hw'; unfold blank in *; by rewrite forallb_app, Hw, Hw').
  destruct H; rewrite app_assoc; [apply el_last|apply el_more]; auto.
Qed.

Lemma members_blank d es b w : blank w -> members d es b -> members d es (w ++ b).
Proof.
  intros Hw H. assert (Hb : forall w', blank w' -> blank (w ++ w'))
    by (intros w' Hw'; unfold blank in *; by rewrite forallb_app, Hw, Hw').
  destruct H; rewrite app_assoc; [apply me_last|apply me_more]; auto.
Qed.

Lemma peek_skip s x : peek (skip_whitespace s) = Some x ->
  exists w, blank w /\ eats s (w ++ [x]) (advance 1 (skip_whitespace s)).
Proof.
  intros H. destruct (skip_eats s) as (w & Hw & He & _). exists w. split; [done|].
  eapply eats_trans; [exact He|by apply peek_eats].
Qed.

Lemma sound_value_step fuel : sound_array fuel -> sound_object fuel -> sound_value (S fuel).
Proof.
  intros IHa IHo d s v s' H. cbn [value] in H.
  destruct (Z.ltb_spec limits.(max_depth) d) as [|Hd]; [done|].
  destruct (peek s) as [x|] eqn:E; [|done].
  destruct (x =? 110).
  { apply lift_word_Ok in H as [-> H]. apply literal_Ok in H. by eexists; split; [apply sp_null|]. }
  destruct (x =? 116).
  { apply lift_word_Ok in H as [-> H]. apply literal_Ok in H. by eexists; split; [apply sp_true|]. }
  destruct (x =? 102).
  { apply lift_word_Ok in H as [-> H]. apply literal_Ok in H. by eexists; split; [apply sp_false|]. }
  destruct (x =? 34).
  { destruct (text limits s) as [[[r s1]|]|] eqn:Et; [|done..]. injection H as <- <-.
    apply text_Ok in Et as (b & Hq & He & Hl). by eexists; split; [apply sp_text|]. }
  destruct (x =? 91).
  { destruct (expect 91 s) as [s1|] eqn:Ee; [|done]. apply expect_Ok in Ee.
    case_bool_decide as Ep.
    - injection H as <- <-. apply peek_skip in Ep as (w & Hw & He).
      exists (91 :: w ++ [93]). split; [by apply sp_empty_array|]. by eapply (eats_trans s [91] s1).
    - apply IHa in H as (vs & b & -> & Hel & He & Hlen).
      destruct (skip_eats s1) as (w & Hw & Hes & _).
      exists (91 :: (w ++ b) ++ [93]). split.
      + apply sp_array; [done| |by apply elements_blank].
        apply Hlen. rewrite len_nil. apply Hlimits.
      + eapply (eats_trans s [91] s1); [done|]. rewrite <- app_assoc. by eapply eats_trans. }
  destruct (x =? 123).
  { destruct (expect 123 s) as [s1|] eqn:Ee; [|done]. apply expect_Ok in Ee.
    case_bool_decide as Ep.
    - injection H as <- <-. apply peek_skip in Ep as (w & Hw & He).
      exists (123 :: w ++ [125]). split; [by apply sp_empty_object|]. by eapply (eats_trans s [123] s1).
    - apply IHo in H as (es & b & -> & Hel & He & Hlen & Hnd).
      destruct (skip_eats s1) as (w & Hw & Hes & _).
      exists (123 :: (w ++ b) ++ [125]). split.
      + apply sp_object; [done| | |by apply members_blank].
        * apply Hlen. rewrite len_nil. apply Hlimits.
        * apply Hnd. constructor.
      + eapply (eats_trans s [123] s1); [done|]. rewrite <- app_assoc. by eapply eats_trans. }
  destruct (_ || _); [|done]. destruct (number limits s) as [[l s1]|] eqn:En; [|done].
  injection H as <- <-. apply number_Ok in En as (Hl & He & Hlen). by eexists; split; [apply sp_number|].
Qed.

Lemma sound_array_step fuel : sound_value fuel -> sound_array fuel -> sound_array (S fuel).
Proof.
  intros IHv IHa d start acc s v s' H. cbn [array_loop] in H.
  destruct (Z.eqb_spec (len acc) limits.(max_array_elements)) as [|Hne]; [done|].
  destruct (skip_eats s) as (w & Hw & Hes & _).
  destruct (value limits fuel _ _) as [[[v1 s1]|]|] eqn:Ev; [|done..].
  apply IHv in Ev as (b & Hsp & Hb). destruct (skip_eats s1) as (w' & Hw' & Hes' & _).
  destruct (peek (skip_whitespace s1)) as [x|] eqn:Ex; [|done]. pose proof (peek_eats _ _ Ex) as Hx.
  assert (Hcap : len acc <= limits.(max_array_elements) ->
                 len (acc ++ [v1]) <= limits.(max_array_elements))
    by (rewrite len_app, len_cons, len_nil; lia).
  assert (Heat : eats s (w ++ b ++ w' ++ [x]) (advance 1 (skip_whitespace s1)))
    by (eapply eats_trans; [done|]; eapply eats_trans; [done|]; by eapply eats_trans).
  destruct (Z.eqb_spec x 44) as [->|].
  - apply IHa in H as (vs & rest & -> & Hel & He & Hlen). rewrite <- app_assoc in *.
    exists (v1 :: vs), (w ++ b ++ w' ++ 44 :: rest). split_and!; [done|by apply el_more| |auto].
    replace ((w ++ b ++ w' ++ 44 :: rest) ++ [93]) with ((w ++ b ++ w' ++ [44]) ++ rest ++ [93])
      by (by rewrite <- !app_assoc). by eapply eats_trans.
  - destruct (Z.eqb_spec x 93) as [->|]; [|done]. injection H as <- <-.
    exists [v1], (w ++ b ++ w'). split_and!; [done|by apply el_last| |done].
    by rewrite <- !app_assoc.
Qed.

Lemma existsb_key (k : bytes) (es : list (bytes * LexicalValue)) :
  existsb (fun e => bool_decide (e.1 = k)) es = false -> k ∉ es.*1.
Proof.
  intros H Hin. apply list_elem_of_fmap in Hin as (e & -> & He). apply list_elem_of_In in He.
  enough (existsb (fun e' => bool_decide (e'.1 = e.1)) es = true) by congruence.
  apply existsb_exists. exists e. split; [done|]. by apply bool_decide_eq_true.
Qed.

Lemma sound_object_step fuel : sound_value fuel -> sound_object fuel -> sound_object (S fuel).
Proof.
  intros IHv IHo d start acc s v s' H. cbn [object_loop] in H.
  destruct (Z.eqb_spec (len acc) limits.(max_object_entries)) as [|Hne]; [done|].
  destruct (skip_eats s) as (w & Hw & Hes & _).
  destruct (text limits _) as [[[k s1]|]|] eqn:Et; [|done..].
  apply text_Ok in Et as (kb & Hq & Hkb & Hkl).
  destruct (existsb _ _) eqn:Hdup; [done|]. apply existsb_key in Hdup.
  destruct (skip_eats s1) as (w1 & Hw1 & Hes1 & _).
  destruct (expect 58 _) as [s2|] eqn:Ee; [|done]. apply expect_Ok in Ee.
  destruct (skip_eats s2) as (w2 & Hw2 & Hes2 & _).
  destruct (value limits fuel _ _) as [[[v1 s3]|]|] eqn:Ev; [|done..].
  apply IHv in Ev as (b & Hsp & Hb). destruct (skip_eats s3) as (w' & Hw' & Hes' & _).
  destruct (peek (skip_whitespace s3)) as [x|] eqn:Ex; [|done]. pose proof (peek_eats _ _ Ex) as Hx.
  assert (Hcap : len acc <= limits.(max_object_entries) ->
                 len (acc ++ [(k, v1)]) <= limits.(max_object_entries))
    by (rewrite len_app, len_cons, len_nil; lia).
  assert (Hnd1 : NoDup acc.*1 -> NoDup (acc ++ [(k, v1)]).*1).
  { intros Hn. rewrite fmap_app. apply NoDup_app. split_and!; [done| |apply NoDup_singleton].
    intros y Hy ->%list_elem_of_singleton. done. }
  assert (Heat : eats s (w ++ kb ++ w1 ++ [58] ++ w2 ++ b ++ w' ++ [x])
                   (advance 1 (skip_whitespace s3)))
    by (repeat (eapply eats_trans; [done|]); done).
  destruct (Z.eqb_spec x 44) as [->|].
  - apply IHo in H as (es & rest & -> & Hel & He & Hlen & Hnd). rewrite <- app_assoc in *.
    exists ((k, v1) :: es), (w ++ kb ++ w1 ++ 58 :: w2 ++ b ++ w' ++ 44 :: rest).
    split_and!; [done|by apply me_more| |auto|auto].
    replace ((w ++ kb ++ w1 ++ 58 :: w2 ++ b ++ w' ++ 44 :: rest) ++ [125])
      with ((w ++ kb ++ w1 ++ [58] ++ w2 ++ b ++ w' ++ [44]) ++ rest ++ [125])
      by (by rewrite <- !app_assoc; simpl; rewrite <- !app_assoc).
    by eapply eats_trans.
  - destruct (Z.eqb_spec x 125) as [->|]; [|done]. injection H as <- <-.
    exists [(k, v1)], (w ++ kb ++ w1 ++ 58 :: w2 ++ b ++ w').
    split_and!; [done|by apply me_last| |done|done].
    rewrite <- !app_assoc. simpl. by rewrite <- !app_assoc.
Qed.

(** Everything the three mutual scanners accept is in the grammar. *)
Lemma scanners_sound fuel : sound_value fuel /\ sound_array fuel /\ sound_object fuel.
Proof.
  induction fuel as [|fuel (IHv & IHa & IHo)]; [done|].
  split_and!; auto using sound_value_step, sound_array_step, sound_object_step.
Qed.

(** A spelling starts with a byte that is neither blank nor a closing bracket. *)
Lemma spells_head d v b : spells d v b ->
  exists x y, b = x :: y /\ is_whitespace x = false /\ x <> 93 /\ x <> 125.
Proof.
  intros H. destruct H as [| | |d l Hd Hl|d s b Hd (body & _ & ->)| | | |];
    try (by do 2 eexists).
  destruct Hl as (g & i & f & e & Hg & Hi & _ & _ & ->).
  destruct Hg as [->| ->]; [|by do 2 eexists].
  destruct Hi as [->|[Hi _]]; [by do 2 eexists|].
  destruct (digit_head i (f ++ e) Hi) as (x & y & E & Hx). apply digit_range in Hx.
  exists x, y. rewrite <- E. unfold is_whitespace. split_and!; [done| |lia|lia].
  repeat (apply orb_false_iff; split); by apply Z.eqb_neq; lia.
Qed.

Lemma spells_not_blank d v b r : spells d v b -> not_blank_head (b ++ r).
Proof. intros H. by destruct (spells_head d v b H) as (x & y & -> & Hx & _). Qed.

Lemma quoted_not_blank s b r : quoted s b -> not_blank_head (b ++ r).
Proof. by intros (body & _ & ->). Qed.

Lemma number_head l : number_lexeme l ->
  exists x y, l = x :: y /\ ((x =? 45) || is_ascii_digit x) = true /\
    (x = 45 \/ 48 <= x <= 57).
Proof.
  intros (g & i & f & e & Hg & Hi & _ & _ & ->).
  destruct Hg as [->| ->]; [|do 2 eexists; split; [done|auto]].
  destruct Hi as [->|[Hi _]]; [do 2 eexists; split; [done|]; split; [done|lia]|].
  destruct (digit_head i (f ++ e) Hi) as (x & y & E & Hx). exists x, y. simpl. rewrite E, Hx, orb_true_r.
  apply digit_range in Hx. auto.
Qed.

Lemma blank_stop w x r : blank w -> number_stop (x :: r) -> number_stop (w ++ x :: r).
Proof.
  intros Hw Hx. destruct w as [|y w]; [done|]. unfold blank in Hw. simpl in Hw.
  apply andb_true_iff in Hw as [Hy _]. unfold is_whitespace in Hy. simpl.
  assert (Hc : y = 32 \/ y = 9 \/ y = 10 \/ y = 13).
  { repeat (apply orb_true_iff in Hy as [Hy|Hy]); apply Z.eqb_eq in Hy; auto. }
  destruct Hc as [->|[->|[->| ->]]]; done.
Qed.

Lemma blank_end_stop w : blank w -> number_stop w.
Proof.
  intros Hw. destruct w as [|y w]; [done|]. pose proof (blank_stop [y] 32 []) as H.
  unfold blank in *. simpl in Hw. apply andb_true_iff in Hw as [Hy _]. simpl in *.
  rewrite Hy in H. by apply H.
Qed.

(** The converse: each scanner accepts every spelling, given fuel for its length. *)
Definition accepts_value (d : Z) (v : LexicalValue) (b : bytes) : Prop := forall fuel r o,
  number_stop r -> (length b <= fuel)%nat ->
  value limits fuel d (at_ (b ++ r) o) = Some (Ok (v, at_ r (o + len b))).
Definition accepts_elements (d : Z) (vs : list LexicalValue) (b : bytes) : Prop :=
  forall fuel start acc r o, len (acc ++ vs) <= limits.(max_array_elements) ->
  (length b < fuel)%nat ->
  array_loop limits fuel d start acc (at_ (b ++ 93 :: r) o)
    = Some (Ok (Array (acc ++ vs), at_ r (o + len b + 1))).
Definition accepts_members (d : Z) (es : list (bytes * LexicalValue)) (b : bytes) : Prop :=
  forall fuel start acc r o, len (acc ++ es) <= limits.(max_object_entries) ->
  NoDup (acc ++ es).*1 -> (length b < fuel)%nat ->
  object_loop limits fuel d start acc (at_ (b ++ 125 :: r) o)
    = Some (Ok (Object (acc ++ es), at_ r (o + len b + 1))).

Lemma array_loop_skip fuel d start acc s :
  array_loop limits fuel d start acc (skip_whitespace s) = array_loop limits fuel d start acc s.
Proof. destruct fuel; [done|]. cbn [array_loop]. by rewrite skip_idempotent. Qed.
Lemma object_loop_skip fuel d start acc s :
  object_loop limits fuel d start acc (skip_whitespace s) = object_loop limits fuel d start acc s.
Proof. destruct fuel; [done|]. cbn [object_loop]. by rewrite skip_idempotent. Qed.

Lemma elements_skip d vs b r o : elements d vs b ->
  peek (skip_whitespace (at_ (b ++ r) o)) <> Some 93.
Proof.
  intros H. destruct H as [d v w b w' Hw _ Hs|d v vs w b w' rest Hw _ Hs _];
    rewrite <- !app_assoc, skip_at by (done || by eapply spells_not_blank);
    destruct (spells_head _ _ _ Hs) as (x & y & -> & _ & ? & _); unfold peek; simpl; congruence.
Qed.

Lemma members_skip d es b r o : members d es b ->
  peek (skip_whitespace (at_ (b ++ r) o)) <> Some 125.
Proof.
  intros H. destruct H as [d k v w kb w1 w2 b w' Hw _ _ _ Hq _ _|d k v es w kb w1 w2 b w' rest Hw _ _ _ Hq _ _ _];
    rewrite <- !app_assoc, skip_at by (done || by eapply quoted_not_blank);
    destruct Hq as (body & _ & ->); done.
Qed.

(** Dispatch on a known next byte. *)
Ltac peek_is x :=
  cbn iota;
  match goal with
  | |- match peek ?s with _ => _ end = _ => change (peek s) with (Some x)
  end; cbn [Z.eqb Pos.eqb].

Lemma literal_at w r o : literal w (at_ (w ++ r) o) = Ok (at_ r (o + len w)).
Proof. unfold literal. cbn [remaining]. by rewrite take_app_length, bool_decide_true, advance_app. Qed.

Lemma depth_test d : d <= limits.(max_depth) -> (limits.(max_depth) <? d) = false.
Proof. apply Z.ltb_ge. Qed.

Lemma accepts_word w v d : d <= limits.(max_depth) ->
  (w, v) ∈ [(lit "null", Null); (lit "true", Bool true); (lit "false", Bool false)] ->
  accepts_value d v w.
Proof.
  intros Hd Hin fuel r o _ Hf.
  assert (Hlit : lift_word v (literal w (at_ (w ++ r) o)) = Some (Ok (v, at_ r (o + len w))))
    by (by rewrite literal_at).
  apply list_elem_of_In in Hin.
  destruct Hin as [[= <- <-]|[[= <- <-]|[[= <- <-]|[]]]];
    (destruct fuel as [|fuel]; [simpl in Hf; lia|]); cbn [value];
    rewrite (depth_test d Hd); exact Hlit.
Qed.

Lemma accepts_number d l : d <= limits.(max_depth) -> number_lexeme l ->
  len l <= limits.(max_number_bytes) -> accepts_value d (Number l) l.
Proof.
  intros Hd Hl Hlen fuel r o Hr Hf. destruct (number_head l Hl) as (x & y & El & Hx & Hrange).
  destruct fuel as [|fuel]; [rewrite El in Hf; simpl in Hf; lia|]. cbn [value].
  rewrite (depth_test d Hd). assert (Hp : peek (at_ (l ++ r) o) = Some x) by (by rewrite El).
  rewrite Hp. repeat match goal with
    | |- context [x =? ?k] => first [ is_var k; fail 1 |
        match k with 45 => fail 1 | _ => replace (x =? k) with false by (symmetry; apply Z.eqb_neq; lia) end ]
    end.
  rewrite Hx, number_at by done. done.
Qed.

Lemma accepts_text d s b : d <= limits.(max_depth) -> quoted s b ->
  len s <= limits.(max_string_bytes) -> accepts_value d (Text s) b.
Proof.
  intros Hd Hq Hl fuel r o _ Hf. pose proof (text_at limits s b r o Hq Hl) as Ht.
  destruct Hq as (body & _ & ->). destruct fuel as [|fuel]; [simpl in Hf; lia|]. cbn [value].
  rewrite (depth_test d Hd). peek_is 34. by rewrite Ht.
Qed.

Lemma accepts_empty_array d w : d <= limits.(max_depth) -> blank w ->
  accepts_value d (Array []) (91 :: w ++ [93]).
Proof.
  intros Hd Hw fuel r o _ Hf. destruct fuel as [|fuel]; [simpl in Hf; lia|]. cbn [value].
  rewrite (depth_test d Hd). peek_is 91.
  rewrite <- app_comm_cons, expect_at, <- app_assoc. cbn [app]. rewrite skip_at by done.
  rewrite bool_decide_true by done. rewrite advance_one. do 4 f_equal.
  rewrite len_cons, len_app, len_cons, len_nil. lia.
Qed.

Lemma accepts_array d vs b : d <= limits.(max_depth) -> len vs <= limits.(max_array_elements) ->
  elements d vs b -> accepts_elements d vs b -> accepts_value d (Array vs) (91 :: b ++ [93]).
Proof.
  intros Hd Hl He IH fuel r o _ Hf. destruct fuel as [|fuel]; [simpl in Hf; lia|]. cbn [value].
  rewrite (depth_test d Hd). peek_is 91.
  rewrite <- app_comm_cons, expect_at, <- app_assoc. cbn [app].
  rewrite bool_decide_false by (by eapply elements_skip).
  rewrite array_loop_skip, IH; [|done|simpl in Hf; rewrite length_app in Hf; simpl in Hf; lia].
  do 4 f_equal. rewrite len_cons, len_app, len_cons, len_nil. lia.
Qed.

Lemma accepts_empty_object d w : d <= limits.(max_depth) -> blank w ->
  accepts_value d (Object []) (123 :: w ++ [125]).
Proof.
  intros Hd Hw fuel r o _ Hf. destruct fuel as [|fuel]; [simpl in Hf; lia|]. cbn [value].
  rewrite (depth_test d Hd). peek_is 123.
  rewrite <- app_comm_cons, expect_at, <- app_assoc. cbn [app]. rewrite skip_at by done.
  rewrite bool_decide_true by done. rewrite advance_one. do 4 f_equal.
  rewrite len_cons, len_app, len_cons, len_nil. lia.
Qed.

Lemma accepts_object d es b : d <= limits.(max_depth) -> len es <= limits.(max_object_entries) ->
  NoDup es.*1 -> members d es b -> accepts_members d es b ->
  accepts_value d (Object es) (123 :: b ++ [125]).
Proof.
  intros Hd Hl Hnd He IH fuel r o _ Hf. destruct fuel as [|fuel]; [simpl in Hf; lia|]. cbn [value].
  rewrite (depth_test d Hd). peek_is 123.
  rewrite <- app_comm_cons, expect_at, <- app_assoc. cbn [app].
  rewrite bool_decide_false by (by eapply members_skip).
  rewrite object_loop_skip, IH; [|done|done|simpl in Hf; rewrite length_app in Hf; simpl in Hf; lia].
  do 4 f_equal. rewrite len_cons, len_app, len_cons, len_nil. lia.
Qed.

(** One element, up to the comma or bracket after it. *)
Lemma element_at fuel d v w b w' x r o : spells d v b -> accepts_value d v b ->
  blank w -> blank w' -> (x = 44 \/ x = 93 \/ x = 125) -> (length b <= fuel)%nat ->
  exists s, value limits fuel d (skip_whitespace (at_ (w ++ b ++ w' ++ x :: r) o)) = Some (Ok (v, s)) /\
    skip_whitespace s = at_ (x :: r) (o + len w + len b + len w').
Proof.
  intros Hs IH Hw Hw' Hx Hf. rewrite skip_at by (done || by eapply spells_not_blank).
  assert (Hstop : number_stop (x :: r) /\ not_blank_head (x :: r))
    by (by destruct Hx as [->|[->| ->]]).
  destruct Hstop as [H1 H2]. eexists. split; [by apply IH; [apply blank_stop|]|by apply skip_at].
Qed.

Lemma accepts_last d v w b w' : blank w -> blank w' -> spells (next_depth d) v b ->
  accepts_value (next_depth d) v b -> accepts_elements d [v] (w ++ b ++ w').
Proof.
  intros Hw Hw' Hs IH fuel start acc r o Hl Hf. destruct fuel as [|fuel]; [lia|]. cbn [array_loop].
  rewrite !length_app in Hf. rewrite len_app, len_cons, len_nil in Hl.
  replace (len acc =? limits.(max_array_elements)) with false by (symmetry; apply Z.eqb_neq; lia).
  rewrite <- !app_assoc.
  destruct (element_at fuel (next_depth d) v w b w' 93 r o) as (s & -> & ->); auto; [lia|].
  peek_is 93. rewrite advance_one. do 4 f_equal.
  rewrite !len_app. lia.
Qed.

Lemma accepts_more d v vs w b w' rest : blank w -> blank w' -> spells (next_depth d) v b ->
  accepts_value (next_depth d) v b -> accepts_elements d vs rest ->
  accepts_elements d (v :: vs) (w ++ b ++ w' ++ 44 :: rest).
Proof.
  intros Hw Hw' Hs IH IHr fuel start acc r o Hl Hf. destruct fuel as [|fuel]; [lia|]. cbn [array_loop].
  rewrite !length_app in Hf. simpl in Hf. pose proof Hl as Hl'.
  rewrite len_app, len_cons in Hl'. pose proof (len_nonneg vs).
  replace (len acc =? limits.(max_array_elements)) with false by (symmetry; apply Z.eqb_neq; lia).
  rewrite <- !app_assoc. cbn [app].
  destruct (element_at fuel (next_depth d) v w b w' 44 (rest ++ 93 :: r) o) as (s & -> & ->); auto; [lia|].
  peek_is 44.
  rewrite advance_one, IHr; [|by rewrite <- app_assoc|lia]. rewrite <- app_assoc. do 4 f_equal.
  rewrite !len_app, len_cons. lia.
Qed.

(** One key and its colon, up to the value. *)
Lemma key_at d k v w kb w1 w2 b r o fuel start acc :
  blank w -> blank w1 -> blank w2 -> quoted k kb -> len k <= limits.(max_string_bytes) ->
  spells (next_depth d) v b -> len acc <> limits.(max_object_entries) -> k ∉ acc.*1 ->
  object_loop limits (S fuel) d start acc (at_ (w ++ kb ++ w1 ++ 58 :: w2 ++ b ++ r) o) =
  match value limits fuel (next_depth d)
          (skip_whitespace (at_ (w2 ++ b ++ r) (o + len w + len kb + len w1 + 1))) with
  | None => None
  | Some (Err e) => Some (Err e)
  | Some (Ok (v, self)) =>
      let entries := acc ++ [(k, v)] in
      let self := skip_whitespace self in
      match peek self with
      | Some byte =>
          if byte =? 44 then object_loop limits fuel d start entries (advance 1 self)
          else if byte =? 125 then Some (Ok (Object entries, advance 1 self))
          else Some (Err (UnexpectedByte self.(offset)))
      | None => Some (Err (UnexpectedEnd self.(offset)))
      end
  end.
Proof.
  intros Hw Hw1 Hw2 Hq Hkl Hs Hcap Hk. cbn [object_loop].
  apply Z.eqb_neq in Hcap as ->. rewrite skip_at by (done || by eapply quoted_not_blank).
  rewrite (text_at limits k kb) by done.
  assert (existsb (fun e : bytes * LexicalValue => bool_decide (e.1 = k)) acc = false) as ->.
  { apply not_true_is_false. intros (e & He & Hek)%existsb_exists. apply bool_decide_eq_true in Hek.
    apply Hk. rewrite <- Hek. apply list_elem_of_fmap. exists e. split; [done|by apply list_elem_of_In]. }
  rewrite skip_at by done. by rewrite expect_at.
Qed.

Lemma fresh_key (k : bytes) (v : LexicalValue) acc es : NoDup (acc ++ (k, v) :: es).*1 -> k ∉ acc.*1.
Proof.
  rewrite fmap_app. intros (_ & H & _)%NoDup_app Hin. apply (H k Hin). by left.
Qed.

Lemma accepts_last_member d k v w kb w1 w2 b w' : blank w -> blank w1 -> blank w2 -> blank w' ->
  quoted k kb -> len k <= limits.(max_string_bytes) -> spells (next_depth d) v b ->
  accepts_value (next_depth d) v b ->
  accepts_members d [(k, v)] (w ++ kb ++ w1 ++ 58 :: w2 ++ b ++ w').
Proof.
  intros Hw Hw1 Hw2 Hw' Hq Hkl Hs IH fuel start acc r o Hl Hnd Hf. destruct fuel as [|fuel]; [lia|].
  repeat (rewrite length_app in Hf || simpl in Hf). rewrite len_app, len_cons, len_nil in Hl.
  rewrite <- !app_assoc. cbn [app]. rewrite <- !app_assoc.
  rewrite key_at with (k := k) (v := v) by (done || lia || by eapply fresh_key).
  destruct (element_at fuel (next_depth d) v w2 b w' 125 r (o + len w + len kb + len w1 + 1))
    as (s & -> & Hsk); auto; [lia|]. cbn zeta. rewrite Hsk.
  peek_is 125. rewrite advance_one. do 4 f_equal.
  rewrite !len_app, len_cons, !len_app. lia.
Qed.

Lemma accepts_more_members d k v es w kb w1 w2 b w' rest : blank w -> blank w1 -> blank w2 ->
  blank w' -> quoted k kb -> len k <= limits.(max_string_bytes) -> spells (next_depth d) v b ->
  accepts_value (next_depth d) v b -> accepts_members d es rest ->
  accepts_members d ((k, v) :: es) (w ++ kb ++ w1 ++ 58 :: w2 ++ b ++ w' ++ 44 :: rest).
Proof.
  intros Hw Hw1 Hw2 Hw' Hq Hkl Hs IH IHr fuel start acc r o Hl Hnd Hf. destruct fuel as [|fuel]; [lia|].
  repeat (rewrite length_app in Hf || simpl in Hf). pose proof Hl as Hl'.
  rewrite len_app, len_cons in Hl'. pose proof (len_nonneg es).
  rewrite <- !app_assoc. cbn [app]. rewrite <- !app_assoc. cbn [app].
  rewrite key_at with (k := k) (v := v) by (done || lia || by eapply fresh_key).
  destruct (element_at fuel (next_depth d) v w2 b w' 44 (rest ++ 125 :: r)
    (o + len w + len kb + len w1 + 1)) as (s & -> & Hsk); auto; [lia|]. cbn zeta. rewrite Hsk.
  peek_is 44.
  rewrite advance_one, IHr; [|by rewrite <- app_assoc|by rewrite <- app_assoc|lia].
  rewrite <- app_assoc. do 4 f_equal. rewrite !len_app, len_cons, !len_app, len_cons. lia.
Qed.

Lemma scanners_complete :
  (forall d v b, spells d v b -> accepts_value d v b) /\
  (forall d vs b, elements d vs b -> accepts_elements d vs b) /\
  (forall d es b, members d es b -> accepts_members d es b).
Proof.
  apply grammar_ind; intros.
  - apply accepts_word; [done|left].
  - apply accepts_word; [done|right; left].
  - apply accepts_word; [done|right; right; left].
  - by apply accepts_number.
  - by apply accepts_text.
  - by apply accepts_empty_array.
  - by apply accepts_array.
  - by apply accepts_empty_object.
  - by apply accepts_object.
  - by apply accepts_last.
  - by apply accepts_more.
  - by apply accepts_last_member.
  - by apply accepts_more_members.
Qed.

(** ** The scanners always answer *)

Lemma eats_length s b s' : eats s b s' ->
  length s.(remaining) = (length b + length s'.(remaining))%nat.
Proof. intros [-> _]. apply length_app. Qed.

Lemma skip_length s : (length (skip_whitespace s).(remaining) <= length s.(remaining))%nat.
Proof. destruct (skip_eats s) as (w & _ & H & _). apply eats_length in H. lia. Qed.

(** An answer, and progress when it is an acceptance. *)
Definition answers {A} (s : Scanner) (r : option (scan A)) : Prop :=
  exists a, r = Some a /\
    match a with
    | Ok (_, s') => (length s'.(remaining) < length s.(remaining))%nat
    | Err _ => True
    end.

Definition total_value (n : nat) : Prop := forall d s,
  (2 * length s.(remaining) + 2 <= n)%nat -> answers s (value limits n d s).
Definition total_array (n : nat) : Prop := forall d start acc s,
  (2 * length s.(remaining) + 3 <= n)%nat -> answers s (array_loop limits n d start acc s).
Definition total_object (n : nat) : Prop := forall d start acc s,
  (2 * length s.(remaining) + 3 <= n)%nat -> answers s (object_loop limits n d start acc s).

Lemma answers_err {A} s e : answers s (Some (Err e : scan A)).
Proof. by exists (Err e). Qed.

Lemma answers_weaken {A} s s' (r : option (scan A)) :
  (length s'.(remaining) <= length s.(remaining))%nat -> answers s' r -> answers s r.
Proof. intros H (a & -> & Ha). exists a. split; [done|]. destruct a as [[? ?]|]; [lia|done]. Qed.

Lemma peek_length s x : peek s = Some x ->
  length s.(remaining) = S (length (advance 1 s).(remaining)).
Proof. intros H. apply peek_eats, eats_length in H. done. Qed.

Lemma total_value_step n : total_array n -> total_object n -> total_value (S n).
Proof.
  intros IHa IHo d s Hn. cbn [value]. destruct (_ <? _); [apply answers_err|].
  destruct (peek s) as [x|] eqn:E; [|apply answers_err]. pose proof (peek_length s x E) as Hlen.
  assert (Hword : forall w v, w <> [] -> answers s (lift_word v (literal w s))).
  { intros w v Hw. unfold lift_word. destruct (literal w s) as [s'|e] eqn:El; [|apply answers_err].
    apply literal_Ok, eats_length in El. eexists. split; [done|]. destruct w; [done|simpl in El; lia]. }
  destruct (x =? 110); [by apply Hword|]. destruct (x =? 116); [by apply Hword|].
  destruct (x =? 102); [by apply Hword|].
  destruct (x =? 34).
  { destruct (text_total limits s) as ([[r s']|e] & -> & Hr); [|apply answers_err].
    by eexists. }
  destruct (x =? 91).
  { destruct (expect 91 s) as [s1|] eqn:Ee; [|apply answers_err].
    apply expect_Ok, eats_length in Ee. simpl in Ee. pose proof (skip_length s1).
    case_bool_decide as Ep.
    - apply peek_length in Ep. eexists. split; [done|]. cbn iota beta. lia.
    - eapply answers_weaken; [|apply IHa; lia]. lia. }
  destruct (x =? 123).
  { destruct (expect 123 s) as [s1|] eqn:Ee; [|apply answers_err].
    apply expect_Ok, eats_length in Ee. simpl in Ee. pose proof (skip_length s1).
    case_bool_decide as Ep.
    - apply peek_length in Ep. eexists. split; [done|]. cbn iota beta. lia.
    - eapply answers_weaken; [|apply IHo; lia]. lia. }
  destruct (_ || _); [|apply answers_err].
  destruct (number limits s) as [[l s1]|] eqn:En; [|apply answers_err].
  apply number_Ok in En as (Hl & He & _). apply eats_length in He.
  eexists. split; [done|]. destruct (number_head l Hl) as (y & z & -> & _). simpl in He. lia.
Qed.

Lemma total_array_step n : total_value n -> total_array n -> total_array (S n).
Proof.
  intros IHv IHa d start acc s Hn. cbn [array_loop]. pose proof (skip_length s) as Hs.
  destruct (_ =? _); [apply answers_err|].
  destruct (IHv (next_depth d) (skip_whitespace s)) as (a & -> & Ha); [lia|].
  destruct a as [[v s1]|]; [|apply answers_err]. cbn iota beta in Ha.
  pose proof (skip_length s1) as Hs1.
  destruct (peek (skip_whitespace s1)) as [x|] eqn:E; [|apply answers_err].
  apply peek_length in E. destruct (x =? 44).
  - eapply answers_weaken; [|apply IHa; lia]. lia.
  - destruct (x =? 93); [|apply answers_err]. eexists. split; [done|]. cbn iota beta. lia.
Qed.

Lemma total_object_step n : total_value n -> total_object n -> total_object (S n).
Proof.
  intros IHv IHo d start acc s Hn. cbn [object_loop]. pose proof (skip_length s) as Hs.
  destruct (_ =? _); [apply answers_err|].
  destruct (text_total limits (skip_whitespace s)) as (a & -> & Ha).
  destruct a as [[k s0]|]; [|apply answers_err]. cbn iota beta in Ha. destruct (existsb _ _); [apply answers_err|].
  pose proof (skip_length s0) as Hs0.
  destruct (expect 58 _) as [s2|] eqn:Ee; [|apply answers_err].
  apply expect_Ok, eats_length in Ee. change (length [58]) with 1%nat in Ee.
  pose proof (skip_length s2) as Hs2.
  destruct (IHv (next_depth d) (skip_whitespace s2)) as (a & -> & Hv); [lia|].
  destruct a as [[v s1]|]; [|apply answers_err]. cbn iota beta in Hv.
  pose proof (skip_length s1) as Hs1. cbn zeta.
  destruct (peek (skip_whitespace s1)) as [x|] eqn:E; [|apply answers_err].
  apply peek_length in E. destruct (x =? 44).
  - eapply answers_weaken; [|apply IHo; lia]. lia.
  - destruct (x =? 125); [|apply answers_err]. eexists. split; [done|]. cbn iota beta. lia.
Qed.

Lemma scanners_total n : total_value n /\ total_array n /\ total_object n.
Proof.
  induction n as [|n (IHv & IHa & IHo)].
  - unfold total_value, total_array, total_object. split_and!; intros; lia.
  - split_and!; auto using total_value_step, total_array_step, total_object_step.
Qed.
End grammar.

(** ** The theorems *)

Lemma parse_lexical_answers input limits : exists r, parse_lexical input limits = Some r.
Proof.
  unfold parse_lexical. case_bool_decide; [by eexists|]. destruct (_ <? _); [by eexists|].
  pose proof (skip_length (at_ input 0)) as Hs. cbn [remaining] in Hs.
  destruct (scanners_total limits (parse_fuel input)) as (Hv & _ & _).
  destruct (Hv 0 (skip_whitespace (at_ input 0))) as (a & -> & _); [unfold parse_fuel; lia|].
  destruct a as [[v s]|]; [|by eexists]. destruct (negb _); by eexists.
Qed.

Lemma parse_lexical_iff input limits v : limits_wf limits ->
  parse_lexical input limits = Some (Ok v) <->
  len input <= limits.(max_bytes) /\
  exists w b w', blank w /\ blank w' /\ input = w ++ b ++ w' /\ spells limits 0 v b.
Proof.
  intros Hlim. unfold parse_lexical. split.
  - case_bool_decide as Hne; [done|].
    destruct (Z.ltb_spec limits.(max_bytes) (len input)) as [|Hlen]; [done|]. intros H.
    destruct (skip_eats (at_ input 0)) as (w & Hw & Hes & _).
    destruct (value limits _ 0 _) as [[[v1 s]|]|] eqn:Ev; [|done..].
    destruct (scanners_sound limits Hlim (parse_fuel input)) as (Hsound & _ & _).
    apply Hsound in Ev as (b & Hsp & Hb). destruct (skip_eats s) as (w' & Hw' & Hes' & _).
    destruct (Z.eqb_spec (skip_whitespace s).(offset) (len input)) as [Ho|]; [|done].
    injection H as ->. split; [done|]. exists w, b, w'. split_and!; try done.
    assert (Heat : eats (at_ input 0) (w ++ b ++ w') (skip_whitespace s))
      by (eapply eats_trans; [done|]; by eapply eats_trans).
    destruct Heat as [Hin Hoff]. cbn [remaining offset] in Hin, Hoff. rewrite Ho in Hoff. rewrite Hin in Hoff at 1.
    rewrite len_app in Hoff. destruct (remaining (skip_whitespace s)) as [|y r].
    + by rewrite app_nil_r in Hin.
    + rewrite len_cons in Hoff. pose proof (len_nonneg r). lia.
  - intros (Hlen & w & b & w' & Hw & Hw' & -> & Hs).
    destruct (spells_head limits _ _ _ Hs) as (x & y & Eb & _).
    rewrite bool_decide_false by (rewrite Eb; by destruct w).
    apply Z.ltb_ge in Hlen as ->.
    rewrite skip_at by (done || by eapply spells_not_blank).
    destruct (scanners_complete limits) as (Hc & _ & _).
    rewrite (Hc 0 v b Hs); [|by apply blank_end_stop|unfold parse_fuel; rewrite !length_app; lia].
    pose proof (skip_at w' [] (0 + len w + len b) Hw' I) as Hk. rewrite app_nil_r in Hk.
    rewrite Hk. cbn [offset]. rewrite !len_app.
    replace (0 + len w + len b + len w' =? len w + (len b + len w')) with true; [done|].
    symmetry. apply Z.eqb_eq. lia.
Qed.

(** C37: the parser answers on every input and every limits, within its fuel: no payload makes
    it run on. *)
Theorem parse_lexical_total input limits : exists r, parse_lexical input limits = Some r.
Proof. apply parse_lexical_answers. Qed.

(** C32: the parser is exact: it accepts an input with a value precisely when the input is no
    longer than the limit and, up to surrounding blanks, is a spelling of that value in the
    JSON grammar within the limits — nesting, array and object sizes, string and number
    lengths, and no key twice in an object. *)
Theorem parse_lexical_exact input limits v : limits_wf limits ->
  parse_lexical input limits = Some (Ok v) <->
  len input <= limits.(max_bytes) /\
  exists w b w', blank w /\ blank w' /\ input = w ++ b ++ w' /\ spells limits 0 v b.
Proof. apply parse_lexical_iff. Qed.

(** ** Witnesses *)

Lemma venue_payload_wf : limits_wf venue_payload.
Proof. split; simpl; bounds; lia. Qed.

Definition sample_json : bytes := lit "{" ++ [34; 97; 34] ++ lit " : [1.50e-2, true]} ".

Lemma parse_lexical_exact_witness :
  parse_lexical sample_json venue_payload
    = Some (Ok (Object [(lit "a", Array [Number (lit "1.50e-2"); Bool true])])) /\
  exists w b w', blank w /\ blank w' /\ sample_json = w ++ b ++ w' /\
    spells venue_payload 0 (Object [(lit "a", Array [Number (lit "1.50e-2"); Bool true])]) b.
Proof.
  split; [vm_compute; reflexivity|].
  destruct (proj1 (parse_lexical_exact sample_json venue_payload
    (Object [(lit "a", Array [Number (lit "1.50e-2"); Bool true])]) venue_payload_wf)
    ltac:(vm_compute; reflexivity)) as [_ H].
  exact H.
Defined.
