(* ===== verification/SocketIo.v ===== *)
(** * Frames of the venue stream ([src/src/wire/socketio.rs])

    One WebSocket message is an Engine.IO packet, and an Engine.IO message is a Socket.IO
    packet: a digit each, an attachment count, a namespace, an acknowledgement id and a lexical
    JSON payload. *)

From S2P Require Import Prelude Numeric Lexical.

(** ** Data *)

Inductive WebSocketOpcode : Set := Continuation | TextFrame | BinaryFrame | CloseFrame | PingFrame | PongFrame.

Definition carries_application_payload (self : WebSocketOpcode) : bool :=
  match self with TextFrame | BinaryFrame => true | _ => false end.

Definition permits_fragmentation (self : WebSocketOpcode) : bool :=
  carries_application_payload self.

Inductive EngineIoPacket : Set :=
| EngineOpen | EngineClose | EnginePing | EnginePong | EngineMessage | EngineUpgrade | EngineNoop.

Definition engine_wire_digit (self : EngineIoPacket) : Z :=
  match self with
  | EngineOpen => 48 | EngineClose => 49 | EnginePing => 50 | EnginePong => 51
  | EngineMessage => 52 | EngineUpgrade => 53 | EngineNoop => 54
  end.

Definition engine_from_wire_digit (digit : Z) : option EngineIoPacket :=
  if digit =? 48 then Some EngineOpen else if digit =? 49 then Some EngineClose
  else if digit =? 50 then Some EnginePing else if digit =? 51 then Some EnginePong
  else if digit =? 52 then Some EngineMessage else if digit =? 53 then Some EngineUpgrade
  else if digit =? 54 then Some EngineNoop else None.

Inductive SocketIoPacket : Set :=
| Connect | Disconnect | Event | Ack | ConnectError | BinaryEvent | BinaryAck.

Definition socket_wire_digit (self : SocketIoPacket) : Z :=
  match self with
  | Connect => 48 | Disconnect => 49 | Event => 50 | Ack => 51
  | ConnectError => 52 | BinaryEvent => 53 | BinaryAck => 54
  end.

Definition socket_from_wire_digit (digit : Z) : option SocketIoPacket :=
  if digit =? 48 then Some Connect else if digit =? 49 then Some Disconnect
  else if digit =? 50 then Some Event else if digit =? 51 then Some Ack
  else if digit =? 52 then Some ConnectError else if digit =? 53 then Some BinaryEvent
  else if digit =? 54 then Some BinaryAck else None.

Definition carries_binary_attachments (self : SocketIoPacket) : bool :=
  match self with BinaryEvent | BinaryAck => true | _ => false end.

Definition carries_event_name (self : SocketIoPacket) : bool :=
  match self with Event | BinaryEvent => true | _ => false end.

Record DecodedFrame : Set := {
  engine_io : option EngineIoPacket;
  socket_io : option SocketIoPacket;
  namespace : option bytes;
  acknowledgment_id : option Z;
  binary_attachments : Z;
  event_name : option bytes;
  payload : option LexicalValue;
  extra_arguments : list LexicalValue
}.

Inductive FrameError : Set :=
| EmptyFrame
| UnknownEngineIoPacket
| UnknownSocketIoPacket
| MalformedFraming
| MalformedEventEnvelope
| MissingAttachmentCount
| UnexpectedControlPayload
| LexicalFailure (error : LexicalError).

(** ** Decoding *)

(** A frame that carries no Socket.IO packet. *)
Definition plain_frame (engine : option EngineIoPacket) (p : option LexicalValue) :
    DecodedFrame :=
  {| engine_io := engine; socket_io := None; namespace := None; acknowledgment_id := None;
     binary_attachments := 0; event_name := None; payload := p; extra_arguments := [] |}.

(** The input split at the first [sep], which is dropped. *)
Definition split_at (sep : Z) (l : bytes) : option (bytes * bytes) :=
  let n := count_while (fun b => negb (b =? sep)) l in
  if (n <? length l)%nat then Some (take n l, drop (S n) l) else None.

(** The attachment count of a binary packet. *)
Definition read_attachments (packet : SocketIoPacket) (rest : bytes) :
    result (Z * bytes) FrameError :=
  if carries_binary_attachments packet then
    both digits rest <-? ok_or (split_at 45 rest) MissingAttachmentCount ;;
    refuse negb (utf8_valid digits) with MalformedFraming ;;
    count <-? ok_or (parse_unsigned U16_MAX digits) MalformedFraming ;;
    Ok (count, rest)
  else Ok (0, rest).

Definition read_namespace (rest : bytes) : result (option bytes * bytes) FrameError :=
  if bool_decide (head rest = Some 47) then
    both name rest <-? ok_or (split_at 44 rest) MalformedFraming ;;
    refuse negb (utf8_valid name) with MalformedFraming ;;
    Ok (Some name, rest)
  else Ok (None, rest).

Definition read_acknowledgment (rest : bytes) : result (option Z * bytes) FrameError :=
  let digits := count_while is_ascii_digit rest in
  if (0 <? digits)%nat then
    refuse negb (utf8_valid (take digits rest)) with MalformedFraming ;;
    id <-? ok_or (parse_unsigned U64_MAX (take digits rest)) MalformedFraming ;;
    Ok (Some id, drop digits rest)
  else Ok (None, rest).

(** The event name, its argument and the arguments after it. *)
Definition read_event (packet : SocketIoPacket) (p : option LexicalValue) :
    result (option bytes * (option LexicalValue * list LexicalValue)) FrameError :=
  if carries_event_name packet then
    values <-? ok_or (match p with Some v => as_array v | None => None end)
                 MalformedEventEnvelope ;;
    name <-? ok_or (match head values with Some v => as_text v | None => None end)
               MalformedEventEnvelope ;;
    Ok (Some name, (values !! 1%nat, drop 2 values))
  else Ok (None, (p, [])).

(** The fuel of the lexical parser is threaded out: [None] when it is spent. *)
Definition decode_socket_io (engine : EngineIoPacket) (input : bytes) (limits : LexicalLimits) :
    option (result DecodedFrame FrameError) :=
  match
    match input with
    | [] => Err EmptyFrame
    | first :: rest =>
        packet <-? ok_or (socket_from_wire_digit first) UnknownSocketIoPacket ;;
        both attachments rest <-? read_attachments packet rest ;;
        both name rest <-? read_namespace rest ;;
        both id rest <-? read_acknowledgment rest ;;
        Ok (packet, attachments, name, id, rest)
    end
  with
  | Err e => Some (Err e)
  | Ok (packet, attachments, name, id, rest) =>
      match (if bool_decide (rest = []) then Some (Ok None)
             else match parse_lexical rest limits with
                  | None => None
                  | Some r => Some (res_map Some (map_err LexicalFailure r))
                  end) with
      | None => None
      | Some (Err e) => Some (Err e)
      | Some (Ok p) =>
          Some (both event arguments <-? read_event packet p ;;
                Ok {| engine_io := Some engine; socket_io := Some packet; namespace := name;
                      acknowledgment_id := id; binary_attachments := attachments;
                      event_name := event; payload := arguments.1;
                      extra_arguments := arguments.2 |})
      end
  end.

Definition decode_frame (input : bytes) (opcode : WebSocketOpcode) (limits : LexicalLimits) :
    option (result DecodedFrame FrameError) :=
  if negb (carries_application_payload opcode) then Some (Ok (plain_frame None None))
  else
    match input with
    | [] => Some (Err EmptyFrame)
    | first :: rest =>
        match engine_from_wire_digit first with
        | None => Some (Err UnknownEngineIoPacket)
        | Some EngineOpen =>
            match parse_lexical rest limits with
            | None => None
            | Some (Err e) => Some (Err (LexicalFailure e))
            | Some (Ok v) => Some (Ok (plain_frame (Some EngineOpen) (Some v)))
            end
        | Some EngineMessage => decode_socket_io EngineMessage rest limits
        | Some other =>
            if bool_decide (rest = []) then Some (Ok (plain_frame (Some other) None))
            else Some (Err UnexpectedControlPayload)
        end
    end.
