(* ===== verification/Session.v ===== *)
(** * The venue session ([src/src/wire/session.rs])

    What the server's [open] packet negotiates, the packets this daemon writes, and which
    frames end the session. *)

From S2P Require Import Prelude Numeric Lexical SocketIo.

Definition PING_INTERVAL_MS_MIN : Z := 1000.
Definition PING_INTERVAL_MS_MAX : Z := 300000.
Definition PING_TIMEOUT_MS_MIN : Z := 1000.
Definition PING_TIMEOUT_MS_MAX : Z := 300000.
Definition MAX_PAYLOAD_BYTES_MIN : Z := 1024.
Definition MAX_PAYLOAD_BYTES_MAX : Z := 16 * 1024 * 1024.

Record EngineIoOpen : Set := {
  sid : bytes; ping_interval_ms : Z; ping_timeout_ms : Z; max_payload_bytes : Z
}.

Inductive SessionError : Set :=
| MissingField (field : bytes)
| UnexpectedType (field : bytes) (kind : LexicalKind)
| NonIntegerLexeme (field : bytes)
| OutOfPolicy (field : bytes) (value : Z).

Definition read_text (p : LexicalValue) (name : bytes) : result bytes SessionError :=
  match field name p with
  | None => Err (MissingField name)
  | Some (Text value) => Ok value
  | Some other => Err (UnexpectedType name (lexical_kind other))
  end.

Definition read_bounded_integer (p : LexicalValue) (name : bytes) (min max : Z) :
    result Z SessionError :=
  number <-? match field name p with
             | None => Err (MissingField name)
             | Some (Number number) => Ok number
             | Some other => Err (UnexpectedType name (lexical_kind other))
             end ;;
  value <-? ok_or (parse_unsigned U64_MAX number) (NonIntegerLexeme name) ;;
  refuse (value <? min) || (max <? value) with OutOfPolicy name value ;;
  Ok value.

Definition from_open_payload (p : LexicalValue) : result EngineIoOpen SessionError :=
  sid <-? read_text p (lit "sid") ;;
  interval <-? read_bounded_integer p (lit "pingInterval") PING_INTERVAL_MS_MIN
                 PING_INTERVAL_MS_MAX ;;
  timeout <-? read_bounded_integer p (lit "pingTimeout") PING_TIMEOUT_MS_MIN
                PING_TIMEOUT_MS_MAX ;;
  limit <-? read_bounded_integer p (lit "maxPayload") MAX_PAYLOAD_BYTES_MIN
              MAX_PAYLOAD_BYTES_MAX ;;
  Ok {| sid := sid; ping_interval_ms := interval; ping_timeout_ms := timeout;
        max_payload_bytes := limit |}.

(** In milliseconds; the addition is one of [u64]. *)
Definition heartbeat_deadline (self : EngineIoOpen) : Z :=
  (self.(ping_interval_ms) + self.(ping_timeout_ms)) mod (U64_MAX + 1).

Definition encode_namespace_connect (name : bytes) : bytes := lit "40" ++ name ++ lit ",".
Definition encode_namespace_disconnect (name : bytes) : bytes := lit "41" ++ name ++ lit ",".
Definition encode_engine_pong : bytes := lit "3".

(** The value [json!] builds; its text is the JSON library's. *)
Definition subscribe_payload (slugs : list bytes) : LexicalValue :=
  Array [Text (lit "subscribe_market_prices");
         Object [(lit "marketSlugs", Array (Text <$> slugs))]].

Definition encode_subscribe_market_prices (json_text : LexicalValue -> bytes) (name : bytes)
    (slugs : list bytes) : bytes :=
  lit "42" ++ name ++ lit "," ++ json_text (subscribe_payload slugs).

Inductive TerminalFrameReason : Set :=
| EngineIoClose | NamespaceDisconnect | NamespaceConnectError.

Definition terminal_frame_reason (frame : DecodedFrame) (name : bytes) :
    option TerminalFrameReason :=
  match frame.(engine_io) with
  | Some EngineClose => Some EngineIoClose
  | Some EngineMessage =>
      match frame.(socket_io) with
      | Some Disconnect =>
          if bool_decide (frame.(namespace) = Some name) then Some NamespaceDisconnect else None
      | Some ConnectError =>
          if bool_decide (frame.(namespace) = Some name) then Some NamespaceConnectError else None
      | _ => None
      end
  | _ => None
  end.
