(* ===== verification/WireProps.v ===== *)
(** * The wire: frames and sessions

    What a decoded Socket.IO frame says of its bytes, that the packets this daemon writes
    decode to what they mean, and exactly which [open] packets are accepted. *)

From S2P Require Import Prelude Numeric Lexical LexicalProps SocketIo Session.

(** ** Splitting *)

Definition free_of (sep : Z) (l : bytes) : bool := forallb (fun b => negb (b =? sep)) l.

Lemma split_at_app sep a b : free_of sep a = true -> split_at sep (a ++ sep :: b) = Some (a, b).
Proof.
  intros Ha. unfold split_at.
  rewrite (count_while_all _ a (sep :: b)) by (done || by rewrite Z.eqb_refl).
  rewrite (proj2 (Nat.ltb_lt _ _)) by (rewrite length_app; simpl; lia).
  rewrite take_app_length. f_equal. f_equal.
  change (S (length a)) with (1 + length a)%nat. rewrite Nat.add_comm, <- drop_drop.
  by rewrite drop_app_length.
Qed.

Lemma split_at_Some sep l a b : split_at sep l = Some (a, b) ->
  l = a ++ sep :: b /\ free_of sep a = true.
Proof.
  unfold split_at. set (p := fun b => negb (b =? sep)).
  destruct (count_while_spec p l) as (_ & H2 & H3).
  destruct (Nat.ltb_spec (count_while p l) (length l)) as [Hlt|]; [|done].
  intros [= <- <-]. split; [|exact H2].
  destruct (drop (count_while p l) l) as [|x r] eqn:E.
  { apply (f_equal length) in E. rewrite length_drop in E. simpl in E. lia. }
  unfold p in H3. apply negb_false_iff, Z.eqb_eq in H3 as ->.
  rewrite <- (take_drop (count_while p l) l) at 1. rewrite E. do 2 f_equal.
  change (S (count_while p l)) with (1 + count_while p l)%nat. rewrite Nat.add_comm, <- drop_drop, E.
  done.
Qed.

(** ** Packet digits *)

Lemma engine_digit_inverse d p :
  engine_from_wire_digit d = Some p <-> d = engine_wire_digit p.
Proof.
  unfold engine_from_wire_digit. split.
  - intros H. repeat match type of H with
      (if d =? ?k then _ else _) = _ =>
        destruct (Z.eqb_spec d k) as [->|]; [by injection H as <-|]
    end. done.
  - intros ->. by destruct p.
Qed.

Lemma socket_digit_inverse d p :
  socket_from_wire_digit d = Some p <-> d = socket_wire_digit p.
Proof.
  unfold socket_from_wire_digit. split.
  - intros H. repeat match type of H with
      (if d =? ?k then _ else _) = _ =>
        destruct (Z.eqb_spec d k) as [->|]; [by injection H as <-|]
    end. done.
  - intros ->. by destruct p.
Qed.

(** ** The pieces of a Socket.IO packet *)

(** The bytes of each optional piece, and what they were read as. *)
Definition attachment_piece (packet : SocketIoPacket) (count : Z) (b : bytes) : Prop :=
  if carries_binary_attachments packet
  then exists digits, b = digits ++ [45] /\ free_of 45 digits = true /\
         parse_unsigned U16_MAX digits = Some count
  else b = [] /\ count = 0.

Definition namespace_piece (name : option bytes) (b : bytes) : Prop :=
  match name with
  | Some n => b = n ++ [44] /\ head n = Some 47 /\ free_of 44 n = true /\ utf8_valid n = true
  | None => b = []
  end.

Definition acknowledgment_piece (id : option Z) (b : bytes) : Prop :=
  match id with
  | Some i => digit_run b /\ parse_unsigned U64_MAX b = Some i
  | None => b = []
  end.

Definition payload_piece (limits : LexicalLimits) (p : option LexicalValue) (b : bytes) : Prop :=
  match p with
  | Some v => b <> [] /\ parse_lexical b limits = Some (Ok v)
  | None => b = []
  end.

Lemma read_attachments_Ok packet rest count rest' :
  read_attachments packet rest = Ok (count, rest') ->
  exists b, rest = b ++ rest' /\ attachment_piece packet count b.
Proof.
  unfold read_attachments, attachment_piece. intros H.
  destruct (carries_binary_attachments packet).
  - destruct (split_at 45 rest) as [[digits r]|] eqn:Es; [|done]. simpl in H.
    destruct (negb _); [done|]. destruct (parse_unsigned _ _) as [c|] eqn:Ep; [|done].
    injection H as <- <-. apply split_at_Some in Es as [-> Hf].
    exists (digits ++ [45]). split; [by rewrite <- app_assoc|by exists digits].
  - injection H as <- <-. by exists [].
Qed.

Lemma read_namespace_Ok rest name rest' : read_namespace rest = Ok (name, rest') ->
  exists b, rest = b ++ rest' /\ namespace_piece name b.
Proof.
  unfold read_namespace, namespace_piece. case_bool_decide as Eh; intros H.
  - destruct (split_at 44 rest) as [[n r]|] eqn:Es; [|done]. simpl in H.
    destruct (utf8_valid n) eqn:Eu; [|done]. injection H as <- <-.
    apply split_at_Some in Es as [-> Hf]. exists (n ++ [44]).
    split; [by rewrite <- app_assoc|]. split_and!; try done. by destruct n.
  - injection H as <- <-. by exists [].
Qed.

Lemma read_acknowledgment_Ok rest id rest' : read_acknowledgment rest = Ok (id, rest') ->
  exists b, rest = b ++ rest' /\ acknowledgment_piece id b /\ digit_stop rest'.
Proof.
  unfold read_acknowledgment, acknowledgment_piece.
  destruct (count_while_spec is_ascii_digit rest) as (H1 & H2 & H3).
  destruct (Nat.ltb_spec 0 (count_while is_ascii_digit rest)) as [Hlt|Hle]; intros H.
  - destruct (negb _); [done|]. destruct (parse_unsigned _ _) as [i|] eqn:Ep; [|done].
    injection H as <- <-. eexists. split; [by rewrite take_drop|]. split; [|exact H3].
    split; [|exact Ep]. split; [|exact H2]. intros E. apply (f_equal length) in E.
    rewrite length_take in E. simpl in E. lia.
  - injection H as <- <-. exists []. split_and!; try done.
    replace (count_while is_ascii_digit rest) with 0%nat in H3 by lia. exact H3.
Qed.

(** What a frame of a packet carries, given its payload. *)
Definition carried (packet : SocketIoPacket) (p : option LexicalValue) (f : DecodedFrame) :
    Prop :=
  if carries_event_name packet
  then exists name arguments, p = Some (Array (Text name :: arguments)) /\
         f.(event_name) = Some name /\ f.(payload) = head arguments /\
         f.(extra_arguments) = tail arguments
  else f.(event_name) = None /\ f.(payload) = p /\ f.(extra_arguments) = [].

Lemma decode_socket_io_Ok engine input limits f :
  decode_socket_io engine input limits = Some (Ok f) ->
  exists packet a n k j p, f.(socket_io) = Some packet /\ f.(engine_io) = Some engine /\
    input = socket_wire_digit packet :: a ++ n ++ k ++ j /\
    attachment_piece packet f.(binary_attachments) a /\ namespace_piece f.(namespace) n /\
    acknowledgment_piece f.(acknowledgment_id) k /\ payload_piece limits p j /\
    carried packet p f.
Proof.
  unfold decode_socket_io. intros H. destruct input as [|first rest]; [done|].
  destruct (socket_from_wire_digit first) as [packet|] eqn:Ed; [|done]. simpl in H.
  apply socket_digit_inverse in Ed as ->.
  destruct (read_attachments packet rest) as [[count r1]|] eqn:E1; [|done].
  apply read_attachments_Ok in E1 as (a & -> & Ha).
  destruct (read_namespace r1) as [[name r2]|] eqn:E2; [|done].
  apply read_namespace_Ok in E2 as (n & -> & Hn).
  destruct (read_acknowledgment r2) as [[id r3]|] eqn:E3; [|done].
  apply read_acknowledgment_Ok in E3 as (k & -> & Hk & _).
  match type of H with match ?m with _ => _ end = _ => destruct m as [[p|]|] eqn:Ep end; [|done..].
  assert (Hp : payload_piece limits p r3).
  { case_bool_decide as En; [injection Ep as <-; exact En|].
    destruct (parse_lexical r3 limits) as [[v|]|] eqn:Epl; [|done..]. by injection Ep as <-. }
  destruct (read_event packet p) as [[event [arg extra]]|] eqn:Ee; [|done]. injection H as <-.
  exists packet, a, n, k, r3, p. split_and!; try done.
  unfold read_event in Ee. unfold carried. destruct (carries_event_name packet).
  - destruct p as [v|]; [|done]. destruct v as [| | | |vs|]; try done. simpl in Ee.
    destruct vs as [|v vs]; [done|]. destruct v; try done. injection Ee as <- <- <-.
    exists text, vs. split_and!; try done; by destruct vs.
  - by injection Ee as <- <- <-.
Qed.

(** A decoded Socket.IO frame says exactly what its bytes say: the input is the message
    digit, the digit of the reported packet, and then, in order, the attachment count of a
    binary packet and of no other, the namespace, the acknowledgement id and the JSON payload
    it reports — each absent from the bytes exactly when absent from the frame — and an event's
    name, first argument and further arguments are those of its JSON array. *)
Theorem decode_frame_sound input opcode limits f packet :
  decode_frame input opcode limits = Some (Ok f) -> f.(socket_io) = Some packet ->
  carries_application_payload opcode = true /\ f.(engine_io) = Some EngineMessage /\
  exists a n k j p,
    input = engine_wire_digit EngineMessage :: socket_wire_digit packet :: a ++ n ++ k ++ j /\
    attachment_piece packet f.(binary_attachments) a /\ namespace_piece f.(namespace) n /\
    acknowledgment_piece f.(acknowledgment_id) k /\ payload_piece limits p j /\
    carried packet p f.
Proof.
  intros H Hs. unfold decode_frame in H.
  destruct (carries_application_payload opcode); cbn [negb] in H; [|by injection H as <-].
  destruct input as [|first rest]; [done|].
  destruct (engine_from_wire_digit first) as [engine|] eqn:Ed; [|done].
  apply engine_digit_inverse in Ed as ->.
  destruct engine.
  1: destruct (parse_lexical rest limits) as [[v|]|]; [by injection H as <-|done..].
  1-3, 5-6: case_bool_decide; [by injection H as <-|done].
  apply decode_socket_io_Ok in H as (packet' & a & n & k & j & p & Hp & He & -> & H).
  rewrite Hs in Hp. injection Hp as <-. split; [done|]. split; [done|].
  by exists a, n, k, j, p.
Qed.

(** ** The packets this daemon writes *)

(** A namespace that can be written: a slash first, no comma, valid UTF-8. *)
Definition namespace_text (n : bytes) : Prop :=
  head n = Some 47 /\ free_of 44 n = true /\ utf8_valid n = true.

Lemma read_namespace_at n r : namespace_text n -> read_namespace (n ++ 44 :: r) = Ok (Some n, r).
Proof.
  intros (Hh & Hf & Hu). unfold read_namespace.
  rewrite bool_decide_true by (by destruct n). rewrite split_at_app by done. simpl. by rewrite Hu.
Qed.

(** A control packet in a namespace, nothing after it. *)
Lemma decode_control limits packet n : carries_binary_attachments packet = false ->
  carries_event_name packet = false -> namespace_text n ->
  decode_frame (52 :: socket_wire_digit packet :: n ++ [44]) TextFrame limits =
  Some (Ok {| engine_io := Some EngineMessage; socket_io := Some packet; namespace := Some n;
              acknowledgment_id := None; binary_attachments := 0; event_name := None;
              payload := None; extra_arguments := [] |}).
Proof.
  intros Hb He Hn. unfold decode_frame. cbn [carries_application_payload negb].
  change (engine_from_wire_digit 52) with (Some EngineMessage). cbn iota.
  unfold decode_socket_io. rewrite (proj2 (socket_digit_inverse _ packet) eq_refl).
  cbn [ok_or]. unfold read_attachments. rewrite Hb. cbn iota. rewrite read_namespace_at by done.
  change (read_acknowledgment []) with (Ok (None, []) : result (option Z * bytes) FrameError).
  cbn iota. rewrite bool_decide_true by done. unfold read_event. by rewrite He.
Qed.

(** An event in a namespace with a JSON payload. *)
Lemma decode_event limits n j name arguments : limits_wf limits -> namespace_text n ->
  len j <= limits.(max_bytes) -> spells limits 0 (Array (Text name :: arguments)) j ->
  decode_frame (52 :: 50 :: n ++ 44 :: j) TextFrame limits =
  Some (Ok {| engine_io := Some EngineMessage; socket_io := Some Event; namespace := Some n;
              acknowledgment_id := None; binary_attachments := 0; event_name := Some name;
              payload := head arguments; extra_arguments := tail arguments |}).
Proof.
  intros Hl Hn Hlen Hs. unfold decode_frame. cbn [carries_application_payload negb].
  change (engine_from_wire_digit 52) with (Some EngineMessage). cbn iota.
  unfold decode_socket_io. change (socket_from_wire_digit 50) with (Some Event). cbn [ok_or].
  unfold read_attachments. cbn [carries_binary_attachments]. rewrite read_namespace_at by done.
  assert (Hj : exists y, j = 91 :: y) by (inversion Hs; by eexists).
  destruct Hj as [y Hy].
  assert (Ha : read_acknowledgment j = Ok (None, j)) by (by rewrite Hy).
  rewrite Ha. cbn iota. rewrite bool_decide_false by (by rewrite Hy).
  assert (Hp : parse_lexical j limits = Some (Ok (Array (Text name :: arguments)))).
  { apply parse_lexical_iff; [done|]. split; [done|]. exists [], j, [].
    by rewrite app_nil_r. }
  rewrite Hp. simpl. by destruct arguments.
Qed.

(** The daemon's own packets decode to what they are written for: a namespace connect and
    a namespace disconnect to that packet of that namespace, the latter ending the session of
    that namespace and of no other; a pong to a pong; and a market subscription, whenever the
    JSON library spells the value it is given, to the event of that name whose one argument
    lists exactly the slugs. *)
Theorem written_packets_decode limits n slugs json_text : limits_wf limits -> namespace_text n ->
  spells limits 0 (subscribe_payload slugs) (json_text (subscribe_payload slugs)) ->
  len (json_text (subscribe_payload slugs)) <= limits.(max_bytes) ->
  (exists f, decode_frame (encode_namespace_connect n) TextFrame limits = Some (Ok f) /\
     f.(socket_io) = Some Connect /\ f.(namespace) = Some n /\
     forall m, terminal_frame_reason f m = None) /\
  (exists f, decode_frame (encode_namespace_disconnect n) TextFrame limits = Some (Ok f) /\
     f.(socket_io) = Some Disconnect /\
     forall m, terminal_frame_reason f m = if bool_decide (n = m) then Some NamespaceDisconnect else None) /\
  (exists f, decode_frame encode_engine_pong TextFrame limits = Some (Ok f) /\
     f.(engine_io) = Some EnginePong) /\
  (exists f, decode_frame (encode_subscribe_market_prices json_text n slugs) TextFrame limits
       = Some (Ok f) /\
     f.(socket_io) = Some Event /\ f.(namespace) = Some n /\
     f.(event_name) = Some (lit "subscribe_market_prices") /\
     (f.(payload) ≫= field (lit "marketSlugs")) = Some (Array (Text <$> slugs)) /\
     f.(extra_arguments) = []).
Proof.
  intros Hl Hn Hs Hlen. split_and!.
  - exists {| engine_io := Some EngineMessage; socket_io := Some Connect; namespace := Some n;
              acknowledgment_id := None; binary_attachments := 0; event_name := None;
              payload := None; extra_arguments := [] |}.
    split; [by apply (decode_control limits Connect)|done].
  - exists {| engine_io := Some EngineMessage; socket_io := Some Disconnect; namespace := Some n;
              acknowledgment_id := None; binary_attachments := 0; event_name := None;
              payload := None; extra_arguments := [] |}.
    split; [by apply (decode_control limits Disconnect)|split; [done|]]. intros m.
    unfold terminal_frame_reason. cbn [engine_io socket_io namespace].
    destruct (decide (n = m)) as [->|];
      [by rewrite !bool_decide_true by done|by rewrite !bool_decide_false by congruence].
  - by eexists.
  - eexists. split; [by apply (decode_event limits n)|]. done.
Qed.

(** ** The open packet *)

(** A numeric field of the payload: a plain decimal integer within the bounds. *)
Definition integer_field (p : LexicalValue) (name : bytes) (min max value : Z) : Prop :=
  exists lexeme, field name p = Some (Number lexeme) /\
    parse_unsigned U64_MAX lexeme = Some value /\ min <= value <= max.

Lemma read_bounded_integer_Ok p name min max value :
  read_bounded_integer p name min max = Ok value <-> integer_field p name min max value.
Proof.
  unfold read_bounded_integer, integer_field. split.
  - intros H. destruct (field name p) as [[]|]; try done.
    destruct (parse_unsigned _ _) as [v|] eqn:Ev; [|done]. simpl in H.
    destruct (_ || _) eqn:Eb; [done|]. injection H as ->. bool_facts.
    exists lexeme. split_and!; done || lia.
  - intros (lexeme & -> & -> & H). simpl.
    by assert ((value <? min) || (max <? value) = false) as ->
      by (apply orb_false_iff; split; apply Z.ltb_ge; lia).
Qed.

(** An [open] packet is accepted exactly when its payload has a textual session id and the
    three numeric fields as plain integers within policy; the accepted session reports those
    values, and its heartbeat deadline is their exact sum, between two seconds and ten
    minutes. *)
Theorem open_payload_exact p s : from_open_payload p = Ok s <->
  field (lit "sid") p = Some (Text s.(sid)) /\
  integer_field p (lit "pingInterval") 1000 300000 s.(ping_interval_ms) /\
  integer_field p (lit "pingTimeout") 1000 300000 s.(ping_timeout_ms) /\
  integer_field p (lit "maxPayload") 1024 16777216 s.(max_payload_bytes) /\
  heartbeat_deadline s = s.(ping_interval_ms) + s.(ping_timeout_ms) /\
  2000 <= heartbeat_deadline s <= 600000.
Proof.
  unfold from_open_payload, read_text. split.
  - intros H. destruct (field (lit "sid") p) as [[]|]; try done.
    destruct (read_bounded_integer _ (lit "pingInterval") _ _) as [i|] eqn:Ei; [|done].
    destruct (read_bounded_integer _ (lit "pingTimeout") _ _) as [t|] eqn:Et; [|done].
    destruct (read_bounded_integer _ (lit "maxPayload") _ _) as [m|] eqn:Em; [|done].
    injection H as <-. apply read_bounded_integer_Ok in Ei, Et, Em.
    assert (Hd : (i + t) mod (U64_MAX + 1) = i + t /\ 2000 <= i + t <= 600000).
    { destruct Ei as (_ & _ & _ & Hi), Et as (_ & _ & _ & Ht).
      unfold PING_INTERVAL_MS_MIN, PING_INTERVAL_MS_MAX, PING_TIMEOUT_MS_MIN, PING_TIMEOUT_MS_MAX in *.
      split; [|lia]. apply Z.mod_small. bounds. lia. }
    unfold heartbeat_deadline. simpl. destruct Hd as [-> ?]. split_and!; done || lia.
  - intros (-> & Hi & Ht & Hm & _). apply read_bounded_integer_Ok in Hi, Ht, Hm.
    unfold PING_INTERVAL_MS_MIN, PING_INTERVAL_MS_MAX, PING_TIMEOUT_MS_MIN, PING_TIMEOUT_MS_MAX,
      MAX_PAYLOAD_BYTES_MIN, MAX_PAYLOAD_BYTES_MAX.
    rewrite Hi, Ht. change (16 * 1024 * 1024) with 16777216. rewrite Hm. by destruct s.
Qed.

(** ** Witnesses *)

(** [42/markets,7["tick",1]]. *)
Definition sample_frame : bytes :=
  lit "42/markets,7[" ++ [34] ++ lit "tick" ++ [34] ++ lit ",1]".
Definition sample_decoded : DecodedFrame :=
  {| engine_io := Some EngineMessage; socket_io := Some Event; namespace := Some (lit "/markets");
     acknowledgment_id := Some 7; binary_attachments := 0; event_name := Some (lit "tick");
     payload := Some (Number (lit "1")); extra_arguments := [] |}.

Lemma decode_frame_sound_witness :
  decode_frame sample_frame TextFrame venue_payload = Some (Ok sample_decoded) /\
  exists a n k j p,
    sample_frame = 52 :: 50 :: a ++ n ++ k ++ j /\ namespace_piece (Some (lit "/markets")) n /\
    payload_piece venue_payload p j.
Proof.
  split; [vm_compute; reflexivity|].
  destruct (decode_frame_sound sample_frame TextFrame venue_payload sample_decoded Event
    ltac:(vm_compute; reflexivity) eq_refl) as (_ & _ & a & n & k & j & p & H1 & _ & H2 & _ & H3 & _).
  exists a, n, k, j, p. split; [exact H1|]. split; [exact H2|exact H3].
Defined.

(** [["subscribe_market_prices",{"marketSlugs":["btc"]}]], as the library prints it. *)
Definition quote (s : bytes) : bytes := 34 :: s ++ [34].
Definition sample_text (v : LexicalValue) : bytes :=
  lit "[" ++ quote (lit "subscribe_market_prices") ++ lit ",{" ++ quote (lit "marketSlugs")
  ++ lit ":[" ++ quote (lit "btc") ++ lit "]}]".

Lemma sample_text_spells :
  spells venue_payload 0 (subscribe_payload [lit "btc"]) (sample_text (subscribe_payload [lit "btc"])).
Proof.
  destruct (proj1 (parse_lexical_iff (sample_text (subscribe_payload [lit "btc"])) venue_payload
    (subscribe_payload [lit "btc"]) venue_payload_wf) ltac:(vm_compute; reflexivity))
    as (_ & w & b & w' & Hw & Hw' & E & Hs).
  assert (Hw0 : w = []).
  { destruct w as [|x w]; [done|]. injection E as <- E. done. }
  subst w. simpl in E.
  assert (Hw1 : w' = []).
  { destruct (spells_head _ _ _ _ Hs) as (x & y & -> & _).
    destruct w' as [|z w' _] using rev_ind; [done|].
    apply (f_equal last) in E. rewrite app_assoc, last_snoc in E.
    assert (Ez : z = 93) by (vm_compute in E; congruence). subst z.
    unfold blank in Hw'. rewrite forallb_app in Hw'. simpl in Hw'. by rewrite andb_false_r in Hw'. }
  subst w'. rewrite app_nil_r in E. by rewrite E.
Qed.

Lemma written_packets_decode_witness :
  exists f, decode_frame (encode_subscribe_market_prices sample_text (lit "/markets") [lit "btc"])
      TextFrame venue_payload = Some (Ok f) /\
    (f.(payload) ≫= field (lit "marketSlugs")) = Some (Array [Text (lit "btc")]).
Proof.
  destruct (written_packets_decode venue_payload (lit "/markets") [lit "btc"] sample_text
    venue_payload_wf ltac:(split; [reflexivity|split; reflexivity]) sample_text_spells
    ltac:(vm_compute; discriminate)) as (_ & _ & _ & f & H1 & _ & _ & _ & H2 & _).
  exists f. split; [exact H1|exact H2].
Defined.

Definition sample_open : LexicalValue :=
  Object [(lit "sid", Text (lit "x1")); (lit "pingInterval", Number (lit "25000"));
          (lit "pingTimeout", Number (lit "20000")); (lit "maxPayload", Number (lit "1000000"))].

Lemma open_payload_exact_witness :
  exists s, from_open_payload sample_open = Ok s /\ heartbeat_deadline s = 45000.
Proof.
  exists {| sid := lit "x1"; ping_interval_ms := 25000; ping_timeout_ms := 20000;
            max_payload_bytes := 1000000 |}.
  assert (H : from_open_payload sample_open = Ok {| sid := lit "x1"; ping_interval_ms := 25000;
            ping_timeout_ms := 20000; max_payload_bytes := 1000000 |}) by (vm_compute; reflexivity).
  split; [exact H|]. destruct (proj1 (open_payload_exact _ _) H) as (_ & _ & _ & _ & -> & _).
  reflexivity.
Defined.
