(* ===== verification/Limitless.v ===== *)
(** * The venue's events ([src/src/limitless.rs])

    What a decoded frame of the venue's [/markets] namespace means: a book snapshot, a market
    resolution, or an event outside the daemon's scope; and the candidate a snapshot
    becomes. The definitions first, then what they accept and that a book they accept is
    one the order book takes. *)

From S2P Require Import Prelude OrdMap Numeric Identity Descriptor DedupKey Continuity Observation Book BookProps Lexical SocketIo.

(** ** Data *)

Definition MARKETS_NAMESPACE : bytes := lit "/markets".
Definition VENUE : bytes := lit "limitless".

Definition ORDERBOOK_UPDATE_DEDUP_KEY : DedupKeyDeclaration :=
  {| decl_venue := VENUE; decl_family := lit "orderbookUpdate"; decl_field := lit "version";
     semantics := SessionMonotone |}.

(** [None] is the panic of [expect]. *)
Definition venue_decimal_grammar : option DecimalGrammar := ok (grammar_new 18 30 true false).

Record OrderbookUpdate : Set := {
  market_slug : bytes;
  token_id : option bytes;
  bids : list (Price * Quantity);
  asks : list (Price * Quantity);
  timestamp : bytes;
  version : option bytes
}.

Record MarketResolved : Set := {
  slug : bytes;
  market_type : bytes;
  winning_outcome : bytes;
  resolved_index : Z;           (* u32 *)
  resolved_date : bytes
}.

Inductive LimitlessEvent : Set :=
| OrderbookUpdateEvent (update : OrderbookUpdate)
| MarketResolvedEvent (resolved : MarketResolved)
| UnknownEvent (name : bytes).

Inductive LimitlessDecodeError : Set :=
| NotAnEvent
| InvalidField (field : bytes)
| DecimalFault (field : bytes) (source : DecimalError)
| PriceOutOfDomain (field : bytes)
| LevelOrdering (side : Side).

(** ** Fields *)

Definition text_field (value : LexicalValue) (name : bytes) :
    result bytes LimitlessDecodeError :=
  ok_or (field name value ≫= as_text) (InvalidField name).

Definition number_field (value : LexicalValue) (name : bytes) :
    result bytes LimitlessDecodeError :=
  ok_or (field name value ≫= as_number) (InvalidField name).

Definition optional_number_field (value : LexicalValue) (name : bytes) :
    result (option bytes) LimitlessDecodeError :=
  match field name value with
  | None => Ok None
  | Some (Number number) => Ok (Some number)
  | Some _ => Err (InvalidField name)
  end.

Definition optional_text_field (value : LexicalValue) (name : bytes) :
    result (option bytes) LimitlessDecodeError :=
  match field name value with
  | None => Ok None
  | Some (Text text) => Ok (Some text)
  | Some _ => Err (InvalidField name)
  end.

(** ** Levels *)

(** A price and the last one before it on its side. *)
Definition in_order (s : Side) (last price : Price) : bool :=
  match s with
  | Bid => bool_decide (decimal_cmp price.(price_value) last.(price_value) = Lt)
  | Ask => bool_decide (decimal_cmp price.(price_value) last.(price_value) = Gt)
  end.

Fixpoint decode_entries (g : DecimalGrammar) (domain_upper_bound : Price) (s : Side)
    (levels : list (Price * Quantity)) (array : list LexicalValue) :
    result (list (Price * Quantity)) LimitlessDecodeError :=
  match array with
  | [] => Ok levels
  | entry :: rest =>
      price_lexeme <-? number_field entry (lit "price") ;;
      price <-? map_err (DecimalFault (lit "price")) (price_parse price_lexeme g) ;;
      refuse bool_decide (decimal_cmp price.(price_value) domain_upper_bound.(price_value) = Gt)
        with PriceOutOfDomain (lit "price") ;;
      size_lexeme <-? number_field entry (lit "size") ;;
      quantity <-? map_err (DecimalFault (lit "size")) (quantity_parse size_lexeme g) ;;
      refuse match last levels with
             | Some (last_price, _) => negb (in_order s last_price price)
             | None => false
             end with LevelOrdering s ;;
      decode_entries g domain_upper_bound s (levels ++ [(price, quantity)]) rest
  end.

(** [None] where an [expect] panics. *)
Definition decode_levels (orderbook : LexicalValue) (name : bytes) (s : Side) :
    option (result (list (Price * Quantity)) LimitlessDecodeError) :=
  match field name orderbook ≫= as_array with
  | None => Some (Err (InvalidField name))
  | Some array =>
      g ← venue_decimal_grammar;
      domain_upper_bound ← ok (price_parse (lit "1") g);
      Some (decode_entries g domain_upper_bound s [] array)
  end.

(** ** Events *)

Definition decode_orderbook_update (frame : DecodedFrame) :
    option (result OrderbookUpdate LimitlessDecodeError) :=
  match
    payload <-? ok_or frame.(payload) (InvalidField (lit "payload")) ;;
    slug <-? text_field payload (lit "marketSlug") ;;
    orderbook <-? ok_or (field (lit "orderbook") payload) (InvalidField (lit "orderbook")) ;;
    token <-? optional_text_field orderbook (lit "tokenId") ;;
    Ok (payload, slug, orderbook, token)
  with
  | Err e => Some (Err e)
  | Ok (payload, slug, orderbook, token) =>
      bids ← decode_levels orderbook (lit "bids") Bid;
      match bids with
      | Err e => Some (Err e)
      | Ok bids =>
          asks ← decode_levels orderbook (lit "asks") Ask;
          Some (asks <-? asks ;;
                timestamp <-? text_field payload (lit "timestamp") ;;
                version <-? optional_number_field payload (lit "version") ;;
                Ok {| market_slug := slug; token_id := token; bids := bids; asks := asks;
                      timestamp := timestamp; version := version |})
      end
  end.

Definition decode_market_resolved (frame : DecodedFrame) :
    result MarketResolved LimitlessDecodeError :=
  payload <-? ok_or frame.(payload) (InvalidField (lit "payload")) ;;
  slug <-? text_field payload (lit "slug") ;;
  market_type <-? text_field payload (lit "type") ;;
  winning_outcome <-? text_field payload (lit "winningOutcome") ;;
  lexeme <-? number_field payload (lit "winningIndex") ;;
  index <-? ok_or (parse_unsigned U32_MAX lexeme) (InvalidField (lit "winningIndex")) ;;
  date <-? text_field payload (lit "resolutionDate") ;;
  Ok {| slug := slug; market_type := market_type; winning_outcome := winning_outcome;
        resolved_index := index; resolved_date := date |}.

Definition decode_event (frame : DecodedFrame) :
    option (result LimitlessEvent LimitlessDecodeError) :=
  if negb (bool_decide (frame.(namespace) = Some MARKETS_NAMESPACE)) then Some (Err NotAnEvent)
  else
    match frame.(event_name) with
    | None => Some (Err NotAnEvent)
    | Some name =>
        if bool_decide (name = lit "orderbookUpdate")
        then res_map OrderbookUpdateEvent <$> decode_orderbook_update frame
        else if bool_decide (name = lit "marketResolved")
        then Some (res_map MarketResolvedEvent (decode_market_resolved frame))
        else Some (Ok (UnknownEvent name))
    end.

(** ** What a snapshot becomes *)

(** [Option::transpose]. *)
Definition transpose {A E} (o : option (result A E)) : result (option A) E :=
  match o with
  | None => Ok None
  | Some r => res_map Some r
  end.

Definition dedup_key (self : OrderbookUpdate) : result (option DedupKey) DedupKeyError :=
  transpose (parse_exact_integer <$> self.(version)).

Definition version_evidence (self : OrderbookUpdate) :
    result (option SourceEvidence) DescriptorError :=
  transpose ((fun value => res_map Version (source_evidence_value_new value))
               <$> self.(version)).

Definition side_level (s : Side) (l : Price * Quantity) : Level :=
  {| side := s; price := l.1; quantity := l.2 |}.
Definition update_levels (self : OrderbookUpdate) : list Level :=
  (side_level Bid <$> self.(bids)) ++ (side_level Ask <$> self.(asks)).

Definition snapshot_candidate (self : OrderbookUpdate) (provenance : Provenance)
    (capacity : LevelCapacity) : result Candidate ObservationError :=
  refuse negb match provenance.(representation), provenance.(origin) with
              | VenueNative, SourceReported => true
              | _, _ => false
              end with InvalidOrigin ;;
  levels <-? bounded_levels_new (update_levels self) capacity ;;
  candidate_snapshot provenance levels.

(** ** What the venue reported *)

(** The grammar of [venue_decimal_grammar], and its domain bound 1. *)
Definition venue_grammar : DecimalGrammar :=
  {| max_scale := 18; max_digits := 30; allow_exponent := true; allow_negative := false;
     max_lexeme_bytes := 128; max_exponent_digits := 5; max_exponent_magnitude := 99999 |}.

Lemma venue_grammar_built : venue_decimal_grammar = Some venue_grammar.
Proof. reflexivity. Qed.
Lemma domain_bound_parses : price_parse (lit "1") venue_grammar = Ok {| price_value := unit_price |}.
Proof. reflexivity. Qed.

(** The order of the rationals two prices denote. *)
Definition value_lt (p q : Price) : Prop :=
  p.(price_value).(coefficient) * 10 ^ q.(price_value).(scale)
  < q.(price_value).(coefficient) * 10 ^ p.(price_value).(scale).

(** The venue's order of a side: the best price first. *)
Definition before (s : Side) (p q : Price) : Prop :=
  match s with Bid => value_lt q p | Ask => value_lt p q end.

(** An entry of the book as the venue spells it: a price between 0 and 1 and a size. *)
Definition reports_level (entry : LexicalValue) (l : Price * Quantity) : Prop :=
  exists price size,
    field (lit "price") entry = Some (Number price) /\ price_parse price venue_grammar = Ok l.1 /\
    l.1.(price_value).(coefficient) <= 10 ^ l.1.(price_value).(scale) /\
    field (lit "size") entry = Some (Number size) /\ quantity_parse size venue_grammar = Ok l.2.

(** A side of the book: every entry, in the order reported, strictly from the best price on. *)
Definition reports_side (orderbook : LexicalValue) (name : bytes) (s : Side)
    (ls : list (Price * Quantity)) : Prop :=
  exists entries, field name orderbook = Some (Array entries) /\
    Forall2 reports_level entries ls /\ StronglySorted (before s) ls.*1.

(** A field that may be absent but is of its kind when present. *)
Definition reports_optional (kind : bytes -> LexicalValue) (value : LexicalValue) (name : bytes)
    (o : option bytes) : Prop := field name value = kind <$> o.

Definition reports_update (payload : LexicalValue) (u : OrderbookUpdate) : Prop :=
  field (lit "marketSlug") payload = Some (Text u.(market_slug)) /\
  field (lit "timestamp") payload = Some (Text u.(timestamp)) /\
  reports_optional Number payload (lit "version") u.(version) /\
  exists orderbook, field (lit "orderbook") payload = Some orderbook /\
    reports_optional Text orderbook (lit "tokenId") u.(token_id) /\
    reports_side orderbook (lit "bids") Bid u.(bids) /\
    reports_side orderbook (lit "asks") Ask u.(asks).

Definition reports_resolution (payload : LexicalValue) (m : MarketResolved) : Prop :=
  field (lit "slug") payload = Some (Text m.(slug)) /\
  field (lit "type") payload = Some (Text m.(market_type)) /\
  field (lit "winningOutcome") payload = Some (Text m.(winning_outcome)) /\
  (exists lexeme, field (lit "winningIndex") payload = Some (Number lexeme) /\
     parse_unsigned U32_MAX lexeme = Some m.(resolved_index)) /\
  field (lit "resolutionDate") payload = Some (Text m.(resolved_date)).

(** ** Fields *)

Lemma text_field_Ok v name t : text_field v name = Ok t <-> field name v = Some (Text t).
Proof.
  unfold text_field. destruct (field name v) as [[]|]; simpl; split; congruence.
Qed.
Lemma number_field_Ok v name t : number_field v name = Ok t <-> field name v = Some (Number t).
Proof.
  unfold number_field. destruct (field name v) as [[]|]; simpl; split; congruence.
Qed.
Lemma optional_number_field_Ok v name o :
  optional_number_field v name = Ok o <-> reports_optional Number v name o.
Proof.
  unfold optional_number_field, reports_optional.
  destruct (field name v) as [[]|], o; simpl; split; congruence.
Qed.
Lemma optional_text_field_Ok v name o :
  optional_text_field v name = Ok o <-> reports_optional Text v name o.
Proof.
  unfold optional_text_field, reports_optional.
  destruct (field name v) as [[]|], o; simpl; split; congruence.
Qed.

(** ** Levels *)

Lemma newtype_parse_wf lexeme g d : newtype_parse lexeme g = Ok d -> 0 <= g.(max_scale) ->
  amount_wf d /\ d.(scale) <= g.(max_scale).
Proof.
  intros E Hg. apply parse_denotes in E as [(Hd & Hs & Hn & _) _].
  split; [split; [done|by apply Hn] | by apply Hs].
Qed.

Lemma price_parse_wf lexeme p : price_parse lexeme venue_grammar = Ok p ->
  price_wf p /\ p.(price_value).(scale) <= 18.
Proof.
  unfold price_parse. destruct (newtype_parse _ _) as [d|] eqn:E; [|done]. intros [= <-].
  by apply newtype_parse_wf in E.
Qed.

Lemma quantity_parse_wf lexeme q : quantity_parse lexeme venue_grammar = Ok q -> quantity_wf q.
Proof.
  unfold quantity_parse. destruct (newtype_parse _ _) as [d|] eqn:E; [|done]. intros [= <-].
  by apply newtype_parse_wf in E as [? _].
Qed.

Lemma reports_level_wf entry l : reports_level entry l ->
  price_wf l.1 /\ quantity_wf l.2 /\ l.1.(price_value).(scale) <= 18 /\
  l.1.(price_value).(coefficient) <= 10 ^ l.1.(price_value).(scale).
Proof.
  intros (p & s & _ & Hp & Hd & _ & Hq). apply price_parse_wf in Hp as []. by apply quantity_parse_wf in Hq.
Qed.

Lemma in_order_spec s last p : price_wf last -> price_wf p ->
  in_order s last p = true <-> before s last p.
Proof.
  intros [Hl _] [Hp _]. unfold in_order, before, value_lt.
  destruct s; rewrite bool_decide_eq_true, decimal_cmp_value by done;
    [rewrite Z.compare_lt_iff | rewrite Z.compare_gt_iff]; lia.
Qed.

Lemma in_domain p : price_wf p ->
  bool_decide (decimal_cmp p.(price_value) unit_price = Gt) = false <->
  p.(price_value).(coefficient) <= 10 ^ p.(price_value).(scale).
Proof.
  intros [Hp _]. rewrite bool_decide_eq_false, decimal_cmp_value; [|done|by split; simpl; bounds; lia || (left; done)].
  rewrite Z.compare_gt_iff. simpl. lia.
Qed.

(** One entry: what it adds, or the fault. *)
Lemma decode_entries_cons g one s acc entry array :
  decode_entries g one s acc (entry :: array) =
  (p <-? number_field entry (lit "price") ;;
   price <-? map_err (DecimalFault (lit "price")) (price_parse p g) ;;
   refuse bool_decide (decimal_cmp price.(price_value) one.(price_value) = Gt)
     with PriceOutOfDomain (lit "price") ;;
   size <-? number_field entry (lit "size") ;;
   quantity <-? map_err (DecimalFault (lit "size")) (quantity_parse size g) ;;
   refuse match last acc with
          | Some (last_price, _) => negb (in_order s last_price price)
          | None => false
          end with LevelOrdering s ;;
   decode_entries g one s (acc ++ [(price, quantity)]) array).
Proof. reflexivity. Qed.

Abbreviation entries_of := (decode_entries venue_grammar {| price_value := unit_price |}).

Lemma decode_entries_step s acc entry array ls :
  entries_of s acc (entry :: array) = Ok ls <->
  exists l, reports_level entry l /\
    match last acc with Some (p, _) => in_order s p l.1 = true | None => True end /\
    entries_of s (acc ++ [l]) array = Ok ls.
Proof.
  rewrite decode_entries_cons. split.
  - destruct (number_field entry (lit "price")) as [p|] eqn:Ep; [|done].
    destruct (price_parse p _) as [price|] eqn:Epp; [|done]. simpl map_err. cbn iota beta.
    destruct (bool_decide _) eqn:Ed; [done|].
    destruct (number_field entry (lit "size")) as [z|] eqn:Ez; [|done].
    destruct (quantity_parse z _) as [q|] eqn:Eq; [|done]. simpl map_err. cbn iota beta.
    destruct (match last acc with Some _ => _ | None => _ end) eqn:Eo; [done|]. intros H.
    exists (price, q). apply number_field_Ok in Ep, Ez.
    split; [exists p, z; split_and!; try done|split; [|done]].
    + apply (in_domain price); [|done]. by apply price_parse_wf in Epp as [? _].
    + destruct (last acc) as [[last_price ?]|]; [|done]. by apply negb_false_iff in Eo.
  - intros ([price q] & (p & z & Ep & Epp & Hd & Ez & Eq) & Ho & H). simpl in *.
    apply number_field_Ok in Ep as ->, Ez as ->. rewrite Epp. simpl map_err. cbn iota beta.
    apply (in_domain price) in Hd as ->; [|by apply price_parse_wf in Epp as [? _]].
    rewrite Eq. simpl map_err. cbn iota beta.
    destruct (last acc) as [[last_price ?]|]; [|done]. by rewrite Ho.
Qed.

Lemma value_lt_trans p q r : price_wf p -> price_wf q -> price_wf r ->
  value_lt p q -> value_lt q r -> value_lt p r.
Proof.
  intros [[_ Hp _] _] [[_ Hq _] _] [[_ Hr _] _]. unfold value_lt.
  apply cross_lt_trans; apply pow10_pos; lia.
Qed.

Lemma before_trans s p q r : price_wf p -> price_wf q -> price_wf r ->
  before s p q -> before s q r -> before s p r.
Proof. intros. destruct s; simpl in *; by eapply (value_lt_trans _ q). Qed.

(** The loop accepts the entries that each report a level, each after the one before. *)
Lemma decode_entries_Ok s array acc ls :
  (forall l, last acc = Some l -> price_wf l.1) ->
  entries_of s acc array = Ok ls <->
  exists rest, ls = acc ++ rest /\ Forall2 reports_level array rest /\ Sorted (before s) rest.*1 /\
    forall l, last acc = Some l -> HdRel (before s) l.1 rest.*1.
Proof.
  revert acc. induction array as [|entry array IH]; intros acc Hacc.
  { simpl. split.
    - intros [= <-]. exists []. rewrite app_nil_r. split_and!; repeat constructor.
    - intros (rest & -> & H & _). inversion H. by rewrite app_nil_r. }
  rewrite decode_entries_step. split.
  - intros (l & Hl & Ho & H). pose proof (reports_level_wf _ _ Hl) as (Hp & _).
    apply IH in H as (rest & -> & Hr & Hs & Hh); [|intros l'; rewrite last_snoc; by intros [= <-]].
    specialize (Hh l (last_snoc _ _)). exists (l :: rest). rewrite <- app_assoc.
    split_and!; [done|by constructor|by constructor|].
    intros [p q] E. rewrite E in Ho. constructor. by apply in_order_spec; [apply (Hacc _ E)| |].
  - intros (rest & -> & Hr & Hs & Hh). inversion Hr as [|? l ? rest' Hl Hr']; subst.
    pose proof (reports_level_wf _ _ Hl) as (Hp & _). exists l. split; [done|].
    simpl in Hs. inversion Hs as [|? ? Hs' Hh']; subst. split.
    + destruct (last acc) as [[p q]|] eqn:E; [|done]. specialize (Hh _ eq_refl). simpl in Hh.
      inversion Hh; subst. by apply in_order_spec; [apply (Hacc _ eq_refl)| |].
    + apply IH; [intros l'; rewrite last_snoc; by intros [= <-]|]. exists rest'.
      rewrite <- app_assoc. split_and!; try done. intros l'. rewrite last_snoc. by intros [= <-].
Qed.

Lemma reports_levels_wf array ls : Forall2 reports_level array ls ->
  Forall (fun l => price_wf l.1 /\ quantity_wf l.2 /\ l.1.(price_value).(scale) <= 18 /\
            l.1.(price_value).(coefficient) <= 10 ^ l.1.(price_value).(scale)) ls.
Proof. induction 1; constructor; auto. by eapply reports_level_wf. Qed.

(** Neighbours in order put a whole side in order. *)
Lemma side_sorted s (ls : list (Price * Quantity)) : Forall (fun l => price_wf l.1) ls ->
  Sorted (before s) ls.*1 <-> StronglySorted (before s) ls.*1.
Proof.
  intros Hwf. split; [|apply StronglySorted_Sorted].
  induction Hwf as [|l ls Hl Hls IH]; simpl; [constructor|].
  intros Hs. inversion Hs as [|? ? Hs' Hh]; subst. specialize (IH Hs'). constructor; [done|].
  destruct ls as [|l' ls]; [constructor|]. simpl in *. inversion Hh; subst.
  inversion Hls as [|? ? Hl' Hls']; subst. apply StronglySorted_inv in IH as [_ Hall].
  constructor; [done|]. apply Forall_forall. intros q Hq.
  apply list_elem_of_fmap in Hq as (e & -> & He). rewrite Forall_forall in Hls'. rewrite Forall_forall in Hall.
  apply (before_trans s l.1 l'.1 e.1); auto. apply Hall, list_elem_of_fmap. eauto.
Qed.

Lemma decode_levels_eq orderbook name s : decode_levels orderbook name s =
  Some match field name orderbook ≫= as_array with
       | None => Err (InvalidField name)
       | Some array => entries_of s [] array
       end.
Proof. unfold decode_levels. by destruct (_ ≫= as_array). Qed.

(** A side as its entries decode. *)
Definition side_of_book (orderbook : LexicalValue) (name : bytes) (s : Side) :
    result (list (Price * Quantity)) LimitlessDecodeError :=
  match field name orderbook ≫= as_array with
  | None => Err (InvalidField name)
  | Some array => entries_of s [] array
  end.

Lemma side_of_book_Ok orderbook name s ls :
  side_of_book orderbook name s = Ok ls <-> reports_side orderbook name s ls.
Proof.
  unfold reports_side, side_of_book.
  destruct (field name orderbook) as [[| | | |entries|]|]; simpl;
    try by (split; [done|]; intros (? & [=] & _)).
  rewrite decode_entries_Ok by done. split.
  - intros (rest & -> & Hr & Hs & _). exists entries. split_and!; try done.
    apply side_sorted; [|done]. eapply Forall_impl; [by eapply reports_levels_wf|]. by intros l (? & _).
  - intros (entries' & [= <-] & Hr & Hs). exists ls. split_and!; try done.
    apply StronglySorted_Sorted. done.
Qed.

(** ** Events *)

(** The first success of a chain of fallible reads. *)
Ltac read_step :=
  match goal with
  | H : match ?x with Ok _ => _ | Err _ => _ end = Ok _ |- _ =>
      let E := fresh "E" in destruct x eqn:E; [|discriminate H]
  end.

Lemma decode_orderbook_update_eq frame : decode_orderbook_update frame = Some (
  payload <-? ok_or frame.(payload) (InvalidField (lit "payload")) ;;
  slug <-? text_field payload (lit "marketSlug") ;;
  orderbook <-? ok_or (field (lit "orderbook") payload) (InvalidField (lit "orderbook")) ;;
  token <-? optional_text_field orderbook (lit "tokenId") ;;
  bids <-? side_of_book orderbook (lit "bids") Bid ;;
  asks <-? side_of_book orderbook (lit "asks") Ask ;;
  timestamp <-? text_field payload (lit "timestamp") ;;
  version <-? optional_number_field payload (lit "version") ;;
  Ok {| market_slug := slug; token_id := token; bids := bids; asks := asks;
        timestamp := timestamp; version := version |}).
Proof.
  unfold decode_orderbook_update. destruct (ok_or _ _) as [p|]; [|done].
  destruct (text_field p _); [|done]. destruct (ok_or (field _ p) _) as [ob|]; [|done].
  destruct (optional_text_field _ _); [|done]. rewrite !decode_levels_eq.
  fold (side_of_book ob (lit "bids") Bid). fold (side_of_book ob (lit "asks") Ask). simpl.
  destruct (side_of_book ob (lit "bids") Bid); done.
Qed.

Lemma decode_orderbook_update_Ok frame u : decode_orderbook_update frame = Some (Ok u) <->
  exists p, frame.(payload) = Some p /\ reports_update p u.
Proof.
  rewrite decode_orderbook_update_eq. unfold reports_update. split.
  - intros [= H]. repeat read_step. injection H as <-. simpl.
    apply ok_or_Ok in E. exists a. split; [done|].
    rewrite <- !text_field_Ok, <- optional_number_field_Ok. split_and!; try done.
    exists a1. rewrite <- !optional_text_field_Ok, <- !side_of_book_Ok. apply ok_or_Ok in E1. by split_and!.
  - intros (p & -> & Hs & Ht & Hv & ob & Hob & Htok & Hb & Ha). f_equal. simpl.
    apply text_field_Ok in Hs as ->, Ht as ->. apply optional_number_field_Ok in Hv as ->.
    rewrite Hob. simpl. apply optional_text_field_Ok in Htok as ->.
    apply side_of_book_Ok in Hb as ->, Ha as ->. by destruct u.
Qed.

Lemma decode_market_resolved_Ok frame m : decode_market_resolved frame = Ok m <->
  exists p, frame.(payload) = Some p /\ reports_resolution p m.
Proof.
  unfold decode_market_resolved, reports_resolution. split.
  - intros H. repeat read_step. injection H as <-. simpl.
    apply ok_or_Ok in E. exists a. split; [done|]. rewrite <- !text_field_Ok. split_and!; try done.
    exists a3. rewrite <- number_field_Ok. by apply ok_or_Ok in E4.
  - intros (p & -> & Hs & Ht & Ho & (l & Hl & Hi) & Hd). simpl.
    apply text_field_Ok in Hs as ->, Ht as ->, Ho as ->, Hd as ->. apply number_field_Ok in Hl as ->.
    rewrite Hi. by destruct m.
Qed.

(** A frame of the namespace with an event of this name. *)
Definition venue_event (frame : DecodedFrame) (name : bytes) : Prop :=
  frame.(namespace) = Some MARKETS_NAMESPACE /\ frame.(event_name) = Some name.

(** No payload, whatever is wrong with it, is [NotAnEvent]. *)
Definition payload_fault {A} (r : result A LimitlessDecodeError) : Prop := r <> Err NotAnEvent.

Lemma payload_fault_bind {A B} (r : result A LimitlessDecodeError) (k : A -> result B _) :
  payload_fault r -> (forall a, payload_fault (k a)) -> payload_fault (a <-? r ;; k a).
Proof. intros Hr Hk. destruct r as [a|e]; [apply Hk|]. intros [= ->]. by apply Hr. Qed.
Lemma payload_fault_ok_or {A} (o : option A) e : e <> NotAnEvent -> payload_fault (ok_or o e).
Proof. by destruct o; intros ? [=]. Qed.
Lemma payload_fault_map_err {A E} (f : E -> LimitlessDecodeError) (r : result A E) :
  (forall e, f e <> NotAnEvent) -> payload_fault (map_err f r).
Proof. intros Hf. destruct r; intros [=]. by eapply Hf. Qed.

Ltac payload_fault :=
  repeat first [apply payload_fault_bind; [|intros ?] | apply payload_fault_ok_or; discriminate
               | apply payload_fault_map_err; discriminate | intros [=]; fail | case_match
               | discriminate].

Lemma decode_entries_fault g one s array acc : payload_fault (decode_entries g one s acc array).
Proof.
  revert acc. induction array as [|entry array IH]; intros acc; simpl; [discriminate|].
  unfold number_field. payload_fault; apply IH.
Qed.

Lemma decode_orderbook_update_answer frame : exists r,
  decode_orderbook_update frame = Some r /\ payload_fault r /\
  forall u, r = Ok u <-> exists p, frame.(payload) = Some p /\ reports_update p u.
Proof.
  pose proof (decode_orderbook_update_Ok frame) as H. rewrite decode_orderbook_update_eq in *.
  eexists. split; [reflexivity|]. split.
  - unfold text_field, optional_text_field, optional_number_field, side_of_book.
    payload_fault; apply decode_entries_fault.
  - intros u. rewrite <- H. split; congruence.
Qed.

Lemma decode_market_resolved_fault frame : payload_fault (decode_market_resolved frame).
Proof. unfold decode_market_resolved, text_field, number_field. payload_fault. Qed.

(** An answer of one decoder, among the events. *)
Lemma decoded_answer {A} (inject : A -> LimitlessEvent) (r : result A _) (P : A -> Prop) :
  (forall a b, inject a = inject b -> a = b) -> payload_fault r -> (forall a, r = Ok a <-> P a) ->
  (forall a, res_map inject r = Ok (inject a) <-> P a) /\ res_map inject r <> Err NotAnEvent.
Proof.
  intros Hinj Hf HP. split; [|destruct r as [a|e]; [done|intros [= ->]; by apply Hf]].
  intros a. rewrite <- HP. destruct r; simpl; split; congruence || (intros [= ?%Hinj]; congruence).
Qed.

(** What a frame decodes to. Decoding never panics. It yields a book update exactly for an
    [orderbookUpdate] of the namespace whose payload reports that book: its text fields, an
    optional version and token of their kinds, and on each side entries with a price in
    [0, 1] and a size within the venue's grammar, strictly from the best price on. It yields
    a resolution exactly for a [marketResolved] whose payload reports it, the index a [u32];
    any other event of the namespace by name; and [NotAnEvent] exactly for what is none. *)
Theorem decode_event_exact frame : exists r, decode_event frame = Some r /\
  (forall u, r = Ok (OrderbookUpdateEvent u) <->
     venue_event frame (lit "orderbookUpdate") /\
     exists p, frame.(payload) = Some p /\ reports_update p u) /\
  (forall m, r = Ok (MarketResolvedEvent m) <->
     venue_event frame (lit "marketResolved") /\
     exists p, frame.(payload) = Some p /\ reports_resolution p m) /\
  (forall name, r = Ok (UnknownEvent name) <-> venue_event frame name /\
     name <> lit "orderbookUpdate" /\ name <> lit "marketResolved") /\
  (r = Err NotAnEvent <-> forall name, ~ venue_event frame name).
Proof.
  destruct (decide (frame.(namespace) = Some MARKETS_NAMESPACE /\ is_Some frame.(event_name)))
    as [[En [name Ename]]|Hno].
  2: { exists (Err NotAnEvent). split.
       - unfold decode_event. case_bool_decide as En; [|done]. simpl.
         destruct frame.(event_name); [|done]. by destruct Hno.
       - unfold venue_event. assert (forall name, ~ (namespace frame = Some MARKETS_NAMESPACE /\
           event_name frame = Some name)) as H by (intros name [? E]; destruct Hno; split; [done|by exists name]).
         split_and!; intros; split; try done; by intros [?%H _]. }
  unfold decode_event, venue_event. rewrite En, Ename, bool_decide_true by done. simpl.
  assert (Hn : ~ forall n, ~ (Some MARKETS_NAMESPACE = Some MARKETS_NAMESPACE /\ Some name = Some n))
    by (intros H; by destruct (H name)).
  case_bool_decide as Hu; [subst name|case_bool_decide as Hm; [subst name|]].
  - destruct (decode_orderbook_update_answer frame) as (r & -> & Hf & HP).
    destruct (decoded_answer OrderbookUpdateEvent r _ ltac:(congruence) Hf HP) as [Hev Hnot].
    eexists. split; [reflexivity|]. split_and!.
    + intros u. rewrite Hev. tauto.
    + intros m; split; [by destruct r|by intros [[_ ?] _]].
    + intros n; split; [by destruct r|intros ([_ [= <-]] & ? & _); done].
    + split; [by intros ?%Hnot | done].
  - destruct (decoded_answer MarketResolvedEvent _ _ ltac:(congruence)
      (decode_market_resolved_fault frame) (decode_market_resolved_Ok frame)) as [Hev Hnot].
    eexists. split; [reflexivity|]. split_and!.
    + intros u; split; [by destruct (decode_market_resolved frame)|by intros [[_ ?] _]].
    + intros m. rewrite Hev. tauto.
    + intros n; split; [by destruct (decode_market_resolved frame)|intros ([_ [= <-]] & _ & ?); done].
    + split; [by intros ?%Hnot | done].
  - eexists. split; [reflexivity|]. split_and!.
    + intros u; split; [done|]. by intros [[_ [= ?]] _].
    + intros m; split; [done|]. by intros [[_ [= ?]] _].
    + intros n. split; [intros [= <-]; done|]. by intros ([_ [= <-]] & _).
    + by split.
Qed.

(** ** The candidate of an update *)

Lemma in_domain_complementable l : price_wf l.(price) -> l.(price).(price_value).(scale) <= 18 ->
  l.(price).(price_value).(coefficient) <= 10 ^ l.(price).(price_value).(scale) ->
  complementable l.
Proof.
  intros Hp Hs Hd. unfold complementable. rewrite complement_price_eq by done.
  pose proof (complement_cases _ Hp) as H. fold normalized_grammar in H.
  destruct (decimal_complement _ _ _); [done|]. lia.
Qed.

Lemma sorted_side_NoDup s (ls : list (Price * Quantity)) :
  StronglySorted (before s) ls.*1 -> NoDup (coordinate <$> (side_level s <$> ls)).
Proof.
  induction ls as [|l ls IH]; simpl; [constructor|]. intros [Hs Hall]%StronglySorted_inv.
  constructor; [|by apply IH]. intros (l' & E & (e & -> & He)%list_elem_of_fmap)%list_elem_of_fmap.
  injection E as E. rewrite Forall_forall in Hall.
  specialize (Hall e.1 (list_elem_of_fmap_2 _ _ _ He)). rewrite <- E in Hall.
  unfold before, value_lt in Hall. destruct s; lia.
Qed.

Lemma update_levels_elem u l : l ∈ update_levels u <->
  (l.(price), l.(quantity)) ∈ match l.(side) with Bid => u.(bids) | Ask => u.(asks) end.
Proof.
  unfold update_levels. rewrite elem_of_app, !list_elem_of_fmap. destruct l as [s p q]; simpl. split.
  - intros [([] & [= -> -> ->] & H)|([] & [= -> -> ->] & H)]; done.
  - destruct s; intros H; [left|right]; by exists (p, q).
Qed.

(** The book a decoded update is. *)
Lemma update_reported frame u : decode_event frame = Some (Ok (OrderbookUpdateEvent u)) ->
  exists p, frame.(payload) = Some p /\ reports_update p u.
Proof.
  unfold decode_event. destruct (negb _); [done|]. destruct frame.(event_name); [|done].
  case_bool_decide; [|by case_bool_decide; [destruct (decode_market_resolved frame)|]].
  destruct (decode_orderbook_update frame) as [[u'|]|] eqn:E; [|done..]. intros [= ->].
  by apply decode_orderbook_update_Ok.
Qed.

Lemma update_levels_sound p u : reports_update p u ->
  Forall level_wf (update_levels u) /\ Forall complementable (update_levels u) /\
  NoDup (coordinate <$> update_levels u).
Proof.
  intros (_ & _ & _ & ob & _ & _ & (es & _ & Hb & Hbs) & (es' & _ & Ha & Has)).
  apply reports_levels_wf in Hb, Ha. unfold update_levels.
  rewrite fmap_app, !Forall_app, !Forall_fmap. repeat split.
  1,2: eapply Forall_impl; [eassumption|]; intros l (? & ? & ? & ?); by split.
  1,2: eapply Forall_impl; [eassumption|]; intros l (? & ? & ? & ?); by apply in_domain_complementable.
  apply NoDup_app. split_and!; [by apply sorted_side_NoDup| |by apply sorted_side_NoDup].
  intros c (l & -> & (e & -> & _)%list_elem_of_fmap)%list_elem_of_fmap
    (l' & [=] & (e' & -> & _)%list_elem_of_fmap)%list_elem_of_fmap. done.
Qed.

(** When an update becomes a candidate, and which. *)
Lemma snapshot_candidate_Ok u provenance capacity c : 0 <= capacity.(level_capacity_value) ->
  snapshot_candidate u provenance capacity = Ok c <->
  (provenance.(representation) = VenueNative /\ provenance.(origin) = SourceReported /\
   len u.(bids) + len u.(asks) <= capacity.(level_capacity_value)) /\
  c = {| candidate_provenance := provenance;
         operation := Snapshot {| levels := update_levels u; levels_capacity := capacity |} |}.
Proof.
  intros Hc. unfold snapshot_candidate, bounded_levels_new, candidate_snapshot.
  assert (Hlen : len (update_levels u) = len u.(bids) + len u.(asks))
    by (unfold update_levels, len; rewrite length_app, !length_fmap; lia).
  pose proof (collect_bounded_Ok (level_capacity_value capacity) CapacityExceeded (update_levels u) []) as H.
  destruct provenance.(representation) eqn:Er, provenance.(origin) eqn:Eo; simpl;
    try by (split; [done|]; intros [[? [? _]] _]).
  destruct (collect_bounded _ _ [] _) as [ls|e]; simpl.
  - destruct (proj1 (H ls ltac:(rewrite len_nil; lia)) eq_refl) as [-> Hl]. simpl in *.
    split; [intros [= <-]; split_and!; try done; lia | by intros [_ ->]].
  - split; [done|]. intros [(_ & _ & Hl) _].
    assert (Err e = Ok (update_levels u)) by (apply H; [rewrite len_nil; lia|split; [done|lia]]). done.
Qed.

(** The same, from an update some frame reported. *)
Lemma snapshot_candidate_wf frame u provenance capacity c :
  decode_event frame = Some (Ok (OrderbookUpdateEvent u)) -> provenance_wf provenance ->
  0 <= capacity.(level_capacity_value) -> snapshot_candidate u provenance capacity = Ok c ->
  candidate_wf c /\ c.(candidate_provenance) = provenance.
Proof.
  intros (p & _ & Hu)%update_reported Hp Hc ((_ & Ho & _) & ->)%snapshot_candidate_Ok; [|done].
  apply update_levels_sound in Hu as (? & _). split; [split; simpl; [done..|by rewrite Ho]|done].
Qed.

(** A decoded book is one the order book takes. Under a venue-native, source-reported
    provenance and within the level capacity, and only then, an update becomes a snapshot
    candidate; it carries that provenance. Whatever book of its market it is applied to, as
    long as no counter is spent, it is accepted: its prices complement and no coordinate
    comes twice; and the book then rests exactly the sizes the venue reported. *)
Theorem decoded_book_is_taken frame u provenance capacity :
  decode_event frame = Some (Ok (OrderbookUpdateEvent u)) -> provenance_wf provenance ->
  0 <= capacity.(level_capacity_value) ->
  (is_ok (snapshot_candidate u provenance capacity) = true <->
     provenance.(representation) = VenueNative /\ provenance.(origin) = SourceReported /\
     len u.(bids) + len u.(asks) <= capacity.(level_capacity_value)) /\
  forall c, snapshot_candidate u provenance capacity = Ok c ->
    candidate_wf c /\ c.(candidate_provenance) = provenance /\
    exists next, levels_ok next /\
      (forall s price quantity, price_wf price ->
         map_get coordinate_cmp (s, price) next = Some quantity <->
         (price, quantity) ∈ match s with Bid => u.(bids) | Ask => u.(asks) end) /\
      forall b epoch position, book_wf b -> b.(book_market) = provenance.(market) ->
        stream_base b next epoch position ->
        position + len (snapshot_mutations b provenance next epoch position) <= U64_MAX ->
        b.(revision) < U64_MAX ->
        exists commit b', apply_snapshot c b = (Ok commit, b') /\ b'.(book_levels) = next.
Proof.
  intros Hf Hp Hcap. split.
  { split.
    - destruct (snapshot_candidate _ _ _) eqn:E; [|done]. by apply snapshot_candidate_Ok in E as [? _].
    - intros H. by rewrite (proj2 (snapshot_candidate_Ok u provenance capacity _ Hcap) (conj H eq_refl)). }
  intros c E. pose proof (snapshot_candidate_wf _ _ _ _ _ Hf Hp Hcap E) as [Hwf Hsrc].
  split; [done|]. split; [done|]. apply snapshot_candidate_Ok in E as [_ Ec]; [|done].
  apply update_reported in Hf as (payload & _ & (Hl & Hcomp & Hnd)%update_levels_sound).
  destruct (snapshot_levels [] (update_levels u)) as [next|] eqn:En.
  2: { pose proof (snapshot_levels_accepts _ [] Hl (map_ok_nil _ _) Hcomp Hnd) as H.
       rewrite En in H. discriminate H. by intros ? _ ?%not_elem_of_nil. }
  exists next. pose proof (proj1 (snapshot_levels_iff _ _ Hl) En) as (_ & _ & Hok & Hperm).
  split_and!; [done| |].
  - intros s price quantity Hpw. rewrite (map_get_elem coordinate_cmp coordinate_wf) by done.
    rewrite Hperm, list_elem_of_fmap. split.
    + intros ([] & [= -> -> ->] & H). by apply update_levels_elem in H.
    + intros H. exists {| side := s; price := price; quantity := quantity |}.
      split; [done|]. by apply update_levels_elem.
  - intros b epoch position Hb Hm Hbase Hroom Hrev. subst c.
    eexists _, _. split; [by apply (apply_snapshot_accepts b _ _ next epoch position Hb Hwf eq_refl)|done].
Qed.

(** ** A frame of the venue *)

(** Text with its quotes written as apostrophes. *)
Definition json (s : bytes) : bytes := map (fun b => if b =? 39 then 34 else b) s.

Definition sample_bytes : bytes := json (
  lit "42/markets,['orderbookUpdate',{'marketSlug':'will-it-rain'," ++
  lit "'orderbook':{'tokenId':'7','bids':[{'price':0.41,'size':5},{'price':0.4,'size':2.50}]," ++
  lit "'asks':[{'price':43e-2,'size':1e3}]},'timestamp':'2024-05-01','version':12}]").

Definition sample_frame : DecodedFrame :=
  match decode_frame sample_bytes TextFrame venue_payload with
  | Some (Ok frame) => frame
  | _ => plain_frame None None
  end.

Definition amount (c s : Z) : ExactDecimal := {| coefficient := c; scale := s |}.
Definition sample_update : OrderbookUpdate :=
  {| market_slug := lit "will-it-rain"; token_id := Some (lit "7");
     bids := [({| price_value := amount 41 2 |}, {| quantity_value := amount 5 0 |});
              ({| price_value := amount 4 1 |}, {| quantity_value := amount 25 1 |})];
     asks := [({| price_value := amount 43 2 |}, {| quantity_value := amount 1000 0 |})];
     timestamp := lit "2024-05-01"; version := Some (lit "12") |}.

Example sample_decodes :
  decode_event sample_frame = Some (Ok (OrderbookUpdateEvent sample_update)) /\
  dedup_key sample_update = Ok (Some (Integer 12)).
Proof. split; vm_compute; reflexivity. Qed.

Definition sample_provenance : Provenance := provenance_of sample_input.

Lemma decoded_book_is_taken_witness : exists c commit b',
  snapshot_candidate sample_update sample_provenance {| level_capacity_value := 4 |} = Ok c /\
  apply_snapshot c (book_new sample_provenance.(market)) = (Ok commit, b') /\
  map_get coordinate_cmp (Bid, {| price_value := amount 41 2 |}) b'.(book_levels) =
    Some {| quantity_value := amount 5 0 |}.
Proof.
  pose proof (decoded_book_is_taken sample_frame sample_update sample_provenance
    {| level_capacity_value := 4 |}) as H.
  destruct H as [H1 H2]; [apply sample_decodes| |done|].
  { apply (wf_candidate_provenance _ (sample_candidate_wf (Snapshot (sample_bounded [])) (Forall_nil_2 _))). }
  destruct (snapshot_candidate _ _ _) as [c|] eqn:E; [|done].
  destruct (H2 c eq_refl) as (Hc & Hp & next & Hn & Hget & Htake).
  destruct (Htake (book_new sample_provenance.(market)) 0 0) as (commit & b' & Hb & <-).
  { apply book_new_wf. } { done. } { done. } { by vm_compute. } { by vm_compute. }
  exists c, commit, b'. split_and!; [done|done|]. apply Hget; [|by left].
  split; [split; simpl; bounds; lia || (right; done)|simpl; lia].
Defined.
