(* ===== verification/Pacing.v ===== *)
(** * Pacing and backoff ([src/src/limitless/supervisor.rs])

    What keeps the process polite towards the venue: the rolling-day ledger of connection
    attempts, the queue in which commands to one endpoint take their turn, and the reconnect
    backoff. An [Instant] is its nanoseconds on the monotonic clock, a [Duration] its
    nanoseconds. *)

From stdpp Require Import gmap.
From S2P Require Import Prelude.

(** ** Durations *)

Definition NANOS_PER_SEC : Z := 1000000000.
Definition NANOS_PER_MILLI : Z := 1000000.
(** [Duration::MAX]. *)
Definition DURATION_MAX : Z := U64_MAX * NANOS_PER_SEC + 999999999.

Definition saturating_duration_since (now earlier : Z) : Z := Z.max 0 (now - earlier).
Definition duration_saturating_mul (d : Z) (n : Z) : Z := Z.min DURATION_MAX (d * n).
Definition as_millis (d : Z) : Z := d / NANOS_PER_MILLI.
Definition from_millis (ms : Z) : Z := ms * NANOS_PER_MILLI.

Definition ONE_DAY : Z := 86400 * NANOS_PER_SEC.
Definition WORST_CASE_ATTEMPT_CEILING : Z := 1000000.
Definition DAILY_ATTEMPT_BUDGET : Z := 280.

(** ** The ledger of attempts *)

(** [AttemptLedger] is its [spent] queue, oldest first. *)
Definition AttemptLedger : Type := list Z.
Definition ledger_empty : AttemptLedger := [].

(** The loop that drops what is a day old. *)
Fixpoint forget_old (now : Z) (spent : AttemptLedger) : AttemptLedger :=
  match spent with
  | [] => []
  | at_ :: rest =>
      if ONE_DAY <=? saturating_duration_since now at_ then forget_old now rest else spent
  end.

(** The ledger is left changed by a refusal too. *)
Definition ledger_admit (now budget : Z) (spent : AttemptLedger) :
    result () Z * AttemptLedger :=
  let spent := forget_old now spent in
  if budget <=? len spent
  then (Err (default now (head spent) + ONE_DAY), spent)
  else (Ok (), spent ++ [now]).

(** ** The queue of commands *)

Definition MIN_COMMAND_INTERVAL : Z := 500 * NANOS_PER_MILLI.
Definition MAX_PACED_ENDPOINTS : Z := 64.

Definition command_grant_at (last : option Z) (now interval : Z) : Z :=
  Z.max (from_option (fun at_ => at_ + interval) now last) now.

Abbreviation Pacers := (gmap bytes Z).

Definition pacer_slot (pacers : Pacers) (endpoint : bytes) : bytes :=
  if bool_decide (is_Some (pacers !! endpoint))
     || (Z.of_nat (size pacers) <? MAX_PACED_ENDPOINTS)
  then endpoint else [].

Definition reserve_command_grant (endpoint : bytes) (now interval : Z) (pacers : Pacers) :
    Z * Pacers :=
  let slot := pacer_slot pacers endpoint in
  let granted := command_grant_at (pacers !! slot) now interval in
  (granted, <[slot := granted]> pacers).

(** ** Backoff *)

Definition JITTER_FLOOR_PER_MILLE : Z := 750.
Definition JITTER_SPAN_PER_MILLE : Z := 501.
Definition MAX_BACKOFF_DOUBLINGS : Z := 16.

(** [u32::saturating_add] and [u32::saturating_sub] at 1. *)
Definition saturating_next_u32 (n : Z) : Z := Z.min U32_MAX (n + 1).
Definition saturating_prev_u32 (n : Z) : Z := Z.max 0 (n - 1).

Definition resets_backoff (lifetime stable_after : Z) : bool := stable_after <=? lifetime.

Definition exponential (initial attempt max : Z) : Z :=
  let doublings := Z.min (saturating_prev_u32 attempt) MAX_BACKOFF_DOUBLINGS in
  Z.min (duration_saturating_mul initial (Z.shiftl 1 doublings)) max.

Definition jittered (base seed : Z) : Z :=
  let millis := Z.min (as_millis base) U64_MAX in
  let per_mille := JITTER_FLOOR_PER_MILLE + seed mod JITTER_SPAN_PER_MILLE in
  from_millis (Z.min U64_MAX (millis * per_mille) / 1000).

Definition ladder_backoff (replicas configured : Z) : Z :=
  duration_saturating_mul configured (Z.min replicas U32_MAX).

(** The attempt number after a connection that lived [lifetime]. *)
Definition next_backoff_attempt (lifetime stable_after attempt : Z) : Z :=
  if resets_backoff lifetime stable_after then 1 else saturating_next_u32 attempt.

(** The base of the delay before the next connection of a role; [exhausted] is that this is
    the primary and its recovery attempts are spent. *)
Definition backoff_base (replicas initial_backoff max_backoff exhausted_backoff : Z)
    (exhausted : bool) (attempt : Z) : Z :=
  if exhausted then ladder_backoff replicas exhausted_backoff
  else exponential initial_backoff attempt (ladder_backoff replicas max_backoff).

(** ** The ledger keeps its budget *)

(** A day's attempts: what is admitted, at nondecreasing times, by whoever asks with
    whatever budget. *)
Inductive ledger_run (B : Z) : list Z -> Z -> AttemptLedger -> Prop :=
| ledger_start now : ledger_run B [] now ledger_empty
| ledger_admitted log last now budget spent spent' :
    ledger_run B log last spent -> last <= now -> budget <= B ->
    ledger_admit now budget spent = (Ok (), spent') ->
    ledger_run B (log ++ [now]) now spent'
| ledger_refused log last now budget spent retry spent' :
    ledger_run B log last spent -> last <= now -> budget <= B ->
    ledger_admit now budget spent = (Err retry, spent') ->
    ledger_run B log now spent'.

Definition in_window (t x : Z) : Prop := t <= x < t + ONE_DAY.
#[export] Instance in_window_dec t x : Decision (in_window t x).
Proof. unfold in_window. apply _. Defined.

Lemma forget_old_spec now spent : Sorted Z.le spent ->
  exists old, spent = old ++ forget_old now spent /\ Forall (fun x => x + ONE_DAY <= now) old /\
    Forall (fun x => now < x + ONE_DAY) (forget_old now spent).
Proof.
  intros Hs. apply Sorted_StronglySorted in Hs; [|intros ???; lia].
  assert (0 < ONE_DAY) by done.
  induction Hs as [|x spent Hs IH Hall]; simpl; [by exists []|].
  unfold saturating_duration_since. destruct (Z.leb_spec ONE_DAY (Z.max 0 (now - x))).
  - destruct IH as (old & E & Ho & Hn). exists (x :: old). simpl. rewrite <- E.
    split_and!; [done|constructor; [lia|done]|done].
  - exists []. split_and!; [done|constructor|]. constructor; [lia|].
    eapply Forall_impl; [exact Hall|]. intros y ?. simpl in *. lia.
Qed.

Record ledger_inv (B : Z) (log : list Z) (last : Z) (spent : AttemptLedger) : Prop := {
  li_split : exists old, log = old ++ spent /\ Forall (fun x => x + ONE_DAY <= last) old;
  li_sorted : StronglySorted Z.le log;
  li_past : Forall (fun x => x <= last) log;
  li_stored : len spent <= Z.max 0 B;
  li_window : forall t, len (filter (in_window t) log) <= Z.max 0 B
}.

Lemma sorted_app_r {A} (R : A -> A -> Prop) l k : StronglySorted R (l ++ k) -> StronglySorted R k.
Proof. induction l; [done|]. simpl. intros [? _]%StronglySorted_inv. auto. Qed.

Lemma sorted_snoc {A} (R : A -> A -> Prop) l y :
  StronglySorted R l -> Forall (fun x => R x y) l -> StronglySorted R (l ++ [y]).
Proof.
  induction 1 as [|x l Hs IH Hall]; intros Hf; simpl; [by repeat constructor|].
  apply Forall_cons in Hf as [Hx Hf]. constructor; [by apply IH|].
  apply Forall_app. by split; [|constructor].
Qed.

(** What one request does to the ledger, before it is judged. *)
Lemma forget_old_inv B log last spent now : ledger_inv B log last spent -> last <= now ->
  ledger_inv B log now (forget_old now spent) /\
  Forall (fun x => now < x + ONE_DAY) (forget_old now spent).
Proof.
  intros [(old & E & Ho) Hs Hp Hl Hw] Hn.
  assert (Hss : StronglySorted Z.le spent) by (rewrite E in Hs; by eapply sorted_app_r).
  destruct (forget_old_spec now spent (StronglySorted_Sorted Hss)) as (old' & E' & Ho' & Hnew).
  split; [|done]. split; [| | | |done].
  - exists (old ++ old'). split; [rewrite E, <- app_assoc; f_equal; exact E'|].
    apply Forall_app; split; [|done]. eapply Forall_impl; [exact Ho|]. simpl. lia.
  - done.
  - eapply Forall_impl; [exact Hp|]. simpl. lia.
  - rewrite E' in Hl. rewrite len_app in Hl. pose proof (len_nonneg old'). lia.
Qed.

Lemma window_after_admission B log now spent t : 
  (exists old, log = old ++ spent /\ Forall (fun x => x + ONE_DAY <= now) old) ->
  in_window t now -> len spent + 1 <= B -> len (filter (in_window t) (log ++ [now])) <= B.
Proof.
  intros (old & -> & Ho) Ht Hl. rewrite !filter_app, !len_app.
  replace (filter (in_window t) old) with (@nil Z).
  - pose proof (length_filter (in_window t) spent). pose proof (length_filter (in_window t) [now]).
    unfold len in *. simpl in *. lia.
  - induction Ho as [|x old Hx Ho IH]; [done|].
    rewrite filter_cons_False; [exact IH|unfold in_window in *; lia].
Qed.

Lemma ledger_run_inv B log last spent : ledger_run B log last spent -> ledger_inv B log last spent.
Proof.
  induction 1 as [now|log last now budget spent spent' _ IH Hn HB E
                 |log last now budget spent retry spent' _ IH Hn HB E].
  - split; [by exists []|apply SSorted_nil|apply Forall_nil_2|unfold len; simpl; lia|intros t; unfold len; simpl; lia].
  - apply (forget_old_inv _ _ _ _ now) in IH as [[Hsplit Hs Hp Hl Hw] _]; [|done].
    unfold ledger_admit in E. destruct (Z.leb_spec budget (len (forget_old now spent))); [done|].
    injection E as <-. split.
    + destruct Hsplit as (old & -> & Ho). exists old. by rewrite app_assoc.
    + by apply sorted_snoc.
    + apply Forall_app. split; [done|repeat constructor; lia].
    + rewrite len_app, len_cons, len_nil. lia.
    + intros t. destruct (decide (in_window t now)) as [Ht|Ht].
      * transitivity B; [|lia]. eapply window_after_admission; [exact Hsplit|done|lia].
      * rewrite filter_app, filter_singleton_False, app_nil_r by done. apply Hw.
  - apply (forget_old_inv _ _ _ _ now) in IH as [IH _]; [|done].
    unfold ledger_admit in E. case_match; [|done]. by injection E as _ <-.
Qed.

(** What the ledger holds once the old is dropped: the last day of what was admitted. *)
Lemma recent_log B log now spent : ledger_inv B log now spent ->
  Forall (fun x => now < x + ONE_DAY) spent ->
  filter (fun x => now < x + ONE_DAY) log = spent.
Proof.
  intros [(old & -> & Ho) _ _ _ _] Hs. rewrite filter_app.
  replace (filter _ old) with (@nil Z).
  - simpl. induction Hs as [|x spent Hx Hs IH]; [done|]. by rewrite filter_cons_True, IH.
  - induction Ho as [|x old Hx Ho IH]; [done|]. rewrite filter_cons_False; [done|lia].
Qed.

(** What is dropped is dropped from the front. *)
Lemma forget_old_le now spent : len (forget_old now spent) <= len spent.
Proof.
  induction spent as [|x spent IH]; simpl; [done|]. case_match; [|done]. rewrite len_cons. lia.
Qed.

(** A full ledger refuses until its oldest attempt is a day old, and admits from then on. *)
Lemma full_until now budget oldest rest : budget <= len (oldest :: rest) -> now < oldest + ONE_DAY ->
  ledger_admit now budget (oldest :: rest) = (Err (oldest + ONE_DAY), oldest :: rest).
Proof.
  intros Hb Hn. assert (0 < ONE_DAY) by done.
  assert (E : forget_old now (oldest :: rest) = oldest :: rest).
  { cbn [forget_old]. destruct (Z.leb_spec ONE_DAY (saturating_duration_since now oldest)) as [H'|]; [|done].
    unfold saturating_duration_since in H'. lia. }
  unfold ledger_admit. rewrite E. by rewrite (proj2 (Z.leb_le _ _) Hb).
Qed.

Lemma full_from now budget oldest rest : len (oldest :: rest) = budget -> oldest + ONE_DAY <= now ->
  (ledger_admit now budget (oldest :: rest)).1 = Ok ().
Proof.
  intros Hb Hn. assert (E : forget_old now (oldest :: rest) = forget_old now rest).
  { cbn [forget_old]. destruct (Z.leb_spec ONE_DAY (saturating_duration_since now oldest)) as [|H']; [done|].
    unfold saturating_duration_since in H'. lia. }
  unfold ledger_admit. rewrite E. pose proof (forget_old_le now rest). rewrite len_cons in Hb.
  by rewrite (proj2 (Z.leb_gt budget (len (forget_old now rest)))) by lia.
Qed.

(** C34: the rolling day. However attempts are asked for, at nondecreasing times and with
    whatever budgets no larger than [B], no window of one day ever holds more than [B]
    admitted attempts, and the ledger never stores more than [B] instants. A request is
    refused only when its budget is spent within the day that ends with it. The time a
    refusal under a budget that is not zero names is that at which the oldest attempt of that
    day is a day old; whoever asks earlier, with nothing admitted in between, is refused with
    the same time; and whoever asks then or later is admitted, when the budget is all the
    ledger held, as it always is under one unchanging budget. *)
Theorem attempts_within_budget B log last spent now budget :
  ledger_run B log last spent -> last <= now -> 0 <= B ->
  let recent := filter (fun x => now < x + ONE_DAY) log in
  (forall t, len (filter (in_window t) log) <= B) /\ len spent <= B /\
  match ledger_admit now budget spent with
  | (Ok _, _) => len recent < budget
  | (Err retry, spent') =>
      budget <= len recent /\ now <= retry /\ spent' = recent /\
      (0 < budget ->
         (exists oldest, head recent = Some oldest /\ retry = oldest + ONE_DAY) /\
         (forall t, t < retry -> ledger_admit t budget spent' = (Err retry, spent')) /\
         (len spent' = budget \/ B <= budget ->
            forall t, retry <= t -> (ledger_admit t budget spent').1 = Ok ()))
  end.
Proof.
  intros Hrun Hn HB recent. pose proof (ledger_run_inv _ _ _ _ Hrun) as Hinv.
  destruct (forget_old_inv _ _ _ _ now Hinv Hn) as [Hinv' Hfresh].
  split_and!; [intros t; pose proof (li_window _ _ _ _ Hinv t); lia
              |pose proof (li_stored _ _ _ _ Hinv); lia|].
  pose proof (recent_log _ _ _ _ Hinv' Hfresh) as Hrec. subst recent. unfold ledger_admit at 1.
  pose proof (li_stored _ _ _ _ Hinv') as Hstored.
  destruct (Z.leb_spec budget (len (forget_old now spent))) as [Hb|Hb]; rewrite Hrec; [|done].
  destruct (forget_old now spent) as [|x rest]; cbn [head default from_option].
  { assert (0 < ONE_DAY) by done. split_and!; [done|simpl; lia|done|]. rewrite len_nil in Hb. lia. }
  apply Forall_cons in Hfresh as [Hx _]. split_and!; [done|simpl; lia|done|]. intros H0.
  split_and!; [by exists x|intros t Ht; by apply full_until|].
  intros Hl t Ht. apply full_from; [lia|exact Ht].
Qed.

(** Two attempts of a budget of two, a third refused, refused again a nanosecond before the
    time it was told, and admitted at that time. *)
Lemma attempts_within_budget_witness :
  (ledger_admit 7 2 [0; 5]) = (Err ONE_DAY, [0; 5]) /\
  (ledger_admit (ONE_DAY - 1) 2 [0; 5]) = (Err ONE_DAY, [0; 5]) /\
  (ledger_admit ONE_DAY 2 [0; 5]).1 = Ok () /\
  forall t, len (filter (in_window t) [0; 5]) <= 2.
Proof.
  assert (ledger_run 2 [0; 5] 5 [0; 5]) as H.
  { apply (ledger_admitted 2 [0] 0 5 2 [0]); [|lia|lia|reflexivity].
    apply (ledger_admitted 2 [] 0 0 2 []); [constructor|lia|lia|reflexivity]. }
  destruct (attempts_within_budget 2 [0; 5] 5 [0; 5] 7 2 H) as (Hw & _ & Hr); [lia..|].
  destruct Hr as (_ & _ & _ & Hr). destruct (Hr ltac:(lia)) as (_ & Hearly & Hlate).
  split; [reflexivity|]. split; [by apply Hearly|]. split; [|exact Hw]. apply Hlate; [by right|done].
Defined.

(** ** Commands keep their distance *)

(** A command: its endpoint, the floor it was given and the time granted. *)
Record Command : Set := { endpoint : bytes; floor : Z; granted : Z }.

(** Commands in the order they took their turn, from no commands. *)
Inductive pacer_run : list Command -> Pacers -> Prop :=
| pacer_start : pacer_run [] ∅
| pacer_step log pacers e now interval g pacers' :
    pacer_run log pacers -> 0 <= interval ->
    reserve_command_grant e now interval pacers = (g, pacers') ->
    pacer_run (log ++ [{| endpoint := e; floor := interval; granted := g |}]) pacers'.

(** Where an endpoint that has been served is paced, for good. *)
Definition paced_at (pacers : Pacers) (c : Command) : Prop :=
  exists last, pacers !! pacer_slot pacers c.(endpoint) = Some last /\ c.(granted) <= last.

Lemma size_insert_le (pacers : Pacers) s g : (size pacers <= size (<[s := g]> pacers))%nat.
Proof. rewrite map_size_insert. destruct (pacers !! s); simpl; lia. Qed.

(** Known or overflowing. *)
Lemma pacer_slot_cases (pacers : Pacers) e :
  (is_Some (pacers !! e) \/ Z.of_nat (size pacers) < MAX_PACED_ENDPOINTS) /\
    pacer_slot pacers e = e \/
  pacers !! e = None /\ MAX_PACED_ENDPOINTS <= Z.of_nat (size pacers) /\ pacer_slot pacers e = [].
Proof.
  unfold pacer_slot. case_bool_decide as H; simpl; [by auto|].
  apply eq_None_not_Some in H.
  destruct (Z.ltb_spec (Z.of_nat (size pacers)) MAX_PACED_ENDPOINTS); [by auto|]. by right.
Qed.

Lemma pacer_slot_kept (pacers : Pacers) e e' g : is_Some (pacers !! pacer_slot pacers e) ->
  pacer_slot (<[pacer_slot pacers e' := g]> pacers) e = pacer_slot pacers e.
Proof.
  intros Hs. pose proof (size_insert_le pacers (pacer_slot pacers e') g) as Hsize.
  set (s' := pacer_slot pacers e') in *.
  destruct (pacer_slot_cases (<[s' := g]> pacers) e) as [[Hk ->]|(Hn & Hfull & ->)].
  - destruct (pacer_slot_cases pacers e) as [[_ ->]|(Hn & Hfull & E)]; [done|]. rewrite E in *.
    destruct (decide (s' = e)) as [He|He].
    + subst s'. destruct (pacer_slot_cases pacers e') as [[_ E']|(_ & _ & E')]; [|congruence].
      rewrite E' in He. subst e'. congruence.
    + destruct Hk as [Hk|Hk]; [|lia]. rewrite lookup_insert_ne in Hk by done.
      rewrite Hn in Hk. by destruct Hk.
  - apply lookup_insert_None in Hn as [Hn _].
    destruct (pacer_slot_cases pacers e) as [[Hk E]|(_ & _ & E)]; [|done].
    rewrite E, Hn in Hs. by destruct Hs.
Qed.

Lemma pacer_run_paced log pacers : pacer_run log pacers -> Forall (paced_at pacers) log.
Proof.
  induction 1 as [|log pacers e now interval g pacers' _ IH Hi E]; [constructor|].
  unfold reserve_command_grant in E. injection E as Hg <-.
  assert (Hmax : forall last, pacers !! pacer_slot pacers e = Some last -> last + interval <= g).
  { intros last H. rewrite <- Hg, H. unfold command_grant_at. simpl. lia. }
  rewrite Hg. apply Forall_app. split.
  - eapply Forall_impl; [exact IH|]. intros c (last & Hl & Hc). unfold paced_at.
    rewrite pacer_slot_kept by (rewrite Hl; eauto).
    destruct (decide (pacer_slot pacers e = pacer_slot pacers (endpoint c))) as [Es|Es].
    + rewrite Es, lookup_insert_eq. exists g. split; [done|]. rewrite <- Es in Hl.
      specialize (Hmax last Hl). lia.
    + rewrite lookup_insert_ne by done. eauto.
  - repeat constructor. exists g. simpl. split; [|done].
    destruct (pacer_slot_cases pacers e) as [[Hk Ee]|(Hn & Hfull & Ee)]; rewrite Ee.
    + unfold pacer_slot. rewrite lookup_insert_eq. by rewrite bool_decide_true, lookup_insert_eq by done.
    + pose proof (size_insert_le pacers [] g).
      destruct (pacer_slot_cases (<[[] := g]> pacers) e) as [[Hk ->]|(_ & _ & ->)];
        [|by rewrite lookup_insert_eq].
      destruct (decide ([] = e)) as [<-|He]; [by rewrite lookup_insert_eq|].
      destruct Hk as [Hk|Hk]; [|lia]. rewrite lookup_insert_ne, Hn in Hk by done. by destruct Hk.
Qed.

(** Sixty-four endpoints and the one slot the others share. *)
Lemma pacer_run_bounded log pacers : pacer_run log pacers ->
  Z.of_nat (size pacers) <= MAX_PACED_ENDPOINTS \/
  Z.of_nat (size pacers) = MAX_PACED_ENDPOINTS + 1 /\ is_Some (pacers !! []).
Proof.
  induction 1 as [|log pacers e now interval g pacers' _ IH Hi E]; [left; by vm_compute|].
  unfold reserve_command_grant in E. injection E as _ <-. rewrite map_size_insert.
  destruct (pacers !! pacer_slot pacers e) as [x|] eqn:El; simpl.
  - destruct IH as [?|[? ?]]; [by left|right]. split; [done|].
    apply lookup_insert_is_Some. destruct (decide (pacer_slot pacers e = [])); [by left|by right].
  - destruct (pacer_slot_cases pacers e) as [[[Hk|Hk] Ee]|(Hn & Hfull & Ee)]; rewrite Ee in *.
    + rewrite El in Hk. by destruct Hk.
    + left. lia.
    + destruct IH as [?|[_ Hs]]; [|rewrite El in Hs; by destruct Hs].
      right. split; [lia|]. rewrite lookup_insert_eq. eauto.
Qed.

(** Commands to one endpoint keep their distance. However endpoints, times and floors
    come, of two commands to one endpoint the later is granted at least its floor after the
    earlier, whichever of the paced slots they share; no command is granted before it was
    asked for; and the table of the pacers never holds more than 65 entries. *)
Theorem commands_keep_their_floor log pacers : pacer_run log pacers ->
  Z.of_nat (size pacers) <= MAX_PACED_ENDPOINTS + 1 /\
  forall i j c d, (i < j)%nat -> log !! i = Some c -> log !! j = Some d ->
    c.(endpoint) = d.(endpoint) -> c.(granted) + d.(floor) <= d.(granted).
Proof.
  intros Hrun. split; [pose proof (pacer_run_bounded _ _ Hrun); lia|].
  induction Hrun as [|log pacers e now interval g pacers' Hrun IH Hi E]; [done|].
  intros i j c d Hij Hc Hd Ecd. pose proof (lookup_lt_Some _ _ _ Hd) as Hlt.
  rewrite length_app in Hlt. simpl in Hlt.
  rewrite lookup_app_l in Hc by lia.
  destruct (decide (j < length log)%nat).
  - rewrite lookup_app_l in Hd by lia. exact (IH i j c d Hij Hc Hd Ecd).
  - rewrite lookup_app_r in Hd by lia. replace (j - length log)%nat with 0%nat in Hd by lia.
    injection Hd as <-. simpl in *. pose proof (pacer_run_paced _ _ Hrun) as Hp.
    rewrite Forall_lookup in Hp. destruct (Hp i c Hc) as (last & Hl & Hle). rewrite Ecd in Hl.
    unfold reserve_command_grant in E. injection E as <- _. rewrite Hl.
    unfold command_grant_at. simpl. lia.
Qed.

Lemma commands_keep_their_floor_witness :
  reserve_command_grant (lit "a") 3 10 {[lit "a" := 5]} = (15, {[lit "a" := 15]}) /\ 5 + 10 <= 15.
Proof.
  assert (pacer_run [{| endpoint := lit "a"; floor := 10; granted := 5 |};
                     {| endpoint := lit "a"; floor := 10; granted := 15 |}] {[lit "a" := 15]}) as H.
  { apply (pacer_step [_] {[lit "a" := 5]} (lit "a") 3 10); [|lia|reflexivity].
    apply (pacer_step [] ∅ (lit "a") 5 10); [constructor|lia|reflexivity]. }
  split; [reflexivity|].
  exact (proj2 (commands_keep_their_floor _ _ H) 0%nat 1%nat _ _ (le_n 1) eq_refl eq_refl eq_refl).
Defined.

(** ** Backoff *)

(** Reconnect delays. The base of a delay doubles from the initial one with each failed
    attempt, at most sixteen times, never exceeds the ladder's ceiling and never shrinks as
    attempts fail; only a connection that lived long enough starts the ladder again; and the
    jitter keeps the delay, in whole milliseconds, between three quarters and five quarters
    of the base. *)
Theorem backoff_within_bounds initial max attempt base seed :
  0 <= initial -> 0 <= max <= DURATION_MAX -> 1 <= attempt <= U32_MAX -> 0 <= seed ->
  0 <= base -> as_millis base * 1250 <= U64_MAX ->
  exponential initial attempt max = Z.min (initial * 2 ^ Z.min (attempt - 1) 16) max /\
  exponential initial attempt max <= exponential initial (saturating_next_u32 attempt) max /\
  (forall lifetime stable_after, next_backoff_attempt lifetime stable_after attempt =
     if stable_after <=? lifetime then 1 else Z.min U32_MAX (attempt + 1)) /\
  as_millis base * 750 / 1000 <= as_millis (jittered base seed) <= as_millis base * 1250 / 1000 /\
  jittered base seed mod NANOS_PER_MILLI = 0.
Proof.
  intros Hi Hm Ha Hs Hb Hu.
  assert (Hexp : forall n, 1 <= n <= U32_MAX ->
    exponential initial n max = Z.min (initial * 2 ^ Z.min (n - 1) 16) max).
  { intros n Hn. unfold exponential, duration_saturating_mul, saturating_prev_u32, MAX_BACKOFF_DOUBLINGS.
    rewrite Z.shiftl_mul_pow2, Z.mul_1_l, (Z.max_r 0) by lia. lia. }
  split; [by apply Hexp|]. split; [|split; [done|]].
  - rewrite !Hexp by (unfold saturating_next_u32; lia). apply Z.min_le_compat_r.
    apply Z.mul_le_mono_nonneg_l; [done|]. apply Z.pow_le_mono_r; [lia|].
    unfold saturating_next_u32. lia.
  - unfold jittered, from_millis. set (ms := as_millis base) in *.
    assert (0 <= ms) by (apply Z.div_pos; [done|reflexivity]).
    pose proof (Z.mod_pos_bound seed JITTER_SPAN_PER_MILLE eq_refl) as Hj.
    set (j := seed mod _) in *. unfold JITTER_FLOOR_PER_MILLE, JITTER_SPAN_PER_MILLE in *.
    rewrite (Z.min_l ms) by (bounds; lia). rewrite (Z.min_r U64_MAX) by nia.
    rewrite Z.mod_mul by done. split; [|done]. unfold as_millis. rewrite Z.div_mul by done.
    split; apply Z.div_le_mono; nia.
Qed.

Lemma backoff_within_bounds_witness :
  exponential (from_millis 1000) 4 (from_millis 5000) = from_millis 5000 /\
  as_millis (jittered (from_millis 1000) 0) = 750 /\
  750 <= as_millis (jittered (from_millis 1000) 77) <= 1250.
Proof.
  destruct (backoff_within_bounds (from_millis 1000) (from_millis 5000) 4 (from_millis 1000) 77)
    as (H1 & _ & _ & H2 & _);
    [by vm_compute|split; by vm_compute|split; by vm_compute|by vm_compute..|].
  split; [exact H1|]. split; [reflexivity|exact H2].
Defined.
