(* ===== verification/Connection.v ===== *)
(** * One connection generation ([src/src/limitless/connection.rs])

    A connection dials, opens the session, subscribes, and then forwards what it reads as
    notices. What it asks of its environment (the clocks, the process-wide pacers, whether a
    write or a capture succeeds, whether the deadline of the setup has passed) is answered by
    [env], one answer per question; whether the supervisor's queue takes a notice by [room],
    one answer per attempt. What it does to the wire is logged ([WireEffect]); an [Outbox] is
    a sink with the log of what the queue took, what was dropped and what was emitted. *)

From stdpp Require Import gmap.
From S2P Require Import Prelude Numeric Lexical SocketIo Session Limitless Pacing.

Definition NAMESPACE : bytes := lit "/markets".
Definition BOOK_EVENT : bytes := lit "orderbookUpdate".
Definition POLICY_MAX_PAYLOAD_BYTES : Z := MAX_PAYLOAD_BYTES_MAX.

(** ** Data *)

Record ConnectionConfig : Set := {
  cc_endpoint : bytes; cc_markets : list bytes; cc_setup_timeout : Z; cc_capture : bool;
  cc_min_command_interval : Z
}.

Inductive ConnectionEndReason : Set :=
| ConnectFailed | ConnectTimedOut | HandshakeFailed | HandshakeTimedOut | SubscribeFailed
| SocketClosed | ReadFailed | WriteFailed | Terminal (reason : TerminalFrameReason)
| CaptureFailed | NoticeUndeliverable | ResubscribeTimedOut | SubscriptionReplaced
| HeartbeatTimeout | TaskFailed.

Inductive ConnectionControl : Set :=
| Resubscribe (granted_at : Z)
| Replace (markets : list bytes).

Inductive ConnectionNote : Set :=
| Ready (open : EngineIoOpen) (subscription : Z) (observed_at : Z)
| Heartbeat (observed_at : Z)
| Resubscribed (subscription : Z)
| NoteEvent (event : LimitlessEvent) (received_at arrival_time_nanos subscription : Z)
| DecodeFailure (key : bytes) (book_relevant : bool)
| Overload (dropped : Z).

Record ConnectionNotice : Set := { notice_generation : Z; note : ConnectionNote }.

(** What a bounded queue says to an attempt to send. *)
Inductive SendAnswer : Set := SendAccepted | SendFull | SendClosed.

#[export] Instance SendAnswer_eq_dec : EqDecision SendAnswer.
Proof. solve_decision. Defined.

(** ** The sink of notices *)

Record NoticeSink : Set := {
  ns_generation : Z; ns_dropped : Z; ns_dropped_at : option Z;
  ns_resubscribed : option Z; ns_resubscribed_at : option Z; ns_sequence : Z
}.

Inductive PendingNote : Set := PendingOverload | PendingResubscribed.

(** What became of the notes, in order: the queue took one, one was dropped, a subscription
    was emitted. *)
Inductive OutboxEntry : Set :=
| Told (notice : ConnectionNotice)
| Lost
| Emitted (subscription : Z).

Record Outbox : Set := { out_sink : NoticeSink; out_log : list OutboxEntry; out_tries : nat }.

Definition log_entry (e : OutboxEntry) (o : Outbox) : Outbox :=
  {| out_sink := o.(out_sink); out_log := o.(out_log) ++ [e]; out_tries := o.(out_tries) |}.
Definition on_sink (f : NoticeSink -> NoticeSink) (o : Outbox) : Outbox :=
  {| out_sink := f o.(out_sink); out_log := o.(out_log); out_tries := o.(out_tries) |}.

Definition sink_new (generation : Z) : NoticeSink :=
  {| ns_generation := generation; ns_dropped := 0; ns_dropped_at := None;
     ns_resubscribed := None; ns_resubscribed_at := None; ns_sequence := 0 |}.

Definition sink_drops (dropped : Z) (at_ : option Z) (s : NoticeSink) : NoticeSink :=
  {| ns_generation := s.(ns_generation); ns_dropped := dropped; ns_dropped_at := at_;
     ns_resubscribed := s.(ns_resubscribed); ns_resubscribed_at := s.(ns_resubscribed_at);
     ns_sequence := s.(ns_sequence) |}.
Definition sink_emit (subscription at_ : option Z) (s : NoticeSink) : NoticeSink :=
  {| ns_generation := s.(ns_generation); ns_dropped := s.(ns_dropped);
     ns_dropped_at := s.(ns_dropped_at); ns_resubscribed := subscription;
     ns_resubscribed_at := at_; ns_sequence := s.(ns_sequence) |}.

(** [stamp], whose answer is the sequence it leaves. *)
Definition stamp (s : NoticeSink) : NoticeSink :=
  {| ns_generation := s.(ns_generation); ns_dropped := s.(ns_dropped);
     ns_dropped_at := s.(ns_dropped_at); ns_resubscribed := s.(ns_resubscribed);
     ns_resubscribed_at := s.(ns_resubscribed_at);
     ns_sequence := saturating_add_u64 s.(ns_sequence) 1 |}.

(** The stable sort of the two slots by when they were filled. *)
Definition pending_order (s : NoticeSink) : list PendingNote :=
  if default U64_MAX s.(ns_dropped_at) <=? default U64_MAX s.(ns_resubscribed_at)
  then [PendingOverload; PendingResubscribed]
  else [PendingResubscribed; PendingOverload].

Definition has_pending (s : NoticeSink) : bool :=
  (0 <? s.(ns_dropped)) || bool_decide (is_Some s.(ns_resubscribed)).

Definition abandon (s : NoticeSink) : NoticeSink := sink_drops 0 None (sink_emit None None s).

Definition take_pending (pending : PendingNote) (s : NoticeSink) : option ConnectionNote * NoticeSink :=
  match pending with
  | PendingOverload =>
      if s.(ns_dropped) =? 0 then (None, s)
      else (Some (Overload s.(ns_dropped)), sink_drops 0 None s)
  | PendingResubscribed =>
      match s.(ns_resubscribed) with
      | None => (None, s)
      | Some subscription => (Some (Resubscribed subscription), sink_emit None None s)
      end
  end.

Section sink.
(** What the supervisor's queue answers to each attempt. *)
Variable room : nat -> SendAnswer.

(** [try_send]: whether the note is no longer the sink's concern. *)
Definition send (n : ConnectionNote) (o : Outbox) : bool * Outbox :=
  let tried := {| out_sink := o.(out_sink); out_log := o.(out_log);
                  out_tries := S o.(out_tries) |} in
  let notice := {| notice_generation := o.(out_sink).(ns_generation); note := n |} in
  match room o.(out_tries) with
  | SendFull => (false, tried)
  | SendClosed => (true, tried)
  | SendAccepted => (true, log_entry (Told notice) tried)
  end.

Definition flush_one (pending : PendingNote) (o : Outbox) : bool * Outbox :=
  let before := o.(out_sink) in
  match take_pending pending before with
  | (None, _) => (true, o)
  | (Some n, taken) =>
      match send n (on_sink (fun _ => taken) o) with
      | (true, o) => (true, o)
      | (false, o) =>
          (false,
           on_sink (match pending with
                    | PendingOverload => sink_drops before.(ns_dropped) before.(ns_dropped_at)
                    | PendingResubscribed =>
                        sink_emit before.(ns_resubscribed) before.(ns_resubscribed_at)
                    end) o)
      end
  end.

(** [Iterator::all]: stops at the first that does not fit. *)
Fixpoint flush_all (order : list PendingNote) (o : Outbox) : bool * Outbox :=
  match order with
  | [] => (true, o)
  | pending :: order =>
      match flush_one pending o with
      | (true, o) => flush_all order o
      | (false, o) => (false, o)
      end
  end.

Definition flush_pending (o : Outbox) : bool * Outbox :=
  flush_all (pending_order o.(out_sink)) o.

Definition record_drop (s : NoticeSink) : NoticeSink :=
  let s := if s.(ns_dropped) =? 0
           then let s := stamp s in sink_drops s.(ns_dropped) (Some s.(ns_sequence)) s
           else s in
  sink_drops (saturating_add_u64 s.(ns_dropped) 1) s.(ns_dropped_at) s.

Definition offer (n : ConnectionNote) (o : Outbox) : Outbox :=
  let '(clear, o) := flush_pending o in
  let '(taken, o) := if clear then send n o else (false, o) in
  if taken then o else log_entry Lost (on_sink record_drop o).

Definition offer_resubscribed (subscription : Z) (o : Outbox) : Outbox :=
  let o := on_sink (fun s => if bool_decide (s.(ns_resubscribed) = None)
                             then let s := stamp s in
                                  sink_emit s.(ns_resubscribed) (Some s.(ns_sequence)) s
                             else s) o in
  let o := on_sink (fun s => sink_emit (Some subscription) s.(ns_resubscribed_at) s) o in
  (flush_pending (log_entry (Emitted subscription) o)).2.

(** Into room already reserved. *)
Fixpoint deliver_first (order : list PendingNote) (o : Outbox) : Outbox :=
  match order with
  | [] => o
  | pending :: order =>
      match take_pending pending o.(out_sink) with
      | (None, _) => deliver_first order o
      | (Some n, taken) =>
          log_entry (Told {| notice_generation := taken.(ns_generation); note := n |})
            (on_sink (fun _ => taken) o)
      end
  end.

Definition deliver (o : Outbox) : Outbox := deliver_first (pending_order o.(out_sink)) o.

(** The branch that waits for room: it is taken once the queue has room or is gone. *)
Definition on_reserved (o : Outbox) : Outbox :=
  let tried := {| out_sink := o.(out_sink); out_log := o.(out_log);
                  out_tries := S o.(out_tries) |} in
  match room o.(out_tries) with
  | SendAccepted => deliver tried
  | SendClosed => on_sink abandon tried
  | SendFull => tried
  end.

Definition finish (reason : ConnectionEndReason) (o : Outbox) : ConnectionEndReason * Outbox :=
  let '(_, o) := flush_pending o in
  (if 0 <? o.(out_sink).(ns_dropped) then NoticeUndeliverable else reason, o).
End sink.

(** ** The wire *)

#[export] Instance EngineIoPacket_eq_dec : EqDecision EngineIoPacket.
Proof. solve_decision. Defined.

(** tungstenite's [Message]; what a control frame or a raw frame carries is not looked at. *)
Inductive Message : Set :=
| MessageText (text : bytes) | MessageBinary (data : bytes)
| MessagePing | MessagePong | MessageClose | MessageFrame.

Definition wire_view (message : Message) : WebSocketOpcode * bytes :=
  match message with
  | MessageText text => (TextFrame, text)
  | MessageBinary data => (BinaryFrame, data)
  | MessagePing => (PingFrame, [])
  | MessagePong => (PongFrame, [])
  | MessageClose => (CloseFrame, [])
  | MessageFrame => (BinaryFrame, [])
  end.

Inductive Incoming : Set := Arrived (message : Message) | Faulted | Ended.

Inductive WireEffect : Set :=
| Wrote (text : bytes)
| Captured (text : bytes)
| ReservedGrant (granted : Z)
| SleptUntil (at_ : Z).

(** One answer of the environment. [wall] is nanoseconds since the epoch, [None] before it. *)
Record ConnEnv : Type := {
  ce_now : Z; ce_wall : option Z; ce_pacers : Pacers; ce_write_done : bool;
  ce_capture_done : bool; ce_elapsed : bool; ce_announced : bool
}.

(** [Session] with the socket: what has arrived and is not read, and what was done. *)
Record Wire : Set := {
  w_endpoint : bytes; w_capture : bool; w_limits : LexicalLimits; w_write_timeout : Z;
  w_max_command_bytes : Z; w_min_command_interval : Z;
  w_incoming : list Incoming; w_effects : list WireEffect; w_ticks : nat
}.

Definition set_incoming (l : list Incoming) (w : Wire) : Wire :=
  {| w_endpoint := w.(w_endpoint); w_capture := w.(w_capture); w_limits := w.(w_limits);
     w_write_timeout := w.(w_write_timeout); w_max_command_bytes := w.(w_max_command_bytes);
     w_min_command_interval := w.(w_min_command_interval); w_incoming := l;
     w_effects := w.(w_effects); w_ticks := w.(w_ticks) |}.
Definition log_effect (e : WireEffect) (w : Wire) : Wire :=
  {| w_endpoint := w.(w_endpoint); w_capture := w.(w_capture); w_limits := w.(w_limits);
     w_write_timeout := w.(w_write_timeout); w_max_command_bytes := w.(w_max_command_bytes);
     w_min_command_interval := w.(w_min_command_interval); w_incoming := w.(w_incoming);
     w_effects := w.(w_effects) ++ [e]; w_ticks := w.(w_ticks) |}.
Definition tick (w : Wire) : Wire :=
  {| w_endpoint := w.(w_endpoint); w_capture := w.(w_capture); w_limits := w.(w_limits);
     w_write_timeout := w.(w_write_timeout); w_max_command_bytes := w.(w_max_command_bytes);
     w_min_command_interval := w.(w_min_command_interval); w_incoming := w.(w_incoming);
     w_effects := w.(w_effects); w_ticks := S w.(w_ticks) |}.

(** What the open packet negotiated. *)
Definition negotiate (open : EngineIoOpen) (w : Wire) : Wire :=
  let limit := Z.min open.(max_payload_bytes) POLICY_MAX_PAYLOAD_BYTES in
  {| w_endpoint := w.(w_endpoint); w_capture := w.(w_capture);
     w_limits := with_max_bytes limit venue_payload;
     w_write_timeout := from_millis open.(ping_timeout_ms); w_max_command_bytes := limit;
     w_min_command_interval := w.(w_min_command_interval); w_incoming := w.(w_incoming);
     w_effects := w.(w_effects); w_ticks := w.(w_ticks) |}.

Record CommandTooLarge : Set := { too_large_bytes : Z; too_large_limit : Z }.

Definition check_command_size (n limit : Z) : result () CommandTooLarge :=
  refuse limit <? n with {| too_large_bytes := n; too_large_limit := limit |} ;;
  Ok ().

Definition frame_error_key (error : FrameError) : bytes :=
  match error with
  | EmptyFrame => lit "frame:EmptyFrame"
  | UnknownEngineIoPacket => lit "frame:UnknownEngineIoPacket"
  | UnknownSocketIoPacket => lit "frame:UnknownSocketIoPacket"
  | MalformedFraming => lit "frame:MalformedFraming"
  | MalformedEventEnvelope => lit "frame:MalformedEventEnvelope"
  | MissingAttachmentCount => lit "frame:MissingAttachmentCount"
  | UnexpectedControlPayload => lit "frame:UnexpectedControlPayload"
  | LexicalFailure _ => lit "frame:Lexical"
  end.

Definition event_error_key (error : LimitlessDecodeError) : bytes :=
  match error with
  | NotAnEvent => lit "event:NotAnEvent"
  | InvalidField _ => lit "event:InvalidField"
  | DecimalFault _ _ => lit "event:Decimal"
  | PriceOutOfDomain _ => lit "event:PriceOutOfDomain"
  | LevelOrdering _ => lit "event:LevelOrdering"
  end.

Section connection.
Variable env : nat -> ConnEnv.
(** The text the JSON library gives a value. *)
Variable json_text : LexicalValue -> bytes.

Local Abbreviation io A := (cprog Wire ConnectionEndReason A).

Definition consult : io ConnEnv := fun w => Some (Ok (env w.(w_ticks)), tick w).

(** A point at which the task waits: in the setup the deadline may pass there. *)
Definition await_point (deadline : bool) : io () :=
  e <-* consult ;;
  cdeny (deadline && e.(ce_elapsed)) HandshakeTimedOut.

Definition wall_clock_arrival_nanos (e : ConnEnv) : Z :=
  from_option (Z.min U64_MAX) 0 e.(ce_wall).

Definition capture_message (message : Message) : io () := fun w =>
  match message with
  | MessageText text =>
      if w.(w_capture)
      then (e <-* consult ;;
            cdeny (negb e.(ce_capture_done)) CaptureFailed ;;*
            cmodify (log_effect (Captured text))) w
      else cret () w
  | _ => cret () w
  end.

Definition send_bounded (deadline : bool) (text : bytes) : io () :=
  await_point deadline ;;*
  e <-* consult ;;
  cdeny (negb e.(ce_write_done)) WriteFailed ;;*
  cmodify (log_effect (Wrote text)).

(** Reads past what is not text. Nothing more to read is a wait the deadline ends. *)
Fixpoint next_text (l : list Incoming) : io bytes :=
  match l with
  | [] => cthrow HandshakeTimedOut
  | item :: rest =>
      await_point true ;;*
      cmodify (set_incoming rest) ;;*
      match item with
      | Ended => cthrow SocketClosed
      | Faulted => cthrow ReadFailed
      | Arrived message =>
          capture_message message ;;*
          match message with
          | MessageText text => cret text
          | _ => next_text rest
          end
      end
  end.

Definition next_frame : io DecodedFrame :=
  l <-* cgets w_incoming ;;
  text <-* next_text l ;;
  limits <-* cgets w_limits ;;
  decoded <-* Prelude.expect (decode_frame text TextFrame limits) ;;
  frame <-* clift (map_err (fun _ => HandshakeFailed) decoded) ;;
  if bool_decide (frame.(engine_io) = Some EnginePing)
  then (send_bounded true encode_engine_pong ;;* cret frame)
  else cret frame.

Definition await_open : io (EngineIoOpen * Z) :=
  frame <-* next_frame ;;
  cdeny (negb (bool_decide (frame.(engine_io) = Some EngineOpen))) HandshakeFailed ;;*
  payload <-* clift (ok_or frame.(payload) HandshakeFailed) ;;
  open <-* clift (map_err (fun _ => HandshakeFailed) (from_open_payload payload)) ;;
  e <-* consult ;;
  cret (open, e.(ce_now)).

Definition resubscribe (deadline : bool) (markets : list bytes) (granted_at : option Z) : io () :=
  let subscribe := encode_subscribe_market_prices json_text NAMESPACE markets in
  limit <-* cgets w_max_command_bytes ;;
  clift (map_err (fun _ => SubscribeFailed) (check_command_size (len subscribe) limit)) ;;*
  granted <-* match granted_at with
              | Some at_ => cret at_
              | None =>
                  e <-* consult ;;
                  endpoint <-* cgets w_endpoint ;;
                  interval <-* cgets w_min_command_interval ;;
                  let granted := (reserve_command_grant endpoint e.(ce_now) interval
                                    e.(ce_pacers)).1 in
                  cmodify (log_effect (ReservedGrant granted)) ;;*
                  cret granted
              end ;;
  await_point deadline ;;*
  cmodify (log_effect (SleptUntil granted)) ;;*
  send_bounded deadline subscribe.

(** The loop that waits for the namespace's acknowledgment; each turn reads a frame. *)
Fixpoint await_namespace (fuel : nat) : io () :=
  match fuel with
  | O => Prelude.expect None
  | S fuel =>
      frame <-* next_frame ;;
      if bool_decide (frame.(namespace) = Some NAMESPACE)
      then match frame.(socket_io) with
           | Some Connect => cret ()
           | Some ConnectError => cthrow HandshakeFailed
           | _ => await_namespace fuel
           end
      else await_namespace fuel
  end.

Definition establish (markets : list bytes) : io Z :=
  send_bounded true (encode_namespace_connect NAMESPACE) ;;*
  l <-* cgets w_incoming ;;
  await_namespace (S (length l)) ;;*
  resubscribe true markets None ;;*
  cret (saturating_add_u64 0 1).

(** ** The steady state *)

Record Loop : Set := {
  lp_wire : Wire; lp_out : Outbox; lp_markets : list bytes; lp_subscription : Z;
  lp_frames : Z; lp_commandable : bool
}.

Definition set_wire (w : Wire) (l : Loop) : Loop :=
  {| lp_wire := w; lp_out := l.(lp_out); lp_markets := l.(lp_markets);
     lp_subscription := l.(lp_subscription); lp_frames := l.(lp_frames);
     lp_commandable := l.(lp_commandable) |}.
Definition on_out (f : Outbox -> Outbox) (l : Loop) : Loop :=
  {| lp_wire := l.(lp_wire); lp_out := f l.(lp_out); lp_markets := l.(lp_markets);
     lp_subscription := l.(lp_subscription); lp_frames := l.(lp_frames);
     lp_commandable := l.(lp_commandable) |}.
Definition set_markets (markets : list bytes) (l : Loop) : Loop :=
  {| lp_wire := l.(lp_wire); lp_out := l.(lp_out); lp_markets := markets;
     lp_subscription := l.(lp_subscription); lp_frames := l.(lp_frames);
     lp_commandable := l.(lp_commandable) |}.
Definition set_emitted (subscription : Z) (l : Loop) : Loop :=
  {| lp_wire := l.(lp_wire); lp_out := l.(lp_out); lp_markets := l.(lp_markets);
     lp_subscription := subscription; lp_frames := l.(lp_frames);
     lp_commandable := l.(lp_commandable) |}.
Definition count_frame (l : Loop) : Loop :=
  {| lp_wire := l.(lp_wire); lp_out := l.(lp_out); lp_markets := l.(lp_markets);
     lp_subscription := l.(lp_subscription); lp_frames := wrapping_add_u64 l.(lp_frames) 1;
     lp_commandable := l.(lp_commandable) |}.
Definition uncommandable (l : Loop) : Loop :=
  {| lp_wire := l.(lp_wire); lp_out := l.(lp_out); lp_markets := l.(lp_markets);
     lp_subscription := l.(lp_subscription); lp_frames := l.(lp_frames);
     lp_commandable := false |}.

(** Which branch of the [select!] fires next. The one that reads takes what arrived first. *)
Inductive Turn : Set :=
| OnRoom
| OnControl (command : option ConnectionControl)
| OnMessage.

Variable room : nat -> SendAnswer.

Local Abbreviation turning A := (cprog Loop ConnectionEndReason A).

(** What the wire answers, its error a value. *)
Definition wired {A} (m : io A) : turning (result A ConnectionEndReason) := fun l =>
  '(r, w) ← m l.(lp_wire); Some (Ok r, set_wire w l).

Definition tell (n : ConnectionNote) : turning () := cmodify (on_out (offer room n)).

(** [return sink.finish(reason)]. *)
Definition end_with {A} (reason : ConnectionEndReason) : turning A := fun l =>
  let '(reason, o) := finish room reason l.(lp_out) in Some (Err reason, on_out (fun _ => o) l).

(** [wired] with the loop ended by an error; [reason] of the error that is reported. *)
Definition or_end {A} (reason : ConnectionEndReason -> ConnectionEndReason) (m : io A) :
    turning A :=
  r <-* wired m ;;
  match r with Ok a => cret a | Err e => end_with (reason e) end.

Definition on_command (command : ConnectionControl) : turning () :=
  granted_at <-* match command with
                 | Resubscribe granted_at => cret (Some granted_at)
                 | Replace markets => cmodify (set_markets markets) ;;* cret None
                 end ;;
  markets <-* cgets lp_markets ;;
  or_end id (resubscribe false markets granted_at) ;;*
  l <-* cgets id ;;
  let subscription := saturating_add_u64 l.(lp_subscription) 1 in
  cmodify (set_emitted subscription) ;;*
  cmodify (on_out (offer_resubscribed room subscription)).

(** A frame that decoded. *)
Definition on_frame (frame : DecodedFrame) (received_at arrival : Z) : turning () :=
  match terminal_frame_reason frame NAMESPACE with
  | Some reason => end_with (Terminal reason)
  | None =>
      (if bool_decide (frame.(engine_io) = Some EnginePing)
       then (or_end (fun _ => WriteFailed) (send_bounded false encode_engine_pong) ;;*
             tell (Heartbeat received_at))
       else cret ()) ;;*
      match frame.(event_name) with
      | None => cret ()
      | Some name =>
          decoded <-* Prelude.expect (decode_event frame) ;;
          l <-* cgets id ;;
          tell (match decoded with
                | Ok event => NoteEvent event received_at arrival l.(lp_subscription)
                | Err error =>
                    DecodeFailure (event_error_key error) (bool_decide (name = BOOK_EVENT))
                end)
      end
  end.

Definition on_message (message : Message) : turning () :=
  cmodify count_frame ;;*
  e <-* or_end id consult ;;
  or_end (fun _ => CaptureFailed) (capture_message message) ;;*
  l <-* cgets id ;;
  let '(opcode, text) := wire_view message in
  decoded <-* Prelude.expect (decode_frame text opcode l.(lp_wire).(w_limits)) ;;
  match decoded with
  | Err error => tell (DecodeFailure (frame_error_key error) true)
  | Ok frame => on_frame frame e.(ce_now) (wall_clock_arrival_nanos e)
  end.

(** One turn of the loop. A branch whose guard is false, or which has nothing to take, leaves
    the loop waiting. *)
Definition loop_turn (t : Turn) : turning () :=
  cmodify (on_out (fun o => (flush_pending room o).2)) ;;*
  l <-* cgets id ;;
  match t with
  | OnRoom =>
      if has_pending l.(lp_out).(out_sink) then cmodify (on_out (on_reserved room)) else cret ()
  | OnControl command =>
      if l.(lp_commandable)
      then match command with
           | Some command => on_command command
           | None => cmodify uncommandable
           end
      else cret ()
  | OnMessage =>
      match l.(lp_wire).(w_incoming) with
      | [] => cret ()
      | item :: rest =>
          cmodify (fun l => set_wire (set_incoming rest l.(lp_wire)) l) ;;*
          match item with
          | Ended => end_with SocketClosed
          | Faulted => end_with ReadFailed
          | Arrived message => on_message message
          end
      end
  end.

(** The loop over any choice of branches; an error is the reason it returned. *)
Fixpoint read_loop (turns : list Turn) : turning () :=
  match turns with
  | [] => cret ()
  | t :: turns => loop_turn t ;;* read_loop turns
  end.

(** ** The generation *)

(** How the dial went: in time, and with a socket. *)
Inductive Dial : Set := DialTimedOut | DialRefused | Dialled (incoming : list Incoming).

Definition fresh_wire (config : ConnectionConfig) (incoming : list Incoming) : Wire :=
  {| w_endpoint := config.(cc_endpoint); w_capture := config.(cc_capture);
     w_limits := venue_payload; w_write_timeout := config.(cc_setup_timeout);
     w_max_command_bytes := POLICY_MAX_PAYLOAD_BYTES;
     w_min_command_interval := config.(cc_min_command_interval);
     w_incoming := incoming; w_effects := []; w_ticks := 0 |}.

(** Everything before the loop: the loop it starts, or the reason it never did. *)
Definition set_up (generation : Z) (config : ConnectionConfig) : io Loop :=
  both_ <-* await_open ;;
  let '(open, observed_at) := both_ in
  cmodify (negotiate open) ;;*
  subscription <-* establish config.(cc_markets) ;;
  e <-* consult ;;
  cdeny (e.(ce_elapsed) || negb e.(ce_announced)) NoticeUndeliverable ;;*
  w <-* cgets id ;;
  cret {| lp_wire := w;
          lp_out := {| out_sink := sink_new generation;
                       out_log := [Told {| notice_generation := generation;
                                           note := Ready open subscription observed_at |}];
                       out_tries := 0 |};
          lp_markets := config.(cc_markets); lp_subscription := subscription; lp_frames := 0;
          lp_commandable := true |}.

(** [capture_opened] is whether the capture file could be opened. [None] of the reason is a
    generation that is still running. *)
Definition run_connection (generation : Z) (config : ConnectionConfig) (capture_opened : bool)
    (dial : Dial) (turns : list Turn) : option (result () ConnectionEndReason * option Loop) :=
  if config.(cc_capture) && negb capture_opened then Some (Err CaptureFailed, None)
  else match dial with
       | DialTimedOut => Some (Err ConnectTimedOut, None)
       | DialRefused => Some (Err ConnectFailed, None)
       | Dialled incoming =>
           '(r, _) ← set_up generation config (fresh_wire config incoming);
           match r with
           | Err reason => Some (Err reason, None)
           | Ok l => '(r, l) ← read_loop turns l; Some (r, Some l)
           end
       end.
End connection.
