(* ===== verification/ConnectionProps.v ===== *)
(** * What a connection tells its supervisor

    The queue between a connection and its supervisor drops what does not fit. [judge] is the
    contract under which that is harmless: it reads the log of an outbox and keeps what the
    supervisor has yet to be told. Theorems: every run of a connection answers to it, and what
    a connection writes. *)

From stdpp Require Import gmap.
From S2P Require Import Prelude Numeric Lexical LexicalProps SocketIo Session Limitless Pacing Connection.

(** ** Decoding always answers *)

Lemma decode_frame_total text opcode limits : exists r, decode_frame text opcode limits = Some r.
Proof.
  unfold decode_frame. destruct (negb _); [eauto|]. destruct text as [|first rest]; [eauto|].
  destruct (engine_from_wire_digit first) as [[]|]; try case_bool_decide; eauto.
  - destruct (parse_lexical_total rest limits) as [[] ->]; eauto.
  - unfold decode_socket_io. destruct (match rest with [] => _ | _ => _ end) as [[[[[? ?] ?] ?] r]|]; eauto.
    case_bool_decide; [eauto|]. destruct (parse_lexical_total r limits) as [[] ->]; simpl; eauto.
Qed.

Lemma decode_event_total frame : exists r, decode_event frame = Some r.
Proof.
  unfold decode_event. repeat case_match; eauto.
  destruct (decode_orderbook_update_answer frame) as (r & -> & _). simpl. eauto.
Qed.

(** ** The contract *)

(** What the supervisor has not been told: how many notices were dropped, which subscription
    was emitted; and the last subscription it knows of. *)
Record Owed : Set := { owed_drops : Z; owed_emit : option Z; owed_known : Z }.

Definition settled_debt (d : Owed) : bool :=
  (d.(owed_drops) =? 0) && bool_decide (d.(owed_emit) = None).

(** What may happen next. The number told is the number owed; the subscription told is the
    last one emitted; anything else waits until nothing is owed, and an event names the
    subscription the supervisor knows of. *)
Definition judge_entry (d : Owed) (e : OutboxEntry) : option Owed :=
  match e with
  | Lost => Some {| owed_drops := saturating_add_u64 d.(owed_drops) 1;
                    owed_emit := d.(owed_emit); owed_known := d.(owed_known) |}
  | Emitted s => Some {| owed_drops := d.(owed_drops); owed_emit := Some s;
                         owed_known := d.(owed_known) |}
  | Told notice =>
      match notice.(note) with
      | Overload n =>
          if (0 <? n) && (n =? d.(owed_drops))
          then Some {| owed_drops := 0; owed_emit := d.(owed_emit);
                       owed_known := d.(owed_known) |}
          else None
      | Resubscribed s =>
          if bool_decide (d.(owed_emit) = Some s)
          then Some {| owed_drops := d.(owed_drops); owed_emit := None; owed_known := s |}
          else None
      | Ready _ s _ =>
          if settled_debt d
          then Some {| owed_drops := 0; owed_emit := None; owed_known := s |} else None
      | NoteEvent _ _ _ s =>
          if settled_debt d && (s =? d.(owed_known)) then Some d else None
      | Heartbeat _ | DecodeFailure _ _ => if settled_debt d then Some d else None
      end
  end.

Definition debtless : Owed := {| owed_drops := 0; owed_emit := None; owed_known := 0 |}.

Definition judge (log : list OutboxEntry) : option Owed :=
  fold_left (fun d e => d ≫= fun d => judge_entry d e) log (Some debtless).
Arguments judge : simpl never.
#[local] Arguments record_drop : simpl never.

Lemma judge_snoc log e : judge (log ++ [e]) = judge log ≫= fun d => judge_entry d e.
Proof. unfold judge. by rewrite fold_left_app. Qed.

(** What a sink remembers of the debt. *)
Definition owes (s : NoticeSink) (known : Z) : Owed :=
  {| owed_drops := s.(ns_dropped); owed_emit := s.(ns_resubscribed); owed_known := known |}.

Section outbox.
Variable room : nat -> SendAnswer.

(** A receiver that is gone does not come back. *)
Definition stays_closed : Prop :=
  forall i j, (i <= j)%nat -> room i = SendClosed -> room j = SendClosed.

(** Some attempt before the [n]th found the queue gone. *)
Definition gone (n : nat) : Prop := exists i, (i < n)%nat /\ room i = SendClosed.

(** [subscription] is the last one emitted. *)
Definition honest (subscription : Z) (o : Outbox) : Prop :=
  0 <= o.(out_sink).(ns_dropped) <= U64_MAX /\
  ((exists known, judge o.(out_log) = Some (owes o.(out_sink) known) /\
      default known o.(out_sink).(ns_resubscribed) = subscription) \/
   (gone o.(out_tries) /\ is_Some (judge o.(out_log)))).

(** The notes a sink is offered by the loop. *)
Definition offerable (subscription : Z) (n : ConnectionNote) : Prop :=
  match n with
  | NoteEvent _ _ _ s => s = subscription
  | Heartbeat _ | DecodeFailure _ _ => True
  | _ => False
  end.

Context (Hclosed : stays_closed).

Lemma gone_answer n : gone n -> room n = SendClosed.
Proof. intros (i & Hi & E). by apply (Hclosed i n); [lia|]. Qed.

Lemma gone_grows n m : gone n -> (n <= m)%nat -> gone m.
Proof. intros (i & ? & ?) ?. exists i. split; [lia|done]. Qed.

(** Nothing is owed. *)
Definition clear (o : Outbox) : Prop :=
  o.(out_sink).(ns_dropped) = 0 /\ o.(out_sink).(ns_resubscribed) = None.

(** Sending an ordinary note, with nothing owed. *)
Lemma send_ordinary s n o : honest s o -> clear o -> offerable s n -> honest s (send room n o).2.
Proof.
  intros [Hd H] [Hz He] Hn. unfold send, honest. destruct (room _) eqn:E; simpl; (split; [done|]).
  - destruct H as [(known & Hj & Hs)|[Hg _]]; [|apply gone_answer in Hg; congruence].
    left. exists known.
    rewrite judge_snoc, Hj. simpl. unfold settled_debt, owes. simpl. rewrite Hz, He in *. simpl in *.
    subst known. split; [|done]. rewrite ?bool_decide_true by done.
    destruct n; simpl in *; try done. subst. by rewrite Z.eqb_refl.
  - destruct H as [|[Hg ?]]; [by left|right]. split; [|done]. eapply gone_grows; [done|lia].
  - right. split; [exists o.(out_tries); split; [lia|done]|].
    destruct H as [(known & -> & _)|[_ ?]]; [done|done].
Qed.

Lemma flush_one_honest s p o : honest s o -> honest s (flush_one room p o).2.
Proof.
  intros Hh. destruct Hh as [Hd H] eqn:Eh. clear Eh. unfold flush_one, take_pending. destruct p.
  - destruct (Z.eqb_spec o.(out_sink).(ns_dropped) 0) as [|Hz]; [done|].
    unfold send. cbn. destruct (room _) eqn:E; cbn; (split; [cbn; unfold U64_MAX in *; lia|]); cbn.
    + destruct H as [(known & Hj & Hs)|[Hg _]]; [|apply gone_answer in Hg; congruence].
      left. exists known. rewrite judge_snoc, Hj. cbn. split; [|done].
      rewrite (proj2 (Z.ltb_lt _ _)), Z.eqb_refl by lia. done.
    + destruct H as [(known & Hj & Hs)|[Hg ?]]; [left; exists known; split; [|done]|right].
      * by rewrite Hj.
      * split; [|done]. eapply gone_grows; [done|lia].
    + right. split; [exists o.(out_tries); split; [lia|done]|].
      destruct H as [(known & -> & _)|[_ ?]]; done.
  - destruct o.(out_sink).(ns_resubscribed) as [e|] eqn:Ee; [|exact Hh].
    unfold send. cbn. destruct (room _) eqn:E; cbn; (split; [done|]); cbn.
    + destruct H as [(known & Hj & Hs)|[Hg _]]; [|apply gone_answer in Hg; congruence].
      left. exists e. rewrite judge_snoc, Hj. cbn. by rewrite Ee, bool_decide_true.
    + destruct H as [(known & Hj & Hs)|[Hg ?]]; [left; exists known; split; [|done]|right].
      * rewrite Hj. unfold owes. cbn. by rewrite Ee.
      * split; [|done]. eapply gone_grows; [done|lia].
    + right. split; [exists o.(out_tries); split; [lia|done]|].
      destruct H as [(known & -> & _)|[_ ?]]; done.
Qed.


Lemma flush_one_clears p o : (flush_one room p o).1 = true ->
  match p with
  | PendingOverload => (flush_one room p o).2.(out_sink).(ns_dropped) = 0 /\
      (flush_one room p o).2.(out_sink).(ns_resubscribed) = o.(out_sink).(ns_resubscribed)
  | PendingResubscribed => (flush_one room p o).2.(out_sink).(ns_resubscribed) = None /\
      (flush_one room p o).2.(out_sink).(ns_dropped) = o.(out_sink).(ns_dropped)
  end.
Proof.
  unfold flush_one, take_pending. destruct p.
  - destruct (Z.eqb_spec o.(out_sink).(ns_dropped) 0) as [|Hz]; [done|].
    unfold send. cbn. by destruct (room _).
  - destruct o.(out_sink).(ns_resubscribed) as [e|] eqn:Ee; [|done].
    unfold send. cbn. by destruct (room _).
Qed.

Lemma flush_all_honest s order o : honest s o -> honest s (flush_all room order o).2.
Proof.
  revert o. induction order as [|p order IH]; intros o H; simpl; [done|].
  pose proof (flush_one_honest s p o H) as Hp. destruct (flush_one room p o) as [[] o']; simpl in *; auto.
Qed.

Lemma flush_pending_honest s o : honest s o -> honest s (flush_pending room o).2.
Proof. apply flush_all_honest. Qed.

Lemma flush_pending_clear o : (flush_pending room o).1 = true -> clear (flush_pending room o).2.
Proof.
  unfold flush_pending, pending_order. intros H.
  destruct (_ <=? _); simpl in *;
  repeat match goal with
  | H : context [flush_one room ?p ?o] |- _ =>
      let C := fresh "C" in
      pose proof (flush_one_clears p o) as C; destruct (flush_one room p o) as [[] ?]; simpl in *
  end; try done; destruct C as [? ?], C0 as [? ?]; try done; split; congruence.
Qed.

(** ** What the loop does with its outbox *)

Lemma honest_drop s o : honest s o -> honest s (log_entry Lost (on_sink record_drop o)).
Proof.
  intros [Hd H]. unfold honest. cbn. rewrite judge_snoc.
  assert (Hr : (record_drop o.(out_sink)).(ns_dropped) = saturating_add_u64 o.(out_sink).(ns_dropped) 1
    /\ (record_drop o.(out_sink)).(ns_resubscribed) = o.(out_sink).(ns_resubscribed))
    by (unfold record_drop; by destruct (_ =? 0)).
  destruct Hr as [-> ->]. split; [unfold saturating_add_u64, U64_MAX in *; lia|].
  destruct H as [(known & -> & Hs)|[Hg [d ->]]]; [left; exists known|right; eauto].
  split; [|done]. unfold owes, record_drop. cbn. by destruct (_ =? 0).
Qed.

Lemma offer_honest s n o : honest s o -> offerable s n -> honest s (offer room n o).
Proof.
  intros H Hn. unfold offer. pose proof (flush_pending_honest s o H) as Hf.
  pose proof (flush_pending_clear o) as Hc. destruct (flush_pending room o) as [[] o']; simpl in *.
  - pose proof (send_ordinary s n o' Hf (Hc eq_refl) Hn) as Hs.
    destruct (send room n o') as [[] o'']; simpl in *; [done|by apply honest_drop].
  - by apply honest_drop.
Qed.

Lemma offer_resubscribed_honest s s' o : honest s o -> honest s' (offer_resubscribed room s' o).
Proof.
  intros [Hd H]. apply flush_pending_honest. unfold honest. cbn. rewrite judge_snoc.
  case_bool_decide; cbn; (split; [done|]);
  (destruct H as [(known & -> & Hs)|[Hg [d ->]]]; [left; exists known; done|right; eauto]).
Qed.


(** Delivering into reserved room is one flush that found room. *)
Lemma deliver_first_flush order o : room o.(out_tries) = SendAccepted ->
  let tried := {| out_sink := o.(out_sink); out_log := o.(out_log); out_tries := S o.(out_tries) |} in
  deliver_first order tried = tried \/
  exists p, deliver_first order tried = (flush_one room p o).2.
Proof.
  intros E. induction order as [|p order IH]; simpl; [by left|].
  destruct (take_pending p o.(out_sink)) as [[n|] taken] eqn:Et; [|done].
  right. exists p. unfold flush_one. rewrite Et. unfold send. simpl. by rewrite E.
Qed.

Lemma honest_tried s o :
  honest s o -> honest s {| out_sink := o.(out_sink); out_log := o.(out_log); out_tries := S o.(out_tries) |}.
Proof.
  intros [Hd H]. split; [done|]. destruct H as [|[Hg ?]]; [by left|right]. split; [|done].
  eapply gone_grows; [done|simpl; lia].
Qed.

Lemma on_reserved_honest s o : honest s o -> honest s (on_reserved room o).
Proof.
  intros Hh. pose proof (honest_tried s o Hh) as Ht. unfold on_reserved.
  destruct (room o.(out_tries)) eqn:E; [|done|].
  - unfold deliver. cbn [out_sink]. destruct (deliver_first_flush (pending_order o.(out_sink)) o E) as [->|[p ->]];
      [done|by apply flush_one_honest].
  - destruct Ht as [_ H]. split; [done|]. right. split; [exists o.(out_tries); split; [simpl; lia|done]|].
    simpl in H. destruct H as [(known & H & _)|[_ H]]; [simpl; by rewrite H|done].
Qed.

(** A reason other than an undeliverable notice leaves no loss untold. *)
Lemma finish_honest s reason o : honest s o ->
  honest s (finish room reason o).2 /\
  ((finish room reason o).1 = NoticeUndeliverable \/
   ((finish room reason o).1 = reason /\ (finish room reason o).2.(out_sink).(ns_dropped) = 0)).
Proof.
  intros Hh. pose proof (flush_pending_honest s o Hh) as Hf. unfold finish.
  destruct (flush_pending room o) as [b o']. simpl in *. split; [done|].
  destruct (Z.ltb_spec 0 o'.(out_sink).(ns_dropped)); [by left|right]. destruct Hf. split; [done|lia].
Qed.
End outbox.

(** ** Programs that always answer *)

(** From a state in [P] the program answers, with [Q] of a value and [R] of an error. *)
Definition always {S E A} (P : S -> Prop) (m : cprog S E A) (Q : A -> S -> Prop)
    (R : E -> S -> Prop) : Prop :=
  forall s, P s -> match m s with
                   | Some (Ok a, s') => Q a s'
                   | Some (Err e, s') => R e s'
                   | None => False
                   end.

Section answers.
Context {S E : Type} (P : S -> Prop) (R : E -> S -> Prop).

Lemma in_ret {A} (a : A) Q : (forall s, P s -> Q a s) -> always P (cret a) Q R.
Proof. intros H s. apply H. Qed.
Lemma in_throw {A} (e : E) (Q : A -> S -> Prop) : (forall s, P s -> R e s) -> always P (cthrow e) Q R.
Proof. intros H s. apply H. Qed.
Lemma in_lift {A} (r : result A E) (Q : A -> S -> Prop) : (forall a s, r = Ok a -> P s -> Q a s) ->
  (forall e s, r = Err e -> P s -> R e s) -> always P (clift r) Q R.
Proof. intros H1 H2 s Hs. unfold clift. destruct r; auto. Qed.
Lemma in_gets {A} (f : S -> A) Q : (forall s, P s -> Q (f s) s) -> always P (cgets f) Q R.
Proof. intros H s. apply H. Qed.
Lemma in_modify f (Q : () -> S -> Prop) : (forall s, P s -> Q () (f s)) -> always P (cmodify f) Q R.
Proof. intros H s. apply H. Qed.
Lemma in_deny b e (Q : () -> S -> Prop) : (b = false -> forall s, P s -> Q () s) -> (b = true -> forall s, P s -> R e s) ->
  always P (cdeny b e) Q R.
Proof. intros H1 H2. destruct b; [by apply in_throw; auto | by apply in_ret; auto]. Qed.
Lemma in_expect {A} (o : option A) (Q : A -> S -> Prop) : is_Some o -> (forall a s, o = Some a -> P s -> Q a s) ->
  always P (Prelude.expect o) Q R.
Proof. intros [a ->] H s Hs. simpl. auto. Qed.
Lemma in_bind {A B} (m : cprog S E A) (k : A -> cprog S E B) (M : A -> S -> Prop) Q :
  always P m M R -> (forall a, always (M a) (k a) Q R) -> always P (cbind m k) Q R.
Proof.
  intros Hm Hk s Hs. specialize (Hm s Hs). unfold cbind. destruct (m s) as [[[a|e] s']|]; simpl; try done.
  by apply Hk.
Qed.
(** A program that keeps [P] whatever it answers. *)
Lemma in_keep {A B} (m : cprog S E A) (k : A -> cprog S E B) Q :
  always P m (fun _ => P) R -> (forall a, always P (k a) Q R) -> always P (cbind m k) Q R.
Proof. apply in_bind. Qed.
Lemma in_read {A B} (f : S -> A) (k : A -> cprog S E B) Q :
  (forall s, P s -> always (fun s' => s' = s /\ P s') (k (f s)) Q R) ->
  always P (cbind (cgets f) k) Q R.
Proof. intros H s Hs. unfold cbind, cgets. simpl. by apply (H s Hs). Qed.
Lemma in_weaken {A} (P' : S -> Prop) (m : cprog S E A) (Q Q' : A -> S -> Prop) (R' : E -> S -> Prop) :
  always P' m Q' R' -> (forall s, P s -> P' s) -> (forall a s, Q' a s -> Q a s) ->
  (forall e s, R' e s -> R e s) -> always P m Q R.
Proof.
  intros H H1 H2 H3 s Hs. specialize (H s (H1 s Hs)). destruct (m s) as [[[]]|]; auto.
Qed.
End answers.

(** ** The wire *)

(** A text that is an event on the wire: here, a subscription. *)
Definition is_command (text : bytes) : bool := bool_decide (take 2 text = lit "42").

Definition commands (w : Wire) : list bytes :=
  omap (fun e => match e with Wrote text => if is_command text then Some text else None
                 | _ => None end) w.(w_effects).

(** Every command is preceded by the wait for its place in the queue of its endpoint. *)
Definition paced (effects : list WireEffect) : Prop :=
  forall before text after, effects = before ++ Wrote text :: after -> is_command text = true ->
  exists at_, last before = Some (SleptUntil at_).

Lemma paced_snoc effects e : paced effects ->
  (forall text, e = Wrote text -> is_command text = true ->
     exists at_, last effects = Some (SleptUntil at_)) -> paced (effects ++ [e]).
Proof.
  intros H He before text after E Hc. destruct after as [|x after _] using rev_ind.
  - apply app_inj_tail in E as [-> ->]. eauto.
  - rewrite app_comm_cons, app_assoc in E. apply app_inj_tail in E as [-> _]. eauto.
Qed.

Section run.
Variable env : nat -> ConnEnv.
Variable json_text : LexicalValue -> bytes.
Variable room : nat -> SendAnswer.

(** The commands written, and that each fits what was negotiated. *)
Definition wire_ok (written : list bytes) (w : Wire) : Prop :=
  commands w = written /\
  Forall (fun text => len text <= w.(w_max_command_bytes)) written /\
  paced w.(w_effects).

Lemma commands_log e w : commands (log_effect e w) =
  commands w ++ match e with Wrote text => if is_command text then [text] else [] | _ => [] end.
Proof.
  unfold commands, log_effect. cbn. rewrite omap_app. f_equal.
  destruct e; simpl; try done. by destruct (is_command text).
Qed.

(** What asking, and writing what is no command, leaves alone. *)
Definition harmless (e : WireEffect) : Prop :=
  match e with Wrote text => is_command text = false | _ => True end.
Class Steady (P : Wire -> Prop) := {
  steady_tick w : P w -> P (tick w);
  steady_log e w : harmless e -> P w -> P (log_effect e w)
}.

#[local] Instance wire_ok_steady ws : Steady (wire_ok ws).
Proof.
  split; [done|]. intros e w He (Hw & Hf & Hp). split_and!; [|done|].
  - rewrite commands_log, Hw. destruct e; simpl in *; try rewrite He; by rewrite app_nil_r.
  - apply paced_snoc; [done|]. intros text -> Hc. simpl in He. congruence.
Qed.

(** With fewer than [n] messages to read. *)
Definition reading (ws : list bytes) (n : nat) (w : Wire) : Prop :=
  wire_ok ws w /\ (length w.(w_incoming) < n)%nat.
#[local] Instance reading_steady ws n : Steady (reading ws n).
Proof.
  split; intros; destruct_and?.
  - destruct H. split; [by apply steady_tick|done].
  - destruct H0. split; [by apply steady_log|done].
Qed.

Section steady.
Context (P : Wire -> Prop) `{!Steady P}.
#[local] Abbreviation keeps m := (always P m (fun _ => P) (fun _ => P)).

Lemma consult_keeps : keeps (consult env).
Proof. intros w H. simpl. by apply steady_tick. Qed.

Lemma await_point_keeps b : keeps (await_point env b).
Proof. eapply in_keep; [apply consult_keeps|intros e]. by apply in_deny. Qed.

Lemma capture_keeps m : keeps (capture_message env m).
Proof.
  intros w Hw. unfold capture_message. destruct m; try done. destruct (w.(w_capture)); [|done].
  revert w Hw. change (keeps (e <-* consult env ;; cdeny (negb e.(ce_capture_done)) CaptureFailed ;;*
    cmodify (log_effect (Captured text)))).
  eapply in_keep; [apply consult_keeps|intros e].
  eapply in_keep; [by apply in_deny|intros _]. apply in_modify. intros w. by apply steady_log.
Qed.

Lemma send_keeps b text : is_command text = false -> keeps (send_bounded env b text).
Proof.
  intros Ht. eapply in_keep; [apply await_point_keeps|intros _].
  eapply in_keep; [apply consult_keeps|intros e].
  eapply in_keep; [by apply in_deny|intros _]. apply in_modify. intros w. by apply steady_log.
Qed.
End steady.

Lemma command_text markets :
  is_command (encode_subscribe_market_prices json_text NAMESPACE markets) = true.
Proof. reflexivity. Qed.

Lemma wire_ok_command ws text at_ w : wire_ok ws w -> is_command text = true ->
  len text <= w.(w_max_command_bytes) -> last w.(w_effects) = Some (SleptUntil at_) ->
  wire_ok (ws ++ [text]) (log_effect (Wrote text) w).
Proof.
  intros (Hw & Hf & Hp) Hc Hl Hs. split_and!.
  - by rewrite commands_log, Hw, Hc.
  - by apply Forall_app_2; [|constructor].
  - apply paced_snoc; [done|]. eauto.
Qed.

Ltac steadily := repeat first [done | apply steady_tick | apply steady_log; [done|]].

(** A complete set is written whole, or nothing is. *)
Lemma resubscribe_keeps b markets granted ws :
  always (wire_ok ws) (resubscribe env json_text b markets granted)
    (fun _ => wire_ok (ws ++ [encode_subscribe_market_prices json_text NAMESPACE markets]))
    (fun _ => wire_ok ws).
Proof.
  intros w Hw. unfold resubscribe. set (text := encode_subscribe_market_prices _ _ _).
  assert (Ht : is_command text = true) by reflexivity. clearbody text.
  unfold send_bounded, await_point, consult, cbind, cgets, clift, cret, cmodify, cdeny, cthrow, check_command_size.
  simpl. destruct (Z.ltb_spec w.(w_max_command_bytes) (len text)) as [|Hl]; simpl; [exact Hw|].
  destruct granted; simpl;
    repeat match goal with |- context [if ?c then _ else _] => destruct c; simpl end; steadily;
    (eapply wire_ok_command; [steadily|done|done|]); cbn; by rewrite last_snoc.
Qed.

Ltac steady l := apply l; try apply _; try done.

Lemma next_text_reads ws l : always (wire_ok ws) (next_text env l)
  (fun _ => reading ws (length l)) (fun _ => wire_ok ws).
Proof.
  induction l as [|item rest IH]; [by apply in_throw|]. simpl.
  eapply in_keep; [steady await_point_keeps|intros _].
  eapply (in_bind _ _ _ _ (fun _ => reading ws (S (length rest)))).
  { apply in_modify. intros w Hw. split; [done|simpl; lia]. }
  intros _. destruct item as [m| |]; [|by apply in_throw; intros w []..].
  eapply (in_bind _ _ _ _ (fun _ => reading ws (S (length rest)))).
  { eapply (in_weaken _ _ (reading ws (S (length rest)))); [steady capture_keeps|done|done|by intros ? w []]. }
  intros _. destruct m; [by apply in_ret|..];
  (eapply in_weaken; [apply IH|by intros w []|intros ? w []; split; [done|lia]|done]).
Qed.

Lemma next_frame_reads ws n : always (reading ws (S n)) (next_frame env)
  (fun _ => reading ws n) (fun _ => wire_ok ws).
Proof.
  apply in_read. intros w0 H0. eapply (in_bind _ _ _ _ (fun _ => reading ws n)).
  { eapply in_weaken; [apply next_text_reads|by intros w [_ []]|intros ? w []|done].
    split; [done|]. destruct H0. lia. }
  intros text. apply in_read. intros w1 _.
  destruct (decode_frame_total text TextFrame w1.(w_limits)) as [r Er].
  eapply (in_bind _ _ _ _ (fun _ => reading ws n)); [apply in_expect; [done|by intros ?? ? []]|].
  intros decoded. eapply (in_bind _ _ _ _ (fun _ => reading ws n)); [by apply in_lift; [|intros ??? []]|].
  intros frame. case_bool_decide; [|by apply in_ret].
  eapply (in_bind _ _ _ _ (fun _ => reading ws n)); [|intros; by apply in_ret].
  eapply (in_weaken _ _ (reading ws n)); [steady send_keeps|done|done|by intros ? w []].
Qed.

Lemma await_namespace_keeps ws fuel : always (reading ws fuel) (await_namespace env fuel)
  (fun _ => wire_ok ws) (fun _ => wire_ok ws).
Proof.
  induction fuel as [|fuel IH]; [by intros w [_ ?]; lia|]. simpl.
  eapply in_bind; [apply next_frame_reads|]. intros frame.
  case_bool_decide; [|done]. destruct frame.(socket_io) as [[]|]; try done;
    [apply in_ret|apply in_throw]; by intros w [].
Qed.

Lemma establish_keeps markets : always (wire_ok []) (establish env json_text markets)
  (fun n w => n = 1 /\ wire_ok [encode_subscribe_market_prices json_text NAMESPACE markets] w)
  (fun _ w => exists ws, wire_ok ws w).
Proof.
  assert (Hn : forall (e : ConnectionEndReason) w, wire_ok [] w -> exists ws, wire_ok ws w) by eauto.
  unfold establish. eapply (in_bind _ _ _ _ (fun _ => wire_ok [])).
  { eapply (in_weaken _ _ (wire_ok [])); [steady send_keeps|done|done|eauto]. }
  intros _. apply in_read. intros w0 H0. eapply (in_bind _ _ _ _ (fun _ => wire_ok [])).
  { eapply in_weaken; [apply (await_namespace_keeps [])| |done|eauto]. intros w [-> ?]. split; [done|lia]. }
  intros _. eapply in_bind; [eapply in_weaken; [apply (resubscribe_keeps _ _ _ [])|done|intros ? ? H; exact H|eauto]|].
  intros ?. by apply in_ret.
Qed.

Lemma await_open_keeps : always (wire_ok []) (await_open env) (fun _ => wire_ok []) (fun _ => wire_ok []).
Proof.
  unfold await_open. eapply (in_bind _ _ _ _ (fun _ => wire_ok [])).
  { intros w Hw. assert (Hr : reading [] (S (length w.(w_incoming))) w) by (split; [done|lia]).
    pose proof (next_frame_reads [] (length w.(w_incoming)) w Hr) as H.
    destruct (next_frame env w) as [[[] ]|]; try done. by destruct H. }
  intros frame. eapply in_keep; [by apply in_deny|intros _].
  eapply in_keep; [by apply in_lift|intros payload]. eapply in_keep; [by apply in_lift|intros open].
  eapply in_keep; [steady consult_keeps|intros e]. by apply in_ret.
Qed.

(** ** The loop *)

Context (Hclosed : stays_closed room).

Definition complete_set (markets : list bytes) : bytes :=
  encode_subscribe_market_prices json_text NAMESPACE markets.

(** The loop wants [desired]; what it wrote last was the set [written]. *)
Record loop_at (written desired : list bytes) (l : Loop) : Prop := {
  la_honest : honest room l.(lp_subscription) l.(lp_out);
  la_wire : exists ws, wire_ok ws l.(lp_wire) /\ last ws = Some (complete_set written) /\
            l.(lp_subscription) = Z.min U64_MAX (len ws);
  la_desired : l.(lp_markets) = desired
}.

(** The loop has returned. *)
Record ended (reason : ConnectionEndReason) (l : Loop) : Prop := {
  en_honest : honest room l.(lp_subscription) l.(lp_out);
  en_wire : exists ws, wire_ok ws l.(lp_wire) /\ l.(lp_subscription) = Z.min U64_MAX (len ws);
  en_told : reason = NoticeUndeliverable \/ l.(lp_out).(out_sink).(ns_dropped) = 0
}.

Lemma end_with_ended {A} reason d m (Q : A -> Loop -> Prop) :
  always (loop_at d m) (end_with room reason) Q ended.
Proof.
  intros l [Hh (ws & Hw & _ & Hs) _]. unfold end_with.
  destruct (finish_honest room Hclosed _ reason _ Hh) as [H1 H2].
  destruct (finish room reason l.(lp_out)) as [r o]. simpl in *. split; simpl; [done|eauto|].
  destruct H2 as [|[_ ?]]; [by left|by right].
Qed.

(** A wire program that writes no command. *)
Lemma or_end_keeps {A} (m : cprog Wire ConnectionEndReason A) f d k :
  (forall ws, always (wire_ok ws) m (fun _ => wire_ok ws) (fun _ => wire_ok ws)) ->
  always (loop_at d k) (or_end room f m) (fun _ => loop_at d k) ended.
Proof.
  intros Hm. eapply (in_bind _ _ _ _ (fun _ => loop_at d k)).
  - intros l [Hh (ws & Hw & Hl & Hs) Hk]. unfold wired. specialize (Hm ws _ Hw).
    destruct (m l.(lp_wire)) as [[r w]|]; [|done]. simpl. split; [done| |done].
    exists ws. split; [by destruct r|done].
  - intros [a|e]; [by apply in_ret|apply end_with_ended].
Qed.

Lemma tell_keeps n d k : (forall s, offerable s n) ->
  always (loop_at d k) (tell room n) (fun _ => loop_at d k) ended.
Proof. intros Hn. apply in_modify. intros l []. split; [by apply offer_honest|done|done]. Qed.

Lemma on_command_keeps c d :
  always (loop_at d d) (on_command env json_text room c) (fun _ l => exists d, loop_at d d l) ended.
Proof.
  eapply (in_bind _ _ _ _ (fun _ l => exists k, loop_at d k l)).
  { destruct c; [apply in_ret; eauto|]. eapply (in_bind _ _ _ _ (fun _ l => exists k, loop_at d k l)).
    - apply in_modify. intros l [Hh Hw _]. eexists. by split.
    - intros _. by apply in_ret. }
  intros granted. apply in_read. intros l0 _.
  set (mid := fun l => exists n, honest room n l.(lp_out) /\ exists ws, wire_ok ws l.(lp_wire) /\
    last ws = Some (complete_set l.(lp_markets)) /\
    saturating_add_u64 l.(lp_subscription) 1 = Z.min U64_MAX (len ws)).
  eapply (in_bind _ _ _ _ (fun _ => mid)).
  - intros l [<- [k [Hh (ws & Hw & Hl & Hs) Hk]]]. unfold or_end, cbind, wired.
    pose proof (resubscribe_keeps false l.(lp_markets) granted ws _ Hw) as Hr.
    destruct (resubscribe _ _ _ _ _ _) as [[[u|e] w]|]; [| |done].
    + eexists. split; [exact Hh|]. eexists. split; [exact Hr|]. simpl. rewrite last_snoc.
      split; [done|]. unfold len. rewrite length_app. simpl. unfold saturating_add_u64, len in *. lia.
    + eapply (end_with_ended e d k). split; [done|eauto|done].
  - intros _. apply in_read. intros l1 _.
    eapply (in_bind _ _ _ _ (fun _ l => exists n, honest room n l.(lp_out) /\ exists ws, wire_ok ws l.(lp_wire) /\
      last ws = Some (complete_set l.(lp_markets)) /\ l.(lp_subscription) = Z.min U64_MAX (len ws) /\
      l.(lp_subscription) = saturating_add_u64 l1.(lp_subscription) 1)).
    + apply in_modify. intros l [-> (n & Hh & ws & Hw & Hl & Hs)]. exists n. split; [done|].
      exists ws. by split_and!.
    + intros _. apply in_modify. intros l (n & Hh & ws & Hw & Hl & Hs & E). eexists. split; [| |done].
      * simpl. rewrite E. by apply (offer_resubscribed_honest room Hclosed n).
      * eauto.
Qed.

Lemma pong_keeps ws : always (wire_ok ws) (send_bounded env false encode_engine_pong)
  (fun _ => wire_ok ws) (fun _ => wire_ok ws).
Proof. by apply send_keeps; [apply _|]. Qed.

Lemma on_frame_keeps frame r a d k :
  always (loop_at d k) (on_frame env room frame r a) (fun _ => loop_at d k) ended.
Proof.
  unfold on_frame. destruct (terminal_frame_reason _ _); [apply end_with_ended|].
  eapply (in_bind _ _ _ _ (fun _ => loop_at d k)).
  { case_bool_decide; [|by apply in_ret]. eapply in_keep; [apply or_end_keeps, pong_keeps|intros _].
    by apply tell_keeps. }
  intros _. destruct frame.(event_name) as [name|]; [|by apply in_ret].
  destruct (decode_event_total frame) as [x Ex].
  eapply (in_bind _ _ _ _ (fun _ => loop_at d k)); [by apply in_expect|intros [event|error]].
  - apply in_read. intros l0 H0. apply in_modify. intros l [-> []]. split; [|done|done].
    by apply offer_honest.
  - apply in_read. intros l0 _. eapply in_weaken; [by apply tell_keeps|by intros ? []|done|done].
Qed.

Lemma on_message_keeps m d k :
  always (loop_at d k) (on_message env room m) (fun _ => loop_at d k) ended.
Proof.
  unfold on_message. eapply (in_bind _ _ _ _ (fun _ => loop_at d k)).
  { apply in_modify. by intros l []. }
  intros _. eapply in_keep; [apply or_end_keeps; intros; steady consult_keeps|intros e].
  eapply in_keep; [apply or_end_keeps; intros; steady capture_keeps|intros _].
  apply in_read. intros l0 _. destruct (wire_view m) as [opcode text].
  destruct (decode_frame_total text opcode l0.(lp_wire).(w_limits)) as [x Ex].
  eapply (in_bind _ _ _ _ (fun _ => loop_at d k)); [apply in_expect; [done|by intros ??? []]|].
  intros [frame|error]; [apply on_frame_keeps|by apply tell_keeps].
Qed.

Definition loop_ok (l : Loop) : Prop := exists d, loop_at d d l.

Lemma loop_turn_keeps t : always loop_ok (loop_turn env json_text room t) (fun _ => loop_ok) ended.
Proof.
  intros l [d Hd]. revert l Hd. change (always (loop_at d d) (loop_turn env json_text room t)
    (fun _ => loop_ok) ended).
  assert (Hok : forall l, loop_at d d l -> loop_ok l) by (intros l ?; by exists d).
  eapply (in_bind _ _ _ _ (fun _ => loop_at d d)).
  { apply in_modify. intros l []. split; [by apply flush_pending_honest|done|done]. }
  intros _. apply in_read. intros l0 _. destruct t as [|command|].
  - destruct (has_pending _); [|apply in_ret; intros ? []; auto].
    apply in_modify. intros l [_ []]. apply Hok. split; [by apply on_reserved_honest|done|done].
  - destruct (lp_commandable _); [|apply in_ret; intros ? []; auto].
    destruct command; [|apply in_modify; intros l [_ []]; by apply Hok].
    eapply in_weaken; [apply on_command_keeps|by intros ? []|done|done].
  - destruct (w_incoming _) as [|item rest]; [apply in_ret; intros ? []; auto|].
    eapply (in_bind _ _ _ _ (fun _ => loop_at d d)).
    { apply in_modify. by intros l [_ []]. }
    intros _. destruct item; [|apply end_with_ended..].
    eapply in_weaken; [apply on_message_keeps|done|auto|done].
Qed.

Lemma read_loop_keeps turns : always loop_ok (read_loop env json_text room turns) (fun _ => loop_ok) ended.
Proof.
  induction turns as [|t turns IH]; simpl; [by apply in_ret|].
  eapply in_bind; [apply loop_turn_keeps|done].
Qed.

Lemma set_up_ok generation config : always (wire_ok []) (set_up env json_text generation config)
  (fun l _ => loop_ok l) (fun _ _ => True).
Proof.
  unfold set_up. eapply in_bind; [eapply in_weaken; [apply await_open_keeps|done|intros ?? H; exact H|done]|].
  intros [open observed]. eapply (in_bind _ _ _ _ (fun _ => wire_ok [])).
  { apply in_modify. intros w (? & _ & ?). split_and!; [done|constructor|done]. }
  intros _. eapply in_bind; [eapply in_weaken; [apply establish_keeps|done|intros ?? H; exact H|done]|].
  intros n. eapply (in_bind _ _ _ _ (fun _ w => n = 1 /\ wire_ok [complete_set config.(cc_markets)] w)).
  { intros w [? Hw]. split; [done|]. by apply steady_tick. }
  intros e. eapply (in_bind _ _ _ _ (fun _ w => n = 1 /\ wire_ok [complete_set config.(cc_markets)] w));
    [by apply in_deny|intros _].
  apply in_read. intros w0 [-> H0]. apply in_ret. intros w _. exists config.(cc_markets). split; simpl; [|eauto|done].
  split; [unfold U64_MAX; simpl; lia|]. left. by exists 1.
Qed.

Ltac answered := do 2 eexists; split; [reflexivity|done].

Lemma run_connection_runs generation config opened dial turns : exists r l,
  run_connection env json_text room generation config opened dial turns = Some (r, l) /\
  match r, l with
  | Ok _, Some l => loop_ok l
  | Ok _, None => False
  | Err reason, Some l => ended reason l
  | Err _, None => True
  end.
Proof.
  unfold run_connection. destruct (_ && _); [answered|]. destruct dial as [| |incoming]; [answered..|].
  assert (H0 : wire_ok [] (fresh_wire config incoming)).
  { split_and!; [done|constructor|]. intros before text after E. by destruct before. }
  pose proof (set_up_ok generation config _ H0) as H.
  destruct (set_up _ _ _ _ _) as [[[l|e] w]|]; simpl; [|answered|done].
  pose proof (read_loop_keeps turns l H) as Hr.
  destruct (read_loop _ _ _ _ _) as [[[[]|e] l']|]; simpl; [answered..|done].
Qed.
End run.

(** ** The theorems *)

(** C10: A supervisor is never deceived by a queue that overflowed. Whatever arrives, whatever is
    commanded and whenever the queue has room, a connection runs without a panic, and what
    its queue took satisfies the contract [judge]: every loss is reported by its count, and a
    re-emitted subscription by its number, before any ordinary notice that followed it; each
    event names the subscription the supervisor knows of. While the supervisor is there, the
    sink remembers exactly what it is owed; and a generation that ends holding a loss nobody
    was told of ends as undeliverable. *)
Theorem connection_keeps_its_word env json_text room generation config opened dial turns :
  stays_closed room ->
  exists r l, run_connection env json_text room generation config opened dial turns = Some (r, l) /\
  (r = Ok () -> is_Some l) /\
  forall loop, l = Some loop ->
    let sink := loop.(lp_out).(out_sink) in
    exists owed, judge loop.(lp_out).(out_log) = Some owed /\
      (gone room loop.(lp_out).(out_tries) \/
       (owed.(owed_drops) = sink.(ns_dropped) /\ owed.(owed_emit) = sink.(ns_resubscribed) /\
        default owed.(owed_known) owed.(owed_emit) = loop.(lp_subscription))) /\
      forall reason, r = Err reason -> reason = NoticeUndeliverable \/ sink.(ns_dropped) = 0.
Proof.
  intros Hc. destruct (run_connection_runs env json_text room Hc generation config opened dial turns)
    as (r & l & E & H). exists r, l. split; [done|]. split; [intros ->; by destruct l|].
  intros loop ->. simpl. assert (Hh : honest room loop.(lp_subscription) loop.(lp_out) /\
    forall reason, r = Err reason -> reason = NoticeUndeliverable \/ loop.(lp_out).(out_sink).(ns_dropped) = 0).
  { destruct r as [|reason]; [destruct H as [d []]|destruct H]; split; try done. by intros ? [= <-]. }
  destruct Hh as [[_ [(known & Hj & Hs)|[Hg [owed Hj]]]] He].
  - exists (owes loop.(lp_out).(out_sink) known). split; [done|]. split; [|done]. right. by split_and!.
  - exists owed. split; [done|]. split; [by left|done].
Qed.

(** C11: Subscriptions on the wire. However long a generation runs, the commands it has written
    number what it stamps its events with, each was whole and within the payload the venue
    negotiated, each was written directly after the wait for the place its endpoint's queue
    gave it, and the last one is the complete set the connection wants. *)
Theorem subscriptions_on_the_wire env json_text room generation config opened dial turns r loop :
  stays_closed room ->
  run_connection env json_text room generation config opened dial turns = Some (r, Some loop) ->
  let written := commands loop.(lp_wire) in
  loop.(lp_subscription) = Z.min U64_MAX (len written) /\
  Forall (fun text => len text <= loop.(lp_wire).(w_max_command_bytes)) written /\
  paced loop.(lp_wire).(w_effects) /\
  (r = Ok () -> last written =
     Some (encode_subscribe_market_prices json_text NAMESPACE loop.(lp_markets))).
Proof.
  intros Hc E. destruct (run_connection_runs env json_text room Hc generation config opened dial turns)
    as (r' & l' & E' & H). rewrite E in E'. injection E' as <- <-. simpl.
  destruct r as [[]|reason].
  - destruct H as [d [_ (ws & (<- & Hf & Hp) & Hl & Hs) ->]]. by split_and!.
  - destruct H as [_ (ws & (<- & Hf & Hp) & Hs) _]. split_and!; try done.
Qed.

(** ** A generation whose first notice finds no room *)

Definition demo_env (n : nat) : ConnEnv :=
  {| ce_now := 7; ce_wall := Some 70; ce_pacers := ∅; ce_write_done := true;
     ce_capture_done := true; ce_elapsed := false; ce_announced := true |}.
Definition demo_json (v : LexicalValue) : bytes := lit "[]".
Definition demo_room (n : nat) : SendAnswer := if bool_decide (n = 0%nat) then SendFull else SendAccepted.
Definition demo_config : ConnectionConfig :=
  {| cc_endpoint := lit "wss"; cc_markets := [lit "a"; lit "b"]; cc_setup_timeout := 100;
     cc_capture := false; cc_min_command_interval := 10 |}.
Definition demo_incoming : list Incoming :=
  (fun text => Arrived (MessageText text)) <$>
  [lit "0" ++ json (lit "{'sid':'s','pingInterval':25000,'pingTimeout':20000,'maxPayload':65536}");
   lit "40/markets,"; lit "2"; lit "2"].
Definition demo_turns : list Turn :=
  [OnMessage; OnMessage; OnControl (Some (Replace [lit "c"]))].
#[local] Abbreviation demo_run := (run_connection demo_env demo_json demo_room 3 demo_config true
  (Dialled demo_incoming) demo_turns).
Definition demo_loop : Loop := Eval vm_compute in
  match demo_run with
  | Some (_, Some l) => l
  | _ => {| lp_wire := fresh_wire demo_config []; lp_out := {| out_sink := sink_new 3; out_log := []; out_tries := 0 |};
            lp_markets := []; lp_subscription := 0; lp_frames := 0; lp_commandable := false |}
  end.

Lemma demo_stays_closed : stays_closed demo_room.
Proof. intros i j _. unfold demo_room. by case_bool_decide. Qed.

Lemma demo_runs : demo_run = Some (Ok (), Some demo_loop).
Proof. vm_compute. reflexivity. Qed.

Lemma demo_told : omap (fun e => match e with Told n => Some n.(note) | _ => None end)
    demo_loop.(lp_out).(out_log) =
  [Ready {| sid := lit "s"; ping_interval_ms := 25000; ping_timeout_ms := 20000;
            max_payload_bytes := 65536 |} 1 7; Overload 1; Heartbeat 7; Resubscribed 2].
Proof. vm_compute. reflexivity. Qed.

Lemma connection_keeps_its_word_witness :
  stays_closed demo_room /\ exists owed, judge demo_loop.(lp_out).(out_log) = Some owed.
Proof.
  split; [exact demo_stays_closed|].
  destruct (connection_keeps_its_word demo_env demo_json demo_room 3 demo_config true
    (Dialled demo_incoming) demo_turns demo_stays_closed) as (r & l & E & _ & Hl).
  rewrite demo_runs in E. injection E as <- <-.
  destruct (Hl demo_loop eq_refl) as (owed & Hj & _). by exists owed.
Defined.

Lemma subscriptions_on_the_wire_witness :
  demo_run = Some (Ok (), Some demo_loop) /\
  last (commands demo_loop.(lp_wire)) = Some (lit "42/markets,[]") /\
  paced demo_loop.(lp_wire).(w_effects).
Proof.
  destruct (subscriptions_on_the_wire demo_env demo_json demo_room 3 demo_config true
    (Dialled demo_incoming) demo_turns (Ok ()) demo_loop demo_stays_closed demo_runs) as (_ & _ & Hp & Hl).
  split; [exact demo_runs|]. split; [exact (Hl eq_refl)|exact Hp].
Defined.
