(* ===== verification/Supervisor.v ===== *)
(** * The supervisor of one market ([src/src/limitless/supervisor.rs])

    A supervisor keeps one connection per slot, a primary and its standbys, and turns what
    their connections report into one book: which connection publishes, what a lost or
    fenced one costs, when a standby takes over, how a lost base is recovered. A handler is a
    function from the supervisor to the supervisor; what it asks of its environment (the
    clock, whether a task has ended, the process-wide ledger and pacers, what has arrived in
    its queue) is answered by [env], one answer per question, and what it does to other tasks
    is recorded as [Effect]s. The channels of a book are those of [Channel]; the segment is
    the interface [SegmentSink]. *)

From stdpp Require Import gmap.
From S2P Require Import Prelude Connection OrdMap Numeric Identity Descriptor DedupKey Continuity Observation Book Digest Pool Channel Observer Session Limitless Pacing.

(** ** Connections *)

Definition CONNECTION_NAME : bytes := lit "limitless-markets".
Definition ORDERBOOK_UPDATE_EVENT : bytes := lit "orderbookUpdate".
Definition MARKET_RESOLVED_EVENT : bytes := lit "marketResolved".
Definition MAX_COMMAND_INTERVAL_MS : Z := 60000.
Definition MAX_REPLICAS : Z := 4.

(** ** Configuration *)

(** Durations in nanoseconds. The files of a capture are not modelled. *)
Record SupervisorConfig : Set := {
  cfg_endpoint : bytes; cfg_market : bytes; cfg_kill_primary_after : option Z;
  cfg_ingest_capacity : Z; cfg_observer_capacity : Z; cfg_level_capacity : Z;
  cfg_replicas : Z; cfg_pooled : bool; cfg_initial_backoff : Z; cfg_max_backoff : Z;
  cfg_exhausted_backoff : Z; cfg_resubscribe_window : Z; cfg_max_recovery_attempts : Z;
  cfg_fenced_linger : Z; cfg_stable_after : Z; cfg_daemon_generation : Z;
  cfg_log_dedup_keys : bool; cfg_daily_attempt_budget : Z; cfg_min_command_interval_ms : Z
}.

Inductive SupervisorError : Set :=
| SupMarket (error : IdentityError)
| SupLevelCapacity (error : ObservationError)
| SupObserverCapacity (error : BookError)
| RecoveryAttemptsZero | IngestCapacityZero | ReplicasOutOfRange
| DailyAttemptBudgetTooLarge | CommandIntervalTooLarge
| SupPool (error : PoolError).

(** ** Counters *)

(** The [u64] fields of [SupervisorStats] that handlers count in; what [finish] copies out of
    the gate is read there. *)
Inductive Counter : Set :=
| connection_attempts | attempts_clamped | fenced_generations | fenced_events
| events_orderbook | events_resolved | events_unknown | snapshots_applied
| shadow_snapshots_applied | mutations_derived | continuity_losses | promotions
| promotions_refused | overload_drops | diagnostics_dropped | resubscribes_emitted
| resubscribes_escalated | recovery_base_unavailable.

#[export] Instance Counter_eq_dec : EqDecision Counter.
Proof. solve_decision. Defined.

Record SupervisorStats : Set := { counter : Counter -> Z; decode_failures : gmap bytes Z }.

Definition stats_default : SupervisorStats := {| counter := fun _ => 0; decode_failures := ∅ |}.
Definition stats_add (c : Counter) (n : Z) (s : SupervisorStats) : SupervisorStats :=
  {| counter := fun d => if bool_decide (d = c) then saturating_add_u64 (s.(counter) d) n
                         else s.(counter) d;
     decode_failures := s.(decode_failures) |}.
Definition stats_record_failure (key : bytes) (s : SupervisorStats) : SupervisorStats :=
  {| counter := s.(counter);
     decode_failures :=
       <[key := wrapping_add_u64 (default 0 (s.(decode_failures) !! key)) 1]>
         s.(decode_failures) |}.

(** ** Slots *)

Inductive Slot : Set := Primary | StandbySlot (index : nat).

#[export] Instance Slot_eq_dec : EqDecision Slot.
Proof. solve_decision. Defined.

Definition slot_role (self : Slot) : ReplicaRole :=
  match self with Primary => PublishingPrimaryRole | StandbySlot _ => HotStandbyRole end.
Definition slot_index (self : Slot) : nat :=
  match self with Primary => 0%nat | StandbySlot index => S index end.
Definition slot_from_index (index : nat) : Slot :=
  match index with O => Primary | S index => StandbySlot index end.

Record ConnectionStamp : Set := {
  stamp_generation : Z; stamp_subscription : Z; stamp_arrival : Z
}.

Inductive RecoveryAttempt : Set :=
| Pending (at_ : Z) | Requested (at_ : Z) | Awaiting (at_ : Z) | Unreachable.

Definition wake_at (self : RecoveryAttempt) : option Z :=
  match self with
  | Pending at_ | Requested at_ | Awaiting at_ => Some at_
  | Unreachable => None
  end.

(** The task and its control channel are named by the generation. *)
Record ActiveConnection : Set := {
  generation : Z; spawned_at : Z; ac_heartbeat_deadline : option Z; last_heartbeat : option Z;
  ac_subscription : Z; produced_base : bool; recovery : option RecoveryAttempt
}.

Definition heartbeat_expiry (self : ActiveConnection) : option Z :=
  match self.(last_heartbeat), self.(ac_heartbeat_deadline) with
  | Some at_, Some deadline => Some (at_ + deadline)
  | _, _ => None
  end.

Definition is_established (self : ActiveConnection) : bool := 0 <? self.(ac_subscription).

Definition set_heartbeats (deadline last : option Z) (a : ActiveConnection) : ActiveConnection :=
  {| generation := a.(generation); spawned_at := a.(spawned_at);
     ac_heartbeat_deadline := deadline; last_heartbeat := last;
     ac_subscription := a.(ac_subscription); produced_base := a.(produced_base);
     recovery := a.(recovery) |}.
Definition set_subscription (n : Z) (a : ActiveConnection) : ActiveConnection :=
  {| generation := a.(generation); spawned_at := a.(spawned_at);
     ac_heartbeat_deadline := a.(ac_heartbeat_deadline); last_heartbeat := a.(last_heartbeat);
     ac_subscription := n; produced_base := a.(produced_base); recovery := a.(recovery) |}.
Definition set_produced_base (b : bool) (a : ActiveConnection) : ActiveConnection :=
  {| generation := a.(generation); spawned_at := a.(spawned_at);
     ac_heartbeat_deadline := a.(ac_heartbeat_deadline); last_heartbeat := a.(last_heartbeat);
     ac_subscription := a.(ac_subscription); produced_base := b; recovery := a.(recovery) |}.
Definition set_recovery (r : option RecoveryAttempt) (a : ActiveConnection) : ActiveConnection :=
  {| generation := a.(generation); spawned_at := a.(spawned_at);
     ac_heartbeat_deadline := a.(ac_heartbeat_deadline); last_heartbeat := a.(last_heartbeat);
     ac_subscription := a.(ac_subscription); produced_base := a.(produced_base);
     recovery := r |}.

Record FencedConnection : Set := { fenced_generation : Z; expires_at : Z }.

Record ConnectionSlot : Set := {
  active : option ActiveConnection; fenced : option FencedConnection;
  reconnect_at : option Z; backoff_attempt : Z
}.

Definition slot_default : ConnectionSlot :=
  {| active := None; fenced := None; reconnect_at := None; backoff_attempt := 0 |}.
Definition set_active (a : option ActiveConnection) (s : ConnectionSlot) : ConnectionSlot :=
  {| active := a; fenced := s.(fenced); reconnect_at := s.(reconnect_at);
     backoff_attempt := s.(backoff_attempt) |}.
Definition set_fenced (f : option FencedConnection) (s : ConnectionSlot) : ConnectionSlot :=
  {| active := s.(active); fenced := f; reconnect_at := s.(reconnect_at);
     backoff_attempt := s.(backoff_attempt) |}.
Definition set_reconnect (r : option Z) (s : ConnectionSlot) : ConnectionSlot :=
  {| active := s.(active); fenced := s.(fenced); reconnect_at := r;
     backoff_attempt := s.(backoff_attempt) |}.
Definition set_backoff (n : Z) (s : ConnectionSlot) : ConnectionSlot :=
  {| active := s.(active); fenced := s.(fenced); reconnect_at := s.(reconnect_at);
     backoff_attempt := n |}.

Record Standby : Set := {
  sb_slot : ConnectionSlot; shadow : OrderBook; assigned : option ConnectionIdentity;
  sb_state : StandbyState
}.

Definition set_sb_slot (s : ConnectionSlot) (b : Standby) : Standby :=
  {| sb_slot := s; shadow := b.(shadow); assigned := b.(assigned); sb_state := b.(sb_state) |}.
Definition set_shadow (o : OrderBook) (b : Standby) : Standby :=
  {| sb_slot := b.(sb_slot); shadow := o; assigned := b.(assigned); sb_state := b.(sb_state) |}.
Definition set_assigned (c : option ConnectionIdentity) (b : Standby) : Standby :=
  {| sb_slot := b.(sb_slot); shadow := b.(shadow); assigned := c; sb_state := b.(sb_state) |}.
Definition set_sb_state (s : StandbyState) (b : Standby) : Standby :=
  {| sb_slot := b.(sb_slot); shadow := b.(shadow); assigned := b.(assigned); sb_state := s |}.

Inductive SourceSwitch : Set := Promote (index : nat) | Refuse (why : AuthorityReason) | Absent.

Inductive SupervisorNotice : Set :=
| NoticeConnected (generation : Z) (replica : ReplicaRole) (open : EngineIoOpen) (subscription : Z)
| NoticeEvent (event : LimitlessEvent)
| NoticeContinuityLoss (continuity : ContinuityReason) (authority : AuthorityReason)
| NoticeSourceTransition (source : SourceState)
| NoticeFenced (generation : Z)
| NoticeReconnecting (generation : Z) (replica : ReplicaRole) (delay_ms : Z)
| NoticeResubscribing (generation : Z) (replica : ReplicaRole)
| NoticeRecoveryBaseUnavailable (attempts : Z)
| NoticeAcceptedUpdate (market : bytes) (position generation : Z) (replica : ReplicaRole)
    (key : result (option DedupKey) DedupKeyError) (digest : ContentDigest)
| NoticePoolDegraded (violation : PoolViolation) (generation : Z).

(** What a handler does to a connection's task. *)
Inductive Effect : Set :=
| Spawned (generation : Z)
| Aborted (generation : Z)
| Resubscribe (generation granted_at : Z).

(** ** Judgements that need no state *)

Definition resolution_fits_the_ring (outcome_capacity type_capacity date_capacity : Z)
    (resolution : MarketResolution) : bool :=
  match text_value resolution.(observation).(winner) with
  | Some outcome => len outcome <=? outcome_capacity
  | None => false
  end
  && (len resolution.(observation).(native_label).(label_text) <=? type_capacity)
  && (len resolution.(resolution_date).(timestamp_lexeme) <=? date_capacity).

Fixpoint same_levels (ls rs : list Level) : bool :=
  match ls, rs with
  | [], [] => true
  | l :: ls, r :: rs =>
      bool_decide (l.(side) = r.(side))
      && bool_decide (decimal_cmp l.(price).(price_value) r.(price).(price_value) = Eq)
      && bool_decide (decimal_cmp l.(quantity).(quantity_value) r.(quantity).(quantity_value) = Eq)
      && same_levels ls rs
  | _, _ => false
  end.

Definition books_economically_equal (left right : PublishedBook) : bool :=
  bool_decide (left.(published_market) = right.(published_market))
  && same_levels left.(published_levels) right.(published_levels).

Definition agreement (shadow : OrderBook) (published : PublishedBook) : StandbyState :=
  if negb (bool_decide (shadow.(authority) = Live)) then Divergent ContinuityMismatch
  else if books_economically_equal (publish shadow) published then Agreeing
  else Divergent ContentMismatch.

Definition end_reason_mapping (reason : ConnectionEndReason) : ContinuityReason * AuthorityReason :=
  (Reconnect,
   match reason with
   | Terminal NamespaceDisconnect | Terminal NamespaceConnectError | ResubscribeTimedOut
   | SubscriptionReplaced => ASubscriptionLost
   | CaptureFailed | TaskFailed => ALocalLoss
   | NoticeUndeliverable => AOverload
   | _ => ADisconnect
   end).

Definition refusal_reason (verdict : StandbyState) (ended : ConnectionEndReason) :
    AuthorityReason :=
  match verdict with
  | Divergent ContentMismatch => AReplicaDivergence
  | _ => (end_reason_mapping ended).2
  end.

Definition replica_failure (reason : ConnectionEndReason) : ReplicaFailureReason :=
  match reason with
  | Terminal NamespaceDisconnect | Terminal NamespaceConnectError | HandshakeFailed
  | SubscribeFailed => FProtocol
  | NoticeUndeliverable => FOverload
  | _ => FDisconnect
  end.

#[export] Instance PublishingPrimary_eq_dec : EqDecision PublishingPrimary.
Proof. solve_decision. Defined.
#[export] Instance RecoveryReplica_eq_dec : EqDecision RecoveryReplica.
Proof. solve_decision. Defined.
#[export] Instance DivergenceReason_eq_dec : EqDecision DivergenceReason.
Proof. solve_decision. Defined.
#[export] Instance ReplicaFailureReason_eq_dec : EqDecision ReplicaFailureReason.
Proof. solve_decision. Defined.
#[export] Instance StandbyState_eq_dec : EqDecision StandbyState.
Proof. solve_decision. Defined.
#[export] Instance PoolSocketState_eq_dec : EqDecision PoolSocketState.
Proof. solve_decision. Defined.
#[export] Instance SourceState_eq_dec : EqDecision SourceState.
Proof. solve_decision. Defined.

Definition topology_changed (previous next : SourceState) : bool :=
  if negb (pool_capacity previous =? pool_capacity next)
     || negb (bool_decide (pool_degraded previous = pool_degraded next)) then true
  else if 0 <? pool_capacity previous
  then negb (bool_decide (pool_sockets previous = pool_sockets next))
  else negb (bool_decide (previous = next)).

Definition book_error_key (error : BookError) : bytes :=
  match error with
  | MarketMismatch => lit "book:MarketMismatch"
  | UnsupportedCandidateOperation => lit "book:UnsupportedCandidateOperation"
  | DuplicateLevelCoordinate => lit "book:DuplicateLevelCoordinate"
  | EmptyDelta => lit "book:EmptyDelta"
  | NoEstablishedBase => lit "book:NoEstablishedBase"
  | ContinuityLost => lit "book:ContinuityLost"
  | CapacityOutOfRange => lit "book:CapacityOutOfRange"
  | CounterOverflow => lit "book:CounterOverflow"
  | ContinuityError _ => lit "book:Continuity"
  | ProvenanceError _ => lit "book:Provenance"
  | MutationError _ => lit "book:Mutation"
  | NonComplementablePrice _ => lit "book:NonComplementablePrice"
  | ComplementError _ => lit "book:Complement"
  end.

Definition elapsed_nanos (start at_ : Z) : Z :=
  Z.min U64_MAX (saturating_duration_since at_ start).

(** ** The segment, as the supervisor uses it *)

(** What [BookSegment] promises: three publications, the first failure of which sticks. *)
Class SegmentSink := {
  sink : Type;
  sink_error : Set;
  sink_failure : sink -> option sink_error;
  sink_take_failure : sink -> option sink_error * sink;
  sink_commit : BookCommit -> PublishedBook -> Z -> sink -> sink;
  sink_state : PublishedBook -> Z -> sink -> sink;
  sink_resolution : ResolutionDelivery -> PublishedBook -> Z -> sink -> sink
}.

(** One answer of the environment: the clock, which tasks have ended, the process-wide ledger
    and pacers, whether a control channel or the diagnostics take a message, and what has
    been queued since the last question. *)
Record Env : Type := {
  now : Z; finished : Z -> bool; spent : AttemptLedger; pacers : Pacers;
  control : SendAnswer; diagnostics_full : bool; arrivals : list ConnectionNotice
}.

Section supervisor.
Context `{RB : Broadcast StreamDelivery} `{WP : Watch PublishedBook} `{SS : SegmentSink}.
(** The environment, one answer per question, and the process's hasher. *)
Variable env : nat -> Env.
Variable hash_one : nat -> Z -> Z.
(** The bounds of the texts a retained event carries. *)
Variables outcome_capacity type_capacity date_capacity : Z.

Record Supervisor : Type := {
  sv_config : SupervisorConfig;
  sv_market : MarketRef;
  sv_level_capacity : LevelCapacity;
  sv_tap : bool;
  sv_run_start : Z;
  sv_writer : BookWriter;
  sv_segment : option sink;
  sv_latest_resolution : option MarketResolution;
  sv_notices : list ConnectionNotice;
  sv_tapped : list SupervisorNotice;
  sv_primary : ConnectionSlot;
  sv_standbys : list Standby;
  sv_pool : option PoolGate;
  sv_source : SourceState;
  sv_next_generation : Z;
  sv_recovery_attempts : Z;
  sv_base_accepted : bool;
  sv_unavailable_reported : bool;
  sv_position : Z;
  sv_kill_primary_after : option Z;
  sv_kill_primary_at : option Z;
  sv_stats : SupervisorStats;
  sv_ticks : nat;
  sv_effects : list Effect
}.

(** Assignments to one field. *)
Definition set_writer (x : BookWriter) (self : Supervisor) : Supervisor :=
  {|
    sv_config := self.(sv_config); sv_market := self.(sv_market);
    sv_level_capacity := self.(sv_level_capacity); sv_tap := self.(sv_tap);
    sv_run_start := self.(sv_run_start); sv_writer := x; sv_segment := self.(sv_segment);
    sv_latest_resolution := self.(sv_latest_resolution); sv_notices := self.(sv_notices);
    sv_tapped := self.(sv_tapped); sv_primary := self.(sv_primary);
    sv_standbys := self.(sv_standbys); sv_pool := self.(sv_pool);
    sv_source := self.(sv_source); sv_next_generation := self.(sv_next_generation);
    sv_recovery_attempts := self.(sv_recovery_attempts);
    sv_base_accepted := self.(sv_base_accepted);
    sv_unavailable_reported := self.(sv_unavailable_reported);
    sv_position := self.(sv_position); sv_kill_primary_after := self.(sv_kill_primary_after);
    sv_kill_primary_at := self.(sv_kill_primary_at); sv_stats := self.(sv_stats);
    sv_ticks := self.(sv_ticks); sv_effects := self.(sv_effects) |}.
Definition set_segment (x : option sink) (self : Supervisor) : Supervisor :=
  {|
    sv_config := self.(sv_config); sv_market := self.(sv_market);
    sv_level_capacity := self.(sv_level_capacity); sv_tap := self.(sv_tap);
    sv_run_start := self.(sv_run_start); sv_writer := self.(sv_writer); sv_segment := x;
    sv_latest_resolution := self.(sv_latest_resolution); sv_notices := self.(sv_notices);
    sv_tapped := self.(sv_tapped); sv_primary := self.(sv_primary);
    sv_standbys := self.(sv_standbys); sv_pool := self.(sv_pool);
    sv_source := self.(sv_source); sv_next_generation := self.(sv_next_generation);
    sv_recovery_attempts := self.(sv_recovery_attempts);
    sv_base_accepted := self.(sv_base_accepted);
    sv_unavailable_reported := self.(sv_unavailable_reported);
    sv_position := self.(sv_position); sv_kill_primary_after := self.(sv_kill_primary_after);
    sv_kill_primary_at := self.(sv_kill_primary_at); sv_stats := self.(sv_stats);
    sv_ticks := self.(sv_ticks); sv_effects := self.(sv_effects) |}.
Definition set_latest_resolution (x : option MarketResolution) (self : Supervisor) : Supervisor :=
  {|
    sv_config := self.(sv_config); sv_market := self.(sv_market);
    sv_level_capacity := self.(sv_level_capacity); sv_tap := self.(sv_tap);
    sv_run_start := self.(sv_run_start); sv_writer := self.(sv_writer);
    sv_segment := self.(sv_segment); sv_latest_resolution := x;
    sv_notices := self.(sv_notices); sv_tapped := self.(sv_tapped);
    sv_primary := self.(sv_primary); sv_standbys := self.(sv_standbys);
    sv_pool := self.(sv_pool); sv_source := self.(sv_source);
    sv_next_generation := self.(sv_next_generation);
    sv_recovery_attempts := self.(sv_recovery_attempts);
    sv_base_accepted := self.(sv_base_accepted);
    sv_unavailable_reported := self.(sv_unavailable_reported);
    sv_position := self.(sv_position); sv_kill_primary_after := self.(sv_kill_primary_after);
    sv_kill_primary_at := self.(sv_kill_primary_at); sv_stats := self.(sv_stats);
    sv_ticks := self.(sv_ticks); sv_effects := self.(sv_effects) |}.
Definition set_notices (x : list ConnectionNotice) (self : Supervisor) : Supervisor :=
  {|
    sv_config := self.(sv_config); sv_market := self.(sv_market);
    sv_level_capacity := self.(sv_level_capacity); sv_tap := self.(sv_tap);
    sv_run_start := self.(sv_run_start); sv_writer := self.(sv_writer);
    sv_segment := self.(sv_segment); sv_latest_resolution := self.(sv_latest_resolution);
    sv_notices := x; sv_tapped := self.(sv_tapped); sv_primary := self.(sv_primary);
    sv_standbys := self.(sv_standbys); sv_pool := self.(sv_pool);
    sv_source := self.(sv_source); sv_next_generation := self.(sv_next_generation);
    sv_recovery_attempts := self.(sv_recovery_attempts);
    sv_base_accepted := self.(sv_base_accepted);
    sv_unavailable_reported := self.(sv_unavailable_reported);
    sv_position := self.(sv_position); sv_kill_primary_after := self.(sv_kill_primary_after);
    sv_kill_primary_at := self.(sv_kill_primary_at); sv_stats := self.(sv_stats);
    sv_ticks := self.(sv_ticks); sv_effects := self.(sv_effects) |}.
Definition set_tapped (x : list SupervisorNotice) (self : Supervisor) : Supervisor :=
  {|
    sv_config := self.(sv_config); sv_market := self.(sv_market);
    sv_level_capacity := self.(sv_level_capacity); sv_tap := self.(sv_tap);
    sv_run_start := self.(sv_run_start); sv_writer := self.(sv_writer);
    sv_segment := self.(sv_segment); sv_latest_resolution := self.(sv_latest_resolution);
    sv_notices := self.(sv_notices); sv_tapped := x; sv_primary := self.(sv_primary);
    sv_standbys := self.(sv_standbys); sv_pool := self.(sv_pool);
    sv_source := self.(sv_source); sv_next_generation := self.(sv_next_generation);
    sv_recovery_attempts := self.(sv_recovery_attempts);
    sv_base_accepted := self.(sv_base_accepted);
    sv_unavailable_reported := self.(sv_unavailable_reported);
    sv_position := self.(sv_position); sv_kill_primary_after := self.(sv_kill_primary_after);
    sv_kill_primary_at := self.(sv_kill_primary_at); sv_stats := self.(sv_stats);
    sv_ticks := self.(sv_ticks); sv_effects := self.(sv_effects) |}.
Definition set_primary (x : ConnectionSlot) (self : Supervisor) : Supervisor :=
  {|
    sv_config := self.(sv_config); sv_market := self.(sv_market);
    sv_level_capacity := self.(sv_level_capacity); sv_tap := self.(sv_tap);
    sv_run_start := self.(sv_run_start); sv_writer := self.(sv_writer);
    sv_segment := self.(sv_segment); sv_latest_resolution := self.(sv_latest_resolution);
    sv_notices := self.(sv_notices); sv_tapped := self.(sv_tapped); sv_primary := x;
    sv_standbys := self.(sv_standbys); sv_pool := self.(sv_pool);
    sv_source := self.(sv_source); sv_next_generation := self.(sv_next_generation);
    sv_recovery_attempts := self.(sv_recovery_attempts);
    sv_base_accepted := self.(sv_base_accepted);
    sv_unavailable_reported := self.(sv_unavailable_reported);
    sv_position := self.(sv_position); sv_kill_primary_after := self.(sv_kill_primary_after);
    sv_kill_primary_at := self.(sv_kill_primary_at); sv_stats := self.(sv_stats);
    sv_ticks := self.(sv_ticks); sv_effects := self.(sv_effects) |}.
Definition set_standbys (x : list Standby) (self : Supervisor) : Supervisor :=
  {|
    sv_config := self.(sv_config); sv_market := self.(sv_market);
    sv_level_capacity := self.(sv_level_capacity); sv_tap := self.(sv_tap);
    sv_run_start := self.(sv_run_start); sv_writer := self.(sv_writer);
    sv_segment := self.(sv_segment); sv_latest_resolution := self.(sv_latest_resolution);
    sv_notices := self.(sv_notices); sv_tapped := self.(sv_tapped);
    sv_primary := self.(sv_primary); sv_standbys := x; sv_pool := self.(sv_pool);
    sv_source := self.(sv_source); sv_next_generation := self.(sv_next_generation);
    sv_recovery_attempts := self.(sv_recovery_attempts);
    sv_base_accepted := self.(sv_base_accepted);
    sv_unavailable_reported := self.(sv_unavailable_reported);
    sv_position := self.(sv_position); sv_kill_primary_after := self.(sv_kill_primary_after);
    sv_kill_primary_at := self.(sv_kill_primary_at); sv_stats := self.(sv_stats);
    sv_ticks := self.(sv_ticks); sv_effects := self.(sv_effects) |}.
Definition set_pool (x : option PoolGate) (self : Supervisor) : Supervisor :=
  {|
    sv_config := self.(sv_config); sv_market := self.(sv_market);
    sv_level_capacity := self.(sv_level_capacity); sv_tap := self.(sv_tap);
    sv_run_start := self.(sv_run_start); sv_writer := self.(sv_writer);
    sv_segment := self.(sv_segment); sv_latest_resolution := self.(sv_latest_resolution);
    sv_notices := self.(sv_notices); sv_tapped := self.(sv_tapped);
    sv_primary := self.(sv_primary); sv_standbys := self.(sv_standbys); sv_pool := x;
    sv_source := self.(sv_source); sv_next_generation := self.(sv_next_generation);
    sv_recovery_attempts := self.(sv_recovery_attempts);
    sv_base_accepted := self.(sv_base_accepted);
    sv_unavailable_reported := self.(sv_unavailable_reported);
    sv_position := self.(sv_position); sv_kill_primary_after := self.(sv_kill_primary_after);
    sv_kill_primary_at := self.(sv_kill_primary_at); sv_stats := self.(sv_stats);
    sv_ticks := self.(sv_ticks); sv_effects := self.(sv_effects) |}.
Definition set_source (x : SourceState) (self : Supervisor) : Supervisor :=
  {|
    sv_config := self.(sv_config); sv_market := self.(sv_market);
    sv_level_capacity := self.(sv_level_capacity); sv_tap := self.(sv_tap);
    sv_run_start := self.(sv_run_start); sv_writer := self.(sv_writer);
    sv_segment := self.(sv_segment); sv_latest_resolution := self.(sv_latest_resolution);
    sv_notices := self.(sv_notices); sv_tapped := self.(sv_tapped);
    sv_primary := self.(sv_primary); sv_standbys := self.(sv_standbys);
    sv_pool := self.(sv_pool); sv_source := x; sv_next_generation := self.(sv_next_generation);
    sv_recovery_attempts := self.(sv_recovery_attempts);
    sv_base_accepted := self.(sv_base_accepted);
    sv_unavailable_reported := self.(sv_unavailable_reported);
    sv_position := self.(sv_position); sv_kill_primary_after := self.(sv_kill_primary_after);
    sv_kill_primary_at := self.(sv_kill_primary_at); sv_stats := self.(sv_stats);
    sv_ticks := self.(sv_ticks); sv_effects := self.(sv_effects) |}.
Definition set_next_generation (x : Z) (self : Supervisor) : Supervisor :=
  {|
    sv_config := self.(sv_config); sv_market := self.(sv_market);
    sv_level_capacity := self.(sv_level_capacity); sv_tap := self.(sv_tap);
    sv_run_start := self.(sv_run_start); sv_writer := self.(sv_writer);
    sv_segment := self.(sv_segment); sv_latest_resolution := self.(sv_latest_resolution);
    sv_notices := self.(sv_notices); sv_tapped := self.(sv_tapped);
    sv_primary := self.(sv_primary); sv_standbys := self.(sv_standbys);
    sv_pool := self.(sv_pool); sv_source := self.(sv_source); sv_next_generation := x;
    sv_recovery_attempts := self.(sv_recovery_attempts);
    sv_base_accepted := self.(sv_base_accepted);
    sv_unavailable_reported := self.(sv_unavailable_reported);
    sv_position := self.(sv_position); sv_kill_primary_after := self.(sv_kill_primary_after);
    sv_kill_primary_at := self.(sv_kill_primary_at); sv_stats := self.(sv_stats);
    sv_ticks := self.(sv_ticks); sv_effects := self.(sv_effects) |}.
Definition set_recovery_attempts (x : Z) (self : Supervisor) : Supervisor :=
  {|
    sv_config := self.(sv_config); sv_market := self.(sv_market);
    sv_level_capacity := self.(sv_level_capacity); sv_tap := self.(sv_tap);
    sv_run_start := self.(sv_run_start); sv_writer := self.(sv_writer);
    sv_segment := self.(sv_segment); sv_latest_resolution := self.(sv_latest_resolution);
    sv_notices := self.(sv_notices); sv_tapped := self.(sv_tapped);
    sv_primary := self.(sv_primary); sv_standbys := self.(sv_standbys);
    sv_pool := self.(sv_pool); sv_source := self.(sv_source);
    sv_next_generation := self.(sv_next_generation); sv_recovery_attempts := x;
    sv_base_accepted := self.(sv_base_accepted);
    sv_unavailable_reported := self.(sv_unavailable_reported);
    sv_position := self.(sv_position); sv_kill_primary_after := self.(sv_kill_primary_after);
    sv_kill_primary_at := self.(sv_kill_primary_at); sv_stats := self.(sv_stats);
    sv_ticks := self.(sv_ticks); sv_effects := self.(sv_effects) |}.
Definition set_base_accepted (x : bool) (self : Supervisor) : Supervisor :=
  {|
    sv_config := self.(sv_config); sv_market := self.(sv_market);
    sv_level_capacity := self.(sv_level_capacity); sv_tap := self.(sv_tap);
    sv_run_start := self.(sv_run_start); sv_writer := self.(sv_writer);
    sv_segment := self.(sv_segment); sv_latest_resolution := self.(sv_latest_resolution);
    sv_notices := self.(sv_notices); sv_tapped := self.(sv_tapped);
    sv_primary := self.(sv_primary); sv_standbys := self.(sv_standbys);
    sv_pool := self.(sv_pool); sv_source := self.(sv_source);
    sv_next_generation := self.(sv_next_generation);
    sv_recovery_attempts := self.(sv_recovery_attempts); sv_base_accepted := x;
    sv_unavailable_reported := self.(sv_unavailable_reported);
    sv_position := self.(sv_position); sv_kill_primary_after := self.(sv_kill_primary_after);
    sv_kill_primary_at := self.(sv_kill_primary_at); sv_stats := self.(sv_stats);
    sv_ticks := self.(sv_ticks); sv_effects := self.(sv_effects) |}.
Definition set_unavailable_reported (x : bool) (self : Supervisor) : Supervisor :=
  {|
    sv_config := self.(sv_config); sv_market := self.(sv_market);
    sv_level_capacity := self.(sv_level_capacity); sv_tap := self.(sv_tap);
    sv_run_start := self.(sv_run_start); sv_writer := self.(sv_writer);
    sv_segment := self.(sv_segment); sv_latest_resolution := self.(sv_latest_resolution);
    sv_notices := self.(sv_notices); sv_tapped := self.(sv_tapped);
    sv_primary := self.(sv_primary); sv_standbys := self.(sv_standbys);
    sv_pool := self.(sv_pool); sv_source := self.(sv_source);
    sv_next_generation := self.(sv_next_generation);
    sv_recovery_attempts := self.(sv_recovery_attempts);
    sv_base_accepted := self.(sv_base_accepted); sv_unavailable_reported := x;
    sv_position := self.(sv_position); sv_kill_primary_after := self.(sv_kill_primary_after);
    sv_kill_primary_at := self.(sv_kill_primary_at); sv_stats := self.(sv_stats);
    sv_ticks := self.(sv_ticks); sv_effects := self.(sv_effects) |}.
Definition set_position (x : Z) (self : Supervisor) : Supervisor :=
  {|
    sv_config := self.(sv_config); sv_market := self.(sv_market);
    sv_level_capacity := self.(sv_level_capacity); sv_tap := self.(sv_tap);
    sv_run_start := self.(sv_run_start); sv_writer := self.(sv_writer);
    sv_segment := self.(sv_segment); sv_latest_resolution := self.(sv_latest_resolution);
    sv_notices := self.(sv_notices); sv_tapped := self.(sv_tapped);
    sv_primary := self.(sv_primary); sv_standbys := self.(sv_standbys);
    sv_pool := self.(sv_pool); sv_source := self.(sv_source);
    sv_next_generation := self.(sv_next_generation);
    sv_recovery_attempts := self.(sv_recovery_attempts);
    sv_base_accepted := self.(sv_base_accepted);
    sv_unavailable_reported := self.(sv_unavailable_reported); sv_position := x;
    sv_kill_primary_after := self.(sv_kill_primary_after);
    sv_kill_primary_at := self.(sv_kill_primary_at); sv_stats := self.(sv_stats);
    sv_ticks := self.(sv_ticks); sv_effects := self.(sv_effects) |}.
Definition set_kill_primary_after (x : option Z) (self : Supervisor) : Supervisor :=
  {|
    sv_config := self.(sv_config); sv_market := self.(sv_market);
    sv_level_capacity := self.(sv_level_capacity); sv_tap := self.(sv_tap);
    sv_run_start := self.(sv_run_start); sv_writer := self.(sv_writer);
    sv_segment := self.(sv_segment); sv_latest_resolution := self.(sv_latest_resolution);
    sv_notices := self.(sv_notices); sv_tapped := self.(sv_tapped);
    sv_primary := self.(sv_primary); sv_standbys := self.(sv_standbys);
    sv_pool := self.(sv_pool); sv_source := self.(sv_source);
    sv_next_generation := self.(sv_next_generation);
    sv_recovery_attempts := self.(sv_recovery_attempts);
    sv_base_accepted := self.(sv_base_accepted);
    sv_unavailable_reported := self.(sv_unavailable_reported);
    sv_position := self.(sv_position); sv_kill_primary_after := x;
    sv_kill_primary_at := self.(sv_kill_primary_at); sv_stats := self.(sv_stats);
    sv_ticks := self.(sv_ticks); sv_effects := self.(sv_effects) |}.
Definition set_kill_primary_at (x : option Z) (self : Supervisor) : Supervisor :=
  {|
    sv_config := self.(sv_config); sv_market := self.(sv_market);
    sv_level_capacity := self.(sv_level_capacity); sv_tap := self.(sv_tap);
    sv_run_start := self.(sv_run_start); sv_writer := self.(sv_writer);
    sv_segment := self.(sv_segment); sv_latest_resolution := self.(sv_latest_resolution);
    sv_notices := self.(sv_notices); sv_tapped := self.(sv_tapped);
    sv_primary := self.(sv_primary); sv_standbys := self.(sv_standbys);
    sv_pool := self.(sv_pool); sv_source := self.(sv_source);
    sv_next_generation := self.(sv_next_generation);
    sv_recovery_attempts := self.(sv_recovery_attempts);
    sv_base_accepted := self.(sv_base_accepted);
    sv_unavailable_reported := self.(sv_unavailable_reported);
    sv_position := self.(sv_position); sv_kill_primary_after := self.(sv_kill_primary_after);
    sv_kill_primary_at := x; sv_stats := self.(sv_stats); sv_ticks := self.(sv_ticks);
    sv_effects := self.(sv_effects) |}.
Definition set_stats (x : SupervisorStats) (self : Supervisor) : Supervisor :=
  {|
    sv_config := self.(sv_config); sv_market := self.(sv_market);
    sv_level_capacity := self.(sv_level_capacity); sv_tap := self.(sv_tap);
    sv_run_start := self.(sv_run_start); sv_writer := self.(sv_writer);
    sv_segment := self.(sv_segment); sv_latest_resolution := self.(sv_latest_resolution);
    sv_notices := self.(sv_notices); sv_tapped := self.(sv_tapped);
    sv_primary := self.(sv_primary); sv_standbys := self.(sv_standbys);
    sv_pool := self.(sv_pool); sv_source := self.(sv_source);
    sv_next_generation := self.(sv_next_generation);
    sv_recovery_attempts := self.(sv_recovery_attempts);
    sv_base_accepted := self.(sv_base_accepted);
    sv_unavailable_reported := self.(sv_unavailable_reported);
    sv_position := self.(sv_position); sv_kill_primary_after := self.(sv_kill_primary_after);
    sv_kill_primary_at := self.(sv_kill_primary_at); sv_stats := x;
    sv_ticks := self.(sv_ticks); sv_effects := self.(sv_effects) |}.
Definition set_ticks (x : nat) (self : Supervisor) : Supervisor :=
  {|
    sv_config := self.(sv_config); sv_market := self.(sv_market);
    sv_level_capacity := self.(sv_level_capacity); sv_tap := self.(sv_tap);
    sv_run_start := self.(sv_run_start); sv_writer := self.(sv_writer);
    sv_segment := self.(sv_segment); sv_latest_resolution := self.(sv_latest_resolution);
    sv_notices := self.(sv_notices); sv_tapped := self.(sv_tapped);
    sv_primary := self.(sv_primary); sv_standbys := self.(sv_standbys);
    sv_pool := self.(sv_pool); sv_source := self.(sv_source);
    sv_next_generation := self.(sv_next_generation);
    sv_recovery_attempts := self.(sv_recovery_attempts);
    sv_base_accepted := self.(sv_base_accepted);
    sv_unavailable_reported := self.(sv_unavailable_reported);
    sv_position := self.(sv_position); sv_kill_primary_after := self.(sv_kill_primary_after);
    sv_kill_primary_at := self.(sv_kill_primary_at); sv_stats := self.(sv_stats);
    sv_ticks := x; sv_effects := self.(sv_effects) |}.
Definition set_effects (x : list Effect) (self : Supervisor) : Supervisor :=
  {|
    sv_config := self.(sv_config); sv_market := self.(sv_market);
    sv_level_capacity := self.(sv_level_capacity); sv_tap := self.(sv_tap);
    sv_run_start := self.(sv_run_start); sv_writer := self.(sv_writer);
    sv_segment := self.(sv_segment); sv_latest_resolution := self.(sv_latest_resolution);
    sv_notices := self.(sv_notices); sv_tapped := self.(sv_tapped);
    sv_primary := self.(sv_primary); sv_standbys := self.(sv_standbys);
    sv_pool := self.(sv_pool); sv_source := self.(sv_source);
    sv_next_generation := self.(sv_next_generation);
    sv_recovery_attempts := self.(sv_recovery_attempts);
    sv_base_accepted := self.(sv_base_accepted);
    sv_unavailable_reported := self.(sv_unavailable_reported);
    sv_position := self.(sv_position); sv_kill_primary_after := self.(sv_kill_primary_after);
    sv_kill_primary_at := self.(sv_kill_primary_at); sv_stats := self.(sv_stats);
    sv_ticks := self.(sv_ticks); sv_effects := x |}.

Definition act : Type := Supervisor -> Supervisor.

Definition count (c : Counter) (n : Z) : act := fun self =>
  set_stats (stats_add c n self.(sv_stats)) self.
Definition record_failure (key : bytes) : act := fun self =>
  set_stats (stats_record_failure key self.(sv_stats)) self.
Definition effect (e : Effect) : act := fun self => set_effects (self.(sv_effects) ++ [e]) self.

(** A question to the environment; what was queued meanwhile is then in the queue. *)
Definition ask {A} (k : Env -> Supervisor -> A) (self : Supervisor) : A :=
  let e := env self.(sv_ticks) in
  k e (set_ticks (S self.(sv_ticks)) (set_notices (self.(sv_notices) ++ e.(arrivals)) self)).

Definition book_of (self : Supervisor) : OrderBook := self.(sv_writer).(writer_book).

(** ** Slots *)

Definition slot_of_index (self : Supervisor) (s : Slot) : option ConnectionSlot :=
  match s with
  | Primary => Some self.(sv_primary)
  | StandbySlot index => sb_slot <$> self.(sv_standbys) !! index
  end.

Definition on_standby (index : nat) (f : Standby -> Standby) : act := fun self =>
  set_standbys (alter f index self.(sv_standbys)) self.

Definition on_slot (s : Slot) (f : ConnectionSlot -> ConnectionSlot) : act := fun self =>
  match s with
  | Primary => set_primary (f self.(sv_primary)) self
  | StandbySlot index => on_standby index (fun b => set_sb_slot (f b.(sb_slot)) b) self
  end.

Definition active_of (self : Supervisor) (s : Slot) : option ActiveConnection :=
  slot_of_index self s ≫= active.

Definition on_active (s : Slot) (f : ActiveConnection -> ActiveConnection) : act :=
  on_slot s (fun t => set_active (f <$> t.(active)) t).

Definition slots (self : Supervisor) : list Slot :=
  Primary :: (StandbySlot <$> seq 0 (length self.(sv_standbys))).

Definition slot_of (self : Supervisor) (g : Z) : option Slot :=
  List.find (fun s => match active_of self s with
                      | Some a => a.(generation) =? g
                      | None => false
                      end) (slots self).

Definition pool_armed (self : Supervisor) : bool :=
  match self.(sv_pool) with Some gate => is_armed gate | None => false end.

Definition on_pool (f : PoolGate -> PoolGate) : act := fun self =>
  set_pool (f <$> self.(sv_pool)) self.

(** [is_viable]: the task runs and its heartbeat is not overdue. *)
Definition is_viable (e : Env) (a : ActiveConnection) : bool :=
  negb (e.(finished) a.(generation))
  && match heartbeat_expiry a with Some expiry => e.(now) <? expiry | None => true end.

Definition slot_viable (e : Env) (self : Supervisor) (s : Slot) : bool :=
  match active_of self s with Some a => is_viable e a | None => false end.

Definition first_viable_standby (e : Env) (self : Supervisor) : option nat :=
  List.find (fun index => slot_viable e self (StandbySlot index))
    (seq 0 (length self.(sv_standbys))).

Definition authority_is_live (self : Supervisor) : bool :=
  bool_decide ((book_of self).(authority) = Live).

(** ** Diagnostics and topology *)

Definition tap (notice : SupervisorNotice) : act := fun self =>
  if self.(sv_tap) then
    ask (fun e self =>
      if e.(diagnostics_full) then count diagnostics_dropped 1 self
      else set_tapped (self.(sv_tapped) ++ [notice]) self) self
  else self.

Definition connection_of (g : Z) : option ConnectionIdentity :=
  ok (connection_identity_new CONNECTION_NAME g).

Definition vacated_socket (self : Supervisor) (s : Slot) : option (PoolSocket * PoolSocketState) :=
  match s with
  | Primary => None
  | StandbySlot index =>
      standby ← self.(sv_standbys) !! index;
      who ← standby.(assigned);
      Some ({| socket_connection := who |},
            match standby.(sb_state) with
            | StandbyFailed reason => SocketFailed reason
            | _ => SocketFailed FDisconnect
            end)
  end.

Definition pool_socket (e : Env) (self : Supervisor) (s : Slot) :
    option (PoolSocket * PoolSocketState) :=
  match active_of self s with
  | None => vacated_socket self s
  | Some a =>
      who ← connection_of a.(generation);
      Some ({| socket_connection := who |},
            if negb (is_viable e a) then SocketFailed FDisconnect
            else if is_established a then Covering else Establishing)
  end.

Definition pooled_topology (e : Env) (d : option PoolDegradeReason) (self : Supervisor) :
    SourceState :=
  match pooled (omap (pool_socket e self) (slots self)) self.(sv_config).(cfg_replicas)
          (self.(sv_pool) ≫= last_published) d with
  | Ok source => source
  | Err _ => no_source
  end.

Fixpoint report_standbys (assigned : list (HotStandby * StandbyState)) (source : SourceState) :
    SourceState :=
  match assigned with
  | [] => source
  | (standby, state) :: rest => report_standbys rest (report_standby source standby state).2
  end.

Definition topology (e : Env) (self : Supervisor) : SourceState :=
  if pool_armed self then pooled_topology e None self
  else
    match self.(sv_primary).(active) with
    | None => no_source
    | Some a =>
        match connection_of a.(generation) with
        | None => no_source
        | Some who =>
            if negb (authority_is_live self)
            then if self.(sv_base_accepted)
                 then recovering {| recovery_connection := who |} else no_source
            else
              let primary := {| primary_connection := who |} in
              let capacity := saturating_sub_usize self.(sv_config).(cfg_replicas) 1 in
              if capacity =? 0 then source_primary primary
              else
                let named := omap (fun b => who ← b.(assigned);
                                     Some ({| standby_connection := who |}, b.(sb_state)))
                               self.(sv_standbys) in
                match with_hot_standbys primary named.*1 capacity with
                | Err _ => source_primary primary
                | Ok source => report_standbys named source
                end
        end
    end.

(** The states of the occupied standbys, and the transition when the topology changed. *)
Definition resync : act := fun self =>
  let published := writer_published self.(sv_writer) in
  let self := set_standbys
    (map (fun b => match b.(sb_slot).(active) with
                   | Some _ => set_sb_state (agreement b.(shadow) published) b
                   | None => b
                   end) self.(sv_standbys)) self in
  ask (fun e self =>
    let next := topology e self in
    if topology_changed self.(sv_source) next
    then tap (NoticeSourceTransition next) (set_source next self)
    else set_source next self) self.

(** ** The segment *)

Definition segment_failure (self : Supervisor) : option sink_error :=
  self.(sv_segment) ≫= sink_failure.

Definition on_segment (f : PublishedBook -> sink -> sink) : act := fun self =>
  match self.(sv_segment) with
  | None => self
  | Some segment => set_segment (Some (f (writer_published self.(sv_writer)) segment)) self
  end.

Definition publish_segment_resolution (delivery : ResolutionDelivery) (arrival : Z) : act :=
  on_segment (fun published => sink_resolution delivery published arrival).
Definition publish_commit (commit : BookCommit) (arrival : Z) : act :=
  on_segment (fun published => sink_commit commit published arrival).
Definition publish_segment_state : act := on_segment (fun published => sink_state published 0).

(** ** Losses *)

Definition report_loss (continuity : ContinuityReason) (authority : AuthorityReason) : act :=
  fun self =>
    let self := on_active Primary (set_produced_base false) self in
    let '(reported, w) := writer_report_continuity_loss continuity authority self.(sv_writer) in
    let self := set_writer w self in
    let self :=
      match reported with
      | Ok true => tap (NoticeContinuityLoss continuity authority)
                     (publish_segment_state (count continuity_losses 1 self))
      | Ok false => self
      | Err error => record_failure (book_error_key error) self
      end in
    resync self.

Definition report_shadow_loss (index : nat) (continuity : ContinuityReason)
    (authority : AuthorityReason) : act := fun self =>
  let self := on_active (StandbySlot index) (set_produced_base false) self in
  let self :=
    match self.(sv_standbys) !! index with
    | None => self
    | Some standby =>
        let '(reported, o) := report_continuity_loss continuity authority standby.(shadow) in
        let self := on_standby index (set_shadow o) self in
        match reported with
        | Ok _ => self
        | Err error => record_failure (book_error_key error) self
        end
    end in
  resync self.

Definition report_slot_loss (s : Slot) (continuity : ContinuityReason)
    (authority : AuthorityReason) : act := fun self =>
  if pool_armed self then
    let self := report_loss continuity authority self in
    match s with
    | StandbySlot index => report_shadow_loss index continuity authority self
    | Primary => self
    end
  else
    match s with
    | Primary => report_loss continuity authority self
    | StandbySlot index => report_shadow_loss index continuity authority self
    end.

(** ** Applying a frame *)

Definition on_base_accepted (s : Slot) (authoritative : bool) : act := fun self =>
  let self :=
    if authoritative
    then set_unavailable_reported false (set_recovery_attempts 0 (set_base_accepted true self))
    else self in
  on_active s (fun a => set_recovery None (set_produced_base true a)) self.

(** Whether the book took it. *)
Definition apply_authoritative (candidate : Candidate) (arrival : Z) (self : Supervisor) :
    bool * Supervisor :=
  let '(applied, w) := writer_apply_snapshot candidate self.(sv_writer) in
  let self := set_writer w self in
  match applied with
  | Ok commit =>
      let self := count mutations_derived (Z.min U64_MAX (len commit.(mutations)))
                    (count snapshots_applied 1 self) in
      (true, publish_commit commit arrival self)
  | Err error =>
      (false, report_loss LocalLoss ALocalLoss (record_failure (book_error_key error) self))
  end.

Definition apply_shadow (index : nat) (candidate : Candidate) (self : Supervisor) :
    bool * Supervisor :=
  match self.(sv_standbys) !! index with
  | None => (false, self)
  | Some standby =>
      let '(applied, o) := apply_snapshot candidate standby.(shadow) in
      let self := on_standby index (set_shadow o) self in
      match applied with
      | Ok _ => (true, count shadow_snapshots_applied 1 self)
      | Err error =>
          (false, report_shadow_loss index LocalLoss ALocalLoss
                    (record_failure (book_error_key error) self))
      end
  end.

Definition report_accepted_update (s : Slot) (update : OrderbookUpdate) (position : Z)
    (stamp : ConnectionStamp) (authoritative : bool) : act := fun self =>
  if negb self.(sv_config).(cfg_log_dedup_keys) then self
  else
    match (match authoritative, s with
           | true, _ => Some (content_digest (writer_published self.(sv_writer)))
           | false, StandbySlot index =>
               (fun b => content_digest (publish b.(shadow))) <$> self.(sv_standbys) !! index
           | false, Primary => None
           end) with
    | None => self
    | Some digest =>
        tap (NoticeAcceptedUpdate update.(market_slug) position stamp.(stamp_generation)
               (slot_role s) (dedup_key update) digest) self
    end.

(** What every accepted update ends with. *)
Definition settle_update (s : Slot) (update : OrderbookUpdate) (position : Z)
    (stamp : ConnectionStamp) (authoritative : bool) : act := fun self =>
  report_accepted_update s update position stamp authoritative
    (resync (on_base_accepted s authoritative self)).

(** The shadow of a standby's slot follows the frame whatever becomes of it. *)
Definition shadow_too (s : Slot) (candidate : Candidate) : act := fun self =>
  match s with StandbySlot index => (apply_shadow index candidate self).2 | Primary => self end.

Definition publish_pooled (s : Slot) (candidate : Candidate) (key : option DedupKey)
    (update : OrderbookUpdate) (position : Z) (stamp : ConnectionStamp) : act := fun self =>
  let self := shadow_too s candidate self in
  let '(accepted, self) := apply_authoritative candidate stamp.(stamp_arrival) self in
  if negb accepted then self
  else
    let self := match key with
                | Some key => on_pool (fun gate => committed gate (slot_index s) key) self
                | None => self
                end in
    settle_update s update position stamp true self.

Definition recover_pooled (s : Slot) (candidate : Candidate) (update : OrderbookUpdate)
    (position : Z) (stamp : ConnectionStamp) : act := fun self =>
  let self := shadow_too s candidate self in
  let '(accepted, self) := apply_authoritative candidate stamp.(stamp_arrival) self in
  if negb accepted then self
  else
    let self := on_pool (fun gate => gate_recovered gate (slot_index s)) self in
    settle_update s update position stamp true self.

Definition shadow_pooled (s : Slot) (candidate : Candidate) (update : OrderbookUpdate)
    (position : Z) (stamp : ConnectionStamp) : act := fun self =>
  match s with
  | Primary => self
  | StandbySlot index =>
      let '(accepted, self) := apply_shadow index candidate self in
      if accepted then settle_update s update position stamp false self else self
  end.

Definition provenance_role (self : Supervisor) (s : Slot) : ReplicaRole :=
  if pool_armed self then PublishingPrimaryRole else slot_role s.

(** [committed_at] is the clock at the commit. *)
Definition build_provenance (update : OrderbookUpdate) (position received_at committed_at : Z)
    (stamp : ConnectionStamp) (replica : ReplicaRole) (self : Supervisor) :
    result Provenance DescriptorError :=
  outcome <-? transpose ((fun token => map_err (fun _ => InvalidSourceEvidence)
                            (outcome_token token)) <$> update.(token_id)) ;;
  version <-? version_evidence update ;;
  evidence <-? match version with
               | Some e => capacity <-? evidence_capacity_new 1 ;; bounded_evidence_new [e] capacity
               | None => capacity <-? evidence_capacity_new 0 ;; bounded_evidence_new [] capacity
               end ;;
  connection <-? connection_identity_new CONNECTION_NAME stamp.(stamp_generation) ;;
  timestamp <-? source_timestamp_new update.(Limitless.timestamp) ;;
  provenance_new
    {| in_market := self.(sv_market); in_outcome := outcome;
       in_native_family := ORDERBOOK_UPDATE_EVENT; in_source_timestamp := Some timestamp;
       in_source_evidence := evidence;
       in_daemon_generation := self.(sv_config).(cfg_daemon_generation);
       in_connection := connection; in_subscription_generation := stamp.(stamp_subscription);
       in_receive_position := position; in_commit_position := position;
       in_local_receive_time := {| local_time := elapsed_nanos self.(sv_run_start) received_at |};
       in_local_commit_time := {| local_time := elapsed_nanos self.(sv_run_start) committed_at |};
       in_replica := replica; in_representation := VenueNative; in_origin := SourceReported;
       in_local_revision := 0; in_continuity_epoch := 0 |}.

(** A clock reading. *)
Definition with_now (k : Z -> act) : act := ask (fun e => k e.(now)).

(** The three refusals of an update that never reached a book. *)
Definition refuse_update (s : Slot) (key : bytes) : act := fun self =>
  report_slot_loss s LocalLoss ALocalLoss (record_failure key self).

(** ** Giving a pool up *)

Definition exchange_with_primary (index : nat) : act := fun self =>
  let holds_base := authority_is_live self in
  match active_of self (StandbySlot index) with
  | None => self
  | Some taken =>
      let displaced := self.(sv_primary).(active) in
      let self := on_slot (StandbySlot index) (set_active None) self in
      let self := on_standby index (set_assigned None) self in
      let self := on_slot Primary (fun t =>
        set_reconnect None (set_active (Some (set_produced_base holds_base taken)) t)) self in
      let self := on_standby index (fun b =>
        set_sb_state (Divergent ContinuityMismatch) (set_shadow (book_new self.(sv_market)) b)) self in
      let self := match displaced with
                  | None => self
                  | Some a => on_slot (StandbySlot index) (set_active (Some a))
                                (on_standby index (set_assigned (connection_of a.(generation))) self)
                  end in
      on_pool (fun gate => exchange_sockets gate 0 (S index)) self
  end.

Definition degrade_pool (violation : PoolViolation) (g : Z) : act := fun self =>
  match self.(sv_pool) with
  | None => self
  | Some gate =>
      let why := violation.(reason) in
      let self := set_pool (Some (degrade gate why).2) self in
      let self := tap (NoticePoolDegraded violation g) self in
      let self := ask (fun e self =>
        let source := pooled_topology e (Some why) self in
        tap (NoticeSourceTransition source) (set_source source self)) self in
      let self := ask (fun e self =>
        let preferred := slot_from_index <$> (self.(sv_pool) ≫= last_publisher) in
        let chosen :=
          match preferred with
          | Some s => if slot_viable e self s then Some s else None
          | None => None
          end in
        let chosen :=
          match chosen with
          | Some s => Some s
          | None => if slot_viable e self Primary then Some Primary
                    else StandbySlot <$> first_viable_standby e self
          end in
        match chosen with
        | Some (StandbySlot index) => exchange_with_primary index self
        | _ => self
        end) self in
      resync self
  end.

(** ** A frame *)

Definition apply_unpooled (s : Slot) (candidate : Candidate) (update : OrderbookUpdate)
    (position : Z) (stamp : ConnectionStamp) : act := fun self =>
  match s with
  | Primary =>
      let '(accepted, self) := apply_authoritative candidate stamp.(stamp_arrival) self in
      if accepted then settle_update s update position stamp true self else self
  | StandbySlot index =>
      let '(accepted, self) := apply_shadow index candidate self in
      if accepted then settle_update s update position stamp false self else self
  end.

(** Past the candidate, with the pool armed. *)
Definition apply_pooled (s : Slot) (candidate : Candidate) (update : OrderbookUpdate)
    (position : Z) (stamp : ConnectionStamp) (gate : PoolGate) : act := fun self =>
  let key := match dedup_key update with Ok key => key | Err _ => None end in
  let projection := candidate_projection candidate in
  let redelivered := match key with
                     | Some key => evidence_matches gate key projection
                     | None => false
                     end in
  let is_recovering := negb (authority_is_live self) in
  let '(verdict, gate) := gate_admit gate (slot_index s) key projection in
  let self := set_pool (Some gate) self in
  match verdict with
  | VPublish => publish_pooled s candidate key update position stamp self
  | VDuplicate =>
      if redelivered && is_recovering
      then recover_pooled s candidate update position stamp self
      else shadow_pooled s candidate update position stamp self
  | VStale => shadow_pooled s candidate update position stamp self
  | VDegrade violation => degrade_pool violation stamp.(stamp_generation) self
  | VDisarmed => apply_unpooled s candidate update position stamp self
  end.

Definition apply_update (s : Slot) (update : OrderbookUpdate) (received_at : Z)
    (stamp : ConnectionStamp) : act := fun self =>
  match checked_add_u64 self.(sv_position) 1 with
  | None => refuse_update s (lit "book:PositionCounterOverflow") self
  | Some position =>
      let self := set_position position self in
      with_now (fun committed_at self =>
        match build_provenance update position received_at committed_at stamp
                (provenance_role self s) self with
        | Err _ => refuse_update s (lit "book:InvalidProvenance") self
        | Ok provenance =>
            match snapshot_candidate update provenance self.(sv_level_capacity) with
            | Err _ => refuse_update s (lit "book:InvalidCandidate") self
            | Ok candidate =>
                match self.(sv_pool) with
                | Some gate =>
                    if is_armed gate
                    then apply_pooled s candidate update position stamp gate self
                    else apply_unpooled s candidate update position stamp self
                | None => apply_unpooled s candidate update position stamp self
                end
            end
        end) self
  end.

(** ** A resolution *)

Definition build_resolution (resolved : MarketResolved) (position received_at committed_at : Z)
    (stamp : ConnectionStamp) (self : Supervisor) : option MarketResolution :=
  winner ← ok (outcome_venue_defined resolved.(winning_outcome));
  native_label ← ok (native_label_new resolved.(market_type));
  date ← ok (source_timestamp_new resolved.(resolved_date));
  connection ← ok (connection_identity_new CONNECTION_NAME stamp.(stamp_generation));
  capacity ← ok (evidence_capacity_new 0);
  evidence ← ok (bounded_evidence_new [] capacity);
  provenance ← ok (provenance_new
    {| in_market := self.(sv_market); in_outcome := None;
       in_native_family := MARKET_RESOLVED_EVENT; in_source_timestamp := Some date;
       in_source_evidence := evidence;
       in_daemon_generation := self.(sv_config).(cfg_daemon_generation);
       in_connection := connection; in_subscription_generation := stamp.(stamp_subscription);
       in_receive_position := position; in_commit_position := position;
       in_local_receive_time := {| local_time := elapsed_nanos self.(sv_run_start) received_at |};
       in_local_commit_time := {| local_time := elapsed_nanos self.(sv_run_start) committed_at |};
       in_replica := provenance_role self Primary; in_representation := VenueNative;
       in_origin := SourceReported; in_local_revision := (book_of self).(revision);
       in_continuity_epoch := epoch_of (book_of self).(Book.continuity) |});
  seen ← ok (resolution_observation_new provenance winner native_label MarketFeed);
  Some {| observation := seen; winning_index := resolved.(resolved_index);
          resolution_date := date |}.

Definition forward_resolution (resolved : MarketResolved) (received_at : Z)
    (stamp : ConnectionStamp) : act := fun self =>
  match checked_add_u64 self.(sv_position) 1 with
  | None => record_failure (lit "resolution:PositionCounterOverflow") self
  | Some position =>
      let self := set_position position self in
      with_now (fun committed_at self =>
        match build_resolution resolved position received_at committed_at stamp self with
        | None => record_failure (lit "resolution:InvalidObservation") self
        | Some resolution =>
            let self := set_latest_resolution (Some resolution) self in
            if bool_decide (is_Some self.(sv_segment))
               && negb (resolution_fits_the_ring outcome_capacity type_capacity date_capacity
                          resolution)
            then record_failure (lit "resolution:Unrepresentable") self
            else
              let '(delivered, w) := writer_publish_resolution resolution self.(sv_writer) in
              let self := set_writer w self in
              match delivered with
              | Ok delivery => publish_segment_resolution delivery stamp.(stamp_arrival) self
              | Err _ => self
              end
        end) self
  end.

Definition on_event (s : Slot) (event : LimitlessEvent) (received_at : Z)
    (stamp : ConnectionStamp) : act := fun self =>
  let self :=
    match event with
    | OrderbookUpdateEvent update =>
        let self := count events_orderbook 1 self in
        if bool_decide (update.(market_slug) = self.(sv_config).(cfg_market))
        then apply_update s update received_at stamp self else self
    | MarketResolvedEvent resolved =>
        let self := count events_resolved 1 self in
        if bool_decide (s = Primary)
           && bool_decide (resolved.(slug) = self.(sv_config).(cfg_market))
        then forward_resolution resolved received_at stamp self else self
    | UnknownEvent _ => count events_unknown 1 self
    end in
  tap (NoticeEvent event) self.

Definition on_notice (notice : ConnectionNotice) : act := fun self =>
  match slot_of self notice.(notice_generation) with
  | None =>
      match notice.(note) with
      | NoteEvent _ _ _ _ => count fenced_events 1 self
      | _ => self
      end
  | Some s =>
      let g := notice.(notice_generation) in
      match notice.(note) with
      | Ready open subscription observed_at =>
          let self := on_active s (fun a => set_subscription subscription
            (set_heartbeats (Some (from_millis (heartbeat_deadline open))) (Some observed_at) a))
            self in
          let self :=
            match self.(sv_kill_primary_after) with
            | None => self
            | Some after => with_now (fun at_ self =>
                set_kill_primary_at (Some (at_ + after)) (set_kill_primary_after None self)) self
            end in
          resync (tap (NoticeConnected g (slot_role s) open subscription) self)
      | Heartbeat observed_at =>
          on_active s (fun a => set_heartbeats a.(ac_heartbeat_deadline) (Some observed_at) a) self
      | Resubscribed subscription =>
          with_now (fun at_ self =>
            let on_wire := match active_of self s with
                           | Some a => match a.(recovery) with Some (Requested _) => true | _ => false end
                           | None => false
                           end in
            let self := on_active s (set_subscription subscription) self in
            if on_wire
            then count resubscribes_emitted 1
                   (on_active s (set_recovery
                      (Some (Awaiting (at_ + self.(sv_config).(cfg_resubscribe_window))))) self)
            else self) self
      | NoteEvent event received_at arrival subscription =>
          on_event s event received_at
            {| stamp_generation := g; stamp_subscription := subscription;
               stamp_arrival := arrival |} self
      | DecodeFailure key book_relevant =>
          let self := record_failure key self in
          if book_relevant then report_slot_loss s LocalLoss ALocalLoss self else self
      | Overload dropped =>
          report_slot_loss s LocalLoss AOverload (count overload_drops dropped self)
      end
  end.

(** ** A connection that ends *)

Definition schedule_reconnect (s : Slot) : act := fun self =>
  let cfg := self.(sv_config) in
  let attempt := match slot_of_index self s with
                 | Some target => target.(backoff_attempt)
                 | None => 1
                 end in
  let base := backoff_base cfg.(cfg_replicas) cfg.(cfg_initial_backoff) cfg.(cfg_max_backoff)
                cfg.(cfg_exhausted_backoff)
                (bool_decide (s = Primary)
                 && (cfg.(cfg_max_recovery_attempts) <=? self.(sv_recovery_attempts))) attempt in
  let delay := jittered base (hash_one (slot_index s) attempt) in
  with_now (fun at_ self =>
    match slot_of_index self s with
    | None => self
    | Some _ =>
        tap (NoticeReconnecting self.(sv_next_generation) (slot_role s)
               (Z.min U64_MAX (as_millis delay)))
          (on_slot s (set_reconnect (Some (at_ + delay))) self)
    end) self.

Definition advance_backoff (s : Slot) (lifetime : Z) : act := fun self =>
  on_slot s (fun t => set_backoff (next_backoff_attempt lifetime
    self.(sv_config).(cfg_stable_after) t.(backoff_attempt)) t) self.

Definition schedule_slot_reconnect (s : Slot) (lifetime : Z) : act := fun self =>
  schedule_reconnect s (advance_backoff s lifetime self).

Definition recovery_exhausted (self : Supervisor) : bool :=
  self.(sv_config).(cfg_max_recovery_attempts) <=? self.(sv_recovery_attempts).

Definition terminal_authority (self : Supervisor) (why : AuthorityReason) : AuthorityReason :=
  if recovery_exhausted self then ARecoveryBaseUnavailable else why.

Definition report_exhaustion : act := fun self =>
  if negb (recovery_exhausted self) || self.(sv_unavailable_reported) then self
  else
    let self := report_loss Reconnect ARecoveryBaseUnavailable self in
    let self := count recovery_base_unavailable 1 (set_unavailable_reported true self) in
    tap (NoticeRecoveryBaseUnavailable self.(sv_recovery_attempts)) self.

(** Whether the standby took the primary's place. *)
Definition take_over (index : nat) (promoted : bool) (self : Supervisor) : bool * Supervisor :=
  ask (fun e self =>
    match active_of self (StandbySlot index) with
    | None => (false, self)
    | Some a =>
        if negb (is_viable e a) then (false, self)
        else
          let lifetime := saturating_duration_since e.(now) a.(spawned_at) in
          let self := on_slot (StandbySlot index) (set_active None) self in
          let self := on_standby index (fun b =>
            set_sb_state (Divergent ContinuityMismatch)
              (set_shadow (book_new self.(sv_market)) (set_assigned None b))) self in
          let self := on_slot Primary (fun t =>
            set_backoff 0 (set_reconnect None (set_active (Some (set_produced_base promoted a)) t)))
            self in
          let self := on_pool (fun gate => reassign_socket gate (S index) 0) self in
          (true, schedule_slot_reconnect (StandbySlot index) lifetime self)
    end) self.

(** The first standby that agrees with a live book and is viable; else why not. *)
Fixpoint switch_among (e : Env) (published : PublishedBook) (ended : ConnectionEndReason)
    (refusal : option AuthorityReason) (standbys : list (nat * Standby)) : SourceSwitch :=
  match standbys with
  | [] => match refusal with Some why => Refuse why | None => Absent end
  | (index, standby) :: rest =>
      match standby.(sb_slot).(active) with
      | None => switch_among e published ended refusal rest
      | Some a =>
          let verdict := agreement standby.(shadow) published in
          if bool_decide (verdict = Agreeing)
             && bool_decide (published.(published_authority) = Live) && is_viable e a
          then Promote index
          else switch_among e published ended
                 (match refusal with
                  | None => Some (refusal_reason verdict ended)
                  | Some _ => refusal
                  end) rest
      end
  end.

Definition decide_switch (e : Env) (ended : ConnectionEndReason) (self : Supervisor) :
    SourceSwitch :=
  switch_among e (writer_published self.(sv_writer)) ended None
    (imap (fun index b => (index, b)) self.(sv_standbys)).

Definition refuse_switch (why : AuthorityReason) : act := fun self =>
  let self := if self.(sv_base_accepted)
              then report_loss Reconnect (terminal_authority self why) self else self in
  let self := report_exhaustion (count promotions_refused 1 self) in
  ask (fun e self =>
    match first_viable_standby e self with
    | Some index =>
        let '(taken, self) := take_over index false self in
        if taken then self else schedule_reconnect Primary self
    | None => schedule_reconnect Primary self
    end) self.

(** A primary lost with nobody to follow it. *)
Definition lose_primary (ended : ConnectionEndReason) : act := fun self =>
  if self.(sv_base_accepted)
  then let '(continuity, authority) := end_reason_mapping ended in
       report_loss continuity (terminal_authority self authority) self
  else self.

Definition apply_switch (switch : SourceSwitch) (ended : ConnectionEndReason) : act := fun self =>
  match switch with
  | Promote index =>
      let '(taken, self) := take_over index true self in
      if taken then count promotions 1 self
      else refuse_switch (refusal_reason Agreeing ended) self
  | Refuse why => refuse_switch why self
  | Absent => schedule_reconnect Primary (report_exhaustion (lose_primary ended self))
  end.

Definition on_standby_ended (index : nat) (ended : ConnectionEndReason) (lifetime : Z) : act :=
  fun self =>
    let self := on_standby index (fun b =>
      set_shadow (book_new self.(sv_market)) (set_sb_state (StandbyFailed (replica_failure ended)) b))
      self in
    let self := on_pool (fun gate => retire_socket gate (S index)) self in
    resync (schedule_slot_reconnect (StandbySlot index) lifetime self).

(** A session of an armed pool that overflowed its queue lost frames nobody else covers. *)
Definition overload_loss (ended : ConnectionEndReason) (established : bool) : act := fun self =>
  if pool_armed self && established
     && match ended with NoticeUndeliverable => true | _ => false end
  then report_loss LocalLoss AOverload self else self.

Definition fence (s : Slot) (a : ActiveConnection) : act := fun self =>
  with_now (fun at_ self =>
    let expires := at_ + self.(sv_config).(cfg_fenced_linger) in
    let previous := slot_of_index self s ≫= fenced in
    let self := match previous with
                | Some f => effect (Aborted f.(fenced_generation)) self
                | None => self
                end in
    let self := on_slot s (set_fenced (Some {| fenced_generation := a.(generation);
                                               expires_at := expires |})) self in
    tap (NoticeFenced a.(generation)) (count fenced_generations 1 self)) self.

(** Fences a slot whose heartbeat is overdue and settles its end with [ended]. *)
Definition fence_if_expired_with (s : Slot)
    (ended : ConnectionEndReason -> bool -> bool -> Z -> act) : act := ask (fun e self =>
  match active_of self s with
  | None => self
  | Some a =>
      if match heartbeat_expiry a with Some expiry => expiry <=? e.(now) | None => false end
      then
        let self := on_slot s (set_active None) self in
        with_now (fun at_ self =>
          ended HeartbeatTimeout a.(produced_base) (is_established a)
            (saturating_duration_since at_ a.(spawned_at)) (fence s a self)) self
      else self
  end).

Definition standby_slot_ended (index : nat) (ended : ConnectionEndReason)
    (produced_base established : bool) (lifetime : Z) : act := fun self =>
  on_standby_ended index ended lifetime (overload_loss ended established self).

Definition settle_expired_standby : act := fun self =>
  fold_left (fun self index => fence_if_expired_with (StandbySlot index)
               (standby_slot_ended index) self) (seq 0 (length self.(sv_standbys))) self.

Definition count_recovery (produced_base : bool) : act := fun self =>
  set_recovery_attempts
    (if produced_base then 0 else Z.min U32_MAX (self.(sv_recovery_attempts) + 1)) self.

Definition on_pool_slot_ended (ended : ConnectionEndReason) (produced_base : bool)
    (lifetime : Z) : act := fun self =>
  let self := advance_backoff Primary lifetime self in
  let needs_recovery := negb (authority_is_live self) in
  let self := if needs_recovery then count_recovery produced_base self else self in
  let self := on_pool (fun gate => retire_socket gate 0) self in
  let self := ask (fun e self =>
    match first_viable_standby e self with
    | Some index => (take_over index (authority_is_live self) self).2
    | None => schedule_reconnect Primary (lose_primary ended self)
    end) self in
  let self := if needs_recovery then report_exhaustion self else self in
  resync self.

Definition on_primary_ended (ended : ConnectionEndReason) (produced_base : bool) (lifetime : Z) :
    act := fun self =>
  if pool_armed self then on_pool_slot_ended ended produced_base lifetime self
  else
    let self := settle_expired_standby self in
    let self := advance_backoff Primary lifetime self in
    let self := count_recovery produced_base self in
    let self := ask (fun e self => apply_switch (decide_switch e ended self) ended self) self in
    resync self.

Definition on_slot_ended (s : Slot) (ended : ConnectionEndReason)
    (produced_base established : bool) (lifetime : Z) : act := fun self =>
  match s with
  | Primary => on_primary_ended ended produced_base lifetime (overload_loss ended established self)
  | StandbySlot index => standby_slot_ended index ended produced_base established lifetime self
  end.

Definition fence_if_expired (s : Slot) : act := fence_if_expired_with s (on_slot_ended s).

Definition release_fenced (s : Slot) : act := fun self =>
  match slot_of_index self s ≫= fenced with
  | None => self
  | Some f => effect (Aborted f.(fenced_generation)) (on_slot s (set_fenced None) self)
  end.

(** The task of a slot has ended. *)
Definition on_ended (s : Slot) (ended : ConnectionEndReason) : act := fun self =>
  match active_of self s with
  | None => on_slot_ended s ended false false 0 self
  | Some a =>
      with_now (fun at_ self =>
        on_slot_ended s ended a.(produced_base) (is_established a)
          (saturating_duration_since at_ a.(spawned_at)) (on_slot s (set_active None) self)) self
  end.

(** ** Recovery *)

Definition arm_recovery : act := with_now (fun due self =>
  let needed := match (book_of self).(authority) with Stale _ => true | _ => false end in
  match self.(sv_primary).(active) with
  | None => self
  | Some a =>
      if negb needed || negb (is_established a)
      then on_active Primary (set_recovery None) self
      else match a.(recovery) with
           | Some _ => self
           | None => on_active Primary (set_recovery (Some (Pending due))) self
           end
  end).

Definition try_recv_notice (self : Supervisor) : option ConnectionNotice * Supervisor :=
  ask (fun _ self =>
    match self.(sv_notices) with
    | [] => (None, self)
    | n :: rest => (Some n, set_notices rest self)
    end) self.

(** At most [ingest_capacity] notices, each handled as it is taken. *)
Fixpoint drain_notices (capacity : nat) (self : Supervisor) : Supervisor :=
  match capacity with
  | O => self
  | S capacity =>
      match try_recv_notice self with
      | (Some n, self) => drain_notices capacity (on_notice n self)
      | (None, self) => self
      end
  end.

(** At most [ingest_capacity] notices, kept. *)
Fixpoint stage_notices (capacity : nat) (staged : list ConnectionNotice) (self : Supervisor) :
    list ConnectionNotice * Supervisor :=
  match capacity with
  | O => (staged, self)
  | S capacity =>
      match try_recv_notice self with
      | (Some n, self) => stage_notices capacity (staged ++ [n]) self
      | (None, self) => (staged, self)
      end
  end.

Definition ingest_capacity (self : Supervisor) : nat :=
  Z.to_nat self.(sv_config).(cfg_ingest_capacity).

Definition emit_resubscribe : act := ask (fun e self =>
  let cfg := self.(sv_config) in
  match self.(sv_primary).(active) with
  | None => self
  | Some a =>
      let granted_at := (reserve_command_grant cfg.(cfg_endpoint) e.(now)
                           (from_millis cfg.(cfg_min_command_interval_ms)) e.(pacers)).1 in
      let deadline := granted_at + cfg.(cfg_resubscribe_window) in
      match e.(control) with
      | SendAccepted =>
          tap (NoticeResubscribing a.(generation) (slot_role Primary))
            (effect (Resubscribe a.(generation) granted_at)
               (on_active Primary (set_recovery (Some (Requested deadline))) self))
      | SendFull => on_active Primary (set_recovery (Some (Requested deadline))) self
      | SendClosed => on_active Primary (set_recovery (Some Unreachable)) self
      end
  end).

Definition escalate_recovery : act := fun self =>
  match self.(sv_primary).(active) with
  | None => self
  | Some a =>
      let self := on_slot Primary (set_active None) self in
      with_now (fun at_ self =>
        let self := fence Primary a (count resubscribes_escalated 1 self) in
        on_slot_ended Primary ResubscribeTimedOut false (is_established a)
          (saturating_duration_since at_ a.(spawned_at)) self) self
  end.

Definition on_recovery_due : act := fun self =>
  let self := drain_notices (ingest_capacity self) self in
  let self := arm_recovery self in
  with_now (fun at_ self =>
    match active_of self Primary ≫= recovery with
    | Some attempt =>
        match wake_at attempt with
        | Some due =>
            if due <=? at_
            then match attempt with
                 | Pending _ => emit_resubscribe self
                 | Requested _ | Awaiting _ => escalate_recovery self
                 | Unreachable => self
                 end
            else self
        | None => self
        end
    | None => self
    end) self.

(** ** Heartbeats *)

Definition note_heartbeat (s : Slot) (n : ConnectionNotice) : act := fun self =>
  match n.(note) with
  | Heartbeat observed_at =>
      on_active s (fun a => set_heartbeats a.(ac_heartbeat_deadline) (Some observed_at) a) self
  | _ => self
  end.

Definition on_heartbeat_missed (s : Slot) : act := fun self =>
  match active_of self s with
  | None => self
  | Some a =>
      let '(staged, self) := stage_notices (ingest_capacity self) [] self in
      let expiring := filter (fun n => n.(notice_generation) = a.(generation)) staged in
      let others := filter (fun n => n.(notice_generation) <> a.(generation)) staged in
      let self := fold_left (fun self n => on_notice n self) others self in
      let self := fold_left (fun self n => note_heartbeat s n self) expiring self in
      let self := fence_if_expired s self in
      fold_left (fun self n => on_notice n self) expiring self
  end.

(** ** The run *)

Definition spawn_due (s : Slot) : act := ask (fun e self =>
  match slot_of_index self s with
  | None => self
  | Some target =>
      if bool_decide (is_Some target.(active))
         || negb match target.(reconnect_at) with Some at_ => at_ <=? e.(now) | None => true end
      then self
      else
        ask (fun e self =>
          match (ledger_admit e.(now) self.(sv_config).(cfg_daily_attempt_budget) e.(spent)).1 with
          | Err free_at =>
              on_slot s (set_reconnect (Some free_at)) (count attempts_clamped 1 self)
          | Ok _ =>
              let g := self.(sv_next_generation) in
              let self := set_next_generation (saturating_add_u64 g 1) self in
              let self := effect (Spawned g) (count connection_attempts 1 self) in
              with_now (fun at_ self =>
                let self := on_slot s (fun t => set_reconnect None (set_active
                  (Some {| generation := g; spawned_at := at_; ac_heartbeat_deadline := None;
                           last_heartbeat := None; ac_subscription := 0; produced_base := false;
                           recovery := None |}) t)) self in
                let self := match s with
                            | StandbySlot index => on_standby index (set_assigned (connection_of g)) self
                            | Primary => self
                            end in
                let self := on_pool (fun gate => reset_socket gate (slot_index s)) self in
                resync self) self
          end) self
  end).

(** What every turn of the loop starts with. *)
Definition prepare : act := fun self =>
  arm_recovery (fold_left (fun self s => spawn_due s self) (slots self) self).

Definition kill_primary : act := fun self =>
  let self := set_kill_primary_at None self in
  match self.(sv_primary).(active) with
  | Some a => effect (Aborted a.(generation)) self
  | None => self
  end.

Inductive Wake : Set :=
| HeartbeatMissed (s : Slot)
| FencedExpired (s : Slot)
| ReconnectDue
| RecoveryDue
| KillPrimary
| Ended (s : Slot) (reason : ConnectionEndReason)
| Noticed (notice : ConnectionNotice).

Definition on_wake (w : Wake) : act :=
  match w with
  | HeartbeatMissed s => on_heartbeat_missed s
  | FencedExpired s => release_fenced s
  | ReconnectDue => fun self => self
  | RecoveryDue => on_recovery_due
  | KillPrimary => kill_primary
  | Ended s reason => on_ended s reason
  | Noticed notice => on_notice notice
  end.

(** The wakes the loop can take where it stands, with what is then left of its queue: a
    notice is the head of the queue, and only an occupied slot ends or misses a heartbeat. *)
Inductive wakes_with : Supervisor -> Wake -> Supervisor -> Prop :=
| wakes_noticed self n rest : self.(sv_notices) = n :: rest ->
    wakes_with self (Noticed n) (set_notices rest self)
| wakes_ended self s reason : is_Some (active_of self s) -> wakes_with self (Ended s reason) self
| wakes_heartbeat self s : is_Some (active_of self s ≫= heartbeat_expiry) ->
    wakes_with self (HeartbeatMissed s) self
| wakes_fenced self s : wakes_with self (FencedExpired s) self
| wakes_recovery self : is_Some ((active_of self Primary ≫= recovery) ≫= wake_at) ->
    wakes_with self RecoveryDue self
| wakes_kill self : is_Some self.(sv_kill_primary_at) -> wakes_with self KillPrimary self
| wakes_reconnect self : wakes_with self ReconnectDue self.

(** One turn of [run_until]: the due connections, then what woke it; a failed segment ends
    the run. What arrives while it sleeps is in the queue. *)
Inductive turn : Supervisor -> Supervisor -> Prop :=
| turn_once self w woken : segment_failure self = None ->
    wakes_with (ask (fun _ self => self) (prepare self)) w woken -> turn self (on_wake w woken).

Definition finish : act := fun self =>
  fold_left (fun self s =>
    release_fenced s
      match active_of self s with
      | Some a => effect (Aborted a.(generation)) (on_slot s (set_active None) self)
      | None => self
      end) (slots self) self.

(** ** Building one *)

Definition standby_new (market : MarketRef) : Standby :=
  {| sb_slot := slot_default; shadow := book_new market; assigned := None;
     sb_state := Divergent ContinuityMismatch |}.

(** [started] is the clock's answer. *)
Definition supervisor_new (cfg : SupervisorConfig) (started : Z) (has_tap : bool) :
    result Supervisor SupervisorError :=
  refuse (cfg.(cfg_max_recovery_attempts) =? 0) with RecoveryAttemptsZero ;;
  refuse (WORST_CASE_ATTEMPT_CEILING <? cfg.(cfg_daily_attempt_budget))
    with DailyAttemptBudgetTooLarge ;;
  refuse (MAX_COMMAND_INTERVAL_MS <? cfg.(cfg_min_command_interval_ms))
    with CommandIntervalTooLarge ;;
  refuse (cfg.(cfg_ingest_capacity) =? 0) with IngestCapacityZero ;;
  _ <-? (if cfg.(cfg_pooled)
         then refuse (Z.of_nat MAX_POOL_SOCKETS <? cfg.(cfg_replicas))
                with SupPool SocketCountOutOfRange ;; Ok ()
         else refuse (cfg.(cfg_replicas) =? 0) || (MAX_REPLICAS <? cfg.(cfg_replicas))
                with ReplicasOutOfRange ;; Ok ()) ;;
  gate <-? (if cfg.(cfg_pooled)
            then res_map Some (map_err SupPool
                   (gate_new ORDERBOOK_UPDATE_DEDUP_KEY (Z.to_nat cfg.(cfg_replicas))))
            else Ok None) ;;
  venue <-? map_err SupMarket (venue_new VENUE) ;;
  key <-? map_err SupMarket (market_key_new Identity.slug cfg.(cfg_market)) ;;
  level_capacity <-? map_err SupLevelCapacity (level_capacity_new cfg.(cfg_level_capacity)) ;;
  observer_capacity <-?
    map_err SupObserverCapacity (observer_capacity_new cfg.(cfg_observer_capacity)) ;;
  let market := market_ref_new venue key in
  Ok {| sv_config := cfg; sv_market := market; sv_level_capacity := level_capacity;
        sv_tap := has_tap; sv_run_start := started;
        sv_writer := writer_new (book_new market) observer_capacity; sv_segment := None;
        sv_latest_resolution := None; sv_notices := []; sv_tapped := [];
        sv_primary := slot_default;
        sv_standbys := replicate (Z.to_nat (cfg.(cfg_replicas) - 1)) (standby_new market);
        sv_pool := gate; sv_source := no_source; sv_next_generation := 1;
        sv_recovery_attempts := 0; sv_base_accepted := false; sv_unavailable_reported := false;
        sv_position := 0; sv_kill_primary_after := cfg.(cfg_kill_primary_after);
        sv_kill_primary_at := None; sv_stats := stats_default; sv_ticks := 0; sv_effects := [] |}.

(** A second segment is refused; one whose first publication fails is not kept. *)
Definition publish_into (segment : sink) (self : Supervisor) :
    result () (option sink_error) * Supervisor :=
  match self.(sv_segment) with
  | Some _ => (Err None, self)
  | None =>
      let '(failure, segment) :=
        sink_take_failure (sink_state (writer_published self.(sv_writer)) 0 segment) in
      match failure with
      | Some error => (Err (Some error), self)
      | None => (Ok (), set_segment (Some segment) self)
      end
  end.

End supervisor.
