(* ===== verification/SupervisorSim.v ===== *)
(** * What a supervisor does to its book and its connections

    The [Desk] is what a supervisor is for: the writer of the book, whether a base was ever
    accepted, which generation each slot holds and the next to be handed out. Its steps are
    the few moves a supervisor can make; every handler of [Supervisor] is shown to perform a
    sequence of them, whatever else it does, so that what holds of the steps holds of a run. *)

From stdpp Require Import gmap relations.
From S2P Require Import Prelude Connection OrdMap Numeric Identity Descriptor DedupKey Continuity Observation Book BookProps Digest Pool Channel Observer ObserverProps Session Limitless Pacing Supervisor.

#[global] Typeclasses Opaque set_writer set_segment set_latest_resolution set_notices
  set_tapped set_primary set_standbys set_pool set_source set_next_generation
  set_recovery_attempts set_base_accepted set_unavailable_reported set_position
  set_kill_primary_after set_kill_primary_at set_stats set_ticks set_effects count
  record_failure effect on_standby on_slot on_active on_pool tap resync on_segment
  publish_segment_resolution publish_commit publish_segment_state report_loss report_shadow_loss
  report_slot_loss on_base_accepted apply_authoritative apply_shadow report_accepted_update
  settle_update shadow_too publish_pooled recover_pooled shadow_pooled with_now refuse_update
  exchange_with_primary degrade_pool apply_unpooled apply_pooled apply_update forward_resolution
  on_event on_notice schedule_reconnect advance_backoff schedule_slot_reconnect
  report_exhaustion take_over refuse_switch lose_primary apply_switch on_standby_ended
  overload_loss fence fence_if_expired_with standby_slot_ended settle_expired_standby
  count_recovery on_pool_slot_ended on_primary_ended on_slot_ended fence_if_expired
  release_fenced on_ended arm_recovery try_recv_notice drain_notices stage_notices
  emit_resubscribe escalate_recovery on_recovery_due note_heartbeat on_heartbeat_missed
  spawn_due prepare kill_primary on_wake finish.

Section sim.
Context `{RB : Broadcast StreamDelivery} `{WP : Watch PublishedBook} `{SS : SegmentSink}.
Variable env : nat -> Env.
Variable hash_one : nat -> Z -> Z.
Variables outcome_capacity type_capacity date_capacity : Z.

(** ** The desk *)

Record Desk : Type := {
  d_writer : BookWriter; d_accepted : bool; d_holders : list (option Z); d_next : Z
}.

Definition held (t : ConnectionSlot) : option Z := generation <$> t.(active).

Definition holders (self : Supervisor) : list (option Z) :=
  held self.(sv_primary) :: ((held ∘ sb_slot) <$> self.(sv_standbys)).

Definition desk (self : Supervisor) : Desk :=
  {| d_writer := self.(sv_writer); d_accepted := self.(sv_base_accepted);
     d_holders := holders self; d_next := self.(sv_next_generation) |}.

Definition desk_book (w : BookWriter) (d : Desk) : Desk :=
  {| d_writer := w; d_accepted := d.(d_accepted); d_holders := d.(d_holders);
     d_next := d.(d_next) |}.
Definition desk_base (w : BookWriter) (d : Desk) : Desk :=
  {| d_writer := w; d_accepted := true; d_holders := d.(d_holders); d_next := d.(d_next) |}.
Definition desk_seats (h : list (option Z)) (d : Desk) : Desk :=
  {| d_writer := d.(d_writer); d_accepted := d.(d_accepted); d_holders := h;
     d_next := d.(d_next) |}.

(** What is known of the updates that arrive. *)
Variable genuine : OrderbookUpdate -> Prop.

Inductive desk_step : Desk -> Desk -> Prop :=
| desk_loss d reason why :
    desk_step d (desk_book (writer_report_continuity_loss reason why d.(d_writer)).2 d)
| desk_snapshot d update provenance capacity candidate commit w :
    genuine update -> provenance_wf provenance -> 0 <= capacity.(level_capacity_value) ->
    snapshot_candidate update provenance capacity = Ok candidate ->
    writer_apply_snapshot candidate d.(d_writer) = (Ok commit, w) ->
    desk_step d (desk_base w d)
| desk_resolution d resolution :
    desk_step d (desk_book (writer_publish_resolution resolution d.(d_writer)).2 d)
| desk_vacate d i : desk_step d (desk_seats (<[i := None]> d.(d_holders)) d)
| desk_promote d i g : d.(d_holders) !! S i = Some (Some g) ->
    desk_step d (desk_seats (<[0%nat := Some g]> (<[S i := None]> d.(d_holders))) d)
| desk_exchange d i g o : d.(d_holders) !! S i = Some (Some g) -> d.(d_holders) !! 0%nat = Some o ->
    desk_step d (desk_seats (<[0%nat := Some g]> (<[S i := o]> d.(d_holders))) d)
| desk_spawn d i : d.(d_holders) !! i = Some None ->
    desk_step d {| d_writer := d.(d_writer); d_accepted := d.(d_accepted);
                   d_holders := <[i := Some d.(d_next)]> d.(d_holders);
                   d_next := saturating_add_u64 d.(d_next) 1 |}.

(** ** Handlers that leave the desk alone *)

Definition arrived (n : ConnectionNotice) : Prop :=
  match n.(note) with
  | NoteEvent (OrderbookUpdateEvent u) _ _ _ => genuine u
  | _ => True
  end.

Hypothesis arrivals_genuine : forall t, Forall arrived (env t).(arrivals).

Record quiet (s s' : Supervisor) : Prop := {
  q_desk : desk s' = desk s;
  q_config : s'.(sv_config) = s.(sv_config);
  q_market : s'.(sv_market) = s.(sv_market);
  q_capacity : s'.(sv_level_capacity) = s.(sv_level_capacity);
  q_pool : pool_armed s = false -> pool_armed s' = false;
  q_notices : Forall arrived s.(sv_notices) -> Forall arrived s'.(sv_notices)
}.

#[local] Instance quiet_preorder : PreOrder quiet.
Proof.
  split; [by split|]. intros x y z [] []. split; try congruence; auto.
Qed.

(** A property that survives a handler, and a handler every property of desk and queue
    survives. *)
Class Preserves (P : Supervisor -> Prop) (f : Supervisor -> Supervisor) :=
  preserves x : P x -> P (f x).
Class Quiet (f : Supervisor -> Supervisor) := quietly x : quiet x (f x).
Class OfDesk (P : Supervisor -> Prop) := of_desk x y : quiet x y -> P x -> P y.

#[local] Instance quiet_of_desk s : OfDesk (quiet s).
Proof. intros x y ? ?. by etrans. Qed.
#[local] Instance quiet_preserves P f : OfDesk P -> Quiet f -> Preserves P f.
Proof. intros H Hf x. apply H, Hf. Qed.

(** The supervisor once it has asked. *)
Definition asked (x : Supervisor) : Supervisor :=
  set_ticks (S x.(sv_ticks)) (set_notices (x.(sv_notices) ++ (env x.(sv_ticks)).(arrivals)) x).

Lemma ask_eq {A} (k : Env -> Supervisor -> A) x : ask env k x = k (env x.(sv_ticks)) (asked x).
Proof. reflexivity. Qed.

Lemma asked_quiet x : quiet x (asked x).
Proof. split; try done. intros H. simpl. by apply Forall_app. Qed.

(** What asking does not disturb. *)
Class Waits (P : Supervisor -> Prop) := waits x : P x -> P (asked x).

#[local] Instance of_desk_waits P : OfDesk P -> Waits P.
Proof. intros H x. apply H, asked_quiet. Qed.

Lemma ask_case {A} (Q : A -> Prop) P (k : Env -> Supervisor -> A) x : Waits P -> P x ->
  (forall e y, P y -> Q (k e y)) -> Q (ask env k x).
Proof. intros HP Hx H. rewrite ask_eq. auto. Qed.

Lemma fold_case {A} (P : Supervisor -> Prop) (f : Supervisor -> A -> Supervisor) l x :
  (forall a y, P y -> P (f y a)) -> P x -> P (fold_left f l x).
Proof. intros H. revert x. induction l as [|a l IH]; intros x Hx; simpl; auto. Qed.

(** Walks a handler's body: a question by its answers, a branch by its cases, a call by what
    is known of it. *)
Ltac walk :=
  cbv beta zeta;
  lazymatch goal with
  | |- ?P ?x => first
    [ match goal with H : ?G |- ?G => exact H end
    | lazymatch goal with |- quiet ?y ?y => reflexivity end
    | lazymatch x with
      | ask _ _ _ => apply (ask_case P P); [apply _ | walk | intros; walk]
      | with_now _ _ _ => unfold with_now; walk
      | fold_left _ _ _ => apply (fold_case P); [intros; walk | walk]
      | match ?t with _ => _ end =>
          lazymatch type of t with
          | (_ * Supervisor)%type =>
              let H := fresh "Hw" in assert (H : P t.2) by walk;
              destruct t as [? ?] eqn:?; simpl in H; walk
          | _ => destruct t eqn:?; walk
          end
      | snd (match ?t with _ => _ end) => destruct t eqn:?; walk
      | snd (_, ?y) => change (P y); walk
      | snd (ask _ _ _) => apply (ask_case (fun r => P r.2) P); [apply _ | walk | intros; walk]
      | snd (?f ?y) => apply (preserves (P := P) (f := fun z => snd (f z)) y); walk
      | ?f ?y => apply (preserves (P := P) (f := f) y); walk
      end
    | idtac ]
  end.

(** The assignments that touch neither desk nor queue. *)
#[local] Hint Extern 1 (Quiet ?f) =>
  lazymatch f with
  | count _ _ => idtac | record_failure _ => idtac | effect _ => idtac
  | set_tapped _ => idtac | set_source _ => idtac | set_position _ => idtac
  | set_latest_resolution _ => idtac | set_recovery_attempts _ => idtac
  | set_unavailable_reported _ => idtac | set_kill_primary_after _ => idtac
  | set_kill_primary_at _ => idtac | set_segment _ => idtac | set_stats _ => idtac
  end; intros ?; by split : typeclass_instances.

(** Nothing arms a pool again. *)
Lemma on_pool_quiet f : (forall g, (f g).(degraded) = g.(degraded)) -> Quiet (on_pool f).
Proof.
  intros Hf x. split; try done. unfold pool_armed, is_armed. simpl.
  destruct x.(sv_pool) as [g|]; [|done]. simpl. by rewrite Hf.
Qed.
#[local] Hint Extern 1 (Quiet (on_pool ?f)) => apply on_pool_quiet; intros ?;
  unfold committed, gate_recovered, retire_socket, exchange_sockets, reassign_socket, reset_socket;
  repeat case_match; reflexivity : typeclass_instances.

#[local] Instance on_segment_quiet f : Quiet (on_segment f).
Proof. intros x. unfold on_segment. destruct x.(sv_segment); [by split|reflexivity]. Qed.

#[local] Instance segment_state_quiet : Quiet publish_segment_state.
Proof. apply on_segment_quiet. Qed.
#[local] Instance publish_commit_quiet c a : Quiet (publish_commit c a).
Proof. apply on_segment_quiet. Qed.
#[local] Instance segment_resolution_quiet d a : Quiet (publish_segment_resolution d a).
Proof. apply on_segment_quiet. Qed.

#[local] Instance tap_quiet n : Quiet (tap env n).
Proof. intros x. unfold tap. walk. Qed.

(** ** Slots *)

Lemma standbys_quiet x l :
  (held ∘ sb_slot) <$> l = (held ∘ sb_slot) <$> x.(sv_standbys) -> quiet x (set_standbys l x).
Proof. intros H. split; try done. unfold desk, holders. simpl. by f_equal; f_equal. Qed.

Lemma on_standby_quiet i f : (forall b, held (f b).(sb_slot) = held b.(sb_slot)) ->
  Quiet (on_standby i f).
Proof.
  intros H x. apply standbys_quiet. rewrite (list_fmap_alter _ _ id); [by rewrite list_alter_id|].
  apply Forall_forall. intros b _. apply H.
Qed.

Lemma on_slot_quiet s f : (forall t, held (f t) = held t) -> Quiet (on_slot s f).
Proof.
  intros H. destruct s; [|by apply on_standby_quiet; intros; apply H].
  intros x. split; try done. unfold desk, holders. simpl. by rewrite (H x.(sv_primary)).
Qed.

Lemma on_active_quiet s f : (forall a, (f a).(generation) = a.(generation)) -> Quiet (on_active s f).
Proof.
  intros H. apply on_slot_quiet. intros [[a|] ? ? ?]; [|done]. unfold held. simpl. by rewrite H.
Qed.

#[local] Hint Extern 1 (Quiet (on_standby _ _)) =>
  apply on_standby_quiet; intros; reflexivity : typeclass_instances.
#[local] Hint Extern 1 (Quiet (on_slot _ _)) =>
  apply on_slot_quiet; intros; reflexivity : typeclass_instances.
#[local] Hint Extern 1 (Quiet (on_active _ _)) =>
  apply on_active_quiet; intros; reflexivity : typeclass_instances.

#[local] Instance resync_quiet : Quiet (resync env).
Proof.
  intros x. unfold resync. apply (ask_case _ (quiet x)); [apply _| |intros; walk].
  apply standbys_quiet. induction x.(sv_standbys) as [|b l IH]; [done|]. simpl. f_equal; [|apply IH].
  by destruct (active _).
Qed.

#[local] Instance report_shadow_loss_quiet i r w : Quiet (report_shadow_loss env i r w).
Proof. intros x. unfold report_shadow_loss. walk. Qed.

#[local] Instance apply_shadow_quiet i c : Quiet (fun x => (apply_shadow env i c x).2).
Proof. intros x. unfold apply_shadow. walk. Qed.

#[local] Instance shadow_too_quiet s c : Quiet (shadow_too env s c).
Proof. intros x. unfold shadow_too. walk. Qed.

#[local] Instance report_accepted_quiet s u p st b : Quiet (report_accepted_update env s u p st b).
Proof. intros x. unfold report_accepted_update. walk. Qed.

#[local] Instance settle_shadow_quiet s u p st : Quiet (settle_update env s u p st false).
Proof. intros x. unfold settle_update, on_base_accepted. walk. Qed.

#[local] Instance shadow_pooled_quiet s c u p st : Quiet (shadow_pooled env s c u p st).
Proof. intros x. unfold shadow_pooled. walk. Qed.

#[local] Instance schedule_reconnect_quiet s : Quiet (schedule_reconnect env hash_one s).
Proof. intros x. unfold schedule_reconnect. walk. Qed.

#[local] Instance advance_backoff_quiet s l : Quiet (advance_backoff s l).
Proof. intros x. unfold advance_backoff. walk. Qed.

#[local] Instance schedule_slot_quiet s l : Quiet (schedule_slot_reconnect env hash_one s l).
Proof. intros x. unfold schedule_slot_reconnect. walk. Qed.

#[local] Instance fence_quiet s a : Quiet (fence env s a).
Proof. intros x. unfold fence. walk. Qed.

#[local] Instance release_fenced_quiet s : Quiet (release_fenced s).
Proof. intros x. unfold release_fenced. walk. Qed.

#[local] Instance on_standby_ended_quiet i r l : Quiet (on_standby_ended env hash_one i r l).
Proof. intros x. unfold on_standby_ended. walk. Qed.

#[local] Instance arm_recovery_quiet : Quiet (arm_recovery env).
Proof. intros x. unfold arm_recovery. walk. Qed.

#[local] Instance emit_resubscribe_quiet : Quiet (emit_resubscribe env).
Proof. intros x. unfold emit_resubscribe. walk. Qed.

#[local] Instance note_heartbeat_quiet s n : Quiet (note_heartbeat s n).
Proof. intros x. unfold note_heartbeat. walk. Qed.

#[local] Instance kill_primary_quiet : Quiet kill_primary.
Proof. intros x. unfold kill_primary. walk. Qed.

#[local] Instance count_recovery_quiet b : Quiet (count_recovery b).
Proof. intros x. unfold count_recovery. walk. Qed.

(** ** Handlers that move the desk *)

Record reached (d0 : Desk) (x : Supervisor) : Prop := {
  r_steps : rtc desk_step d0 (desk x);
  r_capacity : 0 <= x.(sv_level_capacity).(level_capacity_value);
  r_notices : Forall arrived x.(sv_notices)
}.

#[local] Instance reached_of_desk d0 : OfDesk (reached d0).
Proof. intros x y [Hd _ _ Hc _ Hn] []. split; [by rewrite Hd | by rewrite Hc | auto]. Qed.

(** Reached once the base a frame brings counts as accepted. *)
Definition based (d0 : Desk) (x : Supervisor) : Prop := reached d0 (set_base_accepted true x).

#[local] Instance based_of_desk d0 : OfDesk (based d0).
Proof.
  intros x y [Hd ? ? Hc ? Hn]. apply reached_of_desk. split; try done.
  unfold desk in *. injection Hd as Hw Ha Hh Hl Hg. unfold holders. simpl. by rewrite Hw, Hg, Hh, Hl.
Qed.

Lemma reached_step d0 x y : reached d0 x -> desk_step (desk x) (desk y) ->
  sv_level_capacity y = sv_level_capacity x -> sv_notices y = sv_notices x -> reached d0 y.
Proof. intros [Hs Hc Hn] H E1 E2. split; [by eapply rtc_r|by rewrite E1|by rewrite E2]. Qed.

#[local] Instance set_pool_reached d0 g : Preserves (reached d0) (set_pool g).
Proof. by intros x []. Qed.

#[local] Instance report_loss_reached d0 c a : Preserves (reached d0) (report_loss env c a).
Proof.
  intros x Hx. unfold report_loss. cbv zeta. set (y := on_active _ _ x).
  assert (Hy : reached d0 y) by (subst y; walk). clearbody y.
  pose proof (desk_loss (desk y) c a) as Hs. simpl in Hs.
  destruct (writer_report_continuity_loss c a _) as [r w] eqn:E. simpl in Hs.
  assert (Hw : reached d0 (set_writer w y)) by (by eapply reached_step). walk.
Qed.

#[local] Instance report_slot_loss_reached d0 s c a : Preserves (reached d0) (report_slot_loss env s c a).
Proof. intros x Hx. unfold report_slot_loss. walk. Qed.

#[local] Instance refuse_update_reached d0 s k : Preserves (reached d0) (refuse_update env s k).
Proof. intros x Hx. unfold refuse_update. walk. Qed.

Lemma build_provenance_wf u n r c st role x p :
  build_provenance u n r c st role x = Ok p -> provenance_wf p.
Proof.
  unfold build_provenance. intros E.
  destruct (transpose _) as [o|]; [|done]. destruct (version_evidence u) as [v|]; [|done].
  set (kept := match v with Some e => _ | None => _ end) in E.
  destruct kept as [e|] eqn:Ee; [|done].
  assert (He : len e.(evidence_values) <= MAX_SOURCE_EVIDENCE).
  { subst kept. destruct v as [e'|]; simpl in Ee; unfold bounded_evidence_new in Ee; simpl in Ee;
      injection Ee as <-; simpl; vm_compute; discriminate. }
  destruct (connection_identity_new _ _) as [who|]; [|done].
  destruct (source_timestamp_new _) as [ts|]; [|done].
  by apply provenance_new_wf in E as [? _].
Qed.

Lemma apply_authoritative_reached d0 u p cap c at_ x :
  genuine u -> provenance_wf p -> 0 <= cap.(level_capacity_value) ->
  snapshot_candidate u p cap = Ok c -> reached d0 x ->
  let r := apply_authoritative env c at_ x in
  (r.1 = true -> based d0 r.2) /\ (r.1 = false -> reached d0 r.2).
Proof.
  intros Hu Hp Hcap Hc Hx. unfold apply_authoritative.
  destruct (writer_apply_snapshot c x.(sv_writer)) as [[commit|err] w] eqn:E; cbn [fst snd].
  - split; [intros _|done].
    assert (Hb : based d0 (set_writer w x)).
    { eapply reached_step; [exact Hx| |done..]. simpl.
      by apply (desk_snapshot (desk x) u p cap c commit w). }
    walk.
  - split; [done|intros _].
    assert (w = x.(sv_writer)) as ->.
    { unfold writer_apply_snapshot in E. destruct (apply_snapshot _ _) as [[|] b] eqn:Eb; [done|].
      injection E as _ <-. apply apply_snapshot_atomic in Eb as ->. apply with_book_same. }
    assert (Hw : reached d0 (set_writer x.(sv_writer) x)).
    { apply (of_desk x); [by split|done]. }
    walk.
Qed.

Lemma settle_reached d0 s u p st x : based d0 x -> reached d0 (settle_update env s u p st true x).
Proof. unfold based. intros Hx. unfold settle_update, on_base_accepted. walk. Qed.

(** A frame whose candidate is taken for the book itself. *)
Lemma settled_reached d0 u p cap c st x s pos (f : Supervisor -> Supervisor) : Quiet f ->
  genuine u -> provenance_wf p -> 0 <= cap.(level_capacity_value) ->
  snapshot_candidate u p cap = Ok c -> reached d0 x ->
  reached d0 (let '(accepted, y) := apply_authoritative env c st.(stamp_arrival) x in
              if negb accepted then y else settle_update env s u pos st true (f y)).
Proof.
  intros Hf Hu Hp Hcap Hc Hx.
  pose proof (apply_authoritative_reached d0 u p cap c st.(stamp_arrival) x Hu Hp Hcap Hc Hx) as H.
  destruct (apply_authoritative _ _ _ _) as [[|] y]; simpl in *; [|by apply H].
  apply settle_reached. destruct H as [H _]. specialize (H eq_refl). walk.
Qed.

#[local] Instance publish_pooled_reached d0 s c key u pos st p cap :
  genuine u -> provenance_wf p -> 0 <= cap.(level_capacity_value) ->
  snapshot_candidate u p cap = Ok c ->
  Preserves (reached d0) (publish_pooled env s c key u pos st).
Proof.
  intros Hu Hp Hcap Hc x Hx. unfold publish_pooled.
  apply (settled_reached d0 u p cap c st _ s pos (fun y => match key with
    | Some key => on_pool (fun gate => committed gate (slot_index s) key) y | None => y end));
    try done; [intros y; walk|walk].
Qed.

#[local] Instance recover_pooled_reached d0 s c u pos st p cap :
  genuine u -> provenance_wf p -> 0 <= cap.(level_capacity_value) ->
  snapshot_candidate u p cap = Ok c -> Preserves (reached d0) (recover_pooled env s c u pos st).
Proof.
  intros Hu Hp Hcap Hc x Hx. unfold recover_pooled.
  apply (settled_reached d0 u p cap c st _ s pos
    (on_pool (fun gate => gate_recovered gate (slot_index s)))); try done; [apply _|walk].
Qed.

#[local] Instance apply_unpooled_reached d0 s c u pos st p cap :
  genuine u -> provenance_wf p -> 0 <= cap.(level_capacity_value) ->
  snapshot_candidate u p cap = Ok c -> Preserves (reached d0) (apply_unpooled env s c u pos st).
Proof.
  intros Hu Hp Hcap Hc x Hx. unfold apply_unpooled. destruct s as [|i]; [|walk].
  pose proof (apply_authoritative_reached d0 u p cap c st.(stamp_arrival) x Hu Hp Hcap Hc Hx) as H.
  destruct (apply_authoritative _ _ _ _) as [[|] y]; cbn [fst snd] in H; destruct H as [H1 H2];
    [apply settle_reached, H1 | apply H2]; reflexivity.
Qed.

(** ** Seats *)

(** Only who sits where has changed. *)
Record reseats (h : list (option Z)) (x y : Supervisor) : Prop := {
  s_desk : desk y = desk_seats h (desk x);
  s_config : y.(sv_config) = x.(sv_config);
  s_market : y.(sv_market) = x.(sv_market);
  s_capacity : y.(sv_level_capacity) = x.(sv_level_capacity);
  s_pool : pool_armed x = false -> pool_armed y = false;
  s_notices : Forall arrived x.(sv_notices) -> Forall arrived y.(sv_notices)
}.

Lemma reseats_trans h h' x y z : reseats h x y -> reseats h' y z -> reseats h' x z.
Proof.
  intros [E ? ? ? Hp ?] [E' ? ? ? Hp' ?]. split; try congruence; [|by auto..].
  rewrite E', E. done.
Qed.

Lemma quiet_reseats x y : quiet x y <-> reseats (holders x) x y.
Proof. split; (intros [E ? ? ? ? ?]; split; try done; by rewrite E). Qed.

Lemma reseats_holders h x y : reseats h x y -> holders y = h.
Proof. intros [E ? ? ? ? ?]. change (holders y) with (desk y).(d_holders). by rewrite E. Qed.

#[local] Instance reseats_of_desk h x : OfDesk (reseats h x).
Proof.
  intros y z Hq Hy. eapply reseats_trans; [exact Hy|]. rewrite <- (reseats_holders _ _ _ Hy).
  by apply quiet_reseats.
Qed.

Lemma on_slot_reseats s f v x : (forall t, held (f t) = v) ->
  reseats (<[slot_index s := v]> (holders x)) x (on_slot s f x).
Proof.
  intros H. destruct s as [|i]; (split; try done).
  - unfold desk, holders. simpl. by rewrite H.
  - unfold desk, holders, desk_seats. simpl. do 2 f_equal.
    apply list_eq. intros j. rewrite list_lookup_fmap. destruct (decide (i = j)) as [<-|Hj].
    + rewrite list_lookup_alter_eq. destruct (x.(sv_standbys) !! i) eqn:E; simpl.
      * rewrite H, list_lookup_insert_eq; [done|]. rewrite length_fmap. by eapply lookup_lt_Some.
      * rewrite list_insert_ge; [by rewrite list_lookup_fmap, E|].
        rewrite length_fmap. by apply lookup_ge_None.
    + by rewrite list_lookup_alter_ne, list_lookup_insert_ne, list_lookup_fmap by done.
Qed.

Lemma reached_reseats d0 h x y : reseats h x y -> reached d0 x ->
  desk_step (desk x) (desk_seats h (desk x)) -> reached d0 y.
Proof.
  intros [E ? ? Hc _ Hn] [Hs ? ?] H. split; [|by rewrite Hc|by auto].
  rewrite E. by eapply rtc_r.
Qed.

Lemma holders_lookup x s t : slot_of_index x s = Some t -> holders x !! slot_index s = Some (held t).
Proof.
  destruct s as [|i]; simpl; [by intros [= <-]|]. intros (b & Hb & ->)%fmap_Some.
  by rewrite list_lookup_fmap, Hb.
Qed.

Lemma active_of_holders x s a : active_of x s = Some a ->
  holders x !! slot_index s = Some (Some a.(generation)).
Proof.
  intros (t & Ht & Ha)%bind_Some. erewrite holders_lookup by done. unfold held. by rewrite Ha.
Qed.

(** One more seat changes hands. *)
Lemma reseats_slot h x y s f v : (forall t, held (f t) = v) -> reseats h x y ->
  reseats (<[slot_index s := v]> h) x (on_slot s f y).
Proof.
  intros Hf Hy. eapply reseats_trans; [exact Hy|]. rewrite <- (reseats_holders _ _ _ Hy).
  by apply on_slot_reseats.
Qed.

Lemma reseats_refl x : reseats (holders x) x x.
Proof. by apply quiet_reseats. Qed.

#[local] Instance exchange_reached d0 i : Preserves (reached d0) (exchange_with_primary i).
Proof.
  intros x Hx. unfold exchange_with_primary.
  destruct (active_of x (StandbySlot i)) as [taken|] eqn:Ht; [|exact Hx]. cbv zeta.
  apply active_of_holders in Ht. set (g := taken.(generation)) in Ht. simpl in Ht.
  set (x1 := on_slot (StandbySlot i) (set_active None) x).
  assert (H1 : reseats (<[S i := None]> (holders x)) x x1)
    by (apply (reseats_slot _ x x (StandbySlot i)); [done|apply reseats_refl]).
  set (x2 := on_standby i (set_assigned None) x1).
  assert (H2 : reseats (<[S i := None]> (holders x)) x x2) by (subst x2; walk).
  set (x3 := on_slot Primary _ x2).
  assert (H3 : reseats (<[0%nat := Some g]> (<[S i := None]> (holders x))) x x3)
    by (by apply (reseats_slot _ x x2 Primary)).
  set (x4 := on_standby i _ x3).
  assert (H4 : reseats (<[0%nat := Some g]> (<[S i := None]> (holders x))) x x4) by (subst x4; walk).
  set (o := held x.(sv_primary)).
  set (x5 := match x.(sv_primary).(active) with None => x4 | Some a => _ end).
  assert (H5 : reseats (<[0%nat := Some g]> (<[S i := o]> (holders x))) x x5).
  { subst x5 o. unfold held. destruct x.(sv_primary).(active) as [a|] eqn:Ea; [|exact H4].
    set (y := on_standby i _ x4).
    assert (Hy : reseats (<[0%nat := Some g]> (<[S i := None]> (holders x))) x y) by (subst y; walk).
    apply (reseats_slot _ x y (StandbySlot i) (set_active (Some a)) (Some a.(generation))) in Hy;
      [|done]. cbn [slot_index] in Hy. rewrite list_insert_insert_ne in Hy by done.
    by rewrite list_insert_insert_eq in Hy. }
  assert (H6 : reseats (<[0%nat := Some g]> (<[S i := o]> (holders x))) x
    (on_pool (fun gate => exchange_sockets gate 0 (S i)) x5)) by walk.
  eapply reached_reseats; [exact H6|exact Hx|]. by apply desk_exchange.
Qed.

#[local] Instance degrade_pool_reached d0 v g : Preserves (reached d0) (degrade_pool env v g).
Proof. intros x Hx. unfold degrade_pool. walk. Qed.

#[local] Instance apply_pooled_reached d0 s c u pos st gate p cap :
  genuine u -> provenance_wf p -> 0 <= cap.(level_capacity_value) ->
  snapshot_candidate u p cap = Ok c -> Preserves (reached d0) (apply_pooled env s c u pos st gate).
Proof.
  intros Hu Hp Hcap Hc x Hx. unfold apply_pooled. cbv zeta.
  destruct (gate_admit _ _ _ _) as [verdict gate'].
  assert (Hg : reached d0 (set_pool (Some gate') x)) by walk.
  destruct verdict.
  - by eapply publish_pooled_reached.
  - destruct (_ && _); [by eapply recover_pooled_reached|walk].
  - walk.
  - walk.
  - by eapply apply_unpooled_reached.
Qed.

#[local] Instance apply_update_reached d0 s u r st : genuine u ->
  Preserves (reached d0) (apply_update env s u r st).
Proof.
  intros Hu x Hx. unfold apply_update. destruct (checked_add_u64 _ _) as [pos|]; [|walk].
  cbv zeta. unfold with_now. apply (ask_case _ (reached d0)); [apply _|walk|]. intros e y Hy.
  destruct (build_provenance _ _ _ _ _ _ _) as [p|] eqn:Ep; [|walk].
  apply build_provenance_wf in Ep. destruct (snapshot_candidate _ _ _) as [c|] eqn:Ec; [|walk].
  pose proof (r_capacity _ _ Hy) as Hcap.
  destruct y.(sv_pool) as [gate|]; [destruct (is_armed gate)|];
    [by eapply apply_pooled_reached | by eapply apply_unpooled_reached..].
Qed.

#[local] Instance forward_resolution_reached d0 m r st :
  Preserves (reached d0) (forward_resolution env outcome_capacity type_capacity date_capacity m r st).
Proof.
  intros x Hx. unfold forward_resolution. destruct (checked_add_u64 _ _) as [pos|]; [|walk].
  cbv zeta. unfold with_now. apply (ask_case _ (reached d0)); [apply _|walk|]. intros e y Hy.
  destruct (build_resolution _ _ _ _ _ _) as [res|]; [|walk].
  set (z := set_latest_resolution _ y). assert (Hz : reached d0 z) by (subst z; walk).
  clearbody z. destruct (_ && _); [walk|].
  pose proof (desk_resolution (desk z) res) as Hs. simpl in Hs.
  destruct (writer_publish_resolution res _) as [r' w]. simpl in Hs.
  assert (Hw : reached d0 (set_writer w z)) by (by eapply reached_step). walk.
Qed.

#[local] Instance on_event_reached d0 s ev r st :
  (match ev with OrderbookUpdateEvent u => genuine u | _ => True end) ->
  Preserves (reached d0) (on_event env outcome_capacity type_capacity date_capacity s ev r st).
Proof.
  intros He x Hx. unfold on_event. destruct ev as [u|m|name]; [|walk..].
  pose proof (apply_update_reached d0 s u r st He). walk.
Qed.

#[local] Instance on_notice_reached d0 n : arrived n ->
  Preserves (reached d0) (on_notice env outcome_capacity type_capacity date_capacity n).
Proof.
  intros Hn x Hx. unfold on_notice. destruct (slot_of x _) as [s|]; [|walk].
  unfold arrived in Hn. destruct n.(note); [walk|walk|walk| |walk|walk].
  by apply on_event_reached.
Qed.

#[local] Instance report_exhaustion_reached d0 : Preserves (reached d0) (report_exhaustion env).
Proof. intros x Hx. unfold report_exhaustion. walk. Qed.

#[local] Instance take_over_reached d0 i b :
  Preserves (reached d0) (fun x => (take_over env hash_one i b x).2).
Proof.
  intros x Hx. unfold take_over.
  apply (ask_case (fun r => reached d0 r.2) (reached d0)); [apply _|exact Hx|]. intros e y Hy.
  destruct (active_of y (StandbySlot i)) as [a|] eqn:Ha; [|exact Hy].
  destruct (negb _); [exact Hy|]. cbv zeta. cbn [snd].
  apply active_of_holders in Ha. set (g := a.(generation)) in Ha. simpl in Ha.
  set (y1 := on_slot (StandbySlot i) (set_active None) y).
  assert (H1 : reseats (<[S i := None]> (holders y)) y y1)
    by (apply (reseats_slot _ y y (StandbySlot i)); [done|apply reseats_refl]).
  set (y2 := on_standby i _ y1).
  assert (H2 : reseats (<[S i := None]> (holders y)) y y2) by (subst y2; walk).
  set (y3 := on_slot Primary _ y2).
  assert (H3 : reseats (<[0%nat := Some g]> (<[S i := None]> (holders y))) y y3)
    by (by apply (reseats_slot _ y y2 Primary)).
  apply (reached_reseats d0) in H3; [walk|exact Hy|]. by apply desk_promote.
Qed.

#[local] Instance refuse_switch_reached d0 w : Preserves (reached d0) (refuse_switch env hash_one w).
Proof. intros x Hx. unfold refuse_switch. walk. Qed.

#[local] Instance lose_primary_reached d0 w : Preserves (reached d0) (lose_primary env w).
Proof. intros x Hx. unfold lose_primary. walk. Qed.

#[local] Instance apply_switch_reached d0 s w : Preserves (reached d0) (apply_switch env hash_one s w).
Proof. intros x Hx. unfold apply_switch. walk. Qed.

#[local] Instance overload_loss_reached d0 w b : Preserves (reached d0) (overload_loss env w b).
Proof. intros x Hx. unfold overload_loss. walk. Qed.

(** A slot is vacated. *)
#[local] Instance vacate_reached d0 s : Preserves (reached d0) (on_slot s (set_active None)).
Proof.
  intros x Hx.
  apply (reached_reseats d0 _ x _ (on_slot_reseats s (set_active None) None x (fun _ => eq_refl))); [exact Hx|].
  apply desk_vacate.
Qed.

#[local] Instance fence_if_expired_with_reached d0 s ended :
  (forall w b e l, Preserves (reached d0) (ended w b e l)) ->
  Preserves (reached d0) (fence_if_expired_with env s ended).
Proof. intros He x Hx. unfold fence_if_expired_with. walk. Qed.

#[local] Instance standby_slot_ended_reached d0 i w b e l :
  Preserves (reached d0) (standby_slot_ended env hash_one i w b e l).
Proof. intros x Hx. unfold standby_slot_ended. walk. Qed.

#[local] Instance settle_expired_reached d0 :
  Preserves (reached d0) (settle_expired_standby env hash_one).
Proof. intros x Hx. unfold settle_expired_standby. walk. Qed.

#[local] Instance on_pool_slot_ended_reached d0 w b l :
  Preserves (reached d0) (on_pool_slot_ended env hash_one w b l).
Proof. intros x Hx. unfold on_pool_slot_ended. walk. Qed.

#[local] Instance on_primary_ended_reached d0 w b l :
  Preserves (reached d0) (on_primary_ended env hash_one w b l).
Proof. intros x Hx. unfold on_primary_ended. walk. Qed.

#[local] Instance on_slot_ended_reached d0 s w b e l :
  Preserves (reached d0) (on_slot_ended env hash_one s w b e l).
Proof. intros x Hx. unfold on_slot_ended. walk. Qed.

#[local] Instance fence_if_expired_reached d0 s :
  Preserves (reached d0) (fence_if_expired env hash_one s).
Proof. intros x Hx. unfold fence_if_expired. walk. Qed.

#[local] Instance on_ended_reached d0 s w : Preserves (reached d0) (on_ended env hash_one s w).
Proof. intros x Hx. unfold on_ended. walk. Qed.

#[local] Instance escalate_reached d0 : Preserves (reached d0) (escalate_recovery env hash_one).
Proof. intros x Hx. unfold escalate_recovery. walk. Qed.

(** ** The queue *)

Lemma take_notice_reached d0 x n rest : reached d0 x -> x.(sv_notices) = n :: rest ->
  arrived n /\ reached d0 (set_notices rest x).
Proof.
  intros [Hs Hc Hn] E. rewrite E in Hn. apply Forall_cons in Hn as [Hn Hr].
  split; [done|]. by split.
Qed.

Lemma try_recv_reached d0 x : reached d0 x ->
  let r := try_recv_notice env x in
  reached d0 r.2 /\ (forall n, r.1 = Some n -> arrived n).
Proof.
  intros Hx. unfold try_recv_notice.
  apply (ask_case (fun r => reached d0 r.2 /\ (forall n, r.1 = Some n -> arrived n)) (reached d0));
    [apply _|exact Hx|]. intros _ y Hy.
  destruct y.(sv_notices) as [|n rest] eqn:E; [by split|].
  destruct (take_notice_reached d0 y n rest Hy E) as [Hn Hr]. split; [exact Hr|]. by intros ? [= <-].
Qed.

#[local] Instance drain_reached d0 k :
  Preserves (reached d0) (drain_notices env outcome_capacity type_capacity date_capacity k).
Proof.
  induction k as [|k IH]; intros x Hx; [exact Hx|]. cbn [drain_notices].
  destruct (try_recv_reached d0 x Hx) as [H1 H2].
  destruct (try_recv_notice env x) as [[n|] y]; [|exact H1].
  apply IH, on_notice_reached; [by apply H2|exact H1].
Qed.

Lemma stage_reached d0 k l x : reached d0 x -> Forall arrived l ->
  let r := stage_notices env k l x in reached d0 r.2 /\ Forall arrived r.1.
Proof.
  revert l x. induction k as [|k IH]; intros l x Hx Hl; [done|]. cbn [stage_notices].
  destruct (try_recv_reached d0 x Hx) as [H1 H2].
  destruct (try_recv_notice env x) as [[n|] y]; [|done].
  apply IH; [exact H1|]. apply Forall_app. split; [done|]. by apply Forall_singleton, H2.
Qed.

Lemma notices_reached d0 l x : Forall arrived l -> reached d0 x ->
  reached d0 (fold_left (fun self n =>
    on_notice env outcome_capacity type_capacity date_capacity n self) l x).
Proof.
  revert x. induction l as [|n l IH]; intros x Hl Hx; [exact Hx|].
  apply Forall_cons in Hl as [Hn Hl]. apply IH; [done|]. by apply on_notice_reached.
Qed.

Lemma filter_arrived (Q : ConnectionNotice -> Prop) `{!forall n, Decision (Q n)} l :
  Forall arrived l -> Forall arrived (filter Q l).
Proof. rewrite !Forall_forall. intros Hl n [_ Hn]%list_elem_of_filter. by apply Hl. Qed.

#[local] Instance on_recovery_due_reached d0 : Preserves (reached d0)
  (on_recovery_due env hash_one outcome_capacity type_capacity date_capacity).
Proof. intros x Hx. unfold on_recovery_due. walk. Qed.

#[local] Instance on_heartbeat_missed_reached d0 s : Preserves (reached d0)
  (on_heartbeat_missed env hash_one outcome_capacity type_capacity date_capacity s).
Proof.
  intros x Hx. unfold on_heartbeat_missed. destruct (active_of x s) as [a|]; [|exact Hx].
  destruct (stage_reached d0 (ingest_capacity x) [] x Hx ltac:(done)) as [H1 H2].
  destruct (stage_notices _ _ _ _) as [staged y]. cbn [fst snd] in *. cbv zeta.
  apply notices_reached; [by apply filter_arrived|].
  set (z := fold_left _ _ y). assert (Hz : reached d0 z)
    by (apply notices_reached; [by apply filter_arrived|exact H1]). clearbody z. walk.
Qed.

(** ** Connecting *)

#[local] Instance spawn_due_reached d0 s : Preserves (reached d0) (spawn_due env s).
Proof.
  intros x Hx. unfold spawn_due. apply (ask_case _ (reached d0)); [apply _|exact Hx|].
  intros e y Hy. destruct (slot_of_index y s) as [target|] eqn:Et; [|exact Hy].
  destruct (_ || _) eqn:Ed; [exact Hy|].
  assert (Hn : holders y !! slot_index s = Some None).
  { rewrite (holders_lookup y s target Et). unfold held. bool_facts.
    destruct target.(active); [|done]. exfalso. eauto. }
  clear Et Ed target.
  apply (ask_case _ (fun z => reached d0 z /\ holders z = holders y));
    [|done|].
  { apply of_desk_waits. intros z z' Hq [Hz Hh]. split; [by eapply reached_of_desk|].
    rewrite <- Hh. apply quiet_reseats in Hq. by apply reseats_holders in Hq. }
  intros e' z [Hz Hh]. rewrite <- Hh in Hn. destruct (ledger_admit _ _ _).1; [|walk].
  cbv zeta. set (g := z.(sv_next_generation)). set (w := set_next_generation _ z).
  set (w' := effect _ _). assert (Hw : quiet w w') by (subst w'; walk).
  unfold with_now. apply (ask_case _ (quiet w)); [apply _|exact Hw|]. clear Hw. intros e'' v Hv.
  set (r := on_slot s _ v).
  assert (Hr : reseats (<[slot_index s := Some g]> (holders v)) v r) by (by apply on_slot_reseats).
  assert (Hd : reached d0 r).
  { destruct Hr as [Hr _ _ Hc _ Hq], Hv as [Hv _ _ Hc' _ Hq'], Hz as [Hz Hc0 Hq0].
    split; [|by rewrite Hc, Hc'|by auto]. eapply rtc_r; [exact Hz|].
    rewrite Hr, Hv. replace (holders v) with (holders z)
      by (change (holders v) with (desk v).(d_holders); by rewrite Hv).
    exact (desk_spawn (desk z) (slot_index s) Hn). }
  clearbody r. walk.
Qed.

#[local] Instance prepare_reached d0 : Preserves (reached d0) (prepare env).
Proof. intros x Hx. unfold prepare. walk. Qed.

#[local] Instance finish_reached d0 : Preserves (reached d0) finish.
Proof. intros x Hx. unfold finish. walk. Qed.

Lemma on_wake_reached d0 x w y : wakes_with x w y -> reached d0 x ->
  reached d0 (on_wake env hash_one outcome_capacity type_capacity date_capacity w y).
Proof.
  intros Hw Hx. destruct Hw; cbn [on_wake]; try walk.
  destruct (take_notice_reached d0 self n rest Hx ltac:(done)) as [Hn Hr].
  by apply on_notice_reached.
Qed.

Lemma turn_reached d0 x y :
  turn env hash_one outcome_capacity type_capacity date_capacity x y -> reached d0 x -> reached d0 y.
Proof.
  intros [x' w woken _ Hw] Hx. eapply on_wake_reached; [exact Hw|].
  apply (ask_case _ (reached d0)); [apply _|walk|done].
Qed.

Lemma run_reached d0 x y :
  rtc (turn env hash_one outcome_capacity type_capacity date_capacity) x y ->
  reached d0 x -> reached d0 y.
Proof. induction 1; [done|]. intros Hx. eauto using turn_reached. Qed.

(** ** Heartbeats *)

Lemma heartbeats_reached d0 s l x : reached d0 x ->
  reached d0 (fold_left (fun self n => note_heartbeat s n self) l x).
Proof. intros Hx. walk. Qed.

(** Whether the heartbeat of the connection in a slot is overdue. *)
Definition overdue (s : Slot) (x : Supervisor) : bool :=
  match active_of x s ≫= heartbeat_expiry with
  | Some expiry => expiry <=? (env x.(sv_ticks)).(now)
  | None => false
  end.

Lemma fence_not_overdue s x : overdue s x = false -> fence_if_expired env hash_one s x = asked x.
Proof.
  unfold overdue, fence_if_expired, fence_if_expired_with. rewrite ask_eq.
  change (active_of (asked x) s) with (active_of x s).
  destruct (active_of x s) as [a|]; [|done]. simpl. by intros ->.
Qed.

Lemma fence_vacates d0 s x : overdue s x = true -> reached d0 x ->
  reached (desk_seats (<[slot_index s := None]> (holders x)) (desk x))
    (fence_if_expired env hash_one s x).
Proof.
  intros Ho [_ Hc Hn]. unfold overdue in Ho. unfold fence_if_expired, fence_if_expired_with.
  rewrite ask_eq. change (active_of (asked x) s) with (active_of x s).
  destruct (active_of x s) as [a|]; [|done]. simpl in Ho. rewrite Ho. cbv zeta.
  set (v := on_slot s (set_active None) (asked x)).
  assert (Hv : reached (desk_seats (<[slot_index s := None]> (holders x)) (desk x)) v).
  { destruct (on_slot_reseats s (set_active None) None (asked x) (fun _ => eq_refl)) as [Hd _ _ Hc' _ Hn'].
    subst v. split; [by rewrite Hd|by rewrite Hc'|]. apply Hn'. by apply asked_quiet. }
  clearbody v. walk.
Qed.

(** ** A book that is no longer live

    A loss takes the book down, unless its revisions are spent; nothing that follows the end
    of a connection brings it back. *)

Definition down (x : Supervisor) : Prop :=
  (book_of x).(authority) <> Live \/ checked_add_u64 (book_of x).(revision) 1 = None.

#[local] Instance down_of_desk : OfDesk down.
Proof.
  intros x y [Hd _ _ _ _ _]. apply (f_equal d_writer) in Hd. cbn in Hd. unfold down, book_of.
  by rewrite Hd.
Qed.

Lemma report_continuity_loss_down reason why b :
  let b' := (report_continuity_loss reason why b).2 in
  b'.(authority) <> Live \/ checked_add_u64 b'.(revision) 1 = None.
Proof.
  unfold report_continuity_loss, bind, gets, id, ret, lift, modify. simpl.
  destruct (bool_decide _ && bool_decide _) eqn:E; simpl.
  - bool_facts. left. congruence.
  - destruct (checked_add_u64 b.(revision) 1) eqn:Er; simpl; [by left|by right].
Qed.

(** What the report of a loss does to the desk. *)
Lemma report_loss_desk c a x :
  desk (report_loss env c a x)
  = desk_book (writer_report_continuity_loss c a x.(sv_writer)).2 (desk x).
Proof.
  unfold report_loss. cbv zeta. set (y := on_active _ _ x).
  assert (Hy : quiet x y) by (subst y; walk). destruct Hy as [Hy _ _ _ _ _]. clearbody y.
  assert (Hw : y.(sv_writer) = x.(sv_writer)) by (by injection Hy). rewrite Hw.
  destruct (writer_report_continuity_loss c a _) as [r w] eqn:E. cbn [snd].
  match goal with |- desk ?z = _ => assert (Hz : quiet (set_writer w y) z) by walk end.
  destruct Hz as [-> _ _ _ _ _]. rewrite <- Hy. done.
Qed.

Lemma report_loss_down c a x : down (report_loss env c a x).
Proof.
  pose proof (report_continuity_loss_down c a (book_of x)) as Hb.
  pose proof (f_equal d_writer (report_loss_desk c a x)) as E. cbn [desk desk_book d_writer] in E.
  unfold down, book_of in *. rewrite E. unfold writer_report_continuity_loss, publish_if_changed.
  by destruct (report_continuity_loss _ _ _) as [[[|]|] b].
Qed.

(** A live book rests on an accepted base. *)
Definition backed (x : Supervisor) : Prop :=
  (book_of x).(authority) = Live -> x.(sv_base_accepted) = true.

#[local] Instance backed_of_desk : OfDesk backed.
Proof.
  intros x y [Hd _ _ _ _ _]. unfold backed, book_of.
  pose proof (f_equal d_writer Hd) as Hw. pose proof (f_equal d_accepted Hd) as Ha.
  cbn in Hw, Ha. by rewrite Hw, Ha.
Qed.

#[local] Instance report_loss_keeps_down c a : Preserves down (report_loss env c a).
Proof. intros x _. apply report_loss_down. Qed.

#[local] Instance report_exhaustion_down : Preserves down (report_exhaustion env).
Proof. intros x Hx. unfold report_exhaustion. walk. Qed.

#[local] Instance on_slot_down s f : Preserves down (on_slot s f).
Proof. intros x Hx. destruct s; exact Hx. Qed.

#[local] Instance take_over_down i b : Preserves down (fun x => (take_over env hash_one i b x).2).
Proof. intros x Hx. unfold take_over. walk. Qed.

#[local] Instance refuse_switch_down w : Preserves down (refuse_switch env hash_one w).
Proof. intros x Hx. unfold refuse_switch. walk. Qed.

Lemma refuse_switch_takes_down w x : backed x ->
  down (refuse_switch env hash_one w x).
Proof.
  intros Hl. unfold refuse_switch. cbv zeta. set (y := if x.(sv_base_accepted) then _ else x).
  assert (Hy : down y).
  { subst y. destruct x.(sv_base_accepted) eqn:E; [apply report_loss_down|]. left. intros H.
    specialize (Hl H). congruence. }
  clearbody y. walk.
Qed.

Lemma lose_primary_takes_down w x : backed x ->
  down (lose_primary env w x).
Proof.
  intros Hl. unfold lose_primary. destruct x.(sv_base_accepted) eqn:E.
  - destruct (end_reason_mapping w). apply report_loss_down.
  - left. intros H. specialize (Hl H). congruence.
Qed.

(** ** What is not published

    Everything a consumer, or the pool, could tell apart. *)

Record unpublished (x y : Supervisor) : Prop := {
  u_writer : y.(sv_writer) = x.(sv_writer);
  u_segment : y.(sv_segment) = x.(sv_segment);
  u_pool : y.(sv_pool) = x.(sv_pool);
  u_resolution : y.(sv_latest_resolution) = x.(sv_latest_resolution);
  u_accepted : y.(sv_base_accepted) = x.(sv_base_accepted);
  u_attempts : y.(sv_recovery_attempts) = x.(sv_recovery_attempts);
  u_primary : y.(sv_primary) = x.(sv_primary);
  u_holders : holders y = holders x
}.

#[local] Instance unpublished_waits x : Waits (unpublished x).
Proof. intros y []. by split. Qed.

(** A handler that publishes nothing. *)
Class Private (f : Supervisor -> Supervisor) := privately x : unpublished x (f x).

Lemma unpublished_trans x y z : unpublished x y -> unpublished y z -> unpublished x z.
Proof. intros [] []. split; congruence. Qed.

#[local] Instance private_preserves x f : Private f -> Preserves (unpublished x) f.
Proof. intros Hf y Hy. by eapply unpublished_trans. Qed.

#[local] Hint Extern 1 (Private ?f) =>
  lazymatch f with
  | count _ _ => idtac | record_failure _ => idtac | effect _ => idtac
  | set_tapped _ => idtac | set_source _ => idtac | set_position _ => idtac
  | set_kill_primary_after _ => idtac | set_kill_primary_at _ => idtac
  end; intros ?; by split : typeclass_instances.

Lemma unpublished_refl x : unpublished x x.
Proof. by split. Qed.

#[local] Instance tap_private n : Private (tap env n).
Proof. intros x. pose proof (unpublished_refl x). unfold tap. walk. Qed.

Lemma on_standby_private i f : (forall b, held (f b).(sb_slot) = held b.(sb_slot)) ->
  Private (on_standby i f).
Proof.
  intros Hf x. destruct (on_standby_quiet i f Hf x) as [Hd _ _ _ _ _]. split; try done.
  by apply (f_equal d_holders) in Hd.
Qed.

#[local] Hint Extern 1 (Private (on_standby _ _)) =>
  apply on_standby_private; intros; reflexivity : typeclass_instances.
#[local] Hint Extern 1 (Private (on_active (StandbySlot _) _)) =>
  apply on_standby_private; intros [[[] ? ? ?] ? ? ?]; reflexivity : typeclass_instances.

#[local] Instance resync_private : Private (resync env).
Proof.
  intros x. unfold resync. apply (ask_case _ (unpublished x)); [apply _| |intros; walk].
  split; try done. unfold holders. simpl. f_equal.
  induction x.(sv_standbys) as [|b l IH]; [done|]. simpl. f_equal; [|apply IH].
  by destruct (active _).
Qed.

#[local] Instance report_shadow_loss_private i r w : Private (report_shadow_loss env i r w).
Proof. intros x. pose proof (unpublished_refl x). unfold report_shadow_loss. walk. Qed.

#[local] Instance apply_shadow_private i c : Private (fun x => (apply_shadow env i c x).2).
Proof. intros x. pose proof (unpublished_refl x). unfold apply_shadow. walk. Qed.

#[local] Instance report_accepted_private s u p st b : Private (report_accepted_update env s u p st b).
Proof. intros x. pose proof (unpublished_refl x). unfold report_accepted_update. walk. Qed.

#[local] Instance settle_shadow_private i u p st :
  Private (settle_update env (StandbySlot i) u p st false).
Proof. intros x. pose proof (unpublished_refl x). unfold settle_update, on_base_accepted. walk. Qed.

(** Whether the pool is armed is part of it. *)
Lemma unpublished_armed x y : unpublished x y -> pool_armed y = pool_armed x.
Proof. intros [_ _ E _ _ _ _ _]. unfold pool_armed. by rewrite E. Qed.

Section standby.
Variables (x : Supervisor) (i : nat).
Hypothesis Hunarmed : pool_armed x = false.

Lemma slot_loss_private c a y : unpublished x y ->
  unpublished x (report_slot_loss env (StandbySlot i) c a y).
Proof.
  intros Hy. unfold report_slot_loss. rewrite (unpublished_armed _ _ Hy), Hunarmed. walk.
Qed.

Lemma refuse_update_private k y : unpublished x y ->
  unpublished x (refuse_update env (StandbySlot i) k y).
Proof. intros Hy. unfold refuse_update. apply slot_loss_private. walk. Qed.

Lemma apply_unpooled_private c u pos st y : unpublished x y ->
  unpublished x (apply_unpooled env (StandbySlot i) c u pos st y).
Proof. intros Hy. unfold apply_unpooled. walk. Qed.

Lemma apply_update_private u r st y : unpublished x y ->
  unpublished x (apply_update env (StandbySlot i) u r st y).
Proof.
  intros Hy. unfold apply_update. destruct (checked_add_u64 _ _) as [pos|];
    [|by apply refuse_update_private]. cbv zeta. unfold with_now.
  apply (ask_case _ (unpublished x)); [apply _|walk|]. intros e z Hz.
  destruct (build_provenance _ _ _ _ _ _ _) as [p|]; [|by apply refuse_update_private].
  destruct (snapshot_candidate _ _ _) as [c|]; [|by apply refuse_update_private].
  pose proof (unpublished_armed _ _ Hz) as Ha. rewrite Hunarmed in Ha. unfold pool_armed in Ha.
  destruct z.(sv_pool) as [gate|]; [rewrite Ha|]; by apply apply_unpooled_private.
Qed.

Lemma standby_notice_private n y : slot_of y n.(notice_generation) = Some (StandbySlot i) ->
  unpublished x y ->
  unpublished x (on_notice env outcome_capacity type_capacity date_capacity n y).
Proof.
  intros Hs Hy. unfold on_notice. rewrite Hs.
  destruct n.(note) as [open sub at_|at_|sub|ev r a sub|k b|d].
  - walk.
  - walk.
  - walk.
  - unfold on_event. destruct ev as [u|m|nm];
      [|rewrite (bool_decide_false (StandbySlot i = Primary)) by done; cbn [andb]; walk|walk].
    set (z := count _ _ y). assert (Hz : unpublished x z) by (subst z; walk). clearbody z. cbv zeta.
    set (w := if bool_decide _ then _ else z).
    assert (Hw : unpublished x w).
    { subst w. destruct (bool_decide _); [by apply apply_update_private|exact Hz]. }
    walk.
  - cbv zeta. set (z := record_failure _ y). assert (Hz : unpublished x z) by (subst z; walk).
    destruct b; [by apply slot_loss_private|exact Hz].
  - apply slot_loss_private. walk.
Qed.

End standby.

(** ** The end of an unpooled primary *)

Lemma switch_among_promotes e published ended refusal l index :
  switch_among e published ended refusal l = Promote index ->
  exists standby a, (index, standby) ∈ l /\ standby.(sb_slot).(active) = Some a /\
    agreement standby.(shadow) published = Agreeing /\
    published.(published_authority) = Live /\ is_viable e a = true.
Proof.
  revert refusal. induction l as [|[j b] l IH]; intros refusal; simpl; [by destruct refusal|].
  assert (Hrest : forall r, switch_among e published ended r l = Promote index ->
    exists standby a, (index, standby) ∈ (j, b) :: l /\ standby.(sb_slot).(active) = Some a /\
    agreement standby.(shadow) published = Agreeing /\
    published.(published_authority) = Live /\ is_viable e a = true).
  { intros r (s & a & Hin & Hrest)%IH. exists s, a. split; [by right|done]. }
  destruct b.(sb_slot).(active) as [a|] eqn:Ea; [|apply Hrest].
  destruct (_ && _) eqn:E; [|apply Hrest]. bool_facts. intros [= <-]. exists b, a.
  split; [by left|done].
Qed.

Lemma decide_switch_promotes e ended y index : decide_switch e ended y = Promote index ->
  exists standby a, y.(sv_standbys) !! index = Some standby /\
    standby.(sb_slot).(active) = Some a /\
    agreement standby.(shadow) (writer_published y.(sv_writer)) = Agreeing /\
    (writer_published y.(sv_writer)).(published_authority) = Live /\ is_viable e a = true.
Proof.
  intros (b & a & Hin & H)%switch_among_promotes. exists b, a. split; [|exact H].
  apply list_elem_of_lookup in Hin as [k Hk]. rewrite list_lookup_imap in Hk.
  by apply fmap_Some in Hk as (b' & Hb & [= -> ->]).
Qed.

(** What the switch comes to. *)
Definition switched (y z : Supervisor) : Prop :=
  down z \/
  (z.(sv_writer) = y.(sv_writer) /\
   (writer_published y.(sv_writer)).(published_authority) = Live /\
   exists index standby a,
     y.(sv_standbys) !! index = Some standby /\ standby.(sb_slot).(active) = Some a /\
     agreement standby.(shadow) (writer_published y.(sv_writer)) = Agreeing /\
     holders z = <[0%nat := Some a.(generation)]> (<[S index := None]> (holders y))).

#[local] Instance switched_of_desk y : OfDesk (switched y).
Proof.
  intros z z' Hq [Hz|(Hw & Hl & i & b & a & Hb & Ha & Hg & Hh)].
  - left. by eapply down_of_desk.
  - right. split; [|split; [done|]].
    + destruct Hq as [Hd _ _ _ _ _]. apply (f_equal d_writer) in Hd. by rewrite <- Hw.
    + exists i, b, a. split_and!; try done. rewrite <- Hh.
      by apply quiet_reseats, reseats_holders in Hq.
Qed.

Lemma take_over_answer i b y :
  let r := take_over env hash_one i b y in
  (r.1 = false /\ quiet y r.2) \/
  (r.1 = true /\ exists a, active_of y (StandbySlot i) = Some a /\
     reseats (<[0%nat := Some a.(generation)]> (<[S i := None]> (holders y))) y r.2).
Proof.
  unfold take_over. rewrite ask_eq. cbv zeta. set (y0 := asked y).
  assert (Hq : quiet y y0) by apply asked_quiet.
  change (active_of y0 (StandbySlot i)) with (active_of y (StandbySlot i)).
  destruct (active_of y (StandbySlot i)) as [a|] eqn:Ha; [|by left].
  destruct (negb _); [by left|]. right. split; [done|]. exists a. split; [done|]. cbn [snd].
  set (y1 := on_slot (StandbySlot i) (set_active None) y0).
  assert (H1 : reseats (<[S i := None]> (holders y)) y y1).
  { apply (reseats_slot _ y y0 (StandbySlot i)); [done|]. apply quiet_reseats in Hq. exact Hq. }
  set (y2 := on_standby i _ y1).
  assert (H2 : reseats (<[S i := None]> (holders y)) y y2) by (subst y2; walk).
  set (y3 := on_slot Primary _ y2).
  assert (H3 : reseats (<[0%nat := Some a.(generation)]> (<[S i := None]> (holders y))) y y3)
    by (by apply (reseats_slot _ y y2 Primary)).
  walk.
Qed.

(** With no pool armed, settling the overdue standbys does not touch the book. *)
Definition same_book (y z : Supervisor) : Prop :=
  z.(sv_writer) = y.(sv_writer) /\ z.(sv_base_accepted) = y.(sv_base_accepted) /\
  pool_armed z = false.

#[local] Instance same_book_of_desk y : OfDesk (same_book y).
Proof.
  intros z z' [Hd _ _ _ Hp _] (Hw & Ha & Hu). unfold same_book.
  rewrite <- Hw, <- Ha. split_and!; [by apply (f_equal d_writer) in Hd|by apply (f_equal d_accepted) in Hd|auto].
Qed.

#[local] Instance on_slot_same_book y s f : Preserves (same_book y) (on_slot s f).
Proof. intros z Hz. destruct s; exact Hz. Qed.

#[local] Instance overload_same_book y w b : Preserves (same_book y) (overload_loss env w b).
Proof. intros z Hz. unfold overload_loss. pose proof Hz as (_ & _ & ->). exact Hz. Qed.

Lemma settle_same_book y : pool_armed y = false ->
  same_book y (settle_expired_standby env hash_one y).
Proof.
  intros Hu. assert (Hy : same_book y y) by done.
  unfold settle_expired_standby, fence_if_expired_with, standby_slot_ended. walk.
Qed.

Lemma primary_end_switches y ended produced_base lifetime : pool_armed y = false ->
  backed y -> switched (settle_expired_standby env hash_one y)
    (on_primary_ended env hash_one ended produced_base lifetime y).
Proof.
  intros Hu Hl. unfold on_primary_ended. rewrite Hu. cbv zeta.
  pose proof (settle_same_book y Hu) as (Hw & Ha & _).
  set (z := settle_expired_standby env hash_one y) in *. clearbody z.
  assert (Hlz : backed z) by (unfold backed, book_of in *; by rewrite Hw, Ha).
  clear Hl Hw Ha Hu y.
  apply (of_desk (P := switched z) _ _ (resync_quiet _)). rewrite ask_eq.
  set (z1 := asked _).
  assert (Hq : quiet z z1) by (etrans; [|apply asked_quiet]; walk).
  assert (Hl1 : backed z1) by (by eapply of_desk).
  assert (Hb : z1.(sv_standbys) = z.(sv_standbys) /\ z1.(sv_writer) = z.(sv_writer)) by done.
  clearbody z1. destruct Hb as [Hb Hw].
  set (e := env _). clearbody e.
  destruct (decide_switch e ended z1) as [index|why|] eqn:Ed; cbn [apply_switch].
  - apply decide_switch_promotes in Ed as (b & a & Hi & Hact & Hg & Hlive & _).
    pose proof (take_over_answer index true z1) as H.
    destruct (take_over env hash_one index true z1) as [taken z2]; cbn [fst snd] in H.
    destruct H as [[-> Hq2]|[-> (a' & Ha' & Hr)]].
    + left. apply refuse_switch_takes_down. by eapply of_desk.
    + apply (of_desk (P := switched z) z2); [by split|]. right.
      assert (a' = a) as ->.
      { unfold active_of, slot_of_index in Ha'. rewrite Hi in Ha'. simpl in Ha'. congruence. }
      destruct Hr as [Hd _ _ _ _ _]. rewrite Hw in Hg, Hlive. split; [|split; [exact Hlive|]].
      * apply (f_equal d_writer) in Hd. cbn in Hd. congruence.
      * exists index, b, a. rewrite <- Hb. split_and!; try done.
        apply (f_equal d_holders) in Hd. cbn [desk desk_seats d_holders] in Hd. rewrite Hd.
        apply quiet_reseats, reseats_holders in Hq. by rewrite Hq.
  - left. by apply refuse_switch_takes_down.
  - left. pose proof (lose_primary_takes_down ended z1 Hl1). walk.
Qed.

End sim.
