(* ===== verification/SupervisorProps.v ===== *)
(** * What a supervisor guarantees

    The properties of a run: what is published, who holds which generation, what the loss of
    the primary costs, what a hot standby and a fenced connection can no longer do. They are
    read off the steps of the desk ([SupervisorSim]). *)

From stdpp Require Import gmap relations.
From S2P Require Import Prelude Connection OrdMap Numeric Identity Descriptor DedupKey Continuity Observation Book BookProps Digest Pool Channel Observer ObserverProps Session Limitless Pacing Supervisor SupervisorSim.

(** ** Seats *)

(** Each generation sits in one seat and has been handed out. *)
Definition seats_ok (next : Z) (h : list (option Z)) : Prop :=
  (forall i g, h !! i = Some (Some g) -> g < next) /\
  (forall i j g, h !! i = Some (Some g) -> h !! j = Some (Some g) -> i = j).

Lemma seats_vacate n h i : seats_ok n h -> seats_ok n (<[i := None]> h).
Proof.
  intros [H1 H2]. split.
  - intros j g Hj. apply list_lookup_insert_Some in Hj as [(_ & [=] & _)|[_ Hj]]. eauto.
  - intros j k g Hj Hk. apply list_lookup_insert_Some in Hj as [(_ & [=] & _)|[_ Hj]].
    apply list_lookup_insert_Some in Hk as [(_ & [=] & _)|[_ Hk]]. eauto.
Qed.

(** A generation that sits nowhere takes a seat. *)
Lemma seats_take n h i g : seats_ok n h -> (forall j, h !! j <> Some (Some g)) -> g < n ->
  seats_ok n (<[i := Some g]> h).
Proof.
  intros [H1 H2] Hn Hg. split.
  - intros j k Hj. apply list_lookup_insert_Some in Hj as [(_ & [= ->] & _)|[_ Hj]]; eauto.
  - intros j k m Hj Hk.
    apply list_lookup_insert_Some in Hj as [(-> & [= ->] & _)|[? Hj]];
      apply list_lookup_insert_Some in Hk as [(-> & E & _)|[? Hk]]; simplify_eq; try done.
    + by destruct (Hn _ Hk).
    + by destruct (Hn _ Hj).
    + eauto.
Qed.

Lemma seats_vacated n h i g : seats_ok n h -> h !! i = Some (Some g) ->
  forall j, <[i := None]> h !! j <> Some (Some g).
Proof.
  intros [_ H2] Hi j Hj. apply list_lookup_insert_Some in Hj as [(_ & [=] & _)|[Hij Hj]].
  apply Hij. eauto.
Qed.

Lemma seats_promote n h i g : seats_ok n h -> h !! S i = Some (Some g) ->
  seats_ok n (<[0%nat := Some g]> (<[S i := None]> h)).
Proof.
  intros H Hi. apply seats_take; [by apply seats_vacate|by eapply seats_vacated|].
  by eapply (proj1 H).
Qed.

Lemma seats_exchange n h i g o : seats_ok n h -> h !! S i = Some (Some g) -> h !! 0%nat = Some o ->
  seats_ok n (<[0%nat := Some g]> (<[S i := o]> h)).
Proof.
  intros H Hi H0.
  assert (E : <[0%nat := Some g]> (<[S i := o]> h)
    = <[S i := o]> (<[0%nat := Some g]> (<[S i := None]> (<[0%nat := None]> h)))).
  { apply list_eq. intros k. destruct (decide (k = 0%nat)) as [->|]; [|destruct (decide (k = S i)) as [->|]].
    - pose proof (lookup_lt_Some _ _ _ H0).
      rewrite (list_lookup_insert_ne _ (S i) 0) by done.
      rewrite !list_lookup_insert_eq; rewrite ?length_insert; done.
    - pose proof (lookup_lt_Some _ _ _ Hi).
      rewrite (list_lookup_insert_ne _ 0 (S i)) by done.
      rewrite !list_lookup_insert_eq; rewrite ?length_insert; done.
    - by rewrite !list_lookup_insert_ne by done. }
  rewrite E. clear E.
  assert (H' : seats_ok n (<[0%nat := None]> h)) by (by apply seats_vacate).
  assert (Hi' : <[0%nat := None]> h !! S i = Some (Some g)) by (by rewrite list_lookup_insert_ne).
  assert (Hp : seats_ok n (<[0%nat := Some g]> (<[S i := None]> (<[0%nat := None]> h))))
    by (by apply seats_promote).
  destruct o as [o|]; [|by apply seats_vacate].
  apply seats_take; [done| |by eapply (proj1 H)].
  intros j Hj. apply list_lookup_insert_Some in Hj as [(<- & [= ->] & _)|[Hj0 Hj]].
  - by pose proof (proj2 H _ _ _ Hi H0).
  - apply list_lookup_insert_Some in Hj as [(_ & [=] & _)|[_ Hj]].
    rewrite list_lookup_insert_ne in Hj by done. by pose proof (proj2 H _ _ _ Hj H0).
Qed.

Lemma seats_spawn n h i : seats_ok n h -> seats_ok (n + 1) (<[i := Some n]> h).
Proof.
  intros H. apply seats_take; [split|..].
  - intros j g Hj. pose proof (proj1 H _ _ Hj). lia.
  - apply H.
  - intros j Hj. pose proof (proj1 H _ _ Hj). lia.
  - lia.
Qed.

(** ** Runs *)

Section props.
Context `{RB : Broadcast StreamDelivery} `{RL : !BroadcastLaws RB}.
Context `{WP : Watch PublishedBook} `{WL : !WatchLaws WP} `{SS : SegmentSink}.
Variable env : nat -> Env.
Variable hash_one : nat -> Z -> Z.
Variables outcome_capacity type_capacity date_capacity : Z.

Abbreviation turn := (turn env hash_one outcome_capacity type_capacity date_capacity).
Abbreviation on_notice := (on_notice env outcome_capacity type_capacity date_capacity).

(** A supervisor that has just been built, with or without a segment, and one that has run. *)
Inductive begun (cfg : SupervisorConfig) : Supervisor -> Prop :=
| begun_bare started tap x : supervisor_new cfg started tap = Ok x -> begun cfg x
| begun_into started tap segment x y : supervisor_new cfg started tap = Ok x ->
    publish_into segment x = (Ok (), y) -> begun cfg y.

Definition supervised (cfg : SupervisorConfig) (x : Supervisor) : Prop :=
  exists x0, begun cfg x0 /\ rtc turn x0 x.

(** The updates that arrive are what frames decode to. *)
Definition reported (u : OrderbookUpdate) : Prop :=
  exists frame, decode_event frame = Some (Ok (OrderbookUpdateEvent u)).

Definition any (u : OrderbookUpdate) : Prop := True.

Lemma arrivals_any t : Forall (arrived any) (env t).(arrivals).
Proof. apply Forall_forall. intros n _. unfold arrived, any. by repeat case_match. Qed.

(** The fields of a new supervisor. *)
Lemma begun_fields cfg x : begun cfg x ->
  exists market capacity,
    x.(sv_writer) = writer_new (book_new market) capacity /\ x.(sv_market) = market /\
    x.(sv_base_accepted) = false /\ x.(sv_next_generation) = 1 /\
    holders x = replicate (S (Z.to_nat (cfg.(cfg_replicas) - 1))) None /\
    x.(sv_notices) = [] /\ x.(sv_config) = cfg /\
    x.(sv_level_capacity).(level_capacity_value) = cfg.(cfg_level_capacity).
Proof.
  assert (H : forall started tap x, supervisor_new cfg started tap = Ok x ->
    exists market capacity,
    x.(sv_writer) = writer_new (book_new market) capacity /\ x.(sv_market) = market /\
    x.(sv_base_accepted) = false /\ x.(sv_next_generation) = 1 /\
    holders x = replicate (S (Z.to_nat (cfg.(cfg_replicas) - 1))) None /\
    x.(sv_notices) = [] /\ x.(sv_config) = cfg /\
    x.(sv_level_capacity).(level_capacity_value) = cfg.(cfg_level_capacity)).
  { intros started tap x' E. unfold supervisor_new in E.
    repeat match type of E with (if ?b then _ else _) = _ => destruct b; [done|] end.
    destruct (if cfg.(cfg_pooled) then _ else _) as [[]|]; [|done].
    destruct (if cfg.(cfg_pooled) then _ else _) as [gate|]; [|done].
    destruct (map_err SupMarket (venue_new VENUE)) as [venue|]; [|done].
    destruct (map_err SupMarket (market_key_new _ _)) as [key|]; [|done].
    destruct (map_err SupLevelCapacity _) as [lc|] eqn:Elc; [|done].
    destruct (map_err SupObserverCapacity _) as [oc|]; [|done].
    injection E as <-. exists (market_ref_new venue key), oc. split_and!; try done.
    - unfold holders. simpl. f_equal. by rewrite fmap_replicate.
    - apply map_err_Ok in Elc. unfold level_capacity_new in Elc. simpl.
      destruct (_ =? 0); [done|]. by injection Elc as <-. }
  intros [started tap x' E|started tap segment x' y E Ep]; [by eapply H|].
  apply H in E as (m & c & E). exists m, c. unfold publish_into in Ep.
  destruct x'.(sv_segment); [done|]. destruct (sink_take_failure _) as [[e|] s]; [done|].
  injection Ep as <-. exact E.
Qed.

Lemma begun_reached genuine cfg x : 0 <= cfg.(cfg_level_capacity) -> begun cfg x ->
  reached genuine (desk x) x.
Proof.
  intros Hc (m & c & _ & _ & _ & _ & _ & En & _ & El)%begun_fields.
  split; [done|by rewrite El|by rewrite En].
Qed.

(** ** The book *)

(** Until the generations are spent. *)
Definition seated_once (d : Desk) : Prop := d.(d_next) < U64_MAX -> seats_ok d.(d_next) d.(d_holders).

Record desk_ok (n : nat) (d : Desk) : Prop := {
  dk_wf : book_wf d.(d_writer).(writer_book);
  dk_published : writer_published d.(d_writer) = publish d.(d_writer).(writer_book);
  dk_backed : d.(d_writer).(writer_book).(authority) = Live -> d.(d_accepted) = true;
  dk_length : length d.(d_holders) = n;
  dk_seats : seated_once d
}.

(** A step of the desk is a move of the writer, or none. *)
Lemma desk_step_performs d d' : desk_step reported d d' -> book_wf d.(d_writer).(writer_book) ->
  performs d.(d_writer) d'.(d_writer).
Proof.
  intros H Hb. pose proof (writer_publishes_then_sends d.(d_writer)) as (Hs & _ & Hr & Hl).
  destruct H as [d c a|d u p cap c commit w Hu Hp Hcap Hc E|d m|d i|d i g Hg|d i g o Hg Ho|d i Hi];
    simpl; try (by left).
  - by apply Hl.
  - destruct Hu as (frame & Hf). destruct (snapshot_candidate_wf frame u p cap c) as [Hwf _]; try done.
    pose proof (proj1 (Hs c Hwf)) as H. by rewrite E in H.
  - apply Hr.
Qed.

Lemma desk_step_seats genuine d d' : desk_step genuine d d' -> seated_once d -> seated_once d'.
Proof.
  unfold seated_once. intros Hs Hseats.
  destruct Hs as [| | |d i|d i g Hg|d i g o Hg Ho|d i Hi]; simpl in *; try done; intros Hn.
  - by apply seats_vacate, Hseats.
  - by apply seats_promote, Hg; apply Hseats.
  - by apply seats_exchange; [apply Hseats|..].
  - unfold saturating_add_u64 in *. rewrite Z.min_r in * by lia. apply seats_spawn, Hseats. lia.
Qed.

Lemma desk_run_seats genuine d d' : rtc (desk_step genuine) d d' -> seated_once d -> seated_once d'.
Proof. induction 1; [done|]. eauto using desk_step_seats. Qed.

Lemma desk_step_ok n d d' : desk_step reported d d' -> desk_ok n d -> desk_ok n d'.
Proof.
  intros Hs [Hwf Hp Hb Hl Hseats]. pose proof (desk_step_performs _ _ Hs Hwf) as Hm.
  split; [by eapply performs_wf|by eapply performs_published|..]; clear Hm Hwf Hp.
  - destruct Hs; simpl in *; try done.
    + intros H. by apply Hb, (loss_keeps_live reason why).
    + intros H. by apply Hb, (resolution_keeps_live resolution).
  - destruct Hs; simpl in *; rewrite ?length_insert; done.
  - by eapply desk_step_seats.
Qed.

Lemma desk_run_ok n d d' : rtc (desk_step reported) d d' -> desk_ok n d -> desk_ok n d'.
Proof. induction 1; [done|]. eauto using desk_step_ok. Qed.

Lemma begun_ok cfg x : begun cfg x -> desk_ok (S (Z.to_nat (cfg.(cfg_replicas) - 1))) (desk x).
Proof.
  intros (m & c & Hw & _ & Ha & Hn & Hh & _)%begun_fields.
  split; cbn [desk d_writer d_accepted d_holders d_next].
  - rewrite Hw. apply book_new_wf.
  - rewrite Hw. apply borrow_new.
  - by rewrite Hw.
  - by rewrite Hh, length_replicate.
  - unfold seated_once. cbn [desk d_next d_holders]. intros _. rewrite Hh, Hn. split.
    + intros i g [E _]%lookup_replicate. done.
    + intros i j g [E _]%lookup_replicate. done.
Qed.

Lemma supervised_ok cfg x : (forall t, Forall (arrived reported) (env t).(arrivals)) ->
  0 <= cfg.(cfg_level_capacity) -> supervised cfg x ->
  desk_ok (S (Z.to_nat (cfg.(cfg_replicas) - 1))) (desk x) /\ reached reported (desk x) x.
Proof.
  intros Harr Hc (x0 & Hb & Hrun).
  pose proof (begun_reached reported cfg x0 Hc Hb) as H0.
  apply (run_reached _ _ _ _ _ _ Harr _ _ _ Hrun) in H0. split.
  - destruct H0 as [Hs _ _]. eapply desk_run_ok; [exact Hs|]. by apply begun_ok.
  - destruct H0. by split.
Qed.

(** ** Who holds what *)

Lemma holders_active x i g : holders x !! i = Some (Some g) ->
  exists s a, s ∈ slots x /\ slot_index s = i /\ active_of x s = Some a /\ a.(generation) = g.
Proof.
  destruct i as [|i]; simpl.
  - unfold held. intros [= H]. apply fmap_Some in H as (a & Ha & ->). exists Primary, a.
    split_and!; try done. by left.
  - rewrite list_lookup_fmap. intros (b & Hb & E)%fmap_Some. unfold held in E. simpl in E.
    symmetry in E. apply fmap_Some in E as (a & Ha & ->). exists (StandbySlot i), a. split_and!; try done.
    + right. apply list_elem_of_fmap. exists i. split; [done|]. apply elem_of_seq.
      apply lookup_lt_Some in Hb. lia.
    + unfold active_of. simpl. by rewrite Hb.
Qed.

Lemma slot_of_None x g : slot_of x g = None <-> forall i, holders x !! i <> Some (Some g).
Proof.
  unfold slot_of. split.
  - intros H i Hi. apply holders_active in Hi as (s & a & Hs & _ & Ha & <-).
    apply list_elem_of_In in Hs. apply (List.find_none _ _ H) in Hs. rewrite Ha in Hs. lia.
  - intros H. destruct (List.find _ _) as [s|] eqn:E; [|done]. apply List.find_some in E as [_ E].
    destruct (active_of x s) as [a|] eqn:Ha; [|done]. apply Z.eqb_eq in E. subst g.
    apply active_of_holders in Ha. by destruct (H _ Ha).
Qed.

(** No step seats again a generation already handed out. *)
Lemma desk_step_retires genuine d d' g : desk_step genuine d d' -> g < d.(d_next) ->
  d.(d_next) <= U64_MAX ->
  (forall i, d.(d_holders) !! i <> Some (Some g)) ->
  d.(d_next) <= d'.(d_next) <= U64_MAX /\ forall i, d'.(d_holders) !! i <> Some (Some g).
Proof.
  intros Hs Hg Hmax Hn.
  destruct Hs as [| | |d i|d i k Hk|d i k o Hk Ho|d i Hi]; simpl in *; (split; [|]); try done;
    try (unfold saturating_add_u64; lia); intros j Hj.
  - apply list_lookup_insert_Some in Hj as [(_ & [=] & _)|[_ Hj]]. by eapply Hn.
  - apply list_lookup_insert_Some in Hj as [(_ & [= ->] & _)|[_ Hj]]; [by eapply Hn|].
    apply list_lookup_insert_Some in Hj as [(_ & [=] & _)|[_ Hj]]. by eapply Hn.
  - apply list_lookup_insert_Some in Hj as [(_ & [= ->] & _)|[_ Hj]]; [by eapply Hn|].
    apply list_lookup_insert_Some in Hj as [(_ & -> & _)|[_ Hj]]; by eapply Hn.
  - apply list_lookup_insert_Some in Hj as [(_ & [= E] & _)|[_ Hj]]; [lia|by eapply Hn].
Qed.

Lemma desk_run_retires genuine d d' g : rtc (desk_step genuine) d d' -> g < d.(d_next) ->
  d.(d_next) <= U64_MAX -> (forall i, d.(d_holders) !! i <> Some (Some g)) ->
  d.(d_next) <= d'.(d_next) <= U64_MAX /\ forall i, d'.(d_holders) !! i <> Some (Some g).
Proof.
  induction 1 as [|d d1 d' Hs _ IH]; intros Hg Hm Hn; [split; [lia|done]|].
  destruct (desk_step_retires _ _ _ _ Hs Hg Hm Hn) as [? Hn1].
  destruct (IH ltac:(lia) ltac:(lia) Hn1) as [? ?]. split; [lia|done].
Qed.

(** What a notice of a connection that holds no slot does. *)
Definition discard (n : ConnectionNotice) (x : Supervisor) : Supervisor :=
  match n.(note) with
  | NoteEvent _ _ _ _ => count fenced_events 1 x
  | _ => x
  end.

Lemma unheld_notice n x : slot_of x n.(notice_generation) = None -> on_notice n x = discard n x.
Proof. intros H. unfold Supervisor.on_notice, discard. by rewrite H. Qed.

Lemma next_bounded cfg x : 0 <= cfg.(cfg_level_capacity) -> supervised cfg x ->
  1 <= x.(sv_next_generation) <= U64_MAX.
Proof.
  intros Hc (x0 & Hb & Hrun). pose proof (begun_reached any cfg x0 Hc Hb) as H0.
  apply (run_reached _ _ _ _ _ _ arrivals_any _ _ _ Hrun) in H0 as [Hs _ _].
  apply begun_fields in Hb as (m & c & _ & _ & _ & Hn & Hh & _).
  destruct (desk_run_retires any _ _ 0 Hs) as [H _].
  - simpl. lia.
  - simpl. rewrite Hn. done.
  - cbn [desk d_holders]. rewrite Hh. intros i [E _]%lookup_replicate. done.
  - simpl in H. lia.
Qed.

(** C6: A connection that has lost its slot never gets it back: no later turn of the run gives its
    generation a slot, and whatever it still sends, at any later point, changes nothing of the
    supervisor but the count of events it discarded. *)
Theorem fenced_connection_stays_out cfg x y g : 0 <= cfg.(cfg_level_capacity) ->
  supervised cfg x -> g < x.(sv_next_generation) -> slot_of x g = None -> rtc turn x y ->
  slot_of y g = None /\
  forall n, n.(notice_generation) = g -> on_notice n y = discard n y.
Proof.
  intros Hc Hx Hg Hs Hrun. pose proof (next_bounded cfg x Hc Hx) as Hm.
  assert (Hy : slot_of y g = None).
  { destruct Hx as (x0 & Hb & Hrun0). pose proof (begun_reached any cfg x0 Hc Hb) as H0.
    apply (run_reached _ _ _ _ _ _ arrivals_any _ _ _ Hrun0) in H0 as [_ Hcap Hq].
    assert (Hr : reached any (desk x) x) by (by split).
    apply (run_reached _ _ _ _ _ _ arrivals_any _ _ _ Hrun) in Hr as [Hd _ _].
    apply slot_of_None. apply (desk_run_retires any _ _ g Hd); simpl; [done|lia|].
    by apply slot_of_None. }
  split; [exact Hy|]. intros n <-. by apply unheld_notice.
Qed.

(** C5: At every turn of a run whose updates are what frames decode to, the book is well formed
    and is exactly what is published; it is live only once a base has been accepted; there is
    one slot per configured replica; and, until the generations are spent, no generation sits
    in two slots and each was handed out by this supervisor. *)
Theorem supervised_book_is_sound cfg x : (forall t, Forall (arrived reported) (env t).(arrivals)) ->
  0 <= cfg.(cfg_level_capacity) -> supervised cfg x ->
  book_wf (book_of x) /\ writer_published x.(sv_writer) = publish (book_of x) /\
  backed x /\ length x.(sv_standbys) = Z.to_nat (cfg.(cfg_replicas) - 1) /\
  (x.(sv_next_generation) < U64_MAX ->
   forall s a, active_of x s = Some a -> a.(generation) < x.(sv_next_generation) /\
     forall t b, active_of x t = Some b -> b.(generation) = a.(generation) -> t = s).
Proof.
  intros Harr Hc Hx. destruct (supervised_ok cfg x Harr Hc Hx) as [[Hwf Hp Hb Hl Hs] _].
  split_and!; [exact Hwf|exact Hp|exact Hb| |].
  - cbn [desk d_holders] in Hl. unfold holders in Hl. simpl in Hl. rewrite length_fmap in Hl. lia.
  - intros Hn s a Ha. destruct (Hs Hn) as [H1 H2]. apply active_of_holders in Ha.
    split; [by eapply H1|]. intros t b Hb' E. apply active_of_holders in Hb'. rewrite E in Hb'.
    pose proof (H2 _ _ _ Hb' Ha) as Hi. destruct s, t; simpl in Hi; congruence.
Qed.

(** C8: While no pool is armed, nothing a hot standby's connection says reaches a consumer: its
    books, losses, overloads and resolutions leave the writer, the segment, the pool, the
    latest resolution, the recovery budget and the primary's connection as they were. *)
Theorem standby_never_publishes x n i : pool_armed x = false ->
  slot_of x n.(notice_generation) = Some (StandbySlot i) -> unpublished x (on_notice n x).
Proof.
  intros Hu Hs. by apply (standby_notice_private env _ _ _ any x i Hu n x).
Qed.

(** ** The end of the primary *)

(** C7: When the connection of an unpooled primary ends, the overdue standbys are settled first,
    which leaves the book alone. Then either the book is taken down (unless its revisions are
    spent), or nothing of the book changes: it was live, and the primary's slot now holds the
    connection of a standby whose shadow agreed with it and was live. *)
Theorem primary_end_is_covered cfg x ended produced_base lifetime :
  (forall t, Forall (arrived reported) (env t).(arrivals)) ->
  0 <= cfg.(cfg_level_capacity) -> supervised cfg x -> pool_armed x = false ->
  let settled := settle_expired_standby env hash_one x in
  let y := on_primary_ended env hash_one ended produced_base lifetime x in
  settled.(sv_writer) = x.(sv_writer) /\
  ((book_of y).(authority) <> Live \/ (book_of y).(revision) = U64_MAX \/
   (y.(sv_writer) = x.(sv_writer) /\ (book_of x).(authority) = Live /\
    exists index standby a,
      settled.(sv_standbys) !! index = Some standby /\ standby.(sb_slot).(active) = Some a /\
      standby.(shadow).(authority) = Live /\
      books_economically_equal (publish standby.(shadow)) (publish (book_of x)) = true /\
      holders y !! 0%nat = Some (Some a.(generation)))).
Proof.
  intros Harr Hc Hx Hu settled y. destruct (supervised_ok cfg x Harr Hc Hx) as [Hok Hr].
  destruct (settle_same_book env hash_one any arrivals_any x Hu) as (Hw & _ & _). fold settled in Hw.
  split; [exact Hw|].
  assert (Hsw : switched settled y)
    by (apply (primary_end_switches env hash_one any arrivals_any);
        [exact Hu|exact (dk_backed _ _ Hok)]).
  destruct Hsw as [[Hd|Hd]|(Hwy & Hlive & i & b & a & Hb & Ha & Hg & Hh)]; [by left|..].
  - right; left.
    assert (Hy : reached reported (desk x) y) by (by eapply on_primary_ended_reached).
    pose proof (wf_revision _ (dk_wf _ _ (desk_run_ok _ _ _ (r_steps _ _ _ Hy) Hok))) as Hrev.
    apply checked_None in Hd. simpl in Hrev. unfold book_of in *. lia.
  - right; right. assert (Hp : writer_published settled.(sv_writer) = publish (book_of x))
      by (rewrite Hw; exact (dk_published _ _ Hok)).
    rewrite Hp in Hlive, Hg. rewrite Hw in Hwy. split; [exact Hwy|].
    split; [exact Hlive|]. exists i, b, a. split; [done|]. split; [done|].
    unfold agreement in Hg. destruct (negb _) eqn:E; [done|]. bool_facts.
    split; [done|]. destruct (books_economically_equal _ _) eqn:Ee; [|done]. split; [done|].
    rewrite Hh. apply list_lookup_insert_eq. rewrite length_insert. simpl. lia.
Qed.

(** ** Missed heartbeats *)

Lemma discard_holders n x : holders (discard n x) = holders x.
Proof. unfold discard. by destruct n.(note). Qed.

Lemma discard_all l g x : Forall (fun n => n.(notice_generation) = g) l -> slot_of x g = None ->
  fold_left (fun self n => on_notice n self) l x = fold_left (fun self n => discard n self) l x.
Proof.
  revert x. induction l as [|n l IH]; intros x Hl Hx; [done|].
  apply Forall_cons in Hl as [<- Hl]. simpl. rewrite unheld_notice by done. apply IH; [done|].
  apply slot_of_None. rewrite discard_holders. by apply slot_of_None.
Qed.

(** What a deadline finds: what is queued of other connections is handled first, then the
    pings of its own are noted. If they refute the deadline, its queued notices are handled in
    their order as if it had never fired. If they do not, the connection is fenced and each of
    them is discarded: none reaches a book, whatever it carries. *)
Theorem missed_deadline_exact cfg x s a : 0 <= cfg.(cfg_level_capacity) -> supervised cfg x ->
  active_of x s = Some a ->
  let '(staged, y) := stage_notices env (ingest_capacity x) [] x in
  let own := filter (fun n => n.(notice_generation) = a.(generation)) staged in
  let others := filter (fun n => n.(notice_generation) <> a.(generation)) staged in
  let z := fold_left (fun self n => note_heartbeat s n self) own
             (fold_left (fun self n => on_notice n self) others y) in
  let after := on_heartbeat_missed env hash_one outcome_capacity type_capacity date_capacity s x in
  (overdue env s z = false ->
     after = fold_left (fun self n => on_notice n self) own (asked env z)) /\
  (overdue env s z = true -> generation <$> active_of z s = Some a.(generation) ->
   z.(sv_next_generation) < U64_MAX ->
     after = fold_left (fun self n => discard n self) own (fence_if_expired env hash_one s z)).
Proof.
  intros Hc Hx Ha.
  assert (Hr : exists x0, begun cfg x0 /\ reached any (desk x0) x).
  { destruct Hx as (x0 & Hb & Hrun). exists x0. split; [done|].
    eapply (run_reached _ _ _ _ _ _ arrivals_any); [exact Hrun|]. by eapply begun_reached. }
  destruct Hr as (x0 & Hb & Hr).
  pose proof (stage_reached env any arrivals_any _ (ingest_capacity x) [] x Hr (Forall_nil_2 _)) as Hst.
  unfold on_heartbeat_missed. rewrite Ha.
  destruct (stage_notices env (ingest_capacity x) [] x) as [staged y]. destruct Hst as [Hy Hst].
  cbv zeta. set (own := filter _ staged). set (others := filter _ staged).
  set (z := fold_left _ own _). split.
  - intros Ho. by rewrite fence_not_overdue.
  - intros Ho Hg Hn. apply discard_all with a.(generation).
    { apply Forall_forall. by intros n [Hn' _]%list_elem_of_filter. }
    assert (Hz : reached any (desk x0) z).
    { apply heartbeats_reached. eapply notices_reached; [apply arrivals_any|by apply filter_arrived|exact Hy]. }
    pose proof (fence_vacates env hash_one any arrivals_any _ s z Ho Hz) as [Hw _ _].
    assert (Hh : holders z !! slot_index s = Some (Some a.(generation))).
    { destruct (active_of z s) as [b|] eqn:Eb; [|done]. injection Hg as <-.
      by apply active_of_holders. }
    pose proof (desk_run_seats any _ _ (r_steps _ _ _ Hz) (dk_seats _ _ (begun_ok _ _ Hb)) Hn) as Hok.
    apply slot_of_None. eapply (desk_run_retires any _ _ _ Hw); simpl.
    + by eapply (proj1 Hok).
    + lia.
    + by eapply seats_vacated.
Qed.

(** ** Consumers *)

Lemma sys_run_trans s s' s'' : sys_run s s' -> sys_run s' s'' -> sys_run s s''.
Proof.
  intros H1 H2. induction H2 as [|a b c _ IH Hs]; [done|].
  eapply sys_run_step; [by apply IH|exact Hs].
Qed.

Lemma sends_run ds s : s.(outbox) = ds ->
  sys_run s (with_writer (fold_left send_delivery ds s.(sys_writer)) [] s).
Proof.
  revert s. induction ds as [|d ds IH]; intros s E.
  - destruct s. simpl in *. subst. apply sys_run_refl.
  - eapply sys_run_trans.
    + eapply sys_run_step; [apply sys_run_refl|by apply sys_send].
    + exact (IH (with_writer (send_delivery s.(sys_writer) d) ds s) eq_refl).
Qed.

Lemma performs_run w w' s : performs w w' -> s.(sys_writer) = w -> s.(outbox) = [] ->
  sender_gone w.(delivery_sender) = false ->
  sys_run s (with_writer w' [] s) /\ sender_gone w'.(delivery_sender) = false.
Proof.
  intros [->|(ds & b' & Hm & ->)] Hs Ho Hg.
  - split; [|done]. destruct s. simpl in *. subst. apply sys_run_refl.
  - subst w. split.
    + eapply sys_run_trans.
      * eapply sys_run_step; [apply sys_run_refl|by apply sys_publish].
      * exact (sends_run ds (with_writer (publish_state b' s.(sys_writer)) ds s) eq_refl).
    + rewrite <- Hg. change (delivery_sender s.(sys_writer))
        with (delivery_sender (publish_state b' s.(sys_writer))).
      generalize (publish_state b' s.(sys_writer)). clear.
      induction ds as [|d ds IH]; intros w; [done|]. simpl. rewrite IH. apply gone_send.
Qed.

(** C9: What a supervisor does to its book, over any number of turns, is what the writer of the
    consumer system does: a sequence of moves, each published and then sent. A consumer of a
    supervised book therefore has every guarantee of a consumer of a writer: it sees no gap,
    and drained it is a replica of the book. *)
Theorem supervisor_refines_writer cfg x y s :
  (forall t, Forall (arrived reported) (env t).(arrivals)) -> 0 <= cfg.(cfg_level_capacity) ->
  supervised cfg x -> rtc turn x y -> s.(sys_writer) = x.(sv_writer) -> s.(outbox) = [] ->
  sender_gone x.(sv_writer).(delivery_sender) = false ->
  rtc performs x.(sv_writer) y.(sv_writer) /\ sys_run s (with_writer y.(sv_writer) [] s).
Proof.
  intros Harr Hc Hx Hrun Hs Ho Hg. destruct (supervised_ok cfg x Harr Hc Hx) as [Hok Hr].
  apply (run_reached _ _ _ _ _ _ Harr _ _ _ Hrun) in Hr as [Hd _ _].
  change x.(sv_writer) with (desk x).(d_writer) in *. change y.(sv_writer) with (desk y).(d_writer).
  clear Hrun Hx. generalize dependent s. induction Hd as [d|d d' d'' Hs _ IH]; intros s Hsw Hso.
  - split; [done|]. destruct s. simpl in *. subst. apply sys_run_refl.
  - pose proof (desk_step_performs _ _ Hs (dk_wf _ _ Hok)) as Hp.
    destruct (performs_run _ _ s Hp Hsw Hso Hg) as [Hrun Hg'].
    destruct (IH Hg' (desk_step_ok _ _ _ Hs Hok) (with_writer d'.(d_writer) [] s)) as [H1 H2]; [done..|].
    split; [by eapply rtc_l|]. by eapply sys_run_trans.
Qed.

(** ** Building one *)

(** The number of sockets or replicas a configuration asks for. *)
Lemma replicas_guard cfg :
  let '(refused, gate) := (
    (if cfg.(cfg_pooled)
     then refuse (Z.of_nat MAX_POOL_SOCKETS <? cfg.(cfg_replicas))
            with SupPool SocketCountOutOfRange ;; Ok ()
     else refuse (cfg.(cfg_replicas) =? 0) || (MAX_REPLICAS <? cfg.(cfg_replicas))
            with ReplicasOutOfRange ;; Ok ()),
    (if cfg.(cfg_pooled)
     then res_map Some (map_err SupPool
            (gate_new ORDERBOOK_UPDATE_DEDUP_KEY (Z.to_nat cfg.(cfg_replicas))))
     else Ok None)) in
  match refused, gate with
  | Ok _, Ok gate =>
      (if cfg.(cfg_pooled) then 2 <= cfg.(cfg_replicas) <= 4
       else cfg.(cfg_replicas) <> 0 /\ cfg.(cfg_replicas) <= 4) /\
      match gate with Some g => is_armed g | None => false end = cfg.(cfg_pooled)
  | _, _ => ~ (if cfg.(cfg_pooled) then 2 <= cfg.(cfg_replicas) <= 4
               else cfg.(cfg_replicas) <> 0 /\ cfg.(cfg_replicas) <= 4)
  end.
Proof.
  unfold MAX_POOL_SOCKETS, MAX_REPLICAS. destruct cfg.(cfg_pooled); cbn iota beta.
  - destruct (Z.ltb_spec (Z.of_nat 4) cfg.(cfg_replicas)); [lia|].
    unfold gate_new, MIN_POOL_SOCKETS, MAX_POOL_SOCKETS. simpl admits_pooled_publish. cbn [negb].
    destruct (Nat.leb_spec 2 (Z.to_nat cfg.(cfg_replicas))),
      (Nat.leb_spec (Z.to_nat cfg.(cfg_replicas)) 4); simpl; try lia. split; [lia|done].
  - destruct (Z.eqb_spec cfg.(cfg_replicas) 0), (Z.ltb_spec 4 cfg.(cfg_replicas)); simpl; lia.
Qed.

(** A supervisor is built exactly from a configuration within the stated bounds. It then has
    a pool exactly when asked for one, a slot per replica, all of them empty, and a book of its
    market that is not live. *)
Theorem supervisor_new_exact cfg started tap :
  (is_ok (supervisor_new cfg started tap) = true <->
    cfg.(cfg_max_recovery_attempts) <> 0 /\
    cfg.(cfg_daily_attempt_budget) <= 1000000 /\
    cfg.(cfg_min_command_interval_ms) <= 60000 /\
    cfg.(cfg_ingest_capacity) <> 0 /\
    (if cfg.(cfg_pooled) then 2 <= cfg.(cfg_replicas) <= 4
     else cfg.(cfg_replicas) <> 0 /\ cfg.(cfg_replicas) <= 4) /\
    text_wf MAX_NATIVE_BYTES cfg.(cfg_market) /\ cfg.(cfg_level_capacity) <> 0 /\
    cfg.(cfg_observer_capacity) <> 0 /\ cfg.(cfg_observer_capacity) <= 1048576) /\
  forall x, supervisor_new cfg started tap = Ok x ->
    pool_armed x = cfg.(cfg_pooled) /\
    holders x = replicate (S (Z.to_nat (cfg.(cfg_replicas) - 1))) None /\
    (book_of x).(book_market)
      = {| market_venue := {| venue_text := lit "limitless" |};
           market_key := {| key_kind := Identity.slug; key_value := cfg.(cfg_market) |} |} /\
    (book_of x).(authority) <> Live.
Proof.
  unfold supervisor_new.
  change (venue_new VENUE) with (Ok {| venue_text := lit "limitless" |} : result Venue IdentityError).
  cbn [map_err].
  unfold WORST_CASE_ATTEMPT_CEILING, MAX_COMMAND_INTERVAL_MS.
  destruct (Z.eqb_spec cfg.(cfg_max_recovery_attempts) 0); [split; [split; [done|tauto]|done]|].
  destruct (Z.ltb_spec 1000000 cfg.(cfg_daily_attempt_budget)); [split; [split; [done|lia]|done]|].
  destruct (Z.ltb_spec 60000 cfg.(cfg_min_command_interval_ms)); [split; [split; [done|lia]|done]|].
  destruct (Z.eqb_spec cfg.(cfg_ingest_capacity) 0); [split; [split; [done|tauto]|done]|].
  pose proof (replicas_guard cfg) as Hr. cbn iota beta in Hr.
  destruct (if cfg.(cfg_pooled) then _ else _) as [[]|e1]; [|split; [split; [done|tauto]|done]].
  destruct (if cfg.(cfg_pooled) then _ else _) as [gate|e2]; [|split; [split; [done|tauto]|done]].
  destruct Hr as [Hr Ha].
  unfold market_key_new, level_capacity_new, observer_capacity_new.
  destruct (checked_text cfg.(cfg_market) _ _) as [t|e] eqn:Et; cbn [map_err].
  2:{ split; [|done]. split; [done|]. intros (_ & _ & _ & _ & _ & Ht & _).
      assert (E : checked_text cfg.(cfg_market) MAX_NATIVE_BYTES InvalidNativeKey = Ok cfg.(cfg_market))
        by (by apply checked_text_Ok). congruence. }
  apply checked_text_Ok in Et as [-> Ht].
  destruct (Z.eqb_spec cfg.(cfg_level_capacity) 0); [split; [split; [done|tauto]|done]|].
  cbn [map_err]. change MAX_OBSERVER_CAPACITY with 1048576.
  destruct (Z.eqb_spec cfg.(cfg_observer_capacity) 0); [split; [split; [done|tauto]|done]|].
  destruct (Z.ltb_spec 1048576 cfg.(cfg_observer_capacity)); [split; [split; [done|lia]|done]|].
  split; [split; [intros _; tauto|done]|]. intros x [= <-]. split_and!; try done.
  unfold holders. simpl. f_equal. by rewrite fmap_replicate.
Qed.

End props.

(** ** A run

    Two replicas: the first turn connects both, the next two hand the same frame of the venue
    to the primary and then to the standby; then the primary's connection ends. *)

Definition get_ok {A E} (r : result A E) : is_ok r = true -> A :=
  match r with
  | Ok a => fun _ => a
  | Err _ => fun H => False_rect A (Bool.diff_false_true H)
  end.

(** A segment that takes everything. *)
Definition null_sink : SegmentSink := {|
  sink := unit; sink_error := Empty_set; sink_failure _ := None; sink_take_failure s := (None, s);
  sink_commit _ _ _ s := s; sink_state _ _ s := s; sink_resolution _ _ _ s := s |}.
#[local] Existing Instance null_sink.

Definition frame_from (g : Z) : ConnectionNotice :=
  {| notice_generation := g; note := NoteEvent (OrderbookUpdateEvent sample_update) 0 0 1 |}.
Definition ping_from (g : Z) : ConnectionNotice :=
  {| notice_generation := g; note := Heartbeat 1 |}.

Definition sample_env (t : nat) : Env :=
  {| now := Z.of_nat t; finished _ := false; spent := ledger_empty; pacers := ∅;
     control := SendAccepted; diagnostics_full := false;
     arrivals := if (t =? 0)%nat then [frame_from 1; frame_from 2; ping_from 1; frame_from 1] else [] |}.

Definition sample_cfg : SupervisorConfig :=
  {| cfg_endpoint := lit "wss://ws.example"; cfg_market := lit "will-it-rain";
     cfg_kill_primary_after := None;
     cfg_ingest_capacity := 4; cfg_observer_capacity := 8; cfg_level_capacity := 16;
     cfg_replicas := 2; cfg_pooled := false; cfg_initial_backoff := 1000;
     cfg_max_backoff := 600000; cfg_exhausted_backoff := 600000; cfg_resubscribe_window := 5000;
     cfg_max_recovery_attempts := 5; cfg_fenced_linger := 1000; cfg_stable_after := 60000;
     cfg_daemon_generation := 1; cfg_log_dedup_keys := false; cfg_daily_attempt_budget := 280;
     cfg_min_command_interval_ms := 500 |}.

Abbreviation sample_supervisor := (Supervisor (RB := ring) (WP := slot) (SS := null_sink)).

Definition sample_built : sample_supervisor := get_ok (supervisor_new sample_cfg 0 true) eq_refl.

Definition no_hash (slot : nat) (attempt : Z) : Z := 0.

(** One turn whose wake is a notice, if one is queued. *)
Definition prepared (env : nat -> Env) (x : sample_supervisor) : sample_supervisor :=
  ask env (fun _ self => self) (prepare env x).
Definition noticed (env : nat -> Env) (x : sample_supervisor) : sample_supervisor :=
  match (prepared env x).(sv_notices) with
  | n :: rest => on_wake env no_hash 16 16 16 (Noticed n) (set_notices rest (prepared env x))
  | [] => x
  end.

Abbreviation sample_turn := (turn sample_env no_hash 16 16 16).

Definition sample_based : sample_supervisor := noticed sample_env sample_built.
Definition sample_agreed : sample_supervisor := noticed sample_env sample_based.
Definition sample_ended : sample_supervisor :=
  on_wake sample_env no_hash 16 16 16 (Ended Primary SocketClosed) (prepared sample_env sample_agreed).

Lemma noticed_turn env x : rtc (turn env no_hash 16 16 16) x (noticed env x).
Proof.
  unfold noticed. destruct (prepared env x).(sv_notices) as [|n rest] eqn:E; [done|].
  apply rtc_once, turn_once; [unfold segment_failure; by destruct x.(sv_segment)|]. by constructor.
Qed.

Lemma sample_supervised : supervised sample_env no_hash 16 16 16 sample_cfg sample_agreed.
Proof.
  exists sample_built. split; [by apply (begun_bare _ 0 true)|].
  etrans; [apply noticed_turn|apply noticed_turn].
Qed.

Lemma sample_ends : sample_turn sample_agreed sample_ended.
Proof. apply turn_once; [by vm_compute|]. constructor. eexists. by vm_compute. Qed.

Lemma sample_arrivals t : Forall (arrived reported) (sample_env t).(arrivals).
Proof.
  assert (H : reported sample_update) by (exists sample_frame; apply sample_decodes).
  simpl. destruct (t =? 0)%nat; [|constructor]. by repeat constructor.
Qed.

Lemma supervised_book_is_sound_witness :
  (book_of sample_agreed).(authority) = Live /\
  holders sample_agreed = [Some 1; Some 2] /\
  writer_published sample_agreed.(sv_writer) = publish (book_of sample_agreed).
Proof.
  split_and!; [by vm_compute..|].
  apply (supervised_book_is_sound sample_env no_hash 16 16 16 sample_cfg sample_agreed
    sample_arrivals ltac:(done) sample_supervised).
Defined.

Lemma fenced_connection_stays_out_witness : slot_of sample_agreed 1 = Some Primary /\
  slot_of (noticed sample_env sample_ended) 1 = None.
Proof.
  split; [by vm_compute|].
  refine (proj1 (fenced_connection_stays_out sample_env no_hash 16 16 16 sample_cfg sample_ended
    (noticed sample_env sample_ended) 1 _ _ _ _ _)); [done| |by vm_compute..|apply noticed_turn].
  destruct sample_supervised as (x0 & Hb & Hrun). exists x0. split; [done|].
  by eapply rtc_r, sample_ends.
Defined.

Lemma standby_never_publishes_witness :
  (book_of sample_based).(authority) = Live /\
  (sample_agreed.(sv_standbys) !! 0%nat) ≫= (fun b => Some b.(shadow).(authority)) = Some Live /\
  unpublished sample_based (on_notice sample_env 16 16 16 (frame_from 2) sample_based).
Proof.
  split_and!; [by vm_compute..|].
  by apply (standby_never_publishes sample_env 16 16 16 sample_based (frame_from 2) 0); vm_compute.
Defined.

Lemma primary_end_is_covered_witness :
  let y := on_primary_ended sample_env no_hash SocketClosed true 0 sample_agreed in
  holders y = [Some 2; None] /\
  ((book_of y).(authority) <> Live \/ (book_of y).(revision) = U64_MAX \/
   y.(sv_writer) = sample_agreed.(sv_writer)).
Proof.
  split; [by vm_compute|].
  destruct (primary_end_is_covered sample_env no_hash 16 16 16 sample_cfg sample_agreed SocketClosed
    true 0 sample_arrivals ltac:(done) sample_supervised ltac:(by vm_compute)) as (_ & [H|[H|H]]);
    [by left|by right; left|right; right; apply H].
Defined.

Lemma missed_deadline_exact_witness : exists staged y,
  stage_notices sample_env 4 [] sample_agreed = (staged, y) /\
  notice_generation <$> staged = [1; 1] /\
  (let own := filter (fun n => n.(notice_generation) = 1) staged in
   let others := filter (fun n => n.(notice_generation) <> 1) staged in
   let z := fold_left (fun self n => note_heartbeat Primary n self) own
             (fold_left (fun self n => on_notice sample_env 16 16 16 n self) others y) in
   on_heartbeat_missed sample_env no_hash 16 16 16 Primary sample_agreed
   = fold_left (fun self n => on_notice sample_env 16 16 16 n self) own (asked sample_env z)).
Proof.
  destruct (active_of sample_agreed Primary) as [a|] eqn:Ea; [|by vm_compute in Ea].
  assert (Eg : a.(generation) = 1).
  { assert (E : generation <$> active_of sample_agreed Primary = Some 1) by (by vm_compute).
    rewrite Ea in E. by injection E. }
  pose proof (missed_deadline_exact sample_env no_hash 16 16 16 sample_cfg sample_agreed Primary a
    ltac:(done) sample_supervised Ea) as H.
  change (ingest_capacity sample_agreed) with 4%nat in H.
  destruct (stage_notices _ _ _ _) as [staged y] eqn:Es. exists staged, y. split; [done|].
  rewrite Eg in H.
  assert (Est : staged = (stage_notices sample_env 4 [] sample_agreed).1) by (by rewrite Es).
  assert (Ey : y = (stage_notices sample_env 4 [] sample_agreed).2) by (by rewrite Es).
  split; [rewrite Est; by vm_compute|]. apply H. rewrite Est, Ey. by vm_compute.
Defined.

Lemma supervisor_refines_writer_witness :
  sent sample_agreed.(sv_writer).(delivery_sender) = [] /\
  exists s : system (RB := ring) (WP := slot), s.(sys_writer) = sample_agreed.(sv_writer) /\
    sys_run (attached_to (book_of sample_built) {| observer_capacity_value := 8 |}) s.
Proof.
  split; [by vm_compute|].
  set (s := attached_to (book_of sample_built) {| observer_capacity_value := 8 |}).
  exists (with_writer sample_agreed.(sv_writer) [] s). split; [done|].
  apply (supervisor_refines_writer sample_env no_hash 16 16 16 sample_cfg sample_built sample_agreed s);
    [apply sample_arrivals|done| |etrans; apply noticed_turn|done..].
  exists sample_built. split; [by apply (begun_bare _ 0 true)|done].
Defined.

Lemma supervisor_new_exact_witness : is_ok (supervisor_new (SS := null_sink) (RB := ring) (WP := slot) sample_cfg 0 true) = true.
Proof.
  apply (proj1 (supervisor_new_exact sample_cfg 0 true)).
  unfold text_wf. split_and!; try done; by vm_compute.
Defined.

(** ** A ping counted for another connection

    A pool of two sockets. The first has been silent past its deadline; the second, whose
    heartbeat is not overdue, delivers a frame that contradicts the first one's. Both that
    frame and an old ping of the first are queued when the first one's deadline fires. *)

Definition other_update : OrderbookUpdate :=
  {| market_slug := lit "will-it-rain"; token_id := Some (lit "7");
     bids := [({| price_value := amount 41 2 |}, {| quantity_value := amount 6 0 |})];
     asks := []; timestamp := lit "2024-05-01"; version := Some (lit "12") |}.
Definition other_from (g : Z) : ConnectionNotice :=
  {| notice_generation := g; note := NoteEvent (OrderbookUpdateEvent other_update) 0 0 1 |}.
Definition sample_open : EngineIoOpen :=
  {| Session.sid := lit "s"; ping_interval_ms := 25000; ping_timeout_ms := 20000;
     max_payload_bytes := 1000000 |}.
(** The deadline these intervals make, in nanoseconds. *)
Definition sample_deadline : Z := from_millis 45000.
Definition ready_at (g at_ : Z) : ConnectionNotice :=
  {| notice_generation := g; note := Ready sample_open 1 at_ |}.
Definition ping_at (g at_ : Z) : ConnectionNotice :=
  {| notice_generation := g; note := Heartbeat at_ |}.

Definition late_env (t : nat) : Env :=
  {| now := sample_deadline + 10; finished _ := false; spent := ledger_empty; pacers := ∅;
     control := SendAccepted; diagnostics_full := false;
     arrivals := if (t =? 0)%nat
                 then [ready_at 1 0; ready_at 2 sample_deadline; frame_from 1; ping_at 1 5; other_from 2]
                 else [] |}.

Definition pooled_cfg : SupervisorConfig :=
  {| cfg_endpoint := lit "wss://ws.example"; cfg_market := lit "will-it-rain";
     cfg_kill_primary_after := None;
     cfg_ingest_capacity := 4; cfg_observer_capacity := 8; cfg_level_capacity := 16;
     cfg_replicas := 2; cfg_pooled := true; cfg_initial_backoff := 1000;
     cfg_max_backoff := 600000; cfg_exhausted_backoff := 600000; cfg_resubscribe_window := 5000;
     cfg_max_recovery_attempts := 5; cfg_fenced_linger := 1000; cfg_stable_after := 60000;
     cfg_daemon_generation := 1; cfg_log_dedup_keys := false; cfg_daily_attempt_budget := 280;
     cfg_min_command_interval_ms := 500 |}.

Definition pool_built : sample_supervisor := get_ok (supervisor_new pooled_cfg 0 true) eq_refl.
Definition pool_waiting : sample_supervisor :=
  noticed late_env (noticed late_env (noticed late_env pool_built)).
Definition pool_fenced : sample_supervisor :=
  on_wake late_env no_hash 16 16 16 (HeartbeatMissed Primary) (prepared late_env pool_waiting).

