(* ===== verification/ShmCodec.v ===== *)
(** * Fixed-width words of the shared segment ([src/src/shm/codec.rs])

    Everything the segment carries is a word of fixed width. The encodings are laws of one
    interface, [ExactCodec]: what was encoded decodes to itself, and a word decodes only to
    what encodes to it. Decimals have more words than values, and identities may be followed
    by unused bytes; their laws are stated next to them. *)

From S2P Require Import Prelude OrdMap Numeric Identity Descriptor Continuity Observation.

Definition MAX_STORED_SCALE : Z := U16_MAX.

Definition AUTHORITY_UNSUBSCRIBED : Z := 1.
Definition AUTHORITY_SUBSCRIBING : Z := 2.
Definition AUTHORITY_SYNCHRONIZING : Z := 3.
Definition AUTHORITY_LIVE : Z := 4.
Definition AUTHORITY_RECOVERING : Z := 5.
Definition AUTHORITY_STALE : Z := 6.

Definition REASON_GAP : Z := 1.
Definition REASON_DISCONNECT : Z := 2.
Definition REASON_SUBSCRIPTION_LOST : Z := 3.
Definition REASON_LOCAL_LOSS : Z := 4.
Definition REASON_ORDERING_UNKNOWN : Z := 5.
Definition REASON_OVERLOAD : Z := 6.
Definition REASON_REPLICA_DIVERGENCE : Z := 7.
Definition REASON_RECOVERY_BASE_UNAVAILABLE : Z := 8.

Definition CONTINUITY_INTACT : Z := 1.
Definition CONTINUITY_LOST : Z := 2.

Definition BREAK_OVERRUN : Z := 1.
Definition BREAK_GAP : Z := 2.
Definition BREAK_LOCAL_LOSS : Z := 3.
Definition BREAK_RECONNECT : Z := 4.
Definition BREAK_RECOVERY_BASE : Z := 5.
Definition BREAK_SYNC_DIVERGENCE : Z := 6.

Definition ORIGIN_SOURCE_REPORTED : Z := 1.
Definition ORIGIN_NORMALIZED_FROM_SOURCE : Z := 2.
Definition ORIGIN_LOCALLY_DERIVED : Z := 3.
Definition DERIVATION_NONE : Z := 0.
Definition DERIVATION_SNAPSHOT_DIFF : Z := 1.

Definition REPRESENTATION_VENUE_NATIVE : Z := 1.
Definition REPRESENTATION_NORMALIZED : Z := 2.

Definition SIDE_BID : Z := 1.
Definition SIDE_ASK : Z := 2.

Definition DELIVERY_PATH_MARKET_FEED : Z := 1.
Definition DELIVERY_PATH_LIFECYCLE_FEED : Z := 2.
Definition DELIVERY_PATH_RESOLUTION_FEED : Z := 3.

(** [DecimalGrammar::new(u16::MAX, 39, false, false)]; [stored_grammar_valid] is its
    [expect]. *)
Definition stored_grammar : DecimalGrammar := widest_grammar false false.

Lemma stored_grammar_valid : grammar_new U16_MAX 39 false false = Ok stored_grammar.
Proof. reflexivity. Qed.

(** ** Authority *)

Definition reason_word (reason : AuthorityReason) : Z :=
  match reason with
  | AGap => REASON_GAP
  | ADisconnect => REASON_DISCONNECT
  | ASubscriptionLost => REASON_SUBSCRIPTION_LOST
  | ALocalLoss => REASON_LOCAL_LOSS
  | AOrderingUnknown => REASON_ORDERING_UNKNOWN
  | AOverload => REASON_OVERLOAD
  | AReplicaDivergence => REASON_REPLICA_DIVERGENCE
  | ARecoveryBaseUnavailable => REASON_RECOVERY_BASE_UNAVAILABLE
  end.

Definition authority_words (state : AuthorityState) : Z * Z :=
  match state with
  | Unsubscribed => (AUTHORITY_UNSUBSCRIBED, 0)
  | Subscribing => (AUTHORITY_SUBSCRIBING, 0)
  | Synchronizing => (AUTHORITY_SYNCHRONIZING, 0)
  | Live => (AUTHORITY_LIVE, 0)
  | Recovering => (AUTHORITY_RECOVERING, 0)
  | Stale reason => (AUTHORITY_STALE, reason_word reason)
  end.

Definition reason_of (reason : Z) : option AuthorityReason :=
  if reason =? REASON_GAP then Some AGap
  else if reason =? REASON_DISCONNECT then Some ADisconnect
  else if reason =? REASON_SUBSCRIPTION_LOST then Some ASubscriptionLost
  else if reason =? REASON_LOCAL_LOSS then Some ALocalLoss
  else if reason =? REASON_ORDERING_UNKNOWN then Some AOrderingUnknown
  else if reason =? REASON_OVERLOAD then Some AOverload
  else if reason =? REASON_REPLICA_DIVERGENCE then Some AReplicaDivergence
  else if reason =? REASON_RECOVERY_BASE_UNAVAILABLE then Some ARecoveryBaseUnavailable
  else None.

Definition authority_state (state reason : Z) : option AuthorityState :=
  let plain value := if reason =? 0 then Some value else None in
  if state =? AUTHORITY_UNSUBSCRIBED then plain Unsubscribed
  else if state =? AUTHORITY_SUBSCRIBING then plain Subscribing
  else if state =? AUTHORITY_SYNCHRONIZING then plain Synchronizing
  else if state =? AUTHORITY_LIVE then plain Live
  else if state =? AUTHORITY_RECOVERING then plain Recovering
  else if state =? AUTHORITY_STALE then Stale <$> reason_of reason
  else None.

(** ** Continuity *)

Definition break_word (reason : ContinuityReason) : Z :=
  match reason with
  | Overrun => BREAK_OVERRUN
  | Gap => BREAK_GAP
  | LocalLoss => BREAK_LOCAL_LOSS
  | Reconnect => BREAK_RECONNECT
  | RecoveryBase => BREAK_RECOVERY_BASE
  | SyncDivergence => BREAK_SYNC_DIVERGENCE
  end.

Definition continuity_words (continuity : MutationContinuity) : Z * Z * Z * Z :=
  match continuity with
  | Intact epoch next_position => (CONTINUITY_INTACT, 0, epoch, next_position)
  | Lost epoch reason => (CONTINUITY_LOST, break_word reason, epoch, 0)
  end.

Definition break_of (reason : Z) : option ContinuityReason :=
  if reason =? BREAK_OVERRUN then Some Overrun
  else if reason =? BREAK_GAP then Some Gap
  else if reason =? BREAK_LOCAL_LOSS then Some LocalLoss
  else if reason =? BREAK_RECONNECT then Some Reconnect
  else if reason =? BREAK_RECOVERY_BASE then Some RecoveryBase
  else if reason =? BREAK_SYNC_DIVERGENCE then Some SyncDivergence
  else None.

Definition continuity (kind reason epoch next_position : Z) : option MutationContinuity :=
  if (kind =? CONTINUITY_INTACT) && (reason =? 0) then Some (Intact epoch next_position)
  else if (kind =? CONTINUITY_LOST) && (next_position =? 0) then Lost epoch <$> break_of reason
  else None.

(** ** Origin, representation, side, delivery path *)

Definition origin_words (origin : Origin) : Z * Z :=
  match origin with
  | SourceReported => (ORIGIN_SOURCE_REPORTED, DERIVATION_NONE)
  | NormalizedFromSource => (ORIGIN_NORMALIZED_FROM_SOURCE, DERIVATION_NONE)
  | LocallyDerived SnapshotDiff => (ORIGIN_LOCALLY_DERIVED, DERIVATION_SNAPSHOT_DIFF)
  end.

Definition origin_of (origin derivation : Z) : option Origin :=
  if (origin =? ORIGIN_SOURCE_REPORTED) && (derivation =? DERIVATION_NONE)
  then Some SourceReported
  else if (origin =? ORIGIN_NORMALIZED_FROM_SOURCE) && (derivation =? DERIVATION_NONE)
  then Some NormalizedFromSource
  else if (origin =? ORIGIN_LOCALLY_DERIVED) && (derivation =? DERIVATION_SNAPSHOT_DIFF)
  then Some (LocallyDerived SnapshotDiff)
  else None.

Definition representation_word (representation : Representation) : Z :=
  match representation with
  | VenueNative => REPRESENTATION_VENUE_NATIVE
  | Normalized => REPRESENTATION_NORMALIZED
  end.

Definition representation_of (word : Z) : option Representation :=
  if word =? REPRESENTATION_VENUE_NATIVE then Some VenueNative
  else if word =? REPRESENTATION_NORMALIZED then Some Normalized
  else None.

Definition side_word (side : Side) : Z := match side with Bid => SIDE_BID | Ask => SIDE_ASK end.

Definition side_of (word : Z) : option Side :=
  if word =? SIDE_BID then Some Bid else if word =? SIDE_ASK then Some Ask else None.

Definition delivery_path_word (path : DeliveryPath) : option Z :=
  match path with
  | MarketFeed => Some DELIVERY_PATH_MARKET_FEED
  | LifecycleFeed => Some DELIVERY_PATH_LIFECYCLE_FEED
  | ResolutionFeed => Some DELIVERY_PATH_RESOLUTION_FEED
  | OtherNativePath _ => None
  end.

Definition delivery_path_of (word : Z) : option DeliveryPath :=
  if word =? DELIVERY_PATH_MARKET_FEED then Some MarketFeed
  else if word =? DELIVERY_PATH_LIFECYCLE_FEED then Some LifecycleFeed
  else if word =? DELIVERY_PATH_RESOLUTION_FEED then Some ResolutionFeed
  else None.

(** ** Decimals *)

(** [as u128], then the two 64-bit halves. *)
Definition decimal_words (value : ExactDecimal) : Z * Z * Z :=
  let bits := value.(coefficient) mod 2 ^ 128 in
  (bits mod 2 ^ 64, Z.shiftr bits 64 mod 2 ^ 64, value.(scale)).

Definition price_of (low high scale : Z) : option Price :=
  if MAX_STORED_SCALE <? scale then None
  else ok (price_from_parts low high (scale mod 2 ^ 16) stored_grammar).

Definition quantity_of (low high scale : Z) : option Quantity :=
  if MAX_STORED_SCALE <? scale then None
  else ok (quantity_from_parts low high (scale mod 2 ^ 16) stored_grammar).

(** ** Identity *)

Definition encode_identity (market : MarketRef) (capacity : Z) : option bytes :=
  let venue := market.(market_venue).(venue_text) in
  let kind := market.(market_key).(key_kind).(kind_text) in
  let value := market.(market_key).(key_value) in
  venue_len ← checked 0 U16_MAX (len venue);
  kind_len ← checked 0 U16_MAX (len kind);
  value_len ← checked 0 U32_MAX (len value);
  total ← checked_add_usize 8 (len venue);
  total ← checked_add_usize total (len kind);
  total ← checked_add_usize total (len value);
  if capacity <? total then None
  else Some (to_le_bytes 2 venue_len ++ to_le_bytes 2 kind_len ++ to_le_bytes 4 value_len
             ++ venue ++ kind ++ value).

Definition text_of (raw : bytes) : option bytes := if utf8_valid raw then Some raw else None.

Definition market_of (venue kind value : bytes) : result MarketRef IdentityError :=
  venue <-? venue_new venue ;;
  kind <-? kind_new kind 128 ;;
  key <-? market_key_new kind value ;;
  Ok (market_ref_new venue key).

Definition decode_identity (b : bytes) : option MarketRef :=
  if len b <? 8 then None
  else
    let venue_len := from_le_bytes (take 2 b) in
    let kind_len := from_le_bytes (take 2 (drop 2 b)) in
    let value_len := from_le_bytes (take 4 (drop 4 b)) in
    let body := drop 8 b in
    venue ← get_range 0 venue_len body;
    kind_end ← checked_add_usize venue_len kind_len;
    kind ← get_range venue_len kind_end body;
    value_start ← checked_add_usize venue_len kind_len;
    value_end ← checked_add_usize value_start value_len;
    value ← get_range value_start value_end body;
    venue ← text_of venue;
    kind ← text_of kind;
    value ← text_of value;
    ok (market_of venue kind value).

(** ** The law of an exact encoding

    [enc] may refuse a value; what it does encode decodes to that value, and every word that
    decodes is the encoding of what it decodes to. So both ways are injective. *)
Class ExactCodec {A W : Type} (enc : A -> option W) (dec : W -> option A) : Prop := {
  decode_encoded : forall a w, enc a = Some w -> dec w = Some a;
  encode_decoded : forall w a, dec w = Some a -> enc a = Some w
}.

Section exact_codec.
Context {A W : Type} (enc : A -> option W) (dec : W -> option A) `{!ExactCodec enc dec}.

Lemma codec_encode_injective a a' w : enc a = Some w -> enc a' = Some w -> a = a'.
Proof. intros H%decode_encoded H'%decode_encoded. congruence. Qed.

Lemma codec_decode_injective w w' a : dec w = Some a -> dec w' = Some a -> w = w'.
Proof. intros H%encode_decoded H'%encode_decoded. congruence. Qed.
End exact_codec.

(** Decide which word a decoder saw, one comparison at a time. *)
Ltac decode_words :=
  repeat match goal with
  | H : context [if ?b then _ else _] |- _ => destruct b eqn:?; simplify_option_eq; bool_facts
  end; subst.

#[export] Instance reason_codec : ExactCodec (fun r => Some (reason_word r)) reason_of.
Proof.
  split.
  - by intros [] w [= <-].
  - intros w a. unfold reason_of. intros H. by decode_words.
Qed.

#[export] Instance break_codec : ExactCodec (fun r => Some (break_word r)) break_of.
Proof.
  split.
  - by intros [] w [= <-].
  - intros w a. unfold break_of. intros H. by decode_words.
Qed.

#[export] Instance authority_codec :
  ExactCodec (fun s => Some (authority_words s)) (fun w => authority_state w.1 w.2).
Proof.
  split.
  - intros [| | | | |r] w [= <-]; try done. cbn [authority_words fst snd].
    change (authority_state AUTHORITY_STALE (reason_word r)) with (Stale <$> reason_of (reason_word r)).
    by rewrite (decode_encoded r (reason_word r)).
  - intros [s r] a. unfold authority_state. cbn [fst snd]. intros H. decode_words; try done.
    apply (encode_decoded (ExactCodec := reason_codec)) in Heqo. congruence.
Qed.

#[export] Instance continuity_codec :
  ExactCodec (fun c => Some (continuity_words c)) (fun w => continuity w.1.1.1 w.1.1.2 w.1.2 w.2).
Proof.
  split.
  - intros [e n|e r] w [= <-]; [done|]. cbn [continuity_words fst snd].
    change (continuity CONTINUITY_LOST (break_word r) e 0) with (Lost e <$> break_of (break_word r)).
    by rewrite (decode_encoded r (break_word r)).
  - intros [[[k r] e] n] a. unfold continuity. cbn [fst snd]. intros H. decode_words; try done.
    apply (encode_decoded (ExactCodec := break_codec)) in Heqo. congruence.
Qed.

#[export] Instance origin_codec :
  ExactCodec (fun o => Some (origin_words o)) (fun w => origin_of w.1 w.2).
Proof.
  split.
  - by intros [| |[]] w [= <-].
  - intros [o d] a. unfold origin_of. cbn [fst snd]. intros H. decode_words; destruct_and?; by subst.
Qed.

#[export] Instance representation_codec :
  ExactCodec (fun r => Some (representation_word r)) representation_of.
Proof.
  split; [by intros [] w [= <-]|]. intros w a. unfold representation_of. intros H. by decode_words.
Qed.

#[export] Instance side_codec : ExactCodec (fun s => Some (side_word s)) side_of.
Proof.
  split; [by intros [] w [= <-]|]. intros w a. unfold side_of. intros H. by decode_words.
Qed.

#[export] Instance delivery_path_codec : ExactCodec delivery_path_word delivery_path_of.
Proof.
  split; [by intros [] w [= <-]|]. intros w a. unfold delivery_path_of. intros H. by decode_words.
Qed.

(** ** Decimals *)

Lemma halves_sum low high : 0 <= low < 2 ^ 64 ->
  Z.lor (Z.shiftl high 64) low = high * 2 ^ 64 + low.
Proof.
  intros Hl. rewrite <- (Z.shiftl_mul_pow2 high 64) by lia.
  rewrite <- Z.add_lor_land. enough (Z.land (Z.shiftl high 64) low = 0) by lia.
  apply Z.bits_inj'. intros n Hn. rewrite Z.land_spec, Z.bits_0.
  destruct (Z.ltb_spec n 64) as [H|H].
  - by rewrite Z.shiftl_spec_low.
  - destruct (Z.eq_dec low 0) as [->|]; [by rewrite Z.bits_0, andb_false_r|].
    rewrite (Z.bits_above_log2 low), andb_false_r by
      (lia || (assert (Z.log2 low < 64) by (apply Z.log2_lt_pow2; lia); lia)). done.
Qed.

(** A non-negative coefficient in range normalizes under the stored grammar. *)
Lemma stored_normalize c s : 0 <= c <= I128_MAX -> 0 <= s <= U16_MAX ->
  exists d, normalize c s stored_grammar = Ok d.
Proof.
  intros Hc Hs. destruct (normalize c s stored_grammar) as [d|e] eqn:E; [by exists d|].
  apply normalize_Err in E as [(-> & ? & ?)|(-> & _ & [H|(c' & s' & Es & Hd)])];
    [lia|simpl in H; lia|].
  apply strip_zeros_spec in Es as (Ec & Hs' & _); [|lia].
  destruct (strip_zeros_abs c c' (s - s')) as [Ha Hp]; [lia|done|].
  assert (len (to_decimal (Z.abs c')) <= 39); [|simpl in Hd; lia].
  apply to_decimal_len; [lia..|]. bounds. lia.
Qed.

(** What the three words of an amount decode to, exactly. *)
Lemma stored_parts_exact low high scale d :
  0 <= low < 2 ^ 64 -> 0 <= high < 2 ^ 64 -> 0 <= scale <= U16_MAX ->
  newtype_from_parts low high scale stored_grammar = Ok d <->
  high < 2 ^ 63 /\ amount_wf d /\ same_value d (high * 2 ^ 64 + low) scale.
Proof.
  intros Hl Hh Hs. unfold newtype_from_parts, from_parts. rewrite halves_sum by done.
  change (set_allow_negative false stored_grammar) with stored_grammar.
  set (m := high * 2 ^ 64 + low). unfold as_i128.
  assert (Hm : I128_MAX < m <-> 2 ^ 63 <= high) by (subst m; bounds; lia).
  destruct (Z.ltb_spec I128_MAX m) as [H|H].
  { split; [|intros (? & _); lia]. unfold normalize.
    assert ((m - 2 ^ 128 <? 0) = true) as -> by (apply Z.ltb_lt; subst m; lia). done. }
  assert (Hc : 0 <= m <= I128_MAX) by (subst m; lia).
  destruct (stored_normalize m scale Hc Hs) as [d' E]. rewrite E.
  apply normalize_within in E as [(Hw & _ & Hn & _) Hv]; [|bounds; lia|done].
  split.
  - intros [= <-]. split_and!; [lia|split; [done|by apply Hn]|done].
  - intros (_ & [Hd Hd0] & Hv'). f_equal. apply normal_unique; try done.
    unfold same_value in *. pose proof (pow10_pos scale ltac:(lia)) as Hp.
    apply (Z.mul_reg_r _ _ (10 ^ scale)); [lia|].
    transitivity (d'.(coefficient) * 10 ^ scale * 10 ^ d.(Numeric.scale)); [ring|].
    rewrite Hv. transitivity (d.(coefficient) * 10 ^ scale * 10 ^ d'.(Numeric.scale)); [|ring].
    rewrite Hv'. ring.
Qed.

Lemma decimal_words_value d : amount_wf d -> exists low high,
  decimal_words d = (low, high, d.(scale)) /\ 0 <= low < 2 ^ 64 /\ 0 <= high < 2 ^ 63 /\
  high * 2 ^ 64 + low = d.(coefficient).
Proof.
  intros [[Hc _ _] H0]. unfold decimal_words. rewrite (Z.mod_small d.(coefficient)) by (bounds; lia).
  rewrite Z.shiftr_div_pow2 by lia. set (c := d.(coefficient)) in *.
  pose proof (Z_div_mod_eq_full c (2 ^ 64)). pose proof (Z.mod_pos_bound c (2 ^ 64) ltac:(lia)).
  assert (0 <= c / 2 ^ 64 < 2 ^ 63)
    by (split; [apply Z.div_pos; lia|apply Z.div_lt_upper_bound; bounds; lia]).
  rewrite (Z.mod_small (c / 2 ^ 64)) by lia.
  exists (c mod 2 ^ 64), (c / 2 ^ 64). split_and!; [done|lia..].
Qed.

Lemma price_of_exact low high scale p :
  0 <= low < 2 ^ 64 -> 0 <= high < 2 ^ 64 -> 0 <= scale ->
  price_of low high scale = Some p <->
  scale <= U16_MAX /\ high < 2 ^ 63 /\ price_wf p /\
  same_value p.(price_value) (high * 2 ^ 64 + low) scale.
Proof.
  intros Hl Hh Hs. unfold price_of, MAX_STORED_SCALE. destruct (Z.ltb_spec U16_MAX scale).
  { split; [done|]. intros (? & _). lia. }
  rewrite Z.mod_small by (bounds; lia). unfold price_from_parts, price_wf. destruct p as [d]. simpl.
  rewrite <- (stored_parts_exact low high scale d) by (done || lia).
  destruct (newtype_from_parts _ _ _ _) as [d'|e]; simpl; [|naive_solver].
  split; [by intros [= ->]|by intros [_ [= ->]]].
Qed.

Lemma quantity_of_exact low high scale q :
  0 <= low < 2 ^ 64 -> 0 <= high < 2 ^ 64 -> 0 <= scale ->
  quantity_of low high scale = Some q <->
  scale <= U16_MAX /\ high < 2 ^ 63 /\ quantity_wf q /\
  same_value q.(quantity_value) (high * 2 ^ 64 + low) scale.
Proof.
  intros Hl Hh Hs. pose proof (price_of_exact low high scale {| price_value := q.(quantity_value) |} Hl Hh Hs) as H.
  unfold quantity_wf. unfold price_wf in H. simpl in H. rewrite <- H.
  unfold quantity_of, price_of, quantity_from_parts, price_from_parts. destruct q as [d]. simpl.
  destruct (_ <? _); [done|]. destruct (newtype_from_parts _ _ _ _); simpl; naive_solver.
Qed.

(** ** Identity *)

(** Every name a [MarketRef] holds is a Rust [String]. *)
Definition market_text (m : MarketRef) : Prop :=
  utf8_valid m.(market_venue).(venue_text) = true /\
  utf8_valid m.(market_key).(key_kind).(kind_text) = true /\
  utf8_valid m.(market_key).(key_value) = true.

Definition identity_bytes (m : MarketRef) : bytes :=
  let venue := m.(market_venue).(venue_text) in
  let kind := m.(market_key).(key_kind).(kind_text) in
  let value := m.(market_key).(key_value) in
  to_le_bytes 2 (len venue) ++ to_le_bytes 2 (len kind) ++ to_le_bytes 4 (len value)
  ++ venue ++ kind ++ value.

Lemma text_of_Some raw t : text_of raw = Some t <-> t = raw /\ utf8_valid raw = true.
Proof. unfold text_of. destruct (utf8_valid raw); naive_solver. Qed.

Lemma market_of_Ok venue kind value m : market_of venue kind value = Ok m <->
  m = {| market_venue := {| venue_text := venue |};
         market_key := {| key_kind := {| kind_text := kind |}; key_value := value |} |} /\
  market_wf m.
Proof.
  unfold market_of, market_wf, venue_wf, key_wf, kind_wf. split.
  - destruct (venue_new venue) as [v|e] eqn:Ev; [|done]. apply venue_new_Ok in Ev as [-> ?].
    unfold kind_new. change ((128 =? 0) || (MAX_KIND_BYTES <? 128)) with false. cbv iota.
    destruct (checked_text kind _ _) as [k|e] eqn:Ek; [|done]. apply checked_text_Ok in Ek as [-> ?].
    unfold market_key_new. destruct (checked_text value _ _) as [w|e] eqn:Ew; [|done].
    apply checked_text_Ok in Ew as [-> ?]. intros [= <-]. simpl. auto.
  - intros (-> & Hv & Hk & Hw). simpl in *.
    rewrite (proj2 (venue_new_Ok venue _) (conj eq_refl Hv)).
    unfold kind_new. change ((128 =? 0) || (MAX_KIND_BYTES <? 128)) with false. cbv iota.
    rewrite (proj2 (checked_text_Ok kind _ _ _) (conj eq_refl Hk)).
    unfold market_key_new. by rewrite (proj2 (checked_text_Ok value _ _ _) (conj eq_refl Hw)).
Qed.

Lemma market_lens m : market_wf m ->
  0 < len m.(market_venue).(venue_text) <= 128 /\
  0 < len m.(market_key).(key_kind).(kind_text) <= 128 /\
  0 < len m.(market_key).(key_value) <= 1024.
Proof.
  assert (Hp : forall l : bytes, l <> [] -> 0 < len l) by
    (intros [|x l]; [done|rewrite len_cons; pose proof (len_nonneg l); lia]).
  intros ([? ?] & [? ?] & [? ?]). unfold MAX_VENUE_BYTES, MAX_KIND_BYTES, MAX_NATIVE_BYTES in *.
  auto 10.
Qed.

Lemma len_identity_bytes m : len (identity_bytes m) =
  8 + len m.(market_venue).(venue_text) + len m.(market_key).(key_kind).(kind_text)
  + len m.(market_key).(key_value).
Proof. unfold identity_bytes. rewrite !len_app, !len_to_le_bytes. lia. Qed.

(** An identity that fits is encoded whole; one that does not is refused, never cut. *)
Lemma encode_identity_exact m capacity : market_wf m ->
  encode_identity m capacity =
  if capacity <? len (identity_bytes m) then None else Some (identity_bytes m).
Proof.
  intros (Hv & Hk & Hw)%market_lens. rewrite len_identity_bytes. unfold encode_identity.
  unfold checked_add_usize. by repeat (rewrite checked_in by (bounds; lia); simpl).
Qed.

Lemma length_of_le n v : length (to_le_bytes n v) = n.
Proof. pose proof (len_to_le_bytes n v). unfold len in *. lia. Qed.

Lemma take_le n v rest : take n (to_le_bytes n v ++ rest) = to_le_bytes n v.
Proof. by rewrite take_app_length' by by rewrite length_of_le. Qed.
Lemma drop_le n v rest : drop n (to_le_bytes n v ++ rest) = rest.
Proof. by rewrite drop_app_length' by by rewrite length_of_le. Qed.

(** The three lengths of the prefix, read back. *)
Lemma identity_prefix v k w body : 0 <= v < 2 ^ 16 -> 0 <= k < 2 ^ 16 -> 0 <= w < 2 ^ 32 ->
  let b := to_le_bytes 2 v ++ to_le_bytes 2 k ++ to_le_bytes 4 w ++ body in
  from_le_bytes (take 2 b) = v /\ from_le_bytes (take 2 (drop 2 b)) = k /\
  from_le_bytes (take 4 (drop 4 b)) = w /\ drop 8 b = body /\ len b = 8 + len body.
Proof.
  intros Hv Hk Hw b. subst b.
  assert (E4 : forall l : bytes, drop 4 l = drop 2 (drop 2 l)) by (intros; by rewrite drop_drop).
  assert (E8 : forall l : bytes, drop 8 l = drop 4 (drop 2 (drop 2 l)))
    by (intros; by rewrite !drop_drop).
  rewrite E8, E4, !drop_le, !take_le, !from_to_le_bytes, !len_app, !len_to_le_bytes by (simpl; lia).
  split_and!; try done. lia.
Qed.

Lemma decode_identity_bytes m rest : market_wf m -> market_text m ->
  decode_identity (identity_bytes m ++ rest) = Some m.
Proof.
  intros Hm (Tv & Tk & Tw). pose proof (market_lens m Hm) as (Lv & Lk & Lw).
  unfold identity_bytes. rewrite <- !app_assoc.
  edestruct (identity_prefix (len m.(market_venue).(venue_text))
    (len m.(market_key).(key_kind).(kind_text)) (len m.(market_key).(key_value)))
    as (E1 & E2 & E3 & E4 & E5); [lia..|].
  unfold decode_identity. rewrite E1, E2, E3, E4, E5. clear E1 E2 E3 E4 E5.
  rewrite (proj2 (Z.ltb_ge _ _)) by (match goal with |- 8 <= 8 + len ?l => pose proof (len_nonneg l) end; lia).
  destruct m as [[v] [[k] w]]. simpl in *.
  rewrite (proj2 (get_range_Some 0 (len v) _ v ltac:(lia))) by
    (exists [], (k ++ w ++ rest); rewrite len_nil; split_and!; [done|lia..]). simpl.
  unfold checked_add_usize. rewrite !checked_in by (bounds; lia). simpl.
  rewrite (proj2 (get_range_Some (len v) _ _ k ltac:(lia))) by
    (exists v, (w ++ rest); split_and!; [done|lia..]). simpl.
  rewrite !checked_in by (bounds; lia). simpl.
  rewrite (proj2 (get_range_Some (len v + len k) _ _ w ltac:(lia))) by
    (exists (v ++ k), rest; rewrite len_app, <- app_assoc; split_and!; [done|lia..]). simpl.
  unfold text_of. rewrite Tv. simpl. rewrite Tk. simpl. rewrite Tw. simpl.
  by rewrite (proj2 (market_of_Ok v k w _) (conj eq_refl Hm)).
Qed.

(** A slice of at least eight bytes is a prefix and a body. *)
Lemma identity_split b : are_bytes b = true -> 8 <= len b -> exists v k w,
  b = to_le_bytes 2 v ++ to_le_bytes 2 k ++ to_le_bytes 4 w ++ drop 8 b /\
  0 <= v < 2 ^ 16 /\ 0 <= k < 2 ^ 16 /\ 0 <= w < 2 ^ 32.
Proof.
  intros Hb Hl.
  assert (Hpiece : forall i n, (i + n <= 8)%nat -> let p := take n (drop i b) in
    p = to_le_bytes n (from_le_bytes p) /\ 0 <= from_le_bytes p < 256 ^ Z.of_nat n).
  { intros i n Hi p. assert (Hp : are_bytes p = true).
    { unfold are_bytes in *. rewrite forallb_forall in *. intros x Hx. apply Hb.
      apply list_elem_of_In, (subseteq_drop i), (subseteq_take n). by apply list_elem_of_In. }
    assert (Hn : length p = n) by (subst p; unfold len in Hl; rewrite length_take, length_drop; lia).
    rewrite <- Hn at 1. rewrite to_from_le_bytes by done. split; [done|].
    rewrite <- Hn. apply (from_le_bytes_range p Hp). }
  exists (from_le_bytes (take 2 (drop 0 b))), (from_le_bytes (take 2 (drop 2 b))),
    (from_le_bytes (take 4 (drop 4 b))).
  destruct (Hpiece 0%nat 2%nat ltac:(lia)) as [<- ?], (Hpiece 2%nat 2%nat ltac:(lia)) as [<- ?],
    (Hpiece 4%nat 4%nat ltac:(lia)) as [<- ?].
  split_and!; simpl in *; try lia.
  rewrite drop_0. rewrite <- (take_drop 2 b) at 1. f_equal.
  rewrite <- (take_drop 2 (drop 2 b)) at 1. f_equal. rewrite drop_drop.
  rewrite <- (take_drop 4 (drop (2 + 2) b)) at 1. by rewrite drop_drop.
Qed.

Lemma decode_identity_sound b m : are_bytes b = true -> decode_identity b = Some m ->
  market_wf m /\ market_text m /\ exists rest, b = identity_bytes m ++ rest.
Proof.
  intros Hb. unfold decode_identity. destruct (Z.ltb_spec (len b) 8) as [|Hl]; [done|].
  destruct (identity_split b Hb Hl) as (v & k & w & Eb & Hv & Hk & Hw).
  revert Eb. generalize (drop 8 b). intros body ->.
  edestruct (identity_prefix v k w body) as (E1 & E2 & E3 & E4 & _); [done..|].
  rewrite E1, E2, E3. clear E1 E2 E3 E4.
  destruct (get_range 0 v body) as [tv|] eqn:Gv; [|done]. simpl.
  unfold checked_add_usize. rewrite !checked_in by (bounds; lia). simpl.
  destruct (get_range v (v + k) body) as [tk|] eqn:Gk; [|done]. simpl.
  rewrite !checked_in by (bounds; lia). simpl.
  destruct (get_range (v + k) (v + k + w) body) as [tw|] eqn:Gw; [|done]. simpl.
  destruct (text_of tv) as [tv'|] eqn:Tv; [|done]. apply text_of_Some in Tv as [-> Tv]. simpl.
  destruct (text_of tk) as [tk'|] eqn:Tk; [|done]. apply text_of_Some in Tk as [-> Tk]. simpl.
  destruct (text_of tw) as [tw'|] eqn:Tw; [|done]. apply text_of_Some in Tw as [-> Tw]. simpl.
  destruct (market_of tv tk tw) as [m'|e] eqn:Em; [|done]. simpl. intros [= <-].
  apply market_of_Ok in Em as [-> Hm]. split_and!; [done..|].
  apply get_range_Some in Gv as (a0 & r0 & Eb & La & Lv); [|lia].
  apply get_range_Some in Gk as (a1 & r1 & Eb1 & La1 & Lk); [|lia].
  apply get_range_Some in Gw as (a2 & r2 & Eb2 & La2 & Lw); [|lia].
  apply len_zero in La as ->. simpl in Eb. rewrite Eb in Eb1, Eb2 |- *. clear Hl Hb Eb body.
  apply app_inj_len in Eb1 as [<- Er]; [|lia]. subst r0. rewrite app_assoc in Eb2.
  apply app_inj_len in Eb2 as [<- Er]; [|rewrite len_app; lia]. subst r1.
  exists r2. unfold identity_bytes. simpl. rewrite <- !app_assoc.
  replace (len tv) with v by lia. replace (len tk) with k by lia. by replace (len tw) with w by lia.
Qed.

(** ** Properties *)

(** Every word of the segment that names a variant is an exact encoding. What the writer
    encodes the reader decodes to the same authority, continuity, origin, representation,
    side or delivery path; every other word, an unknown discriminant or a pairing the writer
    never produces, decodes to nothing. A venue's own path string is the one value that has
    no word. *)
Theorem discriminants_exact :
  ExactCodec (fun s => Some (authority_words s)) (fun w => authority_state w.1 w.2) /\
  ExactCodec (fun c => Some (continuity_words c)) (fun w => continuity w.1.1.1 w.1.1.2 w.1.2 w.2) /\
  ExactCodec (fun o => Some (origin_words o)) (fun w => origin_of w.1 w.2) /\
  ExactCodec (fun r => Some (representation_word r)) representation_of /\
  ExactCodec (fun s => Some (side_word s)) side_of /\
  ExactCodec delivery_path_word delivery_path_of /\
  (forall path, delivery_path_word path = None <-> exists label, path = OtherNativePath label).
Proof.
  split_and!; try exact _. intros []; simpl; split; try done; try (intros [? ?]; done). eauto.
Qed.

(** Three words decode to a price exactly when the scale fits sixteen bits and the sign
    bit is clear, and then to the one normalized price of the value they name; likewise a
    quantity. So the words of any price or quantity decode to it, and no word decodes to a
    negative or unnormalized one. *)
Theorem amounts_stored_exact low high scale p q :
  0 <= low < 2 ^ 64 -> 0 <= high < 2 ^ 64 -> 0 <= scale < 2 ^ 32 ->
  (price_of low high scale = Some p <->
   scale <= U16_MAX /\ high < 2 ^ 63 /\ price_wf p /\
   same_value p.(price_value) (high * 2 ^ 64 + low) scale) /\
  (quantity_of low high scale = Some q <->
   scale <= U16_MAX /\ high < 2 ^ 63 /\ quantity_wf q /\
   same_value q.(quantity_value) (high * 2 ^ 64 + low) scale) /\
  (price_wf p -> decimal_words p.(price_value) = (low, high, scale) ->
   price_of low high scale = Some p) /\
  (quantity_wf q -> decimal_words q.(quantity_value) = (low, high, scale) ->
   quantity_of low high scale = Some q).
Proof.
  intros Hl Hh Hs. split; [apply price_of_exact; lia|]. split; [apply quantity_of_exact; lia|].
  assert (Hwords : forall d, amount_wf d -> decimal_words d = (low, high, scale) ->
    scale <= U16_MAX /\ high < 2 ^ 63 /\ same_value d (high * 2 ^ 64 + low) scale).
  { intros d Hd E. destruct (decimal_words_value d Hd) as (l & h & E' & ? & ? & Ec).
    rewrite E in E'. injection E' as -> -> ->. destruct Hd as [[_ ? _] _].
    split_and!; [lia..|]. unfold same_value. by rewrite Ec. }
  split; intros Hd E; destruct (Hwords _ Hd E) as (? & ? & ?).
  - apply price_of_exact; [lia..|done].
  - apply quantity_of_exact; [lia..|done].
Qed.

Lemma amounts_stored_exact_witness :
  price_of 2500 0 4 = Some {| price_value := {| coefficient := 25; scale := 2 |} |} /\
  quantity_of 7 0 0 = Some {| quantity_value := {| coefficient := 7; scale := 0 |} |}.
Proof.
  split.
  - destruct (amounts_stored_exact 2500 0 4
      {| price_value := {| coefficient := 25; scale := 2 |} |}
      {| quantity_value := {| coefficient := 7; scale := 0 |} |}) as [[_ Hp] _]; [lia..|].
    apply Hp. split_and!; [vm_compute; discriminate|lia| |reflexivity].
    split; [split; simpl; bounds; [lia|lia|right; vm_compute; discriminate]|simpl; lia].
  - destruct (amounts_stored_exact 7 0 0
      {| price_value := {| coefficient := 25; scale := 2 |} |}
      {| quantity_value := {| coefficient := 7; scale := 0 |} |}) as (_ & _ & _ & Hq); [lia..|].
    apply Hq; [|reflexivity].
    split; [split; simpl; bounds; [lia|lia|by left]|simpl; lia].
Defined.

(** An identity is stored whole or refused. The encoding of a market fits exactly when
    its eight prefix bytes and three texts do; whatever follows it, it decodes to the
    market; and any bytes that decode begin with the encoding of a valid market, so no two
    markets share an encoding and none is a prefix of another's. *)
Theorem identity_stored_exact m capacity b rest : market_wf m -> market_text m ->
  are_bytes b = true ->
  (encode_identity m capacity = None <-> capacity < len (identity_bytes m)) /\
  (forall e, encode_identity m capacity = Some e ->
     e = identity_bytes m /\ decode_identity (e ++ rest) = Some m) /\
  (decode_identity b = Some m <-> exists tail, b = identity_bytes m ++ tail).
Proof.
  intros Hm Ht Hb. rewrite encode_identity_exact by done. split_and!.
  - destruct (Z.ltb_spec capacity (len (identity_bytes m))); split; done || lia.
  - intros e. destruct (_ <? _); [done|]. intros [= <-]. split; [done|].
    by apply decode_identity_bytes.
  - split; [by intros (_ & _ & ?)%decode_identity_sound|].
    intros [tail ->]. by apply decode_identity_bytes.
Qed.

Definition sample_market : MarketRef :=
  {| market_venue := {| venue_text := lit "limitless" |};
     market_key := {| key_kind := slug; key_value := lit "btc-up" |} |}.

Lemma identity_stored_exact_witness :
  encode_identity sample_market 26 = None /\
  decode_identity (identity_bytes sample_market ++ [0; 0]) = Some sample_market.
Proof.
  split.
  - apply (identity_stored_exact sample_market 26 [] []); [..|reflexivity];
      [|split_and!; reflexivity|reflexivity].
    split_and!; vm_compute; split_and!; discriminate.
  - apply (identity_stored_exact sample_market 26 (identity_bytes sample_market ++ [0; 0]) []);
      [|split_and!; reflexivity|reflexivity|by eexists].
    split_and!; vm_compute; split_and!; discriminate.
Defined.
