(* ===== verification/ShmCell.v ===== *)
(** * Cells, fences and the seqlock ([src/src/shm/cell.rs], [under_seqlock] of reader.rs)

    The bounds checks that carve records out of a region, the release/acquire memory the
    cells live in, and the even-odd counter that publishes a record of many words.

    A region has one writer, so its memory is the sequence of that writer's stores. A store
    carries how much of the sequence a reader that acquires it is sure to see: everything up
    to itself for a release store, everything before the last release fence for a relaxed
    one. A reader keeps how much it is sure to see ([seen]) and what an acquire fence would
    add ([pending]); a load may return any store of its cell that is not known to be
    overwritten. This is the release/acquire model of the language with every load free to
    be stale, including the reorderings that the fences of the source exclude and without
    the per-cell coherence that it grants in addition. *)

From S2P Require Import Prelude.

(** ** Regions and records *)

Definition REGION_ALIGNMENT : Z := 128.
Definition MAX_REGION_BYTES : Z := Z.shiftl 1 30.
Definition GATE_CLAIMED : Z := U64_MAX.

(** The operating system's [ErrorKind]s that the source tells apart. *)
Inductive ErrorKind : Set := AlreadyExists | NotFound | OtherKind (code : Z).
Inductive RegionError : Set :=
| SizeZero | SizeNotBlockAligned | SizeTooLarge | MappingMisaligned | Io (kind : ErrorKind).

Definition check_size (size : Z) : result () RegionError :=
  refuse (size =? 0) with SizeZero ;;
  refuse negb (size mod REGION_ALIGNMENT =? 0) with SizeNotBlockAligned ;;
  refuse (MAX_REGION_BYTES <? size) with SizeTooLarge ;;
  Ok ().

(** A record is the range [rec_base .. rec_base + rec_size] of its region. *)
Record CellRecord : Set := { rec_base : Z; rec_size : Z }.

Definition record (region_size offset size : Z) : option CellRecord :=
  if negb (offset mod 8 =? 0) || (region_size <? size) || (region_size - size <? offset)
  then None else Some {| rec_base := offset; rec_size := size |}.

(** The cell of a record, by its place in the region. [None] is the assertion failing. *)
Definition ptr (self : CellRecord) (offset width : Z) : option Z :=
  if (offset mod width =? 0) && (width <=? self.(rec_size))
     && (offset <=? self.(rec_size) - width)
  then Some (self.(rec_base) + offset) else None.

Definition sub (self : CellRecord) (offset size : Z) : option CellRecord :=
  if (offset mod 8 =? 0) && (size <=? self.(rec_size)) && (offset <=? self.(rec_size) - size)
  then Some {| rec_base := self.(rec_base) + offset; rec_size := size |} else None.

(** ** The writer's memory *)

Record Message : Set := { place : Z; content : Z; carries : nat }.
Record Memory : Set := { history : list Message; fenced : nat }.

Definition fresh_memory : Memory := {| history := []; fenced := 0 |}.

Definition relaxed_store (l v : Z) (m : Memory) : Memory :=
  {| history := m.(history) ++ [{| place := l; content := v; carries := m.(fenced) |}];
     fenced := m.(fenced) |}.
Definition release_store (l v : Z) (m : Memory) : Memory :=
  {| history := m.(history) ++
       [{| place := l; content := v; carries := S (length m.(history)) |}];
     fenced := m.(fenced) |}.
Definition release_fence (m : Memory) : Memory :=
  {| history := m.(history); fenced := length m.(history) |}.

(** The last store to a cell among the first [n], by its index; and the cell's value then.
    A region starts zeroed. *)
Fixpoint last_in (h : list Message) (l : Z) : option nat :=
  match h with
  | [] => None
  | x :: h' =>
      match last_in h' l with
      | Some i => Some (S i)
      | None => if x.(place) =? l then Some 0%nat else None
      end
  end.
Definition last_before (h : list Message) (l : Z) (n : nat) : option nat := last_in (take n h) l.

Definition value_at (h : list Message) (i : option nat) : Z :=
  match i ≫= (h !!.) with Some x => x.(content) | None => 0 end.
Definition carried_at (h : list Message) (i : option nat) : nat :=
  match i ≫= (h !!.) with Some x => x.(carries) | None => 0 end.

(** What the sole writer reads back: its own last store. *)
Definition cell_value (h : list Message) (l : Z) : Z := value_at h (last_in h l).
Definition current (m : Memory) (l : Z) : Z := cell_value m.(history) l.

(** ** A reader *)

Record View : Set := { seen : nat; pending : nat }.
Definition fresh_view : View := {| seen := 0; pending := 0 |}.

(** May a load of [l] return the store [i]? [None] is the initial zero. *)
Definition may_read (h : list Message) (view : View) (l : Z) (i : option nat) : bool :=
  match last_before h l view.(seen), i with
  | None, None => true
  | Some _, None => false
  | known, Some i =>
      match h !! i with
      | Some x => (x.(place) =? l)
                  && match known with Some j => (j <=? i)%nat | None => true end
      | None => false
      end
  end.

(** A load, the store it returns given as [i]; [None] if the model excludes that choice. *)
Definition relaxed_load (h : list Message) (l : Z) (i : option nat) (view : View) :
    option (Z * View) :=
  if may_read h view l i
  then Some (value_at h i,
             {| seen := view.(seen); pending := Nat.max view.(pending) (carried_at h i) |})
  else None.
Definition acquire_load (h : list Message) (l : Z) (i : option nat) (view : View) :
    option (Z * View) :=
  if may_read h view l i
  then Some (value_at h i,
             {| seen := Nat.max view.(seen) (carried_at h i);
                pending := Nat.max view.(pending) (carried_at h i) |})
  else None.
Definition acquire_fence (view : View) : View :=
  {| seen := Nat.max view.(seen) view.(pending); pending := view.(pending) |}.

(** ** The even-odd counter ([SeqCell]) *)

Definition writer_current (counter : Z) (m : Memory) : Z := current m counter.

Definition open_write (counter in_flight : Z) (m : Memory) : Memory :=
  release_fence (relaxed_store counter in_flight m).
Definition close_write (counter stable : Z) (m : Memory) : Memory :=
  release_store counter stable m.

Inductive SeqOpen : Set := Unpublished | InFlight (opened : Z) | Stable (opened : Z).

Definition classify_counter (opened : Z) : SeqOpen :=
  if opened =? 0 then Unpublished
  else if opened mod 2 =? 1 then InFlight opened
  else Stable opened.

Definition open_read (h : list Message) (counter : Z) (i : option nat) (view : View) :
    option (SeqOpen * View) :=
  '(opened, view) ← acquire_load h counter i view;
  Some (classify_counter opened, view).

Definition close_read (h : list Message) (counter opened : Z) (i : option nat) (view : View) :
    option (bool * View) :=
  '(again, view) ← relaxed_load h counter i (acquire_fence view);
  Some (again =? opened, view).

(** ** Copying a record under its counter *)

(** The relaxed loads of a [copy] closure, each deciding what to load next. *)
Inductive copy (A : Type) : Type :=
| Done (a : A)
| Load (l : Z) (k : Z -> copy A).
Arguments Done {A} a.
Arguments Load {A} l k.

Fixpoint copy_bind {A B} (c : copy A) (f : A -> copy B) : copy B :=
  match c with Done a => f a | Load l k => Load l (fun v => copy_bind (k v) f) end.

(** The stores the loads return are given one by one; [None] when they are not a possible
    behaviour, or too few. *)
Fixpoint run_copy {A} (h : list Message) (c : copy A) (choices : list (option nat))
    (view : View) : option (A * View * list (option nat)) :=
  match c with
  | Done a => Some (a, view, choices)
  | Load l k =>
      match choices with
      | [] => None
      | i :: choices =>
          '(v, view) ← relaxed_load h l i view;
          run_copy h (k v) choices view
      end
  end.

(** A copy whose assertions could fail; [Done None] is one failing. *)
Definition pcopy (A : Type) : Type := copy (option A).
Definition pret {A} (a : A) : pcopy A := Done (Some a).
Definition pbind {A B} (c : pcopy A) (f : A -> pcopy B) : pcopy B :=
  copy_bind c (fun o => match o with Some a => f a | None => Done None end).
Definition load_word (r : CellRecord) (width offset : Z) : pcopy Z :=
  match ptr r offset width with Some l => Load l pret | None => Done None end.
Definition load64 (r : CellRecord) (offset : Z) : pcopy Z := load_word r 8 offset.
Definition load32 (r : CellRecord) (offset : Z) : pcopy Z := load_word r 4 offset.
Fixpoint pmap {A B} (f : A -> pcopy B) (xs : list A) : pcopy (list B) :=
  match xs with
  | [] => pret []
  | x :: xs => pbind (f x) (fun y => pbind (pmap f xs) (fun ys => pret (y :: ys)))
  end.

(** The copy a reader with the memory to itself would take. *)
Fixpoint settled_copy {A} (h : list Message) (c : copy A) : A :=
  match c with Done a => a | Load l k => settled_copy h (k (cell_value h l)) end.

Definition MAX_READ_ATTEMPTS : nat := 64.

Inductive SeqlockFault : Set := WriterStalled (slot_revision : Z) | Contended (attempts : nat).

(** [under_seqlock]: [Ok None] is a record never published. *)
Fixpoint seqlock_loop {A} (attempts : nat) (h : list Message) (counter : Z) (c : copy A)
    (stalled_at : option Z) (moved : bool) (choices : list (option nat)) (view : View) :
    option (result (option A) SeqlockFault * View * list (option nat)) :=
  match attempts with
  | O => Some (match stalled_at with
               | Some slot_revision =>
                   if negb moved then Err (WriterStalled slot_revision)
                   else Err (Contended MAX_READ_ATTEMPTS)
               | None => Err (Contended MAX_READ_ATTEMPTS)
               end, view, choices)
  | S attempts =>
      match choices with
      | [] => None
      | i :: choices =>
          '(opened, view) ← open_read h counter i view;
          match opened with
          | Unpublished => Some (Ok None, view, choices)
          | InFlight opened =>
              match stalled_at with
              | None => seqlock_loop attempts h counter c (Some opened) moved choices view
              | Some seen =>
                  seqlock_loop attempts h counter c stalled_at
                    (moved || negb (seen =? opened)) choices view
              end
          | Stable opened =>
              '(copied, view, choices) ← run_copy h c choices view;
              match choices with
              | [] => None
              | i :: choices =>
                  '(settled, view) ← close_read h counter opened i view;
                  if negb settled
                  then seqlock_loop attempts h counter c stalled_at true choices view
                  else Some (Ok (Some copied), view, choices)
              end
          end
      end
  end.

Definition under_seqlock {A} (h : list Message) (counter : Z) (c : copy A)
    (choices : list (option nat)) (view : View) :
    option (result (option A) SeqlockFault * View * list (option nat)) :=
  seqlock_loop MAX_READ_ATTEMPTS h counter c None false choices view.

(** What an attempt that came to nothing found: an interval in flight, or a stable counter
    that was another when the copy closed. *)
Inductive LostAttempt : Set := FoundInFlight (opened : Z) | Overtaken (opened : Z).

(** A row of lost attempts, with exactly the loads they took. *)
Inductive lost_run {A} (h : list Message) (counter : Z) (c : copy A) :
    list LostAttempt -> list (option nat) -> View -> View -> Prop :=
| lost_none view : lost_run h counter c [] [] view view
| lost_in_flight i opened view view1 lost loads view' :
    open_read h counter i view = Some (InFlight opened, view1) ->
    lost_run h counter c lost loads view1 view' ->
    lost_run h counter c (FoundInFlight opened :: lost) (i :: loads) view view'
| lost_overtaken i opened view view1 copying a view2 j view3 lost loads view' :
    open_read h counter i view = Some (Stable opened, view1) ->
    (forall rest, run_copy h c (copying ++ rest) view1 = Some (a, view2, rest)) ->
    close_read h counter opened j view2 = Some (false, view3) ->
    lost_run h counter c lost loads view3 view' ->
    lost_run h counter c (Overtaken opened :: lost) (i :: copying ++ j :: loads) view view'.

(** The fault that a row of lost attempts deserves: a writer that stalled in one interval,
    when every attempt found just that one in flight, and contention otherwise. *)
Definition fault_of_lost (f : SeqlockFault) (lost : list LostAttempt) : Prop :=
  match f with
  | WriterStalled v => lost <> [] /\ Forall (eq (FoundInFlight v)) lost
  | Contended n => n = MAX_READ_ATTEMPTS /\ forall v, lost <> [] -> ~ Forall (eq (FoundInFlight v)) lost
  end.

(** ** The last store of a cell *)

Lemma last_in_None h l : last_in h l = None <-> forall i x, h !! i = Some x -> x.(place) <> l.
Proof.
  induction h as [|y h IH]; simpl; [by split|].
  destruct (last_in h l) as [j|].
  - split; [done|]. intros H. enough (Some j = None) by done. apply IH.
    intros i x Hx. by apply (H (S i)).
  - destruct (Z.eqb_spec y.(place) l) as [E|E].
    + split; [done|]. intros H. by destruct (H 0%nat y eq_refl).
    + split; [|done]. intros _ [|i] x Hx; [by injection Hx as <-|by apply (proj1 IH eq_refl i)].
Qed.

Lemma last_in_Some h l i : last_in h l = Some i <->
  (exists x, h !! i = Some x /\ x.(place) = l) /\
  forall j x, (i < j)%nat -> h !! j = Some x -> x.(place) <> l.
Proof.
  revert i. induction h as [|y h IH]; intros i; simpl.
  { split; [done|]. intros [(x & Hx & _) _]. done. }
  destruct (last_in h l) as [j|] eqn:E.
  - destruct (proj1 (IH j) eq_refl) as [(x & Hx & Hp) Hj]. split.
    + intros [= <-]. split; [by exists x|]. intros [|k] z Hk; [lia|]. apply Hj. lia.
    + intros [(z & Hz & Hp') Hi]. f_equal.
      assert (i <= S j)%nat.
      { destruct (decide (i <= S j)%nat); [done|]. destruct i as [|i]; [lia|].
        exfalso. apply (Hj i z); [lia|done..]. }
      destruct (decide (i < S j)%nat) as [H'|]; [|lia]. exfalso. by apply (Hi (S j) x H').
  - pose proof (proj1 (last_in_None h l) E) as Hn. destruct (Z.eqb_spec y.(place) l) as [Ep|Ep].
    + split.
      * intros [= <-]. split; [by exists y|]. intros [|k] z Hk; [lia|]. apply Hn.
      * intros [(z & Hz & Hp') _]. destruct i as [|i]; [done|]. by destruct (Hn i z).
    + split; [done|]. intros [(z & Hz & Hp') _].
      destruct i as [|i]; [simpl in Hz; congruence|by destruct (Hn i z)].
Qed.

Lemma last_in_snoc h x l :
  last_in (h ++ [x]) l = if x.(place) =? l then Some (length h) else last_in h l.
Proof.
  induction h as [|y h IH]; simpl; [done|]. rewrite IH. by destruct (_ =? l).
Qed.

Lemma last_before_None h l n : last_before h l n = None <->
  forall i x, (i < n)%nat -> h !! i = Some x -> x.(place) <> l.
Proof.
  unfold last_before. rewrite last_in_None. split; intros H i x.
  - intros Hi Hx. apply (H i). by rewrite lookup_take_lt.
  - intros (Hx & Hi)%lookup_take_Some. by apply (H i).
Qed.

Lemma last_before_Some h l n i : last_before h l n = Some i <->
  (i < n)%nat /\ (exists x, h !! i = Some x /\ x.(place) = l) /\
  forall j x, (i < j < n)%nat -> h !! j = Some x -> x.(place) <> l.
Proof.
  unfold last_before. rewrite last_in_Some. split.
  - intros [(x & (Hx & Hn)%lookup_take_Some & Hp) H]. split_and!; [done|by exists x|].
    intros j z Hj Hz. apply (H j); [lia|]. rewrite lookup_take_lt; [done|lia].
  - intros (Hi & (x & Hx & Hp) & H). split.
    + exists x. by rewrite lookup_take_lt.
    + intros j z Hj (Hz & Hn)%lookup_take_Some. by apply (H j).
Qed.

Lemma value_at_Some h i x : h !! i = Some x -> value_at h (Some i) = x.(content).
Proof. intros H. unfold value_at. simpl. by rewrite H. Qed.
Lemma carried_at_Some h i x : h !! i = Some x -> carried_at h (Some i) = x.(carries).
Proof. intros H. unfold carried_at. simpl. by rewrite H. Qed.

Lemma cell_value_snoc h x l :
  cell_value (h ++ [x]) l = if x.(place) =? l then x.(content) else cell_value h l.
Proof.
  unfold cell_value. rewrite last_in_snoc. destruct (_ =? l).
  - apply value_at_Some. by rewrite lookup_app_r, Nat.sub_diag by lia.
  - destruct (last_in h l) as [i|] eqn:E; [|done].
    apply last_in_Some in E as [(y & Hy & _) _]. rewrite (value_at_Some _ _ _ Hy).
    apply value_at_Some. by apply lookup_app_l_Some.
Qed.

(** What a permitted load returned. *)
Lemma may_read_Some h view l i : may_read h view l (Some i) = true ->
  exists x, h !! i = Some x /\ x.(place) = l /\
    forall j, last_before h l view.(seen) = Some j -> (j <= i)%nat.
Proof.
  unfold may_read. destruct (last_before h l view.(seen)) as [j|]; destruct (h !! i) as [x|]; try done;
    intros H; apply andb_true_iff in H as [Hp Hj]; apply Z.eqb_eq in Hp; exists x; split_and!; try done.
  intros k [= <-]. by apply Nat.leb_le.
Qed.

Lemma may_read_None h view l : may_read h view l None = true -> last_before h l view.(seen) = None.
Proof. unfold may_read. by destruct (last_before _ _ _). Qed.

(** ** The discipline of a record, and what it buys a reader *)

Section seqlock.
Variables (counter : Z) (data : Z -> Prop).
Hypothesis counter_not_data : ~ data counter.

(** The sole writer's next store: the counter only grows, an even value is released, and a
    data cell is stored before the counter ever is, or while the counter is odd and that odd
    value is fenced. *)
Definition fits (h : list Message) (x : Message) : Prop :=
  (x.(place) = counter ->
    cell_value h counter < x.(content) /\
    (x.(content) mod 2 = 0 -> (length h < x.(carries))%nat)) /\
  (data x.(place) -> last_in h counter = None \/ exists o, last_in h counter = Some o /\
    cell_value h counter mod 2 = 1 /\ (o < x.(carries))%nat).

Inductive published : list Message -> Prop :=
| published_nil : published []
| published_snoc h x : published h -> fits h x -> published (h ++ [x]).

Lemma published_take h n : published h -> published (take n h).
Proof.
  intros H. revert n. induction H as [|h x Hh IH Hx]; intros n; [rewrite take_nil; constructor|].
  destruct (decide (n <= length h)%nat).
  - by rewrite take_app_le.
  - rewrite take_ge by (rewrite length_app; simpl; lia). by constructor.
Qed.

Lemma published_fits h i x : published h -> h !! i = Some x -> fits (take i h) x.
Proof.
  induction 1 as [|h y Hh IH Hy]; [done|]. intros Hi.
  destruct (decide (i < length h)%nat) as [Hl|Hl].
  - rewrite lookup_app_l in Hi by done. rewrite take_app_le by lia. auto.
  - assert (i = length h) as -> by (apply lookup_lt_Some in Hi; rewrite length_app in Hi; simpl in *; lia).
    rewrite lookup_app_r, Nat.sub_diag in Hi by lia. injection Hi as <-.
    by rewrite take_app_length.
Qed.

Lemma take_lookup_snoc h i (x : Message) : h !! i = Some x -> take (S i) h = take i h ++ [x].
Proof. apply take_S_r. Qed.

(** The counter grows along the history. *)
Lemma counter_bound h i x : published h -> h !! i = Some x -> x.(place) = counter ->
  0 < x.(content) <= cell_value h counter.
Proof.
  intros Hh. revert i x. induction Hh as [|h y Hh IH Hy]; [done|]. intros i x Hi Hp.
  assert (H0 : 0 <= cell_value h counter).
  { unfold cell_value. destruct (last_in h counter) as [k|] eqn:E; [|done].
    pose proof (proj1 (last_in_Some _ _ _) E) as [(z & Hz & Hpz) _]. rewrite (value_at_Some _ _ _ Hz).
    pose proof (IH k z Hz Hpz). lia. }
  rewrite cell_value_snoc. destruct (decide (i < length h)%nat) as [Hl|Hl].
  - rewrite lookup_app_l in Hi by done. pose proof (IH i x Hi Hp).
    destruct (Z.eqb_spec y.(place) counter) as [Ey|]; [|done].
    destruct (proj1 Hy Ey) as [? _]. lia.
  - assert (i = length h) as -> by (apply lookup_lt_Some in Hi; rewrite length_app in Hi; simpl in *; lia).
    rewrite lookup_app_r, Nat.sub_diag in Hi by lia. injection Hi as ->.
    rewrite (proj2 (Z.eqb_eq _ _) Hp). destruct (proj1 Hy Hp) as [? _]. lia.
Qed.

Lemma counter_grows h i j x y : published h -> h !! i = Some x -> h !! j = Some y ->
  x.(place) = counter -> y.(place) = counter -> (i < j)%nat -> x.(content) < y.(content).
Proof.
  intros Hh Hi Hj Hx Hy Hij. destruct (published_fits h j y Hh Hj) as [Hf _].
  destruct (Hf Hy) as [Hlt _].
  assert (H' : take j h !! i = Some x) by (by rewrite lookup_take_lt).
  pose proof (counter_bound _ i x (published_take h j Hh) H' Hx). lia.
Qed.

(** The loads of a copy that the counter covers. *)
Fixpoint copies_data {A} (c : copy A) : Prop :=
  match c with Done _ => True | Load l k => data l /\ forall v, copies_data (k v) end.

(** A reader is sure to see a counter store later than [i]. *)
Definition overtaken (h : list Message) (i n : nat) : Prop :=
  exists o y, (i < o < n)%nat /\ h !! o = Some y /\ y.(place) = counter.

(** One load under an even counter stored at [i] returns what the record held then, or
    carries a later store of the counter. *)
Lemma covered_load h i x view l j v view' : published h -> h !! i = Some x ->
  x.(place) = counter -> x.(content) mod 2 = 0 -> (i < view.(seen))%nat -> data l ->
  relaxed_load h l j view = Some (v, view') ->
  view'.(seen) = view.(seen) /\ (view.(pending) <= view'.(pending))%nat /\
  (overtaken h i view'.(pending) \/ v = cell_value (take (S i) h) l).
Proof.
  intros Hh Hi Hx He Hs Hl. unfold relaxed_load. destruct (may_read h view l j) eqn:Hm; [|done].
  intros [= <- <-]. simpl. split_and!; [done|lia|].
  destruct j as [j|].
  - apply may_read_Some in Hm as (y & Hj & Hy & Hlast). rewrite (value_at_Some _ _ _ Hj).
    destruct (decide (i < j)%nat) as [Hij|Hij].
    + left. destruct (published_fits h j y Hh Hj) as [_ Hd]. rewrite Hy in Hd.
      destruct (Hd Hl) as [Hnone|(o & Ho & Hodd & Hc)].
      { exfalso. eapply (proj1 (last_in_None _ _) Hnone i x); [by rewrite lookup_take_lt|done]. }
      pose proof (proj1 (last_in_Some _ _ _) Ho) as [(z & Hz & Hpz) Hno].
      unfold cell_value in Hodd. rewrite Ho, (value_at_Some _ _ _ Hz) in Hodd.
      apply lookup_take_Some in Hz as [Hz ?].
      assert (Hio : (i <= o)%nat).
      { destruct (decide (i <= o)%nat); [done|]. exfalso. apply (Hno i x); [lia| |done].
        by rewrite lookup_take_lt. }
      assert (i <> o) by (intros ->; rewrite Hi in Hz; injection Hz as ->; lia).
      exists o, z. rewrite (carried_at_Some _ _ _ Hj). split_and!; [lia|lia|done..].
    + right. assert (j <> i).
      { intros ->. rewrite Hi in Hj. injection Hj as <-. by rewrite <- Hx, Hy in counter_not_data. }
      unfold cell_value. replace (last_in (take (S i) h) l) with (Some j); [symmetry; apply value_at_Some; by rewrite lookup_take_lt by lia|].
      symmetry. apply last_before_Some. split_and!; [lia|by exists y|].
      intros k z Hk Hz Hpz. destruct (last_before h l view.(seen)) as [m|] eqn:Em.
      * pose proof (Hlast m eq_refl). apply last_before_Some in Em as (? & _ & Hm').
        apply (Hm' k z); [lia|done..].
      * eapply (proj1 (last_before_None _ _ _) Em k z); [lia|done..].
  - right. apply may_read_None in Hm. unfold cell_value.
    replace (last_in (take (S i) h) l) with (@None nat); [done|]. symmetry.
    apply last_before_None. intros k z Hk. eapply (proj1 (last_before_None _ _ _) Hm). lia.
Qed.

Lemma overtaken_le h i n m : (n <= m)%nat -> overtaken h i n -> overtaken h i m.
Proof. intros Hle (o & y & ? & ? & ?). exists o, y. split_and!; [lia|lia|done..]. Qed.

Lemma covered_copy {A} (c : copy A) h i x view choices a view' choices' : published h ->
  h !! i = Some x -> x.(place) = counter -> x.(content) mod 2 = 0 ->
  (i < view.(seen))%nat -> copies_data c ->
  run_copy h c choices view = Some (a, view', choices') ->
  view'.(seen) = view.(seen) /\ (view.(pending) <= view'.(pending))%nat /\
  (overtaken h i view'.(pending) \/ a = settled_copy (take (S i) h) c).
Proof.
  intros Hh Hi Hx He. revert choices view. induction c as [a'|l k IH]; intros choices view Hs Hd; simpl.
  { intros [= <- <- <-]. split_and!; [done|lia|by right]. }
  destruct choices as [|j choices]; [done|]. destruct Hd as [Hl Hk].
  destruct (relaxed_load h l j view) as [[v view1]|] eqn:E; [|done]. simpl. intros Hrun.
  destruct (covered_load h i x view l j v view1) as (Hs1 & Hp1 & Hv); try done.
  apply IH in Hrun as (Hs' & Hp' & Ha); [|by rewrite Hs1|done].
  split_and!; [congruence|lia|]. destruct Hv as [Ho| ->].
  - left. by eapply overtaken_le.
  - done.
Qed.

(** The accepted copy: one even counter, everything as it was when that was released. *)
Definition accepted {A} (h : list Message) (c : copy A) (from upto : nat) (a : A) : Prop :=
  exists i x, h !! i = Some x /\ x.(place) = counter /\ 0 < x.(content) /\
    x.(content) mod 2 = 0 /\ a = settled_copy (take (S i) h) c /\ (i < upto)%nat /\
    forall j, last_before h counter from = Some j -> (j <= i)%nat.

Lemma even_or_odd n : n mod 2 = 0 \/ n mod 2 = 1.
Proof. pose proof (Z.mod_pos_bound n 2). lia. Qed.

Lemma open_read_cases h i view o view1 : published h ->
  open_read h counter i view = Some (o, view1) ->
  (view.(seen) <= view1.(seen))%nat /\
  match o with
  | Unpublished => last_before h counter view.(seen) = None
  | InFlight n => exists j x, h !! j = Some x /\ x.(place) = counter /\ x.(content) = n /\
      n mod 2 = 1 /\ forall k, last_before h counter view.(seen) = Some k -> (k <= j)%nat
  | Stable n => exists j x, h !! j = Some x /\ x.(place) = counter /\ x.(content) = n /\
      0 < n /\ n mod 2 = 0 /\ (j < view1.(seen))%nat /\
      forall k, last_before h counter view.(seen) = Some k -> (k <= j)%nat
  end.
Proof.
  intros Hh. unfold open_read, acquire_load. destruct (may_read h view counter i) eqn:Hm; [|done].
  simpl. intros [= <- <-]. simpl. split; [lia|]. unfold classify_counter. destruct i as [i|].
  - apply may_read_Some in Hm as (x & Hi & Hp & Hlast). rewrite (value_at_Some _ _ _ Hi), (carried_at_Some _ _ _ Hi).
    pose proof (counter_bound h i x Hh Hi Hp). rewrite (proj2 (Z.eqb_neq _ _)) by lia.
    destruct (even_or_odd x.(content)) as [He|Ho].
    + rewrite He. exists i, x. split_and!; try done; [lia|].
      destruct (published_fits h i x Hh Hi) as [Hc _]. destruct (Hc Hp) as [_ Hr].
      specialize (Hr He). apply lookup_lt_Some in Hi. rewrite length_take in Hr. lia.
    + rewrite Ho. by exists i, x.
  - by apply may_read_None in Hm.
Qed.

(** A reload that returns the value it opened with was overtaken by nothing. *)
Lemma close_read_settled h i x j view view1 : published h -> h !! i = Some x ->
  x.(place) = counter ->
  close_read h counter x.(content) j view = Some (true, view1) ->
  ~ overtaken h i (acquire_fence view).(seen).
Proof.
  intros Hh Hi Hx. unfold close_read, relaxed_load.
  destruct (may_read h (acquire_fence view) counter j) eqn:Hm; [|done]. cbn [mbind option_bind].
  intros [= Heq _] (o & y & Ho & Hy & Hp). apply Z.eqb_eq in Heq. destruct j as [j|].
  - apply may_read_Some in Hm as (z & Hj & Hz & Hlast). rewrite (value_at_Some _ _ _ Hj) in Heq.
    destruct (last_before h counter (acquire_fence view).(seen)) as [k|] eqn:E.
    + pose proof (Hlast k eq_refl). apply last_before_Some in E as (_ & _ & Hk).
      assert (Hok : (o <= k)%nat) by
        (destruct (decide (o <= k)%nat); [done|]; exfalso; apply (Hk o y); [lia|done..]).
      pose proof (counter_grows h i j x z Hh Hi Hj Hx Hz ltac:(lia)). lia.
    + apply (proj1 (last_before_None _ _ _) E o y); [lia|done..].
  - apply may_read_None in Hm. apply (proj1 (last_before_None _ _ _) Hm o y); [lia|done..].
Qed.

Lemma close_read_seen h n j view b view1 : close_read h counter n j view = Some (b, view1) ->
  (view.(seen) <= view1.(seen))%nat.
Proof. unfold close_read, relaxed_load. destruct (may_read _ _ _ _); [|done]. simpl. intros [= _ <-]. simpl. lia. Qed.

(** Every answer of [under_seqlock], for a reader that sees at least the first [from]
    stores. *)
Definition sound_answer {A} (h : list Message) (c : copy A) (from upto : nat)
    (r : result (option A) SeqlockFault) : Prop :=
  match r with
  | Ok (Some a) => accepted h c from upto a
  | Ok None => last_before h counter from = None
  | Err _ => True
  end.

Lemma last_before_grows h k n m : (n <= m)%nat -> last_before h counter n = Some k ->
  exists k', last_before h counter m = Some k' /\ (k <= k')%nat.
Proof.
  intros Hn (? & (x & Hx & Hp) & _)%last_before_Some.
  destruct (last_before h counter m) as [k'|] eqn:E.
  - exists k'. split; [done|]. apply last_before_Some in E as (_ & _ & Hm).
    destruct (decide (k <= k')%nat); [done|]. exfalso. apply (Hm k x); [lia|done..].
  - exfalso. apply (proj1 (last_before_None _ _ _) E k x); [lia|done..].
Qed.

Lemma sound_answer_later {A} h (c : copy A) n m u r : (n <= m)%nat ->
  sound_answer h c m u r -> sound_answer h c n u r.
Proof.
  intros Hn. destruct r as [[a|]|[s|k]]; try done; simpl.
  - intros (j & x & Hj & Hx & H0 & He & Ha & Hu & Hlast). exists j, x. split_and!; try done.
    intros k Hk. destruct (last_before_grows h k n m Hn Hk) as (k' & Hk' & ?).
    specialize (Hlast k' Hk'). lia.
  - intros Hnone. destruct (last_before h counter n) as [k|] eqn:E; [|done].
    destruct (last_before_grows h k n m Hn E) as (k' & Hk' & _). congruence.
Qed.

Lemma run_copy_seen {A} (c : copy A) h choices view a view' choices' :
  run_copy h c choices view = Some (a, view', choices') -> view'.(seen) = view.(seen).
Proof.
  revert choices view. induction c as [a'|l k IH]; intros choices view; simpl; [by intros [= _ <- _]|].
  destruct choices as [|j choices]; [done|]. unfold relaxed_load. destruct (may_read _ _ _ _); [|done].
  cbn [mbind option_bind]. intros H. apply IH in H. by rewrite H.
Qed.

(** A copy takes the first of its choices and leaves the others. *)
Lemma run_copy_loads {A} (c : copy A) h choices view a view' rest :
  run_copy h c choices view = Some (a, view', rest) -> exists loads, choices = loads ++ rest /\
    forall rest', run_copy h c (loads ++ rest') view = Some (a, view', rest').
Proof.
  revert choices view. induction c as [a'|l k IH]; intros choices view; simpl.
  { intros [= <- <- <-]. by exists []. }
  destruct choices as [|j choices]; [done|].
  destruct (relaxed_load h l j view) as [[v view1]|] eqn:E; [|done]. cbn [mbind option_bind].
  intros Hr. apply IH in Hr as (loads & -> & H). exists (j :: loads). split; [done|].
  intros rest'. cbn [app]. rewrite E. apply H.
Qed.

Lemma seqlock_loop_seen {A} (c : copy A) attempts h stalled moved choices view r view' choices' :
  seqlock_loop attempts h counter c stalled moved choices view = Some (r, view', choices') ->
  (view.(seen) <= view'.(seen))%nat.
Proof.
  revert stalled moved choices view. induction attempts as [|n IH]; intros stalled moved choices view; simpl.
  { by intros [= _ <- _]. }
  destruct choices as [|i choices]; [done|]. unfold open_read, acquire_load.
  destruct (may_read _ _ _ _); [|done]. cbn [mbind option_bind]. set (view1 := {| seen := _ |}).
  assert (view.(seen) <= view1.(seen))%nat by (subst view1; simpl; lia).
  destruct (classify_counter _) as [|opened|opened].
  - intros [= _ <- _]. done.
  - destruct stalled; intros Hrun; apply IH in Hrun; lia.
  - destruct (run_copy h c choices view1) as [[[a view2] choices2]|] eqn:Er; [|done]. cbn [mbind option_bind].
    apply run_copy_seen in Er. destruct choices2 as [|i2 choices2]; [done|].
    destruct (close_read h counter opened i2 view2) as [[b view3]|] eqn:Ec; [|done]. cbn [mbind option_bind].
    apply close_read_seen in Ec. destruct b; simpl; [intros [= _ <- _]; lia|].
    intros Hrun. apply IH in Hrun. lia.
Qed.

Lemma seqlock_loop_sound {A} (c : copy A) attempts h stalled moved choices view r view' choices' :
  published h -> copies_data c ->
  seqlock_loop attempts h counter c stalled moved choices view = Some (r, view', choices') ->
  sound_answer h c view.(seen) view'.(seen) r.
Proof.
  intros Hh Hd. revert stalled moved choices view.
  induction attempts as [|n IH]; intros stalled moved choices view; simpl.
  { destruct stalled as [s|]; [destruct moved|]; by intros [= <- _ _]. }
  destruct choices as [|i choices]; [done|].
  destruct (open_read h counter i view) as [[o view1]|] eqn:Eo; [|done]. simpl.
  apply (open_read_cases h i view o view1 Hh) in Eo as [Hle Ho]. destruct o as [|opened|opened].
  - by intros [= <- _ _].
  - destruct stalled as [s|]; intros Hrun; apply IH in Hrun; by eapply sound_answer_later.
  - destruct Ho as (j & x & Hj & Hx & <- & H0 & He & Hjs & Hlast).
    destruct (run_copy h c choices view1) as [[[a view2] choices2]|] eqn:Er; [|done]. simpl.
    destruct (covered_copy c h j x view1 choices a view2 choices2) as (Hs2 & Hp2 & Ha); try done.
    destruct choices2 as [|i2 choices2]; [done|].
    destruct (close_read h counter x.(content) i2 view2) as [[b view3]|] eqn:Ec; [|done]. simpl.
    pose proof (close_read_seen _ _ _ _ _ _ Ec). destruct b; simpl.
    + intros [= <- <- _]. apply (close_read_settled h j x i2 view2 view3 Hh Hj Hx) in Ec.
      destruct Ha as [Ha|Ha]; [|exists j, x; split_and!; try done; lia].
      exfalso. apply Ec. eapply overtaken_le; [|done]. simpl. lia.
    + intros Hrun. apply IH in Hrun. eapply sound_answer_later; [|done]. lia.
Qed.
Lemma under_seqlock_sound {A} (c : copy A) h choices view r view' choices' :
  published h -> copies_data c ->
  under_seqlock h counter c choices view = Some (r, view', choices') ->
  sound_answer h c view.(seen) view'.(seen) r.
Proof. unfold under_seqlock. intros Hh Hd. by apply seqlock_loop_sound. Qed.

(** *** Lost attempts *)

(** What the loop remembers of the attempts it lost. *)
Definition remembers (stalled : option Z) (moved : bool) (lost : list LostAttempt) : Prop :=
  if moved then forall v, ~ Forall (eq (FoundInFlight v)) lost
  else match stalled with
       | None => lost = []
       | Some s => lost <> [] /\ Forall (eq (FoundInFlight s)) lost
       end.

Lemma forall_snoc {A} (P : A -> Prop) xs x : Forall P (xs ++ [x]) <-> Forall P xs /\ P x.
Proof. by rewrite Forall_app, Forall_singleton. Qed.

Lemma remembers_in_flight stalled moved lost v : remembers stalled moved lost ->
  match stalled with
  | None => remembers (Some v) moved (lost ++ [FoundInFlight v])
  | Some s => remembers stalled (moved || negb (s =? v)) (lost ++ [FoundInFlight v])
  end.
Proof.
  unfold remembers. destruct moved; simpl.
  - intros H. destruct stalled; intros w [Hw _]%forall_snoc; by apply (H w).
  - destruct stalled as [s|]; [intros [Hne Hs]|intros ->; split; [done|by apply Forall_singleton]].
    destruct (Z.eqb_spec s v) as [<-|Hsv]; simpl.
    + split; [by destruct lost|]. by apply forall_snoc.
    + intros w [Hw [= <-]]%forall_snoc. destruct Hs as [|? ? Hs _]; [done|].
      apply Forall_cons_1 in Hw as [Hw _]. congruence.
Qed.

Lemma remembers_overtaken stalled lost opened : remembers stalled true (lost ++ [Overtaken opened]).
Proof. intros v [_ ?]%forall_snoc. done. Qed.

Lemma seqlock_loop_runs {A} (c : copy A) attempts h stalled moved choices view r view' rest :
  seqlock_loop attempts h counter c stalled moved choices view = Some (r, view', rest) ->
  exists loads, choices = loads ++ rest /\
    forall before f, remembers stalled moved before -> r = Err f -> exists lost,
      length lost = attempts /\ lost_run h counter c lost loads view view' /\
      fault_of_lost f (before ++ lost).
Proof.
  revert stalled moved choices view. induction attempts as [|n IH]; intros stalled moved choices view; simpl.
  { intros [= <- <- <-]. exists []. split; [done|]. intros before f Hm Hf. exists [].
    split_and!; [done|constructor|]. rewrite app_nil_r. unfold remembers in Hm.
    destruct moved; [|destruct stalled as [s|]]; simpl in Hf.
    - destruct stalled; injection Hf as <-; split; done || (intros v _; apply Hm).
    - by injection Hf as <-.
    - injection Hf as <-. subst before. by split. }
  destruct choices as [|i choices]; [done|].
  destruct (open_read h counter i view) as [[o view1]|] eqn:Eo; [|done]. simpl.
  destruct o as [|opened|opened].
  - intros [= <- <- <-]. exists [i]. split; [done|]. by intros.
  - intros Hrun.
    assert (exists stalled' moved', seqlock_loop n h counter c stalled' moved' choices view1 = Some (r, view', rest) /\
      forall before, remembers stalled moved before -> remembers stalled' moved' (before ++ [FoundInFlight opened]))
      as (stalled' & moved' & Hl & Hm).
    { destruct stalled as [s|]; eexists _, _; (split; [exact Hrun|]); intros before Hb;
        exact (remembers_in_flight _ _ _ opened Hb). }
    apply IH in Hl as (loads & -> & H). exists (i :: loads). split; [done|]. intros before f Hb Hf.
    destruct (H _ f (Hm _ Hb) Hf) as (lost & Hlen & Hr & Hv). exists (FoundInFlight opened :: lost).
    split_and!; [by simpl; f_equal|by eapply lost_in_flight|]. by rewrite <- app_assoc in Hv.
  - destruct (run_copy h c choices view1) as [[[a view2] choices2]|] eqn:Er; [|done]. cbn [mbind option_bind].
    apply run_copy_loads in Er as (copying & -> & Hc). destruct choices2 as [|i2 choices2]; [done|].
    destruct (close_read h counter opened i2 view2) as [[b view3]|] eqn:Ec; [|done]. cbn [mbind option_bind].
    destruct b; simpl.
    + intros [= <- <- <-]. exists (i :: copying ++ [i2]). split; [by cbn [app]; rewrite <- app_assoc|]. by intros.
    + intros Hl. apply IH in Hl as (loads & -> & H). exists (i :: copying ++ i2 :: loads).
      split; [by cbn [app]; rewrite <- app_assoc|]. intros before f Hb Hf.
      destruct (H _ f (remembers_overtaken stalled before opened) Hf) as (lost & Hlen & Hr & Hv).
      exists (Overtaken opened :: lost).
      split_and!; [by simpl; f_equal|by eapply lost_overtaken|]. by rewrite <- app_assoc in Hv.
Qed.

(** A counter value that a lost attempt may have found: stored in the history, and no
    older than what the reader knew. *)
Definition known_counter (h : list Message) (from : nat) : Z := value_at h (last_before h counter from).

Lemma known_counter_le h from i x : published h -> h !! i = Some x -> x.(place) = counter ->
  (forall k, last_before h counter from = Some k -> (k <= i)%nat) -> known_counter h from <= x.(content).
Proof.
  intros Hh Hi Hx Hle. unfold known_counter. pose proof (counter_bound h i x Hh Hi Hx).
  destruct (last_before h counter from) as [k|] eqn:E; [|unfold value_at; simpl; lia].
  specialize (Hle k eq_refl). apply last_before_Some in E as (_ & (y & Hy & Hpy) & _).
  rewrite (value_at_Some _ _ _ Hy).
  destruct (decide (k = i)) as [->|]; [rewrite Hi in Hy; injection Hy as ->; lia|].
  pose proof (counter_grows h k i y x Hh Hy Hi Hpy Hx ltac:(lia)). lia.
Qed.

Lemma known_counter_grows h n m : published h -> (n <= m)%nat -> known_counter h n <= known_counter h m.
Proof.
  intros Hh Hn. unfold known_counter at 2. destruct (last_before h counter m) as [k|] eqn:E.
  - pose proof E as (_ & (y & Hy & Hpy) & _)%last_before_Some. rewrite (value_at_Some _ _ _ Hy).
    apply (known_counter_le h n k y Hh Hy Hpy). intros j Hj.
    destruct (last_before_grows h j n m Hn Hj) as (k' & Hk' & ?). congruence.
  - unfold known_counter. destruct (last_before h counter n) as [j|] eqn:Ej; [|done].
    destruct (last_before_grows h j n m Hn Ej) as (k' & Hk' & _). congruence.
Qed.

(** The counter only grows with the history. *)
Lemma counter_take h n : published h -> cell_value (take n h) counter <= cell_value h counter.
Proof.
  intros Hh. unfold cell_value at 1. destruct (last_in (take n h) counter) as [k|] eqn:E.
  - apply last_in_Some in E as ((x & Hx & Hp) & _). rewrite (value_at_Some _ _ _ Hx).
    apply lookup_take_Some in Hx as [Hx _]. by apply (counter_bound h k x).
  - change (value_at (take n h) None) with 0. unfold cell_value.
    destruct (last_in h counter) as [k|] eqn:Ek; [|done].
    apply last_in_Some in Ek as ((x & Hx & Hp) & _). rewrite (value_at_Some _ _ _ Hx).
    pose proof (counter_bound h k x Hh Hx Hp). lia.
Qed.

(** What the writer had done for an attempt to be lost: the interval it found was opened,
    and the stable counter that was overtaken is not the last. *)
Definition lost_to (h : list Message) (low : Z) (a : LostAttempt) : Prop :=
  match a with
  | FoundInFlight v => v mod 2 = 1 /\ low <= v <= cell_value h counter
  | Overtaken v => v mod 2 = 0 /\ 0 < v /\ low <= v < cell_value h counter
  end.

Lemma lost_to_lower h low low' a : low' <= low -> lost_to h low a -> lost_to h low' a.
Proof. destruct a; simpl; lia. Qed.

Lemma close_read_overtaken h i x j view view1 : published h -> h !! i = Some x ->
  x.(place) = counter -> (i < view.(seen))%nat ->
  close_read h counter x.(content) j view = Some (false, view1) ->
  x.(content) < cell_value h counter.
Proof.
  intros Hh Hi Hx Hs. unfold close_read, relaxed_load.
  destruct (may_read h (acquire_fence view) counter j) eqn:Hm; [|done]. cbn [mbind option_bind].
  intros [= Heq _]. apply Z.eqb_neq in Heq.
  assert (Hknown : exists k, last_before h counter (acquire_fence view).(seen) = Some k /\ (i <= k)%nat).
  { destruct (last_before h counter (acquire_fence view).(seen)) as [k|] eqn:E.
    - exists k. split; [done|]. apply last_before_Some in E as (_ & _ & Hk).
      destruct (decide (i <= k)%nat); [done|]. exfalso. apply (Hk i x); [simpl; lia|done..].
    - exfalso. apply (proj1 (last_before_None _ _ _) E i x); [simpl; lia|done..]. }
  destruct Hknown as (k & Hk & Hik). destruct j as [j|].
  - apply may_read_Some in Hm as (z & Hj & Hz & Hlast). rewrite (value_at_Some _ _ _ Hj) in Heq.
    specialize (Hlast k Hk). pose proof (counter_bound h j z Hh Hj Hz).
    destruct (decide (j = i)) as [->|]; [rewrite Hi in Hj; injection Hj as ->; lia|].
    pose proof (counter_grows h i j x z Hh Hi Hj Hx Hz ltac:(lia)). lia.
  - apply may_read_None in Hm. congruence.
Qed.

Lemma lost_run_to {A} h (c : copy A) lost loads view view' : published h -> copies_data c ->
  lost_run h counter c lost loads view view' ->
  Forall (lost_to h (known_counter h view.(seen))) lost.
Proof.
  intros Hh Hd Hl. induction Hl as [view|i opened view view1 lost loads view' Ho Hl IH
    |i opened view view1 copying a view2 j view3 lost loads view' Ho Hc Hj Hl IH]; [constructor|..].
  - apply open_read_cases in Ho as [Hle (k & x & Hk & Hx & <- & Hodd & Hlast)]; [|done].
    pose proof (counter_bound h k x Hh Hk Hx).
    pose proof (known_counter_le h _ k x Hh Hk Hx Hlast). constructor; [simpl; lia|].
    eapply Forall_impl; [exact IH|]. intros b. apply lost_to_lower. by apply known_counter_grows.
  - apply open_read_cases in Ho as [Hle (k & x & Hk & Hx & <- & H0 & He & Hks & Hlast)]; [|done].
    specialize (Hc []). destruct (covered_copy c h k x view1 _ a view2 [] Hh Hk Hx He Hks Hd Hc) as (Hs2 & _ & _).
    pose proof (close_read_seen _ _ _ _ _ _ Hj).
    apply (close_read_overtaken h k x j view2 view3 Hh Hk Hx) in Hj; [|by rewrite Hs2].
    pose proof (known_counter_le h _ k x Hh Hk Hx Hlast). constructor; [simpl; lia|].
    eapply Forall_impl; [exact IH|]. intros b. apply lost_to_lower. apply known_counter_grows; [done|lia].
Qed.
End seqlock.

(** ** Publishing a record *)

Definition relaxed_stores (stores : list (Z * Z)) (m : Memory) : Memory :=
  fold_left (fun m '(l, v) => relaxed_store l v m) stores m.

(** The even-odd interval around a record's data stores. *)
Definition write_record (counter in_flight next_stable : Z) (stores : list (Z * Z))
    (m : Memory) : Memory :=
  close_write counter next_stable (relaxed_stores stores (open_write counter in_flight m)).

(** A record's cells after some stores, and after a list of publications. *)
Definition overlay (stores : list (Z * Z)) (f : Z -> Z) : Z -> Z :=
  fold_left (fun f '(l, v) x => if l =? x then v else f x) stores f.
Definition contents (publications : list (list (Z * Z))) : Z -> Z :=
  fold_left (fun f stores => overlay stores f) publications (fun _ => 0).

Fixpoint eval_copy {A} (f : Z -> Z) (c : copy A) : A :=
  match c with Done a => a | Load l k => eval_copy f (k (f l)) end.

Lemma relaxed_stores_spec stores m :
  fenced (relaxed_stores stores m) = fenced m /\
  history (relaxed_stores stores m) = history m ++
    map (fun '(l, v) => {| place := l; content := v; carries := fenced m |}) stores.
Proof.
  revert m. induction stores as [|[l v] stores IH]; intros m; simpl; [by rewrite app_nil_r|].
  destruct (IH (relaxed_store l v m)) as [-> ->]. simpl. by rewrite <- app_assoc.
Qed.

Lemma cell_value_stores stores n h x :
  cell_value (h ++ map (fun '(l, v) => {| place := l; content := v; carries := n |}) stores) x =
  overlay stores (cell_value h) x.
Proof.
  assert (Hext : forall stores f g, (forall x, f x = g x) -> overlay stores f x = overlay stores g x).
  { induction stores0 as [|[l v] s IH]; simpl; intros f g H; [apply H|].
    apply IH. intros y. by rewrite H. }
  revert h. induction stores as [|[l v] stores IH]; intros h; simpl; [by rewrite app_nil_r|].
  rewrite (cons_middle _ h), app_assoc, IH. apply Hext. intros y. by rewrite cell_value_snoc.
Qed.

Lemma settled_eval {A} (h : list Message) (f : Z -> Z) (data : Z -> Prop) (c : copy A) :
  copies_data data c -> (forall l, data l -> cell_value h l = f l) ->
  settled_copy h c = eval_copy f c.
Proof.
  intros Hd Hf. induction c as [a|l k IH]; simpl in *; [done|]. destruct Hd as [Hl Hk].
  rewrite Hf by done. by apply IH.
Qed.

Section writer.
Variables (counter : Z) (data : Z -> Prop).
Hypothesis counter_not_data : ~ data counter.

(** Everything the writer of a segment does to its memory, seen from one record: it
    prepares cells of the record before its first publication, it publishes the record, or
    it touches cells of other records. *)
Inductive writer_run : list (Z * Z) -> list (list (Z * Z)) -> Memory -> Prop :=
| run_fresh : writer_run [] [] fresh_memory
| run_prepare prep m l v : writer_run prep [] m -> data l ->
    writer_run (prep ++ [(l, v)]) [] (relaxed_store l v m)
| run_publish prep ps m stores : writer_run prep ps m -> Forall (fun s => data s.1) stores ->
    writer_run prep (ps ++ [stores])
      (write_record counter (writer_current counter m + 1) (writer_current counter m + 2) stores m)
| run_relaxed prep ps m l v : writer_run prep ps m -> l <> counter -> ~ data l ->
    writer_run prep ps (relaxed_store l v m)
| run_release prep ps m l v : writer_run prep ps m -> l <> counter -> ~ data l ->
    writer_run prep ps (release_store l v m)
| run_fence prep ps m : writer_run prep ps m -> writer_run prep ps (release_fence m).

(** What a run leaves: the discipline, and at each even counter the record of that many
    publications. *)
Record run_leaves (prep : list (Z * Z)) (ps : list (list (Z * Z))) (h : list Message) : Prop := {
  run_published : published counter data h;
  run_counter : cell_value h counter = 2 * len ps;
  run_untouched : ps = [] -> last_in h counter = None;
  run_cells : forall l, data l -> cell_value h l = contents (prep :: ps) l;
  run_even : forall i x, h !! i = Some x -> x.(place) = counter -> x.(content) mod 2 = 0 ->
    exists k, (0 < k <= length ps)%nat /\ x.(content) = 2 * Z.of_nat k /\
      forall l, data l -> cell_value (take (S i) h) l = contents (prep :: take k ps) l
}.

Lemma contents_snoc ps stores : contents (ps ++ [stores]) = overlay stores (contents ps).
Proof. unfold contents. by rewrite fold_left_app. Qed.

Lemma run_leaves_elsewhere prep ps h x : run_leaves prep ps h -> x.(place) <> counter ->
  ~ data x.(place) -> run_leaves prep ps (h ++ [x]).
Proof.
  intros [Hp Hc H0 Hd He] Hx Hnd.
  assert (Hv : forall l, l = counter \/ data l -> cell_value (h ++ [x]) l = cell_value h l).
  { intros l Hl. rewrite cell_value_snoc. destruct (Z.eqb_spec x.(place) l) as [<-|]; [|done].
    by destruct Hl. }
  split.
  - constructor; [done|]. by split.
  - rewrite Hv by auto. done.
  - intros E. rewrite last_in_snoc, (proj2 (Z.eqb_neq _ _) Hx). auto.
  - intros l Hl. rewrite Hv by auto. auto.
  - intros i y Hi Hy Hev. assert (i < length h)%nat.
    { apply lookup_lt_Some in Hi as Hlt. rewrite length_app in Hlt. simpl in Hlt.
      destruct (decide (i = length h)) as [->|]; [|lia].
      rewrite lookup_app_r, Nat.sub_diag in Hi by lia. injection Hi as <-. done. }
    rewrite lookup_app_l in Hi by done. destruct (He i y Hi Hy Hev) as (k & Hk & Hc' & Hd').
    exists k. split_and!; try done; try lia. by rewrite take_app_le by lia.
Qed.

Lemma published_data_stores h stores n : published counter data h ->
  Forall (fun s => data s.1) stores -> cell_value h counter mod 2 = 1 ->
  (exists o, last_in h counter = Some o /\ (o < n)%nat) ->
  published counter data
    (h ++ map (fun '(l, v) => {| place := l; content := v; carries := n |}) stores).
Proof.
  intros Hh Hs. revert h Hh. induction Hs as [|[l v] stores Hl Hs IH]; intros h Hh Ho (o & Hlast & Hn); simpl.
  { by rewrite app_nil_r. }
  rewrite (cons_middle _ h), app_assoc. simpl in Hl.
  assert (Hne : (l =? counter) = false) by (apply Z.eqb_neq; by intros ->).
  apply IH.
  - constructor; [done|]. split; simpl; [by intros ->|]. intros _. right. by exists o.
  - rewrite cell_value_snoc. simpl. by rewrite Hne.
  - exists o. rewrite last_in_snoc. simpl. by rewrite Hne.
Qed.

Lemma overlay_elsewhere stores f x : Forall (fun s : Z * Z => s.1 <> x) stores ->
  overlay stores f x = f x.
Proof.
  revert f. induction stores as [|[l v] stores IH]; intros f Hs; [done|].
  inversion Hs as [|? ? Hl Hs']; subst. simpl in *. rewrite IH by done.
  by rewrite (proj2 (Z.eqb_neq l x)).
Qed.

Lemma overlay_ext (P : Z -> Prop) stores f g : (forall x, P x -> f x = g x) ->
  forall x, P x -> overlay stores f x = overlay stores g x.
Proof.
  revert f g. induction stores as [|[l v] stores IH]; simpl; intros f g H x Hx; [by apply H|].
  apply IH; [|done]. intros y Hy. by rewrite H.
Qed.

Lemma write_record_history in_flight stable stores m :
  history (write_record counter in_flight stable stores m) =
  let h0 := history m ++ [{| place := counter; content := in_flight; carries := fenced m |}] in
  let h1 := h0 ++ map (fun '(l, v) => {| place := l; content := v; carries := length h0 |}) stores in
  h1 ++ [{| place := counter; content := stable; carries := S (length h1) |}].
Proof.
  unfold write_record, close_write, release_store, open_write, release_fence. simpl.
  by destruct (relaxed_stores_spec stores {|
    history := history m ++ [{| place := counter; content := in_flight; carries := fenced m |}];
    fenced := length (history m ++ [{| place := counter; content := in_flight; carries := fenced m |}]) |})
    as [_ ->].
Qed.

Lemma lookup_snoc_inv {A} (l : list A) (y x : A) i : (l ++ [y]) !! i = Some x ->
  l !! i = Some x \/ i = length l /\ x = y.
Proof.
  intros Hi. destruct (decide (i < length l)%nat).
  - left. by rewrite lookup_app_l in Hi.
  - right. assert (i = length l) as ->
      by (apply lookup_lt_Some in Hi; rewrite length_app in Hi; simpl in Hi; lia).
    rewrite lookup_app_r, Nat.sub_diag in Hi by lia. by injection Hi as ->.
Qed.

(** The even counters of an interval: those before it, and the one that closes it. *)
Lemma interval_evens in_flight stable stores m i x : in_flight mod 2 = 1 ->
  Forall (fun s => data s.1) stores ->
  history (write_record counter in_flight stable stores m) !! i = Some x ->
  x.(place) = counter -> x.(content) mod 2 = 0 ->
  history m !! i = Some x \/
  S i = length (history (write_record counter in_flight stable stores m)) /\ x.(content) = stable.
Proof.
  intros Ho Hs. rewrite write_record_history. cbv zeta. set (h0 := history m ++ [_]).
  intros [Hi|[-> ->]]%lookup_snoc_inv Hx He;
    [|right; split; [symmetry; rewrite length_app; apply Nat.add_1_r|done]]. left.
  destruct (decide (i < length h0)%nat) as [Hl|Hl].
  - rewrite lookup_app_l in Hi by done. apply lookup_snoc_inv in Hi as [Hi|[_ ->]]; [done|].
    simpl in He. lia.
  - rewrite lookup_app_r in Hi by lia. apply list_lookup_fmap_Some in Hi as ([l v] & -> & Hlv).
    simpl in Hx. subst l. by apply (Forall_lookup_1 _ _ _ _ Hs) in Hlv.
Qed.

(** What an interval leaves in the counter and in the record. *)
Lemma interval_cells in_flight stable stores m l : Forall (fun s => data s.1) stores ->
  cell_value (history (write_record counter in_flight stable stores m)) counter = stable /\
  (data l -> cell_value (history (write_record counter in_flight stable stores m)) l =
             overlay stores (cell_value (history m)) l).
Proof.
  intros Hs. rewrite write_record_history. cbv zeta. rewrite !cell_value_snoc. simpl.
  rewrite Z.eqb_refl. split; [done|]. intros Hl.
  destruct (Z.eqb_spec counter l) as [->|]; [done|]. rewrite cell_value_stores.
  apply (overlay_ext data); [|done]. intros y Hy. rewrite cell_value_snoc. simpl.
  by destruct (Z.eqb_spec counter y) as [->|].
Qed.

Lemma interval_published in_flight stable stores m : published counter data (history m) ->
  Forall (fun s => data s.1) stores -> in_flight mod 2 = 1 ->
  cell_value (history m) counter < in_flight < stable ->
  published counter data (history (write_record counter in_flight stable stores m)).
Proof.
  intros Hp Hs Ho Hlt. rewrite write_record_history. cbv zeta. set (h0 := history m ++ [_]).
  assert (V0 : cell_value h0 counter = in_flight)
    by (subst h0; rewrite cell_value_snoc; simpl; by rewrite Z.eqb_refl).
  assert (L0 : last_in h0 counter = Some (length (history m)))
    by (subst h0; rewrite last_in_snoc; simpl; by rewrite Z.eqb_refl).
  assert (H0 : published counter data h0).
  { constructor; [done|]. split; simpl; [|done]. intros _. split; [lia|]. lia. }
  constructor.
  - apply published_data_stores; [done|done|by rewrite V0|]. exists (length (history m)).
    split; [done|]. subst h0. rewrite length_app. simpl. lia.
  - split; simpl; [|done]. intros _. rewrite cell_value_stores, overlay_elsewhere; [lia|].
    eapply Forall_impl; [done|]. intros [l v] Hl. simpl in *. by intros ->.
Qed.

Lemma run_leaves_prepare prep m l v : run_leaves prep [] (history m) -> data l ->
  run_leaves (prep ++ [(l, v)]) [] (history (relaxed_store l v m)).
Proof.
  intros [Hp Hc H0 Hd _] Hl. specialize (H0 eq_refl).
  assert (Hne : (l =? counter) = false) by (apply Z.eqb_neq; by intros ->).
  split; simpl.
  - constructor; [done|]. split; simpl; [by intros ->|]. intros _. by left.
  - rewrite cell_value_snoc. simpl. by rewrite Hne.
  - intros _. rewrite last_in_snoc. simpl. by rewrite Hne.
  - intros x Hx. rewrite cell_value_snoc. simpl. unfold contents. simpl. unfold overlay.
    rewrite fold_left_app. simpl. destruct (l =? x); [done|]. by apply Hd.
  - intros i x Hi Hx. exfalso.
    assert (last_in (history m ++ [{| place := l; content := v; carries := fenced m |}]) counter = None)
      as Hn by (rewrite last_in_snoc; simpl; by rewrite Hne).
    by apply (proj1 (last_in_None _ _) Hn i x).
Qed.

Lemma run_leaves_publish prep ps m stores : run_leaves prep ps (history m) ->
  Forall (fun s => data s.1) stores ->
  run_leaves prep (ps ++ [stores]) (history
    (write_record counter (writer_current counter m + 1) (writer_current counter m + 2) stores m)).
Proof.
  intros [Hp Hc _ Hd He] Hs. unfold writer_current, current. rewrite Hc.
  assert (Hodd : (2 * len ps + 1) mod 2 = 1)
    by (rewrite Z.add_comm, Z.mul_comm, Z.mod_add; done || lia).
  pose proof (fun l => interval_cells (2 * len ps + 1) (2 * len ps + 2) stores m l Hs) as Hint.
  set (m' := write_record _ _ _ _ _) in *.
  assert (Hcells : forall l, data l -> cell_value (history m') l = contents (prep :: ps ++ [stores]) l).
  { intros l Hl. rewrite (proj2 (Hint l) Hl), app_comm_cons, contents_snoc.
    apply (overlay_ext data); auto. }
  split; [| |by destruct ps|done|].
  - apply interval_published; [done..|]. rewrite Hc. lia.
  - rewrite (proj1 (Hint counter)), len_app, len_cons, len_nil. lia.
  - intros i x Hi Hx Hev. assert (Hpre : exists t, history m' = history m ++ t)
      by (eexists; subst m'; rewrite write_record_history; cbv zeta; by rewrite <- !app_assoc).
    apply interval_evens in Hi as [Hi|[Hl ->]]; [..|done|done|done|done].
    + destruct (He i x Hi Hx Hev) as (k & Hk & Hck & Hdk). exists k. rewrite length_app.
      split_and!; [lia|lia|done|]. apply lookup_lt_Some in Hi. destruct Hpre as [t ->].
      intros l Hl. rewrite !take_app_le by lia. auto.
    + exists (S (length ps)). rewrite length_app. simpl. split_and!; [lia|lia|unfold len; lia|].
      intros l Hl'. rewrite (take_ge (history m')) by (fold m' in Hl; lia).
      rewrite take_ge by (rewrite length_app; simpl; lia). auto.
Qed.

Lemma writer_run_leaves prep ps m : writer_run prep ps m -> run_leaves prep ps (history m).
Proof.
  induction 1 as [|prep m l v H IH Hl|prep ps m stores H IH Hs|prep ps m l v H IH Hl Hd
    |prep ps m l v H IH Hl Hd|prep ps m H IH].
  - split; try done. constructor.
  - by apply run_leaves_prepare.
  - by apply run_leaves_publish.
  - by apply run_leaves_elsewhere.
  - by apply run_leaves_elsewhere.
  - done.
Qed.

(** Other records' stores and intervals. *)
Definition elsewhere (l : Z) : Prop := l <> counter /\ ~ data l.

Lemma writer_run_stores prep ps m stores : writer_run prep ps m ->
  Forall (fun s => elsewhere s.1) stores -> writer_run prep ps (relaxed_stores stores m).
Proof.
  intros H Hs. revert m H. induction Hs as [|[l v] stores [Hl Hd] Hs IH]; intros m H; [done|].
  apply IH. by apply run_relaxed.
Qed.

Lemma writer_run_record prep ps m counter' in_flight stable stores : writer_run prep ps m ->
  elsewhere counter' -> Forall (fun s => elsewhere s.1) stores ->
  writer_run prep ps (write_record counter' in_flight stable stores m).
Proof.
  intros H [Hc Hd] Hs. unfold write_record, close_write, open_write.
  apply run_release; [|done..]. apply writer_run_stores; [|done]. apply run_fence.
  by apply run_relaxed.
Qed.
End writer.

(** ** Write-once records

    [data] are the cells behind the gate: they are stored before the gate is, and the gate
    is released once, after at most a claim. *)
Section write_once.
Variables (gate : Z) (data : Z -> Prop).

(** Nothing of the record is stored. *)
Definition blank (h : list Message) : Prop :=
  forall j y, h !! j = Some y -> y.(place) <> gate /\ ~ data y.(place).

Record once (value : Z) (f : Z -> Z) (h : list Message) : Prop := {
  once_release : exists i x, h !! i = Some x /\ x.(place) = gate /\ x.(content) = value /\
    (i < x.(carries))%nat /\
    forall j y, h !! j = Some y -> j <> i -> (y.(place) = gate -> y.(content) = GATE_CLAIMED) /\
      (y.(place) = gate \/ data y.(place) -> (j < i)%nat);
  once_cells : forall l, data l -> cell_value h l = f l
}.

Lemma blank_snoc h x : blank h -> x.(place) <> gate -> ~ data x.(place) -> blank (h ++ [x]).
Proof.
  intros H Hg Hd j y [Hj|[-> ->]]%lookup_snoc_inv; [by apply (H j)|done].
Qed.

Lemma once_snoc value f h x : once value f h -> x.(place) <> gate -> ~ data x.(place) ->
  once value f (h ++ [x]).
Proof.
  intros [(i & z & Hi & Hz & Hv & Hc & Ho) Hf] Hg Hd. split.
  - exists i, z. split_and!; try done; [by apply lookup_app_l_Some|].
    intros j y [Hj|[-> ->]]%lookup_snoc_inv Hji; [by apply Ho|split; [done|by intros [?|?]]].
  - intros l Hl. rewrite cell_value_snoc. destruct (Z.eqb_spec x.(place) l) as [<-|]; [done|]. auto.
Qed.

(** A reader that loads the gate's value sees every cell behind it. *)
Lemma once_read value f h n i view g view1 : once value f h ->
  acquire_load (take n h) gate i view = Some (g, view1) -> g <> 0 -> g <> GATE_CLAIMED ->
  g = value /\ forall l, data l -> forall view2 j v view3, (view1.(seen) <= view2.(seen))%nat ->
    relaxed_load (take n h) l j view2 = Some (v, view3) -> v = f l.
Proof.
  intros [(k & x & Hk & Hx & Hv & Hcarry & Ho) Hf]. unfold acquire_load.
  destruct (may_read (take n h) view gate i) eqn:Hm; [|done]. intros [= <- <-] H0 Hcl.
  destruct i as [i|]; [|done].
  apply may_read_Some in Hm as (y & Hi & Hy & _). rewrite (value_at_Some _ _ _ Hi) in *.
  apply lookup_take_Some in Hi as [Hi Hin].
  destruct (decide (i = k)) as [->|Hik]; [|by destruct (proj1 (Ho i y Hi Hik) Hy)].
  rewrite Hk in Hi. injection Hi as <-. split; [done|].
  intros l Hl view2 j v view3 Hs. unfold relaxed_load.
  destruct (may_read (take n h) view2 l j) eqn:Hm2; [|done]. intros [= <- _]. simpl in Hs.
  rewrite (carried_at_Some _ _ x) in Hs by (by rewrite lookup_take_lt by lia).
  assert (Hbefore : forall a z, h !! a = Some z -> z.(place) = l -> (a < k)%nat \/ a = k).
  { intros a z Ha Hz. destruct (decide (a = k)) as [|Hak]; [by right|]. left.
    apply (Ho a z Ha Hak). right. by rewrite Hz. }
  rewrite <- Hf by done. unfold cell_value.
  assert (Hlast : forall w, last_in h l = w -> last_before (take n h) l view2.(seen) = w).
  { intros [a|] E.
    - apply last_in_Some in E as ((z & Hz & Hpz) & Hno). apply last_before_Some.
      assert (a <= k)%nat by (destruct (Hbefore a z Hz Hpz); lia).
      split_and!; [lia|exists z; by rewrite lookup_take_lt by lia|].
      intros b z' Hb (Hz' & _)%lookup_take_Some. apply (Hno b); [lia|done].
    - apply last_before_None. intros b z Hb (Hz & _)%lookup_take_Some.
      by apply (proj1 (last_in_None _ _) E b). }
  specialize (Hlast _ eq_refl). destruct j as [j|].
  - apply may_read_Some in Hm2 as (z & Hj & Hz & Hle). apply lookup_take_Some in Hj as [Hj Hjn].
    rewrite (value_at_Some _ _ z) by (by rewrite lookup_take_lt by lia).
    destruct (last_in h l) as [a|] eqn:E.
    + rewrite Hlast in Hle. specialize (Hle a eq_refl).
      apply last_in_Some in E as ((z' & Hz' & Hpz') & Hno).
      destruct (decide (j = a)) as [->|]; [by rewrite (value_at_Some _ _ _ Hj)|].
      exfalso. apply (Hno j z); [lia|done..].
    + exfalso. by apply (proj1 (last_in_None _ _) E j z).
  - apply may_read_None in Hm2. rewrite Hm2 in Hlast. by rewrite <- Hlast.
Qed.

(** The latest value of the gate is the one that unlocks the record. *)
Lemma once_gate value f h : once value f h -> cell_value h gate = value.
Proof.
  intros [(k & x & Hk & Hx & Hv & _ & Ho) _]. unfold cell_value.
  replace (last_in h gate) with (Some k); [by rewrite (value_at_Some _ _ _ Hk)|]. symmetry.
  apply last_in_Some. split; [by exists x|]. intros j y Hj Hy Hp.
  destruct (decide (j = k)) as [->|Hjk]; [lia|]. destruct (Ho j y Hy Hjk) as [_ Hlt].
  specialize (Hlt (or_introl Hp)). lia.
Qed.

Lemma blank_read h n i view g view1 : blank h ->
  acquire_load (take n h) gate i view = Some (g, view1) -> g = 0.
Proof.
  intros H. unfold acquire_load. destruct (may_read _ _ _ _) eqn:Hm; [|done]. intros [= <- _].
  destruct i as [i|]; [|done]. apply may_read_Some in Hm as (y & Hi & Hy & _).
  apply lookup_take_Some in Hi as [Hi _]. by destruct (H i y Hi).
Qed.
End write_once.

(** ** Undisturbed reads *)

(** The choices of a reader that always loads the latest store. *)
Fixpoint latest_choices {A} (h : list Message) (c : copy A) : list (option nat) :=
  match c with
  | Done _ => []
  | Load l k => last_in h l :: latest_choices h (k (cell_value h l))
  end.

Lemma may_read_latest h view l : may_read h view l (last_in h l) = true.
Proof.
  unfold may_read. destruct (last_in h l) as [i|] eqn:E.
  - pose proof E as [(x & Hx & Hp) Hno]%last_in_Some. rewrite Hx, (proj2 (Z.eqb_eq _ _) Hp).
    destruct (last_before h l view.(seen)) as [j|] eqn:Ej; [|done]. simpl. apply Nat.leb_le.
    apply last_before_Some in Ej as (_ & (y & Hy & Hpy) & _).
    destruct (decide (j <= i)%nat); [done|]. exfalso. apply (Hno j y); [lia|done..].
  - destruct (last_before h l view.(seen)) as [j|] eqn:Ej; [|done].
    apply last_before_Some in Ej as (_ & (y & Hy & Hpy) & _).
    by destruct (proj1 (last_in_None _ _) E j y).
Qed.

Lemma run_copy_latest {A} h (c : copy A) view : exists view', forall rest,
  run_copy h c (latest_choices h c ++ rest) view = Some (settled_copy h c, view', rest).
Proof.
  revert view. induction c as [a|l k IH]; intros view; simpl; [by eexists|].
  unfold relaxed_load. rewrite may_read_latest. simpl. apply IH.
Qed.

Lemma seqlock_loop_latest {A} attempts h counter (c : copy A) stalled moved view :
  0 < cell_value h counter -> cell_value h counter mod 2 = 0 -> exists view', forall rest,
  seqlock_loop (S attempts) h counter c stalled moved
    (last_in h counter :: latest_choices h c ++ last_in h counter :: rest) view
  = Some (Ok (Some (settled_copy h c)), view', rest).
Proof.
  intros H0 He. cbn [seqlock_loop].
  unfold open_read, acquire_load. rewrite may_read_latest. cbn [mbind option_bind].
  fold (cell_value h counter). unfold classify_counter.
  rewrite (proj2 (Z.eqb_neq _ _)), He by lia. cbn [Z.eqb].
  destruct (run_copy_latest h c {| seen := Nat.max view.(seen) (carried_at h (last_in h counter));
    pending := Nat.max view.(pending) (carried_at h (last_in h counter)) |}) as [view1 Hc].
  eexists. intros rest. rewrite Hc. cbn [mbind option_bind].
  unfold close_read, relaxed_load. rewrite may_read_latest. cbn [mbind option_bind].
  fold (cell_value h counter). by rewrite Z.eqb_refl.
Qed.

Lemma under_seqlock_latest {A} h counter (c : copy A) view :
  0 < cell_value h counter -> cell_value h counter mod 2 = 0 -> exists view', forall rest,
  under_seqlock h counter c (last_in h counter :: latest_choices h c ++ last_in h counter :: rest) view
  = Some (Ok (Some (settled_copy h c)), view', rest).
Proof. unfold under_seqlock, MAX_READ_ATTEMPTS. apply seqlock_loop_latest. Qed.

(** *** Any answer of a reader, against the writer's run *)

(** A fault and the attempts it is for: as many as there are, each lost to something the
    writer did, taking exactly the loads of the read, and of the kind the fault names. *)
Definition lost_evidence {A} (h : list Message) (counter : Z) (c : copy A) (attempts : nat)
    (low : Z) (f : SeqlockFault) (loads : list (option nat)) (view view' : View) : Prop :=
  exists lost, length lost = attempts /\ lost_run h counter c lost loads view view' /\
    fault_of_lost f lost /\ Forall (lost_to counter h low) lost.

Lemma seqlock_loop_answers {A} attempts counter (data : Z -> Prop) prep ps m n (c : copy A)
    choices view r view' rest :
  ~ data counter -> writer_run counter data prep ps m -> copies_data data c ->
  let h := take n m.(history) in
  seqlock_loop attempts h counter c None false choices view = Some (r, view', rest) ->
  let known v := value_at h (last_before h counter v.(seen)) in
  match r with
  | Ok (Some a) => exists k, (0 < k <= length ps)%nat /\
      known view <= 2 * Z.of_nat k <= known view' /\
      a = eval_copy (contents (prep :: take k ps)) c
  | Ok None => known view = 0
  | Err f => exists loads, choices = loads ++ rest /\
      lost_evidence h counter c attempts (known view) f loads view view'
  end.
Proof.
  intros Hc Hrun Hd h Hu known. pose proof (writer_run_leaves counter data Hc prep ps m Hrun) as [Hp Hn _ _ He].
  assert (Hh : published counter data h) by by apply published_take.
  assert (Hin : forall i x, h !! i = Some x -> history m !! i = Some x)
    by (intros i x Hx; by apply lookup_take_Some in Hx as [? _]).
  assert (Hmono : forall j i x, h !! i = Some x -> x.(place) = counter ->
    (exists y, h !! j = Some y /\ y.(place) = counter) -> (j <= i)%nat -> value_at h (Some j) <= x.(content)).
  { intros j i x Hi Hx (y & Hy & Hpy) Hji. rewrite (value_at_Some _ _ _ Hy).
    destruct (decide (j = i)) as [->|]; [rewrite Hi in Hy; injection Hy as ->; lia|].
    pose proof (counter_grows counter data h j i y x Hh Hy Hi Hpy Hx ltac:(lia)). lia. }
  pose proof (seqlock_loop_runs _ _ _ _ _ _ _ _ _ _ _ Hu) as (loads & El & Hlost).
  apply (seqlock_loop_sound counter data Hc) in Hu; [|done..].
  destruct r as [[a|]|f]; simpl in Hu.
  - destruct Hu as (i & x & Hi & Hx & H0 & Hev & -> & Hiu & Hlast).
    destruct (He i x (Hin i x Hi) Hx Hev) as (k & Hk & Hck & Hdk). exists k. split_and!; [lia|lia|..].
    + rewrite <- Hck. subst known. cbv beta.
      destruct (last_before h counter view.(seen)) as [j|] eqn:Ej; [|unfold value_at; simpl; lia].
      specialize (Hlast j eq_refl). apply last_before_Some in Ej as (_ & Hy & _).
      by apply (Hmono j i x).
    + rewrite <- Hck. subst known. cbv beta.
      destruct (last_before h counter view'.(seen)) as [j|] eqn:Ej.
      * apply last_before_Some in Ej as (_ & (y & Hy & Hpy) & Hno). rewrite (value_at_Some _ _ _ Hy).
        assert (Hij : (i <= j)%nat)
          by (destruct (decide (i <= j)%nat); [done|]; exfalso; apply (Hno i x); [lia|done..]).
        pose proof (Hmono i j y Hy Hpy (ex_intro _ x (conj Hi Hx)) Hij) as Hle.
        by rewrite (value_at_Some _ _ _ Hi) in Hle.
      * exfalso. by apply (proj1 (last_before_None _ _ _) Ej i x).
    + apply (settled_eval _ _ data); [done|]. intros l Hl. rewrite <- Hdk by done.
      subst h. rewrite take_take. f_equal. f_equal.
      apply lookup_lt_Some in Hi. rewrite length_take in Hi. lia.
  - subst known. cbv beta. by rewrite Hu.
  - exists loads. split; [exact El|]. destruct (Hlost [] f eq_refl eq_refl) as (lost & Hlen & Hr & Hf).
    exists lost. split_and!; [done..|]. by apply (lost_run_to counter data Hc h c lost loads view view').
Qed.

Lemma seqlock_answers {A} counter (data : Z -> Prop) prep ps m n (c : copy A)
    choices view r view' rest :
  ~ data counter -> writer_run counter data prep ps m -> copies_data data c ->
  let h := take n m.(history) in
  under_seqlock h counter c choices view = Some (r, view', rest) ->
  let known v := value_at h (last_before h counter v.(seen)) in
  match r with
  | Ok (Some a) => exists k, (0 < k <= length ps)%nat /\
      known view <= 2 * Z.of_nat k <= known view' /\
      a = eval_copy (contents (prep :: take k ps)) c
  | Ok None => known view = 0
  | Err f => exists loads, choices = loads ++ rest /\
      lost_evidence h counter c MAX_READ_ATTEMPTS (known view) f loads view view'
  end.
Proof. unfold under_seqlock. apply seqlock_loop_answers. Qed.

(** ** Copies whose assertions hold *)

(** Every load is of a permitted cell, and no assertion fails whatever the loads return. *)
Fixpoint safe {A} (P : Z -> Prop) (c : pcopy A) : Prop :=
  match c with Done o => is_Some o | Load l k => P l /\ forall v, safe P (k v) end.

Lemma safe_copies {A} P (c : pcopy A) : safe P c -> copies_data P c.
Proof. induction c as [o|l k IH]; simpl; [done|]. intros [Hl Hk]. split; [done|]. auto. Qed.

Lemma safe_eval {A} P (c : pcopy A) f : safe P c -> is_Some (eval_copy f c).
Proof. induction c as [o|l k IH]; simpl; [done|]. intros [_ Hk]. auto. Qed.

Lemma safe_pret {A} P (a : A) : safe P (pret a).
Proof. by eexists. Qed.

Lemma safe_pbind {A B} P (c : pcopy A) (f : A -> pcopy B) : safe P c ->
  (forall a, safe P (f a)) -> safe P (pbind c f).
Proof.
  intros Hc Hf. induction c as [o|l k IH]; simpl in *.
  - destruct Hc as [a ->]. apply Hf.
  - destruct Hc as [Hl Hk]. split; [done|]. intros v. by apply IH.
Qed.

Lemma safe_load P r width offset : (exists l, ptr r offset width = Some l /\ P l) ->
  safe P (load_word r width offset).
Proof. intros (l & El & Hl). unfold load_word. rewrite El. split; [done|]. intros v. apply safe_pret. Qed.

Lemma safe_pmap {A B} P (f : A -> pcopy B) xs : (forall x, x ∈ xs -> safe P (f x)) ->
  safe P (pmap f xs).
Proof.
  induction xs as [|x xs IH]; intros H; [apply safe_pret|]. simpl. apply safe_pbind.
  - apply H. left.
  - intros y. apply safe_pbind; [|intros ys; apply safe_pret]. apply IH. intros z Hz. apply H. by right.
Qed.

Lemma eval_pbind {A B} f (c : pcopy A) (k : A -> pcopy B) :
  eval_copy f (pbind c k) = eval_copy f c ≫= fun a => eval_copy f (k a).
Proof. induction c as [[a|]|l k' IH]; simpl; [done|done|]. apply IH. Qed.

Lemma eval_load f r width offset l : ptr r offset width = Some l ->
  eval_copy f (load_word r width offset) = Some (f l).
Proof. intros H. unfold load_word. by rewrite H. Qed.

Lemma eval_pmap {A B} f (g : A -> pcopy B) xs ys :
  Forall2 (fun x y => eval_copy f (g x) = Some y) xs ys -> eval_copy f (pmap g xs) = Some ys.
Proof.
  induction 1 as [|x y xs ys Hx _ IH]; [done|]. simpl. rewrite eval_pbind, Hx. simpl.
  by rewrite eval_pbind, IH.
Qed.

(** ** Properties *)

(** The seqlock under release/acquire memory. However the loads of a reader are delayed
    or reordered within what its fences allow, at whatever point of the writer's run it
    reads, a copy it accepts is the record exactly as one publication left it, never a mix
    of two, never older than a publication it already knew of, and known of from then on; it
    reports an unpublished record only before it knew of any; and it gives up only after as
    many attempts as it has, each lost to an interval the writer had opened or to a later
    publication. *)
Theorem seqlock_accepts_one_publication {A} counter (data : Z -> Prop) prep ps m n (c : copy A)
    choices view r view' rest :
  ~ data counter -> writer_run counter data prep ps m -> copies_data data c ->
  let h := take n m.(history) in
  under_seqlock h counter c choices view = Some (r, view', rest) ->
  let known v := value_at h (last_before h counter v.(seen)) in
  match r with
  | Ok (Some a) => exists k, (0 < k <= length ps)%nat /\
      known view <= 2 * Z.of_nat k <= known view' /\
      a = eval_copy (contents (prep :: take k ps)) c
  | Ok None => known view = 0
  | Err f => exists loads, choices = loads ++ rest /\
      lost_evidence h counter c MAX_READ_ATTEMPTS (known view) f loads view view'
  end.
Proof. apply seqlock_answers. Qed.

(** Two publications of a two-word record at 8 and 16 behind the counter at 0. *)
Definition pair_data (l : Z) : Prop := l = 8 \/ l = 16.
Definition pair_copy : copy (Z * Z) := Load 8 (fun x => Load 16 (fun y => Done (x, y))).
Definition publish_pair (x y : Z) (m : Memory) : Memory :=
  write_record 0 (writer_current 0 m + 1) (writer_current 0 m + 2) [(8, x); (16, y)] m.
Definition pair_run : Memory := publish_pair 21 22 (publish_pair 11 12 fresh_memory).

Lemma pair_run_ok :
  writer_run 0 pair_data [] [[(8, 11); (16, 12)]; [(8, 21); (16, 22)]] pair_run.
Proof.
  apply (run_publish 0 pair_data [] [[(8, 11); (16, 12)]] (publish_pair 11 12 fresh_memory)).
  - apply (run_publish 0 pair_data [] [] fresh_memory); [constructor|].
    rewrite !Forall_cons. unfold pair_data. simpl. auto 10.
  - rewrite !Forall_cons. unfold pair_data. simpl. auto 10.
Qed.

(** A load that ran ahead of the reload forces the retry: the odd counter its message
    carries is in the way. *)
Example torn_copy_retried :
  under_seqlock pair_run.(history) 0 pair_copy [Some 3; Some 5; Some 2; Some 3]%nat fresh_view = None /\
  fst <$> (fst <$> under_seqlock pair_run.(history) 0 pair_copy
    [Some 3; Some 5; Some 2; Some 7; Some 7; Some 5; Some 6; Some 7]%nat fresh_view)
  = Some (Ok (Some (21, 22))).
Proof. split; reflexivity. Qed.

Lemma seqlock_accepts_one_publication_witness :
  exists k, (0 < k <= 2)%nat /\ 0 <= 2 * Z.of_nat k <= 2 /\
    (11, 12) = eval_copy (contents ([] :: take k [[(8, 11); (16, 12)]; [(8, 21); (16, 22)]])) pair_copy.
Proof.
  refine (seqlock_accepts_one_publication 0 pair_data [] _ pair_run 8 pair_copy
    [Some 3; Some 1; Some 2; Some 3]%nat fresh_view (Ok (Some (11, 12)))
    {| seen := 4; pending := 4 |} [] _ pair_run_ok _ _).
  - unfold pair_data. lia.
  - unfold pair_copy, pair_data. simpl. auto.
  - reflexivity.
Defined.

(** A reader is never starved by a writer at rest: at any point of a run where the record
    has been published and no interval is open, a reader that loads the latest stores
    succeeds at its first attempt, and gets the last publication. *)
Theorem undisturbed_read_succeeds {A} counter (data : Z -> Prop) prep ps m (c : copy A) view :
  ~ data counter -> writer_run counter data prep ps m -> copies_data data c -> ps <> [] ->
  exists choices view', length choices = (2 + length (latest_choices m.(history) c))%nat /\
    under_seqlock m.(history) counter c choices view =
      Some (Ok (Some (eval_copy (contents (prep :: ps)) c)), view', []).
Proof.
  intros Hc Hrun Hd Hne. pose proof (writer_run_leaves counter data Hc prep ps m Hrun) as [_ Hn _ Hcells _].
  assert (0 < len ps) by (destruct ps; [done|rewrite len_cons; pose proof (len_nonneg ps); lia]).
  destruct (under_seqlock_latest (history m) counter c view) as [view' Hu];
    [lia|rewrite Hn, Z.mul_comm; by apply Z.mod_mul|]. specialize (Hu []).
  rewrite (settled_eval _ (contents (prep :: ps)) data) in Hu by done.
  eexists _, view'. split; [|exact Hu]. simpl. rewrite length_app. simpl. lia.
Qed.

Lemma undisturbed_read_succeeds_witness : exists choices view',
  under_seqlock pair_run.(history) 0 pair_copy choices fresh_view =
    Some (Ok (Some (21, 22)), view', []).
Proof.
  destruct (undisturbed_read_succeeds 0 pair_data [] [[(8, 11); (16, 12)]; [(8, 21); (16, 22)]]
    pair_run pair_copy fresh_view) as (choices & view' & _ & H).
  - unfold pair_data. lia.
  - exact pair_run_ok.
  - unfold pair_copy, pair_data. simpl. auto.
  - done.
  - exists choices, view'. exact H.
Defined.
