(* ===== verification/ShmLayout.v ===== *)
(** * The segment layout and its validation ([src/src/shm/layout.rs])

    Where every record of a segment lies as a function of five capacities, and the header
    and trailer that a reader must find exactly right before it touches anything else. *)

From S2P Require Import Prelude ShmCell.

Definition MAGIC : Z := from_le_bytes (lit "PMWSSTA1").
Definition TRAILER_MAGIC : Z := from_le_bytes (lit "PMWSEND1").
Definition ABI_VERSION : Z := 5.
Definition FEATURE_EVENT_RING_WRAPS : Z := Z.shiftl 1 0.
Definition FEATURE_DOORBELL_IN_HEADER : Z := Z.shiftl 1 1.
Definition FEATURE_DOORBELL_PAGE : Z := Z.shiftl 1 2.
Definition KNOWN_FEATURE_BITS : Z :=
  Z.lor (Z.lor FEATURE_EVENT_RING_WRAPS FEATURE_DOORBELL_IN_HEADER) FEATURE_DOORBELL_PAGE.
Definition DEFAULT_EVENT_CAPACITY : Z := 1024.
Definition DEFAULT_DIRTY_CAPACITY : Z := 4096.
Definition NO_STATE_SLOT : Z := U32_MAX.

Definition HEADER_BYTES : Z := 256.
Definition TRAILER_BYTES : Z := REGION_ALIGNMENT.
Definition DIRECTORY_ENTRY_BYTES : Z := 512.
Definition IDENTITY_CAPACITY : Z := DIRECTORY_ENTRY_BYTES - 16.
Definition SLOT_PREFIX_BYTES : Z := 256.
Definition LEVEL_CELL_BYTES : Z := 64.
Definition DECIMAL_CELL_BYTES : Z := 24.
Definition NATIVE_FAMILY_WORDS : Z := 8.
Definition NATIVE_FAMILY_CAPACITY : Z := NATIVE_FAMILY_WORDS * 8.
Definition EVENT_SLOT_BYTES : Z := 256.
Definition DIRTY_SLOT_BYTES : Z := 32.
Definition MAX_DIRECTORY_CAPACITY : Z := 65536.
Definition MAX_STATE_SLOT_CAPACITY : Z := 65536.
Definition MAX_EVENT_CAPACITY : Z := 65536.
Definition MAX_DIRTY_CAPACITY : Z := 1048576.
Definition MAX_LEVEL_CAPACITY : Z := 4096.
Definition RES_OUTCOME_WORDS : Z := 8.
Definition RES_TYPE_WORDS : Z := 4.
Definition RES_DATE_WORDS : Z := 4.
Definition RES_OUTCOME_CAPACITY : Z := RES_OUTCOME_WORDS * 8.
Definition RES_TYPE_CAPACITY : Z := RES_TYPE_WORDS * 8.
Definition RES_DATE_CAPACITY : Z := RES_DATE_WORDS * 8.
Definition DELIVERY_LEVEL_MUTATION : Z := 1.
Definition DELIVERY_MARKET_RESOLVED : Z := 3.

(** ** Offsets inside a record *)

Definition HDR_MAGIC : Z := 0.
Definition HDR_ABI_VERSION : Z := 8.
Definition HDR_REGION_ALIGNMENT : Z := 12.
Definition HDR_REGION_SIZE : Z := 16.
Definition HDR_INSTANCE_LOW : Z := 24.
Definition HDR_INSTANCE_HIGH : Z := 32.
Definition HDR_SEGMENT_GENERATION : Z := 40.
Definition HDR_DIRECTORY_OFFSET : Z := 48.
Definition HDR_DIRECTORY_STRIDE : Z := 56.
Definition HDR_DIRECTORY_CAPACITY : Z := 60.
Definition HDR_SLOT_OFFSET : Z := 64.
Definition HDR_SLOT_STRIDE : Z := 72.
Definition HDR_SLOT_CAPACITY : Z := 76.
Definition HDR_LEVEL_CAPACITY : Z := 80.
Definition HDR_LEVEL_STRIDE : Z := 84.
Definition HDR_IDENTITY_CAPACITY : Z := 88.
Definition HDR_FAMILY_CAPACITY : Z := 92.
Definition HDR_TRAILER_OFFSET : Z := 96.
Definition HDR_FEATURE_BITS : Z := 104.
Definition HDR_EVENT_OFFSET : Z := 112.
Definition HDR_EVENT_CAPACITY : Z := 120.
Definition HDR_EVENT_STRIDE : Z := 124.
Definition HDR_PUBLICATION_GENERATION : Z := 128.
Definition HDR_DOORBELL : Z := 136.
Definition HDR_DIRTY_OFFSET : Z := 144.
Definition HDR_DIRTY_CAPACITY : Z := 152.
Definition HDR_DIRTY_STRIDE : Z := 156.

Definition TRL_REGION_SIZE : Z := 0.
Definition TRL_MAGIC : Z := 8.

Definition ENT_REVISION : Z := 0.
Definition ENT_SLOT_INDEX : Z := 8.
Definition ENT_IDENTITY_LEN : Z := 12.
Definition ENT_IDENTITY : Z := 16.

Definition SLOT_REVISION : Z := 0.
Definition SLOT_BOOK_REVISION : Z := 8.
Definition SLOT_CONTINUITY_EPOCH : Z := 16.
Definition SLOT_CONTINUITY_POSITION : Z := 24.
Definition SLOT_SYNC_DIVERGENCES : Z := 32.
Definition SLOT_AUTHORITY_STATE : Z := 40.
Definition SLOT_AUTHORITY_REASON : Z := 44.
Definition SLOT_CONTINUITY_KIND : Z := 48.
Definition SLOT_CONTINUITY_REASON : Z := 52.
Definition SLOT_PROVENANCE_PRESENT : Z := 56.
Definition SLOT_ORIGIN : Z := 60.
Definition SLOT_DERIVATION : Z := 64.
Definition SLOT_REPRESENTATION : Z := 68.
Definition SLOT_FAMILY_LEN : Z := 72.
Definition SLOT_LEVEL_COUNT : Z := 76.
Definition SLOT_DIRECTORY_INDEX : Z := 80.
Definition SLOT_COMMIT_TIME : Z := 88.
Definition SLOT_ARRIVAL_TIME : Z := 96.
Definition SLOT_FAMILY_WORDS : Z := 128.

Definition EVT_SEQUENCE : Z := 0.
Definition EVT_CURSOR_EPOCH : Z := 8.
Definition EVT_CURSOR_POSITION : Z := 16.
Definition EVT_BOOK_REVISION : Z := 24.
Definition EVT_COMMIT_TIME : Z := 32.
Definition EVT_DELIVERY_KIND : Z := 40.
Definition EVT_ORIGIN : Z := 44.
Definition EVT_DERIVATION : Z := 48.
Definition EVT_REPRESENTATION : Z := 52.
Definition EVT_SIDE : Z := 56.
Definition EVT_OLD_PRESENT : Z := 60.
Definition EVT_NEW_PRESENT : Z := 64.
Definition EVT_FAMILY_LEN : Z := 68.
Definition EVT_DIRECTORY_INDEX : Z := 72.
Definition EVT_DAEMON_GENERATION : Z := 80.
Definition EVT_SUBSCRIPTION_GENERATION : Z := 88.
Definition EVT_PRICE : Z := 96.
Definition EVT_OLD_QUANTITY : Z := 120.
Definition EVT_NEW_QUANTITY : Z := 144.
Definition EVT_FAMILY_WORDS : Z := 168.
Definition EVT_ARRIVAL_TIME : Z := 232.
Definition EVT_RES_WINNING_INDEX : Z := 56.
Definition EVT_RES_DELIVERY_PATH : Z := 60.
Definition EVT_RES_OUTCOME_LEN : Z := 64.
Definition EVT_RES_TYPE_LEN : Z := 68.
Definition EVT_RES_DATE_LEN : Z := 96.
Definition EVT_RES_OUTCOME : Z := 104.
Definition EVT_RES_TYPE : Z := 168.
Definition EVT_RES_DATE : Z := 200.

Definition DIRTY_SEQUENCE : Z := 0.
Definition DIRTY_POSITION : Z := 8.
Definition DIRTY_DIRECTORY_INDEX : Z := 16.
Definition DIRTY_BOOK_REVISION : Z := 24.

Definition LVL_PRICE : Z := 0.
Definition LVL_QUANTITY : Z := 24.
Definition LVL_SIDE : Z := 48.

Definition DEC_COEFFICIENT_LOW : Z := 0.
Definition DEC_COEFFICIENT_HIGH : Z := 8.
Definition DEC_SCALE : Z := 16.

(** ** The layout *)

Inductive LayoutError : Set :=
| CapacityZero | CapacityTooLarge | StateSlotsBelowDirectory | EventCapacityNotPowerOfTwo
| DirtyCapacityNotPowerOfTwo | RegionTooLarge.

Inductive SegmentFault : Set :=
| RegionTooSmall (size : Z)
| RegionMisaligned (size : Z)
| HeaderUnpublished
| MagicMismatch (found : Z)
| AbiVersionUnsupported (found expected : Z)
| AlignmentMismatch (found expected : Z)
| RegionSizeMismatch (declared actual : Z)
| CapacityOutOfRange
| FeatureUnsupported (bits : Z)
| GeometryMismatch
| TrailerMismatch
| GeometryUnreachable.

#[export] Instance LayoutError_eq_dec : EqDecision LayoutError.
Proof. solve_decision. Defined.
#[export] Instance SegmentFault_eq_dec : EqDecision SegmentFault.
Proof. solve_decision. Defined.

Record SegmentLayout : Set := {
  directory_capacity : Z;
  state_slot_capacity : Z;
  level_capacity : Z;
  event_capacity : Z;
  dirty_capacity : Z
}.

#[export] Instance SegmentLayout_eq_dec : EqDecision SegmentLayout.
Proof. solve_decision. Defined.

(** [value.div_ceil(REGION_ALIGNMENT) * REGION_ALIGNMENT]. *)
Definition div_ceil (a b : Z) : Z := if a mod b =? 0 then a / b else a / b + 1.
Definition round_up (value : Z) : Z := div_ceil value REGION_ALIGNMENT * REGION_ALIGNMENT.

(** [u32::is_power_of_two] and [u64::count_ones]. *)
Definition is_power_of_two (n : Z) : bool := (0 <? n) && (Z.land n (n - 1) =? 0).
Definition count_ones (n : Z) : Z :=
  foldr (fun i acc => Z.b2z (Z.testbit n (Z.of_nat i)) + acc) 0 (seq 0 64).

Section layout.
Variable self : SegmentLayout.

Definition event_position_mask : Z := self.(event_capacity) - 1.
Definition event_ring_bytes : Z := self.(event_capacity) * EVENT_SLOT_BYTES.
Definition dirty_position_mask : Z := self.(dirty_capacity) - 1.
Definition dirty_ring_bytes : Z := self.(dirty_capacity) * DIRTY_SLOT_BYTES.
Definition state_slot_stride : Z :=
  round_up (SLOT_PREFIX_BYTES + self.(level_capacity) * LEVEL_CELL_BYTES).
Definition directory_offset : Z := HEADER_BYTES.
Definition state_slot_offset : Z :=
  directory_offset + self.(directory_capacity) * DIRECTORY_ENTRY_BYTES.
Definition event_offset : Z := state_slot_offset + self.(state_slot_capacity) * state_slot_stride.
Definition dirty_offset : Z := event_offset + self.(directory_capacity) * event_ring_bytes.
Definition trailer_offset : Z := dirty_offset + dirty_ring_bytes.
Definition region_size : Z := trailer_offset + TRAILER_BYTES.
End layout.

Definition layout_new (directory_capacity state_slot_capacity level_capacity event_capacity
    dirty_capacity : Z) : result SegmentLayout LayoutError :=
  refuse (directory_capacity =? 0) || (state_slot_capacity =? 0) || (level_capacity =? 0)
         || (event_capacity =? 0) || (dirty_capacity =? 0) with CapacityZero ;;
  refuse (MAX_DIRECTORY_CAPACITY <? directory_capacity)
         || (MAX_STATE_SLOT_CAPACITY <? state_slot_capacity)
         || (MAX_LEVEL_CAPACITY <? level_capacity)
         || (MAX_EVENT_CAPACITY <? event_capacity)
         || (MAX_DIRTY_CAPACITY <? dirty_capacity) with CapacityTooLarge ;;
  refuse (state_slot_capacity <? directory_capacity) with StateSlotsBelowDirectory ;;
  refuse negb (is_power_of_two event_capacity) with EventCapacityNotPowerOfTwo ;;
  refuse negb (is_power_of_two dirty_capacity) with DirtyCapacityNotPowerOfTwo ;;
  let layout := {| directory_capacity := directory_capacity;
                   state_slot_capacity := state_slot_capacity;
                   level_capacity := level_capacity; event_capacity := event_capacity;
                   dirty_capacity := dirty_capacity |} in
  refuse (MAX_REGION_BYTES <? region_size layout) with RegionTooLarge ;;
  Ok layout.

(** ** Records of a segment *)

Definition header_record (size : Z) : result CellRecord SegmentFault :=
  ok_or (record size 0 HEADER_BYTES) GeometryUnreachable.
Definition trailer_record (size : Z) : result CellRecord SegmentFault :=
  ok_or (record size (size - TRAILER_BYTES) TRAILER_BYTES) GeometryUnreachable.
Definition directory_record (size : Z) (layout : SegmentLayout) (index : Z) :
    result CellRecord SegmentFault :=
  refuse (layout.(directory_capacity) <=? index) with GeometryUnreachable ;;
  ok_or (record size (directory_offset + index * DIRECTORY_ENTRY_BYTES) DIRECTORY_ENTRY_BYTES)
    GeometryUnreachable.
Definition state_slot_record (size : Z) (layout : SegmentLayout) (index : Z) :
    result CellRecord SegmentFault :=
  refuse (layout.(state_slot_capacity) <=? index) with GeometryUnreachable ;;
  ok_or (record size (state_slot_offset layout + index * state_slot_stride layout)
           (state_slot_stride layout)) GeometryUnreachable.
Definition event_slot_record (size : Z) (layout : SegmentLayout) (entry_index position : Z) :
    result CellRecord SegmentFault :=
  refuse (layout.(directory_capacity) <=? entry_index) with GeometryUnreachable ;;
  let ring_base := event_offset layout + entry_index * event_ring_bytes layout in
  let slot := Z.land position (event_position_mask layout) in
  ok_or (record size (ring_base + slot * EVENT_SLOT_BYTES) EVENT_SLOT_BYTES) GeometryUnreachable.
Definition dirty_slot_record (size : Z) (layout : SegmentLayout) (position : Z) :
    result CellRecord SegmentFault :=
  let slot := Z.land position (dirty_position_mask layout) in
  ok_or (record size (dirty_offset layout + slot * DIRTY_SLOT_BYTES) DIRTY_SLOT_BYTES)
    GeometryUnreachable.

(** ** Validation

    [cell] is what a load of each place of the region returns. An access outside its record
    is the assertion of [Record::ptr] failing, [None] here. *)

Record SegmentGeometry : Set := {
  daemon_instance_id : Z; segment_generation : Z; layout : SegmentLayout
}.

Definition word32 (cell : Z -> Z) (r : CellRecord) (offset : Z) : option Z :=
  cell <$> ptr r offset 4.
Definition word64 (cell : Z -> Z) (r : CellRecord) (offset : Z) : option Z :=
  cell <$> ptr r offset 8.

(** The gate of a published record; [Some None] when it is not published. *)
Definition published_gate (cell : Z -> Z) (r : CellRecord) (gate_offset : Z) : option (option Z) :=
  gate ← word64 cell r gate_offset;
  Some (if negb (gate =? 0) && negb (gate =? GATE_CLAIMED) then Some gate else None).

(** [refuse! b with e ;; k] and [x <-?! e ;; k] are early returns under a panic. *)
Notation "'refuse!' b 'with' err ;; k" := (if b then Some (Err err) else k)
  (at level 100, b at next level, err at next level, right associativity).
Notation "x <-?! e ;; k" := (match e with Ok x => k | Err err => Some (Err err) end)
  (at level 100, e at next level, right associativity).

Definition validate (cell : Z -> Z) (size : Z) : option (result SegmentGeometry SegmentFault) :=
  refuse! negb (size mod REGION_ALIGNMENT =? 0) with RegionMisaligned size ;;
  refuse! (size <? HEADER_BYTES + TRAILER_BYTES) with RegionTooSmall size ;;
  header <-?! header_record size ;;
  gate ← published_gate cell header HDR_MAGIC;
  gate <-?! ok_or gate HeaderUnpublished ;;
  refuse! negb (gate =? MAGIC) with MagicMismatch gate ;;
  abi_version ← word32 cell header HDR_ABI_VERSION;
  refuse! negb (abi_version =? ABI_VERSION) with AbiVersionUnsupported abi_version ABI_VERSION ;;
  alignment ← word32 cell header HDR_REGION_ALIGNMENT;
  refuse! negb (alignment =? REGION_ALIGNMENT)
    with AlignmentMismatch alignment REGION_ALIGNMENT ;;
  declared_size ← word64 cell header HDR_REGION_SIZE;
  refuse! negb (declared_size =? size) with RegionSizeMismatch declared_size size ;;
  features ← word64 cell header HDR_FEATURE_BITS;
  let doorbell := Z.land features (Z.lor FEATURE_DOORBELL_IN_HEADER FEATURE_DOORBELL_PAGE) in
  refuse! negb (Z.land features (Z.lnot KNOWN_FEATURE_BITS) =? 0)
          || (Z.land features FEATURE_EVENT_RING_WRAPS =? 0)
          || negb (count_ones doorbell =? 1) with FeatureUnsupported features ;;
  directory_capacity ← word32 cell header HDR_DIRECTORY_CAPACITY;
  slot_capacity ← word32 cell header HDR_SLOT_CAPACITY;
  level_capacity ← word32 cell header HDR_LEVEL_CAPACITY;
  event_capacity ← word32 cell header HDR_EVENT_CAPACITY;
  dirty_capacity ← word32 cell header HDR_DIRTY_CAPACITY;
  layout <-?! map_err (fun _ => CapacityOutOfRange)
    (layout_new directory_capacity slot_capacity level_capacity event_capacity dirty_capacity) ;;
  d_offset ← word64 cell header HDR_DIRECTORY_OFFSET;
  d_stride ← word32 cell header HDR_DIRECTORY_STRIDE;
  s_offset ← word64 cell header HDR_SLOT_OFFSET;
  s_stride ← word32 cell header HDR_SLOT_STRIDE;
  l_stride ← word32 cell header HDR_LEVEL_STRIDE;
  identity_capacity ← word32 cell header HDR_IDENTITY_CAPACITY;
  family_capacity ← word32 cell header HDR_FAMILY_CAPACITY;
  e_offset ← word64 cell header HDR_EVENT_OFFSET;
  e_stride ← word32 cell header HDR_EVENT_STRIDE;
  dirty_offset' ← word64 cell header HDR_DIRTY_OFFSET;
  dirty_stride ← word32 cell header HDR_DIRTY_STRIDE;
  t_offset ← word64 cell header HDR_TRAILER_OFFSET;
  refuse! negb (region_size layout =? size)
          || negb (d_offset =? directory_offset)
          || negb (d_stride =? DIRECTORY_ENTRY_BYTES)
          || negb (s_offset =? state_slot_offset layout)
          || negb (s_stride =? state_slot_stride layout)
          || negb (l_stride =? LEVEL_CELL_BYTES)
          || negb (identity_capacity =? IDENTITY_CAPACITY)
          || negb (family_capacity =? NATIVE_FAMILY_CAPACITY)
          || negb (e_offset =? event_offset layout)
          || negb (e_stride =? EVENT_SLOT_BYTES)
          || negb (dirty_offset' =? dirty_offset layout)
          || negb (dirty_stride =? DIRTY_SLOT_BYTES)
          || negb (t_offset =? trailer_offset layout) with GeometryMismatch ;;
  trailer <-?! trailer_record size ;;
  trailer_gate ← published_gate cell trailer TRL_MAGIC;
  trailer_gate <-?! ok_or trailer_gate TrailerMismatch ;;
  trailer_size ← word64 cell trailer TRL_REGION_SIZE;
  refuse! negb (trailer_gate =? TRAILER_MAGIC) || negb (trailer_size =? size)
    with TrailerMismatch ;;
  high ← word64 cell header HDR_INSTANCE_HIGH;
  low ← word64 cell header HDR_INSTANCE_LOW;
  generation ← word64 cell header HDR_SEGMENT_GENERATION;
  Some (Ok {| daemon_instance_id := Z.lor (Z.shiftl high 64) low;
              segment_generation := generation; layout := layout |}).

(** ** Arithmetic of the layout *)

Lemma power_of_two_spec n : is_power_of_two n = true -> exists k, 0 <= k /\ n = 2 ^ k.
Proof.
  unfold is_power_of_two. intros [Hn Hl]%andb_true_iff. bool_facts.
  set (k := Z.log2 n). pose proof (Z.log2_nonneg n) as Hk. destruct (Z.log2_spec n Hn) as [H1 H2].
  fold k in Hk, H1, H2. exists k. split; [done|].
  destruct (Z.eq_dec n (2 ^ k)) as [|Hne]; [done|]. exfalso.
  assert (Hb : Z.testbit (Z.land n (n - 1)) k = true); [|by rewrite Hl, Z.bits_0 in Hb].
  rewrite Z.land_spec. subst k. rewrite Z.bit_log2 by done. simpl.
  pose proof (Z.pow_pos_nonneg 2 (Z.log2 n) ltac:(lia) Hk).
  assert (Z.log2 (n - 1) = Z.log2 n) as <- by (apply Z.log2_unique; lia).
  apply Z.bit_log2. lia.
Qed.

Lemma power_of_two_mask n p : is_power_of_two n = true -> Z.land p (n - 1) = p mod n.
Proof.
  intros (k & Hk & ->)%power_of_two_spec.
  replace (2 ^ k - 1) with (Z.ones k) by (rewrite Z.ones_equiv; lia). by apply Z.land_ones.
Qed.

Lemma round_up_spec v : 0 <= v -> v <= round_up v < v + 128 /\ round_up v mod 128 = 0.
Proof.
  intros Hv. unfold round_up, div_ceil, REGION_ALIGNMENT. pose proof (Z_div_mod_eq_full v 128).
  pose proof (Z.mod_pos_bound v 128 ltac:(lia)).
  split; [|apply Z.mod_mul; lia]. destruct (Z.eqb_spec (v mod 128) 0); lia.
Qed.

Record layout_wf (l : SegmentLayout) : Prop := {
  wf_directory : 1 <= l.(directory_capacity) <= l.(state_slot_capacity);
  wf_slots : l.(state_slot_capacity) <= MAX_STATE_SLOT_CAPACITY;
  wf_levels : 1 <= l.(level_capacity) <= MAX_LEVEL_CAPACITY;
  wf_events : 1 <= l.(event_capacity) <= MAX_EVENT_CAPACITY;
  wf_dirty : 1 <= l.(dirty_capacity) <= MAX_DIRTY_CAPACITY;
  wf_event_ring : is_power_of_two l.(event_capacity) = true;
  wf_dirty_ring : is_power_of_two l.(dirty_capacity) = true;
  wf_region : region_size l <= MAX_REGION_BYTES
}.

Lemma layout_new_Ok d s v e q l : 0 <= d -> 0 <= s -> 0 <= v -> 0 <= e -> 0 <= q ->
  layout_new d s v e q = Ok l <->
  l = {| directory_capacity := d; state_slot_capacity := s; level_capacity := v;
         event_capacity := e; dirty_capacity := q |} /\ layout_wf l.
Proof.
  intros Hd Hs Hv He Hq. unfold layout_new. split.
  - repeat (case_match; [done|]). intros [= <-]. bool_facts. split; [done|].
    split; simpl; try done; unfold MAX_DIRECTORY_CAPACITY in *; lia.
  - intros [-> [Wd Ws Wv We Wq Pe Pq Wr]]. simpl in *.
    unfold MAX_DIRECTORY_CAPACITY, MAX_STATE_SLOT_CAPACITY, MAX_LEVEL_CAPACITY,
      MAX_EVENT_CAPACITY, MAX_DIRTY_CAPACITY in *.
    assert (Z0 : forall x, 1 <= x -> (x =? 0) = false) by (intros x Hx; apply Z.eqb_neq; lia).
    assert (Zl : forall a b, b <= a -> (a <? b) = false) by (intros a b Hx; apply Z.ltb_ge; lia).
    rewrite !Z0, !Zl, Pe, Pq by lia. simpl. done.
Qed.

(** ** Every record of a segment *)

Inductive Part : Set :=
| HeaderPart | TrailerPart | DirectoryPart (index : Z) | SlotPart (index : Z)
| EventPart (entry position : Z) | DirtyPart (position : Z).

Definition part_record (l : SegmentLayout) (p : Part) : result CellRecord SegmentFault :=
  let size := region_size l in
  match p with
  | HeaderPart => header_record size
  | TrailerPart => trailer_record size
  | DirectoryPart i => directory_record size l i
  | SlotPart i => state_slot_record size l i
  | EventPart e n => event_slot_record size l e n
  | DirtyPart n => dirty_slot_record size l n
  end.

Definition part_valid (l : SegmentLayout) (p : Part) : Prop :=
  match p with
  | HeaderPart | TrailerPart => True
  | DirectoryPart i => 0 <= i < l.(directory_capacity)
  | SlotPart i => 0 <= i < l.(state_slot_capacity)
  | EventPart e n => 0 <= e < l.(directory_capacity) /\ 0 <= n <= U64_MAX
  | DirtyPart n => 0 <= n <= U64_MAX
  end.

(** Positions a whole lap apart share a slot. *)
Definition same_part (l : SegmentLayout) (p q : Part) : Prop :=
  match p, q with
  | HeaderPart, HeaderPart | TrailerPart, TrailerPart => True
  | DirectoryPart i, DirectoryPart j | SlotPart i, SlotPart j => i = j
  | EventPart e n, EventPart f k =>
      e = f /\ n mod l.(event_capacity) = k mod l.(event_capacity)
  | DirtyPart n, DirtyPart k => n mod l.(dirty_capacity) = k mod l.(dirty_capacity)
  | _, _ => False
  end.

Definition part_base (l : SegmentLayout) (p : Part) : Z :=
  match p with
  | HeaderPart => 0
  | TrailerPart => trailer_offset l
  | DirectoryPart i => directory_offset + i * DIRECTORY_ENTRY_BYTES
  | SlotPart i => state_slot_offset l + i * state_slot_stride l
  | EventPart e n => event_offset l + e * event_ring_bytes l
                     + n mod l.(event_capacity) * EVENT_SLOT_BYTES
  | DirtyPart n => dirty_offset l + n mod l.(dirty_capacity) * DIRTY_SLOT_BYTES
  end.
Definition part_size (l : SegmentLayout) (p : Part) : Z :=
  match p with
  | HeaderPart => HEADER_BYTES
  | TrailerPart => TRAILER_BYTES
  | DirectoryPart _ => DIRECTORY_ENTRY_BYTES
  | SlotPart _ => state_slot_stride l
  | EventPart _ _ => EVENT_SLOT_BYTES
  | DirtyPart _ => DIRTY_SLOT_BYTES
  end.

Ltac layout_consts :=
  unfold HEADER_BYTES, TRAILER_BYTES, DIRECTORY_ENTRY_BYTES, EVENT_SLOT_BYTES, DIRTY_SLOT_BYTES,
    REGION_ALIGNMENT, SLOT_PREFIX_BYTES, LEVEL_CELL_BYTES, MAX_STATE_SLOT_CAPACITY,
    MAX_LEVEL_CAPACITY, MAX_EVENT_CAPACITY, MAX_DIRTY_CAPACITY in *.

Section parts.
Context (l : SegmentLayout) (Hl : layout_wf l).

Lemma stride_spec : 256 + l.(level_capacity) * 64 <= state_slot_stride l /\
  state_slot_stride l mod 128 = 0.
Proof.
  destruct Hl as [_ _ Hv _ _ _ _ _]. layout_consts. unfold state_slot_stride. layout_consts.
  pose proof (round_up_spec (256 + level_capacity l * 64)). lia.
Qed.

(** The sections in their order. *)
Lemma sections_ordered :
  state_slot_offset l = 256 + l.(directory_capacity) * 512 /\
  event_offset l = state_slot_offset l + l.(state_slot_capacity) * state_slot_stride l /\
  dirty_offset l = event_offset l + l.(directory_capacity) * event_ring_bytes l /\
  trailer_offset l = dirty_offset l + l.(dirty_capacity) * 32 /\
  region_size l = trailer_offset l + 128 /\ event_ring_bytes l = l.(event_capacity) * 256.
Proof. done. Qed.

(** The [i]th of [n] records lies inside the array, and distinct ones do not meet. *)
Lemma array_bounds n stride i : 0 <= i < n -> 0 <= stride ->
  0 <= i * stride /\ i * stride + stride <= n * stride.
Proof. nia. Qed.
Lemma array_disjoint stride i j : 0 <= stride -> i <> j ->
  i * stride + stride <= j * stride \/ j * stride + stride <= i * stride.
Proof. intros Hs Hij. destruct (Z.lt_total i j) as [|[|]]; [left; nia|lia|right; nia]. Qed.

Definition block_start (p : Part) : Z :=
  match p with
  | HeaderPart => 0
  | DirectoryPart _ => 256
  | SlotPart _ => state_slot_offset l
  | EventPart _ _ => event_offset l
  | DirtyPart _ => dirty_offset l
  | TrailerPart => trailer_offset l
  end.
Definition block_end (p : Part) : Z :=
  match p with
  | HeaderPart => 256
  | DirectoryPart _ => state_slot_offset l
  | SlotPart _ => event_offset l
  | EventPart _ _ => dirty_offset l
  | DirtyPart _ => trailer_offset l
  | TrailerPart => region_size l
  end.

Lemma part_in_block p : part_valid l p ->
  block_start p <= part_base l p /\ part_base l p + part_size l p <= block_end p.
Proof.
  pose proof stride_spec as [Hst _]. destruct sections_ordered as (E1 & E2 & E3 & E4 & E5 & E6).
  destruct Hl as [Hd Hs Hv He Hq _ _ _]. layout_consts.
  destruct p as [| |i|i|e n|n]; simpl; intros Hp; layout_consts; unfold directory_offset.
  - layout_consts. lia.
  - lia.
  - layout_consts. lia.
  - pose proof (array_bounds (state_slot_capacity l) (state_slot_stride l) i Hp). lia.
  - pose proof (Z.mod_pos_bound n (event_capacity l) ltac:(lia)).
    pose proof (array_bounds (directory_capacity l) (event_ring_bytes l) e). lia.
  - pose proof (Z.mod_pos_bound n (dirty_capacity l) ltac:(lia)). lia.
Qed.

Lemma blocks_ordered : 0 <= 256 <= state_slot_offset l /\
  state_slot_offset l <= event_offset l <= dirty_offset l /\
  dirty_offset l <= trailer_offset l <= region_size l.
Proof.
  pose proof stride_spec as [Hst _]. destruct sections_ordered as (E1 & E2 & E3 & E4 & E5 & E6).
  destruct Hl as [Hd Hs Hv He Hq _ _ _]. layout_consts. nia.
Qed.

Lemma part_bounds p : part_valid l p ->
  0 <= part_base l p /\ part_base l p + part_size l p <= region_size l.
Proof.
  intros Hp. pose proof (part_in_block p Hp). pose proof blocks_ordered.
  destruct p; simpl block_start in *; simpl block_end in *; lia.
Qed.

Lemma mod_add_zero a b m : 0 < m -> a mod m = 0 -> b mod m = 0 -> (a + b) mod m = 0.
Proof. intros Hm Ha Hb. rewrite Z.add_mod, Ha, Hb by lia. apply Z.mod_0_l. lia. Qed.
Lemma mod_mul_zero a b m : 0 < m -> b mod m = 0 -> (a * b) mod m = 0.
Proof. intros Hm Hb. rewrite Z.mul_mod, Hb, Z.mul_0_r by lia. apply Z.mod_0_l. lia. Qed.

Lemma stride_mod8 : state_slot_stride l mod 8 = 0.
Proof.
  destruct stride_spec as [_ H]. pose proof (Z_div_mod_eq_full (state_slot_stride l) 128) as E.
  rewrite E, H, Z.add_0_r. replace (128 * _) with (16 * (state_slot_stride l / 128) * 8) by lia.
  apply Z.mod_mul. lia.
Qed.

Lemma part_aligned p : part_base l p mod 8 = 0.
Proof.
  assert (Hm : forall k n, (8 * k * n) mod 8 = 0)
    by (intros k n; replace (8 * k * n) with (k * n * 8) by lia; apply Z.mod_mul; lia).
  assert (E1 : state_slot_offset l mod 8 = 0).
  { unfold state_slot_offset, directory_offset. layout_consts.
    apply mod_add_zero; [lia|done|]. by apply mod_mul_zero. }
  assert (E2 : event_offset l mod 8 = 0)
    by (apply mod_add_zero; [lia|done|apply mod_mul_zero; [lia|apply stride_mod8]]).
  assert (E3 : event_ring_bytes l mod 8 = 0) by (apply mod_mul_zero; done || lia).
  assert (E4 : dirty_offset l mod 8 = 0)
    by (apply mod_add_zero; [lia|done|apply mod_mul_zero; [lia|done]]).
  destruct p; simpl part_base; repeat apply mod_add_zero; try lia; try done;
    (apply mod_mul_zero; [lia|]); done || apply stride_mod8.
Qed.

(** Each record accessor gives exactly the extent of its part. *)
Lemma part_record_Ok p : part_valid l p ->
  part_record l p = Ok {| rec_base := part_base l p; rec_size := part_size l p |}.
Proof.
  intros Hp. pose proof (part_bounds p Hp) as Hb. pose proof (part_aligned p) as Ha.
  assert (Hr : record (region_size l) (part_base l p) (part_size l p) =
    Some {| rec_base := part_base l p; rec_size := part_size l p |}).
  { unfold record. rewrite Ha. simpl. rewrite !(proj2 (Z.ltb_ge _ _)); [done|lia|lia]. }
  destruct Hl as [Hd Hs Hv He Hq Pe Pq _].
  destruct p as [| |i|i|e n|n]; simpl in *; try done.
  - unfold header_record. by rewrite Hr.
  - unfold trailer_record.
    replace (region_size l - TRAILER_BYTES) with (trailer_offset l) by (unfold region_size; lia).
    by rewrite Hr.
  - unfold directory_record. rewrite (proj2 (Z.leb_gt _ _)) by lia. by rewrite Hr.
  - unfold state_slot_record. rewrite (proj2 (Z.leb_gt _ _)) by lia. by rewrite Hr.
  - unfold event_slot_record. rewrite (proj2 (Z.leb_gt _ _)) by lia.
    unfold event_position_mask. rewrite power_of_two_mask by done. by rewrite Hr.
  - unfold dirty_slot_record, dirty_position_mask. rewrite power_of_two_mask by done. by rewrite Hr.
Qed.

Lemma parts_disjoint p q : part_valid l p -> part_valid l q ->
  same_part l p q \/
  part_base l p + part_size l p <= part_base l q \/
  part_base l q + part_size l q <= part_base l p.
Proof.
  intros Hp Hq. pose proof (part_in_block p Hp). pose proof (part_in_block q Hq).
  pose proof blocks_ordered. pose proof stride_spec as [Hst _].
  destruct sections_ordered as (_ & _ & _ & _ & _ & E6).
  destruct Hl as [Hd Hs Hv He Hq' _ _ _].
  destruct p as [| |i|i|e n|n], q as [| |j|j|f k|k]; simpl block_start in *; simpl block_end in *;
    try (right; lia); simpl same_part; try (left; exact I); simpl in Hp, Hq; simpl part_base;
    simpl part_size; layout_consts.
  - destruct (Z.eq_dec i j); [by left|]. right. lia.
  - destruct (Z.eq_dec i j); [by left|]. right.
    pose proof (array_disjoint (state_slot_stride l) i j). lia.
  - pose proof (Z.mod_pos_bound n (event_capacity l) ltac:(lia)).
    pose proof (Z.mod_pos_bound k (event_capacity l) ltac:(lia)).
    destruct (Z.eq_dec e f) as [->|].
    + destruct (Z.eq_dec (n mod event_capacity l) (k mod event_capacity l)); [by left|]. right. lia.
    + right. pose proof (array_disjoint (event_ring_bytes l) e f). lia.
  - destruct (Z.eq_dec (n mod dirty_capacity l) (k mod dirty_capacity l)); [by left|]. right. lia.
Qed.
End parts.

(** ** The cells inside a record *)

(** The offsets and widths of the cells each kind of record is accessed at. *)
Definition header_cells : list (Z * Z) :=
  [(HDR_MAGIC, 8); (HDR_ABI_VERSION, 4); (HDR_REGION_ALIGNMENT, 4); (HDR_REGION_SIZE, 8);
   (HDR_INSTANCE_LOW, 8); (HDR_INSTANCE_HIGH, 8); (HDR_SEGMENT_GENERATION, 8);
   (HDR_DIRECTORY_OFFSET, 8); (HDR_DIRECTORY_STRIDE, 4); (HDR_DIRECTORY_CAPACITY, 4);
   (HDR_SLOT_OFFSET, 8); (HDR_SLOT_STRIDE, 4); (HDR_SLOT_CAPACITY, 4); (HDR_LEVEL_CAPACITY, 4);
   (HDR_LEVEL_STRIDE, 4); (HDR_IDENTITY_CAPACITY, 4); (HDR_FAMILY_CAPACITY, 4);
   (HDR_TRAILER_OFFSET, 8); (HDR_FEATURE_BITS, 8); (HDR_EVENT_OFFSET, 8);
   (HDR_EVENT_CAPACITY, 4); (HDR_EVENT_STRIDE, 4); (HDR_PUBLICATION_GENERATION, 8);
   (HDR_DOORBELL, 4); (HDR_DIRTY_OFFSET, 8); (HDR_DIRTY_CAPACITY, 4); (HDR_DIRTY_STRIDE, 4)].
Definition trailer_cells : list (Z * Z) := [(TRL_REGION_SIZE, 8); (TRL_MAGIC, 8)].
Definition decimal_cells (base : Z) : list (Z * Z) :=
  [(base + DEC_COEFFICIENT_LOW, 8); (base + DEC_COEFFICIENT_HIGH, 8); (base + DEC_SCALE, 4)].
Definition text_cells (base words : Z) : list (Z * Z) :=
  map (fun k => (base + Z.of_nat k * 8, 8)) (seq 0 (Z.to_nat words)).
Definition slot_prefix_cells : list (Z * Z) :=
  [(SLOT_REVISION, 8); (SLOT_BOOK_REVISION, 8); (SLOT_CONTINUITY_EPOCH, 8);
   (SLOT_CONTINUITY_POSITION, 8); (SLOT_SYNC_DIVERGENCES, 8); (SLOT_AUTHORITY_STATE, 4);
   (SLOT_AUTHORITY_REASON, 4); (SLOT_CONTINUITY_KIND, 4); (SLOT_CONTINUITY_REASON, 4);
   (SLOT_PROVENANCE_PRESENT, 4); (SLOT_ORIGIN, 4); (SLOT_DERIVATION, 4);
   (SLOT_REPRESENTATION, 4); (SLOT_FAMILY_LEN, 4); (SLOT_LEVEL_COUNT, 4);
   (SLOT_DIRECTORY_INDEX, 4); (SLOT_COMMIT_TIME, 8); (SLOT_ARRIVAL_TIME, 8)]
  ++ text_cells SLOT_FAMILY_WORDS NATIVE_FAMILY_WORDS.
Definition level_cells : list (Z * Z) :=
  decimal_cells LVL_PRICE ++ decimal_cells LVL_QUANTITY ++ [(LVL_SIDE, 4)].
(** What both kinds of delivery store, then each kind's own cells. *)
Definition event_shared_cells : list (Z * Z) :=
  [(EVT_SEQUENCE, 8); (EVT_CURSOR_EPOCH, 8); (EVT_CURSOR_POSITION, 8); (EVT_BOOK_REVISION, 8);
   (EVT_COMMIT_TIME, 8); (EVT_DELIVERY_KIND, 4); (EVT_ORIGIN, 4); (EVT_DERIVATION, 4);
   (EVT_REPRESENTATION, 4); (EVT_DIRECTORY_INDEX, 4); (EVT_DAEMON_GENERATION, 8);
   (EVT_SUBSCRIPTION_GENERATION, 8); (EVT_ARRIVAL_TIME, 8)].
Definition event_mutation_cells : list (Z * Z) :=
  [(EVT_SIDE, 4); (EVT_OLD_PRESENT, 4); (EVT_NEW_PRESENT, 4); (EVT_FAMILY_LEN, 4)]
  ++ decimal_cells EVT_PRICE ++ decimal_cells EVT_OLD_QUANTITY ++ decimal_cells EVT_NEW_QUANTITY
  ++ text_cells EVT_FAMILY_WORDS NATIVE_FAMILY_WORDS.
Definition event_resolution_cells : list (Z * Z) :=
  [(EVT_RES_WINNING_INDEX, 4); (EVT_RES_DELIVERY_PATH, 4); (EVT_RES_OUTCOME_LEN, 4);
   (EVT_RES_TYPE_LEN, 4); (EVT_RES_DATE_LEN, 4)]
  ++ text_cells EVT_RES_OUTCOME RES_OUTCOME_WORDS ++ text_cells EVT_RES_TYPE RES_TYPE_WORDS
  ++ text_cells EVT_RES_DATE RES_DATE_WORDS.
Definition dirty_cells : list (Z * Z) :=
  [(DIRTY_SEQUENCE, 8); (DIRTY_POSITION, 8); (DIRTY_DIRECTORY_INDEX, 4); (DIRTY_BOOK_REVISION, 8)].
Definition entry_cells : list (Z * Z) :=
  [(ENT_REVISION, 8); (ENT_SLOT_INDEX, 4); (ENT_IDENTITY_LEN, 4); (ENT_IDENTITY, IDENTITY_CAPACITY)].

(** Each cell in bounds, no two of them sharing a byte. *)
Fixpoint cells_disjoint (cells : list (Z * Z)) : bool :=
  match cells with
  | [] => true
  | (o, w) :: rest =>
      forallb (fun '(o', w') => (o + w <=? o') || (o' + w' <=? o)) rest && cells_disjoint rest
  end.
Definition cells_fit (size : Z) (cells : list (Z * Z)) : bool :=
  forallb (fun '(o, w) => (0 <=? o) && (0 <? w) && (o + w <=? size)) cells && cells_disjoint cells.
(** A word cell at a multiple of its width, which is what its atomic access needs. *)
Definition cells_aligned (cells : list (Z * Z)) : bool :=
  forallb (fun '(o, w) => o mod w =? 0) cells.

(** ** What a segment must hold to be accepted *)

Definition words (cell : Z -> Z) (expected : list (Z * Z)) : Prop :=
  Forall (fun e => cell e.1 = e.2) expected.

(** A doorbell in the header or in its page: nothing else, and never neither. *)
Definition feature_word (f : Z) : Prop :=
  f = Z.lor FEATURE_EVENT_RING_WRAPS FEATURE_DOORBELL_IN_HEADER \/
  f = Z.lor FEATURE_EVENT_RING_WRAPS FEATURE_DOORBELL_PAGE.

Record segment_accepted (cell : Z -> Z) (size : Z) (g : SegmentGeometry) : Prop := {
  acc_layout : layout_wf g.(layout);
  acc_size : size = region_size g.(layout);
  acc_aligned : size mod REGION_ALIGNMENT = 0;
  acc_features : feature_word (cell HDR_FEATURE_BITS);
  acc_fixed : words cell
    [(HDR_MAGIC, MAGIC); (HDR_ABI_VERSION, ABI_VERSION); (HDR_REGION_ALIGNMENT, REGION_ALIGNMENT);
     (HDR_REGION_SIZE, size); (HDR_DIRECTORY_STRIDE, DIRECTORY_ENTRY_BYTES);
     (HDR_LEVEL_STRIDE, LEVEL_CELL_BYTES); (HDR_IDENTITY_CAPACITY, IDENTITY_CAPACITY);
     (HDR_FAMILY_CAPACITY, NATIVE_FAMILY_CAPACITY); (HDR_EVENT_STRIDE, EVENT_SLOT_BYTES);
     (HDR_DIRTY_STRIDE, DIRTY_SLOT_BYTES)];
  acc_capacities : words cell
    [(HDR_DIRECTORY_CAPACITY, g.(layout).(directory_capacity));
     (HDR_SLOT_CAPACITY, g.(layout).(state_slot_capacity));
     (HDR_LEVEL_CAPACITY, g.(layout).(level_capacity));
     (HDR_EVENT_CAPACITY, g.(layout).(event_capacity));
     (HDR_DIRTY_CAPACITY, g.(layout).(dirty_capacity))];
  acc_offsets : words cell
    [(HDR_DIRECTORY_OFFSET, directory_offset); (HDR_SLOT_OFFSET, state_slot_offset g.(layout));
     (HDR_SLOT_STRIDE, state_slot_stride g.(layout)); (HDR_EVENT_OFFSET, event_offset g.(layout));
     (HDR_DIRTY_OFFSET, dirty_offset g.(layout)); (HDR_TRAILER_OFFSET, trailer_offset g.(layout))];
  acc_identity :
    g.(daemon_instance_id) = Z.lor (Z.shiftl (cell HDR_INSTANCE_HIGH) 64) (cell HDR_INSTANCE_LOW) /\
    g.(segment_generation) = cell HDR_SEGMENT_GENERATION;
  acc_trailer : words cell
    [(size - TRAILER_BYTES + TRL_MAGIC, TRAILER_MAGIC); (size - TRAILER_BYTES + TRL_REGION_SIZE, size)]
}.

Lemma features_exact f : 
  negb (Z.land f (Z.lnot KNOWN_FEATURE_BITS) =? 0) || (Z.land f FEATURE_EVENT_RING_WRAPS =? 0)
  || negb (count_ones (Z.land f (Z.lor FEATURE_DOORBELL_IN_HEADER FEATURE_DOORBELL_PAGE)) =? 1)
  = false <-> feature_word f.
Proof.
  split.
  - intros [[H0 H1]%orb_false_iff H2]%orb_false_iff. apply negb_false_iff, Z.eqb_eq in H0.
    apply negb_false_iff in H2. rewrite <- Z.ldiff_land in H0.
    change KNOWN_FEATURE_BITS with (Z.ones 3) in H0. rewrite Z.ldiff_ones_r in H0 by lia.
    apply Z.shiftl_eq_0_iff in H0; [|lia]. rewrite Z.shiftr_div_pow2 in H0 by lia.
    assert (0 <= f < 8) as Hf by
      (pose proof (Z_div_mod_eq_full f (2 ^ 3)); pose proof (Z.mod_pos_bound f (2 ^ 3)); lia).
    assert (f = 0 \/ f = 1 \/ f = 2 \/ f = 3 \/ f = 4 \/ f = 5 \/ f = 6 \/ f = 7) as Hc by lia.
    unfold feature_word. destruct Hc as [->|[->|[->|[->|[->|[->|[->| ->]]]]]]]; try done; auto.
  - by intros [-> | ->].
Qed.

(** [validate] past the access checks, which never fail. *)
Definition validate_words (cell : Z -> Z) (size : Z) : result SegmentGeometry SegmentFault :=
  let gate := cell HDR_MAGIC in
  refuse (gate =? 0) || (gate =? GATE_CLAIMED) with HeaderUnpublished ;;
  refuse negb (gate =? MAGIC) with MagicMismatch gate ;;
  refuse negb (cell HDR_ABI_VERSION =? ABI_VERSION)
    with AbiVersionUnsupported (cell HDR_ABI_VERSION) ABI_VERSION ;;
  refuse negb (cell HDR_REGION_ALIGNMENT =? REGION_ALIGNMENT)
    with AlignmentMismatch (cell HDR_REGION_ALIGNMENT) REGION_ALIGNMENT ;;
  refuse negb (cell HDR_REGION_SIZE =? size) with RegionSizeMismatch (cell HDR_REGION_SIZE) size ;;
  let features := cell HDR_FEATURE_BITS in
  refuse negb (Z.land features (Z.lnot KNOWN_FEATURE_BITS) =? 0)
    || (Z.land features FEATURE_EVENT_RING_WRAPS =? 0)
    || negb (count_ones (Z.land features (Z.lor FEATURE_DOORBELL_IN_HEADER FEATURE_DOORBELL_PAGE)) =? 1)
    with FeatureUnsupported features ;;
  layout <-? map_err (fun _ => CapacityOutOfRange)
    (layout_new (cell HDR_DIRECTORY_CAPACITY) (cell HDR_SLOT_CAPACITY) (cell HDR_LEVEL_CAPACITY)
       (cell HDR_EVENT_CAPACITY) (cell HDR_DIRTY_CAPACITY)) ;;
  refuse negb (forallb (fun '(a, b) => a =? b)
    [(region_size layout, size); (cell HDR_DIRECTORY_OFFSET, directory_offset);
     (cell HDR_DIRECTORY_STRIDE, DIRECTORY_ENTRY_BYTES);
     (cell HDR_SLOT_OFFSET, state_slot_offset layout); (cell HDR_SLOT_STRIDE, state_slot_stride layout);
     (cell HDR_LEVEL_STRIDE, LEVEL_CELL_BYTES); (cell HDR_IDENTITY_CAPACITY, IDENTITY_CAPACITY);
     (cell HDR_FAMILY_CAPACITY, NATIVE_FAMILY_CAPACITY); (cell HDR_EVENT_OFFSET, event_offset layout);
     (cell HDR_EVENT_STRIDE, EVENT_SLOT_BYTES); (cell HDR_DIRTY_OFFSET, dirty_offset layout);
     (cell HDR_DIRTY_STRIDE, DIRTY_SLOT_BYTES); (cell HDR_TRAILER_OFFSET, trailer_offset layout)])
    with GeometryMismatch ;;
  let trailer_gate := cell (size - TRAILER_BYTES + TRL_MAGIC) in
  refuse (trailer_gate =? 0) || (trailer_gate =? GATE_CLAIMED) || negb (trailer_gate =? TRAILER_MAGIC)
    || negb (cell (size - TRAILER_BYTES + TRL_REGION_SIZE) =? size) with TrailerMismatch ;;
  Ok {| daemon_instance_id := Z.lor (Z.shiftl (cell HDR_INSTANCE_HIGH) 64) (cell HDR_INSTANCE_LOW);
        segment_generation := cell HDR_SEGMENT_GENERATION; layout := layout |}.

Lemma word32_at cell base size offset :
  (offset mod 4 =? 0) && (4 <=? size) && (offset <=? size - 4) = true ->
  word32 cell {| rec_base := base; rec_size := size |} offset = Some (cell (base + offset)).
Proof. intros H. unfold word32, ptr. cbn [rec_size rec_base]. by rewrite H. Qed.
Lemma word64_at cell base size offset :
  (offset mod 8 =? 0) && (8 <=? size) && (offset <=? size - 8) = true ->
  word64 cell {| rec_base := base; rec_size := size |} offset = Some (cell (base + offset)).
Proof. intros H. unfold word64, ptr. cbn [rec_size rec_base]. by rewrite H. Qed.

Lemma validate_eq cell size : 0 <= size -> validate cell size = Some (
  refuse negb (size mod REGION_ALIGNMENT =? 0) with RegionMisaligned size ;;
  refuse (size <? HEADER_BYTES + TRAILER_BYTES) with RegionTooSmall size ;;
  validate_words cell size).
Proof.
  intros Hsz. unfold validate. destruct (Z.eqb_spec (size mod REGION_ALIGNMENT) 0) as [Hal|]; [|done].
  simpl negb. cbv iota. destruct (Z.ltb_spec size (HEADER_BYTES + TRAILER_BYTES)); [done|].
  assert (header_record size = Ok {| rec_base := 0; rec_size := 256 |}) as ->.
  { unfold header_record, record. simpl. layout_consts. by rewrite !(proj2 (Z.ltb_ge _ _)) by lia. }
  assert (trailer_record size = Ok {| rec_base := size - TRAILER_BYTES; rec_size := 128 |}) as ->.
  { unfold trailer_record, record. layout_consts.
    assert ((size - 128) mod 8 = 0) as ->.
    { pose proof (Z_div_mod_eq_full size 128). replace (size - 128) with ((16 * (size / 128) - 16) * 8) by lia.
      apply Z.mod_mul. lia. }
    by rewrite !(proj2 (Z.ltb_ge _ _)) by lia. }
  unfold validate_words, published_gate.
  rewrite !word64_at by reflexivity. rewrite !Z.add_0_l. cbn [mbind option_bind].
  destruct (cell HDR_MAGIC =? 0); [done|]. destruct (cell HDR_MAGIC =? GATE_CLAIMED); [done|].
  cbn [negb andb orb ok_or]. destruct (cell HDR_MAGIC =? MAGIC); [|done]. cbn [negb].
  rewrite !word32_at by reflexivity. rewrite !Z.add_0_l. cbn [mbind option_bind].
  do 4 (case_match; [done|]). destruct (layout_new _ _ _ _ _) as [l|e]; [|done].
  cbn [map_err]. set (geometry := _ || _ || _ || _ || _ || _ || _ || _ || _ || _ || _ || _ || _).
  set (geometry' := negb (forallb _ _)). assert (geometry' = geometry) as ->.
  { subst geometry geometry'. cbn [forallb]. rewrite !negb_andb, !orb_assoc. cbn. by rewrite orb_false_r. }
  destruct geometry; [done|]. set (t := cell (size - TRAILER_BYTES + TRL_MAGIC)).
  destruct (t =? 0); [done|]. destruct (t =? GATE_CLAIMED); [done|].
  cbn [negb andb orb ok_or]. by case_match.
Qed.

Lemma words_cons cell o v rest : words cell ((o, v) :: rest) <-> cell o = v /\ words cell rest.
Proof. unfold words. by rewrite Forall_cons. Qed.
Lemma words_nil cell : words cell [] <-> True.
Proof. unfold words. by rewrite Forall_nil. Qed.

Lemma validate_words_exact cell size g : (forall p, 0 <= cell p) ->
  size mod REGION_ALIGNMENT = 0 ->
  validate_words cell size = Ok g <-> segment_accepted cell size g.
Proof.
  intros Hc Hal. unfold validate_words. split.
  - intros H. repeat (case_match; [done|]).
    destruct (layout_new _ _ _ _ _) as [l|e] eqn:El; [|done]. cbn [map_err] in H.
    repeat (case_match; [done|]). injection H as <-.
    apply layout_new_Ok in El as [El Hw]; [|auto..].
    assert (Hf : feature_word (cell HDR_FEATURE_BITS)) by (by apply features_exact).
    cbn [forallb] in *. bool_facts. subst l.
    split; simpl in *; rewrite ?words_cons, ?words_nil; auto 20.
  - intros [Hw Es _ Hf F1 F2 F3 [I1 I2] F4]. rewrite !words_cons, words_nil in *.
    destruct F1 as (-> & -> & -> & -> & -> & -> & -> & -> & -> & -> & _).
    destruct F2 as (-> & -> & -> & -> & -> & _). destruct F3 as (-> & -> & -> & -> & -> & -> & _).
    destruct F4 as (-> & -> & _). apply features_exact in Hf. rewrite Hf.
    destruct (Hw) as [Wd Ws Wv We Wq _ _ _].
    assert (El : layout_new g.(layout).(directory_capacity) g.(layout).(state_slot_capacity)
      g.(layout).(level_capacity) g.(layout).(event_capacity) g.(layout).(dirty_capacity)
      = Ok g.(layout)).
    { apply layout_new_Ok; [lia..|]. split; [by destruct (g.(layout))|done]. }
    rewrite El. cbn [map_err forallb]. rewrite Es, !Z.eqb_refl. cbn [negb andb orb].
    rewrite <- I1, <- I2. by destruct g.
Qed.

(** ** Properties *)

(** Where a segment puts its records. Under any accepted capacities every record, header,
    directory entry, state slot, event slot of any position, dirty slot, trailer, is found by
    its accessor, lies inside the region on an eight-byte boundary, and meets no other: two
    positions share a slot exactly when they are a whole number of laps apart. Nothing in the
    arithmetic exceeds a [usize]. *)
Theorem records_never_overlap l p q : layout_wf l -> part_valid l p -> part_valid l q ->
  part_record l p = Ok {| rec_base := part_base l p; rec_size := part_size l p |} /\
  0 <= part_base l p /\ part_base l p mod 8 = 0 /\
  part_base l p + part_size l p <= region_size l /\ region_size l <= MAX_REGION_BYTES /\
  (same_part l p q <-> part_record l p = part_record l q) /\
  (~ same_part l p q ->
     part_base l p + part_size l p <= part_base l q \/
     part_base l q + part_size l q <= part_base l p).
Proof.
  intros Hl Hp Hq. pose proof (part_bounds l Hl p Hp). split_and!; try apply Hl; try lia.
  - by apply part_record_Ok.
  - by apply part_aligned.
  - rewrite !part_record_Ok by done. split.
    + intros Hs. destruct p, q; simpl in Hs; try done; try (by subst).
      * destruct Hs as [<- Hs]. unfold part_base. by rewrite Hs.
      * unfold part_base. by rewrite Hs.
    + intros [= Eb Es]. destruct (parts_disjoint l Hl p q Hp Hq) as [|Hd]; [done|].
      exfalso. rewrite Eb, Es in Hd. assert (0 < part_size l q); [|lia].
      pose proof (stride_spec l Hl) as [? _]. destruct Hl as [_ _ ? _ _ _ _ _].
      destruct q; simpl; layout_consts; lia.
  - intros Hs. by destruct (parts_disjoint l Hl p q Hp Hq).
Qed.

Definition sample_layout : SegmentLayout :=
  {| directory_capacity := 4; state_slot_capacity := 4; level_capacity := 64;
     event_capacity := 1024; dirty_capacity := 4096 |}.

Lemma sample_layout_wf : layout_wf sample_layout.
Proof. by apply (layout_new_Ok 4 4 64 1024 4096). Qed.

Lemma records_never_overlap_witness :
  part_record sample_layout (EventPart 2 5) = part_record sample_layout (EventPart 2 1029) /\
  (part_base sample_layout (EventPart 2 5) + 256 <= part_base sample_layout (DirtyPart 7) \/
   part_base sample_layout (DirtyPart 7) + 32 <= part_base sample_layout (EventPart 2 5)).
Proof.
  split.
  - apply (records_never_overlap sample_layout (EventPart 2 5) (EventPart 2 1029) sample_layout_wf);
      [simpl; bounds; lia..|split; reflexivity].
  - apply (records_never_overlap sample_layout (EventPart 2 5) (DirtyPart 7) sample_layout_wf);
      [simpl; bounds; lia..|exact id].
Defined.

(** Inside every kind of record, and for each kind of delivery on its own, the cells are
    in bounds, aligned to their width, and share no byte; a state slot has room for its prefix
    and every level its capacity admits. *)
Theorem cells_never_overlap l k : layout_wf l -> 0 <= k < l.(level_capacity) ->
  cells_fit HEADER_BYTES header_cells = true /\ cells_aligned header_cells = true /\
  cells_fit TRAILER_BYTES trailer_cells = true /\ cells_aligned trailer_cells = true /\
  cells_fit SLOT_PREFIX_BYTES slot_prefix_cells = true /\ cells_aligned slot_prefix_cells = true /\
  cells_fit LEVEL_CELL_BYTES level_cells = true /\ cells_aligned level_cells = true /\
  cells_fit EVENT_SLOT_BYTES (event_shared_cells ++ event_mutation_cells) = true /\
  cells_aligned (event_shared_cells ++ event_mutation_cells) = true /\
  cells_fit EVENT_SLOT_BYTES (event_shared_cells ++ event_resolution_cells) = true /\
  cells_aligned (event_shared_cells ++ event_resolution_cells) = true /\
  cells_fit DIRTY_SLOT_BYTES dirty_cells = true /\ cells_aligned dirty_cells = true /\
  cells_fit DIRECTORY_ENTRY_BYTES entry_cells = true /\
  SLOT_PREFIX_BYTES + k * LEVEL_CELL_BYTES + LEVEL_CELL_BYTES <= state_slot_stride l.
Proof.
  intros Hl Hk. do 15 (split; [reflexivity|]).
  pose proof (stride_spec l Hl) as [? _]. layout_consts. lia.
Qed.

Lemma cells_never_overlap_witness :
  cells_fit EVENT_SLOT_BYTES (event_shared_cells ++ event_resolution_cells) = true /\
  SLOT_PREFIX_BYTES + 63 * LEVEL_CELL_BYTES + LEVEL_CELL_BYTES <= state_slot_stride sample_layout.
Proof.
  split; apply (cells_never_overlap sample_layout 63 sample_layout_wf); simpl; lia.
Defined.

(** The two kinds of delivery do share bytes with each other, and at two widths: a slot that
    held a mutation and then holds a resolution has its price's low half, a 64-bit cell,
    under the length of the resolution's date, a 32-bit cell, and its price's scale under
    the second word of the outcome. *)
Lemma event_kinds_share_bytes_at_two_widths :
  (EVT_PRICE + DEC_COEFFICIENT_LOW, 8) ∈ event_mutation_cells /\
  (EVT_RES_DATE_LEN, 4) ∈ event_resolution_cells /\
  EVT_PRICE + DEC_COEFFICIENT_LOW = EVT_RES_DATE_LEN /\
  (EVT_PRICE + DEC_SCALE, 4) ∈ event_mutation_cells /\
  (EVT_RES_OUTCOME + 8, 8) ∈ event_resolution_cells /\
  EVT_PRICE + DEC_SCALE = EVT_RES_OUTCOME + 8.
Proof. repeat split; apply list_elem_of_In; vm_compute; tauto. Qed.

(** Validation is total and exact. On any region, whatever it holds, the checks of a
    reader end without an access outside a record, and accept a geometry exactly when the
    region has the size, the alignment, the header words and the trailer that this geometry
    prescribes and one doorbell placement; the answer depends on no byte between header and
    trailer. *)
Theorem validate_exact cell cell' size : (forall p, 0 <= cell p) -> 0 <= size ->
  (exists r, validate cell size = Some r) /\
  (forall g, validate cell size = Some (Ok g) <-> segment_accepted cell size g) /\
  ((forall p, 0 <= p < HEADER_BYTES \/ size - TRAILER_BYTES <= p < size -> cell' p = cell p) ->
   validate cell' size = validate cell size).
Proof.
  intros Hc Hsz. rewrite !validate_eq by done. split; [by eexists|]. split.
  - intros g. destruct (Z.eqb_spec (size mod REGION_ALIGNMENT) 0) as [Hal|Hal]; cbn [negb].
    2: { split; [done|]. intros [_ _ ? _ _ _ _ _ _]. done. }
    destruct (Z.ltb_spec size (HEADER_BYTES + TRAILER_BYTES)) as [Hs|Hs].
    + split; [done|]. intros [Hw -> _ _ _ _ _ _ _]. exfalso.
      pose proof (blocks_ordered _ Hw). unfold region_size in *. layout_consts. lia.
    + rewrite <- (validate_words_exact cell size g Hc Hal). split; [by intros [= ?]|by intros ->].
  - intros Hsame. destruct (negb _); [done|].
    destruct (Z.ltb_spec size (HEADER_BYTES + TRAILER_BYTES)) as [|Hs]; [done|].
    assert (Hh : forall o, (0 <=? o) && (o <? HEADER_BYTES) = true -> cell' o = cell o)
      by (intros o Ho; apply Hsame; bool_facts; left; lia).
    assert (Ht : forall o, (0 <=? o) && (o <? TRAILER_BYTES) = true ->
      cell' (size - TRAILER_BYTES + o) = cell (size - TRAILER_BYTES + o))
      by (intros o Ho; apply Hsame; bool_facts; right; lia).
    unfold validate_words. repeat match goal with
    | |- context [cell' (size - TRAILER_BYTES + ?o)] => rewrite (Ht o) by reflexivity
    | |- context [cell' ?o] => rewrite (Hh o) by reflexivity
    end. done.
Qed.

(** A formatted header and trailer for [sample_layout]. *)
Definition sample_cells : Z -> Z :=
  let size := region_size sample_layout in
  overlay
    [(HDR_MAGIC, MAGIC); (HDR_ABI_VERSION, 5); (HDR_REGION_ALIGNMENT, 128); (HDR_REGION_SIZE, size);
     (HDR_FEATURE_BITS, 3); (HDR_SEGMENT_GENERATION, 9); (HDR_INSTANCE_LOW, 77);
     (HDR_DIRECTORY_CAPACITY, 4); (HDR_SLOT_CAPACITY, 4); (HDR_LEVEL_CAPACITY, 64);
     (HDR_EVENT_CAPACITY, 1024); (HDR_DIRTY_CAPACITY, 4096); (HDR_DIRECTORY_STRIDE, 512);
     (HDR_LEVEL_STRIDE, 64); (HDR_IDENTITY_CAPACITY, 496); (HDR_FAMILY_CAPACITY, 64);
     (HDR_EVENT_STRIDE, 256); (HDR_DIRTY_STRIDE, 32); (HDR_DIRECTORY_OFFSET, 256);
     (HDR_SLOT_OFFSET, state_slot_offset sample_layout);
     (HDR_SLOT_STRIDE, state_slot_stride sample_layout);
     (HDR_EVENT_OFFSET, event_offset sample_layout); (HDR_DIRTY_OFFSET, dirty_offset sample_layout);
     (HDR_TRAILER_OFFSET, trailer_offset sample_layout);
     (size - 128 + TRL_MAGIC, TRAILER_MAGIC); (size - 128 + TRL_REGION_SIZE, size)] (fun _ => 0).

Lemma overlay_nonneg stores f : forallb (fun s => 0 <=? s.2) stores = true ->
  (forall p, 0 <= f p) -> forall p, 0 <= overlay stores f p.
Proof.
  revert f. induction stores as [|[l v] stores IH]; simpl; intros f Hs Hf; [done|].
  bool_facts. apply IH; [done|]. intros p. destruct (l =? p); [lia|done].
Qed.

Lemma sample_cells_nonneg p : 0 <= sample_cells p.
Proof. by apply overlay_nonneg. Qed.

Lemma validate_exact_witness :
  segment_accepted sample_cells (region_size sample_layout)
    {| daemon_instance_id := 77; segment_generation := 9; layout := sample_layout |}.
Proof.
  apply (validate_exact sample_cells sample_cells (region_size sample_layout) sample_cells_nonneg);
    [discriminate|vm_compute; reflexivity].
Defined.

(** A dirty ring of fewer than four entries leaves the region off the alignment that
    [region_size] promises; such a region is refused when it is allocated. *)
Lemma region_alignment_needs_four_dirty_entries l : layout_wf l ->
  region_size l mod REGION_ALIGNMENT = 0 <-> 4 <= l.(dirty_capacity).
Proof.
  intros Hl. pose proof (stride_spec l Hl) as [_ Hst].
  assert (E : dirty_offset l mod 128 = 0).
  { unfold dirty_offset, event_offset, state_slot_offset, directory_offset, event_ring_bytes.
    layout_consts. repeat apply mod_add_zero; try lia; try done; by repeat apply mod_mul_zero. }
  unfold region_size, trailer_offset, dirty_ring_bytes. layout_consts.
  destruct (Hl) as [_ _ _ _ Hq _ Pq _].
  rewrite <- Z.add_assoc, Z.add_mod, E, Z.add_0_l, Z.mod_mod by lia.
  destruct (power_of_two_spec _ Pq) as (k & Hk & Ek).
  destruct (Z.lt_total k 2) as [|[|]].
  - assert (k = 0 \/ k = 1) as [-> | ->] by lia; rewrite Ek; split; intros Hx; vm_compute in Hx; done || lia.
  - subst k. rewrite Ek. split; [lia|done].
  - rewrite Ek. replace k with (2 + (k - 2)) by lia. rewrite Z.pow_add_r by lia. split.
    + intros _. pose proof (Z.pow_pos_nonneg 2 (k - 2)). lia.
    + intros _. change (2 ^ 2) with 4. replace (4 * 2 ^ (k - 2) * 32 + 128) with ((2 ^ (k - 2) + 1) * 128) by lia.
      apply Z.mod_mul. lia.
Qed.
