(* ===== verification/ShmWriter.v ===== *)
(** * The writer of a segment ([src/src/shm/writer.rs])

    Formatting a region, installing markets, and the publications of states, mutations and
    resolutions. The writer's methods are [cprog]s: an assertion of the cell layer that
    could fail is a [None], a refusal an [Err] next to the state it leaves. Where the
    operating system is asked (the doorbell probe, the page file, the wake, the clock) its
    answer is an argument. *)

From S2P Require Import Prelude OrdMap Numeric Identity Descriptor Continuity Observation Book ShmCodec ShmCell ShmLayout.

(** ** Write-once records ([Record::publish_write_once] of cell.rs) *)

Inductive WriteOnceField : Set :=
| FieldBytes (offset : Z) (value : bytes)
| FieldWord32 (offset value : Z)
| FieldWord64 (offset value : Z).

(** The cells a field occupies; bytes have a cell each. *)
Definition field_stores (r : CellRecord) (field : WriteOnceField) : option (list (Z * Z)) :=
  match field with
  | FieldBytes offset value =>
      if (len value <=? r.(rec_size)) && (offset <=? r.(rec_size) - len value)
      then Some (imap (fun k b => (r.(rec_base) + offset + Z.of_nat k, b)) value) else None
  | FieldWord32 offset value => p ← ptr r offset 4; Some [(p, value)]
  | FieldWord64 offset value => p ← ptr r offset 8; Some [(p, value)]
  end.

(** [SyncCell::claim]: a compare-exchange from zero. *)
Definition claim (gate : Z) (m : Memory) : bool * Memory :=
  if current m gate =? 0 then (true, relaxed_store gate GATE_CLAIMED m) else (false, m).

Definition publish_write_once (r : CellRecord) (writable : bool) (gate_offset gate_value : Z)
    (fields : list WriteOnceField) (m : Memory) : option (bool * Memory) :=
  if negb writable || (gate_value =? 0) || (gate_value =? GATE_CLAIMED) then None
  else
    gate ← ptr r gate_offset 8;
    let '(won, m) := claim gate m in
    if negb won then Some (false, m)
    else
      stores ← mapM (field_stores r) fields;
      Some (true, release_store gate gate_value (relaxed_stores (mjoin stores) m)).

(** ** Data *)

(** [OsString]s are bytes. *)
Inductive WriterError : Set :=
| RegionSizeMismatchError (expected actual : Z)
| SegmentAlreadyFormatted
| RegionNotWritable
| Segment (fault : SegmentFault)
| DirectoryFull
| IdentityTooLong
| MarketAlreadyInstalled
| UnknownHandle
| WriterMarketMismatch
| LevelCapacityExceeded (levels capacity : Z)
| NativeFamilyTooLong
| WinningOutcomeTooLong
| WinningOutcomeNotText
| MarketTypeTooLong
| ResolutionDateTooLong
| UnsupportedDeliveryPath
| EmptyMutationError
| WriterCounterOverflow
| SegmentAlreadyInstalled
| DoorbellPageError (error : RegionError)
| DoorbellPageOccupied (path : bytes)
| DoorbellPageUnavailable.

Inductive DoorbellPlacement : Set := Probe | ForcePage.

Record SegmentConfig : Set := {
  config_layout : SegmentLayout;
  config_instance : Z;
  config_generation : Z;
  config_doorbell : DoorbellPlacement
}.

Definition config_new (layout : SegmentLayout) (daemon_instance_id segment_generation : Z) :
    SegmentConfig :=
  {| config_layout := layout; config_instance := daemon_instance_id;
     config_generation := segment_generation; config_doorbell := Probe |}.

Record SegmentBinding : Set := {
  attachment : Z; binding_instance : Z; binding_generation : Z
}.
#[export] Instance SegmentBinding_eq_dec : EqDecision SegmentBinding.
Proof. solve_decision. Defined.

Record MarketHandle : Set := {
  segment : SegmentBinding; entry_index : Z; state_slot_index : Z
}.
#[export] Instance MarketHandle_eq_dec : EqDecision MarketHandle.
Proof. solve_decision. Defined.

(** The parts of a [SegmentRegion] that are not its bytes. *)
Record SegmentRegion : Set := {
  size_bytes : Z; is_writable : bool; attachment_id : Z; backing_path : option bytes
}.

Definition binding_new (region : SegmentRegion) (geometry : SegmentGeometry) : SegmentBinding :=
  {| attachment := region.(attachment_id);
     binding_instance := geometry.(daemon_instance_id);
     binding_generation := geometry.(segment_generation) |}.

Record DecimalWords : Set := { dec_low : Z; dec_high : Z; dec_scale : Z }.

Record LevelWords : Set := {
  level_side : Z; level_price : DecimalWords; level_quantity : DecimalWords
}.

Record StagedMutation : Set := {
  sm_origin : Z; sm_derivation : Z; sm_representation : Z; sm_side : Z;
  sm_old_present : Z; sm_new_present : Z; sm_family_length : Z; sm_family_words : list Z;
  sm_daemon_generation : Z; sm_subscription_generation : Z;
  sm_price : DecimalWords; sm_old_quantity : DecimalWords; sm_new_quantity : DecimalWords
}.

Record StagedResolution : Set := {
  sr_origin : Z; sr_derivation : Z; sr_representation : Z; sr_winning_index : Z;
  sr_delivery_path : Z; sr_outcome_length : Z; sr_type_length : Z; sr_date_length : Z;
  sr_outcome_words : list Z; sr_type_words : list Z; sr_date_words : list Z;
  sr_daemon_generation : Z; sr_subscription_generation : Z
}.

(** With the levels that the source stages in [SegmentWriter::staged_levels], a buffer it
    empties at every use. *)
Record StagedState : Set := {
  st_book_revision : Z; st_authority_state : Z; st_authority_reason : Z;
  st_continuity_kind : Z; st_continuity_reason : Z; st_continuity_epoch : Z;
  st_continuity_position : Z; st_sync_divergences : Z; st_provenance_present : Z;
  st_origin : Z; st_derivation : Z; st_representation : Z; st_family_length : Z;
  st_family_words : list Z; st_levels : list LevelWords
}.

Record InstalledMarket : Set := {
  installed_market : MarketRef; commit_time : Z; arrival_time : Z
}.

Record StagedDirty : Set := { sd_position : Z; sd_in_flight : Z; sd_next_stable : Z }.

(** The page of a [Page] doorbell is a region of its own. *)
Inductive Doorbell : Set := InHeader | Page (page : Memory).

Record SegmentWriter : Set := {
  memory : Memory;
  region : SegmentRegion;
  geometry : SegmentGeometry;
  binding : SegmentBinding;
  installed : list InstalledMarket;
  doorbell : Doorbell;
  dirty_position : Z;
  wake_posts : Z;
  wake_faults : Z
}.

Definition DOORBELL_PAGE_BYTES : Z := REGION_ALIGNMENT.

(** ** Text and decimals in words *)

(** [words[position / 8] |= u64::from(byte) << ((position % 8) * 8)] over the bytes. *)
Fixpoint pack_loop (position : nat) (text : bytes) (words : list Z) : list Z :=
  match text with
  | [] => words
  | byte :: rest =>
      pack_loop (S position) rest
        (alter (fun w => Z.lor w (Z.shiftl byte (Z.of_nat (position mod 8) * 8)))
           (position / 8)%nat words)
  end.

(** The length and the words, from words that are zero. *)
Definition pack_text (WORDS : Z) (text : bytes) : option (Z * list Z) :=
  if WORDS * 8 <? len text then None
  else
    let words := pack_loop 0 text (replicate (Z.to_nat WORDS) 0) in
    length ← checked 0 U32_MAX (len text);
    Some (length, words).

Definition pack_family (family : bytes) : result (Z * list Z) WriterError :=
  ok_or (pack_text NATIVE_FAMILY_WORDS family) NativeFamilyTooLong.

Definition staged_decimal (value : ExactDecimal) : DecimalWords :=
  let '(low, high, scale) := decimal_words value in
  {| dec_low := low; dec_high := high; dec_scale := scale |}.

(** ** Staging *)

Definition level_words (level : Level) : LevelWords :=
  {| level_side := side_word level.(side);
     level_price := staged_decimal level.(price).(price_value);
     level_quantity := staged_decimal level.(quantity).(quantity_value) |}.

Definition stage (layout : SegmentLayout) (book : PublishedBook) :
    result StagedState WriterError :=
  let levels := book.(published_levels) in
  refuse (layout.(level_capacity) <? len levels)
    with LevelCapacityExceeded (len levels) layout.(level_capacity) ;;
  let '(authority_state, authority_reason) := authority_words book.(published_authority) in
  let '(continuity_kind, continuity_reason, continuity_epoch, continuity_position) :=
    continuity_words book.(published_continuity) in
  words <-? match book.(published_provenance) with
            | None => Ok (0, 0, 0, 0, 0, replicate (Z.to_nat NATIVE_FAMILY_WORDS) 0)
            | Some provenance =>
                both family_length family_words <-? pack_family provenance.(native_family) ;;
                let '(origin, derivation) := origin_words provenance.(origin) in
                Ok (1, origin, derivation, representation_word provenance.(representation),
                    family_length, family_words)
            end ;;
  let '(provenance_present, origin, derivation, representation, family_length, family_words) :=
    words in
  Ok {| st_book_revision := book.(published_revision);
        st_authority_state := authority_state;
        st_authority_reason := authority_reason;
        st_continuity_kind := continuity_kind;
        st_continuity_reason := continuity_reason;
        st_continuity_epoch := continuity_epoch;
        st_continuity_position := continuity_position;
        st_sync_divergences := book.(published_sync_divergences);
        st_provenance_present := provenance_present;
        st_origin := origin;
        st_derivation := derivation;
        st_representation := representation;
        st_family_length := family_length;
        st_family_words := family_words;
        st_levels := level_words <$> levels |}.

Definition half (level : option Level) : DecimalWords :=
  match level with
  | None => {| dec_low := 0; dec_high := 0; dec_scale := 0 |}
  | Some level => staged_decimal level.(quantity).(quantity_value)
  end.

Definition stage_mutation (mutation : BookMutation) : result StagedMutation WriterError :=
  coordinate <-? ok_or (match mutation.(new) with
                        | Some level => Some level
                        | None => mutation.(old)
                        end) EmptyMutationError ;;
  let provenance := mutation.(mutation_provenance) in
  both family_length family_words <-? pack_family provenance.(native_family) ;;
  let '(origin, derivation) := origin_words provenance.(origin) in
  Ok {| sm_origin := origin;
        sm_derivation := derivation;
        sm_representation := representation_word provenance.(representation);
        sm_side := side_word coordinate.(side);
        sm_old_present := Z.b2z (bool_decide (is_Some mutation.(old)));
        sm_new_present := Z.b2z (bool_decide (is_Some mutation.(new)));
        sm_family_length := family_length;
        sm_family_words := family_words;
        sm_daemon_generation := provenance.(daemon_generation);
        sm_subscription_generation := provenance.(subscription_generation);
        sm_price := staged_decimal coordinate.(price).(price_value);
        sm_old_quantity := half mutation.(old);
        sm_new_quantity := half mutation.(new) |}.

Definition stage_resolution (resolution : MarketResolution) :
    result StagedResolution WriterError :=
  let seen := resolution.(observation) in
  let provenance := seen.(resolution_provenance) in
  outcome <-? ok_or (text_value seen.(winner)) WinningOutcomeNotText ;;
  both outcome_length outcome_words <-?
    ok_or (pack_text RES_OUTCOME_WORDS outcome) WinningOutcomeTooLong ;;
  both type_length type_words <-?
    ok_or (pack_text RES_TYPE_WORDS seen.(native_label).(label_text)) MarketTypeTooLong ;;
  both date_length date_words <-?
    ok_or (pack_text RES_DATE_WORDS resolution.(resolution_date).(timestamp_lexeme))
      ResolutionDateTooLong ;;
  let '(origin, derivation) := origin_words provenance.(origin) in
  delivery_path <-? ok_or (delivery_path_word seen.(delivery_path)) UnsupportedDeliveryPath ;;
  Ok {| sr_origin := origin;
        sr_derivation := derivation;
        sr_representation := representation_word provenance.(representation);
        sr_winning_index := resolution.(winning_index);
        sr_delivery_path := delivery_path;
        sr_outcome_length := outcome_length;
        sr_type_length := type_length;
        sr_date_length := date_length;
        sr_outcome_words := outcome_words;
        sr_type_words := type_words;
        sr_date_words := date_words;
        sr_daemon_generation := provenance.(daemon_generation);
        sr_subscription_generation := provenance.(subscription_generation) |}.

(** ** The cells of a record, in the order they are stored *)

Definition word64s (r : CellRecord) (values : list (Z * Z)) : option (list (Z * Z)) :=
  mapM (fun '(offset, value) => p ← ptr r offset 8; Some (p, value)) values.
Definition word32s (r : CellRecord) (values : list (Z * Z)) : option (list (Z * Z)) :=
  mapM (fun '(offset, value) => p ← ptr r offset 4; Some (p, value)) values.

(** One word after the other from an offset on. *)
Definition text_words (base : Z) (words : list Z) : list (Z * Z) :=
  imap (fun word value => (base + Z.of_nat word * 8, value)) words.

(** The groups of stores of a record, one after the other. *)
Definition all_stores (groups : list (option (list (Z * Z)))) : option (list (Z * Z)) :=
  mjoin <$> mapM id groups.

Definition store_decimal (cell : CellRecord) (words : DecimalWords) : option (list (Z * Z)) :=
  all_stores
    [word64s cell [(DEC_COEFFICIENT_LOW, words.(dec_low)); (DEC_COEFFICIENT_HIGH, words.(dec_high))];
     word32s cell [(DEC_SCALE, words.(dec_scale))]].

Definition decimal_stores (slot : CellRecord) (offset : Z) (words : DecimalWords) :
    option (list (Z * Z)) :=
  cell ← sub slot offset DECIMAL_CELL_BYTES; store_decimal cell words.

Definition level_stores (slot : CellRecord) (position : nat) (level : LevelWords) :
    option (list (Z * Z)) :=
  cell ← sub slot (SLOT_PREFIX_BYTES + Z.of_nat position * LEVEL_CELL_BYTES) LEVEL_CELL_BYTES;
  all_stores
    [word32s cell [(LVL_SIDE, level.(level_side))];
     decimal_stores cell LVL_PRICE level.(level_price);
     decimal_stores cell LVL_QUANTITY level.(level_quantity)].

Definition state_stores (slot : CellRecord) (staged : StagedState) (commit_time arrival_time : Z) :
    option (list (Z * Z)) :=
  all_stores (
    [word64s slot
       [(SLOT_BOOK_REVISION, staged.(st_book_revision));
        (SLOT_CONTINUITY_EPOCH, staged.(st_continuity_epoch));
        (SLOT_CONTINUITY_POSITION, staged.(st_continuity_position));
        (SLOT_SYNC_DIVERGENCES, staged.(st_sync_divergences));
        (SLOT_COMMIT_TIME, commit_time); (SLOT_ARRIVAL_TIME, arrival_time)];
     word64s slot (text_words SLOT_FAMILY_WORDS staged.(st_family_words));
     word32s slot
       [(SLOT_AUTHORITY_STATE, staged.(st_authority_state));
        (SLOT_AUTHORITY_REASON, staged.(st_authority_reason));
        (SLOT_CONTINUITY_KIND, staged.(st_continuity_kind));
        (SLOT_CONTINUITY_REASON, staged.(st_continuity_reason));
        (SLOT_PROVENANCE_PRESENT, staged.(st_provenance_present));
        (SLOT_ORIGIN, staged.(st_origin)); (SLOT_DERIVATION, staged.(st_derivation));
        (SLOT_REPRESENTATION, staged.(st_representation));
        (SLOT_FAMILY_LEN, staged.(st_family_length))]]
    ++ imap (level_stores slot) staged.(st_levels)
    ++ [word32s slot [(SLOT_LEVEL_COUNT, as_u32 (len staged.(st_levels)))]]).

Definition dirty_stores (slot : CellRecord) (position index book_revision : Z) :
    option (list (Z * Z)) :=
  all_stores
    [word64s slot [(DIRTY_POSITION, position)]; word32s slot [(DIRTY_DIRECTORY_INDEX, index)];
     word64s slot [(DIRTY_BOOK_REVISION, book_revision)]].

Definition mutation_stores (slot : CellRecord) (index : Z) (cursor : MutationCursor)
    (revision : Z) (staged : StagedMutation) (commit_time arrival_time : Z) :
    option (list (Z * Z)) :=
  all_stores
    [word64s slot
       [(EVT_CURSOR_EPOCH, cursor.(cursor_epoch)); (EVT_CURSOR_POSITION, cursor.(cursor_position));
        (EVT_BOOK_REVISION, revision); (EVT_COMMIT_TIME, commit_time);
        (EVT_ARRIVAL_TIME, arrival_time);
        (EVT_DAEMON_GENERATION, staged.(sm_daemon_generation));
        (EVT_SUBSCRIPTION_GENERATION, staged.(sm_subscription_generation))];
     word64s slot (text_words EVT_FAMILY_WORDS staged.(sm_family_words));
     word32s slot
       [(EVT_DELIVERY_KIND, DELIVERY_LEVEL_MUTATION); (EVT_ORIGIN, staged.(sm_origin));
        (EVT_DERIVATION, staged.(sm_derivation));
        (EVT_REPRESENTATION, staged.(sm_representation)); (EVT_SIDE, staged.(sm_side));
        (EVT_OLD_PRESENT, staged.(sm_old_present)); (EVT_NEW_PRESENT, staged.(sm_new_present));
        (EVT_FAMILY_LEN, staged.(sm_family_length)); (EVT_DIRECTORY_INDEX, index)];
     decimal_stores slot EVT_PRICE staged.(sm_price);
     decimal_stores slot EVT_OLD_QUANTITY staged.(sm_old_quantity);
     decimal_stores slot EVT_NEW_QUANTITY staged.(sm_new_quantity)].

Definition resolution_stores (slot : CellRecord) (index : Z) (cursor : MutationCursor)
    (revision : Z) (staged : StagedResolution) (commit_time arrival_time : Z) :
    option (list (Z * Z)) :=
  all_stores
    [word64s slot
       [(EVT_CURSOR_EPOCH, cursor.(cursor_epoch)); (EVT_CURSOR_POSITION, cursor.(cursor_position));
        (EVT_BOOK_REVISION, revision); (EVT_COMMIT_TIME, commit_time);
        (EVT_ARRIVAL_TIME, arrival_time);
        (EVT_DAEMON_GENERATION, staged.(sr_daemon_generation));
        (EVT_SUBSCRIPTION_GENERATION, staged.(sr_subscription_generation))];
     word64s slot (text_words EVT_RES_OUTCOME staged.(sr_outcome_words));
     word64s slot (text_words EVT_RES_TYPE staged.(sr_type_words));
     word64s slot (text_words EVT_RES_DATE staged.(sr_date_words));
     word32s slot
       [(EVT_DELIVERY_KIND, DELIVERY_MARKET_RESOLVED); (EVT_ORIGIN, staged.(sr_origin));
        (EVT_DERIVATION, staged.(sr_derivation));
        (EVT_REPRESENTATION, staged.(sr_representation));
        (EVT_RES_WINNING_INDEX, staged.(sr_winning_index));
        (EVT_RES_DELIVERY_PATH, staged.(sr_delivery_path));
        (EVT_RES_OUTCOME_LEN, staged.(sr_outcome_length));
        (EVT_RES_TYPE_LEN, staged.(sr_type_length));
        (EVT_RES_DATE_LEN, staged.(sr_date_length)); (EVT_DIRECTORY_INDEX, index)]].

(** ** Creation *)

(** [<segment path>.doorbell]. *)
Definition doorbell_page_path (segment : bytes) : bytes := segment ++ lit ".doorbell".

(** [accepts_a_wait] is the probe's answer, [created] what creating the page file gives. *)
Definition choose_doorbell (region : SegmentRegion) (requested : DoorbellPlacement)
    (accepts_a_wait : bool) (created : result () RegionError) : result Doorbell WriterError :=
  match region.(backing_path) with
  | None => match requested with
            | ForcePage => Err DoorbellPageUnavailable
            | Probe => Ok InHeader
            end
  | Some path =>
      if match requested with Probe => accepts_a_wait | ForcePage => false end then Ok InHeader
      else
        let page_path := doorbell_page_path path in
        _ <-? map_err (fun error => match error with
                                    | Io AlreadyExists => DoorbellPageOccupied page_path
                                    | other => DoorbellPageError other
                                    end) created ;;
        Ok (Page fresh_memory)
  end.

Definition doorbell_bit (d : Doorbell) : Z :=
  match d with InHeader => FEATURE_DOORBELL_IN_HEADER | Page _ => FEATURE_DOORBELL_PAGE end.

(** The header's payload. *)
Definition header_fields (config : SegmentConfig) (size : Z) (d : Doorbell) :
    list WriteOnceField :=
  let layout := config.(config_layout) in
  map (fun '(offset, value) => FieldWord64 offset value)
    [(HDR_REGION_SIZE, size);
     (HDR_FEATURE_BITS, Z.lor FEATURE_EVENT_RING_WRAPS (doorbell_bit d));
     (HDR_EVENT_OFFSET, event_offset layout); (HDR_DIRTY_OFFSET, dirty_offset layout);
     (HDR_INSTANCE_LOW, as_u64 config.(config_instance));
     (HDR_INSTANCE_HIGH, as_u64 (Z.shiftr config.(config_instance) 64));
     (HDR_SEGMENT_GENERATION, config.(config_generation));
     (HDR_DIRECTORY_OFFSET, directory_offset); (HDR_SLOT_OFFSET, state_slot_offset layout);
     (HDR_TRAILER_OFFSET, trailer_offset layout)]
  ++ map (fun '(offset, value) => FieldWord32 offset value)
    [(HDR_ABI_VERSION, ABI_VERSION); (HDR_EVENT_CAPACITY, layout.(event_capacity));
     (HDR_EVENT_STRIDE, as_u32 EVENT_SLOT_BYTES); (HDR_DIRTY_CAPACITY, layout.(dirty_capacity));
     (HDR_DIRTY_STRIDE, as_u32 DIRTY_SLOT_BYTES);
     (HDR_REGION_ALIGNMENT, as_u32 REGION_ALIGNMENT);
     (HDR_DIRECTORY_STRIDE, as_u32 DIRECTORY_ENTRY_BYTES);
     (HDR_DIRECTORY_CAPACITY, layout.(directory_capacity));
     (HDR_SLOT_STRIDE, as_u32 (state_slot_stride layout));
     (HDR_SLOT_CAPACITY, layout.(state_slot_capacity));
     (HDR_LEVEL_CAPACITY, layout.(level_capacity));
     (HDR_LEVEL_STRIDE, as_u32 LEVEL_CELL_BYTES);
     (HDR_IDENTITY_CAPACITY, as_u32 IDENTITY_CAPACITY)]
  ++ [FieldWord32 HDR_FAMILY_CAPACITY (as_u32 NATIVE_FAMILY_CAPACITY)].

(** A write-once publication as a step on the region's memory. *)
Definition publishing {E} (r : CellRecord) (writable : bool) (gate_offset gate_value : Z)
    (fields : list WriteOnceField) : cprog Memory E bool := fun m =>
  '(won, m) ← publish_write_once r writable gate_offset gate_value fields m;
  Some (Ok won, m).

Definition create (region : SegmentRegion) (config : SegmentConfig) (accepts_a_wait : bool)
    (created : result () RegionError) : cprog Memory WriterError SegmentWriter :=
  let layout := config.(config_layout) in
  cdeny (negb region.(is_writable)) RegionNotWritable ;;*
  let size := region.(size_bytes) in
  cdeny (negb (size =? region_size layout)) (RegionSizeMismatchError (region_size layout) size) ;;*
  trailer <-* clift (map_err Segment (trailer_record size)) ;;
  header <-* clift (map_err Segment (header_record size)) ;;
  won <-* publishing trailer region.(is_writable) TRL_MAGIC TRAILER_MAGIC
            [FieldWord64 TRL_REGION_SIZE size] ;;
  cdeny (negb won) SegmentAlreadyFormatted ;;*
  doorbell <-* clift (choose_doorbell region config.(config_doorbell) accepts_a_wait created) ;;
  published <-* publishing header region.(is_writable) HDR_MAGIC MAGIC
                  (header_fields config size doorbell) ;;
  cdeny (negb published) SegmentAlreadyFormatted ;;*
  m <-* cgets id ;;
  validated <-* expect (validate (current m) size) ;;
  geometry <-* clift (map_err Segment validated) ;;
  cret {| memory := m; region := region; geometry := geometry;
          binding := binding_new region geometry; installed := []; doorbell := doorbell;
          dirty_position := 0; wake_posts := 0; wake_faults := 0 |}.

(** ** The writer's operations *)

Definition wprog := cprog SegmentWriter WriterError.

Definition writer_layout (self : SegmentWriter) : SegmentLayout := self.(geometry).(layout).

(** Assignments to one field of [self]. *)
Definition set_memory (m : Memory) (self : SegmentWriter) : SegmentWriter :=
  {| memory := m; region := self.(region); geometry := self.(geometry);
     binding := self.(binding); installed := self.(installed); doorbell := self.(doorbell);
     dirty_position := self.(dirty_position); wake_posts := self.(wake_posts);
     wake_faults := self.(wake_faults) |}.
Definition set_installed (ms : list InstalledMarket) (self : SegmentWriter) : SegmentWriter :=
  {| memory := self.(memory); region := self.(region); geometry := self.(geometry);
     binding := self.(binding); installed := ms; doorbell := self.(doorbell);
     dirty_position := self.(dirty_position); wake_posts := self.(wake_posts);
     wake_faults := self.(wake_faults) |}.
Definition set_doorbell (d : Doorbell) (self : SegmentWriter) : SegmentWriter :=
  {| memory := self.(memory); region := self.(region); geometry := self.(geometry);
     binding := self.(binding); installed := self.(installed); doorbell := d;
     dirty_position := self.(dirty_position); wake_posts := self.(wake_posts);
     wake_faults := self.(wake_faults) |}.
Definition set_dirty_position (position : Z) (self : SegmentWriter) : SegmentWriter :=
  {| memory := self.(memory); region := self.(region); geometry := self.(geometry);
     binding := self.(binding); installed := self.(installed); doorbell := self.(doorbell);
     dirty_position := position; wake_posts := self.(wake_posts);
     wake_faults := self.(wake_faults) |}.
Definition set_wakes (posts faults : Z) (self : SegmentWriter) : SegmentWriter :=
  {| memory := self.(memory); region := self.(region); geometry := self.(geometry);
     binding := self.(binding); installed := self.(installed); doorbell := self.(doorbell);
     dirty_position := self.(dirty_position); wake_posts := posts; wake_faults := faults |}.

Definition storing (f : Memory -> Memory) : wprog () :=
  cmodify (fun self => set_memory (f self.(memory)) self).

Definition doorbell_feature_bit (self : SegmentWriter) : Z := doorbell_bit self.(doorbell).

Definition ring_doorbell : wprog () :=
  self <-* cgets id ;;
  header <-* expect (ok (header_record self.(region).(size_bytes))) ;;
  cell <-* expect (ptr header HDR_DOORBELL 4) ;;
  let bumped := wrapping_add_u32 (current self.(memory) cell) 1 in
  storing (relaxed_store cell bumped) ;;*
  match self.(doorbell) with
  | InHeader => cret ()
  | Page page =>
      record <-* expect (record DOORBELL_PAGE_BYTES 0 DOORBELL_PAGE_BYTES) ;;
      word <-* expect (ptr record 0 4) ;;
      cmodify (set_doorbell (Page (relaxed_store word bumped page)))
  end.

(** [woken] is whether the platform took the wake. *)
Definition post_wake (woken : bool) : wprog () :=
  cmodify (fun self =>
    set_wakes (wrapping_add_u64 self.(wake_posts) 1)
      (if woken then self.(wake_faults) else wrapping_add_u64 self.(wake_faults) 1) self).

(** The acquire load of the header's generation, 0 without a header record. *)
Definition writer_publication_generation (self : SegmentWriter) : option Z :=
  match header_record self.(region).(size_bytes) with
  | Ok header => p ← ptr header HDR_PUBLICATION_GENERATION 8; Some (current self.(memory) p)
  | Err _ => Some 0
  end.

Definition install (market : MarketRef) : wprog MarketHandle :=
  self <-* cgets id ;;
  let layout := writer_layout self in
  let size := self.(region).(size_bytes) in
  cdeny (existsb (fun i => bool_decide (i.(installed_market) = market)) self.(installed))
    MarketAlreadyInstalled ;;*
  index <-* clift (ok_or (checked 0 U32_MAX (len self.(installed))) DirectoryFull) ;;
  cdeny (layout.(directory_capacity) <=? index) DirectoryFull ;;*
  identity <-* clift (ok_or (encode_identity market IDENTITY_CAPACITY) IdentityTooLong) ;;
  identity_len <-* clift (ok_or (checked 0 U32_MAX (len identity)) IdentityTooLong) ;;
  slot <-* clift (map_err Segment (state_slot_record size layout index)) ;;
  cell <-* expect (ptr slot SLOT_DIRECTORY_INDEX 4) ;;
  storing (relaxed_store cell index) ;;*
  entry <-* clift (map_err Segment (directory_record size layout index)) ;;
  m <-* cgets memory ;;
  written <-* expect (publish_write_once entry self.(region).(is_writable) ENT_REVISION 1
      [FieldWord32 ENT_SLOT_INDEX index; FieldWord32 ENT_IDENTITY_LEN identity_len;
       FieldBytes ENT_IDENTITY identity] m) ;;
  storing (fun _ => written.2) ;;*
  cdeny (negb written.1) MarketAlreadyInstalled ;;*
  cmodify (fun self => set_installed
    (self.(installed) ++ [{| installed_market := market; commit_time := 0; arrival_time := 0 |}])
    self) ;;*
  cret {| segment := self.(binding); entry_index := index; state_slot_index := index |}.

(** The checks every publication starts with. *)
Definition addressed (handle : MarketHandle) (market : MarketRef) : wprog () :=
  self <-* cgets id ;;
  cdeny (negb (bool_decide (handle.(segment) = self.(binding)))
         || negb (handle.(state_slot_index) =? handle.(entry_index))) UnknownHandle ;;*
  match self.(installed) !! Z.to_nat handle.(entry_index) with
  | None => cthrow UnknownHandle
  | Some i => cdeny (negb (bool_decide (i.(installed_market) = market))) WriterMarketMismatch
  end.

Definition stage_dirty : wprog StagedDirty :=
  self <-* cgets id ;;
  let position := self.(dirty_position) in
  slot <-* clift (map_err Segment
            (dirty_slot_record self.(region).(size_bytes) (writer_layout self) position)) ;;
  sequence <-* expect (ptr slot DIRTY_SEQUENCE 8) ;;
  let stable := writer_current sequence self.(memory) in
  in_flight <-* clift (ok_or (checked_add_u64 stable 1) WriterCounterOverflow) ;;
  next_stable <-* clift (ok_or (checked_add_u64 stable 2) WriterCounterOverflow) ;;
  cret {| sd_position := position; sd_in_flight := in_flight; sd_next_stable := next_stable |}.

Definition commit_dirty (staged : StagedDirty) (index book_revision : Z) : wprog () :=
  self <-* cgets id ;;
  match dirty_slot_record self.(region).(size_bytes) (writer_layout self) staged.(sd_position) with
  | Err _ => cret ()
  | Ok slot =>
      sequence <-* expect (ptr slot DIRTY_SEQUENCE 8) ;;
      stores <-* expect (dirty_stores slot staged.(sd_position) index book_revision) ;;
      storing (write_record sequence staged.(sd_in_flight) staged.(sd_next_stable) stores)
  end.

(** The interval of one record: its counter and the two values it takes. *)
Record Interval : Set := { counter_cell : Z; in_flight : Z; next_stable : Z }.

Definition stage_generation (header : CellRecord) : wprog (Z * Z) :=
  self <-* cgets id ;;
  generation <-* expect (ptr header HDR_PUBLICATION_GENERATION 8) ;;
  next_generation <-* clift (ok_or (checked_add_u64 (current self.(memory) generation) 1)
                               WriterCounterOverflow) ;;
  cret (generation, next_generation).

Definition stage_interval (slot : CellRecord) (offset : Z) : wprog Interval :=
  self <-* cgets id ;;
  counter <-* expect (ptr slot offset 8) ;;
  let stable := writer_current counter self.(memory) in
  in_flight <-* clift (ok_or (checked_add_u64 stable 1) WriterCounterOverflow) ;;
  next_stable <-* clift (ok_or (checked_add_u64 stable 2) WriterCounterOverflow) ;;
  cret {| counter_cell := counter; in_flight := in_flight; next_stable := next_stable |}.

(** Everything between [open_write] and [close_write], and both. *)
Definition written (interval : Interval) (stores : list (Z * Z)) : wprog () :=
  storing (write_record interval.(counter_cell) interval.(in_flight) interval.(next_stable) stores).

Definition stamp (index commit_time arrival_time : Z) (self : SegmentWriter) : SegmentWriter :=
  set_installed (alter (fun i => {| installed_market := i.(installed_market);
                                    commit_time := commit_time; arrival_time := arrival_time |})
                   (Z.to_nat index) self.(installed)) self.

Definition publish_stamped (handle : MarketHandle) (book : PublishedBook)
    (commit_time arrival_time : Z) (woken : bool) : wprog () :=
  let index := handle.(entry_index) in
  addressed handle book.(published_market) ;;*
  self <-* cgets id ;;
  let layout := writer_layout self in
  let size := self.(region).(size_bytes) in
  staged <-* clift (stage layout book) ;;
  dirty <-* stage_dirty ;;
  header <-* clift (map_err Segment (header_record size)) ;;
  slot <-* clift (map_err Segment (state_slot_record size layout index)) ;;
  generation <-* stage_generation header ;;
  interval <-* stage_interval slot SLOT_REVISION ;;
  stores <-* expect (state_stores slot staged commit_time arrival_time) ;;
  written interval stores ;;*
  commit_dirty dirty index staged.(st_book_revision) ;;*
  ring_doorbell ;;*
  storing (release_store generation.1 generation.2) ;;*
  cmodify (set_dirty_position (wrapping_add_u64 dirty.(sd_position) 1)) ;;*
  post_wake woken ;;*
  cmodify (stamp index commit_time arrival_time).

(** [now] is the clock's answer, [commit_time_nanos()]. *)
Definition writer_publish (handle : MarketHandle) (book : PublishedBook) (now arrival_time_nanos : Z)
    (woken : bool) : wprog () :=
  publish_stamped handle book now arrival_time_nanos woken.

Definition republish_carrying_stamps (handle : MarketHandle) (book : PublishedBook)
    (woken : bool) : wprog () :=
  self <-* cgets id ;;
  let carried := self.(installed) !! Z.to_nat handle.(entry_index) in
  let commit_time := from_option commit_time 0 carried in
  let arrival_time := from_option arrival_time 0 carried in
  publish_stamped handle book commit_time arrival_time woken.

Definition published_stamps (handle : MarketHandle) (self : SegmentWriter) : option (Z * Z) :=
  if negb (bool_decide (handle.(segment) = self.(binding))) then None
  else (fun i => (i.(commit_time), i.(arrival_time))) <$>
         self.(installed) !! Z.to_nat handle.(entry_index).

(** What the two kinds of event publication share: the slot of the cursor's position, its
    interval, the doorbell and the generation. *)
Definition publish_event (index position : Z)
    (event_stores : CellRecord -> option (list (Z * Z))) : wprog () :=
  self <-* cgets id ;;
  let size := self.(region).(size_bytes) in
  header <-* clift (map_err Segment (header_record size)) ;;
  slot <-* clift (map_err Segment (event_slot_record size (writer_layout self) index position)) ;;
  generation <-* stage_generation header ;;
  interval <-* stage_interval slot EVT_SEQUENCE ;;
  stores <-* expect (event_stores slot) ;;
  written interval stores ;;*
  ring_doorbell ;;*
  storing (release_store generation.1 generation.2).

Definition publish_mutation (handle : MarketHandle) (revision : Z) (cursor : MutationCursor)
    (mutation : BookMutation) (now arrival_time_nanos : Z) : wprog () :=
  let index := handle.(entry_index) in
  addressed handle mutation.(mutation_provenance).(market) ;;*
  staged <-* clift (stage_mutation mutation) ;;
  publish_event index cursor.(cursor_position)
    (fun slot => mutation_stores slot index cursor revision staged now arrival_time_nanos).

Definition publish_resolution (handle : MarketHandle) (revision : Z) (cursor : MutationCursor)
    (resolution : MarketResolution) (now arrival_time_nanos : Z) : wprog () :=
  let index := handle.(entry_index) in
  addressed handle resolution.(observation).(resolution_provenance).(market) ;;*
  staged <-* clift (stage_resolution resolution) ;;
  publish_event index cursor.(cursor_position)
    (fun slot => resolution_stores slot index cursor revision staged now arrival_time_nanos).
