(* ===== verification/ShmWriterProps.v ===== *)
(** * The writer of a segment: properties

    The stores of every publication as offsets from the base of its record, what a whole
    run of a writer leaves in memory, and the discipline that makes it readable. *)

From S2P Require Import Prelude OrdMap Numeric Identity Descriptor Continuity Observation Book ShmCodec ShmCell ShmLayout ShmWriter.

(** ** Stores relative to the base of their record *)

Definition shift (base : Z) (ws : list (Z * Z)) : list (Z * Z) :=
  map (fun '(o, v) => (base + o, v)) ws.

Lemma shift_app b u v : shift b (u ++ v) = shift b u ++ shift b v.
Proof. apply map_app. Qed.

Definition word_fits (width size offset : Z) : bool :=
  (offset mod width =? 0) && (width <=? size) && (offset <=? size - width).

Lemma ptr_at base size offset width : word_fits width size offset = true ->
  ptr {| rec_base := base; rec_size := size |} offset width = Some (base + offset).
Proof. intros H. unfold ptr. cbn [rec_size rec_base]. unfold word_fits in H. by rewrite H. Qed.

Lemma word_fits_grows width size size' offset : size <= size' ->
  word_fits width size offset = true -> word_fits width size' offset = true.
Proof.
  unfold word_fits. intros Hs H. bool_facts.
  apply andb_true_iff; split; [apply andb_true_iff; split|];
    [by apply Z.eqb_eq|apply Z.leb_le; lia..].
Qed.

Lemma words_at width base size ws :
  forallb (fun e => word_fits width size e.1) ws = true ->
  mapM (fun '(offset, value) =>
    p ← ptr {| rec_base := base; rec_size := size |} offset width; Some (p, value : Z)) ws
  = Some (shift base ws).
Proof.
  induction ws as [|[o v] ws IH]; [done|]. cbn [forallb fst]. intros [Ho Hw]%andb_true_iff.
  cbn [mapM]. rewrite (ptr_at _ _ _ _ Ho). cbn [mbind option_bind]. by rewrite (IH Hw).
Qed.

Lemma word64s_at base size ws : forallb (fun e => word_fits 8 size e.1) ws = true ->
  word64s {| rec_base := base; rec_size := size |} ws = Some (shift base ws).
Proof. apply words_at. Qed.
Lemma word32s_at base size ws : forallb (fun e => word_fits 4 size e.1) ws = true ->
  word32s {| rec_base := base; rec_size := size |} ws = Some (shift base ws).
Proof. apply words_at. Qed.

Lemma words_fit_grow width size size' ws : size <= size' ->
  forallb (fun e : Z * Z => word_fits width size e.1) ws = true ->
  forallb (fun e => word_fits width size' e.1) ws = true.
Proof.
  intros Hs. rewrite !forallb_forall. intros H e He. eapply word_fits_grows; [done|]. by apply H.
Qed.

Lemma text_words_fit base size words : base mod 8 = 0 -> 0 <= base ->
  base + 8 * len words <= size ->
  forallb (fun e => word_fits 8 size e.1) (text_words base words) = true.
Proof.
  intros Hb H0 Hs. apply forallb_forall. intros [o v] He. apply list_elem_of_In in He.
  unfold text_words in He. apply list_elem_of_lookup in He as (k & Hk).
  apply list_lookup_imap_Some in Hk as (w & Hw & [= -> ->]). apply lookup_lt_Some in Hw.
  unfold len in Hs. unfold word_fits. cbn [fst]. rewrite Z.mod_add, Hb by lia.
  apply andb_true_iff. split; [apply andb_true_iff; split; [done|]|]; apply Z.leb_le; lia.
Qed.

(** One goal per group of stores. *)
Ltac each_group := repeat (apply Forall2_cons; split); [..|by constructor].

Lemma all_stores_at base groups wss : Forall2 (fun g ws => g = Some (shift base ws)) groups wss ->
  all_stores groups = Some (shift base (mjoin wss)).
Proof.
  unfold all_stores. intros H.
  assert (E : mapM id groups = Some (shift base <$> wss)).
  { induction H as [|g ws gs wss -> _ IH]; [done|]. simpl. by rewrite IH. }
  rewrite E. simpl. f_equal. clear. induction wss as [|ws wss IH]; [done|].
  change (mjoin (shift base <$> ws :: wss)) with (shift base ws ++ mjoin (shift base <$> wss)).
  by rewrite IH, <- shift_app.
Qed.

(** ** The words of a publication *)

Definition decimal_cells_of (offset : Z) (d : DecimalWords) : list (Z * Z) :=
  [(offset + DEC_COEFFICIENT_LOW, d.(dec_low)); (offset + DEC_COEFFICIENT_HIGH, d.(dec_high));
   (offset + DEC_SCALE, d.(dec_scale))].

Definition level_offset (position : nat) : Z :=
  SLOT_PREFIX_BYTES + Z.of_nat position * LEVEL_CELL_BYTES.

Definition level_words_at (position : nat) (level : LevelWords) : list (Z * Z) :=
  (level_offset position + LVL_SIDE, level.(level_side))
  :: decimal_cells_of (level_offset position + LVL_PRICE) level.(level_price)
  ++ decimal_cells_of (level_offset position + LVL_QUANTITY) level.(level_quantity).

Definition state_head (staged : StagedState) (commit_time arrival_time : Z) : list (Z * Z) :=
  [(SLOT_BOOK_REVISION, staged.(st_book_revision));
   (SLOT_CONTINUITY_EPOCH, staged.(st_continuity_epoch));
   (SLOT_CONTINUITY_POSITION, staged.(st_continuity_position));
   (SLOT_SYNC_DIVERGENCES, staged.(st_sync_divergences));
   (SLOT_COMMIT_TIME, commit_time); (SLOT_ARRIVAL_TIME, arrival_time)]
  ++ text_words SLOT_FAMILY_WORDS staged.(st_family_words)
  ++ [(SLOT_AUTHORITY_STATE, staged.(st_authority_state));
      (SLOT_AUTHORITY_REASON, staged.(st_authority_reason));
      (SLOT_CONTINUITY_KIND, staged.(st_continuity_kind));
      (SLOT_CONTINUITY_REASON, staged.(st_continuity_reason));
      (SLOT_PROVENANCE_PRESENT, staged.(st_provenance_present));
      (SLOT_ORIGIN, staged.(st_origin)); (SLOT_DERIVATION, staged.(st_derivation));
      (SLOT_REPRESENTATION, staged.(st_representation));
      (SLOT_FAMILY_LEN, staged.(st_family_length))].

Definition state_words (staged : StagedState) (commit_time arrival_time : Z) : list (Z * Z) :=
  state_head staged commit_time arrival_time
  ++ mjoin (imap level_words_at staged.(st_levels))
  ++ [(SLOT_LEVEL_COUNT, as_u32 (len staged.(st_levels)))].

Definition dirty_words (position index book_revision : Z) : list (Z * Z) :=
  [(DIRTY_POSITION, position); (DIRTY_DIRECTORY_INDEX, index); (DIRTY_BOOK_REVISION, book_revision)].

Definition event_head (cursor : MutationCursor) (revision commit_time arrival_time
    daemon_generation subscription_generation : Z) : list (Z * Z) :=
  [(EVT_CURSOR_EPOCH, cursor.(cursor_epoch)); (EVT_CURSOR_POSITION, cursor.(cursor_position));
   (EVT_BOOK_REVISION, revision); (EVT_COMMIT_TIME, commit_time); (EVT_ARRIVAL_TIME, arrival_time);
   (EVT_DAEMON_GENERATION, daemon_generation);
   (EVT_SUBSCRIPTION_GENERATION, subscription_generation)].

Definition mutation_words (index : Z) (cursor : MutationCursor) (revision : Z)
    (staged : StagedMutation) (commit_time arrival_time : Z) : list (Z * Z) :=
  event_head cursor revision commit_time arrival_time staged.(sm_daemon_generation)
    staged.(sm_subscription_generation)
  ++ text_words EVT_FAMILY_WORDS staged.(sm_family_words)
  ++ [(EVT_DELIVERY_KIND, DELIVERY_LEVEL_MUTATION); (EVT_ORIGIN, staged.(sm_origin));
      (EVT_DERIVATION, staged.(sm_derivation)); (EVT_REPRESENTATION, staged.(sm_representation));
      (EVT_SIDE, staged.(sm_side)); (EVT_OLD_PRESENT, staged.(sm_old_present));
      (EVT_NEW_PRESENT, staged.(sm_new_present)); (EVT_FAMILY_LEN, staged.(sm_family_length));
      (EVT_DIRECTORY_INDEX, index)]
  ++ decimal_cells_of EVT_PRICE staged.(sm_price)
  ++ decimal_cells_of EVT_OLD_QUANTITY staged.(sm_old_quantity)
  ++ decimal_cells_of EVT_NEW_QUANTITY staged.(sm_new_quantity).

Definition resolution_words (index : Z) (cursor : MutationCursor) (revision : Z)
    (staged : StagedResolution) (commit_time arrival_time : Z) : list (Z * Z) :=
  event_head cursor revision commit_time arrival_time staged.(sr_daemon_generation)
    staged.(sr_subscription_generation)
  ++ text_words EVT_RES_OUTCOME staged.(sr_outcome_words)
  ++ text_words EVT_RES_TYPE staged.(sr_type_words)
  ++ text_words EVT_RES_DATE staged.(sr_date_words)
  ++ [(EVT_DELIVERY_KIND, DELIVERY_MARKET_RESOLVED); (EVT_ORIGIN, staged.(sr_origin));
      (EVT_DERIVATION, staged.(sr_derivation)); (EVT_REPRESENTATION, staged.(sr_representation));
      (EVT_RES_WINNING_INDEX, staged.(sr_winning_index));
      (EVT_RES_DELIVERY_PATH, staged.(sr_delivery_path));
      (EVT_RES_OUTCOME_LEN, staged.(sr_outcome_length));
      (EVT_RES_TYPE_LEN, staged.(sr_type_length)); (EVT_RES_DATE_LEN, staged.(sr_date_length));
      (EVT_DIRECTORY_INDEX, index)].

(** *** They are what the operations store, without a failed assertion *)

Definition staged_fits (capacity : Z) (staged : StagedState) : Prop :=
  length staged.(st_family_words) = 8%nat /\ len staged.(st_levels) <= capacity.

Lemma sub_at base size offset size' : word_fits 8 (size - size' + 8) offset = true -> size' <= size ->
  sub {| rec_base := base; rec_size := size |} offset size'
  = Some {| rec_base := base + offset; rec_size := size' |}.
Proof.
  unfold word_fits. intros H Hs. bool_facts. unfold sub. cbn [rec_size rec_base].
  assert ((offset mod 8 =? 0) && (size' <=? size) && (offset <=? size - size') = true) as ->; [|done].
  apply andb_true_iff; split; [apply andb_true_iff; split|]; [by apply Z.eqb_eq|apply Z.leb_le; lia..].
Qed.

Lemma store_decimal_at base offset d :
  store_decimal {| rec_base := base + offset; rec_size := DECIMAL_CELL_BYTES |} d
  = Some (shift base (decimal_cells_of offset d)).
Proof.
  unfold store_decimal. rewrite (all_stores_at (base + offset)
    _ [[(DEC_COEFFICIENT_LOW, dec_low d); (DEC_COEFFICIENT_HIGH, dec_high d)]; [(DEC_SCALE, dec_scale d)]]).
  - unfold decimal_cells_of. cbn. by rewrite !Z.add_assoc.
  - each_group; [by apply word64s_at|by apply word32s_at].
Qed.

Lemma decimal_stores_at base size offset d :
  word_fits 8 (size - DECIMAL_CELL_BYTES + 8) offset = true -> DECIMAL_CELL_BYTES <= size ->
  decimal_stores {| rec_base := base; rec_size := size |} offset d
  = Some (shift base (decimal_cells_of offset d)).
Proof.
  intros H Hs. unfold decimal_stores. rewrite (sub_at _ _ _ _ H Hs). apply store_decimal_at.
Qed.

Lemma shift_shift b o ws : shift (b + o) ws = shift b (shift o ws).
Proof. unfold shift. rewrite map_map. apply List.map_ext. intros [x v]. by rewrite Z.add_assoc. Qed.

Lemma level_stores_at base size k level : level_offset k + LEVEL_CELL_BYTES <= size ->
  level_stores {| rec_base := base; rec_size := size |} k level
  = Some (shift base (level_words_at k level)).
Proof.
  intros Hs. unfold level_stores. fold (level_offset k).
  assert (0 <= level_offset k /\ level_offset k mod 8 = 0) as [H0 H8].
  { unfold level_offset, SLOT_PREFIX_BYTES, LEVEL_CELL_BYTES. split; [lia|].
    replace (256 + Z.of_nat k * 64) with ((32 + Z.of_nat k * 8) * 8) by lia. apply Z.mod_mul. lia. }
  rewrite sub_at; [|unfold word_fits; rewrite H8; unfold LEVEL_CELL_BYTES in *;
    apply andb_true_iff; split; [apply andb_true_iff; split; [done|]|]; apply Z.leb_le; lia
    |unfold LEVEL_CELL_BYTES in *; lia].
  cbn [mbind option_bind]. rewrite (all_stores_at (base + level_offset k) _
    [[(LVL_SIDE, level_side level)]; decimal_cells_of LVL_PRICE (level_price level);
     decimal_cells_of LVL_QUANTITY (level_quantity level)]).
  - rewrite shift_shift. unfold level_words_at, decimal_cells_of. cbn. by rewrite !Z.add_assoc.
  - each_group; [by apply word32s_at|by apply decimal_stores_at..].
Qed.

Lemma state_stores_at base size staged commit_time arrival_time capacity :
  staged_fits capacity staged -> SLOT_PREFIX_BYTES + capacity * LEVEL_CELL_BYTES <= size ->
  state_stores {| rec_base := base; rec_size := size |} staged commit_time arrival_time
  = Some (shift base (state_words staged commit_time arrival_time)).
Proof.
  intros [Hf Hl] Hs. pose proof (len_nonneg staged.(st_levels)).
  assert (H256 : SLOT_PREFIX_BYTES <= size) by (unfold LEVEL_CELL_BYTES in Hs; lia).
  set (head64 := [(SLOT_BOOK_REVISION, st_book_revision staged); (SLOT_CONTINUITY_EPOCH, st_continuity_epoch staged);
    (SLOT_CONTINUITY_POSITION, st_continuity_position staged);
    (SLOT_SYNC_DIVERGENCES, st_sync_divergences staged);
    (SLOT_COMMIT_TIME, commit_time); (SLOT_ARRIVAL_TIME, arrival_time)]).
  set (head32 := [(SLOT_AUTHORITY_STATE, st_authority_state staged);
    (SLOT_AUTHORITY_REASON, st_authority_reason staged);
    (SLOT_CONTINUITY_KIND, st_continuity_kind staged);
    (SLOT_CONTINUITY_REASON, st_continuity_reason staged);
    (SLOT_PROVENANCE_PRESENT, st_provenance_present staged);
    (SLOT_ORIGIN, st_origin staged); (SLOT_DERIVATION, st_derivation staged);
    (SLOT_REPRESENTATION, st_representation staged); (SLOT_FAMILY_LEN, st_family_length staged)]).
  unfold state_stores. fold head64 head32. rewrite (all_stores_at base _
    ([head64; text_words SLOT_FAMILY_WORDS (st_family_words staged); head32]
     ++ imap level_words_at (st_levels staged)
     ++ [[(SLOT_LEVEL_COUNT, as_u32 (len (st_levels staged)))]])).
  - f_equal. f_equal. unfold state_words, state_head. fold head64 head32.
    rewrite <- !app_assoc, !join_app. cbn [mjoin list_join app].
    by rewrite app_nil_r, <- !app_assoc.
  - apply Forall2_app; [|apply Forall2_app].
    + each_group; [apply word64s_at|apply word64s_at|apply word32s_at].
      * by apply (words_fit_grow 8 SLOT_PREFIX_BYTES).
      * apply text_words_fit; [done|done|]. unfold len. rewrite Hf.
        unfold SLOT_FAMILY_WORDS, SLOT_PREFIX_BYTES in *. lia.
      * by apply (words_fit_grow 4 SLOT_PREFIX_BYTES).
    + apply Forall2_same_length_lookup. split; [by rewrite !length_imap|].
      intros k g ws Hg Hw. apply list_lookup_imap_Some in Hg as (lv & Hk & ->).
      apply list_lookup_imap_Some in Hw as (lv' & Hk' & ->). rewrite Hk in Hk'. injection Hk' as <-.
      apply level_stores_at. apply lookup_lt_Some in Hk. unfold len in *. unfold level_offset.
      unfold SLOT_PREFIX_BYTES, LEVEL_CELL_BYTES in *. lia.
    + each_group. apply word32s_at. by apply (words_fit_grow 4 SLOT_PREFIX_BYTES).
Qed.

Lemma dirty_stores_at base position index revision :
  dirty_stores {| rec_base := base; rec_size := DIRTY_SLOT_BYTES |} position index revision
  = Some (shift base (dirty_words position index revision)).
Proof.
  unfold dirty_stores. rewrite (all_stores_at base _
    [[(DIRTY_POSITION, position)]; [(DIRTY_DIRECTORY_INDEX, index)]; [(DIRTY_BOOK_REVISION, revision)]]);
    [done|]. each_group; [by apply word64s_at|by apply word32s_at|by apply word64s_at].
Qed.

Lemma mutation_stores_at base index cursor revision staged commit_time arrival_time :
  length staged.(sm_family_words) = 8%nat ->
  mutation_stores {| rec_base := base; rec_size := EVENT_SLOT_BYTES |} index cursor revision staged
    commit_time arrival_time
  = Some (shift base (mutation_words index cursor revision staged commit_time arrival_time)).
Proof.
  intros Hf. unfold mutation_stores. erewrite (all_stores_at base); [|
    each_group;
    [by apply word64s_at|apply word64s_at, text_words_fit; try done; unfold len; by rewrite Hf
    |by apply word32s_at|by apply decimal_stores_at..]].
  done.
Qed.

Lemma resolution_stores_at base index cursor revision staged commit_time arrival_time :
  length staged.(sr_outcome_words) = 8%nat -> length staged.(sr_type_words) = 4%nat ->
  length staged.(sr_date_words) = 4%nat ->
  resolution_stores {| rec_base := base; rec_size := EVENT_SLOT_BYTES |} index cursor revision
    staged commit_time arrival_time
  = Some (shift base (resolution_words index cursor revision staged commit_time arrival_time)).
Proof.
  intros Ho Ht Hd. unfold resolution_stores. erewrite (all_stores_at base); [|
    each_group;
    [by apply word64s_at
    |apply word64s_at, text_words_fit; try done; unfold len; by rewrite Ho
    |apply word64s_at, text_words_fit; try done; unfold len; by rewrite Ht
    |apply word64s_at, text_words_fit; try done; unfold len; by rewrite Hd
    |by apply word32s_at]].
  done.
Qed.

(** ** Packed text *)

Lemma length_pack_loop n text words : length (pack_loop n text words) = length words.
Proof.
  revert n words. induction text as [|b text IH]; intros n words; simpl; [done|].
  by rewrite IH, length_alter.
Qed.

Lemma pack_text_Some W text n ws : 0 <= W -> pack_text W text = Some (n, ws) <->
  len text <= W * 8 /\ len text <= U32_MAX /\ n = len text /\
  ws = pack_loop 0 text (replicate (Z.to_nat W) 0).
Proof.
  intros HW. unfold pack_text. destruct (Z.ltb_spec (W * 8) (len text)).
  - split; [done|lia].
  - pose proof (len_nonneg text). destruct (checked 0 U32_MAX (len text)) as [k|] eqn:E.
    + apply checked_Some in E as [<- ?]. simpl. split; [intros [= <- <-]; split_and!; done || lia|].
      by intros (_ & _ & -> & ->).
    + apply checked_None in E. split; [done|lia].
Qed.

Lemma pack_text_length W text n ws : 0 <= W -> pack_text W text = Some (n, ws) ->
  length ws = Z.to_nat W.
Proof.
  intros HW (_ & _ & _ & ->)%pack_text_Some; [|done]. by rewrite length_pack_loop, length_replicate.
Qed.

(** The byte at a position of the words. *)
Definition packed_byte (words : list Z) (position : nat) : Z :=
  Z.shiftr (default 0 (words !! (position / 8)%nat)) (Z.of_nat (position mod 8) * 8) mod 256.

Lemma byte_lor w b j k : 0 <= b < 256 -> 0 <= j -> 0 <= k ->
  Z.shiftr w (k * 8) mod 256 = 0 ->
  Z.shiftr (Z.lor w (Z.shiftl b (k * 8))) (j * 8) mod 256
  = if j =? k then b else Z.shiftr w (j * 8) mod 256.
Proof.
  intros Hb Hj Hk H0. change 256 with (2 ^ 8) in *. rewrite <- !Z.land_ones in * by lia.
  apply Z.bits_inj'. intros i Hi. rewrite Z.land_spec, Z.testbit_ones_nonneg by lia.
  destruct (Z.ltb_spec i 8) as [Hi8|Hi8].
  - rewrite andb_true_r, Z.shiftr_spec, Z.lor_spec, Z.shiftl_spec by lia.
    destruct (Z.eqb_spec j k) as [->|Hne].
    + replace (i + k * 8 - k * 8) with i by lia.
      assert (Z.testbit w (i + k * 8) = false) as ->; [|done].
      assert (Ht : Z.testbit (Z.land (Z.shiftr w (k * 8)) (Z.ones 8)) i = false) by (by rewrite H0, Z.bits_0).
      rewrite Z.land_spec, Z.testbit_ones_nonneg, (proj2 (Z.ltb_lt i 8)), andb_true_r, Z.shiftr_spec in Ht by lia.
      done.
    + assert (Z.testbit b (i + j * 8 - k * 8) = false) as ->.
      { destruct (Z.lt_total j k) as [|[|]]; [apply Z.testbit_neg_r; lia|lia|].
        destruct (Z.eq_dec b 0) as [->|]; [apply Z.bits_0|].
        apply Z.bits_above_log2; [lia|]. assert (Z.log2 b < 8); [|lia].
        apply Z.log2_lt_pow2; lia. }
      rewrite orb_false_r, Z.land_spec, Z.testbit_ones_nonneg, (proj2 (Z.ltb_lt i 8)), andb_true_r, Z.shiftr_spec by lia.
      done.
  - rewrite andb_false_r. destruct (j =? k).
    + symmetry. destruct (Z.eq_dec b 0) as [->|]; [apply Z.bits_0|].
      apply Z.bits_above_log2; [lia|]. assert (Z.log2 b < 8); [|lia].
      apply Z.log2_lt_pow2; lia.
    + symmetry. by rewrite Z.land_spec, Z.testbit_ones_nonneg, (proj2 (Z.ltb_ge i 8)), andb_false_r by lia.
Qed.

Lemma position_word p q : (p / 8 = q / 8)%nat -> (p mod 8 = q mod 8)%nat -> p = q.
Proof. intros Hd Hm. rewrite (Nat.div_mod_eq p 8), (Nat.div_mod_eq q 8). lia. Qed.

Lemma pack_loop_bytes n text words : are_bytes text = true ->
  (n + length text <= 8 * length words)%nat ->
  (forall p, (n <= p)%nat -> packed_byte words p = 0) ->
  forall p, packed_byte (pack_loop n text words) p
    = if (p <? n)%nat then packed_byte words p else default 0 (text !! (p - n)%nat).
Proof.
  revert n words. induction text as [|b text IH]; intros n words Hb Hl H0 p.
  { simpl. destruct (Nat.ltb_spec p n); [done|]. by apply H0. }
  simpl in Hb. apply andb_true_iff in Hb as [Hb Ht]. apply in_range_spec in Hb. simpl in Hl.
  assert (Hstep : forall q, packed_byte (alter (fun w => Z.lor w (Z.shiftl b (Z.of_nat (n mod 8) * 8)))
      (n / 8)%nat words) q = if decide (q = n) then b else packed_byte words q).
  { intros q. unfold packed_byte. destruct (decide (q / 8 = n / 8)%nat) as [E|E].
    - rewrite E, list_lookup_alter.
      assert (Hn : (n / 8 < length words)%nat) by (apply Nat.Div0.div_lt_upper_bound; lia).
      destruct (lookup_lt_is_Some_2 _ _ Hn) as [w Hw]. rewrite Hw.
      rewrite decide_True by done. cbn [fmap option_fmap option_map from_option id].
      pose proof (H0 n ltac:(lia)) as Hz. unfold packed_byte in Hz. rewrite Hw in Hz.
      cbn [from_option id] in Hz.
      rewrite byte_lor by (lia || done).
      destruct (decide (q = n)) as [->|Hqn]; [by rewrite Z.eqb_refl|].
      rewrite (proj2 (Z.eqb_neq _ _)); [done|]. intros Em. apply Hqn. apply position_word; [done|lia].
    - rewrite list_lookup_alter_ne by done. rewrite decide_False; [done|]. congruence. }
  simpl. rewrite IH; [..|].
  - rewrite Hstep. destruct (Nat.ltb_spec p (S n)), (Nat.ltb_spec p n); try lia.
    + by rewrite decide_False by lia.
    + assert (p = n) as -> by lia. rewrite decide_True, Nat.sub_diag by done. done.
    + by replace (p - n)%nat with (S (p - S n)) by lia.
  - done.
  - rewrite length_alter. lia.
  - intros q Hq. rewrite Hstep, decide_False by lia. apply H0. lia.
Qed.

(** Reading the bytes back gives the text. *)
Lemma packed_text W text n ws : 0 <= W -> are_bytes text = true ->
  pack_text W text = Some (n, ws) ->
  n = len text /\ len text <= W * 8 /\
  map (packed_byte ws) (seq 0 (length text)) = text.
Proof.
  intros HW Hb (Hl & _ & -> & ->)%pack_text_Some; [|done]. split_and!; [done..|].
  apply list_eq. intros p. rewrite list_lookup_fmap.
  destruct (decide (p < length text)%nat) as [Hp|Hp].
  - rewrite lookup_seq_lt by done. simpl. rewrite pack_loop_bytes.
    + simpl. rewrite Nat.sub_0_r. destruct (lookup_lt_is_Some_2 _ _ Hp) as [b ->]. done.
    + done.
    + rewrite length_replicate. unfold len in Hl. lia.
    + intros q _. unfold packed_byte.
      assert (default 0 (replicate (Z.to_nat W) 0 !! (q / 8)%nat) = 0) as ->; [|by rewrite Z.shiftr_0_l].
      destruct (replicate _ _ !! _) eqn:E; [|done]. by apply lookup_replicate in E as [-> _].
  - rewrite lookup_seq_ge by lia. simpl. by rewrite lookup_ge_None_2 by lia.
Qed.

(** ** What staging accepts *)

Lemma pack_family_Ok family n ws : pack_family family = Ok (n, ws) <->
  pack_text NATIVE_FAMILY_WORDS family = Some (n, ws).
Proof. unfold pack_family. by rewrite ok_or_Ok. Qed.

Lemma stage_fits layout book staged : stage layout book = Ok staged ->
  staged_fits layout.(level_capacity) staged.
Proof.
  unfold stage. destruct (Z.ltb_spec layout.(level_capacity) (len book.(published_levels))); [done|].
  destruct (authority_words _) as [??]. destruct (continuity_words _) as [[[??]?]?].
  intros Hs. destruct (published_provenance book) as [p|].
  - destruct (pack_family _) as [[n ws]|e] eqn:E; [|done]. apply pack_family_Ok in E.
    destruct (origin_words _) as [??]. injection Hs as <-. split; simpl; [by apply pack_text_length in E|].
    unfold len in *. rewrite length_fmap. lia.
  - injection Hs as <-. split; simpl; [done|]. unfold len in *. rewrite length_fmap. lia.
Qed.

Lemma stage_mutation_fits mutation staged : stage_mutation mutation = Ok staged ->
  length staged.(sm_family_words) = 8%nat.
Proof.
  unfold stage_mutation. destruct (ok_or _ _) as [level|]; [|done].
  destruct (pack_family _) as [[n ws]|e] eqn:E; [|done]. apply pack_family_Ok in E.
  destruct (origin_words _) as [??]. intros [= <-]. by apply pack_text_length in E.
Qed.

Lemma stage_resolution_fits resolution staged : stage_resolution resolution = Ok staged ->
  length staged.(sr_outcome_words) = 8%nat /\ length staged.(sr_type_words) = 4%nat /\
  length staged.(sr_date_words) = 4%nat.
Proof.
  unfold stage_resolution. destruct (ok_or (text_value _) _) as [outcome|]; [|done].
  destruct (ok_or (pack_text RES_OUTCOME_WORDS _) _) as [[on ow]|] eqn:Eo; [|done].
  destruct (ok_or (pack_text RES_TYPE_WORDS _) _) as [[tn tw]|] eqn:Et; [|done].
  destruct (ok_or (pack_text RES_DATE_WORDS _) _) as [[dn dw]|] eqn:Ed; [|done].
  apply ok_or_Ok in Eo, Et, Ed. destruct (origin_words _) as [??].
  destruct (ok_or (delivery_path_word _) _) as [path|]; [|done]. intros [= <-]. simpl.
  apply pack_text_length in Eo, Et, Ed; done.
Qed.
