(* ===== verification/QueueAge.v ===== *)
(** * The histogram of an interval ([src/src/limitless/shard.rs])

    Queue ages and publication latencies are recorded into twenty-four power-of-two buckets
    and read back as percentiles. What a percentile says of the samples is the theorem
    [permille_bounds_the_sample]. *)

From S2P Require Import Prelude.

Definition QUEUE_AGE_BUCKETS : nat := 24.

Record QueueAgeSummary : Set := {
  qs_samples : Z; qs_last_micros : Z; qs_max_micros : Z; qs_p50_micros : Z; qs_p99_micros : Z
}.

Record PublishLatencySummary : Set := {
  ps_samples : Z; ps_last_micros : Z; ps_max_micros : Z; ps_p50_micros : Z; ps_p99_micros : Z;
  ps_p999_micros : Z
}.

Definition is_unmeasured (self : PublishLatencySummary) : bool := self.(ps_samples) =? 0.

Record QueueAge : Set := {
  buckets : list Z; samples : Z; last_micros : Z; max_micros : Z
}.

Definition queue_age_new : QueueAge :=
  {| buckets := replicate QUEUE_AGE_BUCKETS 0; samples := 0; last_micros := 0; max_micros := 0 |}.

(** [u64::BITS - micros.leading_zeros()]. *)
Definition bit_length (x : Z) : nat := if x =? 0 then 0%nat else S (Z.to_nat (Z.log2 x)).

Definition bucket_of (micros : Z) : nat := Nat.min (bit_length micros) (QUEUE_AGE_BUCKETS - 1).

Definition record (micros : Z) (self : QueueAge) : QueueAge :=
  {| buckets := alter (fun count => saturating_add_u64 count 1) (bucket_of micros) self.(buckets);
     samples := saturating_add_u64 self.(samples) 1; last_micros := micros;
     max_micros := Z.max self.(max_micros) micros |}.

(** The walk over the buckets from [index] on, with [seen] counted before it. *)
Fixpoint permille_walk (target max seen : Z) (index : nat) (counts : list Z) : Z :=
  match counts with
  | [] => max
  | count :: counts =>
      let seen := saturating_add_u64 seen count in
      if target <=? seen
      then if Nat.eqb index (QUEUE_AGE_BUCKETS - 1) then max
           else Z.min (default U64_MAX (if Z.of_nat index <? 64 then Some (Z.shiftl 1 (Z.of_nat index))
                                        else None)) max
      else permille_walk target max seen (S index) counts
  end.

Definition div_ceil (x y : Z) : Z := (x + y - 1) / y.

Definition permille (per_mille : Z) (self : QueueAge) : Z :=
  if self.(samples) =? 0 then 0
  else
    let rank := div_ceil (Z.min U128_MAX (self.(samples) * per_mille)) 1000 in
    permille_walk (Z.max (Z.min rank U64_MAX) 1) self.(max_micros) 0 0 self.(buckets).

Definition percentile (percent : Z) (self : QueueAge) : Z :=
  permille (Z.min U64_MAX (percent * 10)) self.

Definition queue_age_summary (self : QueueAge) : QueueAgeSummary :=
  {| qs_samples := self.(samples); qs_last_micros := self.(last_micros);
     qs_max_micros := self.(max_micros); qs_p50_micros := percentile 50 self;
     qs_p99_micros := percentile 99 self |}.

Definition publish_latency_summary (self : QueueAge) : PublishLatencySummary :=
  {| ps_samples := self.(samples); ps_last_micros := self.(last_micros);
     ps_max_micros := self.(max_micros); ps_p50_micros := percentile 50 self;
     ps_p99_micros := percentile 99 self; ps_p999_micros := permille 999 self |}.

(** ** What the buckets hold *)

Definition recorded (l : list Z) : QueueAge := foldr record queue_age_new l.

(** How many samples satisfy [p]. *)
Definition tally (p : Z -> bool) (l : list Z) : Z := len (List.filter p l).

Lemma tally_cons p x l : tally p (x :: l) = (if p x then 1 else 0) + tally p l.
Proof. unfold tally, len. simpl. destruct (p x); simpl; lia. Qed.

Lemma tally_bounds p l : 0 <= tally p l <= len l.
Proof.
  induction l as [|x l IH]; [done|]. rewrite tally_cons. unfold len in *. simpl in *.
  destruct (p x); lia.
Qed.

Lemma tally_split (p q r : Z -> bool) l : (forall x, In x l ->
    (if r x then 1 else 0) = (if p x then 1 else 0) + (if q x then 1 else 0)) ->
  tally r l = tally p l + tally q l.
Proof.
  induction l as [|x l IH]; intros H; [done|]. rewrite !tally_cons.
  rewrite (H x) by (by left). rewrite IH by (intros y Hy; apply H; by right). lia.
Qed.

Lemma tally_mono p q l : (forall x, In x l -> p x = true -> q x = true) -> tally p l <= tally q l.
Proof.
  induction l as [|x l IH]; intros H; [done|]. rewrite !tally_cons.
  specialize (IH (fun y Hy => H y (or_intror Hy))). specialize (H x (or_introl eq_refl)).
  destruct (p x); [rewrite H by done|destruct (q x)]; lia.
Qed.

Lemma tally_max_pos p l x : In x l -> p x = true -> 0 < tally p l.
Proof.
  induction l as [|y l IH]; [done|]. rewrite tally_cons.
  pose proof (tally_bounds p l). intros [->|Hx] Hp; [rewrite Hp; lia|].
  specialize (IH Hx Hp). destruct (p y); lia.
Qed.

Lemma recorded_samples l : len l <= U64_MAX -> (recorded l).(samples) = len l.
Proof.
  induction l as [|x l IH]; [done|]. unfold len in *. simpl. intros H.
  rewrite IH by lia. unfold saturating_add_u64. bounds; lia.
Qed.

Lemma recorded_length l : length (recorded l).(buckets) = QUEUE_AGE_BUCKETS.
Proof. induction l as [|x l IH]; [done|]. simpl. by rewrite length_alter. Qed.

Definition in_bucket (i : nat) (x : Z) : bool := Nat.eqb (bucket_of x) i.

Lemma recorded_bucket l i : len l <= U64_MAX -> (i < QUEUE_AGE_BUCKETS)%nat ->
  (recorded l).(buckets) !! i = Some (tally (in_bucket i) l).
Proof.
  intros Hl Hi. induction l as [|x l IH].
  - change (replicate QUEUE_AGE_BUCKETS 0 !! i = Some 0). by apply lookup_replicate_2.
  - rewrite tally_cons. assert (Hl' : len l < U64_MAX) by (unfold len in *; simpl in *; lia).
    specialize (IH ltac:(lia)). simpl. unfold in_bucket at 1.
    destruct (Nat.eqb_spec (bucket_of x) i) as [->|Hn].
    + rewrite list_lookup_alter_eq, IH. simpl. f_equal. pose proof (tally_bounds (in_bucket i) l).
      unfold saturating_add_u64. lia.
    + by rewrite list_lookup_alter_ne.
Qed.

Lemma recorded_max l : Forall (Z.le 0) l ->
  (forall x, In x l -> x <= (recorded l).(max_micros)) /\ 0 <= (recorded l).(max_micros)
  /\ (l <> [] -> In (recorded l).(max_micros) l).
Proof.
  induction 1 as [|x l Hx _ (IH1 & IH2 & IH3)]; simpl; [done|]. split; [|split].
  - intros y [<-|Hy]; [lia|]. specialize (IH1 y Hy). lia.
  - lia.
  - intros _. destruct (Z.max_spec (recorded l).(max_micros) x) as [[_ ->]|[Hle ->]]; [by left|].
    destruct l as [|y l]; [left; simpl in *; lia|]. right. by apply IH3.
Qed.

(** ** What lies below a bucket's bound *)

Definition below (i : nat) (x : Z) : bool := Nat.ltb (bucket_of x) i.

Lemma below_S l i : tally (below (S i)) l = tally (below i) l + tally (in_bucket i) l.
Proof.
  apply tally_split. intros x _. unfold below, in_bucket.
  destruct (Nat.ltb_spec (bucket_of x) (S i)), (Nat.ltb_spec (bucket_of x) i),
    (Nat.eqb_spec (bucket_of x) i); lia.
Qed.

Lemma bit_length_below x i : 0 <= x -> (bit_length x <= i)%nat <-> x < 2 ^ Z.of_nat i.
Proof.
  intros Hx. unfold bit_length. destruct (Z.eqb_spec x 0) as [->|Hn].
  - split; [intros _; apply Z.pow_pos_nonneg; lia|lia].
  - pose proof (Z.log2_nonneg x). rewrite (Z.log2_lt_pow2 x) by lia. lia.
Qed.

Lemma bucket_le x i : 0 <= x -> (i < QUEUE_AGE_BUCKETS - 1)%nat ->
  (bucket_of x <= i)%nat <-> x < 2 ^ Z.of_nat i.
Proof.
  intros Hx Hi. rewrite <- bit_length_below by done. unfold bucket_of, QUEUE_AGE_BUCKETS in *. lia.
Qed.

(** The walk stops at the first bucket that reaches the target. *)
Lemma permille_walk_stops l target max k : forall counts index,
  len l <= U64_MAX -> target <= len l ->
  (k = length counts)%nat -> (index + k = QUEUE_AGE_BUCKETS)%nat ->
  (forall j, (j < k)%nat -> counts !! j = Some (tally (in_bucket (index + j)) l)) ->
  tally (below index) l < target ->
  exists i, (index <= i < QUEUE_AGE_BUCKETS)%nat /\ tally (below i) l < target
    /\ target <= tally (below (S i)) l
    /\ permille_walk target max (tally (below index) l) index counts
       = if Nat.eqb i (QUEUE_AGE_BUCKETS - 1) then max else Z.min (2 ^ Z.of_nat i) max.
Proof.
  induction k as [|k IH]; intros counts index Hl Ht Hk Hi Hc Hlow.
  - exfalso. assert (tally (below index) l = len l); [|lia].
    unfold tally. f_equal. apply List.forallb_filter_id, List.forallb_forall. intros x _.
    unfold below, bucket_of. apply Nat.ltb_lt. unfold QUEUE_AGE_BUCKETS in *. lia.
  - destruct counts as [|c counts]; [done|]. injection Hk as ->.
    pose proof (Hc 0%nat ltac:(lia)) as [= Hc0]. rewrite Nat.add_0_r in Hc0.
    cbn [permille_walk]. assert (E : saturating_add_u64 (tally (below index) l) c = tally (below (S index)) l).
    { rewrite below_S, <- Hc0. pose proof (tally_bounds (below (S index)) l) as Hb.
      rewrite below_S, <- Hc0 in Hb. unfold saturating_add_u64. lia. }
    rewrite E. destruct (Z.leb_spec target (tally (below (S index)) l)) as [Hle|Hgt].
    + exists index. split; [unfold QUEUE_AGE_BUCKETS in *; lia|]. do 2 (split; [done|]).
      destruct (Nat.eqb_spec index (QUEUE_AGE_BUCKETS - 1)); [done|].
      assert (Hx : (index < 64)%nat) by (unfold QUEUE_AGE_BUCKETS in *; lia).
      replace (Z.of_nat index <? 64) with true by (symmetry; apply Z.ltb_lt; lia).
      cbn [default]. by rewrite Z.shiftl_1_l.
    + destruct (IH counts (S index)) as (i & Hi' & H1 & H2 & H3); try done; try lia.
      * intros j Hj. specialize (Hc (S j) ltac:(lia)). simpl in Hc. by rewrite Hc, Nat.add_succ_r.
      * exists i. repeat split; try done; lia.
Qed.

(** The [rank]-th smallest sample. *)
Definition ranked (rank v : Z) (l : list Z) : Prop :=
  In v l /\ tally (fun x => x <? v) l < rank <= tally (fun x => x <=? v) l.

Definition rank_of (per_mille : Z) (l : list Z) : Z := Z.max 1 (div_ceil (len l * per_mille) 1000).

(** A percentile read from the histogram bounds the sample it names. For any recorded
    samples, if [v] is the sample of the rank that [per_mille] thousandths of them name, then
    what [permille] answers is at least [v], at most the largest sample, and, unless [v] fell
    into the topmost bucket, at most twice [v] (or one microsecond): twenty-four counters are
    enough never to understate a backlog and never to overstate one by more than a factor of
    two. *)
Theorem permille_bounds_the_sample (l : list Z) (per_mille v : Z) :
  Forall (fun x => 0 <= x <= U64_MAX) l -> len l <= U64_MAX -> 0 <= per_mille <= 1000 ->
  ranked (rank_of per_mille l) v l ->
  let q := permille per_mille (recorded l) in
  v <= q <= (recorded l).(max_micros) /\ (v < 2 ^ 22 -> q <= Z.max 1 (2 * v)).
Proof.
  intros Hl Hlen Hp (Hv & Hlow & Hhigh) q.
  assert (Hpos : Forall (Z.le 0) l) by (eapply Forall_impl; [exact Hl|]; simpl; lia).
  assert (Hv0 : 0 <= v) by (rewrite List.Forall_forall in Hpos; by apply Hpos).
  destruct (recorded_max l Hpos) as (Hmax & Hmax0 & _). specialize (Hmax v Hv).
  assert (Hne : 0 < len l) by (destruct l; [done|unfold len; simpl; lia]).
  assert (Hq : exists i, (i < QUEUE_AGE_BUCKETS)%nat /\ tally (below i) l < rank_of per_mille l
    /\ rank_of per_mille l <= tally (below (S i)) l
    /\ q = if Nat.eqb i (QUEUE_AGE_BUCKETS - 1) then (recorded l).(max_micros)
           else Z.min (2 ^ Z.of_nat i) (recorded l).(max_micros)).
  { assert (Hr : rank_of per_mille l <= len l).
    { unfold rank_of, div_ceil. apply Z.max_lub; [lia|].
      assert ((len l * per_mille + 1000 - 1) / 1000 < len l + 1); [|lia].
      apply Z.div_lt_upper_bound; nia. }
    subst q. unfold permille. rewrite recorded_samples by done.
    replace (len l =? 0) with false by (symmetry; apply Z.eqb_neq; lia).
    assert (E : Z.max (Z.min (div_ceil (Z.min U128_MAX (len l * per_mille)) 1000) U64_MAX) 1
                = rank_of per_mille l).
    { rewrite (Z.min_r U128_MAX) by (bounds; nia). unfold rank_of in *. lia. }
    rewrite E. assert (H0 : tally (below 0) l = 0).
    { clear. induction l as [|x l IH]; [done|]. by rewrite tally_cons, IH. }
    rewrite <- H0. destruct (permille_walk_stops l (rank_of per_mille l) (recorded l).(max_micros)
      QUEUE_AGE_BUCKETS (recorded l).(buckets) 0) as (i & Hi & H1 & H2 & H3); try done; try lia.
    - by rewrite recorded_length.
    - intros j Hj. by apply recorded_bucket.
    - exists i. repeat split; try done; lia. }
  destruct Hq as (i & Hi & Hb1 & Hb2 & ->).
  assert (Hvi : (bucket_of v <= i)%nat).
  { destruct (Nat.le_gt_cases (bucket_of v) i) as [|Hgt]; [done|]. exfalso.
    assert (Hm : tally (below (S i)) l <= tally (fun x => x <? v) l); [|lia].
    apply tally_mono. intros x Hx Hb. unfold below in Hb. apply Nat.ltb_lt in Hb. apply Z.ltb_lt.
    rewrite List.Forall_forall in Hpos. specialize (Hpos x Hx).
    destruct (Nat.eq_dec i (QUEUE_AGE_BUCKETS - 1)%nat) as [->|].
    { unfold bucket_of in Hgt at 1. unfold QUEUE_AGE_BUCKETS in *. lia. }
    assert (Hlt : x < 2 ^ Z.of_nat i) by (apply bucket_le; unfold QUEUE_AGE_BUCKETS in *; lia).
    assert (~ v < 2 ^ Z.of_nat i); [|lia].
    rewrite <- bucket_le by (unfold QUEUE_AGE_BUCKETS in *; lia). lia. }
  assert (Hiv : (i <= bucket_of v)%nat).
  { destruct (Nat.le_gt_cases i (bucket_of v)) as [|Hgt]; [done|]. exfalso.
    assert (Hm : tally (fun x => x <=? v) l <= tally (below i) l); [|lia].
    apply tally_mono. intros x Hx Hle. apply Z.leb_le in Hle. unfold below. apply Nat.ltb_lt.
    rewrite List.Forall_forall in Hpos. specialize (Hpos x Hx).
    enough (bucket_of x <= bucket_of v)%nat by lia.
    assert (bit_length x <= bit_length v)%nat; [|unfold bucket_of; lia].
    apply bit_length_below; [done|]. enough (v < 2 ^ Z.of_nat (bit_length v)) by lia.
    by apply bit_length_below. }
  assert (Hbv : i = bucket_of v) by lia.
  destruct (Nat.eqb_spec i (QUEUE_AGE_BUCKETS - 1)) as [->|Hn].
  - split; [lia|]. intros Hs. exfalso.
    assert (bit_length v <= 22)%nat by (apply bit_length_below; [done|]; exact Hs).
    unfold bucket_of, QUEUE_AGE_BUCKETS in *. lia.
  - assert (Hvlt : v < 2 ^ Z.of_nat i) by (apply bucket_le; unfold QUEUE_AGE_BUCKETS in *; lia).
    split; [lia|]. intros _. destruct i as [|j]; [simpl; lia|].
    assert (Hge : ~ v < 2 ^ Z.of_nat j).
    { rewrite <- bucket_le by (unfold QUEUE_AGE_BUCKETS in *; lia). lia. }
    rewrite Nat2Z.inj_succ, Z.pow_succ_r by lia. lia.
Qed.

Lemma permille_bounds_witness :
  ranked (rank_of 990 [3; 900; 12; 5; 40]) 900 [3; 900; 12; 5; 40]
  /\ 900 <= permille 990 (recorded [3; 900; 12; 5; 40]) <= (recorded [3; 900; 12; 5; 40]).(max_micros).
Proof.
  assert (H : ranked (rank_of 990 [3; 900; 12; 5; 40]) 900 [3; 900; 12; 5; 40]).
  { split; [right; by left|]. vm_compute. done. }
  split; [exact H|].
  assert (Hs : Forall (fun x => 0 <= x <= U64_MAX) [3; 900; 12; 5; 40])
    by (repeat constructor; vm_compute; done).
  destruct (permille_bounds_the_sample [3; 900; 12; 5; 40] 990 900 Hs ltac:(done) ltac:(lia) H)
    as [Hb _]. exact Hb.
Defined.
