(* ===== verification/ShardMarket.v ===== *)
(** * One market of a shard ([src/src/limitless/shard.rs])

    A shard holds a [MarketEntry] per market: its book's writer, whether it is wanted, and
    the evidence of its subscription and its recovery. This file has the entry, the answers a
    shard gives about it, and what each event of a rail does to one entry; [Shard] has the
    shard. The segment is the interface [ShardSink]. *)

From stdpp Require Import gmap.
From coqutil Require Export Datatypes.RecordSettersUsingExistingGetters.
From S2P Require Import Prelude OrdMap Identity DedupKey Continuity Observation Book Pool Channel Observer Limitless Pacing Connection QueueAge ShmWriter Supervisor.

(** ** Answers to an operator *)

Inductive MarketRejection : Set := InvalidIdentifier | CapacityExceeded | DeliveryUnavailable.

Inductive SubscriptionState : Set := Desired | Subscribing | Established | Removing.

Inductive MarketStatus : Set :=
| Rejected (why : MarketRejection)
| Accepted | Reconciling | StatusLive
| StatusStale (why : AuthorityReason)
| Removed.

Record MarketOutcome : Set := { oc_slug : bytes; oc_status : MarketStatus }.

Record MarketReport : Set := {
  mr_slug : bytes; mr_subscription : SubscriptionState; mr_status : MarketStatus;
  mr_revision : Z; mr_continuity_epoch : Z
}.

Inductive SegmentRefusal : Set :=
| SegmentRefused (error : WriterError)
| StreamNotRebased.

Inductive InstallRefusal : Set :=
| RefusedIdentity (error : IdentityError)
| RefusedDelivery (error : WriterError)
| RefusedStream
| ResumeUnavailable.

Definition install_refusal_from (refusal : SegmentRefusal) : InstallRefusal :=
  match refusal with
  | SegmentRefused error => RefusedDelivery error
  | StreamNotRebased => RefusedStream
  end.

Definition rejection (self : InstallRefusal) : MarketRejection :=
  match self with RefusedIdentity _ => InvalidIdentifier | _ => DeliveryUnavailable end.

Definition refusal_writer_error (self : SegmentRefusal) : WriterError :=
  match self with SegmentRefused error => error | StreamNotRebased => MarketAlreadyInstalled end.

(** Both clocks at the socket read of a frame. *)
Record FrameArrival : Set := { wall_clock_nanos : Z; monotonic : Z }.

Definition slot_stamp (arrival : option FrameArrival) : Z :=
  match arrival with Some a => a.(wall_clock_nanos) | None => 0 end.

Definition micros_between (start at_ : Z) : Z :=
  Z.min U64_MAX (saturating_duration_since at_ start / 1000).

(** Whether a stream can only produce positions past the epoch another was retired at. *)
Definition rebased_past (published : PublishedBook) (retired_epoch : Z) : bool :=
  match published.(published_continuity) with
  | Intact epoch _ => retired_epoch <? epoch
  | Continuity.Lost epoch _ => retired_epoch <=? epoch
  end.

(** The segment of a shard: what a publication asks of the clock and the kernel is answered
    by [sink_answers]. *)
Class ShardSink := {
  shard_sink : Type;
  sink_answers : Type;
  shard_sink_name : shard_sink -> bytes;
  sink_installed : shard_sink -> Z;
  shard_sink_failure : shard_sink -> option WriterError;
  sink_publish_latency : shard_sink -> PublishLatencySummary;
  sink_installable : bytes -> shard_sink -> result () SegmentRefusal;
  sink_install : sink_answers -> bytes -> PublishedBook -> shard_sink ->
    result () SegmentRefusal * shard_sink;
  sink_retire : sink_answers -> bytes -> PublishedBook -> shard_sink -> shard_sink;
  sink_publish_state : sink_answers -> bytes -> PublishedBook -> shard_sink -> shard_sink;
  sink_publish_commit : sink_answers -> bytes -> BookCommit -> PublishedBook -> FrameArrival ->
    shard_sink -> shard_sink;
  sink_publish_resolution : sink_answers -> bytes -> ResolutionDelivery -> PublishedBook ->
    FrameArrival -> shard_sink -> shard_sink
}.

(** A socket's place in a market's set of sockets, an eight-bit word. *)
Definition socket_bit (socket : nat) : Z :=
  if (socket <? 8)%nat then Z.shiftl 1 (Z.of_nat socket) else 0.

Definition has_bit (set bit : Z) : bool := negb (Z.land set bit =? 0).
Definition with_bit (bit set : Z) : Z := Z.lor set bit.
(** [set & !bit]. *)
Definition without_bit (bit set : Z) : Z := Z.ldiff set bit.

Section market.
Context `{RB : Broadcast StreamDelivery} `{WP : Watch PublishedBook}.

Record MarketEntry : Type := {
  market : MarketRef; writer : BookWriter; desired : bool; subscription : SubscriptionState;
  subscribed_from : option Z; dialled : bool; base_accepted : bool;
  based_this_generation : bool; recovery_attempts : Z; unavailable_reported : bool;
  installed_version : Z; latest_resolution : option MarketResolution; gate : option PoolGate;
  sockets_at_published : Z
}.

(** What [Shard::install] seats. *)
Definition entry_new (market : MarketRef) (writer : BookWriter) (version : Z) : MarketEntry :=
  {| market := market; writer := writer; desired := true; subscription := Desired;
     subscribed_from := None; dialled := false; base_accepted := false;
     based_this_generation := false; recovery_attempts := 0; unavailable_reported := false;
     installed_version := version; latest_resolution := None; gate := None;
     sockets_at_published := 0 |}.

Definition entry_book (self : MarketEntry) : OrderBook := self.(writer).(writer_book).

Definition claimed_by (dialled_set_version : Z) (self : MarketEntry) : bool :=
  self.(installed_version) <=? dialled_set_version.
Definition live (self : MarketEntry) : bool :=
  bool_decide ((entry_book self).(authority) = Live).
Definition carried (self : MarketEntry) : bool :=
  bool_decide (is_Some self.(subscribed_from)) || self.(dialled).
Definition terminal (self : MarketEntry) : bool := self.(unavailable_reported).
Definition lost_base (self : MarketEntry) : MarketEntry := self <| based_this_generation := false |>.
Definition needs_recovery (self : MarketEntry) : bool :=
  self.(desired) && self.(base_accepted) && negb (live self).

Definition market_status (self : MarketEntry) : MarketStatus :=
  if negb self.(desired) then Removed
  else
    match (entry_book self).(authority) with
    | Live => StatusLive
    | Stale reason => StatusStale reason
    | _ => Reconciling
    end.

Definition market_report (slug : bytes) (self : MarketEntry) : MarketReport :=
  {| mr_slug := slug; mr_subscription := self.(subscription); mr_status := market_status self;
     mr_revision := (entry_book self).(revision);
     mr_continuity_epoch := epoch_of (entry_book self).(Book.continuity) |}.

(** ** Coverage *)

Definition shadow_verdict (self : MarketEntry) (shadow : option OrderBook) : StandbyState :=
  match shadow with
  | Some shadow => agreement shadow (writer_published self.(writer))
  | None => Divergent ContinuityMismatch
  end.

Definition promotable (self : MarketEntry) (verdict : StandbyState) : bool :=
  self.(desired) && self.(base_accepted) && live self && bool_decide (verdict = Agreeing).

(** ** What an accepted frame does *)

Definition accept_base (self : MarketEntry) : MarketEntry :=
  let self := self <| base_accepted := true |> <| based_this_generation := true |>
                <| recovery_attempts := 0 |> <| unavailable_reported := false |> in
  if self.(desired) then self <| subscription := Established |> else self.

Definition apply_to_entry (candidate : Candidate) (self : MarketEntry) :
    result BookCommit BookError * MarketEntry :=
  let '(applied, w) := writer_apply_snapshot candidate self.(writer) in
  let self := self <| writer := w |> in
  match applied with
  | Ok commit => (Ok commit, accept_base self)
  | Err error => (Err error, self)
  end.

Definition report_entry_loss (reason : ContinuityReason) (why : AuthorityReason)
    (self : MarketEntry) : result bool BookError * MarketEntry :=
  let '(reported, w) := writer_report_continuity_loss reason why self.(writer) in
  (reported, self <| writer := w |>).

(** [report_market_loss], on the entry. *)
Definition lose_entry (reason : ContinuityReason) (why : AuthorityReason) (self : MarketEntry) :
    result bool BookError * MarketEntry :=
  let self := lost_base self in
  if terminal self then (Ok false, self) else report_entry_loss reason why self.

(** ** What a walk over the markets does to one of them *)

(** What became of it: the report to its book, if one was made, and what is counted. *)
Record Visit : Set := {
  v_reported : option (result bool BookError); v_terminal : bool; v_promoted : bool;
  v_refused : bool; v_retired : bool
}.

Definition untouched : Visit :=
  {| v_reported := None; v_terminal := false; v_promoted := false; v_refused := false;
     v_retired := false |}.

Definition visiting : Type := bytes -> MarketEntry -> MarketEntry * Visit.

(** [report_shard_loss]. *)
Definition visit_shard_loss (reason : ContinuityReason) (why : AuthorityReason) : visiting :=
  fun _ self =>
    if negb self.(base_accepted) then (self, untouched)
    else
      let self := lost_base self in
      if terminal self then (self, untouched)
      else
        let '(reported, self) := report_entry_loss reason why self in
        (self, untouched <| v_reported := Some reported |>).

(** A generation that ended without leaving a base spends an attempt. *)
Definition spend_attempt (self : MarketEntry) : MarketEntry :=
  let self := self <| recovery_attempts :=
    if self.(based_this_generation) then 0 else saturating_next_u32 self.(recovery_attempts) |> in
  self <| based_this_generation := false |>.

(** The loss of a rail, with its verdict once [attempts] are spent. *)
Definition report_rail_end (attempts : Z) (reason : ContinuityReason) (why : AuthorityReason)
    (v : Visit) (self : MarketEntry) : MarketEntry * Visit :=
  let exhausted := attempts <=? self.(recovery_attempts) in
  let reported := if exhausted || terminal self then ARecoveryBaseUnavailable else why in
  let '(reported, self) := report_entry_loss reason reported self in
  let v := v <| v_reported := Some reported |> in
  if exhausted && negb self.(unavailable_reported)
  then (self <| unavailable_reported := true |>, v <| v_terminal := true |>)
  else (self, v).

Definition unsubscribed (self : MarketEntry) : MarketEntry :=
  self <| subscribed_from := None |> <| dialled := false |> <| subscription := Desired |>.

(** [on_connection_ended]. *)
Definition visit_connection_ended (attempts : Z) (reason : ContinuityReason)
    (why : AuthorityReason) : visiting := fun _ self =>
  let self := spend_attempt (unsubscribed self) in
  if negb (self.(base_accepted) || (attempts <=? self.(recovery_attempts)))
  then (self, untouched)
  else report_rail_end attempts reason why untouched self.

(** [binary_search] of a sorted slice. *)
Definition binary_search (slugs : list bytes) (slug : bytes) : bool :=
  bool_decide (slug ∈ slugs).

(** [report_lost_pool_coverage]: only what no survivor carries is lost. *)
Definition visit_lost_coverage (attempts : Z) (publishing : bool) (survivors : list (list bytes))
    (reason : ContinuityReason) (why : AuthorityReason) : visiting := fun slug self =>
  let self := if publishing then unsubscribed self else self in
  if existsb (fun carried => binary_search carried slug) survivors then (self, untouched)
  else
    let self := spend_attempt self in
    if negb (self.(base_accepted) || (attempts <=? self.(recovery_attempts)))
    then (self, untouched)
    else report_rail_end attempts reason why (untouched <| v_retired := true |>) self.

(** [hand_back_to_publishing_slot]. *)
Definition visit_hand_back (running : option Z) : visiting := fun _ self =>
  let carried := bool_decide (is_Some running) && bool_decide (self.(subscribed_from) = running) in
  if carried && has_bit self.(sockets_at_published) (socket_bit (slot_index Primary))
  then (self, untouched)
  else if negb self.(base_accepted) || terminal self then (self, untouched)
  else
    let self := lost_base self in
    let why := if carried then AOrderingUnknown else ASubscriptionLost in
    let '(reported, self) := report_entry_loss Reconnect why self in
    (self, untouched <| v_reported := Some reported |> <| v_retired := true |>).

(** [apply_promotions]: the connection of [generation], dialled with [carried] at
    [dialled_set_version], takes the books over with the [shadows] it kept. *)
Definition visit_promotion (attempts generation dialled_set_version : Z) (carried : list bytes)
    (shadows : gmap bytes OrderBook) (ended : ConnectionEndReason) (lossy : bool) : visiting :=
  fun slug self =>
    let verdict := shadow_verdict self (shadows !! slug) in
    let eligible := negb lossy && promotable self verdict in
    let subscribed := binary_search carried slug && claimed_by dialled_set_version self in
    let self := self <| dialled := false |>
                  <| subscribed_from := if subscribed then Some generation else None |> in
    if eligible then
      (self <| based_this_generation := true |> <| recovery_attempts := 0 |>
         <| unavailable_reported := false |>
         <| subscription := if self.(desired) && subscribed then Established else Desired |>,
       untouched <| v_promoted := true |>)
    else
      let self := self <| subscription :=
        if self.(desired) && subscribed then Subscribing else Desired |> in
      let self := spend_attempt self in
      let v := untouched <| v_retired := true |> in
      if negb (self.(base_accepted) || (attempts <=? self.(recovery_attempts))) then (self, v)
      else
        report_rail_end attempts Reconnect
          (if lossy then AOverload else refusal_reason verdict ended)
          (v <| v_refused := true |>) (lost_base self).

(** [settle_dial] and [take_publishing_slot], on a market the dial names. *)
Definition settle_entry (generation dialled_set_version : Z) (self : MarketEntry) : MarketEntry :=
  if claimed_by dialled_set_version self then
    let self := self <| dialled := false |> <| subscribed_from := Some generation |> in
    if self.(desired) then self <| subscription := Subscribing |> else self
  else self.

Definition hand_over_entry (generation dialled_set_version : Z) (established : bool)
    (self : MarketEntry) : MarketEntry :=
  if claimed_by dialled_set_version self then
    let self := self <| dialled := false |> <| subscribed_from := Some generation |> in
    if self.(desired)
    then self <| subscription := if established && live self then Established else Subscribing |>
    else self
  else self.

(** [retire_pool_socket] and the renaming of a socket in [take_publishing_slot]. *)
Definition retire_entry_socket (socket : nat) (self : MarketEntry) : MarketEntry :=
  self <| sockets_at_published ::= without_bit (socket_bit socket) |>
    <| gate ::= fmap (fun g => retire_socket g socket) |>.

Definition reassign_entry_socket (from to : nat) (self : MarketEntry) : MarketEntry :=
  let stood := has_bit self.(sockets_at_published) (socket_bit from) in
  let self := self <| sockets_at_published ::=
    without_bit (Z.lor (socket_bit from) (socket_bit to)) |> in
  let self := if stood then self <| sockets_at_published ::= with_bit (socket_bit to) |> else self in
  self <| gate ::= fmap (fun g => reassign_socket g from to) |>.

End market.
