(* ===== verification/Shard.v ===== *)
(** * A shard of markets ([src/src/limitless/shard.rs])

    A shard keeps a set of markets alive over one connection per configured replica: which
    markets are wanted, which connection carries them, what a lost or fenced connection costs
    each of them, when a standby takes over, what an operator is told. As in [Supervisor], a
    handler is a function from the shard to the shard, what it asks of its environment is
    answered by [env], one answer per question, and what it does to other tasks is recorded
    as [Effect]s. A [HashMap] is a [gmap]; an answer of the environment fixes the order in
    which a walk over one goes ([hash_order]). *)

From stdpp Require Import gmap.
From S2P Require Import Prelude OrdMap Identity Descriptor DedupKey Continuity Observation Book Digest Pool Channel Observer Session Limitless Pacing Connection QueueAge ShmWriter Supervisor ShardMarket.

Definition MAX_SHARD_MARKETS : Z := 32768.
Definition MAX_REMOVING_MARKETS : Z := 64.

(** ** Configuration *)

(** Durations in nanoseconds. *)
Record ShardConfig : Set := {
  sc_endpoint : bytes; sc_markets : list bytes; sc_setup_timeout : Z; sc_ingest_capacity : Z;
  sc_control_capacity : Z; sc_observer_capacity : Z; sc_level_capacity : Z; sc_max_markets : Z;
  sc_replicas : Z; sc_dedup_key : DedupKeyDeclaration; sc_initial_backoff : Z;
  sc_max_backoff : Z; sc_exhausted_backoff : Z; sc_resubscribe_window : Z;
  sc_max_recovery_attempts : Z; sc_fenced_linger : Z; sc_stable_after : Z;
  sc_daemon_generation : Z; sc_ingest_stall : option Z; sc_daily_attempt_budget : Z;
  sc_min_command_interval_ms : Z
}.

Inductive ShardError : Set :=
| ShardMarket (error : IdentityError)
| ShardLevelCapacity (error : ObservationError)
| ShardObserverCapacity (error : BookError)
| ShardIngestCapacityZero | ShardControlCapacityZero | ShardRecoveryAttemptsZero
| ShardReplicasOutOfRange | MarketCapacityExceeded | ShardDailyAttemptBudgetTooLarge
| ShardCommandIntervalTooLarge
| ShardSegment (error : WriterError).

(** ** Reports *)

Inductive PoolState : Set :=
| Armed
| Unlicensed (semantics : DedupKeySemantics)
| Degraded (reason : PoolDegradeReason).

Record PoolReport : Set := { pr_sockets : Z; pr_covering : Z; pr_state : PoolState }.

Record ConnectionReport : Set := {
  cr_role : ReplicaRole; cr_generation : Z; cr_session : option bytes; cr_established : bool;
  cr_agreeing_markets : option Z; cr_pool_socket : option nat
}.

Record ShardStatus : Set := {
  st_markets : list MarketReport; st_desired : Z; st_replicas : Z;
  st_connections : list ConnectionReport; st_pool : option PoolReport;
  st_standby_agreeing_markets : Z; st_subscribed : bool; st_reconciling : bool;
  st_segment : option bytes; st_segment_markets : Z; st_queue_age : QueueAgeSummary;
  st_publish_latency : PublishLatencySummary
}.

(** The [u64] fields of [ShardStats] that handlers count in. *)
Inductive ShardCounter : Set :=
| n_connection_attempts | n_attempts_clamped | n_fenced_generations | n_fenced_events
| n_events_orderbook | n_events_resolved | n_events_unknown | n_frames_unrouted
| n_frames_uncarried | n_snapshots_applied | n_mutations_derived | n_shadow_snapshots_applied
| n_source_switches | n_markets_promoted | n_markets_promotion_refused | n_pool_published
| n_pool_duplicate_drops | n_pool_stale_drops | n_pool_handovers | n_resolutions_forwarded
| n_resolutions_unrouted | n_continuity_losses | n_overload_drops | n_subscriptions_emitted
| n_reissues_escalated | n_set_replacements | n_recovery_base_unavailable | n_markets_dropped
| n_connections_shed | n_tombstones_evicted.

#[export] Instance ShardCounter_eq_dec : EqDecision ShardCounter.
Proof. solve_decision. Defined.

Record ShardStats : Set := {
  shard_counter : ShardCounter -> Z; pool_published_by_socket : list Z;
  stats_pool_degraded : option PoolDegradeReason; standby_ends : gmap bytes Z;
  stats_decode_failures : gmap bytes Z; queue_depth_max : Z; frames_seen : Z;
  stats_queue_age : QueueAgeSummary; stats_publish_latency : PublishLatencySummary;
  stats_segment_failure : option WriterError
}.

Definition latency_default : PublishLatencySummary := publish_latency_summary queue_age_new.

Definition shard_stats_default : ShardStats :=
  {| shard_counter := fun _ => 0; pool_published_by_socket := []; stats_pool_degraded := None;
     standby_ends := ∅; stats_decode_failures := ∅; queue_depth_max := 0; frames_seen := 0;
     stats_queue_age := queue_age_summary queue_age_new;
     stats_publish_latency := latency_default; stats_segment_failure := None |}.

Definition stats_count (c : ShardCounter) (n : Z) (s : ShardStats) : ShardStats :=
  s <| shard_counter ::= fun f d => if bool_decide (d = c) then saturating_add_u64 (f d) n else f d |>.

(** [*entry(key).or_insert(0) += 1]. *)
Definition bump (key : bytes) (m : gmap bytes Z) : gmap bytes Z :=
  <[key := wrapping_add_u64 (default 0 (m !! key)) 1]> m.

Record ShardMetrics : Set := {
  sm_connected : bool; sm_reconciling : bool; sm_replicas : Z; sm_standbys_established : Z;
  sm_standby_agreeing_markets : Z; sm_pool : option PoolReport; sm_desired : Z; sm_markets : Z;
  sm_segment_markets : Z; sm_stats : ShardStats
}.

(** ** Connections *)

Inductive Reissue : Set :=
| ReissueIdle
| ReissuePending (at_ : Z)
| ReissueRequested (at_ : Z)
| ReissueAwaiting (at_ : Z)
| ReissueUnreachable.

#[export] Instance Reissue_eq_dec : EqDecision Reissue.
Proof. solve_decision. Defined.

Definition reissue_wake_at (self : Reissue) : option Z :=
  match self with
  | ReissueIdle | ReissueUnreachable => None
  | ReissuePending at_ | ReissueRequested at_ | ReissueAwaiting at_ => Some at_
  end.

(** The task and its control channel are named by the generation. *)
Record ActiveConnection : Set := {
  generation : Z; dialled_markets : list bytes; dialled_set_version : Z; spawned_at : Z;
  ac_heartbeat_deadline : option Z; last_heartbeat : option Z; established : bool;
  produced_base : bool; session : option bytes
}.

Definition heartbeat_expiry (self : ActiveConnection) : option Z :=
  match self.(last_heartbeat), self.(ac_heartbeat_deadline) with
  | Some at_, Some deadline => Some (at_ + deadline)
  | _, _ => None
  end.

Record ConnectionSlot : Set := {
  active : option ActiveConnection; fenced : option FencedConnection; reconnect_at : option Z;
  backoff_attempt : Z; dialled_version : option Z; wire_version : Z
}.

Definition slot_default : ConnectionSlot :=
  {| active := None; fenced := None; reconnect_at := None; backoff_attempt := 0;
     dialled_version := None; wire_version := 0 |}.

Record Standby : Set := {
  sb_slot : ConnectionSlot; shadows : gmap bytes OrderBook; agreeing : gset bytes
}.

Definition standby_default : Standby :=
  {| sb_slot := slot_default; shadows := ∅; agreeing := ∅ |}.

(** What a standby whose stream broke is left with. *)
Definition forget_shadows (b : Standby) : Standby := b <| shadows := ∅ |> <| agreeing := ∅ |>.

Inductive Redundancy : Set :=
| RedundancyUnlicensed (semantics : DedupKeySemantics)
| Pooled (declaration : DedupKeyDeclaration) (sockets : nat)
    (degraded : option PoolDegradeReason).

Definition licensed (declaration : DedupKeyDeclaration) (sockets : nat) : Redundancy :=
  match gate_new declaration sockets with
  | Ok _ => Pooled declaration sockets None
  | Err (KeyOrdersNothing semantics) => RedundancyUnlicensed semantics
  | Err SocketCountOutOfRange => RedundancyUnlicensed declaration.(semantics)
  end.

Definition armed (self : Redundancy) : bool :=
  match self with Pooled _ _ None => true | _ => false end.

Definition redundancy_state (self : Redundancy) : PoolState :=
  match self with
  | RedundancyUnlicensed semantics => Unlicensed semantics
  | Pooled _ _ None => Armed
  | Pooled _ _ (Some reason) => Degraded reason
  end.

Definition standby_end_key (reason : ConnectionEndReason) : bytes :=
  match replica_failure reason with
  | FProtocol => lit "protocol"
  | FOverload => lit "overload"
  | FDisconnect => lit "disconnect"
  end.

Definition is_market_slug (slug : bytes) : bool := is_ok (market_key_new Identity.slug slug).

Definition standby_index (s : Slot) : option nat :=
  match s with Primary => None | StandbySlot index => Some index end.

(** ** Commands *)

Inductive Command : Set :=
| Add (slugs : list bytes)
| Remove (slugs : list bytes)
| Status
| Metrics
| Observe (slug : bytes).

Definition sort_slugs (slugs : list bytes) : list bytes :=
  sort_by (cmp_list Z.compare) slugs.

Section shard.
Context `{RB : Broadcast StreamDelivery} `{WP : Watch PublishedBook} `{SS : ShardSink}.

(** One answer of the environment: the clock, which tasks have ended, the process-wide ledger
    and pacers, whether a control channel takes a message, what has been queued since the
    last question, the frames the connections have counted, the order of the hash maps and
    what the segment's publications are told. *)
Record ShardEnv : Type := {
  now : Z; finished : Z -> bool; spent : AttemptLedger; pacers : Pacers;
  control : SendAnswer; arrivals : list ConnectionNotice; frames : Z;
  hash_order : list bytes -> list bytes; answers : sink_answers
}.

(** The environment, one answer per question, and the process's hasher. *)
Variable env : nat -> ShardEnv.
Variable hash_one : nat -> Z -> Z.
(** The bounds of the texts a retained event carries. *)
Variables outcome_capacity type_capacity date_capacity : Z.

Record Shard : Type := {
  config : ShardConfig; level_capacity : LevelCapacity; observer_capacity : ObserverCapacity;
  markets : gmap bytes MarketEntry; retired : gmap bytes OrderBook;
  segment : option shard_sink; primary : ConnectionSlot; standbys : list Standby;
  redundancy : option Redundancy; pool_sessions_ended : Z; next_generation : Z;
  notices : list ConnectionNotice; reissue : Reissue; desired_version : Z; recovering : Z;
  desired_count : Z; removing : list bytes; rail_loss_latched : bool; position : Z;
  shadow_position : Z; run_start : Z; queue_age : QueueAge; ingest_stall : option Z;
  stats : ShardStats; ticks : nat; effects : list Effect
}.

Definition act : Type := Shard -> Shard.

Definition count (c : ShardCounter) (n : Z) : act := fun self => self <| stats ::= stats_count c n |>.
Definition record_failure (key : bytes) : act := fun self =>
  self <| stats ::= fun s => s <| stats_decode_failures ::= bump key |> |>.
Definition effect (e : Effect) : act := fun self => self <| effects ::= fun l => l ++ [e] |>.

(** A question to the environment; what was queued meanwhile is then in the queue. *)
Definition ask {A} (k : ShardEnv -> Shard -> A) (self : Shard) : A :=
  let e := env self.(ticks) in
  k e (self <| ticks ::= S |> <| notices ::= fun l => l ++ e.(arrivals) |>).

Definition with_now (k : Z -> act) : act := ask (fun e => k e.(now)).

Definition tell_segment (f : sink_answers -> shard_sink -> shard_sink) : act := fun self =>
  match self.(segment) with
  | None => self
  | Some sink => ask (fun e self => self <| segment := Some (f e.(answers) sink) |>) self
  end.

(** ** Slots *)

Definition slot (self : Shard) (s : Slot) : option ConnectionSlot :=
  match s with
  | Primary => Some self.(primary)
  | StandbySlot index => sb_slot <$> self.(standbys) !! index
  end.

Definition on_standby (index : nat) (f : Standby -> Standby) : act := fun self =>
  self <| standbys ::= alter f index |>.

Definition on_slot (s : Slot) (f : ConnectionSlot -> ConnectionSlot) : act := fun self =>
  match s with
  | Primary => self <| primary ::= f |>
  | StandbySlot index => on_standby index (fun b => b <| sb_slot ::= f |>) self
  end.

Definition active_of (self : Shard) (s : Slot) : option ActiveConnection := slot self s ≫= active.

Definition on_active (s : Slot) (f : ActiveConnection -> ActiveConnection) : act :=
  on_slot s (fun t => t <| active ::= fmap f |>).

Definition slots (self : Shard) : list Slot :=
  Primary :: (StandbySlot <$> seq 0 (length self.(standbys))).

Definition each_slot (f : Slot -> act) : act := fun self =>
  fold_left (fun self s => f s self) (slots self) self.

Definition slot_of (self : Shard) (g : Z) : option Slot :=
  List.find (fun s => match active_of self s with
                      | Some a => a.(generation) =? g
                      | None => false
                      end) (slots self).

Definition is_viable (e : ShardEnv) (a : ActiveConnection) : bool :=
  negb (e.(finished) a.(generation))
  && match heartbeat_expiry a with Some expiry => e.(now) <? expiry | None => true end.

Definition slot_viable (e : ShardEnv) (self : Shard) (s : Slot) : bool :=
  match active_of self s with Some a => is_viable e a | None => false end.

Definition slot_established (self : Shard) (s : Slot) : bool :=
  match active_of self s with Some a => a.(established) | None => false end.

Definition first_viable_standby (e : ShardEnv) (self : Shard) : option nat :=
  List.find (fun index => slot_viable e self (StandbySlot index))
    (seq 0 (length self.(standbys))).

Definition pool_armed (self : Shard) : bool :=
  match self.(redundancy) with Some r => armed r | None => false end.

Definition pool_licence (self : Shard) : option (DedupKeyDeclaration * nat) :=
  match self.(redundancy) with
  | Some (Pooled declaration sockets None) => Some (declaration, sockets)
  | _ => None
  end.

(** ** Markets *)

(** Keys of the map, in the order the environment walks it. *)
Definition walk_order (e : ShardEnv) (self : Shard) : list bytes :=
  e.(hash_order) (map_to_list self.(markets)).*1.

Definition closing (e : ShardEnv) (self : Shard) : list bytes :=
  e.(hash_order) (map_to_list (filter (fun m => m.2.(desired) = false) self.(markets))).*1.

Definition desired_slugs (self : Shard) : list bytes :=
  sort_slugs (map_to_list (filter (fun m => m.2.(desired) = true) self.(markets))).*1.

Definition count_recovering (ms : gmap bytes MarketEntry) : Z :=
  Z.of_nat (size (filter (fun m => needs_recovery m.2 = true) ms)).

Definition recount_recovering : act := fun self =>
  self <| recovering := count_recovering self.(markets) |>.

Definition on_entry (slug : bytes) (f : MarketEntry -> MarketEntry) : act := fun self =>
  self <| markets ::= alter f slug |>.

Definition on_entries (f : MarketEntry -> MarketEntry) : act := fun self =>
  self <| markets ::= fmap f |>.

(** [mutate_market]: the count of what is owed a base follows the change. *)
Definition mutate_market {R} (slug : bytes) (change : MarketEntry -> R * MarketEntry)
    (self : Shard) : option R * Shard :=
  match self.(markets) !! slug with
  | None => (None, self)
  | Some entry =>
      let before := needs_recovery entry in
      let '(out, entry) := change entry in
      let after := needs_recovery entry in
      let self := self <| markets ::= <[slug := entry]> |> in
      (Some out,
       match before, after with
       | false, true => self <| recovering ::= fun n => saturating_add_usize n 1 |>
       | true, false => self <| recovering ::= fun n => saturating_sub_usize n 1 |>
       | _, _ => self
       end)
  end.

(** ** Agreement *)

Definition agrees (self : Shard) (index : nat) (slug : bytes) : bool :=
  match self.(markets) !! slug, self.(standbys) !! index with
  | Some entry, Some standby =>
      promotable entry (shadow_verdict entry (standby.(shadows) !! slug))
  | _, _ => false
  end.

Definition refresh_shadow_agreement (index : nat) (slug : bytes) : act := fun self =>
  let agreed := agrees self index slug in
  on_standby index (fun b =>
    b <| agreeing ::= fun s => if agreed then {[slug]} ∪ s else s ∖ {[slug]} |>) self.

Definition refresh_agreement (slug : bytes) : act := fun self =>
  fold_left (fun self index => refresh_shadow_agreement index slug self)
    (seq 0 (length self.(standbys))) self.

Definition retire_agreement (slug : bytes) : act := fun self =>
  self <| standbys ::= fmap (fun b => b <| agreeing ::= fun s => s ∖ {[slug]} |>) |>.

Definition retire_all_agreement : act := fun self =>
  self <| standbys ::= fmap (fun b => b <| agreeing := ∅ |>) |>.

Definition agreeing_markets (self : Shard) (index : nat) : Z :=
  match self.(standbys) !! index with
  | Some standby => Z.of_nat (size standby.(agreeing))
  | None => 0
  end.

(** The figure [check_agreement_tracking] compares against, from scratch. *)
Definition agreeing_markets_recomputed (self : Shard) (index : nat) : Z :=
  match self.(standbys) !! index with
  | Some standby =>
      Z.of_nat (size (filter (fun m : bytes * MarketEntry =>
        promotable m.2 (shadow_verdict m.2 (standby.(shadows) !! m.1)) = true) self.(markets)))
  | None => 0
  end.

Definition promotion_coverage (e : ShardEnv) (self : Shard) : Z :=
  match first_viable_standby e self with
  | Some index => agreeing_markets self index
  | None => 0
  end.

(** ** A walk over the markets *)

Record Tally : Set := {
  t_losses : Z; t_terminal : Z; t_promoted : Z; t_refused : Z; t_failure : option bytes;
  t_retired : list bytes
}.

Definition tally_new : Tally :=
  {| t_losses := 0; t_terminal := 0; t_promoted := 0; t_refused := 0; t_failure := None;
     t_retired := [] |}.

Definition one_if (b : bool) (n : Z) : Z := if b then saturating_add_u64 n 1 else n.

Definition tally_visit (slug : bytes) (v : Visit) (t : Tally) : Tally :=
  {| t_losses := one_if (match v.(v_reported) with Some (Ok true) => true | _ => false end)
                   t.(t_losses);
     t_terminal := one_if v.(v_terminal) t.(t_terminal);
     t_promoted := one_if v.(v_promoted) t.(t_promoted);
     t_refused := one_if v.(v_refused) t.(t_refused);
     t_failure := match v.(v_reported) with
                  | Some (Err error) => Some (book_error_key error)
                  | _ => t.(t_failure)
                  end;
     t_retired := if v.(v_retired) then t.(t_retired) ++ [slug] else t.(t_retired) |}.

(** One market of the walk; a book that lost its authority is published as it is reached. *)
Definition visit_market (visit : visiting) (acc : Tally * Shard) (slug : bytes) : Tally * Shard :=
  let '(t, self) := acc in
  match self.(markets) !! slug with
  | None => (t, self)
  | Some entry =>
      let '(entry, v) := visit slug entry in
      let self := self <| markets ::= <[slug := entry]> |> in
      let self := match v.(v_reported) with
                  | Some (Ok true) =>
                      tell_segment (fun w => sink_publish_state w slug
                                               (writer_published entry.(writer))) self
                  | _ => self
                  end in
      (tally_visit slug v t, self)
  end.

(** What every walk counts once it is over. *)
Definition settle_tally (t : Tally) : act := fun self =>
  let self := count n_continuity_losses t.(t_losses)
                (count n_recovery_base_unavailable t.(t_terminal)
                   (count n_markets_promoted t.(t_promoted)
                      (count n_markets_promotion_refused t.(t_refused) self))) in
  let self := match t.(t_failure) with Some key => record_failure key self | None => self end in
  fold_left (fun self slug => retire_agreement slug self) t.(t_retired) self.

Definition walk_markets (visit : visiting) : act := ask (fun e self =>
  let '(t, self) := fold_left (visit_market visit) (walk_order e self) (tally_new, self) in
  settle_tally t self).

(** ** Losses *)

Definition publish_segment_state (slug : bytes) : act := fun self =>
  match self.(markets) !! slug with
  | None => self
  | Some entry =>
      tell_segment (fun w => sink_publish_state w slug (writer_published entry.(writer))) self
  end.

Definition publish_segment_commit (slug : bytes) (commit : BookCommit) (arrival : FrameArrival) :
    act := fun self =>
  match self.(markets) !! slug with
  | None => self
  | Some entry =>
      tell_segment (fun w => sink_publish_commit w slug commit
                               (writer_published entry.(writer)) arrival) self
  end.

Definition report_market_loss (slug : bytes) (reason : ContinuityReason) (why : AuthorityReason) :
    act := fun self =>
  let '(reported, self) := mutate_market slug (lose_entry reason why) self in
  let self :=
    match reported with
    | Some (Ok true) => publish_segment_state slug (count n_continuity_losses 1 self)
    | Some (Err error) => record_failure (book_error_key error) self
    | _ => self
    end in
  refresh_agreement slug self.

Definition report_shard_loss (reason : ContinuityReason) (why : AuthorityReason) : act := fun self =>
  if self.(rail_loss_latched) then self
  else
    let self := self <| rail_loss_latched := true |> in
    let self := walk_markets (visit_shard_loss reason why) self in
    recount_recovering (retire_all_agreement self).

Definition report_rail_loss (s : Slot) (reason : ContinuityReason) (why : AuthorityReason) : act :=
  fun self =>
    if pool_armed self then
      let self := report_shard_loss reason why self in
      match standby_index s with
      | Some index => on_standby index forget_shadows self
      | None => self
      end
    else
      match s with
      | Primary => report_shard_loss reason why self
      | StandbySlot index => on_standby index forget_shadows self
      end.

(** ** Adding and removing markets *)

Definition resume (retired : OrderBook) : result OrderBook InstallRefusal :=
  let '(reported, o) := report_continuity_loss Reconnect ASubscriptionLost retired in
  match reported with
  | Ok _ => Ok o
  | Err _ => Err ResumeUnavailable
  end.

Definition shard_market (slug : bytes) : result MarketRef IdentityError :=
  venue <-? venue_new VENUE ;;
  key <-? market_key_new Identity.slug slug ;;
  Ok (market_ref_new venue key).

(** The place of a market in the segment, asked for before anything about the shard changes. *)
Definition seat (slug : bytes) (w : BookWriter) (self : Shard) : result () InstallRefusal * Shard :=
  match self.(segment) with
  | None => (Ok (), self)
  | Some sink =>
      ask (fun e self =>
        let '(seated, sink) := sink_install e.(answers) slug (writer_published w) sink in
        (map_err install_refusal_from seated, self <| segment := Some sink |>)) self
  end.

Definition install (slug : bytes) (self : Shard) : result () InstallRefusal * Shard :=
  match shard_market slug with
  | Err error => (Err (RefusedIdentity error), self)
  | Ok market =>
      let held := self.(retired) !! slug in
      let self := self <| retired ::= delete slug |> in
      match match held with Some retired => resume retired | None => Ok (book_new market) end with
      | Err refusal => (Err refusal, self)
      | Ok book =>
          let w := writer_new book self.(observer_capacity) in
          let '(seated, self) := seat slug w self in
          match seated with
          | Err refusal => (Err refusal, self)
          | Ok _ =>
              let version := saturating_add_u64 self.(desired_version) 1 in
              (Ok (), self <| desired_count ::= fun n => saturating_add_usize n 1 |>
                        <| desired_version := version |>
                        <| markets ::= <[slug := entry_new market w version]> |>)
          end
      end
  end.

Definition installable (self : Shard) (slug : bytes) : result () InstallRefusal :=
  match self.(segment) with
  | None => Ok ()
  | Some sink => map_err install_refusal_from (sink_installable slug sink)
  end.

(** [removing.retain(|waiting| waiting != slug)]. *)
Definition forget_removal (slug : bytes) : act := fun self =>
  self <| removing ::= List.filter (fun waiting => negb (bool_decide (waiting = slug))) |>.

(** Whether a book was there to close. *)
Definition close (slug : bytes) (self : Shard) : bool * Shard :=
  match self.(markets) !! slug with
  | None => (false, self)
  | Some entry =>
      let self := self <| markets ::= delete slug |> in
      let '(ended, w) := writer_unsubscribe entry.(writer) in
      let self := match ended with
                  | Err error => record_failure (book_error_key error) self
                  | Ok _ => self
                  end in
      let self := tell_segment (fun a => sink_retire a slug (writer_published w)) self in
      let self := if bool_decide (is_Some self.(segment))
                  then self <| retired ::= <[slug := w.(writer_book)]> |> else self in
      let self := if entry.(desired)
                  then self <| desired_count ::= fun n => saturating_sub_usize n 1 |> else self in
      let self := forget_removal slug self in
      let self := self <| standbys ::= fmap (fun b =>
        b <| shadows ::= delete slug |> <| agreeing ::= fun s => s ∖ {[slug]} |>) |> in
      (true, count n_markets_dropped 1 self)
  end.

Definition close_all (slugs : list bytes) : act := fun self =>
  fold_left (fun self slug => (close slug self).2) slugs self.

(** Every market no longer wanted, closed. *)
Definition close_unwanted : act := ask (fun e self => close_all (closing e self) self).

(** The queue of removals is cut back to its bound from the front. *)
Fixpoint evict_removals (fuel : nat) (self : Shard) : Shard :=
  match fuel with
  | O => self
  | S fuel =>
      if MAX_REMOVING_MARKETS <? len self.(removing) then
        match self.(removing) with
        | [] => self
        | evicted :: rest =>
            let self := self <| removing := rest |> in
            let '(closed, self) := close evicted self in
            evict_removals fuel (if closed then count n_tombstones_evicted 1 self else self)
        end
      else self
  end.

Definition enqueue_removal (slug : bytes) : act := fun self =>
  let self := forget_removal slug self in
  let self := self <| removing ::= fun l => l ++ [slug] |> in
  evict_removals (length self.(removing)) self.

Definition answer_install (installed : result () InstallRefusal) : MarketStatus :=
  match installed with Ok _ => Accepted | Err refusal => Rejected (rejection refusal) end.

Definition add_market (slug : bytes) (self : Shard) : MarketStatus * Shard :=
  let capacity := self.(config).(sc_max_markets) in
  let resident := saturating_add_usize capacity MAX_REMOVING_MARKETS in
  match self.(markets) !! slug with
  | Some entry =>
      if entry.(desired) then (market_status entry, self)
      else if capacity <=? self.(desired_count) then (Rejected CapacityExceeded, self)
      else
        match installable self slug with
        | Err refusal => (Rejected (rejection refusal), self)
        | Ok _ =>
            let '(_, self) := close slug self in
            let '(installed, self) := install slug self in
            (answer_install installed, self)
        end
  | None =>
      if (capacity <=? self.(desired_count)) || (resident <=? Z.of_nat (size self.(markets)))
      then (Rejected CapacityExceeded, self)
      else
        let '(installed, self) := install slug self in
        (answer_install installed, self)
  end.

Definition add_markets (slugs : list bytes) (self : Shard) : list MarketOutcome * Shard :=
  let '(outcomes, self) :=
    fold_left (fun '(outcomes, self) slug =>
      let '(status, self) := add_market slug self in
      (outcomes ++ [{| oc_slug := slug; oc_status := status |}], self)) slugs ([], self) in
  (outcomes, recount_recovering self).

(** The demand for one market withdrawn: whether the venue carries it, if it was wanted. *)
Definition withdraw_demand (slug : bytes) (self : Shard) : option bool * Shard :=
  match self.(markets) !! slug with
  | Some entry =>
      if entry.(desired) then
        let entry := entry <| desired := false |> <| subscription := ShardMarket.Removing |> in
        (Some (carried entry), self <| markets ::= <[slug := entry]> |>)
      else (None, self)
  | None => (None, self)
  end.

Definition remove_market (slug : bytes) (self : Shard) : MarketStatus * bool * Shard :=
  if negb (is_market_slug slug) then (Rejected InvalidIdentifier, false, self)
  else
    let '(was_carried, self) := withdraw_demand slug self in
    match was_carried with
    | None => (Removed, false, self)
    | Some carried =>
        let self := retire_agreement slug self in
        let self := self <| desired_count ::= fun n => saturating_sub_usize n 1 |> in
        (Removed, true, if carried then enqueue_removal slug self else (close slug self).2)
    end.

(** The version of the desired set moves once the whole batch is out. *)
Definition remove_markets (slugs : list bytes) (self : Shard) : list MarketOutcome * Shard :=
  let '(outcomes, bumps, self) :=
    fold_left (fun '(outcomes, bumps, self) slug =>
      let '(status, bumped, self) := remove_market slug self in
      (outcomes ++ [{| oc_slug := slug; oc_status := status |}],
       if bumped then saturating_add_u64 bumps 1 else bumps, self)) slugs ([], 0, self) in
  let self := self <| desired_version ::= fun v => saturating_add_u64 v bumps |> in
  (outcomes, recount_recovering self).

(** ** What an operator is told *)

Definition connection_report (self : Shard) (s : Slot) : option ConnectionReport :=
  a ← active_of self s;
  Some {| cr_role := slot_role s; cr_generation := a.(generation); cr_session := a.(session);
          cr_established := a.(established);
          cr_agreeing_markets := agreeing_markets self <$> standby_index s;
          cr_pool_socket := if pool_armed self then Some (slot_index s) else None |}.

Definition pool_report (self : Shard) : option PoolReport :=
  r ← self.(redundancy);
  Some {| pr_sockets := self.(config).(sc_replicas);
          pr_covering := len (List.filter (slot_established self) (slots self));
          pr_state := redundancy_state r |}.

Definition publish_latency (self : Shard) : PublishLatencySummary :=
  match self.(segment) with
  | Some sink => sink_publish_latency sink
  | None => latency_default
  end.

Definition segment_markets (self : Shard) : Z :=
  match self.(segment) with Some sink => sink_installed sink | None => 0 end.

Definition market_reports (self : Shard) : list MarketReport :=
  omap (fun slug => market_report slug <$> self.(markets) !! slug)
    (sort_slugs (map_to_list self.(markets)).*1).

Definition status : Shard -> ShardStatus := ask (fun e self =>
  {| st_markets := market_reports self; st_desired := self.(desired_count);
     st_replicas := self.(config).(sc_replicas);
     st_connections := omap (connection_report self) (slots self);
     st_pool := pool_report self; st_standby_agreeing_markets := promotion_coverage e self;
     st_subscribed := slot_established self Primary;
     st_reconciling := negb (bool_decide (self.(reissue) = ReissueIdle));
     st_segment := shard_sink_name <$> self.(segment);
     st_segment_markets := segment_markets self;
     st_queue_age := queue_age_summary self.(queue_age);
     st_publish_latency := publish_latency self |}).

Definition metrics : Shard -> ShardMetrics := ask (fun e self =>
  {| sm_connected := slot_established self Primary;
     sm_reconciling := negb (bool_decide (self.(reissue) = ReissueIdle));
     sm_replicas := self.(config).(sc_replicas);
     sm_standbys_established :=
       len (List.filter (slot_established self)
              (StandbySlot <$> seq 0 (length self.(standbys))));
     sm_standby_agreeing_markets := promotion_coverage e self; sm_pool := pool_report self;
     sm_desired := self.(desired_count); sm_markets := Z.of_nat (size self.(markets));
     sm_segment_markets := segment_markets self;
     sm_stats := self.(stats) <| frames_seen := e.(frames) |>
                   <| stats_queue_age := queue_age_summary self.(queue_age) |>
                   <| stats_publish_latency := publish_latency self |> |}).

Definition observe (self : Shard) (slug : bytes) : option BookObserver :=
  (fun entry => attach entry.(writer)) <$> self.(markets) !! slug.

Inductive Reply : Type :=
| Outcomes (outcomes : list MarketOutcome)
| StatusReply (status : ShardStatus)
| MetricsReply (metrics : ShardMetrics)
| Observer (observer : option BookObserver).

Definition on_command (command : Command) (self : Shard) : Reply * Shard :=
  match command with
  | Add slugs => let '(outcomes, self) := add_markets slugs self in (Outcomes outcomes, self)
  | Remove slugs => let '(outcomes, self) := remove_markets slugs self in (Outcomes outcomes, self)
  | Status => (StatusReply (status self), ask (fun _ self => self) self)
  | Metrics => (MetricsReply (metrics self), ask (fun _ self => self) self)
  | Observe slug => (Observer (observe self slug), self)
  end.

(** ** Shadows *)

Definition drop_shadow (index : nat) (slug : bytes) : act :=
  on_standby index (fun b =>
    b <| shadows ::= delete slug |> <| agreeing ::= fun s => s ∖ {[slug]} |>).

Definition apply_shadow_candidate (index : nat) (slug : bytes) (market : MarketRef)
    (candidate : Candidate) : act := fun self =>
  match self.(standbys) !! index with
  | None => self
  | Some standby =>
      let shadow := default (book_new market) (standby.(shadows) !! slug) in
      let '(applied, shadow) := apply_snapshot candidate shadow in
      let self :=
        match applied with
        | Ok _ => count n_shadow_snapshots_applied 1
                    (on_standby index (fun b => b <| shadows ::= <[slug := shadow]> |>) self)
        | Err error => record_failure (book_error_key error)
                         (on_standby index (fun b => b <| shadows ::= delete slug |>) self)
        end in
      refresh_shadow_agreement index slug self
  end.

Definition shadow_pooled (s : Slot) (slug : bytes) (market : MarketRef) (candidate : Candidate) :
    act := fun self =>
  match s with
  | StandbySlot index => apply_shadow_candidate index slug market candidate self
  | Primary => self
  end.

(** ** Provenance *)

Definition slot_generation (self : Shard) (s : Slot) : Z :=
  match active_of self s with Some a => a.(generation) | None => 0 end.

Definition provenance_role (self : Shard) (s : Slot) : ReplicaRole :=
  if pool_armed self then PublishingPrimaryRole else slot_role s.

(** [committed_at] is the clock at the commit. *)
Definition build_provenance (market : MarketRef) (update : OrderbookUpdate)
    (position received_at committed_at subscription : Z) (s : Slot) (self : Shard) :
    result Provenance DescriptorError :=
  outcome <-? transpose ((fun token => map_err (fun _ => InvalidSourceEvidence)
                            (outcome_token token)) <$> update.(token_id)) ;;
  version <-? version_evidence update ;;
  evidence <-? match version with
               | Some e => capacity <-? evidence_capacity_new 1 ;; bounded_evidence_new [e] capacity
               | None => capacity <-? evidence_capacity_new 0 ;; bounded_evidence_new [] capacity
               end ;;
  connection <-? connection_identity_new CONNECTION_NAME (slot_generation self s) ;;
  timestamp <-? source_timestamp_new update.(Limitless.timestamp) ;;
  provenance_new
    {| in_market := market; in_outcome := outcome;
       in_native_family := ORDERBOOK_UPDATE_EVENT; in_source_timestamp := Some timestamp;
       in_source_evidence := evidence;
       in_daemon_generation := self.(config).(sc_daemon_generation);
       in_connection := connection; in_subscription_generation := subscription;
       in_receive_position := position; in_commit_position := position;
       in_local_receive_time := {| local_time := elapsed_nanos self.(run_start) received_at |};
       in_local_commit_time := {| local_time := elapsed_nanos self.(run_start) committed_at |};
       in_replica := provenance_role self s; in_representation := VenueNative;
       in_origin := SourceReported; in_local_revision := 0; in_continuity_epoch := 0 |}.

(** The candidate of an update, or [refused] with what is wrong with it. *)
Definition with_candidate (s : Slot) (market : MarketRef) (update : OrderbookUpdate)
    (position received_at subscription : Z) (refused : bytes -> act) (k : Candidate -> act) : act :=
  with_now (fun committed_at self =>
    match build_provenance market update position received_at committed_at subscription s self with
    | Err _ => refused (lit "InvalidProvenance") self
    | Ok provenance =>
        match snapshot_candidate update provenance self.(level_capacity) with
        | Err _ => refused (lit "InvalidCandidate") self
        | Ok candidate => k candidate self
        end
    end).

Definition refuse_shadow (index : nat) (slug key : bytes) : act := fun self =>
  drop_shadow index slug (record_failure (lit "shadow:" ++ key) self).

Definition refuse_frame (slug key : bytes) : act := fun self =>
  report_market_loss slug LocalLoss ALocalLoss (record_failure (lit "book:" ++ key) self).

Definition apply_shadow_update (index : nat) (update : OrderbookUpdate)
    (received_at subscription : Z) : act := fun self =>
  let slug := update.(market_slug) in
  match self.(markets) !! slug with
  | None => count n_frames_unrouted 1 self
  | Some entry =>
      if negb match active_of self (StandbySlot index) with
              | Some a => binary_search a.(dialled_markets) slug
              | None => false
              end
      then count n_frames_uncarried 1 self
      else
        match checked_add_u64 self.(shadow_position) 1 with
        | None => refuse_shadow index slug (lit "PositionCounterOverflow") self
        | Some at_ =>
            with_candidate (StandbySlot index) entry.(market) update at_ received_at subscription
              (refuse_shadow index slug)
              (apply_shadow_candidate index slug entry.(market)) (self <| shadow_position := at_ |>)
        end
  end.

(** ** A frame for a published book *)

(** What the accepted and the rejected frame have in common wherever it came from; [taken]
    is what its source learns once the book took it. *)
Definition apply_to_market (s : Slot) (slug : bytes) (candidate : Candidate)
    (arrival : FrameArrival) (taken : act) : act := fun self =>
  let '(applied, self) := mutate_market slug (apply_to_entry candidate) self in
  let self :=
    match applied with
    | Some (Ok commit) =>
        let self := count n_mutations_derived (Z.min U64_MAX (len commit.(mutations)))
                      (count n_snapshots_applied 1 self) in
        let self := self <| rail_loss_latched := false |> in
        let self := on_active s (fun a => a <| produced_base := true |>) self in
        publish_segment_commit slug commit arrival (taken self)
    | Some (Err error) =>
        report_market_loss slug LocalLoss ALocalLoss (record_failure (book_error_key error) self)
    | None => self
    end in
  refresh_agreement slug self.

Definition apply_update (update : OrderbookUpdate) (received_at : Z) (arrival : FrameArrival)
    (subscription : Z) : act := fun self =>
  let slug := update.(market_slug) in
  let running := generation <$> self.(primary).(active) in
  match self.(markets) !! slug with
  | None => count n_frames_unrouted 1 self
  | Some entry =>
      if bool_decide (running = None) || negb (bool_decide (entry.(subscribed_from) = running))
      then count n_frames_uncarried 1 self
      else
        match checked_add_u64 self.(position) 1 with
        | None => refuse_frame slug (lit "PositionCounterOverflow") self
        | Some at_ =>
            with_candidate Primary entry.(market) update at_ received_at subscription
              (refuse_frame slug)
              (fun candidate => apply_to_market Primary slug candidate arrival (fun self => self))
              (self <| position := at_ |>)
        end
  end.

(** ** The pool *)

Definition pool_carries (self : Shard) (s : Slot) (slug : bytes) : bool :=
  match self.(markets) !! slug, active_of self s with
  | Some entry, Some a =>
      a.(established) && claimed_by a.(dialled_set_version) entry
      && binary_search a.(dialled_markets) slug
  | _, _ => false
  end.

Definition note_pool_position (slug : bytes) (socket : nat) (reached : bool) : act :=
  on_entry slug (fun entry =>
    entry <| sockets_at_published ::=
      (if reached then with_bit (socket_bit socket) else without_bit (socket_bit socket)) |>).

(** [resize] to the configured sockets, then the count of one of them. *)
Definition credit_pool_publication (socket : nat) : act := fun self =>
  let replicas := Z.to_nat self.(config).(sc_replicas) in
  let self := count n_pool_published 1 self in
  self <| stats ::= fun t => t <| pool_published_by_socket ::= fun l =>
         alter (fun n => saturating_add_u64 n 1) socket
           (l ++ replicate (replicas - length l) 0) |> |>.

Definition retire_pool_socket (s : Slot) : act := fun self =>
  let socket := slot_index s in
  on_entries (retire_entry_socket socket)
    (self <| pool_sessions_ended ::= with_bit (socket_bit socket) |>).

Definition new_pool_gate (self : Shard) (declaration : DedupKeyDeclaration) (sockets : nat) :
    option PoolGate :=
  match gate_new declaration sockets with
  | Err _ => None
  | Ok gate =>
      Some (fold_left (fun gate socket =>
              if has_bit self.(pool_sessions_ended) (socket_bit socket)
              then retire_socket gate socket else gate) (seq 0 sockets) gate)
  end.

Definition hand_back_to_publishing_slot : act := fun self =>
  let running := match self.(primary).(active) with
                 | Some a => if a.(established) then Some a.(generation) else None
                 | None => None
                 end in
  recount_recovering (walk_markets (visit_hand_back running) self).

Definition withdraw_licence (reason : PoolDegradeReason) : act := fun self =>
  match self.(redundancy) with
  | Some (Pooled declaration sockets None) =>
      let self := self <| redundancy := Some (Pooled declaration sockets (Some reason)) |> in
      let self := self <| stats ::= fun t => t <| stats_pool_degraded := Some reason |> |> in
      hand_back_to_publishing_slot (on_entries (fun entry => entry <| gate := None |>) self)
  | _ => self
  end.

Definition publish_pooled (s : Slot) (slug : bytes) (market : MarketRef) (candidate : Candidate)
    (key : option DedupKey) (arrival : FrameArrival) : act := fun self =>
  let socket := slot_index s in
  apply_to_market s slug candidate arrival (fun self =>
    let self := match key with
                | Some key => on_entry slug (fun entry =>
                    entry <| gate ::= fmap (fun g => committed g socket key) |>) self
                | None => self
                end in
    let self := on_entry slug (fun entry =>
      entry <| sockets_at_published := socket_bit socket |>) self in
    credit_pool_publication socket self) (shadow_pooled s slug market candidate self).

Definition recover_pooled (s : Slot) (slug : bytes) (market : MarketRef) (candidate : Candidate)
    (arrival : FrameArrival) : act := fun self =>
  let socket := slot_index s in
  apply_to_market s slug candidate arrival (fun self =>
    let self := on_entry slug (fun entry =>
      entry <| gate ::= fmap (fun g => gate_recovered g socket) |>) self in
    credit_pool_publication socket (note_pool_position slug socket true self))
    (shadow_pooled s slug market candidate self).

(** [judge_pooled]: the verdict, whether the window already held this content for this key,
    and whether the book is owed a base. *)
Definition judge_pooled (slug : bytes) (s : Slot) (key : option DedupKey)
    (projection : CandidateProjection) (self : Shard) :
    option (PoolVerdict * bool * bool) * Shard :=
  match self.(markets) !! slug with
  | None => (None, self)
  | Some entry =>
      match entry.(gate) with
      | None => (None, self)
      | Some g =>
          let redelivered := match key with
                             | Some key => evidence_matches g key projection
                             | None => false
                             end in
          let '(verdict, g) := gate_admit g (slot_index s) key projection in
          (Some (verdict, redelivered, negb (live entry)),
           self <| markets ::= <[slug := entry <| gate := Some g |>]> |>)
      end
  end.

(** Past the gate's verdict. *)
Definition settle_pooled (s : Slot) (slug : bytes) (market : MarketRef) (candidate : Candidate)
    (key : option DedupKey) (arrival : FrameArrival) : act := fun self =>
  let '(judged, self) := judge_pooled slug s key (candidate_projection candidate) self in
  match judged with
  | None => self
  | Some (verdict, redelivered, is_recovering) =>
      match verdict with
      | VPublish => publish_pooled s slug market candidate key arrival self
      | VDuplicate =>
          if redelivered && is_recovering
          then recover_pooled s slug market candidate arrival self
          else
            shadow_pooled s slug market candidate
              (note_pool_position slug (slot_index s) true (count n_pool_duplicate_drops 1 self))
      | VStale =>
          shadow_pooled s slug market candidate
            (note_pool_position slug (slot_index s) false (count n_pool_stale_drops 1 self))
      | VDegrade violation => withdraw_licence violation.(reason) self
      | VDisarmed => self
      end
  end.

Definition apply_pooled (s : Slot) (update : OrderbookUpdate) (received_at : Z)
    (arrival : FrameArrival) (subscription : Z) : act := fun self =>
  match pool_licence self with
  | None => self
  | Some (declaration, sockets) =>
      let slug := update.(market_slug) in
      match self.(markets) !! slug with
      | None => count n_frames_unrouted 1 self
      | Some entry =>
          if negb (pool_carries self s slug) then count n_frames_uncarried 1 self
          else
            match checked_add_u64 self.(position) 1 with
            | None => refuse_frame slug (lit "PositionCounterOverflow") self
            | Some at_ =>
                with_candidate s entry.(market) update at_ received_at subscription
                  (refuse_frame slug) (fun candidate self =>
                    let key := match dedup_key update with Ok key => key | Err _ => None end in
                    match self.(markets) !! slug ≫= gate with
                    | Some _ => settle_pooled s slug entry.(market) candidate key arrival self
                    | None =>
                        match new_pool_gate self declaration sockets with
                        | None => withdraw_licence KeyUnavailable self
                        | Some g =>
                            settle_pooled s slug entry.(market) candidate key arrival
                              (on_entry slug (fun entry => entry <| gate := Some g |>) self)
                        end
                    end) (self <| position := at_ |>)
            end
      end
  end.

(** ** A resolution *)

Definition build_resolution (entry : MarketEntry) (resolved : MarketResolved)
    (position received_at committed_at subscription : Z) (self : Shard) :
    option MarketResolution :=
  winner ← ok (outcome_venue_defined resolved.(winning_outcome));
  native_label ← ok (native_label_new resolved.(market_type));
  date ← ok (source_timestamp_new resolved.(resolved_date));
  connection ← ok (connection_identity_new CONNECTION_NAME (slot_generation self Primary));
  capacity ← ok (evidence_capacity_new 0);
  evidence ← ok (bounded_evidence_new [] capacity);
  provenance ← ok (provenance_new
    {| in_market := entry.(market); in_outcome := None;
       in_native_family := MARKET_RESOLVED_EVENT; in_source_timestamp := Some date;
       in_source_evidence := evidence;
       in_daemon_generation := self.(config).(sc_daemon_generation);
       in_connection := connection; in_subscription_generation := subscription;
       in_receive_position := position; in_commit_position := position;
       in_local_receive_time := {| local_time := elapsed_nanos self.(run_start) received_at |};
       in_local_commit_time := {| local_time := elapsed_nanos self.(run_start) committed_at |};
       in_replica := PublishingPrimaryRole; in_representation := VenueNative;
       in_origin := SourceReported; in_local_revision := (entry_book entry).(revision);
       in_continuity_epoch := epoch_of (entry_book entry).(Book.continuity) |});
  seen ← ok (resolution_observation_new provenance winner native_label MarketFeed);
  Some {| observation := seen; winning_index := resolved.(resolved_index);
          resolution_date := date |}.

Definition forward_resolution (resolved : MarketResolved) (received_at : Z)
    (arrival : FrameArrival) (subscription : Z) : act := fun self =>
  let slug := resolved.(slug) in
  match self.(markets) !! slug with
  | None => count n_resolutions_unrouted 1 self
  | Some entry =>
      match checked_add_u64 self.(position) 1 with
      | None => record_failure (lit "resolution:PositionCounterOverflow") self
      | Some at_ =>
          with_now (fun committed_at self =>
            match build_resolution entry resolved at_ received_at committed_at subscription self with
            | None => record_failure (lit "resolution:InvalidObservation") self
            | Some resolution =>
                let self := on_entry slug (fun entry =>
                  entry <| latest_resolution := Some resolution |>) self in
                if bool_decide (is_Some self.(segment))
                   && negb (resolution_fits_the_ring outcome_capacity type_capacity date_capacity
                              resolution)
                then record_failure (lit "resolution:Unrepresentable") self
                else
                  let '(delivered, w) := writer_publish_resolution resolution entry.(writer) in
                  let self := on_entry slug (fun entry => entry <| writer := w |>) self in
                  match delivered with
                  | Ok delivery =>
                      tell_segment (fun a => sink_publish_resolution a slug delivery
                                               (writer_published w) arrival)
                        (count n_resolutions_forwarded 1 self)
                  | Err _ => self
                  end
            end) (self <| position := at_ |>)
      end
  end.

(** ** Events and notices *)

Definition on_event (s : Slot) (event : LimitlessEvent) (received_at arrival_time_nanos
    subscription : Z) : act := with_now (fun at_ self =>
  let self := self <| queue_age ::= record (micros_between received_at at_) |> in
  let arrival := {| wall_clock_nanos := arrival_time_nanos; monotonic := received_at |} in
  match event with
  | OrderbookUpdateEvent update =>
      let self := count n_events_orderbook 1 self in
      if pool_armed self then apply_pooled s update received_at arrival subscription self
      else
        match s with
        | Primary => apply_update update received_at arrival subscription self
        | StandbySlot index => apply_shadow_update index update received_at subscription self
        end
  | MarketResolvedEvent resolved =>
      let self := count n_events_resolved 1 self in
      if bool_decide (s = Primary)
      then forward_resolution resolved received_at arrival subscription self else self
  | UnknownEvent _ => count n_events_unknown 1 self
  end).

Definition settle_dial (s : Slot) : act := fun self =>
  match slot self s ≫= dialled_version with
  | None => self
  | Some version =>
      let self := on_slot s (fun t => t <| dialled_version := None |>) self in
      match active_of self s with
      | None => self
      | Some a =>
          let self :=
            match s with
            | Primary => fold_left (fun self slug =>
                on_entry slug (settle_entry a.(generation) a.(dialled_set_version)) self)
                a.(dialled_markets) self
            | StandbySlot _ => self
            end in
          on_slot s (fun t => t <| wire_version := version |>) self
      end
  end.

(** What a reissue becomes once its command is on the wire. *)
Definition await_bases : act := fun self =>
  if 0 <? self.(recovering)
  then with_now (fun at_ self =>
         self <| reissue := ReissueAwaiting (at_ + self.(config).(sc_resubscribe_window)) |>) self
  else self <| reissue := ReissueIdle |>.

Definition note_heartbeat (s : Slot) (observed_at : Z) : act :=
  on_active s (fun a => a <| last_heartbeat := Some observed_at |>).

Definition on_notice (notice : ConnectionNotice) : act := fun self =>
  match slot_of self notice.(notice_generation) with
  | None =>
      match notice.(note) with
      | NoteEvent _ _ _ _ => count n_fenced_events 1 self
      | _ => self
      end
  | Some s =>
      let depth := len self.(notices) in
      let self := self <| stats ::= fun t => t <| queue_depth_max ::= Z.max depth |> |> in
      match notice.(note) with
      | Ready open _ observed_at =>
          let self := on_active s (fun a =>
            a <| ac_heartbeat_deadline := Some (from_millis (heartbeat_deadline open)) |>
              <| last_heartbeat := Some observed_at |> <| established := true |>
              <| session := Some open.(sid) |>) self in
          let self := settle_dial s self in
          match s with Primary => await_bases self | StandbySlot _ => self end
      | Heartbeat observed_at => note_heartbeat s observed_at self
      | Resubscribed _ =>
          match s, self.(reissue) with
          | Primary, ReissueRequested _ => await_bases self
          | _, _ => self
          end
      | NoteEvent event received_at arrival subscription =>
          on_event s event received_at arrival subscription self
      | DecodeFailure key book_relevant =>
          let self := record_failure key self in
          if book_relevant then report_rail_loss s LocalLoss ALocalLoss self else self
      | Overload dropped =>
          report_rail_loss s LocalLoss AOverload (count n_overload_drops dropped self)
      end
  end.

(** ** A connection that ends *)

Definition recovery_exhausted (self : Shard) : bool :=
  (0 <? self.(desired_count))
  && forallb (fun m => negb m.2.(desired)
                       || (self.(config).(sc_max_recovery_attempts) <=? m.2.(recovery_attempts)))
       (map_to_list self.(markets)).

Definition schedule_reconnect (s : Slot) : act := fun self =>
  let cfg := self.(config) in
  let attempt := match slot self s with Some t => t.(backoff_attempt) | None => 0 end in
  let base := backoff_base cfg.(sc_replicas) cfg.(sc_initial_backoff) cfg.(sc_max_backoff)
                cfg.(sc_exhausted_backoff) (recovery_exhausted self) attempt in
  let delay := jittered base (hash_one (slot_index s) attempt) in
  with_now (fun at_ => on_slot s (fun t => t <| reconnect_at := Some (at_ + delay) |>)) self.

(** The ladder of a connection that lived [lifetime]. *)
Definition advance_backoff (lifetime : Z) (self : Shard) (t : ConnectionSlot) : ConnectionSlot :=
  t <| backoff_attempt ::= next_backoff_attempt lifetime self.(config).(sc_stable_after) |>.

Definition count_standby_end (reason : ConnectionEndReason) : act := fun self =>
  match reason with
  | SubscriptionReplaced => self
  | _ => self <| stats ::= fun t => t <| standby_ends ::= bump (standby_end_key reason) |> |>
  end.

Definition release_fenced (s : Slot) : act := fun self =>
  match slot self s ≫= fenced with
  | None => self
  | Some f => effect (Aborted f.(fenced_generation)) (on_slot s (fun t => t <| fenced := None |>) self)
  end.

Definition fence (s : Slot) (a : ActiveConnection) : act := with_now (fun at_ self =>
  let expires := at_ + self.(config).(sc_fenced_linger) in
  match slot self s with
  | None => effect (Aborted a.(generation)) self
  | Some t =>
      let self := match t.(fenced) with
                  | Some previous => effect (Aborted previous.(fenced_generation)) self
                  | None => self
                  end in
      let self := on_slot s (fun t => t <| fenced :=
        Some {| fenced_generation := a.(generation); expires_at := expires |} |>) self in
      count n_fenced_generations 1 self
  end).

Definition on_connection_ended (reason : ConnectionEndReason) (lifetime : Z) : act := fun self =>
  let self := self <| reissue := ReissueIdle |> <| rail_loss_latched := false |> in
  let self := on_slot Primary (fun t => t <| dialled_version := None |>) self in
  let '(continuity, authority) := end_reason_mapping reason in
  let self := close_unwanted self in
  let self := walk_markets (visit_connection_ended self.(config).(sc_max_recovery_attempts)
                              continuity authority) self in
  let self := recount_recovering (retire_all_agreement self) in
  let self := on_slot Primary (advance_backoff lifetime self) self in
  schedule_reconnect Primary self.

Definition on_standby_ended (index : nat) (reason : ConnectionEndReason) (lifetime : Z) : act :=
  fun self =>
    let self := count_standby_end reason self in
    let self := on_standby index (fun b =>
      forget_shadows b <| sb_slot ::= fun t =>
        advance_backoff lifetime self (t <| dialled_version := None |>) |>) self in
    schedule_reconnect (StandbySlot index) self.

(** The sets of the sockets other than [excluding] that can still deliver. *)
Definition pool_survivor_sets (e : ShardEnv) (self : Shard) (excluding : Slot) :
    list (list bytes) :=
  omap (fun s => a ← active_of self s;
                 if a.(established) && is_viable e a then Some a.(dialled_markets) else None)
    (List.filter (fun s => negb (bool_decide (s = excluding))) (slots self)).

Definition report_lost_pool_coverage (ended : Slot) (reason : ConnectionEndReason) : act :=
  ask (fun e self =>
    let survivors := pool_survivor_sets e self ended in
    let '(continuity, authority) := end_reason_mapping reason in
    let publishing := bool_decide (ended = Primary) in
    let self := if publishing then close_unwanted self else self in
    walk_markets (visit_lost_coverage self.(config).(sc_max_recovery_attempts) publishing survivors
                    continuity authority) self).

(** What a standby whose connection moved to the publishing slot is left with. *)
Definition vacate_standby (index : nat) (lifetime : Z) : act := fun self =>
  let self := release_fenced (StandbySlot index) self in
  let self := on_standby index (fun b =>
    forget_shadows b <| sb_slot ::= fun t =>
      advance_backoff lifetime self
        (t <| active := None |> <| dialled_version := None |> <| wire_version := 0 |>) |>) self in
  schedule_reconnect (StandbySlot index) self.

(** The connection of a standby in the publishing slot, with the bookkeeping of its wire. *)
Definition occupy_primary (index : nat) (a : ActiveConnection) : act := fun self =>
  let self := on_slot (StandbySlot index) (fun t => t <| active := None |>) self in
  let wire := match slot self (StandbySlot index) with Some t => t.(wire_version) | None => 0 end in
  let backoff :=
    match slot self (StandbySlot index) with Some t => t.(backoff_attempt) | None => 0 end in
  let self := self <| reissue := ReissueIdle |> in
  on_slot Primary (fun t =>
    t <| active := Some a |> <| dialled_version := None |> <| wire_version := wire |>
      <| reconnect_at := None |> <| backoff_attempt := backoff |>) self.

(** The socket of a standby named by the publishing slot from now on. *)
Definition move_socket_history (from to : nat) : act := fun self =>
  let moved := has_bit self.(pool_sessions_ended) (socket_bit from) in
  let self := self <| pool_sessions_ended ::= without_bit (socket_bit to) |> in
  let self := if moved then self <| pool_sessions_ended ::= with_bit (socket_bit to) |> else self in
  let self := self <| pool_sessions_ended ::= with_bit (socket_bit from) |> in
  on_entries (reassign_entry_socket from to) self.

(** Whether a surviving socket moved into the publishing slot. *)
Definition take_publishing_slot (self : Shard) : bool * Shard :=
  ask (fun e self =>
    let chosen :=
      match List.find (fun index => slot_viable e self (StandbySlot index)
                                    && slot_established self (StandbySlot index))
              (seq 0 (length self.(standbys))) with
      | Some index => Some index
      | None => first_viable_standby e self
      end in
    match chosen with
    | None => (false, self)
    | Some index =>
        match active_of self (StandbySlot index) with
        | None => (false, self)
        | Some a =>
            (true, with_now (fun at_ self =>
              let lifetime := saturating_duration_since at_ a.(spawned_at) in
              let self := occupy_primary index a (count n_pool_handovers 1 self) in
              let self := fold_left (fun self slug =>
                on_entry slug (hand_over_entry a.(generation) a.(dialled_set_version)
                                 a.(established)) self) a.(dialled_markets) self in
              vacate_standby index lifetime (move_socket_history (S index) 0 self)) self)
        end
    end) self.

Definition on_pool_slot_ended (s : Slot) (reason : ConnectionEndReason) (lifetime : Z)
    (was_established handover : bool) : act := fun self =>
  let self := if was_established then retire_pool_socket s self else self in
  let self :=
    match s with
    | Primary => self
    | StandbySlot index =>
        on_standby index (fun b =>
          forget_shadows b <| sb_slot ::= fun t => t <| dialled_version := None |> |>)
          (count_standby_end reason self)
    end in
  let self := report_lost_pool_coverage s reason self in
  let self :=
    match s with
    | Primary =>
        let self := self <| reissue := ReissueIdle |> <| rail_loss_latched := false |> in
        let self := on_slot Primary (fun t =>
          advance_backoff lifetime self (t <| dialled_version := None |>)) self in
        if handover
        then let '(taken, self) := take_publishing_slot self in
             if taken then self else schedule_reconnect Primary self
        else schedule_reconnect Primary self
    | StandbySlot _ => schedule_reconnect s (on_slot s (advance_backoff lifetime self) self)
    end in
  recount_recovering self.

Definition apply_promotions (generation dialled_set_version : Z) (carried : list bytes)
    (shadows : gmap bytes OrderBook) (ended : ConnectionEndReason) (was_established : bool) : act :=
  fun self =>
    let lossy := was_established && match ended with NoticeUndeliverable => true | _ => false end in
    let self := close_unwanted self in
    walk_markets (visit_promotion self.(config).(sc_max_recovery_attempts) generation
                    dialled_set_version carried shadows ended lossy) self.

(** Whether standby [index] took the publishing role. *)
Definition switch_source (index : nat) (ended : ConnectionEndReason) (was_established : bool)
    (self : Shard) : bool * Shard :=
  ask (fun e self =>
    if negb (slot_viable e self (StandbySlot index)) then (false, self)
    else
      match self.(standbys) !! index with
      | None => (false, self)
      | Some standby =>
          match standby.(sb_slot).(active) with
          | None => (false, self)
          | Some a =>
              (true, with_now (fun at_ self =>
                let lifetime := saturating_duration_since at_ a.(spawned_at) in
                let self := on_standby index (fun b => b <| shadows := ∅ |>) self in
                let self := count n_source_switches 1 self in
                let self := occupy_primary index a (self <| rail_loss_latched := false |>) in
                let self := apply_promotions a.(generation) a.(dialled_set_version)
                              a.(dialled_markets) standby.(shadows) ended was_established self in
                recount_recovering (vacate_standby index lifetime self)) self)
          end
      end) self.

(** The first of the standbys from [index] on that takes the role. *)
Fixpoint promote_among (indices : list nat) (ended : ConnectionEndReason) (was_established : bool)
    (self : Shard) : bool * Shard :=
  match indices with
  | [] => (false, self)
  | index :: rest =>
      let '(taken, self) := switch_source index ended was_established self in
      if taken then (true, self) else promote_among rest ended was_established self
  end.

Definition promote_a_standby (ended : ConnectionEndReason) (was_established : bool)
    (self : Shard) : bool * Shard :=
  promote_among (seq 0 (length self.(standbys))) ended was_established self.

Definition on_slot_ended (s : Slot) (reason : ConnectionEndReason) (was_established : bool)
    (lifetime : Z) : act := fun self =>
  if pool_armed self then
    let self :=
      if was_established && match reason with NoticeUndeliverable => true | _ => false end
      then report_shard_loss LocalLoss AOverload self else self in
    on_pool_slot_ended s reason lifetime was_established true self
  else
    match s with
    | Primary =>
        let '(taken, self) := promote_a_standby reason was_established self in
        if taken then self else on_connection_ended reason lifetime self
    | StandbySlot index => on_standby_ended index reason lifetime self
    end.

(** The task of a slot has ended. *)
Definition on_ended (s : Slot) (reason : ConnectionEndReason) : act := fun self =>
  match active_of self s with
  | None => on_slot_ended s reason false 0 self
  | Some a =>
      with_now (fun at_ => on_slot_ended s reason a.(established)
                             (saturating_duration_since at_ a.(spawned_at)))
        (on_slot s (fun t => t <| active := None |>) self)
  end.

(** ** The set on the wire *)

Definition dial_carries_current_entries (self : Shard) (dialled_set_version : Z) : bool :=
  forallb (fun m => negb m.2.(desired) || (m.2.(installed_version) <=? dialled_set_version))
    (map_to_list self.(markets)).

(** A deliberate replacement: the role's ladder starts over. *)
Definition replace_connection (s : Slot) (a : ActiveConnection) : act := with_now (fun at_ self =>
  let lifetime := saturating_duration_since at_ a.(spawned_at) in
  let self := fence s a (count n_set_replacements 1 self) in
  let self :=
    if pool_armed self then on_pool_slot_ended s SubscriptionReplaced lifetime true false self
    else
      match s with
      | Primary => on_connection_ended SubscriptionReplaced lifetime self
      | StandbySlot index => on_standby_ended index SubscriptionReplaced lifetime self
      end in
  on_slot s (fun t => t <| backoff_attempt := 0 |> <| reconnect_at := None |>) self).

Definition reconcile_slot (s : Slot) : act := fun self =>
  match slot self s with
  | None => self
  | Some t =>
      if (self.(desired_version) =? t.(wire_version)) || bool_decide (is_Some t.(dialled_version))
      then self
      else
        match t.(active) with
        | None => self
        | Some a =>
            if negb a.(established) then self
            else if bool_decide (desired_slugs self = a.(dialled_markets))
                    && dial_carries_current_entries self a.(dialled_set_version)
            then let version := self.(desired_version) in
                 on_slot s (fun t => t <| wire_version := version |>) self
            else replace_connection s a (on_slot s (fun t => t <| active := None |>) self)
        end
  end.

Definition reconcile_set : act := each_slot reconcile_slot.

(** ** Recovery *)

Definition arm_reissue : act := fun self =>
  let owed := 0 <? self.(recovering) in
  let ready := slot_established self Primary
               && bool_decide (self.(primary).(dialled_version) = None) in
  match self.(reissue) with
  | ReissueIdle =>
      if owed && ready then with_now (fun at_ self => self <| reissue := ReissuePending at_ |>) self
      else self
  | ReissuePending _ => if negb owed || negb ready then self <| reissue := ReissueIdle |> else self
  | ReissueAwaiting _ => if self.(recovering) =? 0 then self <| reissue := ReissueIdle |> else self
  | _ => self
  end.

Definition try_recv_notice (self : Shard) : option ConnectionNotice * Shard :=
  ask (fun _ self =>
    match self.(notices) with
    | [] => (None, self)
    | n :: rest => (Some n, self <| notices := rest |>)
    end) self.

(** At most [ingest_capacity] notices, each handled as it is taken. *)
Fixpoint drain_notices (capacity : nat) (self : Shard) : Shard :=
  match capacity with
  | O => self
  | S capacity =>
      match try_recv_notice self with
      | (Some n, self) => drain_notices capacity (on_notice n self)
      | (None, self) => self
      end
  end.

(** At most [ingest_capacity] notices, kept. *)
Fixpoint stage_notices (capacity : nat) (staged : list ConnectionNotice) (self : Shard) :
    list ConnectionNotice * Shard :=
  match capacity with
  | O => (staged, self)
  | S capacity =>
      match try_recv_notice self with
      | (Some n, self) => stage_notices capacity (staged ++ [n]) self
      | (None, self) => (staged, self)
      end
  end.

Definition ingest_capacity (self : Shard) : nat := Z.to_nat self.(config).(sc_ingest_capacity).

Definition drain_queued : act := fun self => drain_notices (ingest_capacity self) self.

Definition emit_reissue : act := ask (fun e self =>
  let cfg := self.(config) in
  match self.(primary).(active) with
  | None => self <| reissue := ReissueIdle |>
  | Some a =>
      let granted_at := (reserve_command_grant cfg.(sc_endpoint) e.(now)
                           (from_millis cfg.(sc_min_command_interval_ms)) e.(pacers)).1 in
      let requested := ReissueRequested (granted_at + cfg.(sc_resubscribe_window)) in
      match e.(control) with
      | SendAccepted =>
          count n_subscriptions_emitted 1
            (effect (Supervisor.Resubscribe a.(generation) granted_at)
               (self <| reissue := requested |>))
      | SendFull => self <| reissue := requested |>
      | SendClosed => self <| reissue := ReissueUnreachable |>
      end
  end).

Definition escalate_reissue : act := fun self =>
  match self.(primary).(active) with
  | None => self <| reissue := ReissueIdle |>
  | Some a =>
      with_now (fun at_ self =>
        let self := fence Primary a (count n_reissues_escalated 1 self) in
        on_slot_ended Primary ResubscribeTimedOut a.(established)
          (saturating_duration_since at_ a.(spawned_at)) self)
        (on_slot Primary (fun t => t <| active := None |>) self)
  end.

Definition on_reissue_due : act := fun self =>
  with_now (fun at_ self =>
    match reissue_wake_at self.(reissue) with
    | None => self
    | Some due =>
        if due <=? at_ then
          match self.(reissue) with
          | ReissuePending _ => emit_reissue self
          | ReissueRequested _ => escalate_reissue self
          | ReissueAwaiting _ =>
              if 0 <? self.(recovering) then escalate_reissue self
              else self <| reissue := ReissueIdle |>
          | ReissueIdle | ReissueUnreachable => self
          end
        else self
    end) (arm_reissue (drain_queued self)).

(** ** Heartbeats *)

Definition fence_if_expired (s : Slot) : act := ask (fun e self =>
  match active_of self s with
  | None => self
  | Some a =>
      if match heartbeat_expiry a with Some expiry => expiry <=? e.(now) | None => false end
      then
        with_now (fun at_ self =>
          on_slot_ended s HeartbeatTimeout a.(established)
            (saturating_duration_since at_ a.(spawned_at)) (fence s a self))
          (on_slot s (fun t => t <| active := None |>) self)
      else self
  end).

Definition on_heartbeat_missed (s : Slot) : act := fun self =>
  match active_of self s with
  | None => self
  | Some a =>
      let '(staged, self) := stage_notices (ingest_capacity self) [] self in
      let expiring := filter (fun n => n.(notice_generation) = a.(generation)) staged in
      let others := filter (fun n => n.(notice_generation) <> a.(generation)) staged in
      let self := fold_left (fun self n => on_notice n self) others self in
      let self := fold_left (fun self n =>
        match n.(note) with
        | Heartbeat observed_at => note_heartbeat s observed_at self
        | _ => self
        end) expiring self in
      let self := fence_if_expired s self in
      fold_left (fun self n => on_notice n self) expiring self
  end.

(** ** The run *)

Definition spawn_slot (s : Slot) : act := ask (fun e self =>
  match slot self s with
  | None => self
  | Some t =>
      if bool_decide (is_Some t.(active))
         || match t.(reconnect_at) with Some at_ => e.(now) <? at_ | None => false end
      then self
      else
        ask (fun e self =>
          match (ledger_admit e.(now) self.(config).(sc_daily_attempt_budget) e.(spent)).1 with
          | Err free_at =>
              on_slot s (fun t => t <| reconnect_at := Some free_at |>)
                (count n_attempts_clamped 1 self)
          | Ok _ =>
              let g := self.(next_generation) in
              let self := self <| next_generation := saturating_add_u64 g 1 |> in
              let self := count n_subscriptions_emitted 1 (count n_connection_attempts 1 self) in
              let carried := desired_slugs self in
              let self :=
                match s with
                | Primary => on_entries (fun entry => entry <| dialled := entry.(desired) |>) self
                | StandbySlot _ => self
                end in
              let self := effect (Spawned g) self in
              let version := self.(desired_version) in
              with_now (fun at_ => on_slot s (fun t =>
                t <| dialled_version := Some version |>
                  <| active := Some {| generation := g; dialled_markets := carried;
                       dialled_set_version := version; spawned_at := at_;
                       ac_heartbeat_deadline := None; last_heartbeat := None;
                       established := false; produced_base := false; session := None |} |>
                  <| reconnect_at := None |>)) self
          end) self
  end).

Definition spawn_due : act := fun self =>
  if self.(desired_count) =? 0 then self else each_slot spawn_slot self.

(** One role's share of [shed_idle_connection], and whether it held a connection. *)
Definition shed_slot (s : Slot) (self : Shard) : bool * Shard :=
  let shed := active_of self s in
  let self := on_slot s (fun t => t <| active := None |>) self in
  let self := match shed with Some a => effect (Aborted a.(generation)) self | None => self end in
  let self := release_fenced s self in
  (bool_decide (is_Some shed),
   on_slot s (fun t => t <| dialled_version := None |> <| reconnect_at := None |>
                         <| backoff_attempt := 0 |>) self).

Definition shed_idle_connection : act := fun self =>
  if 0 <? self.(desired_count) then self
  else
    let '(had_connection, self) :=
      fold_left (fun '(had, self) s =>
        let '(held, self) := shed_slot s self in (had || held, self)) (slots self) (false, self) in
    let self := self <| standbys ::= fmap forget_shadows |> in
    let self := self <| reissue := ReissueIdle |> <| rail_loss_latched := false |> in
    let self := recount_recovering (close_unwanted self) in
    if had_connection then count n_connections_shed 1 self else self.

(** The one stall of a run, once a first state was accepted. *)
Definition stall_ingest : act := fun self =>
  if bool_decide (is_Some self.(ingest_stall)) && (0 <? self.(stats).(shard_counter) n_snapshots_applied)
  then ask (fun _ self => self) (self <| ingest_stall := None |>)
  else self.

(** What every turn of the loop starts with. *)
Definition prepare : act := fun self =>
  arm_reissue (spawn_due (reconcile_set (shed_idle_connection (stall_ingest self)))).

Definition segment_failure (self : Shard) : option WriterError :=
  self.(segment) ≫= shard_sink_failure.

Inductive Wake : Set :=
| HeartbeatMissed (s : Slot)
| FencedExpired (s : Slot)
| ReconnectDue
| ReissueDue
| Commanded (command : Command)
| Noticed (notice : ConnectionNotice)
| Ended (s : Slot) (reason : ConnectionEndReason).

Definition on_wake (w : Wake) : act := fun self =>
  match w with
  | HeartbeatMissed s => on_heartbeat_missed s self
  | FencedExpired s => release_fenced s self
  | ReconnectDue => self
  | ReissueDue => on_reissue_due self
  | Commanded command => (on_command command self).2
  | Noticed notice => on_notice notice self
  | Ended s reason => on_ended s reason self
  end.

(** The wakes the loop can take where it stands, with what is then left of its queue: a
    notice is the head of the queue, and only an occupied slot ends or misses a heartbeat. *)
Inductive wakes_with : Shard -> Wake -> Shard -> Prop :=
| wakes_noticed self n rest : self.(notices) = n :: rest ->
    wakes_with self (Noticed n) (self <| notices := rest |>)
| wakes_commanded self command : wakes_with self (Commanded command) self
| wakes_ended self s reason : is_Some (active_of self s) -> wakes_with self (Ended s reason) self
| wakes_heartbeat self s : is_Some (active_of self s ≫= heartbeat_expiry) ->
    wakes_with self (HeartbeatMissed s) self
| wakes_fenced self s : wakes_with self (FencedExpired s) self
| wakes_reissue self : is_Some (reissue_wake_at self.(reissue)) -> wakes_with self ReissueDue self
| wakes_reconnect self : wakes_with self ReconnectDue self.

(** One turn of [run_until]; a failed segment ends the run. *)
Inductive turn : Shard -> Shard -> Prop :=
| turn_once self w woken : segment_failure self = None ->
    wakes_with (ask (fun _ self => self) (prepare self)) w woken -> turn self (on_wake w woken).

Definition finish_slot (s : Slot) : act := fun self =>
  release_fenced s
    match active_of self s with
    | Some a => effect (Aborted a.(generation)) (on_slot s (fun t => t <| active := None |>) self)
    | None => self
    end.

Definition finish : act := fun self =>
  ask (fun e self =>
    self <| stats ::= fun t =>
      t <| frames_seen := e.(frames) |>
        <| stats_queue_age := queue_age_summary self.(queue_age) |>
        <| stats_publish_latency := publish_latency self |>
        <| stats_segment_failure := segment_failure self |> |>) (each_slot finish_slot self).

(** ** Building one *)

(** [started] is the clock's answer. *)
Definition shard_empty (cfg : ShardConfig) (started : Z) (levels : LevelCapacity)
    (observers : ObserverCapacity) : Shard :=
  {| config := cfg <| sc_max_markets := Z.min cfg.(sc_max_markets) MAX_SHARD_MARKETS |>;
     level_capacity := levels; observer_capacity := observers; markets := ∅; retired := ∅;
     segment := None; primary := slot_default;
     standbys := replicate (Z.to_nat (cfg.(sc_replicas) - 1)) standby_default;
     redundancy := if 1 <? cfg.(sc_replicas)
                   then Some (licensed cfg.(sc_dedup_key) (Z.to_nat cfg.(sc_replicas))) else None;
     pool_sessions_ended := 0; next_generation := 1; notices := []; reissue := ReissueIdle;
     desired_version := 0; recovering := 0; desired_count := 0; removing := [];
     rail_loss_latched := false; position := 0; shadow_position := 0; run_start := started;
     queue_age := queue_age_new; ingest_stall := cfg.(sc_ingest_stall);
     stats := shard_stats_default; ticks := 0; effects := [] |}.

Definition install_error (refusal : InstallRefusal) : ShardError :=
  match refusal with
  | RefusedIdentity error => ShardMarket error
  | RefusedDelivery error => ShardSegment error
  | RefusedStream | ResumeUnavailable => ShardSegment MarketAlreadyInstalled
  end.

(** The starting set; a repeated slug is one market. *)
Fixpoint install_set (capacity : Z) (slugs : list bytes) (self : Shard) :
    result Shard ShardError :=
  match slugs with
  | [] => Ok self
  | slug :: rest =>
      if bool_decide (is_Some (self.(markets) !! slug)) then install_set capacity rest self
      else if capacity <=? self.(desired_count) then Err MarketCapacityExceeded
      else
        match install slug self with
        | (Ok _, self) => install_set capacity rest self
        | (Err refusal, _) => Err (install_error refusal)
        end
  end.

Definition shard_new (cfg : ShardConfig) (started : Z) : result Shard ShardError :=
  refuse (cfg.(sc_max_recovery_attempts) =? 0) with ShardRecoveryAttemptsZero ;;
  refuse (WORST_CASE_ATTEMPT_CEILING <? cfg.(sc_daily_attempt_budget))
    with ShardDailyAttemptBudgetTooLarge ;;
  refuse (MAX_COMMAND_INTERVAL_MS <? cfg.(sc_min_command_interval_ms))
    with ShardCommandIntervalTooLarge ;;
  refuse (cfg.(sc_ingest_capacity) =? 0) with ShardIngestCapacityZero ;;
  refuse (cfg.(sc_control_capacity) =? 0) with ShardControlCapacityZero ;;
  refuse (cfg.(sc_replicas) =? 0) || (MAX_REPLICAS <? cfg.(sc_replicas))
    with ShardReplicasOutOfRange ;;
  levels <-? map_err ShardLevelCapacity (level_capacity_new cfg.(sc_level_capacity)) ;;
  observers <-? map_err ShardObserverCapacity
                  (observer_capacity_new cfg.(sc_observer_capacity)) ;;
  install_set (Z.min cfg.(sc_max_markets) MAX_SHARD_MARKETS) cfg.(sc_markets)
    (shard_empty cfg started levels observers).

(** The resident markets, seated in slug order; each asks the environment in its turn. *)
Fixpoint install_resident (slugs : list bytes) (sink : shard_sink) (self : Shard) :
    result shard_sink WriterError * Shard :=
  match slugs with
  | [] => (Ok sink, self)
  | slug :: rest =>
      match self.(markets) !! slug with
      | None => install_resident rest sink self
      | Some entry =>
          ask (fun e self => 
            match sink_install e.(answers) slug (writer_published entry.(writer)) sink with
            | (Ok _, sink) => install_resident rest sink self
            | (Err refusal, _) => (Err (refusal_writer_error refusal), self)
            end) self
      end
  end.

Definition publish_into (sink : shard_sink) (self : Shard) : result () WriterError * Shard :=
  match self.(segment) with
  | Some _ => (Err SegmentAlreadyInstalled, self)
  | None =>
      match install_resident (sort_slugs (map_to_list self.(markets)).*1) sink self with
      | (Ok sink, self) => (Ok (), self <| segment := Some sink |>)
      | (Err error, self) => (Err error, self)
      end
  end.

End shard.
