(* ===== verification/ShardFloor.v ===== *)
(** * The floor of a shard

    The floor of a shard is what a consumer can come to know of it: the books it holds, what
    is wanted, what each standby could take over. Its steps ([floor_step]) are the few
    operations of [Shard] that touch it; here they are defined, and each of those operations
    is shown to be one of them. *)

From stdpp Require Import gmap relations.
From S2P Require Import Prelude OrdMap Identity Descriptor DedupKey Continuity Observation Book BookProps Pool Channel Observer ObserverProps Limitless Pacing Connection QueueAge ShmWriter Supervisor ShardMarket Shard.

(** ** One market *)

Section entries.
Context `{RB : Broadcast StreamDelivery} `{!BroadcastLaws RB} `{WP : Watch PublishedBook}
  `{!WatchLaws WP}.

Record entry_ok (slug : bytes) (e : MarketEntry) : Prop := {
  eo_market : shard_market slug = Ok e.(market);
  eo_owner : (entry_book e).(book_market) = e.(market);
  eo_wf : book_wf (entry_book e);
  eo_published : writer_published e.(writer) = publish (entry_book e);
  eo_based : live e = true -> e.(base_accepted) = true
}.

(** What keeps an entry's book, its demand and its coverage where they are. *)
Record entry_same (e e' : MarketEntry) : Prop := {
  es_market : e'.(market) = e.(market);
  es_writer : e'.(writer) = e.(writer);
  es_desired : e'.(desired) = e.(desired);
  es_based : e'.(base_accepted) = e.(base_accepted);
  es_reported : e'.(unavailable_reported) = e.(unavailable_reported);
  es_version : e'.(installed_version) = e.(installed_version)
}.

#[export] Instance entry_same_preorder : PreOrder entry_same.
Proof. split; [by split|]. intros x y z [] []. split; congruence. Qed.

Lemma same_ok slug e e' : entry_same e e' -> entry_ok slug e -> entry_ok slug e'.
Proof.
  intros [Em Ew _ Eb _ _] []. unfold live, entry_book in *.
  split; unfold live, entry_book; rewrite ?Em, ?Ew, ?Eb; done.
Qed.

Lemma same_promotable e e' v : entry_same e e' -> promotable e' v = promotable e v.
Proof.
  intros [_ Ew Ed Eb _ _]. unfold promotable, live, entry_book. by rewrite Ew, Ed, Eb.
Qed.

Lemma same_verdict e e' s : entry_same e e' -> shadow_verdict e' s = shadow_verdict e s.
Proof. intros []. unfold shadow_verdict. by rewrite es_writer0. Qed.

(** ** What the operations of a writer leave *)

Lemma performs_book_market w w' : performs w w' -> book_wf w.(writer_book) ->
  w'.(writer_book).(book_market) = w.(writer_book).(book_market).
Proof.
  intros [->|(ds & b' & Hm & ->)] Hwf; [done|]. rewrite (proj1 (fold_send_book ds _)). simpl.
  destruct Hm as [c commit b b' Hc E|c commit b b' Hc E|m cur b b' E|b b' E|r why b b' E].
  - apply apply_snapshot_Ok in E as (ls & next & e & p & _ & _ & _ & _ & _ & _ & _ & ->); done.
  - apply apply_source_delta_Ok in E as (ls & p & E); [|done..]. naive_solver.
  - by apply note_stream_event_Ok in E as (? & ? & _ & _ & _ & ->).
  - by apply unsubscribe_Ok in E as (_ & _ & ->).
  - by apply report_continuity_loss_Ok in E as (_ & ->).
Qed.

(** An entry whose writer made moves and whose book did not come to life. *)
Lemma moved_ok slug e e' : entry_ok slug e -> performs e.(writer) e'.(writer) ->
  e'.(market) = e.(market) -> (live e' = true -> e'.(base_accepted) = true) -> entry_ok slug e'.
Proof.
  intros [Hm Ho Hwf Hp _] Hw Em Hb. split; unfold entry_book in *.
  - congruence.
  - rewrite Em, <- Ho. by apply performs_book_market.
  - by eapply performs_wf.
  - by eapply performs_published.
  - done.
Qed.

Lemma report_loss_facts reason why (e : MarketEntry) : book_wf (entry_book e) ->
  let r := report_entry_loss reason why e in
  r.2 = e <| writer := r.2.(writer) |> /\ performs e.(writer) r.2.(writer) /\
  match r.1 with
  | Ok _ => live r.2 = false
  | Err error => error = CounterOverflow /\ r.2.(writer) = e.(writer)
  end.
Proof.
  intros Hwf r. subst r. unfold report_entry_loss.
  pose proof (proj2 (proj2 (proj2 (proj2 (writer_publishes_then_sends e.(writer)))) Hwf)) as Hp.
  specialize (Hp reason why). unfold writer_report_continuity_loss, publish_if_changed in *.
  destruct (report_continuity_loss reason why _) as [[[|]|err] b'] eqn:E; simpl in *;
    (split; [done|]); (split; [done|]).
  - apply report_continuity_loss_Ok in E as [_ ->]; [|done]. by apply bool_decide_eq_false.
  - apply report_continuity_loss_Ok in E as (_ & Ea & ->); [|done]. apply bool_decide_eq_false.
    unfold entry_book. simpl. by rewrite Ea.
  - split.
    + unfold report_continuity_loss, bind, gets, id, ret, lift, modify in E. simpl in E.
      destruct (bool_decide _ && bool_decide _); simpl in E; [done|].
      destruct (checked_add_u64 _ _); simpl in E; [done|]. by injection E as <-.
    + apply report_continuity_loss_atomic in E as ->. apply with_book_same.
Qed.

(** ** What a walk does to an entry *)

Definition failed (v : Visit) : Prop := exists error, v.(v_reported) = Some (Err error).

Record visit_keeps (e e' : MarketEntry) (v : Visit) : Prop := {
  vk_market : e'.(market) = e.(market);
  vk_desired : e'.(desired) = e.(desired);
  vk_based : e'.(base_accepted) = e.(base_accepted);
  vk_version : e'.(installed_version) = e.(installed_version);
  vk_moves : performs e.(writer) e'.(writer);
  vk_live : live e' = true -> e'.(writer) = e.(writer);
  vk_calm : ~ failed v -> (e.(unavailable_reported) = true -> live e = false) ->
            e'.(unavailable_reported) = true -> live e' = false;
  vk_error : forall error, v.(v_reported) = Some (Err error) -> error = CounterOverflow
}.

Definition keeping (visit : visiting) : Prop := forall slug e, book_wf (entry_book e) ->
  visit_keeps e (visit slug e).1 (visit slug e).2.

Lemma live_writer (e e' : MarketEntry) : e'.(writer) = e.(writer) -> live e' = live e.
Proof. unfold live, entry_book. by intros ->. Qed.

Lemma keeps_ok slug e e' v : visit_keeps e e' v -> entry_ok slug e -> entry_ok slug e'.
Proof.
  intros [] Hok. eapply moved_ok; [exact Hok|done..|]. intros Hl. rewrite vk_based0.
  apply (eo_based _ _ Hok). rewrite <- Hl. symmetry. by apply live_writer, vk_live0.
Qed.

(** A visit that leaves the writer alone. *)
Lemma quiet_visit e e' v : entry_same e e' -> v.(v_reported) = None -> visit_keeps e e' v.
Proof.
  intros [] Hv. split; try done; try (by left); try congruence.
  - intros _ Hc Hu. rewrite <- Hc; [by apply live_writer|congruence].
Qed.

(** One that reports a loss to an entry that differs from [e] in its bookkeeping alone. *)
Lemma loss_visit e e0 reason why v : book_wf (entry_book e) -> entry_same e e0 ->
  v.(v_reported) = Some (report_entry_loss reason why e0).1 ->
  visit_keeps e (report_entry_loss reason why e0).2 v /\
  (~ failed v -> live (report_entry_loss reason why e0).2 = false).
Proof.
  intros Hwf Hs Hv. assert (Hwf0 : book_wf (entry_book e0)).
  { unfold entry_book. by rewrite (es_writer _ _ Hs). }
  destruct (report_loss_facts reason why e0 Hwf0) as (Ef & Hp & Hr).
  destruct (report_entry_loss reason why e0) as [r e'] eqn:E. simpl in *.
  assert (Hl : ~ failed v -> live e' = false).
  { intros Hf. destruct r as [c|err]; [done|]. exfalso. apply Hf. by exists err. }
  split; [|done]. destruct Hs. rewrite es_writer0 in *.
  split; try (rewrite Ef; simpl; congruence).
  - done.
  - intros Hl'. destruct r as [c|err]; [congruence|]. by rewrite (proj2 Hr).
  - intros Hf _ _. by apply Hl.
  - intros error Er. rewrite Hv in Er. injection Er as Er. rewrite Er in Hr. by destruct Hr.
Qed.

Lemma rail_end_keeps attempts reason why v e e0 : book_wf (entry_book e) -> entry_same e e0 ->
  let r := report_rail_end attempts reason why v e0 in
  visit_keeps e r.1 r.2 /\ (~ failed r.2 -> live r.1 = false) /\
  r.2.(v_retired) = v.(v_retired).
Proof.
  intros Hwf Hs r. subst r. unfold report_rail_end.
  set (w := if _ || _ then ARecoveryBaseUnavailable else why).
  destruct (report_entry_loss reason w e0) as [r e'] eqn:E.
  assert (Hv : forall u : Visit, u.(v_reported) = Some r -> visit_keeps e e' u /\ (~ failed u -> live e' = false)).
  { intros u Hu. pose proof (loss_visit e e0 reason w u Hwf Hs) as H. rewrite E in H. by apply H. }
  destruct (_ && _); cbn [fst snd].
  - destruct (Hv (v <| v_reported := Some r |> <| v_terminal := true |>)) as [[] Hl]; [done|].
    split; [|done]. split; try done. intros Hf _ _. by apply Hl.
  - by destruct (Hv (v <| v_reported := Some r |>)) as [H Hl].
Qed.

Lemma spend_attempt_same e : entry_same e (spend_attempt e).
Proof. by split. Qed.

Lemma shard_loss_keeps reason why : keeping (visit_shard_loss reason why).
Proof.
  intros slug e Hwf. unfold visit_shard_loss.
  destruct (negb _); [by apply quiet_visit|]. destruct (terminal _); [by apply quiet_visit|].
  destruct (report_entry_loss reason why (lost_base e)) as [r e'] eqn:E. cbn [fst snd].
  pose proof (loss_visit e (lost_base e) reason why (untouched <| v_reported := Some r |>) Hwf) as H.
  rewrite E in H. by apply H.
Qed.

Lemma connection_ended_keeps attempts reason why : keeping (visit_connection_ended attempts reason why).
Proof.
  intros slug e Hwf. unfold visit_connection_ended.
  destruct (negb _); [by apply quiet_visit|]. by apply rail_end_keeps.
Qed.

Lemma lost_coverage_keeps attempts p survivors reason why :
  keeping (visit_lost_coverage attempts p survivors reason why).
Proof.
  intros slug e Hwf. unfold visit_lost_coverage.
  assert (Hs : entry_same e (if p then unsubscribed e else e)) by (by destruct p; split).
  destruct (existsb _ _); [by apply quiet_visit|].
  destruct (negb _); [apply quiet_visit; [|done]; by etrans; [|apply spend_attempt_same]|].
  apply rail_end_keeps; [done|]. by etrans; [|apply spend_attempt_same].
Qed.

Lemma hand_back_keeps running : keeping (visit_hand_back running).
Proof.
  intros slug e Hwf. unfold visit_hand_back.
  destruct (_ && has_bit _ _); [by apply quiet_visit|]. destruct (_ || _); [by apply quiet_visit|].
  set (w := if _ && _ then AOrderingUnknown else ASubscriptionLost).
  destruct (report_entry_loss Reconnect w (lost_base e)) as [r e'] eqn:E. cbn [fst snd].
  pose proof (loss_visit e (lost_base e) Reconnect w
    (untouched <| v_reported := Some r |> <| v_retired := true |>) Hwf) as H.
  rewrite E in H. by apply H.
Qed.

Lemma promotion_keeps attempts g version carried shadows ended lossy :
  keeping (visit_promotion attempts g version carried shadows ended lossy).
Proof.
  intros slug e Hwf. unfold visit_promotion.
  set (subscribed := _ && claimed_by _ _). destruct (_ && promotable _ _).
  - cbn [fst snd]. split; try done; by left.
  - destruct (negb _).
    + by apply quiet_visit.
    + by apply rail_end_keeps.
Qed.

(** *** Coverage across a walk *)

(** A walk that retires is told of every market whose coverage it ends; one that does not
    leaves nothing covered. *)
Definition fair (visit : visiting) : Prop := forall slug e, entry_ok slug e ->
  (e.(unavailable_reported) = true -> live e = false) -> ~ failed (visit slug e).2 ->
  let r := visit slug e in
  if r.2.(v_retired) then forall v, promotable r.1 v = false
  else r.1.(writer) = e.(writer).

Definition clearing (visit : visiting) : Prop := forall slug e, entry_ok slug e ->
  (e.(unavailable_reported) = true -> live e = false) -> ~ failed (visit slug e).2 ->
  forall v, promotable (visit slug e).1 v = false.

(** Coverage follows a writer that is left alone. *)
Definition steady (visit : visiting) : Prop := forall slug e, entry_ok slug e ->
  (visit slug e).2.(v_retired) = false -> (visit slug e).1.(writer) = e.(writer).

Lemma not_live_unpromotable e v : live e = false -> promotable e v = false.
Proof. intros Hl. unfold promotable. by rewrite Hl, andb_false_r. Qed.
Lemma baseless_unpromotable e v : e.(base_accepted) = false -> promotable e v = false.
Proof. intros Hl. unfold promotable. by rewrite Hl, andb_false_r. Qed.

Lemma shard_loss_clears reason why : clearing (visit_shard_loss reason why).
Proof.
  intros slug e Hok Hc Hf v. revert Hf. unfold visit_shard_loss.
  destruct (e.(base_accepted)) eqn:Eb; cbn [negb]; [|intros _; by apply baseless_unpromotable].
  destruct (terminal (lost_base e)) eqn:Et.
  - intros _. apply not_live_unpromotable. rewrite <- (Hc Et). by apply live_writer.
  - pose proof (loss_visit e (lost_base e) reason why
      (untouched <| v_reported := Some (report_entry_loss reason why (lost_base e)).1 |>)
      (eo_wf _ _ Hok)) as H.
    destruct (report_entry_loss reason why (lost_base e)) as [r e'] eqn:E. cbn [fst snd] in *.
    intros Hf. apply not_live_unpromotable. by apply H.
Qed.

Lemma connection_ended_clears attempts reason why :
  clearing (visit_connection_ended attempts reason why).
Proof.
  intros slug e Hok Hc Hf v. revert Hf. unfold visit_connection_ended.
  destruct (negb _) eqn:En.
  - intros _. apply baseless_unpromotable. cbn [fst].
    apply negb_true_iff, orb_false_iff in En as [En _]. exact En.
  - destruct (rail_end_keeps attempts reason why untouched e (spend_attempt (unsubscribed e)))
      as (_ & Hl & _); [apply Hok|by split|]. intros Hf. by apply not_live_unpromotable, Hl.
Qed.

Lemma lost_coverage_steady attempts p survivors reason why :
  steady (visit_lost_coverage attempts p survivors reason why).
Proof.
  intros slug e Hok. unfold visit_lost_coverage. set (e0 := if p then unsubscribed e else e).
  assert (Hs : entry_same e e0) by (subst e0; by destruct p; split).
  destruct (existsb _ _); [intros _; apply Hs|]. destruct (negb _); [intros _; apply Hs|].
  destruct (rail_end_keeps attempts reason why (untouched <| v_retired := true |>) e (spend_attempt e0))
    as (_ & _ & Hr); [apply Hok|by etrans; [|apply spend_attempt_same]|]. by rewrite Hr.
Qed.

Lemma lost_coverage_fair attempts p survivors reason why :
  fair (visit_lost_coverage attempts p survivors reason why).
Proof.
  intros slug e Hok _ Hf r. destruct r.2.(v_retired) eqn:Er; [|by apply (lost_coverage_steady attempts p survivors reason why slug e)].
  subst r. revert Hf Er. unfold visit_lost_coverage. set (e0 := if p then unsubscribed e else e).
  assert (Hs : entry_same e e0) by (subst e0; by destruct p; split).
  destruct (existsb _ _); [done|]. destruct (negb _); [done|].
  destruct (rail_end_keeps attempts reason why (untouched <| v_retired := true |>) e (spend_attempt e0))
    as (_ & Hl & Hr); [apply Hok|by etrans; [|apply spend_attempt_same]|].
  intros Hf _ v. by apply not_live_unpromotable, Hl.
Qed.

Lemma hand_back_steady running : steady (visit_hand_back running).
Proof.
  intros slug e Hok. unfold visit_hand_back.
  destruct (_ && has_bit _ _); [done|]. destruct (_ || _); [done|].
  by destruct (report_entry_loss _ _ _).
Qed.

Lemma hand_back_fair running : fair (visit_hand_back running).
Proof.
  intros slug e Hok _ Hf r. destruct r.2.(v_retired) eqn:Er; [|by apply (hand_back_steady running slug e)].
  subst r. revert Hf Er. unfold visit_hand_back.
  destruct (_ && has_bit _ _); [done|]. destruct (_ || _); [done|].
  set (w := if _ && _ then AOrderingUnknown else ASubscriptionLost).
  pose proof (loss_visit e (lost_base e) Reconnect w
    (untouched <| v_reported := Some (report_entry_loss Reconnect w (lost_base e)).1 |>
       <| v_retired := true |>) (eo_wf _ _ Hok)) as H.
  destruct (report_entry_loss Reconnect w (lost_base e)) as [x e'] eqn:E. cbn [fst snd] in *.
  intros Hf _ v. apply not_live_unpromotable. by apply H.
Qed.

Lemma promotion_steady attempts g version carried shadows ended lossy :
  steady (visit_promotion attempts g version carried shadows ended lossy).
Proof.
  intros slug e Hok. unfold visit_promotion.
  set (subscribed := _ && claimed_by _ _). destruct (_ && promotable _ _); [done|].
  set (e0 := spend_attempt _). destruct (negb _); [done|].
  by destruct (rail_end_keeps attempts Reconnect
    (if lossy then AOverload else refusal_reason (shadow_verdict e (shadows !! slug)) ended)
    (untouched <| v_retired := true |> <| v_refused := true |>) e (lost_base e0))
    as (_ & _ & ->); [apply Hok|by split|].
Qed.

Lemma promotion_fair attempts g version carried shadows ended lossy :
  fair (visit_promotion attempts g version carried shadows ended lossy).
Proof.
  intros slug e Hok _ Hf r. destruct r.2.(v_retired) eqn:Er;
    [|by apply (promotion_steady attempts g version carried shadows ended lossy slug e)].
  subst r. revert Hf Er. unfold visit_promotion.
  set (subscribed := _ && claimed_by _ _). destruct (_ && promotable _ _); [done|].
  set (e0 := spend_attempt _). destruct (negb _) eqn:En.
  - intros _ _ v. apply baseless_unpromotable. cbn [fst].
    apply negb_true_iff, orb_false_iff in En as [En _]. exact En.
  - destruct (rail_end_keeps attempts Reconnect
      (if lossy then AOverload else refusal_reason (shadow_verdict e (shadows !! slug)) ended)
      (untouched <| v_retired := true |> <| v_refused := true |>) e (lost_base e0))
      as (_ & Hl & _); [apply Hok|by split|].
    intros Hf _ v. by apply not_live_unpromotable, Hl.
Qed.

End entries.

(** ** The floor *)

(** What a standby knows: its shadows and the markets it is counted to cover. *)
Abbreviation Mind := (gmap bytes OrderBook * gset bytes)%type.

Lemma filter_none (ag : gset bytes) : filter (fun _ : bytes => true = false) ag = ∅.
Proof. apply set_eq. intros k. rewrite elem_of_filter. set_solver. Qed.

Section floor.
Context `{RB : Broadcast StreamDelivery} `{!BroadcastLaws RB} `{WP : Watch PublishedBook}
  `{!WatchLaws WP} `{SS : ShardSink}.
Variable env : nat -> ShardEnv.
(** A hash map is walked in some order, each key once. *)
Hypothesis hash_order_perm : forall t l, (env t).(hash_order) l ≡ₚ l.

Record Floor : Type := {
  f_markets : gmap bytes MarketEntry; f_retired : gmap bytes OrderBook; f_minds : list Mind;
  f_wanted : Z; f_version : Z; f_removing : list bytes; f_capacity : Z;
  f_observers : ObserverCapacity; f_segmented : bool; f_overflowed : bool
}.

Definition mind (b : Standby) : Mind := (b.(shadows), b.(agreeing)).

Definition OVERFLOW_KEY : bytes := book_error_key CounterOverflow.

(** Whether a book that had spent its revisions was ever counted. *)
Definition overflowed (x : Shard) : bool :=
  bool_decide (is_Some (x.(stats).(stats_decode_failures) !! OVERFLOW_KEY)).

Definition floor (x : Shard) : Floor :=
  {| f_markets := x.(markets); f_retired := x.(retired); f_minds := mind <$> x.(standbys);
     f_wanted := x.(desired_count); f_version := x.(desired_version);
     f_removing := x.(removing); f_capacity := x.(config).(sc_max_markets);
     f_observers := x.(observer_capacity);
     f_segmented := bool_decide (is_Some x.(segment)); f_overflowed := overflowed x |}.

(** Whether a standby with these shadows could take the market over. *)
Definition covers (ms : gmap bytes MarketEntry) (sh : gmap bytes OrderBook) (slug : bytes) : bool :=
  match ms !! slug with
  | Some e => promotable e (shadow_verdict e (sh !! slug))
  | None => false
  end.

Definition mark (slug : bytes) (covered : bool) (ag : gset bytes) : gset bytes :=
  if covered then {[slug]} ∪ ag else ag ∖ {[slug]}.

Definition f_refresh (slug : bytes) (f : Floor) : Floor :=
  f <| f_minds ::= fmap (fun m : Mind => (m.1, mark slug (covers f.(f_markets) m.1 slug) m.2)) |>.

Definition f_entry (slug : bytes) (g : MarketEntry -> MarketEntry) (f : Floor) : Floor :=
  f <| f_markets ::= alter g slug |>.

Definition f_shadow (i : nat) (slug : bytes) (o : option OrderBook) (f : Floor) : Floor :=
  f <| f_minds ::= alter (fun m : Mind =>
    let sh := partial_alter (fun _ => o) slug m.1 in
    (sh, mark slug (covers f.(f_markets) sh slug) m.2)) i |>.

Definition f_forget (i : nat) (f : Floor) : Floor := f <| f_minds ::= alter (fun _ => (∅, ∅)) i |>.

Definition f_retire (retires : bytes -> bool) (f : Floor) : Floor :=
  f <| f_minds ::= fmap (fun m : Mind => (m.1, filter (fun slug => retires slug = false) m.2)) |>.

Definition retires (visit : visiting) (ms : gmap bytes MarketEntry) (slug : bytes) : bool :=
  match ms !! slug with Some e => (visit slug e).2.(v_retired) | None => false end.

Definition f_walk (visit : visiting) (f : Floor) : Floor :=
  f_retire (retires visit f.(f_markets))
    (f <| f_markets ::= map_imap (fun slug e => Some (visit slug e).1) |>).

Definition f_close (slug : bytes) (f : Floor) : Floor :=
  match f.(f_markets) !! slug with
  | None => f
  | Some e =>
      f <| f_markets ::= delete slug |>
        <| f_retired ::= if f.(f_segmented)
             then <[slug := (writer_unsubscribe e.(writer)).2.(writer_book)]> else id |>
        <| f_wanted ::= fun n => if e.(desired) then saturating_sub_usize n 1 else n |>
        <| f_removing ::= List.filter (fun waiting => negb (bool_decide (waiting = slug))) |>
        <| f_minds ::= fmap (fun m : Mind => (delete slug m.1, m.2 ∖ {[slug]})) |>
  end.

(** A market comes in with a new writer over [b]. *)
Definition f_open (slug : bytes) (m : MarketRef) (b : OrderBook) (f : Floor) : Floor :=
  let version := saturating_add_u64 f.(f_version) 1 in
  f <| f_retired ::= delete slug |> <| f_wanted ::= fun n => saturating_add_usize n 1 |>
    <| f_version := version |>
    <| f_markets ::= <[slug := entry_new m (writer_new b f.(f_observers)) version]> |>.

Fixpoint f_evict (fuel : nat) (f : Floor) : Floor :=
  match fuel with
  | O => f
  | S fuel =>
      if MAX_REMOVING_MARKETS <? len f.(f_removing) then
        match f.(f_removing) with
        | [] => f
        | evicted :: rest => f_evict fuel (f_close evicted (f <| f_removing := rest |>))
        end
      else f
  end.

(** A wanted market the venue carries waits for its removal. *)
Definition f_enqueue (slug : bytes) (e : MarketEntry) (f : Floor) : Floor :=
  let f := f <| f_markets ::= <[slug := e <| desired := false |> <| subscription := ShardMarket.Removing |>]> |>
             <| f_minds ::= fmap (fun m : Mind => (m.1, m.2 ∖ {[slug]})) |>
             <| f_wanted ::= fun n => saturating_sub_usize n 1 |>
             <| f_removing ::= fun l =>
                  List.filter (fun waiting => negb (bool_decide (waiting = slug))) l ++ [slug] |> in
  f_evict (length f.(f_removing)) f.

(** What is known of the updates that arrive. *)
Variable genuine : OrderbookUpdate -> Prop.

Definition same_markets (ms ms' : gmap bytes MarketEntry) : Prop :=
  forall slug, option_Forall2 entry_same (ms !! slug) (ms' !! slug).

Definition any_failed (visit : visiting) (ms : gmap bytes MarketEntry) : Prop :=
  exists slug e, ms !! slug = Some e /\ failed (visit slug e).2.

(** The book a market starts from: its own retired one, marked lost, or an empty one. *)
Definition starts (slug : bytes) (m : MarketRef) (b : OrderBook) (f : Floor) : Prop :=
  shard_market slug = Ok m /\
  match f.(f_retired) !! slug with
  | Some r => resume r = Ok b
  | None => b = book_new m
  end.

(** No market of that name is wanted. *)
Definition f_unwanted (slug : bytes) (f : Floor) : Prop :=
  forall e, f.(f_markets) !! slug = Some e -> e.(desired) = false.

(** Steps that change what is wanted are taken on command only. *)
Inductive floor_step (commanded : bool) : Floor -> Floor -> Prop :=
| step_retouch f ms : same_markets f.(f_markets) ms -> floor_step commanded f (f <| f_markets := ms |>)
| step_fail f b : (f.(f_overflowed) = true -> b = true) ->
    floor_step commanded f (f <| f_overflowed := b |>)
| step_refresh f slug : floor_step commanded f (f_refresh slug f)
| step_lose f slug reason why :
    floor_step commanded f (f_refresh slug (f_entry slug (fun e => (lose_entry reason why e).2) f))
| step_apply f slug candidate : candidate_wf candidate ->
    floor_step commanded f (f_refresh slug (f_entry slug (fun e => (apply_to_entry candidate e).2) f))
| step_resolve f slug resolution :
    floor_step commanded f (f_entry slug (fun e =>
      e <| writer := (writer_publish_resolution resolution e.(writer)).2 |>) f)
| step_walk f visit b : keeping visit -> fair visit -> steady visit ->
    (f.(f_overflowed) = true -> b = true) -> (any_failed visit f.(f_markets) -> b = true) ->
    floor_step commanded f ((f_walk visit f) <| f_overflowed := b |>)
| step_clear f visit b : keeping visit -> clearing visit ->
    (f.(f_overflowed) = true -> b = true) -> (any_failed visit f.(f_markets) -> b = true) ->
    floor_step commanded f ((f_retire (fun _ => true) (f_walk visit f)) <| f_overflowed := b |>)
| step_close f slug : commanded = true \/ f_unwanted slug f ->
    floor_step commanded f (f_close slug f)
| step_open f slug m b : commanded = true -> f.(f_markets) !! slug = None -> f.(f_wanted) < f.(f_capacity) ->
    starts slug m b f -> floor_step commanded f (f_open slug m b f)
| step_disown f slug : floor_step commanded f (f <| f_retired ::= delete slug |>)
| step_enqueue f slug e : commanded = true -> f.(f_markets) !! slug = Some e -> e.(desired) = true ->
    floor_step commanded f (f_enqueue slug e f)
| step_version f n : 0 <= n -> floor_step commanded f (f <| f_version ::= fun v => saturating_add_u64 v n |>)
| step_shadow f i slug o : floor_step commanded f (f_shadow i slug o f)
| step_forget f i : floor_step commanded f (f_forget i f).

(** ** The operations of a shard on its floor *)

Lemma floor_eq f g : f.(f_markets) = g.(f_markets) -> f.(f_retired) = g.(f_retired) ->
  f.(f_minds) = g.(f_minds) -> f.(f_wanted) = g.(f_wanted) -> f.(f_version) = g.(f_version) ->
  f.(f_removing) = g.(f_removing) -> f.(f_capacity) = g.(f_capacity) ->
  f.(f_observers) = g.(f_observers) -> f.(f_segmented) = g.(f_segmented) ->
  f.(f_overflowed) = g.(f_overflowed) -> f = g.
Proof. destruct f, g. simpl. by intros -> -> -> -> -> -> -> -> -> ->. Qed.

Lemma floor_count c n x : floor (count c n x) = floor x.
Proof. done. Qed.
Lemma floor_effect e x : floor (effect e x) = floor x.
Proof. done. Qed.

(** Any failure may be counted; one of a spent revision is remembered. *)
Definition flagged (x y : Shard) : Prop :=
  overflowed x = true -> overflowed y = true.

Lemma bump_kept (key k : bytes) (m : gmap bytes Z) : is_Some (m !! k) -> is_Some (bump key m !! k).
Proof. intros H. unfold bump. destruct (decide (key = k)) as [->|]; simplify_map_eq; eauto. Qed.

Lemma record_failure_flagged key x : flagged x (record_failure key x).
Proof. unfold flagged, overflowed. rewrite !bool_decide_eq_true. apply bump_kept. Qed.

Lemma record_overflow x : overflowed (record_failure OVERFLOW_KEY x) = true.
Proof. apply bool_decide_eq_true. simpl. unfold bump. rewrite lookup_insert_eq. by eexists. Qed.

Lemma floor_record_failure key x :
  floor (record_failure key x) = (floor x) <| f_overflowed := overflowed (record_failure key x) |>.
Proof. done. Qed.

Lemma floor_tell f x : floor (tell_segment env f x) = floor x.
Proof.
  unfold tell_segment. destruct x.(segment) eqn:E; [|done]. apply floor_eq; try done.
  cbn [f_segmented floor]. by rewrite E.
Qed.

Lemma minds_on_standby i g x : mind <$> (on_standby i g x).(standbys) =
  alter (fun m => default m (mind <$> (g <$> x.(standbys) !! i))) i (mind <$> x.(standbys)).
Proof.
  simpl. apply list_eq. intros j. rewrite list_lookup_fmap.
  destruct (decide (i = j)) as [->|Hn].
  - rewrite !list_lookup_alter_eq, list_lookup_fmap. by destruct (x.(standbys) !! j).
  - by rewrite !list_lookup_alter_ne, list_lookup_fmap by done.
Qed.

(** A standby whose mind is left as it was. *)
Lemma floor_on_standby i g x : (forall b, mind (g b) = mind b) -> floor (on_standby i g x) = floor x.
Proof.
  intros H. apply floor_eq; try done. cbn [f_minds floor]. rewrite minds_on_standby.
  apply list_eq. intros j. destruct (decide (i = j)) as [->|].
  - rewrite list_lookup_alter_eq, list_lookup_fmap. destruct (x.(standbys) !! j); [|done].
    simpl. by rewrite H.
  - by rewrite list_lookup_alter_ne.
Qed.

Lemma floor_on_slot s g x : floor (on_slot s g x) = floor x.
Proof. destruct s; [done|]. by apply floor_on_standby. Qed.

Lemma mutate_floor {R} slug (change : MarketEntry -> R * MarketEntry) x :
  floor (mutate_market slug change x).2 = f_entry slug (fun e => (change e).2) (floor x) /\
  (mutate_market slug change x).1 = (fun e => (change e).1) <$> x.(markets) !! slug /\
  (mutate_market slug change x).2.(stats) = x.(stats) /\
  (mutate_market slug change x).2.(notices) = x.(notices).
Proof.
  unfold mutate_market, f_entry. destruct (x.(markets) !! slug) as [e|] eqn:E; simpl.
  - destruct (change e) as [r e'] eqn:Ec.
    assert (Ha : alter (fun e => (change e).2) slug x.(markets) = <[slug := e']> x.(markets)).
    { apply map_eq. intros k. destruct (decide (k = slug)) as [->|].
      - rewrite lookup_alter_eq, lookup_insert_eq, E. simpl. by rewrite Ec.
      - by rewrite lookup_alter_ne, lookup_insert_ne by done. }
    assert (Hf : floor (x <| markets ::= <[slug := e']> |>)
                 = (floor x) <| f_markets ::= alter (fun e => (change e).2) slug |>).
    { by apply floor_eq. }
    destruct (needs_recovery e), (needs_recovery e'); (split; [exact Hf|done]).
  - split; [|done]. apply floor_eq; try done. symmetry. apply alter_id. intros e. simpl.
    by rewrite E.
Qed.

Lemma agrees_covers x i slug : agrees x i slug =
  match x.(standbys) !! i with Some b => covers x.(markets) b.(shadows) slug | None => false end.
Proof. unfold agrees, covers. by destruct (x.(markets) !! slug), (x.(standbys) !! i). Qed.

Lemma refresh_shadow_floor i slug x :
  floor (refresh_shadow_agreement i slug x) =
  (floor x) <| f_minds ::= alter (fun m : Mind => (m.1, mark slug (covers x.(markets) m.1 slug) m.2)) i |>.
Proof.
  apply floor_eq; try done. cbn [floor f_minds set].
  unfold refresh_shadow_agreement. rewrite minds_on_standby.
  apply list_eq. intros j. destruct (decide (i = j)) as [->|].
  - rewrite !list_lookup_alter_eq, !list_lookup_fmap, agrees_covers.
    by destruct (x.(standbys) !! j).
  - by rewrite !list_lookup_alter_ne.
Qed.

(** The standbys below [n] told of the market. *)
Definition refreshed (slug : bytes) (n : nat) (f : Floor) : Floor :=
  f <| f_minds ::= imap (fun i (m : Mind) => if (i <? n)%nat
         then (m.1, mark slug (covers f.(f_markets) m.1 slug) m.2) else m) |>.

Lemma refresh_below slug n x :
  floor (fold_left (fun x i => refresh_shadow_agreement i slug x) (seq 0 n) x) =
  refreshed slug n (floor x).
Proof.
  induction n as [|n IH].
  - apply floor_eq; try done. apply list_eq. intros i. cbn [refreshed f_minds set floor].
    rewrite list_lookup_imap. by destruct (_ !! i).
  - rewrite seq_S, fold_left_app. cbn [fold_left Nat.add]. rewrite refresh_shadow_floor.
    set (y := fold_left _ _ _) in *.
    assert (Em : y.(markets) = x.(markets)) by (by apply (f_equal f_markets) in IH).
    rewrite Em, IH. apply floor_eq; try done. cbn [refreshed f_minds set floor f_markets].
    apply list_eq. intros j. destruct (decide (n = j)) as [->|].
    + rewrite list_lookup_alter_eq, !list_lookup_imap.
      destruct (_ !! j); [|done]. simpl.
      rewrite Nat.ltb_irrefl. by rewrite (proj2 (Nat.ltb_lt j (S j))) by lia.
    + rewrite list_lookup_alter_ne by done. rewrite !list_lookup_imap.
      destruct (_ !! j); [|done]. simpl.
      destruct (Nat.ltb_spec j n), (Nat.ltb_spec j (S n)); done || lia.
Qed.

Lemma refresh_floor slug x : floor (refresh_agreement slug x) = f_refresh slug (floor x).
Proof.
  unfold refresh_agreement. rewrite refresh_below. apply floor_eq; try done.
  cbn [refreshed f_refresh f_minds set floor f_markets]. apply list_eq. intros j.
  rewrite list_lookup_imap, !list_lookup_fmap.
  destruct (x.(standbys) !! j) as [m|] eqn:E; [|done]. simpl. apply lookup_lt_Some in E.
  by rewrite (proj2 (Nat.ltb_lt j _)) by lia.
Qed.

Lemma retire_list_floor l x :
  floor (fold_left (fun x slug => retire_agreement slug x) l x) =
  f_retire (fun k => bool_decide (k ∈ l)) (floor x).
Proof.
  revert x. induction l as [|slug l IH]; intros x.
  - apply floor_eq; try done. cbn [f_retire f_minds set floor fold_left].
    rewrite <- (list_fmap_id (mind <$> _)) at 1.
    apply list_fmap_ext. intros i [sh ag] _. simpl. f_equal. apply set_eq. intros k.
    rewrite elem_of_filter. naive_solver.
  - cbn [fold_left]. rewrite IH. apply floor_eq; try done.
    cbn [f_retire f_minds set floor retire_agreement standbys].
    rewrite <- !list_fmap_compose. apply list_fmap_ext. intros i b _. unfold compose, mind.
    simpl. f_equal.
    apply set_eq. intros k. rewrite !elem_of_filter, elem_of_difference, elem_of_singleton,
      !bool_decide_eq_false, not_elem_of_cons. naive_solver.
Qed.

Lemma retire_all_floor x : floor (retire_all_agreement x) = f_retire (fun _ => true) (floor x).
Proof.
  apply floor_eq; try done. cbn [f_retire f_minds set floor retire_all_agreement standbys].
  rewrite <- !list_fmap_compose. apply list_fmap_ext. intros i b _. unfold compose, mind. simpl.
  by rewrite filter_none.
Qed.

(** ** What does not reach the floor *)

Definition brings (n : ConnectionNotice) : Prop :=
  match n.(note) with
  | NoteEvent (OrderbookUpdateEvent u) _ _ _ => genuine u
  | _ => True
  end.

Hypothesis arrivals_genuine : forall t, Forall brings (env t).(arrivals).

Record background (x y : Shard) : Prop := {
  bg_levels : y.(level_capacity) = x.(level_capacity);
  bg_notices : Forall brings x.(notices) -> Forall brings y.(notices)
}.

#[export] Instance background_preorder : PreOrder background.
Proof. split; [by split|]. intros x y z [] []. split; [congruence|auto]. Qed.

(** The shard once it has asked. *)
Definition asked (x : Shard) : Shard :=
  x <| ticks ::= S |> <| notices ::= fun l => l ++ (env x.(ticks)).(arrivals) |>.

Lemma shard_ask_eq {A} (k : ShardEnv -> Shard -> A) x : ask env k x = k (env x.(ticks)) (asked x).
Proof. reflexivity. Qed.

Lemma asked_floor x : floor (asked x) = floor x.
Proof. done. Qed.

Lemma asked_background x : background x (asked x).
Proof. split; [done|]. intros H. simpl. by apply Forall_app. Qed.

Lemma tell_background f x : background x (tell_segment env f x).
Proof.
  unfold tell_segment. destruct x.(segment); [|done]. rewrite shard_ask_eq. etrans; [apply asked_background|].
  by split.
Qed.

Lemma tell_stats f x : (tell_segment env f x).(stats) = x.(stats).
Proof. unfold tell_segment. by destruct x.(segment). Qed.

Lemma tell_markets f x : (tell_segment env f x).(markets) = x.(markets).
Proof. unfold tell_segment. by destruct x.(segment). Qed.

(** ** Walks *)

Definition visited (visit : visiting) (order : list bytes) : bytes -> MarketEntry -> option MarketEntry :=
  fun slug e => Some (if bool_decide (slug ∈ order) then (visit slug e).1 else e).

Lemma visited_insert (visit : visiting) (slug : bytes) (order : list bytes) (e : MarketEntry) (ms : gmap bytes MarketEntry) :
  slug ∉ order -> ms !! slug = Some e ->
  map_imap (visited visit order) (<[slug := (visit slug e).1]> ms) =
  map_imap (visited visit (slug :: order)) ms.
Proof.
  intros Hn He. apply map_eq. intros k. rewrite !map_lookup_imap.
  destruct (decide (k = slug)) as [->|Hk].
  - rewrite lookup_insert_eq, He. simpl. unfold visited.
    rewrite bool_decide_eq_false_2 by done. by rewrite bool_decide_eq_true_2 by by left.
  - rewrite lookup_insert_ne by done. destruct (ms !! k) as [d|]; [|done]. simpl. unfold visited.
    by rewrite (bool_decide_ext (k ∈ slug :: order) (k ∈ order)) by (rewrite elem_of_cons; naive_solver).
Qed.

(** What a visit to one market leaves of the shard. *)
Lemma visit_market_spec (visit : visiting) (slug : bytes) e t x : x.(markets) !! slug = Some e ->
  let r := visit_market env visit (t, x) slug in
  floor r.2 = (floor x) <| f_markets ::= <[slug := (visit slug e).1]> |> /\
  r.1 = tally_visit slug (visit slug e).2 t /\ r.2.(stats) = x.(stats) /\
  r.2.(markets) = <[slug := (visit slug e).1]> x.(markets) /\ background x r.2.
Proof.
  intros He. unfold visit_market. rewrite He. destruct (visit slug e) as [e' v]. cbn [fst snd].
  set (y := x <| markets ::= <[slug := e']> |>).
  assert (Hy : floor y = (floor x) <| f_markets ::= <[slug := e']> |> /\ y.(stats) = x.(stats) /\
    y.(markets) = <[slug := e']> x.(markets) /\ background x y) by done.
  destruct v.(v_reported) as [[[|]|]|]; try (by destruct Hy as (? & ? & ? & ?)).
  rewrite floor_tell, tell_stats, tell_markets. destruct Hy as (H1 & H2 & H3 & H4).
  split_and!; try done. etrans; [exact H4|]. apply tell_background.
Qed.

Lemma visit_fold (visit : visiting) (order : list bytes) : forall x t, NoDup order ->
  (forall slug, slug ∈ order -> is_Some (x.(markets) !! slug)) ->
  let r := fold_left (visit_market env visit) order (t, x) in
  floor r.2 = (floor x) <| f_markets ::= map_imap (visited visit order) |> /\
  r.1.(t_retired) = t.(t_retired) ++ List.filter (retires visit x.(markets)) order /\
  r.2.(stats) = x.(stats) /\ background x r.2 /\
  (is_Some t.(t_failure) \/
   (exists slug e, slug ∈ order /\ x.(markets) !! slug = Some e /\ failed (visit slug e).2) ->
   is_Some r.1.(t_failure)) /\
  (forall key, r.1.(t_failure) = Some key -> t.(t_failure) = Some key \/
     exists slug e error, slug ∈ order /\ x.(markets) !! slug = Some e /\
       (visit slug e).2.(v_reported) = Some (Err error) /\ key = book_error_key error).
Proof.
  induction order as [|slug order IH]; intros x t Hnd Hin.
  - cbn [fold_left fst snd]. split_and!; try done.
    + apply floor_eq; try done. cbn [f_markets set floor]. apply map_eq. intros k.
      rewrite map_lookup_imap. by destruct (x.(markets) !! k).
    + by rewrite app_nil_r.
    + intros [?|(k & e & Hk & _)]; [done|]. by apply not_elem_of_nil in Hk.
    + auto.
  - apply NoDup_cons in Hnd as [Hn Hnd]. destruct (Hin slug) as [e He]; [by left|].
    destruct (visit_market_spec visit slug e t x He) as (Hf & Ht & Hs & Hm & Hb).
    cbn [fold_left]. destruct (visit_market env visit (t, x) slug) as [t1 x1]. cbn [fst snd] in *.
    destruct (IH x1 t1 Hnd) as (IH1 & IH2 & IH3 & IH4 & IH5 & IH6).
    { intros k Hk. rewrite Hm, lookup_insert_ne; [apply Hin; by right|]. intros ->. done. }
    assert (Hret : forall k, k ∈ order -> retires visit x1.(markets) k = retires visit x.(markets) k).
    { intros k Hk. unfold retires. rewrite Hm, lookup_insert_ne; [done|]. intros ->. done. }
    split_and!.
    + rewrite IH1, Hf. apply floor_eq; try done. cbn [f_markets set floor].
      by apply visited_insert.
    + rewrite IH2. assert (E : retires visit x.(markets) slug = (visit slug e).2.(v_retired)).
      { unfold retires. by rewrite He. }
      replace (List.filter (retires visit x1.(markets)) order)
        with (List.filter (retires visit x.(markets)) order).
      2: { clear -Hret. induction order as [|k order IH]; [done|]. simpl.
           rewrite Hret by by left. rewrite IH; [done|]. intros j Hj. apply Hret. by right. }
      subst t1. simpl. rewrite E. destruct (visit slug e).2.(v_retired); [|done].
      by rewrite <- app_assoc.
    + congruence.
    + by etrans.
    + intros Hfail. apply IH5. subst t1. simpl.
      destruct Hfail as [Hf0|(k & d & Hk & Hd & Hfd)].
      * left. destruct (visit slug e).2.(v_reported) as [[|]|]; eauto.
      * apply elem_of_cons in Hk as [->|Hk].
        -- left. rewrite He in Hd. injection Hd as <-. destruct Hfd as [err ->]. eauto.
        -- right. exists k, d. split; [done|]. split; [|done]. rewrite Hm, lookup_insert_ne; [done|].
           intros ->. done.
    + intros key Hkey. apply IH6 in Hkey as [Hkey|(k & d & err & Hk & Hd & Hv & ->)].
      * subst t1. simpl in Hkey.
        destruct (visit slug e).2.(v_reported) as [[|err]|] eqn:Ev; auto.
        injection Hkey as <-. right. exists slug, e, err. split; [by left|done].
      * right. exists k, d, err. rewrite Hm, lookup_insert_ne in Hd by (by intros ->).
        split; [by right|done].
Qed.

Lemma settle_tally_floor t x :
  floor (settle_tally t x) =
  (f_retire (fun k => bool_decide (k ∈ t.(t_retired))) (floor x))
    <| f_overflowed := overflowed (settle_tally t x) |> /\
  flagged x (settle_tally t x) /\
  (t.(t_failure) = Some OVERFLOW_KEY -> overflowed (settle_tally t x) = true) /\
  background x (settle_tally t x).
Proof.
  unfold settle_tally. set (y := count _ _ _).
  assert (Hy : floor y = floor x /\ background x y) by done. destruct Hy as [Hy Hby].
  set (z := match t.(t_failure) with Some key => record_failure key y | None => y end).
  assert (Hz : floor z = (floor x) <| f_overflowed := overflowed z |> /\ flagged x z /\
    (t.(t_failure) = Some OVERFLOW_KEY -> overflowed z = true) /\ background x z).
  { subst z. destruct t.(t_failure) as [key|].
    - rewrite floor_record_failure, Hy. split_and!; try done.
      + apply (record_failure_flagged key y).
      + intros [= ->]. apply record_overflow.
    - split; [by apply floor_eq|]. split; [by intros ?|]. split; [intros [=]|exact Hby]. }
  destruct Hz as (Hz & Hf & Ho & Hb).
  assert (Hov : overflowed (fold_left (fun x slug => retire_agreement slug x) t.(t_retired) z) = overflowed z).
  { pose proof (f_equal f_overflowed (retire_list_floor t.(t_retired) z)) as E. exact E. }
  assert (Hbg : background z (fold_left (fun x slug => retire_agreement slug x) t.(t_retired) z)).
  { clear. generalize z. induction t.(t_retired) as [|k l IH]; intros w; [done|].
    simpl. by etrans; [|apply IH]. }
  unfold flagged. rewrite !Hov. split_and!; [|done..|by etrans].
  rewrite retire_list_floor, Hz. by apply floor_eq.
Qed.

(** A walk over all the markets is a walk of the floor. *)
Lemma walk_floor visit x : keeping visit -> map_Forall (fun _ e => book_wf (entry_book e)) x.(markets) ->
  let y := walk_markets env visit x in
  floor y = (f_walk visit (floor x)) <| f_overflowed := overflowed y |> /\
  flagged x y /\ (any_failed visit x.(markets) -> overflowed y = true) /\ background x y.
Proof.
  intros Hkeep Hwf. unfold walk_markets. rewrite shard_ask_eq.
  set (order := walk_order _ _).
  assert (Hperm : order ≡ₚ (map_to_list x.(markets)).*1) by apply hash_order_perm.
  assert (Hin : forall slug, slug ∈ order <-> is_Some (x.(markets) !! slug)).
  { intros slug. rewrite Hperm, list_elem_of_fmap. split.
    - intros ([k e] & -> & He%elem_of_map_to_list). by exists e.
    - intros [e He]. exists (slug, e). by rewrite elem_of_map_to_list. }
  assert (Hnd : NoDup order) by (rewrite Hperm; apply NoDup_fst_map_to_list).
  destruct (visit_fold visit order (asked x) tally_new Hnd) as (H1 & H2 & H3 & H4 & H5 & H6).
  { intros slug Hs. by apply Hin. }
  destruct (fold_left _ _ _) as [t z]. cbn [fst snd] in *.
  destruct (settle_tally_floor t z) as (S1 & S2 & S3 & S4).
  split_and!.
  - rewrite S1, H1. unfold f_walk. apply floor_eq; try done.
    + cbn [f_markets f_retire set floor asked markets]. apply map_eq. intros k.
      rewrite !map_lookup_imap. destruct (x.(markets) !! k) as [e|] eqn:Ek; [|done]. simpl. unfold visited.
      by rewrite bool_decide_eq_true_2 by (apply Hin; eauto).
    + cbn [f_minds f_retire set floor f_markets asked markets standbys]. apply list_fmap_ext.
      intros i m _. f_equal. apply set_eq. intros k. rewrite !elem_of_filter.
      enough (bool_decide (k ∈ t.(t_retired)) = retires visit x.(markets) k) as -> by done.
      rewrite H2. simpl. apply eq_true_iff_eq. rewrite bool_decide_eq_true, list_elem_of_In, List.filter_In, <- list_elem_of_In.
      split; [by intros [_ ?]|]. intros Hr. split; [|done]. apply Hin. unfold retires in Hr.
      destruct (x.(markets) !! k); [by eexists|done].
  - unfold flagged in *. intros Ho. apply S2. unfold overflowed. by rewrite H3.
  - intros (slug & e & He & Hfail). apply S3.
    assert (Hs : is_Some t.(t_failure)).
    { apply H5. right. exists slug, e. split; [apply Hin; eauto|done]. }
    destruct Hs as [key Hkey]. rewrite Hkey. f_equal. apply H6 in Hkey as [|(k & d & err & _ & Hd & Hv & ->)]; [done|].
    by rewrite (vk_error _ _ _ (Hkeep k d (Hwf k d Hd)) err Hv).
  - etrans; [apply asked_background|]. by etrans.
Qed.

End floor.
