(* ===== verification/ShardInv.v ===== *)
(** * What holds of the floor of a shard

    [sound] is kept by every step of the floor: every entry's book is the one it publishes,
    of the market it is listed under, and live only over an accepted base; what is counted
    as wanted, waiting for removal or covered by a standby is what the entries say. *)

From stdpp Require Import gmap relations.
From S2P Require Import Prelude OrdMap Identity Descriptor DedupKey Continuity Observation Book BookProps Pool Channel Observer ObserverProps Limitless Pacing Connection QueueAge ShmWriter Supervisor ShardMarket Shard ShardFloor.

Section inv.
Context `{RB : Broadcast StreamDelivery} `{!BroadcastLaws RB} `{WP : Watch PublishedBook}
  `{!WatchLaws WP}.

Definition wanted_count (ms : gmap bytes MarketEntry) : Z :=
  Z.of_nat (size (filter (fun m => m.2.(desired) = true) ms)).

(** What is wanted, and what is not, under a slug. *)
Definition wanted (ms : gmap bytes MarketEntry) (slug : bytes) : Prop :=
  exists e, ms !! slug = Some e /\ e.(desired) = true.
Definition unwanted (ms : gmap bytes MarketEntry) (slug : bytes) : Prop :=
  exists e, ms !! slug = Some e /\ e.(desired) = false.

Definition calm (e : MarketEntry) : Prop := e.(unavailable_reported) = true -> live e = false.

Record agreed (overflowed : bool) (ms : gmap bytes MarketEntry) (m : Mind) : Prop := {
  ag_sound slug : slug ∈ m.2 -> covers ms m.1 slug = true;
  ag_complete slug : overflowed = false -> covers ms m.1 slug = true -> slug ∈ m.2
}.

Record sound (f : Floor) : Prop := {
  so_entries : map_Forall entry_ok f.(f_markets);
  so_calm : f.(f_overflowed) = false -> map_Forall (fun _ e => calm e) f.(f_markets);
  so_versions : map_Forall (fun _ e => 0 <= e.(installed_version) <= f.(f_version)) f.(f_markets);
  so_version : 0 <= f.(f_version) <= U64_MAX;
  so_wanted : f.(f_wanted) = wanted_count f.(f_markets);
  so_capacity : f.(f_wanted) <= f.(f_capacity) <= MAX_SHARD_MARKETS;
  so_removing : NoDup f.(f_removing);
  so_unwanted slug : slug ∈ f.(f_removing) <-> unwanted f.(f_markets) slug;
  so_retired slug b : f.(f_retired) !! slug = Some b ->
    book_wf b /\ shard_market slug = Ok b.(book_market) /\ f.(f_markets) !! slug = None;
  so_minds : Forall (agreed f.(f_overflowed) f.(f_markets)) f.(f_minds)
}.

(** ** Counting *)

Lemma wanted_count_ext ms ms' : (forall slug, wanted ms slug <-> wanted ms' slug) ->
  wanted_count ms = wanted_count ms'.
Proof.
  intros H. unfold wanted_count. rewrite <- !size_dom. do 2 f_equal. apply set_eq. intros slug.
  rewrite !elem_of_dom. specialize (H slug). unfold wanted in H.
  split; intros [e [He Hd]%map_lookup_filter_Some].
  - destruct (proj1 H) as (e' & He' & Hd'); [by exists e|]. exists e'.
    by apply map_lookup_filter_Some.
  - destruct (proj2 H) as (e' & He' & Hd'); [by exists e|]. exists e'.
    by apply map_lookup_filter_Some.
Qed.

Lemma wanted_count_insert ms slug e : ms !! slug = None ->
  wanted_count (<[slug := e]> ms) = wanted_count ms + (if e.(desired) then 1 else 0).
Proof.
  intros Hn. unfold wanted_count. destruct e.(desired) eqn:Ed.
  - rewrite map_filter_insert_True by done. rewrite map_size_insert_None; [lia|].
    apply map_lookup_filter_None. by left.
  - rewrite map_filter_insert_False by (simpl; congruence). rewrite delete_id by done. lia.
Qed.

Lemma wanted_count_delete ms slug e : ms !! slug = Some e ->
  wanted_count (delete slug ms) = wanted_count ms - (if e.(desired) then 1 else 0).
Proof.
  intros He. rewrite <- (insert_delete_id ms slug e He) at 2.
  rewrite wanted_count_insert by apply lookup_delete_eq. lia.
Qed.

Lemma wanted_count_nonneg ms : 0 <= wanted_count ms.
Proof. unfold wanted_count. lia. Qed.

Lemma wanted_count_pos ms slug : wanted ms slug -> 1 <= wanted_count ms.
Proof.
  intros (e & He & Hd). pose proof (wanted_count_delete ms slug e He) as H. rewrite Hd in H.
  pose proof (wanted_count_nonneg (delete slug ms)). lia.
Qed.

(** ** Entries that change without leaving *)

(** The entries of [ms] that became those of [ms'], each by [R]. *)
Definition entrywise (R : bytes -> MarketEntry -> MarketEntry -> Prop)
    (ms ms' : gmap bytes MarketEntry) : Prop :=
  forall slug, match ms !! slug, ms' !! slug with
  | Some e, Some e' => R slug e e'
  | None, None => True
  | _, _ => False
  end.

(** What no handler does to an entry it keeps. *)
Record stays (slug : bytes) (e e' : MarketEntry) : Prop := {
  st_ok : entry_ok slug e -> entry_ok slug e';
  st_desired : e'.(desired) = e.(desired);
  st_version : e'.(installed_version) = e.(installed_version)
}.

Lemma entrywise_wanted (b : bool) ms ms' slug : entrywise stays ms ms' ->
  (exists e, ms !! slug = Some e /\ e.(desired) = b) <->
  (exists e, ms' !! slug = Some e /\ e.(desired) = b).
Proof.
  intros H. specialize (H slug).
  destruct (ms !! slug) as [e|], (ms' !! slug) as [e'|]; try done.
  apply st_desired in H. split; intros (? & [= <-] & Hd); eexists; (split; [done|congruence]).
Qed.

Lemma entrywise_forall (P : bytes -> MarketEntry -> Prop) ms ms' :
  entrywise (fun slug e e' => P slug e -> P slug e') ms ms' -> map_Forall P ms -> map_Forall P ms'.
Proof.
  intros H HP slug e' He'. specialize (H slug). rewrite He' in H.
  destruct (ms !! slug) as [e|] eqn:E; [|done]. by apply H, HP.
Qed.

Lemma entrywise_impl (R R' : bytes -> MarketEntry -> MarketEntry -> Prop) ms ms' :
  (forall slug e e', ms !! slug = Some e -> R slug e e' -> R' slug e e') ->
  entrywise R ms ms' -> entrywise R' ms ms'.
Proof.
  intros Hi H slug. specialize (H slug). destruct (ms !! slug) eqn:E, (ms' !! slug); auto.
Qed.

Lemma entrywise_alter R g slug ms : (forall k e, R k e e) ->
  (forall e, ms !! slug = Some e -> R slug e (g e)) -> entrywise R ms (alter g slug ms).
Proof.
  intros Hr Hg k. destruct (decide (k = slug)) as [->|Hk].
  - rewrite lookup_alter_eq. destruct (ms !! slug) eqn:E; simpl; auto.
  - rewrite lookup_alter_ne by done. destruct (ms !! k); auto.
Qed.

(** Entries that stay, with calm and coverage settled. *)
Lemma stays_sound f ms minds b : sound f -> entrywise stays f.(f_markets) ms ->
  (b = false -> map_Forall (fun _ e => calm e) ms) -> Forall (agreed b ms) minds ->
  sound (f <| f_markets := ms |> <| f_minds := minds |> <| f_overflowed := b |>).
Proof.
  intros [] H Hc Hm. split; simpl; try done.
  - eapply entrywise_forall; [|exact so_entries0]. eapply entrywise_impl; [|exact H].
    intros ? ? ? _ Hs. apply Hs.
  - eapply entrywise_forall; [|exact so_versions0]. eapply entrywise_impl; [|exact H].
    intros ? ? ? _ Hs. by rewrite (st_version _ _ _ Hs).
  - rewrite so_wanted0. apply wanted_count_ext. intros slug. by apply entrywise_wanted.
  - intros slug. rewrite so_unwanted0. by apply entrywise_wanted.
  - intros slug r Hr. destruct (so_retired0 slug r Hr) as (? & ? & Hn). split_and!; try done.
    specialize (H slug). rewrite Hn in H. destruct (ms !! slug) as [d|] eqn:E; [destruct H|exact E].
Qed.

(** ** Coverage *)

Definition keeps_covers (ms ms' : gmap bytes MarketEntry) (slug : bytes) : Prop :=
  forall sh, covers ms' sh slug = covers ms sh slug.

(** Coverage asked for again at one market, the others' being kept. *)
Lemma agreed_mark b ms ms' m sh slug : agreed b ms m ->
  (forall k, k <> slug -> covers ms' sh k = covers ms m.1 k) ->
  agreed b ms' (sh, mark slug (covers ms' sh slug) m.2).
Proof.
  intros [Hs Hc] Hk. split; simpl; intros k; unfold mark;
    destruct (decide (k = slug)) as [->|Hne].
  - destruct (covers ms' sh slug) eqn:E; [done|]. set_solver.
  - intros H. rewrite Hk by done. apply Hs. destruct (covers ms' sh slug); set_solver.
  - intros _ ->. set_solver.
  - intros Hb. rewrite Hk by done. intros H. apply Hc in H; [|done].
    destruct (covers ms' sh slug); set_solver.
Qed.

Lemma covers_alter ms sh g slug k : k <> slug -> covers (alter g slug ms) sh k = covers ms sh k.
Proof. intros H. unfold covers. by rewrite lookup_alter_ne. Qed.

Lemma refresh_sound f slug g : sound f ->
  (forall e, f.(f_markets) !! slug = Some e -> stays slug e (g e) /\ (calm e -> calm (g e))) ->
  sound (f_refresh slug (f_entry slug g f)).
Proof.
  intros Hf Hg. unfold f_refresh, f_entry. cbn [f_markets set].
  assert (Hent : entrywise (fun s e e' => stays s e e' /\ (calm e -> calm e')) f.(f_markets)
    (alter g slug f.(f_markets))).
  { apply entrywise_alter; [|done]. intros k e. split; [by split|auto]. }
  set (minds := (fun m : Mind => (m.1, mark slug (covers (alter g slug f.(f_markets)) m.1 slug) m.2))
    <$> f.(f_minds)).
  assert (H : sound (f <| f_markets := alter g slug f.(f_markets) |> <| f_minds := minds |>
    <| f_overflowed := f.(f_overflowed) |>)).
  { apply stays_sound; [done|..].
    - eapply entrywise_impl; [|exact Hent]. by intros ? ? ? _ [].
    - intros Hb. eapply entrywise_forall; [|exact (so_calm _ Hf Hb)].
      eapply entrywise_impl; [|exact Hent]. by intros ? ? ? _ [_ ?].
    - subst minds. apply Forall_fmap. eapply Forall_impl; [exact (so_minds _ Hf)|].
      intros m Hm. apply (agreed_mark _ _ _ _ _ _ Hm). intros k Hk. by apply covers_alter. }
  eapply eq_rect; [exact H|]. by apply floor_eq.
Qed.

(** ** One entry's step *)

Lemma lose_stays reason why slug e : entry_ok slug e ->
  stays slug e (lose_entry reason why e).2 /\ (calm e -> calm (lose_entry reason why e).2).
Proof.
  intros Hok. unfold lose_entry.
  assert (Hs : entry_same e (lost_base e)) by (by split).
  destruct (terminal (lost_base e)) eqn:Et.
  { cbn [snd]. split; [split; [by apply same_ok|done..]|]. unfold calm. simpl.
    by rewrite (live_writer e (lost_base e)). }
  destruct (loss_visit e (lost_base e) reason why (untouched <| v_reported :=
    Some (report_entry_loss reason why (lost_base e)).1 |>) (eo_wf _ _ Hok) Hs) as [Hk _]; [done|].
  destruct (report_loss_facts reason why (lost_base e)) as (Ef & _); [apply Hok|].
  split; [split; [by apply (keeps_ok _ _ _ _ Hk)|apply Hk|apply Hk]|].
  intros _ Hu. rewrite Ef in Hu. unfold terminal in Et. simpl in Hu, Et. congruence.
Qed.

Lemma apply_entry_eq c e :
  (is_ok (writer_apply_snapshot c e.(writer)).1 = false -> (writer_apply_snapshot c e.(writer)).2 = e.(writer)) ->
  (apply_to_entry c e).2 =
  if is_ok (writer_apply_snapshot c e.(writer)).1
  then accept_base (e <| writer := (writer_apply_snapshot c e.(writer)).2 |>) else e.
Proof.
  unfold apply_to_entry. destruct (writer_apply_snapshot c e.(writer)) as [[commit|err] w]; simpl; [done|].
  intros Hw. rewrite Hw by done. by destruct e.
Qed.

Lemma accept_base_facts e : (accept_base e).(writer) = e.(writer) /\ (accept_base e).(market) = e.(market) /\
  (accept_base e).(desired) = e.(desired) /\ (accept_base e).(installed_version) = e.(installed_version) /\
  (accept_base e).(base_accepted) = true /\ (accept_base e).(unavailable_reported) = false.
Proof. unfold accept_base. cbn zeta. by destruct (desired _) eqn:E; simpl in *. Qed.

Lemma apply_stays c slug e : candidate_wf c -> entry_ok slug e ->
  stays slug e (apply_to_entry c e).2 /\ (calm e -> calm (apply_to_entry c e).2).
Proof.
  intros Hc Hok. destruct (proj1 (writer_publishes_then_sends e.(writer)) c Hc) as [Hp Hr].
  rewrite (apply_entry_eq c e Hr). destruct (is_ok _); [|by split; [split|]].
  destruct (accept_base_facts (e <| writer := (writer_apply_snapshot c e.(writer)).2 |>))
    as (Ew & Em & Ed & Ev & Eb & Eu).
  split; [split; [|exact Ed|exact Ev]|].
  - intros _. eapply moved_ok; [exact Hok|by rewrite Ew|exact Em|by rewrite Eb].
  - intros _ Hu. congruence.
Qed.

Lemma resolve_same m w : book_wf w.(writer_book) -> writer_published w = publish w.(writer_book) ->
  let w' := (writer_publish_resolution m w).2 in
  w'.(writer_book).(authority) = w.(writer_book).(authority) /\
  (writer_published w').(published_market) = (writer_published w).(published_market) /\
  (writer_published w').(published_levels) = (writer_published w).(published_levels).
Proof.
  intros Hwf Hpub w'.
  assert (Hp : performs w w') by apply (proj1 (proj1 (proj2 (proj2 (writer_publishes_then_sends w))) m)).
  rewrite (performs_published _ _ Hp Hpub), Hpub. subst w'. clear Hp Hpub.
  unfold writer_publish_resolution. destruct (note_stream_event _) as [[cur|err] b] eqn:E; simpl.
  - by apply note_stream_event_Ok in E as (? & ? & _ & _ & _ & ->).
  - by apply note_stream_event_atomic in E as ->.
Qed.

Lemma resolve_stays m slug e : entry_ok slug e ->
  let e' := e <| writer := (writer_publish_resolution m e.(writer)).2 |> in
  stays slug e e' /\ (calm e -> calm e') /\
  forall s, promotable e' (shadow_verdict e' s) = promotable e (shadow_verdict e s).
Proof.
  intros Hok e'. destruct (resolve_same m e.(writer)) as (Ea & Em & El); [apply Hok..|].
  assert (Ew : e'.(writer) = (writer_publish_resolution m e.(writer)).2) by done.
  assert (Hl : live e' = live e) by (unfold live, entry_book; by rewrite Ew, Ea).
  split; [split; [|done..]|split].
  - intros _. eapply moved_ok; [exact Hok| |done|].
    + apply (proj1 (proj2 (proj2 (writer_publishes_then_sends e.(writer))))).
    + rewrite Hl. apply Hok.
  - unfold calm. by rewrite Hl.
  - intros s. unfold promotable. rewrite Hl. do 2 f_equal. unfold shadow_verdict.
    destruct s as [b|]; [|done]. unfold agreement, books_economically_equal. by rewrite Ew, Em, El.
Qed.

(** ** Steps that keep every market *)

Lemma agreed_same b b' ms ms' minds : Forall (agreed b ms) minds -> (b' = false -> b = false) ->
  (forall sh slug, covers ms' sh slug = covers ms sh slug) -> Forall (agreed b' ms') minds.
Proof.
  intros H Hb Hk. eapply Forall_impl; [exact H|]. intros m [Hs Hc]. split; intros slug.
  - rewrite Hk. apply Hs.
  - rewrite Hk. auto.
Qed.

Lemma overflow_raised (b b' : bool) : (b = true -> b' = true) -> b' = false -> b = false.
Proof. destruct b, b'; intuition congruence. Qed.

Lemma retouch_sound f ms : sound f -> same_markets f.(f_markets) ms ->
  sound (f <| f_markets := ms |>).
Proof.
  intros Hf H.
  assert (Hent : entrywise (fun _ => entry_same) f.(f_markets) ms).
  { intros slug. specialize (H slug).
    destruct (f.(f_markets) !! slug), (ms !! slug); inversion H; done. }
  assert (Hs : sound (f <| f_markets := ms |> <| f_minds := f.(f_minds) |>
    <| f_overflowed := f.(f_overflowed) |>)); [apply stays_sound; [done|..]|].
  - eapply entrywise_impl; [|exact Hent]. intros slug e e' _ He. split; [by apply same_ok|apply He..].
  - intros Hb. eapply entrywise_forall; [|exact (so_calm _ Hf Hb)].
    eapply entrywise_impl; [|exact Hent]. intros slug e e' _ He. unfold calm.
    rewrite (es_reported _ _ He). by rewrite (live_writer e e' (es_writer _ _ He)).
  - eapply agreed_same; [apply Hf|done|]. intros sh slug. unfold covers. specialize (Hent slug).
    destruct (f.(f_markets) !! slug) as [e|], (ms !! slug) as [e'|]; try done.
    by rewrite (same_promotable e e'), (same_verdict e e').
  - eapply eq_rect; [exact Hs|]. by apply floor_eq.
Qed.

Lemma fail_sound f b : sound f -> (f.(f_overflowed) = true -> b = true) ->
  sound (f <| f_overflowed := b |>).
Proof.
  intros Hf Hb. pose proof (overflow_raised _ _ Hb) as Hb'. destruct Hf. split; simpl; auto.
  by eapply agreed_same.
Qed.

Lemma resolve_sound f slug m : sound f -> sound (f_entry slug (fun e =>
  e <| writer := (writer_publish_resolution m e.(writer)).2 |>) f).
Proof.
  intros Hf. unfold f_entry. set (g := fun e : MarketEntry => _).
  assert (Hg : forall e, f.(f_markets) !! slug = Some e -> stays slug e (g e) /\ (calm e -> calm (g e)) /\
    forall s, promotable (g e) (shadow_verdict (g e) s) = promotable e (shadow_verdict e s)).
  { intros e He. apply resolve_stays. by apply (so_entries _ Hf). }
  clearbody g.
  assert (Hs : sound (f <| f_markets := alter g slug f.(f_markets) |> <| f_minds := f.(f_minds) |>
    <| f_overflowed := f.(f_overflowed) |>)); [apply stays_sound; [done|..]|].
  - apply entrywise_alter; [by split|]. intros e He. by apply Hg.
  - intros Hb. eapply entrywise_forall; [|exact (so_calm _ Hf Hb)].
    apply entrywise_alter; [auto|]. intros e He. by apply Hg.
  - eapply agreed_same; [apply Hf|done|]. intros sh k. destruct (decide (k = slug)) as [->|Hk];
      [|by apply covers_alter]. unfold covers. rewrite lookup_alter_eq.
    destruct (f.(f_markets) !! slug) as [e|] eqn:E; [|done]. by apply Hg.
  - eapply eq_rect; [exact Hs|]. by apply floor_eq.
Qed.

(** *** Walks *)

Lemma walked_lookup (visit : visiting) (ms : gmap bytes MarketEntry) slug :
  map_imap (fun slug e => Some (visit slug e).1) ms !! slug =
  (fun e => (visit slug e).1) <$> ms !! slug.
Proof. rewrite map_lookup_imap. by destruct (ms !! slug). Qed.

Lemma walk_stays visit ms : keeping visit -> map_Forall entry_ok ms ->
  entrywise (fun slug e e' => stays slug e e' /\
    (~ failed (visit slug e).2 -> calm e -> calm e')) ms
    (map_imap (fun slug e => Some (visit slug e).1) ms).
Proof.
  intros Hk Hok slug. rewrite walked_lookup. destruct (ms !! slug) as [e|] eqn:E; [|done]. simpl.
  pose proof (Hk slug e (eo_wf _ _ (Hok _ _ E))) as Hv. split; [split|].
  - intros H. by eapply keeps_ok.
  - apply Hv.
  - apply Hv.
  - intros Hf Hc. exact (vk_calm _ _ _ Hv Hf Hc).
Qed.

(** Coverage where the writer was left alone. *)
Lemma steady_covers visit slug e sh : book_wf (entry_book e) -> keeping visit ->
  (visit slug e).1.(writer) = e.(writer) ->
  promotable (visit slug e).1 (shadow_verdict (visit slug e).1 sh) =
  promotable e (shadow_verdict e sh).
Proof.
  intros Hwf Hk Hw. destruct (Hk slug e Hwf). unfold promotable, shadow_verdict.
  by rewrite vk_desired, vk_based, Hw, (live_writer e _ Hw).
Qed.

Lemma walked_sound f visit b minds : sound f -> keeping visit ->
  (f.(f_overflowed) = true -> b = true) -> (any_failed visit f.(f_markets) -> b = true) ->
  Forall (agreed b (map_imap (fun slug e => Some (visit slug e).1) f.(f_markets))) minds ->
  sound (f <| f_markets ::= map_imap (fun slug e => Some (visit slug e).1) |>
           <| f_minds := minds |> <| f_overflowed := b |>).
Proof.
  intros Hf Hk Hb Hfail Hm. pose proof (walk_stays visit _ Hk (so_entries _ Hf)) as Hent.
  pose proof (stays_sound f (map_imap (fun slug e => Some (visit slug e).1) f.(f_markets)) minds b Hf) as H.
  eapply eq_rect; [apply H|by apply floor_eq].
  - eapply entrywise_impl; [|exact Hent]. by intros ? ? ? _ [].
  - intros Eb. eapply entrywise_forall; [|exact (so_calm _ Hf (overflow_raised _ _ Hb Eb))].
    eapply entrywise_impl; [|exact Hent]. intros slug e e' He [_ Hc] Hce. apply Hc; [|done].
    intros Hv. assert (b = true); [apply Hfail; by exists slug, e|congruence].
  - exact Hm.
Qed.

Lemma not_failed (visit : visiting) f b slug e : (any_failed visit f.(f_markets) -> b = true) -> b = false ->
  f.(f_markets) !! slug = Some e -> ~ failed (visit slug e).2.
Proof. intros Hfail Eb He Hv. assert (b = true); [apply Hfail; by exists slug, e|congruence]. Qed.

Lemma walk_sound f visit b : sound f -> keeping visit -> fair visit -> steady visit ->
  (f.(f_overflowed) = true -> b = true) -> (any_failed visit f.(f_markets) -> b = true) ->
  sound ((f_walk visit f) <| f_overflowed := b |>).
Proof.
  intros Hf Hk Hfair Hst Hb Hfail.
  set (minds := (fun m : Mind => (m.1, filter (fun slug => retires visit f.(f_markets) slug = false) m.2))
    <$> f.(f_minds)).
  pose proof (walked_sound f visit b minds Hf Hk Hb Hfail) as H.
  eapply eq_rect; [apply H|by apply floor_eq]. clear H.
  subst minds. apply Forall_fmap. eapply Forall_impl; [exact (so_minds _ Hf)|].
  intros m [Hs Hc]. split; simpl; intros slug.
  - rewrite elem_of_filter. intros [Hr Hin]. specialize (Hs slug Hin). unfold covers in *.
    rewrite walked_lookup. unfold retires in Hr.
    destruct (f.(f_markets) !! slug) as [e|] eqn:E; [|done]. simpl.
    pose proof (so_entries _ Hf _ _ E) as Hok. rewrite (steady_covers visit); [done|apply Hok|done|].
    by apply Hst.
  - intros Eb. unfold covers. rewrite walked_lookup. rewrite elem_of_filter. unfold retires.
    destruct (f.(f_markets) !! slug) as [e|] eqn:E; [|done]. simpl.
    pose proof (so_entries _ Hf _ _ E) as Hok.
    pose proof (overflow_raised _ _ Hb Eb) as Eo. pose proof (so_calm _ Hf Eo _ _ E) as Hcalm.
    pose proof (Hfair slug e Hok Hcalm (not_failed visit f b slug e Hfail Eb E)) as Hfr. cbv zeta in Hfr.
    destruct ((visit slug e).2.(v_retired)) eqn:Er; [by rewrite Hfr|].
    rewrite (steady_covers visit); [|apply Hok|done|done]. intros Hcov. split; [done|].
    apply Hc; [done|]. unfold covers. by rewrite E.
Qed.

Lemma clear_sound f visit b : sound f -> keeping visit -> clearing visit ->
  (f.(f_overflowed) = true -> b = true) -> (any_failed visit f.(f_markets) -> b = true) ->
  sound ((f_retire (fun _ => true) (f_walk visit f)) <| f_overflowed := b |>).
Proof.
  intros Hf Hk Hcl Hb Hfail.
  set (minds := (fun m : Mind => (m.1, ∅ : gset bytes)) <$> f.(f_minds)).
  pose proof (walked_sound f visit b minds Hf Hk Hb Hfail) as H.
  eapply eq_rect; [apply H|]; clear H.
  - subst minds. apply Forall_fmap. apply Forall_forall. intros m _. split; simpl; intros slug.
    + set_solver.
    + intros Eb. unfold covers. rewrite walked_lookup.
      destruct (f.(f_markets) !! slug) as [e|] eqn:E; [|done]. simpl.
      pose proof (overflow_raised _ _ Hb Eb) as Eo.
      rewrite Hcl; [done|by apply Hf|by apply (so_calm _ Hf Eo _ _ E)|].
      by apply (not_failed visit f b).
  - apply floor_eq; try done. subst minds. cbn [f_minds f_retire f_walk set f_markets].
    rewrite <- !list_fmap_compose. apply list_fmap_ext. intros i m _. unfold compose. simpl.
    f_equal. by rewrite filter_none.
Qed.

(** *** Shadows *)

Lemma minds_sound f minds : sound f -> Forall (agreed f.(f_overflowed) f.(f_markets)) minds ->
  sound (f <| f_minds := minds |>).
Proof. intros [] H. by split. Qed.

Lemma Forall_alter_mind (P : Mind -> Prop) g i l : Forall P l -> (forall m, P m -> P (g m)) ->
  Forall P (alter g i l).
Proof.
  intros Hl Hg. rewrite Forall_lookup in *. intros j m. destruct (decide (i = j)) as [->|].
  - rewrite list_lookup_alter_eq. intros (m' & Hm & ->)%fmap_Some. eauto.
  - rewrite list_lookup_alter_ne by done. eauto.
Qed.

Lemma shadow_sound f i slug o : sound f -> sound (f_shadow i slug o f).
Proof.
  intros Hf. unfold f_shadow.
  eapply eq_rect; [apply minds_sound; [exact Hf|]|]; [|by apply floor_eq].
  apply Forall_alter_mind; [apply Hf|]. intros m Hm. cbv zeta.
  apply (agreed_mark _ _ _ _ _ _ Hm). intros k Hk. unfold covers.
  by rewrite lookup_partial_alter_ne by done.
Qed.

Lemma forget_sound f i : sound f -> sound (f_forget i f).
Proof.
  intros Hf. eapply eq_rect; [apply minds_sound; [exact Hf|]|]; [|by apply floor_eq].
  apply Forall_alter_mind; [apply Hf|]. intros m _. split; simpl; intros slug; [set_solver|].
  intros _. unfold covers. rewrite lookup_empty. simpl. destruct (f.(f_markets) !! slug) as [e|]; [|done].
  unfold promotable. by rewrite (bool_decide_eq_false_2 (Divergent _ = Agreeing)), andb_false_r by done.
Qed.

(** *** Markets that leave and come *)

Lemma In_filter_other (slug k : bytes) (l : list bytes) :
  k ∈ List.filter (fun waiting => negb (bool_decide (waiting = slug))) l <-> k ∈ l /\ k <> slug.
Proof.
  rewrite !list_elem_of_In, List.filter_In, negb_true_iff, bool_decide_eq_false. done.
Qed.

Lemma NoDup_filter_other (slug : bytes) (l : list bytes) : NoDup l ->
  NoDup (List.filter (fun waiting => negb (bool_decide (waiting = slug))) l).
Proof. rewrite !NoDup_ListNoDup. apply List.NoDup_filter. Qed.

Lemma unwanted_other (ms ms' : gmap bytes MarketEntry) slug k : k <> slug -> ms' !! k = ms !! k ->
  unwanted ms' k <-> unwanted ms k.
Proof. intros _ H. unfold unwanted. by rewrite H. Qed.

Lemma unsubscribed_book slug e : entry_ok slug e ->
  let b := (writer_unsubscribe e.(writer)).2.(writer_book) in
  book_wf b /\ shard_market slug = Ok b.(book_market).
Proof.
  intros Hok b.
  pose proof (proj1 (proj2 (proj2 (proj2 (writer_publishes_then_sends e.(writer)))) (eo_wf _ _ Hok))) as Hp.
  split; [by eapply performs_wf, Hok|]. subst b.
  rewrite (performs_book_market _ _ Hp) by apply Hok.
  rewrite (eo_market _ _ Hok). f_equal. symmetry. apply Hok.
Qed.

Lemma close_sound f slug : sound f -> sound (f_close slug f).
Proof.
  intros Hf. unfold f_close. destruct (f.(f_markets) !! slug) as [e|] eqn:E; [|done].
  pose proof (unsubscribed_book slug e (so_entries _ Hf _ _ E)) as [Hbw Hbm].
  destruct Hf. split; cbn [f_markets f_retired f_minds f_wanted f_version f_removing f_capacity
    f_observers f_segmented f_overflowed set].
  - by apply map_Forall_delete.
  - intros Hb. by apply map_Forall_delete, so_calm0.
  - by apply map_Forall_delete.
  - done.
  - rewrite (wanted_count_delete _ _ _ E), so_wanted0. destruct e.(desired) eqn:Ed; [|lia].
    pose proof (wanted_count_pos f.(f_markets) slug ltac:(by exists e)).
    unfold saturating_sub_usize. lia.
  - destruct e.(desired); [|done]. unfold saturating_sub_usize.
    pose proof (wanted_count_nonneg f.(f_markets)). lia.
  - by apply NoDup_filter_other.
  - intros k. rewrite In_filter_other, so_unwanted0. unfold unwanted.
    setoid_rewrite lookup_delete_Some. naive_solver.
  - intros k r Hr. assert (Hk : k = slug /\ r = (writer_unsubscribe e.(writer)).2.(writer_book) \/
      f.(f_retired) !! k = Some r).
    { destruct f.(f_segmented); [|by right].
      apply lookup_insert_Some in Hr as [[-> <-]|[_ ?]]; [by left|by right]. }
    destruct Hk as [[-> ->]|Hk].
    + split_and!; [done..|]. apply lookup_delete_eq.
    + destruct (so_retired0 k r Hk) as (? & ? & Hn). split_and!; [done..|].
      apply lookup_delete_None. by right.
  - apply Forall_fmap. eapply Forall_impl; [exact so_minds0|]. intros m [Hs Hc].
    assert (Hcov : forall k, k <> slug ->
      covers (delete slug f.(f_markets)) (delete slug m.1) k = covers f.(f_markets) m.1 k).
    { intros k Hk. unfold covers. by rewrite !lookup_delete_ne by done. }
    split; simpl; intros k.
    + intros [Hin Hk]%elem_of_difference. rewrite Hcov by set_solver. auto.
    + intros Hb. destruct (decide (k = slug)) as [->|Hk].
      * unfold covers. by rewrite lookup_delete_eq.
      * rewrite Hcov by done. intros H%Hc; [|done]. set_solver.
Qed.

Lemma resume_facts r b : book_wf r -> resume r = Ok b ->
  book_wf b /\ b.(book_market) = r.(book_market) /\ b.(authority) <> Live.
Proof.
  intros Hwf. unfold resume.
  destruct (report_continuity_loss _ _ r) as [[changed|err] o] eqn:E; [|done]. intros [= <-].
  split; [by eapply book_step_wf; [|by eapply step_loss]|].
  apply report_continuity_loss_Ok in E; [|done]. destruct changed.
  - destruct E as [_ ->]. done.
  - destruct E as (_ & Ea & ->). split; [done|congruence].
Qed.

Lemma starts_facts slug m b f : sound f -> starts slug m b f ->
  shard_market slug = Ok m /\ book_wf b /\ b.(book_market) = m /\ b.(authority) <> Live.
Proof.
  intros Hf [Hm Hs]. destruct (f.(f_retired) !! slug) as [r|] eqn:E.
  - destruct (so_retired _ Hf _ _ E) as (Hwf & Hr & _).
    destruct (resume_facts r b Hwf Hs) as (? & Eb & ?). split_and!; try done. congruence.
  - subst b. split_and!; try done. apply book_new_wf.
Qed.

Lemma open_sound f slug m b : sound f -> f.(f_markets) !! slug = None ->
  f.(f_wanted) < f.(f_capacity) -> starts slug m b f -> sound (f_open slug m b f).
Proof.
  intros Hf Hn Hlt Hs. destruct (starts_facts slug m b f Hf Hs) as (Hm & Hwf & Hbm & Hl).
  destruct Hf. set (e := entry_new m (writer_new b f.(f_observers)) (saturating_add_u64 f.(f_version) 1)).
  assert (Hlive : live e = false) by (by apply bool_decide_eq_false).
  assert (Hv : f.(f_version) <= saturating_add_u64 f.(f_version) 1 <= U64_MAX).
  { unfold saturating_add_u64. lia. }
  assert (Hcov : forall sh k, covers (<[slug := e]> f.(f_markets)) sh k =
    if bool_decide (k = slug) then false else covers f.(f_markets) sh k).
  { intros sh k. unfold covers. case_bool_decide as Hk.
    - subst k. rewrite lookup_insert_eq. by apply baseless_unpromotable.
    - by rewrite lookup_insert_ne by done. }
  split; cbn [f_open f_markets f_retired f_minds f_wanted f_version f_removing f_capacity
    f_observers f_segmented f_overflowed set]; unfold RecordSettersUsingExistingGetters.const;
    fold e.
  - apply map_Forall_insert_2; [|done]. split; try done; [apply borrow_new|by rewrite Hlive].
  - intros Hb. apply map_Forall_insert_2; [done|auto].
  - apply map_Forall_insert_2; [change (installed_version e) with (saturating_add_u64 f.(f_version) 1); lia|].
    intros k d Hd. specialize (so_versions0 k d Hd). cbv beta in *. lia.
  - lia.
  - rewrite wanted_count_insert, so_wanted0 by done. simpl. unfold saturating_add_usize, USIZE_MAX.
    unfold MAX_SHARD_MARKETS in *. unfold U64_MAX in *. lia.
  - unfold saturating_add_usize. lia.
  - done.
  - intros k. rewrite so_unwanted0. unfold unwanted. setoid_rewrite lookup_insert_Some.
    split; [intros (d & Hd & Hk); exists d; split; [right; split; [congruence|done]|done]|].
    intros (d & [[<- <-]|[_ Hd]] & Hk); [done|by exists d].
  - intros k r [Hk Hr]%lookup_delete_Some. destruct (so_retired0 k r Hr) as (? & ? & Hk').
    split_and!; [done..|]. by rewrite lookup_insert_ne by done.
  - eapply Forall_impl; [exact so_minds0|]. intros mi [Hsd Hc]. split; intros k.
    + intros Hin. rewrite Hcov. case_bool_decide as Hk; [|auto]. subst k.
      specialize (Hsd slug Hin). unfold covers in Hsd. by rewrite Hn in Hsd.
    + intros Hb. rewrite Hcov. case_bool_decide; [done|auto].
Qed.

Lemma disown_sound f slug : sound f -> sound (f <| f_retired ::= delete slug |>).
Proof.
  intros []. split; try done. cbn [f_retired f_markets set]. intros k r [_ Hr]%lookup_delete_Some.
  auto.
Qed.

Lemma version_sound f n : 0 <= n -> sound f -> sound (f <| f_version ::= fun v => saturating_add_u64 v n |>).
Proof.
  intros Hn []. assert (Hv : f.(f_version) <= saturating_add_u64 f.(f_version) n <= U64_MAX).
  { unfold saturating_add_u64. lia. }
  split; try done; cbn [f_version f_markets set]; [|lia]. intros k d Hd.
  specialize (so_versions0 k d Hd). cbv beta in *. lia.
Qed.

(** *** The queue of removals *)

Definition bounded (f : Floor) : Prop := len f.(f_removing) <= MAX_REMOVING_MARKETS.

Lemma filter_other_le (slug : bytes) l :
  len (List.filter (fun waiting => negb (bool_decide (waiting = slug))) l) <= len l.
Proof. unfold len. pose proof (List.filter_length_le (fun w => negb (bool_decide (w = slug))) l). lia. Qed.

Lemma close_removing slug f : len (f_close slug f).(f_removing) <= len f.(f_removing).
Proof.
  unfold f_close. destruct (f.(f_markets) !! slug); [|done]. apply filter_other_le.
Qed.

Lemma close_popped k rest f : sound f -> f.(f_removing) = k :: rest ->
  f_close k (f <| f_removing := rest |>) = f_close k f.
Proof.
  intros Hf E. assert (Hk : unwanted f.(f_markets) k) by (apply (so_unwanted _ Hf); rewrite E; by left).
  destruct Hk as (e & He & _). unfold f_close. cbn [f_markets set]. rewrite He.
  apply floor_eq; try done. cbn [f_removing set]. rewrite E. simpl. by rewrite bool_decide_eq_true_2.
Qed.

Lemma evict_sound n : forall f, sound f -> sound (f_evict n f).
Proof.
  induction n as [|n IH]; intros f Hf; [done|]. cbn [f_evict].
  destruct (_ <? _); [|done]. destruct f.(f_removing) as [|k rest] eqn:E; [done|].
  rewrite close_popped by done. by apply IH, close_sound.
Qed.

Lemma evict_bounded n : forall f, len f.(f_removing) <= MAX_REMOVING_MARKETS + Z.of_nat n ->
  bounded (f_evict n f).
Proof.
  induction n as [|n IH]; intros f Hf; [unfold bounded; simpl; lia|]. cbn [f_evict].
  destruct (_ <? _) eqn:El; [|unfold bounded; lia].
  destruct f.(f_removing) as [|k rest] eqn:E; [unfold bounded; by rewrite E|].
  apply IH. pose proof (close_removing k (f <| f_removing := rest |>)) as Hc.
  change ((f <| f_removing := rest |>).(f_removing)) with rest in Hc.
  unfold len in *. simpl in Hf. lia.
Qed.

Lemma enqueue_sound f slug e : sound f -> f.(f_markets) !! slug = Some e -> e.(desired) = true ->
  sound (f_enqueue slug e f).
Proof.
  intros Hf He Hd. unfold f_enqueue. apply evict_sound.
  set (e' := e <| desired := false |> <| subscription := ShardMarket.Removing |>).
  assert (Hins : <[slug := e']> f.(f_markets) = <[slug := e']> (delete slug f.(f_markets)))
    by (by rewrite insert_delete_eq).
  pose proof (wanted_count_pos f.(f_markets) slug ltac:(by exists e)) as Hpos.
  destruct Hf. split; cbn [f_markets f_retired f_minds f_wanted f_version f_removing f_capacity
    f_observers f_segmented f_overflowed set].
  - apply map_Forall_insert_2; [|done]. by destruct (so_entries0 _ _ He).
  - intros Hb. apply map_Forall_insert_2; [exact (so_calm0 Hb _ _ He)|auto].
  - apply map_Forall_insert_2; [exact (so_versions0 _ _ He)|done].
  - done.
  - rewrite Hins, wanted_count_insert, (wanted_count_delete _ _ _ He), Hd by apply lookup_delete_eq.
    unfold saturating_sub_usize. simpl. lia.
  - unfold saturating_sub_usize. lia.
  - apply NoDup_app. split; [by apply NoDup_filter_other|]. split; [|by apply NoDup_singleton].
    intros k Hk ->%list_elem_of_singleton. by apply In_filter_other in Hk as [_ ?].
  - intros k. rewrite elem_of_app, In_filter_other, list_elem_of_singleton, so_unwanted0.
    unfold unwanted. setoid_rewrite lookup_insert_Some. split.
    + intros [[(d & Hk & Hkd) Hne]| ->]; [exists d; split; [by right|done]|].
      exists e'. split; [by left|done].
    + intros (d & [[<- <-]|[Hne Hk]] & Hkd); [by right|]. left. split; [by exists d|done].
  - intros k r Hr. destruct (so_retired0 k r Hr) as (? & ? & Hn). split_and!; [done..|].
    rewrite lookup_insert_ne; [done|]. intros ->. congruence.
  - apply Forall_fmap. eapply Forall_impl; [exact so_minds0|]. intros m [Hs Hc].
    assert (Hcov : forall k, covers (<[slug := e']> f.(f_markets)) m.1 k =
      if bool_decide (k = slug) then false else covers f.(f_markets) m.1 k).
    { intros k. unfold covers. case_bool_decide as Hk; [subst k; by rewrite lookup_insert_eq|].
      by rewrite lookup_insert_ne by done. }
    split; simpl; intros k; rewrite Hcov; case_bool_decide as Hk; try done.
    + set_solver.
    + intros Hin. apply Hs. set_solver.
    + intros Hb H%Hc; [|done]. set_solver.
Qed.

Lemma enqueue_bounded f slug e : bounded f -> bounded (f_enqueue slug e f).
Proof.
  intros Hb. unfold f_enqueue. apply evict_bounded. unfold bounded, MAX_REMOVING_MARKETS, len in *.
  lia.
Qed.

(** ** Every step *)

Record settled (f : Floor) : Prop := { se_sound : sound f; se_bounded : bounded f }.

Lemma step_sound c f f' : floor_step c f f' -> sound f -> sound f'.
Proof.
  intros Hs Hf. destruct Hs.
  - by apply retouch_sound.
  - by apply fail_sound.
  - eapply eq_rect; [apply (refresh_sound f slug id Hf); by split|].
    unfold f_entry. f_equal. apply floor_eq; try done. cbn [f_markets set]. apply alter_id. done.
  - apply refresh_sound; [done|]. intros e He. by apply lose_stays, Hf.
  - apply refresh_sound; [done|]. intros e He. by apply apply_stays; [|apply Hf].
  - by apply resolve_sound.
  - by apply walk_sound.
  - by apply clear_sound.
  - by apply close_sound.
  - by apply open_sound.
  - by apply disown_sound.
  - by apply enqueue_sound.
  - by apply version_sound.
  - by apply shadow_sound.
  - by apply forget_sound.
Qed.

Lemma step_bounded c f f' : floor_step c f f' -> bounded f -> bounded f'.
Proof.
  intros Hs. destruct Hs; try done.
  - intros Hb. unfold bounded in *. pose proof (close_removing slug f). lia.
  - apply enqueue_bounded.
Qed.

Lemma steps_settled c f f' : rtc (floor_step c) f f' -> settled f -> settled f'.
Proof.
  induction 1 as [|f g h Hs _ IH]; [done|]. intros [Hf Hb]. apply IH.
  split; [by eapply step_sound|by eapply step_bounded].
Qed.

End inv.
