(* ===== verification/ShardSim.v ===== *)
(** * What a shard does to its floor

    Every handler of [Shard] is shown to perform steps of the floor ([ShardFloor.floor_step])
    and nothing else on it, so that what holds of the steps holds of a run: first the
    operations that open and close markets, then, up from the leaves, every handler. *)

From stdpp Require Import gmap relations.
From S2P Require Import Prelude OrdMap Identity Descriptor DedupKey Continuity Observation Book BookProps Digest Pool Channel Observer ObserverProps Session Limitless Pacing Connection QueueAge ShmWriter Supervisor ShardMarket Shard ShardFloor ShardInv.

#[global] Typeclasses Opaque count record_failure effect tell_segment on_standby on_slot on_active
  recount_recovering on_entry on_entries refresh_shadow_agreement refresh_agreement
  retire_agreement retire_all_agreement walk_markets publish_segment_state
  publish_segment_commit report_market_loss report_shard_loss report_rail_loss forget_removal
  close_all close_unwanted evict_removals enqueue_removal drop_shadow apply_shadow_candidate
  shadow_pooled with_candidate refuse_shadow refuse_frame apply_shadow_update apply_to_market
  apply_update note_pool_position credit_pool_publication retire_pool_socket
  hand_back_to_publishing_slot withdraw_licence publish_pooled recover_pooled settle_pooled
  apply_pooled forward_resolution on_event settle_dial await_bases note_heartbeat on_notice
  schedule_reconnect count_standby_end release_fenced fence on_connection_ended
  on_standby_ended report_lost_pool_coverage vacate_standby occupy_primary move_socket_history
  on_pool_slot_ended apply_promotions on_slot_ended on_ended replace_connection reconcile_slot
  reconcile_set arm_reissue drain_notices drain_queued emit_reissue escalate_reissue
  on_reissue_due fence_if_expired on_heartbeat_missed spawn_slot spawn_due shed_idle_connection
  stall_ingest prepare on_wake finish_slot finish with_now.

(** ** Walking a handler's body *)

Section walking.
Context `{RB : Broadcast StreamDelivery} `{WP : Watch PublishedBook} `{SS : ShardSink}.
Variable env : nat -> ShardEnv.

(** A property that survives a handler, and one that asking does not disturb. *)
Class Preserves (P : Shard -> Prop) (f : Shard -> Shard) := preserves x : P x -> P (f x).
Class Waits (P : Shard -> Prop) := waits x : P x -> P (asked env x).

Lemma shard_ask_case {A} (Q : A -> Prop) P (k : ShardEnv -> Shard -> A) x : Waits P -> P x ->
  (forall e y, P y -> Q (k e y)) -> Q (ask env k x).
Proof. intros HP Hx H. rewrite shard_ask_eq. apply H. by apply HP. Qed.

Lemma shard_fold_case {T A} (P : T -> Prop) (f : T -> A -> T) l x :
  (forall a y, P y -> P (f y a)) -> P x -> P (fold_left f l x).
Proof. intros H. revert x. induction l as [|a l IH]; intros x Hx; simpl; auto. Qed.

End walking.

(** Walks a handler's body: a question by its answers, a branch by its cases, a call by what
    is known of it. *)
Ltac walk :=
  cbv beta zeta;
  lazymatch goal with
  | |- ?P ?x => first
    [ match goal with H : ?G |- ?G => exact H end
    | lazymatch goal with |- _ ?y ?y => reflexivity end
    | lazymatch x with
      | ask _ _ _ => apply (shard_ask_case _ P P); [apply _ | walk | intros; walk]
      | with_now _ _ _ => unfold with_now; walk
      | fold_left _ _ _ => apply (shard_fold_case P); [intros; walk | walk]
      | match ?t with _ => _ end =>
          lazymatch type of t with
          | (_ * Shard)%type =>
              let H := fresh "Hw" in assert (H : P t.2) by walk;
              destruct t as [? ?] eqn:?; simpl in H; walk
          | _ => destruct t eqn:?; walk
          end
      | snd (match ?t with _ => _ end) =>
          lazymatch type of t with
          | (_ * Shard)%type =>
              let H := fresh "Hw" in assert (H : P t.2) by walk;
              destruct t as [? ?] eqn:?; simpl in H; walk
          | _ => destruct t eqn:?; walk
          end
      | snd (_, ?y) => change (P y); walk
      | snd (ask _ _ _) => apply (shard_ask_case _ (fun r => P r.2) P); [apply _ | walk | intros; walk]
      | snd (?f ?y) => apply (preserves (P := P) (f := fun z => snd (f z)) y); walk
      | ?f ?y => apply (preserves (P := P) (f := f) y); walk
      end
    | idtac ]
  end.


Section closing.
Context `{RB : Broadcast StreamDelivery} `{!BroadcastLaws RB} `{WP : Watch PublishedBook}
  `{!WatchLaws WP} `{SS : ShardSink}.
Variable env : nat -> ShardEnv.
Variable genuine : OrderbookUpdate -> Prop.
Hypothesis arrivals_genuine : forall t, Forall (brings genuine) (env t).(arrivals).

#[local] Abbreviation background := (background genuine).

(** ** Closing *)

(** The floor a handler left, whatever failures it counted. *)
Definition leaves (g : Floor -> Floor) (x y : Shard) : Prop :=
  floor y = (g (floor x)) <| f_overflowed := overflowed y |> /\ flagged x y /\ background x y.

Lemma leaves_steps c g x y : leaves g x y -> rtc (floor_step c) (floor x) (g (floor x)) ->
  (g (floor x)).(f_overflowed) = overflowed x -> rtc (floor_step c) (floor x) (floor y).
Proof.
  intros (E & Hf & _) Hs Ho. rewrite E. eapply rtc_r; [exact Hs|]. apply step_fail.
  rewrite Ho. exact Hf.
Qed.

Lemma close_floor slug x : leaves (f_close slug) x (close env slug x).2 /\
  (close env slug x).1 = bool_decide (is_Some (x.(markets) !! slug)).
Proof.
  unfold close, leaves, f_close. cbn [floor f_markets].
  destruct (x.(markets) !! slug) as [e|] eqn:E.
  2: { rewrite bool_decide_eq_false_2 by (by intros []). split; [|done].
       split; [by apply floor_eq|]. by split; [intros ?|]. }
  rewrite bool_decide_eq_true_2 by by eexists.
  destruct (writer_unsubscribe e.(writer)) as [ended w]. cbn [fst snd]. split; [|done].
  set (y := match ended with Err error => record_failure _ _ | Ok _ => _ end).
  assert (Hy : floor y = (floor x) <| f_markets ::= delete slug |> <| f_overflowed := overflowed y |>
    /\ flagged x y /\ background x y).
  { subst y. destruct ended as [c|error]; [split; [by apply floor_eq|]; by split; [intros ?|]|].
    split; [by apply floor_eq|]. split; [|done]. intros Ho. by apply record_failure_flagged. }
  clearbody y. set (z := tell_segment env _ y).
  assert (Hz : floor z = floor y /\ background y z) by (split; [apply floor_tell|by apply tell_background]).
  clearbody z. destruct Hy as (Hy & Hf & Hb), Hz as [Hz Hb'].
  set (u := if bool_decide _ then z <| retired ::= _ |> else z).
  assert (Hu : floor u = (floor z) <| f_retired ::= if (floor z).(f_segmented)
    then <[slug := w.(writer_book)]> else id |> /\ background z u).
  { subst u. cbn [floor f_segmented]. destruct (bool_decide _); (split; [by apply floor_eq|done]). }
  clearbody u. set (v := if e.(desired) then u <| desired_count ::= _ |> else u).
  assert (Hv : floor v = (floor u) <| f_wanted ::= fun n =>
    if e.(desired) then saturating_sub_usize n 1 else n |> /\ background u v).
  { subst v. destruct e.(desired); (split; [by apply floor_eq|done]). }
  clearbody v. destruct Hu as [Hu Hbu], Hv as [Hv Hbv].
  set (r := count _ _ _).
  assert (Hr : floor r = (floor v)
    <| f_removing ::= List.filter (fun waiting => negb (bool_decide (waiting = slug))) |>
    <| f_minds ::= fmap (fun m : Mind => (delete slug m.1, m.2 ∖ {[slug]})) |> /\ background v r).
  { split; [|done]. apply floor_eq; try done. cbn [f_minds set floor r count forget_removal standbys].
    by rewrite <- !list_fmap_compose. }
  clearbody r. destruct Hr as [Hr Hbr].
  assert (Eo : overflowed r = overflowed y).
  { change ((floor r).(f_overflowed) = (floor y).(f_overflowed)). by rewrite Hr, Hv, Hu, Hz. }
  split; [|split].
  - rewrite Hr, Hv, Hu, Hz, Hy, Eo. by apply floor_eq.
  - unfold flagged. by rewrite Eo.
  - by repeat (etrans; [eassumption|]).
Qed.

Lemma leaves_at g h x y : g (floor x) = h (floor x) -> leaves g x y -> leaves h x y.
Proof. unfold leaves. by intros ->. Qed.

(** What does not look at the count of failures. *)
Definition blind (g : Floor -> Floor) : Prop := forall f b,
  g (f <| f_overflowed := b |>) = (g f) <| f_overflowed := b |>.

Lemma leaves_trans g h x y z : leaves g x y -> leaves h y z -> blind h ->
  leaves (fun f => h (g f)) x z.
Proof.
  intros (E & Hf & Hb) (E' & Hf' & Hb') Hh. split; [|split; [|by etrans]].
  - rewrite E', E, Hh. by apply floor_eq.
  - intros Ho. by apply Hf', Hf.
Qed.

Lemma leaves_eq g x y : floor y = g (floor x) -> (g (floor x)).(f_overflowed) = overflowed x ->
  background x y -> leaves g x y.
Proof.
  intros E Eo Hb. assert (Ho : overflowed y = overflowed x).
  { rewrite <- Eo, <- E. done. }
  split; [|split; [|done]]; [|unfold flagged; by rewrite Ho].
  rewrite E, Ho, <- Eo. by apply floor_eq.
Qed.

Lemma f_close_blind slug : blind (f_close slug).
Proof. intros f b. unfold f_close. cbn [f_markets set]. by destruct (f.(f_markets) !! slug). Qed.

Lemma f_evict_blind n : blind (f_evict n).
Proof.
  induction n as [|n IH]; intros f b; [done|]. cbn [f_evict f_removing set].
  destruct (_ <? _); [|done]. destruct f.(f_removing) as [|k rest] eqn:E; [done|].
  change (f <| f_overflowed := b |> <| f_removing := rest |>)
    with (f <| f_removing := rest |> <| f_overflowed := b |>).
  by rewrite f_close_blind, IH.
Qed.

Lemma evict_floor n : forall x, leaves (f_evict n) x (evict_removals env n x).
Proof.
  induction n as [|n IH]; intros x; [by apply leaves_eq|]. cbn [evict_removals].
  destruct (_ <? _) eqn:El; [|apply (leaves_at id); [|by apply leaves_eq];
    cbn [f_evict floor f_removing]; by rewrite El].
  destruct x.(removing) as [|k rest] eqn:E;
    [apply (leaves_at id); [|by apply leaves_eq]; cbn [f_evict floor f_removing];
     by rewrite E, El|].
  set (y := x <| removing := rest |>). destruct (close_floor k y) as [Hc _].
  destruct (close env k y) as [closed z]. cbn [snd] in Hc.
  set (u := if closed then _ else z).
  assert (Hu : leaves id z u) by (subst u; destruct closed; by apply leaves_eq).
  pose proof (leaves_trans _ _ _ _ _ Hc Hu ltac:(done)) as Hcu.
  pose proof (leaves_trans _ _ _ _ _ Hcu (IH u) (f_evict_blind n)) as H.
  destruct H as (H & Hf & Hb). split; [|split; [exact Hf|by etrans; [|exact Hb]]].
  rewrite H. cbn [f_evict floor f_removing]. rewrite E, El. done.
Qed.

Lemma remove_market_floor slug x : let y := (remove_market env slug x).2 in
  y = x /\ (is_market_slug slug = true -> f_unwanted slug (floor x)) \/
  exists e, x.(markets) !! slug = Some e /\ e.(desired) = true /\
    (leaves (f_enqueue slug e) x y \/ leaves (f_close slug) x y).
Proof.
  unfold remove_market, withdraw_demand, f_unwanted. destruct (is_market_slug slug); [|by left].
  cbn [negb floor f_markets].
  destruct (x.(markets) !! slug) as [e|] eqn:E; [|left; split; [done|by intros _ ? ?]].
  destruct e.(desired) eqn:Ed; [|left; split; [done|by intros _ ? [= <-]]].
  right. exists e. split; [done|]. split; [done|].
  cbn [snd]. set (e' := e <| desired := false |> <| subscription := ShardMarket.Removing |>).
  set (x1 := retire_agreement slug _). set (x2 := x1 <| desired_count ::= _ |>).
  assert (H2 : floor x2 = (floor x) <| f_markets ::= <[slug := e']> |>
    <| f_minds ::= fmap (fun m : Mind => (m.1, m.2 ∖ {[slug]})) |>
    <| f_wanted ::= fun n => saturating_sub_usize n 1 |>).
  { apply floor_eq; try done. subst x2 x1. cbn [f_minds set floor retire_agreement standbys].
    by rewrite <- !list_fmap_compose. }
  destruct (carried e').
  - left. unfold enqueue_removal. set (x3 := (forget_removal slug x2) <| removing ::= _ |>).
    assert (H3 : floor x3 = (floor x2) <| f_removing ::= fun l =>
      List.filter (fun waiting => negb (bool_decide (waiting = slug))) l ++ [slug] |>) by done.
    pose proof (evict_floor (length x3.(removing)) x3) as (Hv & Hf & Hb).
    split; [|split; [exact Hf|by etrans; [|exact Hb]]].
    rewrite Hv. unfold f_enqueue. change x3.(removing) with (floor x3).(f_removing).
    by rewrite H3, H2.
  - right. destruct (close_floor slug x2) as [(Hc & Hf & Hb) _].
    split; [|split; [exact Hf|by etrans; [|exact Hb]]].
    rewrite Hc, H2. unfold f_close at 1. cbn [f_markets set]. rewrite lookup_insert_eq.
    unfold f_close. cbn [floor f_markets]. rewrite E, Ed. apply floor_eq; try done.
    + cbn [f_markets set]. by rewrite delete_insert_eq.
    + cbn [f_minds set]. rewrite <- !list_fmap_compose. apply list_fmap_ext. intros i m _.
      unfold compose. simpl. f_equal. apply set_eq. set_solver.
Qed.
End closing.

Section sim.
Context `{RB : Broadcast StreamDelivery} `{!BroadcastLaws RB} `{WP : Watch PublishedBook}
  `{!WatchLaws WP} `{SS : ShardSink}.
Variable env : nat -> ShardEnv.
Variable hash_one : nat -> Z -> Z.
Variables outcome_capacity type_capacity date_capacity : Z.
Hypothesis hash_order_perm : forall t l, (env t).(hash_order) l ≡ₚ l.
Variable genuine : OrderbookUpdate -> Prop.
Hypothesis genuine_decoded : forall u, genuine u ->
  exists frame, decode_event frame = Some (Ok (OrderbookUpdateEvent u)).
Hypothesis arrivals_genuine : forall t, Forall (brings genuine) (env t).(arrivals).

(** Whether an operator's command may be among what happened. *)
Variable commanded : bool.

#[local] Abbreviation floor_step := (floor_step commanded).
#[local] Abbreviation background := (background genuine).
#[local] Abbreviation brings := (brings genuine).
#[local] Abbreviation leaves := (leaves genuine).

(** ** Handlers that leave the floor alone *)

Record quiet (x y : Shard) : Prop := {
  q_floor : floor y = floor x;
  q_background : background x y
}.

#[local] Instance quiet_preorder : PreOrder quiet.
Proof. split; [by split|]. intros x y z [] []. split; [congruence|by etrans]. Qed.

Class Quiet (f : Shard -> Shard) := quietly x : quiet x (f x).
Class OfFloor (P : Shard -> Prop) := of_floor x y : quiet x y -> P x -> P y.

#[local] Instance quiet_of_floor s : OfFloor (quiet s).
Proof. intros x y ? ?. by etrans. Qed.
#[local] Instance quiet_preserves P f : OfFloor P -> Quiet f -> Preserves P f.
Proof. intros H Hf x. apply H, Hf. Qed.

#[local] Abbreviation asked := (asked env).

Lemma shard_asked_quiet x : quiet x (asked x).
Proof. split; [apply asked_floor|by apply asked_background]. Qed.

#[local] Instance of_floor_waits P : OfFloor P -> Waits env P.
Proof. intros H x. apply H, shard_asked_quiet. Qed.

(** The assignments that touch neither the floor nor the queue. *)
#[local] Hint Extern 1 (Quiet ?f) =>
  lazymatch f with
  | count _ _ => idtac | effect _ => idtac
  | set ?g _ =>
      lazymatch g with
      | redundancy => idtac | pool_sessions_ended => idtac | next_generation => idtac
      | reissue => idtac | recovering => idtac | rail_loss_latched => idtac
      | position => idtac | shadow_position => idtac | queue_age => idtac
      | ingest_stall => idtac | primary => idtac | stats => idtac
      end
  end; intros ?; by split : typeclass_instances.

#[local] Instance tell_quiet f : Quiet (tell_segment env f).
Proof. intros x. split; [apply floor_tell|by apply tell_background]. Qed.

#[local] Instance publish_state_quiet slug : Quiet (publish_segment_state env slug).
Proof. intros x. unfold publish_segment_state. walk. Qed.
#[local] Instance publish_commit_quiet slug c a : Quiet (publish_segment_commit env slug c a).
Proof. intros x. unfold publish_segment_commit. walk. Qed.

#[local] Instance recount_quiet : Quiet recount_recovering.
Proof. intros x. unfold recount_recovering. walk. Qed.

(** *** Slots *)

Lemma shard_on_standby_quiet i f : (forall b, mind (f b) = mind b) -> Quiet (on_standby i f).
Proof. intros H x. split; [by apply floor_on_standby|by split]. Qed.

Lemma shard_on_slot_quiet s f : Quiet (on_slot s f).
Proof. intros x. split; [apply floor_on_slot|]. by destruct s. Qed.

#[local] Hint Extern 1 (Quiet (on_standby _ _)) =>
  apply shard_on_standby_quiet; intros; reflexivity : typeclass_instances.
#[local] Hint Extern 1 (Quiet (on_slot _ _)) => apply shard_on_slot_quiet : typeclass_instances.
#[local] Hint Extern 1 (Quiet (on_active _ _)) => apply shard_on_slot_quiet : typeclass_instances.

(** *** Entries whose book is left alone *)

Lemma same_refl ms : same_markets ms ms.
Proof. intros slug. by destruct (ms !! slug); constructor. Qed.

(** ** Handlers that move the floor *)

Record reached (f0 : Floor) (x : Shard) : Prop := {
  r_steps : rtc floor_step f0 (floor x);
  r_settled : settled (floor x);
  r_levels : 0 <= x.(level_capacity).(level_capacity_value);
  r_notices : Forall brings x.(notices)
}.

#[local] Instance reached_of_floor f0 : OfFloor (reached f0).
Proof.
  intros x y [Ef [El En]] [Hs Hk Hl Hn].
  split; [by rewrite Ef | by rewrite Ef | by rewrite El | by apply En].
Qed.

Lemma reached_steps f0 x y : reached f0 x -> rtc floor_step (floor x) (floor y) ->
  background x y -> reached f0 y.
Proof.
  intros [Hs Hk Hl Hn] H [El En].
  split; [by etrans | by eapply steps_settled | by rewrite El | by apply En].
Qed.

Lemma shard_reached_step f0 x y : reached f0 x -> floor_step (floor x) (floor y) ->
  background x y -> reached f0 y.
Proof. intros Hx H Hb. eapply reached_steps; [exact Hx|by apply rtc_once|exact Hb]. Qed.

Lemma blind_kept g f : blind g -> (g f).(f_overflowed) = f.(f_overflowed).
Proof.
  intros Hg. transitivity ((g f) <| f_overflowed := f.(f_overflowed) |>).(f_overflowed); [|done].
  rewrite <- Hg. f_equal. f_equal. by apply floor_eq.
Qed.

Lemma reached_leaves f0 g x y : reached f0 x -> leaves g x y -> blind g ->
  rtc floor_step (floor x) (g (floor x)) -> reached f0 y.
Proof.
  intros Hx H Hg Hs. eapply reached_steps; [exact Hx| |apply H].
  by eapply leaves_steps, blind_kept.
Qed.

#[local] Instance record_failure_reached f0 key : Preserves (reached f0) (record_failure key).
Proof.
  intros x Hx. eapply shard_reached_step; [exact Hx| |done]. rewrite floor_record_failure.
  apply step_fail. apply record_failure_flagged.
Qed.

Lemma close_reached f0 slug x : commanded = true \/ f_unwanted slug (floor x) ->
  reached f0 x -> reached f0 (close env slug x).2.
Proof.
  intros Hc Hx. eapply reached_leaves; [exact Hx|by apply close_floor|apply f_close_blind|].
  by apply rtc_once, step_close.
Qed.

(** Closing what is unwanted, one after the other. *)
Lemma close_keeps_unwanted slug k x : f_unwanted k (floor x) ->
  f_unwanted k (floor (close env slug x).2).
Proof.
  intros Hu e. destruct (close_floor env genuine arrivals_genuine slug x) as [(E & _) _].
  rewrite E. unfold f_close. cbn [floor f_markets set].
  destruct (x.(markets) !! slug) as [d|] eqn:Ed; cbn [f_markets set]; [|apply Hu].
  intros [_ He]%lookup_delete_Some. by apply Hu.
Qed.

Lemma close_unwanted_case (P : Shard -> Prop) `{!Waits env P} x :
  (forall slug y, f_unwanted slug (floor y) -> P y -> P (close env slug y).2) ->
  P x -> P (close_unwanted env x).
Proof.
  intros Hstep Hx. unfold close_unwanted. rewrite shard_ask_eq. apply (waits env x) in Hx.
  set (y := asked x) in *. clearbody y. set (l := closing _ y).
  assert (Hl : Forall (fun slug => f_unwanted slug (floor y)) l).
  { apply Forall_forall. intros slug Hs e He. subst l. unfold closing in Hs.
    rewrite hash_order_perm in Hs. apply list_elem_of_fmap in Hs as ([k d] & -> & Hin).
    apply elem_of_map_to_list, map_lookup_filter_Some in Hin as [Hk Hd]. cbn [fst snd floor f_markets] in *.
    congruence. }
  clearbody l. unfold close_all. revert y Hx Hl. induction l as [|slug l IH]; intros y Hy Hl; [done|].
  apply Forall_cons in Hl as [Hs Hl]. apply IH; [by apply Hstep|].
  eapply Forall_impl; [exact Hl|]. intros k. apply close_keeps_unwanted.
Qed.

#[local] Instance close_unwanted_reached f0 : Preserves (reached f0) (close_unwanted env).
Proof.
  intros x Hx. apply (close_unwanted_case (reached f0)); [|exact Hx]. intros slug y Hu. apply close_reached. by right.
Qed.

Lemma f_enqueue_blind slug e : blind (f_enqueue slug e).
Proof. intros f b. unfold f_enqueue. rewrite <- f_evict_blind. done. Qed.

Section commands.
Hypothesis Hcommand : commanded = true.

#[local] Instance remove_market_reached f0 slug :
  Preserves (reached f0) (fun x => (remove_market env slug x).2).
Proof.
  intros x Hx. pose proof (remove_market_floor env genuine arrivals_genuine slug x) as H.
  cbv zeta in H. destruct H as [[-> _]|(e & He & Hd & [H|H])]; [exact Hx|..].
  - eapply reached_leaves; [exact Hx|exact H|apply f_enqueue_blind|].
    by apply rtc_once, step_enqueue.
  - eapply reached_leaves; [exact Hx|exact H|apply f_close_blind|].
    apply rtc_once, step_close. by left.
Qed.

#[local] Instance version_reached f0 n : 0 <= n ->
  Preserves (reached f0) (set desired_version (fun v => saturating_add_u64 v n)).
Proof. intros Hn x Hx. eapply shard_reached_step; [exact Hx|by apply (step_version _ (floor x) n)|done]. Qed.

Lemma saturating_nonneg a b : 0 <= a -> 0 <= b -> 0 <= saturating_add_u64 a b.
Proof. unfold saturating_add_u64, U64_MAX. lia. Qed.

#[local] Instance remove_markets_reached f0 slugs :
  Preserves (reached f0) (fun x => (remove_markets env slugs x).2).
Proof.
  intros x Hx. unfold remove_markets.
  set (run := fold_left _ _ _).
  assert (H : reached f0 run.2 /\ 0 <= run.1.2).
  { subst run. apply (shard_fold_case (fun r => reached f0 r.2 /\ 0 <= r.1.2)); [|done].
    intros slug [[out bumps] y] [Hy Hb]. cbn [fst snd] in *.
    pose proof (preserves (P := reached f0) (f := fun x => (remove_market env slug x).2) y Hy) as Hr.
    cbv beta in Hr.
    destruct (remove_market env slug y) as [[status bumped] z]. cbn [fst snd] in *.
    split; [exact Hr|]. destruct bumped; [by apply saturating_nonneg|done]. }
  destruct run as [[out bumps] y]. cbn [fst snd] in *. destruct H as [Hy Hb].
  pose proof (version_reached f0 bumps Hb). walk.
Qed.

(** ** Opening *)

Lemma disown_reached f0 slug x : reached f0 x -> reached f0 (x <| retired ::= delete slug |>).
Proof.
  intros Hx. eapply shard_reached_step; [exact Hx| |done].
  apply (step_disown _ (floor x) slug).
Qed.

Lemma install_reached f0 slug x : reached f0 x -> x.(markets) !! slug = None ->
  x.(desired_count) < x.(config).(sc_max_markets) -> reached f0 (install env slug x).2.
Proof.
  intros Hx Hn Hw. unfold install. destruct (shard_market slug) as [m|] eqn:Em; [|exact Hx].
  cbv zeta. pose proof (disown_reached f0 slug x Hx) as Hd.
  destruct (match x.(retired) !! slug with Some _ => _ | None => _ end) as [b|] eqn:Eb; [|exact Hd].
  assert (Hs : starts slug m b (floor x)).
  { split; [done|]. cbn [floor f_retired]. destruct (x.(retired) !! slug); [done|]. by injection Eb. }
  set (y := x <| retired ::= delete slug |>) in *. set (w := writer_new b y.(observer_capacity)).
  destruct (seat env slug w y) as [seated z] eqn:Ez.
  assert (Hq : quiet y z).
  { unfold seat in Ez. destruct y.(segment) as [sink|] eqn:Es; [|injection Ez as <- <-; reflexivity].
    rewrite shard_ask_eq in Ez. destruct (sink_install _ _ _ _) as [r sink']. injection Ez as _ <-.
    destruct (shard_asked_quiet y) as [Qf Qb]. split; [|by etrans; [exact Qb|]].
    rewrite <- Qf. apply floor_eq; try done. cbn [f_segmented floor].
    change (asked y).(segment) with y.(segment). by rewrite Es. }
  destruct seated as [[]|]; [|by eapply reached_of_floor]. cbn [snd].
  set (r := set markets _ _). pose proof (q_floor _ _ Hq) as Ef.
  assert (E : floor r = f_open slug m b (floor x)).
  { set (version := saturating_add_u64 (floor z).(f_version) 1).
    transitivity ((floor z) <| f_wanted ::= fun n => saturating_add_usize n 1 |>
      <| f_version := version |> <| f_markets ::= <[slug := entry_new m w version]> |>);
      [by apply floor_eq|]. subst version. rewrite Ef. by apply floor_eq. }
  eapply shard_reached_step; [exact Hx| |].
  - rewrite E. by apply step_open.
  - transitivity y; [by split|]. transitivity z; [apply Hq|by split].
Qed.

Lemma close_opens slug x : let y := (close env slug x).2 in
  (forall e, x.(markets) !! slug = Some e -> e.(desired) = false) ->
  y.(markets) !! slug = None /\ y.(desired_count) = x.(desired_count) /\
  y.(config).(sc_max_markets) = x.(config).(sc_max_markets).
Proof.
  intros y Hd. destruct (close_floor env genuine arrivals_genuine slug x) as [(E & _ & _) _].
  fold y in E. unfold f_close in E. cbn [floor f_markets] in E.
  pose proof (f_equal f_markets E) as Em. pose proof (f_equal f_wanted E) as Ew.
  pose proof (f_equal f_capacity E) as Ec. cbn [floor f_markets f_wanted f_capacity] in Em, Ew, Ec.
  rewrite Em, Ew, Ec. destruct (x.(markets) !! slug) as [e|] eqn:Ex; [|done].
  simpl. rewrite (Hd e eq_refl). split; [apply lookup_delete_eq|done].
Qed.

#[local] Instance add_market_reached f0 slug :
  Preserves (reached f0) (fun x => (add_market env slug x).2).
Proof.
  intros x Hx. unfold add_market. cbv zeta. destruct (x.(markets) !! slug) as [e|] eqn:E.
  - destruct e.(desired) eqn:Ed; [exact Hx|]. destruct (_ <=? _) eqn:El; [exact Hx|].
    destruct (installable x slug); [|exact Hx].
    destruct (close_opens slug x) as (Hn & Hw & Hc); [intros d Hd; congruence|].
    assert (Hy : reached f0 (close env slug x).2) by (by apply close_reached; [left|]). destruct (close env slug x) as [closed y].
    cbn [fst snd] in *.
    pose proof (install_reached f0 slug y Hy Hn ltac:(rewrite Hw, Hc; lia)) as Hi.
    by destruct (install env slug y).
  - destruct (_ || _) eqn:El; [exact Hx|]. apply orb_false_iff in El as [El _].
    pose proof (install_reached f0 slug x Hx E ltac:(lia)) as Hi.
    by destruct (install env slug x).
Qed.

#[local] Instance add_markets_reached f0 slugs :
  Preserves (reached f0) (fun x => (add_markets env slugs x).2).
Proof.
  intros x Hx. unfold add_markets. set (run := fold_left _ _ _).
  assert (H : reached f0 run.2).
  { subst run. apply (shard_fold_case (fun r => reached f0 r.2)); [|done].
    intros slug [out y] Hy. cbn [fst snd] in *.
    pose proof (preserves (P := reached f0) (f := fun x => (add_market env slug x).2) y Hy) as Hr.
    cbv beta in Hr.
    by destruct (add_market env slug y). }
  destruct run as [out y]. cbn [fst snd] in *. walk.
Qed.

#[local] Instance on_command_reached f0 c :
  Preserves (reached f0) (fun x => (on_command env c x).2).
Proof. intros x Hx. unfold on_command. destruct c; walk. Qed.

End commands.

(** ** Entries *)

Lemma on_entry_floor (slug : bytes) (g : MarketEntry -> MarketEntry) x : floor (on_entry slug g x) = f_entry slug g (floor x).
Proof. by apply floor_eq. Qed.

Lemma alter_same (slug : bytes) (g : MarketEntry -> MarketEntry) (ms : gmap bytes MarketEntry) : (forall e, entry_same e (g e)) ->
  same_markets ms (alter g slug ms).
Proof.
  intros Hg k. destruct (decide (k = slug)) as [->|].
  - rewrite lookup_alter_eq. destruct (ms !! slug); by constructor.
  - rewrite lookup_alter_ne by done. destruct (ms !! k); by constructor.
Qed.

#[local] Instance on_entry_reached f0 (slug : bytes) (g : MarketEntry -> MarketEntry) : (forall e, entry_same e (g e)) ->
  Preserves (reached f0) (on_entry slug g).
Proof.
  intros Hg x Hx. eapply shard_reached_step; [exact Hx| |by split].
  rewrite on_entry_floor. by apply step_retouch, alter_same.
Qed.

#[local] Instance on_entries_reached f0 (g : MarketEntry -> MarketEntry) : (forall e, entry_same e (g e)) ->
  Preserves (reached f0) (on_entries g).
Proof.
  intros Hg x Hx. eapply shard_reached_step; [exact Hx| |by split].
  apply (step_retouch _ (floor x) (g <$> x.(markets))). intros k. rewrite lookup_fmap.
  cbn [floor f_markets]. destruct (x.(markets) !! k); by constructor.
Qed.

#[local] Instance refresh_reached f0 slug : Preserves (reached f0) (refresh_agreement slug).
Proof.
  intros x Hx. eapply shard_reached_step; [exact Hx| |].
  - rewrite refresh_floor. apply step_refresh.
  - unfold refresh_agreement. apply (shard_fold_case (background x)); [|done].
    intros i y Hy. etrans; [exact Hy|by split].
Qed.

(** Reached once the market's coverage has been asked for again. *)
Definition pending (f0 : Floor) (slug : bytes) (x : Shard) : Prop :=
  reached f0 (refresh_agreement slug x).

Lemma refresh_background slug x : background x (refresh_agreement slug x).
Proof.
  unfold refresh_agreement. apply (shard_fold_case (background x)); [|done].
  intros i y Hy. etrans; [exact Hy|by split].
Qed.

Lemma refresh_keeps slug x : (refresh_agreement slug x).(level_capacity) = x.(level_capacity) /\
  (refresh_agreement slug x).(notices) = x.(notices).
Proof. unfold refresh_agreement. by apply (shard_fold_case (fun y => y.(level_capacity) = _ /\ y.(notices) = _)). Qed.

(** Reached once the market's coverage has been asked for again, on the floor. *)
Lemma pending_iff f0 slug x : pending f0 slug x <->
  rtc floor_step f0 (f_refresh slug (floor x)) /\ settled (f_refresh slug (floor x)) /\
  0 <= x.(level_capacity).(level_capacity_value) /\ Forall brings x.(notices).
Proof.
  unfold pending. destruct (refresh_keeps slug x) as [El En].
  split; [intros []|intros (? & ? & ? & ?); split];
    rewrite ?refresh_floor, ?El, ?En in *; try done.
Qed.

#[local] Instance pending_of_floor f0 slug : OfFloor (pending f0 slug).
Proof.
  intros x y [Ef [El En]]. rewrite !pending_iff, Ef, El. naive_solver.
Qed.

Lemma pending_step f0 slug x y : pending f0 slug x ->
  floor_step (f_refresh slug (floor x)) (f_refresh slug (floor y)) ->
  background x y -> pending f0 slug y.
Proof.
  rewrite !pending_iff. intros (Hs & Hk & Hl & Hn) H [El En]. rewrite El.
  split_and!; [by eapply rtc_r|by eapply steps_settled, Hk; apply rtc_once|done|by apply En].
Qed.

#[local] Instance record_failure_pending f0 slug key : Preserves (pending f0 slug) (record_failure key).
Proof.
  intros x Hx. eapply pending_step; [exact Hx| |done]. rewrite floor_record_failure.
  eapply eq_rect; [apply (step_fail _ (f_refresh slug (floor x)))|by apply floor_eq].
  apply record_failure_flagged.
Qed.

Lemma covers_same ms ms' sh slug : same_markets ms ms' -> covers ms' sh slug = covers ms sh slug.
Proof.
  intros H. specialize (H slug). unfold covers.
  destruct (ms !! slug) as [e|], (ms' !! slug) as [e'|]; inversion H as [? ? Hs|]; try done.
  by rewrite (same_promotable e e'), (same_verdict e e').
Qed.

#[local] Instance on_entry_pending f0 (slug k : bytes) (g : MarketEntry -> MarketEntry) : (forall e, entry_same e (g e)) ->
  Preserves (pending f0 slug) (on_entry k g).
Proof.
  intros Hg x Hx. eapply pending_step; [exact Hx| |by split]. rewrite on_entry_floor.
  assert (Hs : same_markets x.(markets) (alter g k x.(markets))) by by apply alter_same.
  eapply eq_rect; [apply (step_retouch _ (f_refresh slug (floor x)) _ Hs)|].
  apply floor_eq; try done. cbn [f_minds f_refresh set f_entry f_markets floor].
  apply list_fmap_ext. intros i m _. by rewrite (covers_same _ _ _ _ Hs).
Qed.

(** *** One market's book *)

Lemma mutate_background {R} slug (change : MarketEntry -> R * MarketEntry) x :
  background x (mutate_market slug change x).2.
Proof.
  unfold mutate_market. destruct (x.(markets) !! slug) as [e|]; [|done].
  destruct (change e) as [r e']. by destruct (needs_recovery e), (needs_recovery e').
Qed.

(** A change to an entry that is a step once coverage has been asked for again. *)
Lemma mutate_pending {R} f0 slug (change : MarketEntry -> R * MarketEntry) x : reached f0 x ->
  floor_step (floor x) (f_refresh slug (f_entry slug (fun e => (change e).2) (floor x))) ->
  pending f0 slug (mutate_market slug change x).2.
Proof.
  intros Hx Hs. eapply shard_reached_step; [exact Hx| |].
  - rewrite refresh_floor, (proj1 (mutate_floor slug change x)). exact Hs.
  - etrans; [apply (mutate_background slug change x)|apply refresh_background].
Qed.

Lemma pending_refreshed f0 slug x : pending f0 slug x -> reached f0 (refresh_agreement slug x).
Proof. done. Qed.

#[local] Instance report_market_loss_reached f0 slug reason why :
  Preserves (reached f0) (report_market_loss env slug reason why).
Proof.
  intros x Hx. unfold report_market_loss.
  pose proof (mutate_pending f0 slug (lose_entry reason why) x Hx (step_lose _ _ _ _ _)) as Hp.
  destruct (mutate_market slug _ x) as [reported y]. cbn [snd] in Hp. cbv zeta.
  apply pending_refreshed. walk.
Qed.

Lemma settle_entry_same g v e : entry_same e (settle_entry g v e).
Proof. unfold settle_entry. destruct (claimed_by v e); [|done]. cbv zeta. by destruct (desired _). Qed.
Lemma hand_over_entry_same g v b e : entry_same e (hand_over_entry g v b e).
Proof. unfold hand_over_entry. destruct (claimed_by v e); [|done]. cbv zeta. by destruct (desired _). Qed.
Lemma reassign_entry_same from to e : entry_same e (reassign_entry_socket from to e).
Proof. unfold reassign_entry_socket. cbv zeta. by destruct (has_bit _ _). Qed.

#[local] Hint Extern 1 (Preserves (reached _) (on_entry _ _)) =>
  apply on_entry_reached; intros;
  first [apply settle_entry_same | apply hand_over_entry_same | by split] : typeclass_instances.
#[local] Hint Extern 1 (Preserves (reached _) (on_entries _)) =>
  apply on_entries_reached; intros; first [apply reassign_entry_same | by split] : typeclass_instances.
#[local] Hint Extern 1 (Preserves (pending _ _) (on_entry _ _)) =>
  apply on_entry_pending; intros; by split : typeclass_instances.

(** *** Walks *)

Lemma books_wf f0 x : reached f0 x -> map_Forall (fun _ e => book_wf (entry_book e)) x.(markets).
Proof.
  intros Hx. pose proof (so_entries _ (se_sound _ (r_settled _ _ Hx))) as H.
  intros slug e He. by apply (H slug e He).
Qed.

Lemma walk_reached f0 visit : keeping visit -> fair visit -> steady visit ->
  Preserves (reached f0) (walk_markets env visit).
Proof.
  intros Hk Hf Hs x Hx.
  destruct (walk_floor env hash_order_perm genuine arrivals_genuine visit x Hk (books_wf _ _ Hx))
    as (E & Hov & Hfail & Hb).
  eapply shard_reached_step; [exact Hx| |exact Hb]. rewrite E. by apply step_walk.
Qed.

Lemma clear_reached f0 visit x : keeping visit -> clearing visit -> reached f0 x ->
  reached f0 (retire_all_agreement (walk_markets env visit x)).
Proof.
  intros Hk Hc Hx.
  destruct (walk_floor env hash_order_perm genuine arrivals_genuine visit x Hk (books_wf _ _ Hx))
    as (E & Hov & Hfail & Hb).
  eapply shard_reached_step; [exact Hx| |by etrans; [exact Hb|by split]]. rewrite retire_all_floor, E.
  eapply eq_rect; [by apply (step_clear _ (floor x) visit (overflowed (walk_markets env visit x)))|].
  by apply floor_eq.
Qed.

#[local] Instance hand_back_reached f0 : Preserves (reached f0) (hand_back_to_publishing_slot env).
Proof.
  intros x Hx. unfold hand_back_to_publishing_slot. cbv zeta. set (running := match _ with Some a => _ | None => _ end).
  pose proof (walk_reached f0 _ (hand_back_keeps running) (hand_back_fair running) (hand_back_steady running)).
  walk.
Qed.

#[local] Instance report_shard_loss_reached f0 reason why :
  Preserves (reached f0) (report_shard_loss env reason why).
Proof.
  intros x Hx. unfold report_shard_loss. destruct x.(rail_loss_latched); [exact Hx|]. cbv zeta.
  set (y := x <| rail_loss_latched := true |>). assert (Hy : reached f0 y) by (subst y; walk).
  clearbody y. pose proof (clear_reached f0 _ y (shard_loss_keeps reason why)
    (shard_loss_clears reason why) Hy). walk.
Qed.

Lemma forget_floor i g x : (forall b, mind (g b) = (∅, ∅)) ->
  floor (on_standby i g x) = f_forget i (floor x).
Proof.
  intros Hg. apply floor_eq; try done. cbn [f_minds f_forget set floor].
  rewrite minds_on_standby. apply list_eq. intros j. destruct (decide (i = j)) as [->|].
  - rewrite !list_lookup_alter_eq, list_lookup_fmap. destruct (x.(standbys) !! j); [|done].
    simpl. by rewrite Hg.
  - by rewrite !list_lookup_alter_ne.
Qed.

Lemma forget_reached f0 i g : (forall b, mind (g b) = (∅, ∅)) ->
  Preserves (reached f0) (on_standby i g).
Proof.
  intros Hg x Hx. eapply shard_reached_step; [exact Hx| |by split].
  rewrite forget_floor by done. apply step_forget.
Qed.
#[local] Hint Extern 2 (Preserves (reached _) (on_standby _ _)) =>
  apply forget_reached; intros; reflexivity : typeclass_instances.

#[local] Instance report_rail_loss_reached f0 s reason why :
  Preserves (reached f0) (report_rail_loss env s reason why).
Proof. intros x Hx. unfold report_rail_loss. walk. Qed.

(** ** Frames *)

Lemma apply_to_market_reached f0 s slug c arrival taken : candidate_wf c ->
  Preserves (pending f0 slug) taken -> Preserves (reached f0) (apply_to_market env s slug c arrival taken).
Proof.
  intros Hc Ht x Hx. unfold apply_to_market.
  pose proof (mutate_pending f0 slug (apply_to_entry c) x Hx (step_apply _ _ _ _ Hc)) as Hp.
  destruct (mutate_floor slug (apply_to_entry c) x) as (Ef & Er & _).
  pose proof (mutate_background slug (apply_to_entry c) x) as Hb.
  destruct (mutate_market slug _ x) as [applied y]. cbn [fst snd] in *. cbv zeta.
  destruct applied as [[commit|err]|]; [apply pending_refreshed; walk| |by apply pending_refreshed].
  assert (Hy : reached f0 y); [|walk].
  apply (of_floor x); [|exact Hx]. split; [|exact Hb]. rewrite Ef.
  destruct (x.(markets) !! slug) as [e|] eqn:E; [|done]. simpl in Er. injection Er as Er.
  apply floor_eq; try done. cbn [f_entry f_markets set floor]. apply map_eq. intros k.
  destruct (decide (k = slug)) as [->|]; [|by rewrite lookup_alter_ne].
  rewrite lookup_alter_eq, E. simpl. f_equal.
  destruct (proj1 (writer_publishes_then_sends e.(writer)) c Hc) as [_ Hr].
  rewrite (apply_entry_eq c e Hr). unfold apply_to_entry in Er.
  by destruct (writer_apply_snapshot c e.(writer)) as [[|] ?].
Qed.

Lemma shard_build_provenance_wf m u n r c sub s x p :
  build_provenance m u n r c sub s x = Ok p -> provenance_wf p.
Proof.
  unfold build_provenance. intros E.
  destruct (transpose _) as [o|]; [|done].
  destruct (version_evidence u) as [v|]; [|done].
  set (kept := match v with Some e => _ | None => _ end) in E.
  destruct kept as [e|] eqn:Ee; [|done].
  assert (He : len e.(evidence_values) <= MAX_SOURCE_EVIDENCE).
  { subst kept. destruct v as [e'|]; simpl in Ee; unfold bounded_evidence_new in Ee; simpl in Ee;
      injection Ee as <-; simpl; vm_compute; discriminate. }
  destruct (connection_identity_new _ _) as [who|]; [|done].
  destruct (source_timestamp_new _) as [ts|]; [|done].
  by apply provenance_new_wf in E as [? _].
Qed.

Lemma with_candidate_reached f0 s m u n r sub refused k x : genuine u ->
  (forall key, Preserves (reached f0) (refused key)) ->
  (forall c, candidate_wf c -> Preserves (reached f0) (k c)) -> reached f0 x ->
  reached f0 (with_candidate env s m u n r sub refused k x).
Proof.
  intros Hu Hr Hk Hx. unfold with_candidate, with_now.
  apply (shard_ask_case _ _ (reached f0)); [apply _|exact Hx|]. intros e y Hy.
  destruct (build_provenance _ _ _ _ _ _ _ _) as [p|] eqn:Ep; [|walk].
  apply shard_build_provenance_wf in Ep. destruct (snapshot_candidate _ _ _) as [c|] eqn:Ec; [|walk].
  destruct (genuine_decoded u Hu) as (frame & Hf).
  destruct (snapshot_candidate_wf frame u p _ c Hf Ep (r_levels _ _ Hy) Ec) as [Hwf _].
  by apply (Hk c Hwf).
Qed.

#[local] Instance refuse_frame_reached f0 slug key : Preserves (reached f0) (refuse_frame env slug key).
Proof. intros x Hx. unfold refuse_frame. walk. Qed.

#[local] Instance apply_update_reached f0 u r a sub : genuine u ->
  Preserves (reached f0) (apply_update env u r a sub).
Proof.
  intros Hu x Hx. unfold apply_update. cbv zeta. destruct (x.(markets) !! _) as [e|]; [|walk].
  destruct (_ || _); [walk|]. destruct (checked_add_u64 _ _) as [at_|]; [|walk].
  apply with_candidate_reached; [done|apply _| |walk].
  intros c Hc. apply apply_to_market_reached; [done|]. by intros y.
Qed.

(** *** Shadows *)

Lemma covers_dropped ms sh slug : covers ms (delete slug sh) slug = false.
Proof.
  unfold covers. rewrite lookup_delete_eq. destruct (ms !! slug) as [e|]; [|done].
  unfold promotable. simpl. by rewrite andb_false_r.
Qed.

Lemma shadow_floor (i : nat) (slug : bytes) (o : option OrderBook) (x y : Shard) :
  (forall m, x.(standbys) !! i = Some m ->
     mind <$> y.(standbys) !! i = Some (partial_alter (fun _ => o) slug m.(shadows),
       mark slug (covers x.(markets) (partial_alter (fun _ => o) slug m.(shadows)) slug) m.(agreeing))) ->
  (forall j, j <> i -> y.(standbys) !! j = x.(standbys) !! j) ->
  length y.(standbys) = length x.(standbys) ->
  floor y = (floor x) <| f_minds := mind <$> y.(standbys) |> ->
  floor y = f_shadow i slug o (floor x).
Proof.
  intros Hi Hj Hl ->. apply floor_eq; try done. cbn [f_minds f_shadow set floor f_markets].
  apply list_eq. intros j. destruct (decide (j = i)) as [->|Hne].
  - rewrite list_lookup_alter_eq. change (const ?a ?b) with a. rewrite !list_lookup_fmap.
    destruct (x.(standbys) !! i) as [m|] eqn:E; [by apply Hi|].
    apply lookup_ge_None in E. rewrite <- Hl in E. apply lookup_ge_None in E. by rewrite E.
  - rewrite list_lookup_alter_ne by done. change (const ?a ?b) with a.
    by rewrite !list_lookup_fmap, Hj.
Qed.

#[local] Instance drop_shadow_reached f0 i slug : Preserves (reached f0) (drop_shadow i slug).
Proof.
  intros x Hx. eapply shard_reached_step; [exact Hx| |by split].
  rewrite (shadow_floor i slug None x (drop_shadow i slug x)); [apply step_shadow|..].
  - intros m Hm. unfold drop_shadow, on_standby. simpl. rewrite list_lookup_alter_eq, Hm. simpl.
    change (partial_alter (fun _ => None) slug m.(shadows)) with (delete slug m.(shadows)).
    by rewrite covers_dropped.
  - intros j Hj. unfold drop_shadow, on_standby. simpl. by rewrite list_lookup_alter_ne.
  - unfold drop_shadow, on_standby. simpl. by rewrite length_alter.
  - by apply floor_eq.
Qed.

#[local] Instance refuse_shadow_reached f0 i slug key : Preserves (reached f0) (refuse_shadow i slug key).
Proof. intros x Hx. unfold refuse_shadow. walk. Qed.

(** A shadow replaced or dropped, and its coverage asked for again. *)
Lemma set_shadow_reached f0 i slug (o : option OrderBook) (x : Shard) : reached f0 x ->
  reached f0 (refresh_shadow_agreement i slug
    (on_standby i (fun b => b <| shadows ::= partial_alter (fun _ => o) slug |>) x)).
Proof.
  intros Hx. eapply shard_reached_step; [exact Hx| |by split].
  match goal with |- floor_step _ (floor ?y) => rewrite (shadow_floor i slug o x y) end;
    [apply step_shadow|..]; clear Hx.
  - intros m Hm. unfold refresh_shadow_agreement, on_standby. simpl.
    rewrite agrees_covers. simpl. rewrite !list_lookup_alter_eq, Hm. simpl.
    unfold mind, mark. simpl. by destruct (covers _ _ _).
  - intros j Hj. unfold refresh_shadow_agreement, on_standby. simpl. by rewrite !list_lookup_alter_ne.
  - unfold refresh_shadow_agreement, on_standby. simpl. by rewrite !length_alter.
  - by apply floor_eq.
Qed.

Lemma apply_shadow_candidate_reached f0 i slug m c :
  Preserves (reached f0) (apply_shadow_candidate i slug m c).
Proof.
  intros x Hx. unfold apply_shadow_candidate. destruct (x.(standbys) !! i) as [b|]; [|exact Hx].
  destruct (apply_snapshot c _) as [[commit|err] sh]; cbv zeta.
  - pose proof (set_shadow_reached f0 i slug (Some sh) x Hx) as H.
    eapply of_floor; [|exact H]. split; [|by split]. by apply floor_eq.
  - assert (Hr : reached f0 (record_failure (book_error_key err) x)) by walk.
    exact (set_shadow_reached f0 i slug None _ Hr).
Qed.
#[local] Existing Instance apply_shadow_candidate_reached.

#[local] Instance shadow_pooled_reached f0 s slug m c : Preserves (reached f0) (shadow_pooled s slug m c).
Proof. intros x Hx. unfold shadow_pooled. walk. Qed.

#[local] Instance apply_shadow_update_reached f0 i u r sub : genuine u ->
  Preserves (reached f0) (apply_shadow_update env i u r sub).
Proof.
  intros Hu x Hx. unfold apply_shadow_update. cbv zeta. destruct (x.(markets) !! _) as [e|]; [|walk].
  destruct (negb _); [walk|]. destruct (checked_add_u64 _ _) as [at_|]; [|walk].
  apply with_candidate_reached; [done|apply _| |walk]. intros c Hc. apply _.
Qed.

(** *** The pool *)

#[local] Instance retire_pool_socket_reached f0 s : Preserves (reached f0) (retire_pool_socket s).
Proof. intros x Hx. unfold retire_pool_socket. walk. Qed.

#[local] Instance withdraw_licence_reached f0 r : Preserves (reached f0) (withdraw_licence env r).
Proof. intros x Hx. unfold withdraw_licence. walk. Qed.

#[local] Instance credit_quiet socket : Quiet (credit_pool_publication socket).
Proof. intros x. unfold credit_pool_publication. walk. Qed.

#[local] Instance publish_pooled_reached f0 s slug m c key a : candidate_wf c ->
  Preserves (reached f0) (publish_pooled env s slug m c key a).
Proof.
  intros Hc x Hx. unfold publish_pooled. cbv zeta. apply apply_to_market_reached; [done| |walk].
  intros y Hy. walk.
Qed.

#[local] Instance note_position_pending f0 k slug socket b :
  Preserves (pending f0 k) (note_pool_position slug socket b).
Proof. intros x Hx. unfold note_pool_position. walk. Qed.
#[local] Instance note_position_reached f0 slug socket b :
  Preserves (reached f0) (note_pool_position slug socket b).
Proof. intros x Hx. unfold note_pool_position. walk. Qed.

#[local] Instance recover_pooled_reached f0 s slug m c a : candidate_wf c ->
  Preserves (reached f0) (recover_pooled env s slug m c a).
Proof.
  intros Hc x Hx. unfold recover_pooled. cbv zeta. apply apply_to_market_reached; [done| |walk].
  intros y Hy. walk.
Qed.

#[local] Instance judge_pooled_reached f0 slug s key p :
  Preserves (reached f0) (fun x => (judge_pooled slug s key p x).2).
Proof.
  intros x Hx. unfold judge_pooled. destruct (x.(markets) !! slug) as [e|] eqn:E; [|exact Hx].
  destruct e.(gate) as [g|]; [|exact Hx]. cbv zeta. destruct (gate_admit _ _ _ _) as [v g']. cbn [snd].
  eapply shard_reached_step; [exact Hx| |by split].
  eapply eq_rect; [apply (step_retouch _ (floor x) (<[slug := e <| gate := Some g' |>]> x.(markets)))|
    by apply floor_eq].
  intros k. cbn [floor f_markets]. destruct (decide (k = slug)) as [->|].
  - rewrite lookup_insert_eq, E. by constructor.
  - rewrite lookup_insert_ne by done. destruct (x.(markets) !! k); by constructor.
Qed.

Lemma settle_pooled_reached f0 s slug m c key a : candidate_wf c ->
  Preserves (reached f0) (settle_pooled env s slug m c key a).
Proof.
  intros Hc x Hx. unfold settle_pooled.
  pose proof (publish_pooled_reached f0 s slug m c key a Hc).
  pose proof (recover_pooled_reached f0 s slug m c a Hc). walk.
Qed.

#[local] Instance apply_pooled_reached f0 s u r a sub : genuine u ->
  Preserves (reached f0) (apply_pooled env s u r a sub).
Proof.
  intros Hu x Hx. unfold apply_pooled. destruct (pool_licence x) as [[d n]|]; [|exact Hx]. cbv zeta.
  destruct (x.(markets) !! _) as [e|]; [|walk]. destruct (negb _); [walk|].
  destruct (checked_add_u64 _ _) as [at_|]; [|walk].
  apply with_candidate_reached; [done|apply _| |walk]. intros c Hc y Hy. cbv zeta.
  pose proof (fun key => settle_pooled_reached f0 s u.(market_slug) e.(market) c key a Hc). walk.
Qed.

(** *** Resolutions *)

#[local] Instance forward_resolution_reached f0 m r a sub : Preserves (reached f0)
  (forward_resolution env outcome_capacity type_capacity date_capacity m r a sub).
Proof.
  intros x Hx. unfold forward_resolution. cbv zeta. set (k := m.(Limitless.slug)).
  destruct (x.(markets) !! k) as [e|] eqn:E; [|walk].
  destruct (checked_add_u64 _ _) as [at_|]; [|walk].
  set (x1 := x <| position := at_ |>).
  unfold with_now. apply (shard_ask_case _ _ (fun y => reached f0 y /\ quiet x1 y)); [| |].
  { intros y [Hy Hxy]. pose proof (shard_asked_quiet y) as Hq. split; [by eapply of_floor|by etrans]. }
  { split; [subst x1; walk|reflexivity]. }
  intros ev y [Hy Hq].
  destruct (build_resolution _ _ _ _ _ _ _) as [res|]; [|walk].
  set (z := on_entry k _ y). assert (Hz : reached f0 z) by (subst z; walk).
  destruct (_ && _); [walk|].
  assert (Hk : z.(markets) !! k = Some (e <| latest_resolution := Some res |>)).
  { subst z. unfold on_entry. simpl. rewrite lookup_alter_eq.
    assert (Em : y.(markets) = x.(markets)) by apply (f_equal f_markets (q_floor _ _ Hq)).
    by rewrite Em, E. }
  assert (Hs : floor_step (floor z) (floor (on_entry k (fun entry : MarketEntry =>
    entry <| writer := (writer_publish_resolution res e.(writer)).2 |>) z))).
  { eapply eq_rect; [apply (step_resolve _ (floor z) k res)|]. rewrite on_entry_floor.
    apply floor_eq; try done. cbn [f_entry f_markets set floor]. apply map_eq. intros j.
    destruct (decide (j = k)) as [->|]; [|by rewrite !lookup_alter_ne by done].
    by rewrite !lookup_alter_eq, Hk. }
  destruct (writer_publish_resolution res e.(writer)) as [delivered w]. cbn [snd] in Hs.
  assert (Hw : reached f0 (on_entry k (fun entry : MarketEntry => entry <| writer := w |>) z)).
  { eapply shard_reached_step; [exact Hz|exact Hs|by split]. }
  walk.
Qed.

(** ** Events and notices *)

Lemma on_event_reached f0 s ev r n sub :
  (match ev with OrderbookUpdateEvent u => genuine u | _ => True end) ->
  Preserves (reached f0) (on_event env outcome_capacity type_capacity date_capacity s ev r n sub).
Proof.
  intros He x Hx. unfold on_event. destruct ev as [u|m|name]; [|walk..].
  pose proof (fun a => apply_update_reached f0 u r a sub He).
  pose proof (fun a => apply_pooled_reached f0 s u r a sub He).
  pose proof (fun i => apply_shadow_update_reached f0 i u r sub He). walk.
Qed.

#[local] Instance await_bases_quiet : Quiet (await_bases env).
Proof. intros x. unfold await_bases. walk. Qed.

#[local] Instance settle_dial_reached f0 s : Preserves (reached f0) (settle_dial s).
Proof. intros x Hx. unfold settle_dial. walk. Qed.

#[local] Instance note_heartbeat_quiet s n : Quiet (note_heartbeat s n).
Proof. intros x. unfold note_heartbeat. walk. Qed.

#[local] Instance on_notice_reached f0 n : brings n ->
  Preserves (reached f0) (on_notice env outcome_capacity type_capacity date_capacity n).
Proof.
  intros Hn x Hx. unfold on_notice. destruct (slot_of x _) as [s|]; [|walk].
  unfold ShardFloor.brings in Hn. destruct n.(note); [walk|walk|walk| |walk|walk].
  cbv zeta. pose proof (fun r a t => on_event_reached f0 s event r a t Hn). walk.
Qed.

(** ** Connections that end *)

#[local] Instance schedule_quiet s : Quiet (schedule_reconnect env hash_one s).
Proof. intros x. unfold schedule_reconnect. walk. Qed.

#[local] Instance release_fenced_quiet s : Quiet (release_fenced s).
Proof. intros x. unfold release_fenced. walk. Qed.

#[local] Instance fence_quiet s a : Quiet (fence env s a).
Proof. intros x. unfold fence. walk. Qed.

#[local] Instance count_standby_end_quiet r : Quiet (count_standby_end r).
Proof. intros x. unfold count_standby_end. walk. Qed.

#[local] Instance on_connection_ended_reached f0 r l :
  Preserves (reached f0) (on_connection_ended env hash_one r l).
Proof.
  intros x Hx. unfold on_connection_ended. cbv zeta. destruct (end_reason_mapping r) as [c a].
  set (y := close_unwanted env _). assert (Hy : reached f0 y) by (subst y; walk). clearbody y.
  pose proof (clear_reached f0 _ y (connection_ended_keeps y.(config).(sc_max_recovery_attempts) c a)
    (connection_ended_clears y.(config).(sc_max_recovery_attempts) c a) Hy). walk.
Qed.

#[local] Instance on_standby_ended_reached f0 i r l :
  Preserves (reached f0) (on_standby_ended env hash_one i r l).
Proof. intros x Hx. unfold on_standby_ended. walk. Qed.

#[local] Instance lost_coverage_reached f0 s r :
  Preserves (reached f0) (report_lost_pool_coverage env s r).
Proof.
  intros x Hx. unfold report_lost_pool_coverage.
  apply (shard_ask_case _ _ (reached f0)); [apply _|exact Hx|]. intros e y Hy. cbv zeta.
  destruct (end_reason_mapping r) as [c a].
  set (z := if bool_decide (s = Primary) then _ else y).
  assert (Hz : reached f0 z) by (subst z; walk). clearbody z.
  by apply walk_reached; [apply lost_coverage_keeps|apply lost_coverage_fair|apply lost_coverage_steady|].
Qed.

(** *** A standby that takes the publishing slot

    Its shadows are gone before the books are walked, its agreement only after: until then
    the floor is reached but for what that standby knows. *)

Record hushed (i : nat) (f0 : Floor) (x : Shard) : Prop := {
  h_steps : exists f, rtc floor_step f0 f /\ settled f /\ f_forget i f = f_forget i (floor x);
  h_levels : 0 <= x.(level_capacity).(level_capacity_value);
  h_notices : Forall brings x.(notices)
}.

#[local] Instance hushed_of_floor i f0 : OfFloor (hushed i f0).
Proof.
  intros x y [Ef [El En]] [Hs Hl Hn]. split; [by rewrite Ef | by rewrite El | by apply En].
Qed.

Lemma hushed_step i f0 g x y : hushed i f0 x -> background x y ->
  (forall f, settled f -> f_forget i f = f_forget i (floor x) -> rtc floor_step f (g f)) ->
  (forall f, f_forget i (g f) = g (f_forget i f)) -> floor y = g (floor x) -> hushed i f0 y.
Proof.
  intros [(f & Hs & Hk & E) Hl Hn] [El En] Hg Hc Ey. split; [|by rewrite El|by apply En].
  exists (g f). pose proof (Hg f Hk E) as H. split; [by etrans|]. split; [by eapply steps_settled|].
  by rewrite Ey, !Hc, E.
Qed.

Lemma hushed_starts i f0 x : reached f0 x ->
  hushed i f0 (on_standby i (fun b => b <| shadows := ∅ |>) x).
Proof.
  intros [Hs Hk Hl Hn]. split; [|done..]. exists (floor x). split_and!; try done.
  apply floor_eq; try done. cbn [f_minds f_forget set floor]. rewrite minds_on_standby.
  apply list_eq. intros j. destruct (decide (i = j)) as [->|].
  - rewrite !list_lookup_alter_eq, !list_lookup_fmap. by destruct (x.(standbys) !! j).
  - by rewrite !list_lookup_alter_ne by done.
Qed.

Lemma hushed_ends i f0 g x : (forall b, mind (g b) = (∅, ∅)) -> hushed i f0 x ->
  reached f0 (on_standby i g x).
Proof.
  intros Hg [(f & Hs & Hk & E) Hl Hn].
  assert (H : floor (on_standby i g x) = f_forget i f) by (by rewrite forget_floor, E).
  split; [| |done..]; rewrite H.
  - eapply rtc_r; [exact Hs|apply step_forget].
  - eapply (steps_settled commanded); [apply rtc_once, step_forget|exact Hk].
Qed.

Lemma alter_fmap_forget (i : nat) (g : Mind -> Mind) (l : list Mind) : g (∅, ∅) = (∅, ∅) ->
  alter (fun _ : Mind => (∅, ∅)) i (g <$> l) = g <$> alter (fun _ : Mind => (∅, ∅)) i l.
Proof.
  intros Hg. apply list_eq. intros j. rewrite list_lookup_fmap.
  destruct (decide (i = j)) as [->|].
  - rewrite !list_lookup_alter_eq, list_lookup_fmap. destruct (l !! j); [|done]. simpl. by rewrite Hg.
  - by rewrite !list_lookup_alter_ne, list_lookup_fmap by done.
Qed.

Lemma forget_close i slug f : f_forget i (f_close slug f) = f_close slug (f_forget i f).
Proof.
  unfold f_close. change ((f_forget i f).(f_markets)) with f.(f_markets).
  destruct (f.(f_markets) !! slug) as [e|]; [|done]. apply floor_eq; try done.
  cbn [f_minds f_forget set]. apply alter_fmap_forget. cbn [fst snd].
  rewrite delete_empty. f_equal. apply set_eq. set_solver.
Qed.

Lemma forget_walk i visit f : f_forget i (f_walk visit f) = f_walk visit (f_forget i f).
Proof.
  apply floor_eq; try done. cbn [f_minds f_forget f_walk f_retire set f_markets].
  by apply alter_fmap_forget.
Qed.

Lemma forget_overflowed i f g : f_forget i f = f_forget i g -> f.(f_overflowed) = g.(f_overflowed) /\
  f.(f_markets) = g.(f_markets).
Proof.
  intros E. split; [exact (f_equal f_overflowed E)|exact (f_equal f_markets E)].
Qed.

Lemma close_hushed i f0 slug x : f_unwanted slug (floor x) ->
  hushed i f0 x -> hushed i f0 (close env slug x).2.
Proof.
  intros Hu Hx. destruct (close_floor env genuine arrivals_genuine slug x) as [(E & Hf & Hb) _].
  eapply (hushed_step i f0 (fun f => (f_close slug f) <| f_overflowed := _ |>)); [exact Hx|exact Hb| | |exact E].
  - intros f _ [Eo Em]%forget_overflowed.
    eapply rtc_l; [apply step_close; right; intros e; rewrite Em; apply Hu|]. apply rtc_once, step_fail.
    rewrite (blind_kept _ _ (f_close_blind slug)), Eo. exact Hf.
  - intros f. rewrite <- forget_close. by apply floor_eq.
Qed.

#[local] Instance close_unwanted_hushed i f0 : Preserves (hushed i f0) (close_unwanted env).
Proof.
  intros x Hx. apply (close_unwanted_case (hushed i f0)); [|exact Hx].
  intros slug y Hu. by apply close_hushed.
Qed.

Lemma walk_hushed i f0 visit : keeping visit -> fair visit -> steady visit ->
  Preserves (hushed i f0) (walk_markets env visit).
Proof.
  intros Hk Hf Hs x Hx.
  assert (Hwf : map_Forall (fun _ e => book_wf (entry_book e)) x.(markets)).
  { destruct (h_steps _ _ _ Hx) as (f & _ & [Hso _] & [_ E]%forget_overflowed).
    cbn [floor f_markets] in E. rewrite <- E. intros slug e He. by apply (so_entries _ Hso slug e). }
  destruct (walk_floor env hash_order_perm genuine arrivals_genuine visit x Hk Hwf) as (E & Hov & Hfail & Hb).
  eapply (hushed_step i f0 (fun f => (f_walk visit f) <| f_overflowed := _ |>)); [exact Hx|exact Hb| | |exact E].
  - intros f _ [Eo Em]%forget_overflowed. apply rtc_once, step_walk; [done..| |].
    + rewrite Eo. exact Hov.
    + rewrite Em. exact Hfail.
  - intros f. rewrite <- forget_walk. by apply floor_eq.
Qed.

#[local] Instance apply_promotions_hushed i f0 g v l sh r b :
  Preserves (hushed i f0) (apply_promotions env g v l sh r b).
Proof.
  intros x Hx. unfold apply_promotions. cbv zeta. set (y := close_unwanted env x).
  assert (Hy : hushed i f0 y) by (subst y; walk).
  by apply walk_hushed; [apply promotion_keeps|apply promotion_fair|apply promotion_steady|].
Qed.

#[local] Instance occupy_quiet i a : Quiet (occupy_primary i a).
Proof. intros x. unfold occupy_primary. walk. Qed.

Lemma vacate_hushed i f0 l x : hushed i f0 x -> reached f0 (vacate_standby env hash_one i l x).
Proof.
  intros Hx. unfold vacate_standby. cbv zeta. set (y := release_fenced _ x).
  assert (Hy : hushed i f0 y) by (subst y; walk). clearbody y.
  pose proof (hushed_ends i f0 (fun b => forget_shadows b <| sb_slot ::= fun t =>
    advance_backoff l y (t <| active := None |> <| dialled_version := None |> <| wire_version := 0 |>) |>)
    y (fun _ => eq_refl) Hy). walk.
Qed.

#[local] Instance vacate_reached f0 i l : Preserves (reached f0) (vacate_standby env hash_one i l).
Proof. intros x Hx. unfold vacate_standby. walk. Qed.

#[local] Instance switch_source_reached f0 i r b :
  Preserves (reached f0) (fun x => (switch_source env hash_one i r b x).2).
Proof.
  intros x Hx. unfold switch_source.
  apply (shard_ask_case _ (fun r => reached f0 r.2) (reached f0)); [apply _|exact Hx|]. intros e y Hy.
  destruct (negb _); [exact Hy|]. destruct (y.(standbys) !! i) as [b0|]; [|exact Hy].
  destruct b0.(sb_slot).(active) as [a|]; [|exact Hy]. cbn [snd]. unfold with_now.
  apply (shard_ask_case _ _ (reached f0)); [apply _|exact Hy|]. intros e' z Hz. cbv zeta.
  pose proof (hushed_starts i f0 z Hz) as Hh. set (z1 := on_standby i _ z) in *. clearbody z1.
  set (z2 := apply_promotions _ _ _ _ _ _ _ _). assert (H2 : hushed i f0 z2) by (subst z2; walk).
  clearbody z2. apply (vacate_hushed _ _ (saturating_duration_since e'.(now) a.(spawned_at))) in H2. walk.
Qed.

Lemma promote_among_reached f0 l r b :
  Preserves (reached f0) (fun x => (promote_among env hash_one l r b x).2).
Proof.
  induction l as [|i l IH]; intros x Hx; [exact Hx|]. cbn [promote_among]. walk.
Qed.
#[local] Existing Instance promote_among_reached.

#[local] Instance promote_reached f0 r b :
  Preserves (reached f0) (fun x => (promote_a_standby env hash_one r b x).2).
Proof. intros x Hx. unfold promote_a_standby. walk. Qed.

#[local] Instance move_history_reached f0 m n : Preserves (reached f0) (move_socket_history m n).
Proof. intros x Hx. unfold move_socket_history. walk. Qed.

#[local] Instance take_publishing_reached f0 :
  Preserves (reached f0) (fun x => (take_publishing_slot env hash_one x).2).
Proof. intros x Hx. unfold take_publishing_slot. walk. Qed.

#[local] Instance on_pool_slot_ended_reached f0 s r l b h :
  Preserves (reached f0) (on_pool_slot_ended env hash_one s r l b h).
Proof. intros x Hx. unfold on_pool_slot_ended. walk. Qed.

#[local] Instance on_slot_ended_reached f0 s r b l :
  Preserves (reached f0) (on_slot_ended env hash_one s r b l).
Proof. intros x Hx. unfold on_slot_ended. walk. Qed.

#[local] Instance on_ended_reached f0 s r : Preserves (reached f0) (on_ended env hash_one s r).
Proof. intros x Hx. unfold on_ended. walk. Qed.

(** ** The run *)

#[local] Instance each_slot_reached f0 (f : Slot -> Shard -> Shard) :
  (forall s, Preserves (reached f0) (f s)) -> Preserves (reached f0) (each_slot f).
Proof. intros Hf x Hx. unfold each_slot. walk. Qed.

#[local] Instance replace_connection_reached f0 s a :
  Preserves (reached f0) (replace_connection env hash_one s a).
Proof. intros x Hx. unfold replace_connection. walk. Qed.

#[local] Instance reconcile_slot_reached f0 s : Preserves (reached f0) (reconcile_slot env hash_one s).
Proof. intros x Hx. unfold reconcile_slot. walk. Qed.

#[local] Instance arm_reissue_quiet : Quiet (arm_reissue env).
Proof. intros x. unfold arm_reissue. walk. Qed.

#[local] Instance emit_reissue_quiet : Quiet (emit_reissue env).
Proof. intros x. unfold emit_reissue. walk. Qed.

#[local] Instance escalate_reached f0 : Preserves (reached f0) (escalate_reissue env hash_one).
Proof. intros x Hx. unfold escalate_reissue. walk. Qed.

(** *** The queue *)

Lemma shard_take_notice_reached f0 x n rest : reached f0 x -> x.(notices) = n :: rest ->
  brings n /\ reached f0 (x <| notices := rest |>).
Proof.
  intros [Hs Hk Hl Hn] E. rewrite E in Hn. apply Forall_cons in Hn as [Hn Hr].
  split; [done|]. by split.
Qed.

Lemma shard_try_recv_reached f0 x : reached f0 x ->
  let r := try_recv_notice env x in
  reached f0 r.2 /\ (forall n, r.1 = Some n -> brings n).
Proof.
  intros Hx. unfold try_recv_notice.
  apply (shard_ask_case _ (fun r => reached f0 r.2 /\ (forall n, r.1 = Some n -> brings n)) (reached f0));
    [apply _|exact Hx|]. intros _ y Hy.
  destruct y.(notices) as [|n rest] eqn:E; [by split|].
  destruct (shard_take_notice_reached f0 y n rest Hy E) as [Hn Hr]. split; [exact Hr|]. by intros ? [= <-].
Qed.

#[local] Instance drain_reached f0 k :
  Preserves (reached f0) (drain_notices env outcome_capacity type_capacity date_capacity k).
Proof.
  induction k as [|k IH]; intros x Hx; [exact Hx|]. cbn [drain_notices].
  destruct (shard_try_recv_reached f0 x Hx) as [H1 H2].
  destruct (try_recv_notice env x) as [[n|] y]; [|exact H1].
  apply IH, on_notice_reached; [by apply H2|exact H1].
Qed.

Lemma shard_stage_reached f0 k l x : reached f0 x -> Forall brings l ->
  let r := stage_notices env k l x in reached f0 r.2 /\ Forall brings r.1.
Proof.
  revert l x. induction k as [|k IH]; intros l x Hx Hl; [done|]. cbn [stage_notices].
  destruct (shard_try_recv_reached f0 x Hx) as [H1 H2].
  destruct (try_recv_notice env x) as [[n|] y]; [|done].
  apply IH; [exact H1|]. apply Forall_app. split; [done|]. by apply Forall_singleton, H2.
Qed.

Lemma shard_notices_reached f0 l x : Forall brings l -> reached f0 x ->
  reached f0 (fold_left (fun self n =>
    on_notice env outcome_capacity type_capacity date_capacity n self) l x).
Proof.
  revert x. induction l as [|n l IH]; intros x Hl Hx; [exact Hx|].
  apply Forall_cons in Hl as [Hn Hl]. apply IH; [done|]. by apply on_notice_reached.
Qed.

Lemma filter_brings (Q : ConnectionNotice -> Prop) `{!forall n, Decision (Q n)} l :
  Forall brings l -> Forall brings (filter Q l).
Proof. rewrite !Forall_forall. intros Hl n [_ Hn]%list_elem_of_filter. by apply Hl. Qed.

#[local] Instance on_reissue_due_reached f0 : Preserves (reached f0)
  (on_reissue_due env hash_one outcome_capacity type_capacity date_capacity).
Proof. intros x Hx. unfold on_reissue_due, drain_queued. walk. Qed.

#[local] Instance fence_if_expired_reached f0 s : Preserves (reached f0) (fence_if_expired env hash_one s).
Proof. intros x Hx. unfold fence_if_expired. walk. Qed.

#[local] Instance on_heartbeat_missed_reached f0 s : Preserves (reached f0)
  (on_heartbeat_missed env hash_one outcome_capacity type_capacity date_capacity s).
Proof.
  intros x Hx. unfold on_heartbeat_missed. destruct (active_of x s) as [a|]; [|exact Hx].
  destruct (shard_stage_reached f0 (ingest_capacity x) [] x Hx ltac:(done)) as [H1 H2].
  destruct (stage_notices _ _ _ _) as [staged y]. cbn [fst snd] in *. cbv zeta.
  apply shard_notices_reached; [by apply filter_brings|].
  set (z := fold_left _ _ y). assert (Hz : reached f0 z)
    by (apply shard_notices_reached; [by apply filter_brings|exact H1]). clearbody z. walk.
Qed.

(** *** Connecting *)

#[local] Instance spawn_slot_reached f0 s : Preserves (reached f0) (spawn_slot env s).
Proof. intros x Hx. unfold spawn_slot. walk. Qed.

#[local] Instance shed_slot_quiet s : Quiet (fun x => (shed_slot s x).2).
Proof. intros x. unfold shed_slot. walk. Qed.

Lemma forget_all_steps f n : rtc floor_step f
  (f <| f_minds ::= imap (fun i (m : Mind) => if (i <? n)%nat then (∅, ∅) else m) |>).
Proof.
  induction n as [|n IH].
  - eapply eq_rect; [apply rtc_refl|]. apply floor_eq; try done. cbn [f_minds set].
    apply list_eq. intros i. rewrite list_lookup_imap. by destruct (_ !! i).
  - eapply rtc_r; [exact IH|]. eapply eq_rect; [apply (step_forget _ _ n)|].
    apply floor_eq; try done. cbn [f_minds f_forget set]. apply list_eq. intros i.
    destruct (decide (n = i)) as [->|Hne].
    + rewrite list_lookup_alter_eq, !list_lookup_imap. destruct (_ !! i); [|done]. simpl.
      by rewrite (proj2 (Nat.ltb_lt i (S i))) by lia.
    + rewrite list_lookup_alter_ne by done. rewrite !list_lookup_imap. destruct (_ !! i); [|done].
      simpl. destruct (Nat.ltb_spec i n), (Nat.ltb_spec i (S n)); done || lia.
Qed.

Lemma forget_all_reached f0 x : reached f0 x -> reached f0 (x <| standbys ::= fmap forget_shadows |>).
Proof.
  intros Hx. eapply reached_steps; [exact Hx| |by split].
  eapply eq_rect; [apply (forget_all_steps (floor x) (length x.(standbys)))|].
  apply floor_eq; try done. cbn [f_minds set floor]. apply list_eq. intros i.
  rewrite list_lookup_imap. cbn [standbys set]. rewrite !list_lookup_fmap.
  destruct (x.(standbys) !! i) as [b|] eqn:E; [|done]. simpl.
  apply lookup_lt_Some in E. by rewrite (proj2 (Nat.ltb_lt i _)).
Qed.

#[local] Instance shed_idle_reached f0 : Preserves (reached f0) (shed_idle_connection env).
Proof.
  intros x Hx. unfold shed_idle_connection. destruct (0 <? _); [exact Hx|].
  set (run := fold_left _ _ _). assert (Hr : reached f0 run.2).
  { subst run. apply (shard_fold_case (fun r => reached f0 r.2)); [|exact Hx]. intros s [had y] Hy.
    cbn [fst snd] in *. pose proof (shed_slot_quiet s y) as Hq. cbv beta in Hq.
    destruct (shed_slot s y) as [held z]. cbn [snd] in *. by eapply of_floor. }
  destruct run as [had y]. cbn [snd] in Hr. cbv zeta. apply forget_all_reached in Hr. walk.
Qed.

#[local] Instance prepare_reached f0 : Preserves (reached f0) (prepare env hash_one).
Proof.
  intros x Hx. unfold prepare, spawn_due, reconcile_set, stall_ingest. walk.
Qed.

#[local] Instance finish_slot_reached f0 s : Preserves (reached f0) (finish_slot s).
Proof. intros x Hx. unfold finish_slot. walk. Qed.

#[local] Instance finish_reached f0 : Preserves (reached f0) (finish env).
Proof. intros x Hx. unfold finish. walk. Qed.

(** The wake an operator's command is. *)
Definition is_command (w : Wake) : bool := match w with Commanded _ => true | _ => false end.

Lemma shard_on_wake_reached f0 x w y : (is_command w = true -> commanded = true) ->
  wakes_with x w y -> reached f0 x ->
  reached f0 (on_wake env hash_one outcome_capacity type_capacity date_capacity w y).
Proof.
  intros Hc Hw Hx. destruct Hw; cbn [on_wake]; try walk; [|by apply on_command_reached; [apply Hc|]].
  destruct (shard_take_notice_reached f0 self n rest Hx ltac:(done)) as [Hn Hr].
  by apply on_notice_reached.
Qed.

Lemma shard_turn_reached f0 x y : commanded = true ->
  turn env hash_one outcome_capacity type_capacity date_capacity x y -> reached f0 x -> reached f0 y.
Proof.
  intros Hc [x' w woken _ Hw] Hx. eapply shard_on_wake_reached; [done|exact Hw|].
  apply (shard_ask_case _ _ (reached f0)); [apply _|walk|done].
Qed.

Lemma shard_run_reached f0 x y : commanded = true ->
  rtc (turn env hash_one outcome_capacity type_capacity date_capacity) x y ->
  reached f0 x -> reached f0 y.
Proof. intros Hc. induction 1; [done|]. intros Hx. eauto using shard_turn_reached. Qed.

(** *** Starting *)

#[local] Instance install_resident_quiet slugs sink :
  Quiet (fun x => (install_resident env slugs sink x).2).
Proof.
  intros x. revert sink x. induction slugs as [|slug slugs IH]; intros sink x; [done|].
  cbn [install_resident]. destruct (x.(markets) !! slug) as [e|]; [|apply IH].
  rewrite shard_ask_eq. pose proof (shard_asked_quiet x) as Hq. destruct (sink_install _ _ _ _) as [[[]|] sink'];
    [|exact Hq]. etrans; [exact Hq|apply IH].
Qed.

End sim.
