(* ===== verification/ShardEnds.v ===== *)
(** * What the end of a connection leaves

    The markets of a shard once the connection that fed them is gone: which stay live, on
    whose word, and which do not. *)

From stdpp Require Import gmap relations.
From S2P Require Import Prelude OrdMap Identity Descriptor DedupKey Continuity Observation Book BookProps Digest Pool Channel Observer ObserverProps Session Limitless Pacing Connection QueueAge ShmWriter Supervisor ShardMarket Shard ShardFloor ShardInv ShardSim.

(** ** One entry *)

Section entry.
Context `{RB : Broadcast StreamDelivery} `{!BroadcastLaws RB} `{WP : Watch PublishedBook}
  `{!WatchLaws WP}.

Lemma baseless_not_live slug e : entry_ok slug e -> e.(base_accepted) = false -> live e = false.
Proof.
  intros Hok Hb. destruct (live e) eqn:E; [|done]. pose proof (eo_based _ _ Hok E). congruence.
Qed.

(** A book whose only connection ended is down, if its loss could be told. *)
Lemma connection_ended_down attempts reason why slug e : entry_ok slug e ->
  let r := visit_connection_ended attempts reason why slug e in
  ~ failed r.2 -> live r.1 = false.
Proof.
  intros Hok r. subst r. unfold visit_connection_ended. destruct (negb _) eqn:En.
  - intros _. cbn [fst]. apply negb_true_iff, orb_false_iff in En as [En _].
    rewrite <- (baseless_not_live slug e Hok En). by apply live_writer.
  - destruct (rail_end_keeps attempts reason why untouched e (spend_attempt (unsubscribed e)))
      as (_ & Hl & _); [apply Hok|by split|]. exact Hl.
Qed.

(** A book that outlives a promotion is one the shadow agreed with, left as it was. *)
Lemma promotion_live attempts g version carried shadows ended lossy slug e : entry_ok slug e ->
  let r := visit_promotion attempts g version carried shadows ended lossy slug e in
  ~ failed r.2 -> live r.1 = true ->
  r.1.(writer) = e.(writer) /\ lossy = false /\
  promotable e (shadow_verdict e (shadows !! slug)) = true.
Proof.
  intros Hok r. subst r. unfold visit_promotion.
  set (subscribed := _ && claimed_by _ _). destruct (_ && promotable _ _) eqn:Ee.
  - apply andb_true_iff in Ee as [Hl%negb_true_iff Hp]. by intros _ _.
  - set (e0 := spend_attempt _). destruct (negb (_ || _)) eqn:En.
    + intros _ Hl. cbn [fst] in Hl. exfalso.
      apply negb_true_iff, orb_false_iff in En as [En _].
      assert (Hf : live e = false) by (by apply (baseless_not_live slug e)).
      rewrite (live_writer e e0 eq_refl) in Hl. congruence.
    + destruct (rail_end_keeps attempts Reconnect
        (if lossy then AOverload else refusal_reason (shadow_verdict e (shadows !! slug)) ended)
        (untouched <| v_retired := true |> <| v_refused := true |>) e (lost_base e0))
        as (_ & Hl & _); [apply Hok|by split|]. intros Hf Hv. by rewrite Hl in Hv.
Qed.

(** A book a pool keeps live is one a surviving socket carries. *)
Lemma lost_coverage_live attempts p survivors reason why slug e : entry_ok slug e ->
  let r := visit_lost_coverage attempts p survivors reason why slug e in
  ~ failed r.2 -> live r.1 = true ->
  r.1.(writer) = e.(writer) /\ existsb (fun carried => binary_search carried slug) survivors = true.
Proof.
  intros Hok r. subst r. unfold visit_lost_coverage. set (e0 := if p then unsubscribed e else e).
  assert (Hs : entry_same e e0) by (subst e0; by destruct p; split).
  destruct (existsb _ _); [intros _ _; split; [apply Hs|done]|]. cbv zeta.
  assert (Hs' : entry_same e (spend_attempt e0)) by (by etrans; [|apply spend_attempt_same]).
  destruct (negb _) eqn:En.
  - intros _ Hl. exfalso. cbn [fst] in Hl. apply negb_true_iff, orb_false_iff in En as [En _].
    rewrite (es_based _ _ Hs') in En. pose proof (baseless_not_live slug e Hok En) as Hf.
    rewrite (live_writer e _ (es_writer _ _ Hs')) in Hl. congruence.
  - destruct (rail_end_keeps attempts reason why (untouched <| v_retired := true |>) e (spend_attempt e0))
      as (_ & Hl & _); [apply Hok|done|]. intros Hf Hv. by rewrite Hl in Hv.
Qed.

End entry.

Section ends.
Context `{RB : Broadcast StreamDelivery} `{!BroadcastLaws RB} `{WP : Watch PublishedBook}
  `{!WatchLaws WP} `{SS : ShardSink}.
Variable env : nat -> ShardEnv.
Variable hash_one : nat -> Z -> Z.
Hypothesis hash_order_perm : forall t l, (env t).(hash_order) l ≡ₚ l.
Variable genuine : OrderbookUpdate -> Prop.
Hypothesis arrivals_genuine : forall t, Forall (brings genuine) (env t).(arrivals).

#[local] Hint Extern 0 => lazymatch goal with |- forall t, Forall _ _ => eassumption end : typeclass_instances.
#[local] Existing Instances quiet_preorder of_floor_waits quiet_of_floor quiet_preserves recount_quiet schedule_quiet release_fenced_quiet
  fence_quiet count_standby_end_quiet occupy_quiet.

(** ** Markets that are only lost *)

Definition books_ok (x : Shard) : Prop := map_Forall entry_ok x.(markets).

(** Between [x] and [y] no book came to life and none that is live moved. *)
Record less (x y : Shard) : Prop := {
  le_ok : books_ok y;
  le_flag : flagged x y;
  le_live slug e' : y.(markets) !! slug = Some e' -> live e' = true ->
    exists e, x.(markets) !! slug = Some e /\ e'.(writer) = e.(writer)
}.

Lemma less_refl x : books_ok x -> less x x.
Proof. intros H. split; [done|by intros ?|]. intros slug e He _. by exists e. Qed.

Lemma less_trans x y z : less x y -> less y z -> less x z.
Proof.
  intros [_ Hf Hl] [Hok Hf' Hl']. split; [done|intros Ho; by apply Hf', Hf|].
  intros slug e'' He'' Hlive. destruct (Hl' _ _ He'' Hlive) as (e' & He' & Ew).
  rewrite (live_writer e' e'' Ew) in Hlive.
  destruct (Hl _ _ He' Hlive) as (e & He & Ew'). exists e. split; [done|congruence].
Qed.

(** A handler that only loses. *)
Class Lessens (f : Shard -> Shard) := lessens x : books_ok x -> less x (f x).

#[local] Instance lessens_preserves x f : Lessens f -> Preserves (less x) f.
Proof. intros Hf y Hy. eapply less_trans; [exact Hy|]. apply Hf, Hy. Qed.

Lemma same_floor_less x y : (floor y).(f_markets) = (floor x).(f_markets) -> flagged x y ->
  books_ok x -> less x y.
Proof.
  intros Em Hf Hx. cbn [floor f_markets] in Em. split; [unfold books_ok; by rewrite Em|done|].
  intros slug e He _. rewrite Em in He. by exists e.
Qed.

#[local] Instance quiet_lessens f : Quiet genuine f -> Lessens f.
Proof.
  intros Hf x Hx. destruct (Hf x) as [Ef _]. apply same_floor_less; [by rewrite Ef| |done].
  unfold flagged. change (overflowed (f x)) with (floor (f x)).(f_overflowed). by rewrite Ef.
Qed.

#[local] Instance less_of_floor x : OfFloor genuine (less x).
Proof.
  intros y z [Ef _] Hy. eapply less_trans; [exact Hy|]. apply same_floor_less; [by rewrite Ef| |apply Hy].
  unfold flagged. change (overflowed z) with (floor z).(f_overflowed). by rewrite Ef.
Qed.

#[local] Instance on_standby_lessens i g : Lessens (on_standby i g).
Proof. intros x Hx. by apply same_floor_less; [|intros ?|]. Qed.
#[local] Instance on_slot_lessens s g : Lessens (on_slot s g).
Proof. intros x Hx. destruct s; by apply same_floor_less; [|intros ?|]. Qed.
#[local] Instance retire_all_lessens : Lessens retire_all_agreement.
Proof. intros x Hx. by apply same_floor_less; [|intros ?|]. Qed.
#[local] Instance record_failure_lessens key : Lessens (record_failure key).
Proof. intros x Hx. apply same_floor_less; [done|apply record_failure_flagged|done]. Qed.

(** The assignments of a shard that no entry sees. *)
#[local] Hint Extern 1 (Lessens ?f) =>
  lazymatch f with
  | count _ _ => idtac | effect _ => idtac
  | set ?g _ =>
      lazymatch g with
      | redundancy => idtac | pool_sessions_ended => idtac | reissue => idtac
      | recovering => idtac | rail_loss_latched => idtac | standbys => idtac
      end
  end; intros ? ?; by apply same_floor_less; [|intros ?|] : typeclass_instances.

Lemma entries_less x (g : bytes -> MarketEntry -> MarketEntry) y :
  (forall slug e, entry_same e (g slug e)) -> flagged x y ->
  y.(markets) = map_imap (fun slug e => Some (g slug e)) x.(markets) -> books_ok x -> less x y.
Proof.
  intros Hg Hf Em Hx. split; [|done|].
  - intros slug e'. rewrite Em, map_lookup_imap. intros (e & He & [= <-])%bind_Some.
    eapply same_ok, Hx, He. apply Hg.
  - intros slug e'. rewrite Em, map_lookup_imap. intros (e & He & [= <-])%bind_Some _.
    exists e. split; [done|]. apply Hg.
Qed.

Lemma on_entry_lessens (k : bytes) (g : MarketEntry -> MarketEntry) :
  (forall e, entry_same e (g e)) -> Lessens (on_entry k g).
Proof.
  intros Hg x Hx.
  apply (entries_less x (fun slug e => if bool_decide (slug = k) then g e else e)); [|by intros ?| |done].
  - intros slug e. by case_bool_decide.
  - unfold on_entry. simpl. apply map_eq. intros slug. rewrite map_lookup_imap. case_bool_decide as E.
    + subst. rewrite lookup_alter_eq. by destruct (x.(markets) !! k).
    + rewrite lookup_alter_ne by done. by destruct (x.(markets) !! slug).
Qed.

Lemma on_entries_lessens (g : MarketEntry -> MarketEntry) :
  (forall e, entry_same e (g e)) -> Lessens (on_entries g).
Proof.
  intros Hg x Hx. apply (entries_less x (fun _ => g)); [done|by intros ?| |done].
  unfold on_entries. simpl. apply map_eq. intros slug. rewrite map_lookup_imap, lookup_fmap.
  by destruct (x.(markets) !! slug).
Qed.

#[local] Hint Extern 1 (Lessens (on_entry _ _)) => apply on_entry_lessens; intros;
  first [apply settle_entry_same | apply hand_over_entry_same | by split] : typeclass_instances.
#[local] Hint Extern 1 (Lessens (on_entries _)) => apply on_entries_lessens; intros;
  first [apply reassign_entry_same | by split] : typeclass_instances.

#[local] Instance close_lessens slug : Lessens (fun x => (close env slug x).2).
Proof.
  intros x Hx. destruct (close_floor env genuine arrivals_genuine slug x) as [(E & Hf & _) _].
  apply (f_equal f_markets) in E. unfold f_close in E. cbn [floor f_markets set] in E.
  destruct (x.(markets) !! slug) as [e|] eqn:Ee; cbn [f_markets set] in E.
  - split; [unfold books_ok; rewrite E; by apply map_Forall_delete|done|].
    intros k e'. rewrite E. intros [_ He']%lookup_delete_Some _. by exists e'.
  - by apply same_floor_less.
Qed.

#[local] Instance close_unwanted_lessens : Lessens (close_unwanted env).
Proof. intros x Hx. apply less_refl in Hx. unfold close_unwanted, close_all. walk. Qed.

(** What a walk leaves, market by market. *)
Lemma walk_markets_spec visit x : keeping visit -> books_ok x ->
  let y := walk_markets env visit x in
  books_ok y /\ flagged x y /\
  forall slug e', y.(markets) !! slug = Some e' -> exists e, x.(markets) !! slug = Some e /\
    e' = (visit slug e).1 /\ (failed (visit slug e).2 -> overflowed y = true).
Proof.
  intros Hk Hx y.
  assert (Hwf : map_Forall (fun _ e => book_wf (entry_book e)) x.(markets)).
  { intros slug e He. by apply (Hx slug e). }
  destruct (walk_floor env hash_order_perm genuine arrivals_genuine visit x Hk Hwf) as (E & Hf & Hfail & _).
  fold y in E, Hf, Hfail. apply (f_equal f_markets) in E.
  assert (Em : y.(markets) = map_imap (fun slug e => Some (visit slug e).1) x.(markets)) by exact E.
  split_and!; [|done|].
  - intros slug e'. rewrite Em, walked_lookup. intros (e & He & ->)%fmap_Some.
    eapply keeps_ok; [apply (Hk slug e), (Hwf _ _ He)|exact (Hx _ _ He)].
  - intros slug e'. rewrite Em, walked_lookup. intros (e & He & ->)%fmap_Some. exists e.
    split_and!; [done..|]. intros Hv. apply Hfail. by exists slug, e.
Qed.

Lemma walk_lessens visit : keeping visit -> Lessens (walk_markets env visit).
Proof.
  intros Hk x Hx. destruct (walk_markets_spec visit x Hk Hx) as (Hok & Hf & Hm). split; [done..|].
  intros slug e' He' Hl. destruct (Hm slug e' He') as (e & He & -> & _). exists e. split; [done|].
  apply (Hk slug e); [by apply (Hx slug e)|done].
Qed.

#[local] Instance shard_loss_lessens reason why : Lessens (report_shard_loss env reason why).
Proof.
  intros x Hx. apply less_refl in Hx. unfold report_shard_loss.
  pose proof (walk_lessens _ (shard_loss_keeps reason why)). walk.
Qed.

#[local] Instance retire_socket_lessens s : Lessens (retire_pool_socket s).
Proof. intros x Hx. apply less_refl in Hx. unfold retire_pool_socket. walk. Qed.

#[local] Instance vacate_lessens i l : Lessens (vacate_standby env hash_one i l).
Proof. intros x Hx. apply less_refl in Hx. unfold vacate_standby. walk. Qed.

#[local] Instance move_history_lessens m n : Lessens (move_socket_history m n).
Proof. intros x Hx. apply less_refl in Hx. unfold move_socket_history. walk. Qed.

#[local] Instance take_publishing_lessens : Lessens (fun x => (take_publishing_slot env hash_one x).2).
Proof. intros x Hx. apply less_refl in Hx. unfold take_publishing_slot. walk. Qed.

(** ** Markets that outlive an end *)

(** Every book live in [y] stands as it stood in [x], and [Q] held of it there — unless a
    book that had spent its revisions was met. *)
Record outlives (Q : bytes -> BookWriter -> Prop) (x y : Shard) : Prop := {
  ou_ok : books_ok y;
  ou_live slug e' : y.(markets) !! slug = Some e' -> live e' = true -> overflowed y = false ->
    exists e, x.(markets) !! slug = Some e /\ e'.(writer) = e.(writer) /\ Q slug e.(writer)
}.

#[local] Instance outlives_preserved Q x f : Lessens f -> Preserves (outlives Q x) f.
Proof.
  intros Hf y [Hok Hl]. destruct (Hf y Hok) as [Hok' Hflag Hl']. split; [done|].
  intros slug e'' He'' Hlive Ho. destruct (Hl' _ _ He'' Hlive) as (e' & He' & Ew).
  rewrite (live_writer e' e'' Ew) in Hlive.
  assert (Ho' : overflowed y = false) by (by apply (overflow_raised _ _ Hflag)).
  destruct (Hl _ _ He' Hlive Ho') as (e & He & Ew' & Hq). exists e. split; [done|].
  split; [congruence|done].
Qed.

#[local] Instance outlives_of_floor Q x : OfFloor genuine (outlives Q x).
Proof.
  intros y z [Ef Hb] [Hok Hl]. pose proof (f_equal f_markets Ef) as Em.
  pose proof (f_equal f_overflowed Ef) as Eo. cbn [floor f_markets f_overflowed] in Em, Eo.
  split; [unfold books_ok; by rewrite Em|]. rewrite Em, Eo. done.
Qed.

(** The walk that decides. *)
Lemma walk_outlives Q visit x y : less x y -> keeping visit ->
  (forall slug e, entry_ok slug e -> ~ failed (visit slug e).2 -> live (visit slug e).1 = true ->
     Q slug e.(writer)) -> outlives Q x (walk_markets env visit y).
Proof.
  intros [Hok Hf Hl] Hk Hq. destruct (walk_markets_spec visit y Hk Hok) as (Hok' & Hf' & Hm).
  split; [done|]. intros slug e'' He'' Hlive Ho.
  destruct (Hm slug e'' He'') as (e' & He' & -> & Hfail).
  assert (Hnf : ~ failed (visit slug e').2) by (intros H; apply Hfail in H; congruence).
  pose proof (vk_live _ _ _ (Hk slug e' (eo_wf _ _ (Hok _ _ He'))) Hlive) as Ew.
  pose proof (Hq slug e' (Hok _ _ He') Hnf Hlive) as HQ.
  rewrite (live_writer e' _ Ew) in Hlive. destruct (Hl _ _ He' Hlive) as (e & He & Ew').
  exists e. split; [done|]. rewrite <- Ew'. split; [congruence|done].
Qed.

(** *** Without a pool *)

(** What the shadows of a standby vouch for. *)
Definition vouched (shadows : gmap bytes OrderBook) (slug : bytes) (w : BookWriter) : Prop :=
  exists shadow, shadows !! slug = Some shadow /\ agreement shadow (writer_published w) = Agreeing.

Lemma promotable_vouched e shadows slug :
  promotable e (shadow_verdict e (shadows !! slug)) = true -> vouched shadows slug e.(writer).
Proof.
  unfold promotable, shadow_verdict, vouched. intros [_ Hv%bool_decide_eq_true]%andb_true_iff.
  destruct (shadows !! slug) as [b|]; [by exists b|done].
Qed.

Definition lossy_end (was_established : bool) (reason : ConnectionEndReason) : bool :=
  was_established && match reason with NoticeUndeliverable => true | _ => false end.

Lemma switch_outlives i reason was x : books_ok x ->
  let r := switch_source env hash_one i reason was x in
  if r.1 then
    exists standby a, x.(standbys) !! i = Some standby /\ standby.(sb_slot).(active) = Some a /\
      outlives (fun slug w => vouched standby.(shadows) slug w /\ lossy_end was reason = false) x r.2
  else quiet genuine x r.2 /\ r.2.(standbys) = x.(standbys).
Proof.
  intros Hx r. subst r. unfold switch_source. rewrite shard_ask_eq. set (y := asked env x).
  assert (Hy : quiet genuine x y) by by apply shard_asked_quiet. assert (Es : y.(standbys) = x.(standbys)) by done.
  destruct (negb _); [done|]. rewrite <- Es.
  destruct (y.(standbys) !! i) as [b|] eqn:Eb; [|done].
  destruct b.(sb_slot).(active) as [a|] eqn:Ea; [|done]. cbn [fst snd]. exists b, a.
  split; [done|]. split; [done|]. unfold with_now. rewrite shard_ask_eq. set (z := asked env y). cbv zeta.
  assert (Hz : less x z).
  { apply less_refl in Hx. eapply less_of_floor; [by apply shard_asked_quiet|]. by eapply less_of_floor. }
  set (l := saturating_duration_since _ _). clearbody z l.
  set (z1 := occupy_primary _ _ _). assert (H1 : less x z1) by (subst z1; walk).
  unfold apply_promotions. cbv zeta. set (z2 := close_unwanted env z1).
  assert (H2 : less x z2) by (subst z2; walk). clearbody z2.
  match goal with |- outlives ?Q _ _ => set (q := Q) end.
  match goal with |- context [walk_markets env ?v z2] => set (visit := v) end.
  assert (Hw : outlives q x (walk_markets env visit z2)); [|walk].
  apply walk_outlives; [done|apply promotion_keeps|].
  intros slug e Hok Hnf Hlive. unfold visit in Hnf, Hlive. apply promotion_live in Hlive as (_ & Hl & Hp); [|done..].
  split; [by apply promotable_vouched|done].
Qed.

Lemma promote_outlives l reason was x : books_ok x ->
  let r := promote_among env hash_one l reason was x in
  if r.1 then
    exists i standby a, x.(standbys) !! i = Some standby /\ standby.(sb_slot).(active) = Some a /\
      outlives (fun slug w => vouched standby.(shadows) slug w /\ lossy_end was reason = false) x r.2
  else quiet genuine x r.2.
Proof.
  revert x. induction l as [|i l IH]; intros x Hx; [done|]. cbn [promote_among].
  pose proof (switch_outlives i reason was x Hx) as H. cbv zeta in H.
  destruct (switch_source _ _ _ _ _ x) as [[|] y]; cbn [fst snd] in *; [by exists i|].
  destruct H as [Hq Es]. assert (Hy : less x y) by (apply less_refl in Hx; by eapply less_of_floor).
  specialize (IH y (le_ok _ _ Hy)). cbv zeta in *.
  destruct (promote_among _ _ _ _ _ y) as [[|] z]; cbn [fst snd] in *; [|by etrans].
  destruct IH as (j & b & a & Hb & Ha & Ho). exists j, b, a. rewrite Es in Hb.
  split_and!; try done. destruct Ho as [Hok Hl]. split; [done|].
  intros slug e' He' Hlive Hov. destruct (Hl slug e' He' Hlive Hov) as (e & He & Ew & HQ).
  pose proof (f_equal f_markets (q_floor _ _ _ Hq)) as Em. cbn [floor f_markets] in Em.
  rewrite Em in He. by exists e.
Qed.

Lemma nothing_outlives x y reason l : less x y ->
  outlives (fun _ _ => False) x (on_connection_ended env hash_one reason l y).
Proof.
  intros Hy. unfold on_connection_ended. cbv zeta. destruct (end_reason_mapping reason) as [c a].
  set (z := close_unwanted env _). assert (Hz : less x z) by (subst z; walk). clearbody z.
  match goal with |- context [walk_markets env ?v z] => set (visit := v) end.
  assert (Hw : outlives (fun _ _ => False) x (walk_markets env visit z)); [|walk].
  apply walk_outlives; [done|apply connection_ended_keeps|].
  intros slug e Hok Hnf Hlive. unfold visit in Hnf, Hlive.
  by rewrite (connection_ended_down _ _ _ slug e Hok Hnf) in Hlive.
Qed.

(** *** Who is connected *)

(** Every slot holds the connection it held. *)
Definition seated (x y : Shard) : Prop :=
  length y.(standbys) = length x.(standbys) /\ forall s, active_of y s = active_of x s.

Lemma seated_trans x y z : seated x y -> seated y z -> seated x z.
Proof. intros [E H] [E' H']. split; [congruence|]. intros s. by rewrite H'. Qed.

Class Seats (f : Shard -> Shard) := seats x : seated x (f x).

#[local] Instance seats_preserves x f : Seats f -> Preserves (seated x) f.
Proof. intros Hf y Hy. by eapply seated_trans. Qed.
#[local] Instance seated_waits x : Waits env (seated x).
Proof. intros y Hy. exact Hy. Qed.

#[local] Hint Extern 1 (Seats ?f) =>
  lazymatch f with
  | count _ _ => idtac | effect _ => idtac | record_failure _ => idtac | on_entry _ _ => idtac
  | on_entries _ => idtac | forget_removal _ => idtac
  | set ?g _ =>
      lazymatch g with
      | redundancy => idtac | pool_sessions_ended => idtac | reissue => idtac | markets => idtac
      | recovering => idtac | rail_loss_latched => idtac | segment => idtac | retired => idtac
      | desired_count => idtac | removing => idtac | stats => idtac
      end
  end; intros ?; by split : typeclass_instances.

#[local] Instance tell_seats f : Seats (tell_segment env f).
Proof. intros x. unfold tell_segment. destruct x.(segment); [by split|done]. Qed.

Lemma standbys_seats (f : Shard -> Shard) (g : nat -> Standby -> Standby) :
  (forall x, (f x).(primary) = x.(primary) /\ (f x).(standbys) = imap g x.(standbys)) ->
  (forall i b, (g i b).(sb_slot).(active) = b.(sb_slot).(active)) -> Seats f.
Proof.
  intros Hf Hg x. destruct (Hf x) as [Ep Es]. split; [by rewrite Es, length_imap|].
  intros [|i]; unfold active_of; simpl; [by rewrite Ep|].
  rewrite Es, list_lookup_imap. destruct (x.(standbys) !! i); simpl; [apply Hg|done].
Qed.

Lemma alter_imap {A} (g : A -> A) i (l : list A) :
  alter g i l = imap (fun j a => if bool_decide (j = i) then g a else a) l.
Proof.
  apply list_eq. intros j. rewrite list_lookup_imap. destruct (decide (j = i)) as [->|].
  - rewrite list_lookup_alter_eq, bool_decide_eq_true_2 by done. done.
  - rewrite list_lookup_alter_ne, bool_decide_eq_false_2 by done. by destruct (l !! j).
Qed.

Lemma on_standby_seats i g : (forall b, (g b).(sb_slot).(active) = b.(sb_slot).(active)) ->
  Seats (on_standby i g).
Proof.
  intros Hg. eapply (standbys_seats _ (fun j b => if bool_decide (j = i) then g b else b)).
  - intros x. split; [done|]. apply alter_imap.
  - intros j b. by case_bool_decide.
Qed.
#[local] Hint Extern 1 (Seats (on_standby _ _)) =>
  apply on_standby_seats; intros; reflexivity : typeclass_instances.

#[local] Instance retire_agreement_seats slug : Seats (retire_agreement slug).
Proof.
  eapply (standbys_seats _ (fun _ b => b <| agreeing ::= fun s => s ∖ {[slug]} |>)); [|done].
  intros x. split; [done|]. apply list_eq. intros i. rewrite list_lookup_imap. unfold retire_agreement.
  simpl. by rewrite list_lookup_fmap.
Qed.
#[local] Instance retire_all_seats : Seats retire_all_agreement.
Proof.
  eapply (standbys_seats _ (fun _ b => b <| agreeing := ∅ |>)); [|done].
  intros x. split; [done|]. apply list_eq. intros i. rewrite list_lookup_imap. unfold retire_all_agreement.
  simpl. by rewrite list_lookup_fmap.
Qed.

#[local] Instance recount_seats : Seats recount_recovering.
Proof. intros x. by split. Qed.

#[local] Instance settle_tally_seats t : Seats (settle_tally t).
Proof. intros x. unfold settle_tally. assert (H : seated x x) by done. walk. Qed.

#[local] Instance walk_seats visit : Seats (walk_markets env visit).
Proof.
  intros x. unfold walk_markets. apply (shard_ask_case _ _ (seated x)); [apply _|done|]. intros e y Hy.
  set (acc := fold_left _ _ _). assert (Ha : seated x acc.2).
  { subst acc. apply (shard_fold_case (fun acc => seated x acc.2)); [|done].
    intros slug [t z] Hz. cbn [snd] in Hz. unfold visit_market.
    destruct (z.(markets) !! slug) as [en|]; [|done]. destruct (visit slug en) as [en' v].
    cbn [snd]. walk. }
  destruct acc as [t z]. cbn [snd] in Ha. walk.
Qed.

#[local] Instance shard_loss_seats reason why : Seats (report_shard_loss env reason why).
Proof. intros x. assert (H : seated x x) by done. unfold report_shard_loss. walk. Qed.

#[local] Instance retire_socket_seats s : Seats (retire_pool_socket s).
Proof. intros x. assert (H : seated x x) by done. unfold retire_pool_socket. walk. Qed.

#[local] Instance close_seats slug : Seats (fun x => (close env slug x).2).
Proof.
  intros x. unfold close. destruct (x.(markets) !! slug) as [e|]; [|done]. cbv zeta.
  destruct (writer_unsubscribe _) as [ended w]. cbn [snd].
  set (y := if bool_decide _ then _ else _). set (z := if e.(desired) then _ else y).
  assert (Hz : seated x z).
  { assert (H : seated x x) by done. assert (Hy : seated x y) by (subst y; walk). subst z. walk. }
  clearbody z. eapply seated_trans; [exact Hz|].
  eapply (standbys_seats (fun z => count n_markets_dropped 1 (set standbys (fmap _) (forget_removal slug z)))
    (fun _ b => b <| shadows ::= delete slug |> <| agreeing ::= fun s => s ∖ {[slug]} |>)); [|done].
  intros u. split; [done|]. apply list_eq. intros i. rewrite list_lookup_imap. simpl.
  by rewrite list_lookup_fmap.
Qed.

#[local] Instance close_unwanted_seats : Seats (close_unwanted env).
Proof. intros x. assert (H : seated x x) by done. unfold close_unwanted, close_all. walk. Qed.

(** *** In a pool *)

(** Another connection that can still deliver carries the market. *)
Definition still_carried (x : Shard) (ended : Slot) (slug : bytes) : Prop :=
  exists s a, s <> ended /\ active_of x s = Some a /\ a.(established) = true /\
    slug ∈ a.(dialled_markets).

Lemma survivors_carry e x y ended slug : seated x y ->
  existsb (fun carried => binary_search carried slug) (pool_survivor_sets e y ended) = true ->
  still_carried x ended slug.
Proof.
  intros [_ Hs] (l & Hl & Hb)%existsb_exists. unfold pool_survivor_sets in Hl.
  apply list_elem_of_In, list_elem_of_omap in Hl as (s & Hin & Ha).
  apply list_elem_of_In, List.filter_In in Hin as [_ Hne]. rewrite Hs in Ha.
  apply bind_Some in Ha as (a & Ha & E). exists s, a.
  destruct (a.(established) && is_viable e a) eqn:Ev; [|done]. injection E as <-.
  apply andb_true_iff in Ev as [Ev _]. split_and!; try done.
  - by apply negb_true_iff, bool_decide_eq_false in Hne.
  - by apply bool_decide_eq_true in Hb.
Qed.

Lemma lost_coverage_outlives x y s reason : less x y -> seated x y ->
  outlives (fun slug _ => still_carried x s slug) x (report_lost_pool_coverage env s reason y).
Proof.
  intros Hl Hs. unfold report_lost_pool_coverage. rewrite shard_ask_eq.
  assert (Hy : less x (asked env y)) by (by eapply less_of_floor; [apply shard_asked_quiet|]).
  assert (Hsy : seated x (asked env y)) by done.
  set (y1 := asked env y) in *. clearbody y1. cbv zeta.
  destruct (end_reason_mapping reason) as [c a]. set (p := bool_decide (s = Primary)).
  set (z := if p then _ else y1). assert (Hz : less x z) by (subst z; walk). clearbody z.
  apply walk_outlives; [done|apply lost_coverage_keeps|].
  intros slug e Hok Hnf Hlive. apply lost_coverage_live in Hlive as [_ Hc]; [|done..].
  by eapply survivors_carry.
Qed.

Lemma pool_end_outlives x y s reason l was handover : less x y -> seated x y ->
  outlives (fun slug _ => still_carried x s slug) x
    (on_pool_slot_ended env hash_one s reason l was handover y).
Proof.
  intros Hl Hs. unfold on_pool_slot_ended. cbv zeta.
  set (y1 := if was then _ else y).
  assert (H1 : less x y1 /\ seated x y1) by (subst y1; split; walk). clearbody y1.
  destruct H1 as [H1 S1]. set (y2 := match s with Primary => y1 | StandbySlot i => _ end).
  assert (H2 : less x y2 /\ seated x y2).
  { subst y2. destruct s as [|i]; [done|]. split; [walk|]. unfold count_standby_end. walk. }
  clearbody y2. destruct H2 as [H2 S2].
  pose proof (lost_coverage_outlives x y2 s reason H2 S2) as Ho.
  set (y3 := report_lost_pool_coverage env s reason y2) in *. clearbody y3. walk.
Qed.

(** ** The end of a slot's task *)

Lemma outlives_from Q Q' x x' y : x'.(markets) = x.(markets) -> (forall slug w, Q slug w -> Q' slug w) ->
  outlives Q x' y -> outlives Q' x y.
Proof.
  intros Em HQ [Hok Hl]. split; [done|]. intros slug e' He' Hlive Ho.
  destruct (Hl slug e' He' Hlive Ho) as (e & He & Ew & Hq). exists e. rewrite <- Em. auto.
Qed.

Lemma primary_slot_ended_outlives reason was l x : books_ok x -> pool_armed x = false ->
  outlives (fun slug w => lossy_end was reason = false /\
      exists i standby a, x.(standbys) !! i = Some standby /\ standby.(sb_slot).(active) = Some a /\
        vouched standby.(shadows) slug w) x
    (on_slot_ended env hash_one Primary reason was l x).
Proof.
  intros Hx Ha. unfold on_slot_ended. rewrite Ha. unfold promote_a_standby.
  pose proof (promote_outlives (seq 0 (length x.(standbys))) reason was x Hx) as H. cbv zeta in H.
  destruct (promote_among _ _ _ _ _ x) as [[|] y]; cbn [fst snd] in H.
  - destruct H as (i & b & a & Hb & Hact & Ho). eapply outlives_from; [done| |exact Ho].
    intros slug w [Hv Hl]. split; [done|]. by exists i, b, a.
  - assert (Hy : less x y) by (apply less_refl in Hx; by eapply less_of_floor).
    eapply outlives_from; [done| |by apply nothing_outlives]. done.
Qed.

Lemma pool_slot_ended_outlives s reason was l x : books_ok x -> pool_armed x = true ->
  outlives (fun slug _ => still_carried x s slug) x (on_slot_ended env hash_one s reason was l x).
Proof.
  intros Hx Ha. unfold on_slot_ended. rewrite Ha. apply pool_end_outlives.
  - apply less_refl in Hx. walk.
  - assert (H : seated x x) by done. walk.
Qed.

(** The slot vacated, and the clock asked. *)
Definition vacated (s : Slot) (x : Shard) : Shard :=
  match active_of x s with
  | Some _ => asked env (on_slot s (fun t => t <| active := None |>) x)
  | None => x
  end.

Lemma on_ended_eq s reason x : exists l,
  on_ended env hash_one s reason x =
  on_slot_ended env hash_one s reason (slot_established x s) l (vacated s x).
Proof.
  unfold on_ended, vacated, slot_established. destruct (active_of x s) as [a|]; [|by eexists].
  unfold with_now. rewrite shard_ask_eq. by eexists.
Qed.

Lemma vacated_markets s x : (vacated s x).(markets) = x.(markets) /\
  (vacated s x).(redundancy) = x.(redundancy).
Proof. unfold vacated. destruct (active_of x s); [|done]. by destruct s. Qed.

Lemma vacated_standbys x : (vacated Primary x).(standbys) = x.(standbys).
Proof. unfold vacated. by destruct (active_of x Primary). Qed.

Lemma vacated_others s s' x : s' <> s -> active_of (vacated s x) s' = active_of x s'.
Proof.
  intros Hne. unfold vacated. destruct (active_of x s); [|done].
  destruct s as [|i], s' as [|j]; try done. unfold active_of. simpl.
  rewrite list_lookup_alter_ne; [done|congruence].
Qed.

Lemma primary_ended_outlives reason x : books_ok x -> pool_armed x = false ->
  outlives (fun slug w => lossy_end (slot_established x Primary) reason = false /\
      exists i standby a, x.(standbys) !! i = Some standby /\ standby.(sb_slot).(active) = Some a /\
        vouched standby.(shadows) slug w) x (on_ended env hash_one Primary reason x).
Proof.
  intros Hx Ha. destruct (on_ended_eq Primary reason x) as [l ->].
  destruct (vacated_markets Primary x) as [Em Er].
  eapply outlives_from; [exact Em| |apply primary_slot_ended_outlives].
  - cbv beta. by rewrite vacated_standbys.
  - unfold books_ok. by rewrite Em.
  - unfold pool_armed. by rewrite Er.
Qed.

Lemma pool_ended_outlives s reason x : books_ok x -> pool_armed x = true ->
  outlives (fun slug _ => still_carried x s slug) x (on_ended env hash_one s reason x).
Proof.
  intros Hx Ha. destruct (on_ended_eq s reason x) as [l ->].
  destruct (vacated_markets s x) as [Em Er].
  eapply outlives_from; [exact Em| |apply pool_slot_ended_outlives].
  - intros slug _ (s' & a & Hne & Hact & H). exists s', a. by rewrite vacated_others in Hact.
  - unfold books_ok. by rewrite Em.
  - unfold pool_armed. by rewrite Er.
Qed.

End ends.
