(* ===== verification/ShardProps.v ===== *)
(** * A shard's markets over a run

    What holds of a shard, built and run against any environment: its books, what it counts,
    what its standbys are said to cover, and what the end of a connection leaves. *)

From stdpp Require Import gmap relations.
From S2P Require Import Prelude OrdMap Numeric Identity Descriptor DedupKey Continuity Observation Book BookProps Digest Pool Channel Observer ObserverProps Session Limitless Pacing Connection QueueAge ShmWriter Supervisor SupervisorProps ShardMarket Shard ShardFloor ShardInv ShardSim ShardEnds.

Section props.
Context `{RB : Broadcast StreamDelivery} `{RL : !BroadcastLaws RB}.
Context `{WP : Watch PublishedBook} `{WL : !WatchLaws WP} `{SS : ShardSink}.
Variable env : nat -> ShardEnv.
Variable hash_one : nat -> Z -> Z.
Variables outcome_capacity type_capacity date_capacity : Z.

Abbreviation turn := (Shard.turn env hash_one outcome_capacity type_capacity date_capacity).
Abbreviation on_notice := (Shard.on_notice env outcome_capacity type_capacity date_capacity).

(** ** Runs *)

(** A shard that has just been built, with or without a segment, and one that has run. *)
Inductive begun (cfg : ShardConfig) : Shard -> Prop :=
| begun_bare started x : shard_new env cfg started = Ok x -> begun cfg x
| begun_into started sink x y : shard_new env cfg started = Ok x ->
    publish_into env sink x = (Ok (), y) -> begun cfg y.

Definition sharded (cfg : ShardConfig) (x : Shard) : Prop :=
  exists x0, begun cfg x0 /\ rtc turn x0 x.

(** A state between two turns, or one in which a turn is about to wake. *)
Definition standing (cfg : ShardConfig) (x : Shard) : Prop :=
  exists y, sharded cfg y /\ (x = y \/ x = ask env (fun _ self => self) (prepare env hash_one y)).

(** What an environment may be relied on for: a hash map is walked in some order, each key
    once, and the updates that arrive are what frames decode to. *)
Record faithful : Prop := {
  fa_order t l : (env t).(hash_order) l ≡ₚ l;
  fa_arrivals t : Forall (brings reported) (env t).(arrivals)
}.

(** Every size is one. *)
Record sized (cfg : ShardConfig) : Prop := {
  sz_levels : 0 <= cfg.(sc_level_capacity);
  sz_markets : 0 <= cfg.(sc_max_markets)
}.

Section run.
Hypothesis Henv : faithful.
Variable cfg : ShardConfig.
Hypothesis Hcfg : sized cfg.

Lemma empty_settled started levels observers :
  settled (floor (shard_empty cfg started levels observers)).
Proof.
  destruct Hcfg. split; [split|]; try done; cbn [floor shard_empty f_markets f_retired f_minds f_wanted
    f_version f_removing f_capacity f_observers f_segmented].
  - simpl. unfold RecordSettersUsingExistingGetters.const, MAX_SHARD_MARKETS. lia.
  - constructor.
  - intros slug. split; [by intros ?%not_elem_of_nil|by intros (e & He & _)].
  - apply Forall_fmap, Forall_replicate. by split.
Qed.

Lemma install_set_reached f0 capacity slugs x y : reached reported true f0 x ->
  x.(config).(sc_max_markets) = capacity -> install_set env capacity slugs x = Ok y ->
  reached reported true f0 y /\ y.(config) = x.(config).
Proof.
  revert x. induction slugs as [|slug slugs IH]; intros x Hx Hc; cbn [install_set];
    [by intros [= <-]|].
  destruct (bool_decide _) eqn:Eb; [by apply IH|]. destruct (_ <=? _) eqn:El; [done|].
  apply bool_decide_eq_false in Eb. rewrite <- eq_None_not_Some in Eb.
  pose proof (install_reached env reported (fa_arrivals Henv) true eq_refl f0 slug x Hx Eb ltac:(lia)) as Hi.
  assert (Ec : (install env slug x).2.(config) = x.(config)).
  { unfold install. destruct (shard_market slug); [|done]. cbv zeta.
    destruct (match x.(retired) !! slug with Some _ => _ | None => _ end); [|done].
    unfold seat. simpl. destruct x.(segment); [|done]. rewrite shard_ask_eq.
    destruct (sink_install _ _ _ _) as [[]?]; done. }
  destruct (install env slug x) as [[[]|] z]; [|done]. cbn [snd] in *. intros E.
  apply IH in E as [H1 H2]; [|done|congruence]. split; [done|congruence].
Qed.

Lemma shard_begun_reached x0 : begun cfg x0 -> exists f0, reached reported true f0 x0.
Proof.
  assert (H : forall started x, shard_new env cfg started = Ok x -> exists f0, reached reported true f0 x).
  { intros started x E. unfold shard_new in E.
    repeat match type of E with (if ?b then _ else _) = _ => destruct b; [done|] end.
    destruct (map_err ShardLevelCapacity _) as [lc|] eqn:Elc; [|done].
    destruct (map_err ShardObserverCapacity _) as [oc|]; [|done].
    set (bare := shard_empty cfg started lc oc) in E. exists (floor bare).
    eapply install_set_reached in E as [? _]; [done| |done]. split; [done|apply empty_settled| |done].
    apply map_err_Ok in Elc. unfold level_capacity_new in Elc. simpl.
    destruct (_ =? 0); [done|]. injection Elc as <-. apply Hcfg. }
  intros [started x E|started sink x y E Ep]; [by eapply H|].
  apply H in E as [f0 Hx]. unfold publish_into in Ep. destruct x.(segment); [done|].
  pose proof (install_resident_quiet env reported (fa_arrivals Henv)
    (sort_slugs (map_to_list x.(markets)).*1) sink x) as Hq. cbv beta in Hq.
  destruct (install_resident _ _ _ _) as [[sink'|] z]; [|done]. injection Ep as <-. cbn [snd] in Hq.
  apply (reached_of_floor _ _ _ _ _ Hq) in Hx. exists (floor (z <| segment := Some sink' |>)).
  destruct Hx as [_ [[] Hb] Hl Hn]. split; [done| |done..]. by split; [split|].
Qed.

Lemma sharded_reached x : sharded cfg x -> exists f0, reached reported true f0 x.
Proof.
  intros (x0 & Hb & Hrun). destruct (shard_begun_reached x0 Hb) as [f0 H0]. exists f0.
  eapply shard_run_reached; [apply Henv| |apply Henv|done|exact Hrun|exact H0]. by intros u.
Qed.

Lemma standing_reached x : standing cfg x -> exists f0, reached reported true f0 x.
Proof.
  intros (y & (f0 & Hy)%sharded_reached & Hx). exists f0. destruct Hx as [->| ->]; [done|].
  rewrite shard_ask_eq. eapply reached_of_floor; [apply shard_asked_quiet, Henv|].
  apply (prepare_reached env hash_one (fa_order Henv) reported (fa_arrivals Henv) true f0 y Hy).
Qed.

Lemma standing_sound x : standing cfg x -> settled (floor x).
Proof. intros (f0 & Hx)%standing_reached. apply Hx. Qed.

Lemma standing_books x : standing cfg x -> books_ok x.
Proof. intros [Hs _]%standing_sound. apply Hs. Qed.

End run.

(** C12: In every state of a run, every market a shard holds is listed under the slug its
    identity has and its writer owns that market's book; the book is well formed, what an
    observer reads is that book, and it is live only once a base was accepted. A book kept for
    a market that left is well formed and its own, and no resident market has one. *)
Theorem shard_books_sound cfg x : faithful -> sized cfg -> standing cfg x ->
  (forall slug e, x.(markets) !! slug = Some e ->
     shard_market slug = Ok e.(market) /\ (entry_book e).(book_market) = e.(market) /\
     book_wf (entry_book e) /\ writer_published e.(writer) = publish (entry_book e) /\
     (live e = true -> e.(base_accepted) = true)) /\
  (forall slug b, x.(retired) !! slug = Some b ->
     book_wf b /\ shard_market slug = Ok b.(book_market) /\ x.(markets) !! slug = None).
Proof.
  intros He Hc Hx. destruct (standing_sound He cfg Hc x Hx) as [Hs _]. split.
  - intros slug e E. by destruct (so_entries _ Hs slug e E).
  - intros slug b E. by apply (so_retired _ Hs slug b E).
Qed.

(** C13: What a shard counts is what it holds. In every state of a run, the count of
    wanted markets is the number of entries that are wanted, and never exceeds the configured
    capacity nor 32768; the queue of removals lists each market that waits for the venue to
    drop it, once, and nothing else, and never more than 64; no entry is newer than the
    version of the set it belongs to. *)
Theorem shard_accounts_exact cfg x : faithful -> sized cfg -> standing cfg x ->
  x.(desired_count) = Z.of_nat (size (filter (fun m => m.2.(desired) = true) x.(markets))) /\
  x.(desired_count) <= x.(config).(sc_max_markets) <= 32768 /\
  (NoDup x.(removing) /\ len x.(removing) <= 64 /\
   forall slug, slug ∈ x.(removing) <->
     exists e, x.(markets) !! slug = Some e /\ e.(desired) = false) /\
  Z.of_nat (size x.(markets)) = x.(desired_count) + len x.(removing) /\
  map_Forall (fun _ e => 0 <= e.(installed_version) <= x.(desired_version)) x.(markets).
Proof.
  intros He Hc Hx. destruct (standing_sound He cfg Hc x Hx) as [Hs Hb].
  pose proof (so_wanted _ Hs) as Hw. pose proof (so_unwanted _ Hs) as Hu.
  cbn [floor f_wanted f_markets f_removing] in Hw, Hu.
  split_and!; [exact Hw|apply (so_capacity _ Hs)..|apply (so_removing _ Hs)|exact Hb|exact Hu| |
    apply (so_versions _ Hs)].
  rewrite Hw. unfold wanted_count.
  set (P := fun m : bytes * MarketEntry => m.2.(desired) = true).
  assert (Hr : size (filter (fun m => ~ P m) x.(markets)) = length x.(removing)).
  { rewrite <- size_dom, <- (size_list_to_set (C := gset bytes) x.(removing)) by apply (so_removing _ Hs).
    f_equal. apply set_eq. intros slug. rewrite elem_of_list_to_set, Hu, elem_of_dom.
    unfold unwanted. split.
    - intros [e [He' Hd]%map_lookup_filter_Some]. exists e. split; [done|]. by apply not_true_is_false.
    - intros (e & He' & Hd). exists e. apply map_lookup_filter_Some. split; [done|].
      unfold P. simpl. congruence. }
  unfold len. rewrite <- Hr, <- Nat2Z.inj_add, <- map_size_disj_union by apply map_disjoint_filter_complement.
  by rewrite map_filter_union_complement.
Qed.

(** C14: What a standby is counted to cover is what it would cover. In every state of a
    run, each market on a standby's list is one its shadow agrees on with a live, wanted,
    based book, so the number reported to an operator and taken for the coverage of a
    promotion is never more than what the books and the shadows themselves give; and unless a
    book that had spent its revisions was ever met, it is exactly that number. *)
Theorem agreement_tracking_exact cfg x index standby : faithful -> sized cfg -> standing cfg x ->
  x.(standbys) !! index = Some standby ->
  (forall slug, slug ∈ standby.(agreeing) -> agrees x index slug = true) /\
  agreeing_markets x index <= agreeing_markets_recomputed x index /\
  (x.(stats).(stats_decode_failures) !! book_error_key CounterOverflow = None ->
   (forall slug, agrees x index slug = true -> slug ∈ standby.(agreeing)) /\
   agreeing_markets x index = agreeing_markets_recomputed x index).
Proof.
  intros He Hc Hx Hi. destruct (standing_sound He cfg Hc x Hx) as [Hs _].
  assert (Hm : agreed (overflowed x) x.(markets) (mind standby)).
  { eapply (proj1 (Forall_lookup _ _) (so_minds _ Hs) index). cbn [floor f_minds].
    by rewrite list_lookup_fmap, Hi. }
  destruct Hm as [Hsnd Hcmp]. cbn [mind fst snd] in *.
  assert (Hag : forall slug, agrees x index slug = covers x.(markets) standby.(shadows) slug)
    by (intros slug; by rewrite agrees_covers, Hi).
  unfold agreeing_markets, agreeing_markets_recomputed. rewrite Hi.
  set (held := filter _ x.(markets)).
  assert (Hd : forall slug, slug ∈ dom held <-> covers x.(markets) standby.(shadows) slug = true).
  { intros slug. subst held. rewrite elem_of_dom. unfold covers. split.
    - intros [e [-> Hp]%map_lookup_filter_Some]. exact Hp.
    - destruct (x.(markets) !! slug) as [e|] eqn:E; [|done]. intros Hp. exists e.
      by apply map_lookup_filter_Some. }
  rewrite <- size_dom. split_and!.
  - intros slug H. rewrite Hag. by apply Hsnd.
  - apply inj_le, subseteq_size. intros slug H. apply Hd. by apply Hsnd.
  - intros Hn. assert (Ho : overflowed x = false).
    { apply bool_decide_eq_false. unfold OVERFLOW_KEY. rewrite Hn. by intros []. }
    split.
    + intros slug. rewrite Hag. by apply Hcmp.
    + do 2 f_equal. apply set_eq. intros slug. rewrite Hd. split; [apply Hsnd|by apply Hcmp].
Qed.

(** C15: Nothing outlives its connection unvouched. When the task of the publishing connection
    ends and no pool is armed, every book that is still live afterwards is one that was
    resident, stands exactly as it stood — its writer, its published state and its stream
    untouched — and agreed, levels and market, with the shadow a standby had kept of it and
    that standby held a connection; and none is live if the connection ended because it could
    not hand its notices on. The one exception is a shard that met a book with no revision
    left to tell its loss by, which is counted. *)
Theorem primary_end_leaves_vouched cfg x reason : faithful -> sized cfg -> standing cfg x ->
  pool_armed x = false ->
  let y := on_ended env hash_one Primary reason x in
  forall slug e', y.(markets) !! slug = Some e' -> live e' = true ->
  y.(stats).(stats_decode_failures) !! book_error_key CounterOverflow = None ->
  exists e, x.(markets) !! slug = Some e /\ e'.(writer) = e.(writer) /\
    (slot_established x Primary = true -> reason <> NoticeUndeliverable) /\
    exists index standby a shadow, x.(standbys) !! index = Some standby /\
      standby.(sb_slot).(active) = Some a /\ standby.(shadows) !! slug = Some shadow /\
      agreement shadow (writer_published e.(writer)) = Agreeing.
Proof.
  intros He Hc Hx Ha y slug e' He' Hl Hn.
  destruct (primary_ended_outlives env hash_one (fa_order He) reported (fa_arrivals He) reason x
    (standing_books He cfg Hc x Hx) Ha) as [_ Ho].
  destruct (Ho slug e' He' Hl) as (e & Hxe & Ew & Hlossy & i & b & a & Hb & Hact & sh & Hsh & Hag).
  { apply bool_decide_eq_false. unfold OVERFLOW_KEY. fold y. rewrite Hn. by intros []. }
  exists e. split_and!; [done..| |by exists i, b, a, sh].
  intros Hest ->. unfold lossy_end in Hlossy. by rewrite Hest in Hlossy.
Qed.

(** C16: In an armed pool a book outlives the end of any of its connections only if another
    one carries it: whatever the slot, every book that is still live after its task ended is
    one that stood as it stands and is in the set that another slot's established connection
    was dialled with. The one exception is again a shard that met a book with no revision
    left. *)
Theorem pool_end_leaves_carried cfg x s reason : faithful -> sized cfg -> standing cfg x ->
  pool_armed x = true ->
  let y := on_ended env hash_one s reason x in
  forall slug e', y.(markets) !! slug = Some e' -> live e' = true ->
  y.(stats).(stats_decode_failures) !! book_error_key CounterOverflow = None ->
  exists e s' a, x.(markets) !! slug = Some e /\ e'.(writer) = e.(writer) /\ s' <> s /\
    active_of x s' = Some a /\ a.(established) = true /\ slug ∈ a.(dialled_markets).
Proof.
  intros He Hc Hx Ha y slug e' He' Hl Hn.
  destruct (pool_ended_outlives env hash_one (fa_order He) reported (fa_arrivals He) s reason x
    (standing_books He cfg Hc x Hx) Ha) as [_ Ho].
  destruct (Ho slug e' He' Hl) as (e & Hxe & Ew & s' & a & Hne & Hact & Hest & Hin).
  { apply bool_decide_eq_false. unfold OVERFLOW_KEY. fold y. rewrite Hn. by intros []. }
  by exists e, s', a.
Qed.

End props.

(** ** A run

    Two replicas and one market: the first turn connects both, whose dials are then confirmed;
    each then delivers the venue's frame, the first into the book and the second into its
    shadow, and the first connection ends. Under a licence for pooled publication the same
    frames come from two sockets of a pool. *)

(** A segment that takes everything. *)
Definition null_sink : ShardSink := {|
  shard_sink := unit; sink_answers := unit; shard_sink_name _ := []; sink_installed _ := 0;
  shard_sink_failure _ := None; sink_publish_latency _ := latency_default;
  sink_installable _ _ := Ok (); sink_install _ _ _ s := (Ok (), s); sink_retire _ _ _ s := s;
  sink_publish_state _ _ _ s := s; sink_publish_commit _ _ _ _ _ s := s;
  sink_publish_resolution _ _ _ _ _ s := s |}.
#[local] Existing Instance null_sink.

Abbreviation sample_shard := (Shard (RB := ring) (WP := Channel.slot) (SS := null_sink)).

Definition shard_env (t : nat) : ShardEnv :=
  {| now := Z.of_nat t; finished _ := false; spent := ledger_empty; pacers := ∅;
     control := SendAccepted;
     arrivals := if (t =? 0)%nat then [ready_at 1 0; ready_at 2 0; frame_from 1; frame_from 2] else [];
     frames := 0; hash_order l := l; answers := () |}.

Definition shard_cfg (declared : DedupKeySemantics) : ShardConfig :=
  {| sc_endpoint := lit "wss://ws.example"; sc_markets := [lit "will-it-rain"];
     sc_setup_timeout := 1000; sc_ingest_capacity := 4; sc_control_capacity := 4;
     sc_observer_capacity := 8; sc_level_capacity := 16; sc_max_markets := 3; sc_replicas := 2;
     sc_dedup_key := {| decl_venue := lit "limitless"; decl_family := lit "orderbookUpdate";
                        decl_field := lit "version"; semantics := declared |};
     sc_initial_backoff := 1000; sc_max_backoff := 600000; sc_exhausted_backoff := 600000;
     sc_resubscribe_window := 5000; sc_max_recovery_attempts := 5; sc_fenced_linger := 1000;
     sc_stable_after := 60000; sc_daemon_generation := 1; sc_ingest_stall := None;
     sc_daily_attempt_budget := 280; sc_min_command_interval_ms := 500 |}.

Definition shard_built (declared : DedupKeySemantics) : result sample_shard ShardError :=
  shard_new shard_env (shard_cfg declared) 0.

Definition hedged : sample_shard := get_ok (shard_built DedupOnly) eq_refl.
Definition pooled : sample_shard := get_ok (shard_built SessionMonotone) eq_refl.

Definition shard_prepared (x : sample_shard) : sample_shard :=
  ask shard_env (fun _ self => self) (prepare shard_env no_hash x).
Definition shard_noticed (x : sample_shard) : sample_shard :=
  match (shard_prepared x).(notices) with
  | n :: rest => on_wake shard_env no_hash 16 16 16 (Noticed n) ((shard_prepared x) <| notices := rest |>)
  | [] => x
  end.

Definition hedged_live : sample_shard := Nat.iter 4 shard_noticed hedged.
Definition pooled_live : sample_shard := Nat.iter 4 shard_noticed pooled.

Abbreviation hedged_ended :=
  (on_ended shard_env no_hash Primary SocketClosed (shard_prepared hedged_live)).
Abbreviation pooled_ended :=
  (on_ended shard_env no_hash Primary SocketClosed (shard_prepared pooled_live)).

Lemma shard_faithful : faithful shard_env.
Proof.
  split; [done|]. intros t. assert (H : reported sample_update) by (exists sample_frame; apply sample_decodes).
  simpl. destruct (t =? 0)%nat; [|constructor]. by repeat constructor.
Qed.

Lemma shard_noticed_turn x : rtc (Shard.turn shard_env no_hash 16 16 16) x (shard_noticed x).
Proof.
  unfold shard_noticed. destruct (shard_prepared x).(notices) as [|n rest] eqn:E; [done|].
  apply rtc_once.
  apply (turn_once shard_env no_hash 16 16 16 x (Noticed n)); [unfold segment_failure; by destruct x.(segment)|].
  by apply wakes_noticed.
Qed.

Lemma iter_turns n x : rtc (Shard.turn shard_env no_hash 16 16 16) x (Nat.iter n shard_noticed x).
Proof. induction n as [|n IH]; [done|]. etrans; [exact IH|]. apply shard_noticed_turn. Qed.

Lemma live_standing declared (x : sample_shard) : shard_built declared = Ok x ->
  let y := Nat.iter 4 shard_noticed x in
  standing shard_env no_hash 16 16 16 (shard_cfg declared) y /\
  standing shard_env no_hash 16 16 16 (shard_cfg declared) (shard_prepared y).
Proof.
  intros Hx y.
  assert (H : sharded shard_env no_hash 16 16 16 (shard_cfg declared) y).
  { exists x. split; [by apply (begun_bare _ _ 0)|apply iter_turns]. }
  split; exists y; (split; [exact H|]); [by left|by right].
Qed.

Lemma shard_sized declared : sized (shard_cfg declared).
Proof. by split. Qed.

(** The one market of a sample, in its books and in the sets of its standby. *)
Definition rain : bytes := lit "will-it-rain".
Definition live_at (x : sample_shard) : option bool := live <$> x.(markets) !! rain.

Lemma shard_books_sound_witness :
  live_at hedged_live = Some true /\
  (forall slug e, hedged_live.(markets) !! slug = Some e ->
     writer_published e.(writer) = publish (entry_book e)).
Proof.
  split; [by vm_compute|]. intros slug e He.
  apply (shard_books_sound shard_env no_hash 16 16 16 (shard_cfg DedupOnly) hedged_live shard_faithful
    (shard_sized _) (proj1 (live_standing DedupOnly hedged eq_refl)) ) in He. apply He.
Defined.

Lemma shard_accounts_exact_witness : hedged_live.(desired_count) = 1 /\
  Z.of_nat (size hedged_live.(markets)) = hedged_live.(desired_count) + len hedged_live.(removing).
Proof.
  split; [by vm_compute|].
  apply (shard_accounts_exact shard_env no_hash 16 16 16 (shard_cfg DedupOnly) hedged_live shard_faithful
    (shard_sized _) (proj1 (live_standing DedupOnly hedged eq_refl))).
Defined.

Lemma agreement_tracking_exact_witness : agreeing_markets hedged_live 0 = 1 /\
  agreeing_markets hedged_live 0 = agreeing_markets_recomputed hedged_live 0.
Proof.
  split; [by vm_compute|].
  destruct (hedged_live.(standbys) !! 0%nat) as [standby|] eqn:E; [|by vm_compute in E].
  apply (agreement_tracking_exact shard_env no_hash 16 16 16 (shard_cfg DedupOnly) hedged_live 0 standby
    shard_faithful (shard_sized _) (proj1 (live_standing DedupOnly hedged eq_refl)) E).
  by vm_compute.
Defined.

Lemma live_market (x : sample_shard) : live_at x = Some true ->
  exists e, x.(markets) !! rain = Some e /\ live e = true.
Proof. unfold live_at. intros (e & He & Hl)%fmap_Some. by exists e. Qed.

Lemma primary_end_leaves_vouched_witness :
  live_at hedged_ended = Some true /\
  exists e, (shard_prepared hedged_live).(markets) !! rain = Some e /\
    (writer <$> hedged_ended.(markets) !! rain) = Some e.(writer).
Proof.
  assert (Hlive : live_at hedged_ended = Some true) by (by vm_compute). split; [exact Hlive|].
  destruct (live_market _ Hlive) as (e' & E & Hl). rewrite E. 
  destruct (primary_end_leaves_vouched shard_env no_hash 16 16 16 (shard_cfg DedupOnly)
    (shard_prepared hedged_live) SocketClosed shard_faithful (shard_sized _)
    (proj2 (live_standing DedupOnly hedged eq_refl)) ltac:(by vm_compute) rain e' E Hl
    ltac:(by vm_compute)) as (e & He & Ew & _).
  exists e. split; [exact He|]. simpl. by rewrite Ew.
Defined.

Lemma pool_end_leaves_carried_witness :
  live_at pooled_ended = Some true /\
  exists s' a, s' <> Primary /\ active_of (shard_prepared pooled_live) s' = Some a /\ rain ∈ a.(dialled_markets).
Proof.
  assert (Hlive : live_at pooled_ended = Some true) by (by vm_compute). split; [exact Hlive|].
  destruct (live_market _ Hlive) as (e' & E & Hl). 
  destruct (pool_end_leaves_carried shard_env no_hash 16 16 16 (shard_cfg SessionMonotone)
    (shard_prepared pooled_live) Primary SocketClosed shard_faithful (shard_sized _)
    (proj2 (live_standing SessionMonotone pooled eq_refl)) ltac:(by vm_compute) rain e' E Hl
    ltac:(by vm_compute)) as (e & s' & a & _ & _ & Hne & Ha & _ & Hin).
  exists s', a. exact (conj Hne (conj Ha Hin)).
Defined.
