(* ===== verification/ShardDemand.v ===== *)
(** * What a shard's markets are wanted for

    Which markets a shard wants is moved by an operator's commands alone, and by each exactly
    as it answers: what a turn without a command leaves wanted, and what becomes of every
    market a command names and of every other. This is what a router of markets over several
    shards relies on. *)

From stdpp Require Import gmap relations.
From S2P Require Import Prelude OrdMap Numeric Identity Descriptor DedupKey Continuity Observation Book BookProps Digest Pool Channel Observer ObserverProps Session Limitless Pacing Connection QueueAge ShmWriter Supervisor SupervisorProps ShardMarket Shard ShardFloor ShardInv ShardSim ShardProps.

Section demand.
Context `{RB : Broadcast StreamDelivery} `{RL : !BroadcastLaws RB}.
Context `{WP : Watch PublishedBook} `{WL : !WatchLaws WP} `{SS : ShardSink}.
Variable env : nat -> ShardEnv.
Variable hash_one : nat -> Z -> Z.
Variables outcome_capacity type_capacity date_capacity : Z.

Abbreviation turn := (Shard.turn env hash_one outcome_capacity type_capacity date_capacity).
Abbreviation on_wake := (Shard.on_wake env hash_one outcome_capacity type_capacity date_capacity).

(** ** Steps of the floor *)

(** The demand for every market as it was. *)
Definition same_demand (f g : Floor) : Prop :=
  forall slug, wanted g.(f_markets) slug <-> wanted f.(f_markets) slug.

#[local] Instance same_demand_preorder : PreOrder same_demand.
Proof. split; [by intros f slug|]. intros f g h H1 H2 slug. etrans; [apply H2|apply H1]. Qed.

Lemma entry_demand slug g f : (forall e, (g e).(desired) = e.(desired)) ->
  same_demand f (f_entry slug g f).
Proof.
  intros Hg k. unfold wanted. cbn [f_entry f_markets set].
  destruct (decide (k = slug)) as [->|]; [|by rewrite lookup_alter_ne].
  rewrite lookup_alter_eq. destruct (f.(f_markets) !! slug) as [e|]; [|done].
  split; intros (d & [= <-] & Hd); eexists; (split; [done|]); by rewrite Hg in *.
Qed.

Lemma walk_demand visit f : keeping visit -> sound f -> same_demand f (f_walk visit f).
Proof.
  intros Hk Hf k. unfold wanted. cbn [f_walk f_retire f_markets set]. rewrite map_lookup_imap.
  destruct (f.(f_markets) !! k) as [e|] eqn:E; [|done]. simpl.
  assert (Hd : (visit k e).1.(desired) = e.(desired)) by apply Hk, (so_entries _ Hf k e E).
  split; intros (d & [= <-] & He); eexists; (split; [done|]); congruence.
Qed.

Lemma close_demand slug f : f_unwanted slug f -> same_demand f (f_close slug f).
Proof.
  intros Hu k. unfold wanted, f_close. destruct (f.(f_markets) !! slug) as [e|] eqn:E; [|done].
  cbn [f_markets set]. destruct (decide (k = slug)) as [->|].
  - rewrite lookup_delete_eq. split; [by intros (d & ? & _)|]. intros (d & Hd & Hw).
    specialize (Hu d Hd). congruence.
  - by rewrite lookup_delete_ne.
Qed.

Lemma lose_desired reason why e : (lose_entry reason why e).2.(desired) = e.(desired).
Proof. unfold lose_entry, report_entry_loss. by split_code. Qed.

Lemma apply_desired candidate e : (apply_to_entry candidate e).2.(desired) = e.(desired).
Proof. unfold apply_to_entry, accept_base. by split_code. Qed.

Lemma step_demand f g : floor_step false f g -> sound f -> same_demand f g.
Proof.
  intros Hs Hf. destruct Hs; try done.
  - intros k. change (wanted ms k <-> wanted f.(f_markets) k). unfold wanted. specialize (H k).
    destruct H as [e e' He|]; [|reflexivity].
    split; intros (d & [= <-] & Hd); eexists; (split; [done|]); by rewrite (es_desired _ _ He) in *.
  - apply (entry_demand slug (fun e => (lose_entry reason why e).2)). apply lose_desired.
  - apply (entry_demand slug (fun e => (apply_to_entry candidate e).2)). apply apply_desired.
  - by apply entry_demand.
  - by apply (walk_demand visit).
  - by apply (walk_demand visit).
  - destruct H as [?|Hu]; [done|by apply close_demand].
Qed.

Lemma steps_demand f g : rtc (floor_step false) f g -> settled f -> same_demand f g.
Proof.
  induction 1 as [|f g h Hs _ IH]; [done|]. intros [Hf Hb]. etrans; [by eapply step_demand|].
  apply IH. split; [by eapply step_sound|by eapply step_bounded].
Qed.

(** ** A run without commands *)

Section standing.
Hypothesis Henv : faithful env.
Variable cfg : ShardConfig.
Hypothesis Hcfg : sized cfg.

Abbreviation standing := (ShardProps.standing env hash_one outcome_capacity type_capacity date_capacity cfg).
Abbreviation sharded := (ShardProps.sharded env hash_one outcome_capacity type_capacity date_capacity cfg).

Lemma reached_afresh c c' f0 x : reached reported c f0 x -> reached reported c' (floor x) x.
Proof. intros [_ Hk Hl Hn]. by split; [apply rtc_refl| | |]. Qed.

Lemma sharded_standing x : sharded x -> standing x.
Proof. intros Hx. exists x. auto. Qed.

Lemma standing_afresh x c : standing x -> reached reported c (floor x) x.
Proof.
  intros Hx. apply standing_reached in Hx as (f0 & Hx); [|done..]. by eapply reached_afresh.
Qed.

Lemma reached_demand x y : reached reported false (floor x) y -> settled (floor x) ->
  forall slug, wanted y.(markets) slug <-> wanted x.(markets) slug.
Proof. intros Hy Hs slug. apply (steps_demand (floor x) (floor y)); [apply Hy|done]. Qed.

Lemma prepared_reached x c : sharded x ->
  reached reported c (floor x) (ask env (fun _ self => self) (prepare env hash_one x)).
Proof.
  intros Hx. pose proof (standing_afresh x c (sharded_standing x Hx)) as Hr.
  rewrite shard_ask_eq. eapply reached_of_floor; [apply shard_asked_quiet, Henv|].
  by apply (prepare_reached env hash_one (fa_order env Henv) reported (fa_arrivals env Henv) c (floor x) x).
Qed.

(** A turn that no command woke leaves the demand as it was. *)
Lemma idle_wake_demand x w woken : sharded x ->
  wakes_with (ask env (fun _ self => self) (prepare env hash_one x)) w woken ->
  is_command w = false ->
  forall slug, wanted (on_wake w woken).(markets) slug <-> wanted x.(markets) slug.
Proof.
  intros Hx Hw Hc. apply reached_demand; [|apply (standing_afresh x true), sharded_standing, Hx].
  eapply (shard_on_wake_reached env hash_one outcome_capacity type_capacity date_capacity
    (fa_order env Henv) reported); [by intros u|apply Henv|congruence|exact Hw|by apply prepared_reached].
Qed.

(** Only an operator changes what a shard wants. In every state of a run, a turn that is
    not woken by a command, whatever frames, losses, ends, deadlines and reissues it handles,
    leaves every market as wanted or unwanted as it was: no wanted market is ever dropped and
    none comes in by itself. *)
Theorem demand_moves_on_command_only x w woken : sharded x ->
  wakes_with (ask env (fun _ self => self) (prepare env hash_one x)) w woken ->
  is_command w = false ->
  forall slug, wanted (on_wake w woken).(markets) slug <-> wanted x.(markets) slug.
Proof. apply idle_wake_demand. Qed.

(** ** Commands *)

Lemma close_wanted slug x k :
  wanted (close env slug x).2.(markets) k <-> wanted x.(markets) k /\ k <> slug.
Proof.
  destruct (close_floor env reported (fa_arrivals env Henv) slug x) as [(E & _) _].
  apply (f_equal f_markets) in E. cbn [floor f_markets set] in E. rewrite E. unfold f_close, wanted.
  cbn [floor f_markets set]. destruct (x.(markets) !! slug) as [e|] eqn:Ex; cbn [f_markets set floor].
  - split.
    + intros (d & [Hn Hd]%lookup_delete_Some & Hw). split; [by exists d|congruence].
    + intros [(d & Hd & Hw) Hn]. exists d. by rewrite lookup_delete_ne.
  - split; [|by intros [? _]]. intros (d & Hd & Hw). split; [by exists d|]. intros ->. congruence.
Qed.

Lemma install_wanted slug x : x.(markets) !! slug = None ->
  forall k, wanted (install env slug x).2.(markets) k <->
    wanted x.(markets) k \/ ((install env slug x).1 = Ok () /\ k = slug).
Proof.
  intros Hn k. unfold install. destruct (shard_market slug) as [m|]; [|simpl; naive_solver]. cbv zeta.
  destruct (match x.(retired) !! slug with Some _ => _ | None => _ end) as [b|]; [|simpl; naive_solver].
  set (y := x <| retired ::= delete slug |>). set (w := writer_new b _).
  destruct (seat env slug w y) as [seated z] eqn:Ez.
  assert (Em : z.(markets) = x.(markets)).
  { unfold seat in Ez. destruct y.(segment) as [sink|]; [|by injection Ez as <- <-].
    rewrite shard_ask_eq in Ez. destruct (sink_install _ _ _ _) as [r sink']. by injection Ez as _ <-. }
  destruct seated as [[]|]; cbn [fst snd]; [|rewrite Em; naive_solver].
  unfold wanted. cbn [markets set]. rewrite Em. destruct (decide (k = slug)) as [->|Hne].
  - rewrite lookup_insert_eq. split; [by right|]. intros _. by eexists.
  - rewrite lookup_insert_ne by done. naive_solver.
Qed.

(** What an answer says of the market it names, before and after. *)
Definition answers_add (x y : Shard) (slug : bytes) (status : MarketStatus) : Prop :=
  match status with
  | Accepted => ~ wanted x.(markets) slug /\ wanted y.(markets) slug
  | Rejected _ => ~ wanted x.(markets) slug /\ ~ wanted y.(markets) slug
  | Removed => False
  | _ => wanted x.(markets) slug /\ wanted y.(markets) slug
  end.

Lemma add_market_exact slug x : let r := add_market env slug x in
  answers_add x r.2 slug r.1 /\
  forall k, k <> slug -> wanted r.2.(markets) k <-> wanted x.(markets) k.
Proof.
  unfold add_market, answers_add. cbv zeta. destruct (x.(markets) !! slug) as [e|] eqn:E.
  - destruct e.(desired) eqn:Ed; cbn [fst snd].
    { assert (Hw : wanted x.(markets) slug) by by exists e. split; [|done].
      unfold market_status. rewrite Ed. cbn [negb]. by destruct (entry_book e).(authority). }
    assert (Hnw : ~ wanted x.(markets) slug) by (intros (d & Hd & ?); congruence).
    destruct (_ <=? _); [done|]. destruct (installable x slug); [|done].
    pose proof (close_wanted slug x) as Hc. pose proof (close_opens env reported (fa_arrivals env Henv) slug x) as Hn.
    destruct (close env slug x) as [closed y]. cbn [fst snd] in *.
    destruct Hn as [Hn _]; [intros d Hd; congruence|]. pose proof (install_wanted slug y Hn) as Hi.
    destruct (install env slug y) as [[[]|refusal] z]; cbn [fst snd answer_install] in *.
    + split; [split; [done|]; apply Hi; auto|]. intros k Hk. rewrite Hi, Hc. naive_solver.
    + split; [split; [done|]; rewrite Hi, Hc; naive_solver|]. intros k Hk. rewrite Hi, Hc. naive_solver.
  - assert (Hnw : ~ wanted x.(markets) slug) by (intros (d & Hd & ?); congruence).
    destruct (_ || _); [done|]. pose proof (install_wanted slug x E) as Hi.
    destruct (install env slug x) as [[[]|refusal] z]; cbn [fst snd answer_install] in *.
    + split; [split; [done|]; apply Hi; auto|]. intros k Hk. rewrite Hi. naive_solver.
    + split; [split; [done|]; rewrite Hi; naive_solver|]. intros k Hk. rewrite Hi. naive_solver.
Qed.

Abbreviation adding := (fun '(outcomes, self) slug =>
  let '(status, self) := add_market env slug self in
  (outcomes ++ [{| oc_slug := slug; oc_status := status |}], self)).

Lemma adding_exact slugs : NoDup slugs -> forall outs x, let r := fold_left adding slugs (outs, x) in
  exists more, r.1 = outs ++ more /\ oc_slug <$> more = slugs /\
    Forall (fun o => answers_add x r.2 o.(oc_slug) o.(oc_status)) more /\
    forall k, k ∉ slugs -> wanted r.2.(markets) k <-> wanted x.(markets) k.
Proof.
  induction 1 as [|slug slugs Hni Hn IH]; intros outs x; cbn [fold_left fst snd].
  { exists []. by rewrite app_nil_r. }
  destruct (add_market_exact slug x) as [Ha Ho]. destruct (add_market env slug x) as [status y].
  cbn [fst snd] in *. destruct (IH (outs ++ [{| oc_slug := slug; oc_status := status |}]) y)
    as (more & -> & Hs & Hm & Hk).
  set (z := (fold_left _ _ _).2) in *. clearbody z.
  exists ({| oc_slug := slug; oc_status := status |} :: more). split_and!.
  - by rewrite <- app_assoc.
  - by rewrite fmap_cons, Hs.
  - constructor; cbn [oc_slug oc_status].
    + specialize (Hk slug Hni). unfold answers_add in *. destruct status; naive_solver.
    + rewrite Forall_forall in Hm |- *. intros o Hin. specialize (Hm o Hin).
      assert (Hos : o.(oc_slug) <> slug) by (intros E; apply Hni; rewrite <- Hs, <- E; by apply list_elem_of_fmap_2).
      specialize (Ho _ Hos). unfold answers_add in *. destruct o.(oc_status); naive_solver.
  - intros k Hni'. apply not_elem_of_cons in Hni' as [Hks Hkl]. rewrite (Hk k Hkl). by apply Ho.
Qed.

Lemma add_markets_exact slugs x : NoDup slugs -> let r := add_markets env slugs x in
  oc_slug <$> r.1 = slugs /\ Forall (fun o => answers_add x r.2 o.(oc_slug) o.(oc_status)) r.1 /\
  forall k, k ∉ slugs -> wanted r.2.(markets) k <-> wanted x.(markets) k.
Proof.
  intros Hn. unfold add_markets. destruct (adding_exact slugs Hn [] x) as (more & E & Hs & Hm & Hk).
  destruct (fold_left _ _ _) as [outs y]. cbn [fst snd app] in *. by subst.
Qed.

Lemma f_close_lookup k f slug d : (f_close k f).(f_markets) !! slug = Some d ->
  f.(f_markets) !! slug = Some d.
Proof.
  unfold f_close. destruct (f.(f_markets) !! k) as [e|]; [|done]. simpl.
  by intros [_ Hd]%lookup_delete_Some.
Qed.

Lemma f_close_removing k f slug : slug ∈ (f_close k f).(f_removing) -> slug ∈ f.(f_removing).
Proof.
  unfold f_close. destruct (f.(f_markets) !! k) as [e|]; [|done]. simpl.
  intros [Hin _]%base.list_elem_of_In%List.filter_In. by apply base.list_elem_of_In.
Qed.

(** Markets waiting for their removal are unwanted, so evicting them moves no demand. *)
Lemma evict_demand n f : (forall slug, slug ∈ f.(f_removing) -> f_unwanted slug f) ->
  same_demand f (f_evict n f).
Proof.
  revert f. induction n as [|n IH]; intros f Hr; [done|]. cbn [f_evict].
  destruct (_ <? _); [|done]. destruct f.(f_removing) as [|k rest] eqn:E; [done|].
  set (g := f <| f_removing := rest |>).
  assert (Hg : same_demand g (f_close k g)) by (apply close_demand; apply (Hr k); left).
  etrans; [exact Hg|]. apply IH. intros slug Hin%f_close_removing d Hd%f_close_lookup.
  apply (Hr slug); [by right|exact Hd].
Qed.

Lemma enqueue_wanted slug e f : settled f -> f.(f_markets) !! slug = Some e ->
  forall k, wanted (f_enqueue slug e f).(f_markets) k <-> wanted f.(f_markets) k /\ k <> slug.
Proof.
  intros [Hs _] He k. unfold f_enqueue.
  set (e' := e <| desired := false |> <| subscription := ShardMarket.Removing |>).
  match goal with |- wanted (f_evict ?n ?g).(f_markets) k <-> _ => set (h := g); set (m := n) end.
  assert (Eh : h.(f_markets) = <[slug := e']> f.(f_markets)) by done.
  assert (Hh : same_demand h (f_evict m h)).
  { apply evict_demand. intros r Hr. unfold f_unwanted. rewrite Eh. intros d.
    destruct (decide (r = slug)) as [->|Hne]; [rewrite lookup_insert_eq; by intros [= <-]|].
    rewrite lookup_insert_ne by done. intros Hd.
    assert (Hin : r ∈ f.(f_removing)).
    { apply elem_of_app in Hr as [Hr|Hr]; [|by apply list_elem_of_singleton in Hr].
      apply base.list_elem_of_In, List.filter_In in Hr as [Hr _]. by apply base.list_elem_of_In. }
    apply (so_unwanted _ Hs) in Hin as (d' & Hd' & Hw). congruence. }
  etrans; [apply (Hh k)|]. unfold wanted. rewrite Eh. destruct (decide (k = slug)) as [->|Hne].
  - rewrite lookup_insert_eq. split; [by intros (d & [= <-] & ?)|by intros [_ ?]].
  - rewrite lookup_insert_ne by done. naive_solver.
Qed.

Lemma removable_slug x slug : settled (floor x) -> wanted x.(markets) slug -> is_market_slug slug = true.
Proof.
  intros [Hs _] (e & He & _). pose proof (eo_market _ _ (so_entries _ Hs slug e He)) as Hm.
  unfold shard_market, is_market_slug in *. destruct (venue_new VENUE); [|done].
  by destruct (market_key_new Identity.slug slug).
Qed.

Definition removal_answer (slug : bytes) : MarketStatus :=
  if is_market_slug slug then Removed else Rejected InvalidIdentifier.

Lemma leaves_wanted g x y k : leaves reported g x y ->
  wanted y.(markets) k <-> wanted (g (floor x)).(f_markets) k.
Proof. intros (E & _). by apply (f_equal f_markets) in E as E'; cbn [floor f_markets] in E'; rewrite E'. Qed.

Lemma remove_market_exact slug x : settled (floor x) -> let r := remove_market env slug x in
  r.1.1 = removal_answer slug /\
  forall k, wanted r.2.(markets) k <-> wanted x.(markets) k /\ k <> slug.
Proof.
  intros Hs r. split.
  { subst r. unfold remove_market, removal_answer. destruct (is_market_slug slug); [|done]. cbn [negb].
    by destruct (withdraw_demand slug x) as [[carried|] y]. }
  intros k.
  destruct (remove_market_floor env reported (fa_arrivals env Henv) slug x) as [[E Hu]|(e & He & Hd & H)];
    fold r in E || fold r in H.
  - rewrite E. split; [|by intros [? _]]. intros Hw. split; [done|]. intros ->.
    specialize (Hu (removable_slug x slug Hs Hw)). destruct Hw as (d & Hd & Hw).
    specialize (Hu d Hd). congruence.
  - destruct H as [H|H]; rewrite (leaves_wanted _ _ _ k H); [by apply enqueue_wanted|].
    unfold wanted, f_close. cbn [floor f_markets]. rewrite He. simpl.
    destruct (decide (k = slug)) as [->|Hne].
    + rewrite lookup_delete_eq. split; [by intros (d & ? & _)|by intros [_ ?]].
    + rewrite lookup_delete_ne by done. naive_solver.
Qed.

Abbreviation removing_ := (fun '(outcomes, bumps, self) slug =>
  let '(status, bumped, self) := remove_market env slug self in
  (outcomes ++ [{| oc_slug := slug; oc_status := status |}],
   if bumped then saturating_add_u64 bumps 1 else bumps, self)).

Lemma removing_exact f0 slugs : forall outs bumps x, reached reported true f0 x ->
  let r := fold_left removing_ slugs (outs, bumps, x) in
  r.1.1 = outs ++ ((fun slug => {| oc_slug := slug; oc_status := removal_answer slug |}) <$> slugs) /\
  forall k, wanted r.2.(markets) k <-> wanted x.(markets) k /\ k ∉ slugs.
Proof.
  induction slugs as [|slug slugs IH]; intros outs bumps x Hx; cbn [fold_left fst snd].
  { rewrite app_nil_r. split; [done|]. intros k. split; [|by intros [? _]]. intros Hk. split; [done|].
    apply not_elem_of_nil. }
  destruct (remove_market_exact slug x (r_settled _ _ _ _ Hx)) as [Hs Hk].
  pose proof (remove_market_reached env reported (fa_arrivals env Henv) true eq_refl f0 slug x Hx) as Hy.
  cbv beta in Hy. destruct (remove_market env slug x) as [[status bumped] y]. cbn [fst snd] in *. subst status.
  destruct (IH (outs ++ [{| oc_slug := slug; oc_status := removal_answer slug |}])
    (if bumped then saturating_add_u64 bumps 1 else bumps) y Hy) as [-> Hz].
  split; [by rewrite <- app_assoc|]. intros k. rewrite Hz, Hk, not_elem_of_cons. naive_solver.
Qed.

Lemma remove_markets_exact slugs x : standing x -> let r := remove_markets env slugs x in
  r.1 = (fun slug => {| oc_slug := slug; oc_status := removal_answer slug |}) <$> slugs /\
  forall k, wanted r.2.(markets) k <-> wanted x.(markets) k /\ k ∉ slugs.
Proof.
  intros Hx. apply (standing_afresh x true) in Hx. unfold remove_markets.
  destruct (removing_exact _ slugs [] 0 x Hx) as [E Hk].
  by destruct (fold_left _ _ _) as [[outs bumps] y].
Qed.

(** A shard does what it answers. A batch of distinct markets to add is answered one by
    one in order: accepted means the market was not wanted and is from now on, rejected that
    it neither was nor is, and any other answer that it was wanted before and still is. A
    batch to remove leaves none of its markets wanted, answers each as removed unless it is no
    identifier, and neither command changes the demand for a market it does not name. *)
Theorem commands_do_what_they_answer slugs x : standing x ->
  (NoDup slugs -> let '(outs, y) := add_markets env slugs x in
     oc_slug <$> outs = slugs /\
     Forall (fun o => match o.(oc_status) with
       | Accepted => ~ wanted x.(markets) o.(oc_slug) /\ wanted y.(markets) o.(oc_slug)
       | Rejected _ => ~ wanted x.(markets) o.(oc_slug) /\ ~ wanted y.(markets) o.(oc_slug)
       | Removed => False
       | _ => wanted x.(markets) o.(oc_slug) /\ wanted y.(markets) o.(oc_slug)
       end) outs /\
     forall k, k ∉ slugs -> wanted y.(markets) k <-> wanted x.(markets) k) /\
  (let '(outs, y) := remove_markets env slugs x in
     outs = (fun slug => {| oc_slug := slug;
       oc_status := if is_market_slug slug then Removed else Rejected InvalidIdentifier |}) <$> slugs /\
     forall k, wanted y.(markets) k <-> wanted x.(markets) k /\ k ∉ slugs).
Proof.
  intros Hx. split.
  - intros Hn. pose proof (add_markets_exact slugs x Hn) as H. by destruct (add_markets env slugs x).
  - pose proof (remove_markets_exact slugs x Hx) as H. by destruct (remove_markets env slugs x).
Qed.
End standing.
End demand.

(** ** Samples *)

Lemma hedged_sharded :
  sharded shard_env no_hash 16 16 16 (shard_cfg DedupOnly) (Nat.iter 4 shard_noticed hedged).
Proof. exists hedged. split; [by apply (begun_bare _ _ 0)|apply iter_turns]. Qed.

Lemma demand_moves_on_command_only_witness :
  exists woken, wakes_with (shard_prepared hedged_live) (Ended Primary SocketClosed) woken /\
  (wanted (Shard.on_wake shard_env no_hash 16 16 16 (Ended Primary SocketClosed) woken).(markets) rain
   <-> wanted hedged_live.(markets) rain).
Proof.
  assert (Hw : wakes_with (shard_prepared hedged_live) (Ended Primary SocketClosed) (shard_prepared hedged_live)).
  { apply wakes_ended, not_eq_None_Some. by vm_compute. }
  exists (shard_prepared hedged_live). split; [exact Hw|].
  exact (demand_moves_on_command_only shard_env no_hash 16 16 16 shard_faithful (shard_cfg DedupOnly)
    (shard_sized _) hedged_live _ _ hedged_sharded Hw eq_refl rain).
Defined.

Definition sunny : bytes := lit "will-it-shine".

Lemma commands_do_what_they_answer_witness :
  (add_markets shard_env [sunny; rain; []] hedged_live).1 =
    [{| oc_slug := sunny; oc_status := Accepted |}; {| oc_slug := rain; oc_status := StatusLive |};
     {| oc_slug := []; oc_status := Rejected InvalidIdentifier |}] /\
  (forall k, wanted (remove_markets shard_env [rain; sunny] hedged_live).2.(markets) k <->
     wanted hedged_live.(markets) k /\ k ∉ [rain; sunny]).
Proof.
  split; [by vm_compute|].
  destruct (commands_do_what_they_answer shard_env no_hash 16 16 16 shard_faithful (shard_cfg DedupOnly)
    (shard_sized _) [rain; sunny] hedged_live (proj1 (live_standing DedupOnly hedged eq_refl))) as [_ H].
  destruct (remove_markets shard_env [rain; sunny] hedged_live) as [outs y]. exact (proj2 H).
Defined.
