(* ===== verification/Daemon.v ===== *)
(** * The daemon's configuration ([src/src/daemon.rs])

    A configuration document, its validation and the plan it becomes: the market set split
    over shards, each with its [ShardConfig], and the geometry of the segments. Parsing the
    document into [DaemonConfig] is TOML's and serde's; what the validation asks of the file
    system (whether a path is a directory) is an argument. [validate_accepts_exactly] says
    which documents are accepted, [plan_partitions_markets] what the plan of one is, and
    [planned_shards_build] that every shard of it can be built. *)

From stdpp Require Import gmap.
From S2P Require Import Prelude OrdMap Numeric Identity Descriptor DedupKey Continuity Observation Book Digest Pool Channel Observer Session Limitless Pacing Connection QueueAge ShmLayout ShmWriter Supervisor ShardMarket Shard.

(** ** Paths and socket addresses, as the standard library reads them on Unix *)

Fixpoint is_prefix_of (p s : bytes) : bool :=
  match p, s with
  | [], _ => true
  | x :: p, y :: s => (x =? y) && is_prefix_of p s
  | _, [] => false
  end.

Definition SLASH : Z := 47.
Definition DOT : Z := 46.

Definition is_absolute (path : bytes) : bool := starts_with SLASH path.

(** [Path::components] ignores repeated separators and [.] components; on the reversed text
    of an absolute path, the separators and ignored components at its end are dropped, down
    to the root. *)
Fixpoint trim_separators (reversed : bytes) : bytes :=
  match reversed with
  | c :: rest =>
      if c =? SLASH then match rest with [] => reversed | _ => trim_separators rest end
      else match rest with
           | d :: _ => if (c =? DOT) && (d =? SLASH) then trim_separators rest else reversed
           | [] => reversed
           end
  | [] => []
  end.

Fixpoint drop_component (reversed : bytes) : bytes :=
  match reversed with
  | c :: rest => if c =? SLASH then reversed else drop_component rest
  | [] => []
  end.

(** [Path::parent] of an absolute path: everything before its last component. *)
Definition parent (path : bytes) : option bytes :=
  match trim_separators (rev path) with
  | [_] => None
  | reversed => Some (rev (trim_separators (drop_component reversed)))
  end.

(** [core::net]'s parser: a function from the text left to what was read of it and the rest,
    [None] when it read nothing. *)
Definition parser (A : Type) : Type := bytes -> option (A * bytes).

Definition given_char (c : Z) : parser () := fun s =>
  match s with x :: s => if x =? c then Some ((), s) else None | [] => None end.

Definition to_digit (radix c : Z) : option Z :=
  let value := if in_range 48 57 c then Some (c - 48)
               else if in_range 97 122 c then Some (c - 87)
               else if in_range 65 90 c then Some (c - 55) else None in
  v ← value; if v <? radix then Some v else None.

Fixpoint read_digits (radix max : Z) (left_ : option nat) (result : Z) (s : bytes) :
    option (Z * bytes) :=
  match s with
  | [] => Some (result, [])
  | c :: rest =>
      match to_digit radix c with
      | None => Some (result, s)
      | Some d =>
          match left_ with
          | Some O => None
          | _ => let result := result * radix + d in
                 if max <? result then None
                 else read_digits radix max (pred <$> left_) result rest
          end
      end
  end.

(** [read_number]: at least one digit, at most [max_digits], the value at most [max], and no
    leading zero unless [zeros] allows one. *)
Definition read_number (radix max : Z) (max_digits : option nat) (zeros : bool) : parser Z :=
  fun s =>
    '(n, rest) ← read_digits radix max max_digits 0 s;
    let digits := len s - len rest in
    if digits =? 0 then None
    else if negb zeros && starts_with 48 s && (1 <? digits) then None
    else Some (n, rest).

Definition read_separator {A} (c : Z) (index : nat) (p : parser A) : parser A := fun s =>
  match index with O => p s | S _ => '(_, s) ← given_char c s; p s end.

Inductive IpAddr : Set := V4 (octets : list Z) | V6 (groups : list Z).
Record SocketAddr : Set := { ip : IpAddr; port : Z; scope_id : Z }.

Fixpoint read_octets (fuel index : nat) : parser (list Z) := fun s =>
  match fuel with
  | O => Some ([], s)
  | S fuel =>
      '(octet, s) ← read_separator DOT index (read_number 10 255 (Some 3%nat) false) s;
      '(octets, s) ← read_octets fuel (S index) s;
      Some (octet :: octets, s)
  end.
Definition read_ipv4_addr : parser (list Z) := read_octets 4 0.

(** [read_groups] with room for [limit] groups left, the next of which is [index]: the groups
    read and whether they end in an embedded IPv4 address. *)
Fixpoint read_groups (limit index : nat) (s : bytes) : (list Z * bool) * bytes :=
  match limit with
  | O => (([], false), s)
  | S limit =>
      let embedded := match limit with
                      | O => None
                      | S _ => read_separator 58 index read_ipv4_addr s
                      end in
      match embedded with
      | Some ([a; b; c; d], s) => (([a * 256 + b; c * 256 + d], true), s)
      | _ =>
          match read_separator 58 index (read_number 16 65535 (Some 4%nat) true) s with
          | Some (group, s) =>
              let '((groups, v4), s) := read_groups limit (S index) s in
              ((group :: groups, v4), s)
          | None => (([], false), s)
          end
      end
  end.

Definition read_ipv6_addr : parser (list Z) := fun s =>
  let '((head, head_ipv4), s) := read_groups 8 0 s in
  if Nat.eqb (length head) 8 then Some (head, s)
  else if head_ipv4 then None
  else
    '(_, s) ← given_char 58 s;
    '(_, s) ← given_char 58 s;
    let '((tail, _), s) := read_groups (8 - (length head + 1)) 0 s in
    Some (head ++ replicate (8 - length head - length tail) 0 ++ tail, s).

Definition read_port : parser Z := fun s =>
  '(_, s) ← given_char 58 s; read_number 10 65535 None true s.

Definition read_socket_addr_v4 : parser SocketAddr := fun s =>
  '(octets, s) ← read_ipv4_addr s;
  '(port, s) ← read_port s;
  Some ({| ip := V4 octets; port := port; scope_id := 0 |}, s).

Definition read_socket_addr_v6 : parser SocketAddr := fun s =>
  '(_, s) ← given_char 91 s;
  '(groups, s) ← read_ipv6_addr s;
  let '(scope, s) := match '(_, s) ← given_char 37 s; read_number 10 U32_MAX None true s with
                     | Some read => read
                     | None => (0, s)
                     end in
  '(_, s) ← given_char 93 s;
  '(port, s) ← read_port s;
  Some ({| ip := V6 groups; port := port; scope_id := scope |}, s).

(** [str::parse::<SocketAddr>]. *)
Definition socket_addr_parse (s : bytes) : option SocketAddr :=
  match match read_socket_addr_v4 s with Some read => Some read | None => read_socket_addr_v6 s end with
  | Some (address, []) => Some address
  | _ => None
  end.

(** ** Constants *)

Definition saturating_mul_usize (x y : Z) : Z := Z.min USIZE_MAX (x * y).

Definition SEGMENT_CHURN_DIVISOR : Z := 4.
Definition MAX_CONTROL_SOCKET_PATH_BYTES : Z := 100.
Definition MAX_LEASE_TTL_MS : Z := 365 * 24 * 60 * 60 * 1000.
Definition MIN_LEASE_TTL_MS : Z := 1000.
Definition MIN_CAPACITY : Z := 1.
Definition MAX_QUEUE_CAPACITY : Z := 1048576.
Definition DESCRIPTORS_PER_SHARD : Z := 3.
Definition DESCRIPTORS_PER_CONNECTION_ROLE : Z := 2.
Definition DESCRIPTORS_BASE : Z := 5.
Definition DESCRIPTOR_SLACK : Z := 16.
Definition DEFAULT_SHARD_MARKETS : Z := 1024.
Definition MAX_BOOK_LEVELS : Z := 4096.
Definition DEFAULT_ENDPOINT : bytes :=
  lit "wss://ws.limitless.exchange/socket.io/?EIO=4&transport=websocket".

Definition descriptor_envelope (shards replicas : Z) (metrics_listener : bool) : Z :=
  let listener := if metrics_listener then 1 else 0 in
  let sockets := saturating_mul_usize replicas DESCRIPTORS_PER_CONNECTION_ROLE in
  saturating_add_usize
    (saturating_add_usize
       (saturating_add_usize
          (saturating_mul_usize shards (saturating_add_usize DESCRIPTORS_PER_SHARD sockets))
          DESCRIPTORS_BASE)
       DESCRIPTOR_SLACK)
    listener.

(** ** Delivery profiles *)

Inductive DeliveryProfile : Set := Common | Hot | Scale.

Definition profile_markets_per_shard (self : DeliveryProfile) : Z :=
  match self with Common => 128 | Hot => 64 | Scale => 25000 end.
Definition profile_level_capacity (self : DeliveryProfile) : Z :=
  match self with Common | Hot => MAX_BOOK_LEVELS | Scale => 256 end.
Definition profile_observer_capacity (self : DeliveryProfile) : Z :=
  match self with Common => 1024 | Hot => 4096 | Scale => 64 end.
Definition profile_segment_slots (self : DeliveryProfile) : Z :=
  match self with Common => 160 | Hot => 80 | Scale => 32768 end.
Definition profile_event_capacity (self : DeliveryProfile) : Z :=
  match self with Common => 256 | Hot => 4096 | Scale => 32 end.
Definition profile_dirty_capacity (self : DeliveryProfile) : Z :=
  match self with Common => 4096 | Hot => 16384 | Scale => 65536 end.

Definition DEFAULT_MARKETS_PER_SHARD : Z := profile_markets_per_shard Common.

(** ** The document *)

Record DeliveryConfig : Set := {
  dl_directory : option bytes; dl_profile : DeliveryProfile; dl_segment_slots : option Z;
  dl_event_capacity : option Z; dl_dirty_capacity : option Z
}.

Record DaemonConfig : Set := {
  dc_endpoint : bytes; dc_control_socket : bytes; dc_markets : list bytes;
  dc_markets_per_shard : option Z; dc_replicas : Z; dc_max_venue_connections : option Z;
  dc_observer_capacity : option Z; dc_level_capacity : option Z; dc_ingest_capacity : Z;
  dc_control_capacity : Z; dc_daemon_generation : Z; dc_lease_ttl_ms : Z;
  dc_metrics_listen : option bytes; dc_delivery : DeliveryConfig;
  dc_daily_connection_attempt_budget : Z; dc_min_command_interval_ms : Z;
  dc_max_control_sessions : Z
}.

(** What an absent key is. *)
Definition default_endpoint : bytes := DEFAULT_ENDPOINT.
Definition default_ingest_capacity : Z := 1024.
Definition default_control_capacity : Z := 64.
Definition default_replicas : Z := 1.
Definition default_daemon_generation : Z := 1.
Definition default_daily_connection_attempt_budget : Z := DAILY_ATTEMPT_BUDGET.
Definition default_min_command_interval_ms : Z := Z.min U64_MAX (as_millis MIN_COMMAND_INTERVAL).
Definition default_max_control_sessions : Z := 256.
Definition delivery_default : DeliveryConfig :=
  {| dl_directory := None; dl_profile := Common; dl_segment_slots := None;
     dl_event_capacity := None; dl_dirty_capacity := None |}.

(** The document that names nothing but its control socket. *)
Definition config_default (control_socket : bytes) : DaemonConfig :=
  {| dc_endpoint := default_endpoint; dc_control_socket := control_socket; dc_markets := [];
     dc_markets_per_shard := None; dc_replicas := default_replicas;
     dc_max_venue_connections := None; dc_observer_capacity := None; dc_level_capacity := None;
     dc_ingest_capacity := default_ingest_capacity;
     dc_control_capacity := default_control_capacity;
     dc_daemon_generation := default_daemon_generation; dc_lease_ttl_ms := 0;
     dc_metrics_listen := None; dc_delivery := delivery_default;
     dc_daily_connection_attempt_budget := default_daily_connection_attempt_budget;
     dc_min_command_interval_ms := default_min_command_interval_ms;
     dc_max_control_sessions := default_max_control_sessions |}.

(** ** Refusals and plans *)

Inductive ConfigError : Set :=
| ConfigRead (path message : bytes)
| ConfigParse (message : bytes)
| ConfigEndpoint
| ConfigMarket (slug : bytes) (reason : IdentityError)
| DuplicateMarket (slug : bytes)
| MarketsPerShard (limit : Z)
| ShardsExceedConnectionCap (shards peak_sockets cap : Z)
| DailyAttemptBudget (budget ceiling : Z)
| CommandInterval (interval_ms ceiling : Z)
| LeaseTtl (key : bytes) (ttl_ms ceiling : Z)
| LeaseTtlTooShort (key : bytes) (ttl_ms floor : Z)
| MetricsListen (value : bytes)
| ConfigControlSocket (message : bytes)
| ControlSocketTooLong (bytes_ limit : Z)
| ConfigCapacity (field : bytes) (limit : Z)
| ConfigReplicas (limit : Z)
| SegmentSlots (slots markets_per_shard : Z)
| SegmentGeometry (error : LayoutError)
| SegmentDirectory (message : bytes).

Record DeliveryPlan : Set := { directory : bytes; layout : SegmentLayout }.

(** Durations in nanoseconds. *)
Record DaemonPlan : Set := {
  control_socket : bytes; lease_ttl : option Z; max_control_sessions : Z;
  metrics_listen : option SocketAddr; shards : list ShardConfig; delivery : DeliveryPlan
}.

Definition plan_markets_per_shard (self : DaemonPlan) : Z :=
  match self.(shards) with
  | shard :: _ => shard.(sc_max_markets)
  | [] => DEFAULT_MARKETS_PER_SHARD
  end.

Definition plan_replicas (self : DaemonPlan) : Z :=
  match self.(shards) with shard :: _ => shard.(sc_replicas) | [] => 1 end.

(** [ShardConfig::default]. *)
Definition shard_config_default : ShardConfig :=
  {| sc_endpoint := DEFAULT_ENDPOINT; sc_markets := []; sc_setup_timeout := 15 * NANOS_PER_SEC;
     sc_ingest_capacity := 1024; sc_control_capacity := 64; sc_observer_capacity := 1024;
     sc_level_capacity := MAX_BOOK_LEVELS; sc_max_markets := DEFAULT_SHARD_MARKETS;
     sc_replicas := 1; sc_dedup_key := ORDERBOOK_UPDATE_DEDUP_KEY;
     sc_initial_backoff := 1 * NANOS_PER_SEC; sc_max_backoff := 600 * NANOS_PER_SEC;
     sc_exhausted_backoff := 600 * NANOS_PER_SEC; sc_resubscribe_window := 5 * NANOS_PER_SEC;
     sc_max_recovery_attempts := 5; sc_fenced_linger := 1 * NANOS_PER_SEC;
     sc_stable_after := 60 * NANOS_PER_SEC; sc_daemon_generation := 1; sc_ingest_stall := None;
     sc_daily_attempt_budget := DAILY_ATTEMPT_BUDGET;
     sc_min_command_interval_ms := Z.min U64_MAX (as_millis MIN_COMMAND_INTERVAL) |}.

(** ** Validation *)

Section validation.

(** What the file system says: whether a path is a directory. *)
Variable is_dir : bytes -> bool.

Definition capacity (field : bytes) (value limit : Z) : result () ConfigError :=
  refuse (value <? MIN_CAPACITY) || (limit <? value) with ConfigCapacity field limit ;;
  Ok ().

Definition validate_directory (path : bytes) : result () ConfigError :=
  refuse negb (is_absolute path) with SegmentDirectory (lit "must be an absolute path") ;;
  refuse negb (is_dir path) with SegmentDirectory (path ++ lit " is not a directory") ;;
  Ok ().

Definition validate_socket_path (path : bytes) : result () ConfigError :=
  refuse len path =? 0 with ConfigControlSocket (lit "must not be empty") ;;
  refuse negb (is_absolute path) with ConfigControlSocket (lit "must be an absolute path") ;;
  refuse MAX_CONTROL_SOCKET_PATH_BYTES <? len path
    with ControlSocketTooLong (len path) MAX_CONTROL_SOCKET_PATH_BYTES ;;
  above <-? ok_or (parent path) (ConfigControlSocket (lit "names no directory")) ;;
  refuse negb (is_dir above)
    with ConfigControlSocket (lit "is in " ++ above ++ lit ", which is not a directory") ;;
  Ok ().

(** [u32::try_from(value).unwrap_or(u32::MAX)]. *)
Definition narrow (value : Z) : Z := default U32_MAX (checked 0 U32_MAX value).

Definition segment_layout (slots level_capacity events dirty : Z) :
    result SegmentLayout ConfigError :=
  map_err SegmentGeometry
    (layout_new (narrow slots) (narrow slots) (narrow level_capacity) (narrow events)
       (narrow dirty)).

Definition delivery_slots (self : DaemonConfig) (markets_per_shard : Z) : Z :=
  match self.(dc_delivery).(dl_segment_slots) with
  | Some slots => slots
  | None => Z.max (profile_segment_slots self.(dc_delivery).(dl_profile))
              (Z.max (saturating_add_usize markets_per_shard
                        (markets_per_shard / SEGMENT_CHURN_DIVISOR))
                 markets_per_shard)
  end.

Definition delivery_plan (self : DaemonConfig) (markets_per_shard level_capacity : Z) :
    result DeliveryPlan ConfigError :=
  let profile := self.(dc_delivery).(dl_profile) in
  let slots := delivery_slots self markets_per_shard in
  refuse slots <? markets_per_shard with SegmentSlots slots markets_per_shard ;;
  let events := default (profile_event_capacity profile) self.(dc_delivery).(dl_event_capacity) in
  let dirty := default (profile_dirty_capacity profile) self.(dc_delivery).(dl_dirty_capacity) in
  layout <-? segment_layout slots level_capacity events dirty ;;
  directory <-? match self.(dc_delivery).(dl_directory) with
                | Some directory => _ <-? validate_directory directory ;; Ok directory
                | None => ok_or (parent self.(dc_control_socket))
                            (SegmentDirectory
                               (lit "was not given and the control socket names no directory"))
                end ;;
  Ok {| directory := directory; layout := layout |}.

(** The first element equal to the one before it. *)
Fixpoint repeated (l : list bytes) : option bytes :=
  match l with
  | x :: l => match l with
              | y :: _ => if decide (x = y) then Some x else repeated l
              | [] => None
              end
  | [] => None
  end.

Fixpoint validate_markets (l : list bytes) : result () ConfigError :=
  match l with
  | [] => Ok ()
  | slug_ :: l =>
      _ <-? map_err (ConfigMarket slug_) (market_key_new Identity.slug slug_) ;;
      validate_markets l
  end.

(** [slice::chunks], the fuel being the length: a run is never empty. *)
Fixpoint chunks_from (fuel n : nat) (l : list bytes) : list (list bytes) :=
  match fuel, l with
  | S fuel, _ :: _ => take n l :: chunks_from fuel n (drop n l)
  | _, _ => []
  end.
Definition chunks (n : nat) (l : list bytes) : list (list bytes) := chunks_from (length l) n l.

Definition shard_template (self : DaemonConfig)
    (observer_capacity level_capacity markets_per_shard : Z) : ShardConfig :=
  shard_config_default
    <| sc_endpoint := self.(dc_endpoint) |> <| sc_markets := [] |>
    <| sc_ingest_capacity := self.(dc_ingest_capacity) |>
    <| sc_control_capacity := self.(dc_control_capacity) |>
    <| sc_observer_capacity := observer_capacity |> <| sc_level_capacity := level_capacity |>
    <| sc_max_markets := markets_per_shard |> <| sc_replicas := self.(dc_replicas) |>
    <| sc_daemon_generation := self.(dc_daemon_generation) |>
    <| sc_daily_attempt_budget := self.(dc_daily_connection_attempt_budget) |>
    <| sc_min_command_interval_ms := self.(dc_min_command_interval_ms) |>.

Definition validate (self : DaemonConfig) : result DaemonPlan ConfigError :=
  refuse bool_decide (self.(dc_endpoint) = []) ||
         negb (is_prefix_of (lit "ws://") self.(dc_endpoint) ||
               is_prefix_of (lit "wss://") self.(dc_endpoint)) with ConfigEndpoint ;;
  _ <-? validate_socket_path self.(dc_control_socket) ;;
  let profile := self.(dc_delivery).(dl_profile) in
  let markets_per_shard :=
    default (profile_markets_per_shard profile) self.(dc_markets_per_shard) in
  let observer_capacity :=
    default (profile_observer_capacity profile) self.(dc_observer_capacity) in
  let level_capacity := default (profile_level_capacity profile) self.(dc_level_capacity) in
  refuse (markets_per_shard =? 0) || (MAX_SHARD_MARKETS <? markets_per_shard)
    with MarketsPerShard MAX_SHARD_MARKETS ;;
  _ <-? capacity (lit "observer_capacity") observer_capacity MAX_QUEUE_CAPACITY ;;
  _ <-? capacity (lit "level_capacity") level_capacity MAX_LEVEL_CAPACITY ;;
  _ <-? capacity (lit "ingest_capacity") self.(dc_ingest_capacity) MAX_QUEUE_CAPACITY ;;
  _ <-? capacity (lit "control_capacity") self.(dc_control_capacity) MAX_QUEUE_CAPACITY ;;
  _ <-? capacity (lit "max_control_sessions") self.(dc_max_control_sessions)
          MAX_QUEUE_CAPACITY ;;
  refuse WORST_CASE_ATTEMPT_CEILING <? self.(dc_daily_connection_attempt_budget)
    with DailyAttemptBudget self.(dc_daily_connection_attempt_budget)
           WORST_CASE_ATTEMPT_CEILING ;;
  refuse MAX_COMMAND_INTERVAL_MS <? self.(dc_min_command_interval_ms)
    with CommandInterval self.(dc_min_command_interval_ms) MAX_COMMAND_INTERVAL_MS ;;
  refuse MAX_LEASE_TTL_MS <? self.(dc_lease_ttl_ms)
    with LeaseTtl (lit "lease_ttl_ms") self.(dc_lease_ttl_ms) MAX_LEASE_TTL_MS ;;
  refuse (0 <? self.(dc_lease_ttl_ms)) && (self.(dc_lease_ttl_ms) <? MIN_LEASE_TTL_MS)
    with LeaseTtlTooShort (lit "lease_ttl_ms") self.(dc_lease_ttl_ms) MIN_LEASE_TTL_MS ;;
  metrics <-? match self.(dc_metrics_listen) with
              | Some value =>
                  address <-? ok_or (socket_addr_parse value) (MetricsListen value) ;;
                  Ok (Some address)
              | None => Ok None
              end ;;
  delivery <-? delivery_plan self markets_per_shard level_capacity ;;
  let markets := sort_slugs self.(dc_markets) in
  _ <-? match repeated markets with Some slug => Err (DuplicateMarket slug) | None => Ok () end ;;
  _ <-? validate_markets markets ;;
  let shard_count := Z.max (QueueAge.div_ceil (len markets) markets_per_shard) 1 in
  refuse (self.(dc_replicas) =? 0) || (MAX_REPLICAS <? self.(dc_replicas))
    with ConfigReplicas MAX_REPLICAS ;;
  _ <-? match self.(dc_max_venue_connections) with
        | Some cap =>
            _ <-? capacity (lit "max_venue_connections") cap USIZE_MAX ;;
            let peak_sockets :=
              saturating_mul_usize (saturating_mul_usize shard_count 2) self.(dc_replicas) in
            refuse cap <? peak_sockets
              with ShardsExceedConnectionCap shard_count peak_sockets cap ;;
            Ok ()
        | None => Ok ()
        end ;;
  let template := shard_template self observer_capacity level_capacity markets_per_shard in
  let planned := (fun chunk => template <| sc_markets := chunk |>) <$>
                 chunks (Z.to_nat markets_per_shard) markets in
  Ok {| control_socket := self.(dc_control_socket);
        lease_ttl := if 0 <? self.(dc_lease_ttl_ms)
                     then Some (from_millis self.(dc_lease_ttl_ms)) else None;
        max_control_sessions := self.(dc_max_control_sessions); metrics_listen := metrics;
        shards := match planned with [] => [template] | _ => planned end;
        delivery := delivery |}.

(** [DaemonConfig::parse] and [DaemonConfig::load]; [from_str] is the TOML library with the
    document's derived deserializer, [read] the file system. *)
Section loading.
Variable from_str : bytes -> result DaemonConfig bytes.
Variable read : bytes -> result bytes bytes.

Definition config_parse (text : bytes) : result DaemonPlan ConfigError :=
  config <-? map_err ConfigParse (from_str text) ;;
  validate config.

Definition config_load (path : bytes) : result DaemonPlan ConfigError :=
  text <-? map_err (ConfigRead path) (read path) ;;
  config_parse text.
End loading.
End validation.

(** ** Names of segments *)

(** The last [n] hexadecimal digits, lower case. *)
Fixpoint hex_digits (n : nat) (v : Z) : bytes :=
  match n with
  | O => []
  | S n => let d := v mod 16 in hex_digits n (v / 16) ++ [if d <? 10 then 48 + d else 87 + d]
  end.

Definition segment_file_name (daemon_instance_id : Z) (shard : Z) : bytes :=
  lit "pmws-" ++ hex_digits 32 daemon_instance_id ++ lit "-" ++ to_decimal shard ++ lit ".seg".

Definition MAX_SEGMENT_FILE_NAME_BYTES : Z := 5 + 32 + 1 + 20 + 4.

(** [hash_one] is the standard library's randomly seeded hasher. *)
Definition random_instance_id (hash_one : nat -> Z -> Z) : Z :=
  let high := hash_one 0%nat 0xA5A5A5A5 in
  let low := hash_one 1%nat 0x5A5A5A5A in
  Z.lor (Z.shiftl high 64) low.
