(* ===== verification/DaemonProps.v ===== *)
(** * What a validated configuration is

    Which documents the daemon accepts, that the plan of one partitions its markets, depends
    on the set of them alone and carries every other setting, and that every shard of it can
    be built. *)

From stdpp Require Import gmap sorting.
From S2P Require Import Prelude OrdMap Numeric Identity Descriptor DedupKey Continuity Observation Book Digest Pool Channel Observer Session Limitless Pacing Connection QueueAge ShmLayout ShmWriter Supervisor ShardMarket Shard ShardProps Daemon.

(** ** Sorted market sets *)

Abbreviation slug_le := (key_le (cmp_list Z.compare)).
Abbreviation slug_lt := (key_lt (cmp_list Z.compare)).

Lemma slugs_wf (l : list bytes) : Forall (Forall (fun _ : Z => True)) l.
Proof. by induction l; constructor; [apply Forall_true|]. Qed.

Lemma byte_wf (l : bytes) : Forall (fun _ : Z => True) l.
Proof. by apply Forall_true. Qed.

#[export] Instance slug_le_antisymm : AntiSymm (=) slug_le.
Proof.
  intros x y Hxy Hyx. pose proof (cmp_flip (cmp := cmp_list Z.compare) x y (byte_wf x) (byte_wf y)) as Hf.
  unfold key_le in *. destruct (cmp_list Z.compare x y) eqn:E; [|by rewrite Hf in Hyx|done].
  by apply (cmp_eq (cmp := cmp_list Z.compare)) in E; try apply byte_wf.
Qed.

Lemma sort_slugs_sorted l : StronglySorted slug_le (sort_slugs l).
Proof. apply sort_by_sorted with (wf := Forall (fun _ => True)); [apply _|apply slugs_wf]. Qed.

Lemma sort_slugs_perm l : sort_slugs l ≡ₚ l.
Proof. apply sort_by_perm. Qed.

(** The order a set was typed in does not show in its sorted form. *)
Lemma sort_slugs_permuted l k : l ≡ₚ k -> sort_slugs l = sort_slugs k.
Proof.
  intros Hp. eapply StronglySorted_unique; [apply _|apply sort_slugs_sorted..|].
  by rewrite !sort_slugs_perm.
Qed.

Lemma repeated_None (l : list bytes) : StronglySorted slug_le l -> repeated l = None <-> NoDup l.
Proof.
  induction 1 as [|x l Hs IH Hx]; [split; [constructor|done]|]. cbn [repeated].
  destruct l as [|y l]; [split; [intros _; apply NoDup_singleton|done]|].
  destruct (decide (x = y)) as [->|Hne].
  - split; [done|]. intros Hn. apply NoDup_cons in Hn as [[] _]. by left.
  - rewrite IH, (NoDup_cons x). split; [|by intros [_ ?]]. intros Hn. split; [|done].
    intros [->|Hin]%elem_of_cons; [done|]. apply StronglySorted_inv in Hs as [_ Hy].
    apply Forall_cons_1 in Hx as [Hxy _]. rewrite Forall_forall in Hy. apply Hne.
    by apply (anti_symm slug_le); [|apply Hy].
Qed.

Lemma repeated_elem l x : repeated l = Some x -> x ∈ l.
Proof.
  induction l as [|y [|z l] IH]; cbn [repeated]; [done..|].
  destruct (decide (y = z)) as [->|_]; [intros [= ->]; left|intros E; right; by apply IH].
Qed.

Lemma validate_markets_Ok l :
  validate_markets l = Ok () <-> Forall (fun slug => is_market_slug slug = true) l.
Proof.
  induction l as [|x l IH]; cbn [validate_markets]; [split; [constructor|done]|].
  rewrite Forall_cons, <- IH. unfold is_market_slug.
  destruct (market_key_new Identity.slug x); simpl; naive_solver.
Qed.

(** ** Runs of a fixed size *)

Lemma chunks_from_spec n fuel l : (0 < n)%nat -> (length l <= fuel)%nat ->
  concat (chunks_from fuel n l) = l /\
  Forall (fun c => 0 < length c <= n)%nat (chunks_from fuel n l) /\
  forall i c, chunks_from fuel n l !! i = Some c ->
    (S i < length (chunks_from fuel n l))%nat -> length c = n.
Proof.
  intros Hn. revert l. induction fuel as [|fuel IH]; intros l Hl.
  { destruct l; [|simpl in Hl; lia]. by split_and!; [|constructor|intros i c ?]. }
  destruct l as [|x l]; [by split_and!; [|constructor|intros i c ?]|].
  cbn [chunks_from]. destruct (IH (drop n (x :: l))) as (Hc & Hf & Hi).
  { rewrite length_drop. simpl in *. lia. }
  split_and!.
  - cbn [concat]. by rewrite Hc, take_drop.
  - constructor; [|done]. rewrite length_take. simpl. lia.
  - intros [|i] c; simpl; [|intros E Hlt; apply (Hi i c E); lia]. intros [= <-] Hlt.
    rewrite length_take. destruct (decide (n <= length (x :: l))%nat) as [?|?]; [lia|].
    rewrite drop_ge in Hlt by lia. destruct fuel; simpl in Hlt; lia.
Qed.

Lemma div_ceil_0 n : 0 < n -> QueueAge.div_ceil 0 n = 0.
Proof. intros Hn. apply Z.div_small. lia. Qed.

Lemma chunks_length n fuel l : (0 < n)%nat -> (length l <= fuel)%nat ->
  len (chunks_from fuel n l) = QueueAge.div_ceil (len l) (Z.of_nat n).
Proof.
  intros Hn. revert l. induction fuel as [|fuel IH]; intros l Hl.
  { destruct l; [|simpl in Hl; lia]. symmetry. apply div_ceil_0. lia. }
  destruct l as [|x l]; [symmetry; apply div_ceil_0; lia|].
  cbn [chunks_from]. rewrite len_cons, IH by (rewrite length_drop; simpl in *; lia).
  unfold QueueAge.div_ceil, len. rewrite length_drop. set (k := length (x :: l)).
  assert (0 < k)%nat by (subst k; simpl; lia).
  destruct (decide (n <= k)%nat) as [?|?].
  - replace (Z.of_nat k + Z.of_nat n - 1) with (Z.of_nat (k - n) + Z.of_nat n - 1 + 1 * Z.of_nat n) by lia.
    rewrite Z.div_add by lia. lia.
  - replace (k - n)%nat with O by lia. rewrite Z.div_small by lia.
    apply (Z.div_unique_pos _ _ (1 + 0) (Z.of_nat k - 1)); lia.
Qed.

(** ** Acceptance *)

Definition per_shard (doc : DaemonConfig) : Z :=
  default (profile_markets_per_shard doc.(dc_delivery).(dl_profile)) doc.(dc_markets_per_shard).
Definition observers (doc : DaemonConfig) : Z :=
  default (profile_observer_capacity doc.(dc_delivery).(dl_profile)) doc.(dc_observer_capacity).
Definition depth (doc : DaemonConfig) : Z :=
  default (profile_level_capacity doc.(dc_delivery).(dl_profile)) doc.(dc_level_capacity).
Definition events (doc : DaemonConfig) : Z :=
  default (profile_event_capacity doc.(dc_delivery).(dl_profile))
    doc.(dc_delivery).(dl_event_capacity).
Definition dirty (doc : DaemonConfig) : Z :=
  default (profile_dirty_capacity doc.(dc_delivery).(dl_profile))
    doc.(dc_delivery).(dl_dirty_capacity).
Definition shard_count (doc : DaemonConfig) : Z :=
  Z.max (QueueAge.div_ceil (len doc.(dc_markets)) (per_shard doc)) 1.

(** Numbers are what their types hold, and the list of markets fits the address space. *)
Record typed (doc : DaemonConfig) : Prop := {
  ty_per_shard : 0 <= per_shard doc;
  ty_replicas : 0 <= doc.(dc_replicas);
  ty_ttl : 0 <= doc.(dc_lease_ttl_ms);
  ty_markets : len doc.(dc_markets) < 2 ^ 60;
  ty_cap : forall cap, doc.(dc_max_venue_connections) = Some cap -> cap <= USIZE_MAX
}.

Section acceptance.
Variable is_dir : bytes -> bool.

Record acceptable (doc : DaemonConfig) : Prop := {
  ac_endpoint : is_prefix_of (lit "ws://") doc.(dc_endpoint) = true \/
                is_prefix_of (lit "wss://") doc.(dc_endpoint) = true;
  ac_socket : is_absolute doc.(dc_control_socket) = true /\ len doc.(dc_control_socket) <= 100 /\
              exists above, parent doc.(dc_control_socket) = Some above /\ is_dir above = true;
  ac_per_shard : 1 <= per_shard doc <= 32768;
  ac_observers : 1 <= observers doc <= 1048576;
  ac_depth : 1 <= depth doc <= 4096;
  ac_queues : 1 <= doc.(dc_ingest_capacity) <= 1048576 /\
              1 <= doc.(dc_control_capacity) <= 1048576 /\
              1 <= doc.(dc_max_control_sessions) <= 1048576;
  ac_pacing : doc.(dc_daily_connection_attempt_budget) <= 1000000 /\
              doc.(dc_min_command_interval_ms) <= 60000;
  ac_ttl : doc.(dc_lease_ttl_ms) = 0 \/ 1000 <= doc.(dc_lease_ttl_ms) <= MAX_LEASE_TTL_MS;
  ac_metrics : forall value, doc.(dc_metrics_listen) = Some value ->
                 is_Some (socket_addr_parse value);
  ac_slots : per_shard doc <= delivery_slots doc (per_shard doc);
  ac_geometry : exists layout, segment_layout (delivery_slots doc (per_shard doc)) (depth doc)
                  (events doc) (dirty doc) = Ok layout;
  ac_directory : forall d, doc.(dc_delivery).(dl_directory) = Some d ->
                   is_absolute d = true /\ is_dir d = true;
  ac_markets : NoDup doc.(dc_markets) /\
               Forall (fun slug => is_market_slug slug = true) doc.(dc_markets);
  ac_replicas : 1 <= doc.(dc_replicas) <= 4;
  ac_sockets : forall cap, doc.(dc_max_venue_connections) = Some cap ->
                 1 <= cap /\ 2 * doc.(dc_replicas) * shard_count doc <= cap
}.

Lemma capacity_Ok field value limit : capacity field value limit = Ok () <-> 1 <= value <= limit.
Proof.
  unfold capacity, MIN_CAPACITY. destruct (_ || _) eqn:E; bool_facts; [|split; [lia|done]].
  split; [done|]. bool_facts. lia.
Qed.

Lemma is_absolute_nonempty path : is_absolute path = true -> len path <> 0.
Proof. destruct path; [done|]. rewrite len_cons. pose proof (len_nonneg path). lia. Qed.

Lemma validate_socket_path_Ok path : validate_socket_path is_dir path = Ok () <->
  is_absolute path = true /\ len path <= 100 /\
  exists above, parent path = Some above /\ is_dir above = true.
Proof.
  unfold validate_socket_path, MAX_CONTROL_SOCKET_PATH_BYTES.
  destruct (len path =? 0) eqn:E1; bool_facts.
  { split; [done|]. intros [Ha%is_absolute_nonempty _]. done. }
  destruct (is_absolute path); [|naive_solver]. cbn [negb].
  destruct (100 <? len path) eqn:E2; bool_facts; [split; [done|lia]|].
  destruct (parent path) as [above|]; [|naive_solver]. cbn [ok_or].
  destruct (is_dir above) eqn:Ed; cbn [negb].
  - split; [|done]. intros _. split_and!; [done|lia|by exists above].
  - split; [done|]. intros (_ & _ & a & [= <-] & Ha). congruence.
Qed.

Lemma validate_directory_Ok path : validate_directory is_dir path = Ok () <->
  is_absolute path = true /\ is_dir path = true.
Proof.
  unfold validate_directory. destruct (is_absolute path), (is_dir path); cbn [negb]; naive_solver.
Qed.

Lemma delivery_plan_Ok doc d : delivery_plan is_dir doc (per_shard doc) (depth doc) = Ok d <->
  per_shard doc <= delivery_slots doc (per_shard doc) /\
  segment_layout (delivery_slots doc (per_shard doc)) (depth doc) (events doc) (dirty doc)
    = Ok d.(layout) /\
  match doc.(dc_delivery).(dl_directory) with
  | Some path => d.(directory) = path /\ is_absolute path = true /\ is_dir path = true
  | None => parent doc.(dc_control_socket) = Some d.(directory)
  end.
Proof.
  unfold delivery_plan. destruct (_ <? _) eqn:E; bool_facts; [split; [done|lia]|].
  unfold events, dirty. destruct (segment_layout _ _ _ _) as [l|]; [|naive_solver].
  destruct d as [dir l']. cbn [directory layout].
  destruct doc.(dc_delivery).(dl_directory) as [path|].
  - pose proof (validate_directory_Ok path). destruct (validate_directory is_dir path) as [[]|].
    + split; [intros [= <- <-]; naive_solver|]. by intros (_ & [= <-] & -> & _).
    + split; [done|]. intros (_ & _ & _ & Hp). naive_solver.
  - destruct (parent _) as [path|]; cbn [ok_or]; [|naive_solver].
    split; [by intros [= <- <-]|]. by intros (_ & [= <-] & [= <-]).
Qed.

Lemma sockets_within doc : typed doc ->
  1 <= per_shard doc -> 1 <= doc.(dc_replicas) <= 4 ->
  saturating_mul_usize (saturating_mul_usize (shard_count doc) 2) doc.(dc_replicas)
  = 2 * doc.(dc_replicas) * shard_count doc.
Proof.
  intros Ht Hp Hr. pose proof (ty_markets _ Ht) as Hm. pose proof (len_nonneg doc.(dc_markets)).
  assert (1 <= shard_count doc < 2 ^ 60 + 1).
  { unfold shard_count, QueueAge.div_ceil. split; [lia|]. apply Z.max_lub_lt; [|lia].
    apply Z.div_lt_upper_bound; nia. }
  unfold saturating_mul_usize. bounds. nia.
Qed.

(** The shards of a plan, from the document. *)
Definition plan_shards (doc : DaemonConfig) : list ShardConfig :=
  let template := shard_template doc (observers doc) (depth doc) (per_shard doc) in
  match chunks (Z.to_nat (per_shard doc)) (sort_slugs doc.(dc_markets)) with
  | [] => [template]
  | planned => (fun chunk => template <| sc_markets := chunk |>) <$> planned
  end.

Definition plan_of (doc : DaemonConfig) (d : DeliveryPlan) : DaemonPlan :=
  {| control_socket := doc.(dc_control_socket);
     lease_ttl := if 0 <? doc.(dc_lease_ttl_ms)
                  then Some (from_millis doc.(dc_lease_ttl_ms)) else None;
     max_control_sessions := doc.(dc_max_control_sessions);
     metrics_listen := value ← doc.(dc_metrics_listen); socket_addr_parse value;
     shards := plan_shards doc; delivery := d |}.

Lemma plan_shards_eq doc template chunked :
  template = shard_template doc (observers doc) (depth doc) (per_shard doc) ->
  chunked = chunks (Z.to_nat (per_shard doc)) (sort_slugs doc.(dc_markets)) ->
  match (fun chunk => template <| sc_markets := chunk |>) <$> chunked with
  | [] => [template]
  | _ => (fun chunk => template <| sc_markets := chunk |>) <$> chunked
  end = plan_shards doc.
Proof. intros -> ->. unfold plan_shards. by destruct (chunks _ _). Qed.

Lemma repeated_sorted doc : repeated (sort_slugs doc.(dc_markets)) = None <-> NoDup doc.(dc_markets).
Proof. rewrite repeated_None by apply sort_slugs_sorted. by rewrite sort_slugs_perm. Qed.

Lemma validate_sorted doc :
  validate_markets (sort_slugs doc.(dc_markets)) = Ok () <->
  Forall (fun slug => is_market_slug slug = true) doc.(dc_markets).
Proof. by rewrite validate_markets_Ok, sort_slugs_perm. Qed.

Lemma len_sorted doc : len (sort_slugs doc.(dc_markets)) = len doc.(dc_markets).
Proof. unfold len. by rewrite sort_slugs_perm. Qed.

Ltac refused :=
  match goal with
  | |- context [match ?r with Ok _ => _ | Err _ => _ end = Ok _ -> _] =>
      destruct r as [[]|] eqn:?; [|done]
  | |- context [(if ?b then Err _ else _) = Ok _ -> _] => destruct b eqn:?; [done|]
  end.

Lemma validate_inv doc plan : typed doc -> validate is_dir doc = Ok plan ->
  acceptable doc /\ exists d, plan = plan_of doc d /\
    delivery_plan is_dir doc (per_shard doc) (depth doc) = Ok d.
Proof.
  intros Ht. unfold validate. cbv zeta. fold (per_shard doc) (observers doc) (depth doc).
  do 12 refused.
  destruct (match doc.(dc_metrics_listen) with Some _ => _ | None => _ end) as [metrics|] eqn:Em; [|done].
  destruct (delivery_plan _ _ _ _) as [d|] eqn:Ed; [|done].
  destruct (repeated _) eqn:Er; [done|]. do 2 refused.
  rewrite len_sorted. fold (shard_count doc).
  destruct (match doc.(dc_max_venue_connections) with Some _ => _ | None => _ end) as [[]|] eqn:Ec; [|done].
  rewrite (plan_shards_eq doc _ _ eq_refl eq_refl). intros [= <-].
  bool_facts. rewrite ?capacity_Ok, ?validate_socket_path_Ok in *.
  assert (Hp : 1 <= per_shard doc) by (pose proof (ty_per_shard _ Ht); lia).
  assert (Hr : 1 <= doc.(dc_replicas) <= 4) by (pose proof (ty_replicas _ Ht); unfold MAX_REPLICAS in *; lia).
  apply delivery_plan_Ok in Ed as Hd. destruct Hd as (Hslots & Hlayout & Hdir).
  assert (metrics = value ← doc.(dc_metrics_listen); socket_addr_parse value) as ->.
  { destruct doc.(dc_metrics_listen) as [v|]; [|by injection Em].
    simpl. destruct (socket_addr_parse v); [by injection Em|done]. }
  split; [|by exists d]. split; try done; try lia.
  - unfold MIN_LEASE_TTL_MS, MAX_LEASE_TTL_MS in *. pose proof (ty_ttl _ Ht).
    match goal with H : _ \/ _ |- _ => destruct H as [?|?]; bool_facts; lia end.
  - intros v Ev. rewrite Ev in Em. destruct (socket_addr_parse v); [done|discriminate].
  - by exists d.(layout).
  - intros path E. rewrite E in Hdir. apply Hdir.
  - split; [by apply repeated_sorted|by apply validate_sorted].
  - intros cap E. rewrite E, sockets_within in Ec by done.
    destruct (capacity _ cap _) as [[]|] eqn:Eq; [|done]. apply capacity_Ok in Eq.
    destruct (cap <? _) eqn:El; [done|]. bool_facts. lia.
Qed.

Lemma validate_total doc : typed doc -> acceptable doc -> exists plan, validate is_dir doc = Ok plan.
Proof.
  intros Ht [He Hs Hp Ho Hl (Hi & Hc & Hm) [Hb Hf] Httl Hmet Hsl [layout Hg] Hd [Hn Hv] Hr Hcap].
  unfold validate. cbv zeta. fold (per_shard doc) (observers doc) (depth doc).
  rewrite bool_decide_eq_false_2 by (intros E; rewrite E in He; by destruct He).
  assert (is_prefix_of (lit "ws://") (dc_endpoint doc) || is_prefix_of (lit "wss://") (dc_endpoint doc)
    = true) as -> by (by apply orb_true_iff).
  cbn [negb orb]. rewrite (proj2 (validate_socket_path_Ok _) Hs).
  unfold MAX_SHARD_MARKETS, WORST_CASE_ATTEMPT_CEILING, MAX_COMMAND_INTERVAL_MS, MAX_REPLICAS.
  rewrite (proj2 (Z.eqb_neq _ _)), (proj2 (Z.ltb_ge _ _)) by lia. cbn [orb].
  rewrite !(proj2 (capacity_Ok _ _ _)) by done.
  rewrite !(proj2 (Z.ltb_ge _ _)) by (unfold MAX_LEASE_TTL_MS in *; lia).
  assert (_ && _ = false) as -> by (apply andb_false_iff; unfold MIN_LEASE_TTL_MS; lia).
  assert (exists m, match doc.(dc_metrics_listen) with
      | Some value => address <-? ok_or (socket_addr_parse value) (MetricsListen value) ;; Ok (Some address)
      | None => Ok None end = Ok m) as [m ->].
  { destruct doc.(dc_metrics_listen) as [v|]; [|by eexists].
    destruct (Hmet v eq_refl) as [a ->]. by eexists. }
  assert (exists d, delivery_plan is_dir doc (per_shard doc) (depth doc) = Ok d) as [d ->].
  { destruct Hs as (_ & _ & above & Ha & _).
    eexists {| directory := default above doc.(dc_delivery).(dl_directory); layout := layout |}.
    apply delivery_plan_Ok. split_and!; [done..|].
    destruct doc.(dc_delivery).(dl_directory) as [path|]; [|done]. split; [done|by apply Hd]. }
  rewrite (proj2 (repeated_sorted doc) Hn), (proj2 (validate_sorted doc) Hv), len_sorted.
  fold (shard_count doc). rewrite (proj2 (Z.eqb_neq _ _)), (proj2 (Z.ltb_ge _ _)) by lia. cbn [orb].
  destruct doc.(dc_max_venue_connections) as [cap|] eqn:Ec; [|by eexists].
  destruct (Hcap cap eq_refl) as [H1 H2]. pose proof (ty_cap _ Ht cap Ec).
  rewrite (proj2 (capacity_Ok _ _ _)), sockets_within by first [done|lia].
  rewrite (proj2 (Z.ltb_ge _ _)) by lia. by eexists.
Qed.

(** C25: The daemon starts on a configuration exactly when every number is within its bounds,
    the paths can be bound and written, the markets are distinct venue identifiers, the
    segment geometry is one a segment can have with a slot for every market of a shard, and
    the venue sockets at their peak (two per shard and replica) fit the declared cap. *)
Theorem validate_accepts_exactly doc : typed doc ->
  (exists plan, validate is_dir doc = Ok plan) <-> acceptable doc.
Proof.
  intros Ht. split; [intros [plan E]; by apply (validate_inv doc plan)|by apply validate_total].
Qed.

Lemma acceptable_permuted doc markets : markets ≡ₚ doc.(dc_markets) ->
  validate is_dir (doc <| dc_markets := markets |>) = validate is_dir doc.
Proof.
  intros Hp. unfold validate. cbv zeta. simpl. unfold set, RecordSettersUsingExistingGetters.const.
  by rewrite (sort_slugs_permuted _ _ Hp).
Qed.

End acceptance.

(** ** The partition *)

Lemma plan_markets doc : 1 <= per_shard doc ->
  concat (sc_markets <$> plan_shards doc) = sort_slugs doc.(dc_markets).
Proof.
  intros Hp. unfold plan_shards.
  destruct (chunks_from_spec (Z.to_nat (per_shard doc)) (length (sort_slugs doc.(dc_markets)))
    (sort_slugs doc.(dc_markets)) ltac:(lia) ltac:(done)) as (Hc & _).
  unfold chunks. rewrite <- Hc at 3. clear Hc.
  destruct (chunks_from _ _ _) as [|c cs]; [done|]. rewrite <- list_fmap_compose.
  f_equal. rewrite <- (list_fmap_id (c :: cs)) at 2. by apply list_fmap_ext.
Qed.

Lemma plan_shards_nonempty doc : plan_shards doc <> [].
Proof. unfold plan_shards. by destruct (chunks _ _). Qed.

Lemma plan_shards_length doc : 1 <= per_shard doc -> len (plan_shards doc) = shard_count doc.
Proof.
  intros Hp. unfold plan_shards, shard_count, chunks.
  pose proof (chunks_length (Z.to_nat (per_shard doc)) (length (sort_slugs doc.(dc_markets)))
    (sort_slugs doc.(dc_markets)) ltac:(lia) ltac:(done)) as Hl.
  rewrite len_sorted, Z2Nat.id in Hl by lia.
  destruct (chunks_from _ _ _) as [|c cs]; [by rewrite <- Hl|].
  unfold len in *. rewrite length_fmap, Hl. symmetry. apply Z.max_l. rewrite <- Hl. simpl. lia.
Qed.

Lemma plan_shards_sizes doc : 1 <= per_shard doc ->
  Forall (fun cfg => len cfg.(sc_markets) <= cfg.(sc_max_markets) /\ cfg.(sc_max_markets) = per_shard doc) (plan_shards doc) /\
  forall i cfg, plan_shards doc !! i = Some cfg -> (S i < length (plan_shards doc))%nat ->
    len cfg.(sc_markets) = per_shard doc.
Proof.
  intros Hp. unfold plan_shards, chunks.
  destruct (chunks_from_spec (Z.to_nat (per_shard doc)) (length (sort_slugs doc.(dc_markets)))
    (sort_slugs doc.(dc_markets)) ltac:(lia) ltac:(done)) as (_ & Hf & Hi).
  destruct (chunks_from _ _ _) as [|c cs].
  { split; [constructor; [|constructor]; split; [|done]; change (0 <= per_shard doc); lia|]. intros i cfg _ Hlt. simpl in Hlt. lia. }
  split.
  - apply Forall_fmap. eapply Forall_impl; [exact Hf|]. intros l [_ Hl].
    split; [|done]. change (len l <= per_shard doc). unfold len. lia.
  - intros i cfg E Hlt. rewrite length_fmap in Hlt. rewrite list_lookup_fmap in E.
    destruct ((c :: cs) !! i) as [l|] eqn:El; [|done]. injection E as <-.
    specialize (Hi i l El Hlt). change (len l = per_shard doc). unfold len. lia.
Qed.

(** *** The settings *)

(** The configuration of a shard, setting by setting: what the document says, a capacity it
    leaves open being the delivery profile's; what no document says is the default's. *)
Definition configured (doc : DaemonConfig) (assigned : list bytes) : ShardConfig :=
  let profile := doc.(dc_delivery).(dl_profile) in
  let rest := shard_config_default in
  {| sc_endpoint := doc.(dc_endpoint); sc_markets := assigned;
     sc_setup_timeout := rest.(sc_setup_timeout);
     sc_ingest_capacity := doc.(dc_ingest_capacity);
     sc_control_capacity := doc.(dc_control_capacity);
     sc_observer_capacity := default (profile_observer_capacity profile) doc.(dc_observer_capacity);
     sc_level_capacity := default (profile_level_capacity profile) doc.(dc_level_capacity);
     sc_max_markets := default (profile_markets_per_shard profile) doc.(dc_markets_per_shard);
     sc_replicas := doc.(dc_replicas); sc_dedup_key := rest.(sc_dedup_key);
     sc_initial_backoff := rest.(sc_initial_backoff); sc_max_backoff := rest.(sc_max_backoff);
     sc_exhausted_backoff := rest.(sc_exhausted_backoff);
     sc_resubscribe_window := rest.(sc_resubscribe_window);
     sc_max_recovery_attempts := rest.(sc_max_recovery_attempts);
     sc_fenced_linger := rest.(sc_fenced_linger); sc_stable_after := rest.(sc_stable_after);
     sc_daemon_generation := doc.(dc_daemon_generation);
     sc_ingest_stall := rest.(sc_ingest_stall);
     sc_daily_attempt_budget := doc.(dc_daily_connection_attempt_budget);
     sc_min_command_interval_ms := doc.(dc_min_command_interval_ms) |}.

(** The segment of a delivery plan: sized as the document says, an open size being the
    profile's, and placed where it says or beside the control socket. *)
Definition delivers_as_configured (doc : DaemonConfig) (d : DeliveryPlan) : Prop :=
  let c := doc.(dc_delivery) in
  d.(layout).(ShmLayout.directory_capacity) = delivery_slots doc (per_shard doc) /\
  d.(layout).(ShmLayout.state_slot_capacity) = delivery_slots doc (per_shard doc) /\
  (forall slots, c.(dl_segment_slots) = Some slots -> delivery_slots doc (per_shard doc) = slots) /\
  d.(layout).(ShmLayout.level_capacity) =
    default (profile_level_capacity c.(dl_profile)) doc.(dc_level_capacity) /\
  d.(layout).(ShmLayout.event_capacity) =
    default (profile_event_capacity c.(dl_profile)) c.(dl_event_capacity) /\
  d.(layout).(ShmLayout.dirty_capacity) =
    default (profile_dirty_capacity c.(dl_profile)) c.(dl_dirty_capacity) /\
  match c.(dl_directory) with
  | Some path => d.(directory) = path
  | None => parent doc.(dc_control_socket) = Some d.(directory)
  end.

Lemma narrow_range v : 0 <= narrow v <= U32_MAX.
Proof. unfold narrow, checked. destruct (in_range 0 U32_MAX v) eqn:E; bool_facts; simpl; bounds; lia. Qed.

Lemma narrow_exact v : narrow v < U32_MAX -> narrow v = v.
Proof. unfold narrow, checked. destruct (in_range 0 U32_MAX v); simpl; [done|lia]. Qed.

Lemma segment_layout_Ok slots levels events dirty l : segment_layout slots levels events dirty = Ok l ->
  l = {| ShmLayout.directory_capacity := slots; ShmLayout.state_slot_capacity := slots;
         ShmLayout.level_capacity := levels; ShmLayout.event_capacity := events;
         ShmLayout.dirty_capacity := dirty |}.
Proof.
  unfold segment_layout. destruct (layout_new _ _ _ _ _) as [l'|] eqn:E; [|done]. intros [= <-].
  pose proof (narrow_range slots). pose proof (narrow_range levels).
  pose proof (narrow_range events). pose proof (narrow_range dirty).
  apply layout_new_Ok in E as [-> Hwf]; [|lia..].
  destruct Hwf as [? Hslots [? Hlevels] [? Hevents] [? Hdirty] _ _ _]. cbn in *.
  unfold MAX_STATE_SLOT_CAPACITY, MAX_LEVEL_CAPACITY, MAX_EVENT_CAPACITY, MAX_DIRTY_CAPACITY in *.
  f_equal; apply narrow_exact; bounds; lia.
Qed.

Lemma delivered_as_configured is_dir doc d :
  delivery_plan is_dir doc (per_shard doc) (depth doc) = Ok d -> delivers_as_configured doc d.
Proof.
  intros (_ & Hl & Hd)%delivery_plan_Ok. apply segment_layout_Ok in Hl. unfold delivers_as_configured.
  rewrite Hl. split_and!; [done..| |done|done|done|].
  - intros slots E. unfold delivery_slots. by rewrite E.
  - destruct doc.(dc_delivery).(dl_directory); [by destruct Hd|done].
Qed.

Lemma plan_shards_configured doc :
  Forall (fun cfg => cfg = configured doc cfg.(sc_markets)) (plan_shards doc).
Proof.
  unfold plan_shards. destruct (chunks _ _) as [|c cs]; [by constructor; [|constructor]|].
  apply Forall_fmap, Forall_true. done.
Qed.

(** C26: The plan of an accepted configuration partitions its market set and carries every
    setting of the document. The shards' markets, one after the other, are the configured
    ones in ascending order, each once; every shard holds at most its capacity and all but
    the last exactly that many; there are as many as needed and at least one; and the plan is
    the same in whatever order the markets were written. Every shard has the document's
    endpoint, queue and book capacities, replicas, generation, daily budget and command
    interval, the profile's value where the document leaves a capacity open, and the default
    for what a document cannot say. The control socket and its sessions, the lease's time to
    live in nanoseconds, with zero for none, the metrics address, and the geometry and the
    directory of the segments are the document's, too. *)
Theorem plan_partitions_markets is_dir doc plan : typed doc -> validate is_dir doc = Ok plan ->
  (concat (sc_markets <$> plan.(shards)) ≡ₚ doc.(dc_markets) /\
   StronglySorted slug_lt (concat (sc_markets <$> plan.(shards)))) /\
  len plan.(shards) = Z.max 1 (QueueAge.div_ceil (len doc.(dc_markets)) (per_shard doc)) /\
  Forall (fun cfg => len cfg.(sc_markets) <= cfg.(sc_max_markets) /\ cfg.(sc_max_markets) = per_shard doc) plan.(shards) /\
  (forall i cfg, plan.(shards) !! i = Some cfg -> (S i < length plan.(shards))%nat ->
     len cfg.(sc_markets) = per_shard doc) /\
  (forall markets, markets ≡ₚ doc.(dc_markets) ->
    validate is_dir (doc <| dc_markets := markets |>) = Ok plan) /\
  Forall (fun cfg => cfg = configured doc cfg.(sc_markets)) plan.(shards) /\
  plan.(control_socket) = doc.(dc_control_socket) /\
  plan.(max_control_sessions) = doc.(dc_max_control_sessions) /\
  plan.(lease_ttl) = (if decide (doc.(dc_lease_ttl_ms) = 0) then None
                      else Some (doc.(dc_lease_ttl_ms) * 1000000)) /\
  match doc.(dc_metrics_listen) with
  | Some value => exists address, socket_addr_parse value = Some address /\
      plan.(metrics_listen) = Some address
  | None => plan.(metrics_listen) = None
  end /\
  delivers_as_configured doc plan.(delivery).
Proof.
  intros Ht E. destruct (validate_inv is_dir doc plan Ht E) as [Ha [d [-> Hd]]].
  cbn [shards plan_of control_socket max_control_sessions lease_ttl metrics_listen delivery].
  assert (Hp : 1 <= per_shard doc) by apply Ha.
  rewrite plan_markets, plan_shards_length by done. destruct (plan_shards_sizes doc Hp) as [Hs Hf].
  split_and!; [apply sort_slugs_perm| |apply Z.max_comm|done|done| |apply plan_shards_configured
    |done|done| | |by eapply delivered_as_configured].
  - rewrite <- (dedup_NoDup (sort_slugs doc.(dc_markets))) by (rewrite sort_slugs_perm; apply Ha).
    apply dedup_sorted with (wf := Forall (fun _ => True)); [apply _|apply slugs_wf|].
    apply sort_slugs_sorted.
  - intros ms Hms. by rewrite acceptable_permuted.
  - pose proof (ty_ttl _ Ht). case_decide as E0; [by rewrite E0|].
    by rewrite (proj2 (Z.ltb_lt _ _)) by lia.
  - pose proof (ac_metrics _ _ Ha) as Hm. destruct doc.(dc_metrics_listen) as [value|]; [|done].
    destruct (Hm value eq_refl) as [address E']. by exists address.
Qed.

(** ** The shards of a plan *)

Section building.
Context `{RB : Broadcast StreamDelivery} `{WP : Watch PublishedBook} `{SS : ShardSink}.
Variable env : nat -> ShardEnv.

Lemma shard_market_Ok slug : is_market_slug slug = true -> exists m, shard_market slug = Ok m.
Proof.
  unfold is_market_slug, shard_market. destruct (market_key_new Identity.slug slug) as [k|]; [|done].
  intros _. by eexists.
Qed.

Lemma install_bare slug x : is_market_slug slug = true -> x.(segment) = None -> x.(retired) = ∅ ->
  exists y e, install env slug x = (Ok (), y) /\ y.(markets) = <[slug := e]> x.(markets) /\
    y.(segment) = None /\ y.(retired) = ∅ /\
    y.(desired_count) = saturating_add_usize x.(desired_count) 1.
Proof.
  intros Hv Hs Hr. destruct (shard_market_Ok slug Hv) as [m Em]. unfold install. rewrite Em. cbv zeta.
  rewrite Hr, lookup_empty. unfold seat. simpl. rewrite Hs.
  eexists _, _. split_and!; [done..| |done]. simpl. by rewrite Hr, delete_empty.
Qed.

Lemma install_set_builds capacity slugs x : capacity <= USIZE_MAX ->
  Forall (fun slug => is_market_slug slug = true) slugs -> NoDup slugs ->
  x.(segment) = None -> x.(retired) = ∅ -> 0 <= x.(desired_count) ->
  (forall slug, slug ∈ slugs -> x.(markets) !! slug = None) ->
  x.(desired_count) + len slugs <= capacity ->
  exists y, install_set env capacity slugs x = Ok y /\
    dom y.(markets) = dom x.(markets) ∪ list_to_set slugs /\
    y.(desired_count) = x.(desired_count) + len slugs.
Proof.
  intros Hcap Hv. revert x. induction Hv as [|slug slugs Hslug Hv IH]; intros x Hn Hs Hr H0 Hx Hc.
  { exists x. split_and!; [done|set_solver|]. unfold len. simpl. lia. }
  apply NoDup_cons in Hn as [Hni Hn]. rewrite len_cons in *. pose proof (len_nonneg slugs).
  cbn [install_set]. rewrite (Hx slug) by left. rewrite bool_decide_eq_false_2 by (by intros []).
  rewrite (proj2 (Z.leb_gt _ _)) by lia.
  destruct (install_bare slug x Hslug Hs Hr) as (y & e & -> & Em & Es & Er & Ec).
  assert (Ec' : y.(desired_count) = x.(desired_count) + 1)
    by (rewrite Ec; unfold saturating_add_usize; lia).
  destruct (IH y Hn Es Er) as (z & Ez & Ed & Ew).
  - lia.
  - intros k Hk. rewrite Em, lookup_insert_ne by (by intros ->). apply Hx. by right.
  - lia.
  - exists z. split_and!; [done| |lia]. rewrite Ed, Em, dom_insert_L. simpl. set_solver.
Qed.

Lemma segment_layout_directory slots levels evs ds l :
  segment_layout slots levels evs ds = Ok l -> l.(ShmLayout.directory_capacity) = narrow slots.
Proof.
  unfold segment_layout, layout_new. repeat (case_match; [done|]). by intros [= <-].
Qed.

Lemma narrow_least n v : n <= v -> 1 <= n <= 32768 -> n <= narrow v.
Proof.
  intros Hv Hn. unfold narrow, checked. destruct (in_range _ _ _); simpl; bounds; lia.
Qed.

Lemma plan_shards_template doc cfg : cfg ∈ plan_shards doc ->
  cfg = (shard_template doc (observers doc) (depth doc) (per_shard doc))
        <| sc_markets := cfg.(sc_markets) |>.
Proof.
  unfold plan_shards. destruct (chunks _ _) as [|c cs].
  - intros ->%list_elem_of_singleton. done.
  - intros (l & -> & _)%list_elem_of_fmap. done.
Qed.

(** [Shard::new] on a configuration within its limits. *)
Lemma shard_new_builds cfg started :
  cfg.(sc_max_recovery_attempts) <> 0 ->
  cfg.(sc_daily_attempt_budget) <= WORST_CASE_ATTEMPT_CEILING ->
  cfg.(sc_min_command_interval_ms) <= MAX_COMMAND_INTERVAL_MS ->
  cfg.(sc_ingest_capacity) <> 0 -> cfg.(sc_control_capacity) <> 0 ->
  1 <= cfg.(sc_replicas) <= MAX_REPLICAS -> cfg.(sc_level_capacity) <> 0 ->
  1 <= cfg.(sc_observer_capacity) <= MAX_OBSERVER_CAPACITY ->
  Forall (fun slug => is_market_slug slug = true) cfg.(sc_markets) -> NoDup cfg.(sc_markets) ->
  len cfg.(sc_markets) <= cfg.(sc_max_markets) <= MAX_SHARD_MARKETS ->
  exists x, shard_new env cfg started = Ok x /\
    dom x.(markets) = list_to_set cfg.(sc_markets) /\ x.(desired_count) = len cfg.(sc_markets).
Proof.
  intros Hra Hb Hf Hi Hc Hr Hl Ho Hv Hn Hm. unfold shard_new.
  rewrite (proj2 (Z.eqb_neq _ _) Hra), (proj2 (Z.ltb_ge _ _) Hb), (proj2 (Z.ltb_ge _ _) Hf),
    (proj2 (Z.eqb_neq _ _) Hi), (proj2 (Z.eqb_neq _ _) Hc).
  rewrite (proj2 (Z.eqb_neq _ _)), (proj2 (Z.ltb_ge _ _)) by lia. cbn [orb].
  unfold level_capacity_new, observer_capacity_new.
  rewrite !(proj2 (Z.eqb_neq _ _)), (proj2 (Z.ltb_ge _ _)) by lia. cbn [orb map_err].
  rewrite (Z.min_l _ _ (proj2 Hm)). edestruct install_set_builds as (x & -> & Ed & Ew);
    [| |exact Hn| | | | | |exists x; split_and!; [done| |]]; simpl; try done.
  - unfold MAX_SHARD_MARKETS in Hm. bounds. lia.
  - lia.
  - rewrite Ed. simpl. set_solver.
Qed.

(** Every planned shard is built, with its markets. *)
Lemma planned_shard_new is_dir doc plan started : typed doc ->
  validate is_dir doc = Ok plan ->
  Forall (fun cfg => exists x, shard_new env cfg started = Ok x /\
    dom x.(markets) = list_to_set cfg.(sc_markets) /\
    x.(desired_count) = len cfg.(sc_markets) /\ len cfg.(sc_markets) <= cfg.(sc_max_markets) /\
    cfg.(sc_max_markets) <= plan.(delivery).(layout).(ShmLayout.directory_capacity)) plan.(shards).
Proof.
  intros Ht E. destruct (validate_inv is_dir doc plan Ht E) as [Ha [d [-> Hd]]].
  cbn [shards delivery plan_of]. assert (Hp : 1 <= per_shard doc) by apply Ha.
  apply delivery_plan_Ok in Hd as (Hslots & Hl & _). apply segment_layout_directory in Hl.
  destruct Ha as [_ _ Hps Ho Hlv (Hi & Hc & _) [Hb Hf] _ _ _ _ _ [Hn Hv] Hr _].
  destruct (plan_shards_sizes doc Hp) as [Hsz _]. rewrite Forall_forall in Hsz |- *.
  intros cfg Hin. destruct (Hsz cfg Hin) as [Hlen Hmax].
  assert (Hcat : concat (sc_markets <$> plan_shards doc) ≡ₚ doc.(dc_markets))
    by (rewrite plan_markets by done; apply sort_slugs_perm).
  assert (Hsub : cfg.(sc_markets) ⊆+ doc.(dc_markets)).
  { rewrite <- Hcat. apply list_elem_of_split in Hin as (l1 & l2 & ->).
    rewrite fmap_app, concat_app. simpl. solve_submseteq. }
  assert (Hval : Forall (fun slug => is_market_slug slug = true) cfg.(sc_markets)).
  { rewrite Forall_forall in Hv |- *. intros slug Hs. apply Hv. by eapply elem_of_submseteq. }
  apply plan_shards_template in Hin. clear Hsz.
  assert (F : cfg.(sc_max_recovery_attempts) = 5 /\
    cfg.(sc_daily_attempt_budget) = doc.(dc_daily_connection_attempt_budget) /\
    cfg.(sc_min_command_interval_ms) = doc.(dc_min_command_interval_ms) /\
    cfg.(sc_ingest_capacity) = doc.(dc_ingest_capacity) /\
    cfg.(sc_control_capacity) = doc.(dc_control_capacity) /\
    cfg.(sc_replicas) = doc.(dc_replicas) /\ cfg.(sc_level_capacity) = depth doc /\
    cfg.(sc_observer_capacity) = observers doc) by (rewrite Hin; done).
  destruct F as (Fa & Fb & Ff & Fi & Fc & Fr & Fl & Fo).
  destruct (shard_new_builds cfg started) as (x & Ex & Edom & Ew);
    [rewrite ?Fa, ?Fb, ?Ff, ?Fi, ?Fc, ?Fr, ?Fl, ?Fo; try done; try lia..|].
  - apply submseteq_Permutation in Hsub as [k Hk]. rewrite Hk in Hn. by apply NoDup_app in Hn as [? _].
  - unfold MAX_SHARD_MARKETS. lia.
  - exists x. split_and!; [done..|]. rewrite Hl, Hmax. by apply narrow_least.
Qed.

(** Whatever the daemon accepts it can run. Every shard of the plan of an accepted
    configuration is one that [Shard::new] builds: no limit of a shard refuses what the
    configuration's own checks let through, it starts with exactly the markets planned for
    it, all of them wanted, and the segment it will publish into has a place for each market
    the shard may ever hold at once. *)
Theorem planned_shards_build is_dir doc plan started : typed doc ->
  validate is_dir doc = Ok plan ->
  Forall (fun cfg => exists x, shard_new env cfg started = Ok x /\
    dom x.(markets) = list_to_set cfg.(sc_markets) /\
    x.(desired_count) = len cfg.(sc_markets) /\ len cfg.(sc_markets) <= cfg.(sc_max_markets) /\
    cfg.(sc_max_markets) <= plan.(delivery).(layout).(ShmLayout.directory_capacity)) plan.(shards).
Proof. apply planned_shard_new. Qed.

End building.

(** ** Samples *)

Definition sample_doc : DaemonConfig :=
  (config_default (lit "/run/pmws/control.sock"))
    <| dc_markets := [lit "gamma"; lit "alpha"; lit "beta"] |>
    <| dc_markets_per_shard := Some 2 |> <| dc_replicas := 2 |>
    <| dc_max_venue_connections := Some 8 |> <| dc_lease_ttl_ms := 30000 |>
    <| dc_metrics_listen := Some (lit "[::1]:9090") |>.

Definition run_directory (path : bytes) : bool := bool_decide (path = lit "/run/pmws").

Definition sample_plan : DaemonPlan :=
  Eval vm_compute in
    match validate run_directory sample_doc with
    | Ok plan => plan
    | Err _ => plan_of sample_doc {| directory := []; layout := Build_SegmentLayout 0 0 0 0 0 |}
    end.

Lemma sample_typed : typed sample_doc.
Proof.
  split; [by vm_compute..|]. intros cap [= <-]. by vm_compute.
Qed.

Lemma validate_accepts_exactly_witness : typed sample_doc /\ acceptable run_directory sample_doc.
Proof.
  split; [apply sample_typed|]. apply (validate_accepts_exactly run_directory sample_doc sample_typed).
  exists sample_plan. by vm_compute.
Defined.

Lemma plan_partitions_markets_witness :
  sc_markets <$> sample_plan.(shards) = [[lit "alpha"; lit "beta"]; [lit "gamma"]] /\
  concat (sc_markets <$> sample_plan.(shards)) ≡ₚ sample_doc.(dc_markets).
Proof.
  split; [by vm_compute|].
  apply (plan_partitions_markets run_directory sample_doc sample_plan sample_typed).
  by vm_compute.
Defined.

Lemma planned_shards_build_witness :
  Forall (fun cfg => exists x : sample_shard, shard_new shard_env cfg 0 = Ok x /\
    dom x.(markets) = list_to_set cfg.(sc_markets) /\
    x.(desired_count) = len cfg.(sc_markets) /\ len cfg.(sc_markets) <= cfg.(sc_max_markets) /\
    cfg.(sc_max_markets) <= sample_plan.(delivery).(layout).(ShmLayout.directory_capacity))
    sample_plan.(shards).
Proof.
  apply (planned_shards_build shard_env run_directory sample_doc sample_plan 0 sample_typed).
  by vm_compute.
Defined.
