(* ===== verification/Router.v ===== *)
(** * Routing markets to shards ([src/src/bin/pmwsd.rs], [src/src/control.rs])

    The daemon's table of which shard holds which market, and why: operator pins and the
    leases of control sessions. Every operation of the router is here, with the requests and
    answers of the control protocol it serves. A shard is reached through its handle, which is
    the interface [Fleet]: a command is taken and answered, or refused because the queue is
    full or the run has ended. A method is a [prog]: a function of the router to its answer
    and the router it leaves, or [None] where the code would panic. *)

From stdpp Require Import gmap.
From S2P Require Import Prelude OrdMap Identity Descriptor Continuity Pool Session Limitless Pacing Connection QueueAge Supervisor ShardMarket Shard Daemon.

Definition STATUS_PAGE_MARKETS : nat := 128.
Definition MAX_CONTROL_LINE_BYTES : Z := 65536.
Definition SEGMENT_GENERATION : Z := 1.
Definition TRANSFERRED_DESCRIPTORS : Z := 1.

(** ** The control protocol *)

Inductive ControlRequest : Set :=
| RequestAdd (markets : list bytes)
| RequestRemove (markets : list bytes)
| RequestStatus (after : option bytes)
| RequestAttach (market : bytes)
| RequestRelease (market : bytes)
| RequestRenew.

Inductive DoorbellLocation : Set := InHeader | Page.

Record Attachment : Set := {
  at_shard : nat; at_segment : bytes; at_instance_id : bytes; at_segment_generation : Z;
  at_doorbell : DoorbellLocation; at_descriptors : Z; at_lease_ttl_ms : Z
}.

Record MarketRow : Set := { row_shard : nat; row_market : MarketReport; row_pinned : bool; row_leases : Z }.

Record ShardReport : Set := {
  rp_shard : nat; rp_connected : bool; rp_reconciling : bool; rp_replicas : option Z;
  rp_standbys_established : option Z; rp_standby_agreeing_markets : option Z;
  rp_pool : option PoolState; rp_desired : Z; rp_segment : option bytes;
  rp_segment_markets : Z; rp_attachments : Z; rp_queue_age : QueueAgeSummary;
  rp_publish_latency : PublishLatencySummary
}.

Record DaemonStatus : Set := {
  ds_pid : Z; ds_more : bool; ds_shards : list ShardReport; ds_markets : list MarketRow;
  ds_answers_abandoned : Z; ds_attachments_refused : Z; ds_metrics_listen : option bytes
}.

Inductive ControlResponse : Set :=
| ResponseMarkets (markets : list MarketOutcome)
| ResponseStatus (status : DaemonStatus)
| ResponseBusy (message : bytes)
| ResponseError (message : bytes)
| ResponseAttached (attachment : Attachment)
| ResponseReleased (leases : Z)
| ResponseRenewed (leases : Z).

Record ShardSnapshot : Set := { ss_shard : nat; ss_attachments : Z; ss_metrics : ShardMetrics }.

Record MetricsSnapshot : Set := {
  ms_pid : Z; ms_answers_abandoned : Z; ms_attachments_refused : Z; ms_markets : Z;
  ms_pinned : Z; ms_leases : Z; ms_shards : list ShardSnapshot
}.

(** ** Handles of shards *)

Inductive ShardControlError : Set := Busy | Stopped.

#[export] Instance MarketRejection_eq_dec : EqDecision MarketRejection.
Proof. solve_decision. Defined.
#[export] Instance MarketStatus_eq_dec : EqDecision MarketStatus.
Proof. solve_decision. Defined.
#[export] Instance ShardControlError_eq_dec : EqDecision ShardControlError.
Proof. solve_decision. Defined.

(** The shards the daemon started, reached through their handles by their position: what a
    command answers and the shards after it. A scrape's command answers [None] when the
    collection's deadline passed first. *)
Class Fleet (F : Type) : Type := {
  fleet_add : nat -> list bytes -> F -> result (list MarketOutcome) ShardControlError * F;
  fleet_remove : nat -> list bytes -> F -> result (list MarketOutcome) ShardControlError * F;
  fleet_status : nat -> F -> result ShardStatus ShardControlError * F;
  fleet_metrics : nat -> F -> option (result ShardMetrics ShardControlError) * F
}.

(** ** The table *)

Record Demand : Set := { pinned : bool; lessees : gset Z }.
Definition demand_default : Demand := {| pinned := false; lessees := ∅ |}.

Definition demand_wanted (self : Demand) : bool :=
  self.(pinned) || negb (bool_decide (self.(lessees) = ∅)).

(** The file is the raw descriptor. *)
Record SegmentTarget : Set := {
  sg_name : bytes; sg_file : Z; sg_doorbell : DoorbellLocation; sg_attachments : Z
}.

(** [handles] is how many shards were started; [fleet] is what they are. *)
Record Router {F : Type} : Type := {
  handles : nat; fleet : F; segments : list SegmentTarget; assignments : gmap bytes nat;
  demand : gmap bytes Demand; counts : list Z; capacity : Z; instance : Z;
  answers_abandoned : Z; attachments_refused : Z; listening : option bytes
}.
Arguments Router : clear implicits.

(** ** Methods *)

Section methods.
Context {F : Type} `{FL : Fleet F}.
(** [std::process::id]. *)
Variable pid : Z.

Definition prog (A : Type) : Type := Router F -> option (A * Router F).
Definition pret {A} (a : A) : prog A := fun r => Some (a, r).
Definition pbind {A B} (m : prog A) (k : A -> prog B) : prog B := fun r => '(a, r) ← m r; k a r.
Definition pupdate (f : Router F -> Router F) : prog () := fun r => Some ((), f r).
Definition pget {A} (f : Router F -> A) : prog A := fun r => Some (f r, r).
Definition ppanic {A} : prog A := fun _ => None.

(** What a command sent to the fleet answers. *)
Definition command {A} (f : F -> A * F) : prog A := fun r =>
  let '(a, after) := f r.(fleet) in Some (a, r <| fleet := after |>).

Fixpoint pfor {A} (f : A -> prog ()) (l : list A) : prog () :=
  match l with
  | [] => pret ()
  | a :: l => pbind (f a) (fun _ => pfor f l)
  end.

Notation "x <-! m ;; k" := (pbind m (fun x => k))
  (at level 100, m at next level, right associativity).
(** [let x = m?; k]. *)
Notation "x <-!? m ;; k" :=
  (pbind m (fun r => match r with Ok x => k | Err error => pret (Err error) end))
  (at level 100, m at next level, right associativity).
Notation "m ;;! k" := (pbind m (fun _ => k)) (at level 100, right associativity).

(** [counts[index] = f(counts[index])]. *)
Definition count_at (index : nat) (f : Z -> Z) : prog () := fun r =>
  if (index <? length r.(counts))%nat then Some ((), r <| counts ::= alter f index |>) else None.

(** The entries of a [BTreeMap], in its order. *)
Definition in_order {A} (m : gmap bytes A) : list (bytes * A) :=
  omap (fun slug => pair slug <$> m !! slug) (sort_slugs (map_to_list m).*1).

Definition router_new (fleet : F) (capacity instance : Z) (listening : option bytes) : Router F :=
  {| handles := 0; fleet := fleet; segments := []; assignments := ∅; demand := ∅; counts := [];
     capacity := capacity; instance := instance; answers_abandoned := 0;
     attachments_refused := 0; listening := listening |}.

(** [entry(slug).or_default()], changed by [f]. *)
Definition demand_entry (slug : bytes) (f : Demand -> Demand) (m : gmap bytes Demand) :
    gmap bytes Demand :=
  <[slug := f (default demand_default (m !! slug))]> m.

Definition pin : Demand -> Demand := fun d => d <| pinned := true |>.
Definition unpin_demand : Demand -> Demand := fun d => d <| pinned := false |>.
Definition take_lease (session : Z) : Demand -> Demand := fun d => d <| lessees ::= fun s => {[session]} ∪ s |>.
Definition drop_lease (session : Z) : Demand -> Demand := fun d => d <| lessees ::= fun s => s ∖ {[session]} |>.

Definition router_install (markets : list bytes) (segment : SegmentTarget) (self : Router F) : Router F :=
  let index := self.(handles) in
  let self := self <| handles := S index |> <| segments ::= fun l => l ++ [segment] |>
                   <| counts ::= fun l => l ++ [len markets] |> in
  fold_left (fun self slug =>
    self <| assignments ::= <[slug := index]> |> <| demand ::= demand_entry slug pin |>) markets self.

(** Thirty-two lower-case hexadecimal digits. *)
Definition instance_id (self : Router F) : bytes := hex_digits 32 self.(instance).

Definition refuse_attachment : prog () :=
  pupdate (fun self => self <| attachments_refused ::= fun n => saturating_add_u64 n 1 |>).

(** What [answer] counts of a client that stopped reading. *)
Definition abandon_answer : prog () :=
  pupdate (fun self => self <| answers_abandoned ::= fun n => saturating_add_u64 n 1 |>).

Definition record_attachment (shard : nat) : prog () :=
  pupdate (fun self => self <| segments ::= alter (fun g => g <| sg_attachments ::= fun n => saturating_add_u64 n 1 |>) shard |>).

Definition segment_descriptor (self : Router F) (shard : nat) : option Z :=
  sg_file <$> self.(segments) !! shard.

Record AttachPlan : Set := { ap_shard : nat; ap_name : bytes; ap_doorbell : DoorbellLocation }.

Definition attach_plan (self : Router F) (market : bytes) : result AttachPlan MarketStatus :=
  refuse negb (is_market_slug market) with Rejected InvalidIdentifier ;;
  shard <-? ok_or (self.(assignments) !! market) Removed ;;
  segment <-? ok_or (self.(segments) !! shard) (Rejected DeliveryUnavailable) ;;
  Ok {| ap_shard := shard; ap_name := segment.(sg_name); ap_doorbell := segment.(sg_doorbell) |}.

Definition wanted (self : Router F) (market : bytes) : bool :=
  match self.(demand) !! market with Some d => demand_wanted d | None => false end.

Definition forget_unheld : prog () := pupdate (fun self =>
  self <| demand ::= filter (fun e => demand_wanted e.2 = true \/ is_Some (self.(assignments) !! e.1)) |>).

Definition leases_held_by (self : Router F) (session : Z) : Z :=
  Z.min U32_MAX (Z.of_nat (size (filter (fun e => session ∈ e.2.(lessees)) self.(demand)))).

Definition undesired (self : Router F) : list bytes :=
  sort_slugs (List.filter (fun slug => negb (wanted self slug)) (map_to_list self.(assignments)).*1).

Definition has_undesired (self : Router F) : bool :=
  existsb (fun slug => negb (wanted self slug)) (map_to_list self.(assignments)).*1.

(** *** Planning and sending *)

Definition plan_market (self : Router F) (plan : list Z * gmap bytes (option nat)) (slug : bytes) :
    list Z * gmap bytes (option nat) :=
  let '(planned, targets) := plan in
  match targets !! slug with
  | Some _ => (planned, targets)
  | None =>
      if negb (is_market_slug slug) then (planned, <[slug := None]> targets)
      else
        match self.(assignments) !! slug with
        | Some index => (planned, <[slug := Some index]> targets)
        | None =>
            match fst <$> list_find (fun held => held < self.(capacity)) planned with
            | Some index => (alter (fun n => n + 1) index planned, <[slug := Some index]> targets)
            | None => (planned, <[slug := None]> targets)
            end
        end
  end.

Definition plan_add (self : Router F) (slugs : list bytes) : gmap bytes (option nat) :=
  (fold_left (plan_market self) slugs (self.(counts), ∅)).2.

(** What the daemon answers itself for a market no shard is asked about. *)
Definition untargeted (slug : bytes) : MarketOutcome :=
  {| oc_slug := slug;
     oc_status := Rejected (if is_market_slug slug then CapacityExceeded else InvalidIdentifier) |}.

(** One target at a time: pushed onto its shard's batch, or answered. An index past the
    batches panics. *)
Fixpoint batch_targets (targets : list (bytes * option nat)) (batches : list (list bytes))
    (answered : gmap bytes MarketOutcome) : prog (list (list bytes) * gmap bytes MarketOutcome) :=
  match targets with
  | [] => pret (batches, answered)
  | (slug, Some index) :: targets =>
      if (index <? length batches)%nat
      then batch_targets targets (alter (fun batch => batch ++ [slug]) index batches) answered
      else ppanic
  | (slug, None) :: targets =>
      batch_targets targets batches (<[slug := untargeted slug]> answered)
  end.

Definition insert_outcomes (outcomes : list MarketOutcome) (answered : gmap bytes MarketOutcome) :
    gmap bytes MarketOutcome :=
  fold_left (fun m o => <[o.(oc_slug) := o]> m) outcomes answered.

Fixpoint send_batches (adding : bool) (index : nat) (batches : list (list bytes))
    (answered : gmap bytes MarketOutcome) :
    prog (result (gmap bytes MarketOutcome) ShardControlError) :=
  match batches with
  | [] => pret (Ok answered)
  | [] :: batches => send_batches adding (S index) batches answered
  | batch :: batches =>
      outcomes <-!? command (if adding then fleet_add index batch else fleet_remove index batch) ;;
      send_batches adding (S index) batches (insert_outcomes outcomes answered)
  end.

Definition dispatch (targets : gmap bytes (option nat)) (adding : bool) :
    prog (result (gmap bytes MarketOutcome) ShardControlError) :=
  shards <-! pget handles ;;
  batched <-! batch_targets (in_order targets) (replicate shards []) ∅ ;;
  send_batches adding 0 batched.1 batched.2.

(** One answer per requested slug, in request order. *)
Definition reassemble (slugs : list bytes) (answered : gmap bytes MarketOutcome) : list MarketOutcome :=
  (fun slug => default {| oc_slug := slug; oc_status := Rejected CapacityExceeded |} (answered !! slug)) <$> slugs.

Definition is_rejected (status : MarketStatus) : bool :=
  match status with Rejected _ => true | _ => false end.

(** What [add] records of one answer. *)
Definition record_added (targets : gmap bytes (option nat)) (pinned_ : bool) (e : bytes * MarketOutcome) : prog () :=
  let '(slug, outcome) := e in
  if is_rejected outcome.(oc_status) then pret ()
  else
    pupdate (fun self => if pinned_ then self <| demand ::= demand_entry slug pin |> else self) ;;!
    (if negb (bool_decide (outcome.(oc_status) = Accepted)) then pret ()
     else
       match targets !! slug with
       | Some (Some index) =>
           pupdate (fun self => self <| assignments ::= <[slug := index]> |>) ;;!
           count_at index (fun n => saturating_add_usize n 1)
       | _ => pret ()
       end).

Definition add (slugs : list bytes) (pinned_ : bool) :
    prog (result (list MarketOutcome) ShardControlError) :=
  targets <-! pget (fun self => plan_add self slugs) ;;
  answered <-!? dispatch targets true ;;
  pfor (record_added targets pinned_) (in_order answered) ;;!
  pret (Ok (reassemble slugs answered)).

(** What [release_markets] records of one answer. *)
Definition record_removed (e : bytes * MarketOutcome) : prog () :=
  let '(slug, outcome) := e in
  if negb (bool_decide (outcome.(oc_status) = Removed)) then pret ()
  else
    index <-! pget (fun self => self.(assignments) !! slug) ;;
    match index with
    | Some index =>
        pupdate (fun self => self <| assignments ::= delete slug |>) ;;!
        count_at index (fun n => saturating_sub_usize n 1)
    | None => pret ()
    end ;;!
    pupdate (fun self => if wanted self slug then self else self <| demand ::= delete slug |>).

Definition removal_targets (self : Router F) (slugs : list bytes) : gmap bytes (option nat) :=
  fold_left (fun targets slug => <[slug := Some (default 0%nat (self.(assignments) !! slug))]> targets) slugs ∅.

Definition release_markets (slugs : list bytes) :
    prog (result (gmap bytes MarketOutcome) ShardControlError) :=
  match slugs with
  | [] => pret (Ok ∅)
  | _ =>
      targets <-! pget (fun self => removal_targets self slugs) ;;
      answered <-!? dispatch targets false ;;
      pfor record_removed (in_order answered) ;;!
      pret (Ok answered)
  end.

Definition reconcile : prog () :=
  markets <-! pget undesired ;;
  match markets with
  | [] => pret ()
  | _ => release_markets markets ;;! pret ()
  end.

Definition release (session : Z) (market : bytes) : prog () :=
  pupdate (fun self => self <| demand ::= alter (drop_lease session) market |>) ;;!
  forget_unheld ;;!
  reconcile.

Definition release_session (session : Z) : prog () :=
  pupdate (fun self => self <| demand ::= fmap (drop_lease session) |>) ;;!
  forget_unheld ;;!
  reconcile.

Definition control_failure (error : ShardControlError) : ControlResponse :=
  match error with
  | Busy => ResponseBusy (lit "a shard's control queue is full; nothing was applied")
  | Stopped => ResponseError (lit "a shard is no longer running")
  end.

Definition lease (session : Z) (market : bytes) : prog (option ControlResponse) :=
  held <-! pget (fun self => bool_decide (is_Some (self.(assignments) !! market))) ;;
  pupdate (fun self => self <| demand ::= demand_entry market (take_lease session) |>) ;;!
  if held : bool then pret None
  else
    answer <-! add [market] false ;;
    match answer with
    | Ok outcomes =>
        if forallb (fun o => negb (is_rejected o.(oc_status))) outcomes then pret None
        else release session market ;;! pret (Some (ResponseMarkets outcomes))
    | Err error => release session market ;;! pret (Some (control_failure error))
    end.

(** *** Reports *)

(** The shards of the markets named, ascending. *)
Definition shards_of (self : Router F) (slugs : list bytes) : list nat :=
  dedup (sort_by Nat.compare (omap (fun slug => self.(assignments) !! slug) slugs)).

Definition insert_reports (slugs : list bytes) (reports : list MarketReport)
    (answered : gmap bytes MarketOutcome) : gmap bytes MarketOutcome :=
  fold_left (fun m r =>
    if bool_decide (r.(mr_slug) ∈ slugs)
    then <[r.(mr_slug) := {| oc_slug := r.(mr_slug); oc_status := r.(mr_status) |}]> m else m) reports answered.

Fixpoint report_shards (slugs : list bytes) (shards : list nat) (answered : gmap bytes MarketOutcome) :
    prog (result (gmap bytes MarketOutcome) ShardControlError) :=
  match shards with
  | [] => pret (Ok answered)
  | shard :: shards =>
      in_range <-! pget (fun self => (shard <? self.(handles))%nat) ;;
      if in_range : bool then
        status <-!? command (fleet_status shard) ;;
        report_shards slugs shards (insert_reports slugs status.(st_markets) answered)
      else ppanic
  end.

Definition report (slugs : list bytes) : prog (result (gmap bytes MarketOutcome) ShardControlError) :=
  shards <-! pget (fun self => shards_of self slugs) ;;
  report_shards slugs shards ∅.

(** [extend]: the later answer of a slug answered twice. *)
Definition unpin (slugs : list bytes) : prog (result (list MarketOutcome) ShardControlError) :=
  pfor (fun slug => pupdate (fun self => self <| demand ::= alter unpin_demand slug |>)) slugs ;;!
  parted <-! pget (fun self => List.partition (wanted self) slugs) ;;
  answered <-!? report parted.1 ;;
  released <-!? release_markets parted.2 ;;
  pret (Ok (reassemble slugs (released ∪ answered))).

Definition attachments_of (self : Router F) (shard : nat) : Z :=
  default 0 (sg_attachments <$> self.(segments) !! shard).

Definition shard_report (self : Router F) (shard : nat) (status : ShardStatus) : ShardReport :=
  let redundant := 1 <? status.(st_replicas) in
  {| rp_shard := shard; rp_connected := status.(st_subscribed);
     rp_reconciling := status.(st_reconciling);
     rp_replicas := if redundant then Some status.(st_replicas) else None;
     rp_standbys_established :=
       if redundant
       then Some (len (List.filter (fun row => bool_decide (row.(cr_role) = HotStandbyRole) && row.(cr_established))
                         status.(st_connections)))
       else None;
     rp_standby_agreeing_markets :=
       if redundant then Some status.(st_standby_agreeing_markets) else None;
     rp_pool := pr_state <$> status.(st_pool); rp_desired := status.(st_desired);
     rp_segment := status.(st_segment); rp_segment_markets := status.(st_segment_markets);
     rp_attachments := attachments_of self shard; rp_queue_age := status.(st_queue_age);
     rp_publish_latency := status.(st_publish_latency) |}.

Definition market_row (self : Router F) (shard : nat) (market : MarketReport) : MarketRow :=
  let d := self.(demand) !! market.(mr_slug) in
  {| row_shard := shard; row_market := market;
     row_pinned := match d with Some d => d.(pinned) | None => false end;
     row_leases := match d with
                   | Some d => Z.min U32_MAX (Z.of_nat (size d.(lessees)))
                   | None => 0
                   end |}.

Fixpoint gather_status (n shard : nat) :
    prog (result (list ShardReport * list MarketRow) ShardControlError) :=
  match n with
  | O => pret (Ok ([], []))
  | S n =>
      status <-!? command (fleet_status shard) ;;
      here <-! pget (fun self => (shard_report self shard status,
                                  market_row self shard <$> status.(st_markets))) ;;
      rest <-!? gather_status n (S shard) ;;
      pret (Ok (here.1 :: rest.1, here.2 ++ rest.2))
  end.

Definition row_slug (row : MarketRow) : bytes := row.(row_market).(mr_slug).

(** [str::cmp] and the rows of a page: those after the cursor, at most a page of them, and
    whether there are more. *)
Definition slug_at_most (x y : bytes) : bool := match cmp_list Z.compare x y with Gt => false | _ => true end.

Fixpoint skip_while {A} (p : A -> bool) (l : list A) : list A :=
  match l with
  | a :: rest => if p a then skip_while p rest else l
  | [] => []
  end.

Definition page_of (after : option bytes) (rows : list MarketRow) : list MarketRow * bool :=
  let rows := sort_by (fun left right => cmp_list Z.compare (row_slug left) (row_slug right)) rows in
  let remaining := skip_while (fun row => match after with
                                          | Some cursor => slug_at_most (row_slug row) cursor
                                          | None => false
                                          end) rows in
  let markets := take STATUS_PAGE_MARKETS remaining in
  (markets, (length markets =? STATUS_PAGE_MARKETS)%nat &&
            negb (bool_decide (drop STATUS_PAGE_MARKETS remaining = []))).

Definition status (after : option bytes) : prog ControlResponse :=
  shards <-! pget handles ;;
  gathered <-! gather_status shards 0 ;;
  match gathered with
  | Err error => pret (control_failure error)
  | Ok (summaries, rows) =>
      let '(markets, more) := page_of after rows in
      pget (fun self => ResponseStatus
        {| ds_pid := pid; ds_more := more;
           ds_shards := match after with None => summaries | Some _ => [] end;
           ds_markets := markets; ds_answers_abandoned := self.(answers_abandoned);
           ds_attachments_refused := self.(attachments_refused);
           ds_metrics_listen := self.(listening) |})
  end.

Fixpoint collect (n shard : nat) : prog (result (list ShardSnapshot) bytes) :=
  match n with
  | O => pret (Ok [])
  | S n =>
      answered <-! command (fleet_metrics shard) ;;
      match answered with
      | None => pret (Err (lit "shard " ++ to_decimal (Z.of_nat shard) ++
                  lit " did not answer the collection in time; nothing was collected"))
      | Some (Err Busy) => pret (Err (lit "shard " ++ to_decimal (Z.of_nat shard) ++
                             lit "'s control queue is full; nothing was collected"))
      | Some (Err Stopped) => pret (Err (lit "shard " ++ to_decimal (Z.of_nat shard) ++
                                lit " is no longer running"))
      | Some (Ok metrics) =>
          attachments <-! pget (fun self => attachments_of self shard) ;;
          rest <-!? collect n (S shard) ;;
          pret (Ok ({| ss_shard := shard; ss_attachments := attachments; ss_metrics := metrics |} :: rest))
      end
  end.

(** The sums are counts of what is held in memory, below the width of a [u64]. *)
Definition metrics : prog (result MetricsSnapshot bytes) :=
  shards <-! pget handles ;;
  shards <-!? collect shards 0 ;;
  pget (fun self => Ok
    {| ms_pid := pid; ms_answers_abandoned := self.(answers_abandoned);
       ms_attachments_refused := self.(attachments_refused);
       ms_markets := foldr Z.add 0 ((fun s => s.(ss_metrics).(sm_markets)) <$> shards);
       ms_pinned := Z.of_nat (size (filter (fun e => e.2.(pinned) = true) self.(demand)));
       ms_leases := foldr Z.add 0 ((fun e => Z.of_nat (size e.2.(lessees))) <$> map_to_list self.(demand));
       ms_shards := shards |}).

Definition apply (request : ControlRequest) : prog ControlResponse :=
  let answer (m : prog (result (list MarketOutcome) ShardControlError)) :=
    answered <-! m ;;
    pret (match answered with
          | Ok markets => ResponseMarkets markets
          | Err error => control_failure error
          end) in
  match request with
  | RequestAdd markets => answer (add markets true)
  | RequestRemove markets => answer (unpin markets)
  | RequestStatus after => status after
  | RequestAttach market =>
      pret (ResponseError (lit "attach for " ++ market ++ lit " is answered on its own connection"))
  | RequestRelease market =>
      pret (ResponseError (lit "release of " ++ market ++ lit " is answered on the session that sent it"))
  | RequestRenew => pret (ResponseError (lit "renew is answered on the session that sent it"))
  end.
End methods.
