(* ===== verification/RouterLaws.v ===== *)
(** * What a router relies on of its shards, and what sending to them does

    [FleetLaws] is what a shard's handle promises of every command, stated over which markets
    each shard wants ([holds]); a fleet of modelled shards keeps it ([RouterShards]). Over it:
    what a batch sent to several shards answers and changes ([dispatch_spec]), also when one
    of them refuses it. *)

From stdpp Require Import gmap relations.
From S2P Require Import Prelude OrdMap Identity Descriptor Continuity Pool Session Limitless Pacing Connection QueueAge Supervisor ShardMarket Shard ShardDemand Daemon Router.

(** What the answer to an add says of a market: whether it was wanted, whether it is. *)
Definition add_answered (before after : Prop) (status : MarketStatus) : Prop :=
  match status with
  | Accepted => ~ before /\ after
  | Rejected _ => ~ before /\ ~ after
  | Removed => False
  | _ => before /\ after
  end.

(** [holds f i slug]: shard [i] wants the market. A command that was refused changed nothing;
    one that was answered did what it answered, and no shard but its own changed. *)
Class FleetLaws (F : Type) `{FL : Fleet F} : Type := {
  (** A fleet of [n] shards, in a state of its runs. *)
  fleet_ok : nat -> F -> Prop;
  holds : F -> nat -> bytes -> Prop;
  (** What the shards do between two commands. *)
  fleet_moves : F -> F -> Prop;
  holds_slug : forall n f i slug, fleet_ok n f -> holds f i slug -> is_market_slug slug = true;
  moves_law : forall n f g, fleet_ok n f -> fleet_moves f g ->
    fleet_ok n g /\ forall i slug, holds g i slug <-> holds f i slug;
  add_law : forall n f i batch, fleet_ok n f -> NoDup batch ->
    let '(answer, g) := fleet_add i batch f in
    fleet_ok n g /\ (forall j slug, j <> i \/ slug ∉ batch -> holds g j slug <-> holds f j slug) /\
    match answer with
    | Ok outcomes => oc_slug <$> outcomes = batch /\
        Forall (fun o => add_answered (holds f i o.(oc_slug)) (holds g i o.(oc_slug)) o.(oc_status)) outcomes
    | Err _ => forall slug, holds g i slug <-> holds f i slug
    end;
  remove_law : forall n f i batch, fleet_ok n f ->
    let '(answer, g) := fleet_remove i batch f in
    fleet_ok n g /\ (forall j slug, j <> i \/ slug ∉ batch -> holds g j slug <-> holds f j slug) /\
    match answer with
    | Ok outcomes =>
        outcomes = (fun slug => {| oc_slug := slug; oc_status := removal_answer slug |}) <$> batch /\
        forall slug, slug ∈ batch -> ~ holds g i slug
    | Err _ => forall slug, holds g i slug <-> holds f i slug
    end;
  status_law : forall n f i, fleet_ok n f ->
    let '(answer, g) := fleet_status i f in
    fleet_ok n g /\ (forall j slug, holds g j slug <-> holds f j slug) /\
    match answer with
    | Ok status => NoDup (mr_slug <$> status.(st_markets)) /\
        (forall slug, holds g i slug -> slug ∈ mr_slug <$> status.(st_markets)) /\
        forall r, r ∈ status.(st_markets) ->
          ~ is_rejected r.(mr_status) /\ r.(mr_status) <> Accepted /\
          (holds g i r.(mr_slug) <-> r.(mr_status) <> Removed)
    | Err _ => True
    end;
  metrics_law : forall n f i, fleet_ok n f ->
    let g := (fleet_metrics i f).2 in
    fleet_ok n g /\ forall j slug, holds g j slug <-> holds f j slug
}.

(** No shard ever refuses a command. *)
Definition responsive (F : Type) `{FL : Fleet F} `{L : !FleetLaws F} : Prop :=
  forall n (f : F) i batch, fleet_ok n f -> (i < n)%nat ->
    is_ok (fleet_add i batch f).1 = true /\ is_ok (fleet_remove i batch f).1 = true /\
    is_ok (fleet_status i f).1 = true.

(** ** Counting the markets routed to a shard *)

Definition routed (m : gmap bytes nat) (i : nat) : nat := size (filter (fun e => e.2 = i) m).

Lemma routed_insert m k i j : m !! k = None ->
  routed (<[k := i]> m) j = (routed m j + if decide (i = j) then 1 else 0)%nat.
Proof.
  intros Hk. unfold routed. case_decide as E.
  - rewrite map_filter_insert_True by done. rewrite map_size_insert_None; [lia|].
    apply map_lookup_filter_None. by left.
  - rewrite map_filter_insert_False by done. rewrite delete_id by done. lia.
Qed.

Lemma routed_delete m k i j : m !! k = Some i ->
  routed m j = (routed (delete k m) j + if decide (i = j) then 1 else 0)%nat.
Proof.
  intros Hk. rewrite <- (insert_delete_id m k i) at 1 by done.
  apply routed_insert, lookup_delete_eq.
Qed.

Lemma routed_mono m n i : m ⊆ n -> (routed m i <= routed n i)%nat.
Proof.
  intros H. apply map_subseteq_size. apply map_subseteq_spec. intros k x.
  rewrite !map_lookup_filter_Some. simpl. intros [Hk Hx]. split; [|done]. by eapply lookup_weaken.
Qed.

(** ** Maps in slug order *)

Lemma in_order_elem {A} (m : gmap bytes A) k a : (k, a) ∈ in_order m <-> m !! k = Some a.
Proof.
  unfold in_order. rewrite list_elem_of_omap. split.
  - intros (k' & _ & E). destruct (m !! k') eqn:E'; simplify_eq/=. done.
  - intros E. exists k. rewrite E. split; [|done]. unfold sort_slugs. rewrite sort_by_perm.
    apply list_elem_of_fmap. exists (k, a). split; [done|]. by apply elem_of_map_to_list.
Qed.

Lemma in_order_slugs {A} (m : gmap bytes A) : (in_order m).*1 = sort_slugs (map_to_list m).*1.
Proof.
  unfold in_order.
  assert (H : forall l, Forall (fun k => is_Some (m !! k)) l ->
    (omap (fun slug => pair slug <$> m !! slug) l).*1 = l).
  { induction 1 as [|k l [a Hk] Hl IH]; [done|]. cbn. rewrite Hk. cbn. f_equal. exact IH. }
  apply H. unfold sort_slugs. rewrite sort_by_perm. apply Forall_fmap, Forall_forall.
  intros [k a] Hin%elem_of_map_to_list. simpl. eauto.
Qed.

Lemma in_order_NoDup {A} (m : gmap bytes A) : NoDup (in_order m).*1.
Proof.
  rewrite in_order_slugs. unfold sort_slugs. rewrite sort_by_perm. apply NoDup_fst_map_to_list.
Qed.

(** ** What a method leads to *)

Section ending.
Context {F : Type} `{FL : !Fleet F}.
Implicit Types r : Router F.

(** A method that does not panic, with what it answers and leaves. *)
Definition ends {A} (m : prog A) r (Q : A -> Router F -> Prop) : Prop :=
  match m r with Some (a, r') => Q a r' | None => False end.

Lemma ends_bind {A B} (m : prog A) (k : A -> prog B) r Q :
  ends m r (fun a r' => ends (k a) r' Q) -> ends (pbind m k) r Q.
Proof. unfold ends, pbind. by destruct (m r) as [[a r']|]. Qed.

Lemma ends_mono {A} (m : prog A) r (P Q : A -> Router F -> Prop) :
  ends m r P -> (forall a r', P a r' -> Q a r') -> ends m r Q.
Proof. unfold ends. destruct (m r) as [[a r']|]; auto. Qed.

Lemma ends_run {A} (m : prog A) r Q : ends m r Q -> exists a r', m r = Some (a, r') /\ Q a r'.
Proof. unfold ends. destruct (m r) as [[a r']|]; [eauto|done]. Qed.

Lemma ends_of {A} (m : prog A) r a r' (Q : A -> Router F -> Prop) :
  m r = Some (a, r') -> ends m r Q -> Q a r'.
Proof. unfold ends. by intros ->. Qed.

(** Stepping over a bound method whose end is known. *)
Lemma ends_then {A B} (m : prog A) (k : A -> prog B) r P Q :
  ends m r P -> (forall a r', P a r' -> ends (k a) r' Q) -> ends (pbind m k) r Q.
Proof. intros Hm Hk. apply ends_bind. by eapply ends_mono. Qed.

Lemma ends_command {A B} (f : F -> A * F) (k : A -> prog B) r Q :
  (let '(a, g) := f r.(fleet) in ends (k a) (r <| fleet := g |>) Q) -> ends (pbind (command f) k) r Q.
Proof. unfold ends, pbind, command. by destruct (f r.(fleet)). Qed.

Lemma ends_get {A B} (f : Router F -> A) (k : A -> prog B) r Q :
  ends (k (f r)) r Q -> ends (pbind (pget f) k) r Q.
Proof. done. Qed.

Lemma ends_update {B} (f : Router F -> Router F) (k : () -> prog B) r Q :
  ends (k ()) (f r) Q -> ends (pbind (pupdate f) k) r Q.
Proof. done. Qed.

(** [pfor] with an invariant over what is left of the list. *)
Lemma ends_for {A} (f : A -> prog ()) l r (I : list A -> Router F -> Prop) :
  I l r -> (forall a l r, I (a :: l) r -> ends (f a) r (fun _ r' => I l r')) ->
  ends (pfor f l) r (fun _ r' => I [] r').
Proof.
  intros HI Hf. revert r HI. induction l as [|a l IH]; intros r HI; [done|].
  cbn [pfor]. eapply ends_then; [by apply Hf|]. intros [] r' HI'. by apply IH.
Qed.

(** ** Sending a batch to each shard *)

Context {L : FleetLaws F}.

(** Two fleets that want the same. *)
Definition same_holds (f g : F) : Prop := forall i slug, holds g i slug <-> holds f i slug.

(** What a command leaves of a market it named. *)
Definition answered_as (adding : bool) (f g : F) (i : nat) (slug : bytes) (status : MarketStatus) : Prop :=
  if adding then add_answered (holds f i slug) (holds g i slug) status
  else status = removal_answer slug /\ ~ holds g i slug.

(** A market a command named, whatever became of the command. *)
Definition moved_as (adding : bool) (f g : F) (i : nat) (slug : bytes) : Prop :=
  if adding then holds f i slug -> holds g i slug else holds g i slug -> holds f i slug.

Lemma answered_moved adding f g i slug status :
  answered_as adding f g i slug status -> moved_as adding f g i slug.
Proof. unfold answered_as, moved_as, add_answered. destruct adding, status; tauto. Qed.

(** The shards asked about each market. *)
Implicit Type T : gmap bytes (option nat).
Definition asks T (i : nat) (slug : bytes) : Prop := T !! slug = Some (Some i).
#[global] Instance asks_dec T i slug : Decision (asks T i slug).
Proof. unfold asks. apply _. Defined.

Lemma command_law (adding : bool) n i batch (f : F) : fleet_ok n f -> NoDup batch ->
  let '(answer, g) := (if adding then fleet_add i batch else fleet_remove i batch) f in
  fleet_ok n g /\ (forall j slug, j <> i \/ slug ∉ batch -> holds g j slug <-> holds f j slug) /\
  match answer with
  | Ok outcomes => oc_slug <$> outcomes = batch /\
      Forall (fun o => answered_as adding f g i o.(oc_slug) o.(oc_status)) outcomes
  | Err _ => forall slug, holds g i slug <-> holds f i slug
  end.
Proof.
  intros Hf Hb. destruct adding; cbn [answered_as]; [by apply (add_law n)|].
  pose proof (remove_law n f i batch Hf) as H. destruct (fleet_remove i batch f) as [[outs|e] g]; [|done].
  destruct H as (Hg & Ho & -> & Hr). split_and!; [done..| |].
  - rewrite <- list_fmap_compose. simpl. apply list_fmap_id.
  - apply Forall_fmap, Forall_forall. intros slug Hs. split; [done|]. by apply Hr.
Qed.

Lemma insert_outcomes_lookup outs acc slug : NoDup (oc_slug <$> outs) ->
  insert_outcomes outs acc !! slug =
    match list_find (fun o => o.(oc_slug) = slug) outs with
    | Some (_, o) => Some o
    | None => acc !! slug
    end.
Proof.
  revert acc. induction outs as [|o outs IH]; intros acc Hn; [done|].
  apply NoDup_cons in Hn as [Hni Hn]. cbn [insert_outcomes fold_left]. rewrite IH by done. simpl.
  case_decide as E.
  - assert (Hf : list_find (fun o => o.(oc_slug) = slug) outs = None).
    { apply list_find_None, Forall_forall. intros o' Hin E'. apply Hni. rewrite E, <- E'.
      by apply list_elem_of_fmap_2. }
    rewrite Hf, <- E. apply lookup_insert_eq.
  - destruct (list_find _ outs) as [[n o']|]; [done|]. by rewrite lookup_insert_ne.
Qed.

Lemma insert_outcomes_in outs acc slug : NoDup (oc_slug <$> outs) -> slug ∈ oc_slug <$> outs ->
  exists o, o ∈ outs /\ o.(oc_slug) = slug /\ insert_outcomes outs acc !! slug = Some o.
Proof.
  intros Hn Hin. rewrite insert_outcomes_lookup by done. destruct (list_find _ outs) as [[n o]|] eqn:E.
  - apply list_find_Some in E as (Ho & Es & _). exists o. split_and!; [|done..]. by eapply list_elem_of_lookup_2.
  - apply list_find_None in E. apply list_elem_of_fmap in Hin as (o & -> & Ho).
    rewrite Forall_forall in E. by destruct (E o Ho).
Qed.

Lemma insert_outcomes_out outs acc slug : NoDup (oc_slug <$> outs) -> slug ∉ oc_slug <$> outs ->
  insert_outcomes outs acc !! slug = acc !! slug.
Proof.
  intros Hn Hin. rewrite insert_outcomes_lookup by done. destruct (list_find _ outs) as [[n o]|] eqn:E; [|done].
  apply list_find_Some in E as (Ho & <- & _). destruct Hin. apply list_elem_of_fmap_2. by eapply list_elem_of_lookup_2.
Qed.

(** The markets of a list of targets that one shard is asked about. *)
Definition targeting (i : nat) (l : list (bytes * option nat)) : list bytes :=
  omap (fun e => j ← e.2; if decide (j = i) then Some e.1 else None) l.

Lemma targeting_elem i l k : k ∈ targeting i l <-> (k, Some i) ∈ l.
Proof.
  unfold targeting. rewrite list_elem_of_omap. split.
  - intros ([k' [j|]] & Hin & E); simplify_eq/=. case_decide; by simplify_eq.
  - intros Hin. exists (k, Some i). split; [done|]. simpl. by rewrite decide_True.
Qed.

Lemma targeting_NoDup i l : NoDup l.*1 -> NoDup (targeting i l).
Proof.
  induction l as [|[k o] l IH]; [constructor|]. intros [Hni Hn]%NoDup_cons.
  cbn. destruct o as [j|]; simpl; [|by apply IH]. case_decide as E; [|by apply IH].
  constructor; [|by apply IH]. intros Hin%targeting_elem. apply Hni. by apply (list_elem_of_fmap_2 fst) in Hin.
Qed.

Lemma batch_targets_spec l bs acc r : (forall k i, (k, Some i) ∈ l -> (i < length bs)%nat) ->
  ends (batch_targets l bs acc) r (fun x r' => r' = r /\ length x.1 = length bs /\
    (forall i b, x.1 !! i = Some b -> exists b0, bs !! i = Some b0 /\ b = b0 ++ targeting i l) /\
    (forall k, (k, None) ∈ l -> x.2 !! k = Some (untargeted k)) /\
    (forall k, (k, None) ∉ l -> x.2 !! k = acc !! k)).
Proof.
  revert bs acc. induction l as [|[k [j|]] l IH]; intros bs acc Hi; cbn [batch_targets].
  - split_and!; [done..| | |done].
    + intros i b Hb. exists b. by rewrite app_nil_r.
    + intros k Hk. by apply not_elem_of_nil in Hk.
  - assert (Hj : (j < length bs)%nat) by (apply (Hi k); left). apply Nat.ltb_lt in Hj as Hj'. rewrite Hj'.
    eapply ends_mono; [apply IH|].
    { intros k' i Hin. rewrite length_alter. apply (Hi k'). by right. }
    intros [xs m] r' (-> & Hl & Hb & Hn & Ha). rewrite length_alter in Hl. split_and!; [done..| | |].
    + intros i b Hb'. destruct (Hb i b Hb') as (b0 & E & ->). cbn. destruct (decide (j = i)) as [->|Hne].
      * rewrite list_lookup_alter_eq in E. apply fmap_Some in E as (b1 & E1 & ->).
        exists b1. split; [done|]. rewrite <- app_assoc. done.
      * rewrite list_lookup_alter_ne in E by done. by exists b0.
    + intros k' [?|Hin]%elem_of_cons; [done|by apply Hn].
    + intros k' Hin. apply Ha. intros Hin'. apply Hin. by right.
  - eapply ends_mono; [apply IH|].
    { intros k' i Hin. apply (Hi k'). by right. }
    intros [xs m] r' (-> & Hl & Hb & Hn & Ha). split_and!; [done..|exact Hb| |].
    + intros k' [[= ->]|Hin]%elem_of_cons; [|by apply Hn].
      destruct (decide ((k, None) ∈ l)) as [Hin|Hin]; [by apply Hn|].
      cbn [snd] in *. rewrite Ha by done. apply lookup_insert_eq.
    + intros k' Hin. cbn [snd] in *. rewrite Ha by (intros Hin'; apply Hin; by right).
      apply lookup_insert_ne. intros ->. apply Hin. left.
Qed.

(** What sending the batches leaves, from the shard [n] on. *)
Definition sent (adding : bool) T (n m : nat) (f g : F) (acc : gmap bytes MarketOutcome)
    (answer : result (gmap bytes MarketOutcome) ShardControlError) : Prop :=
  (forall i k, ~ asks T i k \/ (i < n)%nat -> holds g i k <-> holds f i k) /\
  (forall i k, moved_as adding f g i k) /\
  match answer with
  | Ok answered =>
      (forall k, (forall i, (n <= i < m)%nat -> ~ asks T i k) -> answered !! k = acc !! k) /\
      (forall i k, (n <= i < m)%nat -> asks T i k ->
         exists o, answered !! k = Some o /\ o.(oc_slug) = k /\ answered_as adding f g i k o.(oc_status))
  | Err _ => ~ responsive F /\ exists i, (n <= i < m)%nat /\
      (forall j k, (j < i)%nat -> (n <= j)%nat -> asks T j k -> exists status, answered_as adding f g j k status) /\
      forall j k, (i <= j)%nat -> holds g j k <-> holds f j k
  end.

Definition batches_of T (n : nat) (bs : list (list bytes)) : Prop :=
  forall i b, bs !! i = Some b -> NoDup b /\ forall k, k ∈ b <-> asks T (n + i) k.

Lemma batches_tail T n b bs : batches_of T n (b :: bs) -> batches_of T (S n) bs.
Proof. intros H i b' Hb. replace (S n + i)%nat with (n + S i)%nat by lia. by apply H. Qed.

Lemma batches_head T n b bs : batches_of T n (b :: bs) -> NoDup b /\ forall k, k ∈ b <-> asks T n k.
Proof. intros H. destruct (H 0%nat b eq_refl) as [Hn Hk]. split; [done|]. intros k. by rewrite Hk, Nat.add_0_r. Qed.

Lemma asks_one T i j k : asks T i k -> asks T j k -> i = j.
Proof. unfold asks. congruence. Qed.

Lemma same_moved adding f g i k : (holds g i k <-> holds f i k) -> moved_as adding f g i k.
Proof. unfold moved_as. destruct adding; tauto. Qed.

Lemma sent_nil adding T n f acc : sent adding T n (n + 0) f f acc (Ok acc).
Proof.
  split_and!; [done| | |].
  - intros i k. by apply same_moved.
  - done.
  - intros i k Hi. lia.
Qed.

(** A shard that is asked nothing. *)
Lemma sent_skip adding T n m f g acc answer : (forall k, ~ asks T n k) ->
  sent adding T (S n) m f g acc answer -> sent adding T n m f g acc answer.
Proof.
  intros Hn (Ho & Hm & Ha). split_and!; [|done|].
  - intros i k [Hi|Hi]; apply Ho; [by left|right; lia].
  - destruct answer as [answered|e].
    + destruct Ha as [Ha Hk]. split.
      * intros k H. apply Ha. intros i Hi. apply H. lia.
      * intros i k Hi Hik. apply Hk; [|done]. destruct (decide (i = n)) as [->|]; [by destruct (Hn k)|lia].
    + destruct Ha as (Hr & i & Hi & Ht & Hs). split; [done|]. exists i. split_and!; [lia|lia| |done].
      intros j k Hj Hnj Hjk. apply Ht; [done| |done]. destruct (decide (j = n)) as [->|]; [by destruct (Hn k)|lia].
Qed.

(** A shard that answered, and then the shards after it. *)
Lemma sent_answered adding T n m f g h acc outs batch answer : (n < m)%nat ->
  NoDup batch -> (forall k, k ∈ batch <-> asks T n k) ->
  (forall j k, j <> n \/ k ∉ batch -> holds g j k <-> holds f j k) ->
  oc_slug <$> outs = batch ->
  Forall (fun o => answered_as adding f g n o.(oc_slug) o.(oc_status)) outs ->
  sent adding T (S n) m g h (insert_outcomes outs acc) answer ->
  sent adding T n m f h acc answer.
Proof.
  intros Hnm Hnd Hb Ho Hs Hf (Ho' & Hm & Ha).
  assert (Hfn : forall k, asks T n k -> exists o, insert_outcomes outs acc !! k = Some o /\
    o.(oc_slug) = k /\ answered_as adding f h n k o.(oc_status)).
  { intros k Hk. destruct (insert_outcomes_in outs acc k) as (o & Hin & E & Hi).
    - by rewrite Hs.
    - rewrite Hs. by apply Hb.
    - exists o. split_and!; [done..|]. rewrite Forall_forall in Hf. specialize (Hf o Hin). rewrite E in Hf.
      assert (E' : holds h n k <-> holds g n k) by (apply Ho'; right; lia).
      unfold answered_as, add_answered in *. destruct adding, (oc_status o); rewrite ?E'; tauto. }
  assert (Hgf : forall i k, i <> n -> holds g i k <-> holds f i k) by (intros i k Hi; apply Ho; by left).
  assert (from_earlier : forall i k, i <> n -> forall status,
    answered_as adding g h i k status -> answered_as adding f h i k status).
  { intros i k Hne status. pose proof (Hgf i k Hne). unfold answered_as, add_answered.
    destruct adding; [|done]. destruct status; tauto. }
  split_and!.
  - intros i k Hi. rewrite Ho'.
    + apply Ho. destruct Hi as [Hi|Hi]; [|left; lia]. destruct (decide (i = n)) as [->|]; [right; by rewrite Hb|by left].
    + destruct Hi as [Hi|Hi]; [by left|right; lia].
  - intros i k. destruct (decide (i = n)) as [->|Hne].
    + destruct (decide (k ∈ batch)) as [Hk|Hk].
      * apply Hb in Hk. destruct (Hfn k Hk) as (o & _ & _ & Hx). by eapply answered_moved.
      * apply same_moved. rewrite Ho' by (right; lia). apply Ho. by right.
    + specialize (Hm i k). unfold moved_as in *. destruct adding; rewrite <- (Hgf i k Hne); done.
  - destruct answer as [answered|e].
    + destruct Ha as [Ha Hk]. split.
      * intros k H. rewrite Ha by (intros i Hi; apply H; lia). apply insert_outcomes_out; rewrite Hs; [done|].
        rewrite Hb. apply H. lia.
      * intros i k Hi Hik. destruct (decide (i = n)) as [->|Hne].
        -- destruct (Hfn k Hik) as (o & Hx & Hy & Hz). exists o. split; [|done]. rewrite Ha; [done|].
           intros j Hj Hjk. pose proof (asks_one _ _ _ _ Hik Hjk). lia.
        -- destruct (Hk i k) as (o & Hx & Hy & Hz); [lia|done|]. exists o. split_and!; [done..|].
           by apply (from_earlier i k Hne).
    + destruct Ha as (Hr & i & Hi & Ht & Hx). split; [done|]. exists i. split_and!; [lia|lia| |].
      * intros j k Hj Hnj Hjk. destruct (decide (j = n)) as [->|Hne].
        -- destruct (Hfn k Hjk) as (o & _ & _ & Hz). by eexists.
        -- destruct (Ht j k Hj ltac:(lia) Hjk) as [status Hz]. exists status. by apply (from_earlier j k Hne).
      * intros j k Hj. rewrite (Hx j k Hj). apply Hgf. lia.
Qed.

Lemma send_batches_spec adding T m bs n acc r : fleet_ok m r.(fleet) -> batches_of T n bs ->
  (n + length bs <= m)%nat ->
  ends (send_batches adding n bs acc) r (fun answer r' => exists g,
    r' = r <| fleet := g |> /\ fleet_ok m g /\ sent adding T n (n + length bs) r.(fleet) g acc answer).
Proof.
  revert n acc r. induction bs as [|b bs IH]; intros n acc r Hf Hb Hm.
  { exists r.(fleet). split_and!; [by destruct r|done|]. apply sent_nil. }
  pose proof (batches_head _ _ _ _ Hb) as [Hnd Hk]. apply batches_tail in Hb.
  replace (n + length (b :: bs))%nat with (S n + length bs)%nat in * by (simpl; lia).
  destruct b as [|k b]; cbn [send_batches].
  { eapply ends_mono; [by apply IH|]. intros answer r' (g & -> & Hg & Hs). exists g. split_and!; [done..|].
    apply sent_skip; [|done]. intros k Hk'. apply Hk in Hk'. by apply not_elem_of_nil in Hk'. }
  remember (k :: b) as batch eqn:Eb. clear Eb k b.
  apply ends_command.
  pose proof (command_law adding m n batch r.(fleet) Hf Hnd) as Hc.
  destruct ((if adding then _ else _) _) as [[outs|e] g] eqn:Ec; destruct Hc as (Hg & Ho & Hc).
  - destruct Hc as [Hs Hx].
    eapply ends_mono; [by apply IH|]. cbn [fleet set]. intros answer r' (h & -> & Hh & Hsent).
    exists h. split_and!; [done..|]. eapply sent_answered; try done. lia.
  - exists g. split_and!; [done..|]. split_and!.
    + intros i k' Hi. apply Ho. rewrite Hk. destruct Hi as [Hi|Hi]; [|left; lia].
      destruct (decide (i = n)) as [->|]; [by right|by left].
    + intros i k'. apply same_moved. destruct (decide (i = n)) as [->|]; [apply Hc|]. apply Ho. by left.
    + intros Hr. destruct (Hr m r.(fleet) n batch Hf) as (Ea & Er & _); [lia|]. destruct adding; by rewrite Ec in *.
    + exists n. split_and!; [lia|lia|lia|]. intros j k' Hj. destruct (decide (j = n)) as [->|]; [apply Hc|]. apply Ho. by left.
Qed.

(** Sending every market to its target. *)
Definition dispatched (adding : bool) T (n : nat) (f g : F)
    (answer : result (gmap bytes MarketOutcome) ShardControlError) : Prop :=
  (forall i k, ~ asks T i k -> holds g i k <-> holds f i k) /\
  (forall i k, moved_as adding f g i k) /\
  match answer with
  | Ok answered =>
      (forall k, T !! k = None -> answered !! k = None) /\
      (forall k, T !! k = Some None -> answered !! k = Some (untargeted k)) /\
      (forall i k, asks T i k ->
         exists o, answered !! k = Some o /\ o.(oc_slug) = k /\ answered_as adding f g i k o.(oc_status))
  | Err _ => ~ responsive F /\ exists i, (i < n)%nat /\
      (forall j k, (j < i)%nat -> asks T j k -> exists status, answered_as adding f g j k status) /\
      forall j k, (i <= j)%nat -> holds g j k <-> holds f j k
  end.

Theorem dispatch_spec adding T r : fleet_ok r.(handles) r.(fleet) -> (forall k i, asks T i k -> (i < r.(handles))%nat) ->
  ends (dispatch T adding) r (fun answer r' => exists g,
    r' = r <| fleet := g |> /\ fleet_ok r.(handles) g /\ dispatched adding T r.(handles) r.(fleet) g answer).
Proof.
  intros Hf Hi. unfold dispatch. apply ends_bind. cbn. apply ends_bind.
  eapply ends_mono; [apply batch_targets_spec|].
  { intros k i Hin%in_order_elem. rewrite length_replicate. by apply (Hi k). }
  intros [bs acc] r' (-> & Hl & Hb & Hn & Ha). cbn [fst snd] in *. rewrite length_replicate in Hl.
  assert (HB : batches_of T 0 bs).
  { intros i b Hib. destruct (Hb i b Hib) as (b0 & E & ->). apply lookup_replicate in E as [-> _]. simpl. split.
    - apply targeting_NoDup, in_order_NoDup.
    - intros k. rewrite targeting_elem. apply in_order_elem. }
  eapply ends_mono; [apply (send_batches_spec adding T r.(handles)); [done..|lia]|]. rewrite Hl, Nat.add_0_l.
  intros answer r' (g & -> & Hg & Ho & Hm & Hx). exists g. split_and!; [done..|]. split_and!.
  - intros i k Hk. apply Ho. by left.
  - done.
  - destruct answer as [answered|e]; [|destruct Hx as (Hr & i & ? & Ht & ?); split; [done|]; exists i;
      split_and!; [lia|intros j k Hj; apply Ht; [done|lia]|done]].
    destruct Hx as [Hx Hk]. split_and!.
    + intros k Hk'. rewrite Hx, Ha; [apply lookup_empty| |].
      * by rewrite in_order_elem, Hk'.
      * intros i _ H. unfold asks in H. congruence.
    + intros k Hk'. rewrite Hx; [apply Hn; by apply in_order_elem|]. intros i _ H. unfold asks in H. congruence.
    + intros i k Hik. apply Hk; [|done]. split; [lia|by apply (Hi k)].
Qed.
End ending.
