(* ===== verification/RouterInv.v ===== *)
(** * What each method of the router does

    Over any fleet that keeps [FleetLaws], from any well-formed table ([wf]): no method
    panics, and what it answers, which commands it sent and what it leaves of the table are
    given in closed form ([add_spec], [release_markets_spec], ...). [exact] is the agreement
    of the table with the shards. *)

From stdpp Require Import gmap relations.
From S2P Require Import Prelude OrdMap Identity Descriptor Continuity Pool Session Limitless Pacing Connection QueueAge Supervisor ShardMarket Shard ShardDemand Daemon Router RouterLaws.

Section table.
Context {F : Type} `{FL : !Fleet F} {L : FleetLaws F}.
Implicit Types r : Router F.
Implicit Type T : gmap bytes (option nat).

Record wf r : Prop := {
  wf_shards : (0 < r.(handles))%nat;
  wf_fleet : fleet_ok r.(handles) r.(fleet);
  wf_range : forall k i, r.(assignments) !! k = Some i -> (i < r.(handles))%nat;
  wf_counts : length r.(counts) = r.(handles)
}.

(** What no method but the recording of an attachment changes. *)
Definition steady r r' : Prop :=
  r'.(handles) = r.(handles) /\ r'.(capacity) = r.(capacity) /\ r'.(segments) = r.(segments) /\
  r'.(instance) = r.(instance).

#[global] Instance steady_preorder : PreOrder steady.
Proof.
  split; [by intros r|]. unfold steady. intros r r1 r2 (-> & -> & -> & ->) (-> & -> & -> & ->). done.
Qed.

(** Why a market is held; a market without a record is held for nothing. *)
Definition demand_of r (k : bytes) : Demand := default demand_default (r.(demand) !! k).

Lemma wanted_demand r k : wanted r k = demand_wanted (demand_of r k).
Proof. unfold wanted, demand_of. by destruct (r.(demand) !! k). Qed.

(** The counts are those of the table. *)
Definition counted r : Prop := forall i, (i < r.(handles))%nat ->
  r.(counts) !! i = Some (Z.of_nat (routed r.(assignments) i)).

(** ** Planning *)

(** The table with the plan's targets in it. *)
Definition planned_table r T : gmap bytes nat := r.(assignments) ∪ omap id T.

Record planned_well r (plan : list Z * gmap bytes (option nat)) : Prop := {
  pw_length : length plan.1 = r.(handles);
  pw_range : forall k i, asks plan.2 i k -> (i < r.(handles))%nat;
  pw_known : forall k i, asks plan.2 i k -> r.(assignments) !! k = Some i \/ r.(assignments) !! k = None;
  pw_slug : forall k i, asks plan.2 i k -> is_market_slug k = true;
  pw_routed : counted r -> forall i, (i < r.(handles))%nat ->
    plan.1 !! i = Some (Z.of_nat (routed (planned_table r plan.2) i));
  pw_room : (forall i n, r.(counts) !! i = Some n -> n <= r.(capacity)) ->
    forall i n, plan.1 !! i = Some n -> n <= r.(capacity)
}.

Lemma planned_table_insert_known r T k o : r.(assignments) !! k = o -> (o = None -> T !! k = None) ->
  planned_table r (<[k := o]> T) = planned_table r T.
Proof.
  intros Hk HT. unfold planned_table. apply map_eq. intros k'. rewrite !lookup_union, !lookup_omap.
  destruct (decide (k' = k)) as [->|]; [|by rewrite lookup_insert_ne].
  rewrite lookup_insert_eq, Hk. destruct o; [by destruct (T !! k ≫= id)|]. by rewrite HT.
Qed.

Lemma planned_table_insert_new r T k i : r.(assignments) !! k = None ->
  planned_table r (<[k := Some i]> T) = <[k := i]> (planned_table r T).
Proof.
  intros Hk. unfold planned_table. rewrite (omap_insert_Some id T k (Some i) i) by done.
  by rewrite insert_union_r.
Qed.

Lemma plan_market_well r plan k : wf r -> planned_well r plan -> planned_well r (plan_market r plan k).
Proof.
  intros Hr [Hl Hi Hkn Hsl Hro Hroom]. destruct plan as [planned T]. unfold plan_market. cbn [fst snd] in *.
  destruct (T !! k) as [o|] eqn:ET; [by split|].
  assert (Hnone : forall o, (forall i, o <> Some i) -> r.(assignments) !! k = None \/ is_market_slug k = false ->
    planned_well r (planned, <[k := o]> T)).
  { intros o Ho Hk. assert (Ha : forall i k', asks (<[k := o]> T) i k' -> asks T i k').
    { intros i k'. unfold asks. destruct (decide (k' = k)) as [->|].
      - rewrite lookup_insert_eq. intros [= E]. by destruct (Ho i).
      - by rewrite lookup_insert_ne. }
    assert (E : planned_table r (<[k := o]> T) = planned_table r T).
    { destruct o as [i|]; [by destruct (Ho i)|]. unfold planned_table. apply map_eq. intros k'.
      rewrite !lookup_union, !lookup_omap. destruct (decide (k' = k)) as [->|]; [|by rewrite lookup_insert_ne].
      by rewrite lookup_insert_eq, ET. }
    split; cbn [fst snd]; [done|eauto..| |done]. intros Hc i Hin. rewrite E. by apply Hro. }
  destruct (is_market_slug k) eqn:Es; cbn [negb]; [|apply Hnone; [done|by right]].
  assert (Hasks : forall j i k', asks (<[k := Some j]> T) i k' -> (k' = k /\ i = j) \/ asks T i k').
  { intros j i k'. unfold asks. destruct (decide (k' = k)) as [->|].
    - rewrite lookup_insert_eq. intros [= ->]. by left.
    - rewrite lookup_insert_ne by done. by right. }
  destruct (r.(assignments) !! k) as [j|] eqn:Ea.
  - split; cbn [fst snd]; [done|..].
    + intros k' i [[-> ->]|?]%Hasks; [by eapply wf_range|eauto].
    + intros k' i [[-> ->]|?]%Hasks; [by left|eauto].
    + intros k' i [[-> ->]|?]%Hasks; [done|eauto].
    + intros Hc i Hin. rewrite (planned_table_insert_known r T k (Some j)) by done. by apply Hro.
    + done.
  - destruct (list_find _ planned) as [[j n]|] eqn:Ef; simpl; [|apply Hnone; [done|by left]].
    apply list_find_Some in Ef as (Ej & Hn & _).
    assert (Hj : (j < r.(handles))%nat) by (rewrite <- Hl; by eapply lookup_lt_Some).
    split; cbn [fst snd]; [by rewrite length_alter|..].
    + intros k' i [[-> ->]|?]%Hasks; [done|eauto].
    + intros k' i [[-> ->]|?]%Hasks; [by right|eauto].
    + intros k' i [[-> ->]|?]%Hasks; [done|eauto].
    + intros Hc i Hin. rewrite planned_table_insert_new by done. rewrite routed_insert.
      2:{ unfold planned_table. by rewrite lookup_union, lookup_omap, Ea, ET. }
      destruct (decide (j = i)) as [->|Hne].
      * rewrite list_lookup_alter_eq, (Hro Hc i Hin). simpl. f_equal. lia.
      * rewrite list_lookup_alter_ne, (Hro Hc i Hin) by done. f_equal. lia.
    + intros Hc i m. destruct (decide (j = i)) as [->|Hne].
      * rewrite list_lookup_alter_eq, Ej. simpl. intros [= <-]. simpl in Hn. lia.
      * rewrite list_lookup_alter_ne by done. by apply Hroom.
Qed.

Lemma plan_add_well r slugs : wf r ->
  planned_well r (fold_left (plan_market r) slugs (r.(counts), ∅)).
Proof.
  intros Hr. assert (H0 : planned_well r (r.(counts), ∅)).
  { split; cbn [fst snd]; try done; [apply Hr|].
    intros Hc i Hi. rewrite (Hc i Hi). do 2 f_equal. unfold planned_table. by rewrite omap_empty, map_union_empty. }
  revert H0. generalize (r.(counts), (∅ : gmap bytes (option nat))).
  induction slugs as [|k slugs IH]; intros plan Hp; [done|]. cbn [fold_left].
  apply IH. by apply plan_market_well.
Qed.

(** A market without a target: no identifier, or new with no room anywhere. *)
Lemma plan_add_dom r slugs k : is_Some (plan_add r slugs !! k) <-> k ∈ slugs.
Proof.
  unfold plan_add.
  assert (H : forall plan, is_Some ((fold_left (plan_market r) slugs plan).2 !! k) <->
    is_Some (plan.2 !! k) \/ k ∈ slugs).
  { induction slugs as [|k' slugs IH]; intros [planned T]; cbn [fold_left snd].
    { rewrite elem_of_nil. tauto. }
    rewrite IH, elem_of_cons.
    assert (E : is_Some ((plan_market r (planned, T) k').2 !! k) <-> is_Some (T !! k) \/ k = k').
    { unfold plan_market. destruct (T !! k') as [o|] eqn:ET; cbn [snd].
      - split; [by left|]. intros [? | ->]; [done|by rewrite ET].
      - assert (Hi : forall o, is_Some (<[k' := o]> T !! k) <-> is_Some (T !! k) \/ k = k').
        { intros o. destruct (decide (k = k')) as [->|]; [rewrite lookup_insert_eq; split; eauto|].
          rewrite lookup_insert_ne by done. naive_solver. }
        destruct (negb _); [apply Hi|]. destruct (r.(assignments) !! k'); [apply Hi|].
        destruct (fst <$> _); apply Hi. }
    rewrite E. tauto. }
  rewrite H. simpl. rewrite lookup_empty. split; [intros [[? ?]|?]; done|by right].
Qed.

(** ** Recording what was answered *)

Definition accepted (answered : gmap bytes MarketOutcome) (k : bytes) : bool :=
  match answered !! k with Some o => bool_decide (o.(oc_status) = Accepted) | None => false end.

Definition taken (answered : gmap bytes MarketOutcome) (k : bytes) : bool :=
  match answered !! k with Some o => negb (is_rejected o.(oc_status)) | None => false end.

(** Where a market is after its answer was recorded. *)
Definition placed r T answered (k : bytes) : option nat :=
  if accepted answered k then match T !! k with Some (Some i) => Some i | _ => r.(assignments) !! k end
  else r.(assignments) !! k.

Definition pinned_after r answered (pinned_ : bool) (k : bytes) : option Demand :=
  if pinned_ && taken answered k then Some (pin (demand_of r k)) else r.(demand) !! k.

Lemma count_at_spec i f r : (i < length r.(counts))%nat ->
  count_at i f r = Some ((), r <| counts ::= alter f i |>).
Proof. intros Hi. unfold count_at. by apply Nat.ltb_lt in Hi as ->. Qed.

(** One answer of an add, recorded. *)
Lemma record_added_spec T p k o r : length r.(counts) = r.(handles) ->
  (forall i, asks T i k -> (i < r.(handles))%nat) ->
  ends (record_added T p (k, o)) r (fun _ r' =>
    steady r r' /\ r'.(fleet) = r.(fleet) /\ length r'.(counts) = r'.(handles) /\
    (forall k', k' <> k -> r'.(assignments) !! k' = r.(assignments) !! k' /\ r'.(demand) !! k' = r.(demand) !! k') /\
    r'.(assignments) !! k = placed r T {[k := o]} k /\
    r'.(demand) !! k = pinned_after r {[k := o]} p k /\
    (counted r -> (o.(oc_status) = Accepted -> r.(assignments) !! k = None) ->
     (forall i, Z.of_nat (routed r'.(assignments) i) <= USIZE_MAX) -> counted r')).
Proof.
  intros Hl Hi. unfold record_added, placed, pinned_after, accepted, taken. rewrite lookup_singleton_eq.
  destruct (is_rejected o.(oc_status)) eqn:Er; cbn [negb].
  { rewrite andb_false_r. rewrite bool_decide_eq_false_2 by (intros E; by rewrite E in Er). by split_and!. }
  rewrite andb_true_r. apply ends_bind. cbn.
  set (r1 := if p then r <| demand ::= demand_entry k pin |> else r).
  assert (H1 : r1.(assignments) = r.(assignments) /\ r1.(counts) = r.(counts) /\ r1.(handles) = r.(handles) /\
    r1.(fleet) = r.(fleet) /\ steady r r1) by (subst r1; destruct p; by split_and!).
  assert (Hd : forall k', k' <> k -> r1.(demand) !! k' = r.(demand) !! k').
  { intros k' Hk'. subst r1. destruct p; [|done]. cbn. unfold demand_entry. by rewrite lookup_insert_ne. }
  assert (Hdk : r1.(demand) !! k = if p then Some (pin (demand_of r k)) else r.(demand) !! k).
  { subst r1. destruct p; [|done]. cbn. unfold demand_entry. by rewrite lookup_insert_eq. }
  change (if p then set demand _ r else r) with r1. clearbody r1. destruct H1 as (Ea & Ec & Eh & Ef & Es).
  assert (Hsame : r1.(assignments) !! k = r.(assignments) !! k ->
    steady r r1 /\ r1.(fleet) = r.(fleet) /\ length r1.(counts) = r1.(handles) /\
    (forall k', k' <> k -> r1.(assignments) !! k' = r.(assignments) !! k' /\ r1.(demand) !! k' = r.(demand) !! k') /\
    r1.(assignments) !! k = r.(assignments) !! k /\
    r1.(demand) !! k = (if p then Some (pin (demand_of r k)) else r.(demand) !! k) /\
    (counted r -> (o.(oc_status) = Accepted -> r.(assignments) !! k = None) ->
     (forall i, Z.of_nat (routed r1.(assignments) i) <= USIZE_MAX) -> counted r1)).
  { intros _. split_and!; [done..|congruence| |congruence|done|].
    - intros k' Hk'. split; [congruence|by apply Hd].
    - intros Hc _ _. unfold counted. by rewrite Ec, Eh, Ea. }
  case_bool_decide as Eacc; cbn [negb]; [|apply Hsame; congruence].
  destruct (T !! k) as [[i|]|] eqn:ET; [|apply Hsame; congruence..].
  assert (Hr : (i < length r1.(counts))%nat) by (rewrite Ec, Hl; by apply Hi).
  unfold ends, pbind. cbn. rewrite (count_at_spec i) by done. cbn [fleet handles counts assignments demand set].
  split_and!; [by etrans|done|cbn; rewrite length_alter; congruence| | | |].
  - intros k' Hk'. cbn. rewrite lookup_insert_ne by done. split; [congruence|by apply Hd].
  - cbn. by rewrite lookup_insert_eq.
  - exact Hdk.
  - intros Hc Hn Hb j Hj. cbn in *. rewrite Eh in Hj. specialize (Hn Eacc).
    rewrite Ea in *. specialize (Hc j Hj). specialize (Hb j). rewrite routed_insert in Hb |- * by done. rewrite Ec.
    destruct (decide (i = j)) as [->|Hne].
    + rewrite list_lookup_alter_eq, Hc. cbn. f_equal. unfold saturating_add_usize. lia.
    + rewrite list_lookup_alter_ne, Hc by done. f_equal. lia.
Qed.

Lemma placed_local r T answered k o r' : answered !! k = Some o -> r'.(assignments) !! k = r.(assignments) !! k ->
  placed r' T {[k := o]} k = placed r T answered k.
Proof. intros Ho Hk. unfold placed, accepted. by rewrite lookup_singleton_eq, Ho, Hk. Qed.

Lemma pinned_local r answered p k o r' : answered !! k = Some o -> r'.(demand) !! k = r.(demand) !! k ->
  pinned_after r' {[k := o]} p k = pinned_after r answered p k.
Proof. intros Ho Hk. unfold pinned_after, taken, demand_of. by rewrite lookup_singleton_eq, Ho, Hk. Qed.

Lemma placed_out r T answered k : answered !! k = None -> placed r T answered k = r.(assignments) !! k.
Proof. intros Ho. unfold placed, accepted. by rewrite Ho. Qed.

Lemma pinned_out r answered p k : answered !! k = None -> pinned_after r answered p k = r.(demand) !! k.
Proof. intros Ho. unfold pinned_after, taken. by rewrite Ho, andb_false_r. Qed.

(** All of them. *)
Lemma record_added_all T p answered r : length r.(counts) = r.(handles) ->
  (forall k i, asks T i k -> (i < r.(handles))%nat) ->
  ends (pfor (record_added T p) (in_order answered)) r (fun _ r' =>
    steady r r' /\ r'.(fleet) = r.(fleet) /\ length r'.(counts) = r'.(handles) /\
    (forall k, r'.(assignments) !! k = placed r T answered k) /\
    (forall k, r'.(demand) !! k = pinned_after r answered p k) /\
    (counted r -> (forall k, accepted answered k = true -> r.(assignments) !! k = None) ->
     (forall i, Z.of_nat (routed r'.(assignments) i) <= USIZE_MAX) -> counted r')).
Proof.
  intros Hl Hi.
  set (I := fun (l : list (bytes * MarketOutcome)) (r' : Router F) =>
    (forall e, e ∈ l -> e ∈ in_order answered) /\ NoDup l.*1 /\
    steady r r' /\ r'.(fleet) = r.(fleet) /\ length r'.(counts) = r'.(handles) /\
    (forall k, k ∈ l.*1 -> r'.(assignments) !! k = r.(assignments) !! k /\ r'.(demand) !! k = r.(demand) !! k) /\
    (forall k, k ∉ l.*1 -> r'.(assignments) !! k = placed r T answered k /\
                           r'.(demand) !! k = pinned_after r answered p k) /\
    (counted r -> (forall k, accepted answered k = true -> r.(assignments) !! k = None) ->
     (forall i, Z.of_nat (routed r'.(assignments) i) <= USIZE_MAX) -> counted r')).
  eapply ends_mono; [apply (ends_for _ (in_order answered) r I)|].
  - unfold I. split_and!; try done; [apply in_order_NoDup|]. intros k Hk.
    assert (Hn : answered !! k = None).
    { destruct (answered !! k) as [o|] eqn:E; [|done]. apply in_order_elem in E.
      by apply (list_elem_of_fmap_2 fst) in E. }
    by rewrite placed_out, pinned_out.
  - intros [k o] l r1 (Hsub & Hnd & Hs & Hf & Hc & Hin & Hout & Hcnt). cbn in Hnd. apply NoDup_cons in Hnd as [Hni Hnd].
    assert (Ho : answered !! k = Some o) by (apply in_order_elem, Hsub; left).
    destruct (Hin k) as [Hka Hkd]; [left|]. pose proof (proj1 Hs) as Eh.
    eapply ends_mono; [apply record_added_spec; [done|]|].
    { intros i Hk. rewrite Eh. by apply (Hi k). }
    intros _ r2 (Hs2 & Hf2 & Hc2 & Hoth & Ha2 & Hd2 & Hcnt2).
    rewrite (placed_local r T answered) in Ha2 by done. rewrite (pinned_local r answered) in Hd2 by done.
    unfold I. split_and!; [intros e He; apply Hsub; by right|done|by etrans|congruence|done| | |].
    + intros k' Hk'. assert (Hne : k' <> k) by congruence. destruct (Hoth k' Hne) as [-> ->]. apply Hin. by right.
    + intros k' Hk'. destruct (decide (k' = k)) as [->|Hne]; [done|]. destruct (Hoth k' Hne) as [-> ->].
      apply Hout. intros [?|?]%elem_of_cons; done.
    + intros Hcr Hacc Hb. apply Hcnt2; [|intros E; rewrite Hka; apply Hacc; unfold accepted; rewrite Ho; by apply bool_decide_eq_true|done].
      apply Hcnt; [done..|]. intros i. specialize (Hb i).
      assert (Hm : (routed r1.(assignments) i <= routed r2.(assignments) i)%nat); [|lia].
      apply routed_mono, map_subseteq_spec. intros k' j Hk'. destruct (decide (k' = k)) as [->|Hne].
      * rewrite Ha2. unfold placed. rewrite Hka in Hk'. destruct (accepted answered k) eqn:E; [|done].
        rewrite (Hacc k E) in Hk'. done.
      * by rewrite (proj1 (Hoth k' Hne)).
  - intros [] r' (_ & _ & Hs & Hf & Hc & _ & Hout & Hcnt). split_and!; [done..| | |done].
    + intros k. apply Hout, not_elem_of_nil.
    + intros k. apply Hout, not_elem_of_nil.
Qed.

(** ** Adding *)

Definition added r (slugs : list bytes) (p : bool) r' (answer : result (list MarketOutcome) ShardControlError) : Prop :=
  let T := plan_add r slugs in
  exists got, dispatched true T r.(handles) r.(fleet) r'.(fleet) got /\
  match got with
  | Err e => answer = Err e /\ r' = r <| fleet := r'.(fleet) |>
  | Ok answered => answer = Ok (reassemble slugs answered) /\
      (forall k, r'.(assignments) !! k = placed r T answered k) /\
      (forall k, r'.(demand) !! k = pinned_after r answered p k) /\
      (counted r -> (forall k, accepted answered k = true -> r.(assignments) !! k = None) ->
       (forall i, Z.of_nat (routed r'.(assignments) i) <= USIZE_MAX) -> counted r')
  end.

Lemma wf_fleet_only r g : wf r -> fleet_ok r.(handles) g -> wf (r <| fleet := g |>).
Proof. intros [] Hg. by split. Qed.

Lemma steady_fleet r g : steady r (r <| fleet := g |>).
Proof. done. Qed.

Lemma plan_range r slugs k i : wf r -> asks (plan_add r slugs) i k -> (i < r.(handles))%nat.
Proof. intros Hr. by apply (pw_range r _ (plan_add_well r slugs Hr)). Qed.

Lemma add_spec slugs p r : wf r ->
  ends (add slugs p) r (fun answer r' => added r slugs p r' answer /\ steady r r' /\ wf r').
Proof.
  intros Hr. unfold add. apply ends_bind. cbn. apply ends_bind.
  eapply ends_mono; [apply dispatch_spec; [apply Hr|intros k i; by apply plan_range]|].
  intros got r1 (g & -> & Hg & Hd). set (r1 := r <| fleet := g |>).
  assert (Hr1 : wf r1) by by apply wf_fleet_only.
  destruct got as [answered|e]; cbn.
  - apply ends_bind. eapply ends_mono; [apply (record_added_all (plan_add r slugs) p answered r1)|].
    + apply Hr1.
    + intros k i Hk. by apply (plan_range r slugs k i).
    + intros [] r' (Hs & Hf & Hc & Ha & Hde & Hcnt). unfold ends, pret.
      assert (Hw : wf r').
      { split; [by rewrite (proj1 Hs); apply Hr|rewrite Hf, (proj1 Hs); apply Hr1| |done].
        intros k i. rewrite Ha, (proj1 Hs). unfold placed.
        destruct (accepted answered k); [|by apply (wf_range r Hr)].
        destruct (plan_add r slugs !! k) as [[j|]|] eqn:E; [|by apply (wf_range r Hr)..].
        intros [= <-]. by apply (plan_range r slugs k j). }
      split_and!; [|done|done]. exists (Ok answered). rewrite Hf. split_and!; [done..|exact Ha|exact Hde|exact Hcnt].
  - unfold ends, pret. split_and!; [|done|done]. exists (Err e). split; [exact Hd|done].
Qed.

(** What an add does to the demand it was not an operator's: nothing. *)
Lemma added_demand r slugs p r' answer : added r slugs p r' answer ->
  forall k, r'.(demand) !! k = r.(demand) !! k \/
    (p = true /\ (exists outs, answer = Ok outs) /\ k ∈ slugs /\ r'.(demand) !! k = Some (pin (demand_of r k))).
Proof.
  intros (got & Hd & Hx) k. destruct got as [answered|e].
  - destruct Hx as (-> & _ & Hde & _). rewrite Hde. unfold pinned_after.
    destruct p; simpl; [|by left]. destruct (taken answered k) eqn:E; [right|by left].
    split_and!; [done|by eexists| |done]. apply (plan_add_dom r slugs). destruct Hd as (_ & _ & Hn & _).
    apply not_eq_None_Some. intros HT. apply Hn in HT. unfold taken in E. by rewrite HT in E.
  - destruct Hx as [_ E]. left. by rewrite E.
Qed.

(** An add withdraws nothing. *)
Lemma added_holds r slugs p r' answer : added r slugs p r' answer ->
  forall i k, holds r.(fleet) i k -> holds r'.(fleet) i k.
Proof. intros (got & (_ & Hm & _) & _) i k. apply Hm. Qed.

(** ** Removing *)

Lemma removal_targets_lookup r slugs k : removal_targets r slugs !! k =
  if bool_decide (k ∈ slugs) then Some (Some (default 0%nat (r.(assignments) !! k))) else None.
Proof.
  unfold removal_targets.
  assert (H : forall m : gmap bytes (option nat),
    fold_left (fun targets slug => <[slug := Some (default 0%nat (r.(assignments) !! slug))]> targets) slugs m !! k =
    if bool_decide (k ∈ slugs) then Some (Some (default 0%nat (r.(assignments) !! k))) else m !! k).
  { induction slugs as [|k' slugs IH]; intros m; [done|]. cbn [fold_left]. rewrite IH.
    destruct (decide (k ∈ slugs)) as [Hin|Hin].
    - rewrite !bool_decide_eq_true_2; [done|by right|done].
    - rewrite (bool_decide_eq_false_2 (k ∈ slugs)) by done. destruct (decide (k = k')) as [->|Hne].
      + rewrite lookup_insert_eq, bool_decide_eq_true_2; [done|by left].
      + rewrite lookup_insert_ne by done. rewrite bool_decide_eq_false_2; [done|].
        intros [?|?]%elem_of_cons; done. }
  rewrite H. case_bool_decide; [done|apply lookup_empty].
Qed.

(** Whether an answer says the market is gone. *)
Definition gone (answered : gmap bytes MarketOutcome) (k : bytes) : bool :=
  match answered !! k with Some o => bool_decide (o.(oc_status) = Removed) | None => false end.

Definition unplaced r answered (k : bytes) : option nat :=
  if gone answered k then None else r.(assignments) !! k.

Definition forgotten r answered (k : bytes) : option Demand :=
  if gone answered k && negb (wanted r k) then None else r.(demand) !! k.

Lemma record_removed_spec k o r : length r.(counts) = r.(handles) ->
  (forall i, r.(assignments) !! k = Some i -> (i < r.(handles))%nat) ->
  ends (record_removed (k, o)) r (fun _ r' =>
    steady r r' /\ r'.(fleet) = r.(fleet) /\ length r'.(counts) = r'.(handles) /\
    (forall k', k' <> k -> r'.(assignments) !! k' = r.(assignments) !! k' /\ r'.(demand) !! k' = r.(demand) !! k') /\
    r'.(assignments) !! k = unplaced r {[k := o]} k /\
    r'.(demand) !! k = forgotten r {[k := o]} k /\ (counted r -> counted r')).
Proof.
  intros Hl Hi. unfold record_removed, unplaced, forgotten, gone. rewrite lookup_singleton_eq.
  case_bool_decide as E; cbn [negb andb]; [|by split_and!].
  apply ends_bind. cbn. apply ends_bind.
  assert (Hlast : forall r1, r1.(assignments) !! k = None ->
    (forall k', k' <> k -> r1.(assignments) !! k' = r.(assignments) !! k') -> r1.(demand) = r.(demand) ->
    steady r r1 -> r1.(fleet) = r.(fleet) -> length r1.(counts) = r1.(handles) -> (counted r -> counted r1) ->
    ends (pupdate (fun self => if wanted self k then self else self <| demand ::= delete k |>)) r1 (fun _ r' =>
      steady r r' /\ r'.(fleet) = r.(fleet) /\ length r'.(counts) = r'.(handles) /\
      (forall k', k' <> k -> r'.(assignments) !! k' = r.(assignments) !! k' /\ r'.(demand) !! k' = r.(demand) !! k') /\
      r'.(assignments) !! k = None /\
      r'.(demand) !! k = (if negb (wanted r k) then None else r.(demand) !! k) /\ (counted r -> counted r'))).
  { intros r1 Hk Ha Hd Hs Hf Hc Hcnt. unfold ends, pupdate.
    assert (Hw : wanted r1 k = wanted r k) by (unfold wanted; by rewrite Hd). rewrite Hw.
    destruct (wanted r k); cbn [negb].
    - split_and!; try done; [|congruence]. intros k' Hk'. split; [by apply Ha|congruence].
    - split_and!; try done.
      + intros k' Hk'. cbn. split; [by apply Ha|]. rewrite lookup_delete_ne by done. congruence.
      + cbn. apply lookup_delete_eq. }
  destruct (r.(assignments) !! k) as [i|] eqn:Ea.
  - specialize (Hi i eq_refl). unfold ends at 1, pbind at 1. cbn. rewrite (count_at_spec i) by (cbn; congruence).
    apply Hlast; cbn; try done.
    + apply lookup_delete_eq.
    + intros k' Hk'. by rewrite lookup_delete_ne.
    + by rewrite length_alter.
    + intros Hc j Hj. cbn in *. specialize (Hc j Hj). rewrite (routed_delete _ _ _ j Ea) in Hc.
      destruct (decide (i = j)) as [->|Hne].
      * rewrite list_lookup_alter_eq, Hc. cbn. f_equal. unfold saturating_sub_usize. lia.
      * rewrite list_lookup_alter_ne, Hc by done. f_equal. lia.
  - unfold ends at 1, pret. by apply Hlast.
Qed.

Lemma record_removed_all answered r : length r.(counts) = r.(handles) ->
  (forall k i, r.(assignments) !! k = Some i -> (i < r.(handles))%nat) ->
  ends (pfor record_removed (in_order answered)) r (fun _ r' =>
    steady r r' /\ r'.(fleet) = r.(fleet) /\ length r'.(counts) = r'.(handles) /\
    (forall k, r'.(assignments) !! k = unplaced r answered k) /\
    (forall k, r'.(demand) !! k = forgotten r answered k) /\ (counted r -> counted r')).
Proof.
  intros Hl Hi.
  set (I := fun (l : list (bytes * MarketOutcome)) (r' : Router F) =>
    (forall e, e ∈ l -> e ∈ in_order answered) /\ NoDup l.*1 /\
    steady r r' /\ r'.(fleet) = r.(fleet) /\ length r'.(counts) = r'.(handles) /\
    (forall k, k ∈ l.*1 -> r'.(assignments) !! k = r.(assignments) !! k /\ r'.(demand) !! k = r.(demand) !! k) /\
    (forall k, k ∉ l.*1 -> r'.(assignments) !! k = unplaced r answered k /\
                           r'.(demand) !! k = forgotten r answered k) /\ (counted r -> counted r')).
  eapply ends_mono; [apply (ends_for _ (in_order answered) r I)|].
  - unfold I. split_and!; try done; [apply in_order_NoDup|]. intros k Hk.
    assert (Hn : answered !! k = None).
    { destruct (answered !! k) as [o|] eqn:E; [|done]. apply in_order_elem in E.
      by apply (list_elem_of_fmap_2 fst) in E. }
    unfold unplaced, forgotten, gone. by rewrite Hn.
  - intros [k o] l r1 (Hsub & Hnd & Hs & Hf & Hc & Hin & Hout & Hcnt). cbn in Hnd. apply NoDup_cons in Hnd as [Hni Hnd].
    assert (Ho : answered !! k = Some o) by (apply in_order_elem, Hsub; left).
    destruct (Hin k) as [Hka Hkd]; [left|]. pose proof (proj1 Hs) as Eh.
    eapply ends_mono; [apply record_removed_spec; [done|]|].
    { intros i Hk. rewrite Eh. apply (Hi k). congruence. }
    intros _ r2 (Hs2 & Hf2 & Hc2 & Hoth & Ha2 & Hd2 & Hcnt2).
    unfold unplaced, forgotten, gone, wanted in Ha2, Hd2. rewrite lookup_singleton_eq in Ha2, Hd2.
    rewrite Hka in Ha2. rewrite Hkd in Hd2.
    unfold I. split_and!; [intros e He; apply Hsub; by right|done|by etrans|congruence|done| | |by auto].
    + intros k' Hk'. assert (Hne : k' <> k) by congruence. destruct (Hoth k' Hne) as [-> ->]. apply Hin. by right.
    + intros k' Hk'. destruct (decide (k' = k)) as [->|Hne].
      * unfold unplaced, forgotten, gone, wanted. by rewrite Ho.
      * destruct (Hoth k' Hne) as [-> ->]. apply Hout. intros [?|?]%elem_of_cons; done.
  - intros [] r' (_ & _ & Hs & Hf & Hc & _ & Hout & Hcnt). split_and!; [done..| | |done].
    + intros k. apply Hout, not_elem_of_nil.
    + intros k. apply Hout, not_elem_of_nil.
Qed.

Definition removed r (slugs : list bytes) r' (answer : result (gmap bytes MarketOutcome) ShardControlError) : Prop :=
  dispatched false (removal_targets r slugs) r.(handles) r.(fleet) r'.(fleet) answer /\
  match answer with
  | Err e => r' = r <| fleet := r'.(fleet) |>
  | Ok answered =>
      (forall k, r'.(assignments) !! k = unplaced r answered k) /\
      (forall k, r'.(demand) !! k = forgotten r answered k) /\ (counted r -> counted r')
  end.

Lemma dispatched_none n f : dispatched false ∅ n f f (Ok ∅).
Proof.
  split_and!; [done|intros i k; by apply same_moved|done|by intros|]. intros i k H. unfold asks in H. by rewrite lookup_empty in H.
Qed.

Lemma release_markets_spec slugs r : wf r ->
  ends (release_markets slugs) r (fun answer r' => removed r slugs r' answer /\ steady r r' /\ wf r').
Proof.
  intros Hr. unfold release_markets. destruct slugs as [|k0 slugs].
  { unfold ends, pret. split_and!; [|done..]. split; [apply dispatched_none|].
    unfold unplaced, forgotten, gone. split_and!; [intros k; by rewrite lookup_empty..|done]. }
  remember (k0 :: slugs) as l eqn:El. clear El. apply ends_bind. cbn. apply ends_bind.
  eapply ends_mono; [apply dispatch_spec; [apply Hr|]|].
  { intros k i. unfold asks. rewrite removal_targets_lookup. case_bool_decide; [|done]. intros [= <-].
    destruct (r.(assignments) !! k) as [j|] eqn:E; [by apply (wf_range r Hr k)|apply Hr]. }
  intros got r1 (g & -> & Hg & Hd). set (r1 := r <| fleet := g |>).
  assert (Hr1 : wf r1) by by apply wf_fleet_only.
  destruct got as [answered|e]; cbn.
  - apply ends_bind. eapply ends_mono; [apply (record_removed_all answered r1); apply Hr1|].
    intros [] r' (Hs & Hf & Hc & Ha & Hde & Hcnt). unfold ends, pret.
    split_and!; [|done|].
    + unfold removed. rewrite Hf. split; [done|]. split_and!; [exact Ha|exact Hde|exact Hcnt].
    + split; [by rewrite (proj1 Hs); apply Hr|rewrite Hf, (proj1 Hs); apply Hr1| |done].
      intros k i. rewrite Ha, (proj1 Hs). unfold unplaced. destruct (gone answered k); [done|]. by apply (wf_range r Hr).
  - unfold ends, pret. split_and!; [|done|done]. split; [exact Hd|done].
Qed.
End table.
