(* ===== verification/RouterProps.v ===== *)
(** * The router's table and the shards

    What the daemon holds is what is wanted of it: how every operation moves the demand
    ([demand_is_what_was_asked]), that none withdraws from a shard a market still wanted
    ([wanted_is_never_withdrawn]), and that with one shard, or shards that refuse no command,
    the table agrees with the shards after any run ([RouterExact.routing_table_exact]). Where
    a batch is taken by one shard and refused by a later one it does not, for good
    ([refused_batch_is_half_applied]). *)

From stdpp Require Import gmap sets relations.
From S2P Require Import Prelude OrdMap Identity Descriptor Continuity Pool Session Limitless Pacing Connection QueueAge Supervisor ShardMarket Shard ShardDemand Daemon Router RouterLaws RouterInv.

Section router.
Context {F : Type} `{FL : !Fleet F} {L : FleetLaws F}.
Variable pid : Z.
Implicit Types r : Router F.

(** ** Demand *)

Lemma unwanted_default d : demand_wanted d = false -> d = demand_default.
Proof.
  destruct d as [[] s]; unfold demand_wanted; simpl; [done|]. intros H.
  apply negb_false_iff, bool_decide_eq_true in H. by subst.
Qed.

(** The demand of every market, moved by [f]; what is still wanted stays with its shard. *)
Record moved r (f : bytes -> Demand -> Demand) r' : Prop := {
  mv_steady : steady r r';
  mv_wf : wf r';
  mv_demand : forall k, demand_of r' k = f k (demand_of r k);
  mv_kept : forall i k, holds r.(fleet) i k -> wanted r' k = true -> holds r'.(fleet) i k
}.

Definition unmoved : bytes -> Demand -> Demand := fun _ d => d.

(** First what withdraws nothing, then the rest. *)
Lemma moved_trans r r1 r2 f g h : moved r f r1 -> (forall i k, holds r.(fleet) i k -> holds r1.(fleet) i k) ->
  moved r1 g r2 -> (forall k, g k (f k (demand_of r k)) = h k (demand_of r k)) -> moved r h r2.
Proof.
  intros [Hs Hw Hd _] Hh [Hs' Hw' Hd' Hk'] E. split; [by etrans|done| |].
  - intros k. by rewrite Hd', Hd.
  - intros i k H. by apply Hk', Hh.
Qed.

(** The demand alone. *)
Lemma moved_demand r f r' : wf r -> steady r r' -> r'.(fleet) = r.(fleet) -> r'.(assignments) = r.(assignments) ->
  r'.(counts) = r.(counts) -> (forall k, demand_of r' k = f k (demand_of r k)) -> moved r f r'.
Proof.
  intros [] Hs Hf Ha Hc Hd. split; [done| |done|].
  - split; [by rewrite (proj1 Hs)|by rewrite Hf, (proj1 Hs)|by rewrite Ha, (proj1 Hs)|by rewrite Hc, (proj1 Hs)].
  - intros i k. by rewrite Hf.
Qed.

(** The shards alone, none of which changed what it wants. *)
Lemma moved_fleet r g : wf r -> fleet_ok r.(handles) g -> same_holds r.(fleet) g -> moved r unmoved (r <| fleet := g |>).
Proof. intros Hr Hg Hs. split; [done|by apply wf_fleet_only|done|]. intros i k H _. by apply Hs. Qed.

Lemma forgotten_demand r answered k : default demand_default (forgotten r answered k) = demand_of r k.
Proof.
  unfold forgotten. destruct (gone answered k); cbn [andb]; [|done].
  destruct (wanted r k) eqn:Hw; cbn [negb]; [done|]. rewrite wanted_demand in Hw.
  by rewrite (unwanted_default _ Hw).
Qed.

Lemma removed_moved r slugs r' answer : wf r -> wf r' -> steady r r' -> removed r slugs r' answer ->
  (forall k, k ∈ slugs -> wanted r k = false) -> moved r unmoved r'.
Proof.
  intros Hr Hr' Hs [(Ho & _ & _) Hx] Hu.
  assert (Hd : forall k, demand_of r' k = demand_of r k).
  { intros k. destruct answer as [answered|e].
    - destruct Hx as (_ & Hd & _). unfold demand_of at 1. rewrite Hd. apply forgotten_demand.
    - by rewrite Hx. }
  split; [done..|]. intros i k Hh Hw. apply Ho; [|done]. unfold asks. rewrite removal_targets_lookup.
  case_bool_decide as E; [|done]. rewrite wanted_demand, Hd, <- wanted_demand, (Hu k E) in Hw. done.
Qed.

Lemma undesired_elem r k : k ∈ undesired r <-> is_Some (r.(assignments) !! k) /\ wanted r k = false.
Proof.
  unfold undesired, sort_slugs. rewrite sort_by_perm, base.list_elem_of_In, List.filter_In, <- base.list_elem_of_In.
  rewrite list_elem_of_fmap, negb_true_iff. split.
  - intros [([k' i] & -> & Hin%elem_of_map_to_list) Hw]. simpl in *. eauto.
  - intros [[i Hi] Hw]. split; [|done]. exists (k, i). split; [done|]. by apply elem_of_map_to_list.
Qed.

Lemma reconcile_spec r : wf r ->
  ends reconcile r (fun _ r' => (exists answer, removed r (undesired r) r' answer) /\ moved r unmoved r').
Proof.
  intros Hr. unfold reconcile. apply ends_bind. cbn.
  assert (H : ends (release_markets (undesired r)) r (fun answer r' => removed r (undesired r) r' answer /\ moved r unmoved r')).
  { eapply ends_mono; [by apply release_markets_spec|]. intros answer r' (Hx & Hs & Hw). split; [done|].
    eapply removed_moved; try done. intros k Hk%undesired_elem. apply Hk. }
  destruct (undesired r) as [|k l].
  - unfold ends, release_markets, pret in H. unfold ends, pret. destruct H. split; [by eexists|done].
  - apply ends_bind. eapply ends_mono; [exact H|]. intros answer r' [Hx Hm]. unfold ends, pret. split; [by eexists|done].
Qed.

Lemma demand_of_filter r P `{!forall x, Decision (P x)} k :
  (forall d, r.(demand) !! k = Some d -> demand_wanted d = true -> P (k, d)) ->
  demand_of (r <| demand ::= filter P |>) k = demand_of r k.
Proof.
  intros HP. unfold demand_of. cbn. destruct (r.(demand) !! k) as [d|] eqn:E.
  - destruct (demand_wanted d) eqn:Hw.
    + rewrite (map_lookup_filter_Some_2 _ _ _ d); auto.
    + rewrite (unwanted_default d Hw). by destruct (filter P r.(demand) !! k) as [d'|] eqn:E';
        [apply map_lookup_filter_Some in E' as [E' _]; rewrite E' in E; injection E as ->; rewrite (unwanted_default d Hw)|].
  - rewrite map_lookup_filter_None_2; auto.
Qed.

(** Giving up leases, and the reconciliation of what that leaves. *)
Lemma give_up_spec r (f : bytes -> Demand -> Demand) (upd : gmap bytes Demand -> gmap bytes Demand) : wf r ->
  (forall k, default demand_default (upd r.(demand) !! k) = f k (demand_of r k)) ->
  ends (pbind (pupdate (fun self => self <| demand ::= upd |>)) (fun _ => pbind forget_unheld (fun _ => reconcile))) r
    (fun _ r' => moved r f r').
Proof.
  intros Hr Hu. apply ends_bind. cbn. apply ends_bind. cbn.
  match goal with |- ends reconcile ?x _ => set (r1 := x) end.
  assert (Hm : moved r f r1).
  { apply moved_demand; try done. intros k. subst r1. rewrite demand_of_filter; [|intros d _ Hw; by left].
    apply Hu. }
  eapply ends_mono; [apply reconcile_spec, Hm|]. intros _ r' [_ Hm'].
  by eapply moved_trans.
Qed.

Definition only (market : bytes) (f : Demand -> Demand) : bytes -> Demand -> Demand :=
  fun k d => if decide (k = market) then f d else d.

Lemma drop_default session : drop_lease session demand_default = demand_default.
Proof.
  assert (E : (∅ : gset Z) ∖ {[session]} = ∅) by set_solver.
  change ({| pinned := false; lessees := ∅ ∖ {[session]} |} = demand_default). by rewrite E.
Qed.

Lemma release_spec session market r : wf r ->
  ends (release session market) r (fun _ r' => moved r (only market (drop_lease session)) r').
Proof.
  intros Hr. apply give_up_spec; [done|]. intros k. unfold only, demand_of. destruct (decide (k = market)) as [->|Hne].
  - rewrite lookup_alter_eq. destruct (r.(demand) !! market); [done|]. cbn. by rewrite drop_default.
  - by rewrite lookup_alter_ne.
Qed.

Lemma release_session_spec session r : wf r ->
  ends (release_session session) r (fun _ r' => moved r (fun _ => drop_lease session) r').
Proof.
  intros Hr. apply give_up_spec; [done|]. intros k. unfold demand_of. rewrite lookup_fmap.
  destruct (r.(demand) !! k); [done|]. cbn. by rewrite drop_default.
Qed.

(** An add of its own, not an operator's. *)
Lemma added_moved r slugs r' answer : wf r' -> steady r r' -> added r slugs false r' answer -> moved r unmoved r'.
Proof.
  intros Hr' Hs Ha. split; [done..| |].
  - intros k. unfold demand_of. by destruct (added_demand _ _ _ _ _ Ha k) as [-> | (? & _)].
  - intros i k Hh _. by apply (added_holds _ _ _ _ _ Ha).
Qed.

Lemma lease_spec session market r : wf r ->
  ends (lease session market) r (fun answer r' =>
    moved r (only market (match answer with None => take_lease session | Some _ => drop_lease session end)) r').
Proof.
  intros Hr. unfold lease. apply ends_bind. cbn. apply ends_bind. cbn.
  set (r1 := r <| demand ::= demand_entry market (take_lease session) |>).
  assert (Hm : moved r (only market (take_lease session)) r1).
  { apply moved_demand; try done. intros k. subst r1. unfold demand_of, only, demand_entry. cbn.
    destruct (decide (k = market)) as [->|Hne]; [by rewrite lookup_insert_eq|by rewrite lookup_insert_ne]. }
  destruct (bool_decide _); [by unfold ends, pret|]. apply ends_bind.
  eapply ends_mono; [apply add_spec, Hm|]. intros answer r2 (Ha & Hs & Hw).
  assert (Hm2 : moved r (only market (take_lease session)) r2).
  { eapply moved_trans; [exact Hm|done|by eapply added_moved|done]. }
  assert (Hback : forall refusal : ControlResponse, ends (pbind (release session market) (fun _ => pret (Some refusal))) r2 (fun answer r' =>
    moved r (only market (match answer with None => take_lease session | Some _ => drop_lease session end)) r')).
  { intros refusal. apply ends_bind. eapply ends_mono; [by apply release_spec|]. intros [] r3 Hm3. unfold ends, pret.
    eapply moved_trans; [exact Hm2|intros i k; by apply (added_holds _ _ _ _ _ Ha)|exact Hm3|].
    intros k. unfold only. cbn. destruct (decide (k = market)); [|done].
    destruct (demand_of r k) as [p s].
    assert (E : ({[session]} ∪ s) ∖ {[session]} = s ∖ {[session]}) by set_solver.
    change ({| pinned := p; lessees := ({[session]} ∪ s) ∖ {[session]} |} = {| pinned := p; lessees := s ∖ {[session]} |}).
    by rewrite E. }
  destruct answer as [outs|e]; [|apply Hback].
  destruct (forallb _ outs); [by unfold ends, pret|apply Hback].
Qed.

(** ** Reports *)

(** The shards moved on; nothing else. *)
Definition quiet r r' : Prop :=
  r' = r <| fleet := r'.(fleet) |> /\ fleet_ok r.(handles) r'.(fleet) /\ same_holds r.(fleet) r'.(fleet).

Lemma quiet_refl r : wf r -> quiet r r.
Proof. intros Hr. split_and!; [by destruct r|apply Hr|done]. Qed.

Lemma quiet_trans r r1 r2 : quiet r r1 -> quiet r1 r2 -> quiet r r2.
Proof.
  intros (E & Hf & Hs) (E' & Hf' & Hs'). assert (Eh : r1.(handles) = r.(handles)) by by rewrite E.
  rewrite Eh in Hf'. split_and!; [by rewrite E', E|done|].
  intros i k. by rewrite (Hs' i k), (Hs i k).
Qed.

Lemma quiet_moved r r' : wf r -> quiet r r' -> moved r unmoved r'.
Proof. intros Hr (E & Hf & Hs). rewrite E. by apply moved_fleet. Qed.

Lemma quiet_wf r r' : wf r -> quiet r r' -> wf r'.
Proof. intros Hr H. apply (mv_wf _ _ _ (quiet_moved _ _ Hr H)). Qed.

Lemma quiet_fleet r g : fleet_ok r.(handles) g -> same_holds r.(fleet) g -> quiet r (r <| fleet := g |>).
Proof. done. Qed.

(** What a status says of the shard it came from. *)
Definition told (g : F) (i : nat) (status : ShardStatus) : Prop :=
  NoDup (mr_slug <$> status.(st_markets)) /\
  (forall slug, holds g i slug -> slug ∈ mr_slug <$> status.(st_markets)) /\
  forall row, row ∈ status.(st_markets) ->
    ~ is_rejected row.(mr_status) /\ row.(mr_status) <> Accepted /\
    (holds g i row.(mr_slug) <-> row.(mr_status) <> Removed).

(** Asking one shard for its status. *)
Lemma quiet_status {B} shard (k : ShardStatus -> prog (result B ShardControlError)) r (Q : B -> Router F -> Prop) :
  wf r -> (shard < r.(handles))%nat ->
  (forall status r', wf r' -> quiet r r' -> told r'.(fleet) shard status ->
     ends (k status) r' (fun answer r'' => quiet r' r'' /\
       match answer with Ok b => Q b r'' | Err _ => ~ responsive F end)) ->
  ends (pbind (command (fleet_status shard)) (fun got => match got with Ok status => k status | Err e => pret (Err e) end)) r
    (fun answer r' => quiet r r' /\ match answer with Ok b => Q b r' | Err _ => ~ responsive F end).
Proof.
  intros Hr Hi Hk. apply ends_command. pose proof (status_law r.(handles) r.(fleet) shard (wf_fleet r Hr)) as Hl.
  destruct (fleet_status shard r.(fleet)) as [[status|e] g] eqn:Eg; destruct Hl as (Hg & Hs & Ht).
  - assert (Hq : quiet r (r <| fleet := g |>)) by done.
    eapply ends_mono; [apply Hk; [by apply wf_fleet_only|done|exact Ht]|]. intros answer r' [Hq' Ha]. split; [by eapply quiet_trans|done].
  - unfold ends, pret. split; [done|]. intros Hresp. destruct (Hresp _ r.(fleet) shard [] (wf_fleet r Hr) Hi) as (_ & _ & E). by rewrite Eg in E.
Qed.

Lemma report_shards_spec slugs shards acc r : wf r -> Forall (fun i => (i < r.(handles))%nat) shards ->
  ends (report_shards slugs shards acc) r (fun answer r' => quiet r r' /\
    match answer with Ok _ => True | Err _ => ~ responsive F end).
Proof.
  intros Hr Hs. revert acc r Hr Hs. induction shards as [|i shards IH]; intros acc r Hr Hs; cbn [report_shards].
  - unfold ends, pret. split; [by apply quiet_refl|done].
  - apply Forall_cons_1 in Hs as [Hi Hs]. apply ends_get. cbn beta. apply Nat.ltb_lt in Hi as Hi'. rewrite Hi'.
    apply (quiet_status i _ r (fun _ _ => True)); [done..|]. intros status r1 Hr1 Hq _. apply IH; [done|].
    by rewrite (proj1 (mv_steady _ _ _ (quiet_moved _ _ Hr Hq))).
Qed.

Lemma report_spec slugs r : wf r -> ends (report slugs) r (fun answer r' => quiet r r' /\
  match answer with Ok _ => True | Err _ => ~ responsive F end).
Proof.
  intros Hr. unfold report. apply ends_bind. cbn. apply report_shards_spec; [done|].
  apply Forall_forall. intros i. unfold shards_of. rewrite dedup_elem, sort_by_perm, list_elem_of_omap.
  intros (k & _ & Hk). by apply (wf_range r Hr k).
Qed.

(** The rows of the shards asked: every market one of them wants has one. *)
Definition gathered r (n shard : nat) (rows : list MarketRow) : Prop :=
  (forall i slug, (shard <= i < shard + n)%nat -> holds r.(fleet) i slug -> slug ∈ row_slug <$> rows) /\
  (n = 0%nat -> rows = []) /\ (n = 1%nat -> NoDup (row_slug <$> rows)).

Lemma gather_status_spec n shard r : wf r -> (shard + n <= r.(handles))%nat ->
  ends (gather_status n shard) r (fun answer r' => quiet r r' /\
    match answer with Ok (_, rows) => gathered r n shard rows | Err _ => ~ responsive F end).
Proof.
  revert shard r. induction n as [|n IH]; intros shard r Hr Hi; cbn [gather_status].
  { unfold ends, pret. split; [by apply quiet_refl|]. split; [lia|done]. }
  eapply ends_mono; [apply (quiet_status shard _ r (fun x _ => gathered r (S n) shard x.2)); [done|lia|]|].
  2:{ by intros [[]|e] r'. }
  intros status r1 Hr1 Hq Ht.
  apply ends_bind. cbn. apply ends_bind. eapply ends_mono.
  { apply IH; [done|]. rewrite (proj1 (mv_steady _ _ _ (quiet_moved _ _ Hr Hq))). lia. }
  intros [[sums rows]|e] r2 [Hq2 Hx]; unfold ends, pret; (split; [done|]); [|exact Hx].
  destruct Ht as (Hn & Hall & _). destruct Hx as (Hx & H0 & _). cbn [snd].
  assert (Hrow : row_slug <$> (market_row r1 shard <$> status.(st_markets)) = mr_slug <$> status.(st_markets)).
  { by rewrite <- list_fmap_compose. }
  split_and!; [|lia|].
  - intros i slug Hi' Hh. apply Hq in Hh. rewrite fmap_app, Hrow. apply elem_of_app.
    destruct (decide (i = shard)) as [->|Hne]; [left; by apply Hall|right]. apply (Hx i); [lia|done].
  - intros E. rewrite (H0 ltac:(lia)), app_nil_r, Hrow. exact Hn.
Qed.

Lemma status_spec after r : wf r -> ends (status pid after) r (fun _ r' => quiet r r').
Proof.
  intros Hr. unfold status. apply ends_bind. cbn. apply ends_bind. eapply ends_mono; [apply gather_status_spec; [done|lia]|].
  intros [[summaries rows]|e] r' [Hq _]; [|by unfold ends, pret].
  destruct (page_of after rows). by unfold ends, pget.
Qed.

Lemma collect_spec n shard r : wf r -> ends (collect n shard) r (fun _ r' => quiet r r').
Proof.
  revert shard r. induction n as [|n IH]; intros shard r Hr; cbn [collect].
  { unfold ends, pret. by apply quiet_refl. }
  apply ends_command. pose proof (metrics_law r.(handles) r.(fleet) shard (wf_fleet r Hr)) as Hl.
  destruct (fleet_metrics shard r.(fleet)) as [got g]. destruct Hl as [Hg Hs].
  assert (Hq : quiet r (r <| fleet := g |>)) by done.
  destruct got as [[m|[]]|]; try by unfold ends, pret.
  apply ends_bind. cbn. apply ends_bind. eapply ends_mono; [apply IH; by apply wf_fleet_only|].
  intros [l|e] r' Hq'; unfold ends, pret; by eapply quiet_trans.
Qed.

Lemma metrics_spec r : wf r -> ends (metrics pid) r (fun _ r' => quiet r r').
Proof.
  intros Hr. unfold metrics. apply ends_bind. cbn. apply ends_bind. eapply ends_mono; [by apply collect_spec|].
  intros [l|e] r' Hq; by unfold ends, pret, pget.
Qed.

(** ** Clearing pins *)

Definition unpinned (slugs : list bytes) : bytes -> Demand -> Demand :=
  fun k d => if bool_decide (k ∈ slugs) then unpin_demand d else d.

Lemma unpin_twice d : unpin_demand (unpin_demand d) = unpin_demand d.
Proof. by destruct d. Qed.

Lemma unpin_all_spec slugs r : wf r ->
  ends (pfor (fun slug => pupdate (fun self => self <| demand ::= alter unpin_demand slug |>)) slugs) r (fun _ r' =>
    moved r (unpinned slugs) r' /\ r' = r <| demand := r'.(demand) |> /\
    forall k, is_Some (r'.(demand) !! k) -> is_Some (r.(demand) !! k)).
Proof.
  intros Hr. revert r Hr. induction slugs as [|k slugs IH]; intros r Hr; cbn [pfor].
  { unfold ends, pret. split; [apply moved_demand; try done; intros k; unfold unpinned; by rewrite bool_decide_eq_false_2 by apply not_elem_of_nil|by destruct r]. }
  apply ends_bind. cbn. set (r1 := r <| demand ::= alter unpin_demand k |>).
  assert (Hm : moved r (only k unpin_demand) r1).
  { apply moved_demand; try done. intros k'. unfold only, demand_of. subst r1. cbn. destruct (decide (k' = k)) as [->|Hne].
    - rewrite lookup_alter_eq. by destruct (r.(demand) !! k).
    - by rewrite lookup_alter_ne. }
  eapply ends_mono; [apply IH, Hm|]. intros [] r2 (Hm2 & E & Hdom). split_and!; [|by rewrite E|].
  2:{ intros k' Hk'%Hdom. revert Hk'. subst r1. cbn. destruct (decide (k' = k)) as [->|Hne].
      - rewrite lookup_alter_eq. by destruct (r.(demand) !! k).
      - by rewrite lookup_alter_ne. }
  eapply moved_trans; [exact Hm|done|exact Hm2|]. intros k'. unfold unpinned, only.
  destruct (decide (k' = k)) as [->|Hne].
  - rewrite (bool_decide_eq_true_2 (k ∈ k :: slugs)) by left. case_bool_decide; [apply unpin_twice|done].
  - erewrite (bool_decide_ext (k' ∈ slugs)); [done|]. rewrite elem_of_cons. naive_solver.
Qed.

Lemma partition_filter {A} (f : A -> bool) l : List.partition f l = (List.filter f l, List.filter (fun x => negb (f x)) l).
Proof. induction l as [|x l IH]; [done|]. cbn. rewrite IH. by destruct (f x). Qed.

Lemma unpin_spec slugs r : wf r ->
  ends (unpin slugs) r (fun answer r' => moved r (unpinned slugs) r' /\
    exists r1 r2 (got : result (gmap bytes MarketOutcome) ShardControlError), moved r (unpinned slugs) r1 /\ r1 = r <| demand := r1.(demand) |> /\
      (forall k, is_Some (r1.(demand) !! k) -> is_Some (r.(demand) !! k)) /\ quiet r1 r2 /\
      match got with
      | Ok _ => exists released, removed r2 (List.filter (fun slug => negb (wanted r1 slug)) slugs) r' released /\
          is_ok answer = is_ok released
      | Err _ => ~ responsive F /\ r' = r2 /\ is_ok answer = false
      end).
Proof.
  intros Hr. unfold unpin. apply ends_bind. eapply ends_mono; [by apply unpin_all_spec|].
  intros [] r1 (Hm & E1 & Hdom). pose proof (mv_wf _ _ _ Hm) as Hr1. apply ends_bind. cbn. rewrite partition_filter. cbn [fst snd].
  apply ends_bind. eapply ends_mono; [by apply report_spec|]. intros [got|e] r2 [Hq Hresp].
  2:{ unfold ends, pret. split; [|by exists r1, r2, (Err e)].
      eapply moved_trans; [exact Hm|by rewrite E1|by apply quiet_moved|done]. }
  pose proof (quiet_wf _ _ Hr1 Hq) as Hr2.
  assert (Hm2 : moved r (unpinned slugs) r2) by (eapply moved_trans; [exact Hm|by rewrite E1|by apply quiet_moved|done]).
  apply ends_bind. eapply ends_mono; [by apply release_markets_spec|]. intros released r3 (Hx & Hs & Hw).
  assert (Hm3 : moved r2 unmoved r3).
  { eapply removed_moved; try done. intros k Hk%base.list_elem_of_In%List.filter_In. destruct Hk as [_ Hk].
    apply negb_true_iff in Hk. rewrite wanted_demand in Hk |- *. by rewrite (mv_demand _ _ _ (quiet_moved _ _ Hr1 Hq)). }
  assert (Hm' : moved r (unpinned slugs) r3).
  { eapply moved_trans; [exact Hm2| |exact Hm3|done]. intros i k H. apply Hq. by rewrite E1. }
  destruct released as [rel|e]; unfold ends, pret; (split; [done|]).
  - exists r1, r2, (Ok got). split_and!; [done..|]. by exists (Ok rel).
  - exists r1, r2, (Ok got). split_and!; [done..|]. by exists (Err e).
Qed.

(** ** Every operation *)

(** Whether an add answered anything but a rejection of the market. *)
Definition took (outcomes : list MarketOutcome) (k : bytes) : bool :=
  existsb (fun o => bool_decide (o.(oc_slug) = k) && negb (is_rejected o.(oc_status))) outcomes.

Lemma took_reassemble r slugs answered g n k : dispatched true (plan_add r slugs) n r.(fleet) g (Ok answered) ->
  took (reassemble slugs answered) k = taken answered k.
Proof.
  intros (_ & _ & Hno & Hun & Has). apply eq_bool_prop_intro. unfold took, taken.
  assert (Hs : forall o, answered !! k = Some o -> o.(oc_slug) = k /\ k ∈ slugs).
  { intros o Ho. assert (Hk : is_Some (plan_add r slugs !! k)).
    { apply not_eq_None_Some. intros E. rewrite (Hno k E) in Ho. done. }
    split; [|by apply (plan_add_dom r slugs)]. destruct Hk as [[i|] E].
    - destruct (Has i k E) as (o' & E' & Es & _). congruence.
    - rewrite (Hun k E) in Ho. by injection Ho as <-. }
  rewrite !Is_true_true, existsb_exists. unfold reassemble. split.
  - intros (o & Hin & Ho). apply andb_true_iff in Ho as [Ek%bool_decide_eq_true Hr].
    apply base.list_elem_of_In, list_elem_of_fmap in Hin as (k' & -> & Hk').
    destruct (answered !! k') as [o|] eqn:Eo; cbn in *; [|done]. subst.
    destruct (decide (o.(oc_slug) = k')) as [->|Hne]; [by rewrite Eo|].
    exfalso. apply Hne. assert (Hk : is_Some (plan_add r slugs !! k')).
    { apply not_eq_None_Some. intros E. by rewrite (Hno k' E) in Eo. }
    destruct Hk as [[i|] E].
    + destruct (Has i k' E) as (o' & E' & Es & _). congruence.
    + rewrite (Hun k' E) in Eo. by injection Eo as <-.
  - destruct (answered !! k) as [o|] eqn:Eo; [|done]. intros Hr. destruct (Hs o eq_refl) as [Es Hin].
    exists o. split; [|by rewrite Hr, andb_true_r; apply bool_decide_eq_true].
    apply base.list_elem_of_In, list_elem_of_fmap. exists k. by rewrite Eo.
Qed.

(** Pins for what an operator's add took. *)
Definition pinned_by (answer : result (list MarketOutcome) ShardControlError) : bytes -> Demand -> Demand :=
  fun k d => match answer with
             | Ok outcomes => if took outcomes k then pin d else d
             | Err _ => d
             end.

Lemma operator_added_moved r slugs r' answer : wf r' -> steady r r' -> added r slugs true r' answer ->
  moved r (pinned_by answer) r'.
Proof.
  intros Hr' Hs Ha. split; [done..| |].
  - intros k. destruct Ha as (got & Hd & Hx). destruct got as [answered|e].
    + destruct Hx as (-> & _ & Hde & _). unfold pinned_by. rewrite (took_reassemble r slugs answered _ _ k Hd).
      unfold demand_of at 1. rewrite Hde. unfold pinned_after. simpl. by destruct (taken answered k).
    + destruct Hx as [-> E]. by rewrite E.
  - intros i k Hh _. by apply (added_holds _ _ _ _ _ Ha).
Qed.

Inductive operation : Set :=
| OnRequest (request : ControlRequest)
| OnLease (session : Z) (market : bytes)
| OnRelease (session : Z) (market : bytes)
| OnReleaseSession (session : Z)
| OnReconcile
| OnScrape
| OnRefuseAttachment
| OnAbandonAnswer
| OnRecordAttachment (shard : nat).

Inductive operation_answer : Type :=
| Answered (response : ControlResponse)
| Leased (refusal : option ControlResponse)
| Scraped (snapshot : result MetricsSnapshot bytes)
| Silent.

Definition perform (op : operation) : prog operation_answer :=
  match op with
  | OnRequest request => pbind (apply pid request) (fun a => pret (Answered a))
  | OnLease session market => pbind (lease session market) (fun a => pret (Leased a))
  | OnRelease session market => pbind (release session market) (fun _ => pret Silent)
  | OnReleaseSession session => pbind (release_session session) (fun _ => pret Silent)
  | OnReconcile => pbind reconcile (fun _ => pret Silent)
  | OnScrape => pbind (metrics pid) (fun a => pret (Scraped a))
  | OnRefuseAttachment => pbind refuse_attachment (fun _ => pret Silent)
  | OnAbandonAnswer => pbind abandon_answer (fun _ => pret Silent)
  | OnRecordAttachment shard => pbind (record_attachment shard) (fun _ => pret Silent)
  end.

(** The demand an operation and its answer call for. *)
Definition asked (op : operation) (answer : operation_answer) : bytes -> Demand -> Demand :=
  match op, answer with
  | OnRequest (RequestAdd _), Answered (ResponseMarkets outcomes) => pinned_by (Ok outcomes)
  | OnRequest (RequestRemove slugs), _ => unpinned slugs
  | OnLease session market, Leased None => only market (take_lease session)
  | OnLease session market, Leased (Some _) => only market (drop_lease session)
  | OnRelease session market, _ => only market (drop_lease session)
  | OnReleaseSession session, _ => fun _ => drop_lease session
  | _, _ => unmoved
  end.

(** [moved], without what an attachment's recording changes. *)
Record stepped r (f : bytes -> Demand -> Demand) r' : Prop := {
  sp_handles : r'.(handles) = r.(handles);
  sp_capacity : r'.(capacity) = r.(capacity);
  sp_wf : wf r';
  sp_demand : forall k, demand_of r' k = f k (demand_of r k);
  sp_kept : forall i k, holds r.(fleet) i k -> wanted r' k = true -> holds r'.(fleet) i k
}.

Lemma moved_stepped r f r' : moved r f r' -> stepped r f r'.
Proof. intros [Hs Hw Hd Hk]. split; [apply Hs|apply Hs|done..]. Qed.

Lemma ends_stepped {A} (m : prog A) (h : A -> operation_answer) r (f : operation_answer -> bytes -> Demand -> Demand) :
  ends m r (fun a r' => moved r (f (h a)) r') ->
  ends (pbind m (fun a => pret (h a))) r (fun a r' => stepped r (f a) r').
Proof.
  intros H. apply ends_bind. eapply ends_mono; [exact H|]. intros a r' Hm. unfold ends, pret. by apply moved_stepped.
Qed.

Lemma perform_spec op r : wf r -> ends (perform op) r (fun a r' => stepped r (asked op a) r').
Proof.
  intros Hr. destruct op as [request|session market|session market|session| | | | |shard]; cbn [perform].
  - destruct request as [slugs|slugs|after|market|market|]; cbn [apply].
    + apply (ends_stepped _ Answered _ (asked (OnRequest (RequestAdd slugs)))). apply ends_bind. eapply ends_mono; [by apply add_spec|].
      intros [outs|[]] r' (Ha & Hs & Hw); unfold ends, pret; cbn [asked control_failure];
        apply (operator_added_moved _ _ _ _ Hw Hs Ha).
    + apply (ends_stepped _ Answered _ (asked (OnRequest (RequestRemove slugs)))). apply ends_bind. eapply ends_mono; [by apply unpin_spec|].
      intros answer r' [Hm _]. unfold ends, pret. exact Hm.
    + apply (ends_stepped _ Answered _ (asked (OnRequest (RequestStatus after)))). eapply ends_mono; [by apply status_spec|].
      intros a r' Hq. by apply quiet_moved.
    + unfold ends, pbind, pret. cbn. apply moved_stepped, quiet_moved; [done|by apply quiet_refl].
    + unfold ends, pbind, pret. cbn. apply moved_stepped, quiet_moved; [done|by apply quiet_refl].
    + unfold ends, pbind, pret. cbn. apply moved_stepped, quiet_moved; [done|by apply quiet_refl].
  - apply (ends_stepped _ Leased _ (asked (OnLease session market))). eapply ends_mono; [by apply lease_spec|].
    intros [refusal|] r' Hm; exact Hm.
  - apply (ends_stepped _ (fun _ => Silent) _ (asked (OnRelease session market))). by apply release_spec.
  - apply (ends_stepped _ (fun _ => Silent) _ (asked (OnReleaseSession session))). by apply release_session_spec.
  - apply (ends_stepped _ (fun _ => Silent) _ (asked OnReconcile)). eapply ends_mono; [by apply reconcile_spec|].
    intros [] r' [_ Hm]. exact Hm.
  - apply (ends_stepped _ Scraped _ (asked OnScrape)). eapply ends_mono; [by apply metrics_spec|].
    intros a r' Hq. by apply quiet_moved.
  - unfold ends, pbind, pret. cbn. destruct Hr. by split.
  - unfold ends, pbind, pret. cbn. destruct Hr. by split.
  - unfold ends, pbind, pret. cbn. destruct Hr. by split.
Qed.

(** C19: Demand is what was asked for. From any well-formed table, whatever the shards answer,
    every operation of the router ends without a panic, and moves the demand for every market
    exactly as its request and its answer say: an operator's add pins what it did not reject,
    a remove clears the pins of the markets it names (also when it fails), a lease that is not
    refused is its session's on that market alone and a refused one is none, a release or a
    closed session gives up that session's leases and no other's, and nothing else moves it. *)
Theorem demand_is_what_was_asked op r : wf r ->
  exists answer r', perform op r = Some (answer, r') /\ wf r' /\
    forall market, demand_of r' market = asked op answer market (demand_of r market).
Proof. intros Hr. destruct (ends_run _ _ _ (perform_spec op r Hr)) as (a & r' & E & []). eauto. Qed.

(** C20: What is wanted is never withdrawn. Over any number of shards and whatever they refuse,
    no operation withdraws from a shard a market that an operator's pin or a session's lease
    still wants once it is done. *)
Theorem wanted_is_never_withdrawn op r answer r' : wf r -> perform op r = Some (answer, r') ->
  forall i market, holds r.(fleet) i market -> wanted r' market = true -> holds r'.(fleet) i market.
Proof. intros Hr E. apply (sp_kept _ _ _ (ends_of _ _ _ _ _ E (perform_spec op r Hr))). Qed.

(** ** A batch that one shard takes and a later one refuses *)

Lemma plan_add_same r r' slugs : r'.(assignments) = r.(assignments) -> r'.(counts) = r.(counts) ->
  r'.(capacity) = r.(capacity) -> plan_add r' slugs = plan_add r slugs.
Proof.
  intros Ea Ec Ep. unfold plan_add. rewrite Ec. f_equal.
  generalize (r.(counts), (∅ : gmap bytes (option nat))).
  induction slugs as [|k slugs IH]; intros plan; [done|]. cbn [fold_left].
  assert (E : plan_market r' plan k = plan_market r plan k) by (unfold plan_market; by rewrite Ea, Ep).
  by rewrite E.
Qed.

(** Answers that accept nothing leave the table as it was. *)
Lemma record_none_accepted T p l r : Forall (fun e => e.2.(oc_status) <> Accepted) l ->
  ends (pfor (record_added T p) l) r (fun _ r' => r'.(assignments) = r.(assignments) /\
    r'.(counts) = r.(counts) /\ r'.(capacity) = r.(capacity) /\ r'.(fleet) = r.(fleet)).
Proof.
  intros Hl. set (I := fun (l : list (bytes * MarketOutcome)) (r' : Router F) =>
    Forall (fun e => e.2.(oc_status) <> Accepted) l /\ r'.(assignments) = r.(assignments) /\
    r'.(counts) = r.(counts) /\ r'.(capacity) = r.(capacity) /\ r'.(fleet) = r.(fleet)).
  eapply ends_mono; [apply (ends_for _ l r I)|]; [done| |by intros a r' [_ ?]].
  intros [k o] l' r1 [[Ho Hl']%Forall_cons H]. unfold record_added. cbn in Ho.
  destruct (is_rejected o.(oc_status)); [done|]. rewrite bool_decide_eq_false_2 by done.
  destruct p; (split; [exact Hl'|exact H]).
Qed.

(** A market that shard [i] wants, that the table does not know, and that an add of it alone
    would send to shard [i] again. *)
Record stranded (i : nat) (slug : bytes) r : Prop := {
  sd_wf : wf r;
  sd_held : holds r.(fleet) i slug;
  sd_unknown : r.(assignments) !! slug = None;
  sd_sent : asks (plan_add r [slug]) i slug
}.

Lemma stranded_fleet i slug r g : stranded i slug r -> fleet_ok r.(handles) g -> holds g i slug ->
  stranded i slug (r <| fleet := g |>).
Proof. intros [Hw Hh Hu Hs] Hg Hg'. by split; [apply wf_fleet_only|..]. Qed.

Lemma stranded_attach i slug r : stranded i slug r -> attach_plan r slug = Err Removed.
Proof.
  intros [Hw Hh Hu _]. unfold attach_plan.
  rewrite (holds_slug r.(handles) r.(fleet) i slug (wf_fleet r Hw) Hh). cbn [negb]. by rewrite Hu.
Qed.

(** What the shard that has it answers. *)
Lemma held_answered f g i k status : answered_as true f g i k status -> holds f i k ->
  status <> Accepted /\ is_rejected status = false.
Proof. cbn. unfold add_answered. destruct status; tauto || done. Qed.

Lemma dispatched_alone r slug i answered g : dispatched true (plan_add r [slug]) r.(handles) r.(fleet) g (Ok answered) ->
  asks (plan_add r [slug]) i slug -> holds r.(fleet) i slug ->
  Forall (fun e => e.2.(oc_status) <> Accepted) (in_order answered) /\
  exists status, reassemble [slug] answered = [{| oc_slug := slug; oc_status := status |}] /\
    status <> Accepted /\ is_rejected status = false /\ taken answered slug = true.
Proof.
  intros (_ & _ & Hnone & _ & Hask) Hs Hh. destruct (Hask i slug Hs) as (o & Ho & Eo & Hans).
  destruct (held_answered _ _ _ _ _ Hans Hh) as [Hna Hnr]. split.
  - apply Forall_forall. intros [k o'] Hin%in_order_elem. cbn.
    assert (Hk : k ∈ [slug]).
    { apply (plan_add_dom r [slug] k), not_eq_None_Some. intros HT. by rewrite (Hnone k HT) in Hin. }
    apply list_elem_of_singleton in Hk as ->. congruence.
  - exists o.(oc_status). split_and!; [|done..|].
    + unfold reassemble. cbn. rewrite Ho. cbn. by destruct o; simplify_eq/=.
    + unfold taken. by rewrite Ho, Hnr.
Qed.

(** Adding it again leaves it where it is. *)
Lemma stranded_unmoved i slug r : stranded i slug r ->
  ends (add [slug] true) r (fun _ r' => r'.(assignments) = r.(assignments) /\
    r'.(counts) = r.(counts) /\ r'.(capacity) = r.(capacity)).
Proof.
  intros [Hr Hh Hu Hs]. unfold add. apply ends_bind. cbn. apply ends_bind.
  eapply ends_mono; [apply dispatch_spec; [apply Hr|intros k j; by apply plan_range]|].
  intros got r1 (g & -> & Hg & Hd). destruct got as [answered|e]; cbn; [|done].
  destruct (dispatched_alone r slug i answered g Hd Hs Hh) as [Hall _].
  apply ends_bind. eapply ends_mono; [by apply (record_none_accepted _ _ _ (r <| fleet := g |>))|].
  intros [] r2 (Ea & Ec & Ep & _). by split_and!.
Qed.

Lemma stranded_add i slug r : stranded i slug r -> ends (add [slug] true) r (fun answer r' =>
  stranded i slug r' /\ match answer with
  | Ok outcomes => exists status, outcomes = [{| oc_slug := slug; oc_status := status |}] /\
      status <> Accepted /\ is_rejected status = false /\ wanted r' slug = true
  | Err _ => True
  end).
Proof.
  intros Hst. pose proof Hst as [Hr Hh Hu Hs].
  destruct (ends_run _ _ _ (add_spec [slug] true r Hr)) as (answer & r' & E & Hadd & _ & Hr').
  pose proof (ends_of _ _ _ _ _ E (stranded_unmoved i slug r Hst)) as (Ea & Ec & Ep).
  unfold ends. rewrite E. split.
  - split; [done|by apply (added_holds _ _ _ _ _ Hadd)|by rewrite Ea|]. by rewrite (plan_add_same r r').
  - destruct Hadd as (got & Hd & Hx). destruct got as [answered|e]; [|by destruct Hx as [-> _]].
    destruct Hx as (-> & _ & Hde & _).
    destruct (dispatched_alone r slug i answered _ Hd Hs Hh) as (_ & status & El & Hna & Hnr & Ht).
    exists status. split_and!; [done..|]. rewrite wanted_demand. unfold demand_of. rewrite Hde.
    unfold pinned_after. rewrite Ht. done.
Qed.

(** Asked for again, looked at, or the shards moving on in between. *)
Inductive asked_again (slug : bytes) : Router F -> Router F -> Prop :=
| again_added answer r r' : perform (OnRequest (RequestAdd [slug])) r = Some (answer, r') ->
    asked_again slug r r'
| again_looked after answer r r' : perform (OnRequest (RequestStatus after)) r = Some (answer, r') ->
    asked_again slug r r'
| again_moved r g : fleet_moves r.(fleet) g -> asked_again slug r (r <| fleet := g |>).

Lemma stranded_again i slug r r' : stranded i slug r -> asked_again slug r r' -> stranded i slug r'.
Proof.
  intros Hst H. inversion H as [answer ? ? E|after answer ? ? E|? g Hm]; subst.
  - apply (ends_of _ _ _ _ (fun _ r' => stranded i slug r') E). cbn [perform apply].
    apply ends_bind, ends_bind. eapply ends_mono; [by apply stranded_add|]. intros a r1 [? _]. exact H0.
  - pose proof (status_spec after r (sd_wf _ _ _ Hst)) as Hq.
    apply (ends_of _ _ _ _ (fun _ r' => stranded i slug r') E). cbn [perform apply].
    apply ends_bind. eapply ends_mono; [exact Hq|]. intros a r1 (E1 & Hf & Hsame). unfold ends, pret.
    rewrite E1. apply stranded_fleet; [done..|]. apply Hsame, Hst.
  - destruct (moves_law _ _ _ (wf_fleet r (sd_wf _ _ _ Hst)) Hm) as [Hg Hsame].
    apply stranded_fleet; [done..|]. apply Hsame, Hst.
Qed.

Lemma stranded_asked i slug r r' : stranded i slug r -> rtc (asked_again slug) r r' -> stranded i slug r'.
Proof. intros Hst H. induction H as [|r r1 r2 H _ IH]; [done|]. apply IH. by eapply stranded_again. Qed.

(** C39: A batch answered as not applied can have been applied in part, for good. When an add
    is answered as refused, by whatever shards from whatever table, the table is as it was;
    but every shard before the one that refused has answered, and taken or rejected, what was
    sent to it, and only it and the later ones are unchanged. A market so taken by a shard,
    that the table does not know and that an add of it alone would send to that shard, is
    stranded: however often it is asked for, while the shards move on and operators look at
    their status, the shard wants it, the table does not know it, an attach to it is told that
    the daemon does not hold it, and each further add is refused, or pins it and is answered
    with a status that is neither a rejection nor the acceptance that would enter it in the
    table. *)
Theorem refused_batch_is_half_applied r r' slugs e : wf r ->
  perform (OnRequest (RequestAdd slugs)) r = Some (Answered (control_failure e), r') ->
  r' = r <| fleet := r'.(fleet) |> /\
  (exists refusing, (refusing < r.(handles))%nat /\
    (forall i k, (i < refusing)%nat -> asks (plan_add r slugs) i k ->
       exists status, add_answered (holds r.(fleet) i k) (holds r'.(fleet) i k) status) /\
    forall i k, (refusing <= i)%nat -> holds r'.(fleet) i k <-> holds r.(fleet) i k) /\
  forall i slug, holds r'.(fleet) i slug -> r.(assignments) !! slug = None ->
    asks (plan_add r [slug]) i slug ->
    forall r'', rtc (asked_again slug) r' r'' ->
      holds r''.(fleet) i slug /\ r''.(assignments) !! slug = None /\ attach_plan r'' slug = Err Removed /\
      exists answer next, perform (OnRequest (RequestAdd [slug])) r'' = Some (answer, next) /\
        ((exists e', answer = Answered (control_failure e')) \/
         exists status, answer = Answered (ResponseMarkets [{| oc_slug := slug; oc_status := status |}]) /\
           status <> Accepted /\ is_rejected status = false /\ wanted next slug = true).
Proof.
  intros Hr E. destruct (ends_run _ _ _ (add_spec slugs true r Hr)) as (answer & r1 & Ea & Hadd & _ & Hr1).
  cbn [perform apply] in E. unfold pbind in E. rewrite Ea in E.
  assert (r1 = r' /\ exists e', answer = Err e') as [-> [e' ->]].
  { destruct answer as [outs|e']; injection E as E <-; [by destruct e|by eauto]. }
  clear E. destruct Hadd as (got & (_ & _ & Hgot) & Hx). destruct got as [answered|e'']; [by destruct Hx|].
  destruct Hx as [_ Er]. destruct Hgot as (_ & refusing & Hlt & Hbefore & Hafter).
  split_and!; [exact Er|by exists refusing|].
  intros i slug Hh Hu Hs r'' Hrun.
  assert (Hst : stranded i slug r').
  { split; [done|done|by rewrite Er|]. by rewrite (plan_add_same r r') by by rewrite Er. }
  apply (stranded_asked i slug r' r'' Hst) in Hrun. clear Hst. pose proof Hrun as [_ Hh' Hu' _].
  split_and!; [done|done|by eapply stranded_attach|].
  destruct (ends_run _ _ _ (stranded_add i slug r'' Hrun)) as (answer & next & En & _ & Ha).
  cbn [perform apply]. unfold pbind. rewrite En. eexists _, next. split; [reflexivity|].
  destruct answer as [outs|e1]; [right|left; by eexists].
  destruct Ha as (status & -> & ? & ? & ?). by exists status.
Qed.
End router.
