(* ===== verification/RouterExact.v ===== *)
(** * The table agrees with the shards

    [agreed] is the invariant of the runs of a router with one shard, or whose shards refuse
    no command: which shard wants which market is exactly what the table says, the counts are
    those of the table and within the shards' capacity, and what has a record of demand is
    held. [routing_table_exact] has it of every state of a run. *)

From stdpp Require Import gmap sets relations.
From S2P Require Import Prelude OrdMap Identity Descriptor Continuity Pool Session Limitless Pacing Connection QueueAge Supervisor ShardMarket Shard ShardDemand Daemon Router RouterLaws RouterInv RouterProps.

Section exact.
Context {F : Type} `{FL : !Fleet F} {L : FleetLaws F}.
Variable pid : Z.
Implicit Types r : Router F.

(** The shards want what the table says, and its counts are right. *)
Record exact r : Prop := {
  ex_holds : forall i k, holds r.(fleet) i k <-> r.(assignments) !! k = Some i;
  ex_counted : counted r;
  ex_capacity : forall i n, r.(counts) !! i = Some n -> n <= r.(capacity);
  ex_bound : r.(capacity) <= USIZE_MAX
}.

(** No batch can be taken by one shard and refused by another. *)
Definition united r : Prop := r.(handles) = 1%nat \/ responsive F.

Definition backed r : Prop := forall k, is_Some (r.(demand) !! k) -> is_Some (r.(assignments) !! k).
Definition tidy r : Prop := forall k, is_Some (r.(assignments) !! k) -> wanted r k = true.

Lemma routed_none (m : gmap bytes nat) i : (forall k, m !! k <> Some i) -> routed m i = 0%nat.
Proof.
  intros H. unfold routed. apply map_size_empty_iff, map_eq. intros k. rewrite lookup_empty.
  apply map_lookup_filter_None. right. intros x Hx E. simpl in E. subst. by destruct (H k).
Qed.

Lemma dispatched_err r adding T n g e : n = r.(handles) -> united r ->
  dispatched adding T n r.(fleet) g (Err e) -> same_holds r.(fleet) g.
Proof.
  intros -> Hu (_ & _ & Hresp & i & Hi & _ & Hs). destruct Hu as [Hn|Hr]; [|done].
  intros j k. apply Hs. lia.
Qed.

Lemma exact_same r g : exact r -> same_holds r.(fleet) g -> exact (r <| fleet := g |>).
Proof. intros [Hh Hc Hk Hb] Hs. split; [|done..]. intros i k. cbn. rewrite (Hs i k). apply Hh. Qed.

Lemma exact_demand r m : exact r -> exact (r <| demand := m |>).
Proof. by intros []. Qed.

(** *** Adding *)

Section adding.
Variables (r r' : Router F) (slugs : list bytes) (answered : gmap bytes MarketOutcome).
Hypothesis Hr : wf r.
Hypothesis Hx : exact r.
Abbreviation T := (plan_add r slugs).
Hypothesis Hd : dispatched true T r.(handles) r.(fleet) r'.(fleet) (Ok answered).

(** What was answered of a market, and who was asked. *)
Lemma answered_cases k o : answered !! k = Some o ->
  (exists i, asks T i k /\ add_answered (holds r.(fleet) i k) (holds r'.(fleet) i k) o.(oc_status)) \/
  is_rejected o.(oc_status) = true.
Proof.
  intros Ho. destruct Hd as (_ & _ & Hno & Hun & Has).
  destruct (plan_add r slugs !! k) as [[i|]|] eqn:E.
  - left. destruct (Has i k E) as (o' & E' & _ & Ha). exists i. split; [done|]. by replace o with o' by congruence.
  - right. rewrite (Hun k E) in Ho. injection Ho as <-. done.
  - by rewrite (Hno k E) in Ho.
Qed.

Lemma accepted_asked k : accepted answered k = true ->
  r.(assignments) !! k = None /\ exists i, asks T i k /\ ~ holds r.(fleet) i k /\ holds r'.(fleet) i k.
Proof.
  unfold accepted. destruct (answered !! k) as [o|] eqn:E; [|done]. intros Ea%bool_decide_eq_true.
  destruct (answered_cases k o E) as [(i & Hi & Ha)|Hrej]; [|by rewrite Ea in Hrej].
  rewrite Ea in Ha. destruct Ha as [Hn Hy]. split; [|by exists i].
  destruct (pw_known r _ (plan_add_well r slugs Hr) k i Hi) as [Hk|Hk]; [|done].
  by apply (ex_holds r Hx) in Hk.
Qed.

(** What an add did not reject is held afterwards. *)
Lemma taken_held k : taken answered k = true -> exists i, asks T i k /\ holds r'.(fleet) i k /\
  (accepted answered k = true \/ holds r.(fleet) i k).
Proof.
  unfold taken, accepted. destruct (answered !! k) as [o|] eqn:E; [|done]. intros Ht%negb_true_iff.
  destruct (answered_cases k o E) as [(i & Hi & Ha)|Hrej]; [|congruence]. exists i.
  unfold add_answered in Ha. destruct o.(oc_status); try done; destruct Ha; split_and!; auto.
Qed.

Lemma placed_planned k i : placed r T answered k = Some i -> planned_table r T !! k = Some i.
Proof.
  unfold placed, planned_table. rewrite lookup_union, lookup_omap. destruct (accepted answered k) eqn:E.
  - destruct (accepted_asked k E) as (-> & j & Hj & _). rewrite Hj. simpl. by intros [= ->].
  - intros ->. by destruct (plan_add r slugs !! k ≫= id).
Qed.

Lemma placed_holds i k : holds r'.(fleet) i k <-> placed r T answered k = Some i.
Proof.
  unfold placed. destruct (accepted answered k) eqn:E.
  - destruct (accepted_asked k E) as (Hn & j & Hj & Hnh & Hh). rewrite Hj. split.
    + intros Hi. destruct (decide (i = j)) as [->|Hne]; [done|]. exfalso. destruct Hd as (Ho & _).
      rewrite Ho in Hi by (intros H; apply Hne; by eapply asks_one). apply (ex_holds r Hx) in Hi. congruence.
    + by intros [= ->].
  - rewrite <- (ex_holds r Hx). destruct (decide (asks T i k)) as [Ha|Ha]; [|by apply Hd].
    destruct Hd as (_ & _ & _ & _ & Has). destruct (Has i k Ha) as (o & Eo & _ & Hans).
    unfold accepted in E. rewrite Eo in E. apply bool_decide_eq_false in E.
    unfold answered_as, add_answered in Hans. destruct o.(oc_status); tauto.
Qed.
End adding.

Lemma exact_added r slugs p r' answer : wf r -> united r -> exact r ->
  added r slugs p r' answer -> steady r r' -> wf r' -> exact r'.
Proof.
  intros Hr Hu Hx (got & Hd & Ha) Hs Hr'. destruct got as [answered|e].
  2:{ destruct Ha as [_ E]. rewrite E. apply exact_same; [done|]. by eapply dispatched_err. }
  destruct Ha as (_ & Ha & _ & Hc). destruct Hs as (Eh & Ec & _ & _).
  pose proof (plan_add_well r slugs Hr) as [_ _ _ _ Hro Hroom].
  assert (Hle : forall i, Z.of_nat (routed r'.(assignments) i) <= Z.max 0 r.(capacity)).
  { intros i. destruct (decide (i < r.(handles))%nat) as [Hi|Hi].
    - specialize (Hro (ex_counted r Hx) i Hi). specialize (Hroom (ex_capacity r Hx) i _ Hro).
      assert (Hm : (routed r'.(assignments) i <= routed (planned_table r (plan_add r slugs)) i)%nat).
      { apply routed_mono, map_subseteq_spec. intros k j. rewrite Ha. by apply (placed_planned r r'). }
      unfold plan_add in Hm. lia.
    - rewrite routed_none; [lia|]. intros k Hk. apply (wf_range r' Hr') in Hk. lia. }
  assert (Hcnt : counted r').
  { apply Hc; [apply Hx| |].
    - intros k E. by apply (accepted_asked r r' slugs answered Hr Hx Hd k E).
    - intros i. pose proof (Hle i). pose proof (ex_bound r Hx). unfold USIZE_MAX, U64_MAX in *. lia. }
  split.
  - intros i k. rewrite Ha. by apply placed_holds.
  - done.
  - intros i n Hi. assert (Hlt : (i < r'.(handles))%nat) by (rewrite <- (wf_counts r' Hr'); by eapply lookup_lt_Some).
    rewrite (Hcnt i Hlt) in Hi. injection Hi as <-. rewrite Ec.
    assert (Hlt' : (i < r.(handles))%nat) by lia.
    specialize (Hro (ex_counted r Hx) i Hlt'). specialize (Hroom (ex_capacity r Hx) i _ Hro).
    specialize (Hle i). lia.
  - rewrite Ec. apply Hx.
Qed.

(** *** Removing *)

Section removing.
Variables (r r' : Router F) (slugs : list bytes) (answered : gmap bytes MarketOutcome).
Hypothesis Hr : wf r.
Hypothesis Hx : exact r.
Hypothesis Hd : dispatched false (removal_targets r slugs) r.(handles) r.(fleet) r'.(fleet) (Ok answered).

Lemma gone_iff k : gone answered k = bool_decide (k ∈ slugs) && is_market_slug k.
Proof.
  destruct Hd as (_ & _ & Hno & _ & Has). unfold gone. destruct (decide (k ∈ slugs)) as [Hin|Hin].
  - rewrite bool_decide_eq_true_2 by done. cbn.
    destruct (Has (default 0%nat (r.(assignments) !! k)) k) as (o & -> & _ & -> & _).
    { unfold asks. by rewrite removal_targets_lookup, bool_decide_eq_true_2. }
    unfold removal_answer. by destruct (is_market_slug k).
  - rewrite bool_decide_eq_false_2 by done. cbn. rewrite Hno; [done|].
    by rewrite removal_targets_lookup, bool_decide_eq_false_2.
Qed.

Lemma unplaced_holds i k : holds r'.(fleet) i k <-> unplaced r answered k = Some i.
Proof.
  unfold unplaced. rewrite gone_iff. destruct Hd as (Ho & _ & _ & _ & Has).
  destruct (decide (k ∈ slugs)) as [Hin|Hin].
  - rewrite bool_decide_eq_true_2 by done. cbn.
    set (j := default 0%nat (r.(assignments) !! k)).
    assert (Hj : asks (removal_targets r slugs) j k).
    { unfold asks. by rewrite removal_targets_lookup, bool_decide_eq_true_2. }
    destruct (Has j k Hj) as (_ & _ & _ & _ & Hn).
    assert (Hnone : forall i, ~ holds r'.(fleet) i k).
    { intros i'. destruct (decide (i' = j)) as [->|Hne]; [done|].
      rewrite Ho by (intros H; apply Hne; by eapply asks_one). rewrite (ex_holds r Hx). intros E.
      apply Hne. subst j. by rewrite E. }
    destruct (is_market_slug k) eqn:Es; [split; [by intros ?%Hnone|done]|].
    split; [by intros ?%Hnone|]. intros E%(ex_holds r Hx). apply (holds_slug r.(handles)) in E; [congruence|apply Hr].
  - rewrite bool_decide_eq_false_2 by done. cbn. rewrite <- (ex_holds r Hx). apply Ho. unfold asks.
    by rewrite removal_targets_lookup, bool_decide_eq_false_2.
Qed.
End removing.

Lemma exact_removed r slugs r' answer : wf r -> united r -> exact r ->
  removed r slugs r' answer -> steady r r' -> wf r' -> exact r'.
Proof.
  intros Hr Hu Hx [Hd Ha] Hs Hr'. destruct answer as [answered|e].
  2:{ rewrite Ha. apply exact_same; [done|]. by eapply dispatched_err. }
  destruct Ha as (Ha & _ & Hc). destruct Hs as (Eh & Ec & _ & _). specialize (Hc (ex_counted r Hx)).
  split; [|done| |rewrite Ec; apply Hx].
  - intros i k. rewrite Ha. by eapply unplaced_holds.
  - intros i n Hi. assert (Hlt : (i < r'.(handles))%nat) by (rewrite <- (wf_counts r' Hr'); by eapply lookup_lt_Some).
    rewrite (Hc i Hlt) in Hi. injection Hi as <-. rewrite Ec. rewrite Eh in Hlt.
    pose proof (ex_capacity r Hx i _ (ex_counted r Hx i Hlt)) as Hle.
    assert (Hm : (routed r'.(assignments) i <= routed r.(assignments) i)%nat); [|lia].
    apply routed_mono, map_subseteq_spec. intros k j. rewrite Ha. unfold unplaced. by destruct (gone answered k).
Qed.

(** ** The invariant of a run *)

Record agreed r : Prop := {
  ag_wf : wf r;
  ag_united : united r;
  ag_exact : exact r;
  ag_backed : backed r;
  ag_tidy : responsive F -> tidy r
}.

Lemma united_steady r r' : r'.(handles) = r.(handles) -> united r -> united r'.
Proof. unfold united. by intros ->. Qed.

Lemma removed_backed r slugs r' answer : (forall k, k ∈ slugs -> wanted r k = false) ->
  removed r slugs r' answer -> backed r -> backed r'.
Proof.
  intros Hu [Hd Ha] Hb. destruct answer as [answered|e]; [|by rewrite Ha]. destruct Ha as (Ha & Hde & _).
  intros k [d Hk]. rewrite Ha. rewrite Hde in Hk. unfold forgotten in Hk. unfold unplaced.
  destruct (gone answered k) eqn:Hg; cbn [andb] in Hk; [|by apply Hb].
  rewrite (gone_iff r r' slugs answered Hd) in Hg. apply andb_true_iff in Hg as [Hin%bool_decide_eq_true _].
  by rewrite (Hu k Hin) in Hk.
Qed.

Lemma removed_tidy r slugs r' answer : wf r -> exact r -> wf r' -> steady r r' -> removed r slugs r' answer ->
  (forall k, is_Some (r.(assignments) !! k) -> wanted r k = false -> k ∈ slugs) ->
  (forall k, k ∈ slugs -> wanted r k = false) -> responsive F -> tidy r'.
Proof.
  intros Hr Hx Hr' Hs Hrem Hall Hu Hresp. pose proof (removed_moved _ _ _ _ Hr Hr' Hs Hrem Hu) as Hm.
  destruct Hrem as [Hd Ha]. destruct answer as [answered|e]; [|by destruct Hd as (_ & _ & Hn & _)].
  destruct Ha as (Ha & _ & _). intros k [i Hk]. rewrite Ha in Hk. unfold unplaced in Hk.
  rewrite (gone_iff r r' slugs answered Hd) in Hk.
  rewrite wanted_demand, (mv_demand _ _ _ Hm). unfold unmoved. rewrite <- wanted_demand.
  destruct (wanted r k) eqn:Hw; [done|]. exfalso.
  assert (Hk' : r.(assignments) !! k = Some i) by (destruct (bool_decide _ && _); [done|exact Hk]).
  rewrite bool_decide_eq_true_2 in Hk by (apply Hall; [by eexists|done]).
  apply (ex_holds r Hx) in Hk' as Hh. apply (holds_slug r.(handles)) in Hh; [|apply Hr]. by rewrite Hh in Hk.
Qed.

Lemma removed_agreed r slugs r' answer : wf r -> united r -> exact r -> backed r -> wf r' -> steady r r' ->
  removed r slugs r' answer -> (forall k, k ∈ slugs -> wanted r k = false) ->
  (responsive F -> forall k, is_Some (r.(assignments) !! k) -> wanted r k = false -> k ∈ slugs) -> agreed r'.
Proof.
  intros Hr Hun Hx Hb Hr' Hs Hrem Hu Hall. split; [done| | | |].
  - by apply (united_steady r); [apply Hs|].
  - by apply (exact_removed r slugs r' answer).
  - by apply (removed_backed r slugs r' answer).
  - intros Hresp. apply (removed_tidy r slugs r' answer); auto.
Qed.

Lemma reconcile_agreed r : wf r -> united r -> exact r -> backed r -> ends reconcile r (fun _ r' => agreed r').
Proof.
  intros Hr Hu Hx Hb. eapply ends_mono; [by apply reconcile_spec|]. intros [] r' [[answer Ha] Hm].
  apply (removed_agreed r (undesired r) r' answer); try done; [apply Hm|apply Hm| |].
  - intros k Hk%undesired_elem. apply Hk.
  - intros _ k H1 H2. by apply undesired_elem.
Qed.

Lemma give_up_agreed r (upd : gmap bytes Demand -> gmap bytes Demand) : wf r -> united r -> exact r ->
  (forall k d, upd r.(demand) !! k = Some d -> demand_wanted d = true -> is_Some (r.(assignments) !! k)) ->
  ends (pbind (pupdate (fun self => self <| demand ::= upd |>)) (fun _ => pbind forget_unheld (fun _ => reconcile))) r
    (fun _ r' => agreed r').
Proof.
  intros Hr Hu Hx Hb. apply ends_bind. cbn. apply ends_bind. cbn. apply reconcile_agreed; [by destruct Hr|done|by destruct Hx|].
  intros k [d [Hk [Hw|Hw]]%map_lookup_filter_Some]; simpl in *; [by eapply Hb|done].
Qed.

Lemma release_agreed session market r : wf r -> united r -> exact r ->
  (forall k d, alter (drop_lease session) market r.(demand) !! k = Some d -> demand_wanted d = true ->
     is_Some (r.(assignments) !! k)) ->
  ends (release session market) r (fun _ r' => agreed r').
Proof. intros Hr Hu Hx Hb. by apply give_up_agreed. Qed.

Lemma added_assigned r slugs r' p answer k : wf r -> united r -> exact r -> added r slugs p r' answer ->
  (is_Some (r.(assignments) !! k) -> is_Some (r'.(assignments) !! k)) /\
  (is_Some (r'.(assignments) !! k) -> is_Some (r.(assignments) !! k) \/
     k ∈ slugs /\ exists outs, answer = Ok outs /\ took outs k = true) /\
  (forall outs, answer = Ok outs -> took outs k = true -> is_Some (r'.(assignments) !! k)).
Proof.
  intros Hr Hu Hx (got & Hd & Ha). destruct got as [answered|e].
  2:{ destruct Ha as [-> E]. rewrite E. split_and!; [done|by left|done]. }
  destruct Ha as (-> & Ha & _). rewrite Ha. pose proof (took_reassemble _ _ _ _ _ k Hd) as Et. split_and!.
  - intros [i Hk]. unfold placed. destruct (accepted answered k) eqn:E; [|by eexists].
    destruct (accepted_asked r r' slugs answered Hr Hx Hd k E) as [Hn _]. congruence.
  - intros [i Hk]. unfold placed in Hk. destruct (accepted answered k) eqn:E; [right|left; by eexists].
    assert (Ht : taken answered k = true).
    { unfold accepted, taken in *. destruct (answered !! k) as [o|]; [|done]. apply bool_decide_eq_true in E. by rewrite E. }
    split; [|eexists; split; [done|by rewrite Et]]. apply (plan_add_dom r slugs).
    destruct (taken_held r r' slugs answered Hd k Ht) as (j & Hj & _). by eexists.
  - intros outs [= <-] Ht. rewrite Et in Ht.
    destruct (taken_held r r' slugs answered Hd k Ht) as (j & Hj & Hh & _). exists j.
    by apply (placed_holds r r' slugs answered Hr Hx Hd).
Qed.

Lemma add_agreed slugs r : agreed r -> ends (add slugs true) r (fun _ r' => agreed r').
Proof.
  intros [Hr Hu Hx Hb Ht]. eapply ends_mono; [by apply add_spec|]. intros answer r' (Ha & Hs & Hr').
  pose proof (fun k => added_assigned _ _ _ _ _ k Hr Hu Hx Ha) as Hk.
  pose proof (operator_added_moved _ _ _ _ Hr' Hs Ha) as Hm. split; [done| | | |].
  - by apply (united_steady r); [apply Hs|].
  - by apply (exact_added r slugs true r' answer).
  - intros k Hd. destruct (Hk k) as (H1 & _ & H3). destruct Ha as (got & Hd' & Hgot).
    destruct got as [answered|e]; [|destruct Hgot as [_ E]; apply H1, Hb; by rewrite E in Hd].
    destruct Hgot as (-> & _ & Hde & _). rewrite Hde in Hd. unfold pinned_after in Hd. cbn in Hd.
    destruct (taken answered k) eqn:Et; [|by apply H1, Hb].
    apply (H3 _ eq_refl). by rewrite (took_reassemble _ _ _ _ _ k Hd').
  - intros Hresp k Hk'. rewrite wanted_demand, (mv_demand _ _ _ Hm). unfold pinned_by.
    destruct (Hk k) as (_ & H2 & _). destruct (H2 Hk') as [Hold|(_ & outs & -> & ->)].
    + specialize (Ht Hresp k Hold). rewrite wanted_demand in Ht. destruct answer as [outs|]; [|done].
      by destruct (took outs k).
    + done.
Qed.

Lemma quiet_agreed r r' : agreed r -> quiet r r' -> agreed r'.
Proof.
  intros [Hr Hu Hx Hb Ht] Hq. pose proof (quiet_wf _ _ Hr Hq) as Hr'. destruct Hq as (E & Hg & Hs).
  rewrite E in Hr' |- *. split; [done..| |done|done]. by apply exact_same.
Qed.

Lemma lease_agreed session market r : agreed r -> ends (lease session market) r (fun _ r' => agreed r').
Proof.
  intros [Hr Hu Hx Hb Ht]. unfold lease. apply ends_get. apply ends_update.
  set (r1 := r <| demand ::= demand_entry market (take_lease session) |>).
  assert (Hr1 : wf r1) by by destruct Hr. assert (Hx1 : exact r1) by by destruct Hx.
  assert (Hd1 : forall k, k <> market -> r1.(demand) !! k = r.(demand) !! k).
  { intros k Hk. subst r1. cbn. unfold demand_entry. by rewrite lookup_insert_ne. }
  assert (Hw1 : wanted r1 market = true).
  { subst r1. unfold wanted, demand_entry. cbn. rewrite lookup_insert_eq. unfold demand_wanted. cbn.
    apply orb_true_intro. right. apply negb_true_iff, bool_decide_eq_false. set_solver. }
  assert (Hwk : forall k, k <> market -> wanted r1 k = wanted r k).
  { intros k Hk. unfold wanted. by rewrite Hd1. }
  case_bool_decide as Hheld.
  { unfold ends, pret. split; [done..| |].
    - intros k Hk. change (is_Some (r.(assignments) !! k)). destruct (decide (k = market)) as [->|Hne]; [done|].
      apply Hb. by rewrite <- Hd1.
    - intros Hresp k Hk. destruct (decide (k = market)) as [->|Hne]; [done|]. rewrite Hwk by done. by apply Ht. }
  assert (Hnone : r.(demand) !! market = None) by (apply eq_None_not_Some; intros H; by apply Hheld, Hb).
  apply ends_bind. eapply ends_mono; [by apply add_spec|]. intros answer r2 (Ha & Hs & Hr2).
  pose proof (exact_added _ _ _ _ _ Hr1 Hu Hx1 Ha Hs Hr2) as Hx2.
  pose proof (fun k => added_assigned _ _ _ _ _ k Hr1 Hu Hx1 Ha) as Hk.
  assert (Hu2 : united r2) by by apply (united_steady r1); [apply Hs|].
  assert (Hd2 : forall k, r2.(demand) !! k = r1.(demand) !! k).
  { intros k. by destruct (added_demand _ _ _ _ _ Ha k) as [-> | (? & _)]. }
  assert (Hback : forall refusal : ControlResponse,
    ends (pbind (release session market) (fun _ => pret (Some refusal))) r2 (fun _ r' => agreed r')).
  { intros refusal. apply ends_bind. eapply ends_mono; [apply (release_agreed session market); [done..|]|by intros [] r' H].
    intros k d. destruct (decide (k = market)) as [->|Hne].
    - rewrite lookup_alter_eq, Hd2. subst r1. cbn. unfold demand_entry. rewrite lookup_insert_eq, Hnone. cbn.
      intros [= <-] Hw. exfalso. revert Hw. unfold drop_lease, take_lease, demand_default, demand_wanted. cbn.
      rewrite bool_decide_eq_true_2; [done|]. set_solver.
    - rewrite lookup_alter_ne, Hd2, Hd1 by done. intros E _. apply (Hk k). apply Hb. by rewrite E. }
  destruct answer as [outs|e]; [|apply Hback]. destruct (forallb _ outs) eqn:Ef; [|apply Hback].
  unfold ends, pret.
  assert (Hm : is_Some (r2.(assignments) !! market)).
  { apply (proj2 (proj2 (Hk market)) outs eq_refl).
    destruct Ha as (got & Hd & Hgot). destruct got as [answered|e]; [|by destruct Hgot].
    destruct Hgot as (Eo & _). injection Eo as ->. cbn in Ef |- *. rewrite andb_true_r in Ef. rewrite orb_false_r, Ef, andb_true_r.
    apply bool_decide_eq_true. destruct (answered !! market) as [o|] eqn:E; [|done]. cbn in *.
    destruct Hd as (_ & _ & Hno & Hun & Has). destruct (plan_add r1 [market] !! market) as [[i|]|] eqn:EP.
    - destruct (Has i market EP) as (o' & E' & Es & _). congruence.
    - rewrite (Hun market EP) in E. by injection E as <-.
    - by rewrite (Hno market EP) in E. }
  split; [done..| |].
  - intros k Hdk. destruct (decide (k = market)) as [->|Hne]; [done|]. apply (Hk k), Hb. by rewrite <- Hd1, <- Hd2.
  - intros Hresp k Hdk. assert (Ew : wanted r2 k = wanted r1 k) by (unfold wanted; by rewrite Hd2). rewrite Ew.
    destruct (decide (k = market)) as [->|Hne]; [done|]. rewrite Hwk by done. apply Ht; [done|].
    destruct (Hk k) as (_ & H2 & _). destruct (H2 Hdk) as [H|[H _]]; [done|]. by apply list_elem_of_singleton in H.
Qed.

Lemma unpin_agreed slugs r : agreed r -> ends (unpin slugs) r (fun _ r' => agreed r').
Proof.
  intros [Hr Hu Hx Hb Ht]. eapply ends_mono; [by apply unpin_spec|].
  intros answer r' (Hm & r1 & r2 & got & Hm1 & E1 & Hdom & Hq & Hgot). pose proof (mv_wf _ _ _ Hm1) as Hr1.
  assert (Hx1 : exact r1) by (rewrite E1; by apply exact_demand).
  assert (Hu1 : united r1) by (by rewrite E1).
  assert (Ea : r2.(assignments) = r.(assignments)) by (destruct Hq as [-> _]; by rewrite E1).
  assert (Ed : r2.(demand) = r1.(demand)) by (by destruct Hq as [-> _]).
  assert (Hx2 : exact r2) by (destruct Hq as (-> & _ & Hs); by apply exact_same).
  assert (Hr2 : wf r2) by by eapply quiet_wf.
  assert (Hu2 : united r2) by (by destruct Hq as [-> _]).
  assert (Hb2 : backed r2).
  { intros k Hk. rewrite Ea. apply Hb, Hdom. by rewrite <- Ed. }
  assert (Hw2 : forall k, wanted r2 k = wanted r1 k) by (intros k; unfold wanted; by rewrite Ed).
  assert (Hout : responsive F -> forall k, is_Some (r2.(assignments) !! k) -> wanted r2 k = false -> k ∈ slugs).
  { intros Hresp k Hk Hw. rewrite Ea in Hk. specialize (Ht Hresp k Hk). rewrite Hw2 in Hw.
    rewrite wanted_demand in Ht, Hw. rewrite (mv_demand _ _ _ Hm1) in Hw. unfold unpinned in Hw.
    case_bool_decide; [done|congruence]. }
  destruct got as [a|e].
  - destruct Hgot as (released & Hrem & _). apply (removed_agreed r2 (List.filter (fun slug => negb (wanted r1 slug)) slugs) r' released); try done.
    + apply Hm.
    + destruct (mv_steady _ _ _ Hm) as (Ha & Hb' & Hc & Hd). destruct (mv_steady _ _ _ Hm1) as (Ha' & Hb'' & Hc' & Hd').
      destruct Hq as [-> _]. cbn. unfold steady. cbn. split_and!; congruence.
    + intros k Hk%base.list_elem_of_In%List.filter_In. rewrite Hw2. destruct Hk as [_ Hk]. by apply negb_true_iff in Hk.
    + intros Hresp k Hk Hw. apply base.list_elem_of_In, List.filter_In. split; [by apply base.list_elem_of_In, Hout|].
      apply negb_true_iff. by rewrite <- Hw2.
  - destruct Hgot as (Hresp & -> & _). by split.
Qed.

Lemma perform_agreed op r : agreed r -> ends (perform pid op) r (fun _ r' => agreed r').
Proof.
  intros Hr. pose proof (ag_wf _ Hr) as Hw.
  assert (Hend : forall A B (m : prog A) (h : A -> B),
    ends m r (fun _ r' => agreed r') -> ends (pbind m (fun a => pret (h a))) r (fun _ r' => agreed r')).
  { intros A B m h H. apply ends_bind. eapply ends_mono; [exact H|]. by intros a r' Ha. }
  destruct op as [request|session market|session market|session| | | | |shard]; cbn [perform]; apply Hend.
  - destruct request as [slugs|slugs|after|market|market|]; cbn [apply].
    + apply Hend. by apply add_agreed.
    + apply Hend. by apply unpin_agreed.
    + eapply ends_mono; [by apply status_spec|]. intros a r' Hq. by eapply quiet_agreed.
    + done.
    + done.
    + done.
  - by apply lease_agreed.
  - apply release_agreed; try apply Hr. intros k d Hk _. apply (ag_backed _ Hr).
    destruct (decide (k = market)) as [->|Hne].
    + rewrite lookup_alter_eq in Hk. destruct (r.(demand) !! market); [by eexists|done].
    + rewrite lookup_alter_ne in Hk by done. by eexists.
  - apply give_up_agreed; try apply Hr. intros k d Hk _. apply (ag_backed _ Hr). rewrite lookup_fmap in Hk.
    destruct (r.(demand) !! k); [by eexists|done].
  - apply reconcile_agreed; apply Hr.
  - eapply ends_mono; [by apply metrics_spec|]. intros a r' Hq. by eapply quiet_agreed.
  - destruct Hr as [[] ? [] ? ?]. by split.
  - destruct Hr as [[] ? [] ? ?]. by split.
  - destruct Hr as [[] ? [] ? ?]. by split.
Qed.


(** ** Runs *)

(** One operation, or the shards moving on between two. *)
Inductive router_step : Router F -> Router F -> Prop :=
| step_perform op answer r r' : perform pid op r = Some (answer, r') -> router_step r r'
| step_moves r g : fleet_moves r.(fleet) g -> router_step r (r <| fleet := g |>).

(** The table the daemon starts with: every shard's markets, pinned. *)
Definition started (f : F) (capacity instance : Z) (listening : option bytes)
    (shards : list (list bytes * SegmentTarget)) : Router F :=
  fold_left (fun self shard => router_install shard.1 shard.2 self) shards
    (router_new f capacity instance listening).

(** The shards as the daemon starts them: each wants its own markets, within the capacity. *)
Record begun (f : F) (capacity : Z) (shards : list (list bytes * SegmentTarget)) : Prop := {
  bg_some : shards <> [];
  bg_fleet : fleet_ok (length shards) f;
  bg_distinct : NoDup (mjoin shards.*1);
  bg_holds : forall i k, holds f i k <-> exists ms, shards.*1 !! i = Some ms /\ k ∈ ms;
  bg_room : Forall (fun shard => len shard.1 <= capacity) shards;
  bg_bound : capacity <= USIZE_MAX
}.

Lemma installing (index : nat) ms r : NoDup ms -> (forall k, k ∈ ms -> r.(assignments) !! k = None) ->
  let r' := fold_left (fun self slug =>
    self <| assignments ::= <[slug := index]> |> <| demand ::= demand_entry slug pin |>) ms r in
  r'.(handles) = r.(handles) /\ r'.(fleet) = r.(fleet) /\ r'.(counts) = r.(counts) /\
  r'.(capacity) = r.(capacity) /\
  (forall k, r'.(assignments) !! k = if bool_decide (k ∈ ms) then Some index else r.(assignments) !! k) /\
  (forall k, is_Some (r'.(demand) !! k) -> is_Some (r.(demand) !! k) \/ k ∈ ms) /\
  (forall k, wanted r' k = bool_decide (k ∈ ms) || wanted r k) /\
  forall j, routed r'.(assignments) j = (routed r.(assignments) j + if decide (index = j) then length ms else 0)%nat.
Proof.
  intros Hn. revert r. induction Hn as [|k ms Hni Hn IH]; intros r Hf; cbn [fold_left].
  { split_and!; try done; [by left|]. intros j. case_decide; simpl; lia. }
  set (r1 := r <| assignments ::= <[k := index]> |> <| demand ::= demand_entry k pin |>).
  assert (Hf1 : forall k', k' ∈ ms -> r1.(assignments) !! k' = None).
  { intros k' Hk'. subst r1. cbn. rewrite lookup_insert_ne by (intros ->; done). apply Hf. by right. }
  assert (Hw1 : forall k', wanted r1 k' = bool_decide (k' = k) || wanted r k').
  { intros k'. subst r1. unfold wanted, demand_entry. cbn. destruct (decide (k' = k)) as [->|Hne].
    - rewrite lookup_insert_eq, bool_decide_eq_true_2 by done. done.
    - rewrite lookup_insert_ne, bool_decide_eq_false_2 by done. done. }
  destruct (IH r1 Hf1) as (-> & -> & -> & -> & Ha & Hd & Hw & Hr). split_and!; [done..| | | |].
  - intros k'. rewrite Ha. subst r1. cbn. destruct (decide (k' = k)) as [->|Hne].
    + rewrite lookup_insert_eq, (bool_decide_eq_true_2 (k ∈ k :: ms)) by left. by case_bool_decide.
    + rewrite lookup_insert_ne by done. erewrite (bool_decide_ext (k' ∈ ms)); [done|]. rewrite elem_of_cons. naive_solver.
  - intros k' Hk'. destruct (Hd k' Hk') as [H|H]; [|right; by right]. revert H. subst r1. unfold demand_entry. cbn.
    destruct (decide (k' = k)) as [->|Hne]; [right; left|]. rewrite lookup_insert_ne by done. by left.
  - intros k'. rewrite Hw, Hw1. destruct (decide (k' = k)) as [->|Hne].
    + rewrite (bool_decide_eq_true_2 (k ∈ k :: ms)) by left. rewrite (bool_decide_eq_true_2 (k = k)) by done.
      by rewrite orb_true_r.
    + rewrite (bool_decide_eq_false_2 (k' = k)) by done. erewrite (bool_decide_ext (k' ∈ ms)); [done|].
      rewrite elem_of_cons. naive_solver.
  - intros j. rewrite Hr. subst r1. cbn. rewrite routed_insert by (apply Hf; left). case_decide; cbn; lia.
Qed.

Record laid r (shards : list (list bytes * SegmentTarget)) : Prop := {
  ld_handles : r.(handles) = length shards;
  ld_counts : r.(counts) = len <$> shards.*1;
  ld_assigned : forall k i, r.(assignments) !! k = Some i <-> exists ms, shards.*1 !! i = Some ms /\ k ∈ ms;
  ld_demand : forall k, is_Some (r.(demand) !! k) -> is_Some (r.(assignments) !! k);
  ld_wanted : forall k, is_Some (r.(assignments) !! k) -> wanted r k = true;
  ld_routed : forall i, routed r.(assignments) i = length (default [] (shards.*1 !! i))
}.

Lemma started_laid f cap inst lst shards : NoDup (mjoin shards.*1) ->
  let r := started f cap inst lst shards in laid r shards /\ r.(fleet) = f /\ r.(capacity) = cap.
Proof.
  induction shards as [|[ms seg] shards IH] using rev_ind; intros Hn.
  { split; [|done]. split; try done.
    - intros k i. cbn. rewrite lookup_empty. split; [done|]. by intros (ms & ? & _).
    - intros k. cbn. rewrite lookup_empty. by intros [].
    - intros k. cbn. rewrite lookup_empty. by intros []. }
  rewrite fmap_app, join_app in Hn. apply NoDup_app in Hn as (Hn & Hd & Hm). cbn in Hm, Hd. rewrite app_nil_r in Hm.
  destruct (IH Hn) as ([Hh Hc Ha Hde Hw Hr] & Hf & Hcap). clear IH. unfold started in *. rewrite fold_left_app. cbn [fold_left].
  set (r := fold_left _ shards _) in *. clearbody r. unfold router_install.
  match goal with |- context [fold_left _ _ ?x] => set (r1 := x) end.
  assert (Hfresh : forall k, k ∈ ms -> r1.(assignments) !! k = None).
  { intros k Hk. change (r.(assignments) !! k = None). apply eq_None_not_Some. intros [i Hi].
    apply Ha in Hi as (ms' & E & Hk'). apply (Hd k); [|rewrite app_nil_r; done].
    apply list_elem_of_join. exists ms'. split; [done|by eapply list_elem_of_lookup_2]. }
  destruct (installing r.(handles) ms r1 Hm Hfresh) as (E1 & E2 & E3 & E4 & E5 & E6 & E7 & E8). cbn [fst snd].
  match type of E1 with handles ?x = _ => set (r2 := x) in * end.
  assert (Hlook : forall i, (shards ++ [(ms, seg)]).*1 !! i =
    if decide (i = length shards) then Some ms else shards.*1 !! i).
  { intros i. rewrite fmap_app. case_decide as E.
    - subst. rewrite lookup_app_r by (by rewrite length_fmap). by rewrite length_fmap, Nat.sub_diag.
    - destruct (decide (i < length shards)%nat).
      + by rewrite lookup_app_l by (by rewrite length_fmap).
      + rewrite !lookup_ge_None_2; [done|rewrite length_fmap; lia|rewrite length_app, length_fmap; cbn; lia]. }
  split; [|split; [by rewrite E2|by rewrite E4]]. split.
  - rewrite E1, length_app. change (r1.(handles)) with (S r.(handles)). rewrite Hh. cbn. lia.
  - rewrite E3, !fmap_app. change (r1.(counts)) with (r.(counts) ++ [len ms]). by rewrite Hc.
  - intros k i. rewrite E5, Hlook. case_bool_decide as Hk.
    + rewrite Hh. case_decide as E; [subst; naive_solver|]. split; [congruence|]. intros (ms' & Hl & Hk').
      exfalso. apply (Hd k); [|by rewrite app_nil_r]. apply list_elem_of_join. exists ms'. split; [done|by eapply list_elem_of_lookup_2].
    + change (r1.(assignments)) with (r.(assignments)). rewrite Ha. case_decide as E; [|done]. subst. split.
      * intros (ms' & Hl & _). rewrite lookup_ge_None_2 in Hl; [done|by rewrite length_fmap].
      * intros (ms' & [= <-] & ?). done.
  - intros k H. rewrite E5. case_bool_decide; [by eexists|]. destruct (E6 k H) as [H'|?]; [|done]. by apply Hde.
  - intros k. rewrite E5, E7. case_bool_decide; [done|]. intros H'. cbn. by apply Hw.
  - intros i. rewrite E8, Hlook. change (r1.(assignments)) with (r.(assignments)). rewrite Hr, Hh.
    destruct (decide (length shards = i)) as [<-|Hne].
    + rewrite decide_True by done. rewrite lookup_ge_None_2; [cbn; lia|by rewrite length_fmap].
    + rewrite decide_False by done. lia.
Qed.

Lemma started_wf f cap inst lst shards : begun f cap shards -> wf (started f cap inst lst shards).
Proof.
  intros [Hne Hf Hn _ _ _]. destruct (started_laid f cap inst lst shards Hn) as ([H1 H2 H3 _ _ _] & Ef & _). split.
  - rewrite H1. by destruct shards; [|cbn; lia].
  - by rewrite Ef, H1.
  - intros k i (ms & Hl & _)%H3. apply lookup_lt_Some in Hl. rewrite length_fmap in Hl. lia.
  - by rewrite H2, !length_fmap.
Qed.

Lemma started_agreed f cap inst lst shards : begun f cap shards ->
  length shards = 1%nat \/ responsive F -> agreed (started f cap inst lst shards).
Proof.
  intros Hbeg Hu. pose proof (started_wf f cap inst lst shards Hbeg) as Hw. destruct Hbeg as [Hne Hf Hn Hh Hroom Hb].
  destruct (started_laid f cap inst lst shards Hn) as ([H1 H2 H3 H4 H5 H6] & Ef & Ec).
  set (r := started f cap inst lst shards) in *. clearbody r.
  assert (Hc : counted r).
  { intros i Hi. rewrite H2, H6, !list_lookup_fmap. rewrite H1 in Hi. apply lookup_lt_is_Some_2 in Hi as [s Hs].
    by rewrite Hs. }
  split; [done| |split| |]; try done.
  - unfold united. rewrite H1. destruct Hu; [by left|by right].
  - intros i k. rewrite Ef, Hh. symmetry. apply H3.
  - intros i n. rewrite H2, Ec, !list_lookup_fmap. destruct (shards !! i) as [s|] eqn:E; [|done]. intros [= <-].
    rewrite Forall_forall in Hroom. apply (Hroom s). by eapply list_elem_of_lookup_2.
  - by rewrite Ec.
Qed.

Lemma step_agreed r r' : router_step r r' -> agreed r -> agreed r'.
Proof.
  intros Hs Hr. destruct Hs as [op answer r r' E|r g Hg].
  - apply (ends_of _ _ _ _ _ E (perform_agreed op r Hr)).
  - apply (quiet_agreed r); [done|]. destruct (moves_law _ _ _ (wf_fleet r (ag_wf r Hr)) Hg) as [Hok Hs].
    split_and!; [done..|]. intros i k. apply Hs.
Qed.

Lemma steps_agreed r r' : rtc router_step r r' -> agreed r -> agreed r'.
Proof. induction 1; eauto using step_agreed. Qed.

(** C18: The routing table is exact. For a daemon with one shard, or whose shards refuse no
    command, in every state of a run in which operators and sessions ask for anything in any
    order and the shards go about their work in between: a shard wants a market exactly when
    the table routes the market to it, so no market is wanted by two shards; the counts are
    those of the table and within the shards' capacity; every market someone wants is held,
    and, where no command is refused, only those are; and no operation panics. *)
Theorem routing_table_exact f cap inst lst shards r : begun f cap shards ->
  length shards = 1%nat \/ responsive F -> rtc router_step (started f cap inst lst shards) r ->
  (forall i k, holds r.(fleet) i k <-> r.(assignments) !! k = Some i) /\
  (forall i, (i < r.(handles))%nat -> exists n,
     r.(counts) !! i = Some n /\ n = Z.of_nat (routed r.(assignments) i) /\ n <= r.(capacity)) /\
  (forall k, wanted r k = true -> is_Some (r.(assignments) !! k)) /\
  (responsive F -> forall k, is_Some (r.(assignments) !! k) -> wanted r k = true) /\
  (forall op, is_Some (perform pid op r)).
Proof.
  intros Hb Hu Hrun. pose proof (steps_agreed _ _ Hrun (started_agreed _ _ inst lst _ Hb Hu)) as Hr. split_and!.
  - apply (ex_holds _ (ag_exact _ Hr)).
  - intros i Hi. pose proof (ex_counted _ (ag_exact _ Hr) i Hi) as E. eexists. split; [exact E|]. split; [done|].
    by apply (ex_capacity _ (ag_exact _ Hr) i).
  - intros k Hw. apply (ag_backed _ Hr). unfold wanted in Hw. by destruct (r.(demand) !! k).
  - apply (ag_tidy _ Hr).
  - intros op. destruct (ends_run _ _ _ (perform_agreed op r Hr)) as (a & r' & E & _). by eexists.
Qed.
End exact.
