(* ===== verification/RouterShards.v ===== *)
(** * The shards behind the router

    A fleet of the shards of [Shard], each with its own environment and configuration: a
    command is served by its shard's next turn, after whatever turns the shard made
    meanwhile, unless the queue is full or the run has ended. [shards_keep_laws] shows that
    such a fleet keeps [FleetLaws], from the theorems of [ShardDemand] on one shard, so that
    what is proved of the router holds of the daemon ([daemon_holds_what_is_wanted]). *)

From stdpp Require Import gmap sets relations.
From S2P Require Import Prelude OrdMap Numeric Identity Descriptor DedupKey Continuity Observation Book BookProps Digest Pool Channel Observer ObserverProps Session Limitless Pacing Connection QueueAge ShmWriter Supervisor SupervisorProps ShardMarket Shard ShardFloor ShardInv ShardSim ShardProps ShardDemand Daemon Router RouterLaws RouterInv RouterProps RouterExact.

Section fleet.
Context `{RB : Broadcast StreamDelivery} `{RL : !BroadcastLaws RB}.
Context `{WP : Watch PublishedBook} `{WL : !WatchLaws WP} `{SS : ShardSink}.
(** Each shard's environment and configuration, and the process's hasher. *)
Variable envs : nat -> nat -> ShardEnv.
Variable cfgs : nat -> ShardConfig.
Variable hash_one : nat -> Z -> Z.
Variables outcome_capacity type_capacity date_capacity : Z.
(** What a shard did before the command it is asked next, and whether that command was
    refused. *)
Variable meanwhile : nat -> nat -> Shard -> Shard.
Variable refused : nat -> nat -> option ShardControlError.

Record ShardFleet : Type := { fl_shards : list Shard; fl_asked : nat }.

Definition woken (i : nat) (x : Shard) : Shard :=
  ask (envs i) (fun _ self => self) (prepare (envs i) hash_one x).

(** One command through a shard's handle. *)
Definition serve_command (command : Command) (i : nat) (f : ShardFleet) :
    result Reply ShardControlError * ShardFleet :=
  let n := f.(fl_asked) in
  match f.(fl_shards) !! i with
  | None => (Err Stopped, f)
  | Some x =>
      let x := meanwhile n i x in
      let waiting := {| fl_shards := <[i := x]> f.(fl_shards); fl_asked := S n |} in
      match refused n i with
      | Some error => (Err error, waiting)
      | None =>
          if bool_decide (is_Some (segment_failure x)) then (Err Stopped, waiting)
          else
            let '(reply, y) := on_command (envs i) command (woken i x) in
            (Ok reply, {| fl_shards := <[i := y]> f.(fl_shards); fl_asked := S n |})
      end
  end.

(** What a handle makes of the reply to its command. *)
Definition replied {A} (read : Reply -> option A) (r : result Reply ShardControlError) :
    result A ShardControlError :=
  reply <-? r ;;
  ok_or (read reply) Stopped.

#[export] Instance shard_fleet : Fleet ShardFleet := {|
  fleet_add i slugs f := let '(r, f) := serve_command (Add slugs) i f in
    (replied (fun reply => match reply with Outcomes o => Some o | _ => None end) r, f);
  fleet_remove i slugs f := let '(r, f) := serve_command (Remove slugs) i f in
    (replied (fun reply => match reply with Outcomes o => Some o | _ => None end) r, f);
  fleet_status i f := let '(r, f) := serve_command Shard.Status i f in
    (replied (fun reply => match reply with StatusReply s => Some s | _ => None end) r, f);
  fleet_metrics i f := let '(r, f) := serve_command Metrics i f in
    (Some (replied (fun reply => match reply with MetricsReply m => Some m | _ => None end) r), f)
|}.

(** A turn of a shard that no command woke. *)
Inductive idle_turn (i : nat) : Shard -> Shard -> Prop :=
| idle_once x w y : segment_failure x = None -> wakes_with (woken i x) w y -> is_command w = false ->
    idle_turn i x (Shard.on_wake (envs i) hash_one outcome_capacity type_capacity date_capacity w y).

Hypothesis Henvs : forall i, faithful (envs i).
Hypothesis Hcfgs : forall i, sized (cfgs i).
Hypothesis Hmeanwhile : forall n i x, rtc (idle_turn i) x (meanwhile n i x).

Abbreviation sharded i := (ShardProps.sharded (envs i) hash_one outcome_capacity type_capacity date_capacity (cfgs i)).
Abbreviation standing i := (ShardProps.standing (envs i) hash_one outcome_capacity type_capacity date_capacity (cfgs i)).

Definition shards_ok (n : nat) (f : ShardFleet) : Prop :=
  length f.(fl_shards) = n /\ forall i x, f.(fl_shards) !! i = Some x -> sharded i x.
Definition shards_hold (f : ShardFleet) (i : nat) (slug : bytes) : Prop :=
  exists x, f.(fl_shards) !! i = Some x /\ ShardInv.wanted x.(markets) slug.
Definition shards_move (f g : ShardFleet) : Prop :=
  length g.(fl_shards) = length f.(fl_shards) /\
  forall i x, f.(fl_shards) !! i = Some x -> exists y, g.(fl_shards) !! i = Some y /\ rtc (idle_turn i) x y.

Lemma idle_sharded i x y : idle_turn i x y -> sharded i x -> sharded i y.
Proof.
  intros Hi (x0 & Hb & Hr). exists x0. split; [done|]. etrans; [exact Hr|]. apply rtc_once.
  destruct Hi as [x w y Hf Hw _]. by apply (turn_once (envs i) hash_one).
Qed.

Lemma idle_demand i x y : idle_turn i x y -> sharded i x ->
  forall slug, ShardInv.wanted y.(markets) slug <-> ShardInv.wanted x.(markets) slug.
Proof.
  intros [x' w y' Hf Hw Hc] Hx. by apply (idle_wake_demand (envs i) hash_one outcome_capacity type_capacity
    date_capacity (Henvs i) (cfgs i) (Hcfgs i)).
Qed.

Lemma idle_turns i x y : rtc (idle_turn i) x y -> sharded i x -> sharded i y /\
  forall slug, ShardInv.wanted y.(markets) slug <-> ShardInv.wanted x.(markets) slug.
Proof.
  induction 1 as [x|x y z Hi _ IH]; intros Hx; [done|].
  pose proof (idle_sharded _ _ _ Hi Hx) as Hy. destruct (IH Hy) as [Hz Hd]. split; [done|].
  intros slug. rewrite Hd. by apply (idle_demand i).
Qed.

Lemma woken_demand i x : sharded i x -> standing i (woken i x) /\
  forall slug, ShardInv.wanted (woken i x).(markets) slug <-> ShardInv.wanted x.(markets) slug.
Proof.
  intros Hx. split; [exists x; by auto|]. apply reached_demand.
  - by apply (prepared_reached (envs i) hash_one outcome_capacity type_capacity date_capacity (Henvs i) (cfgs i) (Hcfgs i)).
  - apply (standing_afresh (envs i) hash_one outcome_capacity type_capacity date_capacity (Henvs i) (cfgs i) (Hcfgs i) x true).
    by apply sharded_standing.
Qed.

Lemma commanded_sharded i command x : segment_failure x = None -> sharded i x ->
  sharded i (on_command (envs i) command (woken i x)).2.
Proof.
  intros Hf (x0 & Hb & Hr). exists x0. split; [done|]. etrans; [exact Hr|]. apply rtc_once.
  apply (turn_once (envs i) hash_one outcome_capacity type_capacity date_capacity x (Commanded command) (woken i x) Hf).
  constructor.
Qed.

Lemma holds_insert f i x n j slug : (i < length f.(fl_shards))%nat ->
  shards_hold {| fl_shards := <[i := x]> f.(fl_shards); fl_asked := n |} j slug <->
  if decide (j = i) then ShardInv.wanted x.(markets) slug else shards_hold f j slug.
Proof.
  intros Hi. unfold shards_hold. cbn. case_decide as E.
  - subst. rewrite list_lookup_insert_eq by done. naive_solver.
  - by rewrite list_lookup_insert_ne.
Qed.

Lemma ok_insert m f i x n : shards_ok m f -> sharded i x ->
  shards_ok m {| fl_shards := <[i := x]> f.(fl_shards); fl_asked := n |}.
Proof.
  intros [Hl Hf] Hx. split; cbn; [by rewrite length_insert|].
  intros j y [(<- & <- & _)|[_ Hj]]%list_lookup_insert_Some; [done|by apply Hf].
Qed.

(** What serving a command does: the fleet keeps its invariant, no other shard's demand moves,
    and an answered command is the shard's own answer from a state with the same demand. *)
Lemma serve_spec m command i f : shards_ok m f ->
  let '(r, g) := serve_command command i f in
  shards_ok m g /\ (forall j slug, j <> i -> shards_hold g j slug <-> shards_hold f j slug) /\
  match r with
  | Err _ => forall slug, shards_hold g i slug <-> shards_hold f i slug
  | Ok reply => exists y z, standing i y /\ (forall slug, ShardInv.wanted y.(markets) slug <-> shards_hold f i slug) /\
      on_command (envs i) command y = (reply, z) /\
      forall slug, shards_hold g i slug <-> ShardInv.wanted z.(markets) slug
  end.
Proof.
  intros Hf. unfold serve_command. destruct (f.(fl_shards) !! i) as [x|] eqn:Ex; [|done].
  pose proof (lookup_lt_Some _ _ _ Ex) as Hi.
  destruct (idle_turns i x _ (Hmeanwhile f.(fl_asked) i x) (proj2 Hf i x Ex)) as [Hx Hd].
  set (x' := meanwhile f.(fl_asked) i x) in *. clearbody x'.
  assert (Hh : forall slug, ShardInv.wanted x'.(markets) slug <-> shards_hold f i slug).
  { intros slug. rewrite Hd. unfold shards_hold. rewrite Ex. naive_solver. }
  assert (Hwait : forall n, let g := {| fl_shards := <[i := x']> f.(fl_shards); fl_asked := n |} in
    shards_ok m g /\ (forall j slug, j <> i -> shards_hold g j slug <-> shards_hold f j slug) /\
    forall slug, shards_hold g i slug <-> shards_hold f i slug).
  { intros n g. split_and!; [by apply ok_insert| |].
    - intros j slug Hj. subst g. by rewrite holds_insert, decide_False.
    - intros slug. subst g. rewrite holds_insert, decide_True by done. apply Hh. }
  destruct (refused _ _); [apply Hwait|]. case_bool_decide as Hfail; [apply Hwait|].
  destruct (woken_demand i x' Hx) as [Hst Hw].
  pose proof (commanded_sharded i command x' (proj2 (eq_None_not_Some _) Hfail) Hx) as Hz.
  destruct (on_command (envs i) command (woken i x')) as [reply z] eqn:Ez. split_and!.
  - by apply ok_insert.
  - intros j slug Hj. by rewrite holds_insert, decide_False.
  - exists (woken i x'), z. split_and!; [done| |done|].
    + intros slug. by rewrite Hw.
    + intros slug. by rewrite holds_insert, decide_True.
Qed.

Lemma reports_spec (y : Shard) : NoDup (mr_slug <$> market_reports y) /\
  (forall slug, ShardInv.wanted y.(markets) slug -> slug ∈ mr_slug <$> market_reports y) /\
  forall r, r ∈ market_reports y -> ~ is_rejected r.(mr_status) /\ r.(mr_status) <> Accepted /\
    (ShardInv.wanted y.(markets) r.(mr_slug) <-> r.(mr_status) <> Removed).
Proof.
  assert (Hs : forall l, Forall (fun k => is_Some (y.(markets) !! k)) l ->
    mr_slug <$> omap (fun slug => market_report slug <$> y.(markets) !! slug) l = l).
  { induction 1 as [|k l [e Hk] Hl IH]; [done|]. cbn. rewrite Hk. cbn. by f_equal. }
  assert (Hall : Forall (fun k => is_Some (y.(markets) !! k)) (sort_slugs (map_to_list y.(markets)).*1)).
  { unfold sort_slugs. rewrite sort_by_perm. apply Forall_fmap, Forall_forall. intros [k e] Hin%elem_of_map_to_list. by exists e. }
  unfold market_reports. rewrite (Hs _ Hall). split_and!.
  - unfold sort_slugs. rewrite sort_by_perm. apply NoDup_fst_map_to_list.
  - intros slug (e & He & _). unfold sort_slugs. rewrite sort_by_perm. apply list_elem_of_fmap.
    exists (slug, e). split; [done|]. by apply elem_of_map_to_list.
  - intros r (k & _ & E)%list_elem_of_omap. destruct (y.(markets) !! k) as [e|] eqn:Ee; [|done]. cbn in E.
    injection E as <-. cbn. unfold market_status, ShardInv.wanted. rewrite Ee.
    destruct e.(desired) eqn:Ed; cbn; [|split_and!; [tauto|done|naive_solver congruence]].
    destruct (entry_book e).(authority); cbn; split_and!; try tauto; try done; split; try done; intros _; by exists e.
Qed.

Lemma shards_slug m f i slug : shards_ok m f -> shards_hold f i slug -> is_market_slug slug = true.
Proof.
  intros Hf (x & Ex & Hw). apply (removable_slug x); [|done].
  apply (standing_sound (envs i) hash_one outcome_capacity type_capacity date_capacity (Henvs i) (cfgs i) (Hcfgs i)).
  apply sharded_standing. by apply Hf.
Qed.

Lemma shards_moves m f g : shards_ok m f -> shards_move f g ->
  shards_ok m g /\ forall i slug, shards_hold g i slug <-> shards_hold f i slug.
Proof.
  intros [Hn Hf] [Hl Hm].
  assert (Hall : forall i y, g.(fl_shards) !! i = Some y -> exists x, f.(fl_shards) !! i = Some x /\ rtc (idle_turn i) x y).
  { intros i y Hy. assert (Hi : (i < length f.(fl_shards))%nat) by (rewrite <- Hl; by eapply lookup_lt_Some).
    apply lookup_lt_is_Some_2 in Hi as [x Hx]. destruct (Hm i x Hx) as (y' & Hy' & Ht). exists x. split; [done|congruence]. }
  split; [split; [congruence|]|].
  - intros i y Hy. destruct (Hall i y Hy) as (x & Hx & Ht). apply (idle_turns i x y Ht), Hf, Hx.
  - intros i slug. split.
    + intros (y & Hy & Hw). destruct (Hall i y Hy) as (x & Hx & Ht). exists x. split; [done|].
      by apply (idle_turns i x y Ht (Hf i x Hx)).
    + intros (x & Hx & Hw). destruct (Hm i x Hx) as (y & Hy & Ht). exists y. split; [done|].
      by apply (idle_turns i x y Ht (Hf i x Hx)).
Qed.

Lemma shards_add m f i batch : shards_ok m f -> NoDup batch ->
  let '(answer, g) := fleet_add i batch f in
  shards_ok m g /\ (forall j slug, j <> i \/ slug ∉ batch -> shards_hold g j slug <-> shards_hold f j slug) /\
  match answer with
  | Ok outcomes => oc_slug <$> outcomes = batch /\
      Forall (fun o => add_answered (shards_hold f i o.(oc_slug)) (shards_hold g i o.(oc_slug)) o.(oc_status)) outcomes
  | Err _ => forall slug, shards_hold g i slug <-> shards_hold f i slug
  end.
Proof.
  intros Hf Hn. cbn. pose proof (serve_spec m (Add batch) i f Hf) as H.
  destruct (serve_command (Add batch) i f) as [[reply|e] g]; destruct H as (Hg & Ho & H); cbn.
  2:{ split_and!; [done| |done]. intros j slug _. destruct (decide (j = i)) as [->|]; [apply H|by apply Ho]. }
  destruct H as (y & z & Hst & Hy & E & Hz). cbn in E.
  pose proof (add_markets_exact (envs i) (Henvs i) batch y Hn) as Hx.
  destruct (add_markets (envs i) batch y) as [outs z']. injection E as <- <-. destruct Hx as (Hs & Hx & Hk).
  cbn. split_and!; [done| |done|].
  - intros j slug Hj. destruct (decide (j = i)) as [->|]; [|by apply Ho]. rewrite Hz, <- Hy. apply Hk. by destruct Hj.
  - rewrite Forall_forall in Hx |- *. intros o Hin. specialize (Hx o Hin). cbn [snd] in Hx.
    unfold answers_add, add_answered in *. pose proof (Hy o.(oc_slug)). pose proof (Hz o.(oc_slug)).
    destruct o.(oc_status); tauto.
Qed.

Lemma shards_remove m f i batch : shards_ok m f ->
  let '(answer, g) := fleet_remove i batch f in
  shards_ok m g /\ (forall j slug, j <> i \/ slug ∉ batch -> shards_hold g j slug <-> shards_hold f j slug) /\
  match answer with
  | Ok outcomes =>
      outcomes = (fun slug => {| oc_slug := slug; oc_status := removal_answer slug |}) <$> batch /\
      forall slug, slug ∈ batch -> ~ shards_hold g i slug
  | Err _ => forall slug, shards_hold g i slug <-> shards_hold f i slug
  end.
Proof.
  intros Hf. cbn. pose proof (serve_spec m (Remove batch) i f Hf) as H.
  destruct (serve_command (Remove batch) i f) as [[reply|e] g]; destruct H as (Hg & Ho & H); cbn.
  2:{ split_and!; [done| |done]. intros j slug _. destruct (decide (j = i)) as [->|]; [apply H|by apply Ho]. }
  destruct H as (y & z & Hst & Hy & E & Hz). cbn in E.
  pose proof (remove_markets_exact (envs i) hash_one outcome_capacity type_capacity date_capacity (Henvs i) (cfgs i) (Hcfgs i) batch y Hst) as Hx.
  destruct (remove_markets (envs i) batch y) as [outs z']. injection E as <- <-. destruct Hx as (Hs & Hk).
  cbn [fst snd] in *. cbn. split_and!; [done| |done|].
  - intros j slug Hj. destruct (decide (j = i)) as [->|]; [|by apply Ho]. rewrite Hz, <- Hy, Hk.
    destruct Hj as [Hj|Hj]; [done|]. tauto.
  - intros slug Hin. rewrite Hz, Hk. tauto.
Qed.

Lemma shards_status m f i : shards_ok m f ->
  let '(answer, g) := fleet_status i f in
  shards_ok m g /\ (forall j slug, shards_hold g j slug <-> shards_hold f j slug) /\
  match answer with
  | Ok status => NoDup (mr_slug <$> status.(st_markets)) /\
      (forall slug, shards_hold g i slug -> slug ∈ mr_slug <$> status.(st_markets)) /\
      forall r, r ∈ status.(st_markets) -> ~ is_rejected r.(mr_status) /\ r.(mr_status) <> Accepted /\
        (shards_hold g i r.(mr_slug) <-> r.(mr_status) <> Removed)
  | Err _ => True
  end.
Proof.
  intros Hf. cbn. pose proof (serve_spec m Shard.Status i f Hf) as H.
  destruct (serve_command Shard.Status i f) as [[reply|e] g]; destruct H as (Hg & Ho & H); cbn.
  2:{ split_and!; [done| |done]. intros j slug. destruct (decide (j = i)) as [->|]; [apply H|by apply Ho]. }
  destruct H as (y & z & Hst & Hy & E & Hz). cbn [on_command] in E. rewrite shard_ask_eq in E. injection E as <- <-.
  assert (Hzy : forall slug, shards_hold g i slug <-> ShardInv.wanted y.(markets) slug) by (intros slug; by rewrite Hz).
  destruct (reports_spec y) as (H1 & H2 & H3). split; [done|]. split.
  { intros j slug. destruct (decide (j = i)) as [->|]; [by rewrite Hzy|by apply Ho]. }
  cbv beta iota delta [replied ok_or]. split; [exact H1|]. split.
  - intros slug Hh. by apply H2, Hzy.
  - intros r Hr. rewrite Hzy. by apply H3.
Qed.

Lemma shards_metrics m f i : shards_ok m f -> let g := (fleet_metrics i f).2 in
  shards_ok m g /\ forall j slug, shards_hold g j slug <-> shards_hold f j slug.
Proof.
  intros Hf. cbn. pose proof (serve_spec m Metrics i f Hf) as H.
  destruct (serve_command Metrics i f) as [[reply|e] g]; destruct H as (Hg & Ho & H); cbn.
  2:{ split; [done|]. intros j slug. destruct (decide (j = i)) as [->|]; [apply H|by apply Ho]. }
  destruct H as (y & z & Hst & Hy & E & Hz). cbn [on_command] in E. rewrite shard_ask_eq in E. injection E as <- <-.
  split; [done|]. intros j slug. destruct (decide (j = i)) as [->|]; [|by apply Ho]. by rewrite Hz, <- Hy.
Qed.

#[export] Instance shards_keep_laws : FleetLaws ShardFleet := {|
  fleet_ok := shards_ok; holds := shards_hold; fleet_moves := shards_move;
  holds_slug := shards_slug; moves_law := shards_moves; add_law := shards_add;
  remove_law := shards_remove; status_law := shards_status; metrics_law := shards_metrics
|}.
End fleet.
