(* ===== verification/DaemonRun.v ===== *)
(** * The daemon: its configuration, its router and its shards together

    The shards of an accepted configuration, built by [Shard::new] and driven by the router
    of its plan: with a single shard, or while every command is taken, the shards want in
    every state of a run what operators and sessions want of the daemon
    ([daemon_holds_what_is_wanted]). Then concrete runs, on which the theorems of
    [RouterProps] and [RouterExact] are applied; one is of a batch that the first shard takes
    and the second refuses. *)

From stdpp Require Import gmap sets relations.
From S2P Require Import Prelude OrdMap Numeric Identity Descriptor DedupKey Continuity Observation Book BookProps Digest Pool Channel Observer ObserverProps Session Limitless Pacing Connection QueueAge ShmLayout ShmWriter Supervisor SupervisorProps ShardMarket Shard ShardFloor ShardInv ShardSim ShardProps ShardDemand Daemon DaemonProps Router RouterLaws RouterInv RouterProps RouterExact RouterShards.

Section daemon.
Context `{RB : Broadcast StreamDelivery} `{RL : !BroadcastLaws RB}.
Context `{WP : Watch PublishedBook} `{WL : !WatchLaws WP} `{SS : ShardSink}.
Variable envs : nat -> nat -> ShardEnv.
Variable cfgs : nat -> ShardConfig.
Variable hash_one : nat -> Z -> Z.
Variables outcome_capacity type_capacity date_capacity : Z.
Variable meanwhile : nat -> nat -> Shard -> Shard.
Variable refused : nat -> nat -> option ShardControlError.
Hypothesis Henvs : forall i, faithful (envs i).
Hypothesis Hcfgs : forall i, sized (cfgs i).
Hypothesis Hmeanwhile : forall n i x,
  rtc (idle_turn envs hash_one outcome_capacity type_capacity date_capacity i) x (meanwhile n i x).
Variable pid : Z.

#[local] Instance daemon_fleet : Fleet ShardFleet := shard_fleet envs hash_one meanwhile refused.
#[local] Instance daemon_laws : FleetLaws ShardFleet :=
  shards_keep_laws envs cfgs hash_one outcome_capacity type_capacity date_capacity meanwhile refused Henvs Hcfgs Hmeanwhile.

(** Shards that take every command: no queue is full and no segment fails. *)
Definition always_taken : Prop :=
  (forall n i, refused n i = None) /\ forall sink, shard_sink_failure sink = None.

Lemma taken_responsive : always_taken -> responsive ShardFleet.
Proof.
  intros [Hr Hs] n f i batch [Hl _] Hi. rewrite <- Hl in Hi. apply lookup_lt_is_Some_2 in Hi as [x Hx].
  assert (Hserve : forall command, exists reply g,
    serve_command envs hash_one meanwhile refused command i f = (Ok reply, g) /\
    exists y, reply = (on_command (envs i) command y).1).
  { intros command. unfold serve_command. rewrite Hx, Hr, bool_decide_eq_false_2.
    - destruct (on_command _ _ _) as [reply z] eqn:E. eexists _, _. split; [done|]. eexists. by rewrite E.
    - unfold segment_failure. destruct (segment _) as [sink|]; [|by intros []]. cbn. rewrite Hs. by intros []. }
  split_and!; cbn.
  - destruct (Hserve (Add batch)) as (reply & g & -> & y & ->). cbn. by destruct (add_markets _ _ _).
  - destruct (Hserve (Remove batch)) as (reply & g & -> & y & ->). cbn. by destruct (remove_markets _ _ _).
  - destruct (Hserve Shard.Status) as (reply & g & -> & y & ->). done.
Qed.

(** A shard that was just built wants its markets. *)
Lemma built_wanted i cfg started x : sized cfg -> shard_new (envs i) cfg started = Ok x ->
  dom x.(markets) = list_to_set cfg.(sc_markets) -> x.(desired_count) = len cfg.(sc_markets) ->
  NoDup cfg.(sc_markets) -> forall slug, ShardInv.wanted x.(markets) slug <-> slug ∈ cfg.(sc_markets).
Proof.
  intros Hs E Hd Hc Hn slug.
  assert (Hst : ShardProps.standing (envs i) hash_one outcome_capacity type_capacity date_capacity cfg x).
  { apply sharded_standing. exists x. split; [by eapply begun_bare|done]. }
  destruct (standing_sound _ _ _ _ _ (Henvs i) cfg Hs x Hst) as [Hso _].
  pose proof (so_wanted _ Hso) as Hw. cbn [floor f_wanted f_markets] in Hw. unfold wanted_count in Hw.
  assert (Hall : filter (fun m => m.2.(desired) = true) x.(markets) = x.(markets)).
  { apply map_subseteq_size_eq; [apply map_filter_subseteq|].
    rewrite <- (size_dom (D := gset bytes)), Hd, size_list_to_set by done. unfold len in Hc. lia. }
  rewrite <- (elem_of_list_to_set (C := gset bytes)), <- Hd, elem_of_dom. unfold ShardInv.wanted. split.
  - intros (e & He & _). by eexists.
  - intros [e He]. exists e. split; [done|]. rewrite <- Hall in He. by apply map_lookup_filter_Some in He as [_ ?].
Qed.

Lemma published_wanted i sink x y : publish_into (envs i) sink x = (Ok (), y) ->
  forall slug, ShardInv.wanted y.(markets) slug <-> ShardInv.wanted x.(markets) slug.
Proof.
  unfold publish_into. destruct x.(segment); [done|]. intros E slug.
  pose proof (install_resident_quiet (envs i) reported (fa_arrivals _ (Henvs i))
    (sort_slugs (map_to_list x.(markets)).*1) sink x) as [Hq _].
  destruct (install_resident _ _ _ _) as [[sink'|] z]; [|done]. injection E as <-.
  apply (f_equal f_markets) in Hq. cbn [floor f_markets snd] in Hq. cbn. by rewrite Hq.
Qed.

Lemma mjoin_concat {A} (l : list (list A)) : mjoin l = concat l.
Proof. induction l as [|x l IH]; [done|]. cbn. by f_equal. Qed.

Variable is_dir : bytes -> bool.
Variable doc : DaemonConfig.
Variable plan : DaemonPlan.
Hypothesis Hdoc : typed doc.
Hypothesis Hplan : validate is_dir doc = Ok plan.

(** The shards of the plan, just built, with or without a segment. *)
Definition launched (f : ShardFleet) : Prop :=
  length f.(fl_shards) = length plan.(shards) /\
  forall i cfg, plan.(shards) !! i = Some cfg -> cfg = cfgs i /\
    exists x, f.(fl_shards) !! i = Some x /\ ShardProps.begun (envs i) cfg x.

(** Each shard's markets and its segment, as the router is told of them. *)
Definition routes (targets : list SegmentTarget) : list (list bytes * SegmentTarget) :=
  zip (sc_markets <$> plan.(shards)) targets.

Lemma plan_distinct : NoDup (concat (sc_markets <$> plan.(shards))).
Proof.
  destruct (validate_inv is_dir doc plan Hdoc Hplan) as [Ha [d [-> _]]]. cbn [shards plan_of].
  rewrite plan_markets by apply Ha. rewrite sort_slugs_perm. apply Ha.
Qed.

Lemma plan_room : Forall (fun cfg => len cfg.(sc_markets) <= plan_markets_per_shard plan) plan.(shards) /\
  plan_markets_per_shard plan <= USIZE_MAX /\ plan.(shards) <> [].
Proof.
  destruct (validate_inv is_dir doc plan Hdoc Hplan) as [Ha [d [-> _]]].
  destruct (plan_shards_sizes doc (proj1 (ac_per_shard _ _ Ha))) as [Hs _].
  pose proof (plan_shards_nonempty doc) as Hne. pose proof (ac_per_shard _ _ Ha) as Hp.
  assert (E : plan_markets_per_shard (plan_of doc d) = per_shard doc).
  { unfold plan_markets_per_shard. cbn [shards plan_of]. destruct (plan_shards doc); [done|]. by apply Forall_cons_1 in Hs as [[_ ?] _]. }
  rewrite E. split_and!; [|bounds; lia|done]. cbn [shards plan_of]. eapply Forall_impl; [exact Hs|]. intros cfg [? <-]. done.
Qed.

Lemma plan_sized i cfg : plan.(shards) !! i = Some cfg -> NoDup cfg.(sc_markets).
Proof.
  intros E. pose proof plan_distinct as Hn. apply list_elem_of_lookup_2, list_elem_of_split in E as (l1 & l2 & El).
  rewrite El, fmap_app, concat_app in Hn. cbn in Hn. by apply NoDup_app in Hn as (_ & _ & (? & _ & _)%NoDup_app).
Qed.

Lemma launched_begun f targets : launched f -> length targets = length plan.(shards) ->
  RouterExact.begun f (plan_markets_per_shard plan) (routes targets).
Proof.
  intros [Hl Hx] Ht. destruct plan_room as (Hroom & Hb & Hne).
  assert (E1 : (routes targets).*1 = sc_markets <$> plan.(shards)).
  { unfold routes. apply fst_zip. rewrite length_fmap. lia. }
  assert (E2 : length (routes targets) = length plan.(shards)) by (rewrite <- (length_fmap fst), E1; apply length_fmap).
  split.
  - intros E. rewrite E in E2. by destruct plan.(shards).
  - split; [congruence|]. intros i x Ex. assert (Hi : (i < length plan.(shards))%nat) by (rewrite <- Hl; by eapply lookup_lt_Some).
    apply lookup_lt_is_Some_2 in Hi as [cfg Hc]. destruct (Hx i cfg Hc) as (<- & x' & Ex' & Hbeg).
    exists x'. split; [done|]. replace x with x' by congruence. done.
  - rewrite E1, mjoin_concat. apply plan_distinct.
  - intros i k. rewrite E1. cbn. unfold shards_hold. setoid_rewrite list_lookup_fmap.
    destruct (plan.(shards) !! i) as [cfg|] eqn:Hc.
    2:{ rewrite lookup_ge_None_2; [naive_solver|]. rewrite Hl. by apply lookup_ge_None_1. }
    destruct (Hx i cfg Hc) as (Ecfg & x & Ex & Hbeg). rewrite Ex. cbn.
    assert (Hw : forall slug, ShardInv.wanted x.(markets) slug <-> slug ∈ cfg.(sc_markets)).
    { intros slug. assert (Hs : sized cfg) by (rewrite Ecfg; apply Hcfgs).
      pose proof (fun at_ => planned_shard_new (envs i) is_dir doc plan at_ Hdoc Hplan) as Hnew.
      assert (Hin : cfg ∈ plan.(shards)) by by eapply list_elem_of_lookup_2.
      destruct Hbeg as [at_ x Enew|at_ sink x y Enew Epub].
      - specialize (Hnew at_). rewrite Forall_forall in Hnew. destruct (Hnew cfg Hin) as (x' & Ex' & Hd & Hcnt & _).
        assert (x' = x) as -> by congruence. eapply built_wanted; try done. by eapply plan_sized.
      - specialize (Hnew at_). rewrite Forall_forall in Hnew. destruct (Hnew cfg Hin) as (x' & Ex' & Hd & Hcnt & _).
        assert (x' = x) as -> by congruence. rewrite (published_wanted i sink x y Epub).
        eapply built_wanted; try done. by eapply plan_sized. }
    split.
    + intros (x' & [= <-] & H). exists cfg.(sc_markets). split; [done|]. by apply Hw.
    + intros (ms & [= <-] & H). exists x. split; [done|]. by apply Hw.
  - assert (H : Forall (fun ms => len ms <= plan_markets_per_shard plan) (routes targets).*1).
    { rewrite E1. by apply Forall_fmap. }
    rewrite Forall_fmap in H. exact H.
  - done.
Qed.

(** C17: The daemon holds what is wanted of it. Let a configuration be accepted, its shards
    built and the router told of them. In every state of a run in which operators and
    sessions ask for anything in any order, whatever the shards meet in between: with a single
    shard, or while every command is taken, each shard wants exactly the markets the router
    routes to it, no two the same; every market that a pin or a lease wants is wanted by its
    shard, and while every command is taken nothing else is; and no operation panics. *)
Theorem daemon_holds_what_is_wanted f inst lst targets r : launched f ->
  length targets = length plan.(shards) -> length plan.(shards) = 1%nat \/ always_taken ->
  rtc (router_step pid) (started f (plan_markets_per_shard plan) inst lst (routes targets)) r ->
  (forall i x slug, r.(fleet).(fl_shards) !! i = Some x ->
     ShardInv.wanted x.(markets) slug <-> r.(assignments) !! slug = Some i) /\
  (forall slug, wanted r slug = true -> exists i x,
     r.(fleet).(fl_shards) !! i = Some x /\ ShardInv.wanted x.(markets) slug) /\
  (always_taken -> forall i x slug, r.(fleet).(fl_shards) !! i = Some x ->
     ShardInv.wanted x.(markets) slug -> wanted r slug = true) /\
  (forall op, is_Some (perform pid op r)).
Proof.
  intros Hf Ht Hu Hrun.
  assert (Hu' : length (routes targets) = 1%nat \/ responsive ShardFleet).
  { destruct Hu as [Hu|Hu]; [left|right; by apply taken_responsive]. unfold routes. rewrite length_zip, length_fmap. lia. }
  pose proof (steps_agreed pid _ _ Hrun (started_agreed _ _ inst lst _ (launched_begun f targets Hf Ht) Hu')) as Hr.
  pose proof (ex_holds _ (ag_exact _ Hr)) as Hh. cbn in Hh. split_and!.
  - intros i x slug Hx. rewrite <- Hh. unfold shards_hold. rewrite Hx. naive_solver.
  - intros slug Hw. assert (Ha : is_Some (r.(assignments) !! slug)).
    { apply (ag_backed _ Hr). unfold wanted in Hw. by destruct (r.(demand) !! slug). }
    destruct Ha as [i Hi]. apply Hh in Hi as (x & Hx & Hxw). by exists i, x.
  - intros Hall i x slug Hx Hw. apply (ag_tidy _ Hr); [by apply taken_responsive|].
    exists i. apply Hh. by exists x.
  - intros op. destruct (ends_run _ _ _ (perform_agreed pid op r Hr)) as (a & r' & E & _). by eexists.
Qed.
End daemon.

(** ** A run

    The sample configuration: two shards of at most two markets, [alpha] and [beta] on the
    first and [gamma] on the second. *)

#[local] Existing Instance null_sink.

Lemma get_ok_eq {A E} (r : result A E) (H : is_ok r = true) : r = Ok (get_ok r H).
Proof. by destruct r. Qed.

Definition sample_cfgs (i : nat) : ShardConfig :=
  default (shard_template sample_doc 1024 4096 2) (sample_plan.(shards) !! i).

Lemma sample_cfgs_sized i : sized (sample_cfgs i).
Proof. destruct i as [|[|[|i]]]; split; by vm_compute. Qed.

Definition still (_ _ : nat) (x : sample_shard) : sample_shard := x.
Definition never (_ _ : nat) : option ShardControlError := None.

(** The second shard's queue is full when the third command is sent. *)
Definition second_busy (n i : nat) : option ShardControlError :=
  if Nat.eqb n 2 && Nat.eqb i 1 then Some Busy else None.

Definition sample_built (i : nat) : result sample_shard ShardError := shard_new shard_env (sample_cfgs i) 0.
Definition sample_shards : list sample_shard :=
  [get_ok (sample_built 0) eq_refl; get_ok (sample_built 1) eq_refl].
Definition sample_fleet : ShardFleet := {| fl_shards := sample_shards; fl_asked := 0 |}.

Definition sample_target (name : bytes) : SegmentTarget :=
  {| sg_name := name; sg_file := 7; sg_doorbell := InHeader; sg_attachments := 0 |}.
Definition sample_targets : list SegmentTarget := [sample_target (lit "pmws-0.seg"); sample_target (lit "pmws-1.seg")].

Definition sample_router : Router ShardFleet :=
  started sample_fleet (plan_markets_per_shard sample_plan) 1 None (routes sample_plan sample_targets).

Section sample.
Variable refused : nat -> nat -> option ShardControlError.
#[local] Instance sample_handles : Fleet ShardFleet := shard_fleet (fun _ => shard_env) no_hash still refused.

Lemma still_idle n i x : rtc (idle_turn (fun _ => shard_env) no_hash 16 16 16 i) x (still n i x).
Proof. done. Qed.

#[local] Instance sample_laws : FleetLaws ShardFleet :=
  shards_keep_laws (fun _ => shard_env) sample_cfgs no_hash 16 16 16 still refused
    (fun _ => shard_faithful) sample_cfgs_sized still_idle.

Lemma sample_launched : launched (fun _ => shard_env) sample_cfgs sample_plan sample_fleet.
Proof.
  split; [by vm_compute|]. intros i cfg Hi.
  assert (Hc : cfg = sample_cfgs i) by (unfold sample_cfgs; by rewrite Hi). split; [done|].
  apply lookup_lt_Some in Hi. destruct i as [|[|i]]; [..|exfalso; vm_compute in Hi; lia].
  all: eexists; (split; [reflexivity|]); subst cfg; apply (begun_bare _ _ 0); apply get_ok_eq.
Qed.
End sample.

Definition never_fleet : Fleet ShardFleet := sample_handles never.
Definition busy_fleet : Fleet ShardFleet := sample_handles second_busy.

Definition after (FL : Fleet ShardFleet) (op : operation) (r : Router ShardFleet) : Router ShardFleet :=
  match perform (FL := FL) 0 op r with Some (_, r') => r' | None => r end.
Definition answer_of (FL : Fleet ShardFleet) (op : operation) (r : Router ShardFleet) : option operation_answer :=
  fst <$> perform (FL := FL) 0 op r.

Definition delta : bytes := lit "delta".
Definition epsilon : bytes := lit "epsilon".
Definition leased : Router ShardFleet := after never_fleet (OnLease 7 delta) sample_router.
Definition shared : Router ShardFleet := after never_fleet (OnLease 8 delta) leased.

#[local] Existing Instance never_fleet.
Definition never_laws : FleetLaws ShardFleet := sample_laws never.
#[local] Existing Instance never_laws.

Lemma never_refuses : always_taken never.
Proof. by split. Qed.

Lemma sample_begun : RouterExact.begun sample_fleet (plan_markets_per_shard sample_plan) (routes sample_plan sample_targets).
Proof.
  apply (launched_begun (fun _ => shard_env) sample_cfgs no_hash 16 16 16 still never (fun _ => shard_faithful)
    sample_cfgs_sized (still_idle) run_directory sample_doc sample_plan sample_typed); [by vm_compute|apply sample_launched|done].
Qed.

Lemma never_responsive : responsive ShardFleet.
Proof. apply taken_responsive, never_refuses. Qed.

Lemma perform_after op r : wf r -> exists answer, perform 0 op r = Some (answer, after never_fleet op r).
Proof.
  intros Hr. unfold after. destruct (ends_run _ _ _ (perform_spec 0 op r Hr)) as (a & r' & E & _).
  exists a. change (perform (FL := never_fleet) 0 op r) with (perform 0 op r). by rewrite E.
Qed.

Lemma after_run op r r0 : agreed r -> rtc (router_step 0) r0 r -> agreed (after never_fleet op r) /\
  rtc (router_step 0) r0 (after never_fleet op r).
Proof.
  intros Hr H. destruct (perform_after op r (ag_wf _ Hr)) as [a E]. split.
  - by apply (step_agreed 0 r); [eapply step_perform|].
  - etrans; [exact H|]. apply rtc_once. by eapply step_perform.
Qed.

Lemma sample_agreed : agreed sample_router.
Proof. apply started_agreed; [apply sample_begun|right; apply never_responsive]. Qed.

Lemma leased_run : agreed leased /\ rtc (router_step 0) sample_router leased.
Proof. apply after_run; [apply sample_agreed|done]. Qed.

Lemma shared_run : agreed shared /\ rtc (router_step 0) sample_router shared.
Proof. apply after_run; apply leased_run. Qed.

Lemma demand_is_what_was_asked_witness : exists answer r',
  perform 0 (OnLease 7 delta) sample_router = Some (answer, r') /\ wf r' /\
  forall market, demand_of r' market =
    asked (OnLease 7 delta) answer market (demand_of sample_router market).
Proof. exact (demand_is_what_was_asked 0 (OnLease 7 delta) sample_router (ag_wf _ sample_agreed)). Defined.

Lemma wanted_is_never_withdrawn_witness :
  holds shared.(fleet) 1 delta /\ holds (after never_fleet (OnReleaseSession 7) shared).(fleet) 1 delta.
Proof.
  assert (Hh : holds shared.(fleet) 1 delta).
  { apply (ex_holds _ (ag_exact _ (proj1 shared_run))). by vm_compute. }
  split; [done|]. destruct (perform_after (OnReleaseSession 7) shared (ag_wf _ (proj1 shared_run))) as [a E].
  exact (wanted_is_never_withdrawn 0 (OnReleaseSession 7) shared a _ (ag_wf _ (proj1 shared_run)) E 1%nat delta Hh
    ltac:(by vm_compute)).
Defined.

Lemma routing_table_exact_witness :
  shared.(assignments) !! delta = Some 1%nat /\ holds shared.(fleet) 1 delta.
Proof.
  split; [by vm_compute|].
  destruct (routing_table_exact 0 sample_fleet (plan_markets_per_shard sample_plan) 1 None (routes sample_plan sample_targets)
    shared sample_begun (or_intror never_responsive) (proj2 shared_run)) as [H _].
  apply H. by vm_compute.
Defined.

Lemma daemon_holds_what_is_wanted_witness :
  exists i x, shared.(fleet).(fl_shards) !! i = Some x /\ ShardInv.wanted x.(markets) delta.
Proof.
  destruct (daemon_holds_what_is_wanted (fun _ => shard_env) sample_cfgs no_hash 16 16 16 still never
    (fun _ => shard_faithful) sample_cfgs_sized still_idle 0 run_directory sample_doc sample_plan sample_typed
    ltac:(by vm_compute) sample_fleet 1 None sample_targets shared sample_launched eq_refl (or_intror never_refuses)
    (proj2 shared_run)) as (_ & H & _).
  apply H. by vm_compute.
Defined.

(** ** A batch that one shard takes and the next refuses *)

Definition wants_now (r : Router ShardFleet) (i : nat) (slug : bytes) : bool :=
  match x ← r.(fleet).(fl_shards) !! i; (x : sample_shard).(markets) !! slug with
  | Some e => e.(desired)
  | None => false
  end.

(** With one market removed, the first shard has room for one more. *)
Definition shrunk : Router ShardFleet :=
  after busy_fleet (OnRequest (RequestRemove [lit "alpha"])) sample_router.
Definition half_applied : Router ShardFleet :=
  after busy_fleet (OnRequest (RequestAdd [delta; epsilon])) shrunk.
Definition retried : Router ShardFleet :=
  after busy_fleet (OnRequest (RequestAdd [delta])) half_applied.

Definition retried_twice : Router ShardFleet :=
  after busy_fleet (OnRequest (RequestAdd [delta])) retried.

(** The batch is answered as not applied, the first shard wants its market of it, and asked
    for again the market is answered as reconciling and pinned. *)
Example half_applied_run :
  answer_of busy_fleet (OnRequest (RequestAdd [delta; epsilon])) shrunk =
    Some (Answered (ResponseBusy (lit "a shard's control queue is full; nothing was applied"))) /\
  wants_now shrunk 0 delta = false /\ wants_now half_applied 0 delta = true /\
  answer_of busy_fleet (OnRequest (RequestAdd [delta])) half_applied =
    Some (Answered (ResponseMarkets [{| oc_slug := delta; oc_status := Reconciling |}])) /\
  wanted half_applied delta = false /\ wanted retried delta = true.
Proof. by vm_compute. Qed.

Lemma wants_now_hold r i slug : wants_now r i slug = true -> shards_hold r.(fleet) i slug.
Proof.
  unfold wants_now, shards_hold. destruct (r.(fleet).(fl_shards) !! i) as [x|]; [|done]. cbn.
  destruct (x.(markets) !! slug) as [e|] eqn:Ee; [|done]. intros Hd. exists x. split; [done|]. by exists e.
Qed.

Section busy.
#[local] Existing Instance busy_fleet.
#[local] Instance busy_laws : FleetLaws ShardFleet := sample_laws second_busy.

Lemma busy_started : wf sample_router.
Proof.
  apply started_wf.
  apply (launched_begun (fun _ => shard_env) sample_cfgs no_hash 16 16 16 still second_busy (fun _ => shard_faithful)
    sample_cfgs_sized still_idle run_directory sample_doc sample_plan sample_typed); [by vm_compute|apply sample_launched|done].
Qed.

Lemma busy_shrunk : wf shrunk.
Proof.
  destruct (ends_run _ _ _ (perform_spec 0 (OnRequest (RequestRemove [lit "alpha"])) sample_router busy_started))
    as (a & r' & E & H). unfold shrunk, after.
  change (perform (FL := busy_fleet) 0 ?op ?r) with (perform 0 op r). rewrite E. apply H.
Qed.
End busy.

Lemma refused_batch_is_half_applied_witness :
  wants_now shrunk 0 delta = false /\ shards_hold retried_twice.(fleet) 0 delta /\
  retried_twice.(assignments) !! delta = None /\ attach_plan retried_twice delta = Err Removed.
Proof.
  split; [by vm_compute|].
  assert (E : perform (FL := busy_fleet) 0 (OnRequest (RequestAdd [delta; epsilon])) shrunk
    = Some (Answered (control_failure Busy), half_applied)).
  { destruct half_applied_run as [Ha _]. revert Ha. unfold answer_of, half_applied, after.
    destruct (perform (FL := busy_fleet) 0 _ shrunk) as [[a r]|]; [|done]. by intros [= ->]. }
  assert (Hagain : forall r, is_Some (perform (FL := busy_fleet) 0 (OnRequest (RequestAdd [delta])) r) ->
    asked_again (FL := busy_fleet) (L := busy_laws) 0 delta r (after busy_fleet (OnRequest (RequestAdd [delta])) r)).
  { intros r [[a r'] Er]. unfold after. rewrite Er. by eapply again_added. }
  destruct (refused_batch_is_half_applied (FL := busy_fleet) (L := busy_laws) 0 shrunk half_applied
    [delta; epsilon] Busy busy_shrunk E) as (_ & _ & H).
  destruct (H 0%nat delta) with (r'' := retried_twice) as (Hh & Hu & Ha & _).
  - apply wants_now_hold. by vm_compute.
  - by vm_compute.
  - by vm_compute.
  - eapply rtc_l; [apply Hagain|apply rtc_once, Hagain].
    + apply (is_Some_alt _). by vm_compute.
    + apply (is_Some_alt _). by vm_compute.
  - split; [exact Hh|by split].
Defined.
