(* ===== verification/Client.v ===== *)
(** * The operator's client ([src/src/bin/pmwsctl.rs])

    The command line, the exit status of every answer, and the walk over the pages of a
    status. One exchange with the daemon (connect, one line out, one line back) is a parameter
    of the walk. *)

From stdpp Require Import gmap.
From S2P Require Import Prelude OrdMap Numeric Identity Descriptor Continuity Pool Session Limitless Pacing Connection QueueAge Supervisor ShardMarket Shard Daemon Router.

Definition DEFAULT_SOCKET : bytes := lit "/tmp/pmwsd.sock".
Definition MAX_STATUS_PAGES : nat := 64.
Definition EXIT_OK : Z := 0.
Definition EXIT_UNREACHABLE : Z := 1.
Definition EXIT_USAGE : Z := 2.
Definition EXIT_REJECTED : Z := 3.
Definition EXIT_BUSY : Z := 4.

Record Invocation : Set := { socket : bytes; request : ControlRequest }.

(** The loop over the arguments: the socket, the command and its markets so far. *)
Fixpoint read_args (args : list bytes) (socket : bytes) (command : option bytes)
    (markets : list bytes) : result (bytes * option bytes * list bytes) bytes :=
  match args with
  | [] => Ok (socket, command, markets)
  | argument :: args =>
      if bool_decide (argument = lit "--socket") then
        match args with
        | [] => Err (lit "--socket requires a value")
        | value :: args => read_args args value command markets
        end
      else if is_prefix_of (lit "--") argument then Err (lit "unknown flag " ++ argument)
      else
        match command with
        | None => read_args args socket (Some argument) markets
        | Some _ => read_args args socket command (markets ++ [argument])
        end
  end.

Definition parse_args (args : list bytes) : result Invocation bytes :=
  read <-? read_args (tail args) DEFAULT_SOCKET None [] ;;
  let '(socket, command, markets) := read in
  command <-? ok_or command (lit "a command is required") ;;
  let none := bool_decide (markets = []) in
  request <-? (if bool_decide (command = lit "add") then
                 if none then Err (lit "add requires at least one market") else Ok (RequestAdd markets)
               else if bool_decide (command = lit "remove") then
                 if none then Err (lit "remove requires at least one market") else Ok (RequestRemove markets)
               else if bool_decide (command = lit "status") then
                 if none then Ok (RequestStatus None) else Err (lit "status takes no market")
               else Err (lit "unknown command " ++ command)) ;;
  Ok {| socket := socket; request := request |}.

(** The exit status of an answer. *)
Definition exit_status (response : ControlResponse) : Z :=
  match response with
  | ResponseMarkets markets =>
      if existsb (fun o => is_rejected o.(oc_status)) markets then EXIT_REJECTED else EXIT_OK
  | ResponseStatus _ => EXIT_OK
  | ResponseBusy _ => EXIT_BUSY
  | ResponseError _ | ResponseAttached _ | ResponseReleased _ | ResponseRenewed _ => EXIT_UNREACHABLE
  end.

Section walk.
(** The [n]-th exchange with the daemon. *)
Variable exchange : nat -> ControlRequest -> result ControlResponse bytes.

Record Collected : Set := {
  cl_shards : list ShardReport; cl_markets : list MarketRow; cl_pid : Z; cl_abandoned : Z;
  cl_attachments_refused : Z; cl_metrics_listen : option bytes; cl_after : option bytes
}.

Definition collected_none : Collected :=
  {| cl_shards := []; cl_markets := []; cl_pid := 0; cl_abandoned := 0; cl_attachments_refused := 0;
     cl_metrics_listen := None; cl_after := None |}.

(** One page taken up. *)
Definition take_page (status : DaemonStatus) (c : Collected) : Collected :=
  {| cl_shards := match c.(cl_after) with None => status.(ds_shards) | Some _ => c.(cl_shards) end;
     cl_markets := c.(cl_markets) ++ status.(ds_markets); cl_pid := status.(ds_pid);
     cl_abandoned := status.(ds_answers_abandoned);
     cl_attachments_refused := status.(ds_attachments_refused);
     cl_metrics_listen := status.(ds_metrics_listen);
     cl_after := match last status.(ds_markets) with
                 | Some row => Some (row_slug row)
                 | None => c.(cl_after)
                 end |}.

Definition collected_status (c : Collected) : DaemonStatus :=
  {| ds_pid := c.(cl_pid); ds_more := false; ds_shards := c.(cl_shards); ds_markets := c.(cl_markets);
     ds_answers_abandoned := c.(cl_abandoned);
     ds_attachments_refused := c.(cl_attachments_refused);
     ds_metrics_listen := c.(cl_metrics_listen) |}.

Fixpoint collect_pages (pages page : nat) (c : Collected) : result ControlResponse bytes :=
  match pages with
  | O => Ok (ResponseStatus (collected_status c))
  | S pages =>
      answer <-? exchange page (RequestStatus c.(cl_after)) ;;
      match answer with
      | ResponseStatus status =>
          let c := take_page status c in
          if negb status.(ds_more) || bool_decide (c.(cl_after) = None)
          then Ok (ResponseStatus (collected_status c))
          else collect_pages pages (S page) c
      | _ => Ok answer
      end
  end.

Definition collect_status : result ControlResponse bytes :=
  collect_pages MAX_STATUS_PAGES 0 collected_none.

(** [main]: what the tool exits with. *)
Definition run_client (args : list bytes) : Z :=
  match parse_args args with
  | Err _ => EXIT_USAGE
  | Ok invocation =>
      match match invocation.(request) with
            | RequestStatus _ => collect_status
            | request => exchange 0 request
            end with
      | Ok response => exit_status response
      | Err _ => EXIT_UNREACHABLE
      end
  end.
End walk.
