(* ===== verification/ClientProps.v ===== *)
(** * Walking the pages of a status

    What the client of [Client] collects from a daemon whose markets come and go while it
    asks: every market held throughout is reported exactly once
    ([status_reports_each_market_once]), up to the number of pages it will ask for
    ([status_stops_at_its_page_limit]). *)

From stdpp Require Import gmap sets relations sorting.
From S2P Require Import Prelude OrdMap Numeric Identity Descriptor Continuity Observation Pool Channel Session Limitless Pacing Connection QueueAge Supervisor ShardMarket Shard ShardInv ShardProps ShardDemand Daemon DaemonProps Router RouterLaws RouterInv RouterProps RouterExact RouterShards DaemonRun Client.

(** ** One page *)

(** Slugs after the cursor. *)
Definition beyond (cursor : option bytes) (slug : bytes) : Prop :=
  match cursor with None => True | Some c => slug_lt c slug end.

Lemma slug_at_most_false x y : slug_at_most x y = false <-> slug_lt y x.
Proof.
  unfold slug_at_most, key_lt. rewrite (cmp_flip (cmp := cmp_list Z.compare) y x (byte_wf y) (byte_wf x)).
  destruct (cmp_list Z.compare y x) eqn:E; cbn; split; try done; intros H; congruence.
Qed.

Lemma slug_lt_trans x y z : slug_lt x y -> slug_lt y z -> slug_lt x z.
Proof. apply (cmp_trans (cmp := cmp_list Z.compare)); apply byte_wf. Qed.

Lemma slug_lt_irrefl x : ~ slug_lt x x.
Proof. unfold key_lt. by rewrite (cmp_refl (cmp := cmp_list Z.compare) x (byte_wf x)). Qed.

Lemma beyond_trans cursor x y : beyond cursor x -> slug_lt x y -> beyond cursor y.
Proof. destruct cursor; cbn; [apply slug_lt_trans|done]. Qed.

Lemma sorted_NoDup l : StronglySorted slug_lt l -> NoDup l.
Proof.
  induction 1 as [|x l Hs IH Hx]; [constructor|]. constructor; [|done]. intros Hin.
  rewrite Forall_forall in Hx. by apply (slug_lt_irrefl x), Hx.
Qed.

Definition in_slug_order (rows : list MarketRow) : list MarketRow :=
  sort_by (fun left right => cmp_list Z.compare (row_slug left) (row_slug right)) rows.

Lemma ordered_perm rows : in_slug_order rows ≡ₚ rows.
Proof. apply sort_by_perm. Qed.

Lemma ordered_sorted rows : NoDup (row_slug <$> rows) -> StronglySorted slug_lt (row_slug <$> in_slug_order rows).
Proof.
  intros Hn. unfold in_slug_order. rewrite sort_by_fmap.
  change (sort_by (cmp_list Z.compare) (row_slug <$> rows)) with (sort_slugs (row_slug <$> rows)).
  rewrite <- (dedup_NoDup (sort_slugs (row_slug <$> rows))) by (by rewrite sort_slugs_perm).
  apply dedup_sorted with (wf := Forall (fun _ => True)); [apply _|apply slugs_wf|]. apply sort_slugs_sorted.
Qed.

(** In slug order, what is skipped is exactly what is not beyond the cursor. *)
Lemma skip_sorted cursor rows : StronglySorted slug_lt (row_slug <$> rows) ->
  let kept := skip_while (fun row => match cursor with Some c => slug_at_most (row_slug row) c | None => false end) rows in
  StronglySorted slug_lt (row_slug <$> kept) /\
  forall row, row ∈ kept <-> row ∈ rows /\ beyond cursor (row_slug row).
Proof.
  induction rows as [|row rows IH]; intros Hs; cbn.
  { split; [constructor|]. intros row. rewrite elem_of_nil. tauto. }
  cbn in Hs. pose proof Hs as Hall. apply StronglySorted_inv in Hs as [Hs Hrow]. specialize (IH Hs).
  rewrite Forall_fmap, Forall_forall in Hrow.
  destruct cursor as [c|]; cbn in *.
  2:{ split; [done|]. tauto. }
  destruct (slug_at_most (row_slug row) c) eqn:E.
  - destruct IH as [IH1 IH2]. split; [done|]. intros row'. rewrite IH2, elem_of_cons. split; [tauto|].
    intros [[->|Hin] Hb]; [|done]. apply slug_at_most_false in Hb. congruence.
  - apply slug_at_most_false in E. split; [done|]. intros row'. rewrite elem_of_cons. split; [|tauto].
    intros [->|Hin]; [by split; [left|]|]. split; [by right|]. eapply slug_lt_trans; [exact E|]. by apply Hrow.
Qed.

Lemma sorted_app (l k : list bytes) : StronglySorted slug_lt (l ++ k) ->
  StronglySorted slug_lt l /\ StronglySorted slug_lt k /\ forall x y, x ∈ l -> y ∈ k -> slug_lt x y.
Proof.
  induction l as [|x l IH]; cbn; intros H.
  { split_and!; [constructor|done|]. intros x y Hx. by apply not_elem_of_nil in Hx. }
  apply StronglySorted_inv in H as [H Hx]. destruct (IH H) as (H1 & H2 & H3). apply Forall_app in Hx as [Hl Hk].
  split_and!; [by constructor|done|]. intros y z [->|Hy]%elem_of_cons Hz; [|by apply H3].
  rewrite Forall_forall in Hk. by apply Hk.
Qed.

Lemma app_sorted (l k : list bytes) : StronglySorted slug_lt l -> StronglySorted slug_lt k ->
  (forall x y, x ∈ l -> y ∈ k -> slug_lt x y) -> StronglySorted slug_lt (l ++ k).
Proof.
  induction 1 as [|x l Hs IH Hx]; intros Hk H; cbn; [done|]. constructor.
  - apply IH; [done|]. intros y z Hy. apply H. by right.
  - apply Forall_app. split; [done|]. apply Forall_forall. intros y. apply H. left.
Qed.

Definition last_slug (rows : list MarketRow) : option bytes := row_slug <$> last rows.

Lemma last_slug_in rows : rows <> [] -> exists slug, last_slug rows = Some slug /\ slug ∈ row_slug <$> rows.
Proof.
  intros Hn. unfold last_slug. destruct (last rows) as [row|] eqn:E; [|by apply last_None in E].
  exists (row_slug row). split; [done|]. apply list_elem_of_fmap_2. apply last_Some in E as [l ->].
  apply elem_of_app. right. left.
Qed.

(** Everything on a page comes no later than its last row. *)
Lemma page_last rows slug x : StronglySorted slug_lt (row_slug <$> rows) -> last_slug rows = Some slug ->
  x ∈ row_slug <$> rows -> x = slug \/ slug_lt x slug.
Proof.
  unfold last_slug. intros Hs E Hx. destruct (last rows) as [row|] eqn:El; [|done]. injection E as <-.
  apply last_Some in El as [l ->]. rewrite fmap_app in Hs, Hx. apply sorted_app in Hs as (_ & _ & H).
  apply elem_of_app in Hx as [Hx|Hx]; [|by apply list_elem_of_singleton in Hx; left].
  right. apply H; [done|left].
Qed.

Record paged (cursor : option bytes) (rows page : list MarketRow) (more : bool) : Prop := {
  pg_sorted : StronglySorted slug_lt (row_slug <$> page);
  pg_beyond : forall row, row ∈ page -> row ∈ rows /\ beyond cursor (row_slug row);
  pg_full : more = true -> length page = STATUS_PAGE_MARKETS;
  pg_rest : forall row, row ∈ rows -> beyond cursor (row_slug row) ->
    row ∈ page \/ (more = true /\ forall slug, last_slug page = Some slug -> slug_lt slug (row_slug row))
}.

Lemma page_spec cursor rows : NoDup (row_slug <$> rows) ->
  paged cursor rows (page_of cursor rows).1 (page_of cursor rows).2.
Proof.
  intros Hn. unfold page_of. fold (in_slug_order rows).
  destruct (skip_sorted cursor (in_slug_order rows) (ordered_sorted rows Hn)) as [Hs Hin].
  set (kept := skip_while _ _) in *. clearbody kept. cbn [fst snd].
  rewrite <- (take_drop STATUS_PAGE_MARKETS kept), fmap_app in Hs. apply sorted_app in Hs as (Hs & _ & Hlt). split.
  - done.
  - intros row Hrow. assert (Hk : row ∈ kept).
    { rewrite <- (take_drop STATUS_PAGE_MARKETS kept). apply elem_of_app. by left. }
    apply Hin in Hk. by rewrite ordered_perm in Hk.
  - intros H. apply andb_true_iff in H as [H _]. by apply Nat.eqb_eq in H.
  - intros row Hrow Hb. assert (Hk : row ∈ kept) by (apply Hin; by rewrite ordered_perm).
    rewrite <- (take_drop STATUS_PAGE_MARKETS kept) in Hk. apply elem_of_app in Hk as [Hk|Hk]; [by left|right].
    assert (Hne : drop STATUS_PAGE_MARKETS kept <> []) by (intros E; rewrite E in Hk; by apply not_elem_of_nil in Hk).
    split.
    + apply andb_true_iff. split; [|by rewrite bool_decide_eq_false_2].
      apply Nat.eqb_eq. rewrite length_take. destruct (decide (STATUS_PAGE_MARKETS <= length kept)%nat); [lia|].
      exfalso. apply Hne. apply drop_ge. lia.
    + intros slug E. destruct (last_slug_in (take STATUS_PAGE_MARKETS kept)) as (slug' & E' & Hslug).
      { intros E'. by rewrite E' in E. }
      rewrite E in E'. injection E' as <-. apply Hlt; [done|]. by apply list_elem_of_fmap_2.
Qed.

(** ** The walk *)

(** The rows collected so far: in order, none after the cursor, and with every market of a
    given kind up to the cursor. *)
Record collecting (keep : bytes -> Prop) (c : Collected) : Prop := {
  ct_sorted : StronglySorted slug_lt (row_slug <$> c.(cl_markets));
  ct_cursor : match c.(cl_after) with
              | None => c.(cl_markets) = []
              | Some last => forall slug, slug ∈ row_slug <$> c.(cl_markets) -> slug = last \/ slug_lt slug last
              end;
  ct_kept : forall slug, keep slug -> ~ beyond c.(cl_after) slug -> slug ∈ row_slug <$> c.(cl_markets)
}.

Section walk.
Context (exchange : nat -> ControlRequest -> result ControlResponse bytes).
(** What the daemon's shards reported when the [n]-th page was asked for. *)
Variable rows_at : nat -> list MarketRow.
Hypothesis Hdistinct : forall n, NoDup (row_slug <$> rows_at n).
Hypothesis Hpages : forall n cursor response, exchange n (RequestStatus cursor) = Ok response ->
  match response with
  | ResponseStatus status => (status.(ds_markets), status.(ds_more)) = page_of cursor (rows_at n)
  | _ => True
  end.

(** One more page. *)
Lemma take_page_collecting keep n status c : collecting keep c ->
  (forall slug, keep slug -> slug ∈ row_slug <$> rows_at n) ->
  (status.(ds_markets), status.(ds_more)) = page_of c.(cl_after) (rows_at n) ->
  let c' := take_page status c in
  StronglySorted slug_lt (row_slug <$> c'.(cl_markets)) /\
  (status.(ds_more) = true -> collecting keep c') /\
  (status.(ds_more) = false -> forall slug, keep slug -> slug ∈ row_slug <$> c'.(cl_markets)).
Proof.
  intros [Hs Hc Hk] Hkeep Hp c'. pose proof (page_spec c.(cl_after) (rows_at n) (Hdistinct n)) as Hpg.
  rewrite <- Hp in Hpg. cbn [fst snd] in Hpg. destruct Hpg as [Ps Pb Pf Pr].
  set (page := status.(ds_markets)) in *. set (more := status.(ds_more)) in *.
  assert (Hbeyond : forall slug, slug ∈ row_slug <$> page -> beyond c.(cl_after) slug).
  { intros slug (row & -> & Hrow)%list_elem_of_fmap. by apply Pb. }
  assert (Hsort : StronglySorted slug_lt (row_slug <$> c'.(cl_markets))).
  { subst c'. cbn. rewrite fmap_app. apply app_sorted; [done..|]. intros x y Hx Hy.
    apply Hbeyond in Hy. destruct c.(cl_after) as [last|]; [|rewrite Hc in Hx; by apply not_elem_of_nil in Hx].
    cbn in Hy. destruct (Hc x Hx) as [->|Hlt]; [done|]. by eapply slug_lt_trans. }
  assert (Hold : forall slug, keep slug -> slug ∈ row_slug <$> c'.(cl_markets) \/
    (beyond c.(cl_after) slug /\ more = true /\ forall l, last_slug page = Some l -> slug_lt l slug)).
  { intros slug Hslug. subst c'. cbn. rewrite fmap_app, elem_of_app.
    assert (Hdec : beyond c.(cl_after) slug \/ ~ beyond c.(cl_after) slug).
    { destruct c.(cl_after) as [l|]; cbn; [|by left]. unfold key_lt. destruct (cmp_list Z.compare l slug); [by right|by left|by right]. }
    destruct Hdec as [Hb|Hb]; [|left; left; by apply Hk].
    specialize (Hkeep slug Hslug). apply list_elem_of_fmap in Hkeep as (row & -> & Hrow).
    destruct (Pr row Hrow Hb) as [Hin|[Hm Hl]]; [left; right; by apply list_elem_of_fmap_2|right; done]. }
  split_and!; [done| |].
  - intros Hm. assert (Hne : page <> []) by (intros E; specialize (Pf Hm); by rewrite E in Pf).
    destruct (last_slug_in page Hne) as (l & El & Hl). unfold last_slug in El.
    destruct (last page) as [row|] eqn:Erow; [|done]. injection El as <-.
    assert (Ea : c'.(cl_after) = Some (row_slug row)) by (subst c'; unfold take_page; cbn; fold page; by rewrite Erow).
    split; [done| |]; rewrite Ea.
    + intros slug. subst c'. cbn. rewrite fmap_app, elem_of_app. intros [Hin|Hin].
      * right. apply Hbeyond in Hl. destruct c.(cl_after) as [last|]; [|rewrite Hc in Hin; by apply not_elem_of_nil in Hin].
        cbn in Hl. destruct (Hc slug Hin) as [->|Hlt]; [done|]. by eapply slug_lt_trans.
      * apply (page_last page); [done| |done]. unfold last_slug. fold page. by rewrite Erow.
    + intros slug Hslug Hb. destruct (Hold slug Hslug) as [?|(_ & _ & Hlt)]; [done|]. exfalso. apply Hb. cbn. apply Hlt.
      unfold last_slug. fold page. by rewrite Erow.
  - intros Hm slug Hslug. destruct (Hold slug Hslug) as [?|(_ & Hm' & _)]; [done|congruence].
Qed.

Lemma collect_pages_exact keep pages n c st : collecting keep c ->
  (forall k cursor status slug, exchange k (RequestStatus cursor) = Ok (ResponseStatus status) ->
     keep slug -> slug ∈ row_slug <$> rows_at k) ->
  len c.(cl_markets) + 128 * Z.of_nat pages = 8192 ->
  collect_pages exchange pages n c = Ok (ResponseStatus st) ->
  StronglySorted slug_lt (row_slug <$> st.(ds_markets)) /\ len st.(ds_markets) <= 8192 /\
  (len st.(ds_markets) < 8192 -> forall slug, keep slug -> slug ∈ row_slug <$> st.(ds_markets)).
Proof.
  revert n c. induction pages as [|pages IH]; intros n c Hc Hkeep Hl; cbn [collect_pages].
  { intros [= <-]. cbn. split_and!; [apply Hc|lia|lia]. }
  destruct (exchange n _) as [response|] eqn:E; [|done]. pose proof (Hpages _ _ _ E) as Hp.
  destruct response as [|status| | | | |]; try done.
  destruct (take_page_collecting keep n status c Hc (fun slug => Hkeep n _ _ slug E) Hp) as (Hs & Hmore & Hlast).
  pose proof (page_spec c.(cl_after) (rows_at n) (Hdistinct n)) as [_ _ Pf _]. rewrite <- Hp in Pf. cbn [fst snd] in Pf.
  assert (Hlen : len (take_page status c).(cl_markets) = len c.(cl_markets) + len status.(ds_markets)) by (cbn; apply len_app).
  assert (Hcap : len status.(ds_markets) <= 128).
  { apply (f_equal fst) in Hp. cbn in Hp. rewrite Hp. unfold len, page_of. cbn [fst]. rewrite length_take. unfold STATUS_PAGE_MARKETS. lia. }
  destruct status.(ds_more) eqn:Em; cbn [negb orb].
  - specialize (Pf eq_refl). case_bool_decide as Hn.
    + exfalso. cbn in Hn. destruct (last status.(ds_markets)) eqn:El; [done|]. apply last_None in El. by rewrite El in Pf.
    + apply IH; [by apply Hmore|done|]. rewrite Hlen. unfold len in *. rewrite Pf. unfold STATUS_PAGE_MARKETS. lia.
  - intros [= <-]. cbn [collected_status ds_markets]. split_and!; [done|lia|]. intros _. by apply Hlast.
Qed.
End walk.

(** ** Against a daemon *)

Section daemon.
Context {F : Type} `{FL : !Fleet F} {L : FleetLaws F}.
Variable pid : Z.

(** The rows the shards report when they are asked. *)
Definition rows_of (r : Router F) : list MarketRow :=
  match gather_status r.(handles) 0 r with Some (Ok (_, rows), _) => rows | _ => [] end.

Lemma status_pages cursor r response r' :
  perform pid (OnRequest (RequestStatus cursor)) r = Some (Answered response, r') ->
  match response with
  | ResponseStatus status => (status.(ds_markets), status.(ds_more)) = page_of cursor (rows_of r) /\
      exists sums r1, gather_status r.(handles) 0 r = Some (Ok (sums, rows_of r), r1)
  | _ => True
  end.
Proof.
  unfold perform, apply, status, rows_of, pbind, pget. cbn -[page_of].
  destruct (gather_status r.(handles) 0 r) as [[[[sums rows]|e] r1]|] eqn:E; cbn -[page_of]; [| |done].
  - destruct (page_of cursor rows) as [page more]. intros [= <- _]. cbn. split; [done|]. by exists sums, r1.
  - intros [= <- _]. by destruct e.
Qed.

Lemma rows_distinct r : wf r -> r.(handles) = 1%nat -> NoDup (row_slug <$> rows_of r).
Proof.
  intros Hr H1. unfold rows_of. pose proof (gather_status_spec r.(handles) 0 r Hr ltac:(lia)) as H. unfold ends in H.
  destruct (gather_status r.(handles) 0 r) as [[[[sums rows]|e] r1]|]; [|constructor..]. destruct H as [_ (_ & _ & H)]. by apply H.
Qed.

(** C24: A status walk misses no market that stays. A client asks a daemon for the pages of
    its status, one after the other, while markets come and go and the shards work on; no
    answer was refused and fewer rows came than the client will ask for. Then the rows are in
    ascending order of their markets, each market once, and every market that a shard wanted
    at each of the requests is among them. Where there are several shards, this is as long as
    no two of them report the same market. *)
Theorem status_reports_each_market_once (rs : nat -> Router F) exchange st :
  (forall n, wf (rs n)) -> (forall n, (rs n).(handles) = 1%nat \/ NoDup (row_slug <$> rows_of (rs n))) ->
  (forall n cursor response, exchange n (RequestStatus cursor) = Ok response ->
     exists r', perform pid (OnRequest (RequestStatus cursor)) (rs n) = Some (Answered response, r')) ->
  collect_status exchange = Ok (ResponseStatus st) -> len st.(ds_markets) < 8192 ->
  StronglySorted slug_lt (row_slug <$> st.(ds_markets)) /\
  forall slug, (forall n, exists i, (i < (rs n).(handles))%nat /\ holds (rs n).(fleet) i slug) ->
    slug ∈ row_slug <$> st.(ds_markets).
Proof.
  intros Hw Hd He Hst Hl.
  assert (Hd' : forall n, NoDup (row_slug <$> rows_of (rs n))).
  { intros n. destruct (Hd n); [by apply rows_distinct|done]. }
  set (keep := fun slug => forall n, exists i, (i < (rs n).(handles))%nat /\ holds (rs n).(fleet) i slug).
  destruct (collect_pages_exact exchange (fun n => rows_of (rs n)) Hd') with (keep := keep)
    (pages := MAX_STATUS_PAGES) (n := 0%nat) (c := collected_none) (st := st) as (H1 & _ & H2); [..|by split; [|apply H2]].
  - intros n cursor response E. destruct (He n cursor response E) as [r' Er]. apply status_pages in Er.
    destruct response; try done. apply Er.
  - split; [constructor|done|]. intros slug _ Hb. exfalso. by apply Hb.
  - intros k cursor status slug E Hslug. destruct (He k cursor _ E) as [r' Er]. apply status_pages in Er as (_ & sums & r1 & Eg).
    pose proof (gather_status_spec (rs k).(handles) 0 (rs k) (Hw k) ltac:(lia)) as H. unfold ends in H. rewrite Eg in H.
    destruct H as [_ (H & _)]. destruct (Hslug k) as (i & Hi & Hh). apply (H i); [lia|done].
  - done.
  - exact Hst.
Qed.
End daemon.

(** ** A daemon of many markets *)

Lemma skip_prefix c (l k : list MarketRow) : StronglySorted slug_lt (row_slug <$> l ++ k) ->
  last_slug l = Some c ->
  skip_while (fun row => slug_at_most (row_slug row) c) (l ++ k) = k.
Proof.
  intros Hs El. assert (Hle : forall row, row ∈ l -> slug_at_most (row_slug row) c = true).
  { intros row Hrow. apply not_false_is_true. intros Hf%slug_at_most_false.
    rewrite fmap_app in Hs. apply sorted_app in Hs as (Hs & _).
    destruct (page_last l c (row_slug row) Hs El) as [E|Hlt]; [by apply list_elem_of_fmap_2|rewrite E in Hf; by apply slug_lt_irrefl in Hf|].
    by apply (slug_lt_irrefl c), (slug_lt_trans _ (row_slug row)). }
  assert (Hk : match k with [] => True | row :: _ => slug_at_most (row_slug row) c = false end).
  { destruct k as [|row k]; [done|]. apply slug_at_most_false. rewrite fmap_app in Hs. apply sorted_app in Hs as (_ & _ & H).
    apply H; [|left]. unfold last_slug in El. destruct (last l) as [row'|] eqn:E; [|done]. injection El as <-.
    apply last_Some in E as [l' ->]. rewrite fmap_app. apply elem_of_app. right. left. }
  clear Hs El. induction l as [|row l IH]; cbn.
  - destruct k as [|row k]; [done|]. cbn. by rewrite Hk.
  - rewrite Hle by left. apply IH. intros row' Hr. apply Hle. by right.
Qed.

(** The walk stops at its page limit and says nothing of it. Against a daemon that holds
    more than 8192 markets, which a configuration may name, the client reports the first 8192
    of them in slug order as the whole of the daemon. *)
Theorem status_stops_at_its_page_limit rows exchange : NoDup (row_slug <$> rows) -> 8192 < len rows ->
  (forall n cursor, exists status, exchange n (RequestStatus cursor) = Ok (ResponseStatus status) /\
     (status.(ds_markets), status.(ds_more)) = page_of cursor rows) ->
  exists st, collect_status exchange = Ok (ResponseStatus st) /\ st.(ds_more) = false /\
    st.(ds_markets) = take (MAX_STATUS_PAGES * STATUS_PAGE_MARKETS) (in_slug_order rows).
Proof.
  intros Hn Hl He. set (S := in_slug_order rows).
  assert (HlS : length S = length rows) by apply Permutation_length, ordered_perm.
  pose proof (ordered_sorted rows Hn) as HS. fold S in HS.
  assert (Hgo : forall pages k n c, (k + pages = 64)%nat -> c.(cl_markets) = take (k * 128) S ->
    c.(cl_after) = last_slug (take (k * 128) S) ->
    exists st, collect_pages exchange pages n c = Ok (ResponseStatus st) /\ st.(ds_more) = false /\
      st.(ds_markets) = take (MAX_STATUS_PAGES * STATUS_PAGE_MARKETS) S).
  { induction pages as [|pages IH]; intros k n c Hk Hc Ha; cbn [collect_pages].
    { eexists. split; [done|]. split; [done|]. cbn [collected_status ds_markets]. rewrite Hc. f_equal. unfold MAX_STATUS_PAGES, STATUS_PAGE_MARKETS. lia. }
    destruct (He n c.(cl_after)) as (status & -> & Hp).
    assert (Hpage : page_of c.(cl_after) rows = (take 128 (drop (k * 128) S), true)).
    { unfold page_of. fold (in_slug_order rows). fold S.
      assert (Ekept : skip_while (fun row => match c.(cl_after) with Some cursor => slug_at_most (row_slug row) cursor | None => false end) S
        = drop (k * 128) S).
      { rewrite Ha. rewrite <- (take_drop (k * 128) S) at 1. destruct (last_slug (take (k * 128) S)) as [l|] eqn:El.
        - apply skip_prefix; [by rewrite take_drop|done].
        - unfold last_slug in El. destruct (last (take (k * 128) S)) eqn:E; [done|]. apply last_None in E. rewrite E. cbn [app].
          by destruct (drop (k * 128) S). }
      rewrite Ekept. f_equal. apply andb_true_iff. unfold STATUS_PAGE_MARKETS, len in *.
      rewrite length_take, length_drop, HlS. split; [apply Nat.eqb_eq; lia|].
      rewrite bool_decide_eq_false_2; [done|]. intros E. apply (f_equal length) in E. rewrite !length_drop, HlS in E. cbn in E. lia. }
    rewrite Hpage in Hp. injection Hp as Em Emore. rewrite Emore. cbn [negb orb].
    assert (Hne : take 128 (drop (k * 128) S) <> []).
    { intros E. apply (f_equal length) in E. rewrite length_take, length_drop, HlS in E. unfold len in Hl. change (length (@nil MarketRow)) with 0%nat in E. lia. }
    destruct (last_slug_in _ Hne) as (l & El & _). unfold last_slug in El.
    destruct (last (take 128 (drop (k * 128) S))) as [row|] eqn:Elast; [|done]. injection El as <-.
    assert (Ea : (take_page status c).(cl_after) = Some (row_slug row)) by (unfold take_page; cbn; by rewrite Em, Elast).
    rewrite bool_decide_eq_false_2 by (by rewrite Ea).
    assert (Etake : take (k * 128) S ++ take 128 (drop (k * 128) S) = take ((k + 1) * 128) S).
    { rewrite <- (take_drop (k * 128) S) at 3. rewrite take_app_ge by (rewrite length_take; lia). f_equal.
      f_equal. rewrite length_take, HlS. unfold len in Hl. lia. }
    apply (IH (k + 1)%nat); [lia| |].
    - cbn. by rewrite Hc, Em, Etake.
    - rewrite Ea, <- Etake. unfold last_slug. rewrite last_app, Elast. done. }
  apply (Hgo 64%nat 0%nat); done.
Qed.

(** ** Samples *)

#[local] Existing Instance null_sink.
#[local] Existing Instance never_fleet.
#[local] Existing Instance never_laws.

(** A client of the sample daemon, which stands still meanwhile. *)
Definition sample_exchange (_ : nat) (request : ControlRequest) : result ControlResponse bytes :=
  match perform 0 (OnRequest request) shared with
  | Some (Answered response, _) => Ok response
  | _ => Err []
  end.

Definition sample_status : DaemonStatus :=
  match collect_status sample_exchange with
  | Ok (ResponseStatus st) => st
  | _ => collected_status collected_none
  end.

Lemma status_reports_each_market_once_witness :
  row_slug <$> sample_status.(ds_markets) = [lit "alpha"; lit "beta"; delta; lit "gamma"] /\
  delta ∈ row_slug <$> sample_status.(ds_markets).
Proof.
  split; [by vm_compute|].
  apply (status_reports_each_market_once 0 (fun _ => shared) sample_exchange sample_status).
  - intros _. apply (ag_wf _ (proj1 shared_run)).
  - intros _. right. by vm_compute; repeat constructor; set_solver.
  - intros n cursor response. unfold sample_exchange.
    destruct (perform 0 (OnRequest (RequestStatus cursor)) shared) as [[[] r']|]; try done. intros [= ->]. by exists r'.
  - by vm_compute.
  - by vm_compute.
  - intros _. exists 1%nat. split; [by vm_compute; lia|].
    apply (ex_holds _ (ag_exact _ (proj1 shared_run))). by vm_compute.
Defined.

(** A row of a market with a slug of [n] letters. *)
Definition letters_row (n : nat) : MarketRow :=
  {| row_shard := 0; row_pinned := true; row_leases := 0;
     row_market := {| mr_slug := replicate (S n) 97; mr_subscription := Established;
                      mr_status := StatusLive; mr_revision := 1; mr_continuity_epoch := 0 |} |}.
Definition many_rows : list MarketRow := letters_row <$> seq 0 (64 * 128 + 1).

Definition many_exchange (_ : nat) (request : ControlRequest) : result ControlResponse bytes :=
  match request with
  | RequestStatus cursor =>
      let '(page, more) := page_of cursor many_rows in
      Ok (ResponseStatus {| ds_pid := 1; ds_more := more; ds_shards := []; ds_markets := page;
                            ds_answers_abandoned := 0; ds_attachments_refused := 0; ds_metrics_listen := None |})
  | _ => Err []
  end.

Lemma status_stops_at_its_page_limit_witness : exists st,
  collect_status many_exchange = Ok (ResponseStatus st) /\ st.(ds_more) = false /\
  st.(ds_markets) = take (MAX_STATUS_PAGES * STATUS_PAGE_MARKETS) (in_slug_order many_rows).
Proof.
  apply status_stops_at_its_page_limit.
  - unfold many_rows. rewrite <- list_fmap_compose. apply NoDup_fmap_2; [|apply NoDup_seq].
    intros m n E. apply (f_equal length) in E. unfold compose, letters_row, row_slug in E. cbn [row_market mr_slug] in E.
    rewrite !length_replicate in E. lia.
  - unfold many_rows, len. rewrite length_fmap, length_seq. lia.
  - intros n cursor. unfold many_exchange. destruct (page_of cursor many_rows) as [page more]. by eexists.
Defined.
