(* ===== verification/Control.v ===== *)
(** * Control sessions ([src/src/bin/pmwsd.rs])

    One session per connection to the control socket: the framing of its bytes into request
    lines, the rotation that serves ready sessions a few requests at a time, attachments and
    releases, the deadlines, and the loop that ties them to the router. A session is the unit
    that holds leases; its end gives them up.

    The sockets, the clock, the credentials of a peer, the JSON library and the writing of an
    answer are the environment: [ControlEnv] answers the [n]-th question put to it. What was
    answered to whom is kept in a log ([told], the latest first). As in [Router], a method is
    a function of the state to its answer and the state it leaves, or [None] for a panic. *)

From stdpp Require Import gmap.
From S2P Require Import Prelude OrdMap Identity Descriptor Continuity Pool Session Limitless Pacing Connection QueueAge Supervisor ShardMarket Shard Daemon Router.

(** ** Data *)

(** Nanoseconds. *)
Definition CONTROL_READ_TIMEOUT : Z := 5000000000.
Definition RECONCILE_RETRY : Z := 250000000.
Definition CONTROL_READ_CHUNK : Z := 8192.
Definition CONTROL_REQUESTS_PER_DISPATCH : nat := 4.
Definition MAX_DISCARDED_BYTES : Z := MAX_CONTROL_LINE_BYTES.

(** The stream is the one the environment knows by the session's [id]. *)
Record Session : Set := {
  id : Z; pending : bytes; opening_deadline : option Z; last_activity : Z; discarding : option Z
}.

Record Sessions : Set := { open : list Session; next_id : Z; scan_start : nat; max_sessions : Z }.

Inductive Framed : Set :=
| Line (line : bytes)
| Incomplete
| Refused (message : bytes)
| Abandoned (message : bytes).

(** Whether an answer reached the client. *)
Inductive Delivery : Set := Delivered | Undelivered.

#[export] Instance Delivery_eq_dec : EqDecision Delivery.
Proof. solve_decision. Defined.

Inductive ControlEvent : Set :=
| ControlShutdown
| ShardFinished (index : nat)
| AcceptedStream
| AcceptFailed
| Readable (index : nat)
| Scrape
| Deadline.

(** ** Framing *)

Definition NEWLINE : Z := 10.

(** [position(|byte| *byte == b'\n')]. *)
Definition newline_at (l : bytes) : option nat := fst <$> list_find (fun b => b = NEWLINE) l.

(** [char::is_whitespace] on the encodings of two and three bytes. *)
Definition blank_pair (a b : Z) : bool := (a =? 194) && ((b =? 133) || (b =? 160)).
Definition blank_triple (a b c : Z) : bool :=
  (a =? 225) && (b =? 154) && (c =? 128) ||
  (a =? 226) && (b =? 128) && (in_range 128 138 c || (c =? 168) || (c =? 169) || (c =? 175)) ||
  (a =? 226) && (b =? 129) && (c =? 159) ||
  (a =? 227) && (b =? 128) && (c =? 128).

(** On a text reversed. *)
Fixpoint trim_reversed (l : bytes) : bytes :=
  match l with
  | [] => []
  | c :: l1 =>
      if in_range 9 13 c || (c =? 32) then trim_reversed l1
      else
        match l1 with
        | [] => l
        | b :: l2 =>
            if blank_pair b c then trim_reversed l2
            else
              match l2 with
              | [] => l
              | a :: l3 => if blank_triple a b c then trim_reversed l3 else l
              end
        end
  end.

Definition trim_end (text : bytes) : bytes := rev (trim_reversed (rev text)).

Definition over_long : bytes :=
  lit "request line exceeds " ++ to_decimal MAX_CONTROL_LINE_BYTES ++ lit " bytes".

(** The part of [next_request] that frames the front of the buffer. *)
Definition frame_front (self : Session) : Framed * Session :=
  match newline_at self.(pending) with
  | Some end_ =>
      let line := take (S end_) self.(pending) in
      let self := self <| pending ::= drop (S end_) |> in
      if Z.of_nat end_ <? MAX_CONTROL_LINE_BYTES
      then if utf8_valid line then (Line (trim_end line), self)
           else (Refused (lit "request line is not utf-8"), self)
      else (Refused over_long, self)
  | None =>
      if MAX_CONTROL_LINE_BYTES <=? len self.(pending)
      then (Refused (over_long ++ lit " or carries no newline"),
            self <| discarding := Some (len self.(pending)) |> <| pending := [] |>)
      else (Incomplete, self)
  end.

Definition next_request (self : Session) : Framed * Session :=
  match self.(discarding) with
  | None => frame_front self
  | Some discarded =>
      match newline_at self.(pending) with
      | Some end_ => frame_front (self <| pending ::= drop (S end_) |> <| discarding := None |>)
      | None =>
          let discarded := saturating_add_usize discarded (len self.(pending)) in
          let self := self <| pending := [] |> <| discarding := Some discarded |> in
          if MAX_DISCARDED_BYTES <? discarded
          then (Abandoned (lit "no request line in " ++ to_decimal discarded ++
                  lit " bytes; the connection is not speaking this protocol"), self)
          else (Incomplete, self)
      end
  end.

Definition has_buffered_request (self : Session) : bool :=
  bool_decide (NEWLINE ∈ self.(pending)) || (MAX_CONTROL_LINE_BYTES <=? len self.(pending)).

(** ** The sessions *)

Definition sessions_new (max_sessions : Z) : Sessions :=
  {| open := []; next_id := 0; scan_start := 0; max_sessions := max_sessions |}.

(** Whether a session has work: [ready] says which sockets can be read. *)
Definition has_work (ready : Z -> bool) (session : Session) : bool :=
  has_buffered_request session || ready session.(id).

(** The first session with work, from [scan_start] around; [None] is pending. *)
Definition next_readable (ready : Z -> bool) (self : Sessions) : option nat :=
  let n := length self.(open) in
  match n with
  | O => None
  | _ =>
      let start := (self.(scan_start) mod n)%nat in
      (fun offset => ((start + offset) mod n)%nat) <$>
        List.find (fun offset =>
          match self.(open) !! ((start + offset) mod n)%nat with
          | Some session => has_work ready session
          | None => false
          end) (seq 0 n)
  end.

(** [Instant::checked_add]: the last instant of the clock is the environment's. *)
Definition instant_add (last instant duration : Z) : option Z :=
  if instant + duration <=? last then Some (instant + duration) else None.

(** When a session's time is up. *)
Definition session_deadline (last : Z) (ttl : option Z) (session : Session) : option Z :=
  match session.(opening_deadline) with
  | Some deadline => Some deadline
  | None => ttl ← ttl; instant_add last session.(last_activity) ttl
  end.

Definition is_expired (last now : Z) (ttl : option Z) (session : Session) : bool :=
  match session_deadline last ttl session with Some deadline => deadline <=? now | None => false end.

(** [declared_ttl_ms]: [as_millis] of nanoseconds. *)
Definition declared_ttl_ms (lease_ttl : option Z) : Z :=
  match lease_ttl with
  | None => 0
  | Some ttl => let ms := ttl / 1000000 in if ms <=? U64_MAX then ms else MAX_LEASE_TTL_MS
  end.

Definition foreign_peer_refusal (served peer : Z) : option ControlResponse :=
  if served =? peer then None
  else Some (ResponseError (lit "attach refused: this daemon serves uid " ++ to_decimal served ++
               lit " and the peer is uid " ++ to_decimal peer)).

(** ** The environment and the state *)

Inductive Read : Set := ReadBytes (chunk : bytes) | ReadWouldBlock | ReadFailed.

Record ControlEnv : Type := {
  ce_now : nat -> Z;
  (** What reading the session's socket answers, at most a chunk. *)
  ce_read : nat -> Z -> Read;
  (** Whether an answer is written within its time. *)
  ce_written : nat -> bool;
  ce_peer : nat -> result Z bytes;
  ce_own_euid : Z;
  (** The last instant of the clock. *)
  ce_last : Z;
  (** [serde_json::from_str]. *)
  ce_parse : bytes -> result ControlRequest bytes
}.

(** An answer: to which session (none: one that was not let in), to what, and whether it was
    delivered. *)
Record Told : Set := {
  to_session : option Z; about : option ControlRequest; response : ControlResponse;
  delivery : Delivery
}.

Record Control {F : Type} : Type := {
  sessions : Sessions; router : Router F; asked_env : nat; told : list Told
}.
Arguments Control : clear implicits.

(** ** Methods *)

Section methods.
Context {F : Type} `{FL : Fleet F}.
Variable pid : Z.
Variable env : ControlEnv.
(** The configured lease TTL. *)
Variable lease_ttl : option Z.

Definition ctl (A : Type) : Type := Control F -> option (A * Control F).
Definition cret {A} (a : A) : ctl A := fun c => Some (a, c).
Definition cbind {A B} (m : ctl A) (k : A -> ctl B) : ctl B := fun c => '(a, c) ← m c; k a c.
Definition cget {A} (f : Control F -> A) : ctl A := fun c => Some (f c, c).
Definition cupdate (f : Sessions -> Sessions) : ctl () := fun c => Some ((), c <| sessions ::= f |>).
(** A method of the router. *)
Definition on_router {A} (m : Router.prog A) : ctl A := fun c =>
  '(a, r) ← m c.(router); Some (a, c <| router := r |>).
(** The next question to the environment. *)
Definition ask_env {A} (f : nat -> A) : ctl A := fun c =>
  Some (f c.(asked_env), c <| asked_env ::= S |>).

Notation "x <-! m ;; k" := (cbind m (fun x => k))
  (at level 100, m at next level, right associativity).
Notation "m ;;! k" := (cbind m (fun _ => k)) (at level 100, right associativity).

(** What becomes of an answer that was or was not written. *)
Definition record_told (session : option Z) (about : option ControlRequest) (response : ControlResponse)
    (written : bool) : ctl Delivery :=
  let delivery := if written then Delivered else Undelivered in
  (if written then cret () else on_router abandon_answer) ;;!
  (fun c => Some (delivery, c <| told ::= cons {| to_session := session; about := about;
                                                  response := response; delivery := delivery |} |>)).

Definition answer (session : option Z) (about : option ControlRequest) (response : ControlResponse) : ctl Delivery :=
  written <-! ask_env env.(ce_written) ;;
  record_told session about response written.

Definition set_session (index : nat) (session : Session) : ctl () :=
  cupdate (fun self => self <| open ::= <[index := session]> |>).

(** *** Attachments and releases *)

Definition refused_market (market : bytes) (status : MarketStatus) : ControlResponse :=
  ResponseMarkets [{| oc_slug := market; oc_status := status |}].

(** [refuse_attachment] and the refusal's answer. *)
Definition refuse_attach (session : Z) (market : bytes) (refusal : ControlResponse) : ctl Delivery :=
  on_router refuse_attachment ;;!
  answer (Some session) (Some (RequestAttach market)) refusal.

Definition attachment_of (r : Router F) (plan : AttachPlan) : Attachment :=
  {| at_shard := plan.(ap_shard); at_segment := plan.(ap_name); at_instance_id := instance_id r;
     at_segment_generation := SEGMENT_GENERATION; at_doorbell := plan.(ap_doorbell);
     at_descriptors := TRANSFERRED_DESCRIPTORS; at_lease_ttl_ms := declared_ttl_ms lease_ttl |}.

(** The attach once the peer and the identifier are accepted. *)
Definition attach_leased (session : Z) (market : bytes) : ctl Delivery :=
  refusal <-! on_router (Router.lease session market) ;;
  match refusal with
  | Some refusal => refuse_attach session market refusal
  | None =>
      plan <-! cget (fun c => attach_plan c.(router) market) ;;
      match plan with
      | Err status =>
          on_router (Router.release session market) ;;!
          refuse_attach session market (refused_market market status)
      | Ok plan =>
          attachment <-! cget (fun c => attachment_of c.(router) plan) ;;
          descriptor <-! cget (fun c => segment_descriptor c.(router) plan.(ap_shard)) ;;
          match descriptor with
          | None =>
              on_router (Router.release session market) ;;!
              refuse_attach session market (ResponseError (lit "attach refused: shard " ++
                to_decimal (Z.of_nat plan.(ap_shard)) ++ lit " holds no segment"))
          | Some _ =>
              written <-! ask_env env.(ce_written) ;;
              (if written : bool then on_router (record_attachment plan.(ap_shard)) else cret ()) ;;!
              record_told (Some session) (Some (RequestAttach market)) (ResponseAttached attachment) written
          end
      end
  end.

Definition attach (session : Z) (market : bytes) : ctl Delivery :=
  peer <-! ask_env env.(ce_peer) ;;
  match peer with
  | Err error => refuse_attach session market
      (ResponseError (lit "attach refused: peer credentials unreadable: " ++ error))
  | Ok peer =>
      match foreign_peer_refusal env.(ce_own_euid) peer with
      | Some refusal => refuse_attach session market refusal
      | None =>
          if negb (is_market_slug market)
          then refuse_attach session market (refused_market market (Rejected InvalidIdentifier))
          else attach_leased session market
      end
  end.

Definition release (session : Z) (market : bytes) : ctl Delivery :=
  if negb (is_market_slug market)
  then answer (Some session) (Some (RequestRelease market)) (refused_market market (Rejected InvalidIdentifier))
  else
    on_router (Router.release session market) ;;!
    leases <-! cget (fun c => leases_held_by c.(router) session) ;;
    answer (Some session) (Some (RequestRelease market)) (ResponseReleased leases).

(** One request line. *)
Definition answer_line (session : Z) (line : bytes) : ctl Delivery :=
  match env.(ce_parse) line with
  | Err error => answer (Some session) None (ResponseError (lit "unreadable request: " ++ error))
  | Ok (RequestAttach market) => attach session market
  | Ok (RequestRelease market) => release session market
  | Ok RequestRenew =>
      leases <-! cget (fun c => leases_held_by c.(router) session) ;;
      answer (Some session) (Some RequestRenew) (ResponseRenewed leases)
  | Ok request =>
      response <-! on_router (apply pid request) ;;
      answer (Some session) (Some request) response
  end.

(** *** Sessions *)

Definition accept : ctl () :=
  self <-! cget sessions ;;
  if self.(max_sessions) <=? len self.(open) then
    answer None None (ResponseBusy (lit "this daemon holds " ++ to_decimal self.(max_sessions) ++
      lit " control sessions; nothing was applied")) ;;!
    cret ()
  else
    opened <-! ask_env env.(ce_now) ;;
    now <-! ask_env env.(ce_now) ;;
    cupdate (fun self =>
      let next := saturating_add_u64 self.(next_id) 1 in
      self <| next_id := next |>
           <| open ::= fun l => l ++ [{| id := next; pending := [];
                opening_deadline := Some (opened + CONTROL_READ_TIMEOUT); last_activity := now;
                discarding := None |}] |>).

(** [Sessions::close]. *)
Definition close (index : nat) : ctl () :=
  session <-! cget (fun c => c.(sessions).(open) !! index) ;;
  match session with
  | None => cret ()
  | Some session =>
      cupdate (fun self => self <| open ::= delete index |>
        <| scan_start ::= fun start => if (index <? start)%nat then pred start else start |>) ;;!
      on_router (release_session session.(id))
  end.

(** The requests of one dispatch. *)
Fixpoint serve_requests (budget : nat) (index : nat) : ctl () :=
  match budget with
  | O => cret ()
  | S budget =>
      session <-! cget (fun c => c.(sessions).(open) !! index) ;;
      match session with
      | None => cret ()
      | Some session =>
          let '(framed, session) := next_request session in
          set_session index session ;;!
          match framed with
          | Incomplete => cret ()
          | Refused message =>
              answered <-! answer (Some session.(id)) None (ResponseError message) ;;
              (if decide (answered = Undelivered) then close index else serve_requests budget index)
          | Abandoned message =>
              answer (Some session.(id)) None (ResponseError message) ;;!
              close index
          | Line line =>
              now <-! ask_env env.(ce_now) ;;
              set_session index (session <| opening_deadline := None |> <| last_activity := now |>) ;;!
              answered <-! answer_line session.(id) line ;;
              (if decide (answered = Undelivered) then close index else serve_requests budget index)
          end
      end
  end.

Definition serve (index : nat) : ctl () :=
  cupdate (fun self => self <| scan_start := S index |>) ;;!
  session <-! cget (fun c => c.(sessions).(open) !! index) ;;
  match session with
  | None => cret ()
  | Some session =>
      if has_buffered_request session then serve_requests CONTROL_REQUESTS_PER_DISPATCH index
      else
        read <-! ask_env (fun n => env.(ce_read) n session.(id)) ;;
        match read with
        | ReadWouldBlock => cret ()
        | ReadFailed | ReadBytes [] => close index
        | ReadBytes chunk =>
            set_session index (session <| pending ::= fun l => l ++ chunk |>) ;;!
            serve_requests CONTROL_REQUESTS_PER_DISPATCH index
        end
  end.

(** The indexes whose time is up, the last first. *)
Definition expired (now : Z) (self : Sessions) : list nat :=
  rev (List.filter (fun index => match self.(open) !! index with
                                 | Some session => is_expired env.(ce_last) now lease_ttl session
                                 | None => false
                                 end) (seq 0 (length self.(open)))).

Fixpoint close_all (indexes : list nat) : ctl () :=
  match indexes with
  | [] => cret ()
  | index :: indexes => close index ;;! close_all indexes
  end.

Definition sweep : ctl () :=
  now <-! ask_env env.(ce_now) ;;
  indexes <-! cget (fun c => expired now c.(sessions)) ;;
  close_all indexes ;;!
  on_router reconcile.

(** [Iterator::min]. *)
Definition min_of (l : list Z) : option Z :=
  match l with [] => None | x :: l => Some (foldr Z.min x l) end.

(** [Sessions::next_deadline]. The clock is read only for a retry that is owed. *)
Definition next_deadline : ctl (option Z) :=
  self <-! cget sessions ;;
  let deadlines := omap (session_deadline env.(ce_last) lease_ttl) self.(open) in
  owed <-! cget (fun c => has_undesired c.(router)) ;;
  if owed : bool then
    now <-! ask_env env.(ce_now) ;;
    cret (min_of (deadlines ++ [now + RECONCILE_RETRY]))
  else cret (min_of deadlines).

(** *** The loop *)

(** What the loop does with an event; [false] ends it. *)
Definition on_event (event : ControlEvent) : ctl bool :=
  match event with
  | ControlShutdown | ShardFinished _ => cret false
  | AcceptedStream => accept ;;! cret true
  | AcceptFailed => cret true
  | Readable index => serve index ;;! cret true
  | Scrape => on_router (metrics pid) ;;! cret true
  | Deadline => sweep ;;! cret true
  end.

(** An event the loop can be woken by. *)
Definition may_wake (ready : Z -> bool) (self : Sessions) (event : ControlEvent) : Prop :=
  match event with Readable index => next_readable ready self = Some index | _ => True end.
End methods.
