(* ===== verification/ControlLeases.v ===== *)
(** * Leases and the answers that grant them

    What each handler of a session does to the leases of all sessions, and what it tells: the
    invariant [sound] of the sessions, the router and the log of answers, which every event of
    the control loop preserves; then the theorem about its runs. *)

From stdpp Require Import gmap sorting.
From S2P Require Import Prelude OrdMap Identity Descriptor Continuity Pool Session Limitless Pacing Connection QueueAge Supervisor ShardMarket Shard ShardDemand Daemon DaemonProps Router RouterLaws RouterInv RouterProps RouterExact DaemonRun Control.

Section control.
Context {F : Type} `{FL : !Fleet F} {L : FleetLaws F}.
Variable pid : Z.
Variable env : ControlEnv.
Variable lease_ttl : option Z.
Implicit Types (r : Router F) (c : Control F).

(** ** What a method leads to *)

Definition leads {A} (m : ctl A) c (Q : A -> Control F -> Prop) : Prop :=
  match m c with Some (a, c') => Q a c' | None => False end.

Lemma leads_mono {A} (m : ctl A) c (P Q : A -> Control F -> Prop) :
  leads m c P -> (forall a c', P a c' -> Q a c') -> leads m c Q.
Proof. unfold leads. destruct (m c) as [[a c']|]; auto. Qed.

Lemma leads_then {A B} (m : ctl A) (k : A -> ctl B) c P Q :
  leads m c P -> (forall a c', P a c' -> leads (k a) c' Q) -> leads (cbind m k) c Q.
Proof. unfold leads, cbind. destruct (m c) as [[a c']|]; [|done]. intros Hp Hk. exact (Hk a c' Hp). Qed.

Lemma leads_run {A} (m : ctl A) c Q : leads m c Q -> exists a c', m c = Some (a, c') /\ Q a c'.
Proof. unfold leads. destruct (m c) as [[a c']|]; [eauto|done]. Qed.

Lemma leads_get {A B} (f : Control F -> A) (k : A -> ctl B) c Q :
  leads (k (f c)) c Q -> leads (cbind (cget f) k) c Q.
Proof. done. Qed.

Lemma leads_router {A} (m : Router.prog A) c (P : A -> Router F -> Prop) (Q : A -> Control F -> Prop) :
  ends m c.(router) P -> (forall a r', P a r' -> Q a (c <| router := r' |>)) -> leads (on_router m) c Q.
Proof. unfold leads, ends, on_router. destruct (m c.(router)) as [[a r']|]; simpl; auto. Qed.

(** ** Leases *)

Definition leased_by r (s : Z) (k : bytes) : Prop := s ∈ (demand_of r k).(lessees).
#[global] Instance leased_by_dec r s k : Decision (leased_by r s k).
Proof. unfold leased_by. apply _. Defined.

(** One operation of the router: a step of its runs that changes the leases as it was asked. *)
Definition performed (op : operation) r (a : operation_answer) r' : Prop :=
  stepped r (asked op a) r' /\ router_step pid r r'.

Lemma ends_performed {A} op (m : Router.prog A) (h : A -> operation_answer) r : wf r ->
  perform pid op = pbind m (fun a => pret (h a)) -> ends m r (fun a r' => performed op r (h a) r').
Proof.
  intros Hr E. pose proof (perform_spec pid op r Hr) as H. destruct (ends_run _ _ _ H) as (a & r' & Ep & Hs).
  pose proof Ep as Ep'. rewrite E in Ep. unfold pbind, pret in Ep. unfold ends.
  destruct (m r) as [[b r1]|]; [|done]. simpl in Ep. injection Ep as <- <-. split; [done|by eapply step_perform].
Qed.

(** Router-only work of a handler: it answered nothing yet, and left the leases [P]. *)
Record routes c (P : Z -> bytes -> Prop) c' : Prop := {
  rt_sessions : c'.(sessions) = c.(sessions);
  rt_told : c'.(told) = c.(told);
  rt_wf : wf c'.(router);
  rt_run : rtc (router_step pid) c.(router) c'.(router);
  rt_leases : forall t k, leased_by c'.(router) t k <-> P t k
}.

Lemma routes_performed op c a r' (P : Z -> bytes -> Prop) : performed op c.(router) a r' ->
  (forall t k, t ∈ (asked op a k (demand_of c.(router) k)).(lessees) <-> P t k) ->
  routes c P (c <| router := r' |>).
Proof.
  intros [[_ _ Hw Hd _] Hs] HP. split; [done..|by apply rtc_once|].
  intros t k. unfold leased_by. cbn. by rewrite Hd, HP.
Qed.

Lemma routes_trans c c1 c2 P Q : routes c P c1 -> routes c1 Q c2 -> routes c Q c2.
Proof. intros [? ? ? ? _] [? ? ? ? ?]. split; [congruence|congruence|done|by etrans|done]. Qed.

Lemma routes_ext c c1 P Q : routes c P c1 -> (forall t k, P t k <-> Q t k) -> routes c Q c1.
Proof. intros [? ? ? ? H] HE. split; [done..|]. intros t k. by rewrite H. Qed.

Lemma routes_asked c P c' : routes c P c' -> routes c P (c' <| asked_env ::= S |>).
Proof. intros []. by split. Qed.

(** What an operation that leaves the leases alone does. *)
Definition leaves_leases (op : operation) : bool :=
  match op with OnLease _ _ | OnRelease _ _ | OnReleaseSession _ => false | _ => true end.

Lemma asked_leaves op a k d : leaves_leases op = true -> (asked op a k d).(lessees) = d.(lessees).
Proof.
  destruct op as [[]| | | | | | | |]; try done; intros _; cbn; [destruct a as [[]| | |]|]; try done.
  all: unfold unpinned, pinned_by, unmoved; by repeat case_match.
Qed.

Lemma routes_quiet {A} op (m : Router.prog A) (h : A -> operation_answer) c : wf c.(router) ->
  leaves_leases op = true -> perform pid op = pbind m (fun a => pret (h a)) ->
  leads (on_router m) c (fun _ c' => routes c (leased_by c.(router)) c').
Proof.
  intros Hw Hop E. eapply leads_router; [by eapply ends_performed|]. intros a r' Hp.
  eapply routes_performed; [exact Hp|]. intros t k. by rewrite asked_leaves.
Qed.

Lemma lessees_take s d t : t ∈ (take_lease s d).(lessees) <-> t = s \/ t ∈ d.(lessees).
Proof. unfold take_lease. cbn. set_solver. Qed.
Lemma lessees_drop s d t : t ∈ (drop_lease s d).(lessees) <-> t ∈ d.(lessees) /\ t <> s.
Proof. unfold drop_lease. cbn. set_solver. Qed.

Definition with_lease r s m : Z -> bytes -> Prop := fun t k => leased_by r t k \/ t = s /\ k = m.
Definition without_lease r s m : Z -> bytes -> Prop := fun t k => leased_by r t k /\ ~ (t = s /\ k = m).

Lemma only_take r s m t k : t ∈ (only m (take_lease s) k (demand_of r k)).(lessees) <-> with_lease r s m t k.
Proof.
  unfold only, with_lease, leased_by. case_decide as E; [subst|]; [|naive_solver].
  rewrite lessees_take. naive_solver.
Qed.
Lemma only_drop r s m t k : t ∈ (only m (drop_lease s) k (demand_of r k)).(lessees) <-> without_lease r s m t k.
Proof.
  unfold only, without_lease, leased_by. case_decide as E; [subst|]; [|naive_solver].
  rewrite lessees_drop. naive_solver.
Qed.

Lemma routes_lease s m c : wf c.(router) -> leads (on_router (Router.lease s m)) c (fun refusal c' =>
  routes c (match refusal with None => with_lease c.(router) s m | Some _ => without_lease c.(router) s m end) c').
Proof.
  intros Hw. eapply leads_router; [by eapply (ends_performed (OnLease s m))|]. intros [refusal|] r' Hp;
    (eapply routes_performed; [exact Hp|]); intros t k; [apply only_drop|apply only_take].
Qed.

Lemma routes_release s m c : wf c.(router) ->
  leads (on_router (Router.release s m)) c (fun _ c' => routes c (without_lease c.(router) s m) c').
Proof.
  intros Hw. eapply leads_router; [by eapply (ends_performed (OnRelease s m) _ (fun _ => Silent))|]. intros [] r' Hp.
  eapply routes_performed; [exact Hp|]. intros t k. apply only_drop.
Qed.

Lemma routes_release_session s c : wf c.(router) ->
  leads (on_router (release_session s)) c (fun _ c' => routes c (fun t k => leased_by c.(router) t k /\ t <> s) c').
Proof.
  intros Hw. eapply leads_router; [by eapply (ends_performed (OnReleaseSession s) _ (fun _ => Silent))|]. intros [] r' Hp.
  eapply routes_performed; [exact Hp|]. intros t k. cbn. apply lessees_drop.
Qed.

(** ** What was told *)

Inductive Verdict : Set := Granted | GivenUp | TurnedDown.
#[global] Instance Verdict_eq_dec : EqDecision Verdict.
Proof. solve_decision. Defined.

(** What the answer to a request says of the lease on a market. *)
Definition judge (k : bytes) (about : option ControlRequest) (response : ControlResponse) : option Verdict :=
  match about with
  | Some (RequestAttach m) =>
      if decide (m = k) then Some (match response with ResponseAttached _ => Granted | _ => TurnedDown end) else None
  | Some (RequestRelease m) =>
      if decide (m = k) then match response with ResponseReleased _ => Some GivenUp | _ => None end else None
  | _ => None
  end.

Definition verdict (s : Z) (k : bytes) (e : Told) : option Verdict :=
  if decide (e.(to_session) = Some s) then judge k e.(about) e.(response) else None.

(** What a verdict makes of a lease. *)
Definition decides (v : option Verdict) (before after : Prop) : Prop :=
  match v with
  | None => after <-> before
  | Some Granted => after
  | Some GivenUp => ~ after
  | Some TurnedDown => after -> before
  end.

(** One request of a session answered: the leases of the others stand, its own are as told. *)
Record did s c (d : Delivery) c' : Prop := {
  dd_sessions : c'.(sessions) = c.(sessions);
  dd_wf : wf c'.(router);
  dd_run : rtc (router_step pid) c.(router) c'.(router);
  dd_told : exists e, c'.(told) = e :: c.(told) /\ e.(to_session) = Some s /\ e.(delivery) = d /\
    (forall t k, t <> s -> leased_by c'.(router) t k <-> leased_by c.(router) t k) /\
    forall k, decides (verdict s k e) (leased_by c.(router) s k) (leased_by c'.(router) s k)
}.

(** The leases [P] are what an answer to [s] says. *)
Definition fits r s (about : option ControlRequest) (response : ControlResponse) (P : Z -> bytes -> Prop) : Prop :=
  (forall t k, t <> s -> P t k <-> leased_by r t k) /\
  forall k, decides (judge k about response) (leased_by r s k) (P s k).

Lemma routes_refl c : wf c.(router) -> routes c (leased_by c.(router)) c.
Proof. by split. Qed.

Lemma routes_then {A} (m : ctl A) c c1 P (Q : A -> Z -> bytes -> Prop) : routes c P c1 ->
  leads m c1 (fun a c' => routes c1 (Q a) c') -> leads m c1 (fun a c' => routes c (Q a) c').
Proof. intros H Hm. eapply leads_mono; [exact Hm|]. intros a c' Ha. exact (routes_trans _ _ _ _ _ H Ha). Qed.

(** Then an operation that leaves the leases alone. *)
Lemma routes_still {A} op (m : Router.prog A) (h : A -> operation_answer) c c1 P : routes c P c1 ->
  leaves_leases op = true -> perform pid op = pbind m (fun a => pret (h a)) ->
  leads (on_router m) c1 (fun _ c' => routes c P c').
Proof.
  intros H Hop E. eapply leads_mono; [by eapply routes_quiet; [apply H|..]|].
  intros a c' H'. eapply routes_ext; [exact (routes_trans _ _ _ _ _ H H')|]. apply H.
Qed.

Lemma record_told_did s about response written c c1 P : routes c P c1 ->
  fits c.(router) s about response P ->
  leads (record_told (Some s) about response written) c1 (did s c).
Proof.
  intros H [Hf1 Hf2]. eapply leads_then with (P := fun _ c' => routes c P c').
  { destruct written; [exact H|]. by apply (routes_still OnAbandonAnswer abandon_answer (fun _ => Silent) c c1 P H). }
  intros [] c2 [Hs Ht Hw Hr Hl]. unfold leads. split; [done..|]. eexists. split; [by cbn; rewrite Ht|].
  split; [done|]. split; [done|]. cbn. split; [intros; rewrite Hl; by apply Hf1|]. intros k. unfold verdict. rewrite decide_True by done.
  specialize (Hf2 k). cbn. destruct (judge k about response) as [[]|]; cbn in *; rewrite ?Hl; auto.
Qed.

Lemma answer_did s about response c c1 P : routes c P c1 -> fits c.(router) s about response P ->
  leads (answer env (Some s) about response) c1 (did s c).
Proof.
  intros H Hf. eapply (leads_then _ _ _ (fun _ c' => routes c P c')).
  - unfold leads, ask_env. by apply routes_asked.
  - intros written c2 H2. by eapply record_told_did.
Qed.

Lemma fits_same r s about response : (forall k, judge k about response = None \/ judge k about response = Some TurnedDown) ->
  fits r s about response (leased_by r).
Proof. intros H. split; [done|]. intros k. destruct (H k) as [-> | ->]; by cbn. Qed.

Lemma refuse_attach_did s m refusal c c1 P : routes c P c1 ->
  (forall t k, P t k <-> leased_by c.(router) t k) \/ (forall t k, P t k <-> without_lease c.(router) s m t k) ->
  (forall a, refusal <> ResponseAttached a) ->
  leads (refuse_attach env s m refusal) c1 (did s c).
Proof.
  intros H HP Hr. eapply leads_then; [by apply (routes_still OnRefuseAttachment refuse_attachment (fun _ => Silent) c c1 P H)|].
  intros [] c2 H2. eapply answer_did; [exact H2|]. unfold fits, judge.
  assert (Hj : match refusal with ResponseAttached _ => Granted | _ => TurnedDown end = TurnedDown).
  { destruct refusal; try done. by edestruct Hr. }
  split; intros.
  - destruct HP as [HP|HP]; rewrite HP; unfold without_lease; naive_solver.
  - rewrite Hj. destruct HP as [HP|HP]; case_decide; cbn; rewrite HP; unfold without_lease; naive_solver.
Qed.

Lemma lease_refusal s m r refusal r' a : Router.lease s m r = Some (Some refusal, r') -> refusal <> ResponseAttached a.
Proof.
  unfold Router.lease, pbind, pget, pupdate, pret. cbn -[Router.add Router.release]. case_bool_decide; [done|].
  destruct (Router.add [m] false _) as [[[outs|e] r1]|]; cbn -[Router.release]; [|destruct (Router.release s m r1) as [[[] r2]|]; cbn|done].
  - case_match; [done|]. destruct (Router.release s m r1) as [[[] r2]|]; cbn; [|done]. by intros [= <- _].
  - intros [= <- _]. by destruct e.
  - done.
Qed.

Lemma routes_lease' s m c : wf c.(router) -> leads (on_router (Router.lease s m)) c (fun refusal c' =>
  routes c (match refusal with None => with_lease c.(router) s m | Some _ => without_lease c.(router) s m end) c' /\
  forall x a, refusal = Some x -> x <> ResponseAttached a).
Proof.
  intros Hw. pose proof (routes_lease s m c Hw) as H. revert H. unfold leads, on_router.
  destruct (Router.lease s m c.(router)) as [[refusal r']|] eqn:E; cbn; [|done]. intros H. split; [exact H|].
  intros x a ->. by eapply lease_refusal.
Qed.

Lemma attach_leased_did s m c c1 : routes c (leased_by c.(router)) c1 ->
  leads (attach_leased env lease_ttl s m) c1 (did s c).
Proof.
  intros H. assert (Hl : forall t k, leased_by c1.(router) t k <-> leased_by c.(router) t k) by apply H.
  eapply leads_then; [apply routes_lease', H|]. intros [refusal|] c2 [H2 Hx]; cbn in H2.
  { eapply refuse_attach_did; [exact (routes_trans _ _ _ _ _ H H2)|right|intros a; by apply (Hx refusal a)].
    intros t k. unfold without_lease. by rewrite Hl. }
  clear Hx. assert (Hg : routes c (with_lease c.(router) s m) c2).
  { eapply routes_ext; [exact (routes_trans _ _ _ _ _ H H2)|]. intros t k. unfold with_lease. by rewrite Hl. }
  assert (Hback : forall A (k : () -> ctl A) Q, (forall c3, routes c (without_lease c.(router) s m) c3 -> leads (k ()) c3 Q) ->
    leads (cbind (on_router (Router.release s m)) k) c2 Q).
  { intros A k Q Hk. eapply leads_then; [apply routes_release, Hg|]. intros [] c3 H3. apply Hk.
    eapply routes_ext; [exact (routes_trans _ _ _ _ _ Hg H3)|]. intros t k'. unfold without_lease at 1.
    rewrite (rt_leases _ _ _ Hg). unfold with_lease, without_lease. naive_solver. }
  apply leads_get. destruct (attach_plan _ _) as [plan|status].
  - do 2 apply leads_get. destruct (segment_descriptor _ _).
    + eapply (leads_then _ _ _ (fun _ c' => routes c (with_lease c.(router) s m) c')); [by apply routes_asked|].
      intros written c3 H3. eapply (leads_then _ _ _ (fun _ c' => routes c (with_lease c.(router) s m) c')).
      { destruct written; [|exact H3].
        by apply (routes_still (OnRecordAttachment (ap_shard plan)) _ (fun _ => Silent) c c3 _ H3). }
      intros [] c4 H4. eapply record_told_did; [exact H4|]. unfold fits, with_lease, judge. split; [naive_solver|].
      intros k. case_decide; cbn; naive_solver.
    + apply Hback. intros c3 H3. eapply refuse_attach_did; [exact H3|by right|done].
  - apply Hback. intros c3 H3. eapply refuse_attach_did; [exact H3|by right|done].
Qed.

Lemma attach_did s m c : wf c.(router) -> leads (attach env lease_ttl s m) c (did s c).
Proof.
  intros Hw. eapply (leads_then _ _ _ (fun _ c' => routes c (leased_by c.(router)) c')).
  { apply routes_asked. by apply routes_refl. }
  intros [peer|error] c1 H1.
  - unfold foreign_peer_refusal. destruct (_ =? peer); [|eapply refuse_attach_did; [exact H1|by left|done]].
    destruct (negb _); [eapply refuse_attach_did; [exact H1|by left|done]|by apply attach_leased_did].
  - eapply refuse_attach_did; [exact H1|by left|done].
Qed.

Lemma release_did s m c : wf c.(router) -> leads (release env s m) c (did s c).
Proof.
  intros Hw. unfold release. case_match.
  - eapply answer_did; [by apply routes_refl|]. apply fits_same. intros k. cbn. case_decide; auto.
  - eapply leads_then; [by apply routes_release|]. intros [] c1 H1. apply leads_get. eapply answer_did; [exact H1|].
    unfold fits, without_lease, judge. split; [naive_solver|]. intros k. case_decide; cbn; naive_solver.
Qed.

Lemma answer_line_did s line c : wf c.(router) -> leads (answer_line pid env lease_ttl s line) c (did s c).
Proof.
  intros Hw. unfold answer_line.
  assert (Hsame : forall about response, (forall k, judge k about response = None) ->
    leads (answer env (Some s) about response) c (did s c)).
  { intros about response Hj. eapply answer_did; [by apply routes_refl|]. apply fits_same. intros k. left. apply Hj. }
  assert (Happly : forall request, (forall k response, judge k (Some request) response = None) ->
    leads (cbind (on_router (apply pid request)) (fun response => answer env (Some s) (Some request) response)) c (did s c)).
  { intros request Hj. eapply leads_then; [by apply (routes_quiet (OnRequest request) _ Answered)|].
    intros response c1 H1. eapply answer_did; [exact H1|]. apply fits_same. intros k. left. apply Hj. }
  destruct (ce_parse env line) as [[slugs|slugs|after|m|m|]|error]; try (by apply Happly); try by apply Hsame.
  - by apply attach_did.
  - by apply release_did.
Qed.
End control.
