(* ===== verification/ControlProps.v ===== *)
(** * The control loop

    The invariant of the sessions, the router and the log of answers, preserved by every event
    of the loop, and how an event moves the rotation that serves the sessions; then the
    theorems: leases are what was answered, and a session with work is reached. *)

From stdpp Require Import gmap sorting.
From S2P Require Import Prelude OrdMap Identity Descriptor Continuity Pool Session Limitless Pacing Connection QueueAge Supervisor ShardMarket Shard ShardDemand Daemon DaemonProps Router RouterLaws RouterInv RouterProps RouterExact DaemonRun Control ControlLeases.

(** ** The log *)

(** The last verdict on a lease is that it was granted. *)
Definition last_granted (log : list Told) (s : Z) (k : bytes) : Prop :=
  head (omap (verdict s k) log) = Some Granted.
(** It was granted, and not given up since. *)
Definition granted_since (log : list Told) (s : Z) (k : bytes) : Prop :=
  head (filter (fun v => v <> TurnedDown) (omap (verdict s k) log)) = Some Granted.

Lemma log_other (log : list Told) e s k : verdict s k e = None ->
  (last_granted (e :: log) s k <-> last_granted log s k) /\ (granted_since (e :: log) s k <-> granted_since log s k).
Proof. unfold last_granted, granted_since. cbn. by intros ->. Qed.

Lemma delete_distinct (l : list Z) i x : NoDup l -> l !! i = Some x ->
  NoDup (delete i l) /\ length (delete i l) = pred (length l) /\ forall y, y ∈ delete i l <-> y ∈ l /\ y <> x.
Proof.
  intros Hn E. pose proof (delete_Permutation _ _ _ E) as H. rewrite H in Hn. apply NoDup_cons in Hn as [Hx Hn].
  split; [done|]. split; [by rewrite (Permutation_length H)|]. intros y. rewrite (elem_of_Permutation_proper y _ _ H), elem_of_cons. split; [|naive_solver].
  intros Hy. split; [by right|]. by intros ->.
Qed.

(** ** Places in the rotation *)

Definition ids (p : Sessions) : list Z := id <$> p.(open).

(** The sessions stay where they are, or the one at [j] is closed. *)
Definition places (j : nat) (p q : Sessions) : Prop :=
  q.(next_id) = p.(next_id) /\ q.(max_sessions) = p.(max_sessions) /\
  (ids q = ids p /\ q.(scan_start) = p.(scan_start) \/
   (j < length (ids p))%nat /\ ids q = delete j (ids p) /\
   q.(scan_start) = if (j <? p.(scan_start))%nat then pred p.(scan_start) else p.(scan_start)).

Definition same_places (p q : Sessions) : Prop :=
  q.(next_id) = p.(next_id) /\ q.(max_sessions) = p.(max_sessions) /\ ids q = ids p /\ q.(scan_start) = p.(scan_start).

Lemma same_then_places j p q o : same_places p q -> places j q o -> places j p o.
Proof. intros (E1 & E2 & E3 & E4). unfold places. by rewrite E1, E2, E3, E4. Qed.

Lemma same_is_places j p q : same_places p q -> places j p q.
Proof. intros (E1 & E2 & E3 & E4). unfold places. auto. Qed.

(** How many places the scan passes before the one at [i], of [n], starting at [start]. *)
Definition ahead (start n i : nat) : nat := if (start <=? i)%nat then (i - start)%nat else (i + n - start)%nat.

Lemma ahead_place start n i : (start <= n)%nat -> (i < n)%nat ->
  ((start mod n + ahead start n i) mod n = i)%nat /\ (ahead start n i < n)%nat.
Proof.
  intros Hs Hi. unfold ahead. destruct (decide (start = n)) as [->|Hne].
  - rewrite Nat.Div0.mod_same. destruct (Nat.leb_spec n i); [lia|]. replace (0 + (i + n - n))%nat with i by lia.
    split; [by apply Nat.mod_small|lia].
  - rewrite (Nat.mod_small start n) by lia. destruct (Nat.leb_spec start i).
    + replace (start + (i - start))%nat with i by lia. split; [by apply Nat.mod_small|lia].
    + replace (start + (i + n - start))%nat with (i + 1 * n)%nat by lia. rewrite Nat.Div0.mod_add.
      split; [by apply Nat.mod_small|lia].
Qed.

Lemma place_ahead start n o : (start <= n)%nat -> (o < n)%nat -> ahead start n ((start mod n + o) mod n) = o.
Proof.
  intros Hs Ho. unfold ahead. destruct (decide (start = n)) as [->|Hne].
  - rewrite Nat.Div0.mod_same, (Nat.mod_small (0 + o)) by lia. destruct (Nat.leb_spec n (0 + o)); lia.
  - rewrite (Nat.mod_small start n) by lia. destruct (decide (start + o < n)%nat).
    + rewrite Nat.mod_small by lia. destruct (Nat.leb_spec start (start + o)); lia.
    + replace (start + o)%nat with ((start + o - n) + 1 * n)%nat by lia. rewrite Nat.Div0.mod_add, Nat.mod_small by lia.
      destruct (Nat.leb_spec start (start + o - n)); lia.
Qed.

Lemma find_first (f : nat -> bool) s n o : List.find f (seq s n) = Some o ->
  f o = true /\ (s <= o < s + n)%nat /\ forall o', (s <= o' < o)%nat -> f o' = false.
Proof.
  revert s. induction n as [|n IH]; intros s; cbn; [done|]. destruct (f s) eqn:E.
  - intros [= <-]. split; [done|]. split; [lia|]. intros; lia.
  - intros (Hf & Hr & Hb)%IH. split; [done|]. split; [lia|]. intros o' Ho'.
    destruct (decide (o' = s)) as [->|]; [done|]. apply Hb. lia.
Qed.

(** The scan finds a session with work, and none with work before it. *)
Lemma next_readable_first ready p j : (p.(scan_start) <= length p.(open))%nat -> next_readable ready p = Some j ->
  (j < length p.(open))%nat /\ forall i session, p.(open) !! i = Some session -> has_work ready session = true ->
    (ahead p.(scan_start) (length p.(open)) j <= ahead p.(scan_start) (length p.(open)) i)%nat.
Proof.
  intros Hs. unfold next_readable. destruct (length p.(open)) as [|n'] eqn:En; [done|]. rewrite <- En in *.
  destruct (List.find _ _) as [o|] eqn:E; [|done]. intros [= <-]. apply find_first in E as (_ & Ho & Hb).
  split; [apply Nat.mod_upper_bound; lia|]. intros i session Hi Hw. rewrite place_ahead by lia.
  pose proof (lookup_lt_Some _ _ _ Hi) as Hlt. destruct (ahead_place _ _ i Hs Hlt) as [Ep Hlt'].
  destruct (decide (ahead p.(scan_start) (length p.(open)) i < o)%nat); [|lia].
  specialize (Hb _ ltac:(split; [lia|done])). cbn in Hb. rewrite Ep, Hi in Hb. congruence.
Qed.

(** What an event makes of the places. *)
Definition turned (event : ControlEvent) (p q : Sessions) : Prop :=
  match event with
  | Readable j => places j (p <| scan_start := S j |>) q
  | AcceptedStream => same_places p q \/
      exists s, ids q = ids p ++ [s] /\ q.(scan_start) = p.(scan_start) /\
        q.(max_sessions) = p.(max_sessions) /\ q.(next_id) = p.(next_id) + 1
  | Deadline => rtc (fun p q => exists j, places j p q) p q
  | _ => same_places p q
  end.

(** Where a session stands after another is closed. *)
Lemma places_ahead j p q x i : NoDup (ids p) -> places j p q -> (p.(scan_start) <= length (ids p))%nat ->
  ids p !! i = Some x -> x ∈ ids q ->
  NoDup (ids q) /\ (q.(scan_start) <= length (ids q))%nat /\ exists i', ids q !! i' = Some x /\
    (ahead q.(scan_start) (length (ids q)) i' <= ahead p.(scan_start) (length (ids p)) i)%nat.
Proof.
  intros Hn (_ & _ & [[Ei Es]|(Hj & Ei & Es)]) Hs Hi Hx.
  { rewrite Ei, Es. eauto. }
  destruct (lookup_lt_is_Some_2 _ _ Hj) as [y Hy]. destruct (delete_distinct _ _ _ Hn Hy) as (Hnd & Hl & Hin).
  rewrite Ei in *. destruct (proj1 (Hin x) Hx) as [_ Hxy].
  assert (Hij : i <> j) by (intros ->; rewrite Hi in Hy; by injection Hy as ->).
  pose proof (lookup_lt_Some _ _ _ Hi). split; [done|]. rewrite Hl, Es. split.
  { destruct (Nat.ltb_spec j p.(scan_start)); lia. }
  exists (if (j <? i)%nat then pred i else i). split.
  - destruct (Nat.ltb_spec j i); [rewrite list_lookup_delete_ge by lia|rewrite list_lookup_delete_lt by lia; done].
    by replace (S (pred i)) with i by lia.
  - unfold ahead. repeat match goal with |- context [(?a <? ?b)%nat] => destruct (Nat.ltb_spec a b)
      | |- context [(?a <=? ?b)%nat] => destruct (Nat.leb_spec a b) end; lia.
Qed.

(** How an event moves the scan past a session that stays and is not the one served: every
    session served brings it nearer, only a new connection can push it back, by one place. *)
Lemma turned_ahead event p q x i : NoDup (ids p) -> (p.(scan_start) <= length (ids p))%nat -> turned event p q ->
  ids p !! i = Some x -> x ∈ ids q ->
  match event with
  | Readable j => (j < length (ids p))%nat /\ j <> i /\
      (ahead p.(scan_start) (length (ids p)) j <= ahead p.(scan_start) (length (ids p)) i)%nat
  | _ => True
  end ->
  exists i', ids q !! i' = Some x /\
    ((match event with Readable _ => 1 | _ => 0 end) + ahead q.(scan_start) (length (ids q)) i' <=
     ahead p.(scan_start) (length (ids p)) i + match event with AcceptedStream => 1 | _ => 0 end)%nat.
Proof.
  intros Hn Hs Ht Hi Hx Hr. pose proof (lookup_lt_Some _ _ _ Hi) as Hlt.
  assert (Hsame : same_places p q -> exists i', ids q !! i' = Some x /\
    (ahead q.(scan_start) (length (ids q)) i' <= ahead p.(scan_start) (length (ids p)) i)%nat).
  { intros (_ & _ & -> & ->). eauto. }
  destruct event as [|n| | |j| |]; cbn in Ht; cbn [Nat.add].
  1,2,4,6: destruct (Hsame Ht) as (i' & ? & ?); exists i'; split; [done|lia].
  - destruct Ht as [Ht|(s & Ei & Es & _)]; [destruct (Hsame Ht) as (i' & ? & ?); exists i'; split; [done|lia]|].
    exists i. rewrite Ei, Es, lookup_app_l, length_app by done. split; [done|]. cbn. unfold ahead.
    destruct (Nat.leb_spec p.(scan_start) i); lia.
  - destruct Hr as (Hj & Hji & Ha). set (p1 := p <| scan_start := S j |>).
    destruct (places_ahead j p1 q x i) as (_ & _ & i' & Ei' & Hle); [done|done|change (S j <= length (ids p))%nat; lia|done|done|].
    exists i'. split; [done|]. change (ids p1) with (ids p) in Hle. change (scan_start p1) with (S j) in Hle. revert Ha Hle. unfold ahead.
    repeat match goal with |- context [(?a <=? ?b)%nat] => destruct (Nat.leb_spec a b) end; lia.
  - clear Hsame Hr. cut (exists i', ids q !! i' = Some x /\
      (ahead q.(scan_start) (length (ids q)) i' <= ahead p.(scan_start) (length (ids p)) i)%nat).
    { intros (i' & ? & ?). exists i'. split; [done|lia]. }
    clear Hlt. revert i Hi. induction Ht as [p|p p1 q [j Hp] Ht IH]; intros i Hi; [by eauto|].
    assert (Hx1 : x ∈ ids p1).
    { clear -Ht Hx. induction Ht as [|p p1 q [j (_ & _ & Hp)] _ IH]; [done|]. specialize (IH Hx).
      destruct Hp as [[<- _]|(_ & E & _)]; [done|]. rewrite E in IH. by eapply list_elem_of_delete_inv. }
    destruct (places_ahead j p p1 x i Hn Hp Hs Hi Hx1) as (Hn1 & Hs1 & i1 & Hi1 & Hle).
    destruct (IH Hn1 Hs1 Hx i1 Hi1) as (i' & Hi' & Hle'). exists i'. split; [done|lia].
Qed.

Section control.
Context {F : Type} `{FL : !Fleet F} {L : FleetLaws F}.
Variable pid : Z.
Variable env : ControlEnv.
Variable lease_ttl : option Z.
Implicit Types (r : Router F) (c : Control F).

(** ** The invariant *)

Record sound c : Prop := {
  sd_wf : wf c.(router);
  sd_distinct : NoDup (ids c.(sessions));
  sd_known : forall s, s ∈ ids c.(sessions) -> s <= c.(sessions).(next_id);
  sd_scan : (c.(sessions).(scan_start) <= length (ids c.(sessions)))%nat;
  sd_room : len (ids c.(sessions)) <= c.(sessions).(max_sessions);
  sd_open : forall s k, leased_by c.(router) s k -> s ∈ ids c.(sessions);
  sd_told : forall e s, e ∈ c.(told) -> e.(to_session) = Some s -> s <= c.(sessions).(next_id);
  sd_granted : forall s k, leased_by c.(router) s k -> granted_since c.(told) s k;
  sd_kept : forall s k, s ∈ ids c.(sessions) -> last_granted c.(told) s k -> leased_by c.(router) s k
}.

(** Sound again, by operations of the router. *)
Definition goes c c' : Prop := sound c' /\ rtc (router_step pid) c.(router) c'.(router).

Lemma goes_trans c c1 c2 : goes c c1 -> goes c1 c2 -> goes c c2.
Proof. intros [_ H1] [H2 H3]. split; [done|by etrans]. Qed.

Lemma sound_asked c : sound c -> sound (c <| asked_env ::= S |>).
Proof. intros []. by split. Qed.

(** The sessions alone. *)
Lemma sound_places c f : sound c -> same_places c.(sessions) (f c.(sessions)) -> sound (c <| sessions ::= f |>).
Proof. intros [] (E1 & E2 & E3 & E4). split; cbn; rewrite ?E1, ?E2, ?E3, ?E4; auto. Qed.

Lemma insert_places p index session session' : p.(open) !! index = Some session -> session'.(id) = session.(id) ->
  same_places p (p <| open ::= <[index := session']> |>).
Proof.
  intros E Ei. split_and!; [done..| |done]. unfold ids. cbn. rewrite list_fmap_insert, Ei.
  apply list_insert_id. by rewrite list_lookup_fmap, E.
Qed.

Lemma did_sound s c d c' : sound c -> s ∈ ids c.(sessions) -> did pid s c d c' -> goes c c'.
Proof.
  intros [] Hs [Ep Hw Hr (e & Et & Ee & _ & Ho & Hv)]. split; [|exact Hr].
  assert (Hoth : forall t k, t <> s -> verdict t k e = None).
  { intros t k Ht. unfold verdict. rewrite decide_False; [done|]. rewrite Ee. congruence. }
  split; rewrite ?Ep; try done.
  - intros t k Hl. destruct (decide (t = s)) as [->|Ht]; [done|]. apply Ho in Hl; eauto.
  - intros e' t. rewrite Et, elem_of_cons. intros [->|H] E; [|by eauto]. rewrite Ee in E. injection E as <-. by apply sd_known0.
  - intros t k Hl. rewrite Et. destruct (decide (t = s)) as [->|Ht].
    + specialize (Hv k). unfold granted_since. cbn. destruct (verdict s k e) as [[]|] eqn:E; cbn in Hv; cbn.
      * done.
      * done.
      * by apply sd_granted0, Hv.
      * by apply sd_granted0, Hv.
    + apply (log_other _ _ _ _ (Hoth t k Ht)), sd_granted0. by apply Ho.
  - intros t k Hi. rewrite Et. destruct (decide (t = s)) as [->|Ht].
    + specialize (Hv k). unfold last_granted. cbn. destruct (verdict s k e) as [[]|] eqn:E; cbn in Hv; cbn; try done.
      intros H. by apply Hv, sd_kept0.
    + intros H. apply Ho; [done|]. apply sd_kept0; [done|]. by apply (log_other _ _ _ _ (Hoth t k Ht)).
Qed.

Lemma close_goes index c : sound c ->
  leads (close index) c (fun _ c' => goes c c' /\ places index c.(sessions) c'.(sessions)).
Proof.
  intros Hc. unfold close. apply leads_get. destruct (c.(sessions).(open) !! index) as [session|] eqn:E.
  2:{ split; [by split|]. by apply same_is_places. }
  set (p := c.(sessions) <| open ::= delete index |>
        <| scan_start ::= fun start => if (index <? start)%nat then pred start else start |>).
  assert (Ei : ids c.(sessions) !! index = Some session.(id)) by (unfold ids; by rewrite list_lookup_fmap, E).
  assert (Ep : ids p = delete index (ids c.(sessions))) by (unfold ids, p; cbn; apply list_fmap_delete).
  assert (Hlt : (index < length (ids c.(sessions)))%nat) by (by apply lookup_lt_Some in Ei).
  destruct (delete_distinct _ _ _ (sd_distinct _ Hc) Ei) as (Hnd & Hlen & Hin). rewrite <- Ep in Hnd, Hlen, Hin.
  eapply leads_then with (P := fun _ c1 => c1 = c <| sessions := p |>); [done|].
  intros [] c1 ->. assert (Esc : p.(scan_start) = if (index <? c.(sessions).(scan_start))%nat
    then pred c.(sessions).(scan_start) else c.(sessions).(scan_start)) by done.
  assert (En : p.(next_id) = c.(sessions).(next_id)) by done.
  assert (Em : p.(max_sessions) = c.(sessions).(max_sessions)) by done. clearbody p.
  eapply leads_mono; [apply (routes_release_session pid); cbn; apply Hc|].
  intros [] c2 [Es Et Hw Hr Hl]. cbn in Es, Et, Hr, Hl. unfold const in Es.
  split; [split; [|exact Hr]|rewrite Es; split; [done|]; split; [done|]; by right].
  destruct Hc. split; rewrite ?Es, ?Et, ?En, ?Em; try done.
  - intros s Hs. by apply sd_known0, Hin.
  - rewrite Hlen, Esc. case_match eqn:Hi; [apply Nat.ltb_lt in Hi|apply Nat.ltb_ge in Hi]; lia.
  - unfold len in *. rewrite Hlen. lia.
  - intros s k Hs. apply Hl in Hs as [Hs Hne]. apply Hin. eauto.
  - intros s k Hs. apply sd_granted0. by apply (proj1 (Hl s k)).
  - intros s k Hs Hg. apply Hin in Hs as [Hs Hne]. apply Hl. eauto.
Qed.

(** On from a state with the same places. *)
Lemma goes_on {A} (m : ctl A) c c1 j : goes c c1 -> same_places c.(sessions) c1.(sessions) ->
  leads m c1 (fun _ c' => goes c1 c' /\ places j c1.(sessions) c'.(sessions)) ->
  leads m c1 (fun _ c' => goes c c' /\ places j c.(sessions) c'.(sessions)).
Proof.
  intros Hg Hs Hm. eapply leads_mono; [exact Hm|]. intros a c' [Hg' Hp].
  split; [by eapply goes_trans|by eapply same_then_places].
Qed.

Lemma set_session_goes index session session' c : sound c -> c.(sessions).(open) !! index = Some session ->
  session'.(id) = session.(id) -> leads (set_session index session') c (fun _ c' =>
    goes c c' /\ same_places c.(sessions) c'.(sessions) /\ c'.(sessions).(open) !! index = Some session').
Proof.
  intros Hc E Ei. pose proof (insert_places _ _ _ _ E Ei) as Hp. split_and!.
  - split; [|done]. by apply sound_places.
  - exact Hp.
  - cbn. apply list_lookup_insert_eq. by apply lookup_lt_Some in E.
Qed.

Lemma next_request_id session : (next_request session).2.(id) = session.(id).
Proof. unfold next_request, frame_front. by repeat case_match. Qed.

Lemma serve_requests_goes budget index c : sound c -> leads (serve_requests pid env lease_ttl budget index) c
  (fun _ c' => goes c c' /\ places index c.(sessions) c'.(sessions)).
Proof.
  revert c. induction budget as [|budget IH]; intros c Hc; cbn [serve_requests].
  { split; [by split|by apply same_is_places]. }
  apply leads_get. destruct (_ !! index) as [session|] eqn:E; [|split; [by split|by apply same_is_places]].
  pose proof (next_request_id session) as Ei. destruct (next_request session) as [framed session']. cbn in Ei.
  eapply leads_then; [by eapply set_session_goes|]. intros [] c1 (Hg1 & Hs1 & E1).
  assert (Hin : session'.(id) ∈ ids c1.(sessions)).
  { apply (list_elem_of_lookup_2 _ index). unfold ids. by rewrite list_lookup_fmap, E1. }
  assert (Hon : forall c2 d, did pid session'.(id) c1 d c2 -> goes c c2 /\ same_places c.(sessions) c2.(sessions)).
  { intros c2 d Hd. split; [eapply goes_trans; [exact Hg1|]; eapply did_sound; [apply Hg1|done|done]|].
    by rewrite (dd_sessions _ _ _ _ _ Hd). }
  assert (Htail : forall c2 d, goes c c2 -> same_places c.(sessions) c2.(sessions) ->
    leads (if decide (d = Undelivered) then close index else serve_requests pid env lease_ttl budget index) c2
      (fun _ c' => goes c c' /\ places index c.(sessions) c'.(sessions))).
  { intros c2 d Hg Hp. eapply goes_on; [done|done|]. case_decide; [by apply close_goes, Hg|by apply IH, Hg]. }
  destruct framed as [line| |message|message].
  - eapply leads_then with (P := fun _ c2 => c2 = c1 <| asked_env ::= S |>); [done|]. intros now c2 ->.
    assert (Hg2 : goes c (c1 <| asked_env ::= S |>)) by (split; [apply sound_asked, Hg1|apply Hg1]).
    eapply leads_then; [eapply set_session_goes; [apply Hg2|exact E1|done]|]. cbn. intros [] c3 (Hg3 & Hs3 & E3).
    eapply leads_then; [apply answer_line_did, Hg3|]. intros d c4 Hd. eapply Htail.
    + eapply goes_trans; [exact Hg2|]. eapply goes_trans; [exact Hg3|]. eapply did_sound; [apply Hg3| |done].
      destruct Hs3 as (_ & _ & -> & _). done.
    + rewrite (dd_sessions _ _ _ _ _ Hd). destruct Hs1 as (?&?&?&?), Hs3 as (?&?&?&?). unfold same_places. split_and!; congruence.
  - split; [done|by apply same_is_places].
  - eapply leads_then; [eapply answer_did; [apply routes_refl, Hg1|by apply fits_same; left]|].
    intros d c2 Hd. by eapply Htail; apply (Hon _ _ Hd).
  - eapply leads_then; [eapply answer_did; [apply routes_refl, Hg1|by apply fits_same; left]|].
    intros d c2 Hd. destruct (Hon _ _ Hd) as [Hg Hp]. eapply goes_on; [done|done|]. apply close_goes, Hg.
Qed.
(** ** Events *)

Lemma serve_goes j c : sound c -> (j < length (ids c.(sessions)))%nat ->
  leads (serve pid env lease_ttl j) c (fun _ c' => goes c c' /\ turned (Readable j) c.(sessions) c'.(sessions)).
Proof.
  intros Hc Hj. set (c1 := c <| sessions ::= fun self => self <| scan_start := S j |> |>).
  assert (H1 : sound c1) by (destruct Hc; by split).
  assert (Hgo : goes c c1) by by split.
  assert (Htail : forall A (m : ctl A) c2, goes c c2 -> same_places c1.(sessions) c2.(sessions) ->
    (sound c2 -> leads m c2 (fun _ c' => goes c2 c' /\ places j c2.(sessions) c'.(sessions))) ->
    leads m c2 (fun _ c' => goes c c' /\ turned (Readable j) c.(sessions) c'.(sessions))).
  { intros A m c2 Hg Hs Hm. eapply leads_mono; [apply Hm, Hg|]. intros a c' [Hg' Hp].
    split; [exact (goes_trans _ _ _ Hg Hg')|]. cbn. by eapply same_then_places. }
  eapply leads_then with (P := fun _ c2 => c2 = c1); [done|]. intros [] c2 ->.
  apply leads_get. destruct (_ !! j) as [session|] eqn:E.
  2:{ split; [done|]. by apply same_is_places. }
  destruct (has_buffered_request session).
  { apply Htail; [done|done|]. apply serve_requests_goes. }
  set (c3 := c1 <| asked_env ::= S |>). assert (H3 : goes c c3) by (split; [by apply sound_asked|done]).
  eapply leads_then with (P := fun _ c2 => c2 = c3); [done|]. intros read c2 ->. destruct read as [[|b chunk]| |].
  - apply Htail; [done|done|]. apply close_goes.
  - eapply leads_then; [eapply set_session_goes; [apply H3|exact E|done]|]. intros [] c4 (Hg4 & Hs4 & _).
    apply Htail; [exact (goes_trans _ _ _ H3 Hg4)|done|]. apply serve_requests_goes.
  - split; [done|]. by apply same_is_places.
  - apply Htail; [done|done|]. apply close_goes.
Qed.

Lemma accept_goes c : sound c -> c.(sessions).(next_id) < U64_MAX ->
  leads (accept env) c (fun _ c' => goes c c' /\ turned AcceptedStream c.(sessions) c'.(sessions)).
Proof.
  intros Hc Hn. unfold accept. apply leads_get. case_match eqn:Hroom.
  - unfold answer. set (c1 := c <| asked_env ::= S |>). assert (H1 : goes c c1) by (split; [by apply sound_asked|done]).
    eapply leads_then with (P := fun _ c' => goes c c' /\ same_places c.(sessions) c'.(sessions)).
    + eapply leads_then with (P := fun _ c' => c' = c1); [done|]. intros written c2 ->. unfold record_told.
      eapply leads_then with (P := fun _ c2 => goes c c2 /\ c2.(sessions) = c.(sessions)).
      * destruct written; [done|]. eapply leads_mono; [apply (routes_quiet pid OnAbandonAnswer abandon_answer (fun _ => Silent)); [apply Hc|done..]|].
        intros a c2 [Es Et Hw Hr Hl]. split; [split; [|exact Hr]|by rewrite Es]. destruct Hc.
        split; rewrite ?Es, ?Et; try done; intros; rewrite Hl in *; cbn in *; eauto.
      * intros [] c2 [[[] Hr] Es]. unfold leads. split; [split; [|done]|]; [split; cbn; try done|by cbn; rewrite Es].
        intros e s [->|H]%elem_of_cons; [done|eauto].
    + intros d c2 [Hg Hs]. split; [done|by left].
  - eapply leads_then with (P := fun _ c2 => goes c c2 /\ c2.(sessions) = c.(sessions)).
    { split; [split; [by apply sound_asked|done]|done]. }
    intros opened c1 [Hg1 Es1]. eapply leads_then with (P := fun _ c2 => goes c c2 /\ c2.(sessions) = c.(sessions)).
    { split; [split; [apply sound_asked, Hg1|apply Hg1]|done]. }
    intros now c2 [[H2 Hr2] Es2]. apply Z.leb_gt in Hroom. 
    assert (En : Z.min U64_MAX (c.(sessions).(next_id) + 1) = c.(sessions).(next_id) + 1) by lia.
    unfold leads, cupdate. match goal with |- context [c2 <| sessions ::= ?f |>] =>
      set (q := f c2.(sessions)); change (c2 <| sessions ::= f |>) with (c2 <| sessions := q |>) end.
    assert (Ei : ids q = ids c.(sessions) ++ [c.(sessions).(next_id) + 1])
      by (unfold q, ids; rewrite Es2; cbn; rewrite fmap_app; cbn; unfold saturating_add_u64; by rewrite En).
    assert (Eq : q.(next_id) = c.(sessions).(next_id) + 1)
      by (unfold q; rewrite Es2; cbn; unfold saturating_add_u64; by rewrite En).
    assert (Esc : q.(scan_start) = c.(sessions).(scan_start)) by (unfold q; by rewrite Es2).
    assert (Em : q.(max_sessions) = c.(sessions).(max_sessions)) by (unfold q; by rewrite Es2). clearbody q.
    split; [split; [|exact Hr2]|right; by exists (c.(sessions).(next_id) + 1)].
    destruct H2. rewrite Es2 in *. split; cbn; unfold const; rewrite ?Ei, ?Eq, ?Esc, ?Em.
    + done.
    + apply NoDup_app. split; [done|]. split; [|by apply NoDup_singleton].
      intros s Hs ->%list_elem_of_singleton. apply sd_known0 in Hs. lia.
    + intros s [Hs| ->%list_elem_of_singleton]%elem_of_app; [apply sd_known0 in Hs|]; lia.
    + rewrite length_app. lia.
    + rewrite len_app. unfold ids, len in *. rewrite length_fmap in *. cbn in *. lia.
    + intros s k Hs. apply elem_of_app. left. eauto.
    + intros e s He Hs. specialize (sd_told0 e s He Hs). lia.
    + done.
    + intros s k [Hs| ->%list_elem_of_singleton]%elem_of_app; [by apply sd_kept0|]. intros Hg. exfalso.
      unfold last_granted in Hg. destruct (omap _ _) as [|v l] eqn:E; [done|].
      assert (Hv : v ∈ omap (verdict (next_id (sessions c) + 1) k) (told c2)) by (rewrite E; left).
      apply list_elem_of_omap in Hv as (e & He & Hv). unfold verdict in Hv. case_decide as Ht; [|done].
      specialize (sd_told0 e _ He Ht). lia.
Qed.

Lemma close_all_goes indexes c : sound c -> leads (close_all indexes) c (fun _ c' =>
  goes c c' /\ rtc (fun p q => exists j, places j p q) c.(sessions) c'.(sessions)).
Proof.
  revert c. induction indexes as [|j indexes IH]; intros c Hc; cbn [close_all]; [by split; [split|]|].
  eapply leads_then; [by apply close_goes|]. intros [] c1 [Hg Hp].
  eapply leads_mono; [apply IH, Hg|]. intros [] c2 [Hg2 Hp2].
  split; [by eapply goes_trans|]. eapply rtc_l; [by exists j|done].
Qed.

(** Work of the router that leaves the leases alone. *)
Lemma quiet_goes {A} op (m : Router.prog A) (h : A -> operation_answer) c : sound c -> leaves_leases op = true ->
  perform pid op = pbind m (fun a => pret (h a)) ->
  leads (on_router m) c (fun _ c' => goes c c' /\ c'.(sessions) = c.(sessions)).
Proof.
  intros Hc Hop E. eapply leads_mono; [eapply (routes_quiet pid op m h); [apply Hc|done..]|].
  intros a c2 [Es Et Hw Hr Hl]. split; [split; [|exact Hr]|done]. destruct Hc.
  split; rewrite ?Es, ?Et; try done; intros; rewrite Hl in *; eauto.
Qed.

Lemma event_goes event c : sound c -> c.(sessions).(next_id) < U64_MAX ->
  match event with Readable j => (j < length (ids c.(sessions)))%nat | _ => True end ->
  leads (on_event pid env lease_ttl event) c (fun _ c' => goes c c' /\ turned event c.(sessions) c'.(sessions)).
Proof.
  intros Hc Hn Hj. assert (Hstay : forall b : bool, leads (cret b) c (fun _ c' => goes c c' /\ same_places c.(sessions) c'.(sessions))) by done.
  destruct event as [|i| | |j| |]; cbn [on_event]; try apply Hstay.
  - eapply leads_then; [by apply accept_goes|]. by intros [] c'.
  - eapply leads_then; [by apply serve_goes|]. by intros [] c'.
  - eapply leads_then; [by apply (quiet_goes OnScrape _ Scraped)|]. intros a c' [Hg Hs]. split; [done|]. cbn. by rewrite Hs.
  - eapply leads_then with (P := fun _ c' => goes c c' /\ turned Deadline c.(sessions) c'.(sessions)); [|by intros [] c'].
    unfold sweep. set (c1 := c <| asked_env ::= S |>). assert (H1 : goes c c1) by (split; [by apply sound_asked|done]).
    eapply leads_then with (P := fun _ c' => c' = c1); [done|]. intros now c2 ->. apply leads_get.
    eapply leads_then; [apply close_all_goes, H1|]. intros [] c2 [Hg2 Hp2].
    eapply leads_mono; [apply (quiet_goes OnReconcile _ (fun _ => Silent)); [apply Hg2|done..]|].
    intros [] c3 [Hg3 Es]. split; [eapply goes_trans; [exact H1|]; by eapply goes_trans|]. cbn. by rewrite Es.
Qed.

Lemma next_deadline_goes c : sound c ->
  leads (next_deadline env lease_ttl) c (fun _ c' => goes c c' /\ c'.(sessions) = c.(sessions) /\ c'.(told) = c.(told)).
Proof.
  intros Hc. unfold next_deadline. do 2 apply leads_get. case_match; [|by split; [split|]].
  unfold leads, cbind, ask_env, cret. cbn. split; [split; [by apply sound_asked|done]|done].
Qed.

(** ** Runs *)

(** The control task as it starts, over a router. *)
Definition control_new r (max : Z) : Control F :=
  {| sessions := sessions_new max; router := r; asked_env := 0; told := [] |}.

(** One turn of the loop: whatever sockets are ready and whatever wakes it. *)
Definition turns (ready : Z -> bool) (event : ControlEvent) c c' : Prop :=
  exists deadline c1, next_deadline env lease_ttl c = Some (deadline, c1) /\
    may_wake ready c1.(sessions) event /\ on_event pid env lease_ttl event c1 = Some (true, c').

Inductive control_step : Control F -> Control F -> Prop :=
| step_event ready event c c' : turns ready event c c' -> control_step c c'
| step_shards c g : fleet_moves c.(router).(fleet) g ->
    control_step c (c <| router ::= fun r => r <| fleet := g |> |>).

Lemma leads_of {A} (m : ctl A) c a c' (Q : A -> Control F -> Prop) : m c = Some (a, c') -> leads m c Q -> Q a c'.
Proof. unfold leads. by intros ->. Qed.

Lemma wake_place ready event c : sound c -> may_wake ready c.(sessions) event ->
  match event with Readable j => (j < length (ids c.(sessions)))%nat | _ => True end.
Proof.
  intros Hc Hw. destruct event; try done. cbn in Hw. pose proof (sd_scan _ Hc) as Hs. unfold ids in *.
  rewrite length_fmap in *. by apply (next_readable_first ready c.(sessions)).
Qed.

Lemma turns_goes ready event c c' : sound c -> c.(sessions).(next_id) < U64_MAX -> turns ready event c c' ->
  goes c c' /\ turned event c.(sessions) c'.(sessions) /\ may_wake ready c.(sessions) event.
Proof.
  intros Hc Hn (d & c1 & E1 & Hw & E2). destruct (leads_of _ _ _ _ _ E1 (next_deadline_goes c Hc)) as (Hg1 & Es & _).
  pose proof (wake_place ready event c1 (proj1 Hg1) Hw) as Hj.
  destruct (leads_of _ _ _ _ _ E2 (event_goes event c1 (proj1 Hg1) ltac:(by rewrite Es) Hj)) as [Hg Ht].
  rewrite Es in Ht, Hw. split; [by eapply goes_trans|done].
Qed.

Lemma turned_next event p q : turned event p q ->
  q.(next_id) <= p.(next_id) + match event with AcceptedStream => 1 | _ => 0 end.
Proof.
  destruct event as [|n| | |j| |]; cbn; try (intros (H & _); lia).
  - intros [(H & _)|(s & _ & _ & _ & H)]; lia.
  - intros (H & _). cbn in H. lia.
  - intros H. induction H as [p|p p1 q [j (H & _)] _ IH]; lia.
Qed.

Lemma sound_moves c g : sound c -> fleet_moves c.(router).(fleet) g ->
  goes c (c <| router ::= fun r => r <| fleet := g |> |>).
Proof.
  intros [] Hm. split; [|by apply rtc_once, step_moves].
  destruct (moves_law _ _ _ (wf_fleet _ sd_wf0) Hm) as [Hf _]. split; cbn; try done. by apply wf_fleet_only.
Qed.

Lemma step_goes c c' : sound c -> c.(sessions).(next_id) < U64_MAX -> control_step c c' ->
  goes c c' /\ c'.(sessions).(next_id) <= c.(sessions).(next_id) + 1.
Proof.
  intros Hc Hn Hs. revert Hc Hn. destruct Hs as [ready event c c' Ht|c g Hm]; intros Hc Hn.
  - destruct (turns_goes _ _ _ _ Hc Hn Ht) as (Hg & Hp & _). split; [done|]. apply turned_next in Hp. destruct event; lia.
  - split; [by apply sound_moves|]. cbn. lia.
Qed.

Lemma run_goes n c c' : sound c -> c.(sessions).(next_id) + Z.of_nat n < U64_MAX -> nsteps control_step n c c' ->
  goes c c' /\ c'.(sessions).(next_id) <= c.(sessions).(next_id) + Z.of_nat n.
Proof.
  intros Hc Hn H. induction H as [c|n c c1 c' Hs _ IH]; [split; [by split|lia]|].
  destruct (step_goes c c1 Hc ltac:(lia) Hs) as [Hg Hle]. destruct IH as [Hg' Hle']; [apply Hg|lia|].
  split; [by eapply goes_trans|lia].
Qed.

Lemma unleased_sound r max : wf r -> 0 <= max -> (forall s k, ~ leased_by r s k) -> sound (control_new r max).
Proof. intros Hw Hm Hl. split; cbn; try done; try constructor; try (intros; by edestruct Hl); intros; by set_solver. Qed.

Lemma started_unleased (f : F) cap inst lst shards s k : ~ leased_by (started f cap inst lst shards) s k.
Proof.
  cut (forall d, (started f cap inst lst shards).(demand) !! k = Some d -> d.(lessees) = ∅).
  { intros H Hs. unfold leased_by, demand_of in Hs. destruct (_ !! k) eqn:E; cbn in Hs; [rewrite (H _ eq_refl) in Hs|]; by set_solver. }
  unfold started. assert (H0 : forall d, (router_new f cap inst lst).(demand) !! k = Some d -> d.(lessees) = ∅) by (by intros d).
  revert H0. generalize (router_new f cap inst lst). induction shards as [|[ms seg] shards IH]; intros r Hr; [done|].
  cbn [fold_left]. apply IH. unfold router_install. cbn [fst snd].
  match goal with |- context [fold_left _ _ ?x] => set (r1 := x) end.
  assert (H1 : forall d, r1.(demand) !! k = Some d -> d.(lessees) = ∅) by done. clearbody r1. clear Hr.
  revert r1 H1. induction ms as [|m ms IHm]; intros r1 H1; [done|]. cbn [fold_left]. apply IHm. intros d. cbn. unfold demand_entry.
  destruct (decide (m = k)) as [->|Hne]; [|rewrite lookup_insert_ne by done; apply H1].
  rewrite lookup_insert_eq. intros [= <-]. cbn. destruct (r1.(demand) !! k) eqn:E; [by apply H1|done].
Qed.

(** The loop of a daemon, some turns after its start. *)
Definition control_runs (f : F) (capacity instance : Z) (listening : option bytes)
    (shards : list (list bytes * SegmentTarget)) (max : Z) (n : nat) c : Prop :=
  nsteps control_step n (control_new (started f capacity instance listening shards) max) c.

Lemma runs_sound f cap inst lst shards max n c : begun f cap shards -> 0 <= max -> Z.of_nat n < U64_MAX ->
  control_runs f cap inst lst shards max n c ->
  sound c /\ rtc (router_step pid) (started f cap inst lst shards) c.(router) /\ c.(sessions).(next_id) <= Z.of_nat n.
Proof.
  intros Hb Hmax Hn Hrun.
  destruct (run_goes n _ c (unleased_sound _ _ (started_wf f cap inst lst _ Hb) Hmax (started_unleased _ _ _ _ _)) Hn Hrun) as [[Hc Hr] Hle].
  done.
Qed.

(** C21: Leases are what was answered. Take any run of the daemon's control loop of fewer than
    2^64 - 1 turns, whatever connects, sends, closes, stalls or runs out of time, whatever
    wakes the loop and whatever the shards answer. Whoever holds a lease on a market is an
    open session, was answered the attachment and has not released it since; with one shard,
    or shards that refuse no command, the shard the market is routed to holds it. An open
    session whose last answered attach to a market was the attachment holds the lease.
    Sessions are named apart and no more than allowed, and no event makes the loop panic. *)
Theorem leases_are_what_was_answered f cap inst lst shards max n c : begun f cap shards -> 0 <= max ->
  Z.of_nat n < U64_MAX -> control_runs f cap inst lst shards max n c ->
  (forall s k, leased_by c.(router) s k ->
     s ∈ ids c.(sessions) /\ granted_since c.(told) s k /\
     (length shards = 1%nat \/ responsive F ->
      exists i, c.(router).(assignments) !! k = Some i /\ holds c.(router).(fleet) i k)) /\
  (forall s k, s ∈ ids c.(sessions) -> last_granted c.(told) s k -> leased_by c.(router) s k) /\
  NoDup (ids c.(sessions)) /\ len (ids c.(sessions)) <= c.(sessions).(max_sessions) /\
  forall ready event, may_wake ready c.(sessions) event -> is_Some (on_event pid env lease_ttl event c).
Proof.
  intros Hb Hmax Hn Hrun. destruct (runs_sound _ _ _ _ _ _ _ _ Hb Hmax Hn Hrun) as (Hc & Hr & Hle). split_and!.
  - intros s k Hs. split; [by eapply (sd_open _ Hc)|]. split; [by apply (sd_granted _ Hc)|]. intros Hu.
    pose proof (steps_agreed pid _ _ Hr (started_agreed f cap inst lst _ Hb Hu)) as Hag.
    assert (Hd : is_Some (c.(router).(demand) !! k)).
    { unfold leased_by, demand_of in Hs. destruct (_ !! k); [by eexists|]. cbn in Hs. by set_solver. }
    destruct (ag_backed _ Hag k Hd) as [i Hi]. exists i. split; [done|]. by apply (ex_holds _ (ag_exact _ Hag)).
  - apply (sd_kept _ Hc).
  - apply (sd_distinct _ Hc).
  - apply (sd_room _ Hc).
  - intros ready event Hw.
    destruct (leads_run _ _ _ (event_goes event c Hc ltac:(lia) (wake_place _ _ _ Hc Hw))) as (b & c' & E & _). by eexists.
Qed.

(** ** The rotation *)

(** The loop runs on while the session [x] stays open, has work whenever the loop is woken,
    and is not the one served: [dispatches] others are, [accepts] connections come in. *)
Inductive passes (x : Z) : nat -> nat -> Control F -> Control F -> Prop :=
| passes_none c : passes x 0 0 c c
| passes_turn dispatches accepts c c1 c2 ready event : passes x dispatches accepts c c1 ->
    turns ready event c1 c2 -> x ∈ ids c2.(sessions) ->
    (forall i session, c1.(sessions).(open) !! i = Some session -> session.(id) = x ->
       has_work ready session = true /\ event <> Readable i) ->
    passes x (match event with Readable _ => S dispatches | _ => dispatches end)
      (match event with AcceptedStream => S accepts | _ => accepts end) c c2
| passes_shards dispatches accepts c c1 g : passes x dispatches accepts c c1 ->
    fleet_moves c1.(router).(fleet) g ->
    passes x dispatches accepts c (c1 <| router ::= fun r => r <| fleet := g |> |>).

Lemma passes_ahead x d a c c' i : passes x d a c c' -> sound c -> ids c.(sessions) !! i = Some x ->
  c.(sessions).(next_id) + Z.of_nat a < U64_MAX ->
  sound c' /\ c'.(sessions).(next_id) <= c.(sessions).(next_id) + Z.of_nat a /\
  exists i', ids c'.(sessions) !! i' = Some x /\
    (d + ahead c'.(sessions).(scan_start) (length (ids c'.(sessions))) i' <=
     ahead c.(sessions).(scan_start) (length (ids c.(sessions))) i + a)%nat.
Proof.
  intros H Hc Hi Hn. induction H as [c|d a c c1 c2 ready event H IH Ht Hx Hw|d a c c1 g H IH Hm].
  - split; [done|]. split; [lia|]. exists i. split; [done|lia].
  - assert (Hn' : c.(sessions).(next_id) + Z.of_nat a < U64_MAX) by (destruct event; lia).
    destruct (IH Hc Hi Hn') as (Hc1 & Hle & i1 & Hi1 & Hd). clear IH.
    assert (Hok : c1.(sessions).(next_id) < U64_MAX) by lia.
    destruct (turns_goes _ _ _ _ Hc1 Hok Ht) as ([Hc2 _] & Hp & Hwake). split; [done|]. split.
    { apply turned_next in Hp. destruct event; lia. }
    pose proof (sd_scan _ Hc1) as Hscan.
    destruct (turned_ahead event c1.(sessions) c2.(sessions) x i1) as (i' & Hi' & Hle'); try done; [apply Hc1| |].
    { unfold ids in Hi1. rewrite list_lookup_fmap in Hi1. destruct (c1.(sessions).(open) !! i1) as [session|] eqn:E; [|done].
      injection Hi1 as Ex. destruct (Hw i1 session E Ex) as [Hwork Hne]. destruct event as [| | | |j| |]; try done.
      unfold ids in *. rewrite length_fmap in *. cbn in Hwake.
      destruct (next_readable_first ready _ j Hscan Hwake) as [Hj Hmin]. split; [done|]. split; [congruence|].
      by apply (Hmin i1 session). }
    exists i'. split; [done|]. destruct event; lia.
  - destruct (IH Hc Hi Hn) as (Hc1 & Hle & i1 & Hi1 & Hd). split; [by apply sound_moves|]. split; [done|]. by exists i1.
Qed.

(** C22: A session with work is reached. Take a session that stays open and has work (bytes to
    read or a buffered request) whenever the loop is woken. Before it is served, the loop
    serves others at most as often as there are other sessions, and once more for every
    connection that comes in meanwhile; closing sessions, sweeps and anything else in between
    take it no turn. *)
Theorem ready_session_is_reached f cap inst lst shards max n c x dispatches accepts c' :
  begun f cap shards -> 0 <= max -> Z.of_nat n + Z.of_nat accepts < U64_MAX ->
  control_runs f cap inst lst shards max n c -> x ∈ ids c.(sessions) -> passes x dispatches accepts c c' ->
  (dispatches < length c.(sessions).(open) + accepts)%nat.
Proof.
  intros Hb Hmax Hn Hrun Hx H. destruct (runs_sound _ _ _ _ _ _ n c Hb Hmax ltac:(lia) Hrun) as (Hc & _ & Hle).
  apply list_elem_of_lookup in Hx as [i Hi].
  destruct (passes_ahead _ _ _ _ _ i H Hc Hi ltac:(lia)) as (_ & _ & i' & _ & Hd).
  pose proof (lookup_lt_Some _ _ _ Hi) as Hlt. destruct (ahead_place _ _ i (sd_scan _ Hc) Hlt) as [_ Ha].
  assert (E : length (ids c.(sessions)) = length c.(sessions).(open)) by (unfold ids; apply length_fmap). lia.
Qed.
End control.
