(* ===== verification/ControlFraming.v ===== *)
(** * Framing requests

    The lines a session's bytes are, and that they are what [next_request] frames however the
    bytes arrive; then what becomes of a session that sends a line too long. *)

From stdpp Require Import gmap.
From S2P Require Import Prelude OrdMap Identity Descriptor Continuity Pool Session Limitless Pacing Connection QueueAge Supervisor ShardMarket Shard ShardDemand Daemon DaemonProps Router RouterLaws RouterInv RouterProps RouterExact DaemonRun Control ControlLeases ControlProps.

(** ** Lines *)

(** The complete lines of a text, each with its newline, and what is left. *)
Fixpoint lines (l : bytes) : list bytes * bytes :=
  match l with
  | [] => ([], [])
  | b :: l =>
      let '(complete, rest) := lines l in
      if b =? NEWLINE then ([b] :: complete, rest)
      else match complete with
           | [] => ([], b :: rest)
           | line :: complete => ((b :: line) :: complete, rest)
           end
  end.

Lemma lines_plain l : NEWLINE ∉ l -> lines l = ([], l).
Proof.
  induction l as [|b l IH]; [done|]. intros [Hb Hl]%not_elem_of_cons. cbn. rewrite IH by done.
  by destruct (Z.eqb_spec b NEWLINE).
Qed.

Lemma lines_line l k : NEWLINE ∉ l -> lines (l ++ NEWLINE :: k) = ((l ++ [NEWLINE]) :: (lines k).1, (lines k).2).
Proof.
  induction l as [|b l IH]; cbn; [by destruct (lines k)|]. intros [Hb Hl]%not_elem_of_cons. rewrite IH by done.
  by destruct (Z.eqb_spec b NEWLINE).
Qed.

(** Text that ends no line goes before the lines that follow. *)
Lemma lines_rest l : NEWLINE ∉ (lines l).2.
Proof.
  induction l as [|b l IH]; cbn; [set_solver|]. destruct (lines l) as [c r]. cbn in *.
  destruct (Z.eqb_spec b NEWLINE); [done|]. destruct c; cbn; set_solver.
Qed.

Lemma lines_app l k : lines (l ++ k) =
  ((lines l).1 ++ (lines ((lines l).2 ++ k)).1, (lines ((lines l).2 ++ k)).2).
Proof.
  induction l as [|b l IH]; cbn; [by destruct (lines k)|]. rewrite IH. clear IH.
  destruct (lines l) as [c r]. cbn. destruct (Z.eqb_spec b NEWLINE) as [->|Hb]; [done|].
  destruct c as [|line c]; cbn; [|done]. destruct (Z.eqb_spec b NEWLINE); [done|].
  destruct (lines (r ++ k)) as [c' r']. by destruct c'.
Qed.

Lemma lines_join l : mjoin (lines l).1 ++ (lines l).2 = l.
Proof.
  induction l as [|b l IH]; [done|]. cbn. destruct (lines l) as [c r]. cbn in IH. subst l.
  destruct (Z.eqb_spec b NEWLINE); [done|]. by destruct c.
Qed.

Lemma newline_none l : newline_at l = None <-> NEWLINE ∉ l.
Proof.
  unfold newline_at. destruct (list_find _ l) as [[i x]|] eqn:E; cbn.
  - apply list_find_Some in E as (E & -> & _). split; [done|]. intros H. by apply list_elem_of_lookup_2 in E.
  - split; [|done]. intros _. apply list_find_None in E. rewrite Forall_forall in E. by intros H%E.
Qed.

Lemma newline_some l i : newline_at l = Some i ->
  exists line k, l = line ++ NEWLINE :: k /\ NEWLINE ∉ line /\ i = length line /\
    take (S i) l = line ++ [NEWLINE] /\ drop (S i) l = k.
Proof.
  unfold newline_at. destruct (list_find _ l) as [[j x]|] eqn:E; cbn; [|done]. intros [= ->].
  apply list_find_Some in E as (E & -> & Hb). exists (take i l), (drop (S i) l).
  pose proof (lookup_lt_Some _ _ _ E). rewrite length_take. split; [by symmetry; apply take_drop_middle|].
  split; [|split; [lia|split; [by apply take_S_r|done]]].
  intros (j & Hj)%list_elem_of_lookup. apply lookup_take_Some in Hj as [Hj Hlt]. by apply (Hb j NEWLINE).
Qed.

(** ** Sessions *)

(** What a line within the cap is framed as. *)
Definition frame_of (line : bytes) : Framed :=
  if utf8_valid line then Line (trim_end line) else Refused (lit "request line is not utf-8").

Definition is_incomplete (framed : Framed) : bool := match framed with Incomplete => true | _ => false end.

(** A session from its first byte: the bytes received, at most a chunk at a time and only
    when nothing buffered decides a request, and what every framing attempt found. *)
Inductive framing : bytes -> list Framed -> Session -> Prop :=
| framing_start self : self.(pending) = [] -> self.(discarding) = None -> framing [] [] self
| framing_read received out self chunk : framing received out self -> has_buffered_request self = false ->
    len chunk <= CONTROL_READ_CHUNK ->
    framing (received ++ chunk) out (self <| pending ::= fun l => l ++ chunk |>)
| framing_next received out self : framing received out self ->
    framing received (out ++ [(next_request self).1]) (next_request self).2
| framing_touch received out self deadline now : framing received out self ->
    framing received out (self <| opening_deadline := deadline |> <| last_activity := now |>).

(** Every line within the cap, what is unfinished too. *)
Definition within_cap (received : bytes) : Prop :=
  Forall (fun line => len line <= MAX_CONTROL_LINE_BYTES) (lines received).1 /\
  len (lines received).2 < MAX_CONTROL_LINE_BYTES.

(** What was framed is the first lines; the rest is in the buffer. *)
Definition framed_so_far (received : bytes) (out : list Framed) (self : Session) : Prop :=
  self.(discarding) = None /\
  exists done_, List.filter (fun f => negb (is_incomplete f)) out = frame_of <$> done_ /\
    lines received = (done_ ++ (lines self.(pending)).1, (lines self.(pending)).2).

Lemma within_prefix received chunk : within_cap (received ++ chunk) -> within_cap received.
Proof.
  unfold within_cap. rewrite lines_app. cbn. intros [[H1 H2]%Forall_app H3]. split; [done|].
  set (r := (lines received).2) in *. pose proof (lines_rest received) as Hr. fold r in Hr. clearbody r.
  destruct (decide (NEWLINE ∈ chunk)) as [Hc|Hc].
  - apply list_elem_of_split_l in Hc as (l & k & -> & Hl). replace (r ++ l ++ NEWLINE :: k) with ((r ++ l) ++ NEWLINE :: k) in H2 by (by rewrite <- app_assoc).
    rewrite lines_line in H2 by set_solver. apply Forall_cons in H2 as [H2 _]. rewrite !len_app, len_cons, len_nil in H2.
    pose proof (len_nonneg l). lia.
  - rewrite lines_plain in H3 by set_solver. cbn in H3. rewrite len_app in H3. pose proof (len_nonneg chunk). lia.
Qed.

Lemma next_framed received out self : framed_so_far received out self -> within_cap received ->
  framed_so_far received (out ++ [(next_request self).1]) (next_request self).2.
Proof.
  intros [Hd (done_ & Hout & El)] [Hc Hr]. unfold next_request. rewrite Hd. unfold frame_front.
  destruct (newline_at self.(pending)) as [i|] eqn:E.
  - apply newline_some in E as (line & k & Ep & Hl & -> & Et & Ek). rewrite Ep, lines_line in El by done.
    rewrite El in Hc. cbn in Hc. apply Forall_app in Hc as [_ [Hc _]%Forall_cons]. rewrite len_app in Hc. unfold len in Hc. cbn in Hc.
    replace (Z.of_nat (length line) <? MAX_CONTROL_LINE_BYTES) with true by (symmetry; apply Z.ltb_lt; lia).
    rewrite Et.
    assert (H : forall f self', f = frame_of (line ++ [NEWLINE]) -> self'.(discarding) = None -> self'.(pending) = k ->
      framed_so_far received (out ++ [f]) self').
    { intros f self' -> Hd' Ep'. split; [done|]. exists (done_ ++ [line ++ [NEWLINE]]). split.
      - rewrite List.filter_app, Hout, fmap_app. f_equal. cbn. unfold frame_of. by destruct (utf8_valid _).
      - rewrite El, Ep'. cbn. by rewrite <- app_assoc. }
    unfold frame_of in H. destruct (utf8_valid _); (apply H; [done|done|exact Ek]).
  - apply newline_none in E. rewrite (lines_plain self.(pending)) in El by done. rewrite El in Hr. cbn in Hr.
    destruct (Z.leb_spec MAX_CONTROL_LINE_BYTES (len self.(pending))); [lia|]. cbn. split; [done|]. exists done_.
    rewrite List.filter_app, Hout, (lines_plain self.(pending)) by done. cbn. by rewrite app_nil_r.
Qed.

Lemma framing_so_far received out self : framing received out self -> within_cap received ->
  framed_so_far received out self.
Proof.
  induction 1 as [self Hp Hd|received out self chunk H IH _ _|received out self H IH|received out self d now H IH]; intros Hw.
  - split; [done|]. exists []. by rewrite Hp.
  - destruct (IH (within_prefix _ _ Hw)) as [Hd (done_ & Hout & El)]. split; [done|]. exists done_. split; [done|].
    cbn. rewrite (lines_app received), El. cbn. rewrite (lines_app self.(pending)). cbn. by rewrite app_assoc.
  - by apply next_framed; auto.
  - destruct (IH Hw) as [Hd H']. by split.
Qed.

Lemma framing_bounded received out self : framing received out self ->
  len self.(pending) < MAX_CONTROL_LINE_BYTES + CONTROL_READ_CHUNK.
Proof.
  induction 1 as [self Hp Hd|received out self chunk H IH Hb Hc|received out self H IH|received out self d now H IH].
  - rewrite Hp. by vm_compute.
  - cbn. rewrite len_app. unfold has_buffered_request in Hb. apply orb_false_iff in Hb as [_ Hb%Z.leb_gt]. lia.
  - assert (Hle : len (next_request self).2.(pending) <= len self.(pending)); [|lia].
    assert (Hdrop : forall n (l : bytes), len (drop n l) <= len l) by (intros n l; unfold len; rewrite length_drop; lia).
    assert (Hfront : forall s, len (frame_front s).2.(pending) <= len s.(pending)).
    { intros s. pose proof (len_nonneg s.(pending)). unfold frame_front. repeat case_match; cbn; try done; apply Hdrop. }
    pose proof (len_nonneg self.(pending)). unfold next_request. repeat case_match; cbn; try done.
    all: first [apply Hfront|etrans; [apply Hfront|cbn; apply Hdrop]].
  - done.
Qed.

(** C23: Requests are framed as they were sent. However the bytes of a session are cut into
    reads and whenever it is served, while its lines stay within the cap: the buffer never
    holds more than a line's cap and a read, what was framed is exactly the first of the
    complete lines received, in order, each once, and the rest is in the buffer; and as soon
    as the buffer decides nothing more, every complete line has been framed. *)
Theorem requests_framed_as_sent received out self : framing received out self -> within_cap received ->
  len self.(pending) < MAX_CONTROL_LINE_BYTES + CONTROL_READ_CHUNK /\
  (exists n, List.filter (fun f => negb (is_incomplete f)) out = frame_of <$> take n (lines received).1 /\
     self.(pending) = mjoin (drop n (lines received).1) ++ (lines received).2) /\
  (has_buffered_request self = false ->
     List.filter (fun f => negb (is_incomplete f)) out = frame_of <$> (lines received).1).
Proof.
  intros H Hw. destruct (framing_so_far _ _ _ H Hw) as [_ (done_ & Hout & El)]. rewrite El. cbn.
  split; [by eapply framing_bounded|]. split.
  - exists (length done_). rewrite take_app_length, drop_app_length. split; [done|]. by rewrite lines_join.
  - unfold has_buffered_request. intros [Hn%bool_decide_eq_false _]%orb_false_iff.
    by rewrite (lines_plain self.(pending)), app_nil_r by done.
Qed.

(** ** A line too long *)

Section control.
Context {F : Type} `{FL : !Fleet F} {L : FleetLaws F}.
Variable pid : Z.
Variable env : ControlEnv.
Variable lease_ttl : option Z.
Implicit Types (r : Router F) (c : Control F).

Lemma leads_both {A} (m : ctl A) c (P Q : A -> Control F -> Prop) : leads m c P -> leads m c Q ->
  leads m c (fun a c' => P a c' /\ Q a c').
Proof. unfold leads. by destruct (m c) as [[a c']|]. Qed.

(** The session at an index is gone, with its leases. *)
Definition ended (x : Z) c : Prop := x ∉ ids c.(sessions) /\ forall k, ~ leased_by c.(router) x k.

Lemma close_ends index session c : sound c -> c.(sessions).(open) !! index = Some session ->
  leads (close index) c (fun _ c' => ended session.(id) c').
Proof.
  intros Hc E. assert (Ei : ids c.(sessions) !! index = Some session.(id)) by (unfold ids; by rewrite list_lookup_fmap, E).
  destruct (delete_distinct _ _ _ (sd_distinct _ Hc) Ei) as (_ & _ & Hin).
  assert (Hids : leads (close index) c (fun _ c' => ids c'.(sessions) = delete index (ids c.(sessions)))).
  { unfold close. apply leads_get. rewrite E. eapply leads_then with (P := fun _ c1 => wf c1.(router) /\
      ids c1.(sessions) = delete index (ids c.(sessions))).
    { split; [apply Hc|]. unfold ids. apply list_fmap_delete. }
    intros [] c1 [Hw Es]. eapply leads_mono; [by apply (routes_release_session pid)|]. intros [] c2 Hr. by rewrite (rt_sessions _ _ _ _ Hr). }
  eapply leads_mono; [apply (leads_both _ _ _ _ Hids (close_goes pid index c Hc))|]. intros [] c' [Es [[Hc' _] _]].
  assert (Hgone : session.(id) ∉ ids c'.(sessions)) by (rewrite Es, Hin; naive_solver).
  split; [done|]. intros k Hk. by apply Hgone, (sd_open _ Hc' _ k).
Qed.

(** Refused, and then abandoned without a byte more. *)
Lemma overlong_frames session : session.(discarding) = None -> NEWLINE ∉ session.(pending) ->
  MAX_CONTROL_LINE_BYTES < len session.(pending) ->
  exists refusal session' refusal' session'',
    next_request session = (Refused refusal, session') /\ session'.(id) = session.(id) /\
    next_request session' = (Abandoned refusal', session'') /\ session''.(id) = session.(id).
Proof.
  intros Hd Hn Hlen. unfold next_request at 1. rewrite Hd. unfold frame_front.
  apply newline_none in Hn as E. rewrite E. destruct (Z.leb_spec MAX_CONTROL_LINE_BYTES (len session.(pending))); [|lia].
  do 4 eexists. split; [done|]. split; [done|]. unfold next_request. cbn -[lit]. unfold saturating_add_usize, const, len at 2. cbn [length Z.of_nat].
  replace (MAX_DISCARDED_BYTES <? _) with true; [done|]. symmetry. apply Z.ltb_lt. unfold MAX_DISCARDED_BYTES, MAX_CONTROL_LINE_BYTES, USIZE_MAX, U64_MAX in *. lia.
Qed.

Lemma serve_overlong index session budget c : sound c -> c.(sessions).(open) !! index = Some session ->
  session.(discarding) = None -> NEWLINE ∉ session.(pending) -> MAX_CONTROL_LINE_BYTES < len session.(pending) ->
  leads (serve_requests pid env lease_ttl (S (S budget)) index) c (fun _ c' => ended session.(id) c').
Proof.
  intros Hc E Hd Hn Hlen. destruct (overlong_frames _ Hd Hn Hlen) as (m1 & s1 & m2 & s2 & E1 & I1 & E2 & I2).
  assert (Hanswer : forall c1 session1 message, sound c1 -> c1.(sessions).(open) !! index = Some session1 ->
    leads (answer env (Some session1.(id)) None (ResponseError message)) c1
      (fun _ c2 => sound c2 /\ c2.(sessions) = c1.(sessions))).
  { intros c1 session1 message H1 Hs1. eapply leads_mono; [eapply (answer_did pid); [apply routes_refl, H1|by apply fits_same; left]|].
    intros d c2 Hdid. split; [|apply Hdid]. eapply (did_sound pid); [exact H1| |exact Hdid].
    apply (list_elem_of_lookup_2 _ index). unfold ids. by rewrite list_lookup_fmap, Hs1. }
  cbn [serve_requests]. apply leads_get. rewrite E, E1.
  eapply leads_then; [by apply (set_session_goes pid index session s1)|]. intros [] c1 (Hg1 & _ & Hs1).
  eapply leads_then; [apply Hanswer; [apply Hg1|done]|]. intros d c2 [H2 Es2].
  assert (Hs2 : c2.(sessions).(open) !! index = Some s1) by (by rewrite Es2). rewrite <- I1.
  case_decide; [by apply close_ends|]. apply leads_get. rewrite Hs2, E2.
  eapply leads_then; [apply (set_session_goes pid index s1 s2); [done|exact Hs2|congruence]|]. intros [] c3 (Hg3 & _ & Hs3).
  eapply leads_then; [apply Hanswer; [apply Hg3|done]|]. intros d' c4 [H4 Es4]. rewrite I1, <- I2.
  apply close_ends; [done|]. by rewrite Es4.
Qed.

(** C40: A request line too long ends its session. Let the bytes of an unfinished line come to
    more than the cap within one read (whatever came before, and however soon the newline
    would follow): the session is refused the line and, in the same turn and without another
    byte, abandoned; it is closed and every lease it held is given up. *)
Theorem overlong_request_ends_session f cap inst lst shards max n c index session chunk :
  begun f cap shards -> 0 <= max -> Z.of_nat n < U64_MAX ->
  control_runs pid env lease_ttl f cap inst lst shards max n c ->
  c.(sessions).(open) !! index = Some session -> session.(discarding) = None ->
  env.(ce_read) c.(asked_env) session.(id) = ReadBytes chunk ->
  NEWLINE ∉ session.(pending) ++ chunk -> len session.(pending) < MAX_CONTROL_LINE_BYTES ->
  MAX_CONTROL_LINE_BYTES < len (session.(pending) ++ chunk) ->
  exists c', serve pid env lease_ttl index c = Some ((), c') /\ ended session.(id) c'.
Proof.
  intros Hb Hmax Hn Hrun E Hd Hread Hno Hsmall Hlarge.
  destruct (runs_sound _ _ _ _ _ _ _ _ _ n c Hb Hmax Hn Hrun) as (Hc & _ & _).
  assert (H : leads (serve pid env lease_ttl index) c (fun _ c' => ended session.(id) c')).
  2:{ destruct (leads_run _ _ _ H) as ([] & c' & E' & He). by exists c'. }
  unfold serve. set (c1 := c <| sessions ::= fun self => self <| scan_start := S index |> |>).
  assert (H1 : sound c1).
  { apply lookup_lt_Some in E as Hlt. destruct Hc. split; cbn; try done.
    unfold ids, const. rewrite length_fmap. lia. }
  eapply leads_then with (P := fun _ c2 => c2 = c1); [done|]. intros [] c2 ->.
  apply leads_get. change (c1.(sessions).(open)) with (c.(sessions).(open)). rewrite E.
  replace (has_buffered_request session) with false.
  2:{ symmetry. unfold has_buffered_request. rewrite bool_decide_eq_false_2 by set_solver. by apply Z.leb_gt. }
  eapply leads_then with (P := fun a c2 => a = ReadBytes chunk /\ c2 = c1 <| asked_env ::= S |>); [by split|].
  intros read c2 [-> ->]. destruct chunk as [|b chunk]; [rewrite app_nil_r in Hlarge; lia|].
  eapply leads_then; [eapply (set_session_goes pid); [by apply sound_asked|exact E|done]|]. intros [] c2 (Hg2 & _ & Hs2).
  by eapply (serve_overlong index _ 2 c2 (proj1 Hg2) Hs2).
Qed.
End control.
