(* ===== verification/ControlRun.v ===== *)
(** * A run of the control loop

    Two clients of the sample daemon of [DaemonRun], each theorem on control sessions applied
    to a state of their runs. *)

From stdpp Require Import gmap.
From S2P Require Import Prelude OrdMap Identity Descriptor Continuity Pool Session Limitless Pacing Connection QueueAge Supervisor ShardMarket Shard ShardDemand ShardProps Daemon DaemonProps Router RouterLaws RouterInv RouterProps RouterExact RouterShards DaemonRun Control ControlLeases ControlProps ControlFraming.

#[local] Existing Instance null_sink.
#[local] Existing Instance never_fleet.
#[local] Existing Instance never_laws.

(** Every write is taken, every peer is this user; the line [a] asks for an attachment. *)
Definition sample_env (read : nat -> bytes) : ControlEnv :=
  {| ce_now := fun n => Z.of_nat n; ce_read := fun n _ => ReadBytes (read n);
     ce_written := fun _ => true; ce_peer := fun _ => Ok 501; ce_own_euid := 501; ce_last := U64_MAX;
     ce_parse := fun line => if bool_decide (line = lit "a") then Ok (RequestAttach delta) else Ok RequestRenew |}.

(** Short requests only, and a line that never ends after the first one. *)
Definition short (_ : nat) : bytes := lit "a" ++ [NEWLINE].
Definition endless (n : nat) : bytes := if Nat.eqb n 2 then short n else replicate (Z.to_nat 8191) 97.

Definition any (_ : Z) : bool := true.

Section run.
Variable read : nat -> bytes.

(** The loop after one event. *)
Definition loop_after (event : ControlEvent) (c : Control ShardFleet) : Control ShardFleet :=
  match next_deadline (sample_env read) None c with
  | Some (_, c1) =>
      match on_event 0 (sample_env read) None event c1 with
      | Some (_, c2) => c2
      | None => c1
      end
  | None => c
  end.

Definition started_control : Control ShardFleet := control_new sample_router 2.
Definition loop (events : list ControlEvent) : Control ShardFleet :=
  fold_left (fun c event => loop_after event c) events started_control.

Definition goes_on (event : ControlEvent) : bool :=
  match event with ControlShutdown | ShardFinished _ => false | _ => true end.

Lemma event_goes_on event c b c' : goes_on event = true ->
  on_event 0 (sample_env read) None event c = Some (b, c') -> b = true.
Proof.
  destruct event; try done; intros _; cbn -[accept serve sweep on_router]; unfold cbind, cret;
    try (intros H; simplify_eq; done);
    match goal with |- (match ?m with _ => _ end) = _ -> _ => destruct m as [[]|]; cbn; intros; by simplify_eq | |- _ => idtac end.
  all: intros H; match type of H with context [mbind _ ?m] => destruct m as [[]|]; cbn in H; by simplify_eq end.
Qed.

Lemma loop_turns event c : sound c -> c.(sessions).(next_id) < U64_MAX -> goes_on event = true ->
  may_wake any c.(sessions) event -> turns 0 (sample_env read) None any event c (loop_after event c).
Proof.
  intros Hc Hn Hgo Hw. unfold turns, loop_after.
  destruct (leads_run _ _ _ (next_deadline_goes 0 (sample_env read) None c Hc)) as (d & c1 & E1 & Hg1 & Es & _).
  rewrite E1. rewrite <- Es in Hw.
  destruct (leads_run _ _ _ (event_goes 0 (sample_env read) None event c1 (proj1 Hg1) ltac:(by rewrite Es)
    (wake_place any event c1 (proj1 Hg1) Hw))) as (b & c2 & E2 & _).
  rewrite E2. rewrite (event_goes_on _ _ _ _ Hgo E2) in E2. by exists d, c1.
Qed.

Lemma loop_run n c event : (n < 100)%nat ->
  control_runs 0 (sample_env read) None sample_fleet (plan_markets_per_shard sample_plan) 1 None
    (DaemonRun.routes sample_plan sample_targets) 2 n c ->
  goes_on event = true -> may_wake any c.(sessions) event ->
  turns 0 (sample_env read) None any event c (loop_after event c) /\
  control_runs 0 (sample_env read) None sample_fleet (plan_markets_per_shard sample_plan) 1 None
    (DaemonRun.routes sample_plan sample_targets) 2 (S n) (loop_after event c).
Proof.
  intros Hlt Hrun Hgo Hw.
  destruct (runs_sound _ _ _ _ _ _ _ _ 2 n c sample_begun ltac:(lia) ltac:(unfold U64_MAX; lia) Hrun) as (Hc & _ & Hle).
  assert (Ht : turns 0 (sample_env read) None any event c (loop_after event c)).
  { apply loop_turns; try done. unfold U64_MAX. lia. }
  split; [done|]. unfold control_runs in *. replace (S n) with (n + 1)%nat by lia.
  eapply nsteps_trans; [exact Hrun|]. apply nsteps_once. by eapply step_event.
Qed.

(** Every event of a list can wake the loop where it comes, and what is left satisfies [ok]. *)
Fixpoint wakes (ok : Control ShardFleet -> bool) (events : list ControlEvent) (c : Control ShardFleet) : bool :=
  match events with
  | [] => ok c
  | event :: events =>
      goes_on event &&
      (match event with Readable j => bool_decide (next_readable any c.(sessions) = Some j) | _ => true end) &&
      wakes ok events (loop_after event c)
  end.

Lemma wakes_run ok events n c : (n + length events < 100)%nat -> wakes ok events c = true ->
  control_runs 0 (sample_env read) None sample_fleet (plan_markets_per_shard sample_plan) 1 None
    (DaemonRun.routes sample_plan sample_targets) 2 n c ->
  let c' := fold_left (fun c event => loop_after event c) events c in
  ok c' = true /\
  control_runs 0 (sample_env read) None sample_fleet (plan_markets_per_shard sample_plan) 1 None
    (DaemonRun.routes sample_plan sample_targets) 2 (n + length events) c'.
Proof.
  revert n c. induction events as [|event events IH]; intros n c Hn Hw Hrun; cbn in *; [by rewrite Nat.add_0_r|].
  apply andb_true_iff in Hw as [[Hg Hw]%andb_true_iff Hrest]. replace (n + S (length events))%nat with (S n + length events)%nat by lia.
  apply IH; [lia|done|]. apply loop_run; [lia|done|done|]. destruct event; try done. by apply bool_decide_eq_true_1 in Hw.
Qed.

Lemma run_start :
  control_runs 0 (sample_env read) None sample_fleet (plan_markets_per_shard sample_plan) 1 None
    (DaemonRun.routes sample_plan sample_targets) 2 0 started_control.
Proof. apply nsteps_O. Qed.
End run.

(** ** Two clients *)

Definition one_in : Control ShardFleet := loop short [AcceptedStream].
Definition both_in : Control ShardFleet := loop short [AcceptedStream; AcceptedStream].
Definition one_attached : Control ShardFleet := loop short [AcceptedStream; AcceptedStream; Readable 0].

Lemma both_in_run :
  control_runs 0 (sample_env short) None sample_fleet (plan_markets_per_shard sample_plan) 1 None
    (DaemonRun.routes sample_plan sample_targets) 2 2 both_in.
Proof. do 2 (apply loop_run; [lia| |done|done]). apply run_start. Qed.

Lemma one_attached_run :
  turns 0 (sample_env short) None any (Readable 0) both_in one_attached /\
  control_runs 0 (sample_env short) None sample_fleet (plan_markets_per_shard sample_plan) 1 None
    (DaemonRun.routes sample_plan sample_targets) 2 3 one_attached.
Proof. apply loop_run; [lia|apply both_in_run|done|by vm_compute]. Qed.

Lemma leases_are_what_was_answered_witness :
  leased_by one_attached.(router) 1 delta /\ granted_since one_attached.(told) 1 delta /\
  exists i, one_attached.(router).(assignments) !! delta = Some i /\ holds one_attached.(router).(fleet) i delta.
Proof.
  destruct (leases_are_what_was_answered 0 (sample_env short) None sample_fleet (plan_markets_per_shard sample_plan) 1 None
    (DaemonRun.routes sample_plan sample_targets) 2 3 one_attached sample_begun ltac:(lia) ltac:(by vm_compute)
    (proj2 one_attached_run)) as (H & _).
  assert (Hl : leased_by one_attached.(router) 1 delta) by (apply (bool_decide_eq_true_1 _); by vm_compute).
  destruct (H 1 delta Hl) as (_ & Hg & Hh). split; [done|]. split; [done|]. apply Hh. right. apply never_responsive.
Defined.

Lemma ready_session_is_reached_witness : (1 < length both_in.(sessions).(open) + 0)%nat.
Proof.
  apply (ready_session_is_reached 0 (sample_env short) None sample_fleet (plan_markets_per_shard sample_plan) 1 None
    (DaemonRun.routes sample_plan sample_targets) 2 2 both_in 2 1 0 one_attached sample_begun);
    [lia|by vm_compute|apply both_in_run|apply (bool_decide_eq_true_1 _); by vm_compute|].
  apply (passes_turn 0 (sample_env short) None 2 0 0 both_in both_in one_attached any (Readable 0)).
  - constructor.
  - apply one_attached_run.
  - apply (bool_decide_eq_true_1 _). by vm_compute.
  - intros i session E Ei. split; [apply orb_true_r|]. intros [= <-].
    assert (Hid : id <$> both_in.(sessions).(open) !! 0%nat = Some 1) by (by vm_compute).
    rewrite E in Hid. cbn in Hid. congruence.
Defined.

(** A request and a half arrive, and the whole one is taken. *)
Definition fresh : Session :=
  {| id := 1; pending := []; opening_deadline := None; last_activity := 0; discarding := None |}.
Definition fed : Session := fresh <| pending ::= fun l => l ++ lit "re" |>.
Definition fed_twice : Session := fed <| pending ::= fun l => l ++ (lit "new" ++ [NEWLINE] ++ lit "ren") |>.

Lemma requests_framed_as_sent_witness :
  List.filter (fun f => negb (is_incomplete f)) ([] ++ [(next_request fed_twice).1]) = [Line (lit "renew")].
Proof.
  assert (Hf : framing (([] ++ lit "re") ++ (lit "new" ++ [NEWLINE] ++ lit "ren"))
    ([] ++ [(next_request fed_twice).1]) (next_request fed_twice).2).
  { apply framing_next. apply (framing_read _ _ fed); [|by vm_compute|by vm_compute].
    apply (framing_read [] _ fresh); [by apply framing_start|by vm_compute|by vm_compute]. }
  etrans; [apply (requests_framed_as_sent _ _ _ Hf)|by vm_compute]; [|by vm_compute].
  split; [|by vm_compute]. apply (bool_decide_eq_true_1 _). by vm_compute.
Defined.

(** ** A client whose line never ends *)

Definition flooding : Control ShardFleet :=
  loop endless (AcceptedStream :: replicate 9 (Readable 0)).

Definition flooding_session : Session := default fresh (flooding.(sessions).(open) !! 0%nat).

(** What the last read of the flood meets: an unfinished line close to the cap. *)
Definition flooded {F} (c : Control F) : bool :=
  bool_decide (leased_by c.(router) 1 delta) && negb (Nat.eqb c.(asked_env) 2) &&
  match c.(sessions).(open) !! 0%nat with
  | Some session =>
      (session.(id) =? 1) && bool_decide (session.(discarding) = None) &&
      bool_decide (NEWLINE ∉ session.(pending)) && (len session.(pending) <? MAX_CONTROL_LINE_BYTES) &&
      (MAX_CONTROL_LINE_BYTES <? len session.(pending) + 8191)
  | None => false
  end.

Lemma flooding_run : flooded flooding = true /\
  control_runs 0 (sample_env endless) None sample_fleet (plan_markets_per_shard sample_plan) 1 None
    (DaemonRun.routes sample_plan sample_targets) 2 10 flooding.
Proof.
  unfold flooding, loop. set (events := AcceptedStream :: replicate 9 (Readable 0)).
  exact (wakes_run endless flooded events 0 started_control ltac:(cbn; lia) ltac:(by vm_compute) (run_start endless)).
Qed.

Lemma overlong_request_ends_session_witness :
  leased_by flooding.(router) 1 delta /\
  exists c', serve 0 (sample_env endless) None 0 flooding = Some ((), c') /\ ended 1 c'.
Proof.
  destruct flooding_run as [Hf Hrun]. unfold flooded in Hf.
  apply andb_true_iff in Hf as [[Hl%bool_decide_eq_true_1 Ha%negb_true_iff]%andb_true_iff Hf]. split; [exact Hl|].
  destruct (flooding.(sessions).(open) !! 0%nat) as [session|] eqn:E; [|done].
  apply andb_true_iff in Hf as [[[[Hi%Z.eqb_eq Hd%bool_decide_eq_true_1]%andb_true_iff
    Hn%bool_decide_eq_true_1]%andb_true_iff Hs%Z.ltb_lt]%andb_true_iff Hb%Z.ltb_lt].
  rewrite <- Hi.
  apply (overlong_request_ends_session 0 (sample_env endless) None sample_fleet (plan_markets_per_shard sample_plan) 1 None
    (DaemonRun.routes sample_plan sample_targets) 2 10 flooding 0 session (replicate (Z.to_nat 8191) 97) sample_begun).
  - lia.
  - by vm_compute.
  - exact Hrun.
  - exact E.
  - exact Hd.
  - change (ReadBytes (endless flooding.(asked_env)) = ReadBytes (replicate (Z.to_nat 8191) 97)).
    unfold endless. by rewrite Ha.
  - rewrite elem_of_app, elem_of_replicate. intros [H|[H _]]; [exact (Hn H)|discriminate H].
  - exact Hs.
  - rewrite len_app. unfold len at 2. rewrite length_replicate. lia.
Defined.
