(* ===== verification/ShmRun.v ===== *)
(** * Runs of a segment writer

    What any sequence of creation, installations and publications, refused or not, leaves in
    memory: every record follows the discipline of its counter, every directory entry is
    written once, and the counters count. The readers' theorems rest on this invariant. *)

From S2P Require Import Prelude OrdMap Numeric Identity Descriptor Continuity Observation Book ShmCodec ShmCell ShmLayout ShmWriter ShmWriterProps.

(** ** The publications of a run *)

Inductive Publication : Set :=
| StatePublished (index position : Z) (book : PublishedBook) (commit_time arrival_time : Z)
| MutationPublished (index revision : Z) (cursor : MutationCursor) (mutation : BookMutation)
    (commit_time arrival_time : Z)
| ResolutionPublished (index revision : Z) (cursor : MutationCursor)
    (resolution : MarketResolution) (commit_time arrival_time : Z).

Definition publication_index (p : Publication) : Z :=
  match p with
  | StatePublished i _ _ _ _ | MutationPublished i _ _ _ _ _ | ResolutionPublished i _ _ _ _ _ => i
  end.

(** The words a publication stores into a part, if it stores any. *)
Definition words_into (l : SegmentLayout) (part : Part) (p : Publication) :
    option (list (Z * Z)) :=
  match part, p with
  | SlotPart i, StatePublished index _ book commit_time arrival_time =>
      if i =? index
      then staged ← ok (stage l book); Some (state_words staged commit_time arrival_time)
      else None
  | DirtyPart n, StatePublished index position book _ _ =>
      if n mod l.(dirty_capacity) =? position mod l.(dirty_capacity)
      then Some (dirty_words position index book.(published_revision)) else None
  | EventPart e n, MutationPublished index revision cursor mutation commit_time arrival_time =>
      if (e =? index) && (n mod l.(event_capacity)
                          =? cursor.(cursor_position) mod l.(event_capacity))
      then staged ← ok (stage_mutation mutation);
           Some (mutation_words index cursor revision staged commit_time arrival_time)
      else None
  | EventPart e n, ResolutionPublished index revision cursor resolution commit_time arrival_time =>
      if (e =? index) && (n mod l.(event_capacity)
                          =? cursor.(cursor_position) mod l.(event_capacity))
      then staged ← ok (stage_resolution resolution);
           Some (resolution_words index cursor revision staged commit_time arrival_time)
      else None
  | _, _ => None
  end.

Definition publications (l : SegmentLayout) (part : Part) (log : list Publication) :
    list (list (Z * Z)) :=
  omap (fun p => shift (part_base l part) <$> words_into l part p) log.

Definition is_state (p : Publication) : bool :=
  match p with StatePublished _ _ _ _ _ => true | _ => false end.
Definition states (log : list Publication) : list Publication := List.filter is_state log.

(** ** Runs *)

Inductive writer_trace : list Publication -> SegmentWriter -> Prop :=
| trace_create region config accepts_a_wait created w m :
    layout_wf config.(config_layout) ->
    0 <= config.(config_instance) < 2 ^ 128 -> 0 <= config.(config_generation) <= U64_MAX ->
    create region config accepts_a_wait created fresh_memory = Some (Ok w, m) ->
    writer_trace [] w
| trace_install log w market r w' : writer_trace log w -> market_wf market ->
    install market w = Some (r, w') -> writer_trace log w'
(** [publish] and [republish_carrying_stamps] are this with their own stamps. *)
| trace_state log w handle book commit_time arrival_time woken r w' : writer_trace log w ->
    0 <= handle.(entry_index) <= U32_MAX ->
    publish_stamped handle book commit_time arrival_time woken w = Some (r, w') ->
    writer_trace (log ++ match r with
      | Ok _ => [StatePublished handle.(entry_index) w.(dirty_position) book commit_time arrival_time]
      | Err _ => [] end) w'
| trace_mutation log w handle revision cursor mutation now arrival_time r w' :
    writer_trace log w -> 0 <= handle.(entry_index) <= U32_MAX ->
    0 <= cursor.(cursor_position) <= U64_MAX ->
    publish_mutation handle revision cursor mutation now arrival_time w = Some (r, w') ->
    writer_trace (log ++ match r with
      | Ok _ => [MutationPublished handle.(entry_index) revision cursor mutation now arrival_time]
      | Err _ => [] end) w'
| trace_resolution log w handle revision cursor resolution now arrival_time r w' :
    writer_trace log w -> 0 <= handle.(entry_index) <= U32_MAX ->
    0 <= cursor.(cursor_position) <= U64_MAX ->
    publish_resolution handle revision cursor resolution now arrival_time w = Some (r, w') ->
    writer_trace (log ++ match r with
      | Ok _ => [ResolutionPublished handle.(entry_index) revision cursor resolution now arrival_time]
      | Err _ => [] end) w'.

(** ** Places *)

Definition is_record (p : Part) : bool :=
  match p with SlotPart _ | EventPart _ _ | DirtyPart _ => true | _ => false end.

Definition record_data (l : SegmentLayout) (p : Part) (x : Z) : Prop :=
  part_base l p + 8 <= x < part_base l p + part_size l p.
Definition in_part (l : SegmentLayout) (p : Part) (x : Z) : Prop :=
  part_base l p <= x < part_base l p + part_size l p.

Section places.
Context (l : SegmentLayout) (Hl : layout_wf l).

Lemma in_part_elsewhere p q x : part_valid l p -> part_valid l q -> ~ same_part l p q ->
  in_part l q x -> elsewhere (part_base l p) (record_data l p) x.
Proof.
  intros Hp Hq Hn Hx. destruct (parts_disjoint l Hl p q Hp Hq) as [|Hd]; [done|].
  unfold in_part, elsewhere, record_data in *.
  assert (0 < part_size l p); [|lia].
  pose proof (stride_spec l Hl) as [? _]. destruct Hl as [_ _ ? _ _ _ _ _].
  destruct p; simpl; layout_consts; lia.
Qed.

Lemma same_part_eq p q : same_part l p q ->
  part_base l p = part_base l q /\ part_size l p = part_size l q /\
  forall pub, words_into l p pub = words_into l q pub.
Proof.
  destruct p as [| |i|i|e n|n], q as [| |j|j|f k|k]; simpl; intros H; try done.
  - by subst.
  - by subst.
  - destruct H as [<- H]. rewrite H. split_and!; [done..|]. intros []; simpl; by rewrite ?H.
  - rewrite H. split_and!; [done..|]. intros []; simpl; by rewrite ?H.
Qed.

Lemma counter_not_record_data p : ~ record_data l p (part_base l p).
Proof. unfold record_data. lia. Qed.

(** The decision that [words_into] takes. *)
Lemma same_part_dec p q : {same_part l p q} + {~ same_part l p q}.
Proof.
  destruct p, q; simpl; try (by left); try (right; tauto); try apply Z.eq_dec.
  destruct (Z.eq_dec entry entry0), (Z.eq_dec (position mod event_capacity l) (position0 mod event_capacity l));
    (by left) || (right; tauto).
Qed.
End places.

(** ** What an operation adds to the history *)

Lemma Forall_snoc {A} (P : A -> Prop) l x : Forall P (l ++ [x]) <-> Forall P l /\ P x.
Proof. by rewrite Forall_app, Forall_singleton. Qed.

Definition extends (P : Z -> Prop) (m m' : Memory) : Prop :=
  exists ext, m'.(history) = m.(history) ++ ext /\ Forall (fun x => P x.(place)) ext.

Lemma extends_refl P m : extends P m m.
Proof. exists []. by rewrite app_nil_r. Qed.
Lemma extends_trans P m m' m'' : extends P m m' -> extends P m' m'' -> extends P m m''.
Proof.
  intros (e & H & He) (e' & H' & He'). exists (e ++ e'). rewrite H', H, app_assoc.
  split; [done|]. by apply Forall_app.
Qed.
Lemma extends_weaken (P Q : Z -> Prop) m m' : (forall x, P x -> Q x) -> extends P m m' ->
  extends Q m m'.
Proof. intros HPQ (e & H & He). exists e. split; [done|]. eapply Forall_impl; [done|]. simpl. auto. Qed.
Lemma extends_relaxed (P : Z -> Prop) l v m : P l -> extends P m (relaxed_store l v m).
Proof. intros H. eexists. split; [done|]. by repeat constructor. Qed.
Lemma extends_release (P : Z -> Prop) l v m : P l -> extends P m (release_store l v m).
Proof. intros H. eexists. split; [done|]. by repeat constructor. Qed.
Lemma extends_stores (P : Z -> Prop) stores m : Forall (fun s => P s.1) stores ->
  extends P m (relaxed_stores stores m).
Proof.
  intros H. destruct (relaxed_stores_spec stores m) as [_ E]. eexists. split; [exact E|].
  apply Forall_fmap. eapply Forall_impl; [done|]. by intros [l v].
Qed.
Lemma extends_record (P : Z -> Prop) c a b stores m : P c -> Forall (fun s => P s.1) stores ->
  extends P m (write_record c a b stores m).
Proof.
  intros Hc Hs. unfold write_record, close_write, open_write.
  eapply extends_trans; [|by apply extends_release].
  eapply extends_trans; [|by apply extends_stores]. by apply (extends_relaxed P).
Qed.

Lemma current_extends P m m' l : extends P m m' -> ~ P l -> current m' l = current m l.
Proof.
  intros (ext & E & H) Hl. unfold current. rewrite E. clear E. induction ext as [|x ext IH] using rev_ind.
  - by rewrite app_nil_r.
  - apply Forall_snoc in H as [H Hx]. rewrite app_assoc, cell_value_snoc.
    destruct (Z.eqb_spec x.(place) l) as [<-|]; [done|]. auto.
Qed.

Lemma extends_blank gate data P m m' : (forall x, P x -> x <> gate /\ ~ data x) -> extends P m m' ->
  blank gate data m.(history) -> blank gate data m'.(history).
Proof.
  intros HP (ext & E & H) Hb. rewrite E. clear E. induction ext as [|x ext IH] using rev_ind.
  - by rewrite app_nil_r.
  - apply Forall_snoc in H as [H Hx]. rewrite app_assoc. apply HP in Hx as [? ?].
    apply blank_snoc; auto.
Qed.

Lemma extends_once gate data v f P m m' : (forall x, P x -> x <> gate /\ ~ data x) ->
  extends P m m' -> once gate data v f m.(history) -> once gate data v f m'.(history).
Proof.
  intros HP (ext & E & H) Hb. rewrite E. clear E. induction ext as [|x ext IH] using rev_ind.
  - by rewrite app_nil_r.
  - apply Forall_snoc in H as [H Hx]. rewrite app_assoc. apply HP in Hx as [? ?].
    apply once_snoc; auto.
Qed.

(** A blank record holds zeros. *)
Lemma blank_zero gate data m x : blank gate data m.(history) -> x = gate \/ data x -> current m x = 0.
Proof.
  intros H Hx. unfold current, cell_value. replace (last_in (history m) x) with (@None nat); [done|].
  symmetry. apply last_in_None. intros i y Hi Hy. destruct (H i y Hi) as [? ?].
  destruct Hx as [->|Hx]; [done|]. by rewrite <- Hy in Hx.
Qed.

(** ** Records under one operation *)

Section records.
Context (l : SegmentLayout) (Hl : layout_wf l).

Definition records_ok (prep : Part -> list (Z * Z)) (pubs : Part -> list (list (Z * Z)))
    (m : Memory) : Prop :=
  forall p, is_record p = true -> part_valid l p ->
    writer_run (part_base l p) (record_data l p) (prep p) (pubs p) m.

Lemma shift_places q ws : Forall (fun e => 8 <= e.1 < part_size l q) ws ->
  Forall (fun s => record_data l q s.1) (shift (part_base l q) ws).
Proof.
  intros H. apply Forall_fmap. eapply Forall_impl; [done|]. intros [o v]. simpl.
  unfold record_data. lia.
Qed.

Lemma records_publish prep pubs m q ws : is_record q = true -> part_valid l q ->
  Forall (fun e => 8 <= e.1 < part_size l q) ws -> records_ok prep pubs m ->
  records_ok prep
    (fun p => if same_part_dec l p q then pubs p ++ [shift (part_base l q) ws] else pubs p)
    (write_record (part_base l q) (writer_current (part_base l q) m + 1)
       (writer_current (part_base l q) m + 2) (shift (part_base l q) ws) m).
Proof.
  intros Hr Hq Hw H p Hrp Hp. pose proof (shift_places q ws Hw) as Hs.
  destruct (same_part_dec l p q) as [Hpq|Hpq].
  - destruct (same_part_eq l p q Hpq) as (Eb & Es & _). rewrite <- Eb in *.
    apply run_publish; [by apply H|]. eapply Forall_impl; [done|].
    intros s. simpl. unfold record_data. by rewrite Eb, Es.
  - apply writer_run_record; [by apply H|..].
    + apply (in_part_elsewhere l Hl p q); try done. unfold in_part.
      pose proof (stride_spec l Hl) as [? _]. destruct Hl as [_ _ ? _ _ _ _ _].
      destruct q; simpl; layout_consts; try done; lia.
    + eapply Forall_impl; [done|]. intros s Hsd. apply (in_part_elsewhere l Hl p q); try done.
      unfold in_part, record_data in *. lia.
Qed.

Lemma is_record_not_same p q : is_record p = true -> is_record q = false -> ~ same_part l p q.
Proof. destruct p, q; simpl; try done; tauto. Qed.

Section other.
Context (prep : Part -> list (Z * Z)) (pubs : Part -> list (list (Z * Z))) (m : Memory) (q : Part).
Hypotheses (Hq : part_valid l q) (Hnr : is_record q = false).

Lemma records_relaxed x v : in_part l q x -> records_ok prep pubs m ->
  records_ok prep pubs (relaxed_store x v m).
Proof.
  intros Hx H p Hr Hp.
  destruct (in_part_elsewhere l Hl p q x Hp Hq (is_record_not_same p q Hr Hnr) Hx).
  apply run_relaxed; auto.
Qed.
Lemma records_release x v : in_part l q x -> records_ok prep pubs m ->
  records_ok prep pubs (release_store x v m).
Proof.
  intros Hx H p Hr Hp.
  destruct (in_part_elsewhere l Hl p q x Hp Hq (is_record_not_same p q Hr Hnr) Hx).
  apply run_release; auto.
Qed.
Lemma records_stores stores : Forall (fun s => in_part l q s.1) stores -> records_ok prep pubs m ->
  records_ok prep pubs (relaxed_stores stores m).
Proof.
  intros Hx H p Hr Hp. apply writer_run_stores; [by apply H|]. eapply Forall_impl; [done|].
  intros s Hs. by apply (in_part_elsewhere l Hl p q _ Hp Hq (is_record_not_same p q Hr Hnr)).
Qed.
End other.

(** The counter of a record is twice its publications. *)
Lemma records_counter prep pubs m p : records_ok prep pubs m -> is_record p = true ->
  part_valid l p -> writer_current (part_base l p) m = 2 * len (pubs p).
Proof.
  intros H Hr Hp. destruct (writer_run_leaves _ _ (counter_not_record_data l p) _ _ _ (H p Hr Hp)).
  done.
Qed.

(** ** Directory entries *)

Definition entry_words (index : Z) (identity : bytes) : list (Z * Z) :=
  [(ENT_SLOT_INDEX, index); (ENT_IDENTITY_LEN, len identity)]
  ++ imap (fun k b => (ENT_IDENTITY + Z.of_nat k, b)) identity.

Definition entry_cells_of (index : Z) (market : MarketRef) : Z -> Z :=
  overlay (shift (part_base l (DirectoryPart index)) (entry_words index (identity_bytes market)))
    (fun _ => 0).

Definition entries_ok (markets : list MarketRef) (m : Memory) : Prop :=
  forall i, 0 <= i < l.(directory_capacity) ->
    let p := DirectoryPart i in
    match markets !! Z.to_nat i with
    | Some market => market_wf market /\ len (identity_bytes market) <= IDENTITY_CAPACITY /\
        once (part_base l p) (record_data l p) 1 (entry_cells_of i market) m.(history)
    | None => blank (part_base l p) (record_data l p) m.(history)
    end.

(** Places outside a directory entry. *)
Definition off_entry (i x : Z) : Prop := ~ in_part l (DirectoryPart i) x.

Lemma off_entry_elsewhere i x : off_entry i x ->
  x <> part_base l (DirectoryPart i) /\ ~ record_data l (DirectoryPart i) x.
Proof.
  unfold off_entry, in_part, record_data. intros H. simpl part_size in *. layout_consts. lia.
Qed.

Lemma entries_extend markets m m' :
  extends (fun x => forall i, 0 <= i < l.(directory_capacity) -> off_entry i x) m m' ->
  entries_ok markets m -> entries_ok markets m'.
Proof.
  intros He H i Hi p. specialize (H i Hi). cbv zeta in H. fold p in H.
  destruct (markets !! Z.to_nat i) as [mk|].
  - destruct H as (Hw & Hlen & H). split_and!; [done..|].
    eapply extends_once; [|done|done]. intros x Hx. by apply off_entry_elsewhere, Hx.
  - eapply extends_blank; [|done|done]. intros x Hx. by apply off_entry_elsewhere, Hx.
Qed.

Lemma part_off_entry q x i : part_valid l q -> 0 <= i < l.(directory_capacity) ->
  ~ same_part l (DirectoryPart i) q -> in_part l q x -> off_entry i x.
Proof.
  intros Hq Hi Hn Hx Hin. destruct (parts_disjoint l Hl (DirectoryPart i) q Hi Hq) as [|Hd]; [done|].
  unfold in_part in *. lia.
Qed.
End records.

(** ** The invariant of a writer *)

Definition prepared (l : SegmentLayout) (count : Z) (p : Part) : list (Z * Z) :=
  match p with
  | SlotPart i => if i <? count then [(part_base l p + SLOT_DIRECTORY_INDEX, i)] else []
  | _ => []
  end.

(** A publication was staged, for the market installed at its index. *)
Definition publication_ok (l : SegmentLayout) (markets : list MarketRef) (p : Publication) : Prop :=
  0 <= publication_index p < len markets /\
  match p with
  | StatePublished i position book _ _ =>
      0 <= position <= U64_MAX /\ is_ok (stage l book) = true /\
      markets !! Z.to_nat i = Some book.(published_market)
  | MutationPublished i _ cursor mutation _ _ =>
      0 <= cursor.(cursor_position) <= U64_MAX /\ is_ok (stage_mutation mutation) = true /\
      markets !! Z.to_nat i = Some mutation.(mutation_provenance).(market)
  | ResolutionPublished i _ cursor resolution _ _ =>
      0 <= cursor.(cursor_position) <= U64_MAX /\ is_ok (stage_resolution resolution) = true /\
      markets !! Z.to_nat i = Some resolution.(observation).(resolution_provenance).(market)
  end.

Definition position_of (p : Publication) : option Z :=
  match p with StatePublished _ position _ _ _ => Some position | _ => None end.

(** The stamps of the last state published at an index. *)
Definition stamps_at (log : list Publication) (i : Z) : Z * Z :=
  fold_left (fun acc p => match p with
    | StatePublished index _ _ commit_time arrival_time =>
        if i =? index then (commit_time, arrival_time) else acc
    | _ => acc
    end) log (0, 0).

Definition markets (w : SegmentWriter) : list MarketRef := installed_market <$> w.(installed).

Record writer_inv (log : list Publication) (w : SegmentWriter) : Prop := {
  inv_layout : layout_wf (writer_layout w);
  inv_size : w.(region).(size_bytes) = region_size (writer_layout w);
  inv_writable : w.(region).(is_writable) = true;
  inv_binding : w.(binding) = binding_new w.(region) w.(geometry);
  inv_count : len (markets w) <= (writer_layout w).(directory_capacity);
  inv_distinct : NoDup (markets w);
  inv_records : records_ok (writer_layout w) (prepared (writer_layout w) (len (markets w)))
    (fun p => publications (writer_layout w) p log) w.(memory);
  inv_entries : entries_ok (writer_layout w) (markets w) w.(memory);
  inv_log : Forall (publication_ok (writer_layout w) (markets w)) log;
  inv_generation : current w.(memory) HDR_PUBLICATION_GENERATION = len log;
  inv_doorbell : current w.(memory) HDR_DOORBELL = as_u32 (len log);
  inv_page : match w.(doorbell) with
             | InHeader => True | Page page => current page 0 = as_u32 (len log)
             end;
  inv_dirty : w.(dirty_position) = as_u64 (len (states log));
  inv_wakes : w.(wake_posts) = as_u64 (len (states log));
  inv_positions : omap position_of log
    = map (fun k => as_u64 (Z.of_nat k)) (seq 0 (length (states log)));
  inv_stamps : forall i e, w.(installed) !! i = Some e ->
    (e.(commit_time), e.(arrival_time)) = stamps_at log (Z.of_nat i)
}.

(** ** What the steps of an operation do *)

Definition well_placed (w : SegmentWriter) : Prop :=
  layout_wf (writer_layout w) /\ w.(region).(size_bytes) = region_size (writer_layout w).

Lemma header_at w : well_placed w ->
  header_record w.(region).(size_bytes) = Ok {| rec_base := 0; rec_size := HEADER_BYTES |}.
Proof. intros [Hl ->]. exact (part_record_Ok _ Hl HeaderPart I). Qed.

Lemma slot_at w i : well_placed w -> 0 <= i < (writer_layout w).(state_slot_capacity) ->
  state_slot_record w.(region).(size_bytes) (writer_layout w) i
  = Ok {| rec_base := part_base (writer_layout w) (SlotPart i);
          rec_size := part_size (writer_layout w) (SlotPart i) |}.
Proof. intros [Hl ->] Hi. exact (part_record_Ok _ Hl (SlotPart i) Hi). Qed.

Lemma entry_at w i : well_placed w -> 0 <= i < (writer_layout w).(directory_capacity) ->
  directory_record w.(region).(size_bytes) (writer_layout w) i
  = Ok {| rec_base := part_base (writer_layout w) (DirectoryPart i);
          rec_size := DIRECTORY_ENTRY_BYTES |}.
Proof. intros [Hl ->] Hi. exact (part_record_Ok _ Hl (DirectoryPart i) Hi). Qed.

Lemma event_at w e n : well_placed w -> part_valid (writer_layout w) (EventPart e n) ->
  event_slot_record w.(region).(size_bytes) (writer_layout w) e n
  = Ok {| rec_base := part_base (writer_layout w) (EventPart e n); rec_size := EVENT_SLOT_BYTES |}.
Proof. intros [Hl ->] Hi. exact (part_record_Ok _ Hl (EventPart e n) Hi). Qed.

Lemma dirty_at w n : well_placed w -> 0 <= n <= U64_MAX ->
  dirty_slot_record w.(region).(size_bytes) (writer_layout w) n
  = Ok {| rec_base := part_base (writer_layout w) (DirtyPart n); rec_size := DIRTY_SLOT_BYTES |}.
Proof. intros [Hl ->] Hi. exact (part_record_Ok _ Hl (DirtyPart n) Hi). Qed.

Definition rung (w : SegmentWriter) : SegmentWriter :=
  let bumped := wrapping_add_u32 (current w.(memory) HDR_DOORBELL) 1 in
  set_doorbell (match w.(doorbell) with
                | InHeader => InHeader
                | Page page => Page (relaxed_store 0 bumped page)
                end) (set_memory (relaxed_store HDR_DOORBELL bumped w.(memory)) w).

Lemma ring_doorbell_at w : well_placed w -> ring_doorbell w = Some (Ok (), rung w).
Proof.
  intros Hw. unfold ring_doorbell, rung, cbind, cgets, expect, storing, cmodify.
  cbn [mbind option_bind id]. rewrite (header_at w Hw). cbn.
  by destruct w as [? ? ? ? ? [|page] ? ? ?].
Qed.

(** What the writer asks of a handle: it is the one installation gave for the market. *)
Definition addressable (h : MarketHandle) (market : MarketRef) (w : SegmentWriter) : Prop :=
  h.(segment) = w.(binding) /\ h.(state_slot_index) = h.(entry_index) /\
  markets w !! Z.to_nat h.(entry_index) = Some market.

(** A counter has no room for another publication. *)
Definition counters_spent (w : SegmentWriter) : Prop :=
  U64_MAX < current w.(memory) HDR_PUBLICATION_GENERATION + 1 \/
  exists p, is_record p = true /\ part_valid (writer_layout w) p /\
    U64_MAX < writer_current (part_base (writer_layout w) p) w.(memory) + 2.

Definition refusable (h : MarketHandle) (market : MarketRef) (staged : bool) (w : SegmentWriter) : Prop :=
  ~ addressable h market w \/ staged = false \/ counters_spent w.

Lemma addressed_cases h market w : 0 <= h.(entry_index) ->
  (exists e, addressed h market w = Some (Err e, w) /\ ~ addressable h market w) \/
  addressed h market w = Some (Ok (), w) /\ addressable h market w /\
  h.(entry_index) < len (markets w).
Proof.
  intros H0. unfold addressed, cbind, cgets. cbn [mbind option_bind id]. unfold cdeny.
  destruct (negb _ || negb _) eqn:Eb.
  { left. eexists. split; [done|]. intros (Hs & Hi & _).
    rewrite Hs, Hi, bool_decide_true, Z.eqb_refl in Eb by done. done. }
  bool_facts. cbn [mbind option_bind cret]. unfold addressable, markets. rewrite list_lookup_fmap.
  destruct (installed w !! Z.to_nat (entry_index h)) as [i|] eqn:Ei;
    [|left; eexists; split; [done|]; by intros (_ & _ & ?)].
  destruct (negb _) eqn:Em.
  { left. eexists. split; [done|]. intros (_ & _ & [= Hm]).
    by rewrite Hm, bool_decide_true in Em by done. }
  bool_facts. right. split_and!; try done; [by simpl; f_equal|].
  apply lookup_lt_Some in Ei. unfold len. rewrite length_fmap. lia.
Qed.

(** Taking a counter two further succeeds or is refused; nothing else. *)
Lemma interval_cases slot offset w : word_fits 8 slot.(rec_size) offset = true ->
  0 <= writer_current (slot.(rec_base) + offset) w.(memory) ->
  let counter := slot.(rec_base) + offset in
  let stable := writer_current counter w.(memory) in
  stage_interval slot offset w = Some (Err WriterCounterOverflow, w) /\ U64_MAX < stable + 2 \/
  stage_interval slot offset w = Some (Ok {| counter_cell := counter; in_flight := stable + 1;
                                            next_stable := stable + 2 |}, w).
Proof.
  intros Hf H0. cbv zeta. destruct slot as [base size]. unfold stage_interval, cbind, cgets, expect.
  cbn [mbind option_bind id rec_base rec_size] in *. rewrite (ptr_at _ _ _ _ Hf).
  cbn [mbind option_bind]. set (s := writer_current _ _). unfold checked_add_u64.
  destruct (checked 0 U64_MAX (s + 1)) as [a|] eqn:E1;
    [|left; split; [done|]; apply checked_None in E1; subst s; lia].
  apply checked_Some in E1 as [<- _]. destruct (checked 0 U64_MAX (s + 2)) as [b|] eqn:E2;
    [|left; split; [done|]; apply checked_None in E2; subst s; lia].
  apply checked_Some in E2 as [<- _]. by right.
Qed.

Lemma generation_cases w : 0 <= current w.(memory) HDR_PUBLICATION_GENERATION ->
  stage_generation {| rec_base := 0; rec_size := HEADER_BYTES |} w
    = Some (Err WriterCounterOverflow, w) /\
    U64_MAX < current w.(memory) HDR_PUBLICATION_GENERATION + 1 \/
  stage_generation {| rec_base := 0; rec_size := HEADER_BYTES |} w
    = Some (Ok (HDR_PUBLICATION_GENERATION, current w.(memory) HDR_PUBLICATION_GENERATION + 1), w).
Proof.
  intros H0. unfold stage_generation, cbind, cgets, expect. cbn [mbind option_bind id].
  rewrite ptr_at by reflexivity. cbn [mbind option_bind].
  change (0 + HDR_PUBLICATION_GENERATION) with HDR_PUBLICATION_GENERATION. unfold checked_add_u64.
  destruct (checked 0 U64_MAX _) as [a|] eqn:E1;
    [|left; split; [done|]; apply checked_None in E1; lia]. apply checked_Some in E1 as [<- _].
  by right.
Qed.

Lemma stage_dirty_cases w : well_placed w -> 0 <= w.(dirty_position) <= U64_MAX ->
  0 <= writer_current (part_base (writer_layout w) (DirtyPart w.(dirty_position))) w.(memory) ->
  let stable := writer_current (part_base (writer_layout w) (DirtyPart w.(dirty_position))) w.(memory) in
  stage_dirty w = Some (Err WriterCounterOverflow, w) /\ U64_MAX < stable + 2 \/
  stage_dirty w = Some (Ok {| sd_position := w.(dirty_position); sd_in_flight := stable + 1;
                             sd_next_stable := stable + 2 |}, w).
Proof.
  intros Hw Hd H0. cbv zeta. unfold stage_dirty, cbind, cgets, expect, clift. cbn [mbind option_bind id].
  rewrite (dirty_at w _ Hw Hd). cbn [map_err]. rewrite ptr_at by reflexivity. cbn [mbind option_bind].
  unfold DIRTY_SEQUENCE. rewrite Z.add_0_r. set (s := writer_current _ _). unfold checked_add_u64.
  destruct (checked 0 U64_MAX (s + 1)) as [a|] eqn:E1;
    [|left; split; [done|]; apply checked_None in E1; subst s; lia].
  apply checked_Some in E1 as [<- _]. destruct (checked 0 U64_MAX (s + 2)) as [b|] eqn:E2;
    [|left; split; [done|]; apply checked_None in E2; subst s; lia].
  apply checked_Some in E2 as [<- _]. by right.
Qed.

Lemma commit_dirty_at w staged index revision : well_placed w -> 0 <= staged.(sd_position) <= U64_MAX ->
  let d := DirtyPart staged.(sd_position) in
  commit_dirty staged index revision w = Some (Ok (),
    set_memory (write_record (part_base (writer_layout w) d) staged.(sd_in_flight)
      staged.(sd_next_stable)
      (shift (part_base (writer_layout w) d) (dirty_words staged.(sd_position) index revision))
      w.(memory)) w).
Proof.
  intros Hw Hd. cbv zeta. unfold commit_dirty, cbind, cgets, expect, clift. cbn [mbind option_bind id].
  rewrite (dirty_at w _ Hw Hd). rewrite ptr_at by reflexivity. rewrite dirty_stores_at.
  cbn [mbind option_bind]. unfold DIRTY_SEQUENCE. by rewrite Z.add_0_r.
Qed.

(** ** The outcome of each publication *)

(** One interval of a part's record. *)
Definition record_written (l : SegmentLayout) (p : Part) (words : list (Z * Z)) (m : Memory) : Memory :=
  write_record (part_base l p) (writer_current (part_base l p) m + 1)
    (writer_current (part_base l p) m + 2) (shift (part_base l p) words) m.

Definition generation_advanced (next : Z) (w : SegmentWriter) : SegmentWriter :=
  set_memory (release_store HDR_PUBLICATION_GENERATION next w.(memory)) w.

Definition woken_up (woken : bool) (w : SegmentWriter) : SegmentWriter :=
  set_wakes (wrapping_add_u64 w.(wake_posts) 1)
    (if woken then w.(wake_faults) else wrapping_add_u64 w.(wake_faults) 1) w.

Definition state_done (index : Z) (staged : StagedState) (commit_time arrival_time : Z)
    (woken : bool) (w : SegmentWriter) : SegmentWriter :=
  let l := writer_layout w in
  let slot := SlotPart index in
  let dirty := DirtyPart w.(dirty_position) in
  let dirty_stable := writer_current (part_base l dirty) w.(memory) in
  let m1 := record_written l slot (state_words staged commit_time arrival_time) w.(memory) in
  let m2 := write_record (part_base l dirty) (dirty_stable + 1) (dirty_stable + 2)
    (shift (part_base l dirty) (dirty_words w.(dirty_position) index staged.(st_book_revision))) m1 in
  stamp index commit_time arrival_time
    (woken_up woken
      (set_dirty_position (wrapping_add_u64 w.(dirty_position) 1)
        (generation_advanced (current w.(memory) HDR_PUBLICATION_GENERATION + 1)
          (rung (set_memory m2 w))))).

Definition event_done (p : Part) (words : list (Z * Z)) (w : SegmentWriter) : SegmentWriter :=
  generation_advanced (current w.(memory) HDR_PUBLICATION_GENERATION + 1)
    (rung (set_memory (record_written (writer_layout w) p words w.(memory)) w)).

Lemma slot_room l : layout_wf l ->
  SLOT_PREFIX_BYTES + l.(level_capacity) * LEVEL_CELL_BYTES <= state_slot_stride l.
Proof. intros Hl. pose proof (stride_spec l Hl) as [? _]. layout_consts. lia. Qed.

Lemma slot_counter_fits l : layout_wf l -> word_fits 8 (state_slot_stride l) SLOT_REVISION = true.
Proof.
  intros Hl. pose proof (slot_room l Hl). destruct Hl as [_ _ ? _ _ _ _ _].
  apply (word_fits_grows 8 SLOT_PREFIX_BYTES); [|done]. layout_consts. lia.
Qed.

(** The counters are unsigned. *)
Definition counters_sane (w : SegmentWriter) : Prop :=
  0 <= current w.(memory) HDR_PUBLICATION_GENERATION /\
  forall p, is_record p = true -> part_valid (writer_layout w) p ->
    0 <= writer_current (part_base (writer_layout w) p + 0) w.(memory).

Lemma publish_stamped_cases h book commit_time arrival_time woken w : well_placed w -> counters_sane w ->
  0 <= w.(dirty_position) <= U64_MAX -> len (markets w) <= (writer_layout w).(directory_capacity) ->
  0 <= h.(entry_index) ->
  (exists e, publish_stamped h book commit_time arrival_time woken w = Some (Err e, w) /\
     refusable h book.(published_market) (is_ok (stage (writer_layout w) book)) w) \/
  exists staged, stage (writer_layout w) book = Ok staged /\
    addressable h book.(published_market) w /\ h.(entry_index) < len (markets w) /\
    publish_stamped h book commit_time arrival_time woken w
    = Some (Ok (), state_done h.(entry_index) staged commit_time arrival_time woken w).
Proof.
  intros Hw Hsane Hd Hcount H0. unfold publish_stamped.
  pose proof (proj2 Hsane (DirtyPart w.(dirty_position)) eq_refl Hd) as Hdsane. rewrite Z.add_0_r in Hdsane.
  destruct (addressed_cases h book.(published_market) w H0) as [(e & He & Hna)|(Ha & Hadd & Hlt)];
    [left; rewrite (cbind_Err _ _ _ _ _ He); eexists; split; [done|by left]|].
  rewrite (cbind_Ok _ _ _ _ _ Ha), (cbind_Ok (cgets id) _ w w w eq_refl).
  destruct (stage (writer_layout w) book) as [staged|e] eqn:Es;
    [|left; eexists; split; [by apply cbind_Err|right; by left]].
  rewrite (cbind_Ok _ _ w staged w eq_refl).
  destruct (stage_dirty_cases w Hw Hd Hdsane) as [[He Hsp]|He].
  { left. rewrite (cbind_Err _ _ _ _ _ He). eexists. split; [done|]. right. right. right.
    by exists (DirtyPart w.(dirty_position)). }
  rewrite (cbind_Ok _ _ _ _ _ He). clear He.
  rewrite (header_at w Hw), (cbind_Ok _ _ w _ w eq_refl).
  assert (Hi : 0 <= entry_index h < state_slot_capacity (writer_layout w))
    by (destruct (proj1 Hw) as [? _ _ _ _ _ _ _]; lia).
  rewrite (slot_at w _ Hw Hi), (cbind_Ok _ _ w _ w eq_refl).
  destruct (generation_cases w (proj1 Hsane)) as [[He Hsp]|He].
  { left. rewrite (cbind_Err _ _ _ _ _ He). eexists. split; [done|]. right. right. by left. }
  rewrite (cbind_Ok _ _ _ _ _ He). clear He.
  destruct (interval_cases {| rec_base := part_base (writer_layout w) (SlotPart (entry_index h));
      rec_size := part_size (writer_layout w) (SlotPart (entry_index h)) |} SLOT_REVISION w
      (slot_counter_fits _ (proj1 Hw)) (proj2 Hsane (SlotPart _) eq_refl Hi)) as [[He Hsp]|He].
  { left. rewrite (cbind_Err _ _ _ _ _ He). eexists. split; [done|]. right. right. right.
    exists (SlotPart (entry_index h)). split_and!; [done|exact Hi|].
    cbn [rec_base] in Hsp. unfold SLOT_REVISION in Hsp. by rewrite Z.add_0_r in Hsp. }
  rewrite (cbind_Ok _ _ _ _ _ He). clear He.
  rewrite (cbind_Ok (expect _) _ w
    (shift (part_base (writer_layout w) (SlotPart (entry_index h)))
       (state_words staged commit_time arrival_time)) w); [|unfold expect;
    rewrite (state_stores_at _ _ _ _ _ (level_capacity (writer_layout w)));
      [done|by apply stage_fits in Es|exact (slot_room _ (proj1 Hw))]].
  right. exists staged. split_and!; [done..|].
  erewrite cbind_Ok; [|reflexivity]. cbn [counter_cell in_flight next_stable rec_base].
  unfold SLOT_REVISION. rewrite !Z.add_0_r.
  erewrite cbind_Ok; [|apply commit_dirty_at; [exact Hw|exact Hd]].
  erewrite cbind_Ok; [|apply ring_doorbell_at; exact Hw].
  reflexivity.
Qed.

Lemma publish_event_cases index position event_stores words w : well_placed w -> counters_sane w ->
  part_valid (writer_layout w) (EventPart index position) ->
  (forall base, event_stores {| rec_base := base; rec_size := EVENT_SLOT_BYTES |}
                = Some (shift base words)) ->
  (exists e, publish_event index position event_stores w = Some (Err e, w) /\ counters_spent w) \/
  publish_event index position event_stores w
    = Some (Ok (), event_done (EventPart index position) words w).
Proof.
  intros Hw Hsane Hp Hs. unfold publish_event. rewrite (cbind_Ok (cgets id) _ w w w eq_refl).
  rewrite (header_at w Hw), (cbind_Ok _ _ w _ w eq_refl).
  rewrite (event_at w _ _ Hw Hp), (cbind_Ok _ _ w _ w eq_refl).
  destruct (generation_cases w (proj1 Hsane)) as [[He Hsp]|He].
  { left. rewrite (cbind_Err _ _ _ _ _ He). eexists. split; [done|]. by left. }
  rewrite (cbind_Ok _ _ _ _ _ He). clear He.
  destruct (interval_cases {| rec_base := part_base (writer_layout w) (EventPart index position);
      rec_size := EVENT_SLOT_BYTES |} EVT_SEQUENCE w eq_refl (proj2 Hsane (EventPart _ _) eq_refl Hp)) as [[He Hsp]|He].
  { left. rewrite (cbind_Err _ _ _ _ _ He). eexists. split; [done|]. right.
    exists (EventPart index position). split_and!; [done|done|].
    cbn [rec_base] in Hsp. unfold EVT_SEQUENCE in Hsp. by rewrite Z.add_0_r in Hsp. }
  rewrite (cbind_Ok _ _ _ _ _ He). clear He.
  rewrite (cbind_Ok (expect _) _ w
    (shift (part_base (writer_layout w) (EventPart index position)) words) w);
    [|unfold expect; by rewrite Hs].
  right. erewrite cbind_Ok; [|reflexivity]. cbn [counter_cell in_flight next_stable rec_base].
  unfold EVT_SEQUENCE. rewrite !Z.add_0_r.
  erewrite cbind_Ok; [|apply ring_doorbell_at; exact Hw].
  reflexivity.
Qed.

Lemma publish_mutation_cases h revision cursor mutation now arrival_time w : well_placed w ->
  counters_sane w ->
  len (markets w) <= (writer_layout w).(directory_capacity) ->
  0 <= h.(entry_index) -> 0 <= cursor.(cursor_position) <= U64_MAX ->
  (exists e, publish_mutation h revision cursor mutation now arrival_time w = Some (Err e, w) /\
     refusable h mutation.(mutation_provenance).(market) (is_ok (stage_mutation mutation)) w) \/
  exists staged, stage_mutation mutation = Ok staged /\
    addressable h mutation.(mutation_provenance).(market) w /\ h.(entry_index) < len (markets w) /\
    publish_mutation h revision cursor mutation now arrival_time w
    = Some (Ok (), event_done (EventPart h.(entry_index) cursor.(cursor_position))
        (mutation_words h.(entry_index) cursor revision staged now arrival_time) w).
Proof.
  intros Hw Hsane Hcount H0 Hp. unfold publish_mutation.
  destruct (addressed_cases h mutation.(mutation_provenance).(market) w H0)
    as [(e & He & Hna)|(Ha & Hadd & Hlt)];
    [left; rewrite (cbind_Err _ _ _ _ _ He); eexists; split; [done|by left]|].
  rewrite (cbind_Ok _ _ _ _ _ Ha).
  destruct (stage_mutation mutation) as [staged|e] eqn:Es; [|left; eexists; split; [by apply cbind_Err|right; by left]].
  rewrite (cbind_Ok _ _ w staged w eq_refl).
  destruct (publish_event_cases (entry_index h) (cursor_position cursor)
    (fun slot => mutation_stores slot (entry_index h) cursor revision staged now arrival_time)
    (mutation_words (entry_index h) cursor revision staged now arrival_time) w Hw Hsane) as [(e & He & Hsp)|He].
  - split; [lia|done].
  - intros base. apply mutation_stores_at. by apply stage_mutation_fits in Es.
  - left. exists e. split; [done|]. right. by right.
  - right. by exists staged.
Qed.

Lemma publish_resolution_cases h revision cursor resolution now arrival_time w : well_placed w ->
  counters_sane w ->
  len (markets w) <= (writer_layout w).(directory_capacity) ->
  0 <= h.(entry_index) -> 0 <= cursor.(cursor_position) <= U64_MAX ->
  (exists e, publish_resolution h revision cursor resolution now arrival_time w = Some (Err e, w) /\
     refusable h resolution.(observation).(resolution_provenance).(market) (is_ok (stage_resolution resolution)) w) \/
  exists staged, stage_resolution resolution = Ok staged /\
    addressable h resolution.(observation).(resolution_provenance).(market) w /\ h.(entry_index) < len (markets w) /\
    publish_resolution h revision cursor resolution now arrival_time w
    = Some (Ok (), event_done (EventPart h.(entry_index) cursor.(cursor_position))
        (resolution_words h.(entry_index) cursor revision staged now arrival_time) w).
Proof.
  intros Hw Hsane Hcount H0 Hp. unfold publish_resolution.
  destruct (addressed_cases h resolution.(observation).(resolution_provenance).(market) w H0)
    as [(e & He & Hna)|(Ha & Hadd & Hlt)];
    [left; rewrite (cbind_Err _ _ _ _ _ He); eexists; split; [done|by left]|].
  rewrite (cbind_Ok _ _ _ _ _ Ha).
  destruct (stage_resolution resolution) as [staged|e] eqn:Es; [|left; eexists; split; [by apply cbind_Err|right; by left]].
  rewrite (cbind_Ok _ _ w staged w eq_refl).
  destruct (publish_event_cases (entry_index h) (cursor_position cursor)
    (fun slot => resolution_stores slot (entry_index h) cursor revision staged now arrival_time)
    (resolution_words (entry_index h) cursor revision staged now arrival_time) w Hw Hsane) as [(e & He & Hsp)|He].
  - split; [lia|done].
  - intros base. apply stage_resolution_fits in Es as (? & ? & ?). by apply resolution_stores_at.
  - left. exists e. split; [done|]. right. by right.
  - right. by exists staged.
Qed.

(** ** Installation *)

Definition entry_published (l : SegmentLayout) (i : Z) (market : MarketRef) (m : Memory) : Memory :=
  let base := part_base l (DirectoryPart i) in
  release_store base 1
    (relaxed_stores (shift base (entry_words i (identity_bytes market)))
      (relaxed_store base GATE_CLAIMED m)).

Definition install_done (market : MarketRef) (w : SegmentWriter) : SegmentWriter :=
  let l := writer_layout w in
  let i := len w.(installed) in
  let m0 := relaxed_store (part_base l (SlotPart i) + SLOT_DIRECTORY_INDEX) i w.(memory) in
  set_installed
    (w.(installed) ++ [{| installed_market := market; commit_time := 0; arrival_time := 0 |}])
    (set_memory (entry_published l i market m0) w).

Lemma write_once_at base gate_value fields stores m : current m base = 0 ->
  gate_value <> 0 -> gate_value <> GATE_CLAIMED ->
  mjoin <$> mapM (field_stores {| rec_base := base; rec_size := DIRECTORY_ENTRY_BYTES |}) fields
    = Some stores ->
  publish_write_once {| rec_base := base; rec_size := DIRECTORY_ENTRY_BYTES |} true 0 gate_value
    fields m
  = Some (true, release_store base gate_value
      (relaxed_stores stores (relaxed_store base GATE_CLAIMED m))).
Proof.
  intros H0 Hg Hc Hf. unfold publish_write_once.
  rewrite (proj2 (Z.eqb_neq _ _) Hg), (proj2 (Z.eqb_neq _ _) Hc), ptr_at by reflexivity.
  cbn [negb orb mbind option_bind]. unfold claim. rewrite Z.add_0_r, H0, Z.eqb_refl.
  cbn [negb]. destruct (mapM _ fields) as [ss|]; [|done]. simpl in *. by injection Hf as <-.
Qed.

Lemma shift_imap {A} base (f : nat -> A -> Z * Z) xs :
  shift base (imap f xs) = imap (fun k x => (base + (f k x).1, (f k x).2)) xs.
Proof.
  unfold shift. change (map ?g (imap f xs)) with (g <$> imap f xs). rewrite fmap_imap.
  apply imap_ext. intros k x _. simpl. by destruct (f k x).
Qed.

Lemma entry_fields_at base i identity : len identity <= IDENTITY_CAPACITY ->
  mjoin <$> mapM (field_stores {| rec_base := base; rec_size := DIRECTORY_ENTRY_BYTES |})
    [FieldWord32 ENT_SLOT_INDEX i; FieldWord32 ENT_IDENTITY_LEN (len identity);
     FieldBytes ENT_IDENTITY identity]
  = Some (shift base (entry_words i identity)).
Proof.
  intros Hl. cbn [mapM]. unfold field_stores. rewrite !ptr_at by reflexivity.
  cbn [mbind option_bind rec_base rec_size].
  unfold IDENTITY_CAPACITY, DIRECTORY_ENTRY_BYTES in *.
  assert ((len identity <=? 512) && (ENT_IDENTITY <=? 512 - len identity) = true) as ->
    by (unfold ENT_IDENTITY; apply andb_true_iff; split; apply Z.leb_le; lia).
  unfold entry_words. rewrite shift_app, shift_imap.
  cbn [mbind option_bind mret option_ret fmap option_fmap option_map mjoin list_join app].
  rewrite app_nil_r. f_equal. cbn [shift map app]. do 2 f_equal. apply imap_ext. intros k b _. simpl. f_equal. lia.
Qed.

Lemma install_cases log market w : writer_inv log w -> market_wf market ->
  (exists e, install market w = Some (Err e, w) /\
     (market ∈ markets w \/ (writer_layout w).(directory_capacity) <= len w.(installed) \/
      IDENTITY_CAPACITY < len (identity_bytes market))) \/
  install market w
    = Some (Ok {| segment := w.(binding); entry_index := len w.(installed);
                  state_slot_index := len w.(installed) |}, install_done market w) /\
  len w.(installed) < (writer_layout w).(directory_capacity) /\
  ~ (market ∈ markets w) /\ len (identity_bytes market) <= IDENTITY_CAPACITY.
Proof.
  intros Hinv Hm. pose proof (inv_layout _ _ Hinv) as Hl.
  assert (Hw : well_placed w) by (split; [done|apply Hinv]).
  unfold install. rewrite (cbind_Ok (cgets id) _ w w w eq_refl).
  destruct (existsb _ _) eqn:Eex.
  { left. eexists. split; [by apply cbind_Err|]. left. apply existsb_exists in Eex as (x & Hx & Ex).
    apply bool_decide_eq_true in Ex as <-. apply list_elem_of_fmap. exists x. split; [done|].
    by apply list_elem_of_In. }
  rewrite (cbind_Ok _ _ w () w eq_refl).
  pose proof (len_nonneg w.(installed)).
  destruct (checked 0 U32_MAX (len (installed w))) as [i|] eqn:Ei.
  2:{ left. eexists. split; [by apply cbind_Err|]. right. left. apply checked_None in Ei.
      destruct Hl as [_ ? _ _ _ _ _ _]. pose proof (inv_layout _ _ Hinv) as [? _ _ _ _ _ _ _].
      unfold MAX_STATE_SLOT_CAPACITY in *. bounds. lia. }
  apply checked_Some in Ei as [<- _]. rewrite (cbind_Ok _ _ w (len (installed w)) w eq_refl).
  destruct (Z.leb_spec (writer_layout w).(directory_capacity) (len (installed w)));
    [left; eexists; split; [by apply cbind_Err|right; by left]|]. rewrite (cbind_Ok _ _ w () w eq_refl).
  rewrite (encode_identity_exact market IDENTITY_CAPACITY Hm).
  destruct (Z.ltb_spec IDENTITY_CAPACITY (len (identity_bytes market))) as [|Hlen];
    [left; eexists; split; [by apply cbind_Err|right; by right]|]. rewrite (cbind_Ok _ _ w (identity_bytes market) w eq_refl).
  rewrite checked_in by (pose proof (len_nonneg (identity_bytes market)); bounds;
    unfold IDENTITY_CAPACITY, DIRECTORY_ENTRY_BYTES in Hlen; lia).
  rewrite (cbind_Ok _ _ w (len (identity_bytes market)) w eq_refl).
  assert (Hi : 0 <= len (installed w) < directory_capacity (writer_layout w)) by lia.
  assert (Hs : 0 <= len (installed w) < state_slot_capacity (writer_layout w))
    by (destruct Hl as [? _ _ _ _ _ _ _]; lia).
  rewrite (slot_at w _ Hw Hs), (cbind_Ok _ _ w _ w eq_refl).
  assert (Hcell : word_fits 4 (state_slot_stride (writer_layout w)) SLOT_DIRECTORY_INDEX = true).
  { apply (word_fits_grows 4 SLOT_PREFIX_BYTES); [|done]. pose proof (slot_room _ Hl).
    destruct Hl as [_ _ ? _ _ _ _ _]. layout_consts. lia. }
  erewrite cbind_Ok; [|unfold expect; cbn [rec_base rec_size part_size];
    rewrite (ptr_at _ _ _ _ Hcell); reflexivity].
  erewrite cbind_Ok; [|reflexivity].
  rewrite (entry_at w _ Hw Hi). erewrite cbind_Ok; [|reflexivity].
  erewrite cbind_Ok; [|reflexivity].
  pose proof (inv_entries _ _ Hinv (len (installed w)) Hi) as Hblank. cbv zeta in Hblank.
  assert (markets w !! Z.to_nat (len (installed w)) = None) as En.
  { apply lookup_ge_None_2. unfold markets, len. rewrite length_fmap. lia. }
  rewrite En in Hblank.
  assert (Hz : current (relaxed_store (part_base (writer_layout w) (SlotPart (len (installed w)))
      + SLOT_DIRECTORY_INDEX) (len (installed w)) (memory w))
      (part_base (writer_layout w) (DirectoryPart (len (installed w)))) = 0).
  { rewrite (current_extends (in_part (writer_layout w) (SlotPart (len (installed w)))) w.(memory)).
    - apply (blank_zero _ _ _ _ Hblank). by left.
    - apply extends_relaxed. unfold in_part. simpl part_size. pose proof (slot_room _ Hl).
      destruct Hl as [_ _ ? _ _ _ _ _]. unfold SLOT_DIRECTORY_INDEX. layout_consts. lia.
    - intros Hin. assert (Ho : off_entry (writer_layout w) (len (installed w))
        (part_base (writer_layout w) (DirectoryPart (len (installed w)))))
        by (apply (part_off_entry _ Hl (SlotPart (len (installed w)))); [exact Hs|exact Hi|exact id|done]).
      apply Ho. unfold in_part. simpl part_size. layout_consts. lia. }
  erewrite cbind_Ok; [|unfold expect, ENT_REVISION; rewrite (inv_writable _ _ Hinv);
    rewrite (write_once_at _ 1 _ _ _ Hz ltac:(done) ltac:(done) (entry_fields_at _ _ _ Hlen));
    reflexivity].
  right. split_and!; [reflexivity|done| |done].
  intros Hin. unfold markets in Hin. apply list_elem_of_fmap in Hin as (e & -> & He).
  assert (existsb (fun i => bool_decide (installed_market i = installed_market e)) (installed w) = true)
    as Ht; [|congruence].
  apply existsb_exists. exists e. split; [by apply list_elem_of_In|by apply bool_decide_eq_true].
Qed.
