(* ===== verification/ShmInv.v ===== *)
(** * The invariant of a segment writer holds throughout its runs *)

From S2P Require Import Prelude OrdMap Numeric Identity Descriptor Continuity Observation Book ShmCodec ShmCell ShmLayout ShmWriter ShmWriterProps ShmRun.

(** ** Offsets of the words of a publication *)

Definition offsets_in (size : Z) (ws : list (Z * Z)) : Prop := Forall (fun e => 8 <= e.1 < size) ws.

Lemma offsets_in_check size ws : forallb (fun e => (8 <=? e.1) && (e.1 <? size)) ws = true ->
  offsets_in size ws.
Proof.
  intros H. apply Forall_forall. intros e He. rewrite forallb_forall in H.
  specialize (H e (proj1 (list_elem_of_In _ _) He)). bool_facts. lia.
Qed.

Lemma offsets_in_text size base words : 8 <= base -> base + 8 * len words <= size ->
  offsets_in size (text_words base words).
Proof.
  intros Hb Hs. apply Forall_lookup. intros k e Hk. unfold text_words in Hk.
  apply list_lookup_imap_Some in Hk as (w & Hw & ->). apply lookup_lt_Some in Hw.
  unfold len in Hs. simpl. lia.
Qed.

Lemma offsets_in_weaken size size' ws : size <= size' -> offsets_in size ws -> offsets_in size' ws.
Proof. intros Hs H. eapply Forall_impl; [exact H|]. simpl. lia. Qed.

Lemma offsets_in_app size u v : offsets_in size (u ++ v) <-> offsets_in size u /\ offsets_in size v.
Proof. apply Forall_app. Qed.

Lemma state_words_in size capacity staged commit_time arrival_time :
  staged_fits capacity staged -> SLOT_PREFIX_BYTES + capacity * LEVEL_CELL_BYTES <= size ->
  offsets_in size (state_words staged commit_time arrival_time).
Proof.
  intros [Hf Hl] Hs. pose proof (len_nonneg staged.(st_levels)).
  assert (Hp : SLOT_PREFIX_BYTES <= size) by (unfold LEVEL_CELL_BYTES in *; lia).
  unfold state_words, state_head. rewrite !offsets_in_app. split_and!;
    try (apply (offsets_in_weaken SLOT_PREFIX_BYTES); [done|by apply offsets_in_check]).
  - apply offsets_in_text; [done|]. unfold len. rewrite Hf.
    unfold SLOT_FAMILY_WORDS, SLOT_PREFIX_BYTES in *. lia.
  - apply Forall_forall. intros e He. apply list_elem_of_join in He as (ws & He & Hws).
    apply list_elem_of_lookup in Hws as (k & Hk).
    apply list_lookup_imap_Some in Hk as (lv & Hk & ->). apply lookup_lt_Some in Hk.
    assert (Ho : offsets_in (level_offset k + LEVEL_CELL_BYTES) (level_words_at k lv)).
    { unfold level_words_at, decimal_cells_of, level_offset, offsets_in.
      repeat apply Forall_cons_2; try apply Forall_nil_2; simpl;
        unfold SLOT_PREFIX_BYTES, LEVEL_CELL_BYTES, LVL_SIDE, LVL_PRICE, LVL_QUANTITY,
          DEC_COEFFICIENT_LOW, DEC_COEFFICIENT_HIGH, DEC_SCALE; lia. }
    pose proof (proj1 (Forall_forall _ _) Ho e He) as Hb. simpl in Hb. unfold len in *.
    unfold level_offset, SLOT_PREFIX_BYTES, LEVEL_CELL_BYTES in *. lia.
Qed.

Lemma mutation_words_in index cursor revision staged commit_time arrival_time :
  length staged.(sm_family_words) = 8%nat ->
  offsets_in EVENT_SLOT_BYTES (mutation_words index cursor revision staged commit_time arrival_time).
Proof.
  intros Hf. unfold mutation_words, event_head. rewrite !offsets_in_app. split_and!;
    try (by apply offsets_in_check).
  apply offsets_in_text; [done|]. unfold len. by rewrite Hf.
Qed.

Lemma resolution_words_in index cursor revision staged commit_time arrival_time :
  length staged.(sr_outcome_words) = 8%nat -> length staged.(sr_type_words) = 4%nat ->
  length staged.(sr_date_words) = 4%nat ->
  offsets_in EVENT_SLOT_BYTES (resolution_words index cursor revision staged commit_time arrival_time).
Proof.
  intros Ho Ht Hd. unfold resolution_words, event_head. rewrite !offsets_in_app. split_and!;
    try (by apply offsets_in_check); apply offsets_in_text; try done; unfold len;
    by rewrite ?Ho, ?Ht, ?Hd.
Qed.

Lemma dirty_words_in position index revision :
  offsets_in DIRTY_SLOT_BYTES (dirty_words position index revision).
Proof. by apply offsets_in_check. Qed.

Lemma entry_words_in index identity : len identity <= IDENTITY_CAPACITY ->
  offsets_in DIRECTORY_ENTRY_BYTES (entry_words index identity).
Proof.
  intros Hl. unfold entry_words. apply offsets_in_app. split; [by apply offsets_in_check|].
  apply Forall_lookup. intros k e Hk. apply list_lookup_imap_Some in Hk as (b & Hb & ->).
  apply lookup_lt_Some in Hb. unfold len, IDENTITY_CAPACITY in Hl. simpl. unfold ENT_IDENTITY. lia.
Qed.

(** ** One publication more *)

Section one_more.
Context (l : SegmentLayout) (Hl : layout_wf l).

Lemma publications_snoc p log pub : publications l p (log ++ [pub]) =
  publications l p log ++ match words_into l p pub with
                          | Some ws => [shift (part_base l p) ws] | None => [] end.
Proof.
  unfold publications. rewrite omap_app. f_equal. simpl. by destruct (words_into l p pub).
Qed.

Lemma records_ext prep pubs pubs' m :
  (forall p, is_record p = true -> part_valid l p -> pubs p = pubs' p) ->
  records_ok l prep pubs m -> records_ok l prep pubs' m.
Proof. intros H Hr p Hrec Hp. rewrite <- H by done. by apply Hr. Qed.

Lemma records_written prep pubs m q ws : is_record q = true -> part_valid l q ->
  offsets_in (part_size l q) ws -> records_ok l prep pubs m ->
  records_ok l prep
    (fun p => if same_part_dec l p q then pubs p ++ [shift (part_base l q) ws] else pubs p)
    (record_written l q ws m).
Proof. by apply records_publish. Qed.

(** The doorbell and the generation are in the header, away from every record. *)
Definition header_stores (bell next : Z) (m : Memory) : Memory :=
  release_store HDR_PUBLICATION_GENERATION next (relaxed_store HDR_DOORBELL bell m).

Lemma header_stores_records prep pubs bell next m : records_ok l prep pubs m ->
  records_ok l prep pubs (header_stores bell next m).
Proof.
  intros H. apply (records_release l Hl) with (q := HeaderPart); [done|done|by unfold in_part|].
  by apply (records_relaxed l Hl) with (q := HeaderPart).
Qed.

Lemma off_directory q x : part_valid l q ->
  (forall i, ~ same_part l (DirectoryPart i) q) -> in_part l q x ->
  forall i, 0 <= i < l.(directory_capacity) -> off_entry l i x.
Proof. intros Hq Hn Hx i Hi. by apply (part_off_entry l Hl q x i Hq Hi). Qed.

Lemma header_stores_entries markets bell next m : entries_ok l markets m ->
  entries_ok l markets (header_stores bell next m).
Proof.
  apply entries_extend. unfold header_stores.
  eapply extends_trans; [apply extends_relaxed|apply extends_release];
    (apply (off_directory HeaderPart); [exact I|intros ? H; exact H|by unfold in_part]).
Qed.

Lemma part_size_ge p : 8 <= part_size l p.
Proof.
  pose proof (stride_spec l Hl) as [? _]. destruct Hl as [_ _ ? _ _ _ _ _].
  destruct p; simpl; layout_consts; lia.
Qed.

Lemma shift_in_part q ws : offsets_in (part_size l q) ws ->
  Forall (fun s => in_part l q s.1) (shift (part_base l q) ws).
Proof.
  intros H. apply Forall_fmap. eapply Forall_impl; [exact H|]. intros [o v]. simpl.
  unfold in_part. lia.
Qed.

Lemma record_extends q a b ws m : offsets_in (part_size l q) ws ->
  extends (in_part l q) m (write_record (part_base l q) a b (shift (part_base l q) ws) m).
Proof.
  intros H. apply extends_record; [|by apply shift_in_part].
  pose proof (part_size_ge q). unfold in_part. lia.
Qed.

Lemma record_entries q a b ws markets m : is_record q = true -> part_valid l q ->
  offsets_in (part_size l q) ws -> entries_ok l markets m ->
  entries_ok l markets (write_record (part_base l q) a b (shift (part_base l q) ws) m).
Proof.
  intros Hr Hq Hw. apply entries_extend. eapply extends_weaken; [|by apply record_extends].
  intros x Hx. apply (off_directory q); [done| |done]. intros i. destruct q; try done; exact id.
Qed.

(** Nothing of a record is in the header. *)
Lemma record_header q a b ws m x : is_record q = true -> part_valid l q ->
  offsets_in (part_size l q) ws -> 0 <= x < HEADER_BYTES ->
  current (write_record (part_base l q) a b (shift (part_base l q) ws) m) x = current m x.
Proof.
  intros Hr Hq Hw Hx. apply (current_extends (in_part l q)); [by apply record_extends|].
  intros Hin. destruct (parts_disjoint l Hl HeaderPart q I Hq) as [Hs|Hd]; [by destruct q|].
  unfold in_part in Hin. simpl part_base in Hd. simpl part_size in Hd. lia.
Qed.
End one_more.

(** ** Each operation keeps the invariant *)

Lemma inv_well_placed log w : writer_inv log w -> well_placed w.
Proof. intros H. split; apply H. Qed.

Lemma dirty_position_range log w : writer_inv log w -> 0 <= w.(dirty_position) <= U64_MAX.
Proof.
  intros H. rewrite (inv_dirty _ _ H). unfold as_u64.
  pose proof (Z.mod_pos_bound (len (states log)) (2 ^ 64) ltac:(lia)). bounds. lia.
Qed.

Lemma as_u32_succ n : wrapping_add_u32 (as_u32 n) 1 = as_u32 (n + 1).
Proof. unfold wrapping_add_u32, as_u32. by rewrite Zplus_mod_idemp_l. Qed.
Lemma as_u64_succ n : wrapping_add_u64 (as_u64 n) 1 = as_u64 (n + 1).
Proof. unfold wrapping_add_u64, as_u64. by rewrite Zplus_mod_idemp_l. Qed.

Lemma len_snoc {A} (xs : list A) x : len (xs ++ [x]) = len xs + 1.
Proof. rewrite len_app, len_cons, len_nil. lia. Qed.

Lemma states_snoc log p : states (log ++ [p]) = states log ++ (if is_state p then [p] else []).
Proof. unfold states. rewrite List.filter_app. simpl. by destruct (is_state p). Qed.

Lemma positions_snoc log p : omap position_of (log ++ [p]) =
  omap position_of log ++ match position_of p with Some n => [n] | None => [] end.
Proof. rewrite omap_app. simpl. by destruct (position_of p). Qed.

Lemma stamps_snoc log p i : stamps_at (log ++ [p]) i =
  match p with
  | StatePublished index _ _ commit_time arrival_time =>
      if i =? index then (commit_time, arrival_time) else stamps_at log i
  | _ => stamps_at log i
  end.
Proof. unfold stamps_at. rewrite fold_left_app. simpl. by destruct p. Qed.

Lemma header_stores_current bell next m :
  current (header_stores bell next m) HDR_PUBLICATION_GENERATION = next /\
  current (header_stores bell next m) HDR_DOORBELL = bell.
Proof. unfold current, header_stores. simpl. by rewrite !cell_value_snoc. Qed.

(** An event changes its own record, and counts. *)
Lemma inv_event log w pub e n ws : writer_inv log w -> is_state pub = false ->
  publication_ok (writer_layout w) (markets w) pub ->
  part_valid (writer_layout w) (EventPart e n) ->
  words_into (writer_layout w) (EventPart e n) pub = Some ws ->
  (forall p, is_record p = true -> ~ same_part (writer_layout w) p (EventPart e n) ->
     words_into (writer_layout w) p pub = None) ->
  offsets_in EVENT_SLOT_BYTES ws ->
  writer_inv (log ++ [pub]) (event_done (EventPart e n) ws w).
Proof.
  intros Hinv Hst Hok Hp Hws Hother Hin. pose proof (inv_layout _ _ Hinv) as Hl.
  assert (Hpos : position_of pub = None) by (destruct pub; done).
  destruct Hinv as [_ Hsize Hwr Hbind Hcount Hdist Hrec Hent Hlog Hgen Hbell Hpage Hdirty Hwake Hposn Hstamp].
  set (l := writer_layout w) in *.
  assert (Hrec1 : records_ok l (prepared l (len (markets w))) (fun p => publications l p (log ++ [pub]))
    (record_written l (EventPart e n) ws (memory w))).
  { eapply records_ext;
      [|exact (records_written l Hl _ _ _ (EventPart e n) ws eq_refl Hp Hin Hrec)].
    intros p Hr Hv. cbv beta. rewrite publications_snoc.
    destruct (same_part_dec l p (EventPart e n)) as [Hs|Hs].
    - destruct (same_part_eq l _ _ Hs) as (-> & _ & ->). by rewrite Hws.
    - by rewrite (Hother p Hr Hs), app_nil_r. }
  assert (Hcur : forall x, 0 <= x < HEADER_BYTES ->
    current (record_written l (EventPart e n) ws (memory w)) x = current (memory w) x)
    by (intros x Hx; by apply (record_header l Hl)).
  destruct (header_stores_current (wrapping_add_u32 (as_u32 (len log)) 1) (len log + 1)
    (record_written l (EventPart e n) ws (memory w))) as [Eg Eb].
  assert (Em : memory (event_done (EventPart e n) ws w) =
    header_stores (wrapping_add_u32 (as_u32 (len log)) 1) (len log + 1)
      (record_written l (EventPart e n) ws (memory w))).
  { unfold event_done, generation_advanced, rung. simpl. fold l.
    rewrite Hcur by done. by rewrite Hbell, Hgen. }
  split; try done.
  - change (records_ok l (prepared l (len (markets w))) (fun p => publications l p (log ++ [pub]))
      (memory (event_done (EventPart e n) ws w))). rewrite Em. by apply header_stores_records.
  - change (entries_ok l (markets w) (memory (event_done (EventPart e n) ws w))). rewrite Em.
    apply header_stores_entries; [done|]. by apply record_entries.
  - apply Forall_app. split; [done|]. by apply Forall_singleton.
  - by rewrite Em, Eg, len_snoc.
  - by rewrite Em, Eb, len_snoc, as_u32_succ.
  - unfold event_done, generation_advanced, rung. simpl. destruct (doorbell w) as [|page]; [done|].
    fold l. rewrite Hcur, Hbell by done. unfold current. simpl. rewrite cell_value_snoc. simpl.
    by rewrite as_u32_succ, len_snoc.
  - by rewrite states_snoc, Hst, app_nil_r.
  - by rewrite states_snoc, Hst, app_nil_r.
  - by rewrite states_snoc, Hst, app_nil_r, positions_snoc, Hpos, app_nil_r.
  - intros i m Hi. rewrite stamps_snoc. specialize (Hstamp i m Hi). by destruct pub.
Qed.

Lemma event_words_only l e n pub : match pub with StatePublished _ _ _ _ _ => False | _ => True end ->
  publication_index pub = e ->
  match pub with
  | MutationPublished _ _ cursor _ _ _ | ResolutionPublished _ _ cursor _ _ _ =>
      cursor.(cursor_position) = n
  | _ => True
  end ->
  forall p, is_record p = true -> ~ same_part l p (EventPart e n) -> words_into l p pub = None.
Proof.
  intros Hst He Hn p Hr Hs. destruct p as [| |i|i|f k|k]; try done; destruct pub; try done;
    simpl in *; subst; destruct (_ && _) eqn:E; try done; bool_facts; by destruct Hs.
Qed.

Lemma markets_stamp i commit_time arrival_time w :
  markets (stamp i commit_time arrival_time w) = markets w.
Proof.
  unfold markets, stamp. simpl. apply list_eq. intros k. rewrite !list_lookup_fmap.
  destruct (decide (k = Z.to_nat i)) as [->|].
  - rewrite list_lookup_alter, decide_True by done. by destruct (installed w !! _).
  - by rewrite list_lookup_alter_ne.
Qed.

(** A state changes its slot and the next dirty entry, and counts. *)
Lemma inv_state log w index staged book commit_time arrival_time woken : writer_inv log w ->
  stage (writer_layout w) book = Ok staged -> 0 <= index < len (markets w) ->
  markets w !! Z.to_nat index = Some book.(published_market) ->
  writer_inv
    (log ++ [StatePublished index w.(dirty_position) book commit_time arrival_time])
    (state_done index staged commit_time arrival_time woken w).
Proof.
  intros Hinv Hs Hi Hm. pose proof (inv_layout _ _ Hinv) as Hl.
  pose proof (dirty_position_range log w Hinv) as Hd.
  destruct Hinv as [_ Hsize Hwr Hbind Hcount Hdist Hrec Hent Hlog Hgen Hbell Hpage Hdirty Hwake Hposn Hstamp].
  set (l := writer_layout w) in *. set (pub := StatePublished _ _ _ _ _).
  set (slot := SlotPart index). set (dirty := DirtyPart w.(dirty_position)).
  set (ws := state_words staged commit_time arrival_time).
  set (dws := dirty_words w.(dirty_position) index book.(published_revision)).
  assert (Erev : st_book_revision staged = published_revision book).
  { revert Hs. unfold stage. destruct (_ <? _); [done|]. destruct (authority_words _) as [??].
    destruct (continuity_words _) as [[[??]?]?]. destruct (published_provenance book);
      [destruct (pack_family _) as [[??]|]; [|done]; destruct (origin_words _) as [??]|];
      by intros [= <-]. }
  assert (Hvs : part_valid l slot) by (destruct Hl as [? _ _ _ _ _ _ _]; simpl; lia).
  assert (Hvd : part_valid l dirty) by done.
  assert (Hws : offsets_in (part_size l slot) ws).
  { eapply state_words_in; [by apply stage_fits in Hs|by apply slot_room]. }
  assert (Hdws : offsets_in (part_size l dirty) dws) by apply dirty_words_in.
  set (m1 := record_written l slot ws (memory w)).
  assert (Hrec1 := records_written l Hl _ _ _ slot ws eq_refl Hvs Hws Hrec). fold m1 in Hrec1.
  assert (Hsd : ~ same_part l dirty slot) by exact id.
  assert (Ecur : writer_current (part_base l dirty) m1 = writer_current (part_base l dirty) (memory w)).
  { rewrite (records_counter l _ _ _ dirty Hrec1 eq_refl Hvd), (records_counter l _ _ _ dirty Hrec eq_refl Hvd).
    by destruct (same_part_dec l dirty slot). }
  set (m2 := record_written l dirty dws m1).
  assert (Hrec2 := records_written l Hl _ _ _ dirty dws eq_refl Hvd Hdws Hrec1). fold m2 in Hrec2.
  assert (Hrec3 : records_ok l (prepared l (len (markets w))) (fun p => publications l p (log ++ [pub])) m2).
  { eapply records_ext; [|exact Hrec2]. intros p Hr Hv. cbv beta. rewrite publications_snoc.
    destruct (same_part_dec l p dirty) as [H1|H1].
    - destruct (same_part_dec l p slot) as [H2|H2]; [by destruct p|].
      destruct (same_part_eq l _ _ H1) as (-> & _ & ->). simpl. by rewrite Z.eqb_refl.
    - destruct (same_part_dec l p slot) as [H2|H2].
      + destruct (same_part_eq l _ _ H2) as (-> & _ & ->). simpl. by rewrite Z.eqb_refl, Hs.
      + assert (words_into l p pub = None) as ->; [|by rewrite app_nil_r].
        destruct p as [| |i|i|f k|k]; try done; simpl in *.
        * by rewrite (proj2 (Z.eqb_neq _ _) H2).
        * by rewrite (proj2 (Z.eqb_neq _ _) H1). }
  assert (Hent2 : entries_ok l (markets w) m2).
  { subst m2 m1. unfold record_written. by apply (record_entries l Hl); [..|apply (record_entries l Hl)]. }
  assert (Hcur : forall x, 0 <= x < HEADER_BYTES -> current m2 x = current (memory w) x).
  { intros x Hx. subst m2 m1. unfold record_written. rewrite !(record_header l Hl); done. }
  destruct (header_stores_current (wrapping_add_u32 (as_u32 (len log)) 1) (len log + 1) m2) as [Eg Eb].
  assert (Em2 : write_record (part_base l dirty) (writer_current (part_base l dirty) (memory w) + 1)
      (writer_current (part_base l dirty) (memory w) + 2) (shift (part_base l dirty)
        (dirty_words (dirty_position w) index (st_book_revision staged))) m1 = m2).
  { subst m2. unfold record_written. by rewrite Ecur, Erev. }
  set (w' := state_done index staged commit_time arrival_time woken w).
  assert (Ew : w' = stamp index commit_time arrival_time
    (woken_up woken (set_dirty_position (wrapping_add_u64 w.(dirty_position) 1)
      (generation_advanced (current w.(memory) HDR_PUBLICATION_GENERATION + 1)
        (rung (set_memory m2 w)))))).
  { subst w'. unfold state_done. cbv zeta. fold l slot dirty ws m1. by rewrite Em2. }
  assert (Emk : markets w' = markets w) by (rewrite Ew; exact (markets_stamp _ _ _ _)).
  clearbody w' m2. subst w'.
  assert (Em : memory (stamp index commit_time arrival_time
    (woken_up woken (set_dirty_position (wrapping_add_u64 w.(dirty_position) 1)
      (generation_advanced (current w.(memory) HDR_PUBLICATION_GENERATION + 1)
        (rung (set_memory m2 w))))))
    = header_stores (wrapping_add_u32 (as_u32 (len log)) 1) (len log + 1) m2).
  { unfold woken_up, generation_advanced, rung. simpl. rewrite Hcur by done. by rewrite Hbell, Hgen. }
  assert (Est : states (log ++ [pub]) = states log ++ [pub]) by (by rewrite states_snoc).
  split; rewrite ?Emk; try done.
  - rewrite Em. by apply header_stores_records.
  - rewrite Em. by apply header_stores_entries.
  - apply Forall_app. split; [done|]. apply Forall_singleton. split; [done|]. simpl.
    split_and!; [lia..| |done]. change (is_ok (stage l book) = true). by rewrite Hs.
  - by rewrite Em, Eg, len_snoc.
  - by rewrite Em, Eb, len_snoc, as_u32_succ.
  - unfold woken_up, generation_advanced, rung. simpl.
    destruct (doorbell w) as [|page]; [done|].
    rewrite Hcur, Hbell by done. unfold current. simpl. rewrite cell_value_snoc. simpl.
    by rewrite as_u32_succ, len_snoc.
  - simpl. by rewrite Hdirty, as_u64_succ, Est, len_snoc.
  - simpl. by rewrite Hwake, as_u64_succ, Est, len_snoc.
  - rewrite positions_snoc, Est, Hposn, length_app. simpl. rewrite Nat.add_1_r, seq_S, map_app. simpl.
    by rewrite Hdirty.
  - intros i e Hie. rewrite stamps_snoc. simpl. simpl in Hie.
    destruct (decide (i = Z.to_nat index)) as [->|Hne].
    + rewrite list_lookup_alter, decide_True in Hie by done. rewrite Z2Nat.id, Z.eqb_refl by lia.
      destruct (installed w !! _); simpl in Hie; [|done]. by injection Hie as <-.
    + rewrite list_lookup_alter_ne in Hie by done. rewrite (proj2 (Z.eqb_neq _ _)) by lia. by apply Hstamp.
Qed.

(** ** A write-once record, published *)

Lemma once_published gate (data : Z -> Prop) value stores m : blank gate data m.(history) ->
  ~ data gate -> Forall (fun s => data s.1) stores ->
  once gate data value (overlay stores (fun _ => 0))
    (release_store gate value (relaxed_stores stores (relaxed_store gate GATE_CLAIMED m))).(history).
Proof.
  intros Hb Hg Hs. set (m1 := relaxed_store gate GATE_CLAIMED m).
  destruct (relaxed_stores_spec stores m1) as [Hf Hh].
  unfold release_store. cbn [history]. rewrite Hh. subst m1. cbn [history relaxed_store fenced] in *.
  set (claim := {| place := gate; content := GATE_CLAIMED; carries := fenced m |}).
  set (ms := map _ stores). set (h2 := (history m ++ [claim]) ++ ms).
  assert (Hms : forall j y, ms !! j = Some y -> data y.(place)).
  { intros j y Hj. apply list_lookup_fmap_Some in Hj as ([l v] & -> & Hlv).
    by apply (Forall_lookup_1 _ _ _ _ Hs) in Hlv. }
  split.
  - exists (length h2), {| place := gate; content := value; carries := S (length h2) |}.
    split_and!; try done.
    + by rewrite lookup_app_r, Nat.sub_diag by lia.
    + simpl. lia.
    + intros j y [Hj|[-> ->]]%lookup_snoc_inv Hne; [|done]. split.
      * intros Hy. apply lookup_app_Some in Hj as [Hj|[_ Hj]].
        -- apply lookup_snoc_inv in Hj as [Hj|[_ ->]]; [|done]. by destruct (Hb j y Hj).
        -- apply Hms in Hj. by rewrite Hy in Hj.
      * intros _. by apply lookup_lt_Some in Hj.
  - intros l Hl. rewrite cell_value_snoc. cbn [place].
    destruct (Z.eqb_spec gate l) as [<-|]; [done|]. subst h2 ms. rewrite cell_value_stores.
    apply (overlay_ext data); [|done]. intros x Hx. rewrite cell_value_snoc. cbn [place claim].
    destruct (Z.eqb_spec gate x) as [<-|]; [done|]. by apply (blank_zero gate data m); [|right].
Qed.

(** ** Installation keeps the invariant *)

Lemma publications_none l log n ms : Forall (publication_ok l ms) log -> len ms <= n ->
  publications l (SlotPart n) log = [].
Proof.
  intros Hlog Hn. unfold publications. induction Hlog as [|pub log Hpub _ IH]; [done|].
  cbn [omap list_omap].
  assert (words_into l (SlotPart n) pub = None) as ->; [|done].
  destruct Hpub as [Hi _]. destruct pub; try done. simpl in *.
  by rewrite (proj2 (Z.eqb_neq _ _)) by lia.
Qed.

Lemma prepared_other l n p : p <> SlotPart n -> prepared l (n + 1) p = prepared l n p.
Proof.
  intros Hp. destruct p as [| |i|i|e k|k]; try done. simpl.
  assert (i <> n) by congruence. destruct (Z.ltb_spec i (n + 1)), (Z.ltb_spec i n); done || lia.
Qed.

#[export] Instance Part_eq_dec : EqDecision Part.
Proof. solve_decision. Defined.

Lemma markets_install market w : markets (install_done market w) = markets w ++ [market].
Proof. unfold markets, install_done. simpl. by rewrite fmap_app. Qed.

Lemma len_markets w : len (markets w) = len w.(installed).
Proof. unfold markets, len. by rewrite length_fmap. Qed.

Section install.
Context (l : SegmentLayout) (Hl : layout_wf l).

Lemma slot_index_place i : 0 <= i < l.(state_slot_capacity) ->
  record_data l (SlotPart i) (part_base l (SlotPart i) + SLOT_DIRECTORY_INDEX).
Proof.
  intros Hi. unfold record_data. simpl part_size. pose proof (slot_room l Hl).
  destruct Hl as [_ _ ? _ _ _ _ _]. unfold SLOT_DIRECTORY_INDEX. layout_consts. lia.
Qed.

Lemma entry_in_part i : in_part l (DirectoryPart i) (part_base l (DirectoryPart i)).
Proof. unfold in_part. simpl part_size. layout_consts. lia. Qed.

Lemma slot_prepared n pubs m : 0 <= n < l.(state_slot_capacity) -> pubs (SlotPart n) = [] ->
  records_ok l (prepared l n) pubs m ->
  records_ok l (prepared l (n + 1)) pubs
    (relaxed_store (part_base l (SlotPart n) + SLOT_DIRECTORY_INDEX) n m).
Proof.
  intros Hn Hp H p Hr Hv. pose proof (slot_index_place n Hn) as Hd.
  destruct (decide (p = SlotPart n)) as [->|Hne].
  - specialize (H _ Hr Hv). rewrite Hp in *. simpl prepared in *.
    rewrite (proj2 (Z.ltb_ge n n)) in H by lia. rewrite (proj2 (Z.ltb_lt n (n + 1))) by lia.
    by apply (run_prepare _ _ []).
  - rewrite prepared_other by done.
    assert (Hns : ~ same_part l p (SlotPart n)) by (intros Hs; destruct p; simpl in Hs; congruence).
    destruct (in_part_elsewhere l Hl p (SlotPart n) (part_base l (SlotPart n) + SLOT_DIRECTORY_INDEX)
      Hv Hn Hns) as [? ?]; [unfold in_part, record_data in *; lia|].
    apply run_relaxed; auto.
Qed.

Lemma entry_published_records prep pubs n market m : 0 <= n < l.(directory_capacity) ->
  len (identity_bytes market) <= IDENTITY_CAPACITY -> records_ok l prep pubs m ->
  records_ok l prep pubs (entry_published l n market m).
Proof.
  intros Hn Hlen H. unfold entry_published.
  apply (records_release l Hl) with (q := DirectoryPart n); [done|done|apply entry_in_part|].
  apply (records_stores l Hl) with (q := DirectoryPart n); [done|done| |].
  - apply shift_in_part. by apply entry_words_in.
  - apply (records_relaxed l Hl) with (q := DirectoryPart n); [done|done|apply entry_in_part|done].
Qed.

Lemma entry_published_extends n market m : len (identity_bytes market) <= IDENTITY_CAPACITY ->
  extends (in_part l (DirectoryPart n)) m (entry_published l n market m).
Proof.
  intros Hlen. unfold entry_published. pose proof (entry_in_part n).
  eapply extends_trans; [|by apply extends_release].
  eapply extends_trans; [by apply extends_relaxed|]. apply extends_stores.
  apply shift_in_part. by apply entry_words_in.
Qed.

Lemma entries_installed ms market m : len ms < l.(directory_capacity) -> market_wf market ->
  len (identity_bytes market) <= IDENTITY_CAPACITY -> entries_ok l ms m ->
  entries_ok l (ms ++ [market]) (entry_published l (len ms) market m).
Proof.
  intros Hn Hm Hlen H i Hi p. specialize (H i Hi) as Hold. cbv zeta in Hold. fold p in Hold.
  destruct (decide (i = len ms)) as [->|Hne].
  - unfold len in *. rewrite Nat2Z.id in *. rewrite lookup_app_r, Nat.sub_diag by lia.
    rewrite lookup_ge_None_2 in Hold by lia. cbn [list_lookup lookup]. split_and!; [done..|].
    unfold entry_published, entry_cells_of. fold p.
    apply once_published; [done|unfold record_data; lia|].
    apply (shift_places l p). apply entry_words_in. done.
  - assert (Hext : forall x, in_part l (DirectoryPart (len ms)) x ->
      x <> part_base l p /\ ~ record_data l p x).
    { intros x Hx. apply off_entry_elsewhere.
      apply (part_off_entry l Hl (DirectoryPart (len ms)) x i); try done.
      pose proof (len_nonneg ms). simpl. lia. }
    pose proof (entry_published_extends (len ms) market m Hlen) as He.
    assert ((ms ++ [market]) !! Z.to_nat i = ms !! Z.to_nat i) as ->.
    { destruct (decide (Z.to_nat i < length ms)%nat); [by apply lookup_app_l|].
      rewrite !lookup_ge_None_2; [done|lia|rewrite length_app; simpl; unfold len in Hne; lia]. }
    destruct (ms !! Z.to_nat i) as [mk|].
    + destruct Hold as (? & ? & Hold). split_and!; [done..|]. by eapply extends_once.
    + by eapply extends_blank.
Qed.
End install.

Lemma publication_ok_more l ms market p : publication_ok l ms p -> publication_ok l (ms ++ [market]) p.
Proof.
  intros [Hi Hp]. split; [rewrite len_snoc; lia|].
  destruct p; destruct Hp as (? & ? & Hk);
    (split; [done|split; [done|by apply lookup_app_l_Some]]).
Qed.

Lemma stamps_absent l ms log i : Forall (publication_ok l ms) log -> len ms <= i ->
  stamps_at log i = (0, 0).
Proof.
  intros H Hi. unfold stamps_at. generalize (0, 0). induction H as [|p log [Hp _] _ IH]; intros acc; [done|].
  simpl. rewrite IH. destruct p; try done. simpl in Hp. by rewrite (proj2 (Z.eqb_neq _ _)) by lia.
Qed.

Lemma inv_install log market w : writer_inv log w -> market_wf market ->
  len w.(installed) < (writer_layout w).(directory_capacity) ->
  ~ (market ∈ markets w) -> len (identity_bytes market) <= IDENTITY_CAPACITY ->
  writer_inv log (install_done market w).
Proof.
  intros Hinv Hm Hlt Hnew Hlen. pose proof (inv_layout _ _ Hinv) as Hl.
  destruct Hinv as [_ Hsize Hwr Hbind Hcount Hdist Hrec Hent Hlog Hgen Hbell Hpage Hdirty Hwake Hposn Hstamp].
  set (l := writer_layout w) in *. set (n := len w.(installed)) in *.
  pose proof (len_nonneg w.(installed)) as H0. fold n in H0.
  assert (Hs : 0 <= n < l.(state_slot_capacity)) by (destruct Hl as [? _ _ _ _ _ _ _]; lia).
  assert (Emk := markets_install market w). rewrite len_markets in *. fold n in Hrec.
  set (m0 := relaxed_store (part_base l (SlotPart n) + SLOT_DIRECTORY_INDEX) n (memory w)).
  assert (Em : memory (install_done market w) = entry_published l n market m0) by done.
  assert (Hlast : publications l (SlotPart n) log = []).
  { apply (publications_none l log n (markets w)); [done|]. rewrite len_markets. fold n. lia. }
  assert (Hin : forall x, 0 <= x < HEADER_BYTES -> current (entry_published l n market m0) x = current (memory w) x).
  { intros x Hx. assert (Hout : forall q, part_valid l q -> q <> HeaderPart -> ~ in_part l q x).
    { intros q Hq Hqh Hi. destruct (parts_disjoint l Hl HeaderPart q I Hq) as [Hd|Hd]; [by destruct q|].
      unfold in_part in Hi. simpl part_base in Hd. simpl part_size in Hd. lia. }
    rewrite (current_extends _ m0 _ x (entry_published_extends l n market m0 Hlen)) by
      (apply Hout; [simpl; lia|done]).
    apply (current_extends (in_part l (SlotPart n))); [|by apply Hout].
    apply extends_relaxed. pose proof (slot_index_place l Hl n Hs).
    unfold in_part, record_data in *. lia. }
  assert (Hent0 : entries_ok l (markets w) m0).
  { eapply entries_extend; [|exact Hent]. apply extends_relaxed.
    apply (off_directory l Hl (SlotPart n)); [exact Hs|intros ?; exact id|].
    pose proof (slot_index_place l Hl n Hs). unfold in_part, record_data in *. lia. }
  split; rewrite ?Emk, ?Em, ?len_snoc, ?len_markets; try done.
  - fold n. change (n + 1 <= l.(directory_capacity)). lia.
  - apply NoDup_app. split_and!; [done| |apply NoDup_singleton].
    intros x Hx Hx'. apply list_elem_of_singleton in Hx' as ->. done.
  - apply entry_published_records; [done|lia|done|]. fold n. by apply slot_prepared.
  - change (entries_ok l (markets w ++ [market]) (entry_published l n market m0)).
    replace n with (len (markets w)) by apply len_markets.
    apply entries_installed; [done| |done..]. rewrite len_markets. fold n. lia.
  - eapply Forall_impl; [exact Hlog|]. intros p. apply publication_ok_more.
  - by rewrite Hin.
  - by rewrite Hin.
  - intros i e Hi. simpl in Hi. apply lookup_snoc_inv in Hi as [Hi|[-> ->]]; [by apply Hstamp|].
    simpl. symmetry. apply (stamps_absent l (markets w)); [done|]. by rewrite len_markets.
Qed.

(** ** Creation establishes it *)

Lemma write_once_general r gate_offset gate gate_value fields stores m :
  ptr r gate_offset 8 = Some gate -> current m gate = 0 ->
  gate_value <> 0 -> gate_value <> GATE_CLAIMED ->
  mjoin <$> mapM (field_stores r) fields = Some stores ->
  publish_write_once r true gate_offset gate_value fields m
  = Some (true, release_store gate gate_value
      (relaxed_stores stores (relaxed_store gate GATE_CLAIMED m))).
Proof.
  intros Hp H0 Hg Hc Hf. unfold publish_write_once.
  rewrite (proj2 (Z.eqb_neq _ _) Hg), (proj2 (Z.eqb_neq _ _) Hc), Hp.
  cbn [negb orb mbind option_bind]. unfold claim. rewrite H0, Z.eqb_refl.
  cbn [negb]. destruct (mapM _ fields) as [ss|]; [|done]. simpl in *. by injection Hf as <-.
Qed.

(** The header's words. *)
Definition header_words (config : SegmentConfig) (size : Z) (d : Doorbell) : list (Z * Z) :=
  map (fun f => match f with
                | FieldWord32 o v | FieldWord64 o v => (o, v)
                | FieldBytes o _ => (o, 0)
                end) (header_fields config size d).

Definition formatted (region : SegmentRegion) (config : SegmentConfig) (d : Doorbell) : Memory :=
  let size := region.(size_bytes) in
  let trailer := size - TRAILER_BYTES in
  let m1 := release_store (trailer + TRL_MAGIC) TRAILER_MAGIC
    (relaxed_stores [(trailer + TRL_REGION_SIZE, size)]
      (relaxed_store (trailer + TRL_MAGIC) GATE_CLAIMED fresh_memory)) in
  release_store HDR_MAGIC MAGIC
    (relaxed_stores (header_words config size d) (relaxed_store HDR_MAGIC GATE_CLAIMED m1)).

Definition fresh_writer (region : SegmentRegion) (config : SegmentConfig) (d : Doorbell) :
    SegmentWriter :=
  let g := {| daemon_instance_id := config.(config_instance);
              segment_generation := config.(config_generation);
              layout := config.(config_layout) |} in
  {| memory := formatted region config d; region := region; geometry := g;
     binding := binding_new region g; installed := []; doorbell := d; dirty_position := 0;
     wake_posts := 0; wake_faults := 0 |}.

Section creation.
Context (reg : SegmentRegion) (config : SegmentConfig) (d : Doorbell).
Let l := config.(config_layout).
Context (Hl : layout_wf l) (Hsize : reg.(size_bytes) = region_size l)
  (Hinst : 0 <= config.(config_instance) < 2 ^ 128)
  (Hgen : 0 <= config.(config_generation) <= U64_MAX).

Lemma region_has_trailer : 256 + TRAILER_BYTES <= region_size l.
Proof. pose proof (blocks_ordered l Hl). unfold region_size in *. layout_consts. lia. Qed.

Lemma header_fields_at :
  mjoin <$> mapM (field_stores {| rec_base := 0; rec_size := HEADER_BYTES |})
    (header_fields config reg.(size_bytes) d) = Some (header_words config reg.(size_bytes) d).
Proof. reflexivity. Qed.

Lemma current_header x : 0 <= x < HEADER_BYTES ->
  current (formatted reg config d) x =
  if x =? HDR_MAGIC then MAGIC
  else overlay (header_words config reg.(size_bytes) d) (fun _ => 0) x.
Proof.
  intros Hx. unfold formatted. cbv zeta. set (m1 := release_store _ TRAILER_MAGIC _).
  unfold current, release_store. cbn [history]. rewrite cell_value_snoc. cbn [place content].
  rewrite Z.eqb_sym. destruct (Z.eqb_spec x HDR_MAGIC) as [|Hne]; [done|].
  set (m2 := relaxed_store _ _ m1).
  destruct (relaxed_stores_spec (header_words config (size_bytes reg) d) m2) as [_ ->].
  rewrite cell_value_stores. apply (overlay_ext (fun y => 0 < y < HEADER_BYTES));
    [|unfold HDR_MAGIC in Hne; lia].
  intros y Hy. subst m2. unfold relaxed_store. cbn [history]. rewrite cell_value_snoc.
  cbn [place content]. unfold HDR_MAGIC. rewrite (proj2 (Z.eqb_neq 0 y)) by lia.
  subst m1. unfold release_store. cbn [history]. rewrite cell_value_snoc. cbn [place content].
  pose proof region_has_trailer. layout_consts.
  rewrite (proj2 (Z.eqb_neq _ y)) by (rewrite Hsize; unfold TRL_MAGIC; lia). simpl.
  unfold TRL_MAGIC, TRL_REGION_SIZE. unfold cell_value. simpl.
  rewrite !(proj2 (Z.eqb_neq _ y)) by (rewrite Hsize; lia). done.
Qed.

Lemma current_trailer :
  current (formatted reg config d) (reg.(size_bytes) - TRAILER_BYTES + TRL_MAGIC) = TRAILER_MAGIC /\
  current (formatted reg config d) (reg.(size_bytes) - TRAILER_BYTES + TRL_REGION_SIZE)
    = reg.(size_bytes).
Proof.
  pose proof region_has_trailer as Hr. rewrite <- Hsize in Hr. unfold formatted. cbv zeta.
  set (trailer := size_bytes reg - TRAILER_BYTES) in *. set (m1 := release_store _ TRAILER_MAGIC _).
  assert (Hout : forall x, HEADER_BYTES <= x ->
    current (release_store HDR_MAGIC MAGIC (relaxed_stores (header_words config (size_bytes reg) d)
      (relaxed_store HDR_MAGIC GATE_CLAIMED m1))) x = current m1 x).
  { intros x Hx. apply (current_extends (in_part l HeaderPart)); [|unfold in_part; simpl; lia].
    eapply extends_trans; [|apply extends_release; by unfold in_part].
    eapply extends_trans; [apply extends_relaxed; by unfold in_part|]. apply extends_stores.
    repeat (apply Forall_cons_2; [by unfold in_part|]). constructor. }
  rewrite !Hout by (subst trailer; unfold TRL_MAGIC, TRL_REGION_SIZE; layout_consts; lia).
  subst m1. unfold current, release_store. cbn [history]. rewrite !cell_value_snoc.
  cbn [place content]. rewrite Z.eqb_refl. split; [done|].
  rewrite (proj2 (Z.eqb_neq _ _)) by (unfold TRL_MAGIC, TRL_REGION_SIZE; lia).
  unfold cell_value. simpl. by rewrite Z.eqb_refl.
Qed.

Lemma instance_halves :
  Z.lor (Z.shiftl (as_u64 (Z.shiftr config.(config_instance) 64)) 64)
    (as_u64 config.(config_instance)) = config.(config_instance).
Proof.
  unfold as_u64. rewrite (Z.mod_small (Z.shiftr _ 64)).
  - rewrite <- Z.land_ones by lia. rewrite <- Z.ldiff_ones_r by lia.
    apply Z.lor_ldiff_and.
  - rewrite Z.shiftr_div_pow2 by lia. split; [apply Z.div_pos; lia|].
    apply Z.div_lt_upper_bound; lia.
Qed.

Lemma stride_u32 : as_u32 (state_slot_stride l) = state_slot_stride l.
Proof.
  unfold as_u32. apply Z.mod_small. pose proof (stride_spec l Hl) as [? _].
  assert (H0 : part_valid l (SlotPart 0)) by (destruct Hl as [? _ _ _ _ _ _ _]; simpl; lia).
  destruct (part_bounds l Hl (SlotPart 0) H0) as [Ha Hb].
  destruct Hl as [_ _ ? _ _ _ _ Hr]. simpl part_size in Hb.
  change MAX_REGION_BYTES with 1073741824 in Hr. lia.
Qed.

Definition nonneg (m : Memory) : Prop := Forall (fun x => 0 <= x.(content)) m.(history).

Lemma nonneg_relaxed x v m : 0 <= v -> nonneg m -> nonneg (relaxed_store x v m).
Proof. intros Hv H. apply Forall_snoc. by split. Qed.
Lemma nonneg_release x v m : 0 <= v -> nonneg m -> nonneg (release_store x v m).
Proof. intros Hv H. apply Forall_snoc. by split. Qed.
Lemma nonneg_stores stores m : Forall (fun s => 0 <= s.2) stores -> nonneg m ->
  nonneg (relaxed_stores stores m).
Proof.
  intros H. revert m. induction H as [|[x v] stores Hv _ IH]; intros m Hm; [done|].
  apply IH. by apply nonneg_relaxed.
Qed.
Lemma nonneg_current m p : nonneg m -> 0 <= current m p.
Proof.
  intros H. unfold current, cell_value. destruct (last_in _ p) as [i|] eqn:E; [|done].
  apply last_in_Some in E as [(x & Hx & _) _]. rewrite (value_at_Some _ _ _ Hx).
  by apply (Forall_lookup_1 _ _ _ _ H Hx).
Qed.

Lemma header_words_nonneg : Forall (fun s => 0 <= s.2) (header_words config reg.(size_bytes) d).
Proof.
  pose proof region_has_trailer as Hr. pose proof (blocks_ordered l Hl) as (Hb1 & (Hb2 & Hb3) & Hb4 & Hb5).
  pose proof (stride_spec l Hl) as [Hst _].
  assert (H0 : 0 <= region_size l /\ 0 <= state_slot_offset l /\ 0 <= event_offset l /\
    0 <= dirty_offset l /\ 0 <= trailer_offset l) by lia.
  destruct H0 as (? & ? & ? & ? & ?).
  assert (Hu : forall x, 0 <= as_u64 x) by (intros; unfold as_u64; apply Z.mod_pos_bound; lia).
  assert (Hv : forall x, 0 <= as_u32 x) by (intros; unfold as_u32; apply Z.mod_pos_bound; lia).
  assert (Hc : 0 <= l.(directory_capacity) /\ 0 <= l.(state_slot_capacity) /\
    0 <= l.(level_capacity) /\ 0 <= l.(event_capacity) /\ 0 <= l.(dirty_capacity))
    by (destruct Hl; lia).
  destruct Hc as (? & ? & ? & ? & ?). clear Hb1 Hb2 Hb3 Hb4 Hb5 Hst Hr Hinst.
  unfold header_words, header_fields. rewrite Hsize. fold l.
  repeat first [apply Forall_nil_2 | apply Forall_cons_2; [cbn [snd];
    first [assumption | apply Hu | apply Hv | apply Hgen | destruct d; discriminate | discriminate]|]].
Qed.

Lemma formatted_nonneg p : 0 <= current (formatted reg config d) p.
Proof.
  apply nonneg_current. unfold formatted. cbv zeta. pose proof region_has_trailer.
  assert (0 <= size_bytes reg) by (rewrite Hsize; layout_consts; lia).
  apply nonneg_release; [done|]. apply nonneg_stores; [apply header_words_nonneg|].
  apply nonneg_relaxed; [done|]. apply nonneg_release; [done|].
  apply nonneg_stores; [by repeat constructor|]. apply nonneg_relaxed; [done|]. constructor.
Qed.

Lemma formatted_accepted : reg.(size_bytes) mod REGION_ALIGNMENT = 0 ->
  segment_accepted (current (formatted reg config d)) reg.(size_bytes)
    {| daemon_instance_id := config.(config_instance);
       segment_generation := config.(config_generation); layout := l |}.
Proof.
  intros Hal. destruct current_trailer as [Tm Ts].
  split; cbn [layout daemon_instance_id segment_generation]; try done;
    unfold words; rewrite ?Forall_cons, ?Forall_nil; cbn [fst snd];
    rewrite ?current_header by done; unfold header_words, header_fields; fold l.
  - unfold feature_word. destruct d; simpl; auto.
  - cbn. split_and!; done.
  - cbn. split_and!; done.
  - rewrite stride_u32. cbn. split_and!; done.
  - cbn. by rewrite instance_halves.
  - done.
Qed.

Lemma formatted_validates : reg.(size_bytes) mod REGION_ALIGNMENT = 0 ->
  validate (current (formatted reg config d)) reg.(size_bytes) = Some (Ok
    {| daemon_instance_id := config.(config_instance);
       segment_generation := config.(config_generation); layout := l |}).
Proof.
  intros Hal. pose proof region_has_trailer as Hr. rewrite <- Hsize in Hr.
  rewrite validate_eq by (layout_consts; lia). rewrite Hal. cbn [negb Z.eqb].
  rewrite (proj2 (Z.ltb_ge _ _)) by (layout_consts; lia). f_equal.
  apply validate_words_exact; [apply formatted_nonneg|done|by apply formatted_accepted].
Qed.
End creation.

(** Creation on a zeroed region succeeds exactly when the region is writable, of the
    layout's size and aligned, and a doorbell could be placed. *)
Lemma create_cases reg config accepts_a_wait created : layout_wf config.(config_layout) ->
  0 <= config.(config_instance) < 2 ^ 128 -> 0 <= config.(config_generation) <= U64_MAX ->
  exists r m, create reg config accepts_a_wait created fresh_memory = Some (r, m) /\
  match r with
  | Ok w => exists d, choose_doorbell reg config.(config_doorbell) accepts_a_wait created = Ok d /\
      w = fresh_writer reg config d /\ m = formatted reg config d /\
      reg.(is_writable) = true /\ reg.(size_bytes) = region_size config.(config_layout) /\
      reg.(size_bytes) mod REGION_ALIGNMENT = 0
  | Err _ => reg.(is_writable) = false \/ reg.(size_bytes) <> region_size config.(config_layout) \/
      reg.(size_bytes) mod REGION_ALIGNMENT <> 0 \/
      exists e, choose_doorbell reg config.(config_doorbell) accepts_a_wait created = Err e
  end.
Proof.
  intros Hl Hi Hg. set (l := config_layout config) in *. unfold create. fold l.
  destruct (is_writable reg) eqn:Ew; cycle 1.
  { eexists _, _. split; [by apply cbind_Err|]. by left. }
  rewrite (cbind_Ok _ _ fresh_memory () fresh_memory eq_refl). cbv zeta.
  destruct (Z.eqb_spec (size_bytes reg) (region_size l)) as [Es|Es]; cycle 1.
  { eexists _, _. split; [by apply cbind_Err|]. right. by left. }
  rewrite (cbind_Ok _ _ fresh_memory () fresh_memory eq_refl).
  pose proof (part_record_Ok l Hl TrailerPart I) as Ht. pose proof (part_record_Ok l Hl HeaderPart I) as Hh.
  simpl in Ht, Hh. rewrite Es, Ht, Hh. rewrite <- Es.
  erewrite cbind_Ok; [|reflexivity]. erewrite cbind_Ok; [|reflexivity].
  assert (Eb : trailer_offset l = size_bytes reg - TRAILER_BYTES) by (rewrite Es; unfold region_size; lia).
  rewrite Eb. erewrite cbind_Ok; [|unfold publishing;
    rewrite (write_once_general _ _ (size_bytes reg - TRAILER_BYTES + TRL_MAGIC) _ _
      [(size_bytes reg - TRAILER_BYTES + TRL_REGION_SIZE, size_bytes reg)]); try done].
  set (m1 := release_store _ TRAILER_MAGIC _).
  rewrite (cbind_Ok _ _ m1 () m1 eq_refl).
  destruct (choose_doorbell reg (config_doorbell config) accepts_a_wait created) as [d|e] eqn:Ed; cycle 1.
  { eexists _, _. split; [by apply cbind_Err|]. right. right. right. by exists e. }
  rewrite (cbind_Ok _ _ m1 d m1 eq_refl).
  assert (E0 : current m1 HDR_MAGIC = 0).
  { subst m1. pose proof (region_has_trailer config Hl) as Hr. fold l in Hr. rewrite <- Es in Hr.
    unfold current, release_store. cbn [history]. rewrite cell_value_snoc. cbn [place].
    layout_consts. rewrite (proj2 (Z.eqb_neq _ HDR_MAGIC)) by (unfold TRL_MAGIC, HDR_MAGIC; lia).
    unfold cell_value. simpl.
    rewrite !(proj2 (Z.eqb_neq _ HDR_MAGIC)) by (unfold TRL_MAGIC, TRL_REGION_SIZE, HDR_MAGIC; lia). done. }
  erewrite cbind_Ok; [|unfold publishing;
    rewrite (write_once_general _ _ HDR_MAGIC _ _ (header_words config (size_bytes reg) d));
      try done; apply (header_fields_at reg config d)].
  change (release_store HDR_MAGIC MAGIC _) with (formatted reg config d).
  set (m := formatted reg config d). rewrite (cbind_Ok _ _ m () m eq_refl).
  rewrite (cbind_Ok (cgets id) _ m m m eq_refl).
  destruct (Z.eq_dec (size_bytes reg mod REGION_ALIGNMENT) 0) as [Hal|Hal]; cycle 1.
  { rewrite (cbind_Ok (expect _) _ m (Err (RegionMisaligned (size_bytes reg))) m).
    - eexists _, _. split; [by apply cbind_Err|]. right. right. by left.
    - unfold expect. rewrite validate_eq, (proj2 (Z.eqb_neq _ _) Hal); [done|].
      rewrite Es. pose proof (region_has_trailer config Hl : 256 + TRAILER_BYTES <= region_size l).
      layout_consts. lia. }
  pose proof (formatted_validates reg config d Hl Es Hi Hg Hal) as Hv. fold l m in Hv.
  erewrite cbind_Ok; [|unfold expect; rewrite Hv; reflexivity].
  erewrite cbind_Ok; [|reflexivity].
  eexists _, _. split; [reflexivity|]. by exists d.
Qed.

Lemma inv_create reg config d : layout_wf config.(config_layout) ->
  reg.(is_writable) = true -> reg.(size_bytes) = region_size config.(config_layout) ->
  (0 <= config.(config_instance) < 2 ^ 128) -> 0 <= config.(config_generation) <= U64_MAX ->
  (match d with InHeader => True | Page page => current page 0 = 0 end) ->
  writer_inv [] (fresh_writer reg config d).
Proof.
  intros Hl Hw Hs Hi Hg Hpage. set (l := config_layout config) in *.
  assert (Ev : writer_layout (fresh_writer reg config d) = l) by done.
  assert (Hh : Forall (fun s => in_part l HeaderPart s.1) (header_words config (size_bytes reg) d))
    by (repeat (apply Forall_cons_2; [by unfold in_part|]); constructor).
  assert (Ht : forall o, 0 <= o < 128 -> in_part l TrailerPart (size_bytes reg - TRAILER_BYTES + o)).
  { intros o Ho. unfold in_part. simpl. layout_consts. rewrite Hs. unfold region_size. layout_consts. lia. }
  split; rewrite ?Ev; try done.
  - destruct Hl as [? _ _ _ _ _ _ _]. unfold len. simpl. lia.
  - constructor.
  - unfold fresh_writer. cbn [memory]. change (len (markets _)) with 0.
    assert (H0 : records_ok l (prepared l 0) (fun p => publications l p []) fresh_memory).
    { intros p Hr Hv. assert (prepared l 0 p = []) as ->; [|constructor].
      destruct p; try done. simpl in *. by rewrite (proj2 (Z.ltb_ge _ _)) by lia. }
    unfold formatted. cbv zeta.
    apply (records_release l Hl) with (q := HeaderPart); [done|done|by unfold in_part|].
    apply (records_stores l Hl) with (q := HeaderPart); [done|done|done|].
    apply (records_relaxed l Hl) with (q := HeaderPart); [done|done|by unfold in_part|].
    apply (records_release l Hl) with (q := TrailerPart); [done|done|by apply Ht|].
    apply (records_stores l Hl) with (q := TrailerPart); [done|done|repeat constructor; by apply Ht|].
    by apply (records_relaxed l Hl) with (q := TrailerPart); [done|done|by apply Ht|].
  - intros i Hi' p. cbn [markets installed fresh_writer fmap list_fmap]. rewrite lookup_nil.
    assert (He : extends (fun x => in_part l HeaderPart x \/ in_part l TrailerPart x) fresh_memory
      (formatted reg config d)).
    { unfold formatted. cbv zeta.
      eapply extends_trans; [|apply extends_release; left; by unfold in_part].
      eapply extends_trans; [|apply extends_stores; eapply Forall_impl; [exact Hh|]; by left].
      eapply extends_trans; [|apply extends_relaxed; left; by unfold in_part].
      eapply extends_trans; [|apply extends_release; right; by apply Ht].
      eapply extends_trans; [|apply extends_stores, Forall_singleton; right; by apply Ht].
      apply extends_relaxed. right. by apply Ht. }
    eapply extends_blank; [|exact He|by intros j y Hj].
    intros x Hx. apply off_entry_elsewhere.
    destruct Hx as [Hx|Hx];
      [apply (part_off_entry l Hl HeaderPart x i I Hi')|apply (part_off_entry l Hl TrailerPart x i I Hi')];
      exact id || exact Hx.
  - unfold fresh_writer. cbn [memory]. by rewrite current_header.
  - unfold fresh_writer. cbn [memory]. by rewrite current_header.
Qed.

(** ** Every run *)

Lemma choose_doorbell_page reg placement accepts_a_wait created d :
  choose_doorbell reg placement accepts_a_wait created = Ok d ->
  d = InHeader \/ d = Page fresh_memory.
Proof.
  unfold choose_doorbell. destruct (backing_path reg).
  - destruct (match placement with Probe => accepts_a_wait | ForcePage => false end);
      [intros [= <-]; by left|]. destruct (map_err _ created); [|done]. intros [= <-]. by right.
  - destruct placement; [|done]. intros [= <-]. by left.
Qed.

Lemma inv_counters_sane log w : writer_inv log w -> counters_sane w.
Proof.
  intros Hinv. split; [rewrite (inv_generation _ _ Hinv); apply len_nonneg|].
  intros p Hr Hp. rewrite Z.add_0_r, (records_counter _ _ _ _ _ (inv_records _ _ Hinv) Hr Hp).
  pose proof (len_nonneg (publications (writer_layout w) p log)). lia.
Qed.

(** No counter is spent before that many publications. *)
Lemma inv_counters_unspent log w : writer_inv log w -> counters_spent w -> U64_MAX < 2 * len log + 2.
Proof.
  intros Hinv [Hg|(p & Hr & Hp & Hs)]; pose proof (len_nonneg log).
  - rewrite (inv_generation _ _ Hinv) in Hg. lia.
  - rewrite (records_counter _ _ _ _ _ (inv_records _ _ Hinv) Hr Hp) in Hs.
    assert (len (publications (writer_layout w) p log) <= len log); [|lia].
    unfold publications, len. clear. induction log as [|x log IH]; [done|]. cbn [omap list_omap].
    destruct (_ <$> _); cbn [length]; lia.
Qed.

Lemma trace_inv log w : writer_trace log w -> writer_inv log w.
Proof.
  induction 1 as [reg config aw created w m Hl Hi Hg Hc
    |log w market r w' H IH Hm Hr
    |log w h book ct at_ woken r w' H IH Hh Hr
    |log w h revision cursor mutation now at_ r w' H IH Hh Hp Hr
    |log w h revision cursor resolution now at_ r w' H IH Hh Hp Hr].
  - destruct (create_cases reg config aw created Hl Hi Hg) as (r & m' & E & Hr).
    rewrite Hc in E. injection E as <- <-. destruct Hr as (d & Hd & -> & -> & Hw & Hs & _).
    apply inv_create; try done. by apply choose_doorbell_page in Hd as [->| ->].
  - destruct (install_cases log market w IH Hm) as [(e & E & _)|(E & Hlt & Hnew & Hlen)];
      rewrite E in Hr; injection Hr as <- <-; [done|]. by apply inv_install.
  - destruct (publish_stamped_cases h book ct at_ woken w (inv_well_placed _ _ IH)
      (inv_counters_sane _ _ IH) (dirty_position_range _ _ IH) (inv_count _ _ IH) ltac:(lia))
      as [(e & E & _)|(staged & Hs & (_ & _ & Hm) & Hlt & E)];
      rewrite E in Hr; injection Hr as <- <-; [by rewrite app_nil_r|].
    apply inv_state; try done; lia.
  - destruct (publish_mutation_cases h revision cursor mutation now at_ w (inv_well_placed _ _ IH)
      (inv_counters_sane _ _ IH) (inv_count _ _ IH) ltac:(lia) Hp) as [(e & E & _)|(staged & Hs & (_ & _ & Hm) & Hlt & E)];
      rewrite E in Hr; injection Hr as <- <-; [by rewrite app_nil_r|].
    pose proof (inv_count _ _ IH).
    apply (inv_event log w _ (entry_index h) (cursor_position cursor)); try done.
    + split; [simpl; lia|]. simpl. split_and!; [lia..|by rewrite Hs|done].
    + split; [lia|done].
    + simpl. by rewrite !Z.eqb_refl, Hs.
    + by apply event_words_only.
    + apply mutation_words_in. by apply stage_mutation_fits in Hs.
  - destruct (publish_resolution_cases h revision cursor resolution now at_ w (inv_well_placed _ _ IH)
      (inv_counters_sane _ _ IH) (inv_count _ _ IH) ltac:(lia) Hp) as [(e & E & _)|(staged & Hs & (_ & _ & Hm) & Hlt & E)];
      rewrite E in Hr; injection Hr as <- <-; [by rewrite app_nil_r|].
    pose proof (inv_count _ _ IH).
    apply (inv_event log w _ (entry_index h) (cursor_position cursor)); try done.
    + split; [simpl; lia|]. simpl. split_and!; [lia..|by rewrite Hs|done].
    + split; [lia|done].
    + simpl. by rewrite !Z.eqb_refl, Hs.
    + by apply event_words_only.
    + apply stage_resolution_fits in Hs as (? & ? & ?). by apply resolution_words_in.
Qed.
