(* ===== verification/ShmReader.v ===== *)
(** * The readers of a segment ([src/src/shm/reader.rs])

    Snapshots, cursors, events and the dirty index, read under the counters of their
    records, and the event stream a consumer polls. What a load returns is chosen by the
    memory, so every operation takes the history it runs against and the choices its loads
    make. *)

From S2P Require Import Prelude OrdMap Numeric Identity Descriptor Continuity Observation Book ShmCodec ShmCell ShmLayout ShmWriter.

Notation "x <-c c ;; k" := (pbind c (fun x => k))
  (at level 100, c at next level, right associativity) : rust_scope.

(** ** Data *)

Inductive ReadFault : Set :=
| ReadSegment (fault : SegmentFault)
| EntryUnpublished
| NoPublishedState
| HandleStale
| ForeignSegment
| SlotOwnershipMismatch
| MalformedIdentity
| MalformedRecord
| ReadWriterStalled (slot_revision : Z)
| ReadContended (attempts : nat).

#[export] Instance ReadFault_eq_dec : EqDecision ReadFault.
Proof. solve_decision. Defined.

Record PublicationOrigin : Set := {
  po_origin : Origin; po_representation : Representation; po_native_family : bytes
}.

Record BookSnapshot : Set := {
  snap_market : MarketRef;
  snap_revision : Z;
  snap_authority : AuthorityState;
  snap_continuity : MutationContinuity;
  snap_sync_divergences : Z;
  snap_commit_time : Z;
  snap_arrival_time : Z;
  snap_publication : option PublicationOrigin;
  snap_levels : list Level
}.

(** 0 is no stamp. *)
Definition stamp_of (time : Z) : option Z := if negb (time =? 0) then Some time else None.
Definition commit_time_nanos (self : BookSnapshot) : option Z := stamp_of self.(snap_commit_time).
Definition arrival_time_nanos (self : BookSnapshot) : option Z := stamp_of self.(snap_arrival_time).

(** [level.side() == side && level.quantity().value().coefficient() != 0]. *)
Definition rests_on (s : Side) (level : Level) : bool :=
  bool_decide (level.(side) = s) && negb (level.(quantity).(quantity_value).(coefficient) =? 0).
Definition best_bid (self : BookSnapshot) : option Level :=
  List.find (rests_on Bid) (rev self.(snap_levels)).
Definition best_ask (self : BookSnapshot) : option Level :=
  List.find (rests_on Ask) self.(snap_levels).

Record CursorWords : Set := {
  cw_book_revision : Z; cw_continuity_epoch : Z; cw_continuity_position : Z;
  cw_continuity_kind : Z; cw_continuity_reason : Z; cw_directory_index : Z
}.

Record SharedEventWords : Set := {
  ew_cursor_epoch : Z; ew_cursor_position : Z; ew_book_revision : Z; ew_commit_time : Z;
  ew_arrival_time : Z; ew_daemon_generation : Z; ew_subscription_generation : Z;
  ew_origin : Z; ew_derivation : Z; ew_representation : Z; ew_directory_index : Z
}.

Record MutationWords : Set := {
  mw_side : Z; mw_old_present : Z; mw_new_present : Z; mw_family_length : Z;
  mw_family_words : list Z; mw_price : DecimalWords; mw_old_quantity : DecimalWords;
  mw_new_quantity : DecimalWords
}.

Record ResolutionWords : Set := {
  rw_winning_index : Z; rw_delivery_path : Z; rw_outcome_length : Z; rw_type_length : Z;
  rw_date_length : Z; rw_outcome_words : list Z; rw_type_words : list Z; rw_date_words : list Z
}.

Inductive EventBody : Set :=
| BodyMutation (words : MutationWords)
| BodyResolution (words : ResolutionWords)
| BodyUnknown.

Record EventWords : Set := { shared : SharedEventWords; body : EventBody }.

(** The seven words of a level are those of [LevelWords]. *)
Record SlotWords : Set := {
  sw_book_revision : Z; sw_commit_time : Z; sw_arrival_time : Z; sw_continuity_epoch : Z;
  sw_continuity_position : Z; sw_sync_divergences : Z; sw_authority_state : Z;
  sw_authority_reason : Z; sw_continuity_kind : Z; sw_continuity_reason : Z;
  sw_provenance_present : Z; sw_origin : Z; sw_derivation : Z; sw_representation : Z;
  sw_family_length : Z; sw_family_words : list Z; sw_directory_index : Z; sw_level_count : Z;
  sw_levels : list LevelWords
}.

Record StateCursor : Set := { sc_revision : Z; sc_continuity : MutationContinuity }.

Record MutationEvent : Set := {
  me_market : MarketRef; me_revision : Z; me_cursor : MutationCursor; me_commit_time : Z;
  me_arrival_time : Z; me_publication : PublicationOrigin; me_side : Side; me_price : Price;
  me_old_quantity : option Quantity; me_new_quantity : option Quantity;
  me_daemon_generation : Z; me_subscription_generation : Z
}.

Record ResolutionPublication : Set := { rp_origin : Origin; rp_representation : Representation }.

Record ResolutionEvent : Set := {
  re_market : MarketRef; re_revision : Z; re_cursor : MutationCursor; re_commit_time : Z;
  re_arrival_time : Z; re_publication : ResolutionPublication; re_winning_index : Z;
  re_delivery_path : DeliveryPath; re_winning_outcome : bytes; re_market_type : bytes;
  re_resolution_date : bytes; re_daemon_generation : Z; re_subscription_generation : Z
}.

Inductive RetainedEvent : Set :=
| RetainedMutation (event : MutationEvent)
| RetainedResolution (event : ResolutionEvent).

Definition event_market (e : RetainedEvent) : MarketRef :=
  match e with RetainedMutation e => e.(me_market) | RetainedResolution e => e.(re_market) end.
Definition event_revision (e : RetainedEvent) : Z :=
  match e with RetainedMutation e => e.(me_revision) | RetainedResolution e => e.(re_revision) end.
Definition event_cursor_of (e : RetainedEvent) : MutationCursor :=
  match e with RetainedMutation e => e.(me_cursor) | RetainedResolution e => e.(re_cursor) end.

Inductive EventPoll : Set := Delivered (event : RetainedEvent) | Idle.

Inductive StreamFault : Set :=
| StreamContinuityLost (reason : ContinuityReason)
| StreamRead (fault : ReadFault).

Inductive StreamStart : Set := StartAt (cursor : MutationCursor) | StartLost (reason : ContinuityReason).

(** [DirtyCursor] is its position. *)
Inductive DirtyPoll : Set :=
| DirtyDelivered (directory_index book_revision : Z) | DirtyIdle | DirtyRescan.

(** What a reader keeps: its geometry, its binding and the size of its region. *)
Record SegmentReader : Set := {
  reader_size : Z; reader_geometry : SegmentGeometry; reader_binding : SegmentBinding
}.

Definition reader_layout (self : SegmentReader) : SegmentLayout := self.(reader_geometry).(layout).

Record EventStream : Set := {
  stream_handle : MarketHandle;
  stream_market : MarketRef;
  stream_cursor : MutationCursor;
  stream_lost : option ContinuityReason
}.

(** ** Copies *)

Definition read_decimal (cell : CellRecord) : pcopy DecimalWords :=
  low <-c load64 cell DEC_COEFFICIENT_LOW ;;
  high <-c load64 cell DEC_COEFFICIENT_HIGH ;;
  scale <-c load32 cell DEC_SCALE ;;
  pret {| dec_low := low; dec_high := high; dec_scale := scale |}.

Definition sub_record (r : CellRecord) (offset size : Z) : pcopy CellRecord := Done (sub r offset size).

Definition read_text_words (WORDS : Z) (slot : CellRecord) (base : Z) : pcopy (list Z) :=
  pmap (fun word => load64 slot (base + Z.of_nat word * 8)) (seq 0 (Z.to_nat WORDS)).

Definition read_level (slot : CellRecord) (position : nat) : pcopy LevelWords :=
  cell <-c sub_record slot (SLOT_PREFIX_BYTES + Z.of_nat position * LEVEL_CELL_BYTES)
             LEVEL_CELL_BYTES ;;
  price <-c sub_record cell LVL_PRICE DECIMAL_CELL_BYTES ;;
  quantity <-c sub_record cell LVL_QUANTITY DECIMAL_CELL_BYTES ;;
  side <-c load32 cell LVL_SIDE ;;
  price <-c read_decimal price ;;
  quantity <-c read_decimal quantity ;;
  pret {| level_side := side; level_price := price; level_quantity := quantity |}.

Definition read_words (slot : CellRecord) (capacity : Z) : pcopy SlotWords :=
  family_words <-c read_text_words NATIVE_FAMILY_WORDS slot SLOT_FAMILY_WORDS ;;
  level_count <-c load32 slot SLOT_LEVEL_COUNT ;;
  levels <-c pmap (read_level slot) (seq 0 (Z.to_nat (Z.min level_count capacity))) ;;
  book_revision <-c load64 slot SLOT_BOOK_REVISION ;;
  commit_time <-c load64 slot SLOT_COMMIT_TIME ;;
  arrival_time <-c load64 slot SLOT_ARRIVAL_TIME ;;
  continuity_epoch <-c load64 slot SLOT_CONTINUITY_EPOCH ;;
  continuity_position <-c load64 slot SLOT_CONTINUITY_POSITION ;;
  sync_divergences <-c load64 slot SLOT_SYNC_DIVERGENCES ;;
  authority_state <-c load32 slot SLOT_AUTHORITY_STATE ;;
  authority_reason <-c load32 slot SLOT_AUTHORITY_REASON ;;
  continuity_kind <-c load32 slot SLOT_CONTINUITY_KIND ;;
  continuity_reason <-c load32 slot SLOT_CONTINUITY_REASON ;;
  provenance_present <-c load32 slot SLOT_PROVENANCE_PRESENT ;;
  origin <-c load32 slot SLOT_ORIGIN ;;
  derivation <-c load32 slot SLOT_DERIVATION ;;
  representation <-c load32 slot SLOT_REPRESENTATION ;;
  family_length <-c load32 slot SLOT_FAMILY_LEN ;;
  directory_index <-c load32 slot SLOT_DIRECTORY_INDEX ;;
  pret {| sw_book_revision := book_revision; sw_commit_time := commit_time;
          sw_arrival_time := arrival_time; sw_continuity_epoch := continuity_epoch;
          sw_continuity_position := continuity_position;
          sw_sync_divergences := sync_divergences; sw_authority_state := authority_state;
          sw_authority_reason := authority_reason; sw_continuity_kind := continuity_kind;
          sw_continuity_reason := continuity_reason;
          sw_provenance_present := provenance_present; sw_origin := origin;
          sw_derivation := derivation; sw_representation := representation;
          sw_family_length := family_length; sw_family_words := family_words;
          sw_directory_index := directory_index; sw_level_count := level_count;
          sw_levels := levels |}.

Definition read_cursor_words (slot : CellRecord) : pcopy CursorWords :=
  book_revision <-c load64 slot SLOT_BOOK_REVISION ;;
  continuity_epoch <-c load64 slot SLOT_CONTINUITY_EPOCH ;;
  continuity_position <-c load64 slot SLOT_CONTINUITY_POSITION ;;
  continuity_kind <-c load32 slot SLOT_CONTINUITY_KIND ;;
  continuity_reason <-c load32 slot SLOT_CONTINUITY_REASON ;;
  directory_index <-c load32 slot SLOT_DIRECTORY_INDEX ;;
  pret {| cw_book_revision := book_revision; cw_continuity_epoch := continuity_epoch;
          cw_continuity_position := continuity_position;
          cw_continuity_kind := continuity_kind; cw_continuity_reason := continuity_reason;
          cw_directory_index := directory_index |}.

Definition read_event_words (slot : CellRecord) : pcopy EventWords :=
  cursor_epoch <-c load64 slot EVT_CURSOR_EPOCH ;;
  cursor_position <-c load64 slot EVT_CURSOR_POSITION ;;
  book_revision <-c load64 slot EVT_BOOK_REVISION ;;
  commit_time <-c load64 slot EVT_COMMIT_TIME ;;
  arrival_time <-c load64 slot EVT_ARRIVAL_TIME ;;
  daemon_generation <-c load64 slot EVT_DAEMON_GENERATION ;;
  subscription_generation <-c load64 slot EVT_SUBSCRIPTION_GENERATION ;;
  origin <-c load32 slot EVT_ORIGIN ;;
  derivation <-c load32 slot EVT_DERIVATION ;;
  representation <-c load32 slot EVT_REPRESENTATION ;;
  directory_index <-c load32 slot EVT_DIRECTORY_INDEX ;;
  kind <-c load32 slot EVT_DELIVERY_KIND ;;
  body <-c
    (if kind =? DELIVERY_LEVEL_MUTATION then
       side <-c load32 slot EVT_SIDE ;;
       old_present <-c load32 slot EVT_OLD_PRESENT ;;
       new_present <-c load32 slot EVT_NEW_PRESENT ;;
       family_length <-c load32 slot EVT_FAMILY_LEN ;;
       family_words <-c read_text_words NATIVE_FAMILY_WORDS slot EVT_FAMILY_WORDS ;;
       price <-c pbind (sub_record slot EVT_PRICE DECIMAL_CELL_BYTES) read_decimal ;;
       old_quantity <-c pbind (sub_record slot EVT_OLD_QUANTITY DECIMAL_CELL_BYTES) read_decimal ;;
       new_quantity <-c pbind (sub_record slot EVT_NEW_QUANTITY DECIMAL_CELL_BYTES) read_decimal ;;
       pret (BodyMutation
         {| mw_side := side; mw_old_present := old_present; mw_new_present := new_present;
            mw_family_length := family_length; mw_family_words := family_words;
            mw_price := price; mw_old_quantity := old_quantity;
            mw_new_quantity := new_quantity |})
     else if kind =? DELIVERY_MARKET_RESOLVED then
       winning_index <-c load32 slot EVT_RES_WINNING_INDEX ;;
       delivery_path <-c load32 slot EVT_RES_DELIVERY_PATH ;;
       outcome_length <-c load32 slot EVT_RES_OUTCOME_LEN ;;
       type_length <-c load32 slot EVT_RES_TYPE_LEN ;;
       date_length <-c load32 slot EVT_RES_DATE_LEN ;;
       outcome_words <-c read_text_words RES_OUTCOME_WORDS slot EVT_RES_OUTCOME ;;
       type_words <-c read_text_words RES_TYPE_WORDS slot EVT_RES_TYPE ;;
       date_words <-c read_text_words RES_DATE_WORDS slot EVT_RES_DATE ;;
       pret (BodyResolution
         {| rw_winning_index := winning_index; rw_delivery_path := delivery_path;
            rw_outcome_length := outcome_length; rw_type_length := type_length;
            rw_date_length := date_length; rw_outcome_words := outcome_words;
            rw_type_words := type_words; rw_date_words := date_words |})
     else pret BodyUnknown) ;;
  pret {| shared :=
            {| ew_cursor_epoch := cursor_epoch; ew_cursor_position := cursor_position;
               ew_book_revision := book_revision; ew_commit_time := commit_time;
               ew_arrival_time := arrival_time; ew_daemon_generation := daemon_generation;
               ew_subscription_generation := subscription_generation; ew_origin := origin;
               ew_derivation := derivation; ew_representation := representation;
               ew_directory_index := directory_index |};
          body := body |}.

(** ** Decoding *)

Definition stored_text (WORDS length : Z) (words : list Z) : option bytes :=
  if WORDS * 8 <? length then None
  else
    let text := map (fun position =>
      Z.shiftr (default 0 (words !! (position / 8)%nat)) (Z.of_nat (position mod 8) * 8) mod 256)
      (seq 0 (Z.to_nat length)) in
    if utf8_valid text then Some text else None.

Definition price_words (d : DecimalWords) : option Price :=
  price_of d.(dec_low) d.(dec_high) d.(dec_scale).
Definition quantity_words (d : DecimalWords) : option Quantity :=
  quantity_of d.(dec_low) d.(dec_high) d.(dec_scale).

Definition decode_level (words : LevelWords) : option Level :=
  side ← side_of words.(level_side);
  price ← price_words words.(level_price);
  quantity ← quantity_words words.(level_quantity);
  Some {| side := side; price := price; quantity := quantity |}.

Definition decode_publication (origin derivation representation family_length : Z)
    (family_words : list Z) : option PublicationOrigin :=
  origin ← origin_of origin derivation;
  representation ← representation_of representation;
  native_family ← stored_text NATIVE_FAMILY_WORDS family_length family_words;
  Some {| po_origin := origin; po_representation := representation;
          po_native_family := native_family |}.

Definition decode (market : MarketRef) (words : SlotWords) : option BookSnapshot :=
  publication ←
    (if words.(sw_provenance_present) =? 0 then Some None
     else if words.(sw_provenance_present) =? 1 then
       Some <$> decode_publication words.(sw_origin) words.(sw_derivation)
         words.(sw_representation) words.(sw_family_length) words.(sw_family_words)
     else None);
  levels ← mapM decode_level words.(sw_levels);
  authority ← authority_state words.(sw_authority_state) words.(sw_authority_reason);
  continuity ← continuity words.(sw_continuity_kind) words.(sw_continuity_reason)
                 words.(sw_continuity_epoch) words.(sw_continuity_position);
  Some {| snap_market := market; snap_revision := words.(sw_book_revision);
          snap_authority := authority; snap_continuity := continuity;
          snap_sync_divergences := words.(sw_sync_divergences);
          snap_commit_time := words.(sw_commit_time);
          snap_arrival_time := words.(sw_arrival_time);
          snap_publication := publication; snap_levels := levels |}.

(** The [present] closure, and the [quantity] one. *)
Definition presence (word : Z) : option bool :=
  if word =? 0 then Some false else if word =? 1 then Some true else None.
Definition optional_quantity (present : bool) (words : DecimalWords) : option (option Quantity) :=
  if negb present then Some None else Some <$> quantity_words words.

Definition decode_event (market : MarketRef) (cursor : MutationCursor) (words : EventWords) :
    option RetainedEvent :=
  let sh := words.(shared) in
  match words.(body) with
  | BodyMutation body =>
      old_present ← presence body.(mw_old_present);
      new_present ← presence body.(mw_new_present);
      if negb old_present && negb new_present then None
      else
        publication ← decode_publication sh.(ew_origin) sh.(ew_derivation)
                        sh.(ew_representation) body.(mw_family_length) body.(mw_family_words);
        side ← side_of body.(mw_side);
        price ← price_words body.(mw_price);
        old_quantity ← optional_quantity old_present body.(mw_old_quantity);
        new_quantity ← optional_quantity new_present body.(mw_new_quantity);
        Some (RetainedMutation
          {| me_market := market; me_revision := sh.(ew_book_revision); me_cursor := cursor;
             me_commit_time := sh.(ew_commit_time); me_arrival_time := sh.(ew_arrival_time);
             me_publication := publication; me_side := side; me_price := price;
             me_old_quantity := old_quantity; me_new_quantity := new_quantity;
             me_daemon_generation := sh.(ew_daemon_generation);
             me_subscription_generation := sh.(ew_subscription_generation) |})
  | BodyResolution body =>
      origin ← origin_of sh.(ew_origin) sh.(ew_derivation);
      representation ← representation_of sh.(ew_representation);
      delivery_path ← delivery_path_of body.(rw_delivery_path);
      winning_outcome ← stored_text RES_OUTCOME_WORDS body.(rw_outcome_length) body.(rw_outcome_words);
      market_type ← stored_text RES_TYPE_WORDS body.(rw_type_length) body.(rw_type_words);
      resolution_date ← stored_text RES_DATE_WORDS body.(rw_date_length) body.(rw_date_words);
      Some (RetainedResolution
        {| re_market := market; re_revision := sh.(ew_book_revision); re_cursor := cursor;
           re_commit_time := sh.(ew_commit_time); re_arrival_time := sh.(ew_arrival_time);
           re_publication := {| rp_origin := origin; rp_representation := representation |};
           re_winning_index := body.(rw_winning_index); re_delivery_path := delivery_path;
           re_winning_outcome := winning_outcome; re_market_type := market_type;
           re_resolution_date := resolution_date;
           re_daemon_generation := sh.(ew_daemon_generation);
           re_subscription_generation := sh.(ew_subscription_generation) |})
  | BodyUnknown => None
  end.

(** ** Reading programs

    Against a history, with the choices of their loads: [None] when the choices are not a
    behaviour of the memory, [Some None] when an assertion failed. *)
Definition rprog (A : Type) : Type :=
  list Message -> list (option nat) -> View -> option (option A * View * list (option nat)).

Definition rret {A} (a : A) : rprog A := fun h choices view => Some (Some a, view, choices).
Definition rpanic {A} : rprog A := fun h choices view => Some (None, view, choices).
Definition rexpect {A} (o : option A) : rprog A := match o with Some a => rret a | None => rpanic end.
Definition rbind {A B} (m : rprog A) (k : A -> rprog B) : rprog B := fun h choices view =>
  '(o, view, choices) ← m h choices view;
  match o with Some a => k a h choices view | None => Some (None, view, choices) end.
Definition rtry {A B E} (m : rprog (result A E)) (k : A -> rprog (result B E)) :
    rprog (result B E) :=
  rbind m (fun r => match r with Ok a => k a | Err e => rret (Err e) end).

(** [x <-r m ;; k] sequences; [x <-r? m ;; k] is [let x = m?; k]. *)
Notation "x <-r m ;; k" := (rbind m (fun x => k))
  (at level 100, m at next level, right associativity) : rust_scope.
Notation "x <-r? m ;; k" := (rtry m (fun x => k))
  (at level 100, m at next level, right associativity) : rust_scope.
Definition rdeny {E} (b : bool) (e : E) : rprog (result () E) :=
  rret (if b then Err e else Ok ()).
Definition rlift {A E} (r : result A E) : rprog (result A E) := rret r.

Definition choosing {A} (f : list Message -> option nat -> View -> option (A * View)) : rprog A :=
  fun h choices view =>
    match choices with
    | [] => None
    | i :: choices => '(a, view) ← f h i view; Some (Some a, view, choices)
    end.
Definition acquire (r : CellRecord) (offset : Z) : rprog Z :=
  cell <-r rexpect (ptr r offset 8) ;; choosing (fun h => acquire_load h cell).
Definition copying {A} (c : pcopy A) : rprog A := fun h choices view => run_copy h c choices view.

(** [under_seqlock] on a record, its faults as [ReadFault]s. *)
Definition seqlocked {A} (r : CellRecord) (offset : Z) (c : pcopy A) :
    rprog (result (option A) ReadFault) :=
  counter <-r rexpect (ptr r offset 8) ;;
  fun h choices view =>
    '(found, view, choices) ← under_seqlock h counter c choices view;
    Some (match found with
          | Ok None => Some (Ok None)
          | Ok (Some (Some a)) => Some (Ok (Some a))
          | Ok (Some None) => None
          | Err (WriterStalled n) => Some (Err (ReadWriterStalled n))
          | Err (Contended n) => Some (Err (ReadContended n))
          end, view, choices).

(** [Record::published] and what its witness unlocks. *)
Definition published (r : CellRecord) (gate_offset : Z) : rprog (option Z) :=
  gate <-r acquire r gate_offset ;;
  rret (if negb (gate =? 0) && negb (gate =? GATE_CLAIMED) then Some gate else None).
Definition witness_word32 (r : CellRecord) (offset : Z) : rprog Z := copying (load32 r offset).
Definition witness_bytes (r : CellRecord) (offset length : Z) : rprog bytes :=
  if (length <=? r.(rec_size)) && (offset <=? r.(rec_size) - length)
  then copying (pmap (fun k => Load (r.(rec_base) + offset + Z.of_nat k) pret)
                  (seq 0 (Z.to_nat length)))
  else rpanic.

Definition read_identity (entry : CellRecord) : rprog (option bytes) :=
  length <-r witness_word32 entry ENT_IDENTITY_LEN ;;
  if length <=? IDENTITY_CAPACITY
  then identity <-r witness_bytes entry ENT_IDENTITY length ;; rret (Some identity)
  else rret None.

(** ** The reader's operations *)

Section reader.
Variable self : SegmentReader.

(** The entry behind its witness, and the slot. *)
Definition state_slot (handle : MarketHandle) : rprog (result (CellRecord * CellRecord) ReadFault) :=
  _ <-r? rdeny (negb (bool_decide (handle.(segment) = self.(reader_binding)))) ForeignSegment ;;
  entry <-r? rlift (map_err ReadSegment
    (directory_record self.(reader_size) (reader_layout self) handle.(entry_index))) ;;
  gate <-r published entry ENT_REVISION ;;
  _ <-r? rlift (ok_or gate EntryUnpublished) ;;
  slot_index <-r witness_word32 entry ENT_SLOT_INDEX ;;
  _ <-r? rdeny (slot_index =? NO_STATE_SLOT) NoPublishedState ;;
  _ <-r? rdeny (negb (slot_index =? handle.(state_slot_index))) HandleStale ;;
  _ <-r? rdeny ((reader_layout self).(state_slot_capacity) <=? slot_index) MalformedRecord ;;
  slot <-r? rlift (map_err ReadSegment
    (state_slot_record self.(reader_size) (reader_layout self) slot_index)) ;;
  rret (Ok (entry, slot)).

Definition read (handle : MarketHandle) : rprog (result BookSnapshot ReadFault) :=
  found <-r? state_slot handle ;;
  let '(entry, slot) := found in
  identity <-r read_identity entry ;;
  identity <-r? rlift (ok_or identity MalformedIdentity) ;;
  market <-r? rlift (ok_or (decode_identity identity) MalformedIdentity) ;;
  let capacity := (reader_layout self).(level_capacity) in
  words <-r? seqlocked slot SLOT_REVISION (read_words slot capacity) ;;
  words <-r? rlift (ok_or words NoPublishedState) ;;
  _ <-r? rdeny (negb (words.(sw_directory_index) =? handle.(entry_index))) SlotOwnershipMismatch ;;
  _ <-r? rdeny (capacity <? words.(sw_level_count)) MalformedRecord ;;
  rlift (ok_or (decode market words) MalformedRecord).

Definition read_cursor (handle : MarketHandle) : rprog (result StateCursor ReadFault) :=
  found <-r? state_slot handle ;;
  let '(_, slot) := found in
  words <-r? seqlocked slot SLOT_REVISION (read_cursor_words slot) ;;
  words <-r? rlift (ok_or words NoPublishedState) ;;
  _ <-r? rdeny (negb (words.(cw_directory_index) =? handle.(entry_index))) SlotOwnershipMismatch ;;
  continuity <-r? rlift (ok_or (continuity words.(cw_continuity_kind) words.(cw_continuity_reason)
    words.(cw_continuity_epoch) words.(cw_continuity_position)) MalformedRecord) ;;
  rret (Ok {| sc_revision := words.(cw_book_revision); sc_continuity := continuity |}).

Definition event_slot (handle : MarketHandle) (position : Z) : rprog (result CellRecord ReadFault) :=
  _ <-r? rdeny (negb (bool_decide (handle.(segment) = self.(reader_binding)))) ForeignSegment ;;
  rlift (map_err ReadSegment
    (event_slot_record self.(reader_size) (reader_layout self) handle.(entry_index) position)).

Definition event_cursor (handle : MarketHandle) (cursor : MutationCursor) :
    rprog (result (option MutationCursor) ReadFault) :=
  slot <-r? event_slot handle cursor.(cursor_position) ;;
  seqlocked slot EVT_SEQUENCE
    (epoch <-c load64 slot EVT_CURSOR_EPOCH ;;
     position <-c load64 slot EVT_CURSOR_POSITION ;;
     pret {| cursor_epoch := epoch; cursor_position := position |}).

Definition event_words (handle : MarketHandle) (cursor : MutationCursor) :
    rprog (result (option EventWords) ReadFault) :=
  slot <-r? event_slot handle cursor.(cursor_position) ;;
  seqlocked slot EVT_SEQUENCE (read_event_words slot).

(** [(left.epoch(), left.position()) > (right.epoch(), right.position())]. *)
Definition later (left right : MutationCursor) : bool :=
  (right.(cursor_epoch) <? left.(cursor_epoch))
  || (left.(cursor_epoch) =? right.(cursor_epoch))
     && (right.(cursor_position) <? left.(cursor_position)).

(** The attempts left are the fuel. *)
Fixpoint attach_loop (attempts : nat) (handle : MarketHandle) :
    rprog (result (BookSnapshot * StreamStart) ReadFault) :=
  match attempts with
  | O => rret (Err (ReadContended MAX_READ_ATTEMPTS))
  | S attempts =>
      snapshot <-r? read handle ;;
      match snapshot.(snap_continuity) with
      | Lost _ reason => rret (Ok (snapshot, StartLost reason))
      | Intact epoch next_position =>
          let cursor := {| cursor_epoch := epoch; cursor_position := next_position |} in
          stored <-r? event_cursor handle cursor ;;
          if match stored with Some stored => negb (later stored cursor) | None => true end
          then rret (Ok (snapshot, StartAt cursor))
          else attach_loop attempts handle
      end
  end.
Definition attach_at (handle : MarketHandle) : rprog (result (BookSnapshot * StreamStart) ReadFault) :=
  attach_loop MAX_READ_ATTEMPTS handle.

Definition start_cursor (start : StreamStart) (c : MutationContinuity) : MutationCursor :=
  match start with
  | StartAt cursor => cursor
  | StartLost _ => {| cursor_epoch := epoch_of c; cursor_position := 0 |}
  end.
Definition start_lost (start : StreamStart) : option ContinuityReason :=
  match start with StartAt _ => None | StartLost reason => Some reason end.

(** What [attach_stream] builds and [reattach] assigns. *)
Definition stream_from (handle : MarketHandle) (snapshot : BookSnapshot) (start : StreamStart) :
    EventStream :=
  {| stream_handle := handle; stream_market := snapshot.(snap_market);
     stream_cursor := start_cursor start snapshot.(snap_continuity);
     stream_lost := start_lost start |}.

Definition attach_stream (handle : MarketHandle) :
    rprog (result (BookSnapshot * EventStream) ReadFault) :=
  found <-r? attach_at handle ;;
  rret (Ok (found.1, stream_from handle found.1 found.2)).

Definition reattach (stream : EventStream) : rprog (result BookSnapshot ReadFault * EventStream) :=
  found <-r attach_at stream.(stream_handle) ;;
  match found with
  | Ok (snapshot, start) =>
      rret (Ok snapshot, stream_from stream.(stream_handle) snapshot start)
  | Err e => rret (Err e, stream)
  end.

(** [EventStream::lose]: the loss sticks. *)
Definition lose {A} (reason : ContinuityReason) (stream : EventStream) :
    rprog (result A StreamFault * EventStream) :=
  rret (Err (StreamContinuityLost reason),
        {| stream_handle := stream.(stream_handle); stream_market := stream.(stream_market);
           stream_cursor := stream.(stream_cursor); stream_lost := Some reason |}).

Definition advance_to (cursor : MutationCursor) (stream : EventStream) : EventStream :=
  {| stream_handle := stream.(stream_handle); stream_market := stream.(stream_market);
     stream_cursor := cursor; stream_lost := stream.(stream_lost) |}.

(** [poll] past the state's continuity. *)
Definition poll_ring (stream : EventStream) : rprog (result EventPoll StreamFault * EventStream) :=
  let cursor := stream.(stream_cursor) in
  words <-r event_words stream.(stream_handle) cursor ;;
  match words with
  | Err e => rret (Err (StreamRead e), stream)
  | Ok None => rret (Ok Idle, stream)
  | Ok (Some words) =>
      let stored := {| cursor_epoch := words.(shared).(ew_cursor_epoch);
                       cursor_position := words.(shared).(ew_cursor_position) |} in
      if cursor.(cursor_epoch) <? stored.(cursor_epoch) then lose RecoveryBase stream
      else if later stored cursor then lose Overrun stream
      else if negb (bool_decide (stored = cursor)) then rret (Ok Idle, stream)
      else if negb (words.(shared).(ew_directory_index) =? stream.(stream_handle).(entry_index))
      then rret (Err (StreamRead SlotOwnershipMismatch), stream)
      else
        match decode_event stream.(stream_market) stored words with
        | None => rret (Err (StreamRead MalformedRecord), stream)
        | Some event =>
            match checked_add_u64 cursor.(cursor_position) 1 with
            | None => lose LocalLoss stream
            | Some next =>
                rret (Ok (Delivered event),
                      advance_to {| cursor_epoch := cursor.(cursor_epoch); cursor_position := next |}
                        stream)
            end
        end
  end.

Definition poll (stream : EventStream) : rprog (result EventPoll StreamFault * EventStream) :=
  match stream.(stream_lost) with
  | Some reason => rret (Err (StreamContinuityLost reason), stream)
  | None =>
      state <-r read_cursor stream.(stream_handle) ;;
      match state with
      | Err e => rret (Err (StreamRead e), stream)
      | Ok state =>
          let epoch' := stream.(stream_cursor).(cursor_epoch) in
          match state.(sc_continuity) with
          | Intact epoch _ =>
              if negb (epoch =? epoch') then lose RecoveryBase stream else poll_ring stream
          | Lost epoch reason =>
              lose (if epoch =? epoch' then reason else RecoveryBase) stream
          end
      end
  end.

(** *** Directory and dirty index *)

(** [find_map] over the entries. *)
Fixpoint resolve_loop (market : MarketRef) (indices : list nat) : rprog (option MarketHandle) :=
  match indices with
  | [] => rret None
  | index :: rest =>
      let index := Z.of_nat index in
      match directory_record self.(reader_size) (reader_layout self) index with
      | Err _ => resolve_loop market rest
      | Ok entry =>
          gate <-r published entry ENT_REVISION ;;
          match gate with
          | None => resolve_loop market rest
          | Some _ =>
              identity <-r read_identity entry ;;
              if bool_decide (identity ≫= decode_identity = Some market)
              then slot_index <-r witness_word32 entry ENT_SLOT_INDEX ;;
                   rret (Some {| segment := self.(reader_binding); entry_index := index;
                                 state_slot_index := slot_index |})
              else resolve_loop market rest
          end
      end
  end.
Definition resolve (market : MarketRef) : rprog (option MarketHandle) :=
  resolve_loop market (seq 0 (Z.to_nat (reader_layout self).(directory_capacity))).

Definition resolve_directory_index (directory_index : Z) : rprog (option MarketHandle) :=
  if (reader_layout self).(directory_capacity) <=? directory_index then rret None
  else
    match directory_record self.(reader_size) (reader_layout self) directory_index with
    | Err _ => rret None
    | Ok entry =>
        gate <-r published entry ENT_REVISION ;;
        match gate with
        | None => rret None
        | Some _ =>
            slot_index <-r witness_word32 entry ENT_SLOT_INDEX ;;
            rret (Some {| segment := self.(reader_binding); entry_index := directory_index;
                          state_slot_index := slot_index |})
        end
    end.

(** One attempt at a dirty entry: [None] unless it was stable throughout. *)
Definition dirty_attempt {A} (slot : CellRecord) (c : pcopy A) : rprog (option A) :=
  counter <-r rexpect (ptr slot DIRTY_SEQUENCE 8) ;;
  opened <-r choosing (fun h => open_read h counter) ;;
  match opened with
  | Stable opened =>
      words <-r copying c ;;
      settled <-r choosing (fun h => close_read h counter opened) ;;
      rret (if settled : bool then Some words else None)
  | Unpublished | InFlight _ => rret None
  end.

Definition read_dirty (slot : CellRecord) : pcopy (Z * Z * Z) :=
  position <-c load64 slot DIRTY_POSITION ;;
  directory_index <-c load32 slot DIRTY_DIRECTORY_INDEX ;;
  book_revision <-c load64 slot DIRTY_BOOK_REVISION ;;
  pret (position, directory_index, book_revision).

Definition next_dirty (cursor : Z) : rprog (DirtyPoll * Z) :=
  match dirty_slot_record self.(reader_size) (reader_layout self) cursor with
  | Err _ => rret (DirtyIdle, cursor)
  | Ok slot =>
      found <-r dirty_attempt slot (read_dirty slot) ;;
      match found with
      | None => rret (DirtyIdle, cursor)
      | Some (position, directory_index, book_revision) =>
          rret match position ?= cursor with
               | Eq => (DirtyDelivered directory_index book_revision, wrapping_add_u64 cursor 1)
               | Gt => (DirtyRescan, wrapping_add_u64 position 1)
               | Lt => (DirtyIdle, cursor)
               end
      end
  end.

Fixpoint dirty_head_loop (head : Z) (indices : list nat) : rprog Z :=
  match indices with
  | [] => rret head
  | index :: rest =>
      match dirty_slot_record self.(reader_size) (reader_layout self) (Z.of_nat index) with
      | Err _ => dirty_head_loop head rest
      | Ok slot =>
          found <-r dirty_attempt slot (load64 slot DIRTY_POSITION) ;;
          dirty_head_loop
            match found with
            | Some position => Z.max head (wrapping_add_u64 position 1)
            | None => head
            end rest
      end
  end.
Definition dirty_head : rprog Z :=
  dirty_head_loop 0 (seq 0 (Z.to_nat (reader_layout self).(dirty_capacity))).
Definition dirty_cursor : rprog Z := dirty_head.

(** The acquire load of the generation, 0 without a header record. *)
Definition publication_generation : rprog Z :=
  match header_record self.(reader_size) with
  | Ok header => acquire header HDR_PUBLICATION_GENERATION
  | Err _ => rret 0
  end.
End reader.
