(* ===== verification/ShmReaderProps.v ===== *)
(** * Readers of a segment: lemmas

    What the copies of a reader evaluate to, which publication an accepted copy is, and
    that no assertion of a read fails. *)

From S2P Require Import Prelude OrdMap Numeric Identity Descriptor Continuity Observation Book ShmCodec ShmCell ShmLayout ShmWriter ShmWriterProps ShmRun ShmInv ShmReader.

(** ** Copies of a record stay inside it *)

Section copies.
Context (base size : Z).
Abbreviation r := {| rec_base := base; rec_size := size |}.
Abbreviation inside := (fun x => base + 8 <= x < base + size).

Definition word_in (width offset : Z) : bool := word_fits width size offset && (8 <=? offset).

Lemma safe_word width offset : 0 < width -> word_in width offset = true ->
  safe inside (load_word r width offset).
Proof.
  intros Hw H. apply safe_load. unfold word_in in H. apply andb_true_iff in H as [H H8].
  exists (base + offset). split; [by apply ptr_at|]. unfold word_fits in H. bool_facts. lia.
Qed.

Lemma safe_text WORDS offset : 0 <= WORDS -> offset mod 8 = 0 -> 8 <= offset ->
  offset + WORDS * 8 <= size -> safe inside (read_text_words WORDS r offset).
Proof.
  intros HW Hm H8 Hs. apply safe_pmap. intros k Hk. apply elem_of_seq in Hk.
  apply safe_word; [lia|]. unfold word_in, word_fits.
  rewrite Z.mod_add, Hm by lia. apply andb_true_iff. split; [|apply Z.leb_le; lia].
  apply andb_true_iff. split; [apply andb_true_iff; split; [done|]|]; apply Z.leb_le; lia.
Qed.
End copies.

Lemma safe_weaken {A} (P Q : Z -> Prop) (c : pcopy A) : (forall x, P x -> Q x) -> safe P c -> safe Q c.
Proof. intros H. induction c as [o|l k IH]; simpl; [done|]. intros [Hl Hk]. split; auto. Qed.

Lemma safe_decimal base offset (P : Z -> Prop) :
  (forall x, base + offset <= x < base + offset + DECIMAL_CELL_BYTES -> P x) ->
  safe P (read_decimal {| rec_base := base + offset; rec_size := DECIMAL_CELL_BYTES |}).
Proof.
  intros H. unfold read_decimal. repeat (apply safe_pbind; [|intros ?]); [..|apply safe_pret];
    apply safe_load; (eexists; split; [by apply ptr_at|]); apply H;
    unfold DEC_COEFFICIENT_LOW, DEC_COEFFICIENT_HIGH, DEC_SCALE, DECIMAL_CELL_BYTES,
      REGION_ALIGNMENT; lia.
Qed.

Lemma safe_sub {B} P base size offset size' (f : CellRecord -> pcopy B) :
  word_fits 8 (size - size' + 8) offset = true -> size' <= size ->
  safe P (f {| rec_base := base + offset; rec_size := size' |}) ->
  safe P (pbind (sub_record {| rec_base := base; rec_size := size |} offset size') f).
Proof. intros H Hs Hf. unfold sub_record. by rewrite (sub_at _ _ _ _ H Hs). Qed.

Lemma level_offset_fits k size : level_offset k + LEVEL_CELL_BYTES <= size ->
  word_fits 8 (size - LEVEL_CELL_BYTES + 8) (level_offset k) = true /\ LEVEL_CELL_BYTES <= size /\
  256 <= level_offset k.
Proof.
  unfold level_offset, SLOT_PREFIX_BYTES, LEVEL_CELL_BYTES. intros Hs. split_and!; [|lia..].
  unfold word_fits. replace (256 + Z.of_nat k * 64) with ((32 + Z.of_nat k * 8) * 8) by lia.
  rewrite Z.mod_mul by lia. apply andb_true_iff.
  split; [apply andb_true_iff; split; [done|]|]; apply Z.leb_le; lia.
Qed.

Lemma safe_level base size k : level_offset k + LEVEL_CELL_BYTES <= size ->
  safe (fun x => base + 8 <= x < base + size) (read_level {| rec_base := base; rec_size := size |} k).
Proof.
  intros Hs. unfold read_level. fold (level_offset k).
  destruct (level_offset_fits k size Hs) as (Hf & Hsz & H0). apply safe_sub; [done|done|].
  apply safe_sub; [done|done|]. apply safe_sub; [done|done|].
  unfold LEVEL_CELL_BYTES in *. apply safe_pbind.
  { apply safe_load. eexists. split; [by apply ptr_at|]. unfold LVL_SIDE. lia. }
  intros side. apply safe_pbind; [apply safe_decimal; unfold LVL_PRICE, DECIMAL_CELL_BYTES; lia|].
  intros price. apply safe_pbind; [apply safe_decimal; unfold LVL_QUANTITY, DECIMAL_CELL_BYTES; lia|].
  intros q. apply safe_pret.
Qed.

Lemma word_in_grows width size size' offset : size <= size' -> word_in size width offset = true ->
  word_in size' width offset = true.
Proof.
  unfold word_in. intros Hs [Hf H8]%andb_true_iff. rewrite (word_fits_grows width size size') by done.
  done.
Qed.

Lemma safe_prefix_word base size width offset : 0 < width -> SLOT_PREFIX_BYTES <= size ->
  word_in SLOT_PREFIX_BYTES width offset = true ->
  safe (fun x => base + 8 <= x < base + size)
    (load_word {| rec_base := base; rec_size := size |} width offset).
Proof. intros Hw Hs H. apply safe_word; [done|]. by apply (word_in_grows width SLOT_PREFIX_BYTES). Qed.

Ltac safe_words :=
  repeat (apply safe_pbind; [by apply safe_prefix_word|intros ?]);
  apply safe_pret.

Lemma safe_read_words base size capacity : 0 <= capacity ->
  SLOT_PREFIX_BYTES + capacity * LEVEL_CELL_BYTES <= size ->
  safe (fun x => base + 8 <= x < base + size)
    (read_words {| rec_base := base; rec_size := size |} capacity).
Proof.
  intros Hc Hs. assert (Hp : SLOT_PREFIX_BYTES <= size) by (unfold LEVEL_CELL_BYTES in Hs; lia).
  unfold read_words. apply safe_pbind.
  { apply safe_text; try done. unfold SLOT_FAMILY_WORDS, NATIVE_FAMILY_WORDS, SLOT_PREFIX_BYTES in *. lia. }
  intros family. apply safe_pbind; [by apply safe_prefix_word|].
  intros count. apply safe_pbind.
  { apply safe_pmap. intros k Hk. apply elem_of_seq in Hk. apply safe_level.
    unfold level_offset, LEVEL_CELL_BYTES in *. lia. }
  intros levels. safe_words.
Qed.

Lemma safe_read_cursor base size : SLOT_PREFIX_BYTES <= size ->
  safe (fun x => base + 8 <= x < base + size)
    (read_cursor_words {| rec_base := base; rec_size := size |}).
Proof. intros Hs. unfold read_cursor_words. safe_words. Qed.

Lemma safe_event_decimal base offset : word_fits 8 (EVENT_SLOT_BYTES - DECIMAL_CELL_BYTES + 8) offset = true ->
  8 <= offset ->
  safe (fun x => base + 8 <= x < base + EVENT_SLOT_BYTES)
    (pbind (sub_record {| rec_base := base; rec_size := EVENT_SLOT_BYTES |} offset DECIMAL_CELL_BYTES)
       read_decimal).
Proof.
  intros Hf H8. apply safe_sub; [done|done|]. apply safe_decimal. unfold word_fits in Hf. bool_facts.
  unfold EVENT_SLOT_BYTES, DECIMAL_CELL_BYTES in *. lia.
Qed.

Lemma safe_read_event base :
  safe (fun x => base + 8 <= x < base + EVENT_SLOT_BYTES)
    (read_event_words {| rec_base := base; rec_size := EVENT_SLOT_BYTES |}).
Proof.
  unfold read_event_words.
  do 12 (apply safe_pbind; [by apply safe_word|intros ?]).
  apply safe_pbind; [|intros ?; apply safe_pret].
  destruct (_ =? DELIVERY_LEVEL_MUTATION); [|destruct (_ =? DELIVERY_MARKET_RESOLVED); [|apply safe_pret]].
  - do 4 (apply safe_pbind; [by apply safe_word|intros ?]).
    apply safe_pbind; [by apply safe_text|intros ?].
    do 3 (apply safe_pbind; [by apply safe_event_decimal|intros ?]). apply safe_pret.
  - do 5 (apply safe_pbind; [by apply safe_word|intros ?]).
    do 3 (apply safe_pbind; [by apply safe_text|intros ?]). apply safe_pret.
Qed.

Lemma safe_read_event_cursor base :
  safe (fun x => base + 8 <= x < base + EVENT_SLOT_BYTES)
    (epoch <-c load64 {| rec_base := base; rec_size := EVENT_SLOT_BYTES |} EVT_CURSOR_EPOCH ;;
     position <-c load64 {| rec_base := base; rec_size := EVENT_SLOT_BYTES |} EVT_CURSOR_POSITION ;;
     pret {| cursor_epoch := epoch; cursor_position := position |}).
Proof. do 2 (apply safe_pbind; [by apply safe_word|intros ?]). apply safe_pret. Qed.

Lemma safe_read_dirty base :
  safe (fun x => base + 8 <= x < base + DIRTY_SLOT_BYTES)
    (read_dirty {| rec_base := base; rec_size := DIRTY_SLOT_BYTES |}).
Proof. unfold read_dirty. do 3 (apply safe_pbind; [by apply safe_word|intros ?]). apply safe_pret. Qed.

(** ** What the copies evaluate to *)

Section evaluation.
Context (f : Z -> Z).

Definition text_at (base offset WORDS : Z) : list Z :=
  map (fun word => f (base + (offset + Z.of_nat word * 8))) (seq 0 (Z.to_nat WORDS)).
Definition decimal_at (base offset : Z) : DecimalWords :=
  {| dec_low := f (base + (offset + DEC_COEFFICIENT_LOW));
     dec_high := f (base + (offset + DEC_COEFFICIENT_HIGH));
     dec_scale := f (base + (offset + DEC_SCALE)) |}.
Definition level_at_slot (base : Z) (position : nat) : LevelWords :=
  {| level_side := f (base + (level_offset position + LVL_SIDE));
     level_price := decimal_at base (level_offset position + LVL_PRICE);
     level_quantity := decimal_at base (level_offset position + LVL_QUANTITY) |}.

Lemma eval_word base size width offset : word_fits width size offset = true ->
  eval_copy f (load_word {| rec_base := base; rec_size := size |} width offset)
  = Some (f (base + offset)).
Proof. intros H. by apply eval_load, ptr_at. Qed.
Lemma eval_word64 base size offset : word_fits 8 size offset = true ->
  eval_copy f (load64 {| rec_base := base; rec_size := size |} offset) = Some (f (base + offset)).
Proof. apply eval_word. Qed.
Lemma eval_word32 base size offset : word_fits 4 size offset = true ->
  eval_copy f (load32 {| rec_base := base; rec_size := size |} offset) = Some (f (base + offset)).
Proof. apply eval_word. Qed.

Lemma eval_text base size WORDS offset : 0 <= WORDS -> offset mod 8 = 0 -> 0 <= offset ->
  offset + WORDS * 8 <= size ->
  eval_copy f (read_text_words WORDS {| rec_base := base; rec_size := size |} offset)
  = Some (text_at base offset WORDS).
Proof.
  intros HW Hm H0 Hs. apply eval_pmap. apply Forall2_fmap_r, Forall_Forall2_diag, Forall_forall.
  intros k Hk. apply elem_of_seq in Hk. apply eval_word64. unfold word_fits.
  rewrite Z.mod_add, Hm by lia. apply andb_true_iff.
  split; [apply andb_true_iff; split; [done|]|]; apply Z.leb_le; lia.
Qed.

Lemma eval_decimal base offset :
  eval_copy f (read_decimal {| rec_base := base + offset; rec_size := DECIMAL_CELL_BYTES |})
  = Some (decimal_at base offset).
Proof.
  unfold read_decimal, decimal_at.
  rewrite eval_pbind, eval_word64 by done. cbn [mbind option_bind].
  rewrite eval_pbind, eval_word64 by done. cbn [mbind option_bind].
  rewrite eval_pbind, eval_word32 by done. cbn. by rewrite !Z.add_assoc.
Qed.

Lemma eval_sub {B} base size offset size' (k : CellRecord -> pcopy B) :
  word_fits 8 (size - size' + 8) offset = true -> size' <= size ->
  eval_copy f (pbind (sub_record {| rec_base := base; rec_size := size |} offset size') k)
  = eval_copy f (k {| rec_base := base + offset; rec_size := size' |}).
Proof. intros H Hs. unfold sub_record. by rewrite (sub_at _ _ _ _ H Hs). Qed.

Lemma eval_level base size k : level_offset k + LEVEL_CELL_BYTES <= size ->
  eval_copy f (read_level {| rec_base := base; rec_size := size |} k) = Some (level_at_slot base k).
Proof.
  intros Hs. unfold read_level. fold (level_offset k).
  destruct (level_offset_fits k size Hs) as (Hf & Hsz & H0).
  rewrite eval_sub by done. rewrite eval_sub by done. rewrite eval_sub by done.
  rewrite eval_pbind, eval_word32 by done. cbn [mbind option_bind].
  rewrite eval_pbind, eval_decimal. cbn [mbind option_bind].
  rewrite eval_pbind, eval_decimal. cbn. unfold level_at_slot, decimal_at. by rewrite !Z.add_assoc.
Qed.

Definition slot_words_at (base : Z) (capacity : Z) : SlotWords :=
  {| sw_book_revision := f (base + SLOT_BOOK_REVISION); sw_commit_time := f (base + SLOT_COMMIT_TIME);
     sw_arrival_time := f (base + SLOT_ARRIVAL_TIME);
     sw_continuity_epoch := f (base + SLOT_CONTINUITY_EPOCH);
     sw_continuity_position := f (base + SLOT_CONTINUITY_POSITION);
     sw_sync_divergences := f (base + SLOT_SYNC_DIVERGENCES);
     sw_authority_state := f (base + SLOT_AUTHORITY_STATE);
     sw_authority_reason := f (base + SLOT_AUTHORITY_REASON);
     sw_continuity_kind := f (base + SLOT_CONTINUITY_KIND);
     sw_continuity_reason := f (base + SLOT_CONTINUITY_REASON);
     sw_provenance_present := f (base + SLOT_PROVENANCE_PRESENT);
     sw_origin := f (base + SLOT_ORIGIN); sw_derivation := f (base + SLOT_DERIVATION);
     sw_representation := f (base + SLOT_REPRESENTATION);
     sw_family_length := f (base + SLOT_FAMILY_LEN);
     sw_family_words := text_at base SLOT_FAMILY_WORDS NATIVE_FAMILY_WORDS;
     sw_directory_index := f (base + SLOT_DIRECTORY_INDEX);
     sw_level_count := f (base + SLOT_LEVEL_COUNT);
     sw_levels := map (level_at_slot base)
       (seq 0 (Z.to_nat (Z.min (f (base + SLOT_LEVEL_COUNT)) capacity))) |}.

Lemma eval_prefix base size width offset : SLOT_PREFIX_BYTES <= size ->
  word_fits width SLOT_PREFIX_BYTES offset = true ->
  eval_copy f (load_word {| rec_base := base; rec_size := size |} width offset)
  = Some (f (base + offset)).
Proof. intros Hs H. apply eval_word. by apply (word_fits_grows width SLOT_PREFIX_BYTES). Qed.

Lemma eval_read_words base size capacity : 0 <= capacity ->
  SLOT_PREFIX_BYTES + capacity * LEVEL_CELL_BYTES <= size ->
  eval_copy f (read_words {| rec_base := base; rec_size := size |} capacity)
  = Some (slot_words_at base capacity).
Proof.
  intros Hc Hs. assert (Hp : SLOT_PREFIX_BYTES <= size) by (unfold LEVEL_CELL_BYTES in Hs; lia).
  unfold read_words, load64, load32. rewrite eval_pbind, eval_text by
    (done || unfold SLOT_FAMILY_WORDS, NATIVE_FAMILY_WORDS, SLOT_PREFIX_BYTES in *; lia).
  cbn [mbind option_bind]. rewrite eval_pbind, eval_prefix by done. cbn [mbind option_bind].
  rewrite eval_pbind. erewrite eval_pmap; [cbn [mbind option_bind]|].
  - do 16 (rewrite eval_pbind, eval_prefix by done; cbn [mbind option_bind]). reflexivity.
  - apply Forall2_fmap_r, Forall_Forall2_diag, Forall_forall. intros k Hk. apply elem_of_seq in Hk.
    apply eval_level. unfold level_offset, LEVEL_CELL_BYTES in *. lia.
Qed.

Definition cursor_words_at (base : Z) : CursorWords :=
  {| cw_book_revision := f (base + SLOT_BOOK_REVISION);
     cw_continuity_epoch := f (base + SLOT_CONTINUITY_EPOCH);
     cw_continuity_position := f (base + SLOT_CONTINUITY_POSITION);
     cw_continuity_kind := f (base + SLOT_CONTINUITY_KIND);
     cw_continuity_reason := f (base + SLOT_CONTINUITY_REASON);
     cw_directory_index := f (base + SLOT_DIRECTORY_INDEX) |}.

Lemma eval_read_cursor base size : SLOT_PREFIX_BYTES <= size ->
  eval_copy f (read_cursor_words {| rec_base := base; rec_size := size |})
  = Some (cursor_words_at base).
Proof.
  intros Hp. unfold read_cursor_words, load64, load32.
  do 6 (rewrite eval_pbind, eval_prefix by done; cbn [mbind option_bind]). reflexivity.
Qed.

Definition shared_at (base : Z) : SharedEventWords :=
  {| ew_cursor_epoch := f (base + EVT_CURSOR_EPOCH); ew_cursor_position := f (base + EVT_CURSOR_POSITION);
     ew_book_revision := f (base + EVT_BOOK_REVISION); ew_commit_time := f (base + EVT_COMMIT_TIME);
     ew_arrival_time := f (base + EVT_ARRIVAL_TIME);
     ew_daemon_generation := f (base + EVT_DAEMON_GENERATION);
     ew_subscription_generation := f (base + EVT_SUBSCRIPTION_GENERATION);
     ew_origin := f (base + EVT_ORIGIN); ew_derivation := f (base + EVT_DERIVATION);
     ew_representation := f (base + EVT_REPRESENTATION);
     ew_directory_index := f (base + EVT_DIRECTORY_INDEX) |}.
Definition mutation_at (base : Z) : MutationWords :=
  {| mw_side := f (base + EVT_SIDE); mw_old_present := f (base + EVT_OLD_PRESENT);
     mw_new_present := f (base + EVT_NEW_PRESENT); mw_family_length := f (base + EVT_FAMILY_LEN);
     mw_family_words := text_at base EVT_FAMILY_WORDS NATIVE_FAMILY_WORDS;
     mw_price := decimal_at base EVT_PRICE; mw_old_quantity := decimal_at base EVT_OLD_QUANTITY;
     mw_new_quantity := decimal_at base EVT_NEW_QUANTITY |}.
Definition resolution_at (base : Z) : ResolutionWords :=
  {| rw_winning_index := f (base + EVT_RES_WINNING_INDEX);
     rw_delivery_path := f (base + EVT_RES_DELIVERY_PATH);
     rw_outcome_length := f (base + EVT_RES_OUTCOME_LEN); rw_type_length := f (base + EVT_RES_TYPE_LEN);
     rw_date_length := f (base + EVT_RES_DATE_LEN);
     rw_outcome_words := text_at base EVT_RES_OUTCOME RES_OUTCOME_WORDS;
     rw_type_words := text_at base EVT_RES_TYPE RES_TYPE_WORDS;
     rw_date_words := text_at base EVT_RES_DATE RES_DATE_WORDS |}.
Definition event_at_slot (base : Z) : EventWords :=
  {| shared := shared_at base;
     body := if f (base + EVT_DELIVERY_KIND) =? DELIVERY_LEVEL_MUTATION
             then BodyMutation (mutation_at base)
             else if f (base + EVT_DELIVERY_KIND) =? DELIVERY_MARKET_RESOLVED
             then BodyResolution (resolution_at base) else BodyUnknown |}.

Lemma eval_event_decimal base offset :
  word_fits 8 (EVENT_SLOT_BYTES - DECIMAL_CELL_BYTES + 8) offset = true ->
  eval_copy f (pbind (sub_record {| rec_base := base; rec_size := EVENT_SLOT_BYTES |} offset
    DECIMAL_CELL_BYTES) read_decimal) = Some (decimal_at base offset).
Proof. intros H. rewrite eval_sub by done. apply eval_decimal. Qed.

Lemma eval_read_event base :
  eval_copy f (read_event_words {| rec_base := base; rec_size := EVENT_SLOT_BYTES |})
  = Some (event_at_slot base).
Proof.
  unfold read_event_words, event_at_slot, load64, load32.
  do 12 (rewrite eval_pbind, eval_word by done; cbn [mbind option_bind]). rewrite eval_pbind.
  destruct (_ =? DELIVERY_LEVEL_MUTATION); [|destruct (_ =? DELIVERY_MARKET_RESOLVED); [|done]].
  - do 4 (rewrite eval_pbind, eval_word by done; cbn [mbind option_bind]).
    rewrite eval_pbind, eval_text by done. cbn [mbind option_bind].
    do 3 (rewrite eval_pbind, eval_event_decimal by done; cbn [mbind option_bind]). reflexivity.
  - do 5 (rewrite eval_pbind, eval_word by done; cbn [mbind option_bind]).
    do 3 (rewrite eval_pbind, eval_text by done; cbn [mbind option_bind]). reflexivity.
Qed.

Lemma eval_read_event_cursor base :
  eval_copy f (epoch <-c load64 {| rec_base := base; rec_size := EVENT_SLOT_BYTES |} EVT_CURSOR_EPOCH ;;
     position <-c load64 {| rec_base := base; rec_size := EVENT_SLOT_BYTES |} EVT_CURSOR_POSITION ;;
     pret {| cursor_epoch := epoch; cursor_position := position |})
  = Some {| cursor_epoch := f (base + EVT_CURSOR_EPOCH); cursor_position := f (base + EVT_CURSOR_POSITION) |}.
Proof. unfold load64. do 2 (rewrite eval_pbind, eval_word by done; cbn [mbind option_bind]). reflexivity. Qed.

Lemma eval_read_dirty base :
  eval_copy f (read_dirty {| rec_base := base; rec_size := DIRTY_SLOT_BYTES |})
  = Some (f (base + DIRTY_POSITION), f (base + DIRTY_DIRECTORY_INDEX), f (base + DIRTY_BOOK_REVISION)).
Proof.
  unfold read_dirty, load64, load32.
  do 3 (rewrite eval_pbind, eval_word by done; cbn [mbind option_bind]). reflexivity.
Qed.
End evaluation.

(** ** The words a publication left are the words read *)

Lemma overlay_app u v f x : overlay (u ++ v) f x = overlay v (overlay u f) x.
Proof. unfold overlay. by rewrite fold_left_app. Qed.

Lemma overlay_shift b ws f o : overlay (shift b ws) f (b + o) = overlay ws (fun y => f (b + y)) o.
Proof.
  revert f. induction ws as [|[x v] ws IH]; intros f; [done|]. simpl. rewrite IH.
  apply (overlay_ext (fun _ => True)); [|done]. intros y _.
  destruct (Z.eqb_spec x y), (Z.eqb_spec (b + x) (b + y)); done || lia.
Qed.

Lemma overlay_off P ws f x : Forall (fun e => P e.1) ws -> ~ P x -> overlay ws f x = f x.
Proof.
  intros H Hx. apply overlay_elsewhere. eapply Forall_impl; [exact H|]. intros e He <-. done.
Qed.

Section levels.

Definition level_rel (level : LevelWords) : list (Z * Z) :=
  (LVL_SIDE, level.(level_side)) :: decimal_cells_of LVL_PRICE level.(level_price)
  ++ decimal_cells_of LVL_QUANTITY level.(level_quantity).

Lemma level_words_rel k level : level_words_at k level = shift (level_offset k) (level_rel level).
Proof. unfold level_words_at, level_rel, decimal_cells_of, shift. cbn. by rewrite !Z.add_assoc. Qed.

Lemma level_words_bounds k level :
  Forall (fun e => level_offset k <= e.1 < level_offset k + LEVEL_CELL_BYTES) (level_words_at k level).
Proof.
  unfold level_words_at, decimal_cells_of. repeat apply Forall_cons_2; try apply Forall_nil_2; simpl;
    unfold LEVEL_CELL_BYTES, LVL_SIDE, LVL_PRICE, LVL_QUANTITY, DEC_COEFFICIENT_LOW,
      DEC_COEFFICIENT_HIGH, DEC_SCALE; lia.
Qed.

Lemma levels_from_bounds n levels :
  Forall (fun e => level_offset n <= e.1) (mjoin (imap (fun j => level_words_at (n + j)) levels)).
Proof.
  revert n. induction levels as [|l levels IH]; intros n; [constructor|].
  rewrite imap_cons. cbn [mjoin list_join]. apply Forall_app. split.
  - rewrite Nat.add_0_r. eapply Forall_impl; [apply level_words_bounds|]. simpl. lia.
  - erewrite imap_ext; [eapply Forall_impl; [apply (IH (S n))|]|].
    + simpl. unfold level_offset, LEVEL_CELL_BYTES. lia.
    + intros j x _. simpl. f_equal. lia.
Qed.

Lemma levels_from n levels k level f o : levels !! k = Some level -> 0 <= o < LEVEL_CELL_BYTES ->
  (forall g g', overlay (level_rel level) g o = overlay (level_rel level) g' o) ->
  forall g, overlay (mjoin (imap (fun j => level_words_at (n + j)) levels)) f (level_offset (n + k) + o)
  = overlay (level_rel level) g o.
Proof.
  intros Hk Ho Hcell g. revert n k f Hk. induction levels as [|l levels IH]; intros n k f Hk; [done|].
  rewrite imap_cons. cbn [mjoin list_join]. rewrite overlay_app.
  assert (E : imap ((fun j => level_words_at (n + j)) ∘ S) levels
    = imap (fun j => level_words_at (S n + j)) levels)
    by (apply imap_ext; intros j x _; simpl; f_equal; lia).
  rewrite E. destruct k as [|k].
  - injection Hk as ->. rewrite !Nat.add_0_r. rewrite (overlay_off (fun x => level_offset (S n) <= x)).
    + rewrite level_words_rel, overlay_shift. apply Hcell.
    + apply (levels_from_bounds (S n)).
    + unfold level_offset, LEVEL_CELL_BYTES in *. lia.
  - rewrite (Nat.add_succ_r n k). by apply (IH (S n)).
Qed.
End levels.

Definition staged_words (index : Z) (staged : StagedState) (commit_time arrival_time : Z) : SlotWords :=
  {| sw_book_revision := staged.(st_book_revision); sw_commit_time := commit_time;
     sw_arrival_time := arrival_time; sw_continuity_epoch := staged.(st_continuity_epoch);
     sw_continuity_position := staged.(st_continuity_position);
     sw_sync_divergences := staged.(st_sync_divergences);
     sw_authority_state := staged.(st_authority_state);
     sw_authority_reason := staged.(st_authority_reason);
     sw_continuity_kind := staged.(st_continuity_kind);
     sw_continuity_reason := staged.(st_continuity_reason);
     sw_provenance_present := staged.(st_provenance_present); sw_origin := staged.(st_origin);
     sw_derivation := staged.(st_derivation); sw_representation := staged.(st_representation);
     sw_family_length := staged.(st_family_length); sw_family_words := staged.(st_family_words);
     sw_directory_index := index; sw_level_count := len staged.(st_levels);
     sw_levels := staged.(st_levels) |}.

Section state_values.
Context (f : Z -> Z) (base index capacity : Z) (staged : StagedState) (commit_time arrival_time : Z).
Hypotheses (Hfit : staged_fits capacity staged) (Hcap : capacity <= MAX_LEVEL_CAPACITY)
  (Hindex : f (base + SLOT_DIRECTORY_INDEX) = index).
Let F := overlay (shift base (state_words staged commit_time arrival_time)) f.

Lemma prefix_value o : o < SLOT_PREFIX_BYTES -> o <> SLOT_LEVEL_COUNT ->
  F (base + o) = overlay (state_head staged commit_time arrival_time) (fun y => f (base + y)) o.
Proof.
  intros Ho Hne. unfold F. rewrite overlay_shift. unfold state_words. rewrite !overlay_app.
  cbn [overlay fold_left]. rewrite (proj2 (Z.eqb_neq _ _)) by (unfold SLOT_LEVEL_COUNT in *; lia).
  apply (overlay_off (fun x => level_offset 0 <= x)); [exact (levels_from_bounds 0 _)|].
  unfold level_offset. unfold SLOT_PREFIX_BYTES in *. lia.
Qed.

Lemma count_value : F (base + SLOT_LEVEL_COUNT) = len staged.(st_levels).
Proof.
  unfold F. rewrite overlay_shift. unfold state_words. rewrite !overlay_app.
  cbn [overlay fold_left]. rewrite Z.eqb_refl. unfold as_u32. apply Z.mod_small.
  destruct Hfit as [_ ?]. pose proof (len_nonneg staged.(st_levels)). unfold MAX_LEVEL_CAPACITY in *. lia.
Qed.

Lemma level_value k level o : staged.(st_levels) !! k = Some level -> 0 <= o < LEVEL_CELL_BYTES ->
  (forall g g', overlay (level_rel level) g o = overlay (level_rel level) g' o) ->
  F (base + (level_offset k + o)) = overlay (level_rel level) (fun _ => 0) o.
Proof.
  intros Hk Ho Hcell. unfold F. rewrite overlay_shift. unfold state_words. rewrite !overlay_app.
  cbn [overlay fold_left]. rewrite (proj2 (Z.eqb_neq SLOT_LEVEL_COUNT _)) by
    (unfold SLOT_LEVEL_COUNT, level_offset, SLOT_PREFIX_BYTES, LEVEL_CELL_BYTES in *; lia).
  exact (levels_from 0 _ k level _ o Hk Ho Hcell (fun _ => 0)).
Qed.

Lemma level_at_value k level : staged.(st_levels) !! k = Some level -> level_at_slot F base k = level.
Proof.
  intros Hk. unfold level_at_slot, decimal_at.
  assert (Hsum : forall a b, level_offset k + a + b = level_offset k + (a + b)) by (intros; lia).
  rewrite !Hsum. rewrite !(level_value k level) by (done || (unfold LEVEL_CELL_BYTES, LVL_SIDE, LVL_PRICE, LVL_QUANTITY, DEC_COEFFICIENT_LOW, DEC_COEFFICIENT_HIGH, DEC_SCALE; lia)).
  by destruct level as [? [? ? ?] [? ? ?]].
Qed.

Lemma staged_words_read : slot_words_at F base capacity = staged_words index staged commit_time arrival_time.
Proof.
  unfold slot_words_at. rewrite count_value.
  assert (Hlv : map (level_at_slot F base) (seq 0 (Z.to_nat (Z.min (len (st_levels staged)) capacity)))
    = st_levels staged).
  { destruct Hfit as [_ Hl]. rewrite Z.min_l by done. unfold len. rewrite Nat2Z.id.
    apply list_eq. intros k. rewrite list_lookup_fmap.
    destruct (decide (k < length (st_levels staged))%nat) as [Hk|Hk].
    - rewrite lookup_seq_lt by done. destruct (lookup_lt_is_Some_2 _ _ Hk) as [lv Elv].
      rewrite Elv. simpl. f_equal. by apply level_at_value.
    - rewrite lookup_seq_ge by lia. by rewrite lookup_ge_None_2 by lia. }
  rewrite Hlv. unfold text_at, staged_words. cbn [seq map Z.to_nat NATIVE_FAMILY_WORDS Pos.to_nat].
  change (Z.to_nat NATIVE_FAMILY_WORDS) with 8%nat. cbn [seq map].
  rewrite !prefix_value by (done || (unfold SLOT_FAMILY_WORDS, SLOT_PREFIX_BYTES, SLOT_LEVEL_COUNT; lia)).
  destruct Hfit as [Hf _]. destruct (st_family_words staged) as
    [|w0 [|w1 [|w2 [|w3 [|w4 [|w5 [|w6 [|w7 [|? ?]]]]]]]]] eqn:Ew; try done.
  unfold state_head. rewrite Ew. cbn. by rewrite Hindex.
Qed.
End state_values.

Lemma staged_cursor_read f base index capacity staged commit_time arrival_time :
  staged_fits capacity staged -> capacity <= MAX_LEVEL_CAPACITY ->
  f (base + SLOT_DIRECTORY_INDEX) = index ->
  cursor_words_at (overlay (shift base (state_words staged commit_time arrival_time)) f) base
  = {| cw_book_revision := staged.(st_book_revision);
       cw_continuity_epoch := staged.(st_continuity_epoch);
       cw_continuity_position := staged.(st_continuity_position);
       cw_continuity_kind := staged.(st_continuity_kind);
       cw_continuity_reason := staged.(st_continuity_reason); cw_directory_index := index |}.
Proof.
  intros Hfit Hcap Hi.
  unfold cursor_words_at.
  rewrite !(prefix_value f base) by (done || (unfold SLOT_PREFIX_BYTES, SLOT_LEVEL_COUNT, SLOT_BOOK_REVISION, SLOT_CONTINUITY_EPOCH,
    SLOT_CONTINUITY_POSITION, SLOT_CONTINUITY_KIND, SLOT_CONTINUITY_REASON, SLOT_DIRECTORY_INDEX; lia)).
  destruct Hfit as [Hf _]. destruct (st_family_words staged) as
    [|w0 [|w1 [|w2 [|w3 [|w4 [|w5 [|w6 [|w7 [|? ?]]]]]]]]] eqn:Ew; try done.
  unfold state_head. rewrite Ew. cbn. by rewrite Hi.
Qed.

Definition mutation_event_words (index : Z) (cursor : MutationCursor) (revision : Z)
    (staged : StagedMutation) (commit_time arrival_time : Z) : EventWords :=
  {| shared :=
       {| ew_cursor_epoch := cursor.(cursor_epoch); ew_cursor_position := cursor.(cursor_position);
          ew_book_revision := revision; ew_commit_time := commit_time;
          ew_arrival_time := arrival_time; ew_daemon_generation := staged.(sm_daemon_generation);
          ew_subscription_generation := staged.(sm_subscription_generation);
          ew_origin := staged.(sm_origin); ew_derivation := staged.(sm_derivation);
          ew_representation := staged.(sm_representation); ew_directory_index := index |};
     body := BodyMutation
       {| mw_side := staged.(sm_side); mw_old_present := staged.(sm_old_present);
          mw_new_present := staged.(sm_new_present); mw_family_length := staged.(sm_family_length);
          mw_family_words := staged.(sm_family_words); mw_price := staged.(sm_price);
          mw_old_quantity := staged.(sm_old_quantity); mw_new_quantity := staged.(sm_new_quantity) |} |}.

Lemma mutation_read f base index cursor revision staged commit_time arrival_time :
  length staged.(sm_family_words) = 8%nat ->
  event_at_slot (overlay (shift base
    (mutation_words index cursor revision staged commit_time arrival_time)) f) base
  = mutation_event_words index cursor revision staged commit_time arrival_time.
Proof.
  intros Hf. unfold event_at_slot, shared_at, mutation_at, decimal_at, text_at.
  rewrite !overlay_shift. change (Z.to_nat NATIVE_FAMILY_WORDS) with 8%nat. cbn [seq map].
  rewrite !overlay_shift.
  destruct (sm_family_words staged) as
    [|w0 [|w1 [|w2 [|w3 [|w4 [|w5 [|w6 [|w7 [|? ?]]]]]]]]] eqn:Ew; try done.
  unfold mutation_words, mutation_event_words. rewrite Ew.
  destruct (sm_price staged) eqn:Ep, (sm_old_quantity staged) eqn:Eo, (sm_new_quantity staged) eqn:En.
  reflexivity.
Qed.

Definition resolution_event_words (index : Z) (cursor : MutationCursor) (revision : Z)
    (staged : StagedResolution) (commit_time arrival_time : Z) : EventWords :=
  {| shared :=
       {| ew_cursor_epoch := cursor.(cursor_epoch); ew_cursor_position := cursor.(cursor_position);
          ew_book_revision := revision; ew_commit_time := commit_time;
          ew_arrival_time := arrival_time; ew_daemon_generation := staged.(sr_daemon_generation);
          ew_subscription_generation := staged.(sr_subscription_generation);
          ew_origin := staged.(sr_origin); ew_derivation := staged.(sr_derivation);
          ew_representation := staged.(sr_representation); ew_directory_index := index |};
     body := BodyResolution
       {| rw_winning_index := staged.(sr_winning_index); rw_delivery_path := staged.(sr_delivery_path);
          rw_outcome_length := staged.(sr_outcome_length); rw_type_length := staged.(sr_type_length);
          rw_date_length := staged.(sr_date_length); rw_outcome_words := staged.(sr_outcome_words);
          rw_type_words := staged.(sr_type_words); rw_date_words := staged.(sr_date_words) |} |}.

Lemma resolution_read f base index cursor revision staged commit_time arrival_time :
  length staged.(sr_outcome_words) = 8%nat -> length staged.(sr_type_words) = 4%nat ->
  length staged.(sr_date_words) = 4%nat ->
  event_at_slot (overlay (shift base
    (resolution_words index cursor revision staged commit_time arrival_time)) f) base
  = resolution_event_words index cursor revision staged commit_time arrival_time.
Proof.
  intros Ho Ht Hd. unfold event_at_slot, shared_at, resolution_at, text_at.
  rewrite !overlay_shift. change (Z.to_nat RES_OUTCOME_WORDS) with 8%nat.
  change (Z.to_nat RES_TYPE_WORDS) with 4%nat. change (Z.to_nat RES_DATE_WORDS) with 4%nat.
  cbn [seq map]. rewrite !overlay_shift.
  destruct (sr_outcome_words staged) as
    [|o0 [|o1 [|o2 [|o3 [|o4 [|o5 [|o6 [|o7 [|? ?]]]]]]]]] eqn:Eo; try done.
  destruct (sr_type_words staged) as [|t0 [|t1 [|t2 [|t3 [|? ?]]]]] eqn:Et; try done.
  destruct (sr_date_words staged) as [|d0 [|d1 [|d2 [|d3 [|? ?]]]]] eqn:Ed; try done.
  unfold resolution_words, resolution_event_words. rewrite Eo, Et, Ed. reflexivity.
Qed.

(** ** Decoding what was staged *)

(** What the types of the source grant: texts are UTF-8, amounts are in range. *)
Definition text_storable (t : bytes) : Prop := are_bytes t = true /\ utf8_valid t = true.

Definition book_storable (book : PublishedBook) : Prop :=
  Forall level_wf book.(published_levels) /\
  match book.(published_provenance) with
  | Some p => text_storable p.(native_family) | None => True
  end /\
  match book.(published_continuity) with
  | Intact _ next => 0 <= next <= U64_MAX | Lost _ _ => True
  end.

Definition mutation_storable (m : BookMutation) : Prop :=
  mutation_wf m /\ text_storable m.(mutation_provenance).(native_family) /\
  (forall lv, m.(old) = Some lv -> level_wf lv) /\ (forall lv, m.(new) = Some lv -> level_wf lv).

Definition resolution_storable (r : MarketResolution) : Prop :=
  (forall t, text_value r.(observation).(winner) = Some t -> text_storable t) /\
  text_storable r.(observation).(native_label).(label_text) /\
  text_storable r.(resolution_date).(timestamp_lexeme).

Lemma stored_text_packed WORDS text n ws : 0 <= WORDS -> text_storable text ->
  pack_text WORDS text = Some (n, ws) -> stored_text WORDS n ws = Some text.
Proof.
  intros HW [Hb Hu] Hp. destruct (packed_text WORDS text n ws HW Hb Hp) as (-> & Hl & E).
  unfold stored_text. rewrite (proj2 (Z.ltb_ge _ _)) by lia. unfold len. rewrite Nat2Z.id.
  unfold packed_byte in E. rewrite E. by rewrite Hu.
Qed.

Lemma staged_price p : price_wf p -> price_words (staged_decimal p.(price_value)) = Some p.
Proof.
  intros Hp. unfold price_words, staged_decimal.
  destruct (decimal_words_value (price_value p) Hp) as (low & high & -> & Hlow & Hhigh & Ec). simpl.
  pose proof Hp as [[Hc Hs Hn] Hpos]. apply price_of_exact; [lia..|]. split_and!; [lia|lia|exact Hp|].
  unfold same_value. by rewrite Ec.
Qed.

Lemma staged_quantity q : quantity_wf q -> quantity_words (staged_decimal q.(quantity_value)) = Some q.
Proof.
  intros Hp. unfold quantity_words, staged_decimal.
  destruct (decimal_words_value (quantity_value q) Hp) as (low & high & -> & Hlow & Hhigh & Ec). simpl.
  pose proof Hp as [[Hc Hs Hn] Hpos]. apply quantity_of_exact; [lia..|]. split_and!; [lia|lia|exact Hp|].
  unfold same_value. by rewrite Ec.
Qed.

Lemma decode_staged_level lv : level_wf lv -> decode_level (level_words lv) = Some lv.
Proof.
  intros [Hp Hq]. unfold decode_level, level_words. cbn [level_side level_price level_quantity].
  rewrite (decode_encoded (enc := fun s => Some (side_word s)) _ _ eq_refl). cbn [mbind option_bind].
  rewrite staged_price by done. cbn [mbind option_bind]. rewrite staged_quantity by done.
  by destruct lv.
Qed.

Lemma decode_staged_origin o w v : origin_words o = (w, v) -> origin_of w v = Some o.
Proof.
  intros E. exact (decode_encoded (enc := fun o => Some (origin_words o)) (dec := fun w => origin_of w.1 w.2) o (w, v) (f_equal Some E)).
Qed.

Lemma decode_staged_publication p origin derivation n ws : text_storable p.(native_family) ->
  origin_words p.(Descriptor.origin) = (origin, derivation) ->
  pack_family p.(native_family) = Ok (n, ws) ->
  decode_publication origin derivation (representation_word p.(Descriptor.representation)) n ws
  = Some {| po_origin := p.(Descriptor.origin); po_representation := p.(Descriptor.representation);
            po_native_family := p.(native_family) |}.
Proof.
  intros Ht Ho Hf. unfold decode_publication. rewrite (decode_staged_origin _ _ _ Ho). cbn [mbind option_bind].
  rewrite (decode_encoded (enc := fun r => Some (representation_word r)) _ _ eq_refl). cbn [mbind option_bind].
  apply pack_family_Ok in Hf. by rewrite (stored_text_packed NATIVE_FAMILY_WORDS _ _ _ ltac:(done) Ht Hf).
Qed.

(** What a reader learns of a book. *)
Definition snapshot_of (book : PublishedBook) (commit_time arrival_time : Z) : BookSnapshot :=
  {| snap_market := book.(published_market); snap_revision := book.(published_revision);
     snap_authority := book.(published_authority); snap_continuity := book.(published_continuity);
     snap_sync_divergences := book.(published_sync_divergences);
     snap_commit_time := commit_time; snap_arrival_time := arrival_time;
     snap_publication := (fun p => {| po_origin := p.(Descriptor.origin);
       po_representation := p.(Descriptor.representation);
       po_native_family := p.(native_family) |}) <$> book.(published_provenance);
     snap_levels := book.(published_levels) |}.

Lemma decode_staged l book staged index commit_time arrival_time : book_storable book ->
  stage l book = Ok staged ->
  decode book.(published_market) (staged_words index staged commit_time arrival_time)
  = Some (snapshot_of book commit_time arrival_time).
Proof.
  intros (Hlv & Hp & _). unfold stage. destruct (_ <? _); [done|].
  destruct (authority_words (published_authority book)) as [a ar] eqn:Ea.
  destruct (continuity_words (published_continuity book)) as [[[ck cr] ce] cp] eqn:Ec.
  assert (Eau : authority_state a ar = Some (published_authority book))
    by exact (decode_encoded (enc := fun s => Some (authority_words s)) (dec := fun w => authority_state w.1 w.2) _ (a, ar) (f_equal Some Ea)).
  assert (Eco : continuity ck cr ce cp = Some (published_continuity book))
    by exact (decode_encoded (enc := fun c => Some (continuity_words c))
      (dec := fun w => continuity w.1.1.1 w.1.1.2 w.1.2 w.2) _ (ck, cr, ce, cp) (f_equal Some Ec)).
  assert (Els : mapM decode_level (level_words <$> published_levels book) = Some (published_levels book)).
  { clear -Hlv. induction Hlv as [|lv lvs Hl _ IH]; [done|]. cbn.
    by rewrite decode_staged_level, IH. }
  unfold snapshot_of. destruct (published_provenance book) as [p|].
  - destruct (pack_family (native_family p)) as [[n ws]|] eqn:Ef; [|done].
    destruct (origin_words (origin p)) as [o d] eqn:Eo. intros [= <-]. unfold decode, staged_words.
    cbn [st_book_revision st_authority_state st_authority_reason st_continuity_kind st_continuity_reason
      st_continuity_epoch st_continuity_position st_sync_divergences st_provenance_present st_origin
      st_derivation st_representation st_family_length st_family_words st_levels
      sw_book_revision sw_commit_time sw_arrival_time sw_continuity_epoch
      sw_continuity_position sw_sync_divergences sw_authority_state sw_authority_reason
      sw_continuity_kind sw_continuity_reason sw_provenance_present sw_origin sw_derivation
      sw_representation sw_family_length sw_family_words sw_directory_index sw_level_count sw_levels].
    cbn [Z.eqb Pos.eqb]. rewrite (decode_staged_publication p o d n ws Hp Eo Ef).
    cbn [fmap option_fmap option_map mbind option_bind]. rewrite Els. cbn [mbind option_bind].
    rewrite Eau. cbn [mbind option_bind]. by rewrite Eco.
  - intros [= <-]. unfold decode, staged_words. cbn [st_book_revision st_authority_state st_authority_reason st_continuity_kind st_continuity_reason
      st_continuity_epoch st_continuity_position st_sync_divergences st_provenance_present st_origin
      st_derivation st_representation st_family_length st_family_words st_levels
      sw_book_revision sw_commit_time sw_arrival_time sw_continuity_epoch
      sw_continuity_position sw_sync_divergences sw_authority_state sw_authority_reason
      sw_continuity_kind sw_continuity_reason sw_provenance_present sw_origin sw_derivation
      sw_representation sw_family_length sw_family_words sw_directory_index sw_level_count sw_levels].
    cbn [Z.eqb]. cbn [mbind option_bind]. rewrite Els. cbn [mbind option_bind].
    rewrite Eau. cbn [mbind option_bind]. by rewrite Eco.
Qed.

(** What a stream learns of a publication. *)
Definition published_event (p : Publication) : option RetainedEvent :=
  match p with
  | StatePublished _ _ _ _ _ => None
  | MutationPublished _ revision cursor m commit_time arrival_time =>
      lv ← (match m.(new) with Some lv => Some lv | None => m.(old) end);
      let p := m.(mutation_provenance) in
      Some (RetainedMutation
        {| me_market := p.(market); me_revision := revision; me_cursor := cursor;
           me_commit_time := commit_time; me_arrival_time := arrival_time;
           me_publication := {| po_origin := p.(Descriptor.origin);
             po_representation := p.(Descriptor.representation);
             po_native_family := p.(native_family) |};
           me_side := lv.(side); me_price := lv.(price);
           me_old_quantity := quantity <$> m.(old); me_new_quantity := quantity <$> m.(new);
           me_daemon_generation := p.(daemon_generation);
           me_subscription_generation := p.(subscription_generation) |})
  | ResolutionPublished _ revision cursor r commit_time arrival_time =>
      let p := r.(observation).(resolution_provenance) in
      outcome ← text_value r.(observation).(winner);
      Some (RetainedResolution
        {| re_market := p.(market); re_revision := revision; re_cursor := cursor;
           re_commit_time := commit_time; re_arrival_time := arrival_time;
           re_publication := {| rp_origin := p.(Descriptor.origin);
             rp_representation := p.(Descriptor.representation) |};
           re_winning_index := r.(winning_index);
           re_delivery_path := r.(observation).(delivery_path);
           re_winning_outcome := outcome;
           re_market_type := r.(observation).(native_label).(label_text);
           re_resolution_date := r.(resolution_date).(timestamp_lexeme);
           re_daemon_generation := p.(daemon_generation);
           re_subscription_generation := p.(subscription_generation) |})
  end.

Lemma presence_b2z b : presence (Z.b2z b) = Some b.
Proof. by destruct b. Qed.

Lemma staged_half lv : (forall l, lv = Some l -> level_wf l) ->
  optional_quantity (bool_decide (is_Some lv)) (half lv) = Some (quantity <$> lv).
Proof.
  intros H. destruct lv as [l|]; [|done]. destruct (H l eq_refl) as [_ Hq].
  rewrite bool_decide_true by by eexists. unfold optional_quantity. cbn [negb half fmap option_fmap option_map].
  by rewrite (staged_quantity _ Hq).
Qed.

Lemma decode_staged_mutation index revision cursor m staged commit_time arrival_time :
  mutation_storable m -> stage_mutation m = Ok staged ->
  exists e, published_event (MutationPublished index revision cursor m commit_time arrival_time) = Some e /\
  decode_event m.(mutation_provenance).(market) cursor
    (mutation_event_words index cursor revision staged commit_time arrival_time) = Some e.
Proof.
  intros (Hwf & Ht & Ho & Hn). unfold stage_mutation, published_event.
  destruct (ok_or _ _) as [lv|] eqn:Ec; [|done]. apply ok_or_Ok in Ec. rewrite Ec.
  destruct (pack_family _) as [[n ws]|] eqn:Ef; [|done].
  destruct (origin_words _) as [o d] eqn:Eo. intros [= <-]. eexists. split; [reflexivity|].
  assert (Hlv : level_wf lv) by (destruct (new m); [apply Hn; congruence|by apply Ho]).
  assert (Hp : negb (bool_decide (is_Some (old m))) && negb (bool_decide (is_Some (new m))) = false).
  { apply andb_false_iff. destruct (new m); [right|left; rewrite Ec];
      by rewrite bool_decide_true by by eexists. }
  unfold decode_event, mutation_event_words.
  cbn [shared body mw_old_present mw_new_present mw_family_length mw_family_words mw_side mw_price
    mw_old_quantity mw_new_quantity ew_origin ew_derivation ew_representation ew_book_revision
    ew_commit_time ew_arrival_time ew_daemon_generation ew_subscription_generation
    sm_origin sm_derivation sm_representation sm_side sm_old_present sm_new_present sm_family_length
    sm_family_words sm_daemon_generation sm_subscription_generation sm_price sm_old_quantity sm_new_quantity].
  rewrite !presence_b2z. cbn [mbind option_bind]. rewrite Hp.
  rewrite (decode_staged_publication _ o d n ws Ht Eo Ef). cbn [mbind option_bind].
  rewrite (decode_encoded (enc := fun s => Some (side_word s)) _ _ eq_refl). cbn [mbind option_bind].
  destruct Hlv as [Hpr _]. rewrite staged_price by done. cbn [mbind option_bind].
  rewrite !staged_half by done. done.
Qed.

Lemma decode_staged_resolution index revision cursor r staged commit_time arrival_time :
  resolution_storable r -> stage_resolution r = Ok staged ->
  exists e, published_event (ResolutionPublished index revision cursor r commit_time arrival_time) = Some e /\
  decode_event r.(observation).(resolution_provenance).(market) cursor
    (resolution_event_words index cursor revision staged commit_time arrival_time) = Some e.
Proof.
  intros (Hwin & Hlab & Hdate). unfold stage_resolution, published_event.
  destruct (ok_or (text_value _) _) as [outcome|] eqn:Et; [|done]. apply ok_or_Ok in Et. rewrite Et.
  destruct (ok_or (pack_text RES_OUTCOME_WORDS _) _) as [[on ow]|] eqn:E1; [|done].
  destruct (ok_or (pack_text RES_TYPE_WORDS _) _) as [[tn tw]|] eqn:E2; [|done].
  destruct (ok_or (pack_text RES_DATE_WORDS _) _) as [[dn dw]|] eqn:E3; [|done].
  apply ok_or_Ok in E1, E2, E3. destruct (origin_words _) as [o d] eqn:Eo.
  destruct (ok_or (delivery_path_word _) _) as [path|] eqn:Ed; [|done]. apply ok_or_Ok in Ed.
  intros [= <-]. eexists. split; [reflexivity|].
  unfold decode_event, resolution_event_words.
  cbn [shared body rw_winning_index rw_delivery_path rw_outcome_length rw_type_length rw_date_length
    rw_outcome_words rw_type_words rw_date_words ew_origin ew_derivation ew_representation ew_book_revision
    ew_commit_time ew_arrival_time ew_daemon_generation ew_subscription_generation
    sr_origin sr_derivation sr_representation sr_winning_index sr_delivery_path sr_outcome_length
    sr_type_length sr_date_length sr_outcome_words sr_type_words sr_date_words
    sr_daemon_generation sr_subscription_generation].
  rewrite (decode_staged_origin _ _ _ Eo). cbn [mbind option_bind].
  rewrite (decode_encoded (enc := fun r => Some (representation_word r)) _ _ eq_refl). cbn [mbind option_bind].
  rewrite (decode_encoded (ExactCodec := delivery_path_codec) _ _ Ed). cbn [mbind option_bind].
  rewrite (stored_text_packed RES_OUTCOME_WORDS _ _ _ ltac:(done) (Hwin _ Et) E1). cbn [mbind option_bind].
  rewrite (stored_text_packed RES_TYPE_WORDS _ _ _ ltac:(done) Hlab E2). cbn [mbind option_bind].
  by rewrite (stored_text_packed RES_DATE_WORDS _ _ _ ltac:(done) Hdate E3).
Qed.
