(* ===== verification/ShmReads.v ===== *)
(** * What a reader may answer

    A weakest-precondition calculus for reading programs, over every behaviour the memory
    allows ([ensures], and [ensures_run] with the loads a run took), and its rules for the
    records, the directory entries and the rings of a segment that any run of a writer left.
    A rule also says that no assertion fails, and what a fault of a read is for. *)

From S2P Require Import Prelude OrdMap Numeric Identity Descriptor Continuity Observation Book ShmCodec ShmCell ShmLayout ShmWriter ShmWriterProps ShmRun ShmInv ShmReader ShmReaderProps.

(** ** Every behaviour of a reading program *)

Section ensures.
Context (h : list Message).

(** Whatever its loads return, the program ends without a failed assertion, in [Q]. *)
Definition ensures {A} (m : rprog A) (Q : A -> View -> Prop) (view : View) : Prop :=
  forall choices o view' rest, m h choices view = Some (o, view', rest) ->
    (view.(seen) <= view'.(seen))%nat /\ exists a, o = Some a /\ Q a view'.

Lemma ensures_mono {A} (m : rprog A) (P Q : A -> View -> Prop) view : ensures m P view ->
  (forall a view', (view.(seen) <= view'.(seen))%nat -> P a view' -> Q a view') ->
  ensures m Q view.
Proof.
  intros H HPQ choices o view' rest Hm. destruct (H _ _ _ _ Hm) as (Hs & a & -> & Ha).
  split; [done|]. eauto.
Qed.

Lemma ensures_ret {A} (a : A) (Q : A -> View -> Prop) view : Q a view -> ensures (rret a) Q view.
Proof. intros H choices o view' rest [= <- <- _]. split; [done|]. by eexists. Qed.

Lemma ensures_bind {A B} (m : rprog A) (k : A -> rprog B) Q view :
  ensures m (fun a view' => ensures (k a) Q view') view -> ensures (rbind m k) Q view.
Proof.
  intros H choices o view' rest. unfold rbind.
  destruct (m h choices view) as [[[o1 view1] rest1]|] eqn:E; [|done]. cbn [mbind option_bind].
  destruct (H _ _ _ _ E) as (Hs & a & -> & Ha). intros Hk.
  destruct (Ha _ _ _ _ Hk) as (Hs' & b & -> & Hb). split; [lia|]. by eexists.
Qed.

Lemma ensures_try {A B Er} (m : rprog (result A Er)) (k : A -> rprog (result B Er)) Q view :
  ensures m (fun r view' => match r with
                            | Ok a => ensures (k a) Q view' | Err e => Q (Err e) view' end) view ->
  ensures (rtry m k) Q view.
Proof.
  intros H. apply ensures_bind. eapply ensures_mono; [exact H|].
  intros [a|e] view' _ Ha; [done|by apply ensures_ret].
Qed.

Lemma ensures_deny {B Er} b (e : Er) (k : () -> rprog (result B Er)) Q view :
  (b = true -> Q (Err e) view) -> (b = false -> ensures (k ()) Q view) ->
  ensures (rtry (rdeny b e) k) Q view.
Proof. intros Ht Hf. apply ensures_try, ensures_ret. destruct b; auto. Qed.

Lemma ensures_lift {A B Er} (r : result A Er) (k : A -> rprog (result B Er)) Q view :
  (forall a, r = Ok a -> ensures (k a) Q view) -> (forall e, r = Err e -> Q (Err e) view) ->
  ensures (rtry (rlift r) k) Q view.
Proof. intros Ha He. apply ensures_try, ensures_ret. destruct r; auto. Qed.

Lemma ensures_choosing {A} (f : list Message -> option nat -> View -> option (A * View)) Q view :
  (forall i a view', f h i view = Some (a, view') -> (view.(seen) <= view'.(seen))%nat /\ Q a view') ->
  ensures (choosing f) Q view.
Proof.
  intros H [|i choices] o view' rest; [done|]. unfold choosing.
  destruct (f h i view) as [[a view1]|] eqn:E; [|done]. intros [= <- <- _].
  destruct (H _ _ _ E). split; [done|]. by eexists.
Qed.

(** The cells of [P] hold [f] for a reader that has seen as much as [view]. *)
Definition settled_at (P : Z -> Prop) (f : Z -> Z) (view : View) : Prop :=
  forall l, P l -> forall view2 j v view3, (view.(seen) <= view2.(seen))%nat ->
    relaxed_load h l j view2 = Some (v, view3) -> v = f l.

Lemma settled_later P f view view' : (view.(seen) <= view'.(seen))%nat ->
  settled_at P f view -> settled_at P f view'.
Proof. intros Hs H l Hl view2 j v view3 H2. apply H; [done|lia]. Qed.

Lemma run_settled {A} P f (c : pcopy A) choices view o view' rest : settled_at P f view ->
  safe P c -> run_copy h c choices view = Some (o, view', rest) -> o = eval_copy f c.
Proof.
  revert choices view. induction c as [a|l k IH]; intros choices view Hf Hc; simpl; [by intros [= <- _ _]|].
  destruct choices as [|j choices]; [done|]. destruct Hc as [Hl Hk].
  destruct (relaxed_load h l j view) as [[v view1]|] eqn:E; [|done]. cbn [mbind option_bind]. intros Hr.
  rewrite (Hf l Hl view j v view1 (le_n _) E) in *. apply IH in Hr; [done| |done].
  revert E. unfold relaxed_load. destruct (may_read _ _ _ _); [|done]. intros [= _ <-].
  by eapply settled_later.
Qed.

Lemma ensures_copying {A} P f (c : pcopy A) Q view : settled_at P f view -> safe P c ->
  (forall a view', eval_copy f c = Some a -> (view.(seen) <= view'.(seen))%nat -> Q a view') ->
  ensures (copying c) Q view.
Proof.
  intros Hf Hc HQ choices o view' rest Hr. unfold copying in Hr.
  pose proof (run_copy_seen _ _ _ _ _ _ _ Hr) as Hs. apply (run_settled P f) in Hr as ->; [|done..].
  destruct (safe_eval P c f Hc) as [a Ha]. rewrite Ha. split; [lia|]. exists a. split; [done|].
  apply HQ; [done|lia].
Qed.
End ensures.

(** ** The loads of a run *)

Section loads.
Context (h : list Message).

(** A program takes its loads from the front of its choices. *)
Definition consumes {A} (m : rprog A) : Prop :=
  forall choices view o view' rest, m h choices view = Some (o, view', rest) ->
    exists loads, choices = loads ++ rest.

Lemma consumes_ret {A} (a : A) : consumes (rret a).
Proof. intros choices view o view' rest [= _ _ <-]. by exists []. Qed.

Lemma consumes_panic {A} : consumes (rpanic (A := A)).
Proof. intros choices view o view' rest [= _ _ <-]. by exists []. Qed.

Lemma consumes_bind {A B} (m : rprog A) (k : A -> rprog B) : consumes m ->
  (forall a, consumes (k a)) -> consumes (rbind m k).
Proof.
  intros Hm Hk choices view o view' rest. unfold rbind.
  destruct (m h choices view) as [[[o1 view1] rest1]|] eqn:E; [|done]. cbn [mbind option_bind].
  apply Hm in E as [loads ->]. destruct o1 as [a|]; [|by intros [= _ _ <-]; exists loads].
  intros [loads' ->]%Hk. exists (loads ++ loads'). by rewrite app_assoc.
Qed.

Lemma consumes_choosing {A} (f : list Message -> option nat -> View -> option (A * View)) :
  consumes (choosing f).
Proof.
  intros [|i choices] view o view' rest; [done|]. unfold choosing.
  destruct (f h i view) as [[a view1]|]; [|done]. intros [= _ _ <-]. by exists [i].
Qed.

Lemma consumes_copying {A} (c : pcopy A) : consumes (copying c).
Proof. intros choices view o view' rest (loads & -> & _)%run_copy_loads. by exists loads. Qed.

(** [ensures], with the loads that the run took. *)
Definition ensures_run {A} (m : rprog A) (Q : list (option nat) -> A -> View -> Prop)
    (view : View) : Prop :=
  forall choices o view' rest, m h choices view = Some (o, view', rest) ->
    (view.(seen) <= view'.(seen))%nat /\
    exists loads a, choices = loads ++ rest /\ o = Some a /\ Q loads a view'.

Lemma ensures_run_of {A} (m : rprog A) Q view : consumes m -> ensures h m Q view ->
  ensures_run m (fun _ => Q) view.
Proof.
  intros Hc H choices o view' rest E. destruct (H _ _ _ _ E) as (Hs & a & -> & Ha).
  destruct (Hc _ _ _ _ _ E) as [loads ->]. split; [done|]. by exists loads, a.
Qed.

Lemma ensures_run_mono {A} (m : rprog A) (P Q : list (option nat) -> A -> View -> Prop) view :
  ensures_run m P view ->
  (forall loads a view', (view.(seen) <= view'.(seen))%nat -> P loads a view' -> Q loads a view') ->
  ensures_run m Q view.
Proof.
  intros H HPQ choices o view' rest E. destruct (H _ _ _ _ E) as (Hs & loads & a & -> & -> & Ha).
  split; [done|]. exists loads, a. auto.
Qed.

Lemma ensures_run_bind {A B} (m : rprog A) (k : A -> rprog B) Q view :
  ensures_run m (fun loads a => ensures_run (k a) (fun more => Q (loads ++ more))) view ->
  ensures_run (rbind m k) Q view.
Proof.
  intros H choices o view' rest. unfold rbind.
  destruct (m h choices view) as [[[o1 view1] rest1]|] eqn:E; [|done]. cbn [mbind option_bind].
  destruct (H _ _ _ _ E) as (Hs & loads & a & -> & -> & Ha). intros Hk.
  destruct (Ha _ _ _ _ Hk) as (Hs' & more & b & -> & -> & Hb). split; [lia|].
  exists (loads ++ more), b. by rewrite app_assoc.
Qed.

Lemma run_ensures {A} (m : rprog A) P Q view : ensures_run m P view ->
  (forall loads a view', P loads a view' -> Q a view') -> ensures h m Q view.
Proof.
  intros H HPQ choices o view' rest E. destruct (H _ _ _ _ E) as (Hs & loads & a & -> & -> & Ha).
  split; [done|]. exists a. split; [done|]. by eapply HPQ.
Qed.

Lemma ensures_run_both {A} (m : rprog A) P Q view : ensures h m P view -> ensures_run m Q view ->
  ensures_run m (fun loads a view' => P a view' /\ Q loads a view') view.
Proof.
  intros HP HQ choices o view' rest E. destruct (HP _ _ _ _ E) as (_ & a & -> & Ha).
  destruct (HQ _ _ _ _ E) as (Hs & loads & b & -> & [= <-] & Hb). split; [done|]. by exists loads, a.
Qed.

Lemma ensures_run_ret {A} (a : A) (Q : list (option nat) -> A -> View -> Prop) view :
  Q [] a view -> ensures_run (rret a) Q view.
Proof. intros H choices o view' rest [= <- <- <-]. split; [done|]. by exists [], a. Qed.

Lemma ensures_run_try {A B Er} (m : rprog (result A Er)) (k : A -> rprog (result B Er)) Q view :
  ensures_run m (fun loads r view' => match r with
    | Ok a => ensures_run (k a) (fun more => Q (loads ++ more)) view'
    | Err e => Q loads (Err e) view' end) view ->
  ensures_run (rtry m k) Q view.
Proof.
  intros H. apply ensures_run_bind. eapply ensures_run_mono; [exact H|].
  intros loads [a|e] view' _ Ha; [done|]. apply ensures_run_ret. by rewrite app_nil_r.
Qed.

(** What takes no loads, after those taken. *)
Lemma ensures_run_lift {A B Er} (r : result A Er) (k : A -> rprog (result B Er)) Q view :
  (forall a, r = Ok a -> ensures_run (k a) Q view) -> (forall e, r = Err e -> Q [] (Err e) view) ->
  ensures_run (rtry (rlift r) k) Q view.
Proof. intros Ha He. apply ensures_run_try, ensures_run_ret. destruct r; auto. Qed.

Lemma ensures_run_deny {B Er} b (e : Er) (k : () -> rprog (result B Er)) Q view :
  (b = true -> Q [] (Err e) view) -> (b = false -> ensures_run (k ()) Q view) ->
  ensures_run (rtry (rdeny b e) k) Q view.
Proof. intros Ht Hf. apply ensures_run_try, ensures_run_ret. destruct b; auto. Qed.
End loads.

(** Follows a program to the loads it is made of. *)
Ltac consumed :=
  repeat first
    [ apply consumes_ret | apply consumes_panic | apply consumes_choosing | apply consumes_copying
    | progress unfold rtry, rdeny, rlift, rexpect, acquire, published, witness_word32, witness_bytes,
        read_identity
    | apply consumes_bind; [|intros ?]
    | match goal with |- consumes _ (match ?x with _ => _ end) => destruct x end ].

Lemma under_seqlock_loop {A} (c : copy A) counter h choices view :
  under_seqlock h counter c choices view
  = seqlock_loop MAX_READ_ATTEMPTS h counter c None false choices view.
Proof. reflexivity. Qed.

Lemma under_seqlock_seen {A} (c : copy A) counter h choices view r view' choices' :
  under_seqlock h counter c choices view = Some (r, view', choices') ->
  (view.(seen) <= view'.(seen))%nat.
Proof. unfold under_seqlock. apply seqlock_loop_seen. Qed.

Lemma under_seqlock_loads {A} (c : copy A) counter h choices view r view' rest :
  under_seqlock h counter c choices view = Some (r, view', rest) -> exists loads, choices = loads ++ rest.
Proof. rewrite under_seqlock_loop. intros (loads & -> & _)%seqlock_loop_runs. by exists loads. Qed.

Lemma run_copy_safe {A} P (c : pcopy A) h choices view o view' rest : safe P c ->
  run_copy h c choices view = Some (o, view', rest) -> is_Some o.
Proof.
  revert choices view. induction c as [a|l k IH]; intros choices view; simpl; [by intros Ha [= <- _ _]|].
  intros [_ Hk]. destruct choices as [|j choices]; [done|].
  destruct (relaxed_load h l j view) as [[v view1]|]; [|done]. cbn [mbind option_bind]. by apply IH.
Qed.

(** ** The publications of a record *)

Definition into (l : SegmentLayout) (p : Part) (log : list Publication) : list Publication :=
  List.filter (fun x => bool_decide (is_Some (words_into l p x))) log.

Lemma len_publications l p log : len (publications l p log) = len (into l p log).
Proof.
  unfold publications, into, len. induction log as [|x log IH]; [done|].
  cbn [omap list_omap List.filter]. destruct (words_into l p x) as [ws|].
  - rewrite bool_decide_true by by eexists. cbn [fmap option_fmap option_map length]. lia.
  - rewrite bool_decide_false by by intros [? ?]. done.
Qed.

Lemma publications_lookup l p log k stores : publications l p log !! k = Some stores ->
  exists pre x post ws, log = pre ++ x :: post /\ words_into l p x = Some ws /\
    stores = shift (part_base l p) ws /\ publications l p pre = take k (publications l p log) /\
    len (into l p pre) = Z.of_nat k.
Proof.
  unfold publications. revert k. induction log as [|x log IH]; intros k; [done|].
  cbn [omap list_omap]. destruct (words_into l p x) as [ws|] eqn:E; cbn [fmap option_fmap option_map].
  - destruct k as [|k].
    + intros [= <-]. by exists [], x, log, ws.
    + intros H. destruct (IH k H) as (pre & y & post & vs & -> & Hy & -> & Hpre & Hk).
      exists (x :: pre), y, post, vs. cbn [omap list_omap]. rewrite E. cbn [fmap option_fmap option_map take].
      split_and!; [done|done|done|by rewrite Hpre|]. unfold into, len in *. cbn [List.filter].
      rewrite E, bool_decide_true by by eexists. cbn [length]. lia.
  - intros H. destruct (IH k H) as (pre & y & post & vs & -> & Hy & -> & Hpre & Hk).
    exists (x :: pre), y, post, vs. cbn [omap list_omap]. rewrite E. cbn [fmap option_fmap option_map].
    split_and!; [done|done|done|done|]. unfold into in *. cbn [List.filter].
    rewrite E, bool_decide_false by by intros [? ?]. done.
Qed.

(** ** The segment a run left, to a reader *)

Definition reader_of (w : SegmentWriter) : SegmentReader :=
  {| reader_size := w.(region).(size_bytes); reader_geometry := w.(geometry);
     reader_binding := w.(binding) |}.

(** The counter of a part's record that a reader knows of. *)
Definition known (l : SegmentLayout) (h : list Message) (p : Part) (view : View) : Z :=
  value_at h (last_before h (part_base l p) view.(seen)).

Section run.
Context (log : list Publication) (w : SegmentWriter) (Hinv : writer_inv log w) (n : nat).
Let l := writer_layout w.
Let h := take n w.(memory).(history).
Let prep := prepared l (len (markets w)).

Lemma run_layout : layout_wf l.
Proof. exact (inv_layout _ _ Hinv). Qed.

Lemma run_count : len (markets w) <= l.(directory_capacity).
Proof. exact (inv_count _ _ Hinv). Qed.

Lemma run_placed : well_placed w.
Proof. exact (inv_well_placed _ _ Hinv). Qed.

(** The attempts a fault is for: each found an interval that the writer had opened, or a
    record that it had begun to overwrite, none older than what the reader knew. *)
Definition lost_reads (p : Part) (attempts : nat) (view : View) (f : SeqlockFault) : Prop :=
  exists lost, length lost = attempts /\ fault_of_lost f lost /\
    Forall (lost_to (part_base l p) h (known l h p view)) lost.

(** A writer that stalled did so in an interval of the run. *)
Lemma stalled_interval p attempts view v : is_record p = true -> part_valid l p ->
  lost_reads p attempts view (WriterStalled v) -> v mod 2 = 1 /\ v <= 2 * len (into l p log).
Proof.
  intros Hr Hp (lost & _ & [Hne Hall] & Hto). destruct lost as [|a lost]; [done|].
  apply Forall_cons_1 in Hall as [<- _], Hto as [Ha _]. simpl in Ha.
  pose proof (counter_not_record_data l p) as Hc.
  pose proof (writer_run_leaves _ _ Hc _ _ _ (inv_records _ _ Hinv p Hr Hp)) as [Hpub Hn _ _ _].
  pose proof (counter_take _ _ _ n Hpub) as Ht. unfold h, l in *.
  rewrite <- len_publications. lia.
Qed.

(** What a read of a record under its counter may answer. *)
Definition answered {A} (p : Part) (c : pcopy A) (view : View)
    (r : result (option A) ReadFault) (view' : View) : Prop :=
  match r with
  | Ok (Some a) => exists pre x post ws, log = pre ++ x :: post /\ words_into l p x = Some ws /\
      known l h p view <= 2 * (len (into l p pre) + 1) <= known l h p view' /\
      eval_copy (overlay (shift (part_base l p) ws) (contents (prep p :: publications l p pre))) c
        = Some a
  | Ok None => known l h p view = 0
  | Err (ReadWriterStalled v) => v mod 2 = 1 /\ v <= 2 * len (into l p log) /\
      lost_reads p MAX_READ_ATTEMPTS view (WriterStalled v)
  | Err (ReadContended attempts) => lost_reads p MAX_READ_ATTEMPTS view (Contended attempts)
  | Err _ => False
  end.

Definition part_cells (p : Part) : CellRecord :=
  {| rec_base := part_base l p; rec_size := part_size l p |}.

(** The attempts of a seqlock, whatever their number. *)
Definition loop_answered {A} (attempts : nat) (p : Part) (c : pcopy A) (view : View)
    (found : result (option (option A)) SeqlockFault) (view' : View) : Prop :=
  match found with
  | Ok (Some o) => exists a, o = Some a /\ answered p c view (Ok (Some a)) view'
  | Ok None => answered p c view (Ok None) view'
  | Err f => lost_reads p attempts view f
  end.

Lemma seqlock_loop_answered {A} attempts p (c : pcopy A) choices view found view' rest :
  is_record p = true -> part_valid l p -> safe (record_data l p) c ->
  seqlock_loop attempts h (part_base l p) c None false choices view = Some (found, view', rest) ->
  loop_answered attempts p c view found view'.
Proof.
  intros Hr Hp Hc E.
  apply (seqlock_loop_answers _ _ _ _ _ _ _ _ _ _ _ _ _ (counter_not_record_data l p)
    (inv_records _ _ Hinv p Hr Hp) (safe_copies _ _ Hc)) in E. fold h in E. cbv zeta in E.
  destruct found as [[o|]|f].
  - destruct E as (k & Hk & Hknown & Ho). destruct k as [|k]; [lia|].
    change (publications (writer_layout w) p log) with (publications l p log) in *.
    set (ps := publications l p log) in *.
    destruct (lookup_lt_is_Some_2 ps k ltac:(lia)) as [stores Hst].
    rewrite (take_S_r _ _ _ Hst), app_comm_cons, contents_snoc in Ho.
    destruct (publications_lookup l p log k stores Hst) as (pre & x & post & ws & El & Hx & -> & Hpre & Hl).
    fold ps in Hpre. destruct (safe_eval _ c (overlay (shift (part_base l p) ws)
      (contents (prep p :: take k ps))) Hc) as [a Ha].
    exists a. split; [rewrite Ho; exact Ha|]. exists pre, x, post, ws. split_and!; try done.
    + unfold known. lia.
    + unfold known. lia.
    + by rewrite Hpre.
  - exact E.
  - destruct E as (loads & _ & lost & Hlen & _ & Hf & Hto). by exists lost.
Qed.

Lemma part_counter p : ptr (part_cells p) 0 8 = Some (part_base l p).
Proof.
  pose proof (part_size_ge l run_layout p). unfold part_cells. rewrite ptr_at; [by rewrite Z.add_0_r|].
  unfold word_fits. simpl. apply andb_true_iff. split; apply Z.leb_le; lia.
Qed.

(** The fault of a seqlock, as a reader answers it. *)
Definition contention (f : SeqlockFault) : ReadFault :=
  match f with WriterStalled v => ReadWriterStalled v | Contended attempts => ReadContended attempts end.

(** The loads of a read that lost every race are those of the attempts it lost. *)
Lemma seqlocked_loads {A} p (c : pcopy A) view : is_record p = true -> part_valid l p ->
  safe (record_data l p) c ->
  ensures_run h (seqlocked (part_cells p) 0 c) (fun loads r view' => answered p c view r view' /\
    forall f, r = Err (contention f) ->
      lost_evidence h (part_base l p) c MAX_READ_ATTEMPTS (known l h p view) f loads view view') view.
Proof.
  intros Hr Hp Hc. unfold seqlocked. rewrite part_counter. apply ensures_run_bind, ensures_run_ret.
  intros choices o view' rest.
  destruct (under_seqlock h (part_base l p) c choices view) as [[[found view1] rest1]|] eqn:E; [|done].
  cbn [mbind option_bind]. intros [= <- <- <-].
  pose proof (under_seqlock_seen _ _ _ _ _ _ _ _ E) as Hs. split; [exact Hs|].
  pose proof (under_seqlock_loads _ _ _ _ _ _ _ _ E) as [loads ->]. exists loads.
  assert (Hlost : forall f, found = Err f -> lost_evidence h (part_base l p) c MAX_READ_ATTEMPTS
    (known l h p view) f loads view view1).
  { intros f ->. apply (seqlock_answers _ _ _ _ _ _ _ _ _ _ _ _ (counter_not_record_data l p)
      (inv_records _ _ Hinv p Hr Hp) (safe_copies _ _ Hc)) in E as (loads' & El & Hlost).
    by apply app_inv_tail in El as ->. }
  rewrite under_seqlock_loop in E. apply seqlock_loop_answered in E; [|done..].
  destruct found as [[o|]|f].
  - destruct E as (a & -> & Ha). exists (Ok (Some a)). by split_and!.
  - exists (Ok None). by split_and!.
  - exists (Err (contention f)). split_and!; [done|by destruct f| |].
    + destruct f as [v|v]; [|exact E]. destruct (stalled_interval p _ _ v Hr Hp E) as [? ?]. by split_and!.
    + intros f' [= Ef]. apply Hlost. f_equal. destruct f, f'; simpl in Ef; congruence.
Qed.

Lemma ensures_seqlocked {A} p (c : pcopy A) view : is_record p = true -> part_valid l p ->
  safe (record_data l p) c -> ensures h (seqlocked (part_cells p) 0 c) (answered p c view) view.
Proof. intros Hr Hp Hc. eapply run_ensures; [by apply seqlocked_loads|]. by intros ? ? ? [? _]. Qed.

(** *** State slots *)

Lemma slot_valid i : 0 <= i < len (markets w) -> part_valid l (SlotPart i).
Proof. pose proof run_count. destruct run_layout as [? _ _ _ _ _ _ _].  simpl. lia. Qed.

Lemma words_into_slot i x ws : words_into l (SlotPart i) x = Some ws ->
  exists position book commit_time arrival_time staged,
    x = StatePublished i position book commit_time arrival_time /\
    stage l book = Ok staged /\ ws = state_words staged commit_time arrival_time.
Proof.
  destruct x as [index position book ct at_|?|?]; simpl; [|done|done].
  destruct (Z.eqb_spec i index) as [<-|]; [|done]. destruct (stage l book) as [staged|] eqn:Es; [|done].
  intros [= <-]. by exists position, book, ct, at_, staged.
Qed.

(** No publication stores the index that installation prepared. *)
Lemma slot_index_kept i pre : 0 <= i < len (markets w) ->
  contents (prep (SlotPart i) :: publications l (SlotPart i) pre)
    (part_base l (SlotPart i) + SLOT_DIRECTORY_INDEX) = i.
Proof.
  intros Hi. induction pre as [|x pre IH] using rev_ind.
  - unfold prep, prepared. rewrite (proj2 (Z.ltb_lt _ _)) by lia. cbn [publications omap list_omap].
    cbn [contents fold_left overlay]. by rewrite Z.eqb_refl.
  - rewrite publications_snoc. destruct (words_into l (SlotPart i) x) as [ws|] eqn:E; [|by rewrite app_nil_r].
    apply words_into_slot in E as (position & book & ct & at_ & staged & -> & Hs & ->).
    rewrite app_comm_cons, contents_snoc. destruct run_layout as [_ _ [_ Hcap] _ _ _ _ _]. 
    exact (f_equal cw_directory_index (staged_cursor_read _ _ i _ staged ct at_ (stage_fits _ _ _ Hs) Hcap IH)).
Qed.

Section slot.
Context (i : Z) (Hi : 0 <= i < len (markets w)).

Lemma safe_slot_words : safe (record_data l (SlotPart i)) (read_words (part_cells (SlotPart i)) l.(level_capacity)).
Proof.
  pose proof (slot_room l run_layout). apply safe_read_words; [|done].
  destruct run_layout as [_ _ ? _ _ _ _ _].  lia.
Qed.

Lemma safe_slot_cursor : safe (record_data l (SlotPart i)) (read_cursor_words (part_cells (SlotPart i))).
Proof.
  apply safe_read_cursor. pose proof (slot_room l run_layout) as Hr.
  destruct run_layout as [_ _ ? _ _ _ _ _].  unfold LEVEL_CELL_BYTES in Hr. simpl. lia.
Qed.

(** The state published behind an accepted copy. *)
Definition state_behind (view view' : View) (P : PublishedBook -> StagedState -> Z -> Z -> Prop) : Prop :=
  exists pre position book commit_time arrival_time post staged,
    log = pre ++ StatePublished i position book commit_time arrival_time :: post /\
    stage l book = Ok staged /\
    known l h (SlotPart i) view <= 2 * (len (into l (SlotPart i) pre) + 1) <= known l h (SlotPart i) view' /\
    P book staged commit_time arrival_time.

Lemma slot_answer view a view' :
  answered (SlotPart i) (read_words (part_cells (SlotPart i)) l.(level_capacity)) view (Ok (Some a)) view' ->
  state_behind view view' (fun _ staged commit_time arrival_time =>
    a = staged_words i staged commit_time arrival_time).
Proof.
  intros (pre & x & post & ws & El & Hx & Hk & He).
  apply words_into_slot in Hx as (position & book & ct & at_ & staged & -> & Hs & ->).
  exists pre, position, book, ct, at_, post, staged. split_and!; [done|done|lia|lia|].
  destruct run_layout as [_ _ Hcap _ _ _ _ _]. 
  unfold part_cells in He. rewrite eval_read_words in He; [|lia|apply (slot_room l run_layout)].
  injection He as <-. apply staged_words_read; [by apply stage_fits in Hs|lia|by apply slot_index_kept].
Qed.

Lemma cursor_answer view a view' :
  answered (SlotPart i) (read_cursor_words (part_cells (SlotPart i))) view (Ok (Some a)) view' ->
  state_behind view view' (fun _ staged _ _ =>
    a = {| cw_book_revision := staged.(st_book_revision);
           cw_continuity_epoch := staged.(st_continuity_epoch);
           cw_continuity_position := staged.(st_continuity_position);
           cw_continuity_kind := staged.(st_continuity_kind);
           cw_continuity_reason := staged.(st_continuity_reason); cw_directory_index := i |}).
Proof.
  intros (pre & x & post & ws & El & Hx & Hk & He).
  apply words_into_slot in Hx as (position & book & ct & at_ & staged & -> & Hs & ->).
  exists pre, position, book, ct, at_, post, staged. split_and!; [done|done|lia|lia|].
  destruct run_layout as [_ _ Hcap _ _ _ _ _]. 
  unfold part_cells in He. rewrite eval_read_cursor in He;
    [|pose proof (slot_room l run_layout) as Hr; unfold LEVEL_CELL_BYTES in Hr; simpl in *; lia].
  injection He as <-. apply (staged_cursor_read _ _ i l.(level_capacity));
    [by apply stage_fits in Hs|lia|by apply slot_index_kept].
Qed.
End slot.

(** *** Event slots *)

Definition event_behind (e : Z) (position : Z) (view view' : View) (x : Publication) : Prop :=
  exists pre post, log = pre ++ x :: post /\ publication_index x = e /\
    let p := EventPart e position in
    known l h p view <= 2 * (len (into l p pre) + 1) <= known l h p view'.

(** The words of a publication in an event slot. *)
Definition published_words (x : Publication) : option EventWords :=
  match x with
  | StatePublished _ _ _ _ _ => None
  | MutationPublished index revision cursor m commit_time arrival_time =>
      staged ← ok (stage_mutation m);
      Some (mutation_event_words index cursor revision staged commit_time arrival_time)
  | ResolutionPublished index revision cursor r commit_time arrival_time =>
      staged ← ok (stage_resolution r);
      Some (resolution_event_words index cursor revision staged commit_time arrival_time)
  end.

Definition publication_cursor (x : Publication) : option MutationCursor :=
  match x with
  | StatePublished _ _ _ _ _ => None
  | MutationPublished _ _ cursor _ _ _ | ResolutionPublished _ _ cursor _ _ _ => Some cursor
  end.

Lemma event_words_of e k x ws base f : words_into l (EventPart e k) x = Some ws ->
  publication_index x = e /\
  (exists c, publication_cursor x = Some c /\ c.(cursor_position) mod l.(event_capacity) = k mod l.(event_capacity)) /\
  published_words x = Some (event_at_slot (overlay (shift base ws) f) base).
Proof.
  destruct x as [|index revision c m ct at_|index revision c r ct at_]; simpl; [done|..];
    (destruct (Z.eqb_spec e index) as [<-|]; [|done]);
    (destruct (Z.eqb_spec (k mod event_capacity l) (cursor_position c mod event_capacity l)) as [Ek|]; [|done]);
    simpl.
  - destruct (stage_mutation m) as [staged|] eqn:Es; [|done]. intros [= <-].
    split_and!; [done|by exists c|]. simpl. f_equal. symmetry. apply mutation_read. by apply stage_mutation_fits in Es.
  - destruct (stage_resolution r) as [staged|] eqn:Es; [|done]. intros [= <-].
    apply stage_resolution_fits in Es as (? & ? & ?).
    split_and!; [done|by exists c|]. simpl. f_equal. symmetry. by apply resolution_read.
Qed.

Lemma event_answer e k view a view' :
  answered (EventPart e k) (read_event_words (part_cells (EventPart e k))) view (Ok (Some a)) view' ->
  exists x, event_behind e k view view' x /\ published_words x = Some a.
Proof.
  intros (pre & x & post & ws & El & Hx & Hk & He).
  unfold part_cells in He. simpl part_size in He. rewrite eval_read_event in He. injection He as <-.
  destruct (event_words_of e k x ws (part_base l (EventPart e k))
    (contents (prep (EventPart e k) :: publications l (EventPart e k) pre)) Hx) as (Hidx & _ & Hw).
  exists x. split; [|exact Hw]. exists pre, post. split_and!; [done|done|cbv zeta; lia].
Qed.

(** *** Dirty slots *)

Lemma dirty_answer k view a view' :
  answered (DirtyPart k) (read_dirty (part_cells (DirtyPart k))) view (Ok (Some a)) view' ->
  exists pre post index position book commit_time arrival_time,
    log = pre ++ StatePublished index position book commit_time arrival_time :: post /\
    position mod l.(dirty_capacity) = k mod l.(dirty_capacity) /\
    a = (position, index, book.(published_revision)).
Proof.
  intros (pre & x & post & ws & El & Hx & Hk & He).
  destruct x as [index position book ct at_|?|?]; simpl in Hx; [|done|done].
  destruct (Z.eqb_spec (k mod dirty_capacity l) (position mod dirty_capacity l)) as [Ek|]; [|done].
  injection Hx as <-. exists pre, post, index, position, book, ct, at_. split_and!; [done|done|].
  unfold part_cells in He. simpl part_size in He. rewrite eval_read_dirty, !overlay_shift in He.
  by injection He as <-.
Qed.

(** One attempt is the seqlock of one attempt. *)
Lemma ensures_attempt {A} k (c : pcopy A) view : 0 <= k <= U64_MAX ->
  safe (record_data l (DirtyPart k)) c ->
  ensures h (dirty_attempt (part_cells (DirtyPart k)) c) (fun r view' =>
    match r with Some a => answered (DirtyPart k) c view (Ok (Some a)) view' | None => True end) view.
Proof.
  intros Hk Hc. unfold dirty_attempt. unfold DIRTY_SEQUENCE. rewrite part_counter.
  apply ensures_bind, ensures_ret. set (counter := part_base l (DirtyPart k)).
  intros choices o view' rest E.
  assert (Hloop : exists found, seqlock_loop 1 h counter c None false choices view = Some (found, view', rest) /\
    exists r, o = Some r /\ forall a, r = Some a -> found = Ok (Some (Some a))).
  { revert E. unfold rbind, choosing. destruct choices as [|i choices]; [done|]. cbn [seqlock_loop].
    destruct (open_read h counter i view) as [[opened view1]|]; [|done]. cbn [mbind option_bind].
    destruct opened as [|v|v]; [by intros [= <- <- <-]; eexists; split; [done|]; eexists..|].
    unfold copying. destruct (run_copy h c choices view1) as [[[a view2] choices2]|] eqn:Er; [|done].
    cbn [mbind option_bind]. apply (run_copy_safe _ _ _ _ _ _ _ _ Hc) in Er as [a' ->].
    destruct choices2 as [|i2 choices2]; [done|].
    destruct (close_read h counter v i2 view2) as [[settled view3]|]; [|done]. cbn [mbind option_bind].
    destruct settled; intros [= <- <- <-]; (eexists; split; [done|]); eexists; (split; [done|]); [|done].
    by intros ? [= <-]. }
  destruct Hloop as (found & Hl & r & -> & Hr). pose proof (seqlock_loop_seen _ _ _ _ _ _ _ _ _ _ _ Hl) as Hs.
  split; [exact Hs|]. exists r. split; [done|]. destruct r as [a|]; [|done]. rewrite (Hr a eq_refl) in Hl.
  apply seqlock_loop_answered in Hl; [|done..]. by destruct Hl as (? & [= <-] & ?).
Qed.

(** *** Directory entries *)

Section entry.
Context (i : Z) (Hi : 0 <= i < l.(directory_capacity)).
Let base := part_base l (DirectoryPart i).
Let cells := record_data l (DirectoryPart i).

Definition entry_record : CellRecord := {| rec_base := base; rec_size := DIRECTORY_ENTRY_BYTES |}.

(** A reader that has acquired the gate of an installed entry. *)
Definition unlocked (market : MarketRef) (view : View) : Prop :=
  markets w !! Z.to_nat i = Some market /\ market_wf market /\
  len (identity_bytes market) <= IDENTITY_CAPACITY /\
  settled_at h cells (entry_cells_of l i market) view.

Lemma unlocked_later market view view' : (view.(seen) <= view'.(seen))%nat ->
  unlocked market view -> unlocked market view'.
Proof. intros Hs (? & ? & ? & H). split_and!; [done..|]. by eapply settled_later. Qed.

(** To what the reader knew, the entry's gate was not open: never stored, or only claimed. *)
Definition gate_unknown (view : View) : Prop :=
  known l h (DirectoryPart i) view = 0 \/ known l h (DirectoryPart i) view = GATE_CLAIMED.

(** A store of the gate is a claim, or the last. *)
Lemma gate_store k x : h !! k = Some x -> x.(place) = base ->
  x.(content) = GATE_CLAIMED \/ forall j y, h !! j = Some y -> y.(place) = base -> (j <= k)%nat.
Proof.
  intros [Hk _]%lookup_take_Some Hx. pose proof (inv_entries _ _ Hinv i Hi) as He. cbv zeta in He.
  destruct (markets w !! Z.to_nat i) as [market|]; [|by destruct (He k x Hk)].
  destruct He as (_ & _ & [(m & z & Hm & Hz & Hv & _ & Ho) _]).
  destruct (decide (k = m)) as [->|Hkm]; [|left; by apply (Ho k x Hk Hkm)].
  right. intros j y [Hj _]%lookup_take_Some Hy. destruct (decide (j = m)) as [->|Hjm]; [done|].
  destruct (Ho j y Hj Hjm) as [_ Hlt]. specialize (Hlt (or_introl Hy)). lia.
Qed.

(** Whoever meets a gate that is not open knew of no open one. *)
Lemma gate_unknown_from view j : (forall k, last_before h base view.(seen) = Some k ->
    exists j' y, j = Some j' /\ (k <= j')%nat /\ h !! j' = Some y /\ y.(place) = base) ->
  value_at h j = 0 \/ value_at h j = GATE_CLAIMED -> gate_unknown view.
Proof.
  intros Hj Hg. unfold gate_unknown, known. fold base.
  destruct (last_before h base (seen view)) as [k|] eqn:Ek; [|by left].
  destruct (Hj k eq_refl) as (j' & y & -> & Hkj & Hy & Hpy).
  apply last_before_Some in Ek as (_ & (x & Hx & Hpx) & _). rewrite (value_at_Some _ _ _ Hx).
  destruct (gate_store k x Hx Hpx) as [|Hlast]; [by right|].
  assert (j' = k) as -> by (specialize (Hlast j' y Hy Hpy); lia).
  by rewrite (value_at_Some _ _ _ Hx) in Hg.
Qed.

Lemma gate_loaded j g view view' : acquire_load h base j view = Some (g, view') ->
  g = 0 \/ g = GATE_CLAIMED -> gate_unknown view.
Proof.
  unfold acquire_load. destruct (may_read h view base j) eqn:Hm; [|done]. intros [= <- _].
  apply gate_unknown_from. intros k Hk. destruct j as [j|].
  - apply may_read_Some in Hm as (y & Hj & Hy & Hlast). exists j, y. split_and!; [done|by apply Hlast|done..].
  - apply may_read_None in Hm. congruence.
Qed.

Lemma gate_unknown_before view view' : (view.(seen) <= view'.(seen))%nat ->
  gate_unknown view' -> gate_unknown view.
Proof.
  intros Hs. apply gate_unknown_from. intros k Hk.
  destruct (last_before_grows _ _ _ _ _ Hs Hk) as (k' & Hk' & Hle).
  pose proof Hk' as (_ & (y & Hy & Hpy) & _)%last_before_Some. exists k', y. by split_and!.
Qed.

Lemma ensures_published view :
  ensures h (published entry_record ENT_REVISION) (fun g view' =>
    match g with
    | Some _ => exists market, unlocked market view'
    | None => gate_unknown view
    end) view.
Proof.
  unfold published, acquire. apply ensures_bind, ensures_bind.
  unfold entry_record. rewrite (ptr_at base DIRECTORY_ENTRY_BYTES ENT_REVISION 8 eq_refl).
  unfold ENT_REVISION. rewrite Z.add_0_r. apply ensures_ret, ensures_choosing. intros j g view' E.
  split.
  { revert E. unfold acquire_load. destruct (may_read _ _ _ _); [|done]. intros [= _ <-]. simpl. lia. }
  apply ensures_ret. destruct (Z.eqb_spec g 0) as [|H0]; [by apply (gate_loaded j g view view' E); left|].
  destruct (Z.eqb_spec g GATE_CLAIMED) as [|Hcl]; [by apply (gate_loaded j g view view' E); right|]. simpl.
  pose proof (inv_entries _ _ Hinv i Hi) as He. cbv zeta in He.
  destruct (markets w !! Z.to_nat i) as [market|] eqn:Em.
  - destruct He as (Hw & Hlen & Ho). exists market. split_and!; [done..|].
    destruct (once_read _ _ _ _ _ n j view g view' Ho E H0 Hcl) as [_ Hf]. exact Hf.
  - apply (blank_read _ _ _ n j view g view') in He; [done|exact E].
Qed.

Section cells.
Context (market : MarketRef).

Lemma overlay_bytes o bs k b f : bs !! k = Some b ->
  overlay (imap (fun j b => (o + Z.of_nat j, b)) bs) f (o + Z.of_nat k) = b.
Proof.
  revert o k f. induction bs as [|c bs IH]; intros o k f; [done|]. rewrite imap_cons. cbn [overlay fold_left].
  assert (E : imap ((fun j b => (o + Z.of_nat j, b)) ∘ S) bs = imap (fun j b => ((o + 1) + Z.of_nat j, b)) bs)
    by (apply imap_ext; intros j x _; simpl; f_equal; lia).
  rewrite E. destruct k as [|k].
  - intros [= ->]. change (overlay (imap (fun j b => (o + 1 + Z.of_nat j, b)) bs)
      (fun x => if o + Z.of_nat 0 =? x then b else f x) (o + Z.of_nat 0) = b).
    rewrite (overlay_off (fun x => o < x)); [by rewrite Z.eqb_refl| |lia].
    apply Forall_lookup. intros j x Hj. apply list_lookup_imap_Some in Hj as (? & _ & ->). simpl. lia.
  - intros Hk. replace (o + Z.of_nat (S k)) with (o + 1 + Z.of_nat k) by lia. by apply IH.
Qed.

Lemma entry_slot_index : entry_cells_of l i market (base + ENT_SLOT_INDEX) = i.
Proof.
  unfold entry_cells_of. fold base. rewrite overlay_shift. unfold entry_words. rewrite overlay_app.
  rewrite (overlay_off (fun x => ENT_IDENTITY <= x)); [done| |unfold ENT_IDENTITY, ENT_SLOT_INDEX; lia].
  apply Forall_lookup. intros j x Hj. apply list_lookup_imap_Some in Hj as (? & _ & ->). simpl. lia.
Qed.

Lemma entry_identity_length :
  entry_cells_of l i market (base + ENT_IDENTITY_LEN) = len (identity_bytes market).
Proof.
  unfold entry_cells_of. fold base. rewrite overlay_shift. unfold entry_words. rewrite overlay_app.
  rewrite (overlay_off (fun x => ENT_IDENTITY <= x)); [done| |unfold ENT_IDENTITY, ENT_IDENTITY_LEN; lia].
  apply Forall_lookup. intros j x Hj. apply list_lookup_imap_Some in Hj as (? & _ & ->). simpl. lia.
Qed.

Lemma entry_identity_byte k b : identity_bytes market !! k = Some b ->
  entry_cells_of l i market (base + (ENT_IDENTITY + Z.of_nat k)) = b.
Proof.
  intros Hk. unfold entry_cells_of. fold base. rewrite overlay_shift. unfold entry_words.
  rewrite overlay_app. by apply overlay_bytes.
Qed.
End cells.

Definition identity_copy (market : MarketRef) : pcopy bytes :=
  pmap (fun k => Load (base + ENT_IDENTITY + Z.of_nat k) pret)
    (seq 0 (Z.to_nat (len (identity_bytes market)))).

Lemma safe_identity market : len (identity_bytes market) <= IDENTITY_CAPACITY ->
  safe cells (identity_copy market).
Proof.
  intros Hlen. apply safe_pmap. intros k Hk. apply elem_of_seq in Hk.
  split; [|intros v; apply safe_pret].
  unfold cells, record_data. fold base. simpl part_size.
  unfold ENT_IDENTITY, IDENTITY_CAPACITY, DIRECTORY_ENTRY_BYTES in *. lia.
Qed.

Lemma eval_identity market :
  eval_copy (entry_cells_of l i market) (identity_copy market) = Some (identity_bytes market).
Proof.
  apply eval_pmap. apply Forall2_same_length_lookup_2.
  { rewrite length_seq. unfold len. lia. }
  intros k x b Hk Hb. apply lookup_seq in Hk as [-> Hk]. simpl. f_equal.
  rewrite <- Z.add_assoc. by apply entry_identity_byte.
Qed.

Lemma ensures_witness market offset Q view : unlocked market view ->
  word_fits 4 DIRECTORY_ENTRY_BYTES offset = true -> 8 <= offset ->
  (forall view', (view.(seen) <= view'.(seen))%nat ->
    Q (entry_cells_of l i market (base + offset)) view') ->
  ensures h (witness_word32 entry_record offset) Q view.
Proof.
  intros (_ & _ & _ & Hf) Hfit H8 HQ. eapply ensures_copying; [exact Hf|..].
  - apply (safe_word base DIRECTORY_ENTRY_BYTES); [lia|]. unfold word_in. rewrite Hfit. simpl.
    by apply Z.leb_le.
  - intros a view' He. unfold entry_record, load32 in He. rewrite eval_word in He by done.
    injection He as <-. auto.
Qed.

Lemma ensures_identity market Q view : unlocked market view ->
  (forall view', (view.(seen) <= view'.(seen))%nat -> Q (Some (identity_bytes market)) view') ->
  ensures h (read_identity entry_record) Q view.
Proof.
  intros Hu HQ. unfold read_identity. apply ensures_bind.
  eapply ensures_witness; [exact Hu|done|done|]. intros view1 Hs1. rewrite entry_identity_length.
  apply (unlocked_later _ _ _ Hs1) in Hu as (_ & _ & Hlen & Hf). rewrite (proj2 (Z.leb_le _ _) Hlen).
  apply ensures_bind. unfold witness_bytes. cbn [entry_record rec_size rec_base].
  pose proof (len_nonneg (identity_bytes market)).
  rewrite (proj2 (Z.leb_le _ _)) by (unfold IDENTITY_CAPACITY, DIRECTORY_ENTRY_BYTES in *; lia).
  rewrite (proj2 (Z.leb_le _ _)) by (unfold ENT_IDENTITY, IDENTITY_CAPACITY, DIRECTORY_ENTRY_BYTES in *; lia).
  cbn [andb]. eapply ensures_copying; [exact Hf|by apply safe_identity|].
  intros a view2 He Hs2. apply ensures_ret.
  rewrite eval_identity in He. injection He as <-. apply HQ. lia.
Qed.
End entry.
End run.
