(* ===== verification/ShmAnswers.v ===== *)
(** * The answers of a segment's readers

    What each operation of a reader and of a stream may answer, over every run of the writer,
    every point of it a reader may be at, and every behaviour the memory allows. *)

From S2P Require Import Prelude OrdMap Numeric Identity Descriptor Continuity Observation Book ShmCodec ShmCell ShmLayout ShmWriter ShmWriterProps ShmRun ShmInv ShmReader ShmReaderProps ShmReads.

(** What the types of the source grant of the values a run was given. *)
Definition publication_storable (p : Publication) : Prop :=
  match p with
  | StatePublished _ _ book _ _ => book_storable book
  | MutationPublished _ _ _ m _ _ => mutation_storable m
  | ResolutionPublished _ _ _ r _ _ => resolution_storable r
  end.

Definition typed_run (log : list Publication) (w : SegmentWriter) : Prop :=
  writer_trace log w /\ Forall market_text (markets w) /\ Forall publication_storable log.

Section contract.
Context (log : list Publication) (w : SegmentWriter) (Hrun : typed_run log w) (n : nat).
Let l := writer_layout w.
Let h := take n w.(memory).(history).
Let self := reader_of w.

Lemma contract_inv : writer_inv log w.
Proof. destruct Hrun as [H _]. by apply trace_inv. Qed.
Let Hinv := contract_inv.

Lemma market_decoded i market : markets w !! i = Some market -> market_wf market ->
  decode_identity (identity_bytes market) = Some market.
Proof.
  intros Hm Hw. destruct Hrun as (_ & Ht & _). pose proof (Forall_lookup_1 _ _ _ _ Ht Hm) as Hmt.
  rewrite <- (app_nil_r (identity_bytes market)). by apply decode_identity_bytes.
Qed.

Lemma published_at pre x post : log = pre ++ x :: post ->
  publication_ok l (markets w) x /\ publication_storable x.
Proof.
  intros El. destruct Hrun as (_ & _ & Hst). pose proof (inv_log _ _ Hinv) as Hok.
  rewrite El in Hst, Hok. apply Forall_app in Hst as [_ Hst], Hok as [_ Hok].
  by apply Forall_cons_1 in Hst as [? _], Hok as [? _].
Qed.

(** ** What a reader knows of a record *)

Lemma known_mono p view view' : is_record p = true -> part_valid l p ->
  (view.(seen) <= view'.(seen))%nat -> known l h p view <= known l h p view'.
Proof.
  intros Hr Hp Hs. pose proof (counter_not_record_data l p) as Hc.
  pose proof (inv_records _ _ Hinv p Hr Hp) as Hw.
  apply (writer_run_leaves _ _ Hc) in Hw as [Hpub _ _ _ _]. apply (published_take _ _ _ n) in Hpub. fold h in Hpub.
  unfold known. destruct (last_before h (part_base l p) (seen view)) as [k|] eqn:E.
  - destruct (last_before_grows _ _ _ _ _ Hs E) as (k' & E' & Hk). rewrite E'.
    apply last_before_Some in E as (_ & (x & Hx & Hpx) & _), E' as (_ & (y & Hy & Hpy) & _).
    rewrite (value_at_Some _ _ _ Hx), (value_at_Some _ _ _ Hy).
    destruct (decide (k = k')) as [->|]; [rewrite Hx in Hy; injection Hy as ->; lia|].
    pose proof (counter_grows _ _ h k k' x y Hpub Hx Hy Hpx Hpy ltac:(lia)). lia.
  - unfold value_at at 1. simpl. destruct (last_before h (part_base l p) (seen view')) as [k|] eqn:E'; [|done].
    apply last_before_Some in E' as (_ & (y & Hy & Hpy) & _). rewrite (value_at_Some _ _ _ Hy).
    pose proof (counter_bound _ _ h k y Hpub Hy Hpy). lia.
Qed.

(** And it knows no less of a longer history. *)
Lemma known_grows p n1 n2 view : is_record p = true -> part_valid l p -> (n1 <= n2)%nat ->
  known l (take n1 w.(memory).(history)) p view <= known l (take n2 w.(memory).(history)) p view.
Proof.
  intros Hr Hp Hn. pose proof (counter_not_record_data l p) as Hc.
  pose proof (inv_records _ _ Hinv p Hr Hp) as Hw.
  apply (writer_run_leaves _ _ Hc) in Hw as [Hpub _ _ _ _]. apply (published_take _ _ _ n2) in Hpub.
  set (h2 := take n2 (history (memory w))) in *.
  assert (E1 : take n1 (history (memory w)) = take n1 h2) by (subst h2; by rewrite take_take, Nat.min_l).
  rewrite E1. unfold known.
  assert (Hb : forall k, last_before (take n1 h2) (part_base l p) (seen view) = Some k ->
    last_before h2 (part_base l p) (Nat.min (seen view) n1) = Some k)
    by (intros k; unfold last_before; by rewrite take_take).
  destruct (last_before (take n1 h2) (part_base l p) (seen view)) as [k|] eqn:E.
  - destruct (last_before_grows (part_base l p) h2 k (Nat.min (seen view) n1) (seen view) ltac:(lia) (Hb k eq_refl)) as (k' & E' & Hk). rewrite E'.
    apply last_before_Some in E as (_ & (x & Hx & Hpx) & _), E' as (_ & (y & Hy & Hpy) & _).
    rewrite (value_at_Some _ _ _ Hx), (value_at_Some _ _ _ Hy). apply lookup_take_Some in Hx as [Hx _].
    destruct (decide (k = k')) as [->|]; [rewrite Hx in Hy; injection Hy as ->; lia|].
    pose proof (counter_grows _ _ h2 k k' x y Hpub Hx Hy Hpx Hpy ltac:(lia)). lia.
  - unfold value_at at 1. simpl. destruct (last_before h2 (part_base l p) (seen view)) as [k|] eqn:E'; [|done].
    apply last_before_Some in E' as (_ & (y & Hy & Hpy) & _). rewrite (value_at_Some _ _ _ Hy).
    pose proof (counter_bound _ _ h2 k y Hpub Hy Hpy). lia.
Qed.

(** A record unpublished to a reader was unpublished to it before. *)
Lemma unpublished_before p view view' : is_record p = true -> part_valid l p ->
  (view.(seen) <= view'.(seen))%nat -> known l h p view' = 0 -> known l h p view = 0.
Proof.
  intros Hr Hp Hs Hk. pose proof (known_mono p view view' Hr Hp Hs).
  assert (known l h p fresh_view <= known l h p view) by (apply known_mono; simpl; done || lia).
  assert (known l h p fresh_view = 0) by done. lia.
Qed.

(** Attempts lost to a reader that knew more are lost to it as well. *)
Lemma lost_before p attempts view view' f : is_record p = true -> part_valid l p ->
  (view.(seen) <= view'.(seen))%nat -> lost_reads w n p attempts view' f -> lost_reads w n p attempts view f.
Proof.
  intros Hr Hp Hs (lost & Hlen & Hf & Hto). exists lost. split_and!; [done..|].
  eapply Forall_impl; [exact Hto|]. intros a. apply lost_to_lower. by apply known_mono.
Qed.

(** ** Behind a handle *)

(** Why a handle leads to no slot. *)
Definition slot_refused (handle : MarketHandle) (view : View) (e : ReadFault) : Prop :=
  match e with
  | ForeignSegment => handle.(segment) <> w.(binding)
  | ReadSegment fault => fault = GeometryUnreachable /\ l.(directory_capacity) <= handle.(entry_index)
  | EntryUnpublished => 0 <= handle.(entry_index) < l.(directory_capacity) /\
      gate_unknown w n handle.(entry_index) view
  | HandleStale => handle.(state_slot_index) <> handle.(entry_index)
  | _ => False
  end.

Lemma unlocked_index k market view : 0 <= k -> unlocked w n k market view ->
  0 <= k < len (markets w) /\ markets w !! Z.to_nat k = Some market.
Proof.
  intros Hk (Hm & _). split; [|done]. apply lookup_lt_Some in Hm. unfold len. lia.
Qed.

Section handle.
Context (handle : MarketHandle) (H0 : 0 <= handle.(entry_index)).
Let i := handle.(entry_index).

Lemma directory_at :
  directory_record w.(region).(size_bytes) l i
  = if l.(directory_capacity) <=? i then Err GeometryUnreachable else Ok (entry_record w i).
Proof.
  destruct (Z.leb_spec l.(directory_capacity) i) as [Hi|Hi].
  - unfold directory_record. by rewrite (proj2 (Z.leb_le _ _) Hi).
  - apply entry_at; [by apply (run_placed log)|]. split; [exact H0|exact Hi].
Qed.

Lemma ensures_state_slot view : ensures h (state_slot self handle) (fun r view' =>
    match r with
    | Ok (entry, slot) => handle.(segment) = w.(binding) /\ 0 <= i < len (markets w) /\
        handle.(state_slot_index) = i /\ entry = entry_record w i /\ slot = part_cells w (SlotPart i) /\
        exists market, unlocked w n i market view'
    | Err e => slot_refused handle view e
    end) view.
Proof.
  unfold state_slot. apply ensures_deny; intros Eb.
  { apply negb_true_iff, bool_decide_eq_false in Eb. exact Eb. }
  apply negb_false_iff, bool_decide_eq_true in Eb. simpl in Eb.
  apply ensures_lift; cbn [reader_size reader_of self].
  2:{ intros e. change (reader_layout self) with l. fold i. rewrite directory_at.
      destruct (Z.leb_spec l.(directory_capacity) i) as [Hi|Hi]; [|done]. by intros [= <-]. }
  intros entry. change (reader_layout self) with l. fold i. rewrite directory_at.
  destruct (Z.leb_spec l.(directory_capacity) i) as [Hi|Hi]; [done|]. intros [= <-].
  apply ensures_bind. eapply ensures_mono; [apply (ensures_published log w Hinv n i); split; [exact H0|exact Hi]|].
  intros g view1 _ Hg. destruct g as [g|]; [|apply ensures_lift; [done|by intros e [= <-]]].
  apply ensures_lift; [intros ? [= <-]|done]. destruct Hg as [market Hu].
  destruct (unlocked_index i market view1 H0 Hu) as [Him Hmk].
  assert (Hn : i < NO_STATE_SLOT).
  { pose proof (run_layout log w Hinv) as [_ Hs _ _ _ _ _ _]. pose proof (slot_valid log w Hinv i Him) as Hv.
    simpl in Hv. unfold NO_STATE_SLOT, U32_MAX, MAX_STATE_SLOT_CAPACITY in *. lia. }
  pose proof (slot_valid log w Hinv i Him) as Hv. simpl in Hv.
  apply ensures_bind. eapply (ensures_witness w n i market); [exact Hu|done|done|]. intros view2 Hs2.
  rewrite (entry_slot_index w i market).
  apply ensures_deny; intros E; [apply Z.eqb_eq in E; lia|].
  apply ensures_deny; intros E2; [apply negb_true_iff, Z.eqb_neq in E2; simpl; intros E3; apply E2; by rewrite E3|].
  apply ensures_deny; intros E3; [apply Z.leb_le in E3; unfold l in *; lia|].
  assert (Esl : state_slot_record (size_bytes (region w)) l i = Ok (part_cells w (SlotPart i)))
    by (apply slot_at; [by apply (run_placed log)|exact Hv]).
  rewrite Esl. apply ensures_lift; [intros ? [= <-]|done].
  apply negb_false_iff, Z.eqb_eq in E2.
  apply ensures_ret. split_and!; [done|lia|lia|done|done|done|]. exists market.
  by eapply unlocked_later.
Qed.

(** *** Snapshots and cursors *)

(** The state a read answers with: one that was published here, no older than any the
    reader knew of, and known of from then on. *)
Definition answers_state (view view' : View) (P : PublishedBook -> Z -> Z -> Prop) : Prop :=
  exists pre position book commit_time arrival_time post,
    log = pre ++ StatePublished i position book commit_time arrival_time :: post /\
    (let p := SlotPart i in
     known l h p view <= 2 * (len (into l p pre) + 1) <= known l h p view') /\
    P book commit_time arrival_time.

(** The faults a read of the slot may answer with. *)
Definition slot_fault (view : View) (e : ReadFault) : Prop :=
  match e with
  | NoPublishedState => known l h (SlotPart i) view = 0
  | ReadWriterStalled v => v mod 2 = 1 /\ v <= 2 * len (into l (SlotPart i) log) /\
      lost_reads w n (SlotPart i) MAX_READ_ATTEMPTS view (WriterStalled v)
  | ReadContended attempts =>
      lost_reads w n (SlotPart i) MAX_READ_ATTEMPTS view (Contended attempts)
  | e => slot_refused handle view e
  end.

(** A fault that holds to a reader holds to one that knew less. *)
Lemma slot_fault_before view view' e : 0 <= i < len (markets w) ->
  (view.(seen) <= view'.(seen))%nat -> slot_fault view' e -> slot_fault view e.
Proof.
  intros Hi Hs. pose proof (slot_valid log w Hinv i Hi) as Hv. destruct e; try done; simpl.
  - intros [? ?]. split; [done|]. by apply (gate_unknown_before log w Hinv n _ ltac:(done) view view').
  - by apply (unpublished_before (SlotPart i) view view').
  - intros (? & ? & Hl). split_and!; [done..|]. by apply (lost_before (SlotPart i) _ view view').
  - by apply (lost_before (SlotPart i) _ view view').
Qed.

(** What a seqlocked read of the slot faults with is a fault of the slot. *)
Lemma answered_fault {A} (c : pcopy A) view view' e :
  answered log w n (SlotPart i) c view (Err e) view' -> slot_fault view e.
Proof. by destruct e. Qed.

Lemma answers_earlier view0 view view' P : 0 <= i < len (markets w) ->
  (view0.(seen) <= view.(seen))%nat -> answers_state view view' P -> answers_state view0 view' P.
Proof.
  intros Hi Hs (pre & position & book & ct & at_ & post & El & Hk & HP).
  exists pre, position, book, ct, at_, post. split_and!; [done| |done].
  pose proof (known_mono (SlotPart i) view0 view eq_refl (slot_valid log w Hinv i Hi) Hs). cbv zeta in *. lia.
Qed.

Lemma read_answers view : ensures h (read self handle) (fun r view' =>
    match r with
    | Ok snapshot => 0 <= i < len (markets w) /\ handle.(segment) = w.(binding) /\
        handle.(state_slot_index) = i /\
        answers_state view view' (fun book commit_time arrival_time =>
          snapshot = snapshot_of book commit_time arrival_time)
    | Err e => slot_fault view e
    end) view.
Proof.
  unfold read. apply ensures_try. eapply ensures_mono; [apply ensures_state_slot|].
  intros [[entry slot]|e] view1 Hs1; [|by destruct e].
  intros (Hseg & Hi & Hsi & -> & -> & market & Hu).
  destruct (unlocked_index i market view1 H0 Hu) as [_ Hm].
  assert (Hv : 0 <= i < l.(directory_capacity)) by (pose proof (run_count log w Hinv) as Hc; fold l in Hc; lia).
  apply ensures_bind. eapply (ensures_identity w n i); [exact Hu|]. intros view2 Hs2.
  apply ensures_lift; [|done]. intros identity [= <-].
  destruct Hu as (_ & Hw & _). rewrite (market_decoded _ _ Hm Hw).
  apply ensures_lift; [|done]. intros market' [= <-].
  apply ensures_try. eapply ensures_mono;
    [apply (ensures_seqlocked log w Hinv n (SlotPart i)); [done|by apply (slot_valid log)|
      by apply (safe_slot_words log)]|].
  intros [[words|]|e] view3 Hs3 Ha.
  - apply (slot_answer log w Hinv n i Hi) in Ha as (pre & position & book & ct & at_ & post & staged & El & Hst & Hk & ->).
    apply ensures_lift; [|done]. intros words [= <-].
    apply ensures_deny; [simpl; by rewrite Z.eqb_refl|]. intros _.
    apply ensures_deny. { intros E%Z.ltb_lt. pose proof (stage_fits _ _ _ Hst) as [_ ?].
      unfold staged_words in E. cbn [sw_level_count] in E. change (reader_layout self) with l in E. unfold l in E. lia. }
    intros _. destruct (published_at pre _ post El) as [(_ & _ & _ & Hm') Hstor].
    simpl in Hm'. rewrite Hm in Hm'. injection Hm' as ->.
    rewrite (decode_staged _ _ _ i ct at_ Hstor Hst).
    apply ensures_ret. split_and!; [lia|lia|done|done|].
    apply (answers_earlier view view2); [done|lia|]. exists pre, position, book, ct, at_, post.
    split_and!; [done|exact Hk|done].
  - apply ensures_lift; [done|]. intros e [= <-]. simpl in *.
    apply (unpublished_before (SlotPart i) view view2 eq_refl (slot_valid log w Hinv i Hi)); [lia|done].
  - apply (slot_fault_before view view2); [lia|lia|]. by eapply answered_fault.
Qed.

(** The loads of a read that gave up: those of the entry, then those of its attempts. *)
Definition gave_up (view : View) (loads : list (option nat)) (f : SeqlockFault) (view' : View) : Prop :=
  let p := SlotPart i in
  exists before attempts view1, loads = before ++ attempts /\ (view.(seen) <= view1.(seen))%nat /\
    lost_evidence h (part_base l p) (read_words (part_cells w p) l.(level_capacity))
      MAX_READ_ATTEMPTS (known l h p view1) f attempts view1 view'.

Lemma read_loads view : ensures_run h (read self handle) (fun loads r view' =>
    forall f, r = Err (contention f) -> gave_up view loads f view') view.
Proof.
  unfold read. apply ensures_run_try.
  eapply ensures_run_mono; [apply ensures_run_of; [unfold state_slot; consumed|apply ensures_state_slot]|].
  intros before [[entry slot]|e] view1 Hs1; [|intros He f [= ->]; by destruct f].
  intros (_ & Hi & _ & -> & -> & market & Hu).
  destruct (unlocked_index i market view1 H0 Hu) as [_ Hm].
  assert (Hv : 0 <= i < l.(directory_capacity)) by (pose proof (run_count log w Hinv) as Hc; fold l in Hc; lia).
  apply ensures_run_bind. eapply ensures_run_mono.
  { apply ensures_run_of; [consumed|]. apply (ensures_identity w n i market
      (fun o _ => o = Some (identity_bytes market)) view1 Hu). done. }
  intros more o view2 Hs2 ->. apply ensures_run_lift; [|done]. intros identity [= <-].
  destruct Hu as (_ & Hw & _). rewrite (market_decoded _ _ Hm Hw).
  apply ensures_run_lift; [|done]. intros market' [= <-]. apply ensures_run_try.
  eapply ensures_run_mono; [apply (seqlocked_loads log w Hinv n (SlotPart i)); [done|
    by apply (slot_valid log)|by apply (safe_slot_words log)]|].
  intros attempts [words|e] view3 _ [_ Ha].
  - apply ensures_run_lift; [|intros e He f [= ->]; destruct words, f; simpl in He; congruence]. intros words' _.
    apply ensures_run_deny; [intros _ f; by destruct f|]. intros _.
    apply ensures_run_deny; [intros _ f; by destruct f|]. intros _.
    apply ensures_run_ret. intros f. destruct (decode _ _), f; done.
  - intros f [= ->]. exists (before ++ more), attempts, view2. split_and!; [by rewrite app_assoc|lia|].
    by apply Ha.
Qed.

Lemma staged_cursor book staged : stage l book = Ok staged ->
  staged.(st_book_revision) = book.(published_revision) /\
  continuity staged.(st_continuity_kind) staged.(st_continuity_reason)
    staged.(st_continuity_epoch) staged.(st_continuity_position) = Some book.(published_continuity).
Proof.
  unfold stage. destruct (_ <? _); [done|]. destruct (authority_words _) as [??].
  destruct (continuity_words (published_continuity book)) as [[[ck cr] ce] cp] eqn:Ec.
  assert (Eco : continuity ck cr ce cp = Some (published_continuity book))
    by exact (decode_encoded (enc := fun c => Some (continuity_words c))
      (dec := fun w => continuity w.1.1.1 w.1.1.2 w.1.2 w.2) _ (ck, cr, ce, cp) (f_equal Some Ec)).
  destruct (published_provenance book) as [p|].
  - destruct (pack_family _) as [[??]|]; [|done]. destruct (origin_words _) as [??].
    by intros [= <-].
  - by intros [= <-].
Qed.

Lemma read_cursor_answers view : ensures h (read_cursor self handle) (fun r view' =>
    match r with
    | Ok state => 0 <= i < len (markets w) /\ handle.(segment) = w.(binding) /\
        answers_state view view' (fun book _ _ =>
          state = {| sc_revision := book.(published_revision);
                     sc_continuity := book.(published_continuity) |})
    | Err e => slot_fault view e
    end) view.
Proof.
  unfold read_cursor. apply ensures_try. eapply ensures_mono; [apply ensures_state_slot|].
  intros [[entry slot]|e] view1 Hs1; [|by destruct e].
  intros (Hseg & Hi & _ & -> & -> & _).
  apply ensures_try. eapply ensures_mono;
    [apply (ensures_seqlocked log w Hinv n (SlotPart i)); [done|by apply (slot_valid log)|
      by apply (safe_slot_cursor log)]|].
  intros [[words|]|e] view2 Hs2 Ha; [| |apply (slot_fault_before view view1); [lia|lia|by eapply answered_fault]].
  - apply (cursor_answer log w Hinv n i Hi) in Ha as (pre & position & book & ct & at_ & post & staged & El & Hst & Hk & ->).
    apply ensures_lift; [|done]. intros words [= <-]. cbn [cw_directory_index cw_book_revision
      cw_continuity_kind cw_continuity_reason cw_continuity_epoch cw_continuity_position].
    apply ensures_deny; [fold i; by rewrite Z.eqb_refl|]. intros _.
    destruct (staged_cursor book staged Hst) as [Er Ec]. rewrite Ec, Er.
    apply ensures_lift; [|done]. intros c [= <-]. apply ensures_ret. split_and!; [lia|lia|done|].
    apply (answers_earlier view view1); [done|lia|]. exists pre, position, book, ct, at_, post.
    split_and!; [done|exact Hk|done].
  - apply ensures_lift; [done|]. intros e [= <-]. simpl in *.
    by apply (unpublished_before (SlotPart i) view view1 eq_refl (slot_valid log w Hinv i Hi)).
Qed.

(** *** Events *)

Definition event_fault (position : Z) (view : View) (e : ReadFault) : Prop :=
  match e with
  | ReadWriterStalled v => v mod 2 = 1 /\ v <= 2 * len (into l (EventPart i position) log) /\
      lost_reads w n (EventPart i position) MAX_READ_ATTEMPTS view (WriterStalled v)
  | ReadContended attempts =>
      lost_reads w n (EventPart i position) MAX_READ_ATTEMPTS view (Contended attempts)
  | ForeignSegment => handle.(segment) <> w.(binding)
  | ReadSegment fault => fault = GeometryUnreachable /\ l.(directory_capacity) <= i
  | _ => False
  end.

Lemma event_fault_before position view view' e : part_valid l (EventPart i position) ->
  (view.(seen) <= view'.(seen))%nat -> event_fault position view' e -> event_fault position view e.
Proof.
  intros Hv Hs. destruct e; try done; simpl.
  - intros (? & ? & Hl). split_and!; [done..|]. by apply (lost_before (EventPart i position) _ view view').
  - by apply (lost_before (EventPart i position) _ view view').
Qed.

Lemma answered_event_fault {A} position (c : pcopy A) view view' e :
  answered log w n (EventPart i position) c view (Err e) view' -> event_fault position view e.
Proof. by destruct e. Qed.

Lemma event_slot_answers position view : 0 <= position <= U64_MAX ->
  ensures h (event_slot self handle position) (fun r view' =>
    match r with
    | Ok slot => part_valid l (EventPart i position) /\ slot = part_cells w (EventPart i position)
    | Err e => event_fault position view e
    end) view.
Proof.
  intros Hp. unfold event_slot. apply ensures_deny; intros Eb.
  { apply negb_true_iff, bool_decide_eq_false in Eb. exact Eb. }
  change (reader_layout self) with l. fold i. apply ensures_ret.
  destruct (Z.leb_spec l.(directory_capacity) i) as [Hi|Hi].
  - unfold event_slot_record. rewrite (proj2 (Z.leb_le _ _) Hi). by simpl.
  - assert (Hv : part_valid l (EventPart i position)) by (split; [split; [exact H0|exact Hi]|exact Hp]).
    assert (E : event_slot_record (size_bytes (region w)) l i position = Ok (part_cells w (EventPart i position)))
      by (apply event_at; [by apply (run_placed log)|exact Hv]).
    cbn [reader_size reader_of self]. rewrite E. by split.
Qed.

Lemma event_words_answers cursor view : 0 <= cursor.(cursor_position) <= U64_MAX ->
  ensures h (event_words self handle cursor) (fun r view' =>
    match r with
    | Ok (Some words) => exists x, event_behind log w n i cursor.(cursor_position) view view' x /\
        published_words x = Some words
    | Ok None => known l h (EventPart i cursor.(cursor_position)) view = 0
    | Err e => event_fault cursor.(cursor_position) view e
    end) view.
Proof.
  intros Hp. unfold event_words. apply ensures_try.
  eapply ensures_mono; [by apply event_slot_answers|]. intros [slot|e] view1 Hs1; [|done].
  intros [Hv ->]. eapply ensures_mono;
    [apply (ensures_seqlocked log w Hinv n (EventPart i cursor.(cursor_position))); [done|done|apply safe_read_event]|].
  intros [[words|]|e] view2 Hs2 Ha;
    [| |by apply (event_fault_before _ view view1); [..|by eapply answered_event_fault]].
  - apply (event_answer log w n i) in Ha as (x & (pre & post & El & Hidx & Hk) & Hw).
    exists x. split; [|done]. exists pre, post. split_and!; [done|done|].
    pose proof (known_mono (EventPart i cursor.(cursor_position)) view view1 eq_refl Hv Hs1). cbv zeta in *. unfold l, h in *. lia.
  - simpl in Ha. by apply (unpublished_before (EventPart i cursor.(cursor_position)) view view1).
Qed.
End handle.

(** ** Streams *)

Lemma published_words_cursor x words : published_words x = Some words ->
  publication_cursor x = Some {| cursor_epoch := words.(shared).(ew_cursor_epoch);
                                 cursor_position := words.(shared).(ew_cursor_position) |} /\
  words.(shared).(ew_directory_index) = publication_index x.
Proof.
  destruct x as [|index revision [e p] m ct at_|index revision [e p] r ct at_]; simpl; [done|..].
  - destruct (stage_mutation m) as [staged|]; [|done]. by intros [= <-].
  - destruct (stage_resolution r) as [staged|]; [|done]. by intros [= <-].
Qed.

Lemma published_words_decoded x words market cursor : publication_ok l (markets w) x ->
  publication_storable x -> markets w !! Z.to_nat (publication_index x) = Some market ->
  published_words x = Some words -> publication_cursor x = Some cursor ->
  exists e, published_event x = Some e /\ decode_event market cursor words = Some e.
Proof.
  intros [_ Hok] Hst Hm. destruct x as [|index revision c m ct at_|index revision c r ct at_]; [done|..];
    cbn [published_words publication_cursor publication_storable publication_index] in *;
    destruct Hok as (_ & _ & Hm'); rewrite Hm in Hm'; injection Hm' as ->.
  - destruct (stage_mutation m) as [staged|] eqn:Es; [|done]. intros [= <-] [= <-].
    by apply decode_staged_mutation.
  - destruct (stage_resolution r) as [staged|] eqn:Es; [|done]. intros [= <-] [= <-].
    by apply decode_staged_resolution.
Qed.

(** A stream of this segment. *)
Definition stream_attached (stream : EventStream) : Prop :=
  let handle := stream.(stream_handle) in
  0 <= handle.(entry_index) /\ 0 <= stream.(stream_cursor).(cursor_position) <= U64_MAX /\
  markets w !! Z.to_nat handle.(entry_index) = Some stream.(stream_market).

(** Why a stream may report that it lost its continuity. *)
Inductive loss_cause (stream : EventStream) : ContinuityReason -> Prop :=
| cause_epoch position book commit_time arrival_time :
    StatePublished stream.(stream_handle).(entry_index) position book commit_time arrival_time ∈ log ->
    epoch_of book.(published_continuity) <> stream.(stream_cursor).(cursor_epoch) ->
    loss_cause stream RecoveryBase
| cause_state position book commit_time arrival_time reason :
    StatePublished stream.(stream_handle).(entry_index) position book commit_time arrival_time ∈ log ->
    book.(published_continuity) = Lost stream.(stream_cursor).(cursor_epoch) reason ->
    loss_cause stream reason
| cause_recovered x cursor : x ∈ log ->
    publication_index x = stream.(stream_handle).(entry_index) ->
    publication_cursor x = Some cursor ->
    stream.(stream_cursor).(cursor_epoch) < cursor.(cursor_epoch) -> loss_cause stream RecoveryBase
| cause_overrun x cursor : x ∈ log ->
    publication_index x = stream.(stream_handle).(entry_index) ->
    publication_cursor x = Some cursor ->
    cursor.(cursor_epoch) = stream.(stream_cursor).(cursor_epoch) ->
    stream.(stream_cursor).(cursor_position) < cursor.(cursor_position) -> loss_cause stream Overrun
| cause_exhausted : stream.(stream_cursor).(cursor_position) = U64_MAX -> loss_cause stream LocalLoss.

Definition lost_stream (reason : ContinuityReason) (stream : EventStream) : EventStream :=
  {| stream_handle := stream.(stream_handle); stream_market := stream.(stream_market);
     stream_cursor := stream.(stream_cursor); stream_lost := Some reason |}.

(** The event a stream delivers: published for its market at its very cursor. *)
Definition delivers (stream : EventStream) (view view' : View) (event : RetainedEvent) : Prop :=
  exists x, event_behind log w n stream.(stream_handle).(entry_index)
    stream.(stream_cursor).(cursor_position) view view' x /\
  publication_cursor x = Some stream.(stream_cursor) /\ published_event x = Some event.

Definition stream_fault (stream : EventStream) (view : View) (e : ReadFault) : Prop :=
  slot_fault stream.(stream_handle) view e \/
  exists view', event_fault stream.(stream_handle) stream.(stream_cursor).(cursor_position) view' e.

Definition poll_promise (stream : EventStream) (view : View)
    (r : result EventPoll StreamFault * EventStream) (view' : View) : Prop :=
  match stream.(stream_lost) with
  | Some reason => r = (Err (StreamContinuityLost reason), stream)
  | None =>
      match r with
      | (Ok (Delivered event), stream') => delivers stream view view' event /\
          let c := stream.(stream_cursor) in
          c.(cursor_position) < U64_MAX /\
          stream' = advance_to {| cursor_epoch := c.(cursor_epoch);
                                  cursor_position := c.(cursor_position) + 1 |} stream
      | (Ok Idle, stream') => stream' = stream
      | (Err (StreamContinuityLost reason), stream') =>
          stream' = lost_stream reason stream /\ loss_cause stream reason
      | (Err (StreamRead e), stream') => stream' = stream /\ stream_fault stream view e
      end
  end.

Lemma behind_in e k view view' x : event_behind log w n e k view view' x -> x ∈ log.
Proof. intros (pre & post & El & _). rewrite El. apply elem_of_app. right. left. Qed.

Lemma answers_in handle view view' P : answers_state handle view view' P ->
  exists position book commit_time arrival_time,
    StatePublished handle.(entry_index) position book commit_time arrival_time ∈ log /\ P book commit_time arrival_time.
Proof.
  intros (pre & position & book & ct & at_ & post & El & _ & HP). exists position, book, ct, at_.
  split; [|done]. rewrite El. apply elem_of_app. right. left.
Qed.

Lemma attached_valid stream : stream_attached stream ->
  let i := stream.(stream_handle).(entry_index) in
  part_valid l (SlotPart i) /\ part_valid l (EventPart i stream.(stream_cursor).(cursor_position)).
Proof.
  intros (H0 & Hp & Hm). apply lookup_lt_Some in Hm.
  assert (Hi : 0 <= stream.(stream_handle).(entry_index) < len (markets w)) by (unfold len; lia).
  split; [by apply (slot_valid log)|]. pose proof (run_count log w Hinv) as Hc. split; [|done].
  unfold l. lia.
Qed.

Lemma poll_promise_later stream view0 view r view' : stream_attached stream ->
  (view0.(seen) <= view.(seen))%nat -> poll_promise stream view r view' ->
  poll_promise stream view0 r view'.
Proof.
  intros Hat Hs. destruct (attached_valid stream Hat) as [Hslot Hring]. unfold poll_promise.
  destruct (stream_lost stream); [done|]. destruct r as [[[event|]|[reason|e]] stream']; try done.
  - intros ((x & (pre & post & El & Hi & Hk) & Hx) & Hst). split; [|done]. exists x. split; [|done].
    exists pre, post. split_and!; [done|done|].
    pose proof (known_mono (EventPart stream.(stream_handle).(entry_index)
      stream.(stream_cursor).(cursor_position)) view0 view eq_refl Hring Hs).
    cbv zeta in *. unfold l, h in *. lia.
  - intros [-> He]. split; [done|]. destruct He as [He|He]; [left|by right].
    apply (slot_fault_before _ view0 view); [|done..]. destruct Hat as (H0 & _ & Hm).
    apply lookup_lt_Some in Hm. unfold len. lia.
Qed.

Lemma ensures_lose {A} (reason : ContinuityReason) stream (Q : result A StreamFault * EventStream -> View -> Prop) view :
  Q (Err (StreamContinuityLost reason), lost_stream reason stream) view ->
  ensures h (lose reason stream) Q view.
Proof. intros H. by apply ensures_ret. Qed.

Lemma poll_ring_answers stream view : stream_attached stream -> stream.(stream_lost) = None ->
  ensures h (poll_ring self stream) (poll_promise stream view) view.
Proof.
  intros (H0 & Hp & Hm) Hl. unfold poll_ring. apply ensures_bind.
  eapply ensures_mono; [by apply event_words_answers|].
  intros [[words|]|e] view1 _ Ha; unfold poll_promise; rewrite Hl;
    [|by apply ensures_ret|apply ensures_ret; split; [done|right; by exists view]].
  destruct Ha as (x & Hx & Hw). pose proof (published_words_cursor x words Hw) as [Hc Hd].
  pose proof (behind_in _ _ _ _ _ Hx) as Hin. pose proof Hx as (pre & post & El & Hidx & _).
  set (stored := {| cursor_epoch := ew_cursor_epoch (shared words); cursor_position := _ |}) in *.
  destruct (Z.ltb_spec (cursor_epoch (stream_cursor stream)) (cursor_epoch stored)) as [He|He].
  { apply ensures_lose. split; [done|]. by apply (cause_recovered stream x stored). }
  unfold later. destruct (Z.ltb_spec (cursor_epoch (stream_cursor stream)) (cursor_epoch stored)) as [He'|_]; [lia|].
  cbn [orb]. destruct (Z.eqb_spec (cursor_epoch stored) (cursor_epoch (stream_cursor stream))) as [Ee|Ee];
    destruct (Z.ltb_spec (cursor_position (stream_cursor stream)) (cursor_position stored)) as [Ep|Ep]; cbn [andb].
  { apply ensures_lose. split; [done|]. by apply (cause_overrun stream x stored). }
  all: case_bool_decide as Es; cbn [negb]; [|by apply ensures_ret].
  all: rewrite Hd, Hidx, Z.eqb_refl; cbn [negb]; rewrite Es.
  all: destruct (published_at pre x post El) as [Hok Hst].
  all: rewrite <- Hidx in Hm; destruct (published_words_decoded x words _ _ Hok Hst Hm Hw Hc) as (event & Hev & Hdec).
  all: rewrite Es in Hc, Hdec; rewrite Hdec.
  all: unfold checked_add_u64; destruct (checked 0 U64_MAX _) as [next|] eqn:Ek.
  all: try (apply checked_Some in Ek as [<- ?]; apply ensures_ret; split_and!; [by exists x|lia|done]).
  all: apply checked_None in Ek; apply ensures_lose; split; [done|]; apply cause_exhausted; lia.
Qed.

Lemma poll_answers stream view : stream_attached stream ->
  ensures h (poll self stream) (poll_promise stream view) view.
Proof.
  intros Hat. unfold poll. destruct (stream_lost stream) as [reason|] eqn:Hl.
  { apply ensures_ret. unfold poll_promise. by rewrite Hl. }
  pose proof Hat as (H0 & _). apply ensures_bind.
  eapply ensures_mono; [by apply read_cursor_answers|].
  intros [state|e] view1 Hs1 Ha; cycle 1.
  { apply ensures_ret. unfold poll_promise. rewrite Hl. split; [done|by left]. }
  destruct Ha as (Hi & _ & Ha). apply answers_in in Ha as (position & book & ct & at_ & Hin & ->).
  cbn [sc_continuity]. destruct (published_continuity book) as [epoch next|epoch reason] eqn:Ec.
  - destruct (Z.eqb_spec epoch (cursor_epoch (stream_cursor stream))) as [Ee|Ee]; cbn [negb].
    + eapply ensures_mono; [by apply poll_ring_answers|]. intros r view2 _. by apply poll_promise_later.
    + apply ensures_lose. unfold poll_promise. rewrite Hl. split; [done|].
      apply (cause_epoch stream position book ct at_); [done|]. by rewrite Ec.
  - destruct (Z.eqb_spec epoch (cursor_epoch (stream_cursor stream))) as [Ee|Ee];
      apply ensures_lose; unfold poll_promise; rewrite Hl; (split; [done|]).
    + apply (cause_state stream position book ct at_); [done|]. by rewrite Ec, Ee.
    + apply (cause_epoch stream position book ct at_); [done|]. by rewrite Ec.
Qed.

(** *** Attaching *)

(** An attachment faults as a read of the slot or of the ring does, or because at every
    attempt the ring had moved past the book it had read. *)
Definition attach_fault (handle : MarketHandle) (view : View) (e : ReadFault) : Prop :=
  slot_fault handle view e \/
  (exists position, event_fault handle position view e) \/
  e = ReadContended MAX_READ_ATTEMPTS.

(** Where a stream starts after a book. *)
Definition start_after (book : PublishedBook) : StreamStart :=
  match book.(published_continuity) with
  | Lost _ reason => StartLost reason
  | Intact epoch next => StartAt {| cursor_epoch := epoch; cursor_position := next |}
  end.

Definition attach_promise (handle : MarketHandle) (view : View)
    (r : result (BookSnapshot * StreamStart) ReadFault) (view' : View) : Prop :=
  match r with
  | Ok (snapshot, start) =>
      0 <= handle.(entry_index) < len (markets w) /\
      answers_state handle view view' (fun book commit_time arrival_time =>
        snapshot = snapshot_of book commit_time arrival_time /\ start = start_after book)
  | Err e => attach_fault handle view e
  end.

Lemma event_cursor_answers handle cursor view0 view : 0 <= handle.(entry_index) < len (markets w) ->
  0 <= cursor.(cursor_position) <= U64_MAX -> (view0.(seen) <= view.(seen))%nat ->
  ensures h (event_cursor self handle cursor) (fun r _ =>
    match r with Ok _ => True | Err e => attach_fault handle view0 e end) view.
Proof.
  intros Hi Hp Hs. unfold event_cursor. apply ensures_try.
  eapply ensures_mono; [apply event_slot_answers; [lia|done]|].
  pose proof (run_count log w Hinv) as Hc.
  assert (Hv : part_valid l (EventPart handle.(entry_index) cursor.(cursor_position)))
    by (split; [unfold l; lia|exact Hp]).
  assert (Hev : forall view1 e, (view0.(seen) <= view1.(seen))%nat ->
    event_fault handle cursor.(cursor_position) view1 e -> attach_fault handle view0 e)
    by (intros view1 e Hs1 He; right; left; eexists; by eapply event_fault_before).
  intros [slot|e] view1 Hs1; [|by apply Hev].
  intros [_ ->]. eapply ensures_mono;
    [apply (ensures_seqlocked log w Hinv n (EventPart handle.(entry_index) cursor.(cursor_position)));
      [done|done|apply safe_read_event_cursor]|].
  intros [words|e] view2 _ Ha; [done|]. apply (Hev view1); [lia|]. by eapply answered_event_fault.
Qed.

Lemma answers_widen handle v0 v v' v1 (P Q : PublishedBook -> Z -> Z -> Prop) :
  0 <= handle.(entry_index) < len (markets w) ->
  (v0.(seen) <= v.(seen))%nat -> (v'.(seen) <= v1.(seen))%nat ->
  (forall position book ct at_, StatePublished handle.(entry_index) position book ct at_ ∈ log ->
    P book ct at_ -> Q book ct at_) ->
  answers_state handle v v' P -> answers_state handle v0 v1 Q.
Proof.
  intros Hi Hs Hs' HPQ (pre & position & book & ct & at_ & post & El & Hk & HP).
  exists pre, position, book, ct, at_, post. split_and!; [done| |].
  - pose proof (slot_valid log w Hinv _ Hi) as Hv.
    pose proof (known_mono (SlotPart handle.(entry_index)) v0 v eq_refl Hv Hs).
    pose proof (known_mono (SlotPart handle.(entry_index)) v' v1 eq_refl Hv Hs'). cbv zeta in *. lia.
  - apply (HPQ position); [|done]. rewrite El. apply elem_of_app. right. left.
Qed.

Lemma attach_loop_answers attempts handle view0 view : 0 <= handle.(entry_index) ->
  (view0.(seen) <= view.(seen))%nat -> view = view0 \/ 0 <= handle.(entry_index) < len (markets w) ->
  ensures h (attach_loop self attempts handle) (attach_promise handle view0) view.
Proof.
  intros H0. revert view. induction attempts as [|attempts IH]; intros view Hs Hv0;
    [apply ensures_ret; by right; right|].
  cbn [attach_loop]. apply ensures_try. eapply ensures_mono; [by apply read_answers|].
  intros [snapshot|e] view1 Hs1 Ha;
    [|left; destruct Hv0 as [->|Hi]; [done|by apply (slot_fault_before _ view0 view)]].
  destruct Ha as (Hi & _ & _ & Ha). pose proof (answers_in _ _ _ _ Ha) as (position & book & ct & at_ & Hin & ->).
  cbn [snap_continuity snapshot_of].
  assert (Hstart : forall view2, (view1.(seen) <= view2.(seen))%nat ->
    attach_promise handle view0 (Ok (snapshot_of book ct at_, start_after book)) view2).
  { intros view2 Hs2. split; [done|]. eapply answers_widen; [done|exact Hs|exact Hs2| |exact Ha].
    intros position' book' ct' at_' _ E. split; [done|]. unfold start_after.
    by injection E as _ _ _ -> _ _ _ _ _. }
  destruct (published_continuity book) as [epoch next|epoch reason] eqn:Ec.
  - apply ensures_try. eapply ensures_mono.
    + apply (event_cursor_answers _ _ view0); [done| |lia].
      apply list_elem_of_split in Hin as (pre & post & El).
      destruct (published_at pre _ post El) as [_ (_ & _ & Hnext)]. by rewrite Ec in Hnext.
    + intros [stored|e] view2 Hs2; [|done]. intros _.
      destruct (match stored with Some _ => _ | None => _ end).
      * apply ensures_ret. unfold start_after in Hstart. rewrite Ec in Hstart. by apply Hstart.
      * apply IH; [lia|by right].
  - apply ensures_ret. unfold start_after in Hstart. rewrite Ec in Hstart. by apply Hstart.
Qed.

Lemma attach_at_answers handle view : 0 <= handle.(entry_index) ->
  ensures h (attach_at self handle) (attach_promise handle view) view.
Proof. intros H0. apply attach_loop_answers; [done..|by left]. Qed.

(** A stream follows the snapshot it was attached with. *)
Lemma stream_from_attached handle view snapshot start view' :
  attach_promise handle view (Ok (snapshot, start)) view' ->
  let stream := stream_from handle snapshot start in
  stream_attached stream /\
  match snapshot.(snap_continuity) with
  | Intact epoch next => stream.(stream_lost) = None /\
      stream.(stream_cursor) = {| cursor_epoch := epoch; cursor_position := next |}
  | Lost epoch reason => stream.(stream_lost) = Some reason
  end.
Proof.
  intros [Hi Ha]. pose proof (answers_in _ _ _ _ Ha) as (position & book & ct & at_ & Hin & -> & ->).
  apply list_elem_of_split in Hin as (pre & post & El).
  destruct (published_at pre _ post El) as [(_ & _ & _ & Hm) (_ & _ & Hnext)]. simpl in Hm.
  unfold stream_attached, stream_from, start_after. cbn [snap_continuity snapshot_of stream_handle
    stream_cursor stream_market stream_lost snap_market].
  destruct (published_continuity book); simpl; (split; [split_and!; first [done|lia|bounds; lia]|done]).
Qed.

(** ** The dirty index *)

Lemma position_counted pre index position book ct at_ post :
  log = pre ++ StatePublished index position book ct at_ :: post ->
  position = as_u64 (len (states pre)).
Proof.
  intros El. pose proof (inv_positions _ _ Hinv) as Hp. rewrite El in Hp.
  assert (Hlen : forall xs, length (omap position_of xs) = length (states xs)).
  { intros xs. induction xs as [|[] xs IH]; [done|..]; unfold states in *; cbn in *; lia. }
  apply (f_equal (fun xs => xs !! length (states pre))) in Hp.
  rewrite omap_app, lookup_app_r in Hp by (rewrite Hlen; lia). rewrite Hlen, Nat.sub_diag in Hp.
  rewrite list_lookup_fmap, lookup_seq_lt in Hp.
  - by injection Hp.
  - unfold states. rewrite List.filter_app, length_app. cbn. lia.
Qed.

Lemma dirty_slot_at k : 0 <= k <= U64_MAX ->
  dirty_slot_record self.(reader_size) (reader_layout self) k = Ok (part_cells w (DirtyPart k)).
Proof. intros Hk. apply dirty_at; [by apply (run_placed log)|done]. Qed.

Definition dirty_promise (cursor : Z) (r : DirtyPoll * Z) : Prop :=
  match r with
  | (DirtyDelivered index revision, next) =>
      exists pre book commit_time arrival_time post,
        log = pre ++ StatePublished index cursor book commit_time arrival_time :: post /\
        cursor = as_u64 (len (states pre)) /\ revision = book.(published_revision) /\
        next = wrapping_add_u64 cursor 1
  | (DirtyRescan, next) =>
      exists pre index position book commit_time arrival_time post,
        log = pre ++ StatePublished index position book commit_time arrival_time :: post /\
        position = as_u64 (len (states pre)) /\ cursor < position /\
        position mod l.(dirty_capacity) = cursor mod l.(dirty_capacity) /\
        next = wrapping_add_u64 position 1
  | (DirtyIdle, next) => next = cursor
  end.

Lemma next_dirty_answers cursor view : 0 <= cursor <= U64_MAX ->
  ensures h (next_dirty self cursor) (fun r _ => dirty_promise cursor r) view.
Proof.
  intros Hc. unfold next_dirty. rewrite (dirty_slot_at cursor Hc). apply ensures_bind.
  eapply ensures_mono; [apply (ensures_attempt log w Hinv n cursor); [done|apply safe_read_dirty]|].
  intros [[[position index] revision]|] view1 _ Ha; apply ensures_ret; [|done].
  apply dirty_answer in Ha as (pre & post & index' & position' & book & ct & at_ & El & Hmod & [= -> -> ->]).
  pose proof (position_counted _ _ _ _ _ _ _ El) as Hpos.
  destruct (Z.compare_spec position' cursor) as [E|E|E]; simpl.
  - subst cursor. by exists pre, book, ct, at_, post.
  - done.
  - by exists pre, index', position', book, ct, at_, post.
Qed.

(** The head is behind some published entry, or there is none. *)
Definition head_promise (head : Z) : Prop :=
  head = 0 \/ exists pre index position book commit_time arrival_time post,
    log = pre ++ StatePublished index position book commit_time arrival_time :: post /\
    position = as_u64 (len (states pre)) /\ head = wrapping_add_u64 position 1.

Lemma safe_dirty_position k :
  safe (record_data l (DirtyPart k)) (load64 (part_cells w (DirtyPart k)) DIRTY_POSITION).
Proof. by apply (safe_word (part_base l (DirtyPart k)) DIRTY_SLOT_BYTES). Qed.

Lemma dirty_head_loop_answers head indices view : head_promise head ->
  Forall (fun k => Z.of_nat k <= U64_MAX) indices ->
  ensures h (dirty_head_loop self head indices) (fun head' _ => head_promise head' /\ head <= head') view.
Proof.
  revert head view. induction indices as [|k indices IH]; intros head view Hh Hks; [by apply ensures_ret|].
  apply Forall_cons_1 in Hks as [Hk Hks]. cbn [dirty_head_loop].
  rewrite (dirty_slot_at (Z.of_nat k)) by lia. apply ensures_bind.
  eapply ensures_mono; [apply (ensures_attempt log w Hinv n (Z.of_nat k)); [lia|apply safe_dirty_position]|].
  intros [position|] view1 _ Ha; [|by apply IH].
  eapply ensures_mono; [apply IH; [|done]|intros ? ? _ [? ?]; split; [done|lia]].
  destruct Ha as (pre & x & post & ws & El & Hx & _ & He).
  destruct x as [index position' book ct at_|?|?]; simpl in Hx; [|done|done].
  destruct (_ =? _); [|done]. injection Hx as <-.
  unfold part_cells in He. simpl part_size in He. unfold load64 in He.
  rewrite eval_word, overlay_shift in He by done. injection He as <-. simpl.
  destruct (Z.max_spec head (wrapping_add_u64 position' 1)) as [[_ ->]|[_ ->]]; [|done].
  right. exists pre, index, position', book, ct, at_, post. split_and!; [done| |done].
  by eapply position_counted.
Qed.

Lemma dirty_head_answers view :
  ensures h (dirty_head self) (fun head _ => head_promise head /\ 0 <= head) view.
Proof.
  unfold dirty_head. apply dirty_head_loop_answers; [by left|].
  apply Forall_forall. intros k Hk%elem_of_seq. change (reader_layout self) with l in Hk.
  destruct (run_layout log w Hinv) as [_ _ _ _ [_ Hd] _ _ _]. unfold l in Hk.
  unfold MAX_DIRTY_CAPACITY in Hd. bounds. lia.
Qed.

(** ** The directory *)

(** A handle that leads to the market's own entry and slot. *)
Definition resolved (market : MarketRef) (handle : MarketHandle) : Prop :=
  handle.(segment) = w.(binding) /\ 0 <= handle.(entry_index) < len (markets w) /\
  handle.(state_slot_index) = handle.(entry_index) /\
  markets w !! Z.to_nat handle.(entry_index) = Some market.

Lemma directory_in k : 0 <= k < l.(directory_capacity) ->
  directory_record self.(reader_size) (reader_layout self) k = Ok (entry_record w k).
Proof. intros Hk. apply entry_at; [by apply (run_placed log)|done]. Qed.

(** An entry that names a market, of which the reader knew nothing. *)
Definition not_found (market : MarketRef) (view : View) (k : nat) : Prop :=
  markets w !! k = Some market -> gate_unknown w n (Z.of_nat k) view.

Lemma resolve_loop_answers market indices view0 view : (view0.(seen) <= view.(seen))%nat ->
  Forall (fun k => Z.of_nat k < l.(directory_capacity)) indices ->
  ensures h (resolve_loop self market indices) (fun r _ =>
    match r with
    | Some handle => resolved market handle
    | None => Forall (not_found market view0) indices
    end) view.
Proof.
  revert view. induction indices as [|k indices IH]; intros view Hs Hks; [by apply ensures_ret|].
  assert (Hnext : forall view', (view.(seen) <= view'.(seen))%nat -> not_found market view0 k ->
    ensures h (resolve_loop self market indices) (fun r _ => match r with
      | Some handle => resolved market handle | None => Forall (not_found market view0) (k :: indices) end) view').
  { intros view' Hs' Hk. eapply ensures_mono; [apply (IH view'); [lia|]|].
    - by apply Forall_cons_1 in Hks as [_ ?].
    - intros [handle|] _ _ Ha; [done|]. by constructor. }
  apply Forall_cons_1 in Hks as [Hk Hks]. cbn [resolve_loop]. rewrite (directory_in (Z.of_nat k)) by lia.
  assert (Hv : 0 <= Z.of_nat k < l.(directory_capacity)) by lia.
  apply ensures_bind. eapply ensures_mono; [apply (ensures_published log w Hinv n _ Hv)|].
  intros [g|] view1 Hs1 Hg; [|apply Hnext; [done|]; intros _;
    by apply (gate_unknown_before log w Hinv n _ Hv view0 view)]. destruct Hg as [m Hu].
  destruct (unlocked_index (Z.of_nat k) m view1 ltac:(lia) Hu) as [Hi Hm].
  apply ensures_bind. eapply (ensures_identity w n (Z.of_nat k)); [exact Hu|]. intros view2 Hs2.
  cbn [mbind option_bind]. pose proof Hu as (_ & Hw & _). rewrite (market_decoded _ _ Hm Hw).
  case_bool_decide as Em; [|apply Hnext; [lia|]; intros Hk'; rewrite Nat2Z.id in Hm; congruence].
  injection Em as ->.
  apply ensures_bind. eapply (ensures_witness w n (Z.of_nat k) market);
    [by eapply unlocked_later|done|done|]. intros view3 _.
  rewrite (entry_slot_index w (Z.of_nat k) market). apply ensures_ret. by split_and!; simpl; try lia.
Qed.

Lemma resolve_answers market view :
  ensures h (resolve self market) (fun r _ =>
    match r with
    | Some handle => resolved market handle
    | None => forall k, not_found market view k
    end) view.
Proof.
  eapply ensures_mono; [apply (resolve_loop_answers _ _ view); [done|]|].
  - apply Forall_forall. intros k Hk%elem_of_seq. change (reader_layout self) with l in Hk. lia.
  - intros [handle|] view' _ Ha; [done|]. intros k Hk. rewrite Forall_forall in Ha. apply (Ha k); [|done].
    apply elem_of_seq. apply lookup_lt_Some in Hk. pose proof (run_count log w Hinv) as Hc.
    change (reader_layout self) with l. fold l in Hc. unfold len in Hc. lia.
Qed.

Lemma resolve_index_answers index view : 0 <= index ->
  ensures h (resolve_directory_index self index) (fun r _ =>
    match r with
    | Some handle => handle.(entry_index) = index /\ exists market, resolved market handle
    | None => l.(directory_capacity) <= index \/ gate_unknown w n index view
    end) view.
Proof.
  intros H0. unfold resolve_directory_index. change (reader_layout self) with l.
  destruct (Z.leb_spec l.(directory_capacity) index) as [|Hi]; [apply ensures_ret; by left|].
  pose proof (directory_in index (conj H0 Hi)) as Hd. change (reader_layout self) with l in Hd. rewrite Hd.
  apply ensures_bind. eapply ensures_mono; [apply (ensures_published log w Hinv n _ (conj H0 Hi))|].
  intros [g|] view1 _ Hg; [|apply ensures_ret; by right]. destruct Hg as [m Hu].
  destruct (unlocked_index index m view1 H0 Hu) as [Him Hm].
  apply ensures_bind. eapply (ensures_witness w n index m); [exact Hu|done|done|]. intros view2 _.
  rewrite (entry_slot_index w index m). apply ensures_ret. split; [done|]. exists m. by split_and!; simpl; try lia.
Qed.
End contract.
