(* ===== verification/ShmContract.v ===== *)
(** * The contract of a segment

    The theorems about the writer and its readers together: what a creation leaves, what a
    refusal leaves, what the counters count, and what a read, a stream, the dirty index and
    the directory may answer while the writer runs. *)

From S2P Require Import Prelude OrdMap Numeric Identity Descriptor Continuity Observation Book BookProps ShmCodec ShmCell ShmLayout ShmWriter ShmWriterProps ShmRun ShmInv ShmReader ShmReaderProps ShmReads ShmAnswers.

(** ** A concrete run

    One market of two levels, a book and a mutation of it published once each. *)

Definition demo_layout : SegmentLayout :=
  {| directory_capacity := 1; state_slot_capacity := 1; level_capacity := 2;
     event_capacity := 2; dirty_capacity := 4 |}.
Definition demo_region : SegmentRegion :=
  {| size_bytes := region_size demo_layout; is_writable := true; attachment_id := 7;
     backing_path := None |}.
Definition demo_config : SegmentConfig := config_new demo_layout 5 1.
Definition demo_created : SegmentWriter := fresh_writer demo_region demo_config InHeader.

Definition after {A} (w : SegmentWriter) (r : option (A * SegmentWriter)) : SegmentWriter :=
  match r with Some (_, w') => w' | None => w end.

Definition demo_market : MarketRef := BookProps.sample_market.
Definition demo_installed : SegmentWriter := after demo_created (install demo_market demo_created).
Definition demo_handle : MarketHandle :=
  {| segment := demo_created.(binding); entry_index := 0; state_slot_index := 0 |}.
Definition demo_book : PublishedBook := publish based_book.
Definition demo_stated : SegmentWriter :=
  after demo_installed (publish_stamped demo_handle demo_book 100 90 true demo_installed).
Definition demo_mutation : BookMutation :=
  {| mutation_provenance := provenance_of sample_input; old := None;
     new := Some (sample_level Ask 41 7) |}.
Definition demo_cursor : MutationCursor := {| cursor_epoch := 0; cursor_position := 0 |}.
Definition demo_writer : SegmentWriter :=
  after demo_stated (publish_mutation demo_handle 1 demo_cursor demo_mutation 101 91 demo_stated).
Definition demo_log : list Publication :=
  [StatePublished 0 0 demo_book 100 90; MutationPublished 0 1 demo_cursor demo_mutation 101 91].

Lemma demo_layout_wf : layout_wf demo_layout.
Proof. split; try done; vm_compute; split; discriminate. Qed.

Lemma demo_market_typed : market_wf demo_market /\ market_text demo_market.
Proof. split; [split_and!; vm_compute; split_and!; discriminate|split_and!; reflexivity]. Qed.

Lemma demo_installed_trace : writer_trace [] demo_installed.
Proof.
  apply (trace_install [] demo_created demo_market (Ok demo_handle)).
  - apply (trace_create demo_region demo_config true (Ok ()) demo_created demo_created.(memory));
      [exact demo_layout_wf|simpl; lia|split; vm_compute; discriminate|by vm_compute].
  - apply demo_market_typed.
  - by vm_compute.
Qed.

Lemma demo_trace : writer_trace demo_log demo_writer.
Proof.
  apply (trace_mutation [StatePublished 0 0 demo_book 100 90] demo_stated demo_handle 1 demo_cursor
    demo_mutation 101 91 (Ok ())); [|split; vm_compute; discriminate|split; vm_compute; discriminate|by vm_compute].
  apply (trace_state [] demo_installed demo_handle demo_book 100 90 true (Ok ()));
    [exact demo_installed_trace|split; vm_compute; discriminate|by vm_compute].
Qed.

Lemma demo_run : typed_run demo_log demo_writer.
Proof.
  split; [exact demo_trace|]. split.
  - assert (markets demo_writer = [demo_market]) as -> by by vm_compute.
    apply Forall_singleton, demo_market_typed.
  - apply Forall_cons_2; [|apply Forall_singleton].
    + assert (E : demo_book.(published_levels) = first_book \/ demo_book.(published_levels) = rev first_book)
        by (vm_compute; auto).
      split_and!; [|by vm_compute|by vm_compute].
      destruct E as [-> | ->]; repeat (constructor; [by apply sample_level_wf|]); constructor.
    + split_and!; [done|by split; vm_compute|done|].
      intros lv [= <-]. by apply sample_level_wf.
Qed.

(** ** The writer *)

Lemma refusable_false log w : writer_inv log w -> 2 * len log + 2 <= U64_MAX ->
  forall h market b, refusable h market b w -> addressable h market w /\ b = true -> False.
Proof.
  intros Hinv Hlog h market b [Hr|[-> |Hr]] [Ha Hb]; [done|done|].
  apply (inv_counters_unspent _ _ Hinv) in Hr. lia.
Qed.

(** A publication by its cases: refused for a reason, or done. *)
Ltac accepted_exactly cases :=
  match goal with Hrefuse : forall h market b, refusable _ _ _ _ -> _ |- _ =>
    let Es := fresh "Es" in let E := fresh "E" in let Hr := fresh "Hr" in
    destruct cases as [(? & E & Hr)|(? & Es & ? & _ & E)]; rewrite E; eexists _, _;
      (split; [reflexivity|]); (split; [|done]);
      [split; [done|intros H; by destruct (Hrefuse _ _ _ Hr)]|split; [intros _; by rewrite Es|done]]
  end.

(** However the writer has run, each of its operations ends without a failed assertion.
    While no counter can have reached its width, a publication is accepted exactly when its
    handle is the one installation gave for the market it names and its content fits the
    record, and then the publication is the next of the run; an installation is accepted
    exactly when the market is new, a directory entry is left and the identity fits. An
    operation that is refused changes nothing at all. *)
Theorem writer_accepts_exactly log w : writer_trace log w -> 2 * len log + 2 <= U64_MAX ->
  (forall market, market_wf market -> exists r w', install market w = Some (r, w') /\
     match r with
     | Ok handle => ~ market ∈ markets w /\ len (markets w) < (writer_layout w).(directory_capacity) /\
         len (identity_bytes market) <= IDENTITY_CAPACITY /\
         markets w' = markets w ++ [market] /\ addressable handle market w'
     | Err _ => w' = w /\ (market ∈ markets w \/
         (writer_layout w).(directory_capacity) <= len (markets w) \/
         IDENTITY_CAPACITY < len (identity_bytes market))
     end) /\
  (forall handle, 0 <= handle.(entry_index) <= U32_MAX ->
     (forall book commit_time arrival_time woken, exists r w',
        publish_stamped handle book commit_time arrival_time woken w = Some (r, w') /\
        (is_ok r = true <-> addressable handle book.(published_market) w /\
           is_ok (stage (writer_layout w) book) = true) /\ (is_ok r = false -> w' = w)) /\
     forall revision cursor now arrival_time, 0 <= cursor.(cursor_position) <= U64_MAX ->
       (forall mutation, exists r w',
          publish_mutation handle revision cursor mutation now arrival_time w = Some (r, w') /\
          (is_ok r = true <-> addressable handle mutation.(mutation_provenance).(market) w /\
             is_ok (stage_mutation mutation) = true) /\ (is_ok r = false -> w' = w)) /\
       forall resolution, exists r w',
         publish_resolution handle revision cursor resolution now arrival_time w = Some (r, w') /\
         (is_ok r = true <->
            addressable handle resolution.(observation).(resolution_provenance).(market) w /\
            is_ok (stage_resolution resolution) = true) /\ (is_ok r = false -> w' = w)).
Proof.
  intros Ht Hlog. pose proof (trace_inv _ _ Ht) as Hinv.
  pose proof (inv_well_placed _ _ Hinv) as Hw. pose proof (inv_counters_sane _ _ Hinv) as Hs.
  pose proof (inv_count _ _ Hinv) as Hc. pose proof (dirty_position_range _ _ Hinv) as Hd.
  pose proof (refusable_false log w Hinv Hlog) as Hrefuse.
  split; [|intros handle Hh; split; [|intros revision cursor now at_ Hp; split]].
  - intros mk Hmk. destruct (install_cases log mk w Hinv Hmk) as [(e & E & Hr)|(E & Hlt & Hnew & Hl)];
      rewrite E; eexists _, _; (split; [done|]); rewrite len_markets; [done|].
    split_and!; try done; [apply markets_install|].
    split_and!; [done|done|]. rewrite markets_install. cbn [entry_index].
    rewrite lookup_app_r by (unfold markets, len; rewrite length_fmap; lia).
    unfold markets, len. by rewrite length_fmap, Nat2Z.id, Nat.sub_diag.
  - intros book ct at_ woken.
    accepted_exactly (publish_stamped_cases handle book ct at_ woken w Hw Hs Hd Hc ltac:(lia)).
  - intros mutation.
    accepted_exactly (publish_mutation_cases handle revision cursor mutation now at_ w Hw Hs Hc ltac:(lia) Hp).
  - intros resolution.
    accepted_exactly (publish_resolution_cases handle revision cursor resolution now at_ w Hw Hs Hc ltac:(lia) Hp).
Qed.

Lemma writer_accepts_exactly_witness : exists r w',
  publish_stamped demo_handle demo_book 102 92 false demo_writer = Some (r, w') /\
  is_ok r = true.
Proof.
  destruct (writer_accepts_exactly demo_log demo_writer demo_trace) as [_ H]; [vm_compute; discriminate|].
  destruct (H demo_handle) as [Hp _]; [split; vm_compute; discriminate|].
  destruct (Hp demo_book 102 92 false) as (r & w' & E & Hok & _). exists r, w'. split; [exact E|].
  apply Hok. split; [split_and!; by vm_compute|by vm_compute].
Defined.

Lemma create_formatted reg config accepts_a_wait created m : layout_wf config.(config_layout) ->
  reg.(is_writable) = true -> reg.(size_bytes) = region_size config.(config_layout) ->
  current m (reg.(size_bytes) - TRAILER_BYTES + TRL_MAGIC) <> 0 ->
  create reg config accepts_a_wait created m = Some (Err SegmentAlreadyFormatted, m).
Proof.
  intros Hl Hw Es Hm. set (l := config_layout config) in *. unfold create. fold l. rewrite Hw.
  rewrite (cbind_Ok _ _ m () m eq_refl). cbv zeta. rewrite Es, Z.eqb_refl.
  rewrite (cbind_Ok _ _ m () m eq_refl).
  pose proof (part_record_Ok l Hl TrailerPart I) as Ht. pose proof (part_record_Ok l Hl HeaderPart I) as Hh.
  simpl in Ht, Hh. rewrite Ht, Hh, <- Es.
  assert (Eb : trailer_offset l = size_bytes reg - TRAILER_BYTES) by (rewrite Es; unfold region_size; lia).
  rewrite Eb. do 2 (erewrite cbind_Ok; [|reflexivity]).
  rewrite (cbind_Ok _ _ m false m); [by apply cbind_Err|].
  unfold publishing, publish_write_once. cbn [negb orb].
  change (TRAILER_MAGIC =? 0) with false. change (TRAILER_MAGIC =? GATE_CLAIMED) with false.
  cbn [orb]. rewrite ptr_at by done. cbn [mbind option_bind]. unfold claim.
  by rewrite (proj2 (Z.eqb_neq _ _) Hm).
Qed.

(** Creating a segment over zeroed memory never fails an assertion. It succeeds exactly
    when the region is writable, has the size of the layout and is aligned, and a doorbell
    can be placed; the memory it leaves then validates for any reader, with the identity
    and the layout asked for, and a second creation over it is refused and stores nothing. *)
Theorem creation_exact region config accepts_a_wait created :
  layout_wf config.(config_layout) -> 0 <= config.(config_instance) < 2 ^ 128 ->
  0 <= config.(config_generation) <= U64_MAX ->
  exists r m, create region config accepts_a_wait created fresh_memory = Some (r, m) /\
  (is_ok r = true <-> region.(is_writable) = true /\
     region.(size_bytes) = region_size config.(config_layout) /\
     region.(size_bytes) mod REGION_ALIGNMENT = 0 /\
     is_ok (choose_doorbell region config.(config_doorbell) accepts_a_wait created) = true) /\
  forall w, r = Ok w -> m = w.(memory) /\ w.(installed) = [] /\
    w.(geometry) = {| daemon_instance_id := config.(config_instance);
                      segment_generation := config.(config_generation);
                      layout := config.(config_layout) |} /\
    validate (current m) region.(size_bytes) = Some (Ok w.(geometry)) /\
    create region config accepts_a_wait created m = Some (Err SegmentAlreadyFormatted, m).
Proof.
  intros Hl Hi Hg. destruct (create_cases region config accepts_a_wait created Hl Hi Hg) as (r & m & E & Hr).
  exists r, m. split; [exact E|]. destruct r as [w|e].
  - destruct Hr as (d & Hd & -> & -> & Hw & Hs & Ha). split; [split; [by rewrite Hd|done]|].
    intros w [= <-]. split_and!; [done..| |].
    + by apply formatted_validates.
    + apply create_formatted; [done..|].
      destruct (current_trailer region config d Hl Hs) as [-> _]. done.
  - split; [|done]. split; [done|]. intros (H1 & H2 & H3 & H4).
    destruct Hr as [Hr|[Hr|[Hr|[e' Hr]]]]; [congruence|done|done|by rewrite Hr in H4].
Qed.

Lemma creation_exact_witness : exists w m,
  create demo_region demo_config true (Ok ()) fresh_memory = Some (Ok w, m) /\
  create demo_region demo_config true (Ok ()) m = Some (Err SegmentAlreadyFormatted, m).
Proof.
  destruct (creation_exact demo_region demo_config true (Ok ()) demo_layout_wf) as (r & m & E & Hok & Hw);
    [simpl; lia|split; vm_compute; discriminate|].
  destruct r as [w|e]; [|by destruct (proj2 Hok)].
  exists w, m. split; [exact E|]. by destruct (Hw w eq_refl) as (_ & _ & _ & _ & ?).
Defined.

(** The counters of a segment count its publications. After any run of the writer the
    generation is the number of publications; the doorbell word, in the header and on its
    page when it has one, is that number on 32 bits; the next dirty position and the wakes
    posted are the number of states on 64 bits; and the stamps a market reports are those
    of its last state, or zeros. *)
Theorem counters_count_publications log w : writer_trace log w ->
  current w.(memory) HDR_PUBLICATION_GENERATION = len log /\
  current w.(memory) HDR_DOORBELL = as_u32 (len log) /\
  match w.(doorbell) with InHeader => True | Page page => current page 0 = as_u32 (len log) end /\
  w.(dirty_position) = as_u64 (len (states log)) /\ w.(wake_posts) = as_u64 (len (states log)) /\
  forall handle, handle.(segment) = w.(binding) -> 0 <= handle.(entry_index) < len (markets w) ->
    published_stamps handle w = Some (stamps_at log handle.(entry_index)).
Proof.
  intros Ht. pose proof (trace_inv _ _ Ht) as Hinv. split_and!; try apply Hinv.
  intros handle Hs Hi. unfold published_stamps. rewrite bool_decide_true by done. cbn [negb].
  destruct (lookup_lt_is_Some_2 w.(installed) (Z.to_nat handle.(entry_index))) as [e He].
  { rewrite len_markets in Hi. unfold len in Hi. lia. }
  rewrite He. cbn [fmap option_fmap option_map]. f_equal.
  rewrite (inv_stamps _ _ Hinv _ _ He). by rewrite Z2Nat.id by lia.
Qed.

Lemma counters_count_publications_witness :
  current demo_writer.(memory) HDR_PUBLICATION_GENERATION = 2 /\
  published_stamps demo_handle demo_writer = Some (100, 90).
Proof.
  destruct (counters_count_publications demo_log demo_writer demo_trace) as (Hg & _ & _ & _ & _ & Hs).
  split; [exact Hg|]. apply (Hs demo_handle); [reflexivity|split; vm_compute; done].
Defined.

(** ** The readers *)

(** C1: What a snapshot read may answer, at any point of any run of the writer and whatever
    its loads return. No assertion fails. A snapshot is a book the writer published through
    this very handle's market, whole, with the stamps of its publication, never older than
    one the reader already knew of. Every fault names a cause that holds: a handle of another
    segment, out of range or stale; an entry whose gate was not open to what the reader knew;
    a market of which it knew no publication; or 64 lost attempts, each to an interval the
    writer had opened or to a record it had begun to overwrite, none older than what the
    reader knew. A writer is said to stall when every one of the 64 found the same interval
    in flight, and contention is said otherwise; and the loads the read took are, after those
    of the entry, exactly those of the 64 attempts. A torn or misplaced record is never
    reported, because it is never seen. *)
Theorem read_exact log w n handle view : typed_run log w -> 0 <= handle.(entry_index) ->
  ensures_run (take n w.(memory).(history)) (read (reader_of w) handle) (fun loads r view' =>
    match r with
    | Ok snapshot => 0 <= handle.(entry_index) < len (markets w) /\
        handle.(segment) = w.(binding) /\ handle.(state_slot_index) = handle.(entry_index) /\
        answers_state log w n handle view view' (fun book commit_time arrival_time =>
          snapshot = snapshot_of book commit_time arrival_time)
    | Err e => slot_fault log w n handle view e /\
        forall f, e = contention f -> gave_up w n handle view loads f view'
    end) view.
Proof.
  intros Hrun H0. eapply ensures_run_mono.
  { apply ensures_run_both; [by apply (read_answers log)|by apply (read_loads log)]. }
  intros loads [snapshot|e] view' _ [Ha Hl]; [exact Ha|]. split; [exact Ha|]. intros f ->. by apply Hl.
Qed.

(** The loads of a read that takes the latest stores: the gate, the slot index, the
    identity, the counter, the record's words and the counter again. *)
Definition demo_choices : list (option nat) :=
  let h := demo_writer.(memory).(history) in
  let entry := part_base demo_layout (DirectoryPart 0) in
  let slot := part_base demo_layout (SlotPart 0) in
  map (fun x => last_in h x)
    ([entry; entry + ENT_SLOT_INDEX; entry + ENT_IDENTITY_LEN]
     ++ map (fun k => entry + ENT_IDENTITY + Z.of_nat k) (seq 0 (length (identity_bytes demo_market)))
     ++ [slot])
  ++ latest_choices h (read_words (part_cells demo_writer (SlotPart 0)) 2)
  ++ [last_in h slot].

Example demo_read :
  fst <$> (fst <$> read (reader_of demo_writer) demo_handle demo_writer.(memory).(history)
    demo_choices fresh_view)
  = Some (Some (Ok (snapshot_of demo_book 100 90))).
Proof. by vm_compute. Qed.

Lemma read_exact_witness : exists r view',
  read (reader_of demo_writer) demo_handle (take 1000 demo_writer.(memory).(history)) demo_choices fresh_view
    = Some (Some (Ok r), view', []) /\
  exists book commit_time arrival_time,
    In (StatePublished 0 0 book commit_time arrival_time) demo_log /\
    r = snapshot_of book commit_time arrival_time.
Proof.
  destruct (read (reader_of demo_writer) demo_handle (take 1000 demo_writer.(memory).(history))
    demo_choices fresh_view) as [[[o view'] rest]|] eqn:E; [|by vm_compute in E].
  destruct (read_exact demo_log demo_writer 1000 demo_handle fresh_view demo_run ltac:(done) _ _ _ _ E)
    as (_ & loads & r & _ & -> & Hr).
  destruct r as [snapshot|e]; [|by vm_compute in E].
  assert (rest = []) as -> by by vm_compute in E; injection E.
  exists snapshot, view'. split; [done|].
  destruct Hr as (_ & _ & _ & pre & position & book & ct & at_ & post & El & _ & ->).
  exists book, ct, at_. split; [|done].
  assert (Hin : In (StatePublished 0 position book ct at_) demo_log)
    by (rewrite El; apply in_or_app; right; by left).
  destruct Hin as [Hin|[Hin|[]]]; [|done]. injection Hin as <- <- <- <-. by left.
Defined.

(** Two places of one run where an element of a list stands, by how many of a kind are before. *)
Lemma prefix_order {A} (f : A -> bool) log (pre1 pre2 post1 post2 : list A) x1 x2 :
  log = pre1 ++ x1 :: post1 -> log = pre2 ++ x2 :: post2 -> f x2 = true ->
  len (List.filter f pre1) <= len (List.filter f pre2) -> (length pre1 <= length pre2)%nat.
Proof.
  intros E1 E2 Hf Hle. destruct (decide (length pre1 <= length pre2)%nat) as [|Hn]; [done|exfalso].
  assert (Hpre : exists mid, pre1 = pre2 ++ x2 :: mid).
  { rewrite E1 in E2. apply app_eq_inv in E2 as [(k & -> & Ek)|(k & -> & Ek)].
    - destruct k as [|y k]; [rewrite app_nil_r in Hn; lia|]. injection Ek as <- _. by exists k.
    - rewrite length_app in Hn. lia. }
  destruct Hpre as [mid ->]. rewrite List.filter_app in Hle. cbn [List.filter] in Hle. rewrite Hf in Hle.
  rewrite len_app, len_cons in Hle. pose proof (len_nonneg (List.filter f mid)). lia.
Qed.

(** A reader never goes back. Of two snapshots it reads of one market, the second with
    what it learned by the first and no less of the writer's history, the second was
    published no earlier. *)
Theorem reads_never_go_back log w n1 n2 handle choices1 choices2 view snapshot1 view1 rest1
    snapshot2 view2 rest2 :
  typed_run log w -> 0 <= handle.(entry_index) -> (n1 <= n2)%nat ->
  read (reader_of w) handle (take n1 w.(memory).(history)) choices1 view
    = Some (Some (Ok snapshot1), view1, rest1) ->
  read (reader_of w) handle (take n2 w.(memory).(history)) choices2 view1
    = Some (Some (Ok snapshot2), view2, rest2) ->
  exists pre1 post1 pre2 post2 position1 position2 book1 book2 times1 times2,
    log = pre1 ++ StatePublished handle.(entry_index) position1 book1 times1.1 times1.2 :: post1 /\
    log = pre2 ++ StatePublished handle.(entry_index) position2 book2 times2.1 times2.2 :: post2 /\
    snapshot1 = snapshot_of book1 times1.1 times1.2 /\
    snapshot2 = snapshot_of book2 times2.1 times2.2 /\ (length pre1 <= length pre2)%nat.
Proof.
  intros Hrun H0 Hn E1 E2.
  destruct (read_answers log w Hrun n1 handle H0 view _ _ _ _ E1) as (_ & ? & [= <-] & Hi & _ & _ & A1).
  destruct (read_answers log w Hrun n2 handle H0 view1 _ _ _ _ E2) as (_ & ? & [= <-] & _ & _ & _ & A2).
  destruct A1 as (pre1 & pos1 & book1 & ct1 & at1 & post1 & El1 & Hk1 & ->).
  destruct A2 as (pre2 & pos2 & book2 & ct2 & at2 & post2 & El2 & Hk2 & ->).
  exists pre1, post1, pre2, post2, pos1, pos2, book1, book2, (ct1, at1), (ct2, at2).
  split_and!; [done..|]. cbv zeta in *.
  pose proof (trace_inv _ _ (proj1 Hrun)) as Hinv.
  assert (Hknown : known (writer_layout w) (take n1 (history (memory w))) (SlotPart (entry_index handle)) view1
    <= known (writer_layout w) (take n2 (history (memory w))) (SlotPart (entry_index handle)) view1).
  { apply (known_grows log w Hrun); [done|by apply (slot_valid log)|done]. }
  apply (prefix_order (fun x => bool_decide (is_Some (words_into (writer_layout w)
    (SlotPart (entry_index handle)) x))) log _ _ _ _ _ _ El1 El2); [|unfold into in *; lia].
  apply bool_decide_eq_true. simpl. rewrite Z.eqb_refl.
  destruct (published_at log w Hrun pre2 _ post2 El2) as [(_ & _ & Hst & _) _].
  destruct (stage _ _); [by eexists|done].
Qed.

Definition demo_snapshot : BookSnapshot := snapshot_of demo_book 100 90.

Lemma reads_never_go_back_witness : exists pre1 post1 pre2 post2 position1 position2 book1 book2
    (times1 times2 : Z * Z),
  demo_log = pre1 ++ StatePublished 0 position1 book1 times1.1 times1.2 :: post1 /\
  demo_log = pre2 ++ StatePublished 0 position2 book2 times2.1 times2.2 :: post2 /\
  demo_snapshot = snapshot_of book1 times1.1 times1.2 /\
  demo_snapshot = snapshot_of book2 times2.1 times2.2 /\ (length pre1 <= length pre2)%nat.
Proof.
  destruct (read (reader_of demo_writer) demo_handle (take 900 demo_writer.(memory).(history))
    demo_choices fresh_view) as [[[o view1] rest1]|] eqn:E1; [|by vm_compute in E1].
  assert (o = Some (Ok demo_snapshot)) as -> by (vm_compute in E1; vm_compute; congruence).
  destruct (read (reader_of demo_writer) demo_handle (take 1000 demo_writer.(memory).(history))
    demo_choices view1) as [[[o view2] rest2]|] eqn:E2;
    [|vm_compute in E1; injection E1 as <- <-; by vm_compute in E2].
  assert (o = Some (Ok demo_snapshot)) as ->
    by (vm_compute in E1; injection E1 as <- <-; vm_compute in E2; vm_compute; congruence).
  exact (reads_never_go_back demo_log demo_writer 900 1000 demo_handle demo_choices demo_choices
    fresh_view demo_snapshot view1 rest1 demo_snapshot view2 rest2 demo_run ltac:(done) ltac:(lia) E1 E2).
Defined.

(** Attaching a stream to a market. No assertion fails. A stream that attaches starts
    with a book the writer published for the handle's market, no older than one the reader
    knew of; its first cursor is the one that book's continuity says comes next, or it
    starts lost for the reason the book gives; and it is a stream of this segment. *)
Theorem attach_exact log w n handle view : typed_run log w -> 0 <= handle.(entry_index) ->
  ensures (take n w.(memory).(history)) (attach_stream (reader_of w) handle) (fun r view' =>
    match r with
    | Ok (snapshot, stream) =>
        answers_state log w n handle view view' (fun book commit_time arrival_time =>
          snapshot = snapshot_of book commit_time arrival_time) /\
        stream_attached w stream /\ stream.(stream_handle) = handle /\
        stream.(stream_market) = snapshot.(snap_market) /\
        match snapshot.(snap_continuity) with
        | Intact epoch next => stream.(stream_lost) = None /\
            stream.(stream_cursor) = {| cursor_epoch := epoch; cursor_position := next |}
        | Lost epoch reason => stream.(stream_lost) = Some reason
        end
    | Err e => attach_fault log w n handle view e
    end) view.
Proof.
  intros Hrun H0. unfold attach_stream. apply ensures_try.
  eapply ensures_mono; [by apply (attach_at_answers log)|]. intros [[snapshot start]|e] view1 _ Ha; [|done].
  apply ensures_ret. cbn [fst snd]. destruct (stream_from_attached log w Hrun n _ _ _ _ _ Ha) as [Hs Hc].
  split_and!; [|exact Hs|done|done|exact Hc]. destruct Ha as [Hi Ha].
  eapply (answers_widen log w Hrun n); [done|done|done| |exact Ha]. by intros ? ? ? ? _ [? _].
Qed.

Lemma attach_exact_witness :
  ensures (take 1000 demo_writer.(memory).(history)) (attach_stream (reader_of demo_writer) demo_handle)
    (fun r _ => match r with
                | Ok (_, stream) => markets demo_writer !! 0%nat = Some stream.(stream_market)
                | Err e => attach_fault demo_log demo_writer 1000 demo_handle fresh_view e end) fresh_view.
Proof.
  eapply ensures_mono; [apply (attach_exact demo_log demo_writer 1000 demo_handle fresh_view demo_run); done|].
  intros [[snapshot stream]|e] view' _; [|done]. intros (_ & (_ & _ & Hm) & Hh & _). by rewrite Hh in Hm.
Defined.

(** C2: What a poll of a stream may answer. A stream that lost its continuity answers the
    same loss for good. Otherwise no assertion fails; a delivered event is exactly one the
    writer published for the stream's market at the stream's cursor, whole, and the cursor
    then advances by one, so no event is delivered twice or skipped; a loss is reported only
    for a cause the writer gave, a state of another epoch or one that declares the loss, a
    cursor already overrun or the last position, and it sticks; any other answer leaves the
    stream as it was. *)
Theorem poll_exact log w n stream view : typed_run log w -> stream_attached w stream ->
  ensures (take n w.(memory).(history)) (poll (reader_of w) stream)
    (poll_promise log w n stream view) view.
Proof. intros Hrun Hat. by apply poll_answers. Qed.

Definition demo_stream : EventStream :=
  {| stream_handle := demo_handle; stream_market := demo_market; stream_cursor := demo_cursor;
     stream_lost := None |}.

Definition demo_poll_choices : list (option nat) :=
  let h := demo_writer.(memory).(history) in
  let entry := part_base demo_layout (DirectoryPart 0) in
  let slot := part_base demo_layout (SlotPart 0) in
  let ring := part_base demo_layout (EventPart 0 0) in
  map (fun x => last_in h x) [entry; entry + ENT_SLOT_INDEX; slot]
  ++ latest_choices h (read_cursor_words (part_cells demo_writer (SlotPart 0)))
  ++ map (fun x => last_in h x) [slot; ring]
  ++ latest_choices h (read_event_words (part_cells demo_writer (EventPart 0 0)))
  ++ [last_in h ring].

Lemma poll_exact_witness : exists event stream' view' x,
  poll (reader_of demo_writer) demo_stream (take 1000 demo_writer.(memory).(history))
    demo_poll_choices fresh_view = Some (Some (Ok (Delivered event), stream'), view', []) /\
  x ∈ demo_log /\ published_event x = Some event /\
  stream'.(stream_cursor) = {| cursor_epoch := 0; cursor_position := 1 |}.
Proof.
  destruct (poll (reader_of demo_writer) demo_stream (take 1000 demo_writer.(memory).(history))
    demo_poll_choices fresh_view) as [[[o view'] rest]|] eqn:E; [|by vm_compute in E].
  destruct (poll_exact demo_log demo_writer 1000 demo_stream fresh_view demo_run
    ltac:(split_and!; by vm_compute) _ _ _ _ E) as (_ & r & -> & Hr).
  destruct r as [[[event|]|f] stream']; [|by vm_compute in E|by vm_compute in E].
  assert (rest = []) as -> by by vm_compute in E; injection E.
  destruct Hr as ((x & Hx & _ & He) & _ & ->). exists event. eexists. exists view', x.
  split_and!; [reflexivity|by eapply behind_in|done|done].
Defined.

(** The dirty index. Whatever its loads return, [next_dirty] delivers exactly the entry
    of the state publication that is, on 64 bits, the cursor-th of the run, with its
    directory index and revision, and moves one past it; it asks for a rescan only when a
    later publication has taken the slot, and moves past that one; otherwise it stays. The
    head a scan finds is zero or one past a published position. *)
Theorem dirty_index_exact log w n view : typed_run log w ->
  (forall cursor, 0 <= cursor <= U64_MAX ->
    ensures (take n w.(memory).(history)) (next_dirty (reader_of w) cursor)
      (fun r _ => dirty_promise log w cursor r) view) /\
  ensures (take n w.(memory).(history)) (dirty_cursor (reader_of w))
    (fun head _ => head_promise log head /\ 0 <= head) view.
Proof.
  intros Hrun. split; [intros cursor Hc; by apply next_dirty_answers|].
  unfold dirty_cursor. by apply dirty_head_answers.
Qed.

Lemma dirty_index_exact_witness : exists choices view',
  next_dirty (reader_of demo_writer) 0 (take 1000 demo_writer.(memory).(history)) choices fresh_view
    = Some (Some (DirtyDelivered 0 demo_book.(published_revision), 1), view', []) /\
  dirty_promise demo_log demo_writer 0 (DirtyDelivered 0 demo_book.(published_revision), 1).
Proof.
  set (h := demo_writer.(memory).(history)). set (ring := part_base demo_layout (DirtyPart 0)).
  destruct (next_dirty (reader_of demo_writer) 0 (take 1000 h)
    ([last_in h ring] ++ latest_choices h (read_dirty (part_cells demo_writer (DirtyPart 0)))
     ++ [last_in h ring]) fresh_view) as [[[o view'] rest]|] eqn:E; [|by vm_compute in E].
  destruct (dirty_index_exact demo_log demo_writer 1000 fresh_view demo_run) as [H _].
  destruct (H 0 ltac:(split; vm_compute; discriminate) _ _ _ _ E) as (_ & r & -> & Hr).
  assert (r = (DirtyDelivered 0 demo_book.(published_revision), 1)) as ->
    by (vm_compute in E; vm_compute; congruence).
  assert (rest = []) as -> by by vm_compute in E; injection E.
  eexists _, view'. split; [exact E|exact Hr].
Defined.

(** C35: The directory. A handle a reader resolves, by its market or by its directory index,
    is the one installation gave for that market: of this segment, of an installed entry
    that names the market, with the entry's own state slot; no read through it is ever
    refused as foreign or stale. A market is not found only while the gate of its entry was
    not open to what the reader knew, and an index only for that reason or because it is out
    of range. *)
Theorem resolve_exact log w n view : typed_run log w ->
  (forall market,
    ensures (take n w.(memory).(history)) (resolve (reader_of w) market)
      (fun r _ => match r with
                  | Some handle => resolved w market handle
                  | None => forall k, not_found w n market view k end) view) /\
  forall index, 0 <= index ->
    ensures (take n w.(memory).(history)) (resolve_directory_index (reader_of w) index)
      (fun r _ => match r with
                  | Some handle => handle.(entry_index) = index /\ exists market, resolved w market handle
                  | None => (writer_layout w).(directory_capacity) <= index \/ gate_unknown w n index view
                  end) view.
Proof.
  intros Hrun. split; [intros market; by apply (resolve_answers log)|].
  intros index H0. by apply (resolve_index_answers log).
Qed.

Lemma resolve_exact_witness : exists choices view' handle,
  resolve (reader_of demo_writer) demo_market (take 1000 demo_writer.(memory).(history)) choices
    fresh_view = Some (Some (Some handle), view', []) /\ resolved demo_writer demo_market handle.
Proof.
  set (h := demo_writer.(memory).(history)). set (entry := part_base demo_layout (DirectoryPart 0)).
  destruct (resolve (reader_of demo_writer) demo_market (take 1000 h)
    (map (fun x => last_in h x)
      ([entry; entry + ENT_IDENTITY_LEN]
       ++ map (fun k => entry + ENT_IDENTITY + Z.of_nat k) (seq 0 (length (identity_bytes demo_market)))
       ++ [entry + ENT_SLOT_INDEX])) fresh_view) as [[[o view'] rest]|] eqn:E; [|by vm_compute in E].
  destruct (resolve_exact demo_log demo_writer 1000 fresh_view demo_run) as [H _].
  destruct (H demo_market _ _ _ _ E) as (_ & r & -> & Hr).
  destruct r as [handle|]; [|by vm_compute in E].
  assert (rest = []) as -> by by vm_compute in E; injection E.
  eexists _, view', handle. split; [exact E|exact Hr].
Defined.
