(* ===== verification/ShmRest.v ===== *)
(** * Reads of a segment at rest

    What the contract's safety leaves open: that there is an answer. While the writer is
    between operations, a reader that takes the latest stores gets the last book published
    for its market, and the event published at its cursor, with the loads of one attempt at
    each record it reads. *)

From S2P Require Import Prelude OrdMap Numeric Identity Descriptor Continuity Observation Book BookProps ShmCodec ShmCell ShmLayout ShmWriter ShmWriterProps ShmRun ShmInv ShmReader ShmReaderProps ShmReads ShmAnswers ShmContract.

(** ** Programs that can answer *)

Section reaches.
Context (h : list Message).

(** From any view these loads, and no others, lead the program to its answer. *)
Definition reaches_by {A} (loads : list (option nat)) (m : rprog A) (a : A) : Prop :=
  forall view, exists view', forall rest, m h (loads ++ rest) view = Some (Some a, view', rest).

(** One attempt of a reader, on the latest stores: the counter, the copy, the counter. *)
Definition attempt_loads {A} (counter : Z) (c : copy A) : list (option nat) :=
  last_in h counter :: latest_choices h c ++ [last_in h counter].

Lemma reaches_ret {A} (a : A) : reaches_by [] (rret a) a.
Proof. intros view. by exists view. Qed.

Lemma reaches_bind {A B} loads more (m : rprog A) (k : A -> rprog B) a b :
  reaches_by loads m a -> reaches_by more (k a) b -> reaches_by (loads ++ more) (rbind m k) b.
Proof.
  intros Hm Hk view. destruct (Hm view) as (view1 & E1). destruct (Hk view1) as (view2 & E2).
  exists view2. intros rest. unfold rbind. rewrite <- app_assoc, E1. exact (E2 rest).
Qed.

Lemma reaches_try {A B Er} loads more (m : rprog (result A Er)) (k : A -> rprog (result B Er)) a b :
  reaches_by loads m (Ok a) -> reaches_by more (k a) b -> reaches_by (loads ++ more) (rtry m k) b.
Proof. intros Hm Hk. by apply (reaches_bind _ _ _ _ (Ok a)). Qed.

Lemma reaches_deny {B Er} loads b (e : Er) (k : () -> rprog (result B Er)) r : b = false ->
  reaches_by loads (k ()) r -> reaches_by loads (rtry (rdeny b e) k) r.
Proof. intros -> H. apply (reaches_try [] loads _ _ ()); [apply reaches_ret|done]. Qed.

Lemma reaches_lift {A B Er} loads (o : result A Er) a (k : A -> rprog (result B Er)) r : o = Ok a ->
  reaches_by loads (k a) r -> reaches_by loads (rtry (rlift o) k) r.
Proof. intros -> H. apply (reaches_try [] loads _ _ a); [apply reaches_ret|done]. Qed.

Lemma reaches_acquire r offset cell : ptr r offset 8 = Some cell ->
  reaches_by [last_in h cell] (acquire r offset) (cell_value h cell).
Proof.
  intros Hp. unfold acquire. rewrite Hp. apply (reaches_bind [] _ _ _ cell); [apply reaches_ret|].
  intros view. eexists. intros rest. unfold choosing, acquire_load.
  cbn [app]. rewrite may_read_latest. reflexivity.
Qed.

Lemma reaches_copying {A} (P : Z -> Prop) f (c : pcopy A) a : safe P c ->
  (forall l, P l -> cell_value h l = f l) -> eval_copy f c = Some a ->
  reaches_by (latest_choices h c) (copying c) a.
Proof.
  intros Hc Hf He view. destruct (run_copy_latest h c view) as [view' Hr].
  exists view'. intros rest. unfold copying. rewrite Hr.
  by rewrite (settled_eval _ f P), He by (done || by apply safe_copies).
Qed.
End reaches.

(** ** The segment a run left *)

Section rest.
Context (log : list Publication) (w : SegmentWriter) (Hrun : typed_run log w).
Let l := writer_layout w.
Let h := w.(memory).(history).
Let self := reader_of w.
Let prep := prepared l (len (markets w)).
Let Hinv := contract_inv log w Hrun.

Lemma reaches_seqlocked {A} p (c : pcopy A) a : is_record p = true -> part_valid l p ->
  safe (record_data l p) c -> publications l p log <> [] ->
  eval_copy (contents (prep p :: publications l p log)) c = Some a ->
  reaches_by h (attempt_loads h (part_base l p) c) (seqlocked (part_cells w p) 0 c) (Ok (Some a)).
Proof.
  intros Hr Hp Hc Hne He. unfold seqlocked. rewrite (part_counter log w Hinv).
  apply (reaches_bind _ [] _ _ _ (part_base l p)); [apply reaches_ret|]. intros view.
  pose proof (counter_not_record_data l p) as Hcd.
  pose proof (writer_run_leaves _ _ Hcd _ _ _ (inv_records _ _ Hinv p Hr Hp)) as [_ Hn _ Hcells _].
  fold l h in Hn, Hcells.
  assert (0 < len (publications l p log)).
  { destruct (publications l p log) as [|st sts]; [done|]. rewrite len_cons.
    pose proof (len_nonneg sts). lia. }
  destruct (under_seqlock_latest h (part_base l p) c view) as [view' Hu];
    [unfold h, l in *; lia|unfold h, l in *; rewrite Hn, Z.mul_comm; by apply Z.mod_mul|].
  rewrite (settled_eval _ (contents (prep p :: publications l p log)) (record_data l p)) in Hu
    by (done || by apply safe_copies).
  rewrite He in Hu.
  exists view'. intros rest. unfold attempt_loads. cbn [app]. rewrite <- app_assoc. cbn [app]. by rewrite Hu.
Qed.

(** The last publication of a record. *)
Lemma publications_last p pre x post ws : log = pre ++ x :: post ->
  words_into l p x = Some ws -> Forall (fun y => words_into l p y = None) post ->
  publications l p log = publications l p pre ++ [shift (part_base l p) ws].
Proof.
  intros -> Hx Hpost. unfold publications. rewrite omap_app. cbn [omap list_omap]. rewrite Hx.
  cbn [fmap option_fmap option_map]. f_equal. f_equal. clear -Hpost.
  induction Hpost as [|y post Hy _ IH]; [done|]. cbn [omap list_omap]. rewrite Hy. exact IH.
Qed.

Section entry.
Context (i : Z) (Hi : 0 <= i < len (markets w)) (market : MarketRef)
  (Hm : markets w !! Z.to_nat i = Some market).
Let base := part_base l (DirectoryPart i).

Lemma entry_once : market_wf market /\ len (identity_bytes market) <= IDENTITY_CAPACITY /\
  once base (record_data l (DirectoryPart i)) 1 (entry_cells_of l i market) h.
Proof.
  pose proof (run_count log w Hinv) as Hc. fold l in Hc.
  pose proof (inv_entries _ _ Hinv i ltac:(unfold l in *; lia)) as He. cbv zeta in He. by rewrite Hm in He.
Qed.

Lemma reaches_published : reaches_by h [last_in h base] (published (entry_record w i) ENT_REVISION) (Some 1).
Proof.
  destruct entry_once as (_ & _ & Ho). unfold published.
  apply (reaches_bind _ [_] [] _ _ (cell_value h base)).
  - apply reaches_acquire. unfold entry_record, ENT_REVISION. rewrite ptr_at by done. by rewrite Z.add_0_r.
  - rewrite (once_gate _ _ _ _ _ Ho). apply reaches_ret.
Qed.

Lemma reaches_witness offset : word_fits 4 DIRECTORY_ENTRY_BYTES offset = true -> 8 <= offset ->
  reaches_by h [last_in h (base + offset)] (witness_word32 (entry_record w i) offset)
    (entry_cells_of l i market (base + offset)).
Proof.
  intros Hfit H8. destruct entry_once as (_ & _ & [_ Hf]).
  assert (El : latest_choices h (load32 (entry_record w i) offset) = [last_in h (base + offset)])
    by (unfold entry_record, load32, load_word; by rewrite ptr_at).
  rewrite <- El.
  apply (reaches_copying _ (record_data l (DirectoryPart i)) (entry_cells_of l i market)); [|done|].
  - apply (safe_word base DIRECTORY_ENTRY_BYTES); [lia|]. unfold word_in. rewrite Hfit. simpl.
    by apply Z.leb_le.
  - unfold entry_record, load32. by rewrite eval_word.
Qed.

Lemma reaches_identity : reaches_by h
  (last_in h (base + ENT_IDENTITY_LEN) :: latest_choices h (identity_copy w i market))
  (read_identity (entry_record w i)) (Some (identity_bytes market)).
Proof.
  destruct entry_once as (_ & Hlen & [_ Hf]). unfold read_identity.
  apply (reaches_bind _ [_] _ _ _ (len (identity_bytes market))).
  { rewrite <- (entry_identity_length w i market). by apply reaches_witness. }
  rewrite (proj2 (Z.leb_le _ _) Hlen).
  rewrite <- (app_nil_r (latest_choices h _)).
  apply (reaches_bind _ _ [] _ _ (identity_bytes market)); [|apply reaches_ret].
  unfold witness_bytes. cbn [entry_record rec_size rec_base]. pose proof (len_nonneg (identity_bytes market)).
  rewrite (proj2 (Z.leb_le _ _)) by (unfold IDENTITY_CAPACITY, DIRECTORY_ENTRY_BYTES in *; lia).
  rewrite (proj2 (Z.leb_le _ _)) by (unfold ENT_IDENTITY, IDENTITY_CAPACITY, DIRECTORY_ENTRY_BYTES in *; lia).
  cbn [andb]. apply (reaches_copying _ (record_data l (DirectoryPart i)) (entry_cells_of l i market)); [|done|].
  - apply safe_identity. exact Hlen.
  - by apply eval_identity.
Qed.
End entry.

(** *** Through a handle *)

Section handle.
Context (handle : MarketHandle) (market : MarketRef) (H0 : 0 <= handle.(entry_index))
  (Ha : addressable handle market w).
Let i := handle.(entry_index).

Lemma handle_installed : 0 <= i < len (markets w) /\ markets w !! Z.to_nat i = Some market.
Proof.
  destruct Ha as (_ & _ & Hm). split; [|done]. apply lookup_lt_Some in Hm. unfold len. lia.
Qed.

Definition gate_loads : list (option nat) :=
  [last_in h (part_base l (DirectoryPart i)); last_in h (part_base l (DirectoryPart i) + ENT_SLOT_INDEX)].

Lemma reaches_state_slot : reaches_by h gate_loads (state_slot self handle)
  (Ok (entry_record w i, part_cells w (SlotPart i))).
Proof.
  destruct handle_installed as [Hi Hm]. destruct Ha as (Hs & Hx & _).
  pose proof (slot_valid log w Hinv i Hi) as Hv. pose proof (run_count log w Hinv) as Hc.
  assert (Hd : 0 <= i < l.(directory_capacity)) by (unfold l in *; lia).
  pose proof (run_layout log w Hinv) as [_ Hcap _ _ _ _ _ _]. fold l in Hv.
  unfold state_slot. apply reaches_deny; [by rewrite bool_decide_true|].
  apply (reaches_lift _ _ _ (entry_record w i)).
  { exact (f_equal (map_err ReadSegment) (directory_in log w Hrun i Hd)). }
  apply (reaches_bind _ [_] [_] _ _ (Some 1)); [by apply (reaches_published i Hi market)|].
  apply (reaches_lift _ _ _ 1); [done|].
  apply (reaches_bind _ [_] [] _ _ i).
  { pose proof (reaches_witness i Hi market Hm ENT_SLOT_INDEX eq_refl ltac:(done)) as Hw.
    pose proof (entry_slot_index w i market) as Eslot. fold l in Eslot. by rewrite Eslot in Hw. }
  simpl in Hv. apply reaches_deny.
  { apply Z.eqb_neq. unfold NO_STATE_SLOT, U32_MAX, MAX_STATE_SLOT_CAPACITY, l in *. lia. }
  apply reaches_deny; [rewrite Hx; fold i; by rewrite Z.eqb_refl|].
  apply reaches_deny; [apply Z.leb_gt; exact (proj2 Hv)|].
  apply (reaches_lift _ _ _ (part_cells w (SlotPart i))); [|apply reaches_ret].
  assert (Esl : state_slot_record (size_bytes (region w)) l i = Ok (part_cells w (SlotPart i)))
    by (apply slot_at; [by apply (run_placed log)|exact Hv]).
  exact (f_equal (map_err ReadSegment) Esl).
Qed.

Section state.
Context (pre post : list Publication) (position : Z) (book : PublishedBook) (ct at_ : Z)
  (El : log = pre ++ StatePublished i position book ct at_ :: post)
  (Hlast : Forall (fun y => words_into l (SlotPart i) y = None) post).

Lemma state_staged : exists staged, stage l book = Ok staged /\ publications l (SlotPart i) log =
  publications l (SlotPart i) pre ++ [shift (part_base l (SlotPart i)) (state_words staged ct at_)].
Proof.
  destruct (published_at log w Hrun pre _ post El) as [(_ & _ & Hst & _) _].
  change (is_ok (stage l book) = true) in Hst. destruct (stage l book) as [staged|] eqn:Es; [|done].
  exists staged. split; [done|]. apply (publications_last _ pre _ post _ El); [|done].
  simpl. rewrite Z.eqb_refl. fold l. by rewrite Es.
Qed.

(** The loads of a read on the latest stores: the gate, the slot index, the identity, and
    one attempt at the record. *)
Definition latest_read : list (option nat) :=
  gate_loads
  ++ (last_in h (part_base l (DirectoryPart i) + ENT_IDENTITY_LEN)
      :: latest_choices h (identity_copy w i market))
  ++ attempt_loads h (part_base l (SlotPart i))
       (read_words (part_cells w (SlotPart i)) l.(level_capacity)).

Lemma reaches_read : reaches_by h latest_read (read self handle) (Ok (snapshot_of book ct at_)).
Proof.
  destruct handle_installed as [Hi Hm]. destruct state_staged as (staged & Hst & Epub).
  destruct (published_at log w Hrun pre _ post El) as [(_ & _ & _ & Hm') Hstor].
  simpl in Hm'. rewrite Hm in Hm'. injection Hm' as Em.
  pose proof (run_layout log w Hinv) as [_ _ [_ Hcap] _ _ _ _ _]. pose proof (stage_fits _ _ _ Hst) as Hfit.
  unfold read. apply (reaches_try _ _ _ _ _ _ _ reaches_state_slot).
  apply (reaches_bind _ _ _ _ _ (Some (identity_bytes market))).
  { by apply reaches_identity. }
  apply (reaches_lift _ _ _ (identity_bytes market)); [done|].
  pose proof (entry_once i Hi _ Hm) as (Hw & _).
  apply (reaches_lift _ _ _ market).
  { by rewrite (market_decoded log w Hrun _ _ Hm Hw). }
  change (reader_layout self) with l.
  rewrite <- (app_nil_r (attempt_loads _ _ _)).
  apply (reaches_try _ _ [] _ _ (Some (staged_words i staged ct at_))).
  { apply reaches_seqlocked; [done|by apply (slot_valid log)|by apply (safe_slot_words log)|
      rewrite Epub; by destruct (publications _ _ pre)|].
    unfold part_cells. rewrite eval_read_words; [|destruct (run_layout log w Hinv); unfold l; lia|apply (slot_room _ (run_layout log w Hinv))].
    f_equal. rewrite Epub, app_comm_cons, contents_snoc. apply staged_words_read; [done|done|].
    by apply (slot_index_kept log w Hinv). }
  apply (reaches_lift _ _ _ (staged_words i staged ct at_)); [done|].
  apply reaches_deny; [cbn [staged_words sw_directory_index]; fold i; by rewrite Z.eqb_refl|].
  apply reaches_deny; [destruct Hfit as [_ Hl]; cbn [staged_words sw_level_count]; by apply Z.ltb_ge|].
  rewrite Em, (decode_staged l book staged i ct at_ Hstor Hst). apply reaches_ret.
Qed.

(** The loads of a look at the cursor: the gate, the slot index, and one attempt. *)
Definition latest_cursor : list (option nat) :=
  gate_loads ++ attempt_loads h (part_base l (SlotPart i)) (read_cursor_words (part_cells w (SlotPart i))).

Lemma reaches_read_cursor : reaches_by h latest_cursor (read_cursor self handle)
  (Ok {| sc_revision := book.(published_revision); sc_continuity := book.(published_continuity) |}).
Proof.
  destruct handle_installed as [Hi Hm]. destruct state_staged as (staged & Hst & Epub).
  pose proof (run_layout log w Hinv) as [_ _ [_ Hcap] _ _ _ _ _]. pose proof (stage_fits _ _ _ Hst) as Hfit.
  destruct (staged_cursor w book staged Hst) as [Er Ec].
  unfold read_cursor. apply (reaches_try _ _ _ _ _ _ _ reaches_state_slot).
  set (words := {| cw_book_revision := staged.(st_book_revision);
    cw_continuity_epoch := staged.(st_continuity_epoch);
    cw_continuity_position := staged.(st_continuity_position);
    cw_continuity_kind := staged.(st_continuity_kind);
    cw_continuity_reason := staged.(st_continuity_reason); cw_directory_index := i |}).
  rewrite <- (app_nil_r (attempt_loads _ _ _)).
  apply (reaches_try _ _ [] _ _ (Some words)).
  { apply reaches_seqlocked; [done|by apply (slot_valid log)|by apply (safe_slot_cursor log)|
      rewrite Epub; by destruct (publications _ _ pre)|].
    unfold part_cells. rewrite eval_read_cursor.
    - f_equal. rewrite Epub, app_comm_cons, contents_snoc.
      apply (staged_cursor_read _ _ i l.(level_capacity)); [done|done|]. by apply (slot_index_kept log w Hinv).
    - pose proof (slot_room _ (run_layout log w Hinv)) as Hr.
      destruct (run_layout log w Hinv) as [_ _ [? _] _ _ _ _ _].
      unfold LEVEL_CELL_BYTES in Hr. simpl. unfold l. lia. }
  apply (reaches_lift _ _ _ words); [done|]. cbn [words cw_directory_index cw_continuity_kind cw_continuity_reason
    cw_continuity_epoch cw_continuity_position cw_book_revision].
  apply reaches_deny; [fold i; by rewrite Z.eqb_refl|].
  apply (reaches_lift _ _ _ (published_continuity book)); [by rewrite Ec|]. rewrite Er. apply reaches_ret.
Qed.
End state.
End handle.
End rest.

(** ** Events *)

Section event.
Context (log : list Publication) (w : SegmentWriter) (Hrun : typed_run log w).
Let l := writer_layout w.
Let Hinv := contract_inv log w Hrun.
Context (handle : MarketHandle) (cursor : MutationCursor) (Hs : handle.(segment) = w.(binding)).
Let p := EventPart handle.(entry_index) cursor.(cursor_position).
Context (Hv : part_valid l p).

Lemma event_words_into x : publication_ok l (markets w) x ->
  publication_index x = handle.(entry_index) -> publication_cursor x = Some cursor ->
  is_Some (words_into l p x).
Proof.
  intros [_ Hok] Hidx Hc. destruct x as [|index revision c m ct at_|index revision c r ct at_]; [done|..];
    simpl in Hidx, Hc; injection Hc as ->; subst index; destruct Hok as (_ & Hst & _); simpl;
    rewrite !Z.eqb_refl; cbn [andb].
  - destruct (stage_mutation m); [by eexists|done].
  - destruct (stage_resolution r); [by eexists|done].
Qed.

Lemma reaches_event_slot : reaches_by w.(memory).(history) []
  (event_slot (reader_of w) handle cursor.(cursor_position)) (Ok (part_cells w p)).
Proof.
  unfold event_slot. apply reaches_deny; [by rewrite bool_decide_true|].
  assert (E : event_slot_record (size_bytes (region w)) l (entry_index handle) (cursor_position cursor)
    = Ok (part_cells w p)) by (apply event_at; [by apply (run_placed log)|exact Hv]).
  rewrite (f_equal (map_err ReadSegment) E : map_err ReadSegment (event_slot_record
    (reader_size (reader_of w)) (reader_layout (reader_of w)) (entry_index handle)
    (cursor_position cursor)) = Ok (part_cells w p)). apply reaches_ret.
Qed.

Lemma event_stored x pre post : log = pre ++ x :: post ->
  publication_index x = handle.(entry_index) -> publication_cursor x = Some cursor ->
  Forall (fun y => words_into l p y = None) post ->
  exists words, published_words x = Some words /\
    reaches_by w.(memory).(history)
      (attempt_loads w.(memory).(history) (part_base l p) (read_event_words (part_cells w p)))
      (event_words (reader_of w) handle cursor) (Ok (Some words)).
Proof.
  intros El Hidx Hc Hpost. destruct (published_at log w Hrun pre x post El) as [Hok _].
  destruct (event_words_into x Hok Hidx Hc) as [ws Hws].
  pose proof (publications_last log w Hrun p pre x post ws El Hws Hpost) as Epub.
  set (prep := prepared l (len (markets w)) p).
  destruct (event_words_of w _ _ x ws (part_base l p) (contents (prep :: publications l p pre)) Hws)
    as (_ & _ & Hw).
  eexists. split; [exact Hw|]. unfold event_words.
  apply (reaches_try _ [] _ _ _ _ _ reaches_event_slot).
  apply (reaches_seqlocked log w Hrun p); [done|exact Hv|apply safe_read_event|
    unfold l in *; rewrite Epub; by destruct (publications _ _ pre)|].
  unfold part_cells. simpl part_size. rewrite eval_read_event. unfold l in *.
  by rewrite Epub, app_comm_cons, contents_snoc.
Qed.
End event.

(** ** Properties *)

(** No publication of a list goes to a record. *)
Definition untouched (l : SegmentLayout) (p : Part) (log : list Publication) : Prop :=
  Forall (fun x => words_into l p x = None) log.

(** C27: What is published can be read, at the first attempt. Once the writer has published a
    book for a market, and until it publishes another, a reader that holds the market's
    handle and takes the latest stores reads, from whatever view it has, exactly that book
    with the stamps of its publication; and the loads of the whole read are exactly those of
    the entry's gate, its slot index, its identity, and one single attempt at the record: the
    counter, the record once, and the counter again. *)
Theorem published_book_is_read log w handle pre post position book commit_time arrival_time :
  typed_run log w -> 0 <= handle.(entry_index) ->
  addressable handle book.(published_market) w ->
  log = pre ++ StatePublished handle.(entry_index) position book commit_time arrival_time :: post ->
  untouched (writer_layout w) (SlotPart handle.(entry_index)) post ->
  reaches_by w.(memory).(history) (latest_read w handle book.(published_market))
    (read (reader_of w) handle) (Ok (snapshot_of book commit_time arrival_time)).
Proof.
  intros Hrun H0 Ha El Hpost.
  by apply (reaches_read log w Hrun handle book.(published_market) H0 Ha pre post position).
Qed.

Lemma published_book_is_read_witness :
  reaches_by demo_writer.(memory).(history) demo_choices (read (reader_of demo_writer) demo_handle)
    (Ok (snapshot_of demo_book 100 90)).
Proof.
  assert (demo_choices = latest_read demo_writer demo_handle demo_book.(published_market)) as ->
    by by vm_compute.
  apply (published_book_is_read demo_log demo_writer demo_handle []
    [MutationPublished 0 1 demo_cursor demo_mutation 101 91] 0 demo_book 100 90 demo_run).
  - done.
  - split_and!; by vm_compute.
  - reflexivity.
  - by apply Forall_singleton.
Defined.

(** The loads of a poll on the latest stores: those of a look at the cursor, and one attempt
    at the ring slot of the stream's cursor. *)
Definition latest_poll (w : SegmentWriter) (stream : EventStream) : list (option nat) :=
  let h := w.(memory).(history) in
  let ring := EventPart stream.(stream_handle).(entry_index) stream.(stream_cursor).(cursor_position) in
  latest_cursor w stream.(stream_handle)
  ++ attempt_loads h (part_base (writer_layout w) ring) (read_event_words (part_cells w ring)).

(** C28: What is published is delivered. While the state of a stream's market is intact in
    the stream's epoch, and the last publication to the ring slot of the stream's cursor is
    the event at that cursor, a poll that takes the latest stores delivers exactly that
    event, with one attempt at the cursor and one at the ring slot, and advances the stream
    by one. *)
Theorem published_event_is_polled log w stream pre1 post1 position book commit_time arrival_time
    next pre2 post2 x event :
  typed_run log w -> stream_attached w stream -> stream.(stream_lost) = None ->
  let handle := stream.(stream_handle) in
  let cursor := stream.(stream_cursor) in
  addressable handle stream.(stream_market) w -> cursor.(cursor_position) < U64_MAX ->
  log = pre1 ++ StatePublished handle.(entry_index) position book commit_time arrival_time :: post1 ->
  untouched (writer_layout w) (SlotPart handle.(entry_index)) post1 ->
  book.(published_continuity) = Intact cursor.(cursor_epoch) next ->
  log = pre2 ++ x :: post2 ->
  untouched (writer_layout w) (EventPart handle.(entry_index) cursor.(cursor_position)) post2 ->
  publication_index x = handle.(entry_index) -> publication_cursor x = Some cursor ->
  published_event x = Some event ->
  reaches_by w.(memory).(history) (latest_poll w stream) (poll (reader_of w) stream)
    (Ok (Delivered event), advance_to {| cursor_epoch := cursor.(cursor_epoch);
                                         cursor_position := cursor.(cursor_position) + 1 |} stream).
Proof.
  intros Hrun Hat Hl handle cursor Ha Hmax El1 Hp1 Hcont El2 Hp2 Hidx Hc He.
  pose proof (contract_inv log w Hrun) as Hinv. pose proof Hat as (H0 & Hpos & Hm).
  destruct (attached_valid log w Hrun stream Hat) as [_ Hring]. cbv zeta in Hring.
  fold handle cursor in Hring, Hm, H0, Hpos.
  destruct (published_at log w Hrun pre2 x post2 El2) as [Hok Hst].
  destruct (event_stored log w Hrun handle cursor (proj1 Ha) Hring x pre2 post2 El2 Hidx Hc Hp2) as (words & Hw & Hev).
  destruct (published_words_cursor x words Hw) as [Hc' Hd]. rewrite Hc in Hc'. injection Hc' as Hcw.
  rewrite Hidx in Hd.
  destruct (published_words_decoded w x words stream.(stream_market) cursor Hok Hst) as (e & He' & Hdec);
    [by rewrite Hidx|done|done|]. rewrite He in He'. injection He' as <-.
  unfold poll. rewrite Hl.
  eapply reaches_bind.
  { by apply (reaches_read_cursor log w Hrun handle _ H0 Ha pre1 post1 position book _ _ El1 Hp1). }
  cbn [sc_continuity]. rewrite Hcont. fold cursor. rewrite Z.eqb_refl. cbn [negb]. unfold poll_ring.
  fold handle cursor. rewrite <- (app_nil_r (attempt_loads _ _ _)).
  eapply reaches_bind; [exact Hev|]. cbv iota. rewrite <- Hcw.
  rewrite Z.ltb_irrefl. unfold later. rewrite Z.eqb_refl, !Z.ltb_irrefl. cbn [orb andb].
  rewrite bool_decide_true, Hd, Z.eqb_refl by done. cbn [negb]. rewrite Hdec.
  unfold checked_add_u64. rewrite checked_in by lia. apply reaches_ret.
Qed.

Lemma published_event_is_polled_witness : exists event,
  published_event (MutationPublished 0 1 demo_cursor demo_mutation 101 91) = Some event /\
  reaches_by demo_writer.(memory).(history) demo_poll_choices (poll (reader_of demo_writer) demo_stream)
    (Ok (Delivered event), advance_to {| cursor_epoch := 0; cursor_position := 1 |} demo_stream).
Proof.
  eexists. split; [reflexivity|].
  assert (demo_poll_choices = latest_poll demo_writer demo_stream) as -> by by vm_compute.
  eapply (published_event_is_polled demo_log demo_writer demo_stream []
    [MutationPublished 0 1 demo_cursor demo_mutation 101 91] 0 demo_book 100 90 _
    [StatePublished 0 0 demo_book 100 90] [] (MutationPublished 0 1 demo_cursor demo_mutation 101 91)
    _ demo_run).
  - split_and!; by vm_compute.
  - done.
  - split_and!; by vm_compute.
  - by vm_compute.
  - reflexivity.
  - by apply Forall_singleton.
  - vm_compute. reflexivity.
  - reflexivity.
  - constructor.
  - reflexivity.
  - reflexivity.
  - reflexivity.
Defined.
